(* ===== verification/_CoqProject ===== *)
-Q . S2P
Prelude.v
GlobalDefinitions.v
CompressedStream.v
GrowableArray.v
VMReg.v
OopRecorder.v
ObjectLookup.v
DebugInfo.v
RecorderIndex.v
OopMap.v
FrameOops.v
DebugInfoRec.v
ScopeDesc.v
Safepoints.v
PcDescFinder.v
NMethod.v
ExceptionCache.v
ExceptionCacheReader.v
ExceptionTables.v
ExceptionDispatch.v
CodeInstaller.v
VirtualObjects.v
InstallSites.v
CodeHeap.v
CodeHeapLookup.v
CodeCache.v
RelocInfo.v
CodeBuffer.v
TaskQueue.v
JNIHandles.v
JNIRefinement.v
Sweeper.v
SweeperInvariant.v
SweeperSafety.v
SweeperProgress.v
Mutex.v
MutexInvariant.v
MutexSteps.v
MutexSafety.v
