(* ===== verification/Prelude.v ===== *)
(** * Compiled code in the JVMCI HotSpot VM: what the runtime knows about it

    A compiler (C1, C2 or, through JVMCI, a compiler written in Java) hands the
    VM machine code together with tables that describe it: where object pointers
    are at each safepoint, how to rebuild interpreter frames, which handler an
    exception goes to. The VM compresses these tables into an nmethod and reads
    them back when it collects garbage, deoptimizes or throws. This development
    models that path in the C++ sources under src/src/share/vm (and the AMD64
    port under src/src/cpu/x86/vm) and proves that what is read is what was
    recorded.

    ** Files, in dependency order, and what they model

    - [Prelude]: machine integers as [Z] with explicit wrap-around ([wrapU],
      [wrapS]), a state monad with failure [M], arrays indexed by C++ integers
      ([zget], [zset]; [None] is an access outside the array), association lists,
      and the class [SizeArith] of how the capacities of containers compute.
    - [GlobalDefinitions]: utilities/globalDefinitions.hpp, the arithmetic used.
    - [CompressedStream]: code/compressedStream.hpp/.cpp, the UNSIGNED5 coding
      and the growing write stream.
    - [GrowableArray] (Module [GA]): utilities/growableArray.hpp.
    - [VMReg]: code/vmreg.hpp, code/location.hpp and their x86 parts.
    - [OopRecorder] (Module [VR]) and [ObjectLookup] (Module [OL]):
      code/oopRecorder.hpp/.cpp, tables of the objects and metadata code refers
      to, with an index cache and with de-duplication by object address that
      survives moving collections. Handles are the interface [HandleWorld].
    - [DebugInfo], [RecorderIndex]: code/debugInfo.hpp/.cpp, values of the
      debug information and their serialisation. [IndexRecorder] is what the
      serialisation needs of a recorder; [RecorderIndex] gives it both recorders.
    - [OopMap]: compiler/oopMap.hpp/.cpp, maps, sets of maps, streams, copies.
    - [FrameOops]: the parts of oopMap.cpp, runtime/registerMap.hpp and
      registerMap_x86.cpp that visit the oops of a frame, the derived pointer
      table and the register map.
    - [DebugInfoRec]: code/debugInfoRec.hpp/.cpp and code/pcDesc.hpp, the
      recorder with sharing of equal chunks.
    - [ScopeDesc]: code/scopeDesc.hpp/.cpp, the reader.
    - [Safepoints]: sequences of recorder calls as the compilers make them, and
      reading all scopes of a descriptor.
    - [PcDescFinder]: in code/nmethod.hpp/.cpp the array of pc descriptors, its
      cache and its searches.
    - [NMethod]: recorder, copy, search and reader together.
    - [ExceptionCache], [ExceptionCacheReader]: in code/nmethod.hpp/.cpp the
      exception cache as linked blocks in a heap, and its lock-free readers as
      a transition system of single loads and stores.
    - [ExceptionTables]: code/exceptionHandlerTable.hpp/.cpp.
    - [ExceptionDispatch]: the search for a handler in runtime/sharedRuntime.cpp,
      oops/method.cpp and jvmci/jvmciRuntime.cpp, and the recording of handlers
      in jvmci/jvmciCodeInstaller.cpp.
    - [CodeInstaller]: in jvmci/jvmciCodeInstaller.cpp and its x86 part the
      translation of a JVMCI compiler's reference maps, frames, locks and
      virtual objects. A result is [Ok], an error of the source ([Throw]) or an
      access the source does not check ([Crash]).
    - [VirtualObjects]: the objects [record_virtual_objects] makes.
    - [InstallSites]: the safepoint sites of a method, from the Java objects to
      the recorder and back.
    - [CodeHeap], [CodeHeapLookup]: memory/heap.hpp/.cpp, the allocator of the
      code cache: blocks of segments, the map from segments to blocks, the free
      list. An access outside committed memory is [None].
    - [CodeCache]: code/codeCache.hpp/.cpp on top of it: start-up, allocation with
      expansion, release, lookup and the loops over blobs.
    - [RelocInfo]: code/relocInfo.hpp/.cpp, relocation records as 16-bit words
      with prefixes, the iterator over them and the change of a record's type.
    - [CodeBuffer]: asm/codeBuffer.hpp/.cpp and the relocations of relocInfo.cpp,
      the sections code is assembled in, their expansion with the copy of the
      code bytes, and the copy of relocations to their final place.
    - [TaskQueue]: utilities/taskqueue.hpp/.cpp, the work-stealing queue of the
      parallel collectors, as programs of single loads, stores and
      compare-and-exchanges whose interleavings are the executions.
    - [JNIHandles]: runtime/jniHandles.hpp/.cpp, blocks of handles, their free
      lists and traversal, with the places that change a thread's handles:
      local frames in prims/jni.cpp, calls of Java in runtime/javaCalls.cpp, start
      and end of threads in runtime/thread.cpp, the return of a native method.
    - [JNIRefinement]: these operations and an abstract table of live handles.
    - [Sweeper]: runtime/sweeper.hpp/.cpp and the states of an nmethod in
      code/nmethod.hpp/.cpp, as steps of a VM whose threads call, return and
      resolve call sites while the sweeper runs. [SweeperInvariant]: the
      invariant, with weakest preconditions over the state monad.
      [SweeperSafety], [SweeperProgress]: every step, and passes of the sweeper.
    - [Mutex]: runtime/mutex.hpp/.cpp, the native monitor as a machine of single
      loads, stores and compare-and-swaps of its threads. [MutexInvariant]: what
      a thread knows at each program point, and when others leave it true.
      [MutexSteps], [MutexSafety]: the kinds of access, and every program point.

    An object is a [Record] with the fields of the C++ class, a method a
    [Definition] of the same name on it, a loop a [Fixpoint]. C++ heap objects
    that are shared or mutated through pointers are entries of a finite map from
    addresses ([ObjectValue]s, [ExceptionCache] blocks, the words of a frame).
    Null is [0] where the source has an address, [None] elsewhere.

    ** What is proved

    - Debug information: what a compiler records is read back, whatever is
      shared, cyclic or de-duplicated ([NMethod.nmethod_debug_info]); the fast
      search is the linear one ([PcDescFinder.find_pc_desc_linear]).
    - Garbage collection: a collection updates exactly the pointers of the maps
      ([FrameOops.collection_updates_frame]); maps survive all their copies.
    - Tables of objects: the contract of the recorders, across collections.
    - Exceptions: the cache is a map, its readers need no lock, dispatch with it
      is dispatch without it while classes are unloaded and others take their
      addresses, and code installed through JVMCI continues where its compiler
      said.
    - Containers and codings: refinement of lists, results included, round trips
      and sizes, in the source's [int] arithmetic up to stated bounds.
    - Installation: on well-formed debug information the installer never
      crashes and what it records is what the frames say
      ([InstallSites.installed_safepoints]); oop maps, frames and virtual objects
      have specifications of their own, errors included.
    - The code cache: in every state reached from start-up, with the owners of
      blobs writing what they like to their space, live blobs are disjoint and
      found by their addresses ([CodeCache.code_cache_safe]), loops visit each of
      them once, and allocation ends and fails only for want of room.
    - Relocations: what is recorded while code is emitted and moved by expansions
      is what the installed code's iterator finds, at the address and with the
      target it was meant for ([CodeBuffer.relocations_survive]); an expansion
      copies every byte of code to its place and keeps relocation words and
      locators ([CodeBuffer.code_buffer_expansion]).
    - Work stealing: every execution is that of a queue whose operations are
      atomic; nothing is lost or taken twice
      ([TaskQueue.task_queue_linearizable]).
    - Handles: the handle blocks implement tables of live handles for native
      code, the runtime and the collector
      ([JNIRefinement.jni_handles_refine_tables]).
    - Reclamation of code: no thread ever enters or returns to code the sweeper
      freed, under every interleaving of the steps of the VM
      ([SweeperSafety.sweeper_frees_no_code_in_use]); code that nothing uses is
      freed within four passes ([SweeperProgress.unused_code_is_reclaimed]).
    - Native monitors: mutual exclusion and the assertions of the source under
      every interleaving ([MutexSafety.monitor_excludes]); nobody stays parked at
      a free lock ([MutexSafety.monitor_loses_no_wakeup]), which is about states
      in which no thread can move, not about fairness or the number of steps.

    Where a theorem shows that the code does not do what it should, the
    statement says so (for example [OopMap.has_derived_pointer_inverted] and
    [ExceptionDispatch.handler_search_can_diverge]).

    ** Bounds, fuel and assumptions

    - The configuration is AMD64 (64-bit words, 4-byte stack slots, compressed
      oops possible), product semantics: what the source asserts is mostly not
      checked by the definitions but proved or assumed by the theorems that need
      it. In [Sweeper] and [Mutex] a failed assertion or guarantee is a failure of
      the step, and the theorems show there is none ([Mutex] says which assertions
      are left out).
    - Capacities: the theorems on streams, growable arrays, oop maps and handler
      tables are for [int] capacities ([int32]) and bound the contents: 2^30 bytes
      or elements, 2^27 handler entries, below 2^31 bytes for a set of oop maps. A
      stream, array or map inside a larger structure (a recorder, an installer, a
      frame) uses [ideal], which agrees with [int] arithmetic up to 2^30
      ([double_agrees]).
    - Data to be read back from an nmethod is shorter than 2^31 bytes, recorder
      indexes are below 2^30, handle collections below 2^32: each is a hypothesis
      where it is used.
    - Uninitialised memory is 0 in arrays and [None] in the fields of an oop map; no
      theorem depends on it.
      The word in front of the pc descriptors and the padding behind a handler
      table are arbitrary.
    - Fuel: the nesting of a write is at most the number of objects plus one, of
      a read the length of the data plus one; searches in tables get their
      length plus one, walks along the exception cache its number of blocks plus
      one, the search for a handler one step per scope and rank of a failing
      resolution; a register's location is found in two steps; the free list and the loops
      over blobs get the number of segments in use plus one, expansions of the
      code cache the number of reserved segments plus two; an iterator over
      relocations gets the number of their words plus one; walks along handle
      blocks get twice the number of blocks plus one, and an allocation of a
      handle three attempts. Theorems state that the result is returned with this
      fuel.
    - The sections of a code buffer are below 2^28 bytes and two relocations less
      than 2^22 bytes apart (beyond, the estimate of the space for fillers is too
      small: [CodeBuffer.giant_gap_overruns]). The tag of a task queue has not
      come around (fewer than 2^32 changes), and there are fewer than 2^25 handle
      blocks.
    - The page sizes of the operating system are powers of two that whole
      segments fit into, its answers to requests for memory are arguments. The
      theorems on the code cache assume that its segment map can be expanded.
    - Allocation of C++ objects returns fresh addresses (a parameter with that hypothesis);
      moving objects is a parameter of the collection.
    - Memory is sequentially consistent in [ExceptionCacheReader], [TaskQueue]
      and [Mutex].
    - In [Mutex] a park event is a permit and [_WaitLock] a lock by the contract
      of [Thread::muxAcquire]; a spinner gives up, a park times out and a waiting
      thread is suspended when the environment says so. The barging path of
      [ILock], an experimental flag, is off (with it an assertion fails:
      [MutexSafety.barging_violates_assertion]).
    - The C heap returns addresses outside of live blocks and of the collected
      heap. A collection visits every table of handles once, keeps the mark of
      deleted handles alive and gives no other object its address.
    - One visit of the sweeper to an nmethod is atomic, and so is the patching of
      a call site; a thread that has read the destination of a call reaches the
      entry point before the next safepoint; runs have fewer than 2^31 steps, so
      that lock counts and traversal numbers do not wrap.

    ** Not modelled

    The compilers, the interpreter and generated stubs (machine code), the
    collectors themselves (they appear as the closure that moves objects),
    class loading (resolution of a class is a parameter), Java monitors, threads
    and operating systems, sneaking past native monitors at a safepoint and the
    raw monitors built on them, JVMTI and most JNI entries, the serviceability agent and the Java
    side of JVMCI. The repair of addresses inside code that has moved
    ([fix_relocation_after_move]), a matter of the instruction set. Printing, statistics and verification code of the modelled
    classes is left out. *)

From stdpp Require Import base numbers list gmap.
Local Open Scope Z_scope.

(** ** Machine integers

    An integer of the source is a [Z]; each arithmetic step whose C++ type is
    a [w]-bit type is wrapped explicitly.  [wrapU w] is the conversion to an
    unsigned [w]-bit type, [wrapS w] the conversion to a signed one (two's
    complement, what the supported compilers do). *)

Definition wrapU (w x : Z) : Z := x mod 2 ^ w.
Definition wrapS (w x : Z) : Z := (x + 2 ^ (w - 1)) mod 2 ^ w - 2 ^ (w - 1).

Abbreviation u8 := (wrapU 8).
Abbreviation u16 := (wrapU 16).
Abbreviation u32 := (wrapU 32).
Abbreviation u64 := (wrapU 64).
Abbreviation s8 := (wrapS 8).
Abbreviation s16 := (wrapS 16).
Abbreviation s32 := (wrapS 32).
Abbreviation s64 := (wrapS 64).

Definition in_u (w x : Z) : Prop := 0 ≤ x < 2 ^ w.
Definition in_s (w x : Z) : Prop := - 2 ^ (w - 1) ≤ x < 2 ^ (w - 1).
Abbreviation is_u_char := (in_u 8).
Abbreviation is_jchar := (in_u 16).
Abbreviation is_juint := (in_u 32).
Abbreviation is_jbyte := (in_s 8).
Abbreviation is_jshort := (in_s 16).
Abbreviation is_jint := (in_s 32).
Abbreviation is_jlong := (in_s 64).

#[global] Instance in_u_dec w x : Decision (in_u w x).
Proof. unfold in_u. apply _. Defined.
#[global] Instance in_s_dec w x : Decision (in_s w x).
Proof. unfold in_s. apply _. Defined.

(** [machine] turns goals on wrapped integers of concrete width into linear
    arithmetic. *)
Ltac machine_cst :=
  repeat match goal with
  | |- context [2 ^ ?n] =>
      let v := eval vm_compute in (2 ^ n) in progress change (2 ^ n) with v
  | H : context [2 ^ ?n] |- _ =>
      let v := eval vm_compute in (2 ^ n) in progress change (2 ^ n) with v in H
  end.
Ltac machine :=
  unfold in_u, in_s, wrapU, wrapS in *; simpl Z.sub in *; machine_cst;
  Z.div_mod_to_equations; lia.

Lemma wrapU_range w x : 0 ≤ w → in_u w (wrapU w x).
Proof. intros Hw. unfold in_u, wrapU. apply Z.mod_pos_bound. lia. Qed.

Lemma wrapS_range w x : 0 < w → in_s w (wrapS w x).
Proof.
  intros Hw. unfold in_s, wrapS.
  pose proof (Z.mod_pos_bound (x + 2 ^ (w - 1)) (2 ^ w)) as Hb.
  assert (2 ^ w = 2 * 2 ^ (w - 1)) as Hp.
  { rewrite <- Z.pow_succ_r by lia. f_equal. lia. }
  lia.
Qed.

Lemma wrapU_id w x : in_u w x → wrapU w x = x.
Proof. apply Z.mod_small. Qed.

Lemma wrapS_id w x : 0 < w → in_s w x → wrapS w x = x.
Proof.
  intros Hw Hx. unfold in_s, wrapS in *.
  assert (2 ^ w = 2 * 2 ^ (w - 1)) as Hp.
  { rewrite <- Z.pow_succ_r by lia. f_equal. lia. }
  rewrite Z.mod_small; lia.
Qed.

Lemma wrapU_wrapU w x : wrapU w (wrapU w x) = wrapU w x.
Proof. apply Zmod_mod. Qed.

Lemma wrapU_wrapS w x : wrapU w (wrapS w x) = wrapU w x.
Proof.
  unfold wrapU, wrapS. rewrite Zminus_mod_idemp_l. f_equal. lia.
Qed.

Lemma wrapS_wrapU w x : wrapS w (wrapU w x) = wrapS w x.
Proof. unfold wrapU, wrapS. by rewrite Zplus_mod_idemp_l. Qed.

Lemma wrapS_cong w x y : wrapU w x = wrapU w y → wrapS w x = wrapS w y.
Proof. intros Hxy. by rewrite <- (wrapS_wrapU w x), Hxy, wrapS_wrapU. Qed.

Lemma wrapS_add_l w x y : wrapS w (wrapS w x + y) = wrapS w (x + y).
Proof.
  apply wrapS_cong. unfold wrapU at 1 2. rewrite <- Zplus_mod_idemp_l.
  change (wrapS w x mod 2 ^ w) with (wrapU w (wrapS w x)).
  rewrite wrapU_wrapS. unfold wrapU. by rewrite Zplus_mod_idemp_l.
Qed.

Lemma wrapS_add_r w x y : wrapS w (x + wrapS w y) = wrapS w (x + y).
Proof. by rewrite Z.add_comm, wrapS_add_l, Z.add_comm. Qed.

(** ** Sizes

    The growing containers of the source keep their capacity in an [int] and
    double it, [_size *= 2]; sizes in bytes are computed and returned as [int].
    How sizes compute is an argument of these containers: [int32] is the
    source's arithmetic, in which a capacity wraps around from 2^30 on, and
    [ideal] has no limit. The properties of the containers are proved for
    [int32], with the bound up to which they hold as a hypothesis; what is built
    of many containers is stated with [ideal], the same function below the bound
    ([double_agrees]). *)
Class SizeArith := {
  double : Z → Z;
  (** [roomy n]: no doubling on the way to a capacity for [n] elements wraps. *)
  roomy : Z → Prop;
  double_roomy n m : 0 ≤ n < m → roomy m → double n = n * 2;
  roomy_le n m : n ≤ m → roomy m → roomy n;
  (** The conversion of a size to [int]. *)
  to_int : Z → Z;
  to_int_small n : is_jint n → to_int n = n
}.

#[global, refine] Instance ideal : SizeArith := {| double n := n * 2; roomy _ := True; to_int n := n |}.
Proof. all: done. Defined.

Lemma int32_double n m : 0 ≤ n < m → m ≤ 2 ^ 30 → s32 (n * 2) = n * 2.
Proof. intros Hn Hm. machine. Qed.

Definition int32 : SizeArith := {|
  double n := s32 (n * 2);
  roomy n := n ≤ 2 ^ 30;
  double_roomy := int32_double;
  roomy_le n m := Z.le_trans n m (2 ^ 30);
  to_int n := s32 n;
  to_int_small n := wrapS_id 32 n eq_refl
|}.

Lemma int32_roomy n : n ≤ 2 ^ 30 → @roomy int32 n.
Proof. done. Qed.
Lemma ideal_roomy n : @roomy ideal n.
Proof. exact I. Qed.
#[export] Hint Resolve ideal_roomy : core.
Lemma ideal_to_int n : @to_int ideal n = n.
Proof. done. Qed.

Lemma double_agrees n m : 0 ≤ n < m → @roomy int32 m → @double int32 n = @double ideal n.
Proof. apply (@double_roomy int32). Qed.

(** ** Bitwise reasoning *)

Create Rewrite HintDb zbits.
#[export] Hint Rewrite Z.land_spec Z.lor_spec Z.lxor_spec : zbits.
#[export] Hint Rewrite Z.shiftl_spec Z.shiftr_spec Z.lnot_spec using lia : zbits.
#[export] Hint Rewrite Z.bits_0 andb_true_r andb_false_r andb_true_l andb_false_l
  orb_false_r orb_true_r orb_false_l orb_true_l xorb_false_r xorb_false_l : zbits.

Lemma testbit_wrapU w x i :
  0 ≤ i → 0 ≤ w → Z.testbit (wrapU w x) i = (i <? w) && Z.testbit x i.
Proof.
  intros Hi Hw. unfold wrapU.
  destruct (Z.ltb_spec i w).
  - by rewrite Z.mod_pow2_bits_low by lia.
  - by rewrite Z.mod_pow2_bits_high by lia.
Qed.

Lemma testbit_wrapS w x i :
  0 ≤ i < w → Z.testbit (wrapS w x) i = Z.testbit x i.
Proof.
  intros Hi.
  rewrite <- (Z.mod_pow2_bits_low (wrapS w x) w i) by lia.
  rewrite <- (Z.mod_pow2_bits_low x w i) by lia.
  f_equal. apply wrapU_wrapS.
Qed.

Lemma testbit_small w x i : in_u w x → 0 ≤ w ≤ i → Z.testbit x i = false.
Proof.
  intros Hx Hi. rewrite <- (wrapU_id w x) by done.
  rewrite testbit_wrapU by lia. by rewrite (proj2 (Z.ltb_ge i w)) by lia.
Qed.


Lemma in_u_lor w x y : 0 ≤ w → in_u w x → in_u w y → in_u w (Z.lor x y).
Proof.
  intros Hw Hx Hy. cut (wrapU w (Z.lor x y) = Z.lor x y).
  { intros <-. by apply wrapU_range. }
  rewrite <- (wrapU_id w x Hx), <- (wrapU_id w y Hy).
  apply Z.bits_inj'. intros i Hi. rewrite testbit_wrapU, !Z.lor_spec, !testbit_wrapU by done.
  by destruct (i <? w).
Qed.

Lemma in_u_land_r w x y : 0 ≤ w → in_u w y → in_u w (Z.land x y).
Proof.
  intros Hw Hy. cut (wrapU w (Z.land x y) = Z.land x y).
  { intros <-. by apply wrapU_range. }
  rewrite <- (wrapU_id w y Hy).
  apply Z.bits_inj'. intros i Hi. rewrite testbit_wrapU, !Z.land_spec, !testbit_wrapU by done.
  destruct (i <? w); simpl; by rewrite ?andb_false_r.
Qed.

Lemma in_u_shiftr w x n : 0 ≤ n → in_u w x → in_u w (Z.shiftr x n).
Proof.
  intros Hn [Hx1 Hx2]. rewrite Z.shiftr_div_pow2 by done. split.
  - apply Z.div_pos; lia.
  - eapply Z.le_lt_trans; [|done]. apply Z.div_le_upper_bound; [lia|].
    pose proof (Z.pow_pos_nonneg 2 n). nia.
Qed.

Create HintDb machine.
(** A field below bit [n] joined with one from bit [n] on. *)
Lemma lor_shiftl_add n k o : 0 ≤ n → in_u n k → Z.lor k (Z.shiftl o n) = o * 2 ^ n + k.
Proof.
  intros Hn Hk. assert (Z.land k (Z.shiftl o n) = 0) as Hd.
  { apply Z.bits_inj'. intros i Hi. rewrite Z.land_spec, Z.bits_0, Z.shiftl_spec by done.
    destruct (decide (i < n)); [rewrite (Z.testbit_neg_r o) by lia; apply andb_false_r|].
    by rewrite (testbit_small n k) by (done || lia). }
  rewrite <- Z.lxor_lor, <- Z.add_nocarry_lxor, Z.shiftl_mul_pow2 by done. lia.
Qed.

#[export] Hint Resolve in_u_lor in_u_land_r in_u_shiftr wrapU_range wrapS_range : machine.
#[export] Hint Extern 2 (_ ≤ _) => lia : machine.
#[export] Hint Extern 2 (_ < _) => lia : machine.
#[export] Hint Extern 2 (in_u _ (Zpos _)) => done : machine.

(** ** A state monad with failure

    [M S A] is a computation on state [S] that either fails (an access outside
    an array, or a value the source declares unreachable) or returns a value
    and the new state. *)

Definition M (S A : Type) : Type := S → option (A * S).

#[global] Instance M_ret S : MRet (M S) := λ A x s, Some (x, s).
#[global] Instance M_bind S : MBind (M S) := λ A B f m s,
  match m s with Some (x, s') => f x s' | None => None end.
#[global] Instance M_fmap S : FMap (M S) := λ A B f m s,
  match m s with Some (x, s') => Some (f x, s') | None => None end.

Lemma M_bind_Some {S A B} (m : M S A) (f : A → M S B) s x s' :
  m s = Some (x, s') → (m ≫= f) s = f x s'.
Proof. intros Hm. unfold mbind, M_bind. by rewrite Hm. Qed.

Definition mfailS {S A} : M S A := λ _, None.
Definition mget {S} : M S S := λ s, Some (s, s).
Definition mput {S} (s : S) : M S unit := λ _, Some (tt, s).
Definition mlift {S A} (o : option A) : M S A := λ s, (λ x, (x, s)) <$> o.

Lemma M_bind_get {S B} (f : S → M S B) s : (mget ≫= f) s = f s s.
Proof. done. Qed.
Lemma M_bind_lift {S A B} (o : option A) (f : A → M S B) s x :
  o = Some x → (mlift o ≫= f) s = f x s.
Proof. by intros ->. Qed.
Lemma M_bind_ret {S A B} (x : A) (f : A → M S B) s : (mret x ≫= f) s = f x s.
Proof. done. Qed.

(** Run [body 0 .. body (n-1)] in order (a counted [for] loop). *)
Fixpoint mfor {S} (n : nat) (i : Z) (body : Z → M S unit) : M S unit :=
  match n with
  | O => mret tt
  | S n' => body i ;; mfor n' (i + 1) body
  end.

Fixpoint mrepeat {S A} (n : nat) (m : M S A) : M S (list A) :=
  match n with
  | O => mret []
  | S n' => x ← m; xs ← mrepeat n' m; mret (x :: xs)
  end.

Fixpoint mmap {S A B} (f : A → M S B) (l : list A) : M S (list B) :=
  match l with
  | [] => mret []
  | a :: l' => x ← f a; xs ← mmap f l'; mret (x :: xs)
  end.

Fixpoint mforeach {S A} (f : A → M S unit) (l : list A) : M S unit :=
  match l with
  | [] => mret tt
  | a :: l' => f a ;; mforeach f l'
  end.

Lemma mforeach_app {S A} (f : A → M S unit) l1 l2 s :
  mforeach f (l1 ++ l2) s = (mforeach f l1 ;; mforeach f l2) s.
Proof.
  revert s. induction l1 as [|x l1 IH]; intros s; [done|]. cbn [mforeach app]. unfold mbind, M_bind in *.
  destruct (f x s) as [[u s']|]; [|done]. apply IH.
Qed.
Lemma mforeach_fmap {S A B} (f : A → M S unit) (g : B → M S unit) (h : A → B) l s :
  (∀ x s, x ∈ l → f x s = g (h x) s) → mforeach f l s = mforeach g (h <$> l) s.
Proof.
  revert s. induction l as [|x l IH]; intros s Hfg; [done|]. cbn [mforeach fmap list_fmap].
  unfold mbind, M_bind. rewrite Hfg by left. destruct (g (h x) s) as [[[] s']|]; [|done].
  apply IH. intros y t Hy. apply Hfg. by right.
Qed.

Lemma fst_functional {A B} (l : list (A * B)) a b c :
  NoDup l.*1 → (a, b) ∈ l → (a, c) ∈ l → b = c.
Proof.
  induction l as [|[a' b'] l IH]; cbn [fmap list_fmap fst]; [by intros _ ?%elem_of_nil|].
  intros [Hn Hnd]%NoDup_cons Hb Hc.
  assert (∀ x, (a', x) ∈ l → False) as Hl.
  { intros x Hx. apply Hn. apply list_elem_of_fmap. by exists (a', x). }
  apply elem_of_cons in Hb as [Hb|Hb], Hc as [Hc|Hc]; simplify_eq; try done.
  - by destruct (Hl c).
  - by destruct (Hl b).
  - by apply IH.
Qed.

Lemma exists_last_or_nil {A} (l : list A) : l = [] ∨ ∃ l' x, l = l' ++ [x].
Proof. destruct l as [|x l _] using rev_ind; [by left|right; by exists l, x]. Qed.

(** ** Arrays indexed by C++ integers *)

Section zarray.
Context {A : Type}.
Implicit Types (l : list A) (i : Z) (x : A).

Definition zget l i : option A :=
  if decide (0 ≤ i) then l !! Z.to_nat i else None.

Definition zset l i x : option (list A) :=
  if decide (0 ≤ i < Z.of_nat (length l)) then Some (<[Z.to_nat i := x]> l) else None.

Definition zlen l : Z := Z.of_nat (length l).

Lemma zget_nat l (n : nat) : zget l (Z.of_nat n) = l !! n.
Proof. unfold zget. rewrite decide_True by lia. by rewrite Nat2Z.id. Qed.

Lemma zget_Some l i x : zget l i = Some x → 0 ≤ i < zlen l.
Proof.
  unfold zget, zlen. case_decide; [|done].
  intros Hl%lookup_lt_Some. lia.
Qed.

Lemma zget_elem l i x : zget l i = Some x → x ∈ l.
Proof. unfold zget. case_decide; [apply list_elem_of_lookup_2|done]. Qed.

Lemma zget_is_Some l i : 0 ≤ i < zlen l → is_Some (zget l i).
Proof.
  intros H. unfold zget, zlen in *. rewrite decide_True by lia.
  apply lookup_lt_is_Some. lia.
Qed.

Lemma zget_app_l l1 l2 i : i < zlen l1 → zget (l1 ++ l2) i = zget l1 i.
Proof.
  intros H. unfold zget, zlen in *. case_decide; [|done].
  apply lookup_app_l. lia.
Qed.

Lemma zget_app_r l1 l2 i : zlen l1 ≤ i → zget (l1 ++ l2) i = zget l2 (i - zlen l1).
Proof.
  intros H. unfold zget, zlen in *. rewrite !decide_True by lia.
  rewrite lookup_app_r by lia. f_equal. lia.
Qed.

Lemma zset_Some l i x l' :
  zset l i x = Some l' → 0 ≤ i < zlen l ∧ l' = <[Z.to_nat i := x]> l.
Proof. unfold zset, zlen. intros Hs. case_match; by simplify_eq. Qed.

Lemma zset_zlen l i x l' : zset l i x = Some l' → zlen l' = zlen l.
Proof. intros [_ ->]%zset_Some. unfold zlen. by rewrite length_insert. Qed.

Lemma zset_app l1 x l2 y :
  zset (l1 ++ x :: l2) (zlen l1) y = Some (l1 ++ y :: l2).
Proof.
  unfold zset, zlen. rewrite decide_True by (rewrite length_app; simpl; lia).
  rewrite Nat2Z.id. f_equal. by rewrite insert_app_r_alt, Nat.sub_diag by lia.
Qed.

Lemma zget_insert l i x j :
  0 ≤ i < zlen l → zget (<[Z.to_nat i := x]> l) j = if decide (j = i) then Some x else zget l j.
Proof.
  intros Hi. unfold zlen in Hi. unfold zget. case_decide as Hj.
  - destruct (decide (j = i)) as [->|Hne].
    + by rewrite list_lookup_insert_eq by lia.
    + by rewrite list_lookup_insert_ne by lia.
  - by rewrite decide_False by lia.
Qed.

Lemma zset_eq l i x : 0 ≤ i < zlen l → zset l i x = Some (<[Z.to_nat i := x]> l).
Proof. intros Hi. unfold zset. by rewrite decide_True. Qed.

Lemma zlen_nonneg l : 0 ≤ zlen l.
Proof. unfold zlen. lia. Qed.
Lemma zlen_app l1 l2 : zlen (l1 ++ l2) = zlen l1 + zlen l2.
Proof. unfold zlen. rewrite length_app. lia. Qed.
Lemma zlen_cons x l : zlen (x :: l) = zlen l + 1.
Proof. unfold zlen. cbn. lia. Qed.
Lemma zget_middle l1 x l2 : zget (l1 ++ x :: l2) (zlen l1) = Some x.
Proof. by rewrite zget_app_r, Z.sub_diag by lia. Qed.
End zarray.

Lemma zlen_fmap {A B} (f : A → B) (l : list A) : zlen (f <$> l) = zlen l.
Proof. unfold zlen. by rewrite length_fmap. Qed.

(** [bytes_at b p bs]: the cells of [b] from index [p] on hold [bs]. *)
Definition bytes_at {A} (b : list A) (p : Z) (bs : list A) : Prop :=
  ∀ (k : nat) x, bs !! k = Some x → zget b (p + Z.of_nat k) = Some x.

Section bytes_at.
Context {A : Type}.
Implicit Types (b bs : list A) (p : Z).

Lemma bytes_at_cons b p x bs :
  bytes_at b p (x :: bs) ↔ zget b p = Some x ∧ bytes_at b (p + 1) bs.
Proof.
  split.
  - intros Hb. split.
    + rewrite <- (Z.add_0_r p). by apply (Hb 0%nat).
    + intros k y Hk. replace (p + 1 + Z.of_nat k) with (p + Z.of_nat (S k)) by lia.
      by apply Hb.
  - intros [Hx Hb] [|k] y Hk; simpl in Hk; simplify_eq.
    + by rewrite Z.add_0_r.
    + replace (p + Z.of_nat (S k)) with (p + 1 + Z.of_nat k) by lia. by apply Hb.
Qed.

Lemma bytes_at_nil b p : bytes_at b p [].
Proof. intros k x Hk. done. Qed.

Lemma bytes_at_app b p bs1 bs2 :
  bytes_at b p (bs1 ++ bs2) ↔ bytes_at b p bs1 ∧ bytes_at b (p + zlen bs1) bs2.
Proof.
  revert p. induction bs1 as [|x bs1 IH]; intros p; simpl.
  - change (p + zlen []) with (p + 0). rewrite Z.add_0_r.
    split; [intros Hb; split; [apply bytes_at_nil|done]|by intros []].
  - rewrite !bytes_at_cons, IH.
    replace (p + 1 + zlen bs1) with (p + zlen (x :: bs1)) by (unfold zlen; simpl; lia).
    tauto.
Qed.

Lemma bytes_at_mono b b' p bs : b `prefix_of` b' → bytes_at b p bs → bytes_at b' p bs.
Proof.
  intros [k ->] Hb i x Hi. specialize (Hb i x Hi).
  rewrite zget_app_l; [done|]. apply zget_Some in Hb. lia.
Qed.

Lemma bytes_at_suffix b bs : bytes_at (b ++ bs) (zlen b) bs.
Proof.
  intros k x Hk. rewrite zget_app_r by lia.
  replace (zlen b + Z.of_nat k - zlen b) with (Z.of_nat k) by lia. by rewrite zget_nat.
Qed.
End bytes_at.

(** ** Association lists *)

Section assoc.
Context {K V : Type} `{EqDecision K}.
Implicit Types (k : K) (v : V) (l : list (K * V)).

Fixpoint assoc k l : option V :=
  match l with
  | [] => None
  | (k', v) :: l' => if decide (k = k') then Some v else assoc k l'
  end.

Lemma assoc_app k l1 l2 : assoc k (l1 ++ l2) = match assoc k l1 with Some v => Some v | None => assoc k l2 end.
Proof. induction l1 as [|[k' v] l1 IH]; cbn; [done|]. by case_decide. Qed.

Lemma assoc_elem k l v : assoc k l = Some v → (k, v) ∈ l.
Proof.
  induction l as [|[k' v'] l IH]; cbn; [done|]. case_decide; [intros [= ->]; subst; by left|].
  intros Hl. right. by apply IH.
Qed.

Lemma assoc_None k l v : assoc k l = None → (k, v) ∉ l.
Proof.
  induction l as [|[k' v'] l IH]; cbn; [by intros _ ?%elem_of_nil|]. case_decide; [done|].
  intros Hl [?|?]%elem_of_cons; [congruence|by apply IH].
Qed.
End assoc.

Lemma assoc_fmap_key {K K' V} `{EqDecision K, EqDecision K'} (f : K → K') `{!Inj (=) (=) f} k (l : list (K * V)) :
  assoc (f k) ((λ p, (f p.1, p.2)) <$> l) = assoc k l.
Proof.
  induction l as [|[k' v] l IH]; [done|]. cbn. destruct (decide (k = k')) as [->|Hk].
  - by rewrite decide_True.
  - rewrite decide_False; [done|]. by intros ?%(inj f).
Qed.

Lemma assoc_fmap_other {K K' V} `{EqDecision K, EqDecision K'} (f : K → K') k' (l : list (K * V)) :
  (∀ k, k' ≠ f k) → assoc k' ((λ p, (f p.1, p.2)) <$> l) = None.
Proof. intros Hk. induction l as [|[k v] l IH]; [done|]. cbn. by rewrite decide_False. Qed.
