(* ===== verification/GlobalDefinitions.v ===== *)
(** * Shared definitions (src/share/vm/utilities/globalDefinitions.hpp)

    The helpers on [jlong] halves and on alignment that the modelled files use. *)

From stdpp Require Import base numbers.
From S2P Require Import Prelude.
Local Open Scope Z_scope.

Definition low (value : Z) : Z := s32 value.
Definition high (value : Z) : Z := s32 (Z.shiftr value 32).

Definition set_low (value low : Z) : Z :=
  let value := Z.land value (s64 (Z.shiftl 0xffffffff 32)) in
  s64 (Z.lor value (u32 low)).

Definition set_high (value high : Z) : Z :=
  let value := Z.land value 0xffffffff in
  s64 (Z.lor value (Z.shiftl high 32)).

Definition jlong_from (h l : Z) : Z :=
  let result := 0 in
  let result := set_high result h in
  set_low result l.

(** The bits of a machine word are those of a [uintptr_t]: [~m] on [uintx]. *)
Definition mask_bits (x m : Z) : Z := Z.land x m.
Definition round_to (x s : Z) : Z := let m := s - 1 in mask_bits (x + m) (Z.lnot m).
Definition align_size_up (size alignment : Z) : Z := s64 (Z.land (s64 (size + (alignment - 1))) (Z.lnot (alignment - 1))).

(** [p] is a [uintptr_t]; it is 0 after 64 rounds. *)
Fixpoint log2_loop (fuel : nat) (x i p : Z) : Z :=
  match fuel with
  | O => i
  | S fuel' => if negb (p =? 0) && (p <=? u64 x) then log2_loop fuel' x (i + 1) (u64 (p * 2)) else i
  end.
Definition log2_intptr (x : Z) : Z := log2_loop 65 x (-1) 1.
Definition exact_log2 (x : Z) : Z := log2_intptr x.

Lemma high_range v : is_jint (high v).
Proof. by apply wrapS_range. Qed.
Lemma low_range v : is_jint (low v).
Proof. by apply wrapS_range. Qed.

Lemma jlong_from_bits h l i :
  0 ≤ i < 64 →
  Z.testbit (jlong_from h l) i = if i <? 32 then Z.testbit l i else Z.testbit h (i - 32).
Proof.
  intros Hi. unfold jlong_from, set_low, set_high.
  rewrite Z.land_0_l, Z.lor_0_l.
  rewrite testbit_wrapS, Z.lor_spec, Z.land_spec, !testbit_wrapS, testbit_wrapU by lia.
  rewrite !Z.shiftl_spec by lia. change 0xffffffff with (Z.ones 32).
  destruct (Z.ltb_spec i 32).
  - by rewrite (Z.testbit_neg_r _ (i - 32)), (Z.testbit_neg_r _ (i - 32)) by lia.
  - rewrite Z.ones_spec_low by lia. by rewrite andb_true_r, orb_false_r.
Qed.

Lemma jlong_from_range h l : is_jlong (jlong_from h l).
Proof. by apply wrapS_range. Qed.

(** Two [jlong]s with the same low 64 bits are equal. *)
Lemma jlong_bits_inj x y :
  is_jlong x → is_jlong y → (∀ i, 0 ≤ i < 64 → Z.testbit x i = Z.testbit y i) → x = y.
Proof.
  intros Hx Hy Hb.
  rewrite <- (wrapS_id 64 x), <- (wrapS_id 64 y) by done. apply wrapS_cong.
  apply Z.bits_inj'. intros i Hi. rewrite !testbit_wrapU by lia.
  destruct (Z.ltb_spec i 64); [|done]. simpl. apply Hb. lia.
Qed.

Lemma jlong_from_high_low v : is_jlong v → jlong_from (high v) (low v) = v.
Proof.
  intros Hv. apply jlong_bits_inj; [apply jlong_from_range|done|].
  intros i Hi. rewrite jlong_from_bits by lia. unfold high, low.
  destruct (Z.ltb_spec i 32).
  - by rewrite testbit_wrapS by lia.
  - rewrite testbit_wrapS, Z.shiftr_spec by lia. f_equal. lia.
Qed.

(** Rounding up to a multiple of a power of two. *)
Lemma round_to_spec x k : 0 ≤ k → round_to x (2 ^ k) = (x + (2 ^ k - 1)) / 2 ^ k * 2 ^ k.
Proof.
  intros Hk. unfold round_to, mask_bits. rewrite <- Z.ldiff_land.
  replace (2 ^ k - 1) with (Z.ones k) by (rewrite Z.ones_equiv; lia).
  rewrite Z.ldiff_ones_r, Z.shiftl_mul_pow2, Z.shiftr_div_pow2 by lia. done.
Qed.

Lemma round_to_bounds x k : 0 ≤ k → 0 ≤ x → x ≤ round_to x (2 ^ k) < x + 2 ^ k.
Proof.
  intros Hk Hx. rewrite round_to_spec by done. pose proof (Z.pow_pos_nonneg 2 k ltac:(lia) Hk).
  pose proof (Z.div_mod (x + (2 ^ k - 1)) (2 ^ k) ltac:(lia)). pose proof (Z.mod_pos_bound (x + (2 ^ k - 1)) (2 ^ k) ltac:(lia)). lia.
Qed.
Lemma round_to_divide x k : 0 ≤ k → (2 ^ k | round_to x (2 ^ k)).
Proof. intros Hk. rewrite round_to_spec by done. by exists ((x + (2 ^ k - 1)) / 2 ^ k). Qed.
Lemma round_to_le x y k : 0 ≤ k → x ≤ y → round_to x (2 ^ k) ≤ round_to y (2 ^ k).
Proof.
  intros Hk Hxy. rewrite !round_to_spec by done. pose proof (Z.pow_pos_nonneg 2 k ltac:(lia) Hk).
  apply Z.mul_le_mono_nonneg_r; [lia|]. apply Z.div_le_mono; lia.
Qed.
Lemma pow2_divide j k : 0 ≤ j ≤ k → (2 ^ j | 2 ^ k).
Proof. intros Hj. exists (2 ^ (k - j)). rewrite <- Z.pow_add_r by lia. f_equal. lia. Qed.
Lemma round_to_least x y k : 0 ≤ k → 0 ≤ x ≤ y → (2 ^ k | y) → round_to x (2 ^ k) ≤ y.
Proof.
  intros Hk Hxy [b ->]. destruct (round_to_divide x k Hk) as [a Ha]. pose proof (round_to_bounds x k Hk ltac:(lia)) as Hb.
  pose proof (Z.pow_pos_nonneg 2 k ltac:(lia) Hk) as Hp. rewrite Ha in Hb |- *. apply Z.mul_le_mono_nonneg_r; [lia|]. nia.
Qed.

Lemma align_size_up_spec x k : 0 ≤ k → 0 ≤ x → x + 2 ^ k ≤ 2 ^ 63 → align_size_up x (2 ^ k) = round_to x (2 ^ k).
Proof.
  intros Hk Hx Hb. pose proof (Z.pow_pos_nonneg 2 k ltac:(lia) Hk). unfold align_size_up.
  rewrite (wrapS_id 64 (x + _)) by (unfold in_s; lia).
  change (Z.land _ _) with (round_to x (2 ^ k)). apply wrapS_id; [done|]. pose proof (round_to_bounds x k Hk Hx). unfold in_s. lia.
Qed.

(** Masking a [size_t] with [~m] computed as a [size_t]. *)
Lemma land_wrapU y m : in_u 64 y → Z.land y (u64 m) = Z.land y m.
Proof.
  intros Hy. apply Z.bits_inj'. intros i Hi. rewrite !Z.land_spec, testbit_wrapU by lia.
  destruct (Z.ltb_spec i 64); [done|]. cbn [andb]. rewrite andb_false_r.
  rewrite <- (wrapU_id 64 y) by done. rewrite testbit_wrapU by lia. destruct (Z.ltb_spec i 64); [lia|done].
Qed.

Lemma log2_loop_pow2 fuel k i : 0 ≤ i + 1 → 0 ≤ k → i ≤ k < 63 → (Z.to_nat (k - i) < fuel)%nat → log2_loop fuel (2 ^ k) i (2 ^ (i + 1)) = k.
Proof.
  revert i. induction fuel as [|fuel IH]; intros i Hi Hk0 Hk Hf; [lia|]. cbn [log2_loop].
  pose proof (Z.pow_pos_nonneg 2 (i + 1) ltac:(lia) Hi). rewrite (proj2 (Z.eqb_neq (2 ^ (i + 1)) 0)) by lia. cbn [negb andb].
  assert (0 < 2 ^ k < 2 ^ 63) as Hp by (split; [apply Z.pow_pos_nonneg|apply Z.pow_lt_mono_r]; lia).
  rewrite (wrapU_id 64 (2 ^ k)) by (unfold in_u; lia). destruct (Z.leb_spec (2 ^ (i + 1)) (2 ^ k)) as [Hle|Hgt].
  - assert (i + 1 ≤ k) as Hik by (apply (Z.pow_le_mono_r_iff 2); lia).
    assert (2 ^ (i + 1) * 2 = 2 ^ (i + 1 + 1)) as -> by (rewrite (Z.pow_add_r 2 (i + 1) 1) by lia; lia).
    rewrite wrapU_id by (split; [by apply Z.pow_nonneg|apply Z.pow_lt_mono_r; lia]). apply IH; lia.
  - assert (k < i + 1) by (apply (Z.pow_lt_mono_r_iff 2); lia). lia.
Qed.
Lemma exact_log2_pow2 k : 0 ≤ k < 63 → exact_log2 (2 ^ k) = k.
Proof. intros Hk. apply (log2_loop_pow2 65 k (-1)); lia. Qed.
