(* ===== verification/CompressedStream.v ===== *)
(** * Compressed streams (src/share/vm/code/compressedStream.hpp and .cpp)

    The byte streams in which debugging information and oop maps are kept.
    Integers are coded with Pack200's UNSIGNED5 scheme, signed integers with
    SIGNED5, floats by reversing their bits first. *)

From stdpp Require Import base numbers list.
From S2P Require Import Prelude GlobalDefinitions.
Local Open Scope Z_scope.

(** ** CompressedStream: constants and bit tricks *)

Definition lg_H : Z := 6.
Definition H : Z := 64.
Definition L : Z := 192.
Definition MAX_i : Z := 4.

Definition encode_sign (value : Z) : Z :=
  u32 (Z.lxor (s32 (Z.shiftl value 1)) (Z.shiftr value 31)).

Definition decode_sign (value : Z) : Z :=
  s32 (Z.lxor (Z.shiftr value 1) (u32 (- s32 (Z.land value 1)))).

Definition reverse_int (i : Z) : Z :=
  let i := Z.lor (u32 (Z.shiftl (Z.land i 0x55555555) 1)) (Z.land (Z.shiftr i 1) 0x55555555) in
  let i := Z.lor (u32 (Z.shiftl (Z.land i 0x33333333) 2)) (Z.land (Z.shiftr i 2) 0x33333333) in
  let i := Z.lor (u32 (Z.shiftl (Z.land i 0x0f0f0f0f) 4)) (Z.land (Z.shiftr i 4) 0x0f0f0f0f) in
  Z.lor (Z.lor (Z.lor (u32 (Z.shiftl i 24)) (u32 (Z.shiftl (Z.land i 0xff00) 8)))
               (Z.land (Z.shiftr i 8) 0xff00))
        (Z.shiftr i 24).

(** ** CompressedReadStream *)

Record CompressedReadStream := mkRS {
  rs_buffer : list Z;
  rs_position : Z
}.

Definition set_position (p : Z) : M CompressedReadStream unit :=
  λ s, Some (tt, mkRS (rs_buffer s) p).

Definition read : M CompressedReadStream Z :=
  λ s, match zget (rs_buffer s) (rs_position s) with
       | Some b => Some (b, mkRS (rs_buffer s) (rs_position s + 1))
       | None => None
       end.

(** The loop of [read_int_mb]: [buf] is the buffer, [pos] the position of the
    first byte, [i] the loop counter, [lg_H_i] the current shift. *)
Fixpoint read_int_mb_loop (fuel : nat) (buf : list Z) (pos i sum lg_H_i : Z)
  : option (Z * Z) :=
  match fuel with
  | O => None
  | S fuel' =>
      let i := i + 1 in
      match zget buf (pos + i) with
      | None => None
      | Some b_i =>
          let sum := s32 (sum + s32 (Z.shiftl b_i lg_H_i)) in
          if (b_i <? L) || (i =? MAX_i) then Some (sum, pos + i + 1)
          else read_int_mb_loop fuel' buf pos i sum (lg_H_i + lg_H)
      end
  end.

Definition read_int_mb (b0 : Z) : M CompressedReadStream Z :=
  λ s, let pos := rs_position s - 1 in
       match read_int_mb_loop 4 (rs_buffer s) pos 0 b0 lg_H with
       | Some (sum, p) => Some (sum, mkRS (rs_buffer s) p)
       | None => None
       end.

Definition read_int : M CompressedReadStream Z :=
  b0 ← read; if b0 <? L then mret b0 else read_int_mb b0.

Definition read_signed_int : M CompressedReadStream Z :=
  v ← read_int; mret (decode_sign (u32 v)).

Definition read_bool : M CompressedReadStream Z := read.
Definition read_byte : M CompressedReadStream Z := b ← read; mret (s8 b).
Definition read_char : M CompressedReadStream Z := v ← read_int; mret (u16 v).
Definition read_short : M CompressedReadStream Z := v ← read_signed_int; mret (s16 v).

(** A [jfloat] is represented by its bits ([jint_cast]), a [jdouble] by the
    [jlong] of its bits. *)
Definition read_float : M CompressedReadStream Z :=
  rf ← read_int; mret (s32 (reverse_int (u32 rf))).

Definition read_double : M CompressedReadStream Z :=
  rh ← read_int;
  rl ← read_int;
  let h := s32 (reverse_int (u32 rh)) in
  let l := s32 (reverse_int (u32 rl)) in
  mret (jlong_from h l).

Definition read_long : M CompressedReadStream Z :=
  lo ← read_signed_int;
  hi ← read_signed_int;
  mret (jlong_from hi lo).

(** ** CompressedWriteStream *)

Record CompressedWriteStream := mkWS {
  ws_buffer : list Z;
  ws_size : Z;
  ws_position : Z
}.

(** Fresh memory: [n] bytes whose contents no theorem below relies on. *)
Definition new_bytes (n : Z) : list Z := replicate (Z.to_nat n) 0.

Definition new_write_stream (initial_size : Z) : CompressedWriteStream :=
  mkWS (new_bytes initial_size) initial_size 0.

Definition full (s : CompressedWriteStream) : bool := ws_size s <=? ws_position s.

Definition store (b : Z) : M CompressedWriteStream unit :=
  λ s, match zset (ws_buffer s) (ws_position s) (u8 b) with
       | Some buf => Some (tt, mkWS buf (ws_size s) (ws_position s + 1))
       | None => None
       end.

Section writing.
Context `{D : SizeArith}.

(** [memcpy(_new_buffer, _buffer, _position)] into a buffer of [2 * _size]; a
    size that wrapped around to a negative number can not be allocated. *)
Definition grow : M CompressedWriteStream unit :=
  λ s, let n := Z.to_nat (ws_position s) in
       let new_size := double (ws_size s) in
       if decide (0 ≤ new_size ∧ ws_position s ≤ new_size ∧ ws_position s ≤ zlen (ws_buffer s))
       then Some (tt, mkWS (take n (ws_buffer s) ++ drop n (new_bytes new_size))
                           new_size (ws_position s))
       else None.

Definition write (b : Z) : M CompressedWriteStream unit :=
  s ← mget;
  (if full s then grow else mret tt) ;;
  store b.

Fixpoint write_int_mb_loop (fuel : nat) (i sum : Z) : M CompressedWriteStream unit :=
  match fuel with
  | O => mfailS
  | S fuel' =>
      if (sum <? L) || (i =? MAX_i) then write (u8 sum)
      else
        let sum := u32 (sum - L) in
        let b_i := L + sum mod H in
        let sum := Z.shiftr sum lg_H in
        write b_i ;;
        write_int_mb_loop fuel' (i + 1) sum
  end.

Definition write_int_mb (value : Z) : M CompressedWriteStream unit :=
  write_int_mb_loop 5 0 (u32 value).

Definition write_int (value : Z) : M CompressedWriteStream unit :=
  s ← mget;
  if (u32 value <? L) && negb (full s) then store (u8 value) else write_int_mb value.

Definition write_bool (value : Z) : M CompressedWriteStream unit := write value.
Definition write_byte (value : Z) : M CompressedWriteStream unit := write value.
Definition write_signed_int (value : Z) : M CompressedWriteStream unit :=
  write_int (s32 (encode_sign value)).
Definition write_char (value : Z) : M CompressedWriteStream unit := write_int value.
Definition write_short (value : Z) : M CompressedWriteStream unit := write_signed_int value.

Definition write_float (value : Z) : M CompressedWriteStream unit :=
  write_int (s32 (reverse_int (u32 value))).

Definition write_double (value : Z) : M CompressedWriteStream unit :=
  let h := u32 (high value) in
  let l := u32 (low value) in
  let rh := reverse_int h in
  let rl := reverse_int l in
  write_int (s32 rh) ;; write_int (s32 rl).

Definition write_long (value : Z) : M CompressedWriteStream unit :=
  write_signed_int (low value) ;; write_signed_int (high value).
End writing.

Definition ws_set_position (p : Z) : M CompressedWriteStream unit :=
  λ s, Some (tt, mkWS (ws_buffer s) (ws_size s) p).

(** ** The coding as a function to bytes

    [unsigned5 n sum]: the bytes of [sum] when at most [n] more high bytes may
    be used; [enc_int] is the coding of a [jint]. *)

Fixpoint unsigned5 (n : nat) (sum : Z) : list Z :=
  match n with
  | O => [sum]
  | S n' => if sum <? L then [sum]
            else (L + (sum - L) mod H) :: unsigned5 n' ((sum - L) / H)
  end.

Definition enc_int (v : Z) : list Z := unsigned5 4 (u32 v).
Definition enc_signed_int (v : Z) : list Z := enc_int (s32 (encode_sign v)).
Definition enc_byte (v : Z) : list Z := [u8 v].
Definition enc_float (v : Z) : list Z := enc_int (s32 (reverse_int (u32 v))).
Definition enc_long (v : Z) : list Z := enc_signed_int (low v) ++ enc_signed_int (high v).
Definition enc_double (v : Z) : list Z :=
  enc_int (s32 (reverse_int (u32 (high v)))) ++ enc_int (s32 (reverse_int (u32 (low v)))).

(** ** What a writer and a reader promise *)

(** The invariant of a write stream, and the bytes written so far. *)
Definition ws_ok (s : CompressedWriteStream) : Prop :=
  0 < ws_size s ∧ 0 ≤ ws_position s ≤ ws_size s ∧ zlen (ws_buffer s) = ws_size s.

Definition ws_data (s : CompressedWriteStream) : list Z :=
  take (Z.to_nat (ws_position s)) (ws_buffer s).

(** [m] appends the bytes [bs], as long as they fit the largest buffer that
    doubling reaches. *)
Definition appends `{D : SizeArith} {A} (m : M CompressedWriteStream A) (a : A) (bs : list Z) : Prop :=
  ∀ s, ws_ok s → roomy (ws_position s + zlen bs) →
    ∃ s', m s = Some (a, s') ∧ ws_ok s' ∧ ws_data s' = ws_data s ++ bs.

Definition reads {A} (m : M CompressedReadStream A) (bs : list Z) (a : A) : Prop :=
  ∀ buf p, bytes_at buf p bs → m (mkRS buf p) = Some (a, mkRS buf (p + zlen bs)).

(** A codec: a writer and a reader of values of one type that agree on the
    coding [enc] for the values in [dom]. *)
Class Codec `{D : SizeArith} {A : Type} (dom : A → Prop) (enc : A → list Z)
    (W : A → M CompressedWriteStream unit) (R : M CompressedReadStream A) : Prop := {
  codec_write a : dom a → appends (W a) tt (enc a);
  codec_read a : dom a → reads R (enc a) a
}.

#[global] Typeclasses Opaque write_int write_signed_int write_byte write_bool write_char
  write_short write_float write_long write_double.
#[global] Typeclasses Opaque read_int read_signed_int read_byte read_bool read_char
  read_short read_float read_long read_double.

(** *** The bytes of a stream *)

Lemma ws_data_length s : ws_ok s → zlen (ws_data s) = ws_position s.
Proof. intros (H1 & H2 & H3). unfold ws_data, zlen in *. rewrite length_take. lia. Qed.

Lemma ws_data_prefix s : ws_data s `prefix_of` ws_buffer s.
Proof. exists (drop (Z.to_nat (ws_position s)) (ws_buffer s)). symmetry. apply take_drop. Qed.

Lemma appended_position s s' bs :
  ws_ok s → ws_ok s' → ws_data s' = ws_data s ++ bs →
  ws_position s' = ws_position s + zlen bs.
Proof.
  intros Hs Hs' Hd. rewrite <- (ws_data_length s), <- (ws_data_length s') by done.
  by rewrite Hd, zlen_app.
Qed.

Lemma appended_bytes_at s s' bs :
  ws_ok s → ws_data s' = ws_data s ++ bs →
  bytes_at (ws_buffer s') (ws_position s) bs.
Proof.
  intros Hs Hd. eapply bytes_at_mono; [apply ws_data_prefix|].
  rewrite Hd, <- (ws_data_length s) by done. apply bytes_at_suffix.
Qed.

Section codecs.
Context `{D : SizeArith}.

(** *** Composition *)

Lemma appends_ret {A} (a : A) : appends (mret a) a [].
Proof. intros s Hs _. exists s. by rewrite app_nil_r. Qed.

Lemma appends_bind {A B} (m : M CompressedWriteStream A) (f : A → M CompressedWriteStream B)
    a b bs1 bs2 :
  appends m a bs1 → appends (f a) b bs2 → appends (m ≫= f) b (bs1 ++ bs2).
Proof.
  intros Hm Hf s Hs Hr. rewrite zlen_app in Hr. pose proof (zlen_nonneg bs2).
  destruct (Hm s Hs) as (s1 & E1 & Hs1 & D1); [eapply roomy_le; [|done]; lia|].
  destruct (Hf s1 Hs1) as (s2 & E2 & Hs2 & D2).
  { by rewrite (appended_position s s1 bs1), <- Z.add_assoc. }
  exists s2. split; [|split; [done|]].
  - unfold mbind, M_bind. by rewrite E1.
  - by rewrite D2, D1, app_assoc.
Qed.

Lemma reads_ret {A} (a : A) : reads (mret a) [] a.
Proof. intros buf p _. unfold zlen. simpl. by rewrite Z.add_0_r. Qed.

Lemma reads_bind {A B} (m : M CompressedReadStream A) (f : A → M CompressedReadStream B)
    a b bs1 bs2 :
  reads m bs1 a → reads (f a) bs2 b → reads (m ≫= f) (bs1 ++ bs2) b.
Proof.
  intros Hm Hf buf p [H1 H2]%bytes_at_app. unfold mbind, M_bind.
  rewrite (Hm _ _ H1), (Hf _ _ H2). by rewrite zlen_app, Z.add_assoc.
Qed.

Lemma reads_map {A B} (m : M CompressedReadStream A) (f : A → B) a b bs :
  reads m bs a → f a = b → reads (x ← m; mret (f x)) bs b.
Proof.
  intros Hm <-. rewrite <- (app_nil_r bs). eapply reads_bind; [done|]. apply reads_ret.
Qed.

(** *** Bytes *)

Lemma appends_store b s :
  ws_ok s → full s = false →
  ∃ s', store b s = Some (tt, s') ∧ ws_ok s' ∧ ws_data s' = ws_data s ++ [u8 b].
Proof.
  intros (Hsz & Hp & Hl) Hf%Z.leb_gt. unfold store, zset, ws_ok, ws_data, zlen in *.
  rewrite decide_True by lia. eexists. split; [done|].
  cbn [ws_buffer ws_size ws_position]. split.
  - rewrite length_insert. lia.
  - replace (Z.to_nat (ws_position s + 1)) with (S (Z.to_nat (ws_position s))) by lia.
    rewrite (take_S_r _ _ (u8 b)) by (apply list_lookup_insert_eq; lia).
    by rewrite take_insert_ge by lia.
Qed.

Lemma stream_grow_spec s :
  ws_ok s → full s = true → roomy (ws_position s + 1) →
  ∃ s', grow s = Some (tt, s') ∧ ws_ok s' ∧ full s' = false ∧ ws_data s' = ws_data s.
Proof.
  intros (Hsz & Hp & Hl) Hf%Z.leb_le Hr. unfold grow, ws_ok, ws_data, full, zlen in *.
  rewrite (double_roomy (ws_size s) (ws_position s + 1) ltac:(lia) Hr), decide_True by lia. eexists. split; [done|].
  cbn [ws_buffer ws_size ws_position]. unfold new_bytes. rewrite length_app, length_take, length_drop, length_replicate.
  split; [lia|]. split; [apply Z.leb_gt; lia|].
  rewrite take_app_le by (rewrite length_take; lia). by rewrite take_take, Nat.min_id.
Qed.

Lemma appends_write b : appends (write b) tt [u8 b].
Proof.
  intros s Hs Hr. unfold write, mget, mbind, M_bind. destruct (full s) eqn:Hf.
  - destruct (stream_grow_spec s Hs Hf Hr) as (s1 & -> & Hs1 & Hf1 & <-). by apply appends_store.
  - by apply appends_store.
Qed.

Lemma appends_write_id b : u8 b = b → appends (write b) tt [b].
Proof. intros Hb. rewrite <- Hb at 2. apply appends_write. Qed.

Lemma reads_read b : reads read [b] b.
Proof.
  intros buf p [Hb _]%bytes_at_cons. unfold read. simpl. by rewrite Hb.
Qed.

(** *** UNSIGNED5 *)

Lemma unsigned5_cons n sum :
  L ≤ sum → unsigned5 (S n) sum = (L + (sum - L) mod H) :: unsigned5 n ((sum - L) / H).
Proof. intros Hs. simpl. by rewrite (proj2 (Z.ltb_ge _ _)) by lia. Qed.

Lemma unsigned5_stop n sum : sum < L → unsigned5 n sum = [sum].
Proof. intros Hs. destruct n; simpl; [done|]. by rewrite (proj2 (Z.ltb_lt _ _)) by lia. Qed.

(** The remaining value always fits the bytes that are left. *)
Definition fits (n : nat) (sum : Z) : Prop := 0 ≤ sum < 2 ^ (8 + 6 * Z.of_nat n).

Lemma fits_juint v : fits 4 (u32 v).
Proof. apply (wrapU_range 32). lia. Qed.

Lemma fits_step n sum : fits (S n) sum → L ≤ sum → fits n ((sum - L) / H).
Proof.
  unfold fits, H, L. intros Hs HL.
  replace (8 + 6 * Z.of_nat (S n)) with ((8 + 6 * Z.of_nat n) + 6) in Hs by lia.
  rewrite Z.pow_add_r in Hs by lia. change (2 ^ 6) with 64 in Hs.
  split; [apply Z.div_pos; lia|]. apply Z.div_lt_upper_bound; lia.
Qed.

Lemma fits_low n sum : fits n sum → sum < L ∨ n = O → u8 sum = sum.
Proof.
  unfold fits, L. intros Hs HL. apply wrapU_id. unfold in_u.
  destruct HL as [HL| ->]; simpl in *; lia.
Qed.

Lemma fits_u32 n sum : (n ≤ 4)%nat → fits n sum → in_u 32 sum.
Proof.
  unfold fits, in_u. intros Hn Hs. split; [lia|].
  eapply Z.lt_le_trans; [apply Hs|]. apply Z.pow_le_mono_r; lia.
Qed.

Lemma write_int_mb_loop_appends n fuel i sum :
  (n ≤ 4)%nat → (n < fuel)%nat → i = MAX_i - Z.of_nat n → fits n sum →
  appends (write_int_mb_loop fuel i sum) tt (unsigned5 n sum).
Proof.
  revert fuel i sum. induction n as [|n IH]; intros [|fuel] i sum Hn Hfuel -> Hs; try lia.
  - pose proof (fits_low 0 sum Hs ltac:(auto)) as Hb.
    simpl. rewrite orb_true_r, Hb. by apply appends_write_id.
  - cbn [write_int_mb_loop]. unfold MAX_i at 2.
    rewrite (proj2 (Z.eqb_neq (MAX_i - Z.of_nat (S n)) 4)), orb_false_r by (unfold MAX_i; lia).
    destruct (Z.ltb_spec sum L) as [HL|HL].
    + pose proof (fits_low _ sum Hs ltac:(auto)) as Hb.
      rewrite unsigned5_stop, Hb by done. by apply appends_write_id.
    + rewrite unsigned5_cons by done.
      assert (u32 (sum - L) = sum - L) as ->.
      { apply wrapU_id. apply fits_u32 in Hs; [|done]. unfold in_u, L in *. lia. }
      rewrite Z.shiftr_div_pow2 by done. change (2 ^ lg_H) with H.
      assert (u8 (L + (sum - L) mod H) = L + (sum - L) mod H) as Hb.
      { unfold L, H. pose proof (Z.mod_pos_bound (sum - 192) 64). machine. }
      eapply (appends_bind _ _ tt tt [_]); [by apply appends_write_id|].
      apply IH; [lia|lia| |by apply fits_step]. lia.
Qed.

Lemma write_int_appends v : appends (write_int v) tt (enc_int v).
Proof.
  unfold enc_int. intros s Hs Hr. unfold write_int, mget, mbind, M_bind.
  destruct (Z.ltb_spec (u32 v) L) as [HL|HL]; [destruct (full s) eqn:Hf|]; cbn [andb negb].
  - apply (write_int_mb_loop_appends 4); auto using fits_juint.
  - rewrite unsigned5_stop by done.
    assert (u8 (u8 v) = u32 v) as <-.
    { rewrite wrapU_wrapU. unfold L in HL. machine. }
    by apply appends_store.
  - apply (write_int_mb_loop_appends 4); auto using fits_juint.
Qed.

Lemma read_int_mb_loop_reads n fuel buf pos i acc sum :
  (n < fuel)%nat → Z.of_nat n = MAX_i - (i + 1) → 0 ≤ i → fits n sum →
  bytes_at buf (pos + i + 1) (unsigned5 n sum) →
  read_int_mb_loop fuel buf pos i acc (lg_H * (i + 1)) =
    Some (s32 (acc + sum * 2 ^ (lg_H * (i + 1))), pos + i + 1 + zlen (unsigned5 n sum)).
Proof.
  revert fuel i acc sum. induction n as [|n IH]; intros [|fuel] i acc sum Hfuel Hn Hi Hs Hb; try lia;
    cbn [read_int_mb_loop].
  - assert (i + 1 = MAX_i) as Hi4 by lia. apply bytes_at_cons in Hb as [Hb _].
    rewrite <- Z.add_assoc in Hb. rewrite Hb, Hi4, Z.eqb_refl, orb_true_r.
    unfold lg_H. rewrite Z.shiftl_mul_pow2, wrapS_add_r by lia. f_equal. f_equal.
    unfold zlen. simpl. lia.
  - destruct (Z.ltb_spec sum L) as [HL|HL].
    + rewrite unsigned5_stop in Hb |- * by done. apply bytes_at_cons in Hb as [Hb _].
      rewrite <- Z.add_assoc in Hb. rewrite Hb, (proj2 (Z.ltb_lt _ _)) by done. simpl.
      unfold lg_H. rewrite Z.shiftl_mul_pow2, wrapS_add_r by lia. f_equal. f_equal.
      unfold zlen. simpl. lia.
    + rewrite unsigned5_cons in Hb |- * by done. apply bytes_at_cons in Hb as [Hb Hbs].
      rewrite <- Z.add_assoc in Hb. rewrite Hb.
      pose proof (Z.mod_pos_bound (sum - L) H ltac:(done)) as Hm.
      rewrite (proj2 (Z.ltb_ge _ _)), (proj2 (Z.eqb_neq _ _)) by (unfold MAX_i, L in *; lia).
      simpl orb. cbv iota.
      replace (lg_H * (i + 1) + lg_H) with (lg_H * (i + 1 + 1)) by (unfold lg_H; lia).
      rewrite (IH _ _ _ ((sum - L) / H)); [|lia|lia|lia|by apply fits_step|by rewrite Z.add_assoc].
      f_equal. f_equal; [|unfold zlen; simpl length; lia].
      rewrite wrapS_add_l, Z.shiftl_mul_pow2, <- Z.add_assoc by (unfold lg_H; lia).
      rewrite (Z.add_comm (s32 _)), Z.add_assoc, wrapS_add_r. f_equal.
      replace (lg_H * (i + 1 + 1)) with (lg_H * (i + 1) + 6) by (unfold lg_H; lia).
      rewrite Z.pow_add_r by (unfold lg_H; lia). change (2 ^ 6) with H.
      pose proof (Z.div_mod (sum - L) H ltac:(done)). nia.
Qed.

Lemma read_int_reads v : is_jint v → reads read_int (enc_int v) v.
Proof.
  intros Hv buf p Hb. unfold read_int, enc_int in *.
  destruct (Z.ltb_spec (u32 v) L) as [HL|HL].
  - rewrite unsigned5_stop in Hb |- * by done.
    assert (u32 v = v) as Hu by (unfold L in *; machine). rewrite Hu in *.
    unfold mbind, M_bind. rewrite (reads_read v _ _ Hb).
    by rewrite (proj2 (Z.ltb_lt _ _)) by done.
  - rewrite unsigned5_cons in Hb |- * by done. apply bytes_at_cons in Hb as [Hb Hbs].
    unfold mbind, M_bind. unfold read at 1. cbn [rs_position rs_buffer]. rewrite Hb.
    pose proof (Z.mod_pos_bound (u32 v - L) H ltac:(done)) as Hm.
    rewrite (proj2 (Z.ltb_ge _ _)) by lia. unfold read_int_mb. cbn [rs_position rs_buffer].
    replace (p + 1 - 1) with p by lia. change lg_H with (lg_H * (0 + 1)).
    rewrite (read_int_mb_loop_reads 3 4 _ _ _ _ ((u32 v - L) / H));
      [|lia|done|lia|by apply fits_step; [apply fits_juint|]|by rewrite Z.add_0_r].
    f_equal. f_equal; [|f_equal; unfold zlen; simpl length; lia].
    change (2 ^ (lg_H * (0 + 1))) with H.
    replace (_ + _) with (u32 v).
    + by rewrite wrapS_wrapU, wrapS_id by done.
    + pose proof (Z.div_mod (u32 v - L) H ltac:(done)). lia.
Qed.

#[global] Instance int_codec : Codec is_jint enc_int write_int read_int.
Proof.
  split; intros a Ha; [apply write_int_appends|by apply read_int_reads].
Qed.

(** *** SIGNED5 *)

Lemma encode_sign_spec v :
  is_jint v → encode_sign v = if decide (0 ≤ v) then 2 * v else - (2 * v) - 1.
Proof.
  intros Hv. unfold encode_sign. rewrite Z.shiftl_mul_pow2 by done.
  rewrite Z.shiftr_div_pow2 by done. change (2 ^ 1) with 2. case_decide.
  - assert (v / 2 ^ 31 = 0) as -> by (apply Z.div_small; machine).
    rewrite Z.lxor_0_r. machine.
  - assert (v / 2 ^ 31 = -1) as -> by machine.
    rewrite Z.lxor_m1_r. unfold Z.lnot. machine.
Qed.

Lemma decode_sign_spec u :
  is_juint u → decode_sign u = if decide (u mod 2 = 0) then u / 2 else - (u / 2) - 1.
Proof.
  intros Hu. unfold decode_sign.
  rewrite Z.shiftr_div_pow2 by done. change (2 ^ 1) with 2.
  change 1 with (Z.ones 1) at 1. rewrite Z.land_ones by done. change (2 ^ 1) with 2.
  assert (0 ≤ u mod 2 < 2) as Hm by (apply Z.mod_pos_bound; done).
  case_decide as E.
  - rewrite E. change (u32 (- s32 0)) with 0. rewrite Z.lxor_0_r. machine.
  - assert (u mod 2 = 1) as -> by lia. change (u32 (- s32 1)) with (Z.ones 32).
    transitivity (s32 (Z.lnot (u / 2))).
    + apply wrapS_cong. apply Z.bits_inj'. intros i Hi. rewrite !testbit_wrapU by done.
      destruct (Z.ltb_spec i 32); [|done]. simpl.
      by rewrite Z.lxor_spec, Z.ones_spec_low, Z.lnot_spec, xorb_true_r by lia.
    + unfold Z.lnot. machine.
Qed.

Lemma decode_encode_sign v : is_jint v → decode_sign (encode_sign v) = v.
Proof.
  intros Hv. pose proof (encode_sign_spec v Hv) as He.
  rewrite decode_sign_spec by (rewrite He; case_decide; machine).
  rewrite He. repeat case_decide; machine.
Qed.

#[global] Instance signed_int_codec :
  Codec is_jint enc_signed_int write_signed_int read_signed_int.
Proof.
  split; intros a Ha; unfold enc_signed_int, write_signed_int, read_signed_int.
  - apply write_int_appends.
  - eapply reads_map; [apply read_int_reads, wrapS_range; done|].
    rewrite wrapU_wrapS. unfold encode_sign at 1. rewrite wrapU_wrapU.
    by apply decode_encode_sign.
Qed.

(** *** Bit reversal

    Each of the first three lines of [reverse_int] swaps adjacent groups of
    [s] bits; the last one swaps the four bytes. *)

Definition swap_stage (s m i : Z) : Z :=
  Z.lor (u32 (Z.shiftl (Z.land i m) s)) (Z.land (Z.shiftr i s) m).

Definition swap_bytes (i : Z) : Z :=
  Z.lor (Z.lor (Z.lor (u32 (Z.shiftl i 24)) (u32 (Z.shiftl (Z.land i 0xff00) 8)))
               (Z.land (Z.shiftr i 8) 0xff00))
        (Z.shiftr i 24).

Local Arguments Z.testbit : simpl never.

Ltac bit_cases j :=
  let Hin := fresh in
  assert (j ∈ seqZ 0 32) as Hin by (apply elem_of_seqZ; lia);
  vm_compute in Hin;
  repeat (apply elem_of_cons in Hin as [->|Hin]; [|]);
  try (by apply elem_of_nil in Hin).

(** Evaluate the bits of constants and drop bits at negative positions. *)
Ltac bit_eval :=
  repeat first
    [ rewrite Z.lor_spec | rewrite Z.land_spec | rewrite testbit_wrapU by lia
    | rewrite Z.shiftl_spec by lia | rewrite Z.shiftr_spec by lia ];
  simpl Z.sub; simpl Z.add; simpl Z.ltb;
  try match goal with
  | |- _ = Z.testbit _ ?k => let v := eval vm_compute in k in change k with v
  end;
  repeat match goal with
  | |- context [Z.testbit (Zpos ?m) ?k] =>
      let v := eval vm_compute in (Z.testbit (Zpos m) k) in
      change (Z.testbit (Zpos m) k) with v
  | |- context [Z.testbit ?x (Zneg ?k)] => rewrite (Z.testbit_neg_r x (Zneg k)) by lia
  end;
  rewrite ?andb_true_r, ?andb_false_r, ?orb_false_r, ?orb_false_l; simpl;
  rewrite ?andb_true_r, ?andb_false_r, ?orb_false_r, ?orb_false_l; try done.

Definition swap_pos (s j : Z) : Z := if Z.even (j / s) then j + s else j - s.

Lemma swap_stage_bits s m i j :
  (s, m) ∈ [(1, 0x55555555); (2, 0x33333333); (4, 0x0f0f0f0f)] →
  0 ≤ j < 32 → Z.testbit (swap_stage s m i) j = Z.testbit i (swap_pos s j).
Proof.
  intros Hm Hj. unfold swap_stage, swap_pos.
  repeat (apply elem_of_cons in Hm as [Hm|Hm]; [simplify_eq|]);
    [| | |by apply elem_of_nil in Hm].
  all: bit_cases j; bit_eval.
Qed.

Lemma swap_bytes_bits i j :
  is_juint i → 0 ≤ j < 32 →
  Z.testbit (swap_bytes i) j = Z.testbit i (8 * (3 - j / 8) + j mod 8).
Proof.
  intros Hi Hj. unfold swap_bytes.
  bit_cases j; bit_eval;
    repeat match goal with
    | |- context [Z.testbit i ?k] => rewrite (testbit_small 32 i k) by (done || lia)
    end; bit_eval.
Qed.

Lemma swap_stage_range s m i : 0 ≤ s → is_juint m → is_juint (swap_stage s m i).
Proof. intros Hs Hm. unfold swap_stage. auto with machine. Qed.

Lemma swap_bytes_range i : is_juint i → is_juint (swap_bytes i).
Proof. intros Hi. unfold swap_bytes. auto 7 with machine. Qed.

Lemma reverse_int_stages i :
  reverse_int i = swap_bytes (swap_stage 4 0x0f0f0f0f (swap_stage 2 0x33333333 (swap_stage 1 0x55555555 i))).
Proof. done. Qed.

Lemma reverse_int_range i : is_juint (reverse_int i).
Proof. rewrite reverse_int_stages. by apply swap_bytes_range, swap_stage_range. Qed.

(** Bit [j] of the result is bit [31 - j] of the argument. *)
Lemma reverse_int_bits i j :
  0 ≤ j < 32 → Z.testbit (reverse_int i) j = Z.testbit i (31 - j).
Proof.
  intros Hj. rewrite reverse_int_stages.
  rewrite swap_bytes_bits by (try apply swap_stage_range; done).
  bit_cases j.
  all: rewrite (swap_stage_bits 4), (swap_stage_bits 2), (swap_stage_bits 1)
    by (done || by repeat constructor); f_equal.
Qed.

Lemma reverse_int_involutive i : is_juint i → reverse_int (reverse_int i) = i.
Proof.
  intros Hi. apply Z.bits_inj'. intros j Hj.
  destruct (decide (j < 32)).
  - rewrite !reverse_int_bits by lia. f_equal. lia.
  - by rewrite !(testbit_small 32) by (done || apply reverse_int_range || lia).
Qed.

(** *** The other types *)

#[global] Instance byte_codec : Codec is_jbyte enc_byte write_byte read_byte.
Proof.
  split; intros a Ha; unfold enc_byte, write_byte, read_byte.
  - apply appends_write.
  - eapply reads_map; [apply reads_read|]. machine.
Qed.

#[global] Instance bool_codec : Codec is_u_char enc_byte write_bool read_bool.
Proof.
  split; intros a Ha; unfold enc_byte, write_bool, read_bool.
  - apply appends_write.
  - rewrite (wrapU_id 8) by done. apply reads_read.
Qed.

#[global] Instance char_codec : Codec is_jchar enc_int write_char read_char.
Proof.
  split; intros a Ha; unfold write_char, read_char.
  - apply write_int_appends.
  - eapply reads_map; [apply read_int_reads; machine|]. by apply wrapU_id.
Qed.

#[global] Instance short_codec : Codec is_jshort enc_signed_int write_short read_short.
Proof.
  split; intros a Ha; unfold write_short, read_short.
  - apply signed_int_codec. machine.
  - eapply reads_map; [apply signed_int_codec; machine|]. by apply wrapS_id.
Qed.

Lemma reverse_reverse_s32 v :
  is_jint v → s32 (reverse_int (u32 (s32 (reverse_int (u32 v))))) = v.
Proof.
  intros Hv. rewrite wrapU_wrapS, (wrapU_id 32 (reverse_int _)) by apply reverse_int_range.
  rewrite reverse_int_involutive by (apply wrapU_range; lia).
  by rewrite wrapS_wrapU, wrapS_id.
Qed.

#[global] Instance float_codec : Codec is_jint enc_float write_float read_float.
Proof.
  split; intros a Ha; unfold enc_float, write_float, read_float.
  - apply write_int_appends.
  - eapply reads_map; [apply read_int_reads, wrapS_range; lia|]. by apply reverse_reverse_s32.
Qed.

#[global] Instance long_codec : Codec is_jlong enc_long write_long read_long.
Proof.
  split; intros a Ha; unfold enc_long, write_long, read_long.
  - eapply appends_bind; apply signed_int_codec; [apply low_range|apply high_range].
  - eapply reads_bind; [apply signed_int_codec, low_range|].
    eapply reads_map; [apply signed_int_codec, high_range|]. by apply jlong_from_high_low.
Qed.

#[global] Instance double_codec : Codec is_jlong enc_double write_double read_double.
Proof.
  split; intros a Ha; unfold enc_double, write_double, read_double.
  - eapply appends_bind; apply write_int_appends.
  - eapply reads_bind; [apply read_int_reads, wrapS_range; lia|].
    eapply reads_map; [apply read_int_reads, wrapS_range; lia|]. cbv zeta.
    rewrite !reverse_reverse_s32 by (apply high_range || apply low_range).
    by apply jlong_from_high_low.
Qed.

(** *** Sizes and byte ranges *)

Lemma unsigned5_length n sum : (1 ≤ length (unsigned5 n sum) ≤ S n)%nat.
Proof.
  revert sum. induction n as [|n IH]; intros sum; simpl; [lia|].
  destruct (sum <? L); simpl; [lia|]. specialize (IH ((sum - L) / H)). lia.
Qed.

Lemma unsigned5_bytes n sum : fits n sum → Forall is_u_char (unsigned5 n sum).
Proof.
  revert sum. induction n as [|n IH]; intros sum Hs.
  - repeat constructor; apply Hs.
  - destruct (Z.ltb_spec sum L) as [HL|HL].
    + rewrite unsigned5_stop by done. unfold fits, L in *. repeat constructor; simpl; lia.
    + rewrite unsigned5_cons by done. constructor; [|by apply IH, fits_step].
      pose proof (Z.mod_pos_bound (sum - L) H ltac:(done)). unfold L, H in *. machine.
Qed.

(** ** Reading back what was written *)

Lemma codec_roundtrip {A} (dom : A → Prop) enc W R `{!Codec dom enc W R} s a :
  ws_ok s → dom a → roomy (ws_position s + zlen (enc a)) →
  ∃ s', W a s = Some (tt, s') ∧ ws_ok s' ∧ ws_data s' = ws_data s ++ enc a ∧
        R (mkRS (ws_buffer s') (ws_position s)) = Some (a, mkRS (ws_buffer s') (ws_position s')).
Proof.
  intros Hs Ha Hr. destruct (codec_write a Ha s Hs Hr) as (s' & E & Hs' & Hd).
  exists s'. split_and!; [done..|].
  rewrite (codec_read a Ha) by (by eapply appended_bytes_at).
  by rewrite (appended_position s s' (enc a)).
Qed.

(** A typed value of the stream and the pair of operations for its type. *)
Inductive stream_value :=
  | SBool (v : Z) | SByte (v : Z) | SChar (v : Z) | SShort (v : Z) | SInt (v : Z)
  | SSignedInt (v : Z) | SFloat (v : Z) | SLong (v : Z) | SDouble (v : Z).

Definition stream_value_ok (x : stream_value) : Prop :=
  match x with
  | SBool v => is_u_char v | SByte v => is_jbyte v | SChar v => is_jchar v
  | SShort v => is_jshort v | SInt v | SSignedInt v | SFloat v => is_jint v
  | SLong v | SDouble v => is_jlong v
  end.

Definition write_value (x : stream_value) : M CompressedWriteStream unit :=
  match x with
  | SBool v => write_bool v | SByte v => write_byte v | SChar v => write_char v
  | SShort v => write_short v | SInt v => write_int v | SSignedInt v => write_signed_int v
  | SFloat v => write_float v | SLong v => write_long v | SDouble v => write_double v
  end.

Definition read_value_like (x : stream_value) : M CompressedReadStream stream_value :=
  match x with
  | SBool _ => v ← read_bool; mret (SBool v) | SByte _ => v ← read_byte; mret (SByte v)
  | SChar _ => v ← read_char; mret (SChar v) | SShort _ => v ← read_short; mret (SShort v)
  | SInt _ => v ← read_int; mret (SInt v)
  | SSignedInt _ => v ← read_signed_int; mret (SSignedInt v)
  | SFloat _ => v ← read_float; mret (SFloat v) | SLong _ => v ← read_long; mret (SLong v)
  | SDouble _ => v ← read_double; mret (SDouble v)
  end.

Definition enc_value (x : stream_value) : list Z :=
  match x with
  | SBool v | SByte v => enc_byte v | SChar v | SInt v => enc_int v
  | SShort v | SSignedInt v => enc_signed_int v | SFloat v => enc_float v
  | SLong v => enc_long v | SDouble v => enc_double v
  end.

Lemma write_value_appends x : stream_value_ok x → appends (write_value x) tt (enc_value x).
Proof. destruct x; simpl; apply codec_write. Qed.

Lemma read_value_reads x : stream_value_ok x → reads (read_value_like x) (enc_value x) x.
Proof.
  destruct x; simpl; intros Hv; (eapply reads_map; [by apply codec_read|done]).
Qed.

Lemma write_values_appends l :
  Forall stream_value_ok l → appends (mforeach write_value l) tt (concat (enc_value <$> l)).
Proof.
  induction 1 as [|x l Hx _ IH]; simpl; [apply appends_ret|].
  eapply appends_bind; [by apply write_value_appends|done].
Qed.

Lemma read_values_reads l :
  Forall stream_value_ok l → reads (mmap read_value_like l) (concat (enc_value <$> l)) l.
Proof.
  induction 1 as [|x l Hx _ IH]; simpl; [apply reads_ret|].
  eapply reads_bind; [by apply read_value_reads|].
  by eapply reads_map.
Qed.

(** UNSIGNED5 is compact: every coding has between one and five bytes, each
    of them a byte, and exactly the values [0..191] take a single byte. *)
Theorem unsigned5_size v :
  is_jint v →
  1 ≤ zlen (enc_int v) ≤ 5 ∧ Forall is_u_char (enc_int v) ∧
  (zlen (enc_int v) = 1 ↔ 0 ≤ v < 192) ∧
  ∀ s, ws_ok s → roomy (ws_position s + 5) →
    ∃ s', write_int v s = Some (tt, s') ∧ ws_position s' = ws_position s + zlen (enc_int v).
Proof.
  intros Hv. pose proof (unsigned5_length 4 (u32 v)) as Hl. unfold enc_int.
  split; [unfold zlen; lia|]. split; [apply unsigned5_bytes, fits_juint|]. split.
  - destruct (Z.ltb_spec (u32 v) L) as [HL|HL].
    + rewrite unsigned5_stop by done. unfold L in HL. split; [intros _; machine|done].
    + rewrite unsigned5_cons by done. pose proof (unsigned5_length 3 ((u32 v - L) / H)).
      unfold zlen. cbn [length]. split; [lia|]. intros; exfalso. unfold L in HL. machine.
  - intros s Hs Hr. destruct (write_int_appends v s Hs) as (s' & E & Hs' & Hd).
    { eapply roomy_le; [|done]. unfold enc_int, zlen. lia. }
    exists s'. split; [done|]. by apply appended_position.
Qed.

Lemma enc_value_length x : 1 ≤ zlen (enc_value x) ≤ 10.
Proof.
  assert (∀ v, 1 ≤ zlen (enc_int v) ≤ 5) as Hi.
  { intros v. pose proof (unsigned5_length 4 (u32 v)). unfold enc_int, zlen. lia. }
  destruct x as [v|v|v|v|v|v|v|v|v]; cbn [enc_value];
    unfold enc_byte, enc_float, enc_long, enc_double, enc_signed_int; rewrite ?zlen_app.
  all: repeat match goal with |- context [enc_int ?w] => pose proof (Hi w); generalize dependent (enc_int w); intros end.
  all: try (unfold zlen; cbn; lia); lia.
Qed.
End codecs.

(** ** Streams with [int] sizes *)

(** Below the bound, a write is the same with and without a limit: [write] is
    the only operation that grows the stream. *)
Lemma write_agrees b s : ws_ok s → ws_position s < 2 ^ 30 → @write int32 b s = @write ideal b s.
Proof.
  intros (_ & Hp & _) Hlt. unfold write, mget, mbind, M_bind. destruct (full s) eqn:Hf; [|done].
  apply Z.leb_le in Hf. unfold grow.
  by rewrite (double_agrees (ws_size s) (2 ^ 30)) by (apply int32_roomy || lia; lia).
Qed.

Section int_sizes.
#[local] Existing Instance int32.

(** C25: with [int] sizes, any sequence of typed values whose coding ends within
    the first 2^30 bytes of the stream is written to it and read back unchanged
    by the matching read operations, the write stream stays well-formed whatever
    growing was needed, the bytes written before are kept, and the reader ends
    exactly where the writer stopped. *)
Theorem stream_sequence_roundtrip s l :
  ws_ok s → Forall stream_value_ok l →
  ws_position s + zlen (concat (enc_value <$> l)) ≤ 2 ^ 30 →
  ∃ s', mforeach write_value l s = Some (tt, s') ∧ ws_ok s' ∧
        ws_data s' = ws_data s ++ concat (enc_value <$> l) ∧
        mmap read_value_like l (mkRS (ws_buffer s') (ws_position s)) =
          Some (l, mkRS (ws_buffer s') (ws_position s')).
Proof.
  intros Hs Hl Hr. destruct (write_values_appends l Hl s Hs (int32_roomy _ Hr)) as (s' & E & Hs' & Hd).
  exists s'. split_and!; [done..|].
  rewrite (read_values_reads l Hl) by (by eapply appended_bytes_at).
  by rewrite (appended_position s s' (concat (enc_value <$> l))).
Qed.

Lemma stream_sequence_roundtrip_witness :
  ∃ s', mforeach write_value [SInt (-1); SLong (2 ^ 40); SFloat 1065353216] (new_write_stream 2)
          = Some (tt, s') ∧ ws_ok s' ∧
        ws_data s' = ws_data (new_write_stream 2)
          ++ concat (enc_value <$> [SInt (-1); SLong (2 ^ 40); SFloat 1065353216]) ∧
        mmap read_value_like [SInt (-1); SLong (2 ^ 40); SFloat 1065353216]
          (mkRS (ws_buffer s') 0) =
          Some ([SInt (-1); SLong (2 ^ 40); SFloat 1065353216],
                mkRS (ws_buffer s') (ws_position s')).
Proof.
  apply (stream_sequence_roundtrip (new_write_stream 2)).
  - unfold ws_ok, zlen. simpl. lia.
  - repeat constructor; simpl; machine.
  - vm_compute. discriminate.
Defined.

(** UNSIGNED5 is one-to-one and self-delimiting: a byte sequence starts
    with the coding of at most one [jint]. *)
Theorem unsigned5_prefix_free v w x y :
  is_jint v → is_jint w → enc_int v ++ x = enc_int w ++ y → v = w ∧ x = y.
Proof.
  intros Hv Hw E.
  assert (bytes_at (enc_int v ++ x) 0 (enc_int v)) as Hbv.
  { eapply bytes_at_mono; [by apply prefix_app_r|]. apply (bytes_at_suffix []). }
  assert (bytes_at (enc_int v ++ x) 0 (enc_int w)) as Hbw.
  { rewrite E. eapply bytes_at_mono; [by apply prefix_app_r|]. apply (bytes_at_suffix []). }
  pose proof (read_int_reads v Hv _ _ Hbv) as Rv.
  rewrite (read_int_reads w Hw _ _ Hbw) in Rv. simplify_eq.
  split; [done|]. by apply (inj (enc_int v ++.)).
Qed.

Lemma unsigned5_prefix_free_witness :
  enc_int 1000 ++ [7; 9] = [232; 12] ++ [7; 9] ∧ 1000 = 1000 ∧ [7; 9] = [7; 9].
Proof.
  split; [done|]. apply (unsigned5_prefix_free 1000 1000 [7; 9] [7; 9]); [machine..|done].
Defined.

Lemma write_empty_stream b : write b (new_write_stream 0) = None.
Proof. done. Qed.

Lemma write_int_empty_stream v : write_int v (new_write_stream 0) = None.
Proof.
  unfold write_int, mget, mbind, M_bind. change (full (new_write_stream 0)) with true. rewrite andb_false_r.
  unfold write_int_mb. cbn [write_int_mb_loop]. destruct (_ || _); [done|].
  unfold mbind, M_bind. by rewrite write_empty_stream.
Qed.

(** C38: a write stream grows only if it was created with a size above 0. From
    every larger size each typed value can be written to the new stream. From
    size 0, [grow] doubles 0 and gives the same empty stream, every store to it is
    outside the buffer, and so every typed write fails. *)
Theorem empty_stream_write_out_of_bounds size x :
  0 ≤ size → stream_value_ok x →
  (0 < size → is_Some (write_value x (new_write_stream size))) ∧
  (size = 0 →
   grow (new_write_stream size) = Some (tt, new_write_stream size) ∧
   (∀ b, store b (new_write_stream size) = None) ∧
   write_value x (new_write_stream size) = None).
Proof.
  intros H0 Hx. split.
  - intros Hsz. destruct (write_value_appends x Hx (new_write_stream size)) as (s' & -> & _); [..|done].
    + unfold ws_ok, zlen, new_write_stream, new_bytes. cbn [ws_buffer ws_size ws_position]. rewrite length_replicate. lia.
    + apply int32_roomy. pose proof (enc_value_length x). cbn. lia.
  - intros ->. split_and!; [done..|].
    destruct x as [v|v|v|v|v|v|v|v|v]; cbn [write_value]; try apply write_empty_stream; try apply write_int_empty_stream.
    + unfold write_long, write_signed_int, mbind, M_bind. by rewrite write_int_empty_stream.
    + unfold write_double, mbind, M_bind. by rewrite write_int_empty_stream.
Qed.

Lemma empty_stream_write_out_of_bounds_witness :
  is_Some (write_value (SInt 1000) (new_write_stream 1)) ∧ write_value (SInt 1000) (new_write_stream 0) = None.
Proof.
  split.
  - apply (empty_stream_write_out_of_bounds 1 (SInt 1000)); [lia|cbn; machine|lia].
  - by apply (empty_stream_write_out_of_bounds 0 (SInt 1000)); [lia|cbn; machine|].
Defined.
End int_sizes.
