(* ===== verification/GrowableArray.v ===== *)
(** * Growable arrays (src/share/vm/utilities/growableArray.hpp)

    An array [_data] of [_max] cells of which the first [_len] are in use.  The
    operations are modelled on the cells, loops included, and refined to
    operations on the list of elements in use. *)

From stdpp Require Import base numbers list sorting.
From S2P Require Import Prelude.
Local Open Scope Z_scope.

Record GrowableArray (E : Type) := mkGA {
  ga_data : list E;   (* [_data] *)
  ga_len : Z;         (* [_len]  *)
  ga_max : Z          (* [_max]  *)
}.
Arguments mkGA {E} _ _ _.
Arguments ga_data {E} _.
Arguments ga_len {E} _.
Arguments ga_max {E} _.

Module GA.
Section operations.
Context `{D : SizeArith} {E : Type} `{!Inhabited E} `{!EqDecision E}.
Implicit Types (a : GrowableArray E) (x : E) (i : Z).

(** [GrowableArray(initial_size, initial_len, filler)]: the first [initial_len]
    cells are copies of [filler], the others are [E()]. *)
Definition ga_new (initial_size initial_len : Z) (filler : E) : GrowableArray E :=
  mkGA (replicate (Z.to_nat initial_len) filler
          ++ replicate (Z.to_nat (initial_size - initial_len)) inhabitant)
       initial_len initial_size.

Definition clear a : GrowableArray E := mkGA (ga_data a) 0 (ga_max a).
Definition ga_length a : Z := ga_len a.
Definition trunc_to (l : Z) a : GrowableArray E := mkGA (ga_data a) l (ga_max a).
Definition is_empty a : bool := ga_len a =? 0.
Definition is_full a : bool := ga_len a =? ga_max a.

(** The loop [while (j >= _max) _max = _max*2] of [grow]; [None] when it does not
    end, which takes a [_max] that wraps around to 0. *)
Fixpoint grow_max (fuel : nat) (j max : Z) : option Z :=
  if max <=? j
  then match fuel with O => None | S fuel' => grow_max fuel' j (double max) end
  else Some max.

Definition grow (j : Z) : M (GrowableArray E) unit := λ a,
  let max := if ga_max a =? 0 then 1 else ga_max a in
  match grow_max (Z.to_nat (j + 1)) j max with
  | Some max' =>
      Some (tt, mkGA (take (Z.to_nat (ga_len a)) (ga_data a)
                        ++ replicate (Z.to_nat (max' - ga_len a)) inhabitant)
                     (ga_len a) max')
  | None => None
  end.

(** Write access to one cell. *)
Definition put_cell i x : M (GrowableArray E) unit := λ a,
  match zset (ga_data a) i x with
  | Some d => Some (tt, mkGA d (ga_len a) (ga_max a))
  | None => None
  end.
Definition get_cell i : M (GrowableArray E) E := λ a,
  match zget (ga_data a) i with Some x => Some (x, a) | None => None end.
Definition set_len (n : Z) : M (GrowableArray E) unit := λ a,
  Some (tt, mkGA (ga_data a) n (ga_max a)).

Definition append x : M (GrowableArray E) Z :=
  a ← mget;
  (if ga_len a =? ga_max a then grow (ga_len a) else mret tt) ;;
  a ← mget;
  let idx := ga_len a in
  set_len (ga_len a + 1) ;;
  put_cell idx x ;;
  mret idx.

Definition push x : M (GrowableArray E) unit := append x ;; mret tt.

(** [at], [first] and [top] assert that the index is in use; an index outside
    the allocated cells is an access outside the array. *)
Definition at_ (i : Z) a : option E := zget (ga_data a) i.
Definition first a : option E := zget (ga_data a) 0.
Definition top a : option E := zget (ga_data a) (ga_len a - 1).

Definition pop : M (GrowableArray E) E :=
  a ← mget;
  set_len (ga_len a - 1) ;;
  get_cell (ga_len a - 1).

Definition at_put i x : M (GrowableArray E) unit := put_cell i x.

Definition at_grow i (fill : E) : M (GrowableArray E) E :=
  a ← mget;
  (if ga_len a <=? i
   then (if ga_max a <=? i then grow i else mret tt) ;;
        mfor (Z.to_nat (i + 1 - ga_len a)) (ga_len a) (λ j, put_cell j fill) ;;
        set_len (i + 1)
   else mret tt) ;;
  get_cell i.

Definition raw_at_put_grow i x (fill : E) : M (GrowableArray E) unit :=
  a ← mget;
  (if ga_len a <=? i
   then (if ga_max a <=? i then grow i else mret tt) ;;
        mfor (Z.to_nat (i - ga_len a)) (ga_len a) (λ j, put_cell j fill) ;;
        set_len (i + 1)
   else mret tt) ;;
  put_cell i x.

Definition at_put_grow i x (fill : E) : M (GrowableArray E) unit := raw_at_put_grow i x fill.

(** [find]: a scan upwards from index 0; [find_from_end]: downwards. *)
Fixpoint scan_up (n : nat) i x a : Z :=
  match n with
  | O => -1
  | S n' => if decide (zget (ga_data a) i = Some x) then i else scan_up n' (i + 1) x a
  end.
Fixpoint scan_down (n : nat) x a : Z :=
  match n with
  | O => -1
  | S n' => if decide (zget (ga_data a) (Z.of_nat n') = Some x) then Z.of_nat n'
            else scan_down n' x a
  end.
Definition find x a : Z := scan_up (Z.to_nat (ga_len a)) 0 x a.
Definition find_from_end x a : Z := scan_down (Z.to_nat (ga_len a)) x a.

Fixpoint contains_loop (n : nat) i x a : bool :=
  match n with
  | O => false
  | S n' => if decide (zget (ga_data a) i = Some x) then true else contains_loop n' (i + 1) x a
  end.
Definition contains x a : bool := contains_loop (Z.to_nat (ga_len a)) 0 x a.

Definition append_if_missing x : M (GrowableArray E) bool :=
  a ← mget;
  let missed := negb (contains x a) in
  (if missed then append x ;; mret tt else mret tt) ;;
  mret missed.

(** [for (int j = index + 1; j < _len; j++) _data[j-1] = _data[j]; _len--;] *)
Definition shift_down (index : Z) : M (GrowableArray E) unit :=
  a ← mget;
  mfor (Z.to_nat (ga_len a - (index + 1))) (index + 1)
    (λ j, x ← get_cell j; put_cell (j - 1) x) ;;
  set_len (ga_len a - 1).

Definition remove_at (index : Z) : M (GrowableArray E) unit := shift_down index.

Definition remove x : M (GrowableArray E) unit :=
  a ← mget;
  let i := find x a in
  if decide (0 ≤ i) then shift_down i else mfailS.

Definition delete_at (index : Z) : M (GrowableArray E) unit :=
  a ← mget;
  set_len (ga_len a - 1) ;;
  if index <? ga_len a - 1
  then x ← get_cell (ga_len a - 1); put_cell index x
  else mret tt.

(** The loop [for (int j = _len - 1; j >= idx; j--) _data[j + 1] = _data[j]]. *)
Fixpoint shift_up (n : nat) (idx : Z) : M (GrowableArray E) unit :=
  match n with
  | O => mret tt
  | S n' =>
      let j := idx + Z.of_nat n' in
      x ← get_cell j; put_cell (j + 1) x ;; shift_up n' idx
  end.

Definition insert_before (idx : Z) x : M (GrowableArray E) unit :=
  a ← mget;
  (if ga_len a =? ga_max a then grow (ga_len a) else mret tt) ;;
  shift_up (Z.to_nat (ga_len a - idx)) idx ;;
  set_len (ga_len a + 1) ;;
  put_cell idx x.

Definition appendAll (l : GrowableArray E) : M (GrowableArray E) unit :=
  mfor (Z.to_nat (ga_len l)) 0
    (λ i, x ← mlift (zget (ga_data l) i);
          a ← mget; raw_at_put_grow (ga_len a) x inhabitant).

(** Binary search; the result is the location and whether it was found. *)
Fixpoint find_sorted_loop {K : Type} (compare : K → E → Z) (key : K) (fuel : nat)
    (min max : Z) a : option (Z * bool) :=
  if min <=? max
  then match fuel with
       | O => None
       | S fuel' =>
           let mid := (max + min) / 2 in
           match at_ mid a with
           | None => None
           | Some value =>
               let diff := compare key value in
               if 0 <? diff then find_sorted_loop compare key fuel' (mid + 1) max a
               else if diff <? 0 then find_sorted_loop compare key fuel' min (mid - 1) a
               else Some (mid, true)
           end
       end
  else Some (min, false).

Definition find_sorted {K : Type} (compare : K → E → Z) (key : K) a : option (Z * bool) :=
  find_sorted_loop compare key (Z.to_nat (ga_len a)) 0 (ga_length a - 1) a.

Definition insert_sorted (compare : E → E → Z) (key : E) : M (GrowableArray E) E :=
  a ← mget;
  '(location, found) ← mlift (find_sorted compare key a);
  (if (found : bool) then mret tt else insert_before location key) ;;
  a ← mget;
  mlift (at_ location a).
End operations.

(** ** The elements in use, and the invariant *)

Definition ga_ok {E} (a : GrowableArray E) : Prop :=
  0 ≤ ga_len a ≤ ga_max a ∧ zlen (ga_data a) = ga_max a.

Definition elems {E} (a : GrowableArray E) : list E := take (Z.to_nat (ga_len a)) (ga_data a).

(** [run m a r l]: [m] succeeds on [a] with result [r], keeps the invariant and
    leaves the elements [l] in use. *)
Definition run {E A} (m : M (GrowableArray E) A) (a : GrowableArray E) (r : A) (l : list E) : Prop :=
  ∃ a', m a = Some (r, a') ∧ ga_ok a' ∧ elems a' = l.

Section refinement.
Context `{D : SizeArith} {E : Type} `{!Inhabited E} `{!EqDecision E}.
Implicit Types (a : GrowableArray E) (x : E) (i : Z) (d : list E).

Lemma elems_length a : ga_ok a → zlen (elems a) = ga_len a.
Proof. intros [H1 H2]. unfold elems, zlen in *. rewrite length_take. lia. Qed.

Lemma elems_lookup a i : ga_ok a → 0 ≤ i < ga_len a → zget (ga_data a) i = zget (elems a) i.
Proof.
  intros _ Hi. unfold zget, elems. rewrite !decide_True by lia.
  by rewrite lookup_take_lt by lia.
Qed.

Lemma data_split a :
  ga_ok a → ∃ rest, ga_data a = elems a ++ rest ∧ zlen rest = ga_max a - ga_len a.
Proof.
  intros [H1 H2]. exists (drop (Z.to_nat (ga_len a)) (ga_data a)). split.
  - symmetry. apply take_drop.
  - unfold zlen in *. rewrite length_drop. lia.
Qed.

(** A well-formed array is determined by its elements and its spare cells. *)
Lemma ga_intro (l rest : list E) :
  ga_ok (mkGA (l ++ rest) (zlen l) (zlen l + zlen rest)) ∧
  elems (mkGA (l ++ rest) (zlen l) (zlen l + zlen rest)) = l.
Proof.
  unfold ga_ok, elems, zlen. simpl. split.
  - rewrite length_app. lia.
  - rewrite Nat2Z.id. apply take_app_length.
Qed.

Lemma ga_elim a :
  ga_ok a → ∃ rest, a = mkGA (elems a ++ rest) (zlen (elems a)) (zlen (elems a) + zlen rest).
Proof.
  intros Hok. destruct (data_split a Hok) as (rest & Hd & Hr).
  exists rest. rewrite elems_length, Hr by done.
  destruct a as [d n m]. simpl in *. rewrite Hd at 1. f_equal. lia.
Qed.

(** *** Growing *)

Lemma grow_max_spec fuel j max :
  0 < max → j < max * 2 ^ Z.of_nat fuel → roomy (j + 1) →
  ∃ max', grow_max fuel j max = Some max' ∧ max ≤ max' ∧ j < max'.
Proof.
  revert max. induction fuel as [|fuel IH]; intros max Hm Hj Hr; simpl.
  - rewrite Z.mul_1_r in Hj. rewrite (proj2 (Z.leb_gt _ _)) by done. eauto with lia.
  - destruct (Z.leb_spec max j); [|eauto with lia].
    rewrite (double_roomy max (j + 1)) by (done || lia).
    destruct (IH (max * 2)) as (m & -> & ? & ?); [lia| |done|eauto with lia].
    rewrite Nat2Z.inj_succ, Z.pow_succ_r in Hj by lia. lia.
Qed.

Lemma grow_spec j (l rest : list E) :
  0 ≤ j → roomy (j + 1) →
  ∃ rest', grow j (mkGA (l ++ rest) (zlen l) (zlen l + zlen rest))
             = Some (tt, mkGA (l ++ rest') (zlen l) (zlen l + zlen rest')) ∧
           j < zlen l + zlen rest'.
Proof.
  intros Hj Hr. unfold grow. cbn [ga_data ga_len ga_max].
  set (max := if zlen l + zlen rest =? 0 then 1 else zlen l + zlen rest).
  assert (0 < max ∧ zlen l ≤ max) as [Hm1 Hm2].
  { subst max. unfold zlen. destruct (Z.eqb_spec (Z.of_nat (length l) + Z.of_nat (length rest)) 0); lia. }
  destruct (grow_max_spec (Z.to_nat (j + 1)) j max) as (max' & -> & H1 & H2); [done| |done|].
  { rewrite Z2Nat.id by lia. pose proof (Z.pow_gt_lin_r 2 (j + 1)). nia. }
  exists (replicate (Z.to_nat (max' - zlen l)) inhabitant).
  assert (take (Z.to_nat (zlen l)) (l ++ rest) = l) as ->.
  { unfold zlen. rewrite Nat2Z.id. apply take_app_length. }
  assert (zlen l + zlen (replicate (Z.to_nat (max' - zlen l)) (inhabitant : E)) = max') as Hz.
  { unfold zlen at 2. rewrite length_replicate. lia. }
  rewrite Hz. eauto.
Qed.

(** Make room for one more element. *)
Lemma reserve_spec (l rest : list E) :
  roomy (zlen l + 1) →
  ∃ y rest',
    (if zlen l =? zlen l + zlen rest then grow (zlen l) else mret tt)
      (mkGA (l ++ rest) (zlen l) (zlen l + zlen rest))
    = Some (tt, mkGA (l ++ y :: rest') (zlen l) (zlen l + zlen (y :: rest'))).
Proof.
  intros Hr. destruct (Z.eqb_spec (zlen l) (zlen l + zlen rest)).
  - destruct (grow_spec (zlen l) l rest) as ([|y rest'] & -> & Hlt); [unfold zlen; lia|done| |eauto].
    unfold zlen in Hlt. simpl in Hlt. lia.
  - destruct rest as [|y rest']; [unfold zlen in *; simpl in *; lia|]. eauto.
Qed.

Lemma append_run a x : ga_ok a → roomy (ga_len a + 1) → run (append x) a (ga_len a) (elems a ++ [x]).
Proof.
  intros Hok Hr. destruct (ga_elim a Hok) as (rest & Ha).
  rewrite <- (elems_length a Hok) in Hr |- *. set (l := elems a) in *. rewrite Ha. unfold run, append.
  unfold mget, mbind, M_bind. cbn [ga_data ga_len ga_max].
  destruct (reserve_spec l rest Hr) as (y & rest' & ->). unfold set_len, put_cell.
  cbn [ga_data ga_len ga_max]. rewrite zset_app. eexists. split; [done|].
  assert (zlen l + 1 = zlen (l ++ [x])) as ->.
  { unfold zlen. rewrite length_app. simpl. lia. }
  replace (zlen l + zlen (y :: rest')) with (zlen (l ++ [x]) + zlen rest')
    by (unfold zlen; rewrite length_app; simpl; lia).
  replace (l ++ x :: rest') with ((l ++ [x]) ++ rest') by by rewrite <- app_assoc.
  apply ga_intro.
Qed.
(** *** Moving cells *)

Lemma get_cell_app (l1 l2 : list E) x i n m :
  i = zlen l1 →
  get_cell i (mkGA (l1 ++ x :: l2) n m) = Some (x, mkGA (l1 ++ x :: l2) n m).
Proof.
  intros ->. unfold get_cell. cbn [ga_data]. rewrite zget_app_r by lia.
  by rewrite Z.sub_diag.
Qed.

Lemma put_cell_app (l1 l2 : list E) x y i n m :
  i = zlen l1 →
  put_cell i y (mkGA (l1 ++ x :: l2) n m) = Some (tt, mkGA (l1 ++ y :: l2) n m).
Proof. intros ->. unfold put_cell. cbn [ga_data ga_len ga_max]. by rewrite zset_app. Qed.

Lemma shift_up_spec (l1 l2 : list E) y rest n m :
  ∃ z, shift_up (length l2) (zlen l1) (mkGA (l1 ++ l2 ++ y :: rest) n m)
       = Some (tt, mkGA (l1 ++ z :: l2 ++ rest) n m).
Proof.
  revert y rest. induction l2 as [|w l2 IH] using rev_ind; intros y rest; simpl; [eauto|].
  rewrite length_app, Nat.add_1_r. cbn [shift_up]. unfold mbind, M_bind.
  replace (l1 ++ (l2 ++ [w]) ++ y :: rest) with ((l1 ++ l2) ++ w :: y :: rest)
    by by rewrite <- !app_assoc.
  rewrite get_cell_app by (unfold zlen; rewrite length_app; lia).
  replace ((l1 ++ l2) ++ w :: y :: rest) with ((l1 ++ l2 ++ [w]) ++ y :: rest)
    by by rewrite <- !app_assoc.
  rewrite put_cell_app by (unfold zlen; rewrite !length_app; simpl; lia).
  replace ((l1 ++ l2 ++ [w]) ++ w :: rest) with (l1 ++ l2 ++ w :: w :: rest)
    by by rewrite <- !app_assoc.
  destruct (IH w (w :: rest)) as [z ->]. exists z. by rewrite <- app_assoc.
Qed.

Lemma shift_down_loop (l1 l2 : list E) x rest n m i :
  i = zlen l1 + 1 →
  ∃ z, mfor (length l2) i (λ j, y ← get_cell j; put_cell (j - 1) y)
         (mkGA (l1 ++ x :: l2 ++ rest) n m)
       = Some (tt, mkGA (l1 ++ l2 ++ z :: rest) n m).
Proof.
  revert l1 x i. induction l2 as [|w l2 IH]; intros l1 x i ->; simpl; [eauto|].
  unfold mbind, M_bind.
  replace (l1 ++ x :: w :: l2 ++ rest) with ((l1 ++ [x]) ++ w :: l2 ++ rest)
    by by rewrite <- !app_assoc.
  rewrite get_cell_app by (unfold zlen; rewrite length_app; simpl; lia).
  rewrite <- app_assoc. simpl. rewrite put_cell_app by lia.
  replace (l1 ++ w :: w :: l2 ++ rest) with ((l1 ++ [w]) ++ w :: l2 ++ rest)
    by by rewrite <- !app_assoc.
  destruct (IH (l1 ++ [w]) w (zlen l1 + 1 + 1)) as [z Hz].
  { unfold zlen. rewrite length_app. simpl. lia. }
  unfold mbind, M_bind in Hz. rewrite Hz. exists z. by rewrite <- app_assoc.
Qed.

(** Cut the elements of an array at an index. *)
Lemma elems_cut (l : list E) (i : Z) :
  0 ≤ i ≤ zlen l → ∃ l1 l2, l = l1 ++ l2 ∧ zlen l1 = i.
Proof.
  intros Hi. exists (take (Z.to_nat i) l), (drop (Z.to_nat i) l).
  split; [by rewrite take_drop|]. unfold zlen in *. rewrite length_take. lia.
Qed.

Lemma take_app_zlen (l1 l2 : list E) : take (Z.to_nat (zlen l1)) (l1 ++ l2) = l1.
Proof. unfold zlen. rewrite Nat2Z.id. apply take_app_length. Qed.
Lemma drop_app_zlen (l1 l2 : list E) : drop (Z.to_nat (zlen l1)) (l1 ++ l2) = l2.
Proof. unfold zlen. rewrite Nat2Z.id. apply drop_app_length. Qed.

Lemma insert_before_run a idx x :
  ga_ok a → 0 ≤ idx ≤ ga_len a → roomy (ga_len a + 1) →
  run (insert_before idx x) a tt
      (take (Z.to_nat idx) (elems a) ++ x :: drop (Z.to_nat idx) (elems a)).
Proof.
  intros Hok Hidx Hr. rewrite <- (elems_length a Hok) in Hidx, Hr.
  destruct (ga_elim a Hok) as (rest & Ha). set (l := elems a) in *. clearbody l. subst a.
  destruct (elems_cut l idx Hidx) as (l1 & l2 & -> & <-).
  rewrite take_app_zlen, drop_app_zlen.
  unfold run, insert_before. unfold mget, mbind, M_bind. cbn [ga_data ga_len ga_max].
  destruct (reserve_spec (l1 ++ l2) rest Hr) as (y & rest' & ->).
  replace (Z.to_nat (zlen (l1 ++ l2) - zlen l1)) with (length l2)
    by (unfold zlen; rewrite length_app; lia).
  rewrite <- app_assoc. destruct (shift_up_spec l1 l2 y rest' (zlen (l1 ++ l2))
    (zlen (l1 ++ l2) + zlen (y :: rest'))) as [z ->].
  unfold set_len. cbn [ga_data ga_len ga_max]. rewrite put_cell_app by done.
  eexists. split; [done|].
  replace (l1 ++ x :: l2 ++ rest') with ((l1 ++ x :: l2) ++ rest') by by rewrite <- app_assoc.
  replace (zlen (l1 ++ l2) + 1) with (zlen (l1 ++ x :: l2))
    by (unfold zlen; rewrite !length_app; simpl; lia).
  replace (zlen (l1 ++ l2) + zlen (y :: rest')) with (zlen (l1 ++ x :: l2) + zlen rest')
    by (unfold zlen; rewrite !length_app; simpl; lia).
  apply ga_intro.
Qed.

Lemma shift_down_run a (i : Z) :
  ga_ok a → 0 ≤ i < ga_len a → run (shift_down i) a tt (delete (Z.to_nat i) (elems a)).
Proof.
  intros Hok Hi. rewrite <- (elems_length a Hok) in Hi.
  destruct (ga_elim a Hok) as (rest & Ha). set (l := elems a) in *. clearbody l. subst a.
  destruct (elems_cut l i ltac:(lia)) as (l1 & [|x l2] & -> & <-).
  { rewrite app_nil_r in Hi. lia. }
  assert (delete (Z.to_nat (zlen l1)) (l1 ++ x :: l2) = l1 ++ l2) as ->.
  { unfold zlen. rewrite Nat2Z.id. by rewrite delete_middle. }
  unfold run, shift_down, mget, mbind at 1, M_bind at 1. cbn [ga_data ga_len ga_max].
  replace (Z.to_nat (zlen (l1 ++ x :: l2) - (zlen l1 + 1))) with (length l2)
    by (unfold zlen; rewrite length_app; simpl; lia).
  rewrite <- app_assoc. simpl app at 2.
  destruct (shift_down_loop l1 l2 x rest (zlen (l1 ++ x :: l2))
    (zlen (l1 ++ x :: l2) + zlen rest) (zlen l1 + 1) ltac:(done)) as [z Hz].
  unfold mbind at 1, M_bind at 1. rewrite Hz. unfold set_len. cbn [ga_data ga_len ga_max].
  eexists. split; [done|].
  replace (l1 ++ l2 ++ z :: rest) with ((l1 ++ l2) ++ z :: rest) by by rewrite <- app_assoc.
  replace (zlen (l1 ++ x :: l2) - 1) with (zlen (l1 ++ l2))
    by (unfold zlen; rewrite !length_app; simpl; lia).
  replace (zlen (l1 ++ x :: l2) + zlen rest) with (zlen (l1 ++ l2) + zlen (z :: rest))
    by (unfold zlen; rewrite !length_app; simpl; lia).
  apply ga_intro.
Qed.
Lemma pop_run a (l : list E) x : ga_ok a → elems a = l ++ [x] → run pop a x l.
Proof.
  intros Hok Hl. destruct (ga_elim a Hok) as (rest & ->). rewrite Hl. clear Hok Hl.
  unfold run, pop, mget, mbind, M_bind, set_len. cbn [ga_data ga_len ga_max].
  rewrite <- app_assoc. change ([x] ++ rest) with (x :: rest).
  rewrite get_cell_app by (unfold zlen; rewrite length_app; simpl; lia).
  eexists. split; [done|].
  replace (zlen (l ++ [x]) - 1) with (zlen l) by (unfold zlen; rewrite length_app; simpl; lia).
  replace (zlen (l ++ [x]) + zlen rest) with (zlen l + zlen (x :: rest))
    by (unfold zlen; rewrite length_app; simpl; lia).
  apply ga_intro.
Qed.

Lemma at_put_run a i x :
  ga_ok a → 0 ≤ i < ga_len a → run (at_put i x) a tt (<[Z.to_nat i := x]> (elems a)).
Proof.
  intros Hok Hi. rewrite <- (elems_length a Hok) in Hi.
  destruct (ga_elim a Hok) as (rest & Ha). set (l := elems a) in *. clearbody l. subst a.
  destruct (elems_cut l i ltac:(lia)) as (l1 & [|y l2] & -> & <-).
  { rewrite app_nil_r in Hi. lia. }
  unfold run, at_put. rewrite <- app_assoc. simpl. rewrite put_cell_app by done.
  eexists. split; [done|].
  assert (<[Z.to_nat (zlen l1) := x]> (l1 ++ y :: l2) = l1 ++ x :: l2) as ->.
  { unfold zlen. rewrite Nat2Z.id. by rewrite insert_app_r_alt, Nat.sub_diag by lia. }
  replace (l1 ++ x :: l2 ++ rest) with ((l1 ++ x :: l2) ++ rest) by by rewrite <- app_assoc.
  replace (zlen (l1 ++ y :: l2)) with (zlen (l1 ++ x :: l2)) by (unfold zlen; by rewrite !length_app).
  apply ga_intro.
Qed.

(** [delete_at] keeps the other elements but moves the last one. *)
Lemma delete_at_run a (i : Z) (l : list E) y :
  ga_ok a → elems a = l ++ [y] → 0 ≤ i ≤ zlen l →
  run (delete_at i) a tt (<[Z.to_nat i := y]> l).
Proof.
  intros Hok Hl Hi. destruct (ga_elim a Hok) as (rest & ->). rewrite Hl. clear Hok Hl.
  unfold run, delete_at, mget, mbind, M_bind, set_len. cbn [ga_data ga_len ga_max].
  replace (zlen (l ++ [y]) - 1) with (zlen l) by (unfold zlen; rewrite length_app; simpl; lia).
  replace (zlen (l ++ [y]) + zlen rest) with (zlen l + zlen (y :: rest))
    by (unfold zlen; rewrite length_app; simpl; lia).
  rewrite <- app_assoc. simpl. destruct (Z.ltb_spec i (zlen l)).
  - rewrite get_cell_app by done.
    destruct (ga_intro l (y :: rest)) as [Hok He].
    pose proof (at_put_run _ i y Hok ltac:(simpl; lia)) as (a' & E' & Hok' & He').
    unfold at_put in E'. rewrite E'. eexists. split; [done|]. by rewrite He', He.
  - eexists. split; [done|]. rewrite list_insert_ge by (unfold zlen in *; lia). apply ga_intro.
Qed.

(** *** Searching *)

Lemma scan_up_spec a x n i :
  ga_ok a → 0 ≤ i → i + Z.of_nat n = ga_len a → (∀ k, 0 ≤ k < i → zget (elems a) k ≠ Some x) →
  let r := scan_up n i x a in
  (r = -1 ∧ x ∉ elems a) ∨
  (i ≤ r < ga_len a ∧ zget (elems a) r = Some x ∧ ∀ k, 0 ≤ k < r → zget (elems a) k ≠ Some x).
Proof.
  intros Hok. revert i. induction n as [|n IH]; intros i Hi Hn Hpre; simpl.
  - left. split; [done|]. intros [k Hk]%list_elem_of_lookup_1.
    apply (Hpre (Z.of_nat k)); [|by rewrite zget_nat].
    apply lookup_lt_Some in Hk. pose proof (elems_length a Hok). unfold zlen in *. lia.
  - rewrite (elems_lookup a i Hok) by lia. case_decide as Hx.
    + right. split; [lia|]. done.
    + destruct (IH (i + 1)) as [?|(?&?&?)]; [lia|lia| |by left|right; split; [lia|done]].
      intros k Hk. destruct (decide (k = i)) as [->|]; [done|]. apply Hpre. lia.
Qed.

Lemma find_spec a x :
  ga_ok a →
  let r := find x a in
  (r = -1 ∧ x ∉ elems a) ∨
  (0 ≤ r < ga_len a ∧ zget (elems a) r = Some x ∧ ∀ k, 0 ≤ k < r → zget (elems a) k ≠ Some x).
Proof.
  intros Hok. unfold find. apply scan_up_spec; [done|lia| |intros; lia].
  destruct Hok. lia.
Qed.

Lemma contains_loop_scan a x n i : 0 ≤ i → contains_loop n i x a = (0 <=? scan_up n i x a).
Proof.
  revert i. induction n as [|n IH]; intros i Hi; simpl; [done|].
  case_decide; [symmetry; by apply Z.leb_le|]. apply IH. lia.
Qed.

Lemma contains_spec a x : ga_ok a → contains x a = true ↔ x ∈ elems a.
Proof.
  intros Hok. unfold contains. rewrite contains_loop_scan by lia.
  fold (find x a). rewrite Z.leb_le.
  destruct (find_spec a x Hok) as [[-> Hx]|(Hr & Hx & _)].
  - split; [lia|done].
  - split; [intros _|lia]. unfold zget in Hx. rewrite decide_True in Hx by lia.
    by eapply list_elem_of_lookup_2.
Qed.

Lemma scan_down_spec a x n :
  ga_ok a → Z.of_nat n ≤ ga_len a →
  let r := scan_down n x a in
  (r = -1 ∧ ∀ k, 0 ≤ k < Z.of_nat n → zget (elems a) k ≠ Some x) ∨
  (0 ≤ r < Z.of_nat n ∧ zget (elems a) r = Some x ∧
   ∀ k, r < k < Z.of_nat n → zget (elems a) k ≠ Some x).
Proof.
  intros Hok. induction n as [|n IH]; intros Hn; simpl; [left; split; [done|lia]|].
  rewrite (elems_lookup a (Z.of_nat n) Hok) by lia. case_decide as Hx.
  - right. split; [lia|]. split; [done|lia].
  - destruct IH as [[Hr Hk]|(Hr & Hg & Hk)]; [lia|left|right].
    + split; [done|]. intros k Hk'. destruct (decide (k = Z.of_nat n)) as [->|]; [done|].
      apply Hk. lia.
    + split; [lia|]. split; [done|]. intros k Hk'.
      destruct (decide (k = Z.of_nat n)) as [->|]; [done|]. apply Hk. lia.
Qed.
(** *** Filling *)

Lemma fill_loop (l rest : list E) (k : nat) fill n m :
  (k ≤ length rest)%nat →
  mfor k (zlen l) (λ j, put_cell j fill) (mkGA (l ++ rest) n m)
  = Some (tt, mkGA (l ++ replicate k fill ++ drop k rest) n m).
Proof.
  revert l rest. induction k as [|k IH]; intros l rest Hk; [done|].
  destruct rest as [|y rest]; simpl in Hk; [lia|].
  cbn [mfor]. unfold mbind at 1, M_bind at 1. rewrite put_cell_app by done.
  replace (l ++ fill :: rest) with ((l ++ [fill]) ++ rest) by by rewrite <- app_assoc.
  replace (zlen l + 1) with (zlen (l ++ [fill])) by (unfold zlen; rewrite length_app; simpl; lia).
  rewrite IH by lia. by rewrite <- app_assoc.
Qed.

(** Growing to have a cell [i], and filling the first [k] spare cells. *)
Lemma grow_fill_spec (l rest : list E) i fill k :
  zlen l ≤ i → roomy (i + 1) → Z.of_nat k ≤ i + 1 - zlen l →
  ∃ a1 rest', (if zlen l + zlen rest <=? i then grow i else mret tt)
      (mkGA (l ++ rest) (zlen l) (zlen l + zlen rest)) = Some (tt, a1) ∧
    mfor k (zlen l) (λ j, put_cell j fill) a1
      = Some (tt, mkGA (l ++ replicate k fill ++ rest') (zlen l) (zlen l + Z.of_nat k + zlen rest')) ∧
    i < zlen l + Z.of_nat k + zlen rest'.
Proof.
  intros Hi Hr Hk. pose proof (zlen_nonneg l).
  assert (∃ rest', (if zlen l + zlen rest <=? i then grow i else mret tt)
            (mkGA (l ++ rest) (zlen l) (zlen l + zlen rest))
          = Some (tt, mkGA (l ++ rest') (zlen l) (zlen l + zlen rest')) ∧
          i < zlen l + zlen rest') as (rest' & -> & Hlt).
  { destruct (Z.leb_spec (zlen l + zlen rest) i); [apply grow_spec; [lia|done]|eauto]. }
  eexists _, (drop k rest'). split; [done|]. rewrite fill_loop by (unfold zlen in *; lia).
  replace (zlen l + Z.of_nat k + zlen (drop k rest')) with (zlen l + zlen rest')
    by (unfold zlen in *; rewrite length_drop; lia).
  done.
Qed.

(** The value an array has after [at_put_grow]. *)
Definition put_grow (l : list E) (i : Z) x fill : list E :=
  if decide (i < zlen l) then <[Z.to_nat i := x]> l
  else l ++ replicate (Z.to_nat (i - zlen l)) fill ++ [x].

Lemma raw_at_put_grow_run a i x fill :
  ga_ok a → 0 ≤ i → roomy (i + 1) → run (raw_at_put_grow i x fill) a tt (put_grow (elems a) i x fill).
Proof.
  intros Hok Hi Hr. unfold put_grow. rewrite elems_length by done.
  case_decide as Hlt.
  { unfold run, raw_at_put_grow, mget, mbind, M_bind.
    rewrite (proj2 (Z.leb_gt _ _)) by done. by apply at_put_run. }
  destruct (ga_elim a Hok) as (rest & Ha). rewrite <- (elems_length a Hok) in Hlt |- *.
  set (l := elems a) in *. clearbody l. subst a.
  unfold run, raw_at_put_grow, mget, mbind, M_bind. cbn [ga_data ga_len ga_max].
  rewrite (proj2 (Z.leb_le _ _)) by lia. set (k := Z.to_nat (i - zlen l)).
  destruct (grow_fill_spec l rest i fill k) as (a1 & [|y rest'] & -> & -> & Hlt'); [lia|done|lia|unfold zlen in *; cbn [length] in Hlt'; lia|].
  unfold set_len. cbn [ga_data ga_len ga_max].
  assert (zlen (l ++ replicate k fill) = i) as Hl by (rewrite zlen_app; unfold zlen in *; rewrite length_replicate; lia).
  rewrite app_assoc, put_cell_app by done.
  eexists. split; [done|]. replace (i + 1) with (zlen (l ++ replicate k fill ++ [x])).
  2: { rewrite app_assoc, zlen_app, Hl. done. }
  replace ((l ++ replicate k fill) ++ x :: rest') with ((l ++ replicate k fill ++ [x]) ++ rest')
    by by rewrite <- !app_assoc.
  replace (zlen l + Z.of_nat k + zlen (y :: rest')) with (zlen (l ++ replicate k fill ++ [x]) + zlen rest').
  { apply ga_intro. }
  rewrite app_assoc, zlen_app, Hl. unfold zlen in *. cbn [length]. lia.
Qed.

(** The value an array has after [at_grow]. *)
Definition fill_grow (l : list E) (i : Z) fill : list E := l ++ replicate (Z.to_nat (i + 1 - zlen l)) fill.

Lemma at_grow_run a i fill x :
  ga_ok a → 0 ≤ i → roomy (i + 1) → zget (fill_grow (elems a) i fill) i = Some x →
  run (at_grow i fill) a x (fill_grow (elems a) i fill).
Proof.
  intros Hok Hi Hr Hx. unfold fill_grow in *.
  destruct (ga_elim a Hok) as (rest & Ha). set (l := elems a) in *. clearbody l. subst a.
  unfold run, at_grow, mget, mbind, M_bind. cbn [ga_data ga_len ga_max].
  set (k := Z.to_nat (i + 1 - zlen l)) in *.
  destruct (Z.leb_spec (zlen l) i) as [Hle|Hgt].
  - destruct (grow_fill_spec l rest i fill k) as (a1 & rest' & -> & -> & Hlt'); [lia|done|lia|].
    unfold set_len, get_cell. cbn [ga_data ga_len ga_max].
    assert (zlen (l ++ replicate k fill) = i + 1) as Hl by (rewrite zlen_app; unfold zlen in *; rewrite length_replicate; lia).
    rewrite app_assoc, zget_app_l, Hx by lia. eexists. split; [done|].
    replace (zlen l + Z.of_nat k) with (zlen (l ++ replicate k fill)) by lia. rewrite <- Hl. apply ga_intro.
  - replace k with 0%nat in * by lia. cbn [replicate] in *. rewrite app_nil_r in *.
    unfold get_cell. cbn [ga_data mret M_ret]. rewrite zget_app_l, Hx by done.
    eexists. split; [done|]. apply ga_intro.
Qed.

(** *** Binary search *)

(** The array is ordered for searching [key]: scanning upwards the comparison
    is first positive, then zero, then negative. *)
Definition search_ordered {K} (compare : K → E → Z) (key : K) (l : list E) : Prop :=
  ∀ i j x y, i < j → zget l i = Some x → zget l j = Some y →
    (0 < compare key y → 0 < compare key x) ∧ (compare key x < 0 → compare key y < 0).

(** What a search result means. *)
Definition search_result {K} (compare : K → E → Z) (key : K) (l : list E) (r : Z * bool) : Prop :=
  match r with
  | (loc, true) => ∃ x, zget l loc = Some x ∧ compare key x = 0
  | (loc, false) => 0 ≤ loc ≤ zlen l ∧
      ∀ k x, zget l k = Some x →
        (k < loc → 0 < compare key x) ∧ (loc ≤ k → compare key x < 0)
  end.

Lemma find_sorted_loop_spec {K} (compare : K → E → Z) key a fuel min max :
  ga_ok a → search_ordered compare key (elems a) →
  0 ≤ min → min ≤ max + 1 → max < ga_len a → max - min < Z.of_nat fuel →
  (∀ k x, zget (elems a) k = Some x → (k < min → 0 < compare key x) ∧ (max < k → compare key x < 0)) →
  ∃ r, find_sorted_loop compare key fuel min max a = Some r ∧
       search_result compare key (elems a) r.
Proof.
  intros Hok Hord. revert min max.
  induction fuel as [|fuel IH]; intros min max H0 Hmm Hmax Hfuel Hinv; simpl;
    destruct (Z.leb_spec min max) as [Hle|Hgt]; try lia.
  1, 3: eexists; split; [done|]; split; [rewrite elems_length by done; lia|];
    intros k x Hk; destruct (Hinv k x Hk) as [H1 H2]; split; intros; [apply H1|apply H2]; lia.
  set (mid := (max + min) / 2).
  assert (min ≤ mid ≤ max) as Hmid by (subst mid; Z.div_mod_to_equations; lia).
  unfold at_. rewrite elems_lookup by (done || lia).
  destruct (zget_is_Some (elems a) mid) as [v Hv]; [rewrite elems_length by done; lia|].
  rewrite Hv. destruct (Z.ltb_spec 0 (compare key v)).
  - apply IH; [lia..|]. intros k x Hk. split; [|by apply Hinv]. intros Hlt.
    destruct (decide (k = mid)) as [->|]; [by simplify_eq|].
    apply (Hord k mid x v); [lia|done..].
  - destruct (Z.ltb_spec (compare key v) 0).
    + apply IH; [lia..|]. intros k x Hk. split; [by apply Hinv|]. intros Hlt.
      destruct (decide (k = mid)) as [->|]; [by simplify_eq|].
      apply (Hord mid k v x); [lia|done..].
    + eexists. split; [done|]. exists v. split; [done|lia].
Qed.

Lemma find_sorted_spec {K} (compare : K → E → Z) key a :
  ga_ok a → search_ordered compare key (elems a) →
  ∃ r, find_sorted compare key a = Some r ∧ search_result compare key (elems a) r.
Proof.
  intros Hok Hord. unfold find_sorted, ga_length. destruct (Hok) as [Hlen _].
  apply find_sorted_loop_spec; [done|done|lia..|].
  intros k x Hk%zget_Some. rewrite elems_length in Hk by done. lia.
Qed.
Lemma append_if_missing_run a x :
  ga_ok a → (x ∉ elems a → roomy (ga_len a + 1)) →
  run (append_if_missing x) a (negb (bool_decide (x ∈ elems a)))
      (if decide (x ∈ elems a) then elems a else elems a ++ [x]).
Proof.
  intros Hok Hr. unfold run, append_if_missing, mget, mbind, M_bind.
  destruct (contains x a) eqn:Hc; simpl.
  - apply contains_spec in Hc; [|done].
    rewrite decide_True, bool_decide_true by done. by exists a.
  - assert (x ∉ elems a) as Hx.
    { intros Hin%contains_spec; [congruence|done]. }
    rewrite decide_False, bool_decide_false by done.
    destruct (append_run a x Hok (Hr Hx)) as (a' & -> & ? & ?). by exists a'.
Qed.

Lemma remove_run a x l1 l2 :
  ga_ok a → elems a = l1 ++ x :: l2 → x ∉ l1 → run (remove x) a tt (l1 ++ l2).
Proof.
  intros Hok Hl Hx. unfold run, remove, mget, mbind, M_bind.
  destruct (find_spec a x Hok) as [[_ Hn]|(Hr & Hg & Hk)].
  { exfalso. apply Hn. rewrite Hl. apply elem_of_app. right. by left. }
  assert (find x a = zlen l1) as Hi.
  { destruct (Z.lt_trichotomy (find x a) (zlen l1)) as [Hlt|[?|Hlt]]; [exfalso|done|exfalso].
    - rewrite Hl, zget_app_l in Hg by done. apply Hx.
      unfold zget in Hg. rewrite decide_True in Hg by lia. by eapply list_elem_of_lookup_2.
    - apply (Hk (zlen l1)); [unfold zlen in *; lia|].
      by rewrite Hl, zget_app_r, Z.sub_diag by lia. }
  rewrite decide_True by lia.
  destruct (shift_down_run a (find x a) Hok Hr) as (a' & -> & Hok' & He).
  exists a'. split; [done|]. split; [done|].
  rewrite He, Hl, Hi. unfold zlen. by rewrite Nat2Z.id, delete_middle.
Qed.

(** *** Sorted arrays *)

Definition sorted (compare : E → E → Z) (l : list E) : Prop :=
  ∀ i j x y, i < j → zget l i = Some x → zget l j = Some y → 0 < compare y x.
End refinement.

(** A comparison function that orders its arguments. *)
Class SearchOrder {E} (compare : E → E → Z) : Prop := {
  so_opp x y : Z.sgn (compare x y) = - Z.sgn (compare y x);
  so_trans x y z : 0 < compare x y → 0 < compare y z → 0 < compare x z;
  so_eq x y z : compare x y = 0 → Z.sgn (compare x z) = Z.sgn (compare y z)
}.

Section sorted.
Context `{D : SizeArith} {E : Type} `{!Inhabited E} `{!EqDecision E}.
Context (compare : E → E → Z) `{!SearchOrder compare}.
Implicit Types (a : GrowableArray E) (x key : E).

Lemma sorted_search_ordered key (l : list E) :
  sorted compare l → search_ordered compare key l.
Proof.
  intros Hs i j x y Hij Hx Hy. pose proof (Hs i j x y Hij Hx Hy) as Hyx. split; intros Hc.
  - by eapply so_trans.
  - destruct (Z.lt_trichotomy (compare key y) 0) as [?|[Heq|Hgt]]; [done|exfalso..].
    + pose proof (so_eq key y x Heq). destruct (compare y x), (compare key x); simpl in *; lia.
    + pose proof (so_trans key y x Hgt Hyx). lia.
Qed.

(** A list equal to another one with one more element in the middle. *)
Lemma zget_middle_cases (l1 l2 : list E) x k y :
  zget (l1 ++ x :: l2) k = Some y →
  (k < zlen l1 ∧ zget (l1 ++ l2) k = Some y) ∨ (k = zlen l1 ∧ y = x) ∨
  (zlen l1 < k ∧ zget (l1 ++ l2) (k - 1) = Some y).
Proof.
  intros Hk. destruct (Z.lt_trichotomy k (zlen l1)) as [Hlt|[->|Hgt]].
  - left. rewrite zget_app_l in Hk |- * by done. done.
  - right; left. rewrite zget_app_r, Z.sub_diag in Hk by lia. unfold zget in Hk. simpl in Hk. by simplify_eq.
  - right; right. split; [done|]. rewrite zget_app_r in Hk |- * by lia.
    unfold zget in *. rewrite decide_True in Hk by lia. rewrite decide_True by lia.
    replace (Z.to_nat (k - zlen l1)) with (S (Z.to_nat (k - 1 - zlen l1))) in Hk by lia. done.
Qed.

Lemma sorted_insert key (l1 l2 : list E) :
  sorted compare (l1 ++ l2) →
  (∀ k x, zget (l1 ++ l2) k = Some x →
     (k < zlen l1 → 0 < compare key x) ∧ (zlen l1 ≤ k → compare key x < 0)) →
  sorted compare (l1 ++ key :: l2).
Proof.
  intros Hs Hk i j x y Hij Hx%zget_middle_cases Hy%zget_middle_cases.
  assert (∀ z, compare key z < 0 → 0 < compare z key) as Hflip.
  { intros z Hz. pose proof (so_opp z key). destruct (compare z key), (compare key z); simpl in *; lia. }
  destruct Hx as [[? Hx]|[[-> ->]|[? Hx]]], Hy as [[? Hy]|[[-> ->]|[? Hy]]]; try lia.
  - by apply (Hs i j).
  - by apply (Hk i x Hx).
  - apply (Hs i (j - 1)); [lia|done..].
  - apply Hflip. apply (Hk (j - 1) y Hy). lia.
  - apply (Hs (i - 1) (j - 1)); [lia|done..].
Qed.

Lemma insert_sorted_run a key :
  ga_ok a → sorted compare (elems a) → roomy (ga_len a + 1) →
  ∃ r l', run (insert_sorted compare key) a r l' ∧ sorted compare l' ∧
    ((r ∈ elems a ∧ compare key r = 0 ∧ l' = elems a) ∨
     (r = key ∧ (∀ x, x ∈ elems a → compare key x ≠ 0) ∧
      ∃ l1 l2, elems a = l1 ++ l2 ∧ l' = l1 ++ key :: l2)).
Proof.
  intros Hok Hs Hr.
  destruct (find_sorted_spec compare key a Hok (sorted_search_ordered _ _ Hs))
    as ([loc found] & Hf & Hres).
  unfold run, insert_sorted, mget, mlift, mbind, M_bind. rewrite Hf. simpl.
  destruct found; simpl in *.
  - destruct Hres as (x & Hx & Hc). exists x, (elems a). split; [|split; [done|left]].
    + exists a. pose proof (zget_Some _ _ _ Hx) as Hin. rewrite elems_length in Hin by done.
      unfold at_. by rewrite elems_lookup, Hx by done.
    + split; [|done]. unfold zget in Hx. case_decide; [|done]. by eapply list_elem_of_lookup_2.
  - destruct Hres as [Hloc Hk].
    destruct (elems_cut (elems a) loc Hloc) as (l1 & l2 & Hl & <-).
    rewrite elems_length in Hloc by done.
    destruct (insert_before_run a (zlen l1) key Hok Hloc Hr) as (a' & -> & Hok' & He).
    rewrite Hl, take_app_zlen, drop_app_zlen in He.
    exists key, (l1 ++ key :: l2). split; [|split].
    + exists a'. split; [|done]. unfold at_.
      rewrite elems_lookup; [|done|].
      * by rewrite He, zget_app_r, Z.sub_diag by lia.
      * rewrite <- elems_length, He by done. unfold zlen. rewrite length_app. simpl. lia.
    + rewrite Hl in Hs, Hk. by apply sorted_insert.
    + right. split; [done|]. split; [|eauto].
      intros x [k Hx]%list_elem_of_lookup_1. rewrite <- zget_nat in Hx.
      destruct (Hk _ _ Hx) as [H1 H2].
      destruct (decide (Z.of_nat k < zlen l1)) as [Hlt|Hge]; [specialize (H1 Hlt); lia|].
      specialize (H2 ltac:(lia)). lia.
Qed.
End sorted.

(** ** Refinement of the operations to lists *)

Section interface.
Context `{D : SizeArith} {E : Type} `{!Inhabited E} `{!EqDecision E}.
Implicit Types (a : GrowableArray E).

Inductive ga_op :=
  | OAppend (x : E) | OAppendIfMissing (x : E) | OPop | OAtPut (i : Z) (x : E)
  | OAtPutGrow (i : Z) (x fill : E) | OAtGrow (i : Z) (fill : E) | OInsertBefore (i : Z) (x : E) | ORemoveAt (i : Z)
  | ODeleteAt (i : Z) | ORemove (x : E) | OTruncTo (n : Z) | OClear.

(** What an operation returns. *)
Inductive ga_result := RUnit | RIndex (i : Z) | RBool (b : bool) | RElem (x : E).

Definition exec (o : ga_op) : M (GrowableArray E) ga_result :=
  match o with
  | OAppend x => i ← append x; mret (RIndex i)
  | OAppendIfMissing x => b ← append_if_missing x; mret (RBool b)
  | OPop => x ← pop; mret (RElem x)
  | OAtPut i x => at_put i x ;; mret RUnit
  | OAtPutGrow i x fill => at_put_grow i x fill ;; mret RUnit
  | OAtGrow i fill => x ← at_grow i fill; mret (RElem x)
  | OInsertBefore i x => insert_before i x ;; mret RUnit
  | ORemoveAt i => remove_at i ;; mret RUnit
  | ODeleteAt i => delete_at i ;; mret RUnit
  | ORemove x => remove x ;; mret RUnit
  | OTruncTo n => λ a, Some (RUnit, trunc_to n a)
  | OClear => λ a, Some (RUnit, clear a)
  end.

(** The operations on lists, with their results; [None] where an assertion of the
    source fails. *)
Definition spec (o : ga_op) (l : list E) : option (ga_result * list E) :=
  match o with
  | OAppend x => Some (RIndex (zlen l), l ++ [x])
  | OAppendIfMissing x =>
      Some (if decide (x ∈ l) then (RBool false, l) else (RBool true, l ++ [x]))
  | OPop => match last l with Some x => Some (RElem x, take (length l - 1) l) | None => None end
  | OAtPut i x => if decide (0 ≤ i < zlen l) then Some (RUnit, <[Z.to_nat i := x]> l) else None
  | OAtPutGrow i x fill => if decide (0 ≤ i) then Some (RUnit, put_grow l i x fill) else None
  | OAtGrow i fill =>
      if decide (0 ≤ i)
      then match zget (fill_grow l i fill) i with
           | Some x => Some (RElem x, fill_grow l i fill)
           | None => None
           end
      else None
  | OInsertBefore i x =>
      if decide (0 ≤ i ≤ zlen l) then Some (RUnit, take (Z.to_nat i) l ++ x :: drop (Z.to_nat i) l)
      else None
  | ORemoveAt i => if decide (0 ≤ i < zlen l) then Some (RUnit, delete (Z.to_nat i) l) else None
  | ODeleteAt i =>
      match last l with
      | Some y => if decide (0 ≤ i < zlen l)
                  then Some (RUnit, <[Z.to_nat i := y]> (take (length l - 1) l)) else None
      | None => None
      end
  | ORemove x => match list_find (x =.) l with
                 | Some (i, _) => Some (RUnit, delete i l)
                 | None => None
                 end
  | OTruncTo n => if decide (0 ≤ n ≤ zlen l) then Some (RUnit, take (Z.to_nat n) l) else None
  | OClear => Some (RUnit, [])
  end.

(** A sequence of operations, none of which makes the list longer than [limit]. *)
Fixpoint specs (limit : Z) (os : list ga_op) (l : list E) : option (list ga_result * list E) :=
  match os with
  | [] => Some ([], l)
  | o :: os' =>
      '(r, l1) ← spec o l;
      if decide (zlen l1 ≤ limit) then '(rs, l2) ← specs limit os' l1; Some (r :: rs, l2) else None
  end.

Lemma run_map {A B} (m : M (GrowableArray E) A) (f : A → B) a r l :
  run m a r l → run (x ← m; mret (f x)) a (f r) l.
Proof. intros (a' & Hm & Hok & He). exists a'. unfold mbind, M_bind. by rewrite Hm. Qed.

Lemma run_unit (m : M (GrowableArray E) unit) a l : run m a tt l → run (m ;; mret RUnit) a RUnit l.
Proof. apply (run_map m (λ _, RUnit)). Qed.

Lemma trunc_run a n :
  ga_ok a → 0 ≤ n ≤ ga_len a → ga_ok (trunc_to n a) ∧ elems (trunc_to n a) = take (Z.to_nat n) (elems a).
Proof.
  intros [H1 H2] Hn. split; [split; simpl; [lia|done]|].
  unfold elems. simpl. rewrite take_take. f_equal. lia.
Qed.

Lemma snoc_take (l l0 : list E) y : l = l0 ++ [y] → take (length l - 1) l = l0.
Proof. intros ->. rewrite length_app. simpl. rewrite Nat.add_sub. apply take_app_length. Qed.

Lemma zlen_put_grow (l : list E) i x fill : 0 ≤ i → zlen (put_grow l i x fill) = Z.max (zlen l) (i + 1).
Proof.
  intros Hi. unfold put_grow. case_decide; unfold zlen in *.
  - rewrite length_insert. lia.
  - rewrite !length_app, length_replicate. cbn. lia.
Qed.

Lemma remove_list_run a x i y :
  ga_ok a → list_find (x =.) (elems a) = Some (i, y) → run (remove x) a tt (delete i (elems a)).
Proof.
  intros Hok Hf. apply list_find_Some in Hf as (Hy & <- & Hfirst).
  rewrite <- (take_drop_middle (elems a) i x Hy) at 1.
  rewrite <- (length_take_le (elems a) i) at 1 by (apply lookup_lt_Some in Hy; lia).
  rewrite delete_middle. apply remove_run; [done|by rewrite take_drop_middle|].
  intros [k Hk]%list_elem_of_lookup_1. apply lookup_take_Some in Hk as [Hk Hlt].
  by apply (Hfirst k x Hk Hlt).
Qed.

Lemma zlen_fill_grow (l : list E) i fill : 0 ≤ i → i + 1 ≤ zlen (fill_grow l i fill).
Proof. intros Hi. unfold fill_grow, zlen. rewrite length_app, length_replicate. lia. Qed.

Lemma exec_spec o a r l' :
  ga_ok a → spec o (elems a) = Some (r, l') → roomy (zlen l') → run (exec o) a r l'.
Proof.
  intros Hok Hs Hr. pose proof (elems_length a Hok) as Hl.
  destruct o as [x|x| |i x|i x fill|i fill|i x|i|i|x|n|]; simpl in *.
  - simplify_eq. rewrite zlen_app in Hr. rewrite Hl in Hr |- *. by apply (run_map _ RIndex), append_run.
  - pose proof (append_if_missing_run a x Hok) as Ha. rewrite <- Hl in Ha.
    case_decide as Hx; simplify_eq; eapply (run_map _ RBool) in Ha.
    + by rewrite bool_decide_true in Ha by done.
    + done.
    + by rewrite bool_decide_false in Ha by done.
    + intros _. by rewrite zlen_app in Hr.
  - destruct (elems a) as [|y l0 _] eqn:He using rev_ind; [done|]. rewrite last_snoc in Hs. simplify_eq.
    apply (run_map _ RElem), pop_run; [done|]. by rewrite He, (snoc_take _ l0 y).
  - case_decide; simplify_eq. apply run_unit, at_put_run; [done|lia].
  - case_decide; simplify_eq. apply run_unit, raw_at_put_grow_run; [done..|].
    rewrite zlen_put_grow in Hr by done. eapply roomy_le; [|done]. lia.
  - case_decide; [|done]. destruct (zget _ i) as [x|] eqn:Hx; simplify_eq.
    apply (run_map _ RElem), at_grow_run; [done..| |done].
    eapply roomy_le; [|done]. by apply zlen_fill_grow.
  - case_decide as Hi; simplify_eq. apply run_unit, insert_before_run; [done|lia|].
    eapply roomy_le; [|done]. rewrite <- Hl, <- (take_drop (Z.to_nat i) (elems a)) at 1. rewrite !zlen_app.
    unfold zlen. cbn [length]. lia.
  - case_decide; simplify_eq. apply run_unit, shift_down_run; [done|lia].
  - destruct (elems a) as [|y l0 _] eqn:He using rev_ind; [done|].
    rewrite last_snoc in Hs. case_decide as Hi; simplify_eq.
    rewrite (snoc_take _ l0 y) by done. apply run_unit, (delete_at_run a i l0 y Hok He).
    unfold zlen in *. rewrite length_app in Hi. simpl in Hi. lia.
  - destruct (list_find (x =.) (elems a)) as [[i y]|] eqn:Hf; simplify_eq.
    by apply run_unit, (remove_list_run _ _ _ y).
  - case_decide; simplify_eq. eexists. split; [done|]. apply trunc_run; [done|lia].
  - simplify_eq. eexists. split; [done|]. apply (trunc_run a 0); [done|]. destruct Hok. lia.
Qed.
End interface.
Arguments ga_op : clear implicits.
Arguments ga_result : clear implicits.

Section int_sizes.
#[local] Existing Instance int32.
Context {E : Type} `{!Inhabited E} `{!EqDecision E}.

(** C22: a growable array, with its capacity an [int], implements a list. Starting
    from a well-formed array, any sequence of operations whose assertions hold on
    the list of elements and which never makes the list longer than 2^30 succeeds
    on the cells (no access outside the allocated cells, growing included),
    returns what the list operations return, keeps the invariant, and leaves
    exactly the elements the list operations compute. *)
Theorem growable_array_refines_list (os : list (ga_op E)) (a : GrowableArray E) rs l' :
  ga_ok a → specs (2 ^ 30) os (elems a) = Some (rs, l') →
  ∃ a', mmap exec os a = Some (rs, a') ∧ ga_ok a' ∧ elems a' = l'.
Proof.
  revert a rs. induction os as [|o os IH]; intros a rs Hok Hs; cbn [specs mmap] in *.
  { simplify_eq. by exists a. }
  destruct (spec o (elems a)) as [[r l1]|] eqn:Ho; [|done]. cbn [mbind option_bind] in Hs.
  case_decide as Hlim; [|done].
  destruct (exec_spec o a r l1 Hok Ho (int32_roomy _ Hlim)) as (a1 & E1 & Hok1 & <-).
  destruct (specs (2 ^ 30) os (elems a1)) as [[rs' l2]|] eqn:Hs'; [|done]. cbn in Hs. simplify_eq.
  destruct (IH a1 rs' Hok1 Hs') as (a' & E' & Ha'). exists a'. split; [|done].
  by rewrite (M_bind_Some _ _ _ _ _ E1), (M_bind_Some _ _ _ _ _ E').
Qed.
End int_sizes.

Lemma growable_array_refines_list_witness :
  ∃ a', mmap (exec (D := int32)) [OAppend 5; OAppend 7; OInsertBefore 1 6; ORemove 5; OAtPutGrow 4 9 0; OPop;
                                  OAppendIfMissing 7]
          (ga_new 1 0 0) = Some ([RIndex 0; RIndex 1; RUnit; RUnit; RUnit; RElem 9; RBool false], a') ∧
        ga_ok a' ∧ elems a' = [6; 7; 0; 0].
Proof.
  apply (growable_array_refines_list
    [OAppend 5; OAppend 7; OInsertBefore 1 6; ORemove 5; OAtPutGrow 4 9 0; OPop; OAppendIfMissing 7] (ga_new 1 0 0)).
  - by split.
  - vm_compute. reflexivity.
Defined.

(** binary search.  On an array ordered for the key the search terminates
    within [length] steps, stays inside the array, and its answer is right:
    found means an element that compares equal, not found means that every
    element before the returned location compares below the key and every
    element from it on above. *)
Theorem find_sorted_correct {K E} `{!Inhabited E} `{!EqDecision E}
    (compare : K → E → Z) key (a : GrowableArray E) :
  ga_ok a → search_ordered compare key (elems a) →
  ∃ r, find_sorted compare key a = Some r ∧ search_result compare key (elems a) r ∧
       (snd r = true ↔ ∃ x, x ∈ elems a ∧ compare key x = 0).
Proof.
  intros Hok Hord. destruct (find_sorted_spec compare key a Hok Hord) as ([loc [|]] & Hf & Hr).
  - eexists. split; [done|]. split; [done|]. destruct Hr as (x & Hx & Hc). split; [|done].
    intros _. exists x. split; [|done]. unfold zget in Hx. case_decide; [|done].
    by eapply list_elem_of_lookup_2.
  - eexists. split; [done|]. split; [done|]. destruct Hr as [Hb Hr]. split; [done|].
    intros (x & [k Hx]%list_elem_of_lookup_1 & Hc). rewrite <- zget_nat in Hx.
    destruct (Hr _ _ Hx) as [H1 H2].
    destruct (decide (Z.of_nat k < loc)) as [Hlt|Hge]; [specialize (H1 Hlt); lia|].
    specialize (H2 ltac:(lia)). lia.
Qed.

Lemma find_sorted_correct_witness :
  ∃ r, find_sorted Z.sub 7 (mkGA [1; 4; 7; 9] 4 4) = Some r ∧
       search_result Z.sub 7 (elems (mkGA [1; 4; 7; 9] 4 4)) r ∧
       (snd r = true ↔ ∃ x, x ∈ elems (mkGA [1; 4; 7; 9] 4 4) ∧ 7 - x = 0).
Proof.
  apply (find_sorted_correct Z.sub 7 (mkGA [1; 4; 7; 9] 4 4)); [by split|].
  intros i j x y Hij Hx Hy. pose proof (zget_Some _ _ _ Hx). pose proof (zget_Some _ _ _ Hy).
  unfold zlen in *. simpl in *.
  assert (i = 0 ∨ i = 1 ∨ i = 2 ∨ i = 3) as [->|[->|[->| ->]]] by lia;
  assert (j = 0 ∨ j = 1 ∨ j = 2 ∨ j = 3) as [->|[->|[->| ->]]] by lia;
  vm_compute in Hx, Hy; simplify_eq; lia.
Defined.

(** [insert_sorted] keeps a strictly sorted array strictly sorted; it
    returns the element that compares equal to the key when there is one and
    leaves the array alone, and otherwise inserts the key once. *)
Theorem insert_sorted_correct `{D : SizeArith} {E} `{!Inhabited E} `{!EqDecision E}
    (compare : E → E → Z) `{!SearchOrder compare} (a : GrowableArray E) key :
  ga_ok a → sorted compare (elems a) → roomy (ga_len a + 1) →
  ∃ r a', insert_sorted compare key a = Some (r, a') ∧ ga_ok a' ∧ sorted compare (elems a') ∧
    r ∈ elems a' ∧
    ((∃ x, x ∈ elems a ∧ compare key x = 0) → r ∈ elems a ∧ compare key r = 0 ∧ elems a' = elems a) ∧
    ((∀ x, x ∈ elems a → compare key x ≠ 0) → r = key ∧ elems a' ≡ₚ key :: elems a).
Proof.
  intros Hok Hs Hr. destruct (insert_sorted_run compare a key Hok Hs Hr)
    as (r & l' & (a' & E' & Hok' & He) & Hs' & Hcase).
  exists r, a'. subst l'. split_and!; [done..| | |].
  - destruct Hcase as [(Hin & _ & ->)|(-> & _ & l1 & l2 & _ & ->)]; [done|].
    apply elem_of_app. right. by left.
  - intros (x & Hx & Hc). destruct Hcase as [?|(-> & Hn & _)]; [done|]. by destruct (Hn x Hx).
  - intros Hn. destruct Hcase as [(Hin & Hc & _)|(-> & _ & l1 & l2 & -> & ->)].
    + by destruct (Hn r Hin).
    + split; [done|]. symmetry. apply Permutation_middle.
Qed.

#[export] Instance Zsub_SearchOrder : SearchOrder Z.sub.
Proof. split; intros; lia. Qed.

Lemma insert_sorted_correct_witness :
  ∃ r a', insert_sorted (D := int32) Z.sub 5 (mkGA [1; 4; 7] 3 3) = Some (r, a') ∧ ga_ok a' ∧
    sorted Z.sub (elems a') ∧ r ∈ elems a' ∧
    ((∃ x, x ∈ elems (mkGA [1; 4; 7] 3 3) ∧ 5 - x = 0) →
       r ∈ elems (mkGA [1; 4; 7] 3 3) ∧ 5 - r = 0 ∧ elems a' = elems (mkGA [1; 4; 7] 3 3)) ∧
    ((∀ x, x ∈ elems (mkGA [1; 4; 7] 3 3) → 5 - x ≠ 0) →
       r = 5 ∧ elems a' ≡ₚ 5 :: elems (mkGA [1; 4; 7] 3 3)).
Proof.
  apply (insert_sorted_correct (D := int32) Z.sub (mkGA [1; 4; 7] 3 3) 5); [by split| |by apply int32_roomy].
  intros i j x y Hij Hx Hy. pose proof (zget_Some _ _ _ Hx). pose proof (zget_Some _ _ _ Hy).
  unfold zlen in *. simpl in *.
  assert (i = 0 ∨ i = 1 ∨ i = 2) as [->|[->| ->]] by lia;
  assert (j = 0 ∨ j = 1 ∨ j = 2) as [->|[->| ->]] by lia;
  vm_compute in Hx, Hy; simplify_eq; lia.
Defined.
End GA.
