(* ===== verification/VMReg.v ===== *)
(** * Machine locations: VMReg and Location
    (src/share/vm/code/vmreg.hpp, vmreg.cpp, location.hpp, location.cpp,
    src/cpu/x86/vm/register_x86.hpp/.cpp, vmreg_x86.inline.hpp)

    The AMD64 configuration.  A [VMReg] is the integer its pointer encodes:
    register halves below [stack0], four-byte stack slots from it on. *)

From stdpp Require Import base numbers list.
From S2P Require Import Prelude GlobalDefinitions CompressedStream.
Local Open Scope Z_scope.

(** ** Registers of AMD64 *)

Definition Register_number_of_registers : Z := 16.
Definition FloatRegister_number_of_registers : Z := 8.
Definition XMMRegister_number_of_registers : Z := 16.

Definition ConcreteRegister_number_of_registers : Z :=
  Register_number_of_registers + Register_number_of_registers
  + 2 * FloatRegister_number_of_registers + 8 * XMMRegister_number_of_registers + 1.
Definition max_gpr : Z := Z.shiftl Register_number_of_registers 1.
Definition max_fpr : Z := max_gpr + 2 * FloatRegister_number_of_registers.
Definition max_xmm : Z := max_fpr + 8 * XMMRegister_number_of_registers.

(** ** VMReg *)

Definition VMReg : Type := Z.

Definition BAD_REG : Z := -1.
Definition stack0 : VMReg := Z.land (ConcreteRegister_number_of_registers + 7) (Z.lnot 7).
Definition stack_slot_size : Z := 4.
Definition slots_per_word : Z := 8 / stack_slot_size.

Definition as_VMReg (val : Z) : VMReg := val.
Definition Bad : VMReg := BAD_REG.
Definition is_valid (r : VMReg) : bool := negb (r =? BAD_REG).
Definition is_stack (r : VMReg) : bool := stack0 <=? r.
Definition is_reg (r : VMReg) : bool := is_valid r && negb (is_stack r).
Definition next (r : VMReg) : VMReg := r + 1.
Definition next_n (r : VMReg) (i : Z) : VMReg := r + i.
Definition prev (r : VMReg) : VMReg := r - 1.
Definition stack2reg (idx : Z) : VMReg := stack0 + idx.
Definition reg2stack (r : VMReg) : Z := r - stack0.
Definition bias (r : VMReg) (offset : Z) : VMReg := stack2reg (reg2stack r + offset).

(** vmreg_x86.inline.hpp *)
Definition Register_as_VMReg (encoding : Z) : VMReg :=
  if encoding =? -1 then Bad else as_VMReg (Z.shiftl encoding 1).
Definition FloatRegister_as_VMReg (encoding : Z) : VMReg :=
  as_VMReg (Z.shiftl encoding 1 + max_gpr).
Definition XMMRegister_as_VMReg (encoding : Z) : VMReg :=
  as_VMReg (Z.shiftl encoding 3 + max_fpr).
Definition is_Register (r : VMReg) : bool := u32 r <? max_gpr.
Definition is_FloatRegister (r : VMReg) : bool := (max_gpr <=? r) && (r <? max_fpr).
Definition is_XMMRegister (r : VMReg) : bool := (max_fpr <=? r) && (r <? max_xmm).
Definition as_Register (r : VMReg) : Z := Z.shiftr r 1.
Definition as_FloatRegister (r : VMReg) : Z := Z.shiftr (r - max_gpr) 1.
Definition as_XMMRegister (r : VMReg) : Z := Z.shiftr (r - max_fpr) 3.

(** ** VMRegPair *)

Record VMRegPair := mkPair { pair_second : VMReg; pair_first : VMReg }.
Definition set_bad : VMRegPair := mkPair Bad Bad.
Definition set1 (v : VMReg) : VMRegPair := mkPair Bad v.
Definition set2 (v : VMReg) : VMRegPair := mkPair (next v) v.
Definition set_ptr (ptr : VMReg) : VMRegPair := mkPair (next ptr) ptr.
Definition is_single_reg (p : VMRegPair) : bool :=
  is_valid (pair_first p) && (pair_first p + 1 =? pair_second p).
Definition is_adjacent_on_stack (alignment : Z) (p : VMRegPair) : bool :=
  is_stack (pair_first p) && (pair_first p + 1 =? pair_second p)
  && (Z.land (pair_first p) (alignment - 1) =? 0).
Definition is_single_phys_reg (p : VMRegPair) : bool :=
  is_reg (pair_first p) && (pair_first p + 1 =? pair_second p).

(** ** Location *)

Inductive Where := on_stack | in_register.
Inductive LocType :=
  | invalid | normal | oop | int_in_long | lng | float_in_dbl | dbl | addr | narrowoop.

#[global] Instance Where_eq_dec : EqDecision Where.
Proof. solve_decision. Defined.
#[global] Instance LocType_eq_dec : EqDecision LocType.
Proof. solve_decision. Defined.

Definition Where_code (w : Where) : Z := match w with on_stack => 0 | in_register => 1 end.
Definition LocType_code (t : LocType) : Z :=
  match t with
  | invalid => 0 | normal => 1 | oop => 2 | int_in_long => 3 | lng => 4
  | float_in_dbl => 5 | dbl => 6 | addr => 7 | narrowoop => 8
  end.

Definition TYPE_MASK : Z := 0x0F.
Definition TYPE_SHIFT : Z := 0.
Definition WHERE_MASK : Z := 0x10.
Definition WHERE_SHIFT : Z := 4.
Definition OFFSET_MASK : Z := 0xFFFFFFE0.
Definition OFFSET_SHIFT : Z := 5.

(** A [Location] is its packed [juint]. *)
Definition Location : Type := Z.

Definition Location_set (where_ : Where) (type_ : LocType) (offset_ : Z) : Location :=
  u32 (Z.lor (Z.lor (Z.shiftl (Where_code where_) WHERE_SHIFT)
                    (Z.shiftl (LocType_code type_) TYPE_SHIFT))
             (Z.land (u32 (Z.shiftl offset_ OFFSET_SHIFT)) OFFSET_MASK)).

Definition new_stk_loc (t : LocType) (offset : Z) : Location :=
  Location_set on_stack t (u32 (Z.shiftr offset 2)).
Definition new_reg_loc (t : LocType) (reg : VMReg) : Location :=
  Location_set in_register t (u32 reg).
Definition new_invalid : Location := Location_set on_stack invalid 0.

(** The accessors return the enum's number, as the cast in the source does. *)
Definition where_ (l : Location) : Z := Z.shiftr (Z.land l WHERE_MASK) WHERE_SHIFT.
Definition type_ (l : Location) : Z := Z.shiftr (Z.land l TYPE_MASK) TYPE_SHIFT.
Definition offset_ (l : Location) : Z := Z.shiftr (Z.land l OFFSET_MASK) OFFSET_SHIFT.
Definition loc_is_register (l : Location) : bool := where_ l =? Where_code in_register.
Definition loc_is_stack (l : Location) : bool := where_ l =? Where_code on_stack.
Definition stack_offset (l : Location) : Z := s32 (u32 (Z.shiftl (offset_ l) 2)).
Definition register_number (l : Location) : Z := s32 (offset_ l).
Definition loc_reg (l : Location) : VMReg := as_VMReg (s32 (offset_ l)).

Definition Location_read : M CompressedReadStream Location := v ← read_int; mret (u32 v).
Definition Location_write_on (l : Location) : M CompressedWriteStream unit := write_int (s32 l).

Definition legal_offset_in_bytes (offset_in_bytes : Z) : bool :=
  if negb (Z.rem offset_in_bytes 4 =? 0) then false
  else u32 (Z.quot offset_in_bytes 4) <? Z.shiftr OFFSET_MASK OFFSET_SHIFT.

(** ** Lemmas *)

Lemma stack0_val : stack0 = 184.
Proof. done. Qed.

Lemma Where_code_inj w w' : Where_code w = Where_code w' → w = w'.
Proof. by destruct w, w'. Qed.
Lemma LocType_code_inj t t' : LocType_code t = LocType_code t' → t = t'.
Proof. by destruct t, t'. Qed.

Lemma Location_set_eq w t o :
  in_u 27 o → Location_set w t o = o * 32 + Where_code w * 16 + LocType_code t.
Proof.
  intros Ho. unfold Location_set, WHERE_SHIFT, TYPE_SHIFT, OFFSET_SHIFT, OFFSET_MASK.
  assert (Z.land (u32 (o ≪ 5)) 0xFFFFFFE0 = o ≪ 5) as ->.
  { rewrite Z.shiftl_mul_pow2, (wrapU_id 32) by machine.
    change 0xFFFFFFE0 with (Z.shiftl (Z.ones 27) 5).
    rewrite <- Z.shiftl_mul_pow2, <- Z.shiftl_land, Z.land_ones by done.
    by rewrite (Z.mod_small o) by done. }
  rewrite Z.shiftl_0_r, lor_shiftl_add by (try (destruct w, t); done).
  assert (Z.lor (Where_code w ≪ 4) (LocType_code t) = Where_code w * 16 + LocType_code t) as ->
    by (by destruct w, t).
  destruct w, t; cbn [Where_code LocType_code]; machine.
Qed.

Lemma location_fields w t o :
  in_u 27 o →
  where_ (Location_set w t o) = Where_code w ∧
  type_ (Location_set w t o) = LocType_code t ∧
  offset_ (Location_set w t o) = o.
Proof.
  intros Ho. rewrite Location_set_eq by done. unfold where_, type_, offset_.
  unfold WHERE_MASK, WHERE_SHIFT, TYPE_MASK, TYPE_SHIFT, OFFSET_MASK, OFFSET_SHIFT.
  assert (∀ x, Z.land x 0x10 ≫ 4 = x / 16 mod 2) as ->.
  { intros x. rewrite Z.shiftr_land, Z.shiftr_div_pow2 by done.
    change (Z.shiftr 0x10 4) with (Z.ones 1). by rewrite Z.land_ones. }
  assert (∀ x, Z.land x 0xFFFFFFE0 ≫ 5 = x / 32 mod 2 ^ 27) as ->.
  { intros x. rewrite Z.shiftr_land, Z.shiftr_div_pow2 by done.
    change (Z.shiftr 0xFFFFFFE0 5) with (Z.ones 27). by rewrite Z.land_ones. }
  rewrite Z.shiftr_0_r. change 0x0F with (Z.ones 4). rewrite Z.land_ones by done.
  destruct w, t; cbn [Where_code LocType_code]; machine.
Qed.

Lemma Location_set_range w t o : is_juint (Location_set w t o).
Proof. by apply wrapU_range. Qed.

#[global] Typeclasses Opaque Location_read Location_write_on.

Definition enc_location (l : Location) : list Z := enc_int (s32 l).

#[global] Instance location_codec :
  Codec is_juint enc_location Location_write_on Location_read.
Proof.
  split; intros l Hl; unfold enc_location, Location_write_on, Location_read.
  - apply write_int_appends.
  - eapply reads_map; [by apply read_int_reads, wrapS_range|]. machine.
Qed.

(** A legal stack offset is a multiple of four within the offset field. *)
Lemma legal_offset_spec off :
  is_jint off → legal_offset_in_bytes off = true →
  off mod 4 = 0 ∧ in_u 27 (off ≫ 2) ∧ (off ≫ 2) * 4 = off.
Proof.
  intros Hj. unfold legal_offset_in_bytes. change (OFFSET_MASK ≫ OFFSET_SHIFT) with (2 ^ 27 - 1).
  destruct (Z.eqb_spec (Z.rem off 4) 0) as [Hr|]; [|done]. cbn [negb].
  rewrite Z.ltb_lt, Z.shiftr_div_pow2 by done. change (2 ^ 2) with 4.
  pose proof (Z.quot_rem' off 4) as Hq. rewrite Hr, Z.add_0_r in Hq.
  rewrite Hq at 2 3 4 5. rewrite (Z.mul_comm 4), Z.div_mul, Z.mod_mul by done. machine.
Qed.

Lemma new_stk_loc_eq t off :
  in_u 27 (off ≫ 2) → new_stk_loc t off = Location_set on_stack t (off ≫ 2).
Proof. intros Ho. unfold new_stk_loc. by rewrite wrapU_id by machine. Qed.

(** ** Results *)

(** C34: A location built by the three-argument constructor from an offset that
    fits its 27-bit field gives back its kind, its type and its offset, and
    writing it to a debug-information stream and reading it back gives the same
    location, with the reader at the writer's position. *)
Theorem location_pack_roundtrip w t o s :
  in_u 27 o → ws_ok s →
  let l := Location_set w t o in
  (where_ l = Where_code w ∧ type_ l = LocType_code t ∧ offset_ l = o) ∧
  ∃ s', Location_write_on l s = Some (tt, s') ∧
        Location_read (mkRS (ws_buffer s') (ws_position s))
          = Some (l, mkRS (ws_buffer s') (ws_position s')).
Proof.
  intros Ho Hs l. split; [by apply location_fields|].
  destruct (codec_roundtrip is_juint enc_location Location_write_on Location_read s l)
    as (s' & E & _ & _ & R); [done|apply Location_set_range|done|]. by exists s'.
Qed.

Lemma location_pack_roundtrip_witness :
  let l := Location_set in_register narrowoop 1234567 in
  where_ l = 1 ∧ type_ l = 8 ∧ offset_ l = 1234567.
Proof.
  apply (location_pack_roundtrip in_register narrowoop 1234567 (new_write_stream 16)); done.
Defined.

(** For every byte offset that [legal_offset_in_bytes] accepts, the stack
    location made from it is a stack location of the given type whose
    [stack_offset] is that byte offset; every offset it rejects is one the
    packed field cannot represent exactly, or the reserved largest one. *)
Theorem stack_location_legal t off :
  is_jint off →
  (legal_offset_in_bytes off = true →
     let l := new_stk_loc t off in
     loc_is_stack l = true ∧ loc_is_register l = false ∧ type_ l = LocType_code t ∧
     stack_offset l = off) ∧
  (legal_offset_in_bytes off = false →
     stack_offset (new_stk_loc t off) ≠ off ∨ off = (2 ^ 27 - 1) * 4).
Proof.
  intros Hj. split.
  - intros (Hm & Ho & He)%legal_offset_spec; [|done]. cbv zeta.
    rewrite new_stk_loc_eq by done. destruct (location_fields on_stack t _ Ho) as (Hw & Ht & Hf).
    unfold loc_is_stack, loc_is_register, stack_offset. rewrite Hw, Ht, Hf, Z.shiftl_mul_pow2 by done.
    split_and!; [done..|]. change (2 ^ 2) with 4. rewrite He. by rewrite wrapS_wrapU, wrapS_id.
  - intros Hl. destruct (decide (off = (2 ^ 27 - 1) * 4)) as [->|Hne]; [by right|]. left. intros Hs.
    unfold stack_offset in Hs. rewrite wrapS_wrapU in Hs.
    assert (in_u 27 (offset_ (new_stk_loc t off))) as Ho.
    { unfold offset_. rewrite Z.shiftr_land. apply in_u_land_r; done. }
    rewrite Z.shiftl_mul_pow2, (wrapS_id 32) in Hs by (done || machine).
    change (2 ^ 2) with 4 in Hs. unfold legal_offset_in_bytes in Hl.
    change (OFFSET_MASK ≫ OFFSET_SHIFT) with (2 ^ 27 - 1) in Hl.
    rewrite <- Hs, Z.rem_mul, Z.quot_mul in Hl by done. simpl in Hl.
    apply Z.ltb_ge in Hl. rewrite <- Hs in Hne. machine.
Qed.

Lemma stack_location_legal_witness :
  stack_offset (new_stk_loc oop 4096) = 4096 ∧ stack_offset (new_stk_loc oop 4098) ≠ 4098.
Proof.
  split.
  - apply (proj1 (stack_location_legal oop 4096 ltac:(done))). done.
  - destruct (proj2 (stack_location_legal oop 4098 ltac:(done)) ltac:(done)) as [Hn|Hn]; done.
Defined.

(** C35: The AMD64 register numbering assigns every general-purpose, x87 and
    XMM register its own VMReg below [stack0]: the mapping is inverted by the
    accessor of its class, no VMReg belongs to two classes, and a stack slot
    is never a register. *)
Theorem register_numbering_partition :
  (∀ e, 0 ≤ e < Register_number_of_registers →
     let r := Register_as_VMReg e in
     is_Register r = true ∧ as_Register r = e ∧ is_reg r = true) ∧
  (∀ e, 0 ≤ e < FloatRegister_number_of_registers →
     let r := FloatRegister_as_VMReg e in
     is_FloatRegister r = true ∧ as_FloatRegister r = e ∧ is_reg r = true) ∧
  (∀ e, 0 ≤ e < XMMRegister_number_of_registers →
     let r := XMMRegister_as_VMReg e in
     is_XMMRegister r = true ∧ as_XMMRegister r = e ∧ is_reg r = true) ∧
  (∀ r, 0 ≤ r < 2 ^ 31 →
     (is_Register r && is_FloatRegister r = false) ∧
     (is_Register r && is_XMMRegister r = false) ∧
     (is_FloatRegister r && is_XMMRegister r = false) ∧
     (is_stack r = true →
        is_Register r || is_FloatRegister r || is_XMMRegister r = false ∧ is_reg r = false)) ∧
  (∀ idx, 0 ≤ idx → is_stack (stack2reg idx) = true ∧ reg2stack (stack2reg idx) = idx).
Proof.
  unfold is_reg, is_valid, is_stack, is_Register, is_FloatRegister, is_XMMRegister.
  unfold Register_as_VMReg, FloatRegister_as_VMReg, XMMRegister_as_VMReg, as_VMReg, BAD_REG.
  unfold as_Register, as_FloatRegister, as_XMMRegister, stack2reg, reg2stack. rewrite stack0_val.
  change max_gpr with 32. change max_fpr with 48. change max_xmm with 176.
  unfold Register_number_of_registers, FloatRegister_number_of_registers, XMMRegister_number_of_registers.
  split_and!; [intros e He..|intros r Hr|intros i Hi].
  - rewrite (proj2 (Z.eqb_neq e (-1))) by lia. rewrite Z.shiftl_mul_pow2, Z.shiftr_div_pow2 by done. machine.
  - rewrite Z.shiftl_mul_pow2, Z.shiftr_div_pow2 by done. machine.
  - rewrite Z.shiftl_mul_pow2, Z.shiftr_div_pow2 by done. machine.
  - rewrite (wrapU_id 32) by machine. lia.
  - lia.
Qed.
