(* ===== verification/OopRecorder.v ===== *)
(** * Recording oops and metadata of compiled code
    (src/share/vm/code/oopRecorder.hpp and .cpp)

    [ValueRecorder] maps handles to table indexes, with an index cache that may
    lose entries; [ObjectLookup] maps objects to indexes across garbage
    collections.  A handle is the integer value of its pointer. *)

From stdpp Require Import base numbers list sorting.
From S2P Require Import Prelude CompressedStream GrowableArray.
Local Open Scope Z_scope.

Definition null_index : Z := 0.
Definition first_index : Z := 1.
Definition index_cache_threshold : Z := 20.

(** ** IndexCache *)

Module IndexCache.
Definition log_cache_size : Z := 9.
Definition cache_size : Z := Z.shiftl 1 log_cache_size.
Definition collision_bit : Z := 1.
Definition index_shift : Z := 1.

Definition new_cache : list Z := replicate (Z.to_nat cache_size) 0.

Definition cache_index (handle : Z) : Z :=
  let ci := u32 (s32 handle) in
  let ci := Z.lxor ci (Z.shiftr ci 16) in
  let ci := u32 (ci + Z.shiftr ci 8) in
  Z.land ci (cache_size - 1).

Definition cache_location_collision (cval : Z) : bool := negb (Z.land cval collision_bit =? 0).
Definition cache_location_index (cval : Z) : Z := Z.shiftr cval index_shift.

(** The value [set_cache_location_index] stores over [cval0]. *)
Definition cache_location_value (cval0 index : Z) : Z :=
  let cval1 := s32 (Z.shiftl index index_shift) in
  if negb (cval0 =? 0) && negb (cval1 =? cval0) then s32 (cval1 + collision_bit) else cval1.

Definition set_cache_location_index (handle index : Z) (cache : list Z) : option (list Z) :=
  cval0 ← zget cache (cache_index handle);
  zset cache (cache_index handle) (cache_location_value cval0 index).
End IndexCache.

(** ** ValueRecorder *)

Module VR.
Import IndexCache.

Record ValueRecorder := mkVR {
  handles : option (GrowableArray Z);    (* [_handles], NULL before initialisation *)
  no_finds : option (GrowableArray Z);   (* [_no_finds] *)
  indexes : option (list Z);             (* [_indexes], NULL while there is no cache *)
  arena : bool;                          (* [_arena != NULL] *)
  complete : bool                        (* [_complete] *)
}.

Definition new_recorder (arena : bool) : ValueRecorder := mkVR None None None arena false.

(** Access through the pointers; a NULL dereference fails. *)
Definition on_handles {A} (m : M (GrowableArray Z) A) : M ValueRecorder A := λ v,
  a ← handles v; '(r, a') ← m a;
  Some (r, mkVR (Some a') (no_finds v) (indexes v) (arena v) (complete v)).
Definition on_no_finds {A} (m : M (GrowableArray Z) A) : M ValueRecorder A := λ v,
  a ← no_finds v; '(r, a') ← m a;
  Some (r, mkVR (handles v) (Some a') (indexes v) (arena v) (complete v)).
Definition set_indexes (c : list Z) : M ValueRecorder unit := λ v,
  Some (tt, mkVR (handles v) (no_finds v) (Some c) (arena v) (complete v)).

Definition maybe_initialize : M ValueRecorder unit := λ v,
  match handles v with
  | None => Some (tt, mkVR (Some (GA.ga_new 10 0 0)) (Some (GA.ga_new 10 0 0))
                           (indexes v) (arena v) (complete v))
  | Some _ => Some (tt, v)
  end.

Section recorder.
(** [Universe::non_oop_word()], a machine-dependent constant. *)
Context (non_oop_word : Z).

Definition is_real (h : Z) : bool := negb (h =? 0) && negb (h =? non_oop_word).

(** The loop that loads a new cache with the existing elements. *)
Fixpoint load_cache (n : nat) (i : Z) (hs nf : GrowableArray Z) (cache : list Z)
  : option (list Z) :=
  match n with
  | O => Some cache
  | S n' =>
      let index0 := i + first_index in
      if GA.contains index0 nf then load_cache n' (i + 1) hs nf cache
      else
        h ← GA.at_ i hs;
        cache' ← set_cache_location_index h index0 cache;
        load_cache n' (i + 1) hs nf cache'
  end.

(** What [add_handle] does to support [find_index]. *)
Definition support_find (h index : Z) (make_findable : bool) : M ValueRecorder unit :=
  v ← mget;
  if make_findable then
    match indexes v with
    | Some cache => c ← mlift (set_cache_location_index h index cache); set_indexes c
    | None =>
        if (index =? index_cache_threshold) && arena v then
          hs ← mlift (handles v);
          nf ← mlift (no_finds v);
          c ← mlift (load_cache (Z.to_nat (GA.ga_length hs)) 0 hs nf new_cache);
          set_indexes c
        else mret tt
    end
  else if is_real h then on_no_finds (GA.append index) ;; mret tt
  else mret tt.

Definition add_handle (h : Z) (make_findable : bool) : M ValueRecorder Z :=
  maybe_initialize ;;
  len ← on_handles (a ← mget; mret (GA.ga_length a));
  let index := len + first_index in
  on_handles (GA.append h) ;;
  support_find h index make_findable ;;
  mret index.

(** The linear search, most recent to oldest; [-1] when there is none. *)
Fixpoint linear_search (n : nat) (h : Z) (hs nf : GrowableArray Z) : option Z :=
  match n with
  | O => Some (-1)
  | S n' =>
      x ← GA.at_ (Z.of_nat n') hs;
      if x =? h then
        let findex := Z.of_nat n' + first_index in
        if GA.contains findex nf then linear_search n' h hs nf else Some findex
      else linear_search n' h hs nf
  end.

(** The slow path; what it finds is entered in the cache, if there is one. *)
Definition search_and_cache (h : Z) : M ValueRecorder Z :=
  v ← mget;
  hs ← mlift (handles v);
  nf ← mlift (no_finds v);
  findex ← mlift (linear_search (Z.to_nat (GA.ga_length hs)) h hs nf);
  (if findex =? -1 then mret tt
   else match indexes v with
        | Some cache => c ← mlift (set_cache_location_index h findex cache); set_indexes c
        | None => mret tt
        end) ;;
  mret findex.

Definition maybe_find_index (h : Z) : M ValueRecorder Z :=
  maybe_initialize ;;
  if h =? 0 then mret null_index
  else
    v ← mget;
    match indexes v with
    | Some cache =>
        cval ← mlift (zget cache (cache_index h));
        let cindex := cache_location_index cval in
        if cindex =? 0 then mret (-1)
        else
          hs ← mlift (handles v);
          hit ← (if first_index <=? cindex
                 then x ← mlift (GA.at_ (cindex - first_index) hs); mret (x =? h)
                 else mret false);
          if (hit : bool) then mret cindex
          else if negb (cache_location_collision cval) then mret (-1)
          else search_and_cache h
    | None => search_and_cache h
    end.

Definition allocate_index (h : Z) : M ValueRecorder Z := add_handle h false.

Definition find_index (h : Z) : M ValueRecorder Z :=
  index ← maybe_find_index h;
  if index <? 0 then add_handle h true else mret index.

(** [sizeof(T)] is the size of a pointer. *)
Definition size : M ValueRecorder Z := λ v,
  let v' := mkVR (handles v) (no_finds v) (indexes v) (arena v) true in
  match handles v with
  | None => Some (0, v')
  | Some hs => Some (GA.ga_length hs * 8, v')
  end.

Definition at_ (index : Z) (v : ValueRecorder) : option Z :=
  if index =? null_index then Some 0
  else hs ← handles v; GA.at_ (index - first_index) hs.

Definition count (v : ValueRecorder) : Z :=
  match handles v with None => 0 | Some hs => GA.ga_length hs + first_index end.

Definition is_unused (v : ValueRecorder) : bool :=
  match handles v with None => negb (complete v) | Some _ => false end.
End recorder.

(** ** Abstract recorder

    The table as a list of handles, each with a flag that tells whether
    [find_index] made it; lookup is a plain search. *)

Definition table : Type := list (Z * bool).

Definition table_find (h : Z) (t : table) : Z * table :=
  if decide (h = 0) then (0, t)
  else match list_find (λ e, e = (h, true)) t with
       | Some (i, _) => (Z.of_nat i + 1, t)
       | None => (zlen t + 1, t ++ [(h, true)])
       end.
Definition table_allocate (h : Z) (t : table) : Z * table := (zlen t + 1, t ++ [(h, false)]).

Inductive recorder_op := OpAllocate (h : Z) | OpFind (h : Z).

Definition op_handle (o : recorder_op) : Z :=
  match o with OpAllocate h => h | OpFind h => h end.

Fixpoint table_run (ops : list recorder_op) (t : table) : list Z * table :=
  match ops with
  | [] => ([], t)
  | o :: ops' =>
      let '(r, t') := match o with
                      | OpAllocate h => table_allocate h t
                      | OpFind h => table_find h t
                      end in
      let '(rs, t'') := table_run ops' t' in
      (r :: rs, t'')
  end.

Definition recorder_run (non_oop_word : Z) (ops : list recorder_op)
  : M ValueRecorder (list Z) :=
  mmap (λ o, match o with
             | OpAllocate h => allocate_index non_oop_word h
             | OpFind h => find_index non_oop_word h
             end) ops.

(** ** Invariant *)

Section invariant.
Context (non_oop_word : Z).
Abbreviation is_real := (is_real non_oop_word).

(** The indexes are far from overflowing the 31 bits a cache cell has for them. *)
Definition index_limit : Z := 2 ^ 30.

(** Every non-zero cell holds the index of an entry which is findable or not
    real; every findable entry among those loaded (indexes in [P]) has a
    cell that holds its index or is marked as a collision. *)
Definition cache_ok (t : table) (P : Z → Prop) (c : list Z) : Prop :=
  zlen c = cache_size ∧
  (∀ ci v, zget c ci = Some v →
     v = 0 ∨ ∃ idx b h f, v = 2 * idx + Z.b2z b ∧ zget t (idx - 1) = Some (h, f) ∧
                           (is_real h = true → f = true)) ∧
  (∀ i h, zget t i = Some (h, true) → P i →
     ∃ v, zget c (cache_index h) = Some v ∧ v ≠ 0 ∧ (v / 2 = i + 1 ∨ v mod 2 = 1)).

Definition no_finds_ok (t : table) (nf : GrowableArray Z) : Prop :=
  GA.ga_ok nf ∧
  ∀ idx, idx ∈ GA.elems nf ↔ ∃ h, zget t (idx - 1) = Some (h, false) ∧ is_real h = true.

Definition table_ok (t : table) : Prop :=
  (∀ i h, zget t i = Some (h, true) → is_real h = true) ∧
  (∀ i j h, zget t i = Some (h, true) → zget t j = Some (h, true) → i = j).

(** The recorder [v] implements the table [t]. *)
Definition represents (v : ValueRecorder) (t : table) : Prop :=
  table_ok t ∧
  match handles v with
  | None => t = [] ∧ indexes v = None
  | Some hs =>
      GA.ga_ok hs ∧ GA.elems hs = t.*1 ∧
      (∃ nf, no_finds v = Some nf ∧ no_finds_ok t nf) ∧
      ∀ c, indexes v = Some c → cache_ok t (λ _, True) c
  end.

(** *** The cache *)

Lemma cache_index_range h : 0 ≤ cache_index h < cache_size.
Proof.
  unfold cache_index. change (cache_size - 1) with (Z.ones 9). rewrite Z.land_ones by done.
  by apply Z.mod_pos_bound.
Qed.

Lemma cache_location_value_spec v0 idx :
  0 ≤ idx < index_limit →
  cache_location_value v0 idx = 2 * idx + Z.b2z (negb (v0 =? 0) && negb (2 * idx =? v0)).
Proof.
  intros Hi. unfold cache_location_value, index_shift, collision_bit, index_limit in *.
  rewrite Z.shiftl_mul_pow2 by done.
  assert (s32 (idx * 2 ^ 1) = 2 * idx) as -> by machine.
  destruct (_ && _); simpl Z.b2z; machine.
Qed.

Lemma zset_lookup {A} (l : list A) i x l' j :
  zset l i x = Some l' → zget l' j = if decide (i = j) then Some x else zget l j.
Proof.
  intros [Hi ->]%zset_Some. unfold zget, zlen in *. case_decide; case_decide; try lia; try done.
  - subst. rewrite list_lookup_insert_eq by lia. done.
  - rewrite list_lookup_insert_ne by lia. done.
Qed.

Lemma cache_set_ok t P c h f idx :
  cache_ok t P c → zget t (idx - 1) = Some (h, f) → (is_real h = true → f = true) →
  0 ≤ idx < index_limit →
  (∀ i h', zget t i = Some (h', true) → P i → h' = h → i + 1 = idx) →
  ∃ c', set_cache_location_index h idx c = Some c' ∧ cache_ok t (λ i, P i ∨ i + 1 = idx) c'.
Proof.
  intros (Hl & Hc & Hf) Ht Hr Hidx Hu. unfold set_cache_location_index.
  pose proof (cache_index_range h) as Hci.
  destruct (zget_is_Some c (cache_index h)) as [v0 Hv0]; [by rewrite Hl|].
  rewrite Hv0. simpl. rewrite cache_location_value_spec by done.
  set (v := 2 * idx + _).
  destruct (zset c (cache_index h) v) as [c'|] eqn:Hs;
    [|unfold zset, zlen in *; rewrite decide_True in Hs by lia; done].
  exists c'. split; [done|]. split; [by rewrite (zset_zlen _ _ _ _ Hs)|].
  pose proof (zget_Some _ _ _ Ht) as Hge. split.
  - intros ci w. rewrite (zset_lookup _ _ _ _ _ Hs). case_decide; [|apply Hc].
    intros [= <-]. right. by exists idx, (negb (v0 =? 0) && negb (2 * idx =? v0)), h, f.
  - intros i h' Hi HP. rewrite (zset_lookup _ _ _ _ _ Hs).
    destruct HP as [HP| <-]; [|].
    + destruct (Hf i h' Hi HP) as (w & Hw & Hw0 & Hor). case_decide as Heq; [|eauto].
      rewrite <- Heq, Hv0 in Hw. simplify_eq. exists v. split; [done|]. subst v.
      destruct (Z.eqb_spec w 0); [done|]. simpl.
      destruct (Z.eqb_spec (2 * idx) w) as [E|]; simpl Z.b2z; (split; [lia|]).
      * left. destruct Hor; Z.div_mod_to_equations; lia.
      * right. Z.div_mod_to_equations; lia.
    + replace (i + 1 - 1) with i in Ht by lia. rewrite Hi in Ht. simplify_eq.
      rewrite decide_True by done. exists v. split; [done|]. subst v.
      destruct (_ && _); simpl Z.b2z; (split; [lia|left; Z.div_mod_to_equations; lia]).
Qed.

Lemma cache_ok_weaken t P Q c :
  (∀ i h, zget t i = Some (h, true) → Q i → P i) → cache_ok t P c → cache_ok t Q c.
Proof. intros Hq (H1 & H2 & H3). split_and!; [done..|]. eauto. Qed.

(** A longer table leaves what the cache says of the old entries. *)
Lemma cache_ok_app t e c : cache_ok t (λ _, True) c → cache_ok (t ++ [e]) (λ i, i < zlen t) c.
Proof.
  intros (H1 & H2 & H3). split_and!; [done| |].
  - intros ci v Hv. destruct (H2 ci v Hv) as [->|(idx & b & h & f & -> & Ht & Hr)]; [by left|right].
    exists idx, b, h, f. split; [done|]. split; [|done].
    rewrite zget_app_l; [done|]. apply zget_Some in Ht. lia.
  - intros i h Hi Hlt. rewrite zget_app_l in Hi by done. by apply H3.
Qed.

(** *** The table *)

Lemma zget_fst (t : list (Z * bool)) i : zget t.*1 i = fst <$> zget t i.
Proof. unfold zget. case_decide; [|done]. apply list_lookup_fmap. Qed.

Lemma zget_snoc {A} (l : list A) x i y :
  zget (l ++ [x]) i = Some y → (i < zlen l ∧ zget l i = Some y) ∨ (i = zlen l ∧ y = x).
Proof.
  intros Hg. pose proof (zget_Some _ _ _ Hg) as Hr. rewrite zlen_app in Hr. change (zlen [x]) with 1 in Hr.
  destruct (decide (i < zlen l)); [left; by rewrite zget_app_l in Hg|right].
  assert (i = zlen l) as -> by lia. rewrite zget_app_r, Z.sub_diag in Hg by lia.
  unfold zget in Hg. simpl in Hg. by simplify_eq.
Qed.

Lemma zget_last {A} (l : list A) x : zget (l ++ [x]) (zlen l) = Some x.
Proof. by rewrite zget_app_r, Z.sub_diag by lia. Qed.

Lemma table_ok_snoc t h f :
  table_ok t → (f = true → is_real h = true ∧ ∀ i, zget t i ≠ Some (h, true)) →
  table_ok (t ++ [(h, f)]).
Proof.
  intros [Hr Hu] Hf. split.
  - intros i h' [[_ Hi]|[_ [= -> <-]]]%zget_snoc; [by eapply Hr|]. by apply Hf.
  - intros i j h' [[_ Hi]|[-> [= -> <-]]]%zget_snoc [[_ Hj]|[-> Hx]]%zget_snoc; simplify_eq.
    + by eapply Hu.
    + by destruct (proj2 (Hf eq_refl) i).
    + by destruct (proj2 (Hf eq_refl) j).
    + done.
Qed.

Lemma no_finds_lookup t nf idx h f :
  no_finds_ok t nf → zget t (idx - 1) = Some (h, f) → is_real h = true →
  GA.contains idx nf = negb f.
Proof.
  intros [Hok Hnf] Ht Hr. destruct (GA.contains idx nf) eqn:Hc.
  - apply GA.contains_spec in Hc; [|done]. apply Hnf in Hc as (h' & Ht' & _). by simplify_eq.
  - destruct f; [done|]. assert (idx ∈ GA.elems nf) as Hin by (apply Hnf; eauto).
    apply GA.contains_spec in Hin; [congruence|done].
Qed.

Lemma on_handles_run {A} (m : M (GrowableArray Z) A) v a r a' :
  handles v = Some a → m a = Some (r, a') →
  on_handles m v = Some (r, mkVR (Some a') (no_finds v) (indexes v) (arena v) (complete v)).
Proof. intros Hh Hm. unfold on_handles. rewrite Hh. simpl. by rewrite Hm. Qed.

(** *** The recorder once initialised *)

Record live (v : ValueRecorder) (t : table) (hs nf : GrowableArray Z) : Prop := {
  live_table : table_ok t;
  live_handles : handles v = Some hs;
  live_handles_ok : GA.ga_ok hs;
  live_elems : GA.elems hs = t.*1;
  live_no_finds : no_finds v = Some nf;
  live_no_finds_ok : no_finds_ok t nf;
  live_cache c : indexes v = Some c → cache_ok t (λ _, True) c
}.

Lemma live_represents v t hs nf : live v t hs nf → represents v t.
Proof. intros []. unfold represents. rewrite live_handles0. eauto 10. Qed.

Lemma live_len v t hs nf : live v t hs nf → ga_len hs = zlen t.
Proof.
  intros []. rewrite <- GA.elems_length, live_elems0 by done.
  unfold zlen. by rewrite length_fmap.
Qed.

Lemma live_at v t hs nf i :
  live v t hs nf → 0 ≤ i < zlen t → GA.at_ i hs = fst <$> zget t i.
Proof.
  intros Hl Hi. pose proof (live_len _ _ _ _ Hl) as Hlen. destruct Hl.
  unfold GA.at_. by rewrite GA.elems_lookup, live_elems0, zget_fst by (done || lia).
Qed.

Lemma maybe_initialize_spec v t :
  represents v t → ∃ v' hs nf, maybe_initialize v = Some (tt, v') ∧ live v' t hs nf.
Proof.
  intros [Ht Hv]. unfold maybe_initialize. destruct (handles v) as [hs|] eqn:Hh.
  - destruct Hv as (H1 & H2 & (nf & H3 & H4) & H5). exists v, hs, nf. split; [done|]. by split.
  - destruct Hv as [-> Hc]. eexists _, _, _. split; [done|]. split; try done.
    + split; [done|]. intros idx. split; [intros []%elem_of_nil|].
      intros (h & Hz & _). apply zget_Some in Hz. unfold zlen in Hz. simpl in Hz. lia.
    + simpl. rewrite Hc. done.
Qed.

Lemma load_cache_spec v t hs nf n i c :
  live v t hs nf → zlen t < index_limit → 0 ≤ i → i + Z.of_nat n = zlen t →
  cache_ok t (λ k, k < i) c →
  ∃ c', load_cache n i hs nf c = Some c' ∧ cache_ok t (λ _, True) c'.
Proof.
  intros Hl Hlim. revert i c. induction n as [|n IH]; intros i c Hi Hn Hc; cbn [load_cache].
  { exists c. split; [done|]. eapply cache_ok_weaken; [|done].
    intros k h Hk _. cbv beta. apply zget_Some in Hk. lia. }
  destruct (zget_is_Some t i) as [[h f] Ht]; [lia|].
  assert (zget t (i + first_index - 1) = Some (h, f)) as Ht'.
  { by replace (i + first_index - 1) with i by (unfold first_index; lia). }
  destruct (GA.contains (i + first_index) nf) eqn:Hco.
  - apply IH; [lia..|]. eapply cache_ok_weaken; [|done]. intros k h' Hk Hlt.
    destruct (decide (k = i)) as [->|]; [exfalso|lia].
    rewrite Ht in Hk. injection Hk as -> ->.
    pose proof (proj1 (live_table _ _ _ _ Hl) _ _ Ht) as Hr.
    by rewrite (no_finds_lookup t nf _ _ _ (live_no_finds_ok _ _ _ _ Hl) Ht' Hr) in Hco.
  - rewrite (live_at _ _ _ _ _ Hl), Ht by lia. simpl.
    assert (is_real h = true → f = true) as Hf.
    { intros Hr. rewrite (no_finds_lookup t nf _ _ _ (live_no_finds_ok _ _ _ _ Hl) Ht' Hr) in Hco.
      by destruct f. }
    destruct (cache_set_ok t (λ k, k < i) c h f (i + first_index)) as (c' & Hs & Hc');
      [done|done|done|unfold first_index; lia| |].
    { intros k h' Hk Hlt ->. destruct (live_table _ _ _ _ Hl) as [Hreal Huniq].
      rewrite Hf in Ht by (by eapply Hreal). pose proof (Huniq _ _ _ Hk Ht). lia. }
    rewrite Hs. simpl. apply IH; [lia..|]. eapply cache_ok_weaken; [|done].
    intros k h' _ Hlt. simpl. unfold first_index. lia.
Qed.

Lemma new_cache_ok t : cache_ok t (λ k, k < 0) new_cache.
Proof.
  split; [done|]. split.
  - intros ci v Hv. left. unfold zget, new_cache in Hv. case_decide; [|done].
    by apply lookup_replicate in Hv as [-> _].
  - intros i h Hi. apply zget_Some in Hi. lia.
Qed.

(** *** Adding an entry *)

Lemma no_finds_ok_skip t nf h f :
  no_finds_ok t nf → (is_real h = true → f = true) → no_finds_ok (t ++ [(h, f)]) nf.
Proof.
  intros [Hok Hnf] Hf. split; [done|]. intros idx. rewrite Hnf. split.
  - intros (h' & Hz & Hr). exists h'. split; [|done]. rewrite zget_app_l; [done|].
    apply zget_Some in Hz. lia.
  - intros (h' & [[_ Hz]|[_ [= -> <-]]]%zget_snoc & Hr); [eauto|]. by specialize (Hf Hr).
Qed.

Lemma no_finds_ok_append t nf nf' h :
  no_finds_ok t nf → is_real h = true → GA.ga_ok nf' →
  GA.elems nf' = GA.elems nf ++ [zlen t + 1] → no_finds_ok (t ++ [(h, false)]) nf'.
Proof.
  intros [Hok Hnf] Hr Hok' He. split; [done|]. intros idx.
  rewrite He, elem_of_app, list_elem_of_singleton, Hnf. split.
  - intros [(h' & Hz & Hr')| ->].
    + exists h'. split; [|done]. rewrite zget_app_l; [done|]. apply zget_Some in Hz. lia.
    + exists h. rewrite Z.add_simpl_r. by rewrite zget_last.
  - intros (h' & [[_ Hz]|[Hi _]]%zget_snoc & Hr'); [eauto|right; lia].
Qed.

Lemma cache_ok_app_false t h c :
  cache_ok t (λ _, True) c → cache_ok (t ++ [(h, false)]) (λ _, True) c.
Proof.
  intros Hc. apply (cache_ok_app _ (h, false)) in Hc. eapply cache_ok_weaken; [|done].
  by intros i h' [[? _]|[-> ?]]%zget_snoc _.
Qed.

(** The state after [_handles->append(h)], with the other fields still those of [t]. *)
Record appended (v : ValueRecorder) (t : table) (h : Z) (f : bool) (hs nf : GrowableArray Z) : Prop := {
  app_table : table_ok (t ++ [(h, f)]);
  app_handles : handles v = Some hs;
  app_handles_ok : GA.ga_ok hs;
  app_elems : GA.elems hs = (t ++ [(h, f)]).*1;
  app_no_finds : no_finds v = Some nf;
  app_no_finds_ok : no_finds_ok t nf;
  app_cache c : indexes v = Some c → cache_ok t (λ _, True) c
}.

Lemma support_find_true v t h hs nf :
  appended v t h true hs nf → zlen t + 1 < index_limit →
  is_real h = true → (∀ i, zget t i ≠ Some (h, true)) →
  ∃ v', support_find non_oop_word h (zlen t + 1) true v = Some (tt, v') ∧
        represents v' (t ++ [(h, true)]).
Proof.
  intros [Ht Hh Hok He Hn Hnf Hcache] Hlim Hr Hfresh.
  pose proof (no_finds_ok_skip t nf h true Hnf (λ _, eq_refl)) as Hnf'.
  unfold support_find, mget, mlift, mbind, M_bind.
  assert (∀ o, (∀ c, o = Some c → cache_ok (t ++ [(h, true)]) (λ _, True) c) →
    live (mkVR (handles v) (no_finds v) o (arena v) (complete v)) (t ++ [(h, true)]) hs nf) as Hfin
    by (intros; by split).
  destruct (indexes v) as [c|] eqn:Hc.
  - specialize (Hcache c eq_refl). apply (cache_ok_app _ (h, true)) in Hcache.
    destruct (cache_set_ok _ _ _ h true (zlen t + 1) Hcache) as (c' & -> & Hc');
      [by rewrite Z.add_simpl_r, zget_last|done|unfold zlen in *; lia| |].
    { intros i h' Hi Hlt ->. rewrite zget_app_l in Hi by done. by destruct (Hfresh i). }
    eexists. split; [done|]. eapply live_represents, Hfin. intros ? [= <-].
    eapply cache_ok_weaken; [|done]. intros i h' [[? _]|[-> _]]%zget_snoc _; [by left|by right].
  - destruct (_ && _).
    + assert (live v (t ++ [(h, true)]) hs nf) as Hl by (split; try done; congruence).
      rewrite Hh, Hn. cbn [fmap option_fmap option_map]. pose proof (live_len _ _ _ _ Hl) as Hlen.
      pose proof (zlen_app t [(h, true)]) as Hza. change (zlen [(h, true)]) with 1 in Hza.
      destruct (load_cache_spec _ _ _ _ (Z.to_nat (GA.ga_length hs)) 0 new_cache Hl) as (c & -> & Hc');
        [lia|done|unfold GA.ga_length, zlen in *; lia|apply new_cache_ok|].
      eexists. split; [done|]. eapply live_represents, Hfin. by intros ? [= <-].
    + eexists. split; [done|]. eapply (live_represents _ _ hs nf). split; try done. congruence.
Qed.

Lemma support_find_false v t h hs nf :
  appended v t h false hs nf →
  ∃ v', support_find non_oop_word h (zlen t + 1) false v = Some (tt, v') ∧
        represents v' (t ++ [(h, false)]).
Proof.
  intros [Ht Hh Hok He Hn Hnf Hcache]. unfold support_find, mget, mbind, M_bind.
  destruct (is_real h) eqn:Hr.
  - unfold on_no_finds. rewrite Hn. cbn [mbind option_bind].
    destruct (GA.append_run nf (zlen t + 1) (proj1 Hnf) (ideal_roomy _)) as (nf' & -> & Hnfok & Hnfe).
    cbn [mbind option_bind]. eexists. split; [done|].
    eapply (live_represents _ _ hs nf'). split; try done.
    + by eapply no_finds_ok_append.
    + intros c Hc. by apply cache_ok_app_false, Hcache.
  - eexists. split; [done|]. eapply (live_represents _ _ hs nf). split; try done.
    + apply no_finds_ok_skip; [done|congruence].
    + intros c Hc. by apply cache_ok_app_false, Hcache.
Qed.

Lemma add_handle_spec v t h f :
  represents v t → zlen t + 1 < index_limit →
  (f = true → is_real h = true ∧ ∀ i, zget t i ≠ Some (h, true)) →
  ∃ v', add_handle non_oop_word h f v = Some (zlen t + 1, v') ∧ represents v' (t ++ [(h, f)]).
Proof.
  intros Hv Hlim Hf. destruct (maybe_initialize_spec v t Hv) as (v1 & hs & nf & Hi & Hl).
  pose proof (live_len _ _ _ _ Hl) as Hlen. destruct Hl as [Ht Hh Hok He Hn Hnf Hc].
  pose proof (table_ok_snoc t h f Ht Hf) as Ht'.
  destruct (GA.append_run hs h Hok (ideal_roomy _)) as (hs' & Ha & Hok' & He').
  assert (appended (mkVR (Some hs') (no_finds v1) (indexes v1) (arena v1) (complete v1)) t h f hs' nf) as Happ.
  { split; try done. by rewrite He', He, fmap_app. }
  unfold add_handle. rewrite (M_bind_Some _ _ _ _ _ Hi).
  erewrite M_bind_Some by (eapply (on_handles_run _ _ hs (ga_len hs) hs); done). cbv zeta.
  erewrite M_bind_Some by (eapply (on_handles_run _ _ hs); done).
  cbn [no_finds indexes arena complete]. rewrite Hlen. unfold first_index, mbind, M_bind.
  destruct f.
  - destruct (Hf eq_refl). destruct (support_find_true _ _ _ _ _ Happ) as (v' & -> & ?); eauto.
  - destruct (support_find_false _ _ _ _ _ Happ) as (v' & -> & ?); eauto.
Qed.

(** *** Looking up *)

(** [r] answers the lookup of [h] in [t]: the index of its findable entry. *)
Definition answers (t : table) (h r : Z) : Prop :=
  (r = -1 ∧ ∀ i, zget t i ≠ Some (h, true)) ∨ (1 ≤ r ∧ zget t (r - 1) = Some (h, true)).

Lemma linear_search_spec v t hs nf h n :
  live v t hs nf → is_real h = true → Z.of_nat n ≤ zlen t →
  (∀ i, Z.of_nat n ≤ i → zget t i ≠ Some (h, true)) →
  ∃ r, linear_search n h hs nf = Some r ∧ answers t h r.
Proof.
  intros Hl Hr. induction n as [|n IH]; intros Hn Hrest; cbn [linear_search]; unfold first_index.
  { exists (-1). split; [done|]. left. split; [done|]. intros i Hi.
    apply (Hrest i); [|done]. apply zget_Some in Hi. lia. }
  destruct (zget_is_Some t (Z.of_nat n)) as [[x f] Hx]; [lia|].
  rewrite (live_at _ _ _ _ _ Hl), Hx by lia. cbn.
  assert (x ≠ h ∨ f = false → ∃ r, linear_search n h hs nf = Some r ∧ answers t h r) as Hskip.
  { intros Hor. apply IH; [lia|]. intros i Hi Hz.
    destruct (decide (i = Z.of_nat n)) as [->|]; [destruct Hor; congruence|].
    apply (Hrest i); [lia|done]. }
  destruct (Z.eqb_spec x h) as [->|]; [|by auto].
  rewrite (no_finds_lookup t nf _ h f (live_no_finds_ok _ _ _ _ Hl)); [|by rewrite Z.add_simpl_r|done].
  destruct f; simpl; [|by auto]. eexists. split; [done|]. right. split; [lia|].
  by rewrite Z.add_simpl_r.
Qed.

Lemma search_and_cache_spec v t hs nf h :
  live v t hs nf → is_real h = true → zlen t < index_limit →
  ∃ r v', search_and_cache h v = Some (r, v') ∧ represents v' t ∧ answers t h r.
Proof.
  intros Hl Hr Hlim. unfold search_and_cache, mget, mlift, mbind, M_bind.
  pose proof (live_len _ _ _ _ Hl) as Hlen.
  rewrite (live_handles _ _ _ _ Hl), (live_no_finds _ _ _ _ Hl). cbn [fmap option_fmap option_map].
  destruct (linear_search_spec v t hs nf h (Z.to_nat (GA.ga_length hs)) Hl Hr) as (r & -> & Ha).
  { unfold GA.ga_length, zlen in *. lia. }
  { intros i Hi Hz%zget_Some. unfold GA.ga_length, zlen in *. lia. }
  cbn [fmap option_fmap option_map]. exists r.
  assert (represents v t) as Hrep by by eapply live_represents.
  destruct (Z.eqb_spec r (-1)); [by exists v|].
  destruct Ha as [[? _]|[H1 Hz]]; [done|].
  destruct (indexes v) as [c|] eqn:Hc; [|exists v; split; [done|]; split; [done|by right]].
  destruct (cache_set_ok _ _ _ h true r (live_cache _ _ _ _ Hl c Hc) Hz) as (c' & -> & Hc'); [done| | |].
  { apply zget_Some in Hz. lia. }
  { intros i h' Hi _ ->. pose proof (proj2 (live_table _ _ _ _ Hl) _ _ _ Hi Hz). lia. }
  eexists. split; [done|]. split; [|by right]. eapply (live_represents _ _ hs nf).
  destruct Hl. split; try done. intros ? [= <-].
  eapply cache_ok_weaken; [|done]. by left.
Qed.

Lemma cache_hit_spec v t hs nf c h cval :
  live v t hs nf → is_real h = true → indexes v = Some c →
  zget c (cache_index h) = Some cval →
  let cindex := cache_location_index cval in
  (cindex = 0 ∧ answers t h (-1)) ∨
  (1 ≤ cindex ∧ ∃ x, GA.at_ (cindex - first_index) hs = Some x ∧
     (x = h → answers t h cindex) ∧
     (x ≠ h → cache_location_collision cval = false → answers t h (-1))).
Proof.
  intros Hl Hr Hc Hcv. destruct (live_cache _ _ _ _ Hl c Hc) as (_ & Hcell & Hfind).
  unfold cache_location_index, index_shift. rewrite Z.shiftr_div_pow2 by done.
  change (2 ^ 1) with 2. cbv zeta.
  destruct (Hcell _ _ Hcv) as [->|(idx & b & x & f & -> & Hz & Hf)].
  { left. split; [done|]. left. split; [done|]. intros i Hi.
    destruct (Hfind i h Hi I) as (w & Hw & Hw0 & _). congruence. }
  right. assert ((2 * idx + Z.b2z b) / 2 = idx) as Hdiv by (destruct b; simpl Z.b2z; Z.div_mod_to_equations; lia).
  rewrite Hdiv. pose proof (zget_Some _ _ _ Hz) as Hrange. split; [lia|].
  exists x. split; [rewrite (live_at _ _ _ _ _ Hl) by done; unfold first_index; by rewrite Hz|]. split.
  - intros ->. right. rewrite (Hf Hr) in Hz. split; [lia|done].
  - intros Hne Hcol. left. split; [done|]. intros i Hi.
    destruct (Hfind i h Hi I) as (w & Hw & Hw0 & Hor). rewrite Hcv in Hw. injection Hw as <-.
    destruct Hor as [Hd|Hm].
    + rewrite Hdiv in Hd. subst idx. rewrite Z.add_simpl_r in Hz. congruence.
    + unfold cache_location_collision, collision_bit in Hcol.
      change 1 with (Z.ones 1) in Hcol. rewrite Z.land_ones in Hcol by done.
      change (2 ^ 1) with 2 in Hcol. by rewrite Hm in Hcol.
Qed.

Lemma maybe_find_index_spec v t h :
  represents v t → is_real h = true → zlen t < index_limit →
  ∃ r v', maybe_find_index h v = Some (r, v') ∧ represents v' t ∧ answers t h r.
Proof.
  intros Hv Hr Hlim. destruct (maybe_initialize_spec v t Hv) as (v1 & hs & nf & Hi & Hl).
  assert (h ≠ 0) as H0 by (intros ->; done).
  unfold maybe_find_index. rewrite (M_bind_Some _ _ _ _ _ Hi).
  rewrite (proj2 (Z.eqb_neq h 0) H0).
  rewrite (M_bind_Some mget _ v1 v1 v1 eq_refl).
  destruct (indexes v1) as [c|] eqn:Hc; [|by eapply search_and_cache_spec].
  destruct (zget_is_Some c (cache_index h)) as [cval Hcv].
  { rewrite (proj1 (live_cache _ _ _ _ Hl c Hc)). apply cache_index_range. }
  rewrite (M_bind_Some _ _ v1 cval v1) by (unfold mlift; by rewrite Hcv). cbv zeta.
  assert (represents v1 t) as Hrep by by eapply live_represents.
  destruct (cache_hit_spec _ _ _ _ _ _ _ Hl Hr Hc Hcv) as [[-> Ha]|(H1 & x & Hx & Hhit & Hmiss)].
  { by exists (-1), v1. }
  rewrite (proj2 (Z.eqb_neq _ 0)) by lia.
  rewrite (M_bind_Some _ _ v1 hs v1) by (unfold mlift; by rewrite (live_handles _ _ _ _ Hl)).
  rewrite (M_bind_Some _ _ v1 (x =? h) v1).
  2: { rewrite (proj2 (Z.leb_le _ _)) by (unfold first_index; lia).
       unfold mlift, mbind, M_bind. by rewrite Hx. }
  destruct (Z.eqb_spec x h) as [->|Hne]; [by eauto 10|].
  destruct (cache_location_collision cval) eqn:Hcol; simpl; [by eapply search_and_cache_spec|].
  by eauto 10.
Qed.

Lemma answers_table_find t h r :
  table_ok t → h ≠ 0 → answers t h r →
  table_find h t = if r <? 0 then (zlen t + 1, t ++ [(h, true)]) else (r, t).
Proof.
  intros [_ Hu] H0 Ha. unfold table_find. rewrite decide_False by done.
  destruct (list_find _ t) as [[i e]|] eqn:Hf.
  - apply list_find_Some in Hf as (Hi & -> & _). rewrite <- zget_nat in Hi.
    destruct Ha as [[_ Hn]|[H1 Hz]]; [by destruct (Hn _ Hi)|].
    rewrite (proj2 (Z.ltb_ge _ _)) by lia. f_equal. pose proof (Hu _ _ _ Hi Hz). lia.
  - destruct Ha as [[-> Hn]|[H1 Hz]]; [done|]. exfalso.
    apply list_find_None in Hf. rewrite Forall_forall in Hf. apply (Hf (h, true)); [|done].
    unfold zget in Hz. case_decide; [|done]. by eapply list_elem_of_lookup_2.
Qed.

Lemma find_index_spec v t h :
  represents v t → h = 0 ∨ is_real h = true → zlen t + 1 < index_limit →
  ∃ v', find_index non_oop_word h v = Some ((table_find h t).1, v') ∧
        represents v' (table_find h t).2.
Proof.
  intros Hv Hh Hlim. destruct (decide (h = 0)) as [->|H0].
  - destruct (maybe_initialize_spec v t Hv) as (v1 & hs & nf & Hi & Hl).
    exists v1. split; [|by eapply live_represents].
    unfold find_index, maybe_find_index, mbind, M_bind. by rewrite Hi.
  - destruct Hh as [?|Hr]; [done|].
    destruct (maybe_find_index_spec v t h) as (r & v1 & Hm & Hv1 & Ha); [done..|lia|].
    rewrite (answers_table_find t h r) by (done || apply Hv).
    unfold find_index. rewrite (M_bind_Some _ _ _ _ _ Hm).
    destruct (Z.ltb_spec r 0).
    + apply add_handle_spec; [done..|]. intros _. split; [done|].
      destruct Ha as [[_ Hn]|[? _]]; [done|lia].
    + by exists v1.
Qed.

Lemma allocate_index_spec v t h :
  represents v t → zlen t + 1 < index_limit →
  ∃ v', allocate_index non_oop_word h v = Some ((table_allocate h t).1, v') ∧
        represents v' (table_allocate h t).2.
Proof. intros Hv Hlim. by apply add_handle_spec. Qed.

Lemma at_spec v t i :
  represents v t → 0 < i ≤ zlen t → at_ i v = fst <$> zget t (i - 1).
Proof.
  intros [_ Hv] Hi. unfold at_. rewrite (proj2 (Z.eqb_neq i null_index)) by (unfold null_index; lia).
  destruct (handles v) as [hs|]; [|destruct Hv as [-> _]; unfold zlen in *; simpl in *; lia].
  destruct Hv as (Hok & He & _). cbn. unfold GA.at_, first_index.
  rewrite GA.elems_lookup, He, zget_fst; [done|done|].
  rewrite <- GA.elems_length, He by done. unfold zlen in *. rewrite length_fmap. lia.
Qed.

Lemma new_recorder_represents ar : represents (new_recorder ar) [].
Proof.
  split; [|done]. split; intros i; [intros h Hz|intros j h Hz _];
    apply zget_Some in Hz; unfold zlen in Hz; simpl in Hz; lia.
Qed.

(** *** Sequences of operations *)

Definition op_ok (o : recorder_op) : Prop :=
  match o with OpAllocate _ => True | OpFind h => h = 0 ∨ is_real h = true end.
#[global] Instance op_ok_dec o : Decision (op_ok o).
Proof. destruct o; simpl; apply _. Defined.

Lemma table_find_length h t : zlen (table_find h t).2 ≤ zlen t + 1.
Proof.
  unfold table_find. case_decide; [simpl; lia|].
  destruct (list_find _ t) as [[]|]; simpl; [lia|]. by rewrite zlen_app.
Qed.

Lemma recorder_run_spec ops v t :
  represents v t → Forall op_ok ops → zlen t + zlen ops < index_limit →
  ∃ v', recorder_run non_oop_word ops v = Some ((table_run ops t).1, v') ∧
        represents v' (table_run ops t).2.
Proof.
  revert v t. induction ops as [|o ops IH]; intros v t Hv Hok Hlim; [by exists v|].
  apply Forall_cons in Hok as [Ho Hok].
  assert (zlen (o :: ops) = zlen ops + 1) as Hlen by (unfold zlen; simpl; lia).
  assert (0 ≤ zlen ops) by (unfold zlen; lia).
  unfold recorder_run. cbn [mmap table_run].
  assert (∀ m r t', (∃ v', m v = Some (r, v') ∧ represents v' t') → zlen t' ≤ zlen t + 1 →
    ∃ v', (x ← m; xs ← recorder_run non_oop_word ops; mret (x :: xs)) v
            = Some ((let '(rs, t'') := table_run ops t' in (r :: rs, t'')).1, v') ∧
          represents v' (let '(rs, t'') := table_run ops t' in (r :: rs, t'')).2) as Hstep.
  { intros m r t' (v1 & Hm & Hv1) Hl. destruct (IH v1 t' Hv1 Hok) as (v2 & Hr & Hv2); [lia|].
    exists v2. unfold mbind, M_bind. rewrite Hm, Hr. by destruct (table_run ops t'). }
  destruct o as [h|h].
  - apply Hstep; [apply allocate_index_spec; [done|lia]|]. simpl. by rewrite zlen_app.
  - destruct (table_find h t) as [r t'] eqn:Hf.
    pose proof (table_find_length h t) as Hl. rewrite Hf in Hl.
    apply Hstep; [|done]. destruct (find_index_spec v t h) as (v' & ? & ?); [done..|lia|].
    rewrite Hf in *. by exists v'.
Qed.

(** What the answer [r] to [o] says of the final table. *)
Definition recorded (t : table) (o : recorder_op) (r : Z) : Prop :=
  match o with
  | OpAllocate h => 1 ≤ r ∧ zget t (r - 1) = Some (h, false)
  | OpFind h => if decide (h = 0) then r = 0 else 1 ≤ r ∧ zget t (r - 1) = Some (h, true)
  end.

Definition is_allocate (o : recorder_op) : bool :=
  match o with OpAllocate _ => true | OpFind _ => false end.

Lemma recorded_mono t t' o r : t `prefix_of` t' → recorded t o r → recorded t' o r.
Proof.
  intros [k ->] Hr. destruct o; simpl in *; [|case_decide; [done|]];
    (destruct Hr as [? Hz]; split; [done|]; rewrite zget_app_l; [done|]; apply zget_Some in Hz; lia).
Qed.

Lemma table_step_recorded o t :
  let '(r, t') := match o with OpAllocate h => table_allocate h t | OpFind h => table_find h t end in
  recorded t' o r ∧ t `prefix_of` t' ∧ (is_allocate o = true → zlen t < r ∧ r = zlen t').
Proof.
  destruct o as [h|h]; simpl.
  - rewrite Z.add_simpl_r, zget_last, zlen_app. change (zlen [(h, false)]) with 1.
    split_and!; [unfold zlen; lia|done|by apply prefix_app_r|lia].
  - unfold table_find. case_decide; [done|].
    destruct (list_find _ t) as [[k e]|] eqn:Hf; [apply list_find_Some in Hf as (Hi & -> & _)|].
    + rewrite Z.add_simpl_r, zget_nat. split_and!; [lia|done..].
    + rewrite Z.add_simpl_r, zget_last. split_and!; [unfold zlen; lia|done|by apply prefix_app_r|done].
Qed.

Lemma table_run_recorded ops t :
  let '(rs, t') := table_run ops t in
  Forall2 (recorded t') ops rs ∧ t `prefix_of` t' ∧
  ∀ i o r, ops !! i = Some o → rs !! i = Some r → is_allocate o = true →
    zlen t < r ∧ (∀ j o' r', (i < j)%nat → ops !! j = Some o' → rs !! j = Some r' →
                    is_allocate o' = true → r < r' ∧ (j = S i → r' = r + 1)).
Proof.
  revert t. induction ops as [|o ops IH]; intros t; cbn [table_run]; [done|].
  pose proof (table_step_recorded o t) as Hs.
  destruct (match o with OpAllocate h => _ | OpFind h => _ end) as [r t1].
  destruct Hs as (Hr & Hp & Ha). specialize (IH t1). destruct (table_run ops t1) as [rs t2] eqn:Hrun.
  destruct IH as (Hrs & Hp2 & Hall). split_and!.
  - constructor; [by eapply recorded_mono|done].
  - by transitivity t1.
  - assert (zlen t ≤ zlen t1) as Hl1 by (apply prefix_length in Hp; unfold zlen; lia).
    intros [|i] o1 r1 Ho1 Hr1 Hal; simplify_eq/=; [|].
    + destruct (Ha Hal) as [Hlt ->]. split; [lia|]. intros [|j] o' r' Hj Ho' Hr' Hal'; [lia|].
      simplify_eq/=. destruct (Hall j o' r' Ho' Hr' Hal') as [Hgt _]. split; [lia|].
      intros [= ->]. destruct ops as [|o2 ops]; simplify_eq/=. cbn [table_run] in Hrun.
      pose proof (table_step_recorded o' t1) as Hs2. destruct o'; [|done]. simpl in Hrun.
      destruct (table_run ops _). by simplify_eq/=.
    + destruct (Hall i o1 r1 Ho1 Hr1 Hal) as [Hgt Hnext]. split; [lia|].
      intros [|j] o' r' Hj Ho' Hr' Hal'; [lia|]. simplify_eq/=.
      destruct (Hnext j o' r') as [? Hc]; [lia|done..|]. split; [done|]. intros [= ->]. by apply Hc.
Qed.
End invariant.

(** ** Results *)

(** Started empty, with or without an index cache, the recorder answers every
    sequence of [allocate_index] and [find_index] calls (on NULL or real
    handles) exactly as a plain table search would, and [at] then returns the
    table's handle for every index. *)
Theorem recorder_refines_table (non_oop_word : Z) (ar : bool) (ops : list recorder_op) :
  Forall (op_ok non_oop_word) ops → zlen ops < 2 ^ 30 →
  ∃ v', recorder_run non_oop_word ops (new_recorder ar) = Some ((table_run ops []).1, v') ∧
        ∀ i, 0 < i ≤ zlen (table_run ops []).2 →
          at_ i v' = fst <$> zget (table_run ops []).2 (i - 1).
Proof.
  intros Hok Hlim.
  destruct (recorder_run_spec non_oop_word ops _ [] (new_recorder_represents _ ar) Hok) as (v' & Hr & Hv');
    [by rewrite Z.add_0_l|].
  exists v'. split; [done|]. intros i Hi. by eapply at_spec.
Qed.

(** Enough handles to build the cache and to make it collide. *)
Definition sample_ops : list recorder_op :=
  (OpFind <$> seqZ 512 25) ++ (OpAllocate <$> [512; 0]) ++ (OpFind <$> [512; 1024; 512; 0; 1024]).

Lemma recorder_refines_table_witness :
  ∃ v', recorder_run 1 sample_ops (new_recorder true)
        = Some (seqZ 1 27 ++ [1; 28; 1; 0; 28], v') ∧ at_ 28 v' = Some 1024.
Proof.
  destruct (recorder_refines_table 1 true sample_ops) as (v' & Hr & Ha).
  - apply (bool_decide_unpack _). vm_compute. exact I.
  - apply Z.ltb_lt. vm_compute. reflexivity.
  - exists v'. split.
    + rewrite Hr. vm_compute. reflexivity.
    + rewrite Ha; [vm_compute; reflexivity|].
      split; [done|]. apply Z.leb_le. vm_compute. reflexivity.
Defined.

(** C23: The contract the header file states.  After any sequence of calls each
    answer is an index at which the table has the handle of that call; two
    [find_index] answers are equal exactly if their handles are; an index
    answered by [allocate_index] is never answered by any other call; and two
    successive calls of [allocate_index] answer successive indexes. *)
Theorem recorder_contract (non_oop_word : Z) (ar : bool) (ops : list recorder_op) :
  Forall (op_ok non_oop_word) ops → zlen ops < 2 ^ 30 →
  ∃ rs v', recorder_run non_oop_word ops (new_recorder ar) = Some (rs, v') ∧
    length rs = length ops ∧
    (∀ i o r, ops !! i = Some o → rs !! i = Some r → at_ r v' = Some (op_handle o)) ∧
    (∀ i j h h' r r', ops !! i = Some (OpFind h) → ops !! j = Some (OpFind h') →
       rs !! i = Some r → rs !! j = Some r' → (r = r' ↔ h = h')) ∧
    (∀ i j h o r r', i ≠ j → ops !! i = Some (OpAllocate h) → ops !! j = Some o →
       rs !! i = Some r → rs !! j = Some r' → r ≠ r') ∧
    (∀ i h h' r r', ops !! i = Some (OpAllocate h) → ops !! S i = Some (OpAllocate h') →
       rs !! i = Some r → rs !! S i = Some r' → r' = r + 1).
Proof.
  intros Hok Hlim.
  destruct (recorder_run_spec non_oop_word ops _ [] (new_recorder_represents _ ar) Hok) as (v' & Hr & Hv');
    [by rewrite Z.add_0_l|].
  pose proof (table_run_recorded ops []) as Hrec. destruct (table_run ops []) as [rs t].
  destruct Hrec as (Hrec & _ & Hal). exists rs, v'. split; [done|].
  destruct (proj1 Hv') as [_ Huniq]. cbn [fst snd] in *.
  assert (∀ i o r, ops !! i = Some o → rs !! i = Some r → recorded t o r) as Hrec'
    by (intros; by eapply Forall2_lookup_lr).
  split_and!.
  - symmetry. by eapply Forall2_length.
  - intros i o r Ho Hi. specialize (Hrec' i o r Ho Hi).
    destruct o as [h|h]; simpl in *; [|case_decide; [by subst|]]; destruct Hrec' as [H1 Hz];
      (rewrite (at_spec _ _ _ _ Hv'), Hz; [done|]; apply zget_Some in Hz; lia).
  - intros i j h h' r r' Hi Hj Hri Hrj. pose proof (Hrec' _ _ _ Hi Hri) as H1.
    pose proof (Hrec' _ _ _ Hj Hrj) as H2. simpl in *. repeat case_decide.
    + split; congruence.
    + split; [intros; lia|congruence].
    + split; [intros; lia|congruence].
    + destruct H1 as [? H1], H2 as [? H2]. split; [intros ->; congruence|intros ->].
      pose proof (Huniq _ _ _ H1 H2). lia.
  - intros i j h o r r' Hne Hi Hj Hri Hrj. pose proof (Hrec' _ _ _ Hi Hri) as [H1 Hz1].
    pose proof (Hrec' _ _ _ Hj Hrj) as H2. destruct o as [h'|h']; simpl in H2.
    + destruct (Nat.lt_total i j) as [Hlt|[?|Hlt]]; [|done|].
      * destruct (Hal i _ r Hi Hri eq_refl) as [_ Hn]. destruct (Hn j _ r' Hlt Hj Hrj eq_refl). lia.
      * destruct (Hal j _ r' Hj Hrj eq_refl) as [_ Hn]. destruct (Hn i _ r Hlt Hi Hri eq_refl). lia.
    + case_decide; [lia|]. intros <-. destruct H2 as [_ H2]. congruence.
  - intros i h h' r r' Hi Hj Hri Hrj. destruct (Hal i _ r Hi Hri eq_refl) as [_ Hn].
    destruct (Hn (S i) _ r' (Nat.lt_succ_diag_r i) Hj Hrj eq_refl) as [_ Hs]. by apply Hs.
Qed.

Lemma recorder_contract_witness :
  ∃ rs v', recorder_run 1 [OpFind 8; OpAllocate 8; OpAllocate 0; OpFind 8] (new_recorder false)
           = Some (rs, v') ∧ length rs = 4%nat.
Proof.
  destruct (recorder_contract 1 false [OpFind 8; OpAllocate 8; OpAllocate 0; OpFind 8])
    as (rs & v' & Hr & Hl & _); [|done|by exists rs, v'].
  repeat constructor; by right.
Defined.
End VR.

