(* ===== verification/ObjectLookup.v ===== *)
(** * Objects to indexes across garbage collections
    (src/share/vm/code/oopRecorder.hpp and .cpp: ObjectLookup, OopRecorder;
    src/share/vm/utilities/growableArray.hpp: sort)

    [ObjectLookup] keeps one handle per object, sorted by the address the
    object has now, and sorts again when a collection has moved the objects.
    The handle blocks and the heap are seen through the class [HandleWorld]. *)

From stdpp Require Import base numbers list sorting.
From S2P Require Import Prelude CompressedStream GrowableArray OopRecorder.
Local Open Scope Z_scope.

(** ** What the lookup uses of the VM *)

Class HandleWorld (W : Type) := {
  resolve : W → Z → Z;                (* JNIHandles::resolve; 0 is NULL *)
  make_local : Z → M W Z;             (* JNIHandles::make_local *)
  total_collections : W → Z;          (* Universe::heap()->total_collections() *)
  collect : (Z → Z) → W → W           (* a collection that moves every object *)
}.

Class HandleLaws (W : Type) `{!HandleWorld W} := {
  world_ok : W → Prop;
  live : W → Z → Prop;
  total_collections_range w : world_ok w → in_u 32 (total_collections w);
  live_resolve w h : world_ok w → live w h → h ≠ 0 ∧ resolve w h ≠ 0;
  make_local_spec w obj :
    world_ok w → obj ≠ 0 → (∃ h0, live w h0 ∧ resolve w h0 = obj) →
    ∃ h w', make_local obj w = Some (h, w') ∧ world_ok w' ∧ h ≠ 0 ∧ live w' h ∧
      resolve w' h = obj ∧ total_collections w' = total_collections w ∧
      ∀ h', live w h' → live w' h' ∧ resolve w' h' = resolve w h';
  collect_spec w f :
    world_ok w →
    (∀ h, live w h → f (resolve w h) ≠ 0) →
    (∀ h h', live w h → live w h' → f (resolve w h) = f (resolve w h') → resolve w h = resolve w h') →
    world_ok (collect f w) ∧
    total_collections (collect f w) = u32 (total_collections w + 1) ∧
    ∀ h, live w h → live (collect f w) h ∧ resolve (collect f w) h = f (resolve w h)
}.

(** ** C library sort

    [qsort] returns a permutation in which no element compares greater than a
    later one. *)
Definition compares_le {A} (f : A → A → Z) (x y : A) : Prop := f x y ≤ 0.
#[global] Instance compares_le_dec {A} (f : A → A → Z) : RelDecision (compares_le f).
Proof. intros x y. unfold compares_le. apply _. Defined.
Definition qsort {A} (f : A → A → Z) (l : list A) : list A := merge_sort (compares_le f) l.

(** [GrowableArray::sort]: sort the cells in use. *)
Definition ga_sort {A} (f : A → A → Z) (a : GrowableArray A) : GrowableArray A :=
  let n := Z.to_nat (ga_len a) in
  mkGA (qsort f (take n (ga_data a)) ++ drop n (ga_data a)) (ga_len a) (ga_max a).

Module OL.

Record ObjectEntry := mkEntry { value : Z; index : Z }.
#[global] Instance ObjectEntry_inhabited : Inhabited ObjectEntry := populate (mkEntry 0 0).
#[global] Instance ObjectEntry_eq_dec : EqDecision ObjectEntry.
Proof. solve_decision. Defined.

Record ObjectLookup := mkOL { values : GrowableArray ObjectEntry; gc_count : Z }.

Definition sort_by_address (a b : Z) : Z :=
  if a <? b then 1 else if b <? a then -1 else 0.

Section lookup.
Context {W : Type} `{!HandleWorld W}.
(** [Universe::non_oop_word()] *)
Context (non_oop_word : Z).

(** [OopRecorder]: two value recorders and the lookup, which is NULL without
    de-duplication; here together with the world the handles live in. *)
Record OopRecorder := mkOR {
  oops : VR.ValueRecorder;
  metadata : VR.ValueRecorder;
  object_lookup : option ObjectLookup;
  world : W
}.

Definition new_object_lookup (w : W) : ObjectLookup :=
  mkOL (GA.ga_new 4 0 inhabitant) (total_collections w).

Definition new_oop_recorder (arena deduplicate : bool) (w : W) : OopRecorder :=
  mkOR (VR.new_recorder arena) (VR.new_recorder arena)
       (if deduplicate then Some (new_object_lookup w) else None) w.

Definition oop_value (w : W) (e : ObjectEntry) : Z := resolve w (value e).
Definition sort_entries_by_address (w : W) (a b : ObjectEntry) : Z :=
  sort_by_address (oop_value w a) (oop_value w b).
Definition sort_oop_by_address (w : W) (a : Z) (b : ObjectEntry) : Z :=
  sort_by_address a (oop_value w b).

(** Access to the parts of the recorder. *)
Definition on_oops {A} (m : M VR.ValueRecorder A) : M OopRecorder A := λ s,
  '(r, v) ← m (oops s); Some (r, mkOR v (metadata s) (object_lookup s) (world s)).
Definition on_metadata {A} (m : M VR.ValueRecorder A) : M OopRecorder A := λ s,
  '(r, v) ← m (metadata s); Some (r, mkOR (oops s) v (object_lookup s) (world s)).
Definition on_world {A} (m : M W A) : M OopRecorder A := λ s,
  '(r, w) ← m (world s); Some (r, mkOR (oops s) (metadata s) (object_lookup s) w).
Definition on_values {A} (m : M (GrowableArray ObjectEntry) A) : M OopRecorder A := λ s,
  o ← object_lookup s; '(r, vs) ← m (values o);
  Some (r, mkOR (oops s) (metadata s) (Some (mkOL vs (gc_count o))) (world s)).

Definition allocate_oop_index (h : Z) : M OopRecorder Z :=
  on_oops (VR.allocate_index non_oop_word h).

Definition maybe_resort : M OopRecorder unit := λ s,
  o ← object_lookup s;
  if negb (gc_count o =? total_collections (world s))
  then Some (tt, mkOR (oops s) (metadata s)
                   (Some (mkOL (ga_sort (sort_entries_by_address (world s)) (values o))
                               (total_collections (world s)))) (world s))
  else Some (tt, s).

Definition lookup_find_index (handle : Z) : M OopRecorder Z :=
  if handle =? 0 then mret 0
  else
    s ← mget;
    let object := resolve (world s) handle in
    maybe_resort ;;
    s ← mget;
    o ← mlift (object_lookup s);
    '(location, found) ← mlift (GA.find_sorted (sort_oop_by_address (world s)) object (values o));
    if negb found then
      h ← on_world (make_local object);
      i ← allocate_oop_index h;
      on_values (GA.insert_before location (mkEntry h i)) ;;
      mret i
    else
      e ← mlift (GA.at_ location (values o));
      mret (index e).

Definition find_oop_index (h : Z) : M OopRecorder Z :=
  s ← mget;
  match object_lookup s with
  | Some _ => lookup_find_index h
  | None => on_oops (VR.find_index non_oop_word h)
  end.
Definition oop_at (i : Z) (s : OopRecorder) : option Z := VR.at_ i (oops s).
Definition oop_size : M OopRecorder Z := on_oops VR.size.
Definition oop_count (s : OopRecorder) : Z := VR.count (oops s).
Definition allocate_metadata_index (h : Z) : M OopRecorder Z :=
  on_metadata (VR.allocate_index non_oop_word h).
Definition find_metadata_index (h : Z) : M OopRecorder Z :=
  on_metadata (VR.find_index non_oop_word h).
Definition metadata_at (i : Z) (s : OopRecorder) : option Z := VR.at_ i (metadata s).
Definition metadata_size : M OopRecorder Z := on_metadata VR.size.
Definition metadata_count (s : OopRecorder) : Z := VR.count (metadata s).
Definition is_unused (s : OopRecorder) : bool := VR.is_unused (oops s) && VR.is_unused (metadata s).
Definition freeze : M OopRecorder unit := oop_size ;; metadata_size ;; mret tt.
End lookup.
Arguments OopRecorder : clear implicits.

(** ** Invariant *)

Section invariant.
Context {W : Type} `{!HandleWorld W} `{!HandleLaws W}.
Context (non_oop_word : Z).
Implicit Types (w : W) (s : OopRecorder W) (es : list ObjectEntry) (t : VR.table).

(** Sorted by decreasing address. *)
Definition address_sorted w es : Prop :=
  ∀ i j x y, i < j → zget es i = Some x → zget es j = Some y → oop_value w y < oop_value w x.

(** Each entry has a live handle recorded under its index, one per object. *)
Definition entries_ok w t es : Prop :=
  (∀ e, e ∈ es → live w (value e) ∧ 1 ≤ index e ∧ zget t (index e - 1) = Some (value e, false)) ∧
  NoDup (oop_value w <$> es).

(** [n] collections have happened since the lookup was made, [d] of them since
    it was last sorted. *)
Definition lookup_ok (n : Z) s t (es : list ObjectEntry) : Prop :=
  world_ok (world s) ∧ VR.represents non_oop_word (oops s) t ∧
  ∃ o, object_lookup s = Some o ∧ GA.ga_ok (values o) ∧ GA.elems (values o) = es ∧
    entries_ok (world s) t es ∧ in_u 32 (gc_count o) ∧
    ∃ d, 0 ≤ d ≤ n ∧ total_collections (world s) = u32 (gc_count o + d) ∧
         (d = 0 → address_sorted (world s) es).

(** *** Sorting *)

Lemma sort_by_address_spec a b :
  (0 < sort_by_address a b ↔ a < b) ∧ (sort_by_address a b < 0 ↔ b < a) ∧
  (sort_by_address a b = 0 ↔ a = b) ∧ (sort_by_address a b ≤ 0 ↔ b ≤ a).
Proof. unfold sort_by_address. destruct (Z.ltb_spec a b), (Z.ltb_spec b a); lia. Qed.

#[local] Instance address_total w : Total (compares_le (sort_entries_by_address w)).
Proof.
  intros x y. unfold compares_le, sort_entries_by_address.
  destruct (sort_by_address_spec (oop_value w x) (oop_value w y)) as (_ & _ & _ & H1).
  destruct (sort_by_address_spec (oop_value w y) (oop_value w x)) as (_ & _ & _ & H2). lia.
Qed.

#[local] Instance address_trans w : Transitive (compares_le (sort_entries_by_address w)).
Proof.
  intros x y z. unfold compares_le, sort_entries_by_address.
  rewrite !(proj2 (proj2 (proj2 (sort_by_address_spec _ _)))). lia.
Qed.

Lemma qsort_permutation {A} (f : A → A → Z) l : qsort f l ≡ₚ l.
Proof. apply merge_sort_Permutation. Qed.

Lemma strongly_sorted_lookup {A} (R : relation A) (l : list A) i j x y :
  StronglySorted R l → i < j → zget l i = Some x → zget l j = Some y → R x y.
Proof.
  intros Hs. revert i j. induction Hs as [|a l Hs IH Ha]; intros i j Hij Hi Hj.
  { apply zget_Some in Hi. unfold zlen in Hi. simpl in Hi. lia. }
  pose proof (zget_Some _ _ _ Hi). pose proof (zget_Some _ _ _ Hj). unfold zget in *.
  rewrite decide_True in Hi by lia. rewrite decide_True in Hj by lia.
  destruct (Z.to_nat j) as [|j'] eqn:Ej; [lia|]. simpl in Hj. destruct (Z.to_nat i) as [|i'] eqn:Ei; simpl in Hi.
  - simplify_eq. rewrite Forall_forall in Ha. apply Ha. by eapply list_elem_of_lookup_2.
  - apply (IH (Z.of_nat i') (Z.of_nat j')); [lia| |]; rewrite decide_True by lia; by rewrite Nat2Z.id.
Qed.

Lemma qsort_address_sorted w es :
  NoDup (oop_value w <$> es) → address_sorted w (qsort (sort_entries_by_address w) es).
Proof.
  intros Hnd i j x y Hij Hx Hy.
  assert (compares_le (sort_entries_by_address w) x y) as Hle.
  { eapply strongly_sorted_lookup; [|done..]. apply (StronglySorted_merge_sort _ _). }
  unfold compares_le, sort_entries_by_address in Hle.
  rewrite (proj2 (proj2 (proj2 (sort_by_address_spec _ _)))) in Hle.
  assert (oop_value w x ≠ oop_value w y) as Hne; [|lia]. intros Heq.
  rewrite <- (qsort_permutation (sort_entries_by_address w)) in Hnd.
  pose proof (zget_Some _ _ _ Hx). unfold zget in Hx, Hy. repeat case_decide; try done.
  assert (Z.to_nat i = Z.to_nat j); [|lia].
  eapply (NoDup_lookup _ _ _ (oop_value w x) Hnd); rewrite list_lookup_fmap.
  - by rewrite Hx.
  - rewrite Hy. simpl. by f_equal.
Qed.

Lemma ga_sort_spec {A} (f : A → A → Z) (a : GrowableArray A) :
  GA.ga_ok a → GA.ga_ok (ga_sort f a) ∧ GA.elems (ga_sort f a) = qsort f (GA.elems a).
Proof.
  intros Hok. pose proof (GA.elems_length a Hok) as Hlen. destruct Hok as [H1 H2].
  assert (length (qsort f (take (Z.to_nat (ga_len a)) (ga_data a))) = Z.to_nat (ga_len a)) as Hl.
  { rewrite (Permutation_length (qsort_permutation f _)). fold (GA.elems a). unfold zlen in Hlen. lia. }
  unfold GA.ga_ok, GA.elems, ga_sort. cbn [ga_data ga_len ga_max]. split.
  - split; [done|]. unfold zlen in *. rewrite length_app, Hl, length_drop. lia.
  - rewrite <- Hl at 1. by rewrite take_app_length.
Qed.

Lemma address_search_ordered w es obj :
  address_sorted w es → GA.search_ordered (sort_oop_by_address w) obj es.
Proof.
  intros Hs i j x y Hij Hx Hy. specialize (Hs i j x y Hij Hx Hy). unfold sort_oop_by_address.
  destruct (sort_by_address_spec obj (oop_value w x)) as (Hx1 & Hx2 & _ & _).
  destruct (sort_by_address_spec obj (oop_value w y)) as (Hy1 & Hy2 & _ & _). lia.
Qed.

(** *** One lookup *)

Lemma entries_ok_perm w t es es' : es ≡ₚ es' → entries_ok w t es → entries_ok w t es'.
Proof.
  intros Hp [H1 H2]. split.
  - intros e He. apply H1. by rewrite Hp.
  - by rewrite <- Hp.
Qed.

(** After [maybe_resort] the entries are sorted by the current addresses. *)
Lemma maybe_resort_spec n s t es :
  lookup_ok n s t es → n < 2 ^ 32 →
  ∃ o es', maybe_resort s = Some (tt, mkOR (oops s) (metadata s) (Some o) (world s)) ∧
    es' ≡ₚ es ∧ GA.ga_ok (values o) ∧ GA.elems (values o) = es' ∧
    gc_count o = total_collections (world s) ∧ address_sorted (world s) es'.
Proof.
  intros (Hw & _ & o & Ho & Hok & He & Hes & Hg & d & Hd & Ht & Hs) Hn.
  unfold maybe_resort. rewrite Ho. cbn [mbind option_bind].
  destruct (Z.eqb_spec (gc_count o) (total_collections (world s))) as [Heq|Hne]; simpl.
  - exists o, es. split_and!; try done; [by destruct s; simpl in *; subst|].
    apply Hs. rewrite Ht in Heq. machine.
  - destruct (ga_sort_spec (sort_entries_by_address (world s)) (values o) Hok) as [Hok' He'].
    eexists _, _. split; [done|]. rewrite <- He. split; [apply qsort_permutation|].
    split_and!; [done..|]. apply qsort_address_sorted. rewrite He. apply Hes.
Qed.

Lemma address_sorted_insert w es1 es2 e :
  address_sorted w (es1 ++ es2) →
  (∀ k x, zget (es1 ++ es2) k = Some x →
     (k < zlen es1 → oop_value w e < oop_value w x) ∧ (zlen es1 ≤ k → oop_value w x < oop_value w e)) →
  address_sorted w (es1 ++ e :: es2).
Proof.
  intros Hs Hk i j x y Hij Hx%GA.zget_middle_cases Hy%GA.zget_middle_cases.
  destruct Hx as [[? Hx]|[[-> ->]|[? Hx]]], Hy as [[? Hy]|[[-> ->]|[? Hy]]]; try lia.
  - by apply (Hs i j).
  - by apply (Hk i x Hx).
  - apply (Hs i (j - 1)); [lia|done..].
  - apply (Hk (j - 1) y Hy). lia.
  - apply (Hs (i - 1) (j - 1)); [lia|done..].
Qed.

(** The live handles of [w] are live in [w'] and denote the same objects. *)
Definition world_extends w w' : Prop :=
  total_collections w' = total_collections w ∧
  ∀ h, live w h → live w' h ∧ resolve w' h = resolve w h.

Lemma entries_ok_extends w w' t t' es :
  world_extends w w' → t `prefix_of` t' → entries_ok w t es → entries_ok w' t' es.
Proof.
  intros [_ Hx] [k ->] [H1 H2]. split.
  - intros e He. destruct (H1 e He) as (Hl & Hi & Hz). split_and!; [by apply Hx|done|].
    rewrite zget_app_l; [done|]. apply zget_Some in Hz. lia.
  - replace (oop_value w' <$> es) with (oop_value w <$> es); [done|].
    apply list_fmap_ext. intros k' e He. symmetry. apply Hx. eapply (H1 e).
    by eapply list_elem_of_lookup_2.
Qed.

Lemma address_sorted_extends w w' t es :
  world_extends w w' → entries_ok w t es → address_sorted w es → address_sorted w' es.
Proof.
  intros [_ Hx] [H1 _] Hs i j x y Hij Hi Hj. specialize (Hs i j x y Hij Hi Hj).
  assert (∀ k e, zget es k = Some e → oop_value w' e = oop_value w e) as Heq.
  { intros k e Hk. apply Hx. apply (H1 e). unfold zget in Hk. case_decide; [|done].
    by eapply list_elem_of_lookup_2. }
  by rewrite !(Heq _ _ Hi), !(Heq _ _ Hj).
Qed.

(** Entering a new object. *)
Lemma entries_ok_insert w t h obj es1 es2 :
  entries_ok w (t ++ [(h, false)]) (es1 ++ es2) → live w h → resolve w h = obj →
  (∀ e, e ∈ es1 ++ es2 → oop_value w e ≠ obj) →
  entries_ok w (t ++ [(h, false)]) (es1 ++ mkEntry h (zlen t + 1) :: es2).
Proof.
  intros [H1 H2] Hl Hr Hnew. split.
  - intros e He. rewrite <- Permutation_middle in He. apply elem_of_cons in He as [->|He'].
    + cbn [value index]. rewrite Z.add_simpl_r, VR.zget_last. unfold zlen. split_and!; [done|lia|done].
    + by apply H1.
  - rewrite <- Permutation_middle. simpl. constructor; [|done].
    rewrite list_elem_of_fmap. intros (e & Heq & He). apply (Hnew e He). by rewrite <- Hr.
Qed.

(** What [find_index] does for a live handle [h]. *)
Record found (s : OopRecorder W) (h r : Z) (t : VR.table) (es : list ObjectEntry)
    (s' : OopRecorder W) (t' : VR.table) (es' : list ObjectEntry) : Prop := {
  found_table : t `prefix_of` t';
  found_metadata : metadata s' = metadata s;
  found_table_length : zlen t' ≤ zlen t + 1;
  found_world : world_extends (world s) (world s');
  found_entries e : e ∈ es → e ∈ es';
  found_balance : zlen es' - zlen t' = zlen es - zlen t;
  found_new e : e ∈ es' → e ∈ es ∨ oop_value (world s') e = resolve (world s') h;
  found_live i x f : zget t' i = Some (x, f) → zget t i = Some (x, f) ∨ live (world s') x;
  found_entry : ∃ e, e ∈ es' ∧ index e = r ∧ oop_value (world s') e = resolve (world s') h
}.

Lemma lookup_hit n s t es o es1 h loc e :
  lookup_ok n s t es → live (world s) h →
  es1 ≡ₚ es → GA.ga_ok (values o) → GA.elems (values o) = es1 →
  gc_count o = total_collections (world s) → address_sorted (world s) es1 →
  zget es1 loc = Some e → sort_oop_by_address (world s) (resolve (world s) h) e = 0 →
  let s' := mkOR (oops s) (metadata s) (Some o) (world s) in
  lookup_ok n s' t es1 ∧ found s h (index e) t es s' t es1.
Proof.
  intros (Hw & Hrep & o0 & _ & _ & _ & Hes & _ & d & Hd & _) Hl Hp Hok He Hg Hs Hz Hc s'.
  split.
  - split; [done|]. split; [done|]. exists o. split_and!; [done..| | |].
    + by eapply entries_ok_perm; [symmetry|].
    + rewrite Hg. by apply total_collections_range.
    + exists 0. cbn [world]. rewrite Hg, Z.add_0_r, wrapU_id by by apply total_collections_range.
      split; [lia|done].
  - split; try done.
    + lia.
    + intros e' He'. by rewrite Hp.
    + unfold zlen. by rewrite (Permutation_length Hp).
    + intros e' He'. left. by rewrite <- Hp.
    + intros. by left.
    + exists e. split; [by eapply zget_elem|]. split; [done|].
      unfold sort_oop_by_address in Hc.
      by rewrite (proj1 (proj2 (proj2 (sort_by_address_spec _ _)))) in Hc.
Qed.

(** The recorder after entering a new object, with the handle [hn] made for it. *)
Lemma lookup_miss n s t es o es1 es2 h hn w' v' vs' :
  lookup_ok n s t es → live (world s) h →
  es1 ++ es2 ≡ₚ es → gc_count o = total_collections (world s) →
  address_sorted (world s) (es1 ++ es2) →
  GA.search_result (sort_oop_by_address (world s)) (resolve (world s) h) (es1 ++ es2) (zlen es1, false) →
  world_ok w' → live w' hn → resolve w' hn = resolve (world s) h → world_extends (world s) w' →
  VR.represents non_oop_word v' (t ++ [(hn, false)]) →
  GA.ga_ok vs' → GA.elems vs' = es1 ++ mkEntry hn (zlen t + 1) :: es2 →
  let s' := mkOR v' (metadata s) (Some (mkOL vs' (gc_count o))) w' in
  lookup_ok n s' (t ++ [(hn, false)]) (es1 ++ mkEntry hn (zlen t + 1) :: es2) ∧
  found s h (zlen t + 1) t es s' (t ++ [(hn, false)]) (es1 ++ mkEntry hn (zlen t + 1) :: es2).
Proof.
  intros (Hw & Hrep & o0 & _ & _ & _ & Hes & _ & d & Hd & _) Hl Hp Hg Hs [_ Hres] Hw' Hln Hrn Hx Hv' Hok' He' s'.
  apply (entries_ok_perm _ _ _ _ (symmetry Hp)) in Hes.
  pose proof (entries_ok_extends _ _ _ _ _ Hx (prefix_app_r _ _ [(hn, false)] (reflexivity t)) Hes) as Hes'.
  pose proof (address_sorted_extends _ _ _ _ Hx Hes Hs) as Hs'.
  assert (∀ k x, zget (es1 ++ es2) k = Some x →
    (k < zlen es1 → resolve w' hn < oop_value w' x) ∧ (zlen es1 ≤ k → oop_value w' x < resolve w' hn)) as Hcmp.
  { intros k x Hk. rewrite Hrn. replace (oop_value w' x) with (oop_value (world s) x).
    - destruct (Hres k x Hk) as [H1 H2]. unfold sort_oop_by_address in *.
      destruct (sort_by_address_spec (resolve (world s) h) (oop_value (world s) x)) as (? & ? & _).
      split; intros; [apply H|apply H0]; auto.
    - symmetry. apply Hx, (proj1 Hes). by eapply zget_elem. }
  split.
  - split; [done|]. split; [done|]. eexists. split_and!; [done..| | |].
    + apply (entries_ok_insert _ _ _ (resolve w' hn)); try done. intros e [k Hk]%list_elem_of_lookup_1.
      rewrite <- zget_nat in Hk. destruct (Hcmp _ _ Hk) as [H1 H2]. subst s'. cbn [world].
      destruct (decide (Z.of_nat k < zlen es1)) as [Hlt|Hge]; [specialize (H1 Hlt); lia|].
      specialize (H2 ltac:(lia)). lia.
    + cbn [gc_count]. rewrite Hg. by apply total_collections_range.
    + exists 0. cbn [world gc_count]. rewrite Hg, Z.add_0_r, (wrapU_id 32) by by apply total_collections_range.
      split; [lia|]. split; [apply Hx|]. intros _. by apply address_sorted_insert.
  - assert (resolve w' hn = resolve w' h) as Hsame by (rewrite Hrn; symmetry; by apply Hx).
    split; try done.
    + by apply prefix_app_r.
    + rewrite zlen_app. done.
    + intros e He. rewrite <- Permutation_middle. rewrite <- Hp in He. by right.
    + unfold zlen. rewrite <- Hp, <- Permutation_middle. rewrite !length_app. simpl.
      rewrite length_app. lia.
    + intros e. rewrite <- Permutation_middle. intros [->|He]%elem_of_cons; [by right|left; by rewrite <- Hp].
    + intros i x f [[_ Hi]|[_ [= -> ->]]]%VR.zget_snoc; [by left|by right].
    + eexists. split; [apply elem_of_app; right; by left|]. by split.
Qed.

Lemma lookup_find_index_spec n s t es h :
  lookup_ok n s t es → n < 2 ^ 32 → live (world s) h → zlen t + 1 < VR.index_limit →
  ∃ r s' t' es', lookup_find_index non_oop_word h s = Some (r, s') ∧
    lookup_ok n s' t' es' ∧ found s h r t es s' t' es'.
Proof.
  intros Hok Hn Hl Hlim. destruct (live_resolve _ _ (proj1 Hok) Hl) as [Hh0 Hr0].
  destruct (maybe_resort_spec n s t es Hok Hn) as (o & es1 & Hm & Hp & Hga & He & Hg & Hs).
  unfold lookup_find_index. rewrite (proj2 (Z.eqb_neq h 0) Hh0).
  rewrite M_bind_get. cbv zeta. rewrite (M_bind_Some _ _ _ _ _ Hm).
  rewrite M_bind_get, (M_bind_lift _ _ _ o eq_refl).
  cbn [world].
  destruct (GA.find_sorted_spec (sort_oop_by_address (world s)) (resolve (world s) h) (values o))
    as ([loc b] & Hf & Hres); [done|rewrite He; by apply address_search_ordered|].
  rewrite He in Hres. rewrite (M_bind_lift _ _ _ _ Hf). cbv beta iota.
  destruct b; cbn [negb].
  - destruct Hres as (e & Hz & Hc).
    assert (GA.at_ loc (values o) = Some e) as Hat.
    { unfold GA.at_. rewrite GA.elems_lookup, He; [done|done|].
      rewrite <- GA.elems_length, He by done. by eapply zget_Some. }
    rewrite (M_bind_lift _ _ _ _ Hat).
    eexists _, _, t, es1. split; [done|]. by eapply lookup_hit.
  - destruct (Hres) as [Hloc _]. destruct (GA.elems_cut es1 loc Hloc) as (ea & eb & -> & <-).
    destruct (make_local_spec (world s) (resolve (world s) h) (proj1 Hok) Hr0) as
      (hn & w' & Hmk & Hw' & Hn0 & Hln & Hrn & Htc & Hkeep); [by exists h|].
    erewrite M_bind_Some by (unfold on_world; cbn [world]; rewrite Hmk; done).
    destruct (VR.add_handle_spec non_oop_word (oops s) t hn false) as (v' & Ha & Hv'); [apply Hok|done|done|].
    erewrite M_bind_Some by (unfold allocate_oop_index, on_oops; cbn [oops]; unfold VR.allocate_index; rewrite Ha; done).
    cbv zeta. destruct (GA.insert_before_run (values o) (zlen ea) (mkEntry hn (zlen t + 1)) Hga)
      as (vs' & Hi & Hvs & Hve).
    { rewrite <- GA.elems_length, He by done. done. }
    { apply ideal_roomy. }
    rewrite He, GA.take_app_zlen, GA.drop_app_zlen in Hve.
    erewrite M_bind_Some by (unfold on_values; cbn [object_lookup mbind option_bind]; rewrite Hi; done).
    eexists _, _, _, _. split; [done|]. by apply (lookup_miss n s t es o ea eb h hn w' v' vs').
Qed.

(** ** Sequences of lookups and collections *)

(** [lookup_trace s tr n s']: from [s] to [s'] the handles in [tr] were looked
    up, with the indexes given there, and [n] collections happened; other code
    may have made handles in between. *)
Inductive lookup_trace (s : OopRecorder W) : list (Z * Z) → Z → OopRecorder W → Prop :=
  | trace_start : lookup_trace s [] 0 s
  | trace_find tr n s1 h r s2 :
      lookup_trace s tr n s1 → live (world s1) h →
      find_oop_index non_oop_word h s1 = Some (r, s2) →
      lookup_trace s (tr ++ [(h, r)]) n s2
  | trace_collect tr n s1 f :
      lookup_trace s tr n s1 →
      (∀ h, live (world s1) h → f (resolve (world s1) h) ≠ 0) →
      (∀ h h', live (world s1) h → live (world s1) h' →
         f (resolve (world s1) h) = f (resolve (world s1) h') →
         resolve (world s1) h = resolve (world s1) h') →
      lookup_trace s tr (n + 1)
        (mkOR (oops s1) (metadata s1) (object_lookup s1) (collect f (world s1)))
  | trace_other tr n s1 w' :
      lookup_trace s tr n s1 → world_ok w' → world_extends (world s1) w' →
      lookup_trace s tr n (mkOR (oops s1) (metadata s1) (object_lookup s1) w').

(** The looked-up handles have an entry for their object. *)
Definition trace_recorded s es (tr : list (Z * Z)) : Prop :=
  ∀ h r, (h, r) ∈ tr → live (world s) h ∧
    ∃ e, e ∈ es ∧ index e = r ∧ oop_value (world s) e = resolve (world s) h.

Lemma trace_recorded_extends s s' t es es' tr :
  entries_ok (world s) t es → world_extends (world s) (world s') → (∀ e, e ∈ es → e ∈ es') →
  trace_recorded s es tr → trace_recorded s' es' tr.
Proof.
  intros Hes [_ Hx] Hsub Htr h r Hin. destruct (Htr h r Hin) as (Hl & e & He & Hi & Ho).
  split; [by apply Hx|]. exists e. split_and!; [by apply Hsub|done|].
  transitivity (oop_value (world s) e); [by apply Hx, Hes|].
  rewrite Ho. symmetry. by apply Hx.
Qed.

Lemma lookup_ok_extends n s t es w' :
  lookup_ok n s t es → world_ok w' → world_extends (world s) w' →
  lookup_ok n (mkOR (oops s) (metadata s) (object_lookup s) w') t es.
Proof.
  intros (Hw & Hrep & o & Ho & Hga & He & Hes & Hg & d & Hd & Ht & Hs) Hw' Hx.
  split; [done|]. split; [done|]. exists o. split_and!; try done.
  - by eapply entries_ok_extends.
  - exists d. cbn [world]. split; [done|]. split; [by rewrite (proj1 Hx)|].
    intros Hd0. by eapply address_sorted_extends; [..|apply Hs].
Qed.

Lemma lookup_ok_collect n s t es f :
  lookup_ok n s t es →
  (∀ h, live (world s) h → f (resolve (world s) h) ≠ 0) →
  (∀ h h', live (world s) h → live (world s) h' →
     f (resolve (world s) h) = f (resolve (world s) h') → resolve (world s) h = resolve (world s) h') →
  lookup_ok (n + 1) (mkOR (oops s) (metadata s) (object_lookup s) (collect f (world s))) t es.
Proof.
  intros (Hw & Hrep & o & Ho & Hga & He & [H1 H2] & Hg & d & Hd & Ht & Hs) Hf0 Hinj.
  destruct (collect_spec (world s) f Hw Hf0 Hinj) as (Hw' & Htc & Hl).
  split; [done|]. split; [done|]. exists o. split_and!; try done.
  - split.
    + intros e He'. destruct (H1 e He') as (? & ? & ?). split_and!; [by apply Hl|done..].
    + rewrite <- (list_fmap_id es) at 1. apply NoDup_alt. intros i j x Hi Hj.
      rewrite list_lookup_fmap, list_fmap_id in Hi, Hj.
      destruct (es !! i) as [a|] eqn:Ea, (es !! j) as [b|] eqn:Eb; simpl in *; try done.
      assert (live (world s) (value a) ∧ live (world s) (value b)) as [La Lb].
      { split; apply H1; by eapply list_elem_of_lookup_2. }
      eapply (NoDup_lookup _ _ _ (oop_value (world s) a) H2); rewrite list_lookup_fmap;
        [by rewrite Ea|rewrite Eb]. simpl. f_equal. apply Hinj; [done..|].
      destruct (Hl _ La) as [_ Ra], (Hl _ Lb) as [_ Rb]. unfold oop_value in *. congruence.
  - exists (d + 1). cbn [world]. rewrite Htc, Ht. split; [lia|]. split; [machine|lia].
Qed.

Lemma new_lookup_ok ar w :
  world_ok w → lookup_ok 0 (new_oop_recorder ar true w) [] [].
Proof.
  intros Hw. split; [done|]. split; [apply VR.new_recorder_represents|].
  eexists. split_and!; try done.
  - split; [by intros e ?%elem_of_nil|constructor].
  - by apply total_collections_range.
  - exists 0. cbn [world new_oop_recorder gc_count new_object_lookup].
    rewrite Z.add_0_r, (wrapU_id 32) by by apply total_collections_range.
    split; [done|]. split; [done|]. intros _ i j x y _ Hx. apply zget_Some in Hx.
    unfold zlen in Hx. simpl in Hx. lia.
Qed.

Lemma lookup_trace_inv ar w tr n s :
  world_ok w → lookup_trace (new_oop_recorder ar true w) tr n s →
  n < 2 ^ 32 → zlen tr < VR.index_limit →
  ∃ t es, lookup_ok n s t es ∧ trace_recorded s es tr ∧ zlen t ≤ zlen tr.
Proof.
  intros Hw Htr. induction Htr as [|tr n s1 h r s2 _ IH Hl Hf|tr n s1 f _ IH Hf0 Hinj
    |tr n s1 w' _ IH Hw' Hx]; intros Hn Hlim.
  - exists [], []. split; [by apply new_lookup_ok|]. split; [|done]. intros h r []%elem_of_nil.
  - rewrite zlen_app in Hlim. change (zlen [(h, r)]) with 1 in Hlim.
    destruct IH as (t & es & Hok & Hrec & Hlen); [done|lia|].
    destruct (lookup_find_index_spec n s1 t es h) as (r' & s2' & t' & es' & Hf' & Hok' & [Hp _ Hl' Hx Hsub _ _ _ He]);
      [done..|lia|].
    assert (find_oop_index non_oop_word h s1 = Some (r', s2')) as Hff.
    { destruct Hok as (_ & _ & o & Ho & _). unfold find_oop_index. by rewrite M_bind_get, Ho. }
    rewrite Hf in Hff. injection Hff as <- <-. exists t', es'. split; [done|].
    rewrite zlen_app. change (zlen [(h, r)]) with 1. split; [|lia].
    intros h1 r1 [Hin|Hin]%elem_of_app.
    + destruct Hok as (_ & _ & o & _ & _ & _ & Hes & _). by eapply trace_recorded_extends.
    + apply list_elem_of_singleton in Hin as [= -> ->]. split; [by apply Hx|done].
  - destruct IH as (t & es & Hok & Hrec & Hlen); [lia|done|]. exists t, es.
    split; [by apply lookup_ok_collect|]. split; [|done].
    destruct (collect_spec (world s1) f (proj1 Hok) Hf0 Hinj) as (_ & _ & Hc).
    intros h r Hin. destruct (Hrec h r Hin) as (Hl & e & He & Hi & Ho). split; [by apply Hc|].
    exists e. split_and!; [done..|]. cbn [world]. rewrite (proj2 (Hc _ Hl)), <- Ho.
    destruct Hok as (_ & _ & o & _ & _ & _ & [H1 _] & _). by apply Hc, H1.
  - destruct IH as (t & es & Hok & Hrec & Hlen); [done..|]. exists t, es.
    split; [by apply lookup_ok_extends|]. split; [|done].
    destruct Hok as (_ & _ & o & _ & _ & _ & Hes & _). by eapply (trace_recorded_extends s1).
Qed.

(** ** Result *)

(** C15: De-duplicating lookup.  After any sequence of lookups of live handles,
    interleaved with fewer than 2^32 collections (each moving the objects to
    any new distinct addresses) and with other code making handles: two
    lookups answered the same index exactly if their handles denote the same
    object, the recorder has a handle for that object at the index, NULL is
    answered 0, and the next lookup of a live handle succeeds. *)
Theorem lookup_dedup_across_gc ar w tr n s :
  world_ok w → lookup_trace (new_oop_recorder ar true w) tr n s →
  n < 2 ^ 32 → zlen tr < 2 ^ 30 - 1 →
  (∀ h r h' r', (h, r) ∈ tr → (h', r') ∈ tr →
     (r = r' ↔ resolve (world s) h = resolve (world s) h')) ∧
  (∀ h r, (h, r) ∈ tr →
     ∃ hr, oop_at r s = Some hr ∧ resolve (world s) hr = resolve (world s) h) ∧
  find_oop_index non_oop_word 0 s = Some (0, s) ∧
  (∀ h, live (world s) h → is_Some (find_oop_index non_oop_word h s)).
Proof.
  intros Hw Htr Hn Hlim.
  destruct (lookup_trace_inv ar w tr n s) as (t & es & Hok & Hrec & Hlen);
    [done..|unfold VR.index_limit; lia|].
  destruct (Hok) as (_ & Hrep & o & Ho & _ & _ & [H1 H2] & _).
  assert (∀ h, find_oop_index non_oop_word h s = lookup_find_index non_oop_word h s) as Hfind.
  { intros h. unfold find_oop_index. by rewrite M_bind_get, Ho. }
  split_and!.
  - intros h r h' r' Hin Hin'. destruct (Hrec _ _ Hin) as (_ & e & He & <- & <-).
    destruct (Hrec _ _ Hin') as (_ & e' & He' & <- & <-).
    destruct (H1 e He) as (_ & _ & Hz), (H1 e' He') as (_ & _ & Hz'). split; intros Heq.
    + unfold oop_value. rewrite Heq in Hz. congruence.
    + apply list_elem_of_lookup_1 in He as [i Hi], He' as [j Hj].
      assert (i = j) as <-; [|congruence].
      eapply (NoDup_lookup _ _ _ (oop_value (world s) e) H2); rewrite list_lookup_fmap;
        [by rewrite Hi|rewrite Hj; simpl; by f_equal].
  - intros h r Hin. destruct (Hrec _ _ Hin) as (_ & e & He & <- & Heq).
    destruct (H1 e He) as (_ & Hi & Hz). exists (value e). split; [|done].
    unfold oop_at. rewrite (VR.at_spec _ _ _ _ Hrep), Hz; [done|]. apply zget_Some in Hz. lia.
  - by rewrite Hfind.
  - intros h Hl. rewrite Hfind.
    destruct (lookup_find_index_spec n s t es h) as (r & s' & _ & _ & -> & _);
      [done..|unfold VR.index_limit; lia|eauto].
Qed.
End invariant.

(** *** A world in which handles are never reclaimed *)

Record Slots := mkSlots { slots : list Z; collections : Z }.

#[global] Instance slots_world : HandleWorld Slots := {
  resolve w h := default 0 (zget (slots w) (h - 1));
  make_local obj := λ w, Some (zlen (slots w) + 1, mkSlots (slots w ++ [obj]) (collections w));
  total_collections := collections;
  collect f w := mkSlots (f <$> slots w) (u32 (collections w + 1))
}.

#[global] Program Instance slots_laws : HandleLaws Slots := {
  world_ok w := in_u 32 (collections w);
  live w h := 1 ≤ h ∧ ∃ o, zget (slots w) (h - 1) = Some o ∧ o ≠ 0
}.
Next Obligation. done. Qed.
Next Obligation. intros w h _ (Hh & o & Ho & H0). simpl. rewrite Ho. split; [lia|done]. Qed.
Next Obligation.
  intros w obj Hw H0 _. eexists _, _. split; [done|]. simpl. rewrite Z.add_simpl_r, VR.zget_last.
  pose proof (Zle_0_nat (length (slots w))) as Hlen. split_and!; [done|unfold zlen; lia|unfold zlen; lia|by exists obj|done|done|].
  intros h (Hh & o & Ho & Ho0). rewrite zget_app_l by (apply zget_Some in Ho; lia).
  split; [|done]. split; [done|]. by exists o.
Qed.
Next Obligation.
  intros w f Hw Hf0 _. simpl in *. split; [by apply wrapU_range|]. split; [done|].
  assert (∀ k, zget (f <$> slots w) k = f <$> zget (slots w) k) as Hmap.
  { intros k. unfold zget. case_decide; [|done]. apply list_lookup_fmap. }
  intros h (Hh & o & Ho & Ho0). rewrite Hmap, Ho. simpl. split; [|done]. split; [done|].
  exists (f o). split; [done|]. specialize (Hf0 h). rewrite Ho in Hf0. apply Hf0. eauto.
Qed.

(** Three handles, two of them for the object at 500, which then moves. *)
Definition sample_world : Slots := mkSlots [500; 700; 500] 4294967295.

Lemma sample_trace :
  ∃ s, lookup_trace 1 (new_oop_recorder false true sample_world)
         [(1, 1); (2, 2); (3, 1)] 1 s.
Proof.
  change (∃ s, lookup_trace 1 (new_oop_recorder false true sample_world)
    ((([] ++ [(1, 1)]) ++ [(2, 2)]) ++ [(3, 1)]) (0 + 1) s). eexists.
  eapply trace_find; [eapply (trace_collect _ _ _ _ _ (λ x, 3 * x + 1));
      [eapply trace_find; [eapply trace_find; [apply trace_start| |vm_compute; reflexivity]
        | |vm_compute; reflexivity]| |]| |vm_compute; reflexivity].
  1, 2, 5: split; [done|]; eexists; split; [vm_compute; reflexivity|done].
  all: intros; lia.
Qed.

Lemma lookup_dedup_across_gc_witness :
  ∃ s, lookup_trace 1 (new_oop_recorder false true sample_world) [(1, 1); (2, 2); (3, 1)] 1 s ∧
       resolve (world s) 1 = resolve (world s) 3 ∧ find_oop_index 1 0 s = Some (0, s).
Proof.
  assert (world_ok sample_world) as Hw by (change (in_u 32 4294967295); done).
  destruct sample_trace as [s Htr]. exists s. split; [exact Htr|].
  destruct (lookup_dedup_across_gc 1 false sample_world _ _ _
    Hw Htr ltac:(done) ltac:(done)) as (H1 & _ & H3 & _).
  split; [|exact H3]. apply (H1 1 1 3 1); [left|right; right; left|reflexivity].
Defined.
End OL.
