(* ===== verification/DebugInfo.v ===== *)
(** * Scope values and their serialised form
    (src/share/vm/code/debugInfo.hpp and .cpp)

    Compilers describe where the values of a scope are with [ScopeValue]
    objects.  They form a graph: an [ObjectValue] (an object removed by escape
    analysis) refers to its field values, which may be [ObjectValue]s again.
    [ObjectValue]s live in a store and are referred to by pointers, because the
    writer marks them as visited and cycles are possible. *)

From stdpp Require Import base numbers list gmap fin_sets.
From S2P Require Import Prelude CompressedStream VMReg.
Local Open Scope Z_scope.

(** ** Data *)

Inductive ScopeValue :=
  | LocationValue (location : Location)
  | ConstantIntValue (value : Z)
  | ConstantLongValue (value : Z)
  | ConstantDoubleValue (value : Z)       (* the bits of the double *)
  | ConstantOopWriteValue (value : Z)     (* a jobject *)
  | ConstantOopReadValue (value : Z)      (* an oop *)
  | ObjectPointer (p : Z).                (* an ObjectValue* *)

#[global] Instance ScopeValue_eq_dec : EqDecision ScopeValue.
Proof. solve_decision. Defined.

Record ObjectValue := mkOV {
  ov_id : Z;
  ov_klass : option ScopeValue;           (* NULL until it is read *)
  ov_field_values : list ScopeValue;
  ov_value : Z;                           (* the object, once it is reallocated *)
  ov_visited : bool
}.

Record MonitorValue := mkMonitor {
  mv_owner : ScopeValue;
  mv_basic_lock : Location;
  mv_eliminated : bool
}.

Definition new_object_value (id : Z) : ObjectValue := mkOV id None [] 0 false.
Definition new_object_value_klass (id : Z) (klass : ScopeValue) : ObjectValue :=
  mkOV id (Some klass) [] 0 false.

Definition is_location (v : ScopeValue) : bool :=
  match v with LocationValue _ => true | _ => false end.
Definition is_object (v : ScopeValue) : bool :=
  match v with ObjectPointer _ => true | _ => false end.
Definition is_constant_int (v : ScopeValue) : bool :=
  match v with ConstantIntValue _ => true | _ => false end.
Definition is_constant_double (v : ScopeValue) : bool :=
  match v with ConstantDoubleValue _ => true | _ => false end.
Definition is_constant_long (v : ScopeValue) : bool :=
  match v with ConstantLongValue _ => true | _ => false end.
Definition is_constant_oop (v : ScopeValue) : bool :=
  match v with ConstantOopWriteValue _ | ConstantOopReadValue _ => true | _ => false end.

(** [set_visited] stores [false] whatever its argument is. *)
Definition set_visited (visited : bool) (o : ObjectValue) : ObjectValue :=
  mkOV (ov_id o) (ov_klass o) (ov_field_values o) (ov_value o) false.
Definition set_value (value : Z) (o : ObjectValue) : ObjectValue :=
  mkOV (ov_id o) (ov_klass o) (ov_field_values o) value (ov_visited o).
(** The assignment [_visited = true] in [write_on]. *)
Definition mark_visited (o : ObjectValue) : ObjectValue :=
  mkOV (ov_id o) (ov_klass o) (ov_field_values o) (ov_value o) true.
Definition set_klass (k : ScopeValue) (o : ObjectValue) : ObjectValue :=
  mkOV (ov_id o) (Some k) (ov_field_values o) (ov_value o) (ov_visited o).
Definition append_field (v : ScopeValue) (o : ObjectValue) : ObjectValue :=
  mkOV (ov_id o) (ov_klass o) (ov_field_values o ++ [v]) (ov_value o) (ov_visited o).

Definition LOCATION_CODE : Z := 0.
Definition CONSTANT_INT_CODE : Z := 1.
Definition CONSTANT_OOP_CODE : Z := 2.
Definition CONSTANT_LONG_CODE : Z := 3.
Definition CONSTANT_DOUBLE_CODE : Z := 4.
Definition OBJECT_CODE : Z := 5.
Definition OBJECT_ID_CODE : Z := 6.

(** [InvocationEntryBci] (globalDefinitions.hpp). *)
Definition InvocationEntryBci : Z := -1.

(** ** The oop recorder as the writer sees it *)

Class IndexRecorder (R : Type) := {
  rec_find_oop : Z → M R Z;           (* oop_recorder()->find_index(jobject) *)
  rec_find_metadata : Z → M R Z       (* oop_recorder()->find_index(Metadata* ) *)
}.

(** ** Writing *)

(** The recorder's stream, the objects the compiler made, the oop recorder. *)
Record DebugInfoWriter (R : Type) := mkDW {
  dw_stream : CompressedWriteStream;
  dw_objects : gmap Z ObjectValue;
  dw_recorder : R
}.
Arguments mkDW {R} _ _ _.
Arguments dw_stream {R} _.
Arguments dw_objects {R} _.
Arguments dw_recorder {R} _.

Section writer.
Context {R : Type} `{!IndexRecorder R}.

Definition on_stream {A} (m : M CompressedWriteStream A) : M (DebugInfoWriter R) A := λ s,
  '(r, st) ← m (dw_stream s); Some (r, mkDW st (dw_objects s) (dw_recorder s)).
Definition on_recorder {A} (m : M R A) : M (DebugInfoWriter R) A := λ s,
  '(r, rc) ← m (dw_recorder s); Some (r, mkDW (dw_stream s) (dw_objects s) rc).
Definition get_object (p : Z) : M (DebugInfoWriter R) ObjectValue := λ s,
  o ← dw_objects s !! p; Some (o, s).
Definition put_object (p : Z) (o : ObjectValue) : M (DebugInfoWriter R) unit := λ s,
  Some (tt, mkDW (dw_stream s) (<[p := o]> (dw_objects s)) (dw_recorder s)).

Definition dw_write_int (v : Z) : M (DebugInfoWriter R) unit := on_stream (write_int v).

Definition write_handle (h : Z) : M (DebugInfoWriter R) unit :=
  i ← on_recorder (rec_find_oop h); dw_write_int i.
Definition write_metadata (h : Z) : M (DebugInfoWriter R) unit :=
  i ← on_recorder (rec_find_metadata h); dw_write_int i.
Definition write_bci (bci : Z) : M (DebugInfoWriter R) unit :=
  dw_write_int (bci - InvocationEntryBci).

Definition LocationValue_write_on (l : Location) : M (DebugInfoWriter R) unit :=
  dw_write_int LOCATION_CODE ;; on_stream (Location_write_on l).
Definition ConstantIntValue_write_on (v : Z) : M (DebugInfoWriter R) unit :=
  dw_write_int CONSTANT_INT_CODE ;; on_stream (write_signed_int v).
Definition ConstantLongValue_write_on (v : Z) : M (DebugInfoWriter R) unit :=
  dw_write_int CONSTANT_LONG_CODE ;; on_stream (write_long v).
Definition ConstantDoubleValue_write_on (v : Z) : M (DebugInfoWriter R) unit :=
  dw_write_int CONSTANT_DOUBLE_CODE ;; on_stream (write_double v).
Definition ConstantOopWriteValue_write_on (h : Z) : M (DebugInfoWriter R) unit :=
  dw_write_int CONSTANT_OOP_CODE ;; write_handle h.
(** [ShouldNotReachHere()] *)
Definition ConstantOopReadValue_write_on (o : Z) : M (DebugInfoWriter R) unit := mfailS.

(** [ObjectValue::write_on], given [write_on] for the values it refers to. *)
Definition ObjectValue_write_on (write_on : ScopeValue → M (DebugInfoWriter R) unit)
    (p : Z) : M (DebugInfoWriter R) unit :=
  o ← get_object p;
  if ov_visited o then
    dw_write_int OBJECT_ID_CODE ;; dw_write_int (ov_id o)
  else
    put_object p (mark_visited o) ;;
    dw_write_int OBJECT_CODE ;;
    dw_write_int (ov_id o) ;;
    klass ← mlift (ov_klass o);
    write_on klass ;;
    dw_write_int (zlen (ov_field_values o)) ;;
    mforeach write_on (ov_field_values o).

(** The virtual function [write_on]; [fuel] bounds the nesting of objects. *)
Fixpoint write_on (fuel : nat) (v : ScopeValue) : M (DebugInfoWriter R) unit :=
  match fuel with
  | O => mfailS
  | S fuel' =>
      match v with
      | LocationValue l => LocationValue_write_on l
      | ConstantIntValue v => ConstantIntValue_write_on v
      | ConstantLongValue v => ConstantLongValue_write_on v
      | ConstantDoubleValue v => ConstantDoubleValue_write_on v
      | ConstantOopWriteValue h => ConstantOopWriteValue_write_on h
      | ConstantOopReadValue o => ConstantOopReadValue_write_on o
      | ObjectPointer p => ObjectValue_write_on (write_on fuel') p
      end
  end.

Definition MonitorValue_write_on (fuel : nat) (m : MonitorValue) : M (DebugInfoWriter R) unit :=
  on_stream (Location_write_on (mv_basic_lock m)) ;;
  write_on fuel (mv_owner m) ;;
  on_stream (write_bool (Z.b2z (mv_eliminated m))).
End writer.

(** ** Reading *)

(** The oop and metadata tables of the nmethod that is read. *)
Record CodeTables := mkTables {
  code_oop_at : Z → Z;
  code_metadata_at : Z → Z
}.

Record DebugInfoReader := mkDR {
  dr_stream : CompressedReadStream;
  dr_objects : gmap Z ObjectValue;      (* the ObjectValues allocated so far *)
  dr_pool : list Z                      (* [_obj_pool] *)
}.

Section reader.
Context (code : CodeTables).

Definition on_rstream {A} (m : M CompressedReadStream A) : M DebugInfoReader A := λ s,
  '(r, st) ← m (dr_stream s); Some (r, mkDR st (dr_objects s) (dr_pool s)).
Definition dr_read_int : M DebugInfoReader Z := on_rstream read_int.

Definition read_oop : M DebugInfoReader Z := i ← dr_read_int; mret (code_oop_at code i).
Definition read_method : M DebugInfoReader Z := i ← dr_read_int; mret (code_metadata_at code i).
Definition read_bci : M DebugInfoReader Z := i ← dr_read_int; mret (s32 (i + InvocationEntryBci)).

(** Allocation of a new [ObjectValue] and its entry in the pool. *)
Definition alloc_pooled (id : Z) : M DebugInfoReader Z := λ s,
  let p := fresh (dom (dr_objects s)) in
  Some (p, mkDR (dr_stream s) (<[p := new_object_value id]> (dr_objects s)) (dr_pool s ++ [p])).
Definition update_object (p : Z) (f : ObjectValue → ObjectValue) : M DebugInfoReader unit := λ s,
  o ← dr_objects s !! p;
  Some (tt, mkDR (dr_stream s) (<[p := f o]> (dr_objects s)) (dr_pool s)).

(** The search of [get_cached_object], from the end of the pool. *)
Fixpoint find_cached (id : Z) (objects : gmap Z ObjectValue) (rpool : list Z) : option Z :=
  match rpool with
  | [] => None
  | p :: rpool' =>
      o ← objects !! p;
      if ov_id o =? id then Some p else find_cached id objects rpool'
  end.

Definition get_cached_object : M DebugInfoReader ScopeValue :=
  id ← dr_read_int;
  s ← mget;
  p ← mlift (find_cached id (dr_objects s) (reverse (dr_pool s)));
  mret (ObjectPointer p).

(** The loop of [read_object]. *)
Fixpoint read_fields (read_from : M DebugInfoReader ScopeValue) (n : nat) (p : Z)
  : M DebugInfoReader unit :=
  match n with
  | O => mret tt
  | S n' =>
      val ← read_from;
      update_object p (append_field val) ;;
      read_fields read_from n' p
  end.

Definition read_object (read_from : M DebugInfoReader ScopeValue) (p : Z)
  : M DebugInfoReader unit :=
  klass ← read_from;
  update_object p (set_klass klass) ;;
  length ← dr_read_int;
  read_fields read_from (Z.to_nat length) p.

Definition read_object_value (read_from : M DebugInfoReader ScopeValue)
  : M DebugInfoReader ScopeValue :=
  id ← dr_read_int;
  p ← alloc_pooled id;
  read_object read_from p ;;
  mret (ObjectPointer p).

(** The switch of [ScopeValue::read_from]. *)
Definition read_from_cases (read_from : M DebugInfoReader ScopeValue) (c : Z)
  : M DebugInfoReader ScopeValue :=
  if c =? LOCATION_CODE then l ← on_rstream Location_read; mret (LocationValue l)
  else if c =? CONSTANT_INT_CODE then v ← on_rstream read_signed_int; mret (ConstantIntValue v)
  else if c =? CONSTANT_OOP_CODE then o ← read_oop; mret (ConstantOopReadValue o)
  else if c =? CONSTANT_LONG_CODE then v ← on_rstream read_long; mret (ConstantLongValue v)
  else if c =? CONSTANT_DOUBLE_CODE then v ← on_rstream read_double; mret (ConstantDoubleValue v)
  else if c =? OBJECT_CODE then read_object_value read_from
  else if c =? OBJECT_ID_CODE then get_cached_object
  else mfailS.

(** [ScopeValue::read_from]; [fuel] bounds the nesting of objects. *)
Fixpoint read_from (fuel : nat) : M DebugInfoReader ScopeValue :=
  match fuel with
  | O => mfailS
  | S fuel' => c ← dr_read_int; read_from_cases (read_from fuel') c
  end.

Definition read_MonitorValue (fuel : nat) : M DebugInfoReader MonitorValue :=
  basic_lock ← on_rstream Location_read;
  owner ← read_from fuel;
  e ← on_rstream read_bool;
  mret (mkMonitor owner basic_lock (negb (e =? 0))).
End reader.

(** ** What a recorder promises

    [object_of] gives the object a handle denotes.  The answer to a lookup is
    an index at which the table has that object from then on. *)
Class IndexRecorderLaws (R : Type) `{!IndexRecorder R} := {
  rec_ok : R → Prop;
  object_of : Z → Z;
  valid_oop : Z → Prop;
  valid_metadata : Z → Prop;
  rec_oop : R → Z → option Z;
  rec_metadata : R → Z → option Z;
  rec_find_oop_spec r h : rec_ok r → valid_oop h →
    ∃ i r', rec_find_oop h r = Some (i, r') ∧ rec_ok r' ∧ is_jint i ∧
      rec_oop r' i = Some (object_of h) ∧
      (∀ j o, rec_oop r j = Some o → rec_oop r' j = Some o) ∧
      (∀ j o, rec_metadata r j = Some o → rec_metadata r' j = Some o);
  rec_find_metadata_spec r h : rec_ok r → valid_metadata h →
    ∃ i r', rec_find_metadata h r = Some (i, r') ∧ rec_ok r' ∧ is_jint i ∧
      rec_metadata r' i = Some h ∧
      (∀ j o, rec_oop r j = Some o → rec_oop r' j = Some o) ∧
      (∀ j o, rec_metadata r j = Some o → rec_metadata r' j = Some o)
}.

(** ** The format

    [enc_value T H n V v bs V']: with the tables [T] of the nmethod, the object
    graph [H] and the objects [V] written before, [v] is written as [bs] and
    the objects [V'] have been written after it. *)

Section format.
Context (valid_oop : Z → Prop) (object_of : Z → Z).

Inductive enc_list {A} (E : gset Z → A → list Z → gset Z → Prop)
  : gset Z → list A → list Z → gset Z → Prop :=
  | enc_list_nil V : enc_list E V [] [] V
  | enc_list_cons V v vs b bs V1 V2 :
      E V v b V1 → enc_list E V1 vs bs V2 → enc_list E V (v :: vs) (b ++ bs) V2.

Fixpoint enc_value (T : CodeTables) (H : gmap Z ObjectValue) (n : nat)
    (V : gset Z) (v : ScopeValue) (bs : list Z) (V' : gset Z) : Prop :=
  match n with
  | O => False
  | S n' =>
      match v with
      | LocationValue l => is_juint l ∧ bs = enc_int LOCATION_CODE ++ enc_location l ∧ V' = V
      | ConstantIntValue c => is_jint c ∧ bs = enc_int CONSTANT_INT_CODE ++ enc_signed_int c ∧ V' = V
      | ConstantLongValue c => is_jlong c ∧ bs = enc_int CONSTANT_LONG_CODE ++ enc_long c ∧ V' = V
      | ConstantDoubleValue c =>
          is_jlong c ∧ bs = enc_int CONSTANT_DOUBLE_CODE ++ enc_double c ∧ V' = V
      | ConstantOopWriteValue h =>
          ∃ i, is_jint i ∧ code_oop_at T i = object_of h ∧
               bs = enc_int CONSTANT_OOP_CODE ++ enc_int i ∧ V' = V
      | ConstantOopReadValue _ => False
      | ObjectPointer p =>
          ∃ o, H !! p = Some o ∧ is_jint (ov_id o) ∧
          if decide (p ∈ V) then bs = enc_int OBJECT_ID_CODE ++ enc_int (ov_id o) ∧ V' = V
          else ∃ k b1 V1 b2,
            ov_klass o = Some k ∧ is_jint (zlen (ov_field_values o)) ∧
            enc_value T H n' ({[p]} ∪ V) k b1 V1 ∧
            enc_list (enc_value T H n') V1 (ov_field_values o) b2 V' ∧
            bs = enc_int OBJECT_CODE ++ enc_int (ov_id o) ++ b1 ++
                 enc_int (zlen (ov_field_values o)) ++ b2
      end
  end.

(** Values and object graphs that can be written. *)
Definition value_ok (H : gmap Z ObjectValue) (v : ScopeValue) : Prop :=
  match v with
  | LocationValue l => is_juint l
  | ConstantIntValue c => is_jint c
  | ConstantLongValue c | ConstantDoubleValue c => is_jlong c
  | ConstantOopWriteValue h => valid_oop h
  | ConstantOopReadValue _ => False
  | ObjectPointer p => is_Some (H !! p)
  end.

Definition graph_ok (H : gmap Z ObjectValue) : Prop :=
  (∀ p o, H !! p = Some o →
     is_jint (ov_id o) ∧ is_jint (zlen (ov_field_values o)) ∧
     (∃ k, ov_klass o = Some k ∧ value_ok H k) ∧
     Forall (value_ok H) (ov_field_values o)) ∧
  (∀ p q o o', H !! p = Some o → H !! q = Some o' → ov_id o = ov_id o' → p = q).
End format.

(** The objects that are left to write. *)
Definition unwritten (H : gmap Z ObjectValue) (V : gset Z) : nat := size (dom H ∖ V).

Lemma unwritten_mark H V p :
  is_Some (H !! p) → p ∉ V → (unwritten H ({[p]} ∪ V) < unwritten H V)%nat.
Proof.
  intros Hp%elem_of_dom HV. unfold unwritten. apply subset_size. set_solver.
Qed.

Lemma unwritten_mono H V V' : V ⊆ V' → (unwritten H V' ≤ unwritten H V)%nat.
Proof. intros HV. apply subseteq_size. set_solver. Qed.

(** ** Writing follows the format *)

Section write_spec.
Context {R : Type} `{!IndexRecorder R} `{!IndexRecorderLaws R}.
Implicit Types (s : DebugInfoWriter R) (V : gset Z) (T : CodeTables).
(** The object graph, whatever is marked as visited. *)
Context (H : gmap Z ObjectValue).

Definition marked (V : gset Z) (p : Z) (o : ObjectValue) : ObjectValue :=
  mkOV (ov_id o) (ov_klass o) (ov_field_values o) (ov_value o) (bool_decide (p ∈ V)).

(** The writer's state when of the objects of [H] those in [V] have been
    written. *)
Definition writer_ok V s : Prop :=
  ws_ok (dw_stream s) ∧ rec_ok (dw_recorder s) ∧ V ⊆ dom H ∧
  ∀ p o, H !! p = Some o → dw_objects s !! p = Some (marked V p o).

(** Nothing but the marks changes in the objects. *)
Definition same_graph (D D' : gmap Z ObjectValue) : Prop :=
  set_visited false <$> D' = set_visited false <$> D.

Definition recorder_extends (r r' : R) : Prop :=
  (∀ j o, rec_oop r j = Some o → rec_oop r' j = Some o) ∧
  (∀ j o, rec_metadata r j = Some o → rec_metadata r' j = Some o).

(** The tables of the nmethod are those of the recorder. *)
Definition agrees (r : R) T : Prop :=
  (∀ j o, rec_oop r j = Some o → code_oop_at T j = o) ∧
  (∀ j o, rec_metadata r j = Some o → code_metadata_at T j = o).

Definition emits (m : M (DebugInfoWriter R) unit) V (E : CodeTables → list Z → Prop) V' : Prop :=
  ∀ s, writer_ok V s → ∃ s' bs, m s = Some (tt, s') ∧ writer_ok V' s' ∧
    ws_data (dw_stream s') = ws_data (dw_stream s) ++ bs ∧
    recorder_extends (dw_recorder s) (dw_recorder s') ∧
    same_graph (dw_objects s) (dw_objects s') ∧
    ∀ T, agrees (dw_recorder s') T → E T bs.

Lemma recorder_extends_refl r : recorder_extends r r.
Proof. by split. Qed.
Lemma recorder_extends_trans r1 r2 r3 :
  recorder_extends r1 r2 → recorder_extends r2 r3 → recorder_extends r1 r3.
Proof. intros [H1 H2] [H3 H4]. split; eauto. Qed.
Lemma agrees_extends r r' T : recorder_extends r r' → agrees r' T → agrees r T.
Proof. intros [H1 H2] [H3 H4]. split; eauto. Qed.

Lemma emits_ret V : emits (mret tt) V (λ _ bs, bs = []) V.
Proof.
  intros s Hs. exists s, []. rewrite app_nil_r. by split_and!.
Qed.

Lemma emits_bind m1 m2 V V1 V2 E1 E2 :
  emits m1 V E1 V1 → emits m2 V1 E2 V2 →
  emits (m1 ;; m2) V (λ T bs, ∃ b1 b2, bs = b1 ++ b2 ∧ E1 T b1 ∧ E2 T b2) V2.
Proof.
  intros H1 H2 s Hs. destruct (H1 s Hs) as (s1 & b1 & Hm1 & Hs1 & Hd1 & Hx1 & Hg1 & He1).
  destruct (H2 s1 Hs1) as (s2 & b2 & Hm2 & Hs2 & Hd2 & Hx2 & Hg2 & He2).
  exists s2, (b1 ++ b2). rewrite (M_bind_Some _ _ _ _ _ Hm1). split_and!; [done|done| | | |].
  - by rewrite Hd2, Hd1, app_assoc.
  - by eapply recorder_extends_trans.
  - by etrans.
  - intros T HT. exists b1, b2. split_and!; [done| |by apply He2].
    apply He1. by eapply agrees_extends.
Qed.

Lemma emits_weaken m V V' (E E' : CodeTables → list Z → Prop) :
  (∀ T bs, E T bs → E' T bs) → emits m V E V' → emits m V E' V'.
Proof.
  intros HE Hm s Hs. destruct (Hm s Hs) as (s' & bs & ? & ? & ? & ? & ? & ?).
  exists s', bs. split_and!; eauto.
Qed.

Lemma emits_codec {A} (dom : A → Prop) enc W Rd `{!Codec dom enc W Rd} a V :
  dom a → emits (on_stream (W a)) V (λ _ bs, bs = enc a) V.
Proof.
  intros Ha s (Hws & Hr & HV & Ho). destruct (codec_write a Ha _ Hws (ideal_roomy _)) as (st & E & Hst & Hd).
  eexists _, (enc a). unfold on_stream. rewrite E. split; [done|].
  by split_and!.
Qed.

Lemma emits_int v V : is_jint v → emits (dw_write_int v) V (λ _ bs, bs = enc_int v) V.
Proof. apply (emits_codec is_jint enc_int write_int read_int). Qed.

Lemma emits_find (m : M R Z) V (P : CodeTables → Z → Prop) :
  (∀ r, rec_ok r → ∃ i r', m r = Some (i, r') ∧ rec_ok r' ∧ is_jint i ∧
     recorder_extends r r' ∧ ∀ T, agrees r' T → P T i) →
  emits (i ← on_recorder m; dw_write_int i) V
    (λ T bs, ∃ i, is_jint i ∧ P T i ∧ bs = enc_int i) V.
Proof.
  intros Hm s (Hws & Hr & HV & Ho). destruct (Hm _ Hr) as (i & r' & E & Hr' & Hi & Hx & HP).
  assert (on_recorder m s = Some (i, mkDW (dw_stream s) (dw_objects s) r')) as Hon.
  { unfold on_recorder. by rewrite E. }
  rewrite (M_bind_Some _ _ _ _ _ Hon).
  destruct (emits_int i V Hi (mkDW (dw_stream s) (dw_objects s) r')) as (s' & bs & Hw & Hs' & Hd & Hx' & Hg & He);
    [done|]. exists s', bs. split_and!; [done|done|done| |done|].
  - by eapply recorder_extends_trans.
  - intros T HT. exists i. split_and!; [done| |by apply (He T)].
    apply HP. by eapply agrees_extends.
Qed.

Lemma emits_handle h V :
  valid_oop h →
  emits (write_handle h) V (λ T bs, ∃ i, is_jint i ∧ code_oop_at T i = object_of h ∧ bs = enc_int i) V.
Proof.
  intros Hh. apply (emits_find _ _ (λ T i, code_oop_at T i = object_of h)). intros r Hr.
  destruct (rec_find_oop_spec r h Hr Hh) as (i & r' & E & ? & ? & Ho & H1 & H2).
  exists i, r'. split_and!; try done. intros T [HT _]. by apply HT.
Qed.

Lemma emits_metadata h V :
  valid_metadata h →
  emits (write_metadata h) V (λ T bs, ∃ i, is_jint i ∧ code_metadata_at T i = h ∧ bs = enc_int i) V.
Proof.
  intros Hh. apply (emits_find _ _ (λ T i, code_metadata_at T i = h)). intros r Hr.
  destruct (rec_find_metadata_spec r h Hr Hh) as (i & r' & E & ? & ? & Ho & H1 & H2).
  exists i, r'. split_and!; try done. intros T [_ HT]. by apply HT.
Qed.

Lemma objects_lookup V s p o :
  writer_ok V s → H !! p = Some o → dw_objects s !! p = Some (marked V p o).
Proof. intros (_ & _ & _ & Ho). apply Ho. Qed.

(** Marking an object as visited writes nothing. *)
Lemma emits_mark V p o m E V' :
  H !! p = Some o →
  emits m ({[p]} ∪ V) E V' →
  emits (put_object p (mark_visited (marked V p o)) ;; m) V E V'.
Proof.
  intros Hp Hm s (Hws & Hr & HV & Ho). unfold put_object, mbind, M_bind.
  destruct (Hm (mkDW (dw_stream s) (<[p := mark_visited (marked V p o)]> (dw_objects s)) (dw_recorder s)))
    as (s' & bs & ? & ? & ? & ? & Hg & ?).
  - split_and!; [done|done| |].
    + intros q [->%elem_of_singleton|?]%elem_of_union; [by apply elem_of_dom|by apply HV].
    + intros q o' Hq. cbn [dw_objects]. destruct (decide (p = q)) as [<-|Hne].
      * rewrite lookup_insert_eq. simplify_eq. unfold mark_visited, marked. cbn.
        do 2 f_equal. symmetry. apply bool_decide_eq_true. set_solver.
      * rewrite lookup_insert_ne by done. rewrite (Ho q o' Hq). unfold marked. do 2 f_equal.
        apply bool_decide_ext. set_solver.
  - exists s', bs. split_and!; try done. unfold same_graph in *. rewrite Hg. cbn [dw_objects].
    rewrite fmap_insert. apply insert_id. rewrite lookup_fmap, (Ho p o Hp). done.
Qed.

(** Values are written as the format says with nesting below [n]. *)
Definition writes_below (n : nat) : Prop :=
  ∀ V v, V ⊆ dom H → (unwritten H V < n)%nat → value_ok valid_oop H v →
    ∃ V', V ⊆ V' ∧ V' ⊆ dom H ∧
      emits (write_on n v) V (λ T bs, enc_value object_of T H n V v bs V') V'.

Lemma emits_foreach {A} (w : A → M (DebugInfoWriter R) unit)
    (E : CodeTables → gset Z → A → list Z → gset Z → Prop) (ok : A → Prop) n V vs :
  (∀ V v, V ⊆ dom H → (unwritten H V < n)%nat → ok v →
     ∃ V', V ⊆ V' ∧ V' ⊆ dom H ∧ emits (w v) V (λ T bs, E T V v bs V') V') →
  Forall ok vs → V ⊆ dom H → (unwritten H V < n)%nat →
  ∃ V', V ⊆ V' ∧ V' ⊆ dom H ∧
    emits (mforeach w vs) V (λ T bs, enc_list (E T) V vs bs V') V'.
Proof.
  intros Hwrite Hvs HV Hn. revert V HV Hn. induction Hvs as [|v vs Hv _ IH]; intros V HV Hn.
  - exists V. split_and!; [done..|]. eapply emits_weaken; [|apply emits_ret].
    intros T bs ->. constructor.
  - destruct (Hwrite V v HV Hn Hv) as (V1 & HV1 & Hd1 & He1).
    destruct (IH V1 Hd1) as (V2 & HV2 & Hd2 & He2).
    { pose proof (unwritten_mono H V V1 HV1). lia. }
    exists V2. split_and!; [by etrans|done|]. cbn [mforeach].
    eapply emits_weaken; [|by eapply emits_bind].
    intros T bs (b1 & b2 & -> & ? & ?). by econstructor.
Qed.

Lemma emits_get_object V p o (f : ObjectValue → M (DebugInfoWriter R) unit) E V' :
  H !! p = Some o → emits (f (marked V p o)) V E V' → emits (get_object p ≫= f) V E V'.
Proof.
  intros Hp Hf s Hs.
  erewrite M_bind_Some by (unfold get_object; rewrite (objects_lookup V s p o Hs Hp); done).
  by apply Hf.
Qed.

(** Writing an integer in front. *)
Lemma emits_tag c m V V' (E : CodeTables → list Z → Prop) :
  is_jint c → emits m V E V' →
  emits (dw_write_int c ;; m) V (λ T bs, ∃ b, bs = enc_int c ++ b ∧ E T b) V'.
Proof.
  intros Hc Hm. eapply emits_weaken; [|eapply emits_bind; [by apply emits_int|done]].
  intros T bs (b1 & b2 & -> & -> & ?). by exists b2.
Qed.

(** An object that has been written is written as its id. *)
Lemma write_visited_emits n V p o :
  graph_ok valid_oop H → H !! p = Some o → p ∈ V →
  emits (ObjectValue_write_on (write_on n) p) V
    (λ T bs, enc_value object_of T H (S n) V (ObjectPointer p) bs V) V.
Proof.
  intros [HG _] Ho Hp. destruct (HG p o Ho) as (Hid & _).
  apply (emits_get_object _ _ o); [done|]. cbn [ov_visited marked ov_id].
  rewrite bool_decide_true by done.
  eapply emits_weaken; [|by apply emits_tag; [|by apply emits_int]].
  intros T bs (b & -> & ->). exists o. split_and!; [done..|]. by rewrite decide_True.
Qed.

Lemma write_object_emits n V p o :
  graph_ok valid_oop H → writes_below n → V ⊆ dom H → (unwritten H V < S n)%nat →
  H !! p = Some o → p ∉ V →
  ∃ V', V ⊆ V' ∧ V' ⊆ dom H ∧
    emits (ObjectValue_write_on (write_on n) p) V
      (λ T bs, enc_value object_of T H (S n) V (ObjectPointer p) bs V') V'.
Proof.
  intros [HG _] Hbelow HV Hn Ho Hp. destruct (HG p o Ho) as (Hid & Hlen & (k & Hk & Hkok) & Hfs).
  pose proof (unwritten_mark H V p ltac:(eauto) Hp) as Hlt.
  assert ({[p]} ∪ V ⊆ dom H) as HV0.
  { apply union_subseteq. split; [|done]. apply singleton_subseteq_l. by apply elem_of_dom. }
  destruct (Hbelow ({[p]} ∪ V) k HV0 ltac:(lia) Hkok) as (V1 & HV1 & Hd1 & He1).
  pose proof (unwritten_mono H _ _ HV1).
  destruct (emits_foreach (write_on n) (λ T, enc_value object_of T H n) _ n V1 (ov_field_values o)
    Hbelow Hfs Hd1 ltac:(lia)) as (V2 & HV2 & Hd2 & He2).
  exists V2. split_and!; [set_solver|done|].
  apply (emits_get_object _ _ o); [done|]. cbn [ov_visited marked ov_id ov_klass ov_field_values].
  rewrite bool_decide_false by done. apply emits_mark; [done|].
  eapply emits_weaken; [|apply emits_tag; [done|apply emits_tag; [done|]];
    rewrite Hk; apply (emits_bind (write_on n k) _ _ V1); [done|by apply emits_tag]].
  intros T bs (b & -> & b' & -> & b1 & b2' & -> & Hb1 & b2 & -> & Hb2).
  exists o. split_and!; [done..|]. rewrite decide_False by done.
  exists k, b1, V1, b2. by split_and!.
Qed.

Lemma write_on_emits n V v :
  graph_ok valid_oop H → V ⊆ dom H → (unwritten H V < n)%nat → value_ok valid_oop H v →
  ∃ V', V ⊆ V' ∧ V' ⊆ dom H ∧
    emits (write_on n v) V (λ T bs, enc_value object_of T H n V v bs V') V'.
Proof.
  intros HG. revert V v. induction n as [|n IH]; intros V v HV Hn Hv; [lia|].
  destruct v as [l|c|c|c|h|o|p]; cbn [write_on value_ok] in *; [..|done|].
  1-5: exists V; split_and!; [done..|].
  - eapply emits_weaken; [|apply emits_tag; [done|by apply (emits_codec _ _ _ _ (Codec0 := location_codec))]].
    by intros T bs (b & -> & ->).
  - eapply emits_weaken; [|apply emits_tag; [done|by apply (emits_codec _ _ _ _ (Codec0 := signed_int_codec))]].
    by intros T bs (b & -> & ->).
  - eapply emits_weaken; [|apply emits_tag; [done|by apply (emits_codec _ _ _ _ (Codec0 := long_codec))]].
    by intros T bs (b & -> & ->).
  - eapply emits_weaken; [|apply emits_tag; [done|by apply (emits_codec _ _ _ _ (Codec0 := double_codec))]].
    by intros T bs (b & -> & ->).
  - eapply emits_weaken; [|apply emits_tag; [done|by apply emits_handle]].
    intros T bs (b & -> & i & ? & ? & ->). by exists i.
  - destruct Hv as [o Ho]. destruct (decide (p ∈ V)) as [Hp|Hp].
    + exists V. split_and!; [done..|]. by eapply write_visited_emits.
    + eapply write_object_emits; eauto.
Qed.
End write_spec.

(** ** Reading inverts the format *)

Section read_spec.
Context (object_of : Z → Z) (T : CodeTables) (H : gmap Z ObjectValue).
Context (Hids : ∀ p q o o', H !! p = Some o → H !! q = Some o' → ov_id o = ov_id o' → p = q).
Implicit Types (O : gmap Z ObjectValue) (P : list Z) (V : gset Z).

(** The object with an id among those read. *)
Definition in_pool O P (id q : Z) : Prop :=
  q ∈ P ∧ ∃ o, O !! q = Some o ∧ ov_id o = id.

(** The value [v'] that was read is the value [v] that was written; an object
    is the one with the same id. *)
Definition same_value O P (v v' : ScopeValue) : Prop :=
  match v, v' with
  | LocationValue l, LocationValue l' => l = l'
  | ConstantIntValue c, ConstantIntValue c' => c = c'
  | ConstantLongValue c, ConstantLongValue c' => c = c'
  | ConstantDoubleValue c, ConstantDoubleValue c' => c = c'
  | ConstantOopWriteValue h, ConstantOopReadValue o => o = object_of h
  | ObjectPointer p, ObjectPointer q => ∃ o, H !! p = Some o ∧ in_pool O P (ov_id o) q
  | _, _ => False
  end.

(** The object [p] has been read with all its fields. *)
Definition same_object O P (p : Z) : Prop :=
  ∃ o q o', H !! p = Some o ∧ q ∈ P ∧ O !! q = Some o' ∧ ov_id o' = ov_id o ∧
    (∃ k k', ov_klass o = Some k ∧ ov_klass o' = Some k' ∧ same_value O P k k') ∧
    Forall2 (same_value O P) (ov_field_values o) (ov_field_values o').

(** The pool holds exactly the objects [V], each once. *)
Definition pool_ok V O P : Prop :=
  V ⊆ dom H ∧
  (∀ q, q ∈ P → ∃ p o o', p ∈ V ∧ H !! p = Some o ∧ O !! q = Some o' ∧ ov_id o' = ov_id o) ∧
  (∀ p o, p ∈ V → H !! p = Some o → ∃ q, in_pool O P (ov_id o) q) ∧
  (∀ id q q', in_pool O P id q → in_pool O P id q' → q = q').

(** Objects stay; those outside [X] stay as they are. *)
Definition grows (X : gset Z) O P O' P' : Prop :=
  P `prefix_of` P' ∧
  ∀ q o, O !! q = Some o →
    (q ∉ X → O' !! q = Some o) ∧ ∃ o', O' !! q = Some o' ∧ ov_id o' = ov_id o.

Lemma grows_refl X O P : grows X O P O P.
Proof. split; [done|]. eauto. Qed.

Lemma grows_trans X O P O1 P1 O2 P2 :
  grows X O P O1 P1 → grows X O1 P1 O2 P2 → grows X O P O2 P2.
Proof.
  intros [Hp1 H1] [Hp2 H2]. split; [by etrans|]. intros q o Hq.
  destruct (H1 q o Hq) as [Hk1 (o1 & Ho1 & Hi1)]. destruct (H2 q o1 Ho1) as [_ (o2 & Ho2 & Hi2)].
  split; [|exists o2; split; [done|congruence]].
  intros HX. by apply (H2 q o (Hk1 HX)).
Qed.

Lemma grows_weaken X Y O P O' P' : X ⊆ Y → grows X O P O' P' → grows Y O P O' P'.
Proof.
  intros HXY [Hp Hg]. split; [done|]. intros q o Hq. destruct (Hg q o Hq) as [H1 H2].
  split; [|done]. intros HY. apply H1. set_solver.
Qed.

Lemma in_pool_grows X O P O' P' id q : grows X O P O' P' → in_pool O P id q → in_pool O' P' id q.
Proof.
  intros [Hp Hg] [Hq (o & Ho & <-)]. split.
  - destruct Hp as [k ->]. apply elem_of_app. by left.
  - destruct (Hg q o Ho) as [_ (o' & ? & ?)]. eauto.
Qed.

Lemma same_value_grows X O P O' P' v v' :
  grows X O P O' P' → same_value O P v v' → same_value O' P' v v'.
Proof.
  intros Hg. destruct v, v'; simpl; try done. intros (o & Ho & Hq). exists o. split; [done|].
  by eapply in_pool_grows.
Qed.

(** An object that is complete stays complete while others are read. *)
Lemma same_object_grows X O P O' P' p :
  grows X O P O' P' →
  (∀ o q, H !! p = Some o → in_pool O P (ov_id o) q → q ∉ X) →
  same_object O P p → same_object O' P' p.
Proof.
  intros Hg HX (o & q & o' & Ho & Hq & Ho' & Hid & (k & k' & Hk & Hk' & Hkk) & Hfs).
  exists o, q, o'. split_and!; [done| | |done| |].
  - destruct Hg as [[l ->] _]. apply elem_of_app. by left.
  - apply (proj2 Hg q o' Ho'). apply (HX o); [done|]. split; [done|]. eauto.
  - exists k, k'. split_and!; [done..|]. by eapply same_value_grows.
  - eapply Forall2_impl; [done|]. intros v v'. by apply same_value_grows with X.
Qed.

Lemma on_rstream_reads {A} (m : M CompressedReadStream A) bs a buf p O P :
  reads m bs a → bytes_at buf p bs →
  on_rstream m (mkDR (mkRS buf p) O P) = Some (a, mkDR (mkRS buf (p + zlen bs)) O P).
Proof. intros Hm Hb. unfold on_rstream. simpl. by rewrite (Hm _ _ Hb). Qed.

Lemma find_cached_spec V O P p o :
  pool_ok V O P → p ∈ V → H !! p = Some o →
  ∃ q, find_cached (ov_id o) O (reverse P) = Some q ∧ in_pool O P (ov_id o) q.
Proof.
  intros (_ & Hall & Hin & _) HpV Ho. destruct (Hin p o HpV Ho) as (q & Hq & o' & Ho' & Hid).
  assert (∀ l, (∀ x, x ∈ l → x ∈ P) → q ∈ l → ∃ r, find_cached (ov_id o) O l = Some r ∧ in_pool O P (ov_id o) r) as Hl.
  { induction l as [|x l IH]; intros Hsub Hx; [by apply elem_of_nil in Hx|]. simpl.
    destruct (Hall x) as (_ & _ & ox & _ & _ & Hox & _); [apply Hsub; by left|]. rewrite Hox. simpl.
    destruct (Z.eqb_spec (ov_id ox) (ov_id o)) as [Heq|Hne].
    - exists x. split; [done|]. split; [apply Hsub; by left|]. eauto.
    - apply IH; [intros y Hy; apply Hsub; by right|].
      apply elem_of_cons in Hx as [<-|]; [congruence|done]. }
  apply Hl; [intros x; by rewrite elem_of_reverse|by rewrite elem_of_reverse].
Qed.

(** [m] reads [bs], written for the value [v], and the new objects in it. *)
Definition reads_value (m : M DebugInfoReader ScopeValue) V v bs V' : Prop :=
  ∀ buf p O P, pool_ok V O P → bytes_at buf p bs →
  ∃ v' O' P', m (mkDR (mkRS buf p) O P) = Some (v', mkDR (mkRS buf (p + zlen bs)) O' P') ∧
    grows ∅ O P O' P' ∧ pool_ok V' O' P' ∧ same_value O' P' v v' ∧
    ∀ x, x ∈ V' ∖ V → same_object O' P' x.

Lemma pool_ok_alloc V O P p o :
  pool_ok V O P → H !! p = Some o → p ∉ V →
  let q := fresh (dom O) in
  let O' := <[q := new_object_value (ov_id o)]> O in
  pool_ok ({[p]} ∪ V) O' (P ++ [q]) ∧ grows ∅ O P O' (P ++ [q]).
Proof.
  intros (HV & Hall & Hin & Hu) Ho Hp q O'.
  assert (O !! q = None) as Hq by (apply not_elem_of_dom, is_fresh).
  assert (∀ r, r ∈ P → O' !! r = O !! r) as Hsame.
  { intros r Hr. apply lookup_insert_ne. intros <-.
    destruct (Hall _ Hr) as (_ & _ & o' & _ & _ & Ho' & _). congruence. }
  assert (∀ id r, in_pool O' (P ++ [q]) id r ↔ in_pool O P id r ∨ (id = ov_id o ∧ r = q)) as Hpool.
  { intros id r. unfold in_pool. rewrite elem_of_app, list_elem_of_singleton. split.
    - intros [[Hr| ->] (o' & Ho' & Hid)]; [left; rewrite Hsame in Ho' by done; eauto|right].
      unfold O' in Ho'. rewrite lookup_insert_eq in Ho'. by simplify_eq.
    - intros [[Hr (o' & Ho' & Hid)]|[-> ->]].
      + split; [by left|]. exists o'. by rewrite Hsame.
      + split; [by right|]. eexists. unfold O'. by rewrite lookup_insert_eq. }
  split; [split_and!|split].
  - apply union_subseteq. split; [|done]. apply singleton_subseteq_l. by apply elem_of_dom.
  - intros r [Hr| ->%list_elem_of_singleton]%elem_of_app.
    + destruct (Hall r Hr) as (p' & o' & o'' & ? & ? & ? & ?). exists p', o', o''.
      split_and!; [set_solver|done| |done]. by rewrite Hsame.
    + exists p, o, (new_object_value (ov_id o)). split_and!; [set_solver|done| |done].
      apply lookup_insert_eq.
  - intros p' o' [->%elem_of_singleton|Hp']%elem_of_union Ho'.
    + exists q. apply Hpool. right. split; [congruence|done].
    + destruct (Hin p' o' Hp' Ho') as (r & Hr). exists r. apply Hpool. by left.
  - intros id r r' [Hr|[-> ->]]%Hpool [Hr'|[Hid ->]]%Hpool; [by eapply Hu|exfalso..|done].
    + destruct Hr as [Hr (o' & Ho' & Hid')]. destruct (Hall r Hr) as (p' & op & o'' & Hp' & Hop & Ho'' & Hi).
      apply Hp. rewrite (Hids p p' o op); [done|done|done|]. congruence.
    + destruct Hr' as [Hr (o' & Ho' & Hid')]. destruct (Hall r' Hr) as (p' & op & o'' & Hp' & Hop & Ho'' & Hi).
      apply Hp. rewrite (Hids p p' o op); [done|done|done|]. congruence.
  - by apply prefix_app_r.
  - intros r o' Hr. assert (r ≠ q) by congruence. unfold O'. rewrite lookup_insert_ne by done. eauto.
Qed.

(** Changing an object but not its id. *)
Lemma pool_ok_update V O P q o o' :
  pool_ok V O P → O !! q = Some o → ov_id o' = ov_id o →
  pool_ok V (<[q := o']> O) P ∧ grows {[q]} O P (<[q := o']> O) P.
Proof.
  intros (HV & Hall & Hin & Hu) Hq Hid.
  assert (∀ r x, O !! r = Some x → ∃ x', <[q := o']> O !! r = Some x' ∧ ov_id x' = ov_id x) as Hfw.
  { intros r x Hr. destruct (decide (q = r)) as [<-|].
    - rewrite lookup_insert_eq. exists o'. split; [done|congruence].
    - rewrite lookup_insert_ne by done. eauto. }
  assert (∀ id r, in_pool (<[q := o']> O) P id r → in_pool O P id r) as Hbw.
  { intros id r [Hr (x & Hx & <-)]. split; [done|]. destruct (decide (q = r)) as [<-|].
    - rewrite lookup_insert_eq in Hx. simplify_eq. eauto.
    - rewrite lookup_insert_ne in Hx by done. eauto. }
  split; [split_and!; [done| | |]|split; [done|]].
  - intros r Hr. destruct (Hall r Hr) as (p & op & x & ? & ? & Hx & Hi).
    destruct (Hfw r x Hx) as (x' & ? & ?). exists p, op, x'. split_and!; [done..|congruence].
  - intros p op Hp Hop. destruct (Hin p op Hp Hop) as (r & Hr & x & Hx & Hi).
    destruct (Hfw r x Hx) as (x' & ? & ?). exists r. split; [done|]. exists x'. split; [done|congruence].
  - eauto.
  - intros r x Hr. split; [|by apply Hfw]. intros Hne.
    rewrite lookup_insert_ne; [done|set_solver].
Qed.

(** The slot of an object not in [V] is not one that was in the pool. *)
Lemma slot_apart X V O P O' P' q x :
  pool_ok V O P → grows X O P O' P' → q ∈ P → x ∉ V →
  ∀ o r, H !! x = Some o → in_pool O' P' (ov_id o) r → r ∉ ({[q]} : gset Z).
Proof.
  intros (_ & Hall & _) [_ Hg] Hq Hx o r Ho [_ (o' & Ho' & Hid)] ->%elem_of_singleton.
  destruct (Hall q Hq) as (p & op & oq & Hp & Hop & Hoq & Hi).
  destruct (Hg q oq Hoq) as [_ (oq' & Hoq' & Hi')]. simplify_eq.
  apply Hx. rewrite (Hids x p o op); [done..|congruence].
Qed.

Lemma update_object_eq q f st O P o :
  O !! q = Some o → update_object q f (mkDR st O P) = Some (tt, mkDR st (<[q := f o]> O) P).
Proof. intros Hq. unfold update_object. simpl. by rewrite Hq. Qed.

Lemma enc_list_subseteq {A} (E : gset Z → A → list Z → gset Z → Prop) V vs bs V' :
  (∀ V v bs V', E V v bs V' → V ⊆ V') → enc_list E V vs bs V' → V ⊆ V'.
Proof. intros HE. induction 1; [done|]. etrans; [by eapply HE|done]. Qed.

Lemma enc_value_subseteq n V v bs V' : enc_value object_of T H n V v bs V' → V ⊆ V'.
Proof.
  clear Hids. revert V v bs V'. induction n as [|n IH]; intros V v bs V'; [done|].
  destruct v; cbn [enc_value]; [by intros (_ & _ & ->)..|by intros (? & _ & _ & _ & ->)|done|].
  intros (o & _ & _ & Hd). case_decide; [by destruct Hd as [_ ->]|].
  destruct Hd as (k & b1 & V1 & b2 & _ & _ & H1 & H2 & _).
  apply IH in H1. apply enc_list_subseteq in H2; [set_solver|done].
Qed.

Lemma read_fields_spec n V vs bs V' buf p O P q o0 :
  (∀ V v bs V', enc_value object_of T H n V v bs V' → reads_value (read_from T n) V v bs V') →
  enc_list (enc_value object_of T H n) V vs bs V' →
  pool_ok V O P → bytes_at buf p bs → q ∈ P → O !! q = Some o0 →
  ∃ vs' O' P',
    read_fields (read_from T n) (length vs) q (mkDR (mkRS buf p) O P)
      = Some (tt, mkDR (mkRS buf (p + zlen bs)) O' P') ∧
    grows {[q]} O P O' P' ∧ pool_ok V' O' P' ∧
    O' !! q = Some (mkOV (ov_id o0) (ov_klass o0) (ov_field_values o0 ++ vs') (ov_value o0) (ov_visited o0)) ∧
    Forall2 (same_value O' P') vs vs' ∧ (∀ x, x ∈ V' ∖ V → same_object O' P' x).
Proof.
  intros Hread Henc. revert p O P o0.
  induction Henc as [V|V v vs b bs V1 V2 Hv Hvs IH]; intros p O P o0 Hok Hb Hq Ho0.
  { exists [], O, P. split; [unfold zlen; simpl; by rewrite Z.add_0_r|].
    split; [apply grows_refl|]. split; [done|]. rewrite app_nil_r.
    split_and!; [by destruct o0|constructor|set_solver]. }
  apply bytes_at_app in Hb as [Hb1 Hb2].
  destruct (Hread V v b V1 Hv buf p O P Hok Hb1) as (v' & O1 & P1 & Hr & Hg1 & Hok1 & Hsv & Hnew1).
  cbn [length read_fields]. rewrite (M_bind_Some _ _ _ _ _ Hr).
  assert (O1 !! q = Some o0) as Ho1 by (apply (proj2 Hg1 q o0 Ho0); set_solver).
  assert (q ∈ P1) as Hq1 by (destruct Hg1 as [[l ->] _]; apply elem_of_app; by left).
  rewrite (M_bind_Some _ _ _ _ _ (update_object_eq q (append_field v') _ _ _ o0 Ho1)).
  destruct (pool_ok_update V1 O1 P1 q o0 (append_field v' o0) Hok1 Ho1 eq_refl) as [Hok1' Hgu].
  destruct (IH (p + zlen b) _ P1 (append_field v' o0) Hok1' Hb2 Hq1) as
    (vs' & O2 & P2 & Hr2 & Hg2 & Hok2 & Ho2 & Hsvs & Hnew2); [apply lookup_insert_eq|].
  exists (v' :: vs'), O2, P2.
  assert (grows {[q]} O1 P1 O2 P2) as Hg12 by (by eapply grows_trans).
  split_and!; [| | |..].
  - unfold mbind, M_bind in Hr2 |- *. rewrite Hr2. by rewrite zlen_app, Z.add_assoc.
  - eapply grows_trans; [|done]. eapply grows_weaken; [|done]. set_solver.
  - done.
  - rewrite Ho2. unfold append_field. simpl. by rewrite <- app_assoc.
  - constructor; [by eapply same_value_grows|done].
  - intros x Hx. destruct (decide (x ∈ V1)) as [Hx1|Hx1]; [|apply Hnew2; set_solver].
    assert (x ∉ V) as HxV by set_solver.
    eapply (same_object_grows {[q]} O1 P1); [done| |apply Hnew1; set_solver].
    by eapply (slot_apart ∅ V O P).
Qed.

Lemma dr_read_int_eq c buf p O P :
  is_jint c → bytes_at buf p (enc_int c) →
  dr_read_int (mkDR (mkRS buf p) O P) = Some (c, mkDR (mkRS buf (p + zlen (enc_int c))) O P).
Proof. intros Hc Hb. apply on_rstream_reads; [by apply read_int_reads|done]. Qed.

(** Values without objects leave the pool as it is. *)
Lemma reads_simple (m : M DebugInfoReader ScopeValue) V v bs v' :
  (∀ buf p O P, bytes_at buf p bs →
     m (mkDR (mkRS buf p) O P) = Some (v', mkDR (mkRS buf (p + zlen bs)) O P)) →
  (∀ O P, same_value O P v v') →
  reads_value m V v bs V.
Proof.
  intros Hm Hv buf p O P Hok Hb. exists v', O, P. split_and!; [by apply Hm|apply grows_refl|done|done|set_solver].
Qed.

(** The dispatch of [read_from] on a code. *)
Lemma read_from_code n c bs (v' : ScopeValue) {A} (m : M CompressedReadStream A) (f : A → ScopeValue) a buf p O P :
  is_jint c → reads m bs a → f a = v' → bytes_at buf p (enc_int c ++ bs) →
  (∀ st, read_from_cases T (read_from T n) c st = (y ← on_rstream m; mret (f y)) st) →
  read_from T (S n) (mkDR (mkRS buf p) O P)
    = Some (v', mkDR (mkRS buf (p + zlen (enc_int c ++ bs))) O P).
Proof.
  intros Hc Hm <- [Hb1 Hb2]%bytes_at_app Hcase. cbn [read_from].
  rewrite (M_bind_Some _ _ _ _ _ (dr_read_int_eq c buf p O P Hc Hb1)).
  rewrite Hcase, (M_bind_Some _ _ _ _ _ (on_rstream_reads m bs a _ _ _ _ Hm Hb2)).
  by rewrite zlen_app, Z.add_assoc.
Qed.

Lemma read_cached_spec n V p o :
  H !! p = Some o → p ∈ V → is_jint (ov_id o) →
  reads_value (read_from T (S n)) V (ObjectPointer p)
    (enc_int OBJECT_ID_CODE ++ enc_int (ov_id o)) V.
Proof.
  intros Ho Hp Hid buf pos O P Hok [Hb1 Hb2]%bytes_at_app.
  destruct (find_cached_spec V O P p o Hok Hp Ho) as (q & Hf & Hq).
  exists (ObjectPointer q), O, P. split_and!; [|apply grows_refl|done|by exists o|set_solver].
  cbn [read_from]. rewrite (M_bind_Some _ _ _ _ _ (dr_read_int_eq OBJECT_ID_CODE _ _ _ _ ltac:(done) Hb1)).
  change (read_from_cases T (read_from T n) OBJECT_ID_CODE) with get_cached_object.
  unfold get_cached_object. rewrite (M_bind_Some _ _ _ _ _ (dr_read_int_eq _ _ _ _ _ Hid Hb2)).
  rewrite M_bind_get, (M_bind_lift _ _ _ _ Hf), zlen_app, Z.add_assoc. done.
Qed.

(** An object that is read is complete; [V1] is what its class has added. *)
Lemma read_object_spec n V V1 V2 p o k b1 b2 :
  (∀ V v bs V', enc_value object_of T H n V v bs V' → reads_value (read_from T n) V v bs V') →
  H !! p = Some o → is_jint (ov_id o) → p ∉ V → ov_klass o = Some k →
  is_jint (zlen (ov_field_values o)) →
  enc_value object_of T H n ({[p]} ∪ V) k b1 V1 →
  enc_list (enc_value object_of T H n) V1 (ov_field_values o) b2 V2 →
  reads_value (read_object_value (read_from T n)) V (ObjectPointer p)
    (enc_int (ov_id o) ++ b1 ++ enc_int (zlen (ov_field_values o)) ++ b2) V2.
Proof.
  intros Hread Ho Hid Hp Hk Hlen He1 He2 buf pos O P Hok Hb.
  apply bytes_at_app in Hb as [Hb0 Hb]. apply bytes_at_app in Hb as [Hb1 Hb].
  apply bytes_at_app in Hb as [Hb2 Hb3].
  destruct (pool_ok_alloc V O P p o Hok Ho Hp) as [Hok0 Hg0].
  set (q := fresh (dom O)) in *. set (O0 := <[q := new_object_value (ov_id o)]> O) in *.
  assert (O0 !! q = Some (new_object_value (ov_id o))) as Hq0 by apply lookup_insert_eq.
  assert (q ∈ P ++ [q]) as HqP by (apply elem_of_app; right; by left).
  destruct (Hread _ _ _ _ He1 buf _ O0 (P ++ [q]) Hok0 Hb1) as (k' & O1 & P1 & Hr1 & Hg1 & Hok1 & Hsk & Hnew1).
  assert (O1 !! q = Some (new_object_value (ov_id o))) as Hq1 by (apply (proj2 Hg1 q); [done|set_solver]).
  assert (q ∈ P1) as HqP1 by (destruct Hg1 as [[l ->] _]; apply elem_of_app; by left).
  destruct (pool_ok_update V1 O1 P1 q _ (set_klass k' (new_object_value (ov_id o))) Hok1 Hq1 eq_refl) as [Hok1' Hgu].
  destruct (read_fields_spec n V1 (ov_field_values o) b2 V2 buf _ _ P1 q _ Hread He2 Hok1' Hb3 HqP1
    (lookup_insert_eq _ _ _)) as (vs' & O2 & P2 & Hr2 & Hg2 & Hok2 & Hq2 & Hsvs & Hnew2).
  pose proof (grows_trans _ _ _ _ _ _ _ Hgu Hg2) as Hg12.
  exists (ObjectPointer q), O2, P2. split_and!.
  - unfold read_object_value. rewrite (M_bind_Some _ _ _ _ _ (dr_read_int_eq _ _ _ _ _ Hid Hb0)).
    erewrite (M_bind_Some (alloc_pooled _)) by done. cbn [dr_stream dr_objects dr_pool]. fold q O0.
    unfold read_object, mbind, M_bind. rewrite Hr1, (update_object_eq _ _ _ _ _ _ Hq1).
    rewrite (dr_read_int_eq _ _ _ _ _ Hlen Hb2).
    assert (Z.to_nat (zlen (ov_field_values o)) = length (ov_field_values o)) as -> by (unfold zlen; lia).
    rewrite Hr2. by rewrite !zlen_app, !Z.add_assoc.
  - split; [|intros r x Hr].
    + etrans; [apply Hg0|]. etrans; [apply Hg1|apply Hg12].
    + assert (r ≠ q) as Hne by (intros ->; unfold q in Hr; by rewrite (not_elem_of_dom_1 _ _ (is_fresh (dom O))) in Hr).
      destruct (proj2 Hg0 r x Hr) as [H1 _]. destruct (proj2 Hg1 r x (H1 ltac:(set_solver))) as [H2 _].
      destruct (proj2 Hg12 r x (H2 ltac:(set_solver))) as [H3 _].
      specialize (H3 ltac:(set_solver)). eauto.
  - done.
  - exists o. split; [done|]. split; [destruct Hg12 as [[l ->] _]; apply elem_of_app; by left|]. eauto.
  - assert (same_object O2 P2 p) as Hsp.
    { exists o, q. eexists. split_and!; [done| |done|done| |done].
      - destruct Hg12 as [[l ->] _]. apply elem_of_app. by left.
      - exists k, k'. split_and!; [done|done|]. by eapply same_value_grows. }
    intros x Hx. destruct (decide (x = p)) as [->|Hxp]; [done|].
    destruct (decide (x ∈ V1)) as [Hx1|Hx1]; [|apply Hnew2; set_solver].
    assert (x ∉ {[p]} ∪ V) as HxV by set_solver.
    eapply (same_object_grows {[q]} O1 P1); [done| |apply Hnew1; set_solver].
    by eapply (slot_apart ∅ ({[p]} ∪ V) O0 (P ++ [q])).
Qed.

Lemma read_from_spec n V v bs V' :
  enc_value object_of T H n V v bs V' → reads_value (read_from T n) V v bs V'.
Proof.
  revert V v bs V'. induction n as [|n IH]; intros V v bs V' He; [done|].
  destruct v as [l|c|c|c|h|o|p]; cbn [enc_value] in He.
  - destruct He as (Hl & -> & ->). apply (reads_simple _ _ _ _ (LocationValue l)); [|by intros]. intros buf p O P Hb.
    eapply (read_from_code n LOCATION_CODE _ _ Location_read LocationValue); [done|by apply codec_read|done..].
  - destruct He as (Hl & -> & ->). apply (reads_simple _ _ _ _ (ConstantIntValue c)); [|by intros]. intros buf p O P Hb.
    eapply (read_from_code n CONSTANT_INT_CODE _ _ read_signed_int ConstantIntValue);
      [done|by apply signed_int_codec|done..].
  - destruct He as (Hl & -> & ->). apply (reads_simple _ _ _ _ (ConstantLongValue c)); [|by intros]. intros buf p O P Hb.
    eapply (read_from_code n CONSTANT_LONG_CODE _ _ read_long ConstantLongValue);
      [done|by apply long_codec|done..].
  - destruct He as (Hl & -> & ->). apply (reads_simple _ _ _ _ (ConstantDoubleValue c)); [|by intros]. intros buf p O P Hb.
    eapply (read_from_code n CONSTANT_DOUBLE_CODE _ _ read_double ConstantDoubleValue);
      [done|by apply double_codec|done..].
  - destruct He as (i & Hi & Hoop & -> & ->).
    apply (reads_simple _ _ _ _ (ConstantOopReadValue (object_of h))); [|by intros]. intros buf p O P Hb.
    eapply (read_from_code n CONSTANT_OOP_CODE _ _ read_int (λ i, ConstantOopReadValue (code_oop_at T i)));
      [done|by apply read_int_reads| |done|].
    + simpl. by rewrite Hoop.
    + intros st. change (read_from_cases T (read_from T n) CONSTANT_OOP_CODE) with
        (o ← read_oop T; mret (ConstantOopReadValue o)).
      unfold read_oop, dr_read_int, mbind, M_bind. by destruct (on_rstream read_int st) as [[]|].
  - done.
  - destruct He as (o & Ho & Hid & Hd). case_decide as Hp.
    + destruct Hd as [-> ->]. by apply read_cached_spec.
    + destruct Hd as (k & b1 & V1 & b2 & Hk & Hlen & He1 & He2 & ->).
      intros buf pos O P Hok [Hb1 Hb2]%bytes_at_app.
      destruct (read_object_spec n V V1 V' p o k b1 b2 IH Ho Hid Hp Hk Hlen He1 He2 buf _ O P Hok Hb2)
        as (v' & O' & P' & Hr & Hrest).
      exists v', O', P'. split; [|done]. cbn [read_from].
      rewrite (M_bind_Some _ _ _ _ _ (dr_read_int_eq OBJECT_CODE _ _ _ _ ltac:(done) Hb1)).
      change (read_from_cases T (read_from T n) OBJECT_CODE) with (read_object_value (read_from T n)).
      rewrite Hr. by rewrite (zlen_app (enc_int OBJECT_CODE)), Z.add_assoc.
Qed.

(** Reading a sequence of values. *)
Lemma read_list_spec {A B} (E : gset Z → A → list Z → gset Z → Prop) (m : M DebugInfoReader B)
    (same : gmap Z ObjectValue → list Z → A → B → Prop) V vs bs V' buf p O P :
  (∀ X O P O' P' v v', grows X O P O' P' → same O P v v' → same O' P' v v') →
  (∀ V v bs V' buf p O P, E V v bs V' → pool_ok V O P → bytes_at buf p bs →
     ∃ v' O' P', m (mkDR (mkRS buf p) O P) = Some (v', mkDR (mkRS buf (p + zlen bs)) O' P') ∧
       grows ∅ O P O' P' ∧ pool_ok V' O' P' ∧ same O' P' v v' ∧
       ∀ x, x ∈ V' ∖ V → same_object O' P' x) →
  enc_list E V vs bs V' → pool_ok V O P → bytes_at buf p bs →
  ∃ vs' O' P',
    mrepeat (length vs) m (mkDR (mkRS buf p) O P)
      = Some (vs', mkDR (mkRS buf (p + zlen bs)) O' P') ∧
    grows ∅ O P O' P' ∧ pool_ok V' O' P' ∧ Forall2 (same O' P') vs vs' ∧
    ∀ x, x ∈ V' ∖ V → same_object O' P' x.
Proof.
  intros Hgrows Hread Henc. revert p O P.
  induction Henc as [V|V v vs b bs V1 V2 Hv Hvs IH]; intros p O P Hok Hb.
  { exists [], O, P. split; [unfold zlen; simpl; by rewrite Z.add_0_r|].
    split_and!; [apply grows_refl|done|constructor|set_solver]. }
  apply bytes_at_app in Hb as [Hb1 Hb2].
  destruct (Hread V v b V1 buf p O P Hv Hok Hb1) as (v' & O1 & P1 & Hr & Hg1 & Hok1 & Hsv & Hnew1).
  destruct (IH _ O1 P1 Hok1 Hb2) as (vs' & O2 & P2 & Hr2 & Hg2 & Hok2 & Hsvs & Hnew2).
  exists (v' :: vs'), O2, P2. split_and!.
  - cbn [length mrepeat]. unfold mbind, M_bind. rewrite Hr, Hr2. by rewrite zlen_app, Z.add_assoc.
  - by eapply grows_trans.
  - done.
  - constructor; [by eapply Hgrows|done].
  - intros x Hx. destruct (decide (x ∈ V1)) as [Hx1|Hx1]; [|apply Hnew2; set_solver].
    eapply (same_object_grows ∅ O1 P1); [done|set_solver|apply Hnew1; set_solver].
Qed.

Lemma read_values_spec n V vs bs V' buf p O P :
  enc_list (enc_value object_of T H n) V vs bs V' → pool_ok V O P → bytes_at buf p bs →
  ∃ vs' O' P',
    mrepeat (length vs) (read_from T n) (mkDR (mkRS buf p) O P)
      = Some (vs', mkDR (mkRS buf (p + zlen bs)) O' P') ∧
    grows ∅ O P O' P' ∧ pool_ok V' O' P' ∧ Forall2 (same_value O' P') vs vs' ∧
    ∀ x, x ∈ V' ∖ V → same_object O' P' x.
Proof.
  apply read_list_spec; [intros *; apply same_value_grows|]. intros V1 v b V2 buf1 p1 O1 P1 He.
  by apply read_from_spec.
Qed.

(** The format does not depend on the bound on the nesting. *)
Lemma enc_list_impl {A} (E E' : gset Z → A → list Z → gset Z → Prop) V vs bs V' :
  (∀ V v bs V', E V v bs V' → E' V v bs V') → enc_list E V vs bs V' → enc_list E' V vs bs V'.
Proof. intros HE. induction 1; [constructor|]. econstructor; eauto. Qed.

Lemma enc_value_mono n m V v bs V' :
  (n ≤ m)%nat → enc_value object_of T H n V v bs V' → enc_value object_of T H m V v bs V'.
Proof.
  revert m V v bs V'. induction n as [|n IH]; intros [|m] V v bs V' Hle He; try done; [lia|].
  destruct v as [| | | | | |p]; try done. cbn [enc_value] in *.
  destruct He as (o & Ho & Hid & Hd). exists o. split_and!; [done..|].
  case_decide; [done|]. destruct Hd as (k & b1 & V1 & b2 & ? & ? & H1 & H2 & ->).
  exists k, b1, V1, b2. split_and!; try done.
  - apply IH; [lia|done].
  - eapply enc_list_impl; [|done]. intros. apply IH; [lia|done].
Qed.

Lemma enc_values_mono n m V vs bs V' :
  (n ≤ m)%nat → enc_list (enc_value object_of T H n) V vs bs V' →
  enc_list (enc_value object_of T H m) V vs bs V'.
Proof. intros Hle. apply enc_list_impl. intros. by eapply enc_value_mono. Qed.

(** *** Monitors *)

Definition enc_monitor n V (m : MonitorValue) bs V' : Prop :=
  is_juint (mv_basic_lock m) ∧ ∃ b, enc_value object_of T H n V (mv_owner m) b V' ∧
    bs = enc_location (mv_basic_lock m) ++ b ++ enc_byte (Z.b2z (mv_eliminated m)).

Definition same_monitor O P (m m' : MonitorValue) : Prop :=
  same_value O P (mv_owner m) (mv_owner m') ∧ mv_basic_lock m' = mv_basic_lock m ∧
  mv_eliminated m' = mv_eliminated m.

Lemma read_monitor_spec n V m bs V' buf p O P :
  enc_monitor n V m bs V' → pool_ok V O P → bytes_at buf p bs →
  ∃ m' O' P',
    read_MonitorValue T n (mkDR (mkRS buf p) O P) = Some (m', mkDR (mkRS buf (p + zlen bs)) O' P') ∧
    grows ∅ O P O' P' ∧ pool_ok V' O' P' ∧ same_monitor O' P' m m' ∧
    ∀ x, x ∈ V' ∖ V → same_object O' P' x.
Proof.
  intros (Hl & b & He & ->) Hok Hb. apply bytes_at_app in Hb as [Hb1 Hb]. apply bytes_at_app in Hb as [Hb2 Hb3].
  destruct (read_from_spec n V _ b V' He buf _ O P Hok Hb2) as (v' & O' & P' & Hr & Hg & Hok' & Hsv & Hnew).
  exists (mkMonitor v' (mv_basic_lock m) (mv_eliminated m)), O', P'. split_and!; [|done..].
  unfold read_MonitorValue.
  rewrite (M_bind_Some _ _ _ _ _ (on_rstream_reads _ _ _ _ _ _ _ (codec_read _ Hl) Hb1)).
  rewrite (M_bind_Some _ _ _ _ _ Hr).
  assert (reads read_bool (enc_byte (Z.b2z (mv_eliminated m))) (Z.b2z (mv_eliminated m))) as Hrb.
  { apply (bool_codec). by destruct (mv_eliminated m). }
  rewrite (M_bind_Some _ _ _ _ _ (on_rstream_reads _ _ _ _ _ _ _ Hrb Hb3)).
  rewrite !zlen_app, !Z.add_assoc. by destruct (mv_eliminated m).
Qed.

Lemma read_monitors_spec n V ms bs V' buf p O P :
  enc_list (enc_monitor n) V ms bs V' → pool_ok V O P → bytes_at buf p bs →
  ∃ ms' O' P',
    mrepeat (length ms) (read_MonitorValue T n) (mkDR (mkRS buf p) O P)
      = Some (ms', mkDR (mkRS buf (p + zlen bs)) O' P') ∧
    grows ∅ O P O' P' ∧ pool_ok V' O' P' ∧ Forall2 (same_monitor O' P') ms ms' ∧
    ∀ x, x ∈ V' ∖ V → same_object O' P' x.
Proof.
  apply read_list_spec; [|intros *; apply read_monitor_spec].
  intros X O1 P1 O2 P2 m m' Hg (Hv & ? & ?). split_and!; [by eapply same_value_grows|done..].
Qed.
End read_spec.

Lemma write_monitor_emits {R} `{!IndexRecorder R} `{!IndexRecorderLaws R} H n V m :
  graph_ok valid_oop H → V ⊆ dom H → (unwritten H V < n)%nat →
  value_ok valid_oop H (mv_owner m) → is_juint (mv_basic_lock m) →
  ∃ V', V ⊆ V' ∧ V' ⊆ dom H ∧
    emits H (MonitorValue_write_on (R := R) n m) V (λ T bs, enc_monitor object_of T H n V m bs V') V'.
Proof.
  intros HG HV Hn Hv Hl. destruct (write_on_emits H n V (mv_owner m) HG HV Hn Hv) as (V' & HV' & Hd & He).
  exists V'. split_and!; [done..|]. unfold MonitorValue_write_on.
  eapply emits_weaken; [|eapply emits_bind; [by apply (emits_codec _ _ _ _ _ (Codec0 := location_codec))|
    eapply emits_bind; [done|apply (emits_codec _ _ _ _ _ (Codec0 := bool_codec)); by destruct (mv_eliminated m)]]].
  intros T bs (b1 & b2 & -> & -> & b3 & b4 & -> & Hb & ->). split; [done|]. by exists b3.
Qed.
