(* ===== verification/RecorderIndex.v ===== *)
(** * The oop recorder keeps what debugging information relies on
    (src/share/vm/code/oopRecorder.hpp: OopRecorder)

    [OopRecorder], with or without de-duplication, implements the interface
    [IndexRecorder] that the debug-information writer is verified against.
    The handles used are among a finite set, so the table cannot fill up. *)

From stdpp Require Import base numbers list gmap fin_sets.
From S2P Require Import Prelude CompressedStream VMReg GrowableArray OopRecorder ObjectLookup DebugInfo.
Local Open Scope Z_scope.

(** An oop recorder in a VM whose [non_oop_word()] is [nw]. *)
Definition RecorderIn (nw : Z) (W : Type) `{!HandleWorld W} : Type := OL.OopRecorder W.

#[global] Instance oop_recorder_index nw W `{!HandleWorld W} : IndexRecorder (RecorderIn nw W) := {
  rec_find_oop h := OL.find_oop_index (W := W) nw h;
  rec_find_metadata h := OL.find_metadata_index (W := W) nw h
}.

Section table_bound.
Context (nw : Z).
Implicit Types (t : VR.table) (U : gset Z).

(** A table filled by [find_index] alone, from handles in [U]. *)
Definition found_only U t : Prop := ∀ i h f, zget t i = Some (h, f) → f = true ∧ h ∈ U.

Lemma zget_lookup {A} (l : list A) (i : nat) x : l !! i = Some x → zget l (Z.of_nat i) = Some x.
Proof. by rewrite zget_nat. Qed.

Lemma found_only_bound U t : VR.table_ok nw t → found_only U t → zlen t ≤ Z.of_nat (size U).
Proof.
  intros [_ Hu] Hf. assert (NoDup t.*1) as Hnd.
  { apply NoDup_alt. intros i j h Hi Hj.
    apply list_lookup_fmap_Some in Hi as ([h1 f1] & -> & E1), Hj as ([h2 f2] & Heq & E2). simpl in Heq. subst h2.
    apply zget_lookup in E1, E2. destruct (Hf _ _ _ E1) as [-> _], (Hf _ _ _ E2) as [-> _].
    pose proof (Hu _ _ _ E1 E2). lia. }
  unfold zlen. apply inj_le. rewrite <- (length_fmap fst t), <- (size_list_to_set (C := gset Z) _ Hnd).
  apply subseteq_size. intros h Hh%elem_of_list_to_set.
  apply list_elem_of_lookup_1 in Hh as [i Hi]. apply list_lookup_fmap_Some in Hi as ([h' f] & -> & E). apply zget_lookup in E. by apply (Hf _ _ _ E).
Qed.

Lemma table_find_prefix h t :
  t `prefix_of` (VR.table_find h t).2 ∧
  (h ≠ 0 → ∃ f, zget (VR.table_find h t).2 ((VR.table_find h t).1 - 1) = Some (h, f)) ∧
  (h = 0 → (VR.table_find h t).1 = 0) ∧ 0 ≤ (VR.table_find h t).1 ≤ zlen t + 1.
Proof.
  unfold VR.table_find. case_decide as Hh; [simpl; split_and!; [done|done|done|unfold zlen; lia..]|].
  destruct (list_find _ t) as [[i e]|] eqn:Hl; simpl.
  - apply list_find_Some in Hl as (Hi & -> & _). rewrite Z.add_simpl_r, zget_nat.
    pose proof (lookup_lt_Some _ _ _ Hi). split_and!; [done|eauto|done|unfold zlen; lia..].
  - rewrite Z.add_simpl_r, VR.zget_last. split_and!; [by apply prefix_app_r|eauto|done|unfold zlen; lia..].
Qed.

Lemma found_only_find U h t :
  found_only U t → h = 0 ∨ h ∈ U → found_only U (VR.table_find h t).2.
Proof.
  intros Hf Hh. unfold VR.table_find. case_decide; [done|]. destruct Hh as [?|Hh]; [done|].
  destruct (list_find _ t) as [[i e]|]; [done|].
  intros i h' f [[_ Hi]|[_ [= -> ->]]]%VR.zget_snoc; [by eapply Hf|done].
Qed.

(** What the recorder has at an index in use. *)
Definition entry_at (v : VR.ValueRecorder) (i : Z) : option Z :=
  if decide (i = 0 ∨ 0 < i < VR.count v) then VR.at_ i v else None.

Lemma entry_at_spec v t i :
  VR.represents nw v t → entry_at v i = if decide (i = 0) then Some 0 else fst <$> zget t (i - 1).
Proof.
  intros Hv. unfold entry_at.
  destruct (decide (i = 0)) as [->|Hi]; [by rewrite decide_True by (by left)|].
  assert (0 < i < VR.count v ↔ 0 < i ≤ zlen t) as Hcount.
  { destruct Hv as [_ Hv]. unfold VR.count. destruct (VR.handles v) as [hs|].
    - destruct Hv as (Hok & He & _). unfold GA.ga_length, first_index.
      rewrite <- GA.elems_length, He by done. unfold zlen. rewrite length_fmap. lia.
    - destruct Hv as [-> _]. unfold zlen. simpl. lia. }
  case_decide as Hd.
  - destruct Hd as [?|Hd]; [done|]. apply (VR.at_spec nw); [done|]. by apply Hcount.
  - destruct (zget t (i - 1)) eqn:Hz; [|done]. apply zget_Some in Hz.
    destruct Hd. right. apply Hcount. lia.
Qed.

Lemma entry_at_prefix v v' t t' i h :
  VR.represents nw v t → VR.represents nw v' t' → t `prefix_of` t' →
  entry_at v i = Some h → entry_at v' i = Some h.
Proof.
  intros Hv Hv' [k ->]. rewrite (entry_at_spec _ _ _ Hv), (entry_at_spec _ _ _ Hv').
  case_decide; [done|]. destruct (zget t (i - 1)) as [[h1 f]|] eqn:Hz; [|done].
  rewrite zget_app_l by (apply zget_Some in Hz; lia). by rewrite Hz.
Qed.

(** One [find_index] on a value recorder. *)
Lemma find_index_entry U v t h :
  VR.represents nw v t → found_only U t → h = 0 ∨ (h ∈ U ∧ VR.is_real nw h = true) →
  Z.of_nat (size U) < 2 ^ 30 - 1 →
  ∃ i v' t', VR.find_index nw h v = Some (i, v') ∧ VR.represents nw v' t' ∧ found_only U t' ∧
    t `prefix_of` t' ∧ is_jint i ∧ entry_at v' i = Some h.
Proof.
  intros Hv Hf Hh HU. pose proof (found_only_bound U t (proj1 Hv) Hf) as Hb.
  destruct (VR.find_index_spec nw v t h) as (v' & E & Hv'); [done|tauto|unfold VR.index_limit; lia|].
  destruct (table_find_prefix h t) as (Hp & Hn & Hz & Hr).
  eexists _, v', _. split_and!; [done|done|apply found_only_find; [done|tauto]|done| |].
  - unfold in_s. simpl. lia.
  - rewrite (entry_at_spec _ _ _ Hv'). destruct (decide (h = 0)) as [->|Hne].
    + by rewrite decide_True by by apply Hz.
    + destruct (Hn Hne) as [f Hget]. rewrite Hget. case_decide as Hi0; [|done].
      rewrite Hi0 in Hget. apply zget_Some in Hget. lia.
Qed.
End table_bound.

(** ** Instances *)

Section laws.
Context (nw : Z) {W : Type} `{!HandleWorld W} `{!HandleLaws W}.
(** The handles and the metadata pointers the compilation uses. *)
Context (used_oops used_metadata : gset Z).
Context (Hso : Z.of_nat (size used_oops) < 2 ^ 30 - 1) (Hsm : Z.of_nat (size used_metadata) < 2 ^ 30 - 1).
(** The object each handle denotes; NULL denotes none. *)
Context (obj : Z → Z) (Hnull : obj 0 = 0).
Implicit Types (r : RecorderIn nw W).

Definition uses (U : gset Z) (h : Z) : Prop := h = 0 ∨ (h ∈ U ∧ VR.is_real nw h = true).

Definition metadata_ok r : Prop :=
  ∃ tm, VR.represents nw (OL.metadata r) tm ∧ found_only used_metadata tm.

Definition index_metadata r (i : Z) : option Z := entry_at (OL.metadata r) i.

Lemma find_metadata_ok r h :
  metadata_ok r → uses used_metadata h →
  ∃ i v, OL.find_metadata_index nw h r
    = Some (i, OL.mkOR (OL.oops r) v (OL.object_lookup r) (OL.world r)) ∧
    (∃ tm, VR.represents nw v tm ∧ found_only used_metadata tm) ∧ is_jint i ∧
    entry_at v i = Some h ∧
    ∀ j o, entry_at (OL.metadata r) j = Some o → entry_at v j = Some o.
Proof.
  intros (tm & Hv & Hf) Hh.
  destruct (find_index_entry nw used_metadata (OL.metadata r) tm h) as (i & v & t' & E & Hv' & Hf' & Hp & Hi & He);
    [done..|].
  exists i, v. unfold OL.find_metadata_index, OL.on_metadata. rewrite E.
  split_and!; [done|by exists t'|done|done|]. intros j o. by eapply entry_at_prefix.
Qed.

(** *** Without de-duplication *)

Definition plain_ok r : Prop :=
  OL.object_lookup r = None ∧ metadata_ok r ∧
  ∃ t, VR.represents nw (OL.oops r) t ∧ found_only used_oops t.

#[program] Definition plain_laws : IndexRecorderLaws (RecorderIn nw W) := {|
  rec_ok := plain_ok;
  object_of := obj;
  valid_oop := uses used_oops;
  valid_metadata := uses used_metadata;
  rec_oop r i := obj <$> entry_at (OL.oops r) i;
  rec_metadata := index_metadata
|}.
Next Obligation.
  intros r h (Hl & Hm & t & Hv & Hf) Hh.
  destruct (find_index_entry nw used_oops (OL.oops r) t h) as (i & v & t' & E & Hv' & Hf' & Hp & Hi & He);
    [done..|].
  eexists i, (OL.mkOR v (OL.metadata r) (OL.object_lookup r) (OL.world r)). split_and!.
  - cbn. unfold OL.find_oop_index. rewrite M_bind_get, Hl. unfold OL.on_oops. rewrite E. cbn. by rewrite Hl.
  - split_and!; [done|done|by exists t'].
  - done.
  - cbn. by rewrite He.
  - cbn. intros j o (h' & Hh' & ->)%fmap_Some. by rewrite (entry_at_prefix nw _ v t t' _ _ Hv Hv' Hp Hh').
  - done.
Qed.
Next Obligation.
  intros r h (Hl & Hm & Ho) Hh. destruct (find_metadata_ok r h Hm Hh) as (i & v & E & Hm' & Hi & He & Hx).
  eexists i, _. split_and!; [exact E|done..].
Qed.

Lemma found_only_nil U : found_only U [].
Proof. intros i h f Hz. apply zget_Some in Hz. unfold zlen in Hz. simpl in Hz. lia. Qed.

Lemma new_plain_ok ar w : plain_ok (OL.new_oop_recorder ar false w).
Proof.
  split; [done|]. split; exists []; (split; [apply VR.new_recorder_represents|apply found_only_nil]).
Qed.

(** *** With de-duplication

    While no collection happens each used handle denotes its object; the table
    has one entry for each object met. *)

Definition dedup_ok r : Prop :=
  metadata_ok r ∧
  (∀ h, h ∈ used_oops → live (OL.world r) h ∧ resolve (OL.world r) h = obj h) ∧
  ∃ t es, OL.lookup_ok nw 0 r t es ∧ zlen es = zlen t ∧
    (∀ e, e ∈ es → OL.oop_value (OL.world r) e ∈ obj <$> elements used_oops) ∧
    (∀ i h f, zget t i = Some (h, f) → live (OL.world r) h).

Definition dedup_oop r (i : Z) : option Z :=
  h ← entry_at (OL.oops r) i; Some (if decide (i = 0) then 0 else resolve (OL.world r) h).

Lemma dedup_bound r t es :
  OL.lookup_ok nw 0 r t es → zlen es = zlen t →
  (∀ e, e ∈ es → OL.oop_value (OL.world r) e ∈ obj <$> elements used_oops) →
  zlen t + 1 < VR.index_limit.
Proof.
  intros (_ & _ & o & _ & _ & _ & [_ Hnd] & _) Hlen Hobj.
  assert ((length es ≤ size used_oops)%nat) as Hle.
  { rewrite <- (length_fmap (OL.oop_value (OL.world r))).
    replace (size used_oops) with (length (obj <$> elements used_oops)) by by rewrite length_fmap.
    apply submseteq_length, NoDup_submseteq; [done|]. intros x (e & -> & He)%list_elem_of_fmap.
    by apply Hobj. }
  unfold VR.index_limit. unfold zlen in *. lia.
Qed.

#[program] Definition dedup_laws : IndexRecorderLaws (RecorderIn nw W) := {|
  rec_ok := dedup_ok;
  object_of := obj;
  valid_oop h := h = 0 ∨ h ∈ used_oops;
  valid_metadata := uses used_metadata;
  rec_oop := dedup_oop;
  rec_metadata := index_metadata
|}.
Next Obligation.
  intros r h (Hm & Hu & t & es & Hok & Hlen & Hobj & Hlive) Hh.
  assert (∃ o, OL.object_lookup r = Some o) as [o Ho] by (destruct Hok as (_ & _ & o & Ho & _); eauto).
  assert (VR.represents nw (OL.oops r) t) as Hv by apply Hok.
  assert (OL.find_oop_index nw h r = OL.lookup_find_index nw h r) as Hfind.
  { unfold OL.find_oop_index. by rewrite M_bind_get, Ho. }
  destruct Hh as [->|Hh].
  { exists 0, r. cbn. rewrite Hfind. split; [done|]. split; [split; [done|]; split; [done|]; by exists t, es|].
    split; [done|]. split; [|done].
    unfold dedup_oop. rewrite (entry_at_spec nw _ t) by done. cbn. by rewrite Hnull. }
  destruct (Hu h Hh) as [Hlh Hrh].
  destruct (OL.lookup_find_index_spec nw 0 r t es h) as (i & r' & t' & es' & E & Hok' & Hfound);
    [done|done|done|by eapply dedup_bound|].
  destruct Hfound as [Hp Hmeta Hl' Hx Hsub Hbal Hnew Hliv' (e & He & Hei & Heo)].
  assert (VR.represents nw (OL.oops r') t') as Hv' by apply Hok'.
  assert (∀ h, h ∈ used_oops → live (OL.world r') h ∧ resolve (OL.world r') h = obj h) as Hu'.
  { intros h' Hh'. destruct (Hu h' Hh') as [H1 H2]. destruct (proj2 Hx h' H1) as [H3 H4].
    split; [done|congruence]. }
  exists i, r'. cbn. rewrite Hfind. split_and!; [done| | | | |].
  - split; [unfold metadata_ok; by rewrite Hmeta|]. split; [done|]. exists t', es'.
    split_and!; [done|lia| |].
    + intros e' He'. destruct (Hnew e' He') as [Hin|Heq].
      * destruct Hok as (_ & _ & o' & _ & _ & _ & [H1 _] & _). destruct (H1 e' Hin) as [Hl1 _].
        unfold OL.oop_value. rewrite (proj2 (proj2 Hx _ Hl1)). by apply Hobj.
      * rewrite Heq, (proj2 (Hu' h Hh)). apply list_elem_of_fmap. exists h. split; [done|].
        by apply elem_of_elements.
    + intros j h' f Hj. destruct (Hliv' j h' f Hj) as [Hj'|]; [|done]. apply Hx. by eapply Hlive.
  - pose proof (dedup_bound r t es Hok Hlen Hobj). destruct Hok' as (_ & _ & o' & _ & _ & _ & [H1 _] & _).
    destruct (H1 e He) as (_ & Hi1 & Hz). apply zget_Some in Hz. unfold VR.index_limit in *.
    unfold in_s. simpl. lia.
  - destruct Hok' as (_ & _ & o' & _ & _ & _ & [H1 _] & _). destruct (H1 e He) as (_ & Hi1 & Hz).
    unfold dedup_oop. rewrite (entry_at_spec nw _ t') by done. subst i.
    rewrite decide_False by lia. rewrite Hz. cbn. rewrite decide_False by lia.
    rewrite <- (proj2 (Hu' h Hh)), <- Heo. done.
  - intros j x. unfold dedup_oop. rewrite (entry_at_spec nw _ t), (entry_at_spec nw _ t') by done.
    case_decide; [done|]. destruct (zget t (j - 1)) as [[h' f]|] eqn:Hz; [|done].
    destruct Hp as [k ->]. rewrite zget_app_l by (apply zget_Some in Hz; lia). rewrite Hz. cbn.
    intros [= <-]. f_equal. apply Hx. by eapply Hlive.
  - unfold index_metadata. by rewrite Hmeta.
Qed.
Next Obligation.
  intros r h (Hm & Hu & Ho) Hh. destruct (find_metadata_ok r h Hm Hh) as (i & v & E & Hm' & Hi & He & Hx).
  eexists i, _. split_and!; [exact E|done..].
Qed.

Lemma new_dedup_ok ar w :
  world_ok w → (∀ h, h ∈ used_oops → live w h ∧ resolve w h = obj h) →
  dedup_ok (OL.new_oop_recorder ar true w).
Proof.
  intros Hw Hu. split; [exists []; split; [apply VR.new_recorder_represents|apply found_only_nil]|].
  split; [done|]. exists [], []. split_and!; [by apply OL.new_lookup_ok|done|by intros e ?%elem_of_nil|].
  intros i h f Hz. apply zget_Some in Hz. unfold zlen in Hz. simpl in Hz. lia.
Qed.
End laws.
