(* ===== verification/OopMap.v ===== *)
(** * Oop maps (src/share/vm/compiler/oopMap.hpp and .cpp)

    For each point of compiled code at which a collection may happen, an
    [OopMap] says which registers and stack slots hold object pointers.  The
    entries are kept in a compressed stream; [OopMapStream] reads them back. *)

From stdpp Require Import base numbers list gmap.
From S2P Require Import Prelude GlobalDefinitions CompressedStream VMReg.
Local Open Scope Z_scope.

(** ** OopMapValue *)

Record OopMapValue := mkOMV {
  omv_value : Z;          (* [_value], a short *)
  omv_content_reg : Z     (* [_content_reg], a short *)
}.

Definition type_bits : Z := 4.
Definition register_bits : Z := 16 - type_bits.
Definition type_shift : Z := 0.
Definition register_shift : Z := type_bits.
Definition right_n_bits (n : Z) : Z := Z.shiftl 1 n - 1.
Definition type_mask : Z := right_n_bits type_bits.
Definition type_mask_in_place : Z := Z.shiftl type_mask type_shift.
Definition register_mask : Z := right_n_bits register_bits.
Definition register_mask_in_place : Z := Z.shiftl register_mask register_shift.

Definition unused_value : Z := 0.
Definition oop_value : Z := 1.
Definition narrowoop_value : Z := 2.
Definition callee_saved_value : Z := 4.
Definition derived_oop_value : Z := 8.

Definition omv_set_value (value : Z) (o : OopMapValue) : OopMapValue :=
  mkOMV (s16 value) (omv_content_reg o).
Definition set_content_reg (r : VMReg) (o : OopMapValue) : OopMapValue :=
  mkOMV (omv_value o) (s16 r).
Definition omv_type (o : OopMapValue) : Z := mask_bits (omv_value o) type_mask_in_place.
Definition omv_reg (o : OopMapValue) : VMReg :=
  as_VMReg (Z.shiftr (mask_bits (omv_value o) register_mask_in_place) register_shift).
Definition content_reg (o : OopMapValue) : VMReg := as_VMReg (omv_content_reg o).
Definition is_oop (o : OopMapValue) : bool := omv_type o =? oop_value.
Definition is_narrowoop (o : OopMapValue) : bool := omv_type o =? narrowoop_value.
Definition is_callee_saved (o : OopMapValue) : bool := omv_type o =? callee_saved_value.
Definition is_derived_oop (o : OopMapValue) : bool := omv_type o =? derived_oop_value.
Definition legal_vm_reg_name (p : VMReg) : bool := p =? Z.land p register_mask.

Definition set_reg_type (p : VMReg) (t : Z) (o : OopMapValue) : OopMapValue :=
  omv_set_value (Z.lor (Z.shiftl p register_shift) t) o.

Definition omv_empty : OopMapValue := set_content_reg Bad (omv_set_value 0 (mkOMV 0 0)).
Definition new_omv (reg : VMReg) (t : Z) : OopMapValue :=
  set_content_reg Bad (set_reg_type reg t (mkOMV 0 0)).

Definition omv_write_on `{D : SizeArith} (o : OopMapValue) : M CompressedWriteStream unit :=
  write_int (omv_value o) ;;
  if is_callee_saved o || is_derived_oop o then write_int (content_reg o) else mret tt.

(** [read_from]; the content register of [o] stays where none is stored. *)
Definition omv_read_from (o : OopMapValue) : M CompressedReadStream OopMapValue :=
  v ← read_int;
  let o := omv_set_value v o in
  if is_callee_saved o || is_derived_oop o
  then r ← read_int; mret (set_content_reg (as_VMReg r) o)
  else mret o.

Definition is_register_loc (o : OopMapValue) : bool := is_reg (omv_reg o).
Definition is_stack_loc (o : OopMapValue) : bool := is_stack (omv_reg o).
Definition omv_stack_offset (o : OopMapValue) : Z := reg2stack (omv_reg o).

(** ** OopMap *)

(** The constructors leave the offset and the data size uninitialised ([None]). *)
Record OopMap := mkOM {
  om_pc_offset : option Z;
  om_omv_count : Z;
  om_omv_data_size : option Z;
  om_omv_data : option (list Z);                       (* NULL while it is built *)
  om_write_stream : option CompressedWriteStream       (* NULL once it is copied *)
}.

Definition new_oop_map (frame_size arg_count : Z) : OopMap :=
  mkOM None 0 None None (Some (new_write_stream 32)).

Definition on_write_stream (m : M CompressedWriteStream unit) : M OopMap unit := λ om,
  ws ← om_write_stream om; '(_, ws') ← m ws;
  Some (tt, mkOM (om_pc_offset om) (om_omv_count om) (om_omv_data_size om) (om_omv_data om) (Some ws')).
Definition increment_count : M OopMap unit := λ om,
  Some (tt, mkOM (om_pc_offset om) (om_omv_count om + 1) (om_omv_data_size om) (om_omv_data om)
                 (om_write_stream om)).
Definition set_offset (o : Z) (om : OopMap) : OopMap :=
  mkOM (Some o) (om_omv_count om) (om_omv_data_size om) (om_omv_data om) (om_write_stream om).

Section building.
Context `{D : SizeArith}.

Definition set_xxx (reg : VMReg) (x : Z) (optional : VMReg) : M OopMap unit :=
  let o := new_omv reg x in
  let o := if x =? callee_saved_value then set_content_reg optional o
           else if x =? derived_oop_value then set_content_reg optional o
           else o in
  on_write_stream (omv_write_on o) ;;
  increment_count.

Definition set_oop (reg : VMReg) : M OopMap unit := set_xxx reg oop_value Bad.
Definition set_value (reg : VMReg) : M OopMap unit := mret tt.
Definition set_narrowoop (reg : VMReg) : M OopMap unit := set_xxx reg narrowoop_value Bad.
Definition set_callee_saved (reg caller_machine_register : VMReg) : M OopMap unit :=
  set_xxx reg callee_saved_value caller_machine_register.
Definition set_derived_oop (reg derived_from_local_register : VMReg) : M OopMap unit :=
  if reg =? derived_from_local_register then set_oop reg
  else set_xxx reg derived_oop_value derived_from_local_register.
End building.

(** ** OopMapStream *)

Record OopMapStream := mkOMS {
  oms_stream : CompressedReadStream;
  oms_mask : Z;
  oms_size : Z;
  oms_position : Z;
  oms_valid_omv : bool;
  oms_omv : OopMapValue
}.

(** The bytes of the entries; a NULL dereference fails. *)
Definition omv_bytes (om : OopMap) : option (list Z) :=
  match om_omv_data om with
  | None => ws ← om_write_stream om; Some (ws_buffer ws)
  | Some d => Some d
  end.

Definition new_oms_mask (om : OopMap) (oop_types_mask : Z) : option OopMapStream :=
  b ← omv_bytes om;
  Some (mkOMS (mkRS b 0) oop_types_mask (om_omv_count om) 0 false omv_empty).
Definition new_oms (om : OopMap) : option OopMapStream := new_oms_mask om type_mask_in_place.

(** The loop [while (_position++ < _size)]; [n] is [_size - _position]. *)
Fixpoint find_next_loop (n : nat) (s : OopMapStream) : option OopMapStream :=
  match n with
  | O => Some (mkOMS (oms_stream s) (oms_mask s) (oms_size s) (oms_position s + 1) false (oms_omv s))
  | S n' =>
      '(o, st) ← omv_read_from (oms_omv s) (oms_stream s);
      if 0 <? Z.land (omv_type o) (oms_mask s)
      then Some (mkOMS st (oms_mask s) (oms_size s) (oms_position s + 1) true o)
      else find_next_loop n' (mkOMS st (oms_mask s) (oms_size s) (oms_position s + 1) (oms_valid_omv s) o)
  end.
Definition find_next (s : OopMapStream) : option OopMapStream :=
  find_next_loop (Z.to_nat (oms_size s - oms_position s)) s.

Definition is_done : M OopMapStream bool := λ s,
  s' ← (if negb (oms_valid_omv s) then find_next s else Some s);
  Some (negb (oms_valid_omv s'), s').
Definition next_omv : M OopMapStream unit := λ s, s' ← find_next s; Some (tt, s').

(** The loop [for (OopMapStream oms(..); !oms.is_done(); oms.next()) body(oms.current())],
    as a fold over a state; it goes round at most once per entry and once more. *)
Fixpoint oms_loop {X} (fuel : nat) (body : OopMapValue → M X unit) (s : OopMapStream) : M X unit :=
  λ x,
  match fuel with
  | O => None
  | S fuel' =>
      '(done, s) ← is_done s;
      if (done : bool) then Some (tt, x)
      else
        '(_, x) ← body (oms_omv s) x;
        '(_, s) ← next_omv s;
        oms_loop fuel' body s x
  end.

Definition oms_foreach {X} (body : OopMapValue → M X unit) (os : option OopMapStream) : M X unit :=
  λ x, s ← os; oms_loop (S (Z.to_nat (oms_size s))) body s x.

(** [OopMap::has_derived_pointer] (not in the product build). *)
Definition has_derived_pointer (om : OopMap) : option bool :=
  s ← new_oms_mask om derived_oop_value;
  '(done, _) ← is_done s;
  Some done.

(** ** Copying *)

(** The constructor with a [DeepCopyToken]. *)
Definition deep_copy `{D : SizeArith} (source : OopMap) : option OopMap :=
  let om := mkOM (om_pc_offset source) 0 None None
              (Some (new_write_stream (double (om_omv_count source)))) in
  '(_, om') ← oms_foreach (λ omv, on_write_stream (omv_write_on omv) ;; increment_count)
                (new_oms source) om;
  Some om'.

(** The map that [copy_to] leaves in the code blob. *)
Definition om_copy_to (om : OopMap) : option OopMap :=
  ws ← om_write_stream om;
  Some (mkOM (om_pc_offset om) (om_omv_count om) (Some (ws_position ws))
             (Some (take (Z.to_nat (ws_position ws)) (ws_buffer ws))) None).

(** [sizeof] in the 64-bit product build: three ints, padding, two pointers;
    two ints and a pointer. *)
Definition sizeof_OopMap : Z := 32.
Definition sizeof_OopMapSet : Z := 16.
Definition sizeof_pointer : Z := 8.
Definition align_pointer (size : Z) : Z :=
  let align := sizeof_pointer - 1 in Z.land (size + align) (Z.lnot align).

(** The same in [int] arithmetic. *)
Definition align_int (size : Z) : Z :=
  let align := sizeof_pointer - 1 in s32 (Z.land (s32 (size + align)) (Z.lnot align)).

Definition om_heap_size (om : OopMap) : option Z :=
  let size := sizeof_OopMap in
  data_size ← match om_write_stream om with
              | Some ws => Some (ws_position ws)
              | None => om_omv_data_size om
              end;
  let size := s32 (size + data_size) in
  Some (align_int size).

(** ** OopMapSet *)

Record OopMapSet := mkOMSet {
  oset_count : Z;
  oset_size : Z;
  oset_data : list (option OopMap)
}.

Definition MinOopMapAllocation : Z := 8.
Definition new_oop_map_set : OopMapSet :=
  mkOMSet 0 MinOopMapAllocation (replicate (Z.to_nat MinOopMapAllocation) None).

(** [memcpy] of [om_size()] pointers into an array of twice as many. *)
Definition grow_om_data `{D : SizeArith} : M OopMapSet unit := λ s,
  let new_size := double (oset_size s) in
  let n := Z.to_nat (oset_size s) in
  if decide (0 ≤ oset_size s ≤ zlen (oset_data s) ∧ oset_size s ≤ new_size)
  then Some (tt, mkOMSet (oset_count s) new_size
                   (take n (oset_data s) ++ replicate (Z.to_nat (new_size - oset_size s)) None))
  else None.

Definition oset_at (index : Z) (s : OopMapSet) : option OopMap := mjoin (zget (oset_data s) index).

Definition add_gc_map `{D : SizeArith} (pc_offset : Z) (map : OopMap) : M OopMapSet unit :=
  s ← mget;
  (if oset_size s <=? oset_count s then grow_om_data else mret tt) ;;
  let map := set_offset pc_offset map in
  s ← mget;
  d ← mlift (zset (oset_data s) (oset_count s) (Some map));
  mput (mkOMSet (oset_count s + 1) (oset_size s) d).

Definition oset_length (s : OopMapSet) : Z := oset_count s.

Definition singular_oop_map (s : OopMapSet) : option OopMap :=
  if oset_count s =? 1 then oset_at 0 s else None.

(** The scan of [find_map_at_offset]: the first map not before the offset. *)
Fixpoint find_map_loop (n : nat) (i pc_offset : Z) (s : OopMapSet) : option Z :=
  match n with
  | O => Some i
  | S n' =>
      m ← oset_at i s;
      offset ← om_pc_offset m;
      if pc_offset <=? offset then Some i else find_map_loop n' (i + 1) pc_offset s
  end.
Definition find_map_at_offset (pc_offset : Z) (s : OopMapSet) : option OopMap :=
  i ← find_map_loop (Z.to_nat (oset_count s)) 0 pc_offset s;
  oset_at i s.

(** The loop over the maps in [heap_size]. *)
Fixpoint heap_size_loop (n : nat) (i size : Z) (s : OopMapSet) : option Z :=
  match n with
  | O => Some size
  | S n' => m ← oset_at i s; h ← om_heap_size m; heap_size_loop n' (i + 1) (s32 (size + h)) s
  end.
Definition oset_heap_size (s : OopMapSet) : option Z :=
  let size := sizeof_OopMap in
  let size := align_int size in
  let size := s32 (size + oset_count s * sizeof_pointer) in
  heap_size_loop (Z.to_nat (oset_count s)) 0 size s.

(** [OopMapSet::copy_to]: the maps with the addresses they are copied to, and
    the first address after them. *)
Fixpoint copy_maps (n : nat) (i temp : Z) (s : OopMapSet) : option (list (Z * OopMap) * Z) :=
  match n with
  | O => Some ([], temp)
  | S n' =>
      map ← oset_at i s;
      map' ← om_copy_to map;
      h ← om_heap_size map;
      '(rest, last) ← copy_maps n' (i + 1) (temp + h) s;
      Some ((temp, map') :: rest, last)
  end.
Definition oset_copy_to (addr : Z) (s : OopMapSet) : option (Z * list (Z * OopMap) * Z) :=
  let temp := addr + sizeof_OopMapSet in
  let data := align_pointer temp in
  let temp := data + oset_count s * sizeof_pointer in
  '(maps, last) ← copy_maps (Z.to_nat (oset_count s)) 0 temp s;
  Some (data, maps, last).

(** ** Entries *)

Definition has_content (o : OopMapValue) : bool := is_callee_saved o || is_derived_oop o.

Definition omv_ok (o : OopMapValue) : Prop := is_jshort (omv_value o) ∧ is_jshort (omv_content_reg o).

Definition enc_omv (o : OopMapValue) : list Z :=
  enc_int (omv_value o) ++ if has_content o then enc_int (omv_content_reg o) else [].

(** Equal up to a content register that is not stored. *)
Definition omv_equiv (o o' : OopMapValue) : Prop :=
  omv_value o = omv_value o' ∧ (has_content o = true → omv_content_reg o = omv_content_reg o').

#[global] Instance omv_equiv_equivalence : Equivalence omv_equiv.
Proof.
  assert (∀ o o', omv_value o = omv_value o' → has_content o = has_content o') as Hc.
  { intros [v c] [v' c'] Hv. simpl in Hv. by subst. }
  split.
  - by split.
  - intros o o' [Hv Hr]. split; [done|]. intros H. symmetry. apply Hr. by rewrite (Hc o o').
  - intros o o' o'' [Hv Hr] [Hv' Hr']. split; [congruence|]. intros H.
    rewrite Hr by done. apply Hr'. by rewrite <- (Hc o o').
Qed.

#[global] Instance has_content_proper : Proper (omv_equiv ==> (=)) has_content.
Proof. intros [v c] [v' c'] [Hv _]. simpl in Hv. by subst. Qed.
#[global] Instance omv_type_proper : Proper (omv_equiv ==> (=)) omv_type.
Proof. intros [v c] [v' c'] [Hv _]. simpl in Hv. by subst. Qed.
#[global] Instance omv_reg_proper : Proper (omv_equiv ==> (=)) omv_reg.
Proof. intros [v c] [v' c'] [Hv _]. simpl in Hv. by subst. Qed.
#[global] Instance enc_omv_proper : Proper (omv_equiv ==> (=)) enc_omv.
Proof.
  intros o o' Heq. unfold enc_omv. rewrite <- (has_content_proper o o' Heq).
  destruct Heq as [-> Hr]. destruct (has_content o); [by rewrite Hr|done].
Qed.

Lemma omv_write_on_appends `{D : SizeArith} o : appends (omv_write_on o) tt (enc_omv o).
Proof.
  unfold omv_write_on, enc_omv, has_content. eapply appends_bind; [apply write_int_appends|].
  destruct (_ || _); [apply write_int_appends|apply appends_ret].
Qed.

Lemma omv_read_from_reads o0 o :
  omv_ok o → ∃ o', reads (omv_read_from o0) (enc_omv o) o' ∧ omv_equiv o' o.
Proof.
  intros [Hv Hr].
  assert (omv_set_value (omv_value o) o0 = mkOMV (omv_value o) (omv_content_reg o0)) as Hset.
  { unfold omv_set_value. by rewrite wrapS_id. }
  exists (mkOMV (omv_value o) (if has_content o then omv_content_reg o else omv_content_reg o0)). split.
  - unfold omv_read_from, enc_omv. eapply reads_bind; [apply read_int_reads; machine|].
    cbv zeta. rewrite Hset.
    change (is_callee_saved _ || is_derived_oop _) with (has_content o).
    destruct (has_content o); [|apply reads_ret].
    eapply reads_map; [apply read_int_reads; machine|]. unfold set_content_reg, as_VMReg.
    by rewrite wrapS_id.
  - split; [done|]. intros Hc. change (has_content o = true) in Hc. simpl. by rewrite Hc.
Qed.

(** *** Packing *)

Definition legal_type (t : Z) : Prop :=
  t ∈ [unused_value; oop_value; narrowoop_value; callee_saved_value; derived_oop_value].

Lemma set_reg_type_fields reg t o :
  0 ≤ reg ≤ register_mask → legal_type t →
  omv_type (set_reg_type reg t o) = t ∧ omv_reg (set_reg_type reg t o) = reg.
Proof.
  intros Hreg Ht. change register_mask with 4095 in Hreg.
  unfold omv_type, omv_reg, set_reg_type, omv_set_value, mask_bits, as_VMReg. cbn [omv_value].
  change type_mask_in_place with (Z.ones 4). change register_mask_in_place with (Z.shiftl (Z.ones 12) 4).
  change register_shift with 4.
  assert (0 ≤ t < 16) as Ht' by (repeat (apply elem_of_cons in Ht as [->|Ht]; [done|]); by apply elem_of_nil in Ht).
  rewrite Z.lor_comm, lor_shiftl_add by (done || lia).
  rewrite Z.land_ones by done. rewrite Z.shiftr_land, Z.shiftr_div_pow2 by done.
  change (Z.shiftr (Z.shiftl (Z.ones 12) 4) 4) with (Z.ones 12). rewrite Z.land_ones by done. machine.
Qed.

(** ** Reading the entries back *)

Definition enc_entries (l : list OopMapValue) : list Z := concat (enc_omv <$> l).

(** The map [om] has the entries [l]. *)
Definition has_entries (om : OopMap) (l : list OopMapValue) : Prop :=
  om_omv_count om = zlen l ∧ Forall omv_ok l ∧
  ∃ b, omv_bytes om = Some b ∧ bytes_at b 0 (enc_entries l).

Definition selects (mask : Z) (o : OopMapValue) : bool := 0 <? Z.land (omv_type o) mask.

(** The stream is in front of the entries [l]. *)
Definition in_front_of (s : OopMapStream) (mask : Z) (l : list OopMapValue) : Prop :=
  oms_mask s = mask ∧ Z.to_nat (oms_size s - oms_position s) = length l ∧ Forall omv_ok l ∧
  bytes_at (rs_buffer (oms_stream s)) (rs_position (oms_stream s)) (enc_entries l).

Lemma find_next_loop_spec n s mask l :
  in_front_of s mask l → n = length l →
  ∃ s', find_next_loop n s = Some s' ∧ oms_size s' = oms_size s ∧
    ((oms_valid_omv s' = false ∧ filter (λ o, selects mask o = true) l = [] ∧ in_front_of s' mask []) ∨
     (oms_valid_omv s' = true ∧ ∃ o l2, omv_equiv (oms_omv s') o ∧ in_front_of s' mask l2 ∧
        filter (λ o, selects mask o = true) l = o :: filter (λ o, selects mask o = true) l2)).
Proof.
  revert s l. induction n as [|n IH]; intros s l (Hm & Hpos & Hok & Hb) Hn.
  - destruct l; [|done]. cbn [find_next_loop]. eexists. split; [done|]. split; [done|]. left.
    split; [done|]. split; [done|]. split; [done|]. cbn [oms_size oms_position oms_stream].
    split; [simpl in *; lia|]. done.
  - destruct l as [|o l]; [done|]. apply Forall_cons in Hok as [Ho Hok].
    unfold enc_entries in Hb. rewrite fmap_cons in Hb. cbn [concat] in Hb. apply bytes_at_app in Hb as [Hb1 Hb2].
    destruct (omv_read_from_reads (oms_omv s) o Ho) as (o' & Hr & Heq).
    cbn [find_next_loop]. destruct (oms_stream s) as [buf p] eqn:Hst.
    cbn [rs_buffer rs_position] in Hb1, Hb2.
    rewrite (Hr _ _ Hb1). cbn [mbind option_bind].
    assert (selects mask o = (0 <? Z.land (omv_type o') (oms_mask s))) as Hsel.
    { unfold selects. by rewrite Heq, Hm. }
    rewrite <- Hsel. destruct (selects mask o) eqn:Hso.
    + eexists. split; [done|]. split; [done|]. right. split; [done|]. exists o, l.
      split; [done|]. split; [|by rewrite filter_cons_True].
      split; [done|]. cbn [oms_size oms_position oms_stream]. split; [simpl in *; lia|]. done.
    + rewrite filter_cons_False by by rewrite Hso. refine (IH (mkOMS _ _ _ _ _ _) l _ _); [|simpl in *; lia].
      split; [done|]. cbn [oms_size oms_position oms_stream]. split; [simpl in *; lia|]. done.
Qed.

(** [k] are the selected entries the loop still has to visit. *)
Definition to_visit (s : OopMapStream) (mask : Z) (k : list OopMapValue) : Prop :=
  ∃ l, in_front_of s mask l ∧
    if oms_valid_omv s
    then ∃ o, omv_equiv (oms_omv s) o ∧ k = o :: filter (λ o, selects mask o = true) l
    else k = filter (λ o, selects mask o = true) l.

Lemma find_next_to_visit s mask l :
  in_front_of s mask l →
  ∃ s', find_next s = Some s' ∧ to_visit s' mask (filter (λ o, selects mask o = true) l) ∧
    (oms_valid_omv s' = false ↔ filter (λ o, selects mask o = true) l = []).
Proof.
  intros Hs. unfold find_next.
  destruct (find_next_loop_spec _ s mask l Hs (proj1 (proj2 Hs))) as
    (s' & -> & _ & [(Hv & Hf & Hs')|(Hv & o & l2 & Heq & Hs' & Hf)]); exists s'; rewrite Hf, Hv.
  - split; [done|]. split; [|done]. exists []. by rewrite Hv.
  - split; [done|]. split; [|done]. exists l2. rewrite Hv. eauto.
Qed.

Lemma is_done_spec s mask k :
  to_visit s mask k →
  ∃ s', is_done s = Some (bool_decide (k = []), s') ∧
    ∀ o k', k = o :: k' → omv_equiv (oms_omv s') o ∧
      ∃ l, in_front_of s' mask l ∧ k' = filter (λ o, selects mask o = true) l.
Proof.
  intros (l & Hs & Hk). unfold is_done. destruct (oms_valid_omv s) eqn:Hv; simpl.
  - destruct Hk as (o & Heq & ->). exists s. rewrite Hv. split; [done|].
    intros o1 k1 [= <- <-]. eauto.
  - subst k. destruct (find_next_to_visit s mask l Hs) as (s' & -> & (l' & Hs' & Hk) & Hv'). simpl.
    exists s'. split.
    + f_equal. f_equal. destruct (oms_valid_omv s'); simpl; symmetry.
      * apply bool_decide_eq_false. intros Hn. by apply Hv' in Hn.
      * apply bool_decide_eq_true. by apply Hv'.
    + intros o k' Hok. destruct (oms_valid_omv s') eqn:Hvs.
      * destruct Hk as (o1 & Heq & Hk). rewrite Hok in Hk. injection Hk as -> ->. eauto.
      * rewrite (proj1 Hv' eq_refl) in Hok. done.
Qed.

Lemma oms_loop_spec {X} (body : OopMapValue → M X unit) fuel s mask k x :
  (∀ o o', o' ∈ k → omv_equiv o o' → body o = body o') →
  to_visit s mask k → (length k < fuel)%nat →
  oms_loop fuel body s x = mforeach body k x.
Proof.
  revert s k x. induction fuel as [|fuel IH]; intros s k x Hbody Hs Hlen; [lia|].
  cbn [oms_loop]. destruct (is_done_spec s mask k Hs) as (s' & -> & Hnext). cbn [mbind option_bind].
  destruct k as [|o k]; [done|]. rewrite bool_decide_false by done.
  destruct (Hnext o k eq_refl) as (Heq & l & Hl & ->). cbn [mforeach].
  unfold mbind at 3, M_bind. rewrite (Hbody _ _ ltac:(left) Heq).
  destruct (body o x) as [[[] x']|]; [|done]. cbn [mbind option_bind]. unfold next_omv.
  destruct (find_next_to_visit s' mask l Hl) as (s'' & -> & Hv & _). cbn [mbind option_bind].
  apply IH; [|done|simpl in Hlen; lia]. intros o1 o2 Ho2. apply Hbody. by right.
Qed.

(** The loop over a map visits the selected entries in order. *)
Lemma oms_foreach_spec {X} (body : OopMapValue → M X unit) om mask l x :
  (∀ o o', o' ∈ l → selects mask o' = true → omv_equiv o o' → body o = body o') →
  has_entries om l →
  oms_foreach body (new_oms_mask om mask) x
  = mforeach body (filter (λ o, selects mask o = true) l) x.
Proof.
  intros Hbody (Hc & Hok & b & Hb & Hbytes). unfold oms_foreach, new_oms_mask. rewrite Hb.
  cbn [mbind option_bind oms_size]. eapply oms_loop_spec; [by intros o o' [? ?]%list_elem_of_filter; apply Hbody| |].
  - exists l. split; [|done]. split; [done|]. cbn [oms_size oms_position oms_stream].
    split; [rewrite Hc; unfold zlen; lia|]. done.
  - rewrite Hc. unfold zlen. rewrite Nat2Z.id.
    pose proof (length_filter (λ o, selects mask o = true) l). lia.
Qed.

(** ** Building a map *)

(** A map that is being built, with the entries [l]. *)
Definition building (om : OopMap) (l : list OopMapValue) : Prop :=
  om_omv_data om = None ∧ om_omv_count om = zlen l ∧ Forall omv_ok l ∧
  ∃ ws, om_write_stream om = Some ws ∧ ws_ok ws ∧ ws_data ws = enc_entries l.

Lemma building_has_entries om l : building om l → has_entries om l.
Proof.
  intros (Hd & Hc & Hok & ws & Hws & Hwok & Hdata). split; [done|]. split; [done|].
  exists (ws_buffer ws). unfold omv_bytes. rewrite Hd, Hws. split; [done|].
  eapply bytes_at_mono; [apply ws_data_prefix|]. rewrite Hdata. apply (bytes_at_suffix []).
Qed.

Lemma new_oop_map_building f a : building (new_oop_map f a) [].
Proof. split_and!; [done..|]. by eexists. Qed.

Lemma enc_entries_snoc l o : enc_entries (l ++ [o]) = enc_entries l ++ enc_omv o.
Proof. unfold enc_entries. rewrite fmap_app, concat_app. simpl. by rewrite app_nil_r. Qed.

(** An entry takes at most two codings of an [int]. *)
Lemma enc_entries_length l : 0 ≤ zlen (enc_entries l) ≤ 10 * zlen l.
Proof.
  unfold enc_entries. induction l as [|o l IH]; [done|]. cbn [fmap list_fmap concat]. rewrite zlen_app.
  assert (0 ≤ zlen (enc_omv o) ≤ 10).
  { unfold enc_omv, enc_int. rewrite zlen_app.
    pose proof (unsigned5_length 4 (u32 (omv_value o))). pose proof (unsigned5_length 4 (u32 (omv_content_reg o))).
    destruct (has_content o); unfold zlen; cbn [length]; lia. }
  unfold zlen in *. cbn [length]. lia.
Qed.

Section building_spec.
Context `{D : SizeArith}.

Lemma write_entry_building om l o :
  building om l → omv_ok o → roomy (10 * (zlen l + 1)) →
  ∃ om', (on_write_stream (omv_write_on o) ;; increment_count) om = Some (tt, om') ∧
    building om' (l ++ [o]) ∧ om_pc_offset om' = om_pc_offset om.
Proof.
  intros (Hd & Hc & Hok & ws & Hws & Hwok & Hdata) Ho Hr.
  destruct (omv_write_on_appends o ws Hwok) as (ws' & Hw & Hwok' & Hd').
  { rewrite <- ws_data_length, Hdata, <- zlen_app, <- enc_entries_snoc by done.
    eapply roomy_le; [|done]. pose proof (enc_entries_length (l ++ [o])) as He. rewrite zlen_app in He. apply He. }
  unfold mbind, M_bind, on_write_stream. rewrite Hws. cbn [mbind option_bind]. rewrite Hw.
  eexists. split; [done|]. split; [|done]. split_and!; [done| | |].
  - cbn [om_omv_count]. rewrite Hc, zlen_app. done.
  - apply Forall_app. split; [done|]. by apply Forall_singleton.
  - exists ws'. split_and!; [done..|]. by rewrite Hd', Hdata, enc_entries_snoc.
Qed.

Inductive map_op :=
  | SetOop (reg : VMReg) | SetValue (reg : VMReg) | SetNarrowoop (reg : VMReg)
  | SetCalleeSaved (reg caller : VMReg) | SetDerivedOop (reg base : VMReg).

Definition exec_map_op (o : map_op) : M OopMap unit :=
  match o with
  | SetOop r => set_oop r
  | SetValue r => set_value r
  | SetNarrowoop r => set_narrowoop r
  | SetCalleeSaved r c => set_callee_saved r c
  | SetDerivedOop r b => set_derived_oop r b
  end.

(** What an entry says: its type, its register and its second register. *)
Definition omv_view (o : OopMapValue) : Z * VMReg * option VMReg :=
  (omv_type o, omv_reg o, if has_content o then Some (content_reg o) else None).

Definition map_op_view (o : map_op) : list (Z * VMReg * option VMReg) :=
  match o with
  | SetOop r => [(oop_value, r, None)]
  | SetValue r => []
  | SetNarrowoop r => [(narrowoop_value, r, None)]
  | SetCalleeSaved r c => [(callee_saved_value, r, Some c)]
  | SetDerivedOop r b => if decide (r = b) then [(oop_value, r, None)] else [(derived_oop_value, r, Some b)]
  end.

(** Registers that fit the entry's fields. *)
Definition map_op_ok (o : map_op) : Prop :=
  match o with
  | SetOop r | SetValue r | SetNarrowoop r => 0 ≤ r ≤ register_mask
  | SetCalleeSaved r c | SetDerivedOop r c => 0 ≤ r ≤ register_mask ∧ is_jshort c
  end.
#[global] Instance map_op_ok_dec o : Decision (map_op_ok o).
Proof. destruct o; simpl; apply _. Defined.

Lemma set_xxx_building om l reg x opt :
  building om l → 0 ≤ reg ≤ register_mask → legal_type x → is_jshort opt → roomy (10 * (zlen l + 1)) →
  ∃ om' o, set_xxx reg x opt om = Some (tt, om') ∧ building om' (l ++ [o]) ∧
    om_pc_offset om' = om_pc_offset om ∧
    omv_view o = (x, reg, if (x =? callee_saved_value) || (x =? derived_oop_value) then Some opt else None).
Proof.
  intros Hom Hreg Hx Hopt Hroom. unfold set_xxx.
  set (o := if x =? callee_saved_value then _ else _).
  assert (omv_value o = omv_value (set_reg_type reg x (mkOMV 0 0))) as Hv.
  { subst o. destruct (x =? callee_saved_value), (x =? derived_oop_value); done. }
  destruct (set_reg_type_fields reg x (mkOMV 0 0) Hreg Hx) as [Ht Hr].
  assert (omv_type o = x) as Hto by (unfold omv_type in *; by rewrite Hv).
  assert (omv_reg o = reg) as Hro by (unfold omv_reg in *; by rewrite Hv).
  assert (omv_ok o) as Hok.
  { split; [rewrite Hv; by apply wrapS_range|]. subst o.
    destruct (x =? callee_saved_value), (x =? derived_oop_value); simpl; by apply wrapS_range. }
  destruct (write_entry_building om l o Hom Hok Hroom) as (om' & E & Hb & Hp).
  exists om', o. split_and!; [done..|]. unfold omv_view, has_content, is_callee_saved, is_derived_oop.
  rewrite Hto, Hro. f_equal. destruct (_ || _) eqn:Hor; [|done]. f_equal.
  unfold content_reg, as_VMReg. subst o.
  destruct (x =? callee_saved_value), (x =? derived_oop_value); try done; simpl; by apply wrapS_id.
Qed.

Lemma exec_map_op_building o om l :
  building om l → map_op_ok o → roomy (10 * (zlen l + zlen (map_op_view o))) →
  ∃ om' es, exec_map_op o om = Some (tt, om') ∧ building om' (l ++ es) ∧
    om_pc_offset om' = om_pc_offset om ∧ omv_view <$> es = map_op_view o.
Proof.
  assert (∀ x, x ∈ [oop_value; narrowoop_value; callee_saved_value; derived_oop_value] → legal_type x) as Hlegal
    by (intros x Hx; by right).
  assert (∀ reg x opt, building om l → 0 ≤ reg ≤ register_mask → legal_type x → is_jshort opt →
    roomy (10 * (zlen l + 1)) → ∃ om' es, set_xxx reg x opt om = Some (tt, om') ∧ building om' (l ++ es) ∧
      om_pc_offset om' = om_pc_offset om ∧ omv_view <$> es
      = [(x, reg, if (x =? callee_saved_value) || (x =? derived_oop_value) then Some opt else None)]) as Hset.
  { intros reg x opt H1 H2 H3 H4 H5. destruct (set_xxx_building om l reg x opt H1 H2 H3 H4 H5) as (om' & e & ? & ? & ? & ?).
    exists om', [e]. split_and!; try done. simpl. by f_equal. }
  intros Hom Hok Hroom. destruct o as [r|r|r|r c|r c]; cbn [exec_map_op map_op_ok map_op_view] in *.
  - apply (Hset r oop_value Bad); [done..|apply Hlegal; left|done|done].
  - exists om, []. by rewrite app_nil_r.
  - apply (Hset r narrowoop_value Bad); [done..|apply Hlegal; right; left|done|done].
  - destruct Hok. apply (Hset r callee_saved_value c); [done..|apply Hlegal; right; right; left|done|done].
  - destruct Hok. unfold set_derived_oop. destruct (Z.eqb_spec r c) as [->|Hne].
    + rewrite decide_True in Hroom |- * by done. apply (Hset c oop_value Bad); [done..|apply Hlegal; left|done|done].
    + rewrite decide_False in Hroom |- * by done.
      apply (Hset r derived_oop_value c); [done..|apply Hlegal; right; right; right; left|done|done].
Qed.

Lemma exec_map_ops_building ops om l :
  building om l → Forall map_op_ok ops → roomy (10 * (zlen l + zlen (ops ≫= map_op_view))) →
  ∃ om' es, mforeach exec_map_op ops om = Some (tt, om') ∧ building om' (l ++ es) ∧
    om_pc_offset om' = om_pc_offset om ∧ omv_view <$> es = ops ≫= map_op_view.
Proof.
  intros Hom Hops. revert om l Hom. induction Hops as [|o ops Ho _ IH]; intros om l Hom Hr.
  { exists om, []. by rewrite app_nil_r. }
  cbn [mbind list_bind] in Hr. rewrite zlen_app in Hr. pose proof (zlen_nonneg (ops ≫= map_op_view)).
  destruct (exec_map_op_building o om l Hom Ho) as (om1 & es1 & E1 & Hb1 & Hp1 & Hv1).
  { eapply roomy_le; [|done]. lia. }
  assert (zlen es1 = zlen (map_op_view o)) as Hes1 by (by rewrite <- Hv1, zlen_fmap).
  destruct (IH om1 _ Hb1) as (om2 & es2 & E2 & Hb2 & Hp2 & Hv2).
  { by rewrite zlen_app, Hes1, <- Z.add_assoc. }
  exists om2, (es1 ++ es2). cbn [mforeach]. rewrite (M_bind_Some _ _ _ _ _ E1).
  rewrite app_assoc, fmap_app, Hv1, Hv2. split_and!; [done|done|congruence|done].
Qed.

(** ** Copies *)

Definition used (o : OopMapValue) : Prop := omv_type o ≠ unused_value.

Lemma omv_type_range o : 0 ≤ omv_type o < 16.
Proof.
  unfold omv_type, mask_bits. change type_mask_in_place with (Z.ones 4).
  rewrite Z.land_ones by done. by apply Z.mod_pos_bound.
Qed.

Lemma filter_all_used l :
  Forall used l → filter (λ o, selects type_mask_in_place o = true) l = l.
Proof.
  induction 1 as [|o l Ho _ IH]; [done|]. rewrite filter_cons_True, IH; [done|].
  unfold selects. change type_mask_in_place with (Z.ones 4). rewrite Z.land_ones by done.
  pose proof (omv_type_range o). rewrite Z.mod_small by done. unfold used, unused_value in Ho. lia.
Qed.

Lemma omv_write_on_equiv o o' : omv_equiv o o' → omv_write_on o = omv_write_on o'.
Proof.
  intros Heq. unfold omv_write_on. fold (has_content o) (has_content o').
  rewrite <- (has_content_proper o o' Heq). destruct Heq as [-> Hc].
  destruct (has_content o); [|done]. unfold content_reg. by rewrite Hc.
Qed.

Lemma write_entries_building l om l0 :
  building om l0 → Forall omv_ok l → roomy (10 * (zlen l0 + zlen l)) →
  ∃ om', mforeach (λ o, on_write_stream (omv_write_on o) ;; increment_count) l om = Some (tt, om') ∧
    building om' (l0 ++ l) ∧ om_pc_offset om' = om_pc_offset om.
Proof.
  intros Hom Hl. revert om l0 Hom. induction Hl as [|o l Ho _ IH]; intros om l0 Hom Hr.
  { exists om. by rewrite app_nil_r. }
  change (o :: l) with ([o] ++ l) in Hr. rewrite zlen_app, Z.add_assoc in Hr. pose proof (zlen_nonneg l).
  destruct (write_entry_building om l0 o Hom Ho) as (om1 & E1 & Hb1 & Hp1).
  { eapply roomy_le; [|done]. change (zlen [o]) with 1. lia. }
  destruct (IH om1 _ Hb1) as (om2 & E2 & Hb2 & Hp2); [by rewrite zlen_app|]. exists om2. rewrite <- app_assoc in Hb2.
  cbn [mforeach]. rewrite (M_bind_Some _ _ _ _ _ E1). split_and!; [done|done|congruence].
Qed.

(** A deep copy has the same entries and the same offset. *)
Lemma deep_copy_spec om l :
  has_entries om l → Forall used l → roomy (10 * zlen l) →
  ∃ om', deep_copy om = Some om' ∧ has_entries om' l ∧ om_pc_offset om' = om_pc_offset om.
Proof.
  intros Hom Hu Hr. unfold deep_copy, new_oms.
  rewrite (oms_foreach_spec _ om type_mask_in_place l); [|by intros o o' _ _ ->%omv_write_on_equiv|done].
  rewrite filter_all_used by done. destruct Hom as (Hc & Hok & _). destruct l as [|o l].
  { eexists. split; [done|]. split; [|done]. split_and!; [done..|].
    eexists. split; [done|]. apply bytes_at_nil. }
  rewrite Hc. rewrite (double_roomy (zlen (o :: l)) (10 * zlen (o :: l))) by (done || (unfold zlen; cbn [length]; lia)).
  assert (building (mkOM (om_pc_offset om) 0 None None (Some (new_write_stream (zlen (o :: l) * 2)))) []) as Hnew.
  { split_and!; [done..|]. eexists. split; [done|]. unfold zlen. split; [|done].
    unfold ws_ok, new_write_stream, zlen, new_bytes. cbn [ws_size ws_position ws_buffer].
    rewrite length_replicate. simpl length. lia. }
  destruct (write_entries_building (o :: l) _ [] Hnew Hok Hr) as (om' & E & Hb & Hp).
  rewrite E. cbn [mbind option_bind]. exists om'. split_and!; [done|by apply building_has_entries|done].
Qed.

End building_spec.

(** The bytes of a map in the code blob. *)
Definition map_bytes (om : OopMap) : Z :=
  align_pointer (sizeof_OopMap + match om_write_stream om with Some ws => ws_position ws | None => 0 end).

Lemma align_pointer_eq x : align_pointer x = (x + 7) / 8 * 8.
Proof.
  unfold align_pointer, sizeof_pointer. change (Z.lnot (8 - 1)) with (Z.lnot (Z.ones 3)).
  by rewrite <- Z.ldiff_land, Z.ldiff_ones_r, Z.shiftl_mul_pow2, Z.shiftr_div_pow2.
Qed.

(** In [int] arithmetic alignment is exact as long as the result is an [int]. *)
Lemma align_int_eq x : 0 ≤ x → align_pointer x < 2 ^ 31 - 8 → align_int x = align_pointer x.
Proof.
  intros Hx Hlt. unfold align_int. fold (align_pointer x). rewrite align_pointer_eq in Hlt.
  rewrite (wrapS_id 32 (x + _)) by (done || (unfold sizeof_pointer; machine)).
  change (Z.land _ _) with (align_pointer x). rewrite align_pointer_eq. machine.
Qed.

Lemma om_heap_size_spec om l :
  building om l → map_bytes om < 2 ^ 31 - 8 → om_heap_size om = Some (map_bytes om).
Proof.
  intros (_ & _ & _ & ws & Hws & (_ & Hpos & _) & _). unfold om_heap_size, map_bytes. rewrite Hws. cbn [mbind option_bind].
  intros Hlt. f_equal. pose proof Hlt as Hlt'. rewrite align_pointer_eq in Hlt'. unfold sizeof_OopMap in *.
  rewrite (wrapS_id 32) by (done || machine). apply align_int_eq; [lia|done].
Qed.

(** The map in the code blob has the same entries, kept in its own bytes. *)
Lemma om_copy_to_spec om l :
  building om l →
  ∃ om', om_copy_to om = Some om' ∧ has_entries om' l ∧ om_pc_offset om' = om_pc_offset om ∧
    om_heap_size om' = om_heap_size om ∧
    ∃ d, om_omv_data om' = Some d ∧ sizeof_OopMap + zlen d ≤ map_bytes om.
Proof.
  intros (Hd & Hc & Hok & ws & Hws & Hwok & Hdata). unfold om_copy_to. rewrite Hws.
  eexists. split; [done|]. fold (ws_data ws). split_and!.
  - split; [done|]. split; [done|]. eexists. split; [done|].
    cbn [om_omv_data]. rewrite Hdata. apply (bytes_at_suffix []).
  - done.
  - unfold om_heap_size. by rewrite Hws.
  - eexists. split; [done|]. rewrite ws_data_length by done. unfold map_bytes. rewrite Hws, align_pointer_eq. machine.
Qed.

(** Collect what the entries of a map say. *)
Definition entries_of (om : OopMap) (mask : Z) : option (list (Z * VMReg * option VMReg)) :=
  '(_, acc) ← oms_foreach (λ o acc, Some (tt, acc ++ [omv_view o])) (new_oms_mask om mask) [];
  Some acc.

Lemma collect_entries l acc :
  mforeach (λ o acc, Some (tt, acc ++ [omv_view o])) l acc = Some (tt, acc ++ (omv_view <$> l)).
Proof.
  revert acc. induction l as [|o l IH]; intros acc; cbn [mforeach]; [by rewrite app_nil_r|].
  unfold mbind, M_bind. rewrite IH, fmap_cons. by rewrite <- app_assoc.
Qed.

Lemma omv_view_equiv o o' : omv_equiv o o' → omv_view o = omv_view o'.
Proof.
  intros Heq. unfold omv_view. rewrite (omv_type_proper _ _ Heq), (omv_reg_proper _ _ Heq),
    <- (has_content_proper _ _ Heq). f_equal. destruct Heq as [_ Hc].
  destruct (has_content o); [|done]. unfold content_reg. by rewrite Hc.
Qed.

Lemma filter_views mask (l : list OopMapValue) :
  omv_view <$> filter (λ o, selects mask o = true) l
  = filter (λ v, 0 < Z.land v.1.1 mask) (omv_view <$> l).
Proof.
  induction l as [|o l IH]; [done|].
  rewrite fmap_cons. destruct (decide (0 < Z.land (omv_type o) mask)) as [Hs|Hs].
  - rewrite !filter_cons_True by (done || by apply Z.ltb_lt). by rewrite fmap_cons, IH.
  - rewrite !filter_cons_False by (done || (unfold selects; by rewrite Z.ltb_lt)). done.
Qed.

Lemma entries_of_spec om l mask :
  has_entries om l →
  entries_of om mask = Some (filter (λ v, 0 < Z.land v.1.1 mask) (omv_view <$> l)).
Proof.
  intros Hom. unfold entries_of.
  rewrite (oms_foreach_spec _ om mask l), collect_entries; [|by intros o o' _ _ ->%omv_view_equiv|done].
  cbn [mbind option_bind app]. by rewrite filter_views.
Qed.

Lemma building_used om l es ops :
  building om (l ++ es) → omv_view <$> es = ops ≫= map_op_view → Forall used es.
Proof.
  intros _ Hv. apply Forall_forall. intros o Ho Hu.
  assert (omv_view o ∈ ops ≫= map_op_view) as Hin by (rewrite <- Hv; by apply list_elem_of_fmap_2).
  apply list_elem_of_bind in Hin as (op & Hin & _). unfold omv_view in Hin. rewrite Hu in Hin.
  destruct op; cbn [map_op_view] in Hin; try case_decide;
    repeat (apply elem_of_cons in Hin as [Hin|Hin]; [by injection Hin|]); by apply elem_of_nil in Hin.
Qed.

(** ** Results: one map *)

Section int_sizes.
#[local] Existing Instance int32.

(** C27: The entries recorded in an oop map with [set_oop], [set_narrowoop],
    [set_callee_saved] and [set_derived_oop] (a derived pointer that is its own
    base being an oop), as many as fit the stream's [int] size at ten bytes each,
    are, in order, the ones an [OopMapStream] with any mask delivers, type by type,
    also from the map's deep copy and from the copy in the code blob; the copies
    have the map's offset. *)
Theorem oop_map_roundtrip frame_size arg_count ops :
  Forall map_op_ok ops → 10 * zlen (ops ≫= map_op_view) ≤ 2 ^ 30 →
  ∃ om dc cp,
    mforeach exec_map_op ops (new_oop_map frame_size arg_count) = Some (tt, om) ∧
    deep_copy om = Some dc ∧ om_copy_to om = Some cp ∧
    ∀ m mask, m ∈ [om; dc; cp] →
      om_pc_offset m = om_pc_offset om ∧
      entries_of m mask = Some (filter (λ v, 0 < Z.land v.1.1 mask) (ops ≫= map_op_view)).
Proof.
  intros Hops Hr%int32_roomy.
  destruct (exec_map_ops_building ops _ [] (new_oop_map_building frame_size arg_count) Hops Hr)
    as (om & es & E & Hb & Hp & Hv). simpl app in Hb.
  pose proof (building_used om [] es ops Hb Hv) as Hu.
  destruct (deep_copy_spec om es (building_has_entries _ _ Hb) Hu) as (dc & Edc & Hdc & Hpd).
  { by rewrite <- (zlen_fmap omv_view es), Hv. }
  destruct (om_copy_to_spec om es Hb) as (cp & Ecp & Hcp & Hpc & _).
  exists om, dc, cp. split_and!; [done..|]. intros m mask Hm.
  assert (has_entries m es ∧ om_pc_offset m = om_pc_offset om) as [He Hz].
  { repeat (apply elem_of_cons in Hm as [->|Hm]; [split; [try done; by apply building_has_entries|congruence]|]).
    by apply elem_of_nil in Hm. }
  split; [done|]. by rewrite (entries_of_spec m es), Hv.
Qed.

Lemma oop_map_roundtrip_witness :
  ∃ om dc cp,
    mforeach exec_map_op [SetOop 3; SetNarrowoop 200; SetDerivedOop 190 3; SetCalleeSaved 186 6; SetDerivedOop 5 5]
      (new_oop_map 8 0) = Some (tt, om) ∧ deep_copy om = Some dc ∧ om_copy_to om = Some cp ∧
    entries_of cp (Z.lor oop_value derived_oop_value)
      = Some [(oop_value, 3, None); (derived_oop_value, 190, Some 3); (oop_value, 5, None)].
Proof.
  destruct (oop_map_roundtrip 8 0
    [SetOop 3; SetNarrowoop 200; SetDerivedOop 190 3; SetCalleeSaved 186 6; SetDerivedOop 5 5])
    as (om & dc & cp & E & Ed & Ec & H).
  { apply (bool_decide_unpack _). vm_compute. exact I. }
  { vm_compute. discriminate. }
  exists om, dc, cp. split; [exact E|]. split; [exact Ed|]. split; [exact Ec|].
  apply (H cp (Z.lor oop_value derived_oop_value)). right. right. left.
Defined.
End int_sizes.

(** C36: [has_derived_pointer] answers the opposite of its name: [true] exactly for
    a map without a derived pointer. *)
Theorem has_derived_pointer_inverted frame_size arg_count ops :
  Forall map_op_ok ops →
  ∃ om b, mforeach exec_map_op ops (new_oop_map frame_size arg_count) = Some (tt, om) ∧
    has_derived_pointer om = Some b ∧
    (b = true ↔ ∀ r base, SetDerivedOop r base ∈ ops → r = base).
Proof.
  intros Hops.
  destruct (exec_map_ops_building ops _ [] (new_oop_map_building frame_size arg_count) Hops (ideal_roomy _))
    as (om & es & E & Hb & Hp & Hv). simpl app in Hb.
  destruct (building_has_entries _ _ Hb) as (Hc & Hok & b & Hbytes & Hb0).
  set (s := mkOMS (mkRS b 0) derived_oop_value (om_omv_count om) 0 false omv_empty). set (k := filter (λ o, selects derived_oop_value o = true) es).
  destruct (is_done_spec s derived_oop_value k) as (s' & Hd & _).
  { exists es. split; [|done]. split; [done|]. cbn [oms_size oms_position oms_stream s].
    split; [rewrite Hc; unfold zlen; lia|]. done. }
  exists om, (bool_decide (k = [])). split; [done|].
  split; [unfold has_derived_pointer, new_oms_mask; rewrite Hbytes; cbn [mbind option_bind]; fold s; by rewrite Hd|].
  rewrite bool_decide_eq_true.
  transitivity (omv_view <$> k = []); [by destruct k|].
  unfold k. rewrite filter_views, Hv. split.
  - intros Hn r base Hin. destruct (decide (r = base)) as [|Hne]; [done|exfalso].
    assert ((derived_oop_value, r, Some base) ∈ (filter (λ v, 0 < Z.land v.1.1 derived_oop_value) (ops ≫= map_op_view))) as Hin'.
    { apply list_elem_of_filter. split; [done|]. apply list_elem_of_bind. exists (SetDerivedOop r base). split; [|done].
      cbn [map_op_view]. rewrite decide_False by done. by left. }
    rewrite Hn in Hin'. by apply elem_of_nil in Hin'.
  - intros Hall. apply elem_of_nil_inv. intros v [Hs Hin]%list_elem_of_filter.
    apply list_elem_of_bind in Hin as (op & Hin & Hop).
    destruct op as [r|r|r|r c|r c]; cbn [map_op_view] in Hin; try (rewrite decide_True in Hin by eauto);
      repeat (apply elem_of_cons in Hin as [->|Hin]; [done|]); by apply elem_of_nil in Hin.
Qed.

Lemma has_derived_pointer_inverted_witness :
  ∃ om, mforeach exec_map_op [SetOop 3; SetDerivedOop 190 3] (new_oop_map 8 0) = Some (tt, om) ∧
        has_derived_pointer om = Some false.
Proof.
  destruct (has_derived_pointer_inverted 8 0 [SetOop 3; SetDerivedOop 190 3]) as (om & b & E & Hb & Hiff).
  { apply (bool_decide_unpack _). vm_compute. exact I. }
  exists om. split; [exact E|]. rewrite Hb. destruct b; [|reflexivity]. exfalso.
  discriminate (proj1 Hiff eq_refl 190 3 ltac:(right; left)).
Defined.

(** ** OopMapSet *)

(** The set [s] holds the maps [l]. *)
Definition oset_ok (s : OopMapSet) (l : list OopMap) : Prop :=
  oset_count s = zlen l ∧ 0 < oset_size s ∧ zlen (oset_data s) = oset_size s ∧
  ∃ rest, oset_data s = (Some <$> l) ++ rest.

Lemma new_oset_ok : oset_ok new_oop_map_set [].
Proof. split_and!; [done..|]. by eexists. Qed.

Lemma oset_at_spec s l i : oset_ok s l → 0 ≤ i < zlen l → oset_at i s = zget l i.
Proof.
  intros (_ & _ & _ & rest & Hd) Hi. unfold oset_at. rewrite Hd.
  rewrite zget_app_l by (rewrite zlen_fmap; lia). destruct (zget_is_Some l i Hi) as [m Hm].
  rewrite Hm. unfold zget in *. rewrite decide_True in Hm by lia. rewrite decide_True by lia.
  by rewrite list_lookup_fmap, Hm.
Qed.

Lemma add_gc_map_spec `{D : SizeArith} s l pc m :
  oset_ok s l → roomy (zlen l + 1) → ∃ s', add_gc_map pc m s = Some (tt, s') ∧ oset_ok s' (l ++ [set_offset pc m]).
Proof.
  intros (Hc & Hs & Hz & rest & Hd) Hr.
  assert (∃ s1 y rest1, (if oset_size s <=? oset_count s then grow_om_data else mret tt) s = Some (tt, s1) ∧
    oset_count s1 = zlen l ∧ 0 < oset_size s1 ∧ zlen (oset_data s1) = oset_size s1 ∧
    oset_data s1 = (Some <$> l) ++ y :: rest1) as (s1 & y & rest1 & E & Hc1 & Hs1 & Hz1 & Hd1).
  { rewrite Hd, zlen_app, zlen_fmap in Hz. destruct (Z.leb_spec (oset_size s) (oset_count s)) as [Hle|Hgt].
    - assert (rest = []) as -> by (destruct rest; [done|unfold zlen in *; simpl in *; lia]).
      rewrite app_nil_r in Hd. unfold grow_om_data.
      rewrite (double_roomy (oset_size s) (zlen l + 1)) by (done || lia). rewrite Hd, zlen_fmap, decide_True
        by (unfold zlen in *; simpl in *; lia).
      replace (oset_size s * 2 - oset_size s) with (oset_size s) by lia.
      destruct (Z.to_nat (oset_size s)) as [|k] eqn:Hk; [lia|].
      rewrite take_ge by (rewrite length_fmap; unfold zlen in *; simpl in *; lia).
      eexists _, None, (replicate k None). split; [done|]. cbn [oset_count oset_size oset_data].
      split_and!; [done|lia| |done]. rewrite zlen_app, zlen_fmap. unfold zlen in *. simpl in *.
      rewrite length_replicate. lia.
    - destruct rest as [|y rest]; [unfold zlen in *; simpl in *; lia|].
      exists s, y, rest. split_and!; try done. by rewrite Hd, zlen_app, zlen_fmap. }
  unfold add_gc_map. rewrite M_bind_get, (M_bind_Some _ _ _ _ _ E). cbv zeta. rewrite M_bind_get, Hc1, Hd1.
  rewrite <- (zlen_fmap Some l), (M_bind_lift _ _ _ _ (zset_app _ _ _ _)). eexists. split; [done|].
  split_and!; cbn [oset_count oset_size oset_data].
  - rewrite zlen_fmap, zlen_app. done.
  - done.
  - rewrite <- Hz1, Hd1, !zlen_app. done.
  - exists rest1. rewrite fmap_app, <- app_assoc. done.
Qed.

Definition add_all `{D : SizeArith} (l : list (Z * OopMap)) : M OopMapSet unit :=
  mforeach (λ pm, add_gc_map pm.1 pm.2) l.

Definition placed (pm : Z * OopMap) : OopMap := set_offset pm.1 pm.2.

Lemma add_all_spec `{D : SizeArith} pms s l :
  oset_ok s l → roomy (zlen l + zlen pms) → ∃ s', add_all pms s = Some (tt, s') ∧ oset_ok s' (l ++ (placed <$> pms)).
Proof.
  revert s l. induction pms as [|[pc m] pms IH]; intros s l Hs Hr.
  { exists s. split; [done|]. by rewrite app_nil_r. }
  change (?x :: pms) with ([x] ++ pms) in Hr. rewrite zlen_app, Z.add_assoc in Hr. pose proof (zlen_nonneg pms).
  destruct (add_gc_map_spec s l pc m Hs) as (s1 & E1 & Hs1).
  { eapply roomy_le; [|done]. change (zlen [_]) with 1. lia. }
  destruct (IH s1 _ Hs1) as (s2 & E2 & Hs2); [by rewrite zlen_app|]. exists s2. unfold add_all in *. cbn [mforeach].
  rewrite (M_bind_Some _ _ _ _ _ E1). split; [done|]. by rewrite <- app_assoc in Hs2.
Qed.

Lemma find_map_loop_spec s l pc n i k m :
  oset_ok s l → 0 ≤ i ≤ k → k < i + Z.of_nat n → i + Z.of_nat n = zlen l →
  zget l k = Some m → (∃ o, om_pc_offset m = Some o ∧ pc ≤ o) →
  (∀ j m', i ≤ j < k → zget l j = Some m' → ∃ o, om_pc_offset m' = Some o ∧ o < pc) →
  find_map_loop n i pc s = Some k.
Proof.
  intros Hs. revert i. induction n as [|n IH]; intros i Hi Hk Hn Hm Hpc Hbefore; [lia|].
  cbn [find_map_loop]. rewrite (oset_at_spec s l i Hs) by lia.
  destruct (decide (i = k)) as [->|Hne].
  - rewrite Hm. destruct Hpc as (o & Ho & Hle). cbn. rewrite Ho. cbn. by rewrite (proj2 (Z.leb_le _ _)).
  - destruct (zget_is_Some l i) as [mi Hmi]; [lia|]. rewrite Hmi. cbn.
    destruct (Hbefore i mi) as (o & Ho & Hlt); [lia|done|]. rewrite Ho. cbn.
    rewrite (proj2 (Z.leb_gt _ _)) by done. apply IH; try done; [lia..|]. intros j m' Hj. apply Hbefore. lia.
Qed.

(** ** Results: sets of maps *)

(** Maps added at increasing pc offsets are all found again: looking up the
    offset of any of them returns that map with that offset, whatever the
    number of maps (the table doubles when it is full). *)
Theorem oop_map_set_lookup pms :
  (∀ i j p q, i < j → zget pms i = Some p → zget pms j = Some q → p.1 < q.1) →
  ∃ s, add_all pms new_oop_map_set = Some (tt, s) ∧ oset_length s = zlen pms ∧
    ∀ pc m, (pc, m) ∈ pms → find_map_at_offset pc s = Some (set_offset pc m).
Proof.
  intros Hinc. destruct (add_all_spec pms _ [] new_oset_ok (ideal_roomy _)) as (s & E & Hs). simpl app in Hs.
  exists s. split; [done|]. pose proof Hs as (Hc & _). rewrite zlen_fmap in Hc. split; [done|].
  intros pc m [k Hk]%list_elem_of_lookup_1. rewrite <- zget_nat in Hk.
  assert (∀ j, zget (placed <$> pms) j = placed <$> zget pms j) as Hmap.
  { intros j. unfold zget. case_decide; [apply list_lookup_fmap|done]. }
  pose proof (zget_Some _ _ _ Hk) as Hr. unfold find_map_at_offset.
  rewrite (find_map_loop_spec s (placed <$> pms) pc _ 0 (Z.of_nat k) (placed (pc, m)));
    [|done|lia|rewrite Hc; unfold zlen in *; lia|rewrite Hc, zlen_fmap; unfold zlen; lia|by rewrite Hmap, Hk|by eexists|].
  - cbn [mbind option_bind]. by rewrite (oset_at_spec s _ _ Hs), Hmap, Hk by (rewrite zlen_fmap; lia).
  - intros j m' Hj. rewrite Hmap. intros ([pc' m0] & Hg & ->)%fmap_Some.
    eexists. split; [done|]. apply (Hinc j (Z.of_nat k) _ _ ltac:(lia) Hg Hk).
Qed.

Lemma oop_map_set_lookup_witness :
  ∃ s, add_all ((λ i, (i * 4, new_oop_map 8 i)) <$> seqZ 0 11) new_oop_map_set = Some (tt, s) ∧
       find_map_at_offset 36 s = Some (set_offset 36 (new_oop_map 8 9)).
Proof.
  destruct (oop_map_set_lookup ((λ i, (i * 4, new_oop_map 8 i)) <$> seqZ 0 11)) as (s & E & _ & H).
  - intros i j p q Hij Hp Hq. unfold zget in *. repeat case_decide; try discriminate.
    apply list_lookup_fmap_Some in Hp as (x & -> & Hx), Hq as (y & -> & Hy).
    apply lookup_seqZ in Hx as [-> _], Hy as [-> _]. simpl. lia.
  - exists s. split; [exact E|]. apply H. vm_compute. do 9 right. left.
Defined.

(** Regions [temp, last) of the copies of the maps [l]. *)
Inductive copies : Z → list OopMap → list (Z * OopMap) → Z → Prop :=
  | copies_nil temp : copies temp [] [] temp
  | copies_cons temp m m' d size l cs last :
      om_copy_to m = Some m' → om_omv_data m' = Some d →
      om_heap_size m = Some size → sizeof_OopMap + zlen d ≤ size →
      (∀ mask, entries_of m' mask = entries_of m mask) →
      copies (temp + size) l cs last →
      copies temp (m :: l) ((temp, m') :: cs) last.

(** The bytes of all maps, and of a set with its table of pointers. *)
Definition maps_bytes (l : list OopMap) : Z := foldr (λ m n, map_bytes m + n) 0 l.
Definition set_bytes (l : list OopMap) : Z := sizeof_OopMap + zlen l * sizeof_pointer + maps_bytes l.

Lemma map_bytes_nonneg m l : building m l → 0 ≤ map_bytes m.
Proof.
  intros (_ & _ & _ & ws & Hws & (_ & Hpos & _) & _). unfold map_bytes. rewrite Hws, align_pointer_eq.
  unfold sizeof_OopMap. machine.
Qed.

Lemma maps_bytes_nonneg l : Forall (λ m, ∃ es, building m es) l → 0 ≤ maps_bytes l.
Proof.
  induction 1 as [|m l [es Hm] _ IH]; cbn; [lia|]. pose proof (map_bytes_nonneg m es Hm). unfold maps_bytes in IH. lia.
Qed.

Lemma copy_maps_spec s l1 l2 temp size :
  oset_ok s (l1 ++ l2) → Forall (λ m, ∃ es, building m es) l2 → 0 ≤ size → size + maps_bytes l2 < 2 ^ 31 - 8 →
  ∃ cs, copy_maps (length l2) (zlen l1) temp s = Some (cs, temp + maps_bytes l2) ∧
    heap_size_loop (length l2) (zlen l1) size s = Some (size + maps_bytes l2) ∧
    copies temp l2 cs (temp + maps_bytes l2).
Proof.
  revert l1 temp size. induction l2 as [|m l2 IH]; intros l1 temp size Hs Hb Hsz Hlim.
  { exists []. cbn [maps_bytes foldr]. rewrite !Z.add_0_r. split_and!; [done..|constructor]. }
  apply Forall_cons in Hb as [[es Hm] Hb]. pose proof (map_bytes_nonneg m es Hm). pose proof (maps_bytes_nonneg l2 Hb).
  change (maps_bytes (m :: l2)) with (map_bytes m + maps_bytes l2) in *.
  destruct (om_copy_to_spec m es Hm) as (m' & Hc & He' & _ & _ & d & Hd & Hle).
  pose proof (om_heap_size_spec m es Hm ltac:(lia)) as Hh.
  destruct (IH (l1 ++ [m]) (temp + map_bytes m) (size + map_bytes m)) as (cs & H1 & H2 & H3);
    [by rewrite <- app_assoc|done|lia|lia|].
  rewrite zlen_app in H1, H2. change (zlen [m]) with 1 in H1, H2.
  assert (oset_at (zlen l1) s = Some m) as Hat.
  { rewrite (oset_at_spec _ _ _ Hs); [by rewrite zget_app_r, Z.sub_diag by lia|].
    rewrite zlen_app. unfold zlen. simpl. lia. }
  exists ((temp, m') :: cs). cbn [copy_maps heap_size_loop length].
  rewrite Hat. cbn [mbind option_bind]. rewrite Hc, Hh. cbn [mbind option_bind]. rewrite H1.
  rewrite (wrapS_id 32 (size + map_bytes m)) by (done || machine). rewrite H2.
  cbn [mbind option_bind]. rewrite !Z.add_assoc. split_and!; [done..|].
  econstructor; [done..| |done]. intros mask.
  by rewrite (entries_of_spec m' es), (entries_of_spec m es) by (done || by apply building_has_entries).
Qed.

(** C28: When the bytes of a set of maps fit an [int] (below 2^31 - 8, for the
    alignment), the [heap_size] computed in [int] arithmetic is their number, and
    copying the set into the code blob stays within it: the table of pointers and
    the copies of the maps follow one another without overlap, each copy (header
    and entry bytes) within its own [heap_size], and every copy has the entries of
    the map it was made from. *)
Theorem oop_map_set_copy_fits s l addr :
  oset_ok s l → Forall (λ m, ∃ es, building m es) l → addr mod 8 = 0 → set_bytes l < 2 ^ 31 - 8 →
  ∃ data cs last,
    oset_copy_to addr s = Some (data, cs, last) ∧ oset_heap_size s = Some (set_bytes l) ∧
    addr + sizeof_OopMapSet ≤ data ∧
    copies (data + zlen l * sizeof_pointer) l cs last ∧ last ≤ addr + set_bytes l.
Proof.
  intros Hs Hb Ha Hlim. pose proof Hs as (Hc & _). pose proof (maps_bytes_nonneg l Hb). pose proof (zlen_nonneg l).
  unfold set_bytes in *. set (size := sizeof_OopMap + zlen l * sizeof_pointer) in *.
  assert (s32 (align_int sizeof_OopMap + zlen l * sizeof_pointer) = size) as Hsize.
  { change (align_int sizeof_OopMap) with sizeof_OopMap. apply wrapS_id; [done|].
    subst size. unfold sizeof_OopMap, sizeof_pointer in *. machine. }
  destruct (copy_maps_spec s [] l (align_pointer (addr + sizeof_OopMapSet) + zlen l * sizeof_pointer) size Hs Hb)
    as (cs & H1 & H2 & H3); [subst size; unfold sizeof_OopMap, sizeof_pointer; lia|done|].
  unfold oset_copy_to, oset_heap_size. rewrite Hc.
  assert (Z.to_nat (zlen l) = length l) as -> by (unfold zlen; lia).
  change (zlen []) with 0 in H1, H2. cbv zeta. rewrite Hsize, H1, H2. cbn [mbind option_bind].
  eexists _, _, _. split_and!; [done..| |done|]; rewrite align_pointer_eq in *; subst size;
    unfold sizeof_pointer, sizeof_OopMapSet, sizeof_OopMap in *; machine.
Qed.

Lemma oop_map_set_copy_fits_witness :
  ∃ s data cs last,
    add_all (D := int32) [(4, new_oop_map 8 0); (8, new_oop_map 8 1)] new_oop_map_set = Some (tt, s) ∧
    oset_copy_to 4096 s = Some (data, cs, last) ∧ oset_heap_size s = Some 112 ∧ last ≤ 4096 + 112.
Proof.
  destruct (add_all_spec (D := int32) [(4, new_oop_map 8 0); (8, new_oop_map 8 1)] _ [] new_oset_ok) as (s & E & Hs).
  { by apply int32_roomy. }
  destruct (oop_map_set_copy_fits s _ 4096 Hs) as (data & cs & last & H1 & H2 & _ & _ & H3).
  - repeat constructor; exists []; (split; [reflexivity|]; split; [reflexivity|]; split; [constructor|]);
      eexists; (split; [reflexivity|]; split; [|reflexivity]; vm_compute; done).
  - reflexivity.
  - vm_compute. reflexivity.
  - exists s, data, cs, last. split; [exact E|]. split; [exact H1|]. split; [exact H2|exact H3].
Defined.
