(* ===== verification/FrameOops.v ===== *)
(** * Object pointers of a compiled frame
    (src/share/vm/compiler/oopMap.cpp: all_do, oops_do, update_register_map,
    DerivedPointerTable; src/share/vm/runtime/registerMap.hpp, frame.cpp;
    src/cpu/x86/vm/registerMap_x86.cpp)

    A collection visits the slots an oop map names.  Pointers derived from an
    object pointer are taken out of the way first and rebuilt afterwards. *)

From stdpp Require Import base numbers list gmap.
From S2P Require Import Prelude GlobalDefinitions CompressedStream VMReg OopMap.
Local Open Scope Z_scope.

(** ** RegisterMap *)

Definition reg_count : Z := ConcreteRegister_number_of_registers.
Definition location_valid_type_size : Z := 64.
Definition location_valid_size : Z :=
  Z.quot (reg_count + location_valid_type_size - 1) location_valid_type_size.

Record RegisterMap := mkRM {
  rm_location : list Z;               (* [_location]; 0 is NULL *)
  rm_location_valid : list Z;         (* [_location_valid] *)
  rm_include_argument_oops : bool;
  rm_update_map : bool
}.

Definition valid_bit (reg : VMReg) : Z :=
  u64 (Z.shiftl 1 (Z.rem reg location_valid_type_size)).

(** [location], with [pd] for [pd_location]. *)
Definition location_with (pd : VMReg → option Z) (rm : RegisterMap) (reg : VMReg) : option Z :=
  let index := Z.quot reg location_valid_type_size in
  valid ← zget (rm_location_valid rm) index;
  if negb (Z.land valid (valid_bit reg) =? 0) then zget (rm_location rm) reg else pd reg.

(** [pd_location] of x86, with [location] for the other half of the recursion. *)
Definition pd_location_with (location : VMReg → option Z) (reg : VMReg) : option Z :=
  if is_XMMRegister reg then
    let regBase := reg - max_fpr in
    if Z.rem regBase 4 =? 0 then Some 0
    else
      let baseReg := XMMRegister_as_VMReg (Z.shiftr regBase 3) in
      let offset := (reg - baseReg) * 4 in
      let '(baseReg, offset) :=
        if 16 <=? offset then (next (next (next (next baseReg))), offset - 16)
        else (baseReg, offset) in
      baseLocation ← location baseReg;
      if negb (baseLocation =? 0) then Some (baseLocation + offset) else Some 0
  else Some 0.

Fixpoint location_fuel (fuel : nat) (rm : RegisterMap) (reg : VMReg) : option Z :=
  match fuel with
  | O => None
  | S fuel' => location_with (pd_location_with (location_fuel fuel' rm)) rm reg
  end.
(** The recursion goes through a base register, which has no base itself. *)
Definition location (rm : RegisterMap) (reg : VMReg) : option Z := location_fuel 2 rm reg.
Definition pd_location (rm : RegisterMap) (reg : VMReg) : option Z :=
  pd_location_with (location rm) reg.

Definition set_location (reg : VMReg) (loc : Z) : M RegisterMap unit := λ rm,
  let index := Z.quot reg location_valid_type_size in
  l ← zset (rm_location rm) reg loc;
  valid ← zget (rm_location_valid rm) index;
  v ← zset (rm_location_valid rm) index (Z.lor valid (valid_bit reg));
  Some (tt, mkRM l v (rm_include_argument_oops rm) (rm_update_map rm)).

Definition rm_clear (rm : RegisterMap) : RegisterMap :=
  mkRM (rm_location rm)
       (if rm_update_map rm then replicate (Z.to_nat location_valid_size) 0 else rm_location_valid rm)
       true (rm_update_map rm).

(** [RegisterMap(thread, update_map)] on fresh memory. *)
Definition new_register_map (update_map : bool) : RegisterMap :=
  rm_clear (mkRM (replicate (Z.to_nat reg_count) 0) (replicate (Z.to_nat location_valid_size) 0)
                 false update_map).

(** The loop of the copy constructor that pulls in the locations of one word. *)
Fixpoint copy_bits (fuel : nat) (bits j : Z) (from to : list Z) : option (list Z) :=
  if bits =? 0 then Some to
  else match fuel with
       | O => None
       | S fuel' =>
           to' ← (if negb (Z.land bits 1 =? 0) then x ← zget from j; zset to j x else Some to);
           copy_bits fuel' (Z.shiftr bits 1) (j + 1) from to'
       end.
Fixpoint copy_words (n : nat) (i : Z) (map : RegisterMap) (to : list Z) : option (list Z) :=
  match n with
  | O => Some to
  | S n' =>
      bits ← zget (rm_location_valid map) i;
      to' ← copy_bits 64 bits (i * location_valid_type_size) (rm_location map) to;
      copy_words n' (i + 1) map to'
  end.
Definition copy_register_map (map : RegisterMap) : option RegisterMap :=
  let fresh := replicate (Z.to_nat reg_count) 0 in
  if rm_update_map map then
    l ← copy_words (Z.to_nat location_valid_size) 0 map fresh;
    Some (mkRM l (take (Z.to_nat location_valid_size) (rm_location_valid map))
               (rm_include_argument_oops map) true)
  else Some (mkRM fresh (replicate (Z.to_nat location_valid_size) 0)
               (rm_include_argument_oops map) false).

(** ** Frames *)

Record CodeBlob := mkCB { code_begin : Z; oop_maps : OopMapSet }.
Record frame := mkFrame { unextended_sp : Z; frame_pc : Z; frame_cb : CodeBlob }.

Definition oop_map_for_return_address (cb : CodeBlob) (return_address : Z) : option OopMap :=
  find_map_at_offset (s32 (return_address - code_begin cb)) (oop_maps cb).

Definition oopmapreg_to_location (fr : frame) (rm : RegisterMap) (reg : VMReg) : option Z :=
  if is_reg reg then location rm reg
  else
    let sp_offset_in_bytes := s32 (reg2stack reg * stack_slot_size) in
    Some (unextended_sp fr + sp_offset_in_bytes).

(** ** DerivedPointerTable *)

Record GCState := mkGC {
  mem : gmap Z Z;                            (* the words the slots are in *)
  dp_list : option (list (Z * Z));           (* [_list]: location, offset *)
  dp_active : bool                           (* [_active] *)
}.

Definition load (a : Z) : M GCState Z := λ s, v ← mem s !! a; Some (v, s).
Definition save (a v : Z) : M GCState unit := λ s,
  _ ← mem s !! a; Some (tt, mkGC (<[a := v]> (mem s)) (dp_list s) (dp_active s)).

Definition dp_clear (s : GCState) : GCState :=
  mkGC (mem s) (match dp_list s with None => Some [] | Some l => Some l end) true.

Definition dp_append (e : Z * Z) : M GCState unit := λ s,
  l ← dp_list s; Some (tt, mkGC (mem s) (Some (l ++ [e])) (dp_active s)).

Definition dp_add (derived_loc base_loc : Z) : M GCState unit :=
  s ← mget;
  if dp_active s then
    d ← load derived_loc;
    b ← load base_loc;
    let offset := s64 (d - b) in
    save derived_loc base_loc ;;
    dp_append (derived_loc, offset)
  else mret tt.

(** The loop of [update_pointers] over the entries. *)
Definition update_pointer (entry : Z * Z) : M GCState unit :=
  let '(derived_loc, offset) := entry in
  base_loc ← load derived_loc;
  base ← load base_loc;
  save derived_loc (u64 (base + offset)).
Definition update_pointers : M GCState unit :=
  s ← mget;
  l ← mlift (dp_list s);
  mforeach update_pointer l ;;
  s ← mget;
  mput (mkGC (mem s) (Some []) false).

Definition dp_is_empty (s : GCState) : bool :=
  match dp_list s with None => true | Some l => bool_decide (l = []) end.
Definition dp_set_active (value : bool) : M GCState unit := λ s,
  Some (tt, mkGC (mem s) (dp_list s) value).

(** A block under a [DerivedPointerTableDeactivate]. *)
Definition dp_deactivated (block : M GCState unit) : M GCState unit :=
  s ← mget;
  let active := dp_active s in
  (if active then dp_set_active false else mret tt) ;;
  block ;;
  (if active then dp_set_active true else mret tt).

(** ** OopMapSet::all_do *)

Section all_do.
(** [Universe::narrow_oop_base()] *)
Context (narrow_oop_base : Z).

Definition is_null_oop (val : Z) : bool := (val =? 0) || (val =? narrow_oop_base).

(** [guarantee(loc != NULL, "missing saved register")] *)
Definition guarantee_location (o : option Z) : M GCState Z :=
  loc ← mlift o; if negb (loc =? 0) then mret loc else mfailS.

Definition do_derived (fr : frame) (rm : RegisterMap) (derived_oop_fn : Z → Z → M GCState unit)
    (omv : OopMapValue) : M GCState unit :=
  loc ← guarantee_location (oopmapreg_to_location fr rm (omv_reg omv));
  base_loc ← mlift (oopmapreg_to_location fr rm (content_reg omv));
  val ← load base_loc;
  if is_null_oop val then mret tt else derived_oop_fn base_loc loc.

Definition do_oop_value (fr : frame) (rm : RegisterMap) (do_oop do_narrow_oop : Z → M GCState unit)
    (omv : OopMapValue) : M GCState unit :=
  loc ← guarantee_location (oopmapreg_to_location fr rm (omv_reg omv));
  if omv_type omv =? oop_value then
    val ← load loc;
    if is_null_oop val then mret tt else do_oop loc
  else if omv_type omv =? narrowoop_value then do_narrow_oop loc
  else mret tt.

Definition all_do (fr : frame) (rm : RegisterMap) (do_oop do_narrow_oop : Z → M GCState unit)
    (derived_oop_fn : Z → Z → M GCState unit) : M GCState unit :=
  map ← mlift (oop_map_for_return_address (frame_cb fr) (frame_pc fr));
  oms_foreach (do_derived fr rm derived_oop_fn) (new_oms_mask map derived_oop_value) ;;
  let mask := Z.lor oop_value narrowoop_value in
  oms_foreach (do_oop_value fr rm do_oop do_narrow_oop) (new_oms_mask map mask).

Definition add_derived_oop (base derived : Z) : M GCState unit := dp_add derived base.

Definition oops_do (fr : frame) (rm : RegisterMap) (do_oop do_narrow_oop : Z → M GCState unit)
  : M GCState unit := all_do fr rm do_oop do_narrow_oop add_derived_oop.

End all_do.

(** The loop of [update_register_map]. *)
Definition update_callee_saved (fr : frame) (omv : OopMapValue) : M RegisterMap unit :=
  reg_map ← mget;
  let reg := content_reg omv in
  loc ← mlift (oopmapreg_to_location fr reg_map (omv_reg omv));
  set_location reg loc.
Definition update_register_map (fr : frame) : M RegisterMap unit :=
  map ← mlift (oop_map_for_return_address (frame_cb fr) (frame_pc fr));
  oms_foreach (update_callee_saved fr) (new_oms_mask map callee_saved_value).

(** ** Visiting slots *)

Lemma load_eq s a v : mem s !! a = Some v → load a s = Some (v, s).
Proof. intros H. unfold load. by rewrite H. Qed.
Lemma save_eq s a x v : mem s !! a = Some v →
  save a x s = Some (tt, mkGC (<[a := x]> (mem s)) (dp_list s) (dp_active s)).
Proof. intros H. unfold save. by rewrite H. Qed.

Section collection.
Context (narrow_oop_base : Z).
Implicit Types (m : gmap Z Z) (d b a v base : Z) (D : list (Z * Z)) (O : list (bool * Z)).

(** [do_derived] and [do_oop_value] once the slots are known. *)
Definition derive (db : Z * Z) : M GCState unit :=
  val ← load db.2;
  if is_null_oop narrow_oop_base val then mret tt else add_derived_oop db.2 db.1.
Definition visit (do_oop do_narrow_oop : Z → M GCState unit) (x : bool * Z) : M GCState unit :=
  if x.1 then do_narrow_oop x.2
  else val ← load x.2; if is_null_oop narrow_oop_base val then mret tt else do_oop x.2.

(** The entry the table gets for a derived pointer. *)
Definition derived_entry m (db : Z * Z) : option (Z * Z) :=
  v ← m !! db.1; base ← m !! db.2;
  if is_null_oop narrow_oop_base base then None else Some (db.1, s64 (v - base)).

Lemma derive_spec m es d b v base :
  m !! d = Some v → m !! b = Some base →
  derive (d, b) (mkGC m (Some es) true) =
    Some (tt, if is_null_oop narrow_oop_base base then mkGC m (Some es) true
              else mkGC (<[d := b]> m) (Some (es ++ [(d, s64 (v - base))])) true).
Proof.
  intros Hd Hb. unfold derive. cbn [fst snd].
  rewrite (M_bind_Some _ _ _ _ _ (load_eq (mkGC _ _ _) _ _ Hb)).
  destruct (is_null_oop _ base); [done|]. unfold add_derived_oop, dp_add.
  rewrite M_bind_get. cbn [dp_active].
  rewrite (M_bind_Some _ _ _ _ _ (load_eq (mkGC _ _ _) _ _ Hd)).
  rewrite (M_bind_Some _ _ _ _ _ (load_eq (mkGC _ _ _) _ _ Hb)). cbn zeta.
  by rewrite (M_bind_Some _ _ _ _ _ (save_eq (mkGC _ _ _) _ _ _ Hd)).
Qed.

(** Under a deactivated table derived pointers stay as they are. *)
Lemma add_deactivated s d b :
  dp_deactivated (add_derived_oop b d) s = Some (tt, s).
Proof. unfold dp_deactivated, add_derived_oop, dp_add. by destruct s as [m l []]. Qed.

(** Every derived pointer of an object is replaced by the slot of its base. *)
Lemma derive_all m es D :
  NoDup D.*1 → (∀ d b, (d, b) ∈ D → is_Some (m !! d) ∧ is_Some (m !! b) ∧ b ∉ D.*1) →
  ∃ m', mforeach derive D (mkGC m (Some es) true)
          = Some (tt, mkGC m' (Some (es ++ omap (derived_entry m) D)) true) ∧
    (∀ a, a ∉ D.*1 → m' !! a = m !! a) ∧
    (∀ d b base, (d, b) ∈ D → m !! b = Some base →
       m' !! d = if is_null_oop narrow_oop_base base then m !! d else Some b).
Proof.
  revert m es. induction D as [|[d b] D IH]; intros m es Hnd Hin.
  { exists m. cbn [mforeach omap list_omap]. rewrite app_nil_r. split_and!; [done..|].
    by intros ??? ?%elem_of_nil. }
  cbn [fmap list_fmap fst] in Hnd. apply NoDup_cons in Hnd as [Hd Hnd].
  destruct (Hin d b ltac:(left)) as ([v Hv] & [base Hbase] & Hb).
  cbn [fmap list_fmap fst] in Hb. apply not_elem_of_cons in Hb as [Hbd HbD].
  cbn [mforeach]. rewrite (M_bind_Some _ _ _ _ _ (derive_spec m es d b v base Hv Hbase)).
  set (m1 := if is_null_oop narrow_oop_base base then m else <[d := b]> m).
  set (e1 := if is_null_oop narrow_oop_base base then [] else [(d, s64 (v - base))]).
  assert ((if is_null_oop narrow_oop_base base then mkGC m (Some es) true
           else mkGC (<[d:=b]> m) (Some (es ++ [(d, s64 (v - base))])) true)
          = mkGC m1 (Some (es ++ e1)) true) as ->.
  { subst m1 e1. destruct (is_null_oop _ base); [by rewrite app_nil_r|done]. }
  assert (∀ a, a ≠ d → m1 !! a = m !! a) as Hm1.
  { intros a Ha. subst m1. destruct (is_null_oop _ base); [done|]. by rewrite lookup_insert_ne. }
  assert (∀ d' b', (d', b') ∈ D → d' ≠ d ∧ b' ≠ d) as Hne.
  { intros d' b' Hdb. split.
    - intros ->. apply Hd. apply list_elem_of_fmap. by exists (d, b').
    - intros ->. destruct (Hin d' d) as (_ & _ & Hn); [by right|]. apply Hn. left. }
  destruct (IH m1 (es ++ e1) Hnd) as (m' & E & Hout & Hder).
  { intros d' b' Hdb. destruct (Hne _ _ Hdb). rewrite !Hm1 by done.
    destruct (Hin d' b') as (? & ? & Hn); [by right|]. split_and!; [done..|].
    intros ?. apply Hn. by right. }
  exists m'. split_and!.
  - rewrite E. do 4 f_equal. rewrite <- app_assoc. f_equal. cbn [omap list_omap].
    assert (omap (derived_entry m1) D = omap (derived_entry m) D) as ->.
    { apply list_omap_ext, Forall2_same_length_lookup_2; [done|]. intros i [d1 b1] y H1 H2.
      rewrite H1 in H2. injection H2 as <-. unfold derived_entry. cbn [fst snd].
      destruct (Hne d1 b1) as [? ?]; [by eapply list_elem_of_lookup_2|]. by rewrite !Hm1. }
    subst e1. unfold derived_entry at 2. cbn [fst snd]. rewrite Hv, Hbase. cbn [mbind option_bind].
    by destruct (is_null_oop _ base).
  - intros a [Ha HaD]%not_elem_of_cons. by rewrite Hout, Hm1.
  - intros d' b' base' [[= -> ->]|Hdb]%elem_of_cons Hb'.
    + rewrite Hbase in Hb'. injection Hb' as <-. rewrite Hout by done. subst m1.
      destruct (is_null_oop _ base); [done|]. by rewrite lookup_insert_eq.
    + destruct (Hne _ _ Hdb). rewrite (Hder d' b' base'); [by rewrite Hm1|done|by rewrite Hm1].
Qed.

(** A closure that replaces what is in a slot. *)
Definition moves (f : Z → M GCState unit) (move : Z → Z) : Prop := ∀ a s v,
  mem s !! a = Some v → f a s = Some (tt, mkGC (<[a := move v]> (mem s)) (dp_list s) (dp_active s)).

Context (do_oop do_narrow_oop : Z → M GCState unit) (move move_narrow : Z → Z).
Context (Hoop : moves do_oop move) (Hnarrow : moves do_narrow_oop move_narrow).

(** What a visited slot holds afterwards. *)
Definition moved (x : bool * Z) v : Z :=
  if x.1 then move_narrow v else if is_null_oop narrow_oop_base v then v else move v.

Lemma visit_spec s x v :
  mem s !! x.2 = Some v →
  visit do_oop do_narrow_oop x s
  = Some (tt, mkGC (<[x.2 := moved x v]> (mem s)) (dp_list s) (dp_active s)).
Proof.
  intros Hv. unfold visit, moved. destruct x as [[] a]; cbn [fst snd] in *; [by apply Hnarrow|].
  rewrite (M_bind_Some _ _ _ _ _ (load_eq _ _ _ Hv)).
  destruct (is_null_oop _ v); [|by apply Hoop].
  rewrite insert_id by done. by destruct s.
Qed.

Lemma visit_all s O :
  NoDup O.*2 → (∀ x, x ∈ O → is_Some (mem s !! x.2)) →
  ∃ m', mforeach (visit do_oop do_narrow_oop) O s = Some (tt, mkGC m' (dp_list s) (dp_active s)) ∧
    (∀ a, a ∉ O.*2 → m' !! a = mem s !! a) ∧
    (∀ x, x ∈ O → m' !! x.2 = moved x <$> mem s !! x.2).
Proof.
  revert s. induction O as [|x O IH]; intros s Hnd Hin.
  { exists (mem s). cbn [mforeach]. split_and!; [by destruct s|done|]. by intros ? ?%elem_of_nil. }
  cbn [fmap list_fmap] in Hnd. apply NoDup_cons in Hnd as [Hx Hnd].
  destruct (Hin x ltac:(left)) as [v Hv]. cbn [mforeach].
  rewrite (M_bind_Some _ _ _ _ _ (visit_spec s x v Hv)).
  assert (∀ y, y ∈ O → y.2 ≠ x.2) as Hne.
  { intros y Hy Heq. apply Hx. rewrite <- Heq. apply list_elem_of_fmap. by exists y. }
  destruct (IH (mkGC (<[x.2 := moved x v]> (mem s)) (dp_list s) (dp_active s)) Hnd) as (m' & E & Hout & Hmv).
  { intros y Hy. cbn [mem]. rewrite lookup_insert_ne by (intros Heq; by apply (Hne y)). apply Hin. by right. }
  cbn [mem dp_list dp_active] in *. exists m'. split_and!; [done| |].
  - intros a [Ha HaO]%not_elem_of_cons. rewrite Hout by done. by rewrite lookup_insert_ne.
  - intros y [->|Hy]%elem_of_cons.
    + rewrite Hout by done. by rewrite lookup_insert_eq, Hv.
    + rewrite Hmv by done. rewrite lookup_insert_ne; [done|]. intros Heq. by apply (Hne y).
Qed.

(** The slots the entries of the table denote after the collection. *)
Lemma update_all s es :
  NoDup es.*1 →
  (∀ d off, (d, off) ∈ es → ∃ b base, mem s !! d = Some b ∧ mem s !! b = Some base ∧ b ∉ es.*1) →
  ∃ m', mforeach update_pointer es s = Some (tt, mkGC m' (dp_list s) (dp_active s)) ∧
    (∀ a, a ∉ es.*1 → m' !! a = mem s !! a) ∧
    (∀ d off b base, (d, off) ∈ es → mem s !! d = Some b → mem s !! b = Some base →
       m' !! d = Some (u64 (base + off))).
Proof.
  revert s. induction es as [|[d off] es IH]; intros s Hnd Hin.
  { exists (mem s). cbn [mforeach]. split_and!; [by destruct s|done|]. by intros ???? ?%elem_of_nil. }
  cbn [fmap list_fmap fst] in Hnd. apply NoDup_cons in Hnd as [Hd Hnd].
  destruct (Hin d off ltac:(left)) as (b & base & Hdb & Hb & HbE).
  cbn [fmap list_fmap fst] in HbE. apply not_elem_of_cons in HbE as [Hbd HbE].
  assert (update_pointer (d, off) s
    = Some (tt, mkGC (<[d := u64 (base + off)]> (mem s)) (dp_list s) (dp_active s))) as E1.
  { unfold update_pointer. rewrite (M_bind_Some _ _ _ _ _ (load_eq _ _ _ Hdb)).
    rewrite (M_bind_Some _ _ _ _ _ (load_eq _ _ _ Hb)). by apply (save_eq _ _ _ b). }
  cbn [mforeach]. rewrite (M_bind_Some _ _ _ _ _ E1).
  assert (∀ d' off', (d', off') ∈ es → d' ≠ d) as Hne.
  { intros d' off' Hin' ->. apply Hd. apply list_elem_of_fmap. by exists (d, off'). }
  destruct (IH (mkGC (<[d := u64 (base + off)]> (mem s)) (dp_list s) (dp_active s)) Hnd) as (m' & E & Hout & Hup).
  { intros d' off' Hin'. cbn [mem]. destruct (Hin d' off') as (b' & base' & ? & ? & Hn); [by right|].
    apply not_elem_of_cons in Hn as [Hn1 Hn2]. exists b', base'.
    rewrite !lookup_insert_ne; [done|done|]. intros Heq. by apply (Hne _ _ Hin'). }
  cbn [mem dp_list dp_active] in *. exists m'. split_and!; [done| |].
  - intros a [Ha HaE]%not_elem_of_cons. rewrite Hout by done. by rewrite lookup_insert_ne.
  - intros d' off' b' base' [[= -> ->]|Hin']%elem_of_cons Hd' Hb'.
    + rewrite Hout by done. rewrite lookup_insert_eq. congruence.
    + destruct (Hin d' off') as (b2 & base2 & Hd2 & Hb2 & Hn); [by right|].
      apply not_elem_of_cons in Hn as [Hn1 Hn2]. cbn in Hn1.
      rewrite Hd' in Hd2. injection Hd2 as <-.
      apply (Hup d' off' b' base'); [done| |].
      * rewrite lookup_insert_ne; [done|]. intros Heq. by apply (Hne _ _ Hin').
      * by rewrite lookup_insert_ne.
Qed.

Lemma u64_offset base v base' : u64 (base' + s64 (v - base)) = u64 (base' + (v - base)).
Proof.
  unfold wrapU. rewrite <- Zplus_mod_idemp_r.
  change (s64 (v - base) mod 2 ^ 64) with (u64 (s64 (v - base))). rewrite wrapU_wrapS.
  unfold wrapU. by rewrite Zplus_mod_idemp_r.
Qed.

Lemma derived_entries_elem m D d off :
  (d, off) ∈ omap (derived_entry m) D ↔
  ∃ b v base, (d, b) ∈ D ∧ m !! d = Some v ∧ m !! b = Some base ∧
    is_null_oop narrow_oop_base base = false ∧ off = s64 (v - base).
Proof.
  rewrite list_elem_of_omap. split.
  - intros ([d' b] & Hdb & He). unfold derived_entry in He. cbn [fst snd] in He.
    destruct (m !! d') as [v|] eqn:Hv, (m !! b) as [base|] eqn:Hb; simplify_eq/=.
    destruct (is_null_oop _ base) eqn:Hnull; simplify_eq. by exists b, v, base.
  - intros (b & v & base & Hdb & Hv & Hb & Hnull & ->). exists (d, b). split; [done|].
    unfold derived_entry. cbn [fst snd]. rewrite Hv, Hb. cbn. by rewrite Hnull.
Qed.

Lemma derived_entries_fst m D : (omap (derived_entry m) D).*1 ⊆ D.*1.
Proof.
  intros a ([d off] & -> & (b & _ & _ & Hdb & _)%derived_entries_elem)%list_elem_of_fmap.
  apply list_elem_of_fmap. by exists (d, b).
Qed.

Lemma derived_entries_NoDup m D : NoDup D.*1 → NoDup (omap (derived_entry m) D).*1.
Proof.
  induction D as [|[d b] D IH]; [constructor|]. cbn [fmap list_fmap fst].
  intros [Hd Hnd]%NoDup_cons. cbn [omap list_omap].
  destruct (derived_entry m (d, b)) as [[d' off]|] eqn:He; [|by apply IH].
  unfold derived_entry in He. cbn [fst snd] in *.
  destruct (m !! d), (m !! b); simplify_eq/=. case_match; simplify_eq.
  cbn [fmap list_fmap fst]. apply NoDup_cons. split; [|by apply IH].
  intros Hin. by apply Hd, (derived_entries_fst m D).
Qed.

(** Slots of a frame a collection can handle: derived pointers and object
    pointers are in different slots and each base is an object pointer. *)
Definition slots_ok m (D : list (Z * Z)) (O : list (bool * Z)) : Prop :=
  NoDup (D.*1 ++ O.*2) ∧
  (∀ d b, (d, b) ∈ D → is_Some (m !! d) ∧ (false, b) ∈ O) ∧
  (∀ x, x ∈ O → is_Some (m !! x.2)).

(** What the slots hold after a collection. *)
Definition collected m m' (D : list (Z * Z)) (O : list (bool * Z)) : Prop :=
  (∀ x, x ∈ O → m' !! x.2 = moved x <$> m !! x.2) ∧
  (∀ d b v base, (d, b) ∈ D → m !! d = Some v → m !! b = Some base →
     m' !! d = Some (if is_null_oop narrow_oop_base base then v else u64 (move base + (v - base)))) ∧
  (∀ a, a ∉ D.*1 → a ∉ O.*2 → m' !! a = m !! a).

Lemma slots_disjoint m D O :
  slots_ok m D O → ∀ d b x, (d, b) ∈ D → x ∈ O → (d ∉ O.*2) ∧ (x.2 ∉ D.*1) ∧ (b ∉ D.*1).
Proof.
  intros ((_ & Hdis & _)%NoDup_app & HD & _) d b x Hdb Hx.
  assert (∀ y, y ∈ O → y.2 ∉ D.*1) as HO.
  { intros y Hy Hin. apply (Hdis _ Hin). apply list_elem_of_fmap. by exists y. }
  split_and!; [|by apply HO|by apply (HO (false, b)), (HD d b)].
  apply Hdis. apply list_elem_of_fmap. by exists (d, b).
Qed.

(** The two loops of [all_do]: what the slots hold before the derived pointers
    are rebuilt. *)
Lemma all_do_slots m D O (k : M GCState unit) :
  slots_ok m D O →
  ∃ m', (mforeach derive D ;; mforeach (visit do_oop do_narrow_oop) O ;; k) (mkGC m (Some []) true)
          = k (mkGC m' (Some (omap (derived_entry m) D)) true) ∧
    (∀ x, x ∈ O → m' !! x.2 = moved x <$> m !! x.2) ∧
    (∀ d b base, (d, b) ∈ D → m !! b = Some base →
       m' !! d = if is_null_oop narrow_oop_base base then m !! d else Some b) ∧
    (∀ a, a ∉ D.*1 → a ∉ O.*2 → m' !! a = m !! a).
Proof.
  intros Hok. pose proof (slots_disjoint m D O Hok) as Hdis.
  destruct Hok as ((HndD & Hdis' & HndO)%NoDup_app & HD & HO).
  destruct (derive_all m [] D HndD) as (m1 & E1 & Hout1 & Hder1).
  { intros d b Hdb. destruct (HD d b Hdb) as [? Hb].
    split_and!; [done|by apply (HO _ Hb)|by apply (Hdis d b _ Hdb Hb)]. }
  assert (∀ x, x ∈ O → m1 !! x.2 = m !! x.2) as HO1.
  { intros x Hx. apply Hout1. intros Hin. apply (Hdis' _ Hin). apply list_elem_of_fmap. by exists x. }
  cbn [app] in E1. rewrite (M_bind_Some _ _ _ _ _ E1).
  destruct (visit_all (mkGC m1 (Some (omap (derived_entry m) D)) true) O HndO) as (m2 & E2 & Hout2 & Hmv2).
  { intros x Hx. cbn [mem]. rewrite HO1 by done. by apply HO. }
  cbn [mem dp_list dp_active] in *. rewrite (M_bind_Some _ _ _ _ _ E2). exists m2. split_and!; [done| | |].
  - intros x Hx. by rewrite Hmv2, HO1.
  - intros d b base Hdb Hb. rewrite Hout2; [by apply Hder1|].
    destruct (HD d b Hdb) as [_ HbO]. by apply (Hdis d b _ Hdb HbO).
  - intros a HaD HaO. by rewrite Hout2, Hout1.
Qed.

Lemma collect_slots m D O :
  slots_ok m D O →
  ∃ m', (mforeach derive D ;; mforeach (visit do_oop do_narrow_oop) O ;; update_pointers)
          (mkGC m (Some []) true) = Some (tt, mkGC m' (Some []) false) ∧ collected m m' D O.
Proof.
  intros Hok. pose proof (slots_disjoint m D O Hok) as Hdis.
  destruct (all_do_slots m D O update_pointers Hok) as (m2 & -> & Hmv & Hder & Hout).
  destruct Hok as ((HndD & Hdis' & _)%NoDup_app & HD & HO).
  set (es := omap (derived_entry m) D).
  assert (∀ d off b v base, (d, off) ∈ es → (d, b) ∈ D → m !! d = Some v → m !! b = Some base →
    m2 !! d = Some b ∧ m2 !! b = Some (move base)) as Hent.
  { intros d off b v base (b' & v' & base' & Hdb' & Hv' & Hb' & Hnull & _)%derived_entries_elem Hdb Hv Hb.
    pose proof (fst_functional D d b b' HndD Hdb Hdb') as <-.
    assert (base' = base) as -> by congruence.
    destruct (HD d b Hdb) as [_ HbO]. rewrite (Hder d b base), Hnull by done. split; [done|].
    change b with (false, b).2 at 1. rewrite (Hmv _ HbO). cbn [snd]. rewrite Hb. cbn.
    unfold moved. cbn [fst]. by rewrite Hnull. }
  destruct (update_all (mkGC m2 (Some es) true) es) as (m3 & E3 & Hout3 & Hup3);
    [by apply derived_entries_NoDup| |].
  { intros d off Hin. pose proof Hin as (b & v & base & Hdb & Hv & Hb & _)%derived_entries_elem.
    destruct (Hent d off b v base) as [? ?]; [done..|]. exists b, (move base). split_and!; [done..|].
    destruct (HD d b Hdb) as [_ HbO]. intros Hbe%(derived_entries_fst m D).
    by apply (Hdis d b _ Hdb HbO). }
  unfold update_pointers. rewrite M_bind_get. cbn [dp_list]. rewrite (M_bind_lift _ _ _ _ eq_refl).
  cbn [mem dp_list dp_active] in *. rewrite (M_bind_Some _ _ _ _ _ E3). exists m3. split; [done|].
  assert (∀ a, a ∉ D.*1 → m3 !! a = m2 !! a) as H32.
  { intros a Ha. apply Hout3. intros Hin. by apply Ha, (derived_entries_fst m D). }
  split_and!.
  - intros x Hx. rewrite H32; [by apply Hmv|]. intros Hin. apply (Hdis' _ Hin).
    apply list_elem_of_fmap. by exists x.
  - intros d b v base Hdb Hv Hb. destruct (is_null_oop _ base) eqn:Hnull.
    + rewrite Hout3; [by rewrite (Hder d b base), Hnull|].
      intros ([d' off] & -> & (b' & v' & base' & Hdb' & _ & Hb' & Hnn & _)%derived_entries_elem)%list_elem_of_fmap.
      cbn [fst] in *. pose proof (fst_functional D _ b b' HndD Hdb Hdb') as <-. congruence.
    + assert ((d, s64 (v - base)) ∈ es) as Hin by (apply derived_entries_elem; by exists b, v, base).
      destruct (Hent _ _ b v base Hin) as [? ?]; [done..|].
      rewrite (Hup3 d _ b (move base) Hin) by done. by rewrite u64_offset.
  - intros a HaD HaO. by rewrite H32, Hout.
Qed.
End collection.

(** ** A collection over a frame *)

Definition slot (fr : frame) (rm : RegisterMap) (reg : VMReg) : Z :=
  default 0 (oopmapreg_to_location fr rm reg).

Definition derived_slots (fr : frame) (rm : RegisterMap) (l : list OopMapValue) : list (Z * Z) :=
  (λ o, (slot fr rm (omv_reg o), slot fr rm (content_reg o)))
    <$> filter (λ o, selects derived_oop_value o = true) l.
Definition oop_slots (fr : frame) (rm : RegisterMap) (l : list OopMapValue) : list (bool * Z) :=
  (λ o, (is_narrowoop o, slot fr rm (omv_reg o)))
    <$> filter (λ o, selects (Z.lor oop_value narrowoop_value) o = true) l.

Definition legal_entry (o : OopMapValue) : Prop := legal_type (omv_type o).

(** Every entry has a slot. *)
Definition entries_located (fr : frame) (rm : RegisterMap) (l : list OopMapValue) : Prop :=
  ∀ o, o ∈ l → legal_entry o ∧ slot fr rm (omv_reg o) ≠ 0 ∧
    (is_derived_oop o = true → is_Some (oopmapreg_to_location fr rm (content_reg o))).

Lemma guarantee_slot fr rm reg (k : Z → M GCState unit) s :
  slot fr rm reg ≠ 0 →
  (guarantee_location (oopmapreg_to_location fr rm reg) ≫= k) s = k (slot fr rm reg) s.
Proof.
  unfold slot. destruct (oopmapreg_to_location fr rm reg) as [a|]; [|done]. cbn [default].
  intros Ha. apply M_bind_Some. unfold guarantee_location. rewrite (M_bind_lift _ _ _ _ eq_refl).
  by rewrite (proj2 (Z.eqb_neq a 0)).
Qed.

Lemma selected_derived o :
  legal_entry o → selects derived_oop_value o = true → is_derived_oop o = true.
Proof.
  unfold legal_entry, legal_type, selects, is_derived_oop. intros Ht.
  repeat (apply elem_of_cons in Ht as [->|Ht]; [done|]). by apply elem_of_nil in Ht.
Qed.

Lemma selected_oop o :
  legal_entry o → selects (Z.lor oop_value narrowoop_value) o = true →
  (omv_type o =? oop_value) = negb (is_narrowoop o).
Proof.
  unfold legal_entry, legal_type, selects, is_narrowoop. intros Ht.
  repeat (apply elem_of_cons in Ht as [->|Ht]; [done|]). by apply elem_of_nil in Ht.
Qed.

Lemma content_reg_equiv o o' :
  omv_equiv o o' → has_content o' = true → content_reg o = content_reg o'.
Proof. intros Heq Hc. unfold content_reg. f_equal. apply Heq. by rewrite (has_content_proper o o'). Qed.

Lemma do_derived_slots narrow_oop_base fr rm om l s :
  has_entries om l → entries_located fr rm l →
  oms_foreach (do_derived narrow_oop_base fr rm add_derived_oop) (new_oms_mask om derived_oop_value) s
  = mforeach (derive narrow_oop_base) (derived_slots fr rm l) s.
Proof.
  intros Hom Hl. rewrite (oms_foreach_spec _ om derived_oop_value l); [| |done].
  - apply mforeach_fmap. intros o t [Hs Ho]%list_elem_of_filter. destruct (Hl o Ho) as (Hlg & Hr & Hc).
    destruct Hc as [c Hc]; [by apply selected_derived|].
    unfold do_derived, derive. rewrite guarantee_slot, (M_bind_lift _ _ _ _ Hc) by done.
    assert (slot fr rm (content_reg o) = c) as Hsc by (unfold slot; by rewrite Hc).
    cbn [fst snd]. by rewrite Hsc.
  - intros o o' Ho Hs Heq. unfold do_derived. rewrite (omv_reg_proper o o' Heq).
    rewrite (content_reg_equiv o o'); [done|done|]. unfold has_content.
    rewrite (selected_derived o'); [apply orb_true_r|by apply Hl|done].
Qed.

Lemma do_oop_slots narrow_oop_base fr rm do_oop do_narrow_oop om l s :
  has_entries om l → entries_located fr rm l →
  oms_foreach (do_oop_value narrow_oop_base fr rm do_oop do_narrow_oop)
    (new_oms_mask om (Z.lor oop_value narrowoop_value)) s
  = mforeach (visit narrow_oop_base do_oop do_narrow_oop) (oop_slots fr rm l) s.
Proof.
  intros Hom Hl. rewrite (oms_foreach_spec _ om (Z.lor oop_value narrowoop_value) l); [| |done].
  - apply mforeach_fmap. intros o t [Hs Ho]%list_elem_of_filter. destruct (Hl o Ho) as (Hlg & Hr & _).
    unfold do_oop_value, visit. rewrite guarantee_slot by done. cbn [fst snd].
    rewrite (selected_oop o Hlg Hs). fold (is_narrowoop o). by destruct (is_narrowoop o).
  - intros o o' Ho Hs Heq. unfold do_oop_value. by rewrite (omv_reg_proper o o' Heq), (omv_type_proper o o' Heq).
Qed.

(** C11: A collection over a compiled frame ([oops_do], the closure moving objects,
    then [update_pointers]) succeeds and leaves every object pointer and
    compressed pointer of the map updated by the closure, every pointer derived
    from an object at its old distance from the object's new address, NULL
    pointers (in either encoding) and what is derived from them unchanged, no
    other word touched, and the table empty and inactive. *)
Theorem collection_updates_frame narrow_oop_base do_oop do_narrow_oop move move_narrow fr rm om l m :
  moves do_oop move → moves do_narrow_oop move_narrow →
  oop_map_for_return_address (frame_cb fr) (frame_pc fr) = Some om →
  has_entries om l → entries_located fr rm l →
  slots_ok m (derived_slots fr rm l) (oop_slots fr rm l) →
  ∃ m', (oops_do narrow_oop_base fr rm do_oop do_narrow_oop ;; update_pointers)
          (dp_clear (mkGC m None false)) = Some (tt, mkGC m' (Some []) false) ∧
    collected narrow_oop_base move move_narrow m m' (derived_slots fr rm l) (oop_slots fr rm l).
Proof.
  intros Hoop Hnarrow Hmap Hom Hl Hok.
  destruct (collect_slots narrow_oop_base _ _ _ _ Hoop Hnarrow m _ _ Hok) as (m' & E & Hm').
  exists m'. split; [|done]. rewrite <- E. unfold oops_do, all_do, dp_clear. cbn [mem dp_list].
  unfold mbind, M_bind. rewrite Hmap. cbn [mlift fmap option_fmap option_map].
  rewrite (do_derived_slots _ _ _ _ l) by done. destruct (mforeach _ _ _) as [[[] s1]|]; [|done].
  by rewrite (do_oop_slots _ _ _ _ _ _ l).
Qed.

(** ** Register maps as finite maps *)

Implicit Types r : Z.

(** The register whose saved area holds the part [r] of a vector register, and
    the offset of the part in it. *)
Definition xmm_base (r : Z) : option (Z * Z) :=
  if decide (max_fpr ≤ r < max_xmm ∧ (r - max_fpr) mod 4 ≠ 0)
  then Some (r - (r - max_fpr) mod 4, (r - max_fpr) mod 4 * 4) else None.

(** Where a register is, when [g] are the locations that were set. *)
Definition reg_location (g : gmap Z Z) (r : Z) : Z :=
  match g !! r with
  | Some a => a
  | None =>
      match xmm_base r with
      | Some (base, offset) =>
          let a := default 0 (g !! base) in if decide (a = 0) then 0 else a + offset
      | None => 0
      end
  end.

Definition valid_at (rm : RegisterMap) (r : Z) : bool :=
  match zget (rm_location_valid rm) (r / 64) with
  | Some w => Z.testbit w (r mod 64)
  | None => false
  end.

Record rm_represents (rm : RegisterMap) (g : gmap Z Z) : Prop := {
  rep_location : zlen (rm_location rm) = reg_count;
  rep_valid : zlen (rm_location_valid rm) = location_valid_size;
  rep_words : Forall (in_u 64) (rm_location_valid rm);
  rep_bits : ∀ r, 0 ≤ r → valid_at rm r = true ↔ is_Some (g !! r);
  rep_get : ∀ r a, g !! r = Some a → zget (rm_location rm) r = Some a
}.

Lemma rep_range rm g r a : rm_represents rm g → g !! r = Some a → 0 ≤ r < reg_count.
Proof.
  intros Hr Hg. pose proof (zget_Some _ _ _ (rep_get _ _ Hr r a Hg)) as H.
  by rewrite (rep_location _ _ Hr) in H.
Qed.

Lemma quot_rem_64 r : 0 ≤ r → Z.quot r 64 = r / 64 ∧ Z.rem r 64 = r mod 64.
Proof. intros Hr. split; [by apply Z.quot_div_nonneg|by apply Z.rem_mod_nonneg]. Qed.

Lemma valid_bit_eq r : 0 ≤ r → valid_bit r = Z.shiftl 1 (r mod 64).
Proof.
  intros Hr. unfold valid_bit, location_valid_type_size. rewrite (proj2 (quot_rem_64 r Hr)).
  apply wrapU_id. unfold in_u. rewrite Z.shiftl_1_l. pose proof (Z.mod_pos_bound r 64 eq_refl).
  split; [lia|]. apply Z.pow_lt_mono_r; lia.
Qed.

Lemma testbit_valid_bit r i : 0 ≤ r → 0 ≤ i → Z.testbit (valid_bit r) i = (i =? r mod 64).
Proof.
  intros Hr Hi. rewrite valid_bit_eq by done. rewrite Z.shiftl_1_l.
  destruct (Z.eqb_spec i (r mod 64)) as [->|Hne]; [by apply Z.pow2_bits_true|by apply Z.pow2_bits_false].
Qed.

Lemma land_valid_bit w r : 0 ≤ r → negb (Z.land w (valid_bit r) =? 0) = Z.testbit w (r mod 64).
Proof.
  intros Hr. pose proof (Z.mod_pos_bound r 64 eq_refl) as Hm.
  destruct (Z.eqb_spec (Z.land w (valid_bit r)) 0) as [Hz|Hz]; symmetry; cbn [negb].
  - apply (f_equal (λ x, Z.testbit x (r mod 64))) in Hz.
    rewrite Z.land_spec, testbit_valid_bit, Z.eqb_refl, andb_true_r, Z.bits_0 in Hz by lia. done.
  - destruct (Z.testbit w (r mod 64)) eqn:Hw; [done|]. destruct Hz. apply Z.bits_inj'. intros i Hi.
    rewrite Z.land_spec, testbit_valid_bit, Z.bits_0 by lia.
    destruct (Z.eqb_spec i (r mod 64)) as [->|]; [by rewrite Hw|apply andb_false_r].
Qed.

Lemma word_of_register rm g r :
  rm_represents rm g → 0 ≤ r < reg_count → ∃ w, zget (rm_location_valid rm) (r / 64) = Some w.
Proof.
  intros Hr Hrange. change reg_count with 177 in Hrange.
  destruct (zget_is_Some (rm_location_valid rm) (r / 64)) as [w Hw]; [|by exists w].
  rewrite (rep_valid _ _ Hr). change location_valid_size with 3. machine.
Qed.

Lemma location_with_spec pd rm g r :
  rm_represents rm g → 0 ≤ r < reg_count →
  location_with pd rm r = match g !! r with Some a => Some a | None => pd r end.
Proof.
  intros Hrep Hr. destruct (word_of_register rm g r Hrep Hr) as [w Hw]. unfold location_with, location_valid_type_size.
  rewrite (proj1 (quot_rem_64 r (proj1 Hr))), Hw. cbn [mbind option_bind]. rewrite land_valid_bit by lia.
  pose proof (rep_bits _ _ Hrep r (proj1 Hr)) as Hb. unfold valid_at in Hb. rewrite Hw in Hb.
  destruct (g !! r) as [a|] eqn:Hg.
  - rewrite (proj2 Hb) by eauto. by apply (rep_get _ _ Hrep).
  - destruct (Z.testbit w (r mod 64)) eqn:Ht; [|done]. by destruct (proj1 Hb eq_refl).
Qed.

Lemma pd_location_spec loc r :
  0 ≤ r < reg_count →
  pd_location_with loc r =
    match xmm_base r with
    | Some (base, offset) =>
        a ← loc base; if negb (a =? 0) then Some (a + offset) else Some 0
    | None => Some 0
    end.
Proof.
  intros Hr. change reg_count with 177 in Hr. unfold pd_location_with, xmm_base, is_XMMRegister, XMMRegister_as_VMReg, as_VMReg, next.
  change max_fpr with 48. change max_xmm with 176.
  destruct (Z.leb_spec 48 r); [|by rewrite decide_False by lia].
  destruct (Z.ltb_spec r 176); [|by rewrite decide_False by lia]. cbn [andb].
  rewrite Z.rem_mod_nonneg by lia. destruct (Z.eqb_spec ((r - 48) mod 4) 0) as [Hz|Hz].
  { by rewrite decide_False by lia. }
  rewrite decide_True by lia. rewrite Z.shiftr_div_pow2, Z.shiftl_mul_pow2 by done. change (2 ^ 3) with 8.
  destruct (Z.leb_spec 16 ((r - ((r - 48) / 8 * 8 + 48)) * 4)).
  - replace ((r - 48) / 8 * 8 + 48 + 1 + 1 + 1 + 1) with (r - (r - 48) mod 4) by machine.
    replace ((r - ((r - 48) / 8 * 8 + 48)) * 4 - 16) with ((r - 48) mod 4 * 4) by machine. done.
  - replace ((r - 48) / 8 * 8 + 48) with (r - (r - 48) mod 4) by machine.
    replace ((r - (r - (r - 48) mod 4)) * 4) with ((r - 48) mod 4 * 4) by machine. done.
Qed.

Lemma xmm_base_base r base off :
  xmm_base r = Some (base, off) → 0 ≤ base < reg_count ∧ xmm_base base = None.
Proof.
  unfold xmm_base. change reg_count with 177. change max_fpr with 48. change max_xmm with 176.
  intros H. case_decide as Hd; [|done]. injection H as <- <-. split; [machine|].
  rewrite decide_False; [done|]. intros [_ Hn]. apply Hn. machine.
Qed.

(** [location] is the abstract one; in particular its recursion ends. *)
Lemma location_spec rm g r :
  rm_represents rm g → 0 ≤ r < reg_count → location rm r = Some (reg_location g r).
Proof.
  intros Hrep Hr. unfold location, reg_location. cbn [location_fuel].
  rewrite (location_with_spec _ rm g r Hrep Hr). destruct (g !! r) as [a|]; [done|].
  rewrite pd_location_spec by done. destruct (xmm_base r) as [[base off]|] eqn:Hx; [|done].
  destruct (xmm_base_base _ _ _ Hx) as [Hb Hbb]. rewrite (location_with_spec _ rm g base Hrep Hb).
  destruct (g !! base) as [a|]; cbn [mbind option_bind from_option]; unfold id.
  - destruct (Z.eqb_spec a 0); [by rewrite decide_True|by rewrite decide_False].
  - by rewrite pd_location_spec, Hbb by done.
Qed.

(** Setting a location inserts it. *)
Lemma set_location_spec rm g r a :
  rm_represents rm g → 0 ≤ r < reg_count →
  ∃ rm', set_location r a rm = Some (tt, rm') ∧ rm_represents rm' (<[r := a]> g) ∧
    rm_update_map rm' = rm_update_map rm.
Proof.
  intros Hrep Hr. destruct (word_of_register rm g r Hrep Hr) as [w Hw].
  pose proof (rep_location _ _ Hrep) as Hlen. pose proof (zget_Some _ _ _ Hw) as Hwr.
  unfold set_location, location_valid_type_size. rewrite (proj1 (quot_rem_64 r (proj1 Hr))).
  rewrite zset_eq by (rewrite Hlen; done). cbn [mbind option_bind]. rewrite Hw. cbn [mbind option_bind].
  rewrite zset_eq by done. eexists. split; [done|]. split; [|done]. split; cbn [rm_location rm_location_valid].
  - unfold zlen. rewrite length_insert. done.
  - unfold zlen. rewrite length_insert. apply (rep_valid _ _ Hrep).
  - apply Forall_insert; [apply (rep_words _ _ Hrep)|]. apply in_u_lor; [done| |].
    + unfold zget in Hw. rewrite decide_True in Hw by lia.
      by eapply (Forall_lookup_1 (in_u 64)); [apply (rep_words _ _ Hrep)|].
    + rewrite valid_bit_eq by lia. unfold in_u. rewrite Z.shiftl_1_l.
      pose proof (Z.mod_pos_bound r 64 eq_refl). split; [lia|]. apply Z.pow_lt_mono_r; lia.
  - intros r' Hr'. unfold valid_at. cbn [rm_location_valid]. rewrite zget_insert by done.
    pose proof (rep_bits _ _ Hrep r' Hr') as Hb. unfold valid_at in Hb.
    pose proof (Z.mod_pos_bound r' 64 eq_refl).
    destruct (decide (r' = r)) as [->|Hne].
    { rewrite decide_True, Z.lor_spec, testbit_valid_bit, Z.eqb_refl, orb_true_r, lookup_insert_eq by lia. by split; eauto. }
    rewrite lookup_insert_ne by done. case_decide as Hd; [|done].
    rewrite Hd, Hw in Hb. rewrite Z.lor_spec, testbit_valid_bit by lia.
    rewrite (proj2 (Z.eqb_neq (r' mod 64) (r mod 64))), orb_false_r; [done|]. intros Hm.
    apply Hne. rewrite (Z.div_mod r' 64), (Z.div_mod r 64) by done. congruence.
  - intros r' a' Hg. rewrite zget_insert by (rewrite Hlen; done).
    destruct (decide (r' = r)) as [->|Hne]; [rewrite lookup_insert_eq in Hg; congruence|].
    rewrite lookup_insert_ne in Hg by done. by apply (rep_get _ _ Hrep).
Qed.

Lemma new_register_map_spec : rm_represents (new_register_map true) ∅.
Proof.
  split; [done|done|by repeat constructor| |by intros r a; rewrite lookup_empty].
  intros r Hr. rewrite lookup_empty. split; [|by intros []]. unfold valid_at, new_register_map, rm_clear.
  cbn [rm_location_valid rm_update_map]. unfold zget. case_decide; [|done].
  destruct (replicate _ _ !! _) as [w|] eqn:Hw; [|done].
  apply lookup_replicate in Hw as [-> _]. by rewrite Z.bits_0.
Qed.

(** *** The copy constructor *)

Lemma copy_bits_spec fuel bits j from to :
  in_u (Z.of_nat fuel) bits → 0 ≤ j → zlen from = zlen to →
  (∀ i, 0 ≤ i → Z.testbit bits i = true → j + i < zlen from) →
  ∃ to', copy_bits fuel bits j from to = Some to' ∧ zlen to' = zlen to ∧
    ∀ k, zget to' k = if decide (j ≤ k ∧ Z.testbit bits (k - j) = true) then zget from k else zget to k.
Proof.
  revert bits j to. induction fuel as [|fuel IH]; intros bits j to Hb Hj Hlen Hin.
  { assert (bits = 0) as -> by (unfold in_u in Hb; simpl in Hb; lia). exists to. split_and!; [done..|].
    intros k. by rewrite decide_False by (rewrite Z.bits_0; naive_solver). }
  cbn [copy_bits]. destruct (Z.eqb_spec bits 0) as [->|Hnz].
  { exists to. split_and!; [done..|]. intros k. by rewrite decide_False by (rewrite Z.bits_0; naive_solver). }
  pose proof (land_valid_bit bits 0 ltac:(lia)) as Hbit. change (valid_bit 0) with 1 in Hbit.
  change (0 mod 64) with 0 in Hbit. rewrite Hbit.
  assert (in_u (Z.of_nat fuel) (Z.shiftr bits 1)) as Hb'.
  { unfold in_u in *. rewrite Z.shiftr_div_pow2 by done. change (2 ^ 1) with 2.
    rewrite Nat2Z.inj_succ, Z.pow_succ_r in Hb by lia. machine. }
  assert (∀ to1, zlen to1 = zlen to → ∃ to', copy_bits fuel (Z.shiftr bits 1) (j + 1) from to1 = Some to' ∧
    zlen to' = zlen to ∧ ∀ k, zget to' k =
      if decide (j + 1 ≤ k ∧ Z.testbit bits (k - j) = true) then zget from k else zget to1 k) as Hrest.
  { intros to1 H1. destruct (IH (Z.shiftr bits 1) (j + 1) to1) as (to' & E & Hl & Hk);
      [done|lia|congruence| |].
    - intros i Hi Ht. rewrite Z.shiftr_spec in Ht by done. specialize (Hin (i + 1) ltac:(lia) Ht). lia.
    - exists to'. split_and!; [done|congruence|]. intros k. rewrite Hk.
      destruct (decide (j + 1 ≤ k)); [|by rewrite !decide_False by lia].
      rewrite Z.shiftr_spec by lia. by replace (k - (j + 1) + 1) with (k - j) by lia. }
  destruct (Z.testbit bits 0) eqn:H0.
  - pose proof (Hin 0 ltac:(lia) H0) as Hjr. rewrite Z.add_0_r in Hjr.
    destruct (zget_is_Some from j) as [x Hx]; [lia|]. rewrite Hx. cbn [mbind option_bind].
    rewrite zset_eq by lia. cbn [mbind option_bind].
    destruct (Hrest (<[Z.to_nat j := x]> to)) as (to' & E & Hl & Hk); [unfold zlen; by rewrite length_insert|].
    exists to'. split_and!; [done..|]. intros k. rewrite Hk, zget_insert by lia.
    destruct (decide (k = j)) as [->|Hne].
    + rewrite decide_False by lia. rewrite decide_True; [done|]. by rewrite Z.sub_diag.
    + apply (decide_ext (j + 1 ≤ k ∧ Z.testbit bits (k - j) = true)). intuition lia.
  - cbn [mbind option_bind]. destruct (Hrest to eq_refl) as (to' & E & Hl & Hk).
    exists to'. split_and!; [done..|]. intros k. rewrite Hk. apply decide_ext. split; [intuition lia|].
    intros [Hk1 Ht]. split; [|done]. destruct (decide (k = j)) as [->|]; [|lia].
    rewrite Z.sub_diag in Ht. congruence.
Qed.

Lemma valid_at_word map i w k :
  zget (rm_location_valid map) i = Some w → i * 64 ≤ k < i * 64 + 64 →
  valid_at map k = Z.testbit w (k - i * 64).
Proof.
  intros Hw Hk. unfold valid_at.
  assert (k / 64 = i ∧ k mod 64 = k - i * 64) as [-> ->] by machine. by rewrite Hw.
Qed.

Lemma copy_words_spec n i map to :
  0 ≤ i → i + Z.of_nat n ≤ zlen (rm_location_valid map) → Forall (in_u 64) (rm_location_valid map) →
  zlen (rm_location map) = zlen to →
  (∀ r, 0 ≤ r → valid_at map r = true → r < zlen (rm_location map)) →
  ∃ to', copy_words n i map to = Some to' ∧ zlen to' = zlen to ∧
    ∀ k, zget to' k = if decide (i * 64 ≤ k < (i + Z.of_nat n) * 64 ∧ valid_at map k = true)
                      then zget (rm_location map) k else zget to k.
Proof.
  intros Hi. revert i Hi to. induction n as [|n IH]; intros i Hi to Hn Hw Hlen Hbits.
  { exists to. split_and!; [done..|]. intros k. by rewrite decide_False by lia. }
  destruct (zget_is_Some (rm_location_valid map) i) as [w Hwi]; [lia|].
  assert (in_u 64 w) as Hw64.
  { unfold zget in Hwi. rewrite decide_True in Hwi by lia. by eapply (Forall_lookup_1 (in_u 64)). }
  cbn [copy_words]. rewrite Hwi. cbn [mbind option_bind]. unfold location_valid_type_size.
  destruct (copy_bits_spec 64 w (i * 64) (rm_location map) to) as (to1 & E1 & Hl1 & Hk1); [done|lia|done| |].
  { intros b Hb Ht. apply Hbits; [lia|].
    destruct (decide (b < 64)); [|by rewrite (testbit_small 64 w b) in Ht by (done || lia)].
    rewrite (valid_at_word map i w) by (done || lia). by replace (i * 64 + b - i * 64) with b by lia. }
  rewrite E1. cbn [mbind option_bind].
  destruct (IH (i + 1) ltac:(lia) to1) as (to' & E & Hl & Hk); [lia|done|congruence|done|].
  exists to'. split_and!; [done|congruence|]. intros k. rewrite Hk, Hk1.
  destruct (decide (i * 64 ≤ k < i * 64 + 64)) as [Hin|Hout].
  - rewrite (decide_False (P := (i + 1) * 64 ≤ k < _ ∧ _)) by lia.
    apply decide_ext. rewrite (valid_at_word map i w) by done.
    split; intros [? ?]; (split; [lia|done]).
  - rewrite (decide_False (P := i * 64 ≤ k ∧ Z.testbit w (k - i * 64) = true)).
    + apply decide_ext. split; intros [? ?]; (split; [lia|done]).
    + intros [Hk0 Ht]. by rewrite (testbit_small 64 w) in Ht by (done || lia).
Qed.

(** The copy constructor keeps every location. *)
Lemma copy_register_map_spec rm g :
  rm_represents rm g → rm_update_map rm = true →
  ∃ rm', copy_register_map rm = Some rm' ∧ rm_represents rm' g ∧ rm_update_map rm' = true.
Proof.
  intros Hrep Hup. unfold copy_register_map. rewrite Hup.
  pose proof (rep_valid _ _ Hrep) as Hv.
  destruct (copy_words_spec (Z.to_nat location_valid_size) 0 rm (replicate (Z.to_nat reg_count) 0))
    as (l & E & Hl & Hk); [done|rewrite Hv; done|apply (rep_words _ _ Hrep)|apply (rep_location _ _ Hrep)| |].
  { intros r Hr [a Ha]%(rep_bits _ _ Hrep); [|done]. apply (rep_get _ _ Hrep), zget_Some in Ha. lia. }
  rewrite E. cbn [mbind option_bind].
  assert (take (Z.to_nat location_valid_size) (rm_location_valid rm) = rm_location_valid rm) as ->.
  { apply take_ge. unfold zlen in Hv. lia. }
  eexists. split; [done|]. split; [|done]. split; cbn [rm_location rm_location_valid];
    [done|done|apply (rep_words _ _ Hrep)|apply (rep_bits _ _ Hrep)|].
  intros r a Ha. pose proof (rep_range _ _ _ _ Hrep Ha) as Hr. rewrite Hk, decide_True; [by apply (rep_get _ _ Hrep)|].
  split; [change reg_count with 177 in Hr; change (Z.of_nat _) with 3; lia|].
  apply (rep_bits _ _ Hrep); [lia|eauto].
Qed.

(** *** Callee-saved registers *)

Definition callee_slot (fr : frame) (g : gmap Z Z) (r : Z) : Z :=
  if is_reg r then reg_location g r else unextended_sp fr + s32 (reg2stack r * stack_slot_size).

(** Where the caller's registers are, given where the callee's are. *)
Definition callee_saved_update (fr : frame) (l : list OopMapValue) (g : gmap Z Z) : gmap Z Z :=
  foldl (λ g o, <[content_reg o := callee_slot fr g (omv_reg o)]> g) g
    (filter (λ o, selects callee_saved_value o = true) l).

Definition callee_entry_ok (o : OopMapValue) : Prop :=
  legal_entry o ∧ (is_reg (omv_reg o) = true → 0 ≤ omv_reg o < reg_count) ∧
  (is_callee_saved o = true → 0 ≤ content_reg o < reg_count).
#[global] Instance callee_entry_ok_dec o : Decision (callee_entry_ok o).
Proof. unfold callee_entry_ok, legal_entry, legal_type. apply _. Defined.

Lemma selected_callee_saved o :
  legal_entry o → selects callee_saved_value o = true → is_callee_saved o = true.
Proof.
  unfold legal_entry, legal_type, selects, is_callee_saved. intros Ht.
  repeat (apply elem_of_cons in Ht as [->|Ht]; [done|]). by apply elem_of_nil in Ht.
Qed.

Lemma callee_slot_spec fr rm g r :
  rm_represents rm g → (is_reg r = true → 0 ≤ r < reg_count) →
  oopmapreg_to_location fr rm r = Some (callee_slot fr g r).
Proof.
  intros Hrep Hr. unfold oopmapreg_to_location, callee_slot. destruct (is_reg r); [|done].
  apply location_spec; [done|by apply Hr].
Qed.

Lemma update_callee_saved_all fr l rm g :
  rm_represents rm g → Forall (λ o, callee_entry_ok o ∧ is_callee_saved o = true) l →
  ∃ rm', mforeach (update_callee_saved fr) l rm = Some (tt, rm') ∧
    rm_represents rm' (foldl (λ g o, <[content_reg o := callee_slot fr g (omv_reg o)]> g) g l).
Proof.
  intros Hrep Hl. revert rm g Hrep. induction Hl as [|o l [(_ & Hr & Hc) Ho] _ IH]; intros rm g Hrep; [by exists rm|].
  destruct (set_location_spec rm g (content_reg o) (callee_slot fr g (omv_reg o)) Hrep (Hc Ho)) as (rm1 & E & Hrep1 & _).
  assert (update_callee_saved fr o rm = Some (tt, rm1)) as E1.
  { unfold update_callee_saved. rewrite M_bind_get. cbn zeta.
    by rewrite (M_bind_lift _ _ _ _ (callee_slot_spec fr rm g _ Hrep Hr)). }
  destruct (IH rm1 _ Hrep1) as (rm' & E' & Hrep'). exists rm'. split; [|done].
  cbn [mforeach]. by rewrite (M_bind_Some _ _ _ _ _ E1).
Qed.

(** ** Results: register maps *)

(** C30: A register map filled with [set_location] answers [location] as the
    finite map of what was set (the last location of a register counts; the
    unset parts of a saved vector register are at their offsets in its saved
    half; every other register has no location), and so does its copy. *)
Theorem register_map_refines sets :
  Forall (λ x, 0 ≤ x.1 < reg_count) sets →
  ∃ rm cp, mforeach (λ x, set_location x.1 x.2) sets (new_register_map true) = Some (tt, rm) ∧
    copy_register_map rm = Some cp ∧
    ∀ r, 0 ≤ r < reg_count →
      location rm r = Some (reg_location (foldl (λ g x, <[x.1 := x.2]> g) ∅ sets) r) ∧
      location cp r = location rm r.
Proof.
  intros Hsets.
  assert (∀ rm g, rm_represents rm g → rm_update_map rm = true →
    ∃ rm', mforeach (λ x, set_location x.1 x.2) sets rm = Some (tt, rm') ∧
      rm_represents rm' (foldl (λ g x, <[x.1 := x.2]> g) g sets) ∧ rm_update_map rm' = true) as Hrun.
  { induction Hsets as [|[r a] sets Hr _ IH]; intros rm g Hrep Hup; [by exists rm|].
    destruct (set_location_spec rm g r a Hrep Hr) as (rm1 & E & Hrep1 & Hup1).
    destruct (IH rm1 _ Hrep1) as (rm' & E' & Hrep'); [congruence|].
    exists rm'. cbn [mforeach fst snd foldl] in *. by rewrite (M_bind_Some _ _ _ _ _ E). }
  destruct (Hrun _ ∅ new_register_map_spec eq_refl) as (rm & E & Hrep & Hup).
  destruct (copy_register_map_spec rm _ Hrep Hup) as (cp & Ec & Hrepc & _).
  exists rm, cp. split_and!; [done..|]. intros r Hr.
  rewrite (location_spec rm _ r Hrep Hr), (location_spec cp _ r Hrepc Hr). done.
Qed.

Lemma register_map_refines_witness :
  ∃ rm cp, mforeach (λ x, set_location x.1 x.2) [(48, 4096); (6, 8192); (6, 8200)] (new_register_map true)
      = Some (tt, rm) ∧ copy_register_map rm = Some cp ∧
    location cp 51 = Some 4108 ∧ location cp 6 = Some 8200 ∧ location cp 52 = Some 0.
Proof.
  destruct (register_map_refines [(48, 4096); (6, 8192); (6, 8200)]) as (rm & cp & E & Ec & H).
  { apply (bool_decide_unpack _). vm_compute. exact I. }
  exists rm, cp. split; [exact E|]. split; [exact Ec|].
  destruct (H 51) as [H1 H2]; [by compute|]. destruct (H 6) as [H3 H4]; [by compute|].
  destruct (H 52) as [H5 H6]; [by compute|].
  rewrite H2, H4, H6, H1, H3, H5. split; [|split]; vm_compute; reflexivity.
Defined.

(** C29: [update_register_map] tells the caller's registers: afterwards every
    register the map lists as callee saved is where the callee saved it, the
    entries taken in order, and every other register where it was. *)
Theorem update_register_map_spec fr rm g om l :
  rm_represents rm g →
  oop_map_for_return_address (frame_cb fr) (frame_pc fr) = Some om →
  has_entries om l → Forall callee_entry_ok l →
  ∃ rm', update_register_map fr rm = Some (tt, rm') ∧
    rm_represents rm' (callee_saved_update fr l g) ∧
    ∀ r, 0 ≤ r < reg_count → location rm' r = Some (reg_location (callee_saved_update fr l g) r).
Proof.
  intros Hrep Hmap Hom Hl. unfold update_register_map. rewrite (M_bind_lift _ _ _ _ Hmap).
  rewrite Forall_forall in Hl. rewrite (oms_foreach_spec _ om callee_saved_value l); [| |done].
  - destruct (update_callee_saved_all fr (filter (λ o, selects callee_saved_value o = true) l) rm g Hrep)
      as (rm' & E & Hrep').
    { apply Forall_forall. intros o [Hs Ho]%list_elem_of_filter. split; [by apply Hl|].
      apply selected_callee_saved; [by apply Hl|done]. }
    exists rm'. split_and!; [done..|]. intros r Hr. by apply location_spec.
  - intros o o' Ho Hs Heq. unfold update_callee_saved.
    rewrite (content_reg_equiv o o' Heq), (omv_reg_proper o o' Heq); [done|]. unfold has_content.
    by rewrite (selected_callee_saved o') by (by apply Hl || done).
Qed.

(** *** A frame *)

Definition example_entries : list OopMapValue :=
  [new_omv 186 oop_value; set_content_reg 186 (new_omv 188 derived_oop_value);
   new_omv 190 narrowoop_value; set_content_reg 6 (new_omv 192 callee_saved_value)].
Definition example_map : OopMap :=
  mkOM (Some 16) (zlen example_entries) (Some (zlen (enc_entries example_entries))) (Some (enc_entries example_entries)) None.
Definition example_frame : frame :=
  mkFrame 1000 4112 (mkCB 4096 (mkOMSet 1 1 [Some example_map])).

Lemma example_has_entries : has_entries example_map example_entries.
Proof.
  split; [done|]. split; [apply (bool_decide_unpack _); vm_compute; exact I|].
  eexists. split; [done|]. apply (bytes_at_suffix []).
Qed.

Lemma update_register_map_spec_witness :
  ∃ rm', update_register_map example_frame (new_register_map true) = Some (tt, rm') ∧
    location rm' 6 = Some (1000 + 8 * 4).
Proof.
  destruct (update_register_map_spec example_frame (new_register_map true) ∅ example_map example_entries
    new_register_map_spec eq_refl example_has_entries) as (rm' & E & _ & H).
  { apply (bool_decide_unpack _). vm_compute. exact I. }
  exists rm'. split; [exact E|]. rewrite (H 6) by (by compute). vm_compute. reflexivity.
Defined.

Definition move_slot (d : Z) (a : Z) : M GCState unit := v ← load a; save a (v + d).
Lemma move_slot_moves d : moves (move_slot d) (λ v, v + d).
Proof.
  intros a s v Hv. unfold move_slot. rewrite (M_bind_Some _ _ _ _ _ (load_eq _ _ _ Hv)). by apply (save_eq _ _ _ v).
Qed.

Definition example_memory : gmap Z Z := {[ 1008 := 70000; 1016 := 70024; 1024 := 17; 1040 := 5 ]}.

Lemma collection_updates_frame_witness :
  ∃ m', (oops_do 0 example_frame (new_register_map true) (move_slot 512) (move_slot 64) ;; update_pointers)
      (dp_clear (mkGC example_memory None false)) = Some (tt, mkGC m' (Some []) false) ∧
    m' !! 1008 = Some 70512 ∧ m' !! 1016 = Some 70536 ∧ m' !! 1024 = Some 81 ∧ m' !! 1040 = Some 5.
Proof.
  destruct (collection_updates_frame 0 (move_slot 512) (move_slot 64) _ _ example_frame (new_register_map true)
    example_map example_entries example_memory (move_slot_moves 512) (move_slot_moves 64) eq_refl
    example_has_entries) as (m' & E & Hoop & Hder & Hout).
  { intros o Ho. repeat (apply elem_of_cons in Ho as [->|Ho]; [split; [|split];
      [apply (bool_decide_unpack _); vm_compute; exact I|by vm_compute|intros _; eexists; vm_compute; reflexivity]|]).
    by apply elem_of_nil in Ho. }
  { split; [apply (bool_decide_unpack _); vm_compute; exact I|]. split.
    - intros d b [[= -> ->]|[]%elem_of_nil]%elem_of_cons. split; [by eexists|]. left.
    - intros x [->|[->|[]%elem_of_nil]%elem_of_cons]%elem_of_cons; by eexists. }
  exists m'. split; [exact E|]. split; [|split; [|split]].
  - apply (Hoop (false, 1008)). left.
  - apply (Hder 1016 1008 70024 70000); [left|reflexivity|reflexivity].
  - apply (Hoop (true, 1024)). right. left.
  - apply (Hout 1040); apply (bool_decide_unpack _); vm_compute; exact I.
Defined.
