(* ===== verification/DebugInfoRec.v ===== *)
(** * The debug information recorder
    (src/share/vm/code/debugInfoRec.hpp and .cpp, pcDesc.hpp and .cpp)

    A compiler records, for each pc at which the frame can be inspected, the
    scopes that are active there.  Values arrays and scopes are written as
    chunks of bytes; a chunk that repeats an earlier one is dropped and the
    earlier one is used. *)

From stdpp Require Import base numbers list gmap fin_sets.
From S2P Require Import Prelude GlobalDefinitions CompressedStream GrowableArray VMReg DebugInfo OopMap.
Local Open Scope Z_scope.

(** ** PcDesc *)

Record PcDesc := mkPcDesc {
  pc_offset : Z;
  scope_decode_offset : Z;
  obj_decode_offset : Z;
  pc_flags : Z
}.

Definition PCDESC_reexecute : Z := Z.shiftl 1 0.
Definition PCDESC_is_method_handle_invoke : Z := Z.shiftl 1 1.
Definition PCDESC_return_oop : Z := Z.shiftl 1 2.
Definition PCDESC_rethrow_exception : Z := Z.shiftl 1 3.

Definition lower_offset_limit : Z := -1.
Definition upper_offset_limit : Z := Z.shiftr (u32 (-1)) 1.

Definition new_PcDesc (pc_offset scope_decode_offset obj_decode_offset : Z) : PcDesc :=
  mkPcDesc pc_offset scope_decode_offset obj_decode_offset 0.

Definition set_pc_offset (x : Z) (pd : PcDesc) : PcDesc :=
  mkPcDesc x (scope_decode_offset pd) (obj_decode_offset pd) (pc_flags pd).
Definition set_scope_decode_offset (x : Z) (pd : PcDesc) : PcDesc :=
  mkPcDesc (pc_offset pd) x (obj_decode_offset pd) (pc_flags pd).
Definition set_obj_decode_offset (x : Z) (pd : PcDesc) : PcDesc :=
  mkPcDesc (pc_offset pd) (scope_decode_offset pd) x (pc_flags pd).
Definition set_flag (mask : Z) (z : bool) (pd : PcDesc) : PcDesc :=
  mkPcDesc (pc_offset pd) (scope_decode_offset pd) (obj_decode_offset pd)
    (if z then Z.lor (pc_flags pd) mask else Z.land (pc_flags pd) (Z.lnot mask)).

Definition has_flag (mask : Z) (pd : PcDesc) : bool := negb (Z.land (pc_flags pd) mask =? 0).
Definition rethrow_exception : PcDesc → bool := has_flag PCDESC_rethrow_exception.
Definition should_reexecute : PcDesc → bool := has_flag PCDESC_reexecute.
Definition is_method_handle_invoke : PcDesc → bool := has_flag PCDESC_is_method_handle_invoke.
Definition return_oop : PcDesc → bool := has_flag PCDESC_return_oop.
Definition set_rethrow_exception : bool → PcDesc → PcDesc := set_flag PCDESC_rethrow_exception.
Definition set_should_reexecute : bool → PcDesc → PcDesc := set_flag PCDESC_reexecute.
Definition set_is_method_handle_invoke : bool → PcDesc → PcDesc := set_flag PCDESC_is_method_handle_invoke.
Definition set_return_oop : bool → PcDesc → PcDesc := set_flag PCDESC_return_oop.

(** Do the two refer to the same information? *)
Definition is_same_info (pd pd' : PcDesc) : bool :=
  (scope_decode_offset pd =? scope_decode_offset pd') &&
  (obj_decode_offset pd =? obj_decode_offset pd') &&
  (pc_flags pd =? pc_flags pd').

Definition real_pc (code_begin : Z) (pd : PcDesc) : Z := code_begin + pc_offset pd.

Definition serialized_null : Z := 0.

(** ** DIR_Chunk *)

Record DIR_Chunk := mkChunk {
  ck_address : Z;          (* the chunk's own address *)
  ck_offset : Z;
  ck_length : Z;
  ck_hash : Z
}.
#[global] Instance DIR_Chunk_eq_dec : EqDecision DIR_Chunk.
Proof. solve_decision. Defined.
#[global] Instance DIR_Chunk_inhabited : Inhabited DIR_Chunk := populate (mkChunk 0 0 0 0).

(** The byte at an index of a buffer. *)
Definition byte_at (b : list Z) (i : Z) : Z := default 0 (zget b i).

(** The loop of the constructor, up to [_hash = hash]. *)
Fixpoint hash_loop (n : nat) (i hash : Z) (b : list Z) (offset : Z) : Z :=
  match n with
  | O => hash
  | S n' =>
      if i =? 6 then hash
      else
        let hash := u32 (hash * 127) in
        let hash := u32 (hash + byte_at b (offset + i)) in
        hash_loop n' (i + 1) hash b offset
  end.
Definition new_DIR_Chunk (address offset length : Z) (b : list Z) : DIR_Chunk :=
  mkChunk address offset length (s32 (hash_loop (Z.to_nat length) 0 0 b offset)).

(** [memcmp] on two places of a buffer. *)
Fixpoint memcmp (n : nat) (b : list Z) (p q : Z) : Z :=
  match n with
  | O => 0
  | S n' =>
      let d := byte_at b p - byte_at b q in
      if d =? 0 then memcmp n' b (p + 1) (q + 1) else d
  end.

Definition chunk_compare (buf : list Z) (a b : DIR_Chunk) : Z :=
  if ck_hash a <? ck_hash b then 1
  else if ck_hash b <? ck_hash a then -1
  else if ck_length a <? ck_length b then 1
  else if ck_length b <? ck_length a then -1
  else memcmp (Z.to_nat (ck_length a)) buf (ck_offset b) (ck_offset a).

(** ** DebugInformationRecorder *)

Record DebugInformationRecorder (R : Type) := mkDIR {
  dir_writer : DebugInfoWriter R;            (* [_stream], [_oop_recorder], the ObjectValues *)
  dir_all_chunks : GrowableArray DIR_Chunk;
  dir_next_chunk : Z;
  dir_next_chunk_limit : Z;
  dir_arena : Z;                             (* the next free address of the resource area *)
  dir_pcs : list PcDesc;
  dir_pcs_size : Z;
  dir_pcs_length : Z;
  dir_prev_safepoint_pc : Z;
  dir_oopmaps : OopMapSet;
  dir_recording_non_safepoints : bool
}.
Arguments mkDIR {R} _ _ _ _ _ _ _ _ _ _ _.
Arguments dir_writer {R} _.
Arguments dir_all_chunks {R} _.
Arguments dir_next_chunk {R} _.
Arguments dir_next_chunk_limit {R} _.
Arguments dir_arena {R} _.
Arguments dir_pcs {R} _.
Arguments dir_pcs_size {R} _.
Arguments dir_pcs_length {R} _.
Arguments dir_prev_safepoint_pc {R} _.
Arguments dir_oopmaps {R} _.
Arguments dir_recording_non_safepoints {R} _.

Section recorder.
Context {R : Type} `{!IndexRecorder R}.
(** The flag [ShareDebugInfo] and whether it has its default. *)
Context (ShareDebugInfo ShareDebugInfo_is_default : bool).
Local Abbreviation DIR := (DebugInformationRecorder R).

Definition set_writer (w : DebugInfoWriter R) (d : DIR) : DIR :=
  mkDIR w (dir_all_chunks d) (dir_next_chunk d) (dir_next_chunk_limit d) (dir_arena d)
    (dir_pcs d) (dir_pcs_size d) (dir_pcs_length d) (dir_prev_safepoint_pc d)
    (dir_oopmaps d) (dir_recording_non_safepoints d).
Definition set_chunks (a : GrowableArray DIR_Chunk) (next limit arena : Z) (d : DIR) : DIR :=
  mkDIR (dir_writer d) a next limit arena (dir_pcs d) (dir_pcs_size d) (dir_pcs_length d)
    (dir_prev_safepoint_pc d) (dir_oopmaps d) (dir_recording_non_safepoints d).
Definition set_pcs (pcs : list PcDesc) (size length : Z) (d : DIR) : DIR :=
  mkDIR (dir_writer d) (dir_all_chunks d) (dir_next_chunk d) (dir_next_chunk_limit d)
    (dir_arena d) pcs size length (dir_prev_safepoint_pc d) (dir_oopmaps d)
    (dir_recording_non_safepoints d).
Definition set_prev_safepoint_pc (pc : Z) (d : DIR) : DIR :=
  mkDIR (dir_writer d) (dir_all_chunks d) (dir_next_chunk d) (dir_next_chunk_limit d)
    (dir_arena d) (dir_pcs d) (dir_pcs_size d) (dir_pcs_length d) pc (dir_oopmaps d)
    (dir_recording_non_safepoints d).
Definition set_oopmaps (oopmaps : OopMapSet) (d : DIR) : DIR :=
  mkDIR (dir_writer d) (dir_all_chunks d) (dir_next_chunk d) (dir_next_chunk_limit d)
    (dir_arena d) (dir_pcs d) (dir_pcs_size d) (dir_pcs_length d) (dir_prev_safepoint_pc d)
    oopmaps (dir_recording_non_safepoints d).
Definition mmodify (f : DIR → DIR) : M DIR unit := λ d, Some (tt, f d).

Definition on_writer {A} (m : M (DebugInfoWriter R) A) : M DIR A := λ d,
  '(x, w) ← m (dir_writer d); Some (x, set_writer w d).

Definition dir_stream (d : DIR) : CompressedWriteStream := dw_stream (dir_writer d).
Definition stream_position : M DIR Z := d ← mget; mret (ws_position (dir_stream d)).
Definition stream_set_position (p : Z) : M DIR unit := on_writer (on_stream (ws_set_position p)).
Definition stream_write_int (v : Z) : M DIR unit := on_writer (dw_write_int v).

(** [DIR_Chunk::operator new]: a place from the current array of chunks, or from
    a new one. *)
Definition CHUNK : Z := 100.
Definition chunk_place : M DIR Z :=
  d ← mget;
  (if dir_next_chunk_limit d <=? dir_next_chunk d
   then mmodify (set_chunks (dir_all_chunks d) (dir_arena d) (dir_arena d + CHUNK) (dir_arena d + CHUNK))
   else mret tt) ;;
  d ← mget;
  mmodify (set_chunks (dir_all_chunks d) (dir_next_chunk d + 1) (dir_next_chunk_limit d) (dir_arena d)) ;;
  mret (dir_next_chunk d).

Definition new_chunk (offset length : Z) : M DIR DIR_Chunk :=
  p ← chunk_place;
  d ← mget;
  mret (new_DIR_Chunk p offset length (ws_buffer (dir_stream d))).

Definition insert_chunk (ns : DIR_Chunk) : M DIR DIR_Chunk :=
  d ← mget;
  '(m, a) ← mlift (GA.insert_sorted (chunk_compare (ws_buffer (dir_stream d))) ns (dir_all_chunks d));
  mmodify (set_chunks a (dir_next_chunk d) (dir_next_chunk_limit d) (dir_arena d)) ;;
  mret m.

Definition sharing (d : DIR) : bool :=
  if ShareDebugInfo_is_default then ShareDebugInfo || dir_recording_non_safepoints d else ShareDebugInfo.

Definition find_sharable_decode_offset (stream_offset : Z) : M DIR Z :=
  d ← mget;
  if negb (sharing d) then mret serialized_null
  else
    position ← stream_position;
    let stream_length := position - stream_offset in
    ns ← new_chunk stream_offset stream_length;
    match_ ← insert_chunk ns;
    if negb (ck_address match_ =? ck_address ns) then
      d ← mget;
      mmodify (set_chunks (dir_all_chunks d) (ck_address ns) (dir_next_chunk_limit d) (dir_arena d)) ;;
      mret (ck_offset match_)
    else mret serialized_null.

(** The end of the three serialising functions. *)
Definition share (result : Z) : M DIR Z :=
  shared_result ← find_sharable_decode_offset result;
  if negb (shared_result =? serialized_null)
  then stream_set_position result ;; mret shared_result
  else mret result.

(** The nesting of objects is bounded by their number. *)
Definition nesting (d : DIR) : nat := S (size (dw_objects (dir_writer d))).

Definition serialize_monitor_values (monitors : option (list MonitorValue)) : M DIR Z :=
  match monitors with
  | None | Some [] => mret serialized_null
  | Some ms =>
      d ← mget;
      result ← stream_position;
      stream_write_int (zlen ms) ;;
      on_writer (mforeach (MonitorValue_write_on (nesting d)) ms) ;;
      share result
  end.

Definition serialize_scope_values (values : option (list ScopeValue)) : M DIR Z :=
  match values with
  | None | Some [] => mret serialized_null
  | Some vs =>
      d ← mget;
      result ← stream_position;
      stream_write_int (zlen vs) ;;
      on_writer (mforeach (write_on (nesting d)) vs) ;;
      share result
  end.

Definition create_scope_values (values : option (list ScopeValue)) : M DIR Z :=
  serialize_scope_values values.
Definition create_monitor_values (monitors : option (list MonitorValue)) : M DIR Z :=
  serialize_monitor_values monitors.

(** [_pcs[_pcs_length-1]] *)
Definition last_pc : M DIR PcDesc :=
  d ← mget;
  if 0 <? dir_pcs_length d then mlift (zget (dir_pcs d) (dir_pcs_length d - 1)) else mfailS.
Definition prev_pc : M DIR PcDesc :=
  d ← mget;
  if 1 <? dir_pcs_length d then mlift (zget (dir_pcs d) (dir_pcs_length d - 2)) else mfailS.
Definition update_pc (index : Z) (f : PcDesc → PcDesc) : M DIR unit :=
  d ← mget;
  pd ← mlift (zget (dir_pcs d) index);
  pcs ← mlift (zset (dir_pcs d) index (f pd));
  mmodify (set_pcs pcs (dir_pcs_size d) (dir_pcs_length d)).
Definition update_last_pc (f : PcDesc → PcDesc) : M DIR unit :=
  _ ← last_pc; d ← mget; update_pc (dir_pcs_length d - 1) f.

Definition add_new_pc_offset `{D : SizeArith} (pc : Z) : M DIR unit :=
  d ← mget;
  (if dir_pcs_length d =? dir_pcs_size d then
     let new_pcs_size := double (dir_pcs_size d) in
     let new_pcs := take (Z.to_nat (dir_pcs_length d)) (dir_pcs d)
                      ++ replicate (Z.to_nat (new_pcs_size - dir_pcs_length d)) (mkPcDesc 0 0 0 0) in
     mmodify (set_pcs new_pcs new_pcs_size (dir_pcs_length d))
   else mret tt) ;;
  d ← mget;
  pcs ← mlift (zset (dir_pcs d) (dir_pcs_length d) (new_PcDesc pc serialized_null serialized_null));
  mmodify (set_pcs pcs (dir_pcs_size d) (dir_pcs_length d + 1)).

Definition add_oopmap (pc : Z) (map : OopMap) : M DIR unit := λ d,
  '(_, oms) ← add_gc_map pc map (dir_oopmaps d); Some (tt, set_oopmaps oms d).

Definition add_safepoint (pc : Z) (map : OopMap) : M DIR unit :=
  add_oopmap pc map ;; add_new_pc_offset pc.
Definition add_non_safepoint (pc : Z) : M DIR unit := add_new_pc_offset pc.

(** [method] is the encoding of a [ciMethod] ([constant_encoding()]) when there
    is one, [methodH] the method of a handle, 0 when it is null. *)
Definition describe_scope (methodH : Z) (method : option Z) (bci : Z)
    (reexecute rethrow_exception is_method_handle_invoke return_oop : bool)
    (locals expressions monitors : Z) : M DIR unit :=
  last_pd ← last_pc;
  let sender_stream_offset := scope_decode_offset last_pd in
  stream_offset ← stream_position;
  update_last_pc (set_scope_decode_offset stream_offset) ;;
  update_last_pc (set_should_reexecute reexecute) ;;
  update_last_pc (set_rethrow_exception rethrow_exception) ;;
  update_last_pc (set_is_method_handle_invoke is_method_handle_invoke) ;;
  update_last_pc (set_return_oop return_oop) ;;
  stream_write_int sender_stream_offset ;;
  let method_enc := match method with Some m => m | None => methodH end in
  on_writer (write_metadata method_enc) ;;
  on_writer (write_bci bci) ;;
  stream_write_int locals ;;
  stream_write_int expressions ;;
  stream_write_int monitors ;;
  shared_stream_offset ← find_sharable_decode_offset stream_offset;
  if negb (shared_stream_offset =? serialized_null)
  then stream_set_position stream_offset ;;
       update_last_pc (set_scope_decode_offset shared_stream_offset)
  else mret tt.

(** The loop of [dump_object_pool], from the last object to the first. *)
Definition clear_visited (v : ScopeValue) : M (DebugInfoWriter R) unit :=
  match v with
  | ObjectPointer p => o ← get_object p; put_object p (set_visited false o)
  | _ => mfailS
  end.
Definition dump_object_pool (objects : option (list ScopeValue)) : M DIR unit :=
  d ← mget;
  if negb (0 <? dir_pcs_length d) then mfailS
  else
    match objects with
    | Some os => on_writer (mforeach clear_visited (reverse os))
    | None => mret tt
    end ;;
    offset ← serialize_scope_values objects;
    update_last_pc (set_obj_decode_offset offset).

Definition end_scopes (pc : Z) (is_safepoint : bool) : M DIR unit :=
  d ← mget;
  (if (2 <=? dir_pcs_length d) && dir_recording_non_safepoints d then
     last ← last_pc;
     prev ← prev_pc;
     if (dir_prev_safepoint_pc d <? pc_offset prev) && is_same_info prev last then
       update_pc (dir_pcs_length d - 2) (set_pc_offset pc) ;;
       d ← mget;
       mmodify (set_pcs (dir_pcs d) (dir_pcs_size d) (dir_pcs_length d - 1))
     else mret tt
   else mret tt) ;;
  (if is_safepoint then mmodify (set_prev_safepoint_pc pc) else mret tt).
Definition end_safepoint (pc : Z) : M DIR unit := end_scopes pc true.
Definition end_non_safepoint (pc : Z) : M DIR unit := end_scopes pc false.

Definition last_pc_offset : M DIR Z := pd ← last_pc; mret (pc_offset pd).
Definition data_size (d : DIR) : Z := ws_position (dir_stream d).
Definition sizeof_PcDesc : Z := 16.
Definition pcs_size : M DIR Z :=
  last ← last_pc_offset;
  (if negb (last =? upper_offset_limit) then add_new_pc_offset upper_offset_limit else mret tt) ;;
  d ← mget;
  mret (dir_pcs_length d * sizeof_PcDesc).

(** What [copy_to] hands to the nmethod. *)
Definition copied_data (d : DIR) : list Z :=
  take (Z.to_nat (ws_position (dir_stream d))) (ws_buffer (dir_stream d)).
Definition copied_pcs (d : DIR) : list PcDesc := take (Z.to_nat (dir_pcs_length d)) (dir_pcs d).

Definition new_recorder (objects : gmap Z ObjectValue) (oop_recorder : R) (oopmaps : OopMapSet)
    (recording_non_safepoints : bool) : option DIR :=
  let d := mkDIR (mkDW (new_write_stream (10 * 1024)) objects oop_recorder)
             (GA.ga_new 300 0 inhabitant) 0 0 1
             (replicate 100 (mkPcDesc 0 0 0 0)) 100 0 lower_offset_limit oopmaps recording_non_safepoints in
  '(_, d) ← (on_writer (on_stream (write_byte (s8 255))) ;; add_new_pc_offset lower_offset_limit) d;
  Some d.
End recorder.

(** ** The order of chunks *)

(** The bytes of a chunk. *)
Fixpoint slice (n : nat) (b : list Z) (p : Z) : list Z :=
  match n with O => [] | S n' => byte_at b p :: slice n' b (p + 1) end.

Fixpoint lex (l1 l2 : list Z) : Z :=
  match l1, l2 with
  | [], [] => 0
  | [], _ => -1
  | _, [] => 1
  | x :: l1', y :: l2' => if x - y =? 0 then lex l1' l2' else x - y
  end.

Lemma memcmp_lex n b p q : memcmp n b p q = lex (slice n b p) (slice n b q).
Proof. revert p q. induction n as [|n IH]; intros p q; [done|]. cbn [memcmp slice lex]. by rewrite IH. Qed.

Lemma lex_opp l1 l2 : Z.sgn (lex l1 l2) = - Z.sgn (lex l2 l1).
Proof.
  revert l2. induction l1 as [|x l1 IH]; intros [|y l2]; try done. cbn [lex].
  destruct (Z.eqb_spec (x - y) 0), (Z.eqb_spec (y - x) 0); try lia. by rewrite IH.
Qed.

Lemma lex_eq l1 l2 : lex l1 l2 = 0 → l1 = l2.
Proof.
  revert l2. induction l1 as [|x l1 IH]; intros [|y l2]; try done. cbn [lex].
  destruct (Z.eqb_spec (x - y) 0); [|lia]. intros H%IH. subst. f_equal. lia.
Qed.

Lemma lex_trans l1 l2 l3 : 0 < lex l1 l2 → 0 < lex l2 l3 → 0 < lex l1 l3.
Proof.
  revert l2 l3. induction l1 as [|x l1 IH]; intros [|y l2] [|z l3]; try done. cbn [lex].
  destruct (Z.eqb_spec (x - y) 0), (Z.eqb_spec (y - z) 0), (Z.eqb_spec (x - z) 0); try lia. apply IH.
Qed.

Lemma lex_refl l : lex l l = 0.
Proof. induction l as [|x l IH]; [done|]. cbn [lex]. by rewrite Z.sub_diag. Qed.

Definition chunk_key (b : list Z) (c : DIR_Chunk) : list Z :=
  ck_hash c :: ck_length c :: slice (Z.to_nat (ck_length c)) b (ck_offset c).

Lemma chunk_compare_key b x y :
  Z.sgn (chunk_compare b x y) = Z.sgn (lex (chunk_key b y) (chunk_key b x)).
Proof.
  unfold chunk_compare, chunk_key. cbn [lex].
  destruct (Z.ltb_spec (ck_hash x) (ck_hash y)); [rewrite (proj2 (Z.eqb_neq _ 0)) by lia; lia|].
  destruct (Z.ltb_spec (ck_hash y) (ck_hash x)); [rewrite (proj2 (Z.eqb_neq _ 0)) by lia; lia|].
  rewrite (proj2 (Z.eqb_eq (ck_hash y - ck_hash x) 0)) by lia.
  destruct (Z.ltb_spec (ck_length x) (ck_length y)); [rewrite (proj2 (Z.eqb_neq _ 0)) by lia; lia|].
  destruct (Z.ltb_spec (ck_length y) (ck_length x)); [rewrite (proj2 (Z.eqb_neq _ 0)) by lia; lia|].
  rewrite (proj2 (Z.eqb_eq (ck_length y - ck_length x) 0)) by lia. rewrite memcmp_lex.
  by replace (ck_length y) with (ck_length x) by lia.
Qed.

Lemma chunk_compare_eq b x y : chunk_compare b x y = 0 ↔ chunk_key b x = chunk_key b y.
Proof.
  pose proof (chunk_compare_key b x y) as Hk. split.
  - intros H. rewrite H in Hk. symmetry. apply lex_eq. lia.
  - intros H. rewrite H, lex_refl in Hk. lia.
Qed.

#[export] Instance chunk_order b : GA.SearchOrder (chunk_compare b).
Proof.
  split.
  - intros x y. rewrite !chunk_compare_key. apply lex_opp.
  - intros x y z H1 H2. pose proof (chunk_compare_key b x y). pose proof (chunk_compare_key b y z).
    pose proof (chunk_compare_key b x z).
    pose proof (lex_trans (chunk_key b z) (chunk_key b y) (chunk_key b x)). lia.
  - intros x y z Heq%chunk_compare_eq. rewrite !chunk_compare_key. by rewrite Heq.
Qed.

Lemma sorted_key_ext b b' l :
  (∀ c, c ∈ l → chunk_key b c = chunk_key b' c) →
  GA.sorted (chunk_compare b) l → GA.sorted (chunk_compare b') l.
Proof.
  intros Hkey Hs i j x y Hij Hx Hy. pose proof (Hs i j x y Hij Hx Hy) as Hc.
  assert (∀ k z, zget l k = Some z → z ∈ l) as Hin.
  { intros k z Hz. unfold zget in Hz. case_decide; [|done]. by eapply list_elem_of_lookup_2. }
  pose proof (chunk_compare_key b y x) as H1. pose proof (chunk_compare_key b' y x) as H2.
  rewrite !(Hkey _ (Hin _ _ Hx)), !(Hkey _ (Hin _ _ Hy)) in H1. lia.
Qed.

(** The chunk is a part of [data]. *)
Definition chunk_in (data : list Z) (c : DIR_Chunk) : Prop :=
  0 < ck_offset c ∧ 0 < ck_length c ∧ ck_offset c + ck_length c ≤ zlen data.

Lemma slice_prefix n data b p :
  data `prefix_of` b → 0 ≤ p → p + Z.of_nat n ≤ zlen data → slice n data p = slice n b p.
Proof.
  intros [k ->]. revert p. induction n as [|n IH]; intros p Hp Hn; [done|]. cbn [slice].
  f_equal; [|apply IH; lia]. unfold byte_at. by rewrite zget_app_l by lia.
Qed.

Lemma chunk_key_prefix data b c :
  data `prefix_of` b → chunk_in data c → chunk_key data c = chunk_key b c.
Proof.
  intros Hp (H1 & H2 & H3). unfold chunk_key. do 2 f_equal. apply slice_prefix; [done|lia..].
Qed.

Lemma slice_length n b p : length (slice n b p) = n.
Proof. revert p. induction n; intros p; cbn [slice length]; auto. Qed.

Lemma bytes_at_slice b p n :
  0 ≤ p → p + Z.of_nat n ≤ zlen b → bytes_at b p (slice n b p).
Proof.
  revert p. induction n as [|n IH]; intros p Hp Hn; [apply bytes_at_nil|]. cbn [slice].
  apply bytes_at_cons. split; [|apply IH; lia].
  unfold byte_at. destruct (zget_is_Some b p) as [x Hx]; [lia|]. by rewrite Hx.
Qed.

Lemma slice_suffix data bs : slice (length bs) (data ++ bs) (zlen data) = bs.
Proof.
  assert (∀ b p, bytes_at b p bs → slice (length bs) b p = bs) as Hs.
  { induction bs as [|x bs IH]; intros b p Hb; [done|]. apply bytes_at_cons in Hb as [Hx Hb].
    cbn [length slice]. f_equal; [|by apply IH]. unfold byte_at. by rewrite Hx. }
  apply Hs, bytes_at_suffix.
Qed.

(** ** Sharing *)

Section sharing.
Context {R : Type} `{!IndexRecorder R} (ShareDebugInfo ShareDebugInfo_is_default : bool).
Implicit Types (d : DebugInformationRecorder R) (c : DIR_Chunk) (data bs : list Z).
Local Abbreviation find_sharable := (find_sharable_decode_offset ShareDebugInfo ShareDebugInfo_is_default).

(** The chunks are parts of [data], in order, at addresses in use. *)
Record chunks_ok data d : Prop := {
  ck_ga : GA.ga_ok (dir_all_chunks d);
  ck_sorted : GA.sorted (chunk_compare data) (GA.elems (dir_all_chunks d));
  ck_in : ∀ c, c ∈ GA.elems (dir_all_chunks d) → chunk_in data c ∧ ck_address c < dir_next_chunk d;
  ck_next : dir_next_chunk d ≤ dir_next_chunk_limit d ≤ dir_arena d
}.

Lemma chunks_ok_prefix data data' d :
  data `prefix_of` data' → chunks_ok data d → chunks_ok data' d.
Proof.
  intros Hp [H1 H2 H3 H4]. split; [done| |intros c Hc; split; [|by apply H3]|done].
  - eapply sorted_key_ext; [|done]. intros c Hc. apply chunk_key_prefix; [done|]. by apply H3.
  - destruct (H3 c Hc) as [(? & ? & ?) _]. destruct Hp as [k ->]. split_and!; [done..|].
    rewrite zlen_app. unfold zlen at 2. lia.
Qed.

(** Everything but the chunks is kept. *)
Definition only_chunks d d' : Prop :=
  ∃ a n l ar, d' = set_chunks a n l ar d.

Lemma chunk_place_spec data d :
  chunks_ok data d →
  ∃ p d', chunk_place d = Some (p, d') ∧ only_chunks d d' ∧
    dir_all_chunks d' = dir_all_chunks d ∧ chunks_ok data d' ∧ dir_next_chunk d' = p + 1 ∧
    ∀ c, c ∈ GA.elems (dir_all_chunks d) → ck_address c < p.
Proof.
  intros [H1 H2 H3 H4]. unfold chunk_place. rewrite M_bind_get.
  destruct (Z.leb_spec (dir_next_chunk_limit d) (dir_next_chunk d)) as [Hle|Hgt].
  - rewrite (M_bind_Some _ _ _ _ _ eq_refl), M_bind_get, (M_bind_Some _ _ _ _ _ eq_refl).
    eexists _, _. split; [done|]. split_and!; [by eexists _, _, _, _|done| |done|].
    + split; cbn [dir_all_chunks set_chunks dir_next_chunk dir_next_chunk_limit dir_arena];
        [done|done| |unfold CHUNK; lia].
      intros c Hc. destruct (H3 c Hc). split; [done|lia].
    + intros c Hc. cbn. destruct (H3 c Hc). lia.
  - rewrite M_bind_ret, M_bind_get, (M_bind_Some _ _ _ _ _ eq_refl).
    eexists _, _. split; [done|]. split_and!; [by eexists _, _, _, _|done| |done|].
    + split; cbn [dir_all_chunks set_chunks dir_next_chunk dir_next_chunk_limit dir_arena];
        [done|done| |lia].
      intros c Hc. destruct (H3 c Hc). split; [done|lia].
    + intros c Hc. by apply H3.
Qed.

Lemma ws_data_prefix_buffer (s : CompressedWriteStream) : ws_data s `prefix_of` ws_buffer s.
Proof. apply prefix_take. Qed.

Lemma only_chunks_refl d : only_chunks d d.
Proof. destruct d. by eexists _, _, _, _. Qed.
Lemma only_chunks_trans d1 d2 d3 : only_chunks d1 d2 → only_chunks d2 d3 → only_chunks d1 d3.
Proof. intros (? & ? & ? & ? & ->) (? & ? & ? & ? & ->). by eexists _, _, _, _. Qed.

Lemma insert_chunk_spec full d ns :
  full `prefix_of` ws_buffer (dir_stream d) → chunks_ok full d → chunk_in full ns →
  ck_address ns < dir_next_chunk d →
  ∃ m d', insert_chunk ns d = Some (m, d') ∧ only_chunks d d' ∧ chunks_ok full d' ∧
    dir_next_chunk d' = dir_next_chunk d ∧
    ((m = ns) ∨
     (m ∈ GA.elems (dir_all_chunks d) ∧ chunk_key full m = chunk_key full ns ∧
      GA.elems (dir_all_chunks d') = GA.elems (dir_all_chunks d))).
Proof.
  intros Hfull [H1 H2 H3 H4] Hns Hadr.
  assert (∀ c, c ∈ GA.elems (dir_all_chunks d) → chunk_key full c = chunk_key (ws_buffer (dir_stream d)) c) as Hkey.
  { intros c Hc. apply chunk_key_prefix; [done|]. by apply H3. }
  destruct (GA.insert_sorted_run (chunk_compare (ws_buffer (dir_stream d))) (dir_all_chunks d) ns H1)
    as (r & l' & (a' & E & Hok & Hel) & Hs & Hcase); [by eapply sorted_key_ext|apply ideal_roomy|].
  assert (∀ c, c ∈ l' → c = ns ∨ c ∈ GA.elems (dir_all_chunks d)) as Hin.
  { intros c Hc. destruct Hcase as [(_ & _ & ->)|(_ & _ & l1 & l2 & -> & ->)]; [by right|].
    rewrite elem_of_app, elem_of_cons in Hc. rewrite elem_of_app. tauto. }
  assert (∀ c, c ∈ l' → chunk_in full c ∧ ck_address c < dir_next_chunk d) as Hin'.
  { intros c [->|Hc]%Hin; [done|by apply H3]. }
  unfold insert_chunk. rewrite M_bind_get, (M_bind_lift _ _ _ _ E), (M_bind_Some _ _ _ _ _ eq_refl).
  eexists _, _. split; [done|]. split_and!; [by eexists _, _, _, _| |done|].
  - split; cbn [dir_all_chunks set_chunks dir_next_chunk dir_next_chunk_limit dir_arena]; rewrite ?Hel; [done| |done|done].
    eapply sorted_key_ext; [|done]. intros c Hc. symmetry. apply chunk_key_prefix; [done|]. by apply Hin'.
  - destruct Hcase as [(Hr & Hc & ->)|(-> & _)]; [right|by left]. split_and!; [done| |done].
    apply chunk_compare_eq in Hc. rewrite (Hkey r Hr), <- Hc. symmetry. by apply chunk_key_prefix.
Qed.

(** The chunk of the bytes written last is found among the earlier ones, or it
    becomes one of them. *)
Lemma find_sharable_spec data bs d :
  ws_ok (dir_stream d) → ws_data (dir_stream d) = data ++ bs → bs ≠ [] → 0 < zlen data →
  chunks_ok data d →
  ∃ r d', find_sharable (zlen data) d = Some (r, d') ∧ only_chunks d d' ∧
    ((r = serialized_null ∧ chunks_ok (data ++ bs) d') ∨
     (0 < r ∧ bytes_at data r bs ∧ chunks_ok data d')).
Proof.
  intros Hws Hdata Hbs Hpos Hck. unfold find_sharable_decode_offset. rewrite M_bind_get.
  assert (chunks_ok (data ++ bs) d) as Hckf by (eapply chunks_ok_prefix; [by eexists|done]).
  destruct (sharing _ _ d); cbn [negb].
  2:{ exists serialized_null, d. split; [done|]. split; [apply only_chunks_refl|by left]. }
  assert (ws_position (dir_stream d) - zlen data = zlen bs) as Hlen.
  { rewrite <- ws_data_length, Hdata, zlen_app by done. lia. }
  assert (0 < zlen bs) as Hbs0 by (destruct bs; [done|unfold zlen; simpl; lia]).
  unfold stream_position. rewrite (M_bind_Some _ _ _ _ _ eq_refl), Hlen.
  destruct (chunk_place_spec (data ++ bs) d Hckf) as (p & d1 & Ep & Hoc1 & Ha & Hck1 & Hn1 & Hfree).
  assert (dir_stream d1 = dir_stream d) as Hst by (by destruct Hoc1 as (? & ? & ? & ? & ->)).
  set (ns := new_DIR_Chunk p (zlen data) (zlen bs) (ws_buffer (dir_stream d))).
  assert (new_chunk (zlen data) (zlen bs) d = Some (ns, d1)) as En.
  { unfold new_chunk. rewrite (M_bind_Some _ _ _ _ _ Ep), M_bind_get. by rewrite Hst. }
  rewrite (M_bind_Some _ _ _ _ _ En).
  assert (chunk_in (data ++ bs) ns) as Hns by (split_and!; cbn; [done|done|rewrite zlen_app; lia]).
  destruct (insert_chunk_spec (data ++ bs) d1 ns) as (m & d2 & Em & Hoc2 & Hck2 & Hn2 & Hcase); [|done|done|cbn; lia|].
  { rewrite Hst, <- Hdata. apply ws_data_prefix_buffer. }
  rewrite (M_bind_Some _ _ _ _ _ Em). pose proof (only_chunks_trans _ _ _ Hoc1 Hoc2) as Hoc.
  destruct Hcase as [->|(Hm & Hkey & Hel)].
  { rewrite Z.eqb_refl. exists serialized_null, d2. split; [done|]. split; [done|by left]. }
  rewrite Ha in Hm. pose proof (Hfree m Hm) as Hmp. change (ck_address ns) with p.
  rewrite (proj2 (Z.eqb_neq (ck_address m) p)) by lia. cbn [negb].
  rewrite M_bind_get, (M_bind_Some _ _ _ _ _ eq_refl).
  destruct (ck_in _ _ Hck m Hm) as [(Hm1 & Hm2 & Hm3) _].
  eexists _, _. split; [done|]. split; [by eapply only_chunks_trans; [|by eexists _, _, _, _]|].
  right. split_and!; [done| |].
  - injection Hkey as Hh Hl Hsl. cbn in Hl. unfold zlen in Hl. rewrite Hl, Nat2Z.id in Hsl.
    cbn [ck_offset ck_length ns new_DIR_Chunk] in Hsl. unfold zlen at 1 in Hsl. rewrite Nat2Z.id in Hsl.
    rewrite slice_suffix in Hsl. rewrite <- Hsl. unfold zlen in Hm3.
    rewrite <- (slice_prefix (length bs) data (data ++ bs)) by (unfold zlen; lia || by eexists).
    apply bytes_at_slice; unfold zlen; lia.
  - destruct Hck2 as [K1 K2 K3 K4]. split; cbn [dir_all_chunks set_chunks dir_next_chunk dir_next_chunk_limit dir_arena].
    + done.
    + rewrite Hel, Ha. apply (ck_sorted _ _ Hck).
    + rewrite Hel, Ha. intros c Hc. split; [by apply (ck_in _ _ Hck)|by apply Hfree].
    + lia.
Qed.
End sharing.

(** ** Recording a chunk *)

Section chunks.
Context {R : Type} `{!IndexRecorder R} `{!IndexRecorderLaws R}.
Context (ShareDebugInfo ShareDebugInfo_is_default : bool).
Implicit Types (d : DebugInformationRecorder R) (data bs : list Z) (V : gset Z) (H : gmap Z ObjectValue).
Local Abbreviation share := (share ShareDebugInfo ShareDebugInfo_is_default).

Definition dir_data d : list Z := ws_data (dir_stream d).
Definition dir_tables d (T : CodeTables) : Prop := agrees (dw_recorder (dir_writer d)) T.

(** Of the objects of [H], those in [V] have been written. *)
Definition dir_ok H V d : Prop :=
  writer_ok H V (dir_writer d) ∧ chunks_ok (dir_data d) d ∧ 0 < zlen (dir_data d).

(** What is recorded stays. *)
Definition dir_extends d d' : Prop :=
  dir_data d `prefix_of` dir_data d' ∧
  recorder_extends (dw_recorder (dir_writer d)) (dw_recorder (dir_writer d')) ∧
  same_graph (dw_objects (dir_writer d)) (dw_objects (dir_writer d')).

Definition same_pcs d d' : Prop :=
  dir_pcs d' = dir_pcs d ∧ dir_pcs_size d' = dir_pcs_size d ∧ dir_pcs_length d' = dir_pcs_length d ∧
  dir_prev_safepoint_pc d' = dir_prev_safepoint_pc d ∧ dir_oopmaps d' = dir_oopmaps d ∧
  dir_recording_non_safepoints d' = dir_recording_non_safepoints d.

Lemma dir_extends_refl d : dir_extends d d.
Proof. split_and!; [done|apply recorder_extends_refl|done]. Qed.
Lemma dir_extends_trans d1 d2 d3 : dir_extends d1 d2 → dir_extends d2 d3 → dir_extends d1 d3.
Proof.
  intros (H1 & H2 & H3) (H4 & H5 & H6).
  split_and!; [by etrans|by eapply recorder_extends_trans|by etrans].
Qed.
Lemma same_pcs_trans d1 d2 d3 : same_pcs d1 d2 → same_pcs d2 d3 → same_pcs d1 d3.
Proof. unfold same_pcs. intuition congruence. Qed.
Lemma dir_tables_extends d d' T : dir_extends d d' → dir_tables d' T → dir_tables d T.
Proof. intros (_ & Hx & _). by apply agrees_extends. Qed.

Lemma tables_exist (r : R) : ∃ T, agrees r T.
Proof.
  exists (mkTables (λ j, default 0 (rec_oop r j)) (λ j, default 0 (rec_metadata r j))).
  split; intros j o Ho; cbn; by rewrite Ho.
Qed.

Lemma emits_write_int H v V : emits (R := R) H (dw_write_int v) V (λ _ bs, bs = enc_int v) V.
Proof.
  intros s (Hws & Hr & HV & Ho). destruct (write_int_appends v _ Hws (ideal_roomy _)) as (st & E & Hst & Hd).
  exists (mkDW st (dw_objects s) (dw_recorder s)), (enc_int v). unfold dw_write_int, on_stream. rewrite E.
  split; [done|]. by split_and!.
Qed.

Lemma on_writer_bind {A} (m1 m2 : M (DebugInfoWriter R) unit) (k : M (DebugInformationRecorder R) A) d :
  (on_writer m1 ;; on_writer m2 ;; k) d = (on_writer (m1 ;; m2) ;; k) d.
Proof.
  unfold on_writer, mbind, M_bind, option_bind. destruct (m1 (dir_writer d)) as [[[] w1]|]; [|done].
  cbn [dir_writer set_writer]. destruct (m2 w1) as [[[] w2]|]; done.
Qed.

Lemma rewind_data (st : CompressedWriteStream) data bs :
  ws_ok st → ws_data st = data ++ bs →
  ws_ok (mkWS (ws_buffer st) (ws_size st) (zlen data)) ∧
  ws_data (mkWS (ws_buffer st) (ws_size st) (zlen data)) = data.
Proof.
  intros (H1 & H2 & H3) Hd. assert (zlen data ≤ ws_position st) as Hle.
  { rewrite <- ws_data_length, Hd, zlen_app by done. unfold zlen at 3. lia. }
  split; [split_and!; cbn [ws_size ws_position ws_buffer]; unfold zlen in *; lia|].
  unfold ws_data in *. cbn [ws_position ws_buffer]. unfold zlen in *. rewrite Nat2Z.id.
  transitivity (take (length data) (data ++ bs)); [|by rewrite take_app_length].
  rewrite <- Hd, take_take. f_equal. lia.
Qed.

(** Bytes are written; if they repeat a chunk the stream goes back and the
    chunk is used, else they become a chunk. *)
Lemma record_chunk_spec H V V' m E d :
  emits H m V E V' → (∀ T bs, E T bs → bs ≠ []) → dir_ok H V d →
  ∃ r d', (on_writer m ;; share (zlen (dir_data d))) d = Some (r, d') ∧
    dir_ok H V' d' ∧ dir_extends d d' ∧ same_pcs d d' ∧ 0 < r ∧
    ∃ bs, bytes_at (dir_data d') r bs ∧ ∀ T, dir_tables d' T → E T bs.
Proof.
  intros Hm Hne (Hw & Hck & Hpos).
  destruct (Hm _ Hw) as (w & bs & Em & Hw' & Hd & Hx & Hg & HE). pose proof Hw' as (Hws & _).
  assert (on_writer m d = Some (tt, set_writer w d)) as Eon by (unfold on_writer; by rewrite Em).
  rewrite (M_bind_Some _ _ _ _ _ Eon).
  assert (bs ≠ []) as Hbs by (destruct (tables_exist (dw_recorder w)) as [T HT]; by eapply Hne, HE).
  destruct (find_sharable_spec ShareDebugInfo ShareDebugInfo_is_default (dir_data d) bs (set_writer w d)
    Hws Hd Hbs Hpos) as (r & d1 & Ef & (a & n & l & ar & ->) & Hcase).
  { destruct Hck. by split. }
  unfold DebugInfoRec.share. rewrite (M_bind_Some _ _ _ _ _ Ef).
  set (d1 := set_chunks a n l ar (set_writer w d)) in *.
  assert (same_pcs d d1) as Hpcs by done.
  destruct Hcase as [(-> & Hck1)|(Hr & Hb & Hck1)].
  - rewrite Z.eqb_refl. cbn [negb]. exists (zlen (dir_data d)), d1. split; [done|].
    assert (dir_data d1 = dir_data d ++ bs) as Hd1 by done.
    split; [split_and!; [done|by rewrite Hd1|rewrite Hd1, zlen_app; unfold zlen in *; lia]|].
    split; [split_and!; [rewrite Hd1; by eexists|done|done]|]. split; [done|]. split; [done|].
    exists bs. split; [rewrite Hd1; apply bytes_at_suffix|done].
  - rewrite (proj2 (Z.eqb_neq r serialized_null)) by (unfold serialized_null; lia). cbn [negb].
    destruct (rewind_data (dw_stream w) (dir_data d) bs Hws Hd) as [Hws2 Hd2].
    eexists r, (set_writer (mkDW (mkWS (ws_buffer (dw_stream w)) (ws_size (dw_stream w)) (zlen (dir_data d)))
      (dw_objects w) (dw_recorder w)) d1). split; [done|].
    set (d2 := set_writer _ d1). assert (dir_data d2 = dir_data d) as Hdd by exact Hd2.
    destruct Hw' as (_ & Hr' & HV' & Ho').
    split; [split_and!; [done..| |by rewrite Hdd]; rewrite Hdd; by destruct Hck1|].
    split; [split_and!; [by rewrite Hdd|done|done]|]. split; [done|]. split; [done|].
    exists bs. by rewrite Hdd.
Qed.

(** ** Arrays of values *)

(** [vs] is stored at [r] (an empty array has no place). *)
Definition array_at {A} (E : nat → gset Z → A → list Z → gset Z → Prop) data V (vs : list A) V' (r : Z) : Prop :=
  (r = serialized_null ∧ vs = [] ∧ V' = V) ∨
  (0 < r ∧ ∃ n bs, bytes_at data r (enc_int (zlen vs) ++ bs) ∧ enc_list (E n) V vs bs V').

Lemma array_at_mono {A} (E : nat → gset Z → A → list Z → gset Z → Prop) data data' V vs V' r :
  data `prefix_of` data' → array_at E data V vs V' r → array_at E data' V vs V' r.
Proof.
  intros Hp [?|(Hr & n & bs & Hb & He)]; [by left|right]. split; [done|]. exists n, bs.
  split; [by eapply bytes_at_mono|done].
Qed.

Lemma stream_position_eq H V d : dir_ok H V d → stream_position d = Some (zlen (dir_data d), d).
Proof.
  intros ((Hws & _) & _). unfold stream_position. rewrite M_bind_get. unfold dir_data.
  by rewrite ws_data_length.
Qed.

Lemma enc_int_nonempty v : enc_int v ≠ [].
Proof. unfold enc_int. intros Hn. pose proof (unsigned5_length 4 (u32 v)) as Hl. rewrite Hn in Hl. simpl in Hl. lia. Qed.

Lemma unwritten_nesting H V d : dir_ok H V d → (unwritten H V < nesting d)%nat.
Proof.
  intros ((_ & _ & _ & Ho) & _). unfold unwritten, nesting.
  assert (dom H ∖ V ⊆ dom (dw_objects (dir_writer d))) as Hsub.
  { intros p [[o Hp]%elem_of_dom _]%elem_of_difference. apply elem_of_dom. rewrite (Ho p o Hp). eauto. }
  apply subseteq_size in Hsub. rewrite size_dom in Hsub. lia.
Qed.

(** The common part of the two serialising functions. *)
Lemma serialize_array {A} (E : CodeTables → nat → gset Z → A → list Z → gset Z → Prop)
    (w : nat → A → M (DebugInfoWriter R) unit) (ok : A → Prop) H V vs d :
  (∀ n V v, V ⊆ dom H → (unwritten H V < n)%nat → ok v →
     ∃ V', V ⊆ V' ∧ V' ⊆ dom H ∧ emits H (w n v) V (λ T bs, E T n V v bs V') V') →
  Forall ok vs → dir_ok H V d →
  ∃ r d' V', (d ← mget; result ← stream_position; stream_write_int (zlen vs) ;;
              on_writer (mforeach (w (nesting d)) vs) ;; share result) d = Some (r, d') ∧
    V ⊆ V' ∧ dir_ok H V' d' ∧ dir_extends d d' ∧ same_pcs d d' ∧
    ∀ T, dir_tables d' T → array_at (E T) (dir_data d') V vs V' r.
Proof.
  intros Hw Hvs Hd. rewrite M_bind_get, (M_bind_Some _ _ _ _ _ (stream_position_eq H V d Hd)).
  unfold stream_write_int. rewrite on_writer_bind.
  pose proof (unwritten_nesting H V d Hd) as Hn. pose proof Hd as ((_ & _ & HV & _) & _).
  destruct (emits_foreach H (w (nesting d)) (λ T, E T (nesting d)) ok (nesting d) V vs (Hw _) Hvs HV Hn)
    as (V' & HVV' & HV' & He).
  destruct (record_chunk_spec H V V' _ _ d (emits_bind H _ _ _ _ _ _ _ (emits_write_int H (zlen vs) V) He))
    as (r & d' & E1 & Hd' & Hx & Hp & Hr & bs & Hb & HT); [|done|].
  { intros T bs (b1 & b2 & -> & -> & _) [Hn1 _]%app_nil. by eapply enc_int_nonempty. }
  exists r, d', V'. split_and!; try done. intros T HT'. right. split; [done|].
  destruct (HT T HT') as (b1 & b2 & -> & -> & He2). eauto.
Qed.

Lemma serialize_scope_values_spec H V values d :
  graph_ok valid_oop H → Forall (value_ok valid_oop H) (default [] values) → dir_ok H V d →
  ∃ r d' V', serialize_scope_values ShareDebugInfo ShareDebugInfo_is_default values d = Some (r, d') ∧
    V ⊆ V' ∧ dir_ok H V' d' ∧ dir_extends d d' ∧ same_pcs d d' ∧
    ∀ T, dir_tables d' T →
      array_at (λ n, enc_value object_of T H n) (dir_data d') V (default [] values) V' r.
Proof.
  intros HG Hvs Hd. destruct values as [[|v vs]|]; cbn [default] in *.
  2:{ apply (serialize_array (λ T n, enc_value object_of T H n) write_on (value_ok valid_oop H)); [|done..].
      intros n V1 v1 HV1 Hn1 Hv1. by apply write_on_emits. }
  all: exists serialized_null, d, V; split_and!; try done; try apply dir_extends_refl; by left.
Qed.

Definition monitor_ok H (m : MonitorValue) : Prop :=
  value_ok valid_oop H (mv_owner m) ∧ is_juint (mv_basic_lock m).

Lemma serialize_monitor_values_spec H V monitors d :
  graph_ok valid_oop H → Forall (monitor_ok H) (default [] monitors) → dir_ok H V d →
  ∃ r d' V', serialize_monitor_values ShareDebugInfo ShareDebugInfo_is_default monitors d = Some (r, d') ∧
    V ⊆ V' ∧ dir_ok H V' d' ∧ dir_extends d d' ∧ same_pcs d d' ∧
    ∀ T, dir_tables d' T →
      array_at (λ n, enc_monitor object_of T H n) (dir_data d') V (default [] monitors) V' r.
Proof.
  intros HG Hms Hd. destruct monitors as [[|m ms]|]; cbn [default] in *.
  2:{ apply (serialize_array (λ T n, enc_monitor object_of T H n) MonitorValue_write_on (monitor_ok H)); [|done..].
      intros n V1 m1 HV1 Hn1 [Hm1 Hl1]. by apply write_monitor_emits. }
  all: exists serialized_null, d, V; split_and!; try done; try apply dir_extends_refl; by left.
Qed.
End chunks.

(** ** Pc descriptors *)

Section pcs.
Context {R : Type} `{!IndexRecorder R}.
Implicit Types (d : DebugInformationRecorder R) (pd : PcDesc) (l : list PcDesc).

Definition pcs_ok d : Prop :=
  zlen (dir_pcs d) = dir_pcs_size d ∧ 0 ≤ dir_pcs_length d ≤ dir_pcs_size d ∧ 0 < dir_pcs_size d.

(** Everything but the pc descriptors is kept. *)
Definition only_pcs d d' : Prop := ∃ pcs size length, d' = set_pcs pcs size length d.

Lemma only_pcs_trans d1 d2 d3 : only_pcs d1 d2 → only_pcs d2 d3 → only_pcs d1 d3.
Proof. intros (? & ? & ? & ->) (? & ? & ? & ->). by eexists _, _, _. Qed.

Lemma copied_pcs_split d l pd :
  pcs_ok d → copied_pcs d = l ++ [pd] →
  dir_pcs_length d = zlen l + 1 ∧ ∃ rest, dir_pcs d = l ++ pd :: rest.
Proof.
  intros (H1 & H2 & _) Hl. unfold copied_pcs in Hl. split.
  - apply (f_equal length) in Hl. rewrite length_take, length_app in Hl. unfold zlen in *. simpl in Hl. lia.
  - exists (drop (Z.to_nat (dir_pcs_length d)) (dir_pcs d)).
    rewrite <- (take_drop (Z.to_nat (dir_pcs_length d)) (dir_pcs d)) at 1. rewrite Hl. by rewrite <- app_assoc.
Qed.

Lemma last_pc_spec d l pd :
  pcs_ok d → copied_pcs d = l ++ [pd] → last_pc d = Some (pd, d).
Proof.
  intros Hok Hl. destruct (copied_pcs_split d l pd Hok Hl) as [Hn [rest Hp]].
  unfold last_pc. rewrite M_bind_get. rewrite (proj2 (Z.ltb_lt 0 _)) by (unfold zlen in *; lia).
  unfold mlift. rewrite Hp. replace (dir_pcs_length d - 1) with (zlen l) by lia.
  by rewrite zget_app_r, Z.sub_diag by lia.
Qed.

Lemma prev_pc_spec d l pd pd' :
  pcs_ok d → copied_pcs d = l ++ [pd; pd'] → prev_pc d = Some (pd, d).
Proof.
  intros Hok Hl. assert (copied_pcs d = (l ++ [pd]) ++ [pd']) as Hl' by (by rewrite <- app_assoc).
  destruct (copied_pcs_split d _ _ Hok Hl') as [Hn [rest Hp]]. rewrite zlen_app in Hn. change (zlen [pd]) with 1 in Hn.
  unfold prev_pc. rewrite M_bind_get. rewrite (proj2 (Z.ltb_lt 1 _)) by (unfold zlen in *; lia).
  unfold mlift. rewrite Hp, <- app_assoc. replace (dir_pcs_length d - 2) with (zlen l) by lia.
  by rewrite zget_app_r, Z.sub_diag by lia.
Qed.

(** Changing a descriptor in place. *)
Lemma update_pc_spec d l1 pd l2 f :
  pcs_ok d → copied_pcs d = l1 ++ pd :: l2 →
  ∃ d', update_pc (zlen l1) f d = Some (tt, d') ∧ pcs_ok d' ∧ only_pcs d d' ∧
    dir_pcs_length d' = dir_pcs_length d ∧ copied_pcs d' = l1 ++ f pd :: l2.
Proof.
  intros (H1 & H2 & H3) Hl. unfold copied_pcs in *.
  set (rest := drop (Z.to_nat (dir_pcs_length d)) (dir_pcs d)).
  assert (dir_pcs d = l1 ++ pd :: l2 ++ rest) as Hp.
  { rewrite <- (take_drop (Z.to_nat (dir_pcs_length d)) (dir_pcs d)) at 1. rewrite Hl. by rewrite <- app_assoc. }
  assert (length (l1 ++ pd :: l2) = Z.to_nat (dir_pcs_length d)) as Hlen.
  { rewrite <- Hl, length_take. unfold zlen in H1. lia. }
  unfold update_pc. rewrite M_bind_get.
  assert (zget (dir_pcs d) (zlen l1) = Some pd) as Hg.
  { rewrite Hp, zget_app_r, Z.sub_diag by lia. done. }
  rewrite (M_bind_lift _ _ _ _ Hg).
  assert (zset (dir_pcs d) (zlen l1) (f pd) = Some (l1 ++ f pd :: l2 ++ rest)) as Hs.
  { rewrite Hp. apply zset_app. }
  rewrite (M_bind_lift _ _ _ _ Hs). eexists. split; [done|].
  split; [split_and!; cbn [dir_pcs set_pcs dir_pcs_size dir_pcs_length]; try lia|].
  { rewrite <- H1, Hp. unfold zlen. rewrite !length_app. done. }
  split; [by eexists _, _, _|]. split; [done|]. cbn [dir_pcs set_pcs dir_pcs_length].
  rewrite <- Hlen. replace (length (l1 ++ pd :: l2)) with (length (l1 ++ f pd :: l2)) by (rewrite !length_app; done).
  rewrite app_comm_cons, app_assoc. by rewrite take_app_length.
Qed.

Lemma update_last_pc_spec d l pd f :
  pcs_ok d → copied_pcs d = l ++ [pd] →
  ∃ d', update_last_pc f d = Some (tt, d') ∧ pcs_ok d' ∧ only_pcs d d' ∧
    dir_pcs_length d' = dir_pcs_length d ∧ copied_pcs d' = l ++ [f pd].
Proof.
  intros Hok Hl. unfold update_last_pc. rewrite (M_bind_Some _ _ _ _ _ (last_pc_spec d l pd Hok Hl)), M_bind_get.
  destruct (copied_pcs_split d l pd Hok Hl) as [Hn _]. replace (dir_pcs_length d - 1) with (zlen l) by lia.
  by apply update_pc_spec.
Qed.

(** A new descriptor, whatever the room left in the array. *)
Lemma add_new_pc_offset_spec `{D : SizeArith} d pc :
  pcs_ok d → roomy (dir_pcs_length d + 1) →
  ∃ d', add_new_pc_offset pc d = Some (tt, d') ∧ pcs_ok d' ∧ only_pcs d d' ∧
    copied_pcs d' = copied_pcs d ++ [new_PcDesc pc serialized_null serialized_null].
Proof.
  intros (H1 & H2 & H3) Hr. unfold add_new_pc_offset. rewrite M_bind_get.
  set (grow := if dir_pcs_length d =? dir_pcs_size d then _ else _).
  assert (∃ d1, grow d = Some (tt, d1) ∧ pcs_ok d1 ∧ only_pcs d d1 ∧ copied_pcs d1 = copied_pcs d ∧
    dir_pcs_length d1 = dir_pcs_length d ∧ dir_pcs_length d1 < dir_pcs_size d1) as
    (d1 & E & (K1 & K2 & K3) & Hoc & Hcp & Hlen & Hlt).
  { subst grow. destruct (Z.eqb_spec (dir_pcs_length d) (dir_pcs_size d)) as [Heq|Hne].
    - assert (take (Z.to_nat (dir_pcs_length d)) (dir_pcs d) = dir_pcs d) as Hall
        by (apply take_ge; unfold zlen in H1; lia).
      rewrite (double_roomy (dir_pcs_size d) (dir_pcs_length d + 1)) by (done || lia).
      eexists. split; [done|]. rewrite Hall.
      split; [split_and!; cbn [dir_pcs set_pcs dir_pcs_size dir_pcs_length]; try lia|].
      { rewrite zlen_app. unfold zlen in *. rewrite length_replicate. lia. }
      split; [by eexists _, _, _|]. split; [|split; [done|cbn; lia]].
      unfold copied_pcs. cbn [dir_pcs set_pcs dir_pcs_length].
      replace (Z.to_nat (dir_pcs_length d)) with (length (dir_pcs d)) by (unfold zlen in H1; lia).
      by rewrite take_app_length, firstn_all.
    - exists d. split; [done|]. split; [done|]. split; [destruct d; by eexists _, _, _|]. split_and!; [done|done|lia]. }
  rewrite (M_bind_Some _ _ _ _ _ E), M_bind_get. rewrite zset_eq by lia.
  rewrite (M_bind_lift _ _ _ _ eq_refl). eexists. split; [done|].
  split; [split_and!; cbn [dir_pcs set_pcs dir_pcs_size dir_pcs_length]; try lia|].
  { unfold zlen. rewrite length_insert. done. }
  split; [eapply only_pcs_trans; [done|by eexists _, _, _]|].
  rewrite <- Hcp. unfold copied_pcs. cbn [dir_pcs set_pcs dir_pcs_length].
  assert (Z.to_nat (dir_pcs_length d1) < length (dir_pcs d1))%nat as Hin by (unfold zlen in K1; lia).
  replace (Z.to_nat (dir_pcs_length d1 + 1)) with (S (Z.to_nat (dir_pcs_length d1))) by lia.
  rewrite (take_S_r _ _ (new_PcDesc pc serialized_null serialized_null)) by (by apply list_lookup_insert_eq).
  f_equal. by apply take_insert_ge.
Qed.

(** The size asked for closes the array with the final sentinel. *)
Lemma pcs_size_spec d l pd :
  pcs_ok d → copied_pcs d = l ++ [pd] → pc_offset pd ≠ upper_offset_limit →
  ∃ d', pcs_size d = Some (zlen (copied_pcs d') * sizeof_PcDesc, d') ∧ only_pcs d d' ∧
    copied_pcs d' = copied_pcs d ++ [new_PcDesc upper_offset_limit serialized_null serialized_null].
Proof.
  intros Hok Hl Hne. destruct (add_new_pc_offset_spec d upper_offset_limit Hok (ideal_roomy _)) as (d' & E & Hok' & Honly & Hcp).
  exists d'. split_and!; [|done|done]. unfold pcs_size.
  assert (last_pc_offset d = Some (pc_offset pd, d)) as Hlast
    by (unfold last_pc_offset; by rewrite (M_bind_Some _ _ _ _ _ (last_pc_spec d l pd Hok Hl))).
  rewrite (M_bind_Some _ _ _ _ _ Hlast).
  rewrite (proj2 (Z.eqb_neq _ _) Hne). cbn [negb]. rewrite (M_bind_Some _ _ _ _ _ E), M_bind_get.
  destruct Hok' as (K1 & K2 & _). unfold mret, M_ret. do 3 f_equal. unfold copied_pcs, zlen in *. rewrite length_take. lia.
Qed.
End pcs.

(** ** Scopes *)

Section scopes.
Context {R : Type} `{!IndexRecorder R} `{!IndexRecorderLaws R}.
Context (ShareDebugInfo ShareDebugInfo_is_default : bool).
Implicit Types (d : DebugInformationRecorder R) (V : gset Z) (H : gmap Z ObjectValue).
Local Abbreviation share := (share ShareDebugInfo ShareDebugInfo_is_default).
Local Abbreviation describe_scope := (describe_scope ShareDebugInfo ShareDebugInfo_is_default).

Lemma dir_ok_only_pcs H V d d' : only_pcs d d' → dir_ok H V d → dir_ok H V d'.
Proof. intros (? & ? & ? & ->) (H1 & [K1 K2 K3 K4] & H3). by split_and!. Qed.
Lemma dir_extends_only_pcs d d' : only_pcs d d' → dir_extends d d'.
Proof. intros (? & ? & ? & ->). split_and!; [done|apply recorder_extends_refl|done]. Qed.
Lemma pcs_ok_same d d' : same_pcs d d' → pcs_ok d → pcs_ok d'.
Proof. intros (H1 & H2 & H3 & _). unfold pcs_ok. by rewrite H1, H2, H3. Qed.
Lemma copied_pcs_same d d' : same_pcs d d' → copied_pcs d' = copied_pcs d.
Proof. intros (H1 & _ & H3 & _). unfold copied_pcs. by rewrite H1, H3. Qed.

(** What only the pc descriptors do not determine. *)
Definition same_marks d d' : Prop :=
  dir_prev_safepoint_pc d' = dir_prev_safepoint_pc d ∧
  dir_recording_non_safepoints d' = dir_recording_non_safepoints d ∧
  dir_oopmaps d' = dir_oopmaps d.
Lemma same_marks_only_pcs d d' : only_pcs d d' → same_marks d d'.
Proof. by intros (? & ? & ? & ->). Qed.
Lemma same_marks_pcs d d' : same_pcs d d' → same_marks d d'.
Proof. unfold same_pcs, same_marks. tauto. Qed.
Lemma same_marks_trans d1 d2 d3 : same_marks d1 d2 → same_marks d2 d3 → same_marks d1 d3.
Proof. unfold same_marks. intuition congruence. Qed.

(** The scope stored at [r]. *)
Definition scope_at (T : CodeTables) (data : list Z) (r sender method bci locals expressions monitors : Z) : Prop :=
  ∃ i, is_jint i ∧ code_metadata_at T i = method ∧
    bytes_at data r (enc_int sender ++ enc_int i ++ enc_int (bci - InvocationEntryBci) ++
                     enc_int locals ++ enc_int expressions ++ enc_int monitors).

Lemma emits_scope H V sender method bci locals expressions monitors :
  valid_metadata method →
  emits (R := R) H
    (((((dw_write_int sender ;; write_metadata method) ;; write_bci bci) ;;
       dw_write_int locals) ;; dw_write_int expressions) ;; dw_write_int monitors) V
    (λ T bs, ∃ i, is_jint i ∧ code_metadata_at T i = method ∧
       bs = enc_int sender ++ enc_int i ++ enc_int (bci - InvocationEntryBci) ++
            enc_int locals ++ enc_int expressions ++ enc_int monitors) V.
Proof.
  intros Hm. unfold write_bci. eapply emits_weaken; [|repeat eapply emits_bind;
    first [apply emits_write_int|by apply emits_metadata]].
  intros T bs. cbn beta. intros (b1 & b2 & -> & (b3 & b4 & -> & (b5 & b6 & -> & (b7 & b8 & -> &
    (b9 & b10 & -> & -> & i & Hi & HT & ->) & ->) & ->) & ->) & ->).
  exists i. split_and!; [done..|]. by rewrite <- !app_assoc.
Qed.

(** The end of [describe_scope] puts the place of the scope into the
    descriptor. *)
Lemma describe_tail d r d' l pd off :
  share off d = Some (r, d') → pcs_ok d' → copied_pcs d' = l ++ [pd] → scope_decode_offset pd = off →
  ∃ d2, (shared ← find_sharable_decode_offset ShareDebugInfo ShareDebugInfo_is_default off;
     if negb (shared =? serialized_null)
     then stream_set_position off ;; update_last_pc (set_scope_decode_offset shared)
     else mret tt) d = Some (tt, d2) ∧ pcs_ok d2 ∧ only_pcs d' d2 ∧
    copied_pcs d2 = l ++ [set_scope_decode_offset r pd].
Proof.
  unfold DebugInfoRec.share. intros Hs Hok Hl Hoff. unfold mbind, M_bind in Hs |- *.
  destruct (find_sharable_decode_offset _ _ off d) as [[x d1]|]; [|done].
  destruct (negb (x =? serialized_null)).
  - destruct (stream_set_position off d1) as [[[] d3]|]; [|done]. injection Hs as <- <-.
    destruct (update_last_pc_spec d3 l pd (set_scope_decode_offset x) Hok Hl) as (d2 & E & ? & ? & _ & ?).
    exists d2. by rewrite E.
  - injection Hs as <- <-. exists d1. split; [done|]. split; [done|]. split; [destruct d1; by eexists _, _, _|].
    rewrite Hl. by destruct pd; cbn in *; subst.
Qed.

(** The descriptor of a pc whose innermost scope is at [r]. *)
Definition described (r : Z) (reexecute rethrow_exception is_method_handle_invoke return_oop : bool) (pd : PcDesc) : PcDesc :=
  set_scope_decode_offset r (set_return_oop return_oop (set_is_method_handle_invoke is_method_handle_invoke
    (set_rethrow_exception rethrow_exception (set_should_reexecute reexecute pd)))).

Lemma describe_scope_spec H V d l pd methodH method bci re rx mhi ro locals expressions monitors :
  dir_ok H V d → pcs_ok d → copied_pcs d = l ++ [pd] → valid_metadata (default methodH method) →
  ∃ d' r, describe_scope methodH method bci re rx mhi ro locals expressions monitors d = Some (tt, d') ∧
    dir_ok H V d' ∧ dir_extends d d' ∧ pcs_ok d' ∧ same_marks d d' ∧ 0 < r ∧
    copied_pcs d' = l ++ [described r re rx mhi ro pd] ∧
    ∀ T, dir_tables d' T →
      scope_at T (dir_data d') r (scope_decode_offset pd) (default methodH method) bci locals expressions monitors.
Proof.
  intros Hd Hok Hl Hm. unfold DebugInfoRec.describe_scope.
  rewrite (M_bind_Some _ _ _ _ _ (last_pc_spec d l pd Hok Hl)).
  rewrite (M_bind_Some _ _ _ _ _ (stream_position_eq H V d Hd)).
  set (off := zlen (dir_data d)).
  destruct (update_last_pc_spec d l pd (set_scope_decode_offset off) Hok Hl) as (d1 & E1 & Hok1 & Ho1 & _ & Hl1).
  rewrite (M_bind_Some _ _ _ _ _ E1).
  destruct (update_last_pc_spec d1 l _ (set_should_reexecute re) Hok1 Hl1) as (d2 & E2 & Hok2 & Ho2 & _ & Hl2).
  rewrite (M_bind_Some _ _ _ _ _ E2).
  destruct (update_last_pc_spec d2 l _ (set_rethrow_exception rx) Hok2 Hl2) as (d3 & E3 & Hok3 & Ho3 & _ & Hl3).
  rewrite (M_bind_Some _ _ _ _ _ E3).
  destruct (update_last_pc_spec d3 l _ (set_is_method_handle_invoke mhi) Hok3 Hl3) as (d4 & E4 & Hok4 & Ho4 & _ & Hl4).
  rewrite (M_bind_Some _ _ _ _ _ E4).
  destruct (update_last_pc_spec d4 l _ (set_return_oop ro) Hok4 Hl4) as (d5 & E5 & Hok5 & Ho5 & _ & Hl5).
  rewrite (M_bind_Some _ _ _ _ _ E5).
  assert (only_pcs d d5) as Ho by eauto using only_pcs_trans.
  pose proof (dir_ok_only_pcs H V d d5 Ho Hd) as Hd5.
  assert (off = zlen (dir_data d5)) as Hoff by (by destruct Ho as (? & ? & ? & ->)).
  change (match method with Some m => m | None => methodH end) with (default methodH method).
  unfold stream_write_int. rewrite !on_writer_bind.
  destruct (record_chunk_spec ShareDebugInfo ShareDebugInfo_is_default H V V _ _ d5
    (emits_scope H V (scope_decode_offset pd) (default methodH method) bci locals expressions monitors Hm))
    as (r & d6 & E6 & Hd6 & Hx6 & Hp6 & Hr & bs & Hb & HT); [|done|].
  { intros T bs (i & _ & _ & ->) [Hn _]%app_nil. by eapply enc_int_nonempty. }
  rewrite <- Hoff in E6. unfold mbind at 1, M_bind at 1 in E6. unfold mbind at 1, M_bind at 1.
  destruct (on_writer _ d5) as [[[] d5']|]; [|done].
  destruct (describe_tail d5' r d6 l _ off E6 (pcs_ok_same _ _ Hp6 Hok5)
    (eq_trans (copied_pcs_same _ _ Hp6) Hl5)) as (d7 & E7 & Hok7 & Ho7 & Hl7); [by destruct pd|].
  exists d7, r. split; [exact E7|].
  assert (dir_data d7 = dir_data d6) as Hdd by (by destruct Ho7 as (? & ? & ? & ->)).
  assert (∀ T, dir_tables d7 T → dir_tables d6 T) as Htab by (by destruct Ho7 as (? & ? & ? & ->)).
  split_and!; [by eapply dir_ok_only_pcs| |done| |done| |].
  - eapply dir_extends_trans; [by apply dir_extends_only_pcs|]. eapply dir_extends_trans; [done|].
    by apply dir_extends_only_pcs.
  - eapply same_marks_trans; [by apply same_marks_only_pcs|]. eapply same_marks_trans; [by apply same_marks_pcs|].
    by apply same_marks_only_pcs.
  - rewrite Hl7. by destruct pd.
  - intros T HT7. destruct (HT T (Htab T HT7)) as (i & Hi & Hc & ->). exists i. rewrite Hdd. by split_and!.
Qed.
End scopes.
