(* ===== verification/ScopeDesc.v ===== *)
(** * Scope descriptors (src/share/vm/code/scopeDesc.hpp and .cpp)

    The reader of what the debug information recorder wrote: a [ScopeDesc] is
    one activation; its sender is the activation that called it. *)

From stdpp Require Import base numbers list gmap fin_sets.
From S2P Require Import Prelude CompressedStream VMReg DebugInfo DebugInfoRec.
Local Open Scope Z_scope.

(** What a scope descriptor needs of its nmethod. *)
Record nmethod := mkNM {
  nm_scopes_data : list Z;
  nm_tables : CodeTables;
  nm_method : Z
}.

(** The [ObjectValue]s read so far and the pool shared by the scopes of a pc. *)
Record DebugHeap := mkDH {
  dh_objects : gmap Z ObjectValue;
  dh_pool : list Z
}.

Record ScopeDesc := mkSD {
  sd_method : Z;
  sd_bci : Z;
  sd_reexecute : bool;
  sd_rethrow_exception : bool;
  sd_return_oop : bool;
  sd_decode_offset : Z;
  sd_sender_decode_offset : Z;
  sd_locals_decode_offset : Z;
  sd_expressions_decode_offset : Z;
  sd_monitors_decode_offset : Z;
  sd_objects : bool                   (* is there a pool? *)
}.

Section scope_desc.
Context (code : nmethod).

(** [new DebugInfoReadStream(_code, offset, _objects)] and a reading from it.
    Without a pool an object can not be read. *)
Definition with_stream {A} (objects : bool) (offset : Z) (m : M DebugInfoReader A) : M DebugHeap A := λ h,
  '(x, s) ← m (mkDR (mkRS (nm_scopes_data code) offset) (dh_objects h) (if objects then dh_pool h else []));
  if objects then Some (x, mkDH (dr_objects s) (dr_pool s))
  else if decide (dr_pool s = []) then Some (x, mkDH (dr_objects s) (dh_pool h)) else None.

(** A value nested deeper than the data is long can not be. *)
Definition read_nesting : nat := S (length (nm_scopes_data code)).

Definition read_array {A} (read : M DebugInfoReader A) : M DebugInfoReader (list A) :=
  length ← dr_read_int; mrepeat (Z.to_nat length) read.

Definition decode_scope_values (objects : bool) (decode_offset : Z) : M DebugHeap (option (list ScopeValue)) :=
  if decode_offset =? serialized_null then mret None
  else vs ← with_stream objects decode_offset (read_array (read_from (nm_tables code) read_nesting));
       mret (Some vs).

Definition decode_monitor_values (objects : bool) (decode_offset : Z) : M DebugHeap (option (list MonitorValue)) :=
  if decode_offset =? serialized_null then mret None
  else ms ← with_stream objects decode_offset (read_array (read_MonitorValue (nm_tables code) read_nesting));
       mret (Some ms).

(** The new pool, or none. *)
Definition decode_object_values (decode_offset : Z) : M DebugHeap bool :=
  h ← mget;
  mput (mkDH (dh_objects h) []) ;;
  if decode_offset =? serialized_null then mret false
  else with_stream true decode_offset (read_array (read_from (nm_tables code) read_nesting)) ;; mret true.

Definition decode_header : M DebugInfoReader (Z * Z * Z * Z * Z * Z) :=
  sender ← dr_read_int;
  method ← read_method (nm_tables code);
  bci ← read_bci;
  locals ← dr_read_int;
  expressions ← dr_read_int;
  monitors ← dr_read_int;
  mret (sender, method, bci, locals, expressions, monitors).

Definition decode_body (objects reexecute rethrow_exception return_oop : bool) (decode_offset : Z)
  : M DebugHeap ScopeDesc :=
  if decode_offset =? serialized_null then
    mret (mkSD (nm_method code) InvocationEntryBci reexecute rethrow_exception return_oop decode_offset
            serialized_null serialized_null serialized_null serialized_null objects)
  else
    '(sender, method, bci, locals, expressions, monitors) ← with_stream objects decode_offset decode_header;
    mret (mkSD method bci reexecute rethrow_exception return_oop decode_offset
            sender locals expressions monitors objects).

Definition new_ScopeDesc (decode_offset obj_decode_offset : Z)
    (reexecute rethrow_exception return_oop : bool) : M DebugHeap ScopeDesc :=
  objects ← decode_object_values obj_decode_offset;
  decode_body objects reexecute rethrow_exception return_oop decode_offset.

Definition new_ScopeDesc_no_objects (decode_offset : Z)
    (reexecute rethrow_exception return_oop : bool) : M DebugHeap ScopeDesc :=
  new_ScopeDesc decode_offset serialized_null reexecute rethrow_exception return_oop.

Definition parent_ScopeDesc (parent : ScopeDesc) : M DebugHeap ScopeDesc :=
  decode_body (sd_objects parent) false false false (sd_sender_decode_offset parent).

Definition is_top (sd : ScopeDesc) : bool := sd_sender_decode_offset sd =? serialized_null.
Definition sender (sd : ScopeDesc) : M DebugHeap (option ScopeDesc) :=
  if is_top sd then mret None else s ← parent_ScopeDesc sd; mret (Some s).

Definition locals (sd : ScopeDesc) : M DebugHeap (option (list ScopeValue)) :=
  decode_scope_values (sd_objects sd) (sd_locals_decode_offset sd).
Definition expressions (sd : ScopeDesc) : M DebugHeap (option (list ScopeValue)) :=
  decode_scope_values (sd_objects sd) (sd_expressions_decode_offset sd).
Definition monitors (sd : ScopeDesc) : M DebugHeap (option (list MonitorValue)) :=
  decode_monitor_values (sd_objects sd) (sd_monitors_decode_offset sd).

(** [SimpleScopeDesc]: method and bci of the innermost scope. *)
Definition SimpleScopeDesc (pd : PcDesc) : M DebugHeap (Z * Z) :=
  with_stream false (scope_decode_offset pd)
    (_ ← dr_read_int; method ← read_method (nm_tables code); bci ← read_bci; mret (method, bci)).
End scope_desc.

(** ** Reading arrays back *)

Section decode.
Context (object_of : Z → Z) (T : CodeTables) (H : gmap Z ObjectValue).
Context (Hids : ∀ p q o o', H !! p = Some o → H !! q = Some o' → ov_id o = ov_id o' → p = q).
Implicit Types (O : gmap Z ObjectValue) (P : list Z) (V : gset Z) (data bs : list Z).

Lemma enc_list_length {A} (E E' : gset Z → A → list Z → gset Z → Prop) V vs bs V' :
  (∀ V v b V', (length b ≤ length bs)%nat → E V v b V' → E' V v b V') →
  enc_list E V vs bs V' → enc_list E' V vs bs V'.
Proof.
  intros HE Henc. assert (∃ n, n = length bs) as [n Hn] by eauto. rewrite <- Hn in HE.
  assert (length bs ≤ n)%nat as Hle by lia. clear Hn. revert Hle.
  induction Henc as [V|V v vs b bs V1 V2 Hv _ IH]; intros Hle; [constructor|].
  rewrite length_app in Hle. econstructor; [apply HE; [lia|done]|apply IH; lia].
Qed.

(** The nesting is less than the number of bytes. *)
Lemma enc_value_nesting n V v bs V' :
  enc_value object_of T H n V v bs V' → enc_value object_of T H (S (length bs)) V v bs V'.
Proof.
  revert V v bs V'. induction n as [|n IH]; intros V v bs V' He; [done|].
  destruct v as [| | | | | |p]; try done. cbn [enc_value] in He |- *.
  destruct He as (o & Ho & Hid & Hd). exists o. split_and!; [done..|]. case_decide; [done|].
  destruct Hd as (k & b1 & V1 & b2 & Hk & Hlen & H1 & H2 & ->). exists k, b1, V1, b2.
  assert (∀ v, 0 < length (enc_int v))%nat as Hpos.
  { intros x. pose proof (enc_int_nonempty x). by destruct (enc_int x); [|simpl; lia]. }
  pose proof (Hpos OBJECT_CODE). pose proof (Hpos (ov_id o)). rewrite !length_app.
  split_and!; [done..| | |done].
  - eapply enc_value_mono; [|by apply IH]. lia.
  - eapply enc_list_length; [|done]. intros V2 v2 b V3 Hb He2. eapply enc_value_mono; [|by eapply IH]. lia.
Qed.

Lemma enc_monitor_nesting n V m bs V' :
  enc_monitor object_of T H n V m bs V' → enc_monitor object_of T H (S (length bs)) V m bs V'.
Proof.
  intros (Hl & b & He & ->). split; [done|]. exists b. split; [|done].
  eapply enc_value_mono; [|by eapply enc_value_nesting]. rewrite !length_app. lia.
Qed.

Lemma bytes_at_length data p bs : 0 ≤ p → bytes_at data p bs → (length bs ≤ length data)%nat.
Proof.
  intros Hp Hb. destruct (decide (bs = [])) as [->|Hne]; [simpl; lia|].
  destruct (last bs) as [x|] eqn:Hx; [|by apply last_None in Hx].
  rewrite last_lookup in Hx. apply Hb, zget_Some in Hx. unfold zlen in Hx.
  destruct bs; [done|]. simpl in *. lia.
Qed.

(** Reading an array, given how one of its elements is read. *)
Lemma read_array_spec {A B} (E : nat → gset Z → A → list Z → gset Z → Prop) (m : nat → M DebugInfoReader B)
    (same : gmap Z ObjectValue → list Z → A → B → Prop) V vs V' data r O P :
  (∀ n V v b V', E n V v b V' → E (S (length b)) V v b V') →
  (∀ n k V v b V', (n ≤ k)%nat → E n V v b V' → E k V v b V') →
  (∀ n V vs bs V' buf p O P,
     enc_list (E n) V vs bs V' → pool_ok H V O P → bytes_at buf p bs →
     ∃ vs' O' P', mrepeat (length vs) (m n) (mkDR (mkRS buf p) O P)
        = Some (vs', mkDR (mkRS buf (p + zlen bs)) O' P') ∧
       grows ∅ O P O' P' ∧ pool_ok H V' O' P' ∧ Forall2 (same O' P') vs vs' ∧
       ∀ x, x ∈ V' ∖ V → same_object object_of H O' P' x) →
  array_at E data V vs V' r → 0 < r → is_jint (zlen vs) → pool_ok H V O P →
  ∃ vs' O' P' p', read_array (m (S (length data))) (mkDR (mkRS data r) O P)
      = Some (vs', mkDR (mkRS data p') O' P') ∧
    grows ∅ O P O' P' ∧ pool_ok H V' O' P' ∧ Forall2 (same O' P') vs vs' ∧
    ∀ x, x ∈ V' ∖ V → same_object object_of H O' P' x.
Proof.
  intros Hnest Hmono Hread [(-> & _)|(_ & n & bs & Hb & He)] Hr Hlen Hpool; [done|].
  apply bytes_at_app in Hb as [Hb1 Hb2].
  assert (0 ≤ r + zlen (enc_int (zlen vs))) as Hp by (unfold zlen; lia).
  assert (enc_list (E (S (length data))) V vs bs V') as He'.
  { eapply enc_list_length; [|done]. intros V1 v b V2 Hle Hv. eapply Hmono; [|by eapply Hnest].
    pose proof (bytes_at_length _ _ _ Hp Hb2). lia. }
  destruct (Hread _ _ _ _ _ data _ O P He' Hpool Hb2) as (vs' & O' & P' & Er & Hrest).
  exists vs', O', P'. eexists. split; [|done]. unfold read_array.
  rewrite (M_bind_Some _ _ _ _ _ (dr_read_int_eq _ _ _ _ _ Hlen Hb1)).
  unfold zlen at 1. rewrite Nat2Z.id. exact Er.
Qed.

(** Running a reader on a stream of the nmethod. *)
Lemma with_stream_spec {A} code (objects : bool) r (m : M DebugInfoReader A) V V' x O P O' P' p' :
  m (mkDR (mkRS (nm_scopes_data code) r) O P) = Some (x, mkDR (mkRS (nm_scopes_data code) p') O' P') →
  pool_ok H V O P → pool_ok H V' O' P' → (objects = false → V = ∅ ∧ V' = ∅) →
  with_stream code objects r m (mkDH O P) = Some (x, mkDH O' P').
Proof.
  intros Em Hok Hok' Hobj. unfold with_stream. cbn [dh_objects dh_pool].
  assert (∀ O P, pool_ok H ∅ O P → P = []) as Hnil.
  { intros O1 P1 (_ & Hp & _). destruct P1 as [|q P1]; [done|].
    destruct (Hp q) as (p & ? & ? & Hin & _); [left|]. set_solver. }
  destruct objects; [by rewrite Em|]. destruct (Hobj eq_refl) as [-> ->].
  apply Hnil in Hok as ->. apply Hnil in Hok' as ->. rewrite Em. cbn [mbind option_bind dr_pool]. done.
Qed.

Context (code : nmethod) (Hcode : nm_tables code = T).
Local Abbreviation data := (nm_scopes_data code).

Lemma decode_scope_values_spec objects V vs V' r O P :
  array_at (λ n, enc_value object_of T H n) data V vs V' r → is_jint (zlen vs) →
  pool_ok H V O P → (objects = false → V = ∅ ∧ V' = ∅) →
  ∃ res O' P', decode_scope_values code objects r (mkDH O P) = Some (res, mkDH O' P') ∧
    grows ∅ O P O' P' ∧ pool_ok H V' O' P' ∧
    Forall2 (same_value object_of H O' P') vs (default [] res) ∧
    ∀ x, x ∈ V' ∖ V → same_object object_of H O' P' x.
Proof.
  intros Harr Hlen Hok Hobj. unfold decode_scope_values. pose proof Harr as [(-> & -> & ->)|(Hr & _)].
  { exists None, O, P. split; [done|]. split_and!; [apply grows_refl|done|constructor|set_solver]. }
  rewrite (proj2 (Z.eqb_neq r serialized_null)) by (unfold serialized_null; lia).
  destruct (read_array_spec (λ n, enc_value object_of T H n) (read_from T) (same_value object_of H)
    V vs V' data r O P) as (vs' & O' & P' & p' & E & Hg & Hok' & Hsame & Hnew); [..|done|done|done|done|].
  { intros *. apply enc_value_nesting. }
  { intros *. apply enc_value_mono. }
  { intros *. by apply read_values_spec. }
  exists (Some vs'), O', P'. split_and!; [|done..]. unfold read_nesting. rewrite Hcode.
  by rewrite (M_bind_Some _ _ _ _ _ (with_stream_spec _ _ _ _ _ _ _ _ _ _ _ _ E Hok Hok' Hobj)).
Qed.

Lemma decode_monitor_values_spec objects V ms V' r O P :
  array_at (λ n, enc_monitor object_of T H n) data V ms V' r → is_jint (zlen ms) →
  pool_ok H V O P → (objects = false → V = ∅ ∧ V' = ∅) →
  ∃ res O' P', decode_monitor_values code objects r (mkDH O P) = Some (res, mkDH O' P') ∧
    grows ∅ O P O' P' ∧ pool_ok H V' O' P' ∧
    Forall2 (same_monitor object_of H O' P') ms (default [] res) ∧
    ∀ x, x ∈ V' ∖ V → same_object object_of H O' P' x.
Proof.
  intros Harr Hlen Hok Hobj. unfold decode_monitor_values. pose proof Harr as [(-> & -> & ->)|(Hr & _)].
  { exists None, O, P. split; [done|]. split_and!; [apply grows_refl|done|constructor|set_solver]. }
  rewrite (proj2 (Z.eqb_neq r serialized_null)) by (unfold serialized_null; lia).
  destruct (read_array_spec (λ n, enc_monitor object_of T H n) (read_MonitorValue T) (same_monitor object_of H)
    V ms V' data r O P) as (ms' & O' & P' & p' & E & Hg & Hok' & Hsame & Hnew); [..|done|done|done|done|].
  { intros *. apply enc_monitor_nesting. }
  { intros n k V1 m b V2 Hle (Hl & b' & He & ->). split; [done|]. exists b'. split; [|done]. by eapply enc_value_mono. }
  { intros *. by apply read_monitors_spec. }
  exists (Some ms'), O', P'. split_and!; [|done..]. unfold read_nesting. rewrite Hcode.
  by rewrite (M_bind_Some _ _ _ _ _ (with_stream_spec _ _ _ _ _ _ _ _ _ _ _ _ E Hok Hok' Hobj)).
Qed.

(** The pool of a pc, whatever has been read before. *)
Lemma decode_object_values_spec vs V' r O P0 :
  array_at (λ n, enc_value object_of T H n) data ∅ vs V' r → is_jint (zlen vs) →
  ∃ objects O' P', decode_object_values code r (mkDH O P0) = Some (objects, mkDH O' P') ∧
    pool_ok H V' O' P' ∧ (objects = false → V' = ∅) ∧
    ∀ x, x ∈ V' → same_object object_of H O' P' x.
Proof.
  intros Harr Hlen. assert (pool_ok H ∅ O []) as Hok.
  { split_and!; [set_solver|by intros ? ?%elem_of_nil|set_solver|by intros id q q' [?%elem_of_nil _]]. }
  unfold decode_object_values. rewrite M_bind_get. cbn [dh_objects]. rewrite (M_bind_Some _ _ _ _ _ eq_refl).
  pose proof Harr as [(-> & -> & ->)|(Hr & _)].
  { exists false, O, []. split_and!; [done|done|done|set_solver]. }
  rewrite (proj2 (Z.eqb_neq r serialized_null)) by (unfold serialized_null; lia).
  destruct (read_array_spec (λ n, enc_value object_of T H n) (read_from T) (same_value object_of H)
    ∅ vs V' data r O []) as (vs' & O' & P' & p' & E & Hg & Hok' & Hsame & Hnew); [..|done|done|done|done|].
  { intros *. apply enc_value_nesting. }
  { intros *. apply enc_value_mono. }
  { intros *. by apply read_values_spec. }
  exists true, O', P'. split_and!; [|done|done|intros x Hx; apply Hnew; set_solver].
  unfold read_nesting. rewrite Hcode.
  by rewrite (M_bind_Some _ _ _ _ _ (with_stream_spec _ true _ _ _ _ _ _ _ _ _ _ E Hok Hok' ltac:(done))).
Qed.

Lemma decode_body_spec objects re rx ro r sender method bci lo eo mo V O P :
  scope_at T data r sender method bci lo eo mo → 0 < r →
  is_jint sender → is_jint bci → is_jint (bci - InvocationEntryBci) →
  is_jint lo → is_jint eo → is_jint mo →
  pool_ok H V O P → (objects = false → V = ∅) →
  decode_body code objects re rx ro r (mkDH O P)
  = Some (mkSD method bci re rx ro r sender lo eo mo objects, mkDH O P).
Proof.
  intros (i & Hi & HT & Hb) Hr Hs Hbci Hbci' Hlo Heo Hmo Hok Hobj. unfold decode_body.
  rewrite (proj2 (Z.eqb_neq r serialized_null)) by (unfold serialized_null; lia).
  repeat setoid_rewrite bytes_at_app in Hb. destruct Hb as (H1 & H2 & H3 & H4 & H5 & H6).
  assert (∃ p', decode_header code (mkDR (mkRS data r) O P)
    = Some ((sender, method, bci, lo, eo, mo), mkDR (mkRS data p') O P)) as [p' E].
  { unfold decode_header, read_method, read_bci. eexists.
    rewrite (M_bind_Some _ _ _ _ _ (dr_read_int_eq _ _ _ _ _ Hs H1)).
    erewrite M_bind_Some by (rewrite (M_bind_Some _ _ _ _ _ (dr_read_int_eq _ _ _ _ _ Hi H2)); reflexivity).
    erewrite M_bind_Some by (rewrite (M_bind_Some _ _ _ _ _ (dr_read_int_eq _ _ _ _ _ Hbci' H3)); reflexivity).
    rewrite (M_bind_Some _ _ _ _ _ (dr_read_int_eq _ _ _ _ _ Hlo H4)).
    rewrite (M_bind_Some _ _ _ _ _ (dr_read_int_eq _ _ _ _ _ Heo H5)).
    rewrite (M_bind_Some _ _ _ _ _ (dr_read_int_eq _ _ _ _ _ Hmo H6)).
    rewrite Hcode, HT. replace (bci - InvocationEntryBci + InvocationEntryBci) with bci by lia.
    rewrite (wrapS_id 32 bci) by done. reflexivity. }
  assert (objects = false → V = ∅ ∧ V = ∅) as Hobj' by (intros Hf; split; by apply Hobj).
  by rewrite (M_bind_Some _ _ _ _ _ (with_stream_spec _ _ _ _ V V _ _ _ _ _ _ E Hok Hok Hobj')).
Qed.
End decode.
