(* ===== verification/Safepoints.v ===== *)
(** * Recording the scopes of a safepoint and reading them back

    The sequence of calls a compiler makes for one safepoint, what is stored by
    it, and that [ScopeDesc] recovers it. *)

From stdpp Require Import base numbers list gmap fin_sets.
From S2P Require Import Prelude GlobalDefinitions CompressedStream GrowableArray VMReg OopRecorder ObjectLookup DebugInfo RecorderIndex OopMap DebugInfoRec ScopeDesc.
Local Open Scope Z_scope.

(** ** What a compiler describes *)

Record ScopeInfo := mkScope {
  si_method : Z;
  si_bci : Z;
  si_reexecute : bool;
  si_rethrow_exception : bool;
  si_is_method_handle_invoke : bool;
  si_return_oop : bool;
  si_locals : option (list ScopeValue);
  si_expressions : option (list ScopeValue);
  si_monitors : option (list MonitorValue)
}.

(** The scopes are given from the outermost one to the innermost one. *)
Record SafepointInfo := mkSafepoint {
  sp_pc_offset : Z;
  sp_map : OopMap;
  sp_objects : option (list Z);        (* the ObjectValues of the pool *)
  sp_scopes : list ScopeInfo
}.

Section record.
Context {R : Type} `{!IndexRecorder R}.
Context (ShareDebugInfo ShareDebugInfo_is_default : bool).
Local Abbreviation DIR := (DebugInformationRecorder R).

Definition record_scope (si : ScopeInfo) : M DIR unit :=
  locals ← create_scope_values ShareDebugInfo ShareDebugInfo_is_default (si_locals si);
  expressions ← create_scope_values ShareDebugInfo ShareDebugInfo_is_default (si_expressions si);
  monitors ← create_monitor_values ShareDebugInfo ShareDebugInfo_is_default (si_monitors si);
  describe_scope ShareDebugInfo ShareDebugInfo_is_default (si_method si) None (si_bci si)
    (si_reexecute si) (si_rethrow_exception si) (si_is_method_handle_invoke si) (si_return_oop si)
    locals expressions monitors.

Definition record_safepoint (sp : SafepointInfo) : M DIR unit :=
  add_safepoint (sp_pc_offset sp) (sp_map sp) ;;
  dump_object_pool ShareDebugInfo ShareDebugInfo_is_default (option_map (map ObjectPointer) (sp_objects sp)) ;;
  mforeach record_scope (sp_scopes sp) ;;
  end_safepoint (sp_pc_offset sp).
End record.

(** ** What is stored *)

Section stored.
Context {R : Type} `{!IndexRecorder R} `{!IndexRecorderLaws R}.
Context (ShareDebugInfo ShareDebugInfo_is_default : bool).
Implicit Types (d : DebugInformationRecorder R) (V : gset Z) (H : gmap Z ObjectValue) (si : ScopeInfo).
Local Abbreviation record_scope := (record_scope ShareDebugInfo ShareDebugInfo_is_default).

(** The objects of the pool, as the compiler made them. *)
Definition pool_graph (os : list Z) (D : gmap Z ObjectValue) : gmap Z ObjectValue :=
  filter (λ x, x.1 ∈ os) (set_visited false <$> D).

Definition scope_ok H si : Prop :=
  valid_metadata (si_method si) ∧
  Forall (value_ok valid_oop H) (default [] (si_locals si)) ∧
  Forall (value_ok valid_oop H) (default [] (si_expressions si)) ∧
  Forall (monitor_ok H) (default [] (si_monitors si)).

(** The scope is stored at [r], its objects being in the pool. *)
Definition stored_scope T H (data : list Z) (sender : Z) si (r : Z) : Prop :=
  ∃ lo eo mo, 0 < r ∧ scope_at T data r sender (si_method si) (si_bci si) lo eo mo ∧
    array_at (λ n, enc_value object_of T H n) data (dom H) (default [] (si_locals si)) (dom H) lo ∧
    array_at (λ n, enc_value object_of T H n) data (dom H) (default [] (si_expressions si)) (dom H) eo ∧
    array_at (λ n, enc_monitor object_of T H n) data (dom H) (default [] (si_monitors si)) (dom H) mo.

(** The scopes are stored one inside the other; the innermost one is at [r]. *)
Inductive stored_scopes T H data : Z → list ScopeInfo → Z → Prop :=
  | stored_nil sender : stored_scopes T H data sender [] sender
  | stored_cons sender si scopes r r' :
      stored_scope T H data sender si r → stored_scopes T H data r scopes r' →
      stored_scopes T H data sender (si :: scopes) r'.

Lemma scope_at_mono T data data' r s m b lo eo mo :
  data `prefix_of` data' → scope_at T data r s m b lo eo mo → scope_at T data' r s m b lo eo mo.
Proof. intros Hp (i & ? & ? & ?). exists i. split_and!; [done..|]. by eapply bytes_at_mono. Qed.

Lemma stored_scope_mono T H data data' sender si r :
  data `prefix_of` data' → stored_scope T H data sender si r → stored_scope T H data' sender si r.
Proof.
  intros Hp (lo & eo & mo & ? & ? & ? & ? & ?). exists lo, eo, mo.
  split_and!; [done|by eapply scope_at_mono|by eapply array_at_mono..].
Qed.

Lemma stored_scopes_mono T H data data' sender scopes r :
  data `prefix_of` data' → stored_scopes T H data sender scopes r → stored_scopes T H data' sender scopes r.
Proof. intros Hp. induction 1; econstructor; [by eapply stored_scope_mono|done]. Qed.

Lemma dir_ok_dom H V d : dir_ok H V d → V ⊆ dom H.
Proof. by intros ((_ & _ & HV & _) & _). Qed.

(** One scope, once the objects of its pool are written. *)
Lemma record_scope_spec H d l pd si :
  graph_ok valid_oop H → scope_ok H si → dir_ok H (dom H) d → pcs_ok d → copied_pcs d = l ++ [pd] →
  ∃ d' r, record_scope si d = Some (tt, d') ∧ dir_ok H (dom H) d' ∧ dir_extends d d' ∧ pcs_ok d' ∧
    same_marks d d' ∧ 0 < r ∧
    copied_pcs d' = l ++ [described r (si_reexecute si) (si_rethrow_exception si)
                            (si_is_method_handle_invoke si) (si_return_oop si) pd] ∧
    ∀ T, dir_tables d' T → stored_scope T H (dir_data d') (scope_decode_offset pd) si r.
Proof.
  intros HG (Hm & Hlo & Hex & Hmo) Hd Hok Hl. unfold Safepoints.record_scope, create_scope_values, create_monitor_values.
  assert (∀ V', dom H ⊆ V' → ∀ d, dir_ok H V' d → V' = dom H) as Hall.
  { intros V' HV d0 Hd0. apply set_eq. intros x. pose proof (dir_ok_dom _ _ _ Hd0). set_solver. }
  destruct (serialize_scope_values_spec ShareDebugInfo ShareDebugInfo_is_default H (dom H) (si_locals si) d HG Hlo Hd)
    as (lo & d1 & V1 & E1 & HV1 & Hd1 & Hx1 & Hp1 & HT1).
  pose proof (Hall _ HV1 _ Hd1) as ->. rewrite (M_bind_Some _ _ _ _ _ E1).
  destruct (serialize_scope_values_spec ShareDebugInfo ShareDebugInfo_is_default H (dom H) (si_expressions si) d1 HG Hex Hd1)
    as (eo & d2 & V2 & E2 & HV2 & Hd2 & Hx2 & Hp2 & HT2).
  pose proof (Hall _ HV2 _ Hd2) as ->. rewrite (M_bind_Some _ _ _ _ _ E2).
  destruct (serialize_monitor_values_spec ShareDebugInfo ShareDebugInfo_is_default H (dom H) (si_monitors si) d2 HG Hmo Hd2)
    as (mo & d3 & V3 & E3 & HV3 & Hd3 & Hx3 & Hp3 & HT3).
  pose proof (Hall _ HV3 _ Hd3) as ->. rewrite (M_bind_Some _ _ _ _ _ E3).
  assert (same_pcs d d3) as Hp by eauto using same_pcs_trans.
  destruct (describe_scope_spec ShareDebugInfo ShareDebugInfo_is_default H (dom H) d3 l pd (si_method si) None (si_bci si)
    (si_reexecute si) (si_rethrow_exception si) (si_is_method_handle_invoke si) (si_return_oop si) lo eo mo
    Hd3 (pcs_ok_same _ _ Hp Hok) (eq_trans (copied_pcs_same _ _ Hp) Hl) Hm)
    as (d4 & r & E4 & Hd4 & Hx4 & Hok4 & Hm4 & Hr & Hl4 & HT4).
  exists d4, r. assert (dir_extends d2 d4) as Hx24 by eauto using dir_extends_trans.
  assert (dir_extends d1 d4) as Hx14 by eauto using dir_extends_trans.
  split_and!; [done|done|by eapply dir_extends_trans|done| |done|done|].
  - eapply same_marks_trans; [by apply same_marks_pcs|done].
  - intros T HT. exists lo, eo, mo. split_and!; [done|by apply HT4| | |].
    + eapply array_at_mono; [apply Hx14|]. apply HT1. by eapply dir_tables_extends.
    + eapply array_at_mono; [apply Hx24|]. apply HT2. by eapply dir_tables_extends.
    + eapply array_at_mono; [apply Hx4|]. apply HT3. by eapply dir_tables_extends.
Qed.

(** The descriptor after all scopes: the flags are those of the innermost one. *)
Definition describe_all (scopes : list ScopeInfo) (r : Z) (pd : PcDesc) : PcDesc :=
  match last scopes with
  | Some si => described r (si_reexecute si) (si_rethrow_exception si)
                 (si_is_method_handle_invoke si) (si_return_oop si) pd
  | None => set_scope_decode_offset r pd
  end.

(** The flags of a descriptor are overwritten by the next scope. *)
Lemma described_flags r re rx mhi ro pd :
  0 ≤ pc_flags pd < 16 →
  pc_flags (described r re rx mhi ro pd) = Z.b2z re + 2 * Z.b2z mhi + 4 * Z.b2z ro + 8 * Z.b2z rx.
Proof.
  destruct pd as [pc sc ob fl]. cbn [pc_flags]. intros Hfl.
  assert (fl ∈ seqZ 0 16) as Hin by (apply elem_of_seqZ; lia). clear Hfl.
  let l := eval vm_compute in (seqZ 0 16) in change (seqZ 0 16) with l in Hin.
  repeat (apply elem_of_cons in Hin as [->|Hin]; [by destruct re, rx, mhi, ro|]). by apply elem_of_nil in Hin.
Qed.

Lemma described_described r re rx mhi ro r' re' rx' mhi' ro' pd :
  0 ≤ pc_flags pd < 16 →
  described r re rx mhi ro (described r' re' rx' mhi' ro' pd) = described r re rx mhi ro pd.
Proof.
  intros Hfl. pose proof (described_flags r re rx mhi ro pd Hfl) as H1.
  pose proof (described_flags r' re' rx' mhi' ro' pd Hfl) as H2.
  pose proof (described_flags r re rx mhi ro (described r' re' rx' mhi' ro' pd)) as H3.
  assert (∀ r re rx mhi ro pd, described r re rx mhi ro pd
    = mkPcDesc (pc_offset pd) r (obj_decode_offset pd) (pc_flags (described r re rx mhi ro pd))) as Heq by done.
  rewrite (Heq r re rx mhi ro (described _ _ _ _ _ _)), (Heq r re rx mhi ro pd), H3, H1; [done|].
  rewrite H2. by destruct re', rx', mhi', ro'.
Qed.

Lemma record_scopes_spec H d l pd scopes :
  graph_ok valid_oop H → Forall (scope_ok H) scopes → dir_ok H (dom H) d → pcs_ok d →
  copied_pcs d = l ++ [pd] → 0 ≤ pc_flags pd < 16 →
  ∃ d' r, mforeach record_scope scopes d = Some (tt, d') ∧ dir_ok H (dom H) d' ∧ dir_extends d d' ∧ pcs_ok d' ∧
    same_marks d d' ∧ copied_pcs d' = l ++ [describe_all scopes r pd] ∧
    ∀ T, dir_tables d' T → stored_scopes T H (dir_data d') (scope_decode_offset pd) scopes r.
Proof.
  intros HG Hsc. revert d pd. induction Hsc as [|si scopes Hsi _ IH]; intros d pd Hd Hok Hl Hfl.
  { exists d, (scope_decode_offset pd). split_and!; try done; [rewrite Hl; by destruct pd|intros T _; constructor]. }
  destruct (record_scope_spec H d l pd si HG Hsi Hd Hok Hl) as (d1 & r1 & E1 & Hd1 & Hx1 & Hok1 & Hm1 & Hr1 & Hl1 & HT1).
  destruct (IH d1 _ Hd1 Hok1 Hl1) as (d2 & r & E2 & Hd2 & Hx2 & Hok2 & Hm2 & Hl2 & HT2).
  { rewrite described_flags by done.
    destruct (si_reexecute si), (si_rethrow_exception si), (si_is_method_handle_invoke si), (si_return_oop si); done. }
  exists d2, r. cbn [mforeach]. rewrite (M_bind_Some _ _ _ _ _ E1).
  split_and!; [done|done|by eapply dir_extends_trans|done|by eapply same_marks_trans| |].
  - rewrite Hl2. do 2 f_equal. unfold describe_all. rewrite last_cons.
    destruct (last scopes) as [si'|]; [by apply described_described|done].
  - intros T HT. econstructor; [|by apply HT2].
    eapply stored_scope_mono; [apply Hx2|]. apply HT1. by eapply dir_tables_extends.
Qed.

(** *** The object pool *)

Lemma clear_visited_spec os (w : DebugInfoWriter R) :
  (∀ p, p ∈ os → is_Some (dw_objects w !! p)) →
  ∃ w', mforeach clear_visited (map ObjectPointer os) w = Some (tt, w') ∧
    dw_stream w' = dw_stream w ∧ dw_recorder w' = dw_recorder w ∧
    same_graph (dw_objects w) (dw_objects w') ∧
    ∀ p, dw_objects w' !! p = if decide (p ∈ os) then set_visited false <$> dw_objects w !! p
                               else dw_objects w !! p.
Proof.
  revert w. induction os as [|p os IH]; intros w Hos.
  { exists w. by split_and!. }
  destruct (Hos p ltac:(left)) as [o Ho]. cbn [map mforeach clear_visited].
  set (w1 := mkDW (dw_stream w) (<[p := set_visited false o]> (dw_objects w)) (dw_recorder w)).
  assert (clear_visited (ObjectPointer p) w = Some (tt, w1)) as E1.
  { cbn [clear_visited]. erewrite M_bind_Some by (unfold get_object; by rewrite Ho). done. }
  rewrite (M_bind_Some _ _ _ _ _ E1).
  assert (∀ q, set_visited false <$> dw_objects w1 !! q = set_visited false <$> dw_objects w !! q) as H1.
  { intros q. cbn [dw_objects w1]. destruct (decide (p = q)) as [<-|Hne]; [|by rewrite lookup_insert_ne].
    by rewrite lookup_insert_eq, Ho. }
  destruct (IH w1) as (w' & E & Hst & Hr & Hg & Hp).
  { intros q Hq. cbn [dw_objects w1]. destruct (decide (p = q)) as [<-|Hne].
    - rewrite lookup_insert_eq. eauto.
    - rewrite lookup_insert_ne by done. apply Hos. by right. }
  exists w'. split_and!; [done..| |].
  - unfold same_graph in *. rewrite Hg. apply map_eq. intros q. by rewrite !lookup_fmap.
  - intros q. rewrite Hp. destruct (decide (q ∈ os)) as [Hq|Hq].
    { rewrite decide_True by (by right). apply H1. }
    cbn [dw_objects w1]. destruct (decide (p = q)) as [<-|Hne].
    + rewrite lookup_insert_eq, decide_True by left. by rewrite Ho.
    + rewrite lookup_insert_ne, decide_False; [done| |done]. rewrite elem_of_cons. naive_solver.
Qed.

Lemma pool_graph_lookup os D p o :
  pool_graph os D !! p = Some o ↔ p ∈ os ∧ ∃ o', D !! p = Some o' ∧ o = set_visited false o'.
Proof.
  unfold pool_graph. rewrite map_lookup_filter_Some. cbn [fst]. rewrite lookup_fmap, fmap_Some. naive_solver.
Qed.

Lemma enc_object_written T H n V p bs V' :
  enc_value object_of T H n V (ObjectPointer p) bs V' → p ∈ V'.
Proof.
  intros He. pose proof (enc_value_subseteq object_of T H n V _ bs V' He) as Hsub. destruct n; [done|].
  destruct He as (o & Ho & _ & Hd). case_decide as Hp; [by apply Hsub|].
  destruct Hd as (k & b1 & V1 & b2 & _ & _ & H1 & H2 & _).
  apply enc_value_subseteq in H1. apply enc_list_subseteq in H2; [set_solver|]. intros *. apply enc_value_subseteq.
Qed.

Lemma enc_objects_written T H n V os bs V' :
  enc_list (enc_value object_of T H n) V (map ObjectPointer os) bs V' → ∀ p, p ∈ os → p ∈ V'.
Proof.
  revert V bs. induction os as [|q os IH]; intros V bs He p Hp; [by apply elem_of_nil in Hp|].
  inversion He as [|? ? ? b bs' V1 ? Hq Hrest]; subst. apply elem_of_cons in Hp as [->|Hp]; [|by eapply IH].
  apply enc_object_written in Hq.
  assert (V1 ⊆ V') as Hsub by (eapply enc_list_subseteq; [|exact Hrest]; intros *; apply enc_value_subseteq).
  by apply Hsub.
Qed.

Lemma dir_ok_none H V d : dir_ok H V d → dir_ok ∅ ∅ d.
Proof. intros ((? & ? & ? & ?) & ? & ?). by split_and!. Qed.

(** The state of the writer once the objects of the pool are unmarked. *)
Lemma clear_pool_spec d os :
  let H := pool_graph os (dw_objects (dir_writer d)) in
  dir_ok ∅ ∅ d → (∀ p, p ∈ os → is_Some (dw_objects (dir_writer d) !! p)) →
  ∃ w, mforeach clear_visited (map ObjectPointer (reverse os)) (dir_writer d) = Some (tt, w) ∧
    dir_ok H ∅ (set_writer w d) ∧ dir_extends d (set_writer w d).
Proof.
  intros H Hd Hos. destruct (clear_visited_spec (reverse os) (dir_writer d)) as (w & Ew & Hst & Hr & Hg & Hp).
  { intros p Hp. apply Hos. by apply elem_of_reverse. }
  exists w. split; [done|]. set (d1 := set_writer w d). split.
  - destruct Hd as ((Hws & Hrc & _) & [K1 K2 K3 K4] & Hpos). split; [|split].
    + split_and!; cbn [dir_writer d1 set_writer]; [by rewrite Hst|by rewrite Hr|set_solver|].
      intros p o [Hin (o' & Ho' & ->)]%pool_graph_lookup. rewrite Hp, decide_True by (by apply elem_of_reverse).
      rewrite Ho'. done.
    + unfold dir_data, dir_stream in *. cbn [dir_writer d1 set_writer]. rewrite Hst. by split.
    + unfold dir_data, dir_stream in *. cbn [dir_writer d1 set_writer]. by rewrite Hst.
  - split_and!; [|by cbn; rewrite Hr; apply recorder_extends_refl..|done].
    unfold dir_data, dir_stream. cbn [dir_writer d1 set_writer]. by rewrite Hst.
Qed.

Lemma dump_object_pool_spec d l pd objects :
  let os := default [] objects in
  let H := pool_graph os (dw_objects (dir_writer d)) in
  dir_ok ∅ ∅ d → pcs_ok d → copied_pcs d = l ++ [pd] →
  (∀ p, p ∈ os → is_Some (dw_objects (dir_writer d) !! p)) → graph_ok valid_oop H →
  ∃ d' r, dump_object_pool ShareDebugInfo ShareDebugInfo_is_default (option_map (map ObjectPointer) objects) d
      = Some (tt, d') ∧
    dir_ok H (dom H) d' ∧ dir_extends d d' ∧ pcs_ok d' ∧ same_marks d d' ∧
    copied_pcs d' = l ++ [set_obj_decode_offset r pd] ∧
    ∀ T, dir_tables d' T →
      array_at (λ n, enc_value object_of T H n) (dir_data d') ∅ (map ObjectPointer os) (dom H) r.
Proof.
  intros os H Hd Hok Hl Hos HG. unfold dump_object_pool. rewrite M_bind_get.
  destruct (copied_pcs_split d l pd Hok Hl) as [Hlen _].
  rewrite (proj2 (Z.ltb_lt 0 _)) by (unfold zlen in Hlen; lia). cbn [negb].
  destruct (clear_pool_spec d os Hd Hos) as (w & Ew & Hd1 & Hx1). fold H in Hd1.
  set (d1 := set_writer w d).
  assert ((match option_map (map ObjectPointer) objects with
     | Some vs => on_writer (mforeach clear_visited (reverse vs)) | None => mret tt end) d
     = Some (tt, d1)) as E1.
  { subst os d1. destruct objects as [os|]; cbn [option_map default from_option] in *.
    - unfold id in Ew. unfold on_writer. change (map ObjectPointer os) with (ObjectPointer <$> os).
      rewrite <- fmap_reverse. change (ObjectPointer <$> reverse os) with (map ObjectPointer (reverse os)).
      by rewrite Ew.
    - cbn in Ew. injection Ew as <-. by destruct d. }
  rewrite (M_bind_Some _ _ _ _ _ E1).
  fold d1 in Hd1, Hx1.
  destruct (serialize_scope_values_spec ShareDebugInfo ShareDebugInfo_is_default H ∅
    (option_map (map ObjectPointer) objects) d1 HG) as (r & d2 & V2 & E2 & _ & Hd2 & Hx2 & Hp2 & HT2); [|done|].
  { assert (default [] (option_map (map ObjectPointer) objects) = map ObjectPointer os) as -> by (by destruct objects).
    apply Forall_fmap, Forall_forall. intros p Hin. cbn. destruct (Hos p Hin) as [o Ho].
    exists (set_visited false o). apply pool_graph_lookup. eauto. }
  rewrite (M_bind_Some _ _ _ _ _ E2).
  assert (default [] (option_map (map ObjectPointer) objects) = map ObjectPointer os) as Hdef by (by destruct objects).
  rewrite Hdef in HT2.
  assert (V2 = dom H) as ->.
  { apply set_eq. intros p. split; [by apply (dir_ok_dom H V2 d2)|].
    intros [o [Hin _]%pool_graph_lookup]%elem_of_dom.
    destruct (tables_exist (dw_recorder (dir_writer d2))) as [T HT].
    destruct (HT2 T HT) as [(_ & Hn & _)|(_ & n & bs & _ & He)]; [|by eapply enc_objects_written].
    apply fmap_nil_inv in Hn. rewrite Hn in Hin. by apply elem_of_nil in Hin. }
  assert (same_pcs d d2) as Hp02 by (eapply same_pcs_trans; [|done]; done).
  destruct (update_last_pc_spec d2 l pd (set_obj_decode_offset r) (pcs_ok_same _ _ Hp02 Hok)
    (eq_trans (copied_pcs_same _ _ Hp02) Hl)) as (d3 & E3 & Hok3 & Ho3 & _ & Hl3).
  exists d3, r. split_and!; [done|by eapply dir_ok_only_pcs| |done| |done|].
  - eapply dir_extends_trans; [done|]. eapply dir_extends_trans; [done|]. by apply dir_extends_only_pcs.
  - eapply same_marks_trans; [by apply same_marks_pcs|by apply same_marks_only_pcs].
  - destruct Ho3 as (? & ? & ? & ->). apply HT2.
Qed.

(** *** The end of a safepoint *)

Lemma is_same_info_eq pd q pc :
  is_same_info q pd = true → pc_offset pd = pc → set_pc_offset pc q = pd.
Proof.
  unfold is_same_info. rewrite !andb_true_iff, !Z.eqb_eq. destruct pd, q. cbn. naive_solver.
Qed.

Lemma truncate_pcs d l q pd :
  pcs_ok d → copied_pcs d = l ++ [pd; q] →
  let d' := set_pcs (dir_pcs d) (dir_pcs_size d) (dir_pcs_length d - 1) d in
  pcs_ok d' ∧ copied_pcs d' = l ++ [pd].
Proof.
  intros Hok Hl. assert (copied_pcs d = (l ++ [pd]) ++ [q]) as Hl' by (by rewrite <- app_assoc).
  destruct (copied_pcs_split d _ _ Hok Hl') as [Hn [rest Hp]]. destruct Hok as (H1 & H2 & H3).
  split; [split_and!; cbn; unfold zlen in *; lia|]. unfold copied_pcs. cbn [dir_pcs set_pcs dir_pcs_length].
  rewrite Hp. replace (Z.to_nat (dir_pcs_length d - 1)) with (length (l ++ [pd])) by (unfold zlen in Hn; lia).
  by rewrite take_app_length.
Qed.

(** [end_scopes] may merge the descriptor with the one before it, when that one
    is not of a safepoint and refers to the same information. *)
Lemma end_scopes_spec d l pd pc is_safepoint :
  pcs_ok d → copied_pcs d = l ++ [pd] → pc_offset pd = pc →
  ∃ d' l' pcs size len prev, end_scopes pc is_safepoint d = Some (tt, d') ∧
    d' = set_prev_safepoint_pc prev (set_pcs pcs size len d) ∧
    prev = (if is_safepoint then pc else dir_prev_safepoint_pc d) ∧
    pcs_ok d' ∧ copied_pcs d' = l' ++ [pd] ∧
    (l' = l ∨ ∃ q, l = l' ++ [q] ∧ dir_prev_safepoint_pc d < pc_offset q ∧ is_same_info q pd = true).
Proof.
  intros Hok Hl Hpc. unfold end_scopes. rewrite M_bind_get.
  set (merge := if (2 <=? dir_pcs_length d) && _ then _ else _).
  assert (∃ d1 l' pcs size len, merge d = Some (tt, d1) ∧ d1 = set_pcs pcs size len d ∧ pcs_ok d1 ∧
    copied_pcs d1 = l' ++ [pd] ∧
    (l' = l ∨ ∃ q, l = l' ++ [q] ∧ dir_prev_safepoint_pc d < pc_offset q ∧ is_same_info q pd = true)) as
    (d1 & l' & pcs & size & len & E & Hd1 & Hok1 & Hl1 & Hcase).
  { assert (∃ pcs size len, d = set_pcs pcs size len d) as (p0 & s0 & n0 & Hid) by (destruct d; by eexists _, _, _).
    subst merge. destruct ((2 <=? dir_pcs_length d) && _) eqn:Hc; [|by exists d, l, p0, s0, n0; split_and!; auto].
    apply andb_true_iff in Hc as [Hlen%Z.leb_le _].
    destruct (copied_pcs_split d l pd Hok Hl) as [Hn _].
    destruct (exists_last_or_nil l) as [->|(l1 & q & ->)]; [unfold zlen in Hn; simpl in Hn; lia|].
    assert (copied_pcs d = l1 ++ q :: [pd]) as Hl2 by (by rewrite Hl, <- app_assoc).
    rewrite (M_bind_Some _ _ _ _ _ (last_pc_spec d _ _ Hok Hl)).
    rewrite (M_bind_Some _ _ _ _ _ (prev_pc_spec d l1 q pd Hok Hl2)).
    destruct ((dir_prev_safepoint_pc d <? pc_offset q) && is_same_info q pd) eqn:Hc;
      [|by exists d, (l1 ++ [q]), p0, s0, n0; split_and!; auto].
    apply andb_true_iff in Hc as [Hlt%Z.ltb_lt Hsame].
    destruct (update_pc_spec d l1 q [pd] (set_pc_offset pc) Hok Hl2) as (d2 & E2 & Hok2 & (pcs & size & len & ->) & Hlen2 & Hl3).
    rewrite (is_same_info_eq pd q pc Hsame Hpc) in Hl3.
    destruct (truncate_pcs _ _ _ _ Hok2 Hl3) as [Hok3 Hl4].
    rewrite zlen_app in Hn. change (zlen [q]) with 1 in Hn. replace (dir_pcs_length d - 2) with (zlen l1) by lia.
    rewrite (M_bind_Some _ _ _ _ _ E2), M_bind_get.
    eexists _, l1, _, _, _. split; [done|]. split; [done|]. split_and!; [done..|]. right. by exists q. }
  rewrite (M_bind_Some _ _ _ _ _ E). destruct is_safepoint.
  - eexists _, l', pcs, size, len, pc. split; [done|]. subst d1. by split_and!.
  - eexists d1, l', pcs, size, len, _. split; [done|]. split; [by subst d1|]. by split_and!.
Qed.

(** ** Safepoints *)

Definition sp_pool (sp : SafepointInfo) : list Z := default [] (sp_objects sp).

(** A safepoint a compiler can record, with the ObjectValues [D]. *)
Definition safepoint_ok (D : gmap Z ObjectValue) (sp : SafepointInfo) : Prop :=
  (∀ p, p ∈ sp_pool sp → is_Some (D !! p)) ∧
  graph_ok valid_oop (pool_graph (sp_pool sp) D) ∧
  Forall (scope_ok (pool_graph (sp_pool sp) D)) (sp_scopes sp).

(** The safepoint is stored and [pd] refers to it. *)
Definition stored_safepoint T (D : gmap Z ObjectValue) data (sp : SafepointInfo) (pd : PcDesc) : Prop :=
  let H := pool_graph (sp_pool sp) D in
  ∃ ro r, pd = describe_all (sp_scopes sp) r
                 (set_obj_decode_offset ro (new_PcDesc (sp_pc_offset sp) serialized_null serialized_null)) ∧
    array_at (λ n, enc_value object_of T H n) data ∅ (map ObjectPointer (sp_pool sp)) (dom H) ro ∧
    stored_scopes T H data serialized_null (sp_scopes sp) r.

Lemma stored_safepoint_mono T D data data' sp pd :
  data `prefix_of` data' → stored_safepoint T D data sp pd → stored_safepoint T D data' sp pd.
Proof.
  intros Hp (ro & r & ? & ? & ?). exists ro, r.
  split_and!; [done|by eapply array_at_mono|by eapply stored_scopes_mono].
Qed.

(** The state between two safepoints. *)
Record recording d (maps : list OopMap) (pcs : list PcDesc) : Prop := {
  rec_dir : dir_ok ∅ ∅ d;
  rec_pcs : pcs_ok d;
  rec_copied : copied_pcs d = pcs;
  rec_maps : oset_ok (dir_oopmaps d) maps;
  rec_last : ∀ l pd, pcs = l ++ [pd] → pc_offset pd ≤ dir_prev_safepoint_pc d
}.

Lemma same_graph_pool D D' os : same_graph D D' → pool_graph os D' = pool_graph os D.
Proof. unfold same_graph, pool_graph. by intros ->. Qed.
Lemma same_graph_some D D' p : same_graph D D' → is_Some (D !! p) → is_Some (D' !! p).
Proof.
  intros Hg [o Ho]. pose proof (f_equal (λ D, D !! p) Hg) as Hp. cbn beta in Hp.
  rewrite !lookup_fmap, Ho in Hp. destruct (D' !! p); [eauto|done].
Qed.
Lemma same_graph_safepoint D D' sp : same_graph D D' → safepoint_ok D sp → safepoint_ok D' sp.
Proof.
  intros Hg (H1 & H2 & H3). split_and!; [intros p Hp; eapply same_graph_some; eauto|..];
    by rewrite (same_graph_pool D D').
Qed.

Lemma add_safepoint_spec d maps pcs pc map :
  recording d maps pcs →
  ∃ d', add_safepoint pc map d = Some (tt, d') ∧ dir_ok ∅ ∅ d' ∧ dir_extends d d' ∧ pcs_ok d' ∧
    dir_prev_safepoint_pc d' = dir_prev_safepoint_pc d ∧ dw_objects (dir_writer d') = dw_objects (dir_writer d) ∧
    oset_ok (dir_oopmaps d') (maps ++ [set_offset pc map]) ∧
    copied_pcs d' = pcs ++ [new_PcDesc pc serialized_null serialized_null].
Proof.
  intros [Hd Hok Hcp Hmaps _]. unfold add_safepoint, add_oopmap.
  destruct (add_gc_map_spec _ _ pc map Hmaps (ideal_roomy _)) as (oms & E & Hmaps').
  erewrite M_bind_Some by (rewrite E; reflexivity).
  destruct (add_new_pc_offset_spec (set_oopmaps oms d) pc Hok (ideal_roomy _)) as (d' & E' & Hok' & (? & ? & ? & ->) & Hcp').
  eexists. split; [exact E'|]. split; [destruct Hd as (Hw & [] & Hp); by split_and!|].
  split; [split_and!; [done|apply recorder_extends_refl|done]|]. split_and!; [done..|].
  rewrite Hcp'. by rewrite <- Hcp.
Qed.

Lemma record_safepoint_spec d maps pcs sp :
  recording d maps pcs → safepoint_ok (dw_objects (dir_writer d)) sp →
  ∃ d' pd, record_safepoint ShareDebugInfo ShareDebugInfo_is_default sp d = Some (tt, d') ∧
    dir_extends d d' ∧
    recording d' (maps ++ [set_offset (sp_pc_offset sp) (sp_map sp)]) (pcs ++ [pd]) ∧
    pc_offset pd = sp_pc_offset sp ∧
    ∀ T, dir_tables d' T → stored_safepoint T (dw_objects (dir_writer d)) (dir_data d') sp pd.
Proof.
  intros Hrec (Hos & HG & Hsc). unfold record_safepoint.
  destruct (add_safepoint_spec d maps pcs (sp_pc_offset sp) (sp_map sp) Hrec)
    as (d1 & E1 & Hd1 & Hx1 & Hok1 & Hprev1 & Hobj1 & Hmaps1 & Hcp1).
  rewrite (M_bind_Some _ _ _ _ _ E1). set (H := pool_graph (sp_pool sp) (dw_objects (dir_writer d))) in *.
  assert (pool_graph (sp_pool sp) (dw_objects (dir_writer d1)) = H) as HH by (by rewrite Hobj1).
  destruct (dump_object_pool_spec d1 pcs _ (sp_objects sp) Hd1 Hok1 Hcp1)
    as (d2 & ro & E2 & Hd2 & Hx2 & Hok2 & Hm2 & Hcp2 & HT2); [by rewrite Hobj1|by fold (sp_pool sp); rewrite HH|].
  fold (sp_pool sp) in Hd2, HT2. rewrite HH in Hd2, HT2. rewrite (M_bind_Some _ _ _ _ _ E2).
  destruct (record_scopes_spec H d2 pcs _ (sp_scopes sp) HG Hsc Hd2 Hok2 Hcp2)
    as (d3 & r & E3 & Hd3 & Hx3 & Hok3 & Hm3 & Hcp3 & HT3); [done|].
  rewrite (M_bind_Some _ _ _ _ _ E3). set (pd := describe_all _ _ _) in Hcp3.
  assert (pc_offset pd = sp_pc_offset sp) as Hpc by (unfold pd, describe_all; by destruct (last _)).
  destruct (same_marks_trans _ _ _ Hm2 Hm3) as (Hprev3 & _ & Hmaps3).
  destruct (end_scopes_spec d3 pcs pd (sp_pc_offset sp) true Hok3 Hcp3 Hpc)
    as (d4 & l' & ps & sz & ln & prev & E4 & -> & -> & Hok4 & Hcp4 & Hcase).
  assert (l' = pcs) as ->.
  { destruct Hcase as [->|(q & -> & Hlt & _)]; [done|]. pose proof (rec_last _ _ _ Hrec l' q eq_refl).
    rewrite Hprev3, Hprev1 in Hlt. lia. }
  eexists _, pd. split; [exact E4|].
  assert (dir_extends d d3) as Hx by eauto using dir_extends_trans.
  split; [exact Hx|]. split.
  - split; [|done|done|cbn; by rewrite Hmaps3|].
    + destruct (dir_ok_none _ _ _ Hd3) as (Hw & [] & Hp). by split_and!.
    + intros l pd' [_ [= <-]]%app_inj_2; [|done]. cbn. lia.
  - split; [done|]. intros T HT. exists ro, r. split_and!; [done| |by apply HT3].
    eapply array_at_mono; [apply Hx3|]. apply HT2. by eapply dir_tables_extends.
Qed.

Lemma record_all_spec sps d maps pcs D :
  recording d maps pcs → same_graph D (dw_objects (dir_writer d)) → Forall (safepoint_ok D) sps →
  ∃ d' pds, mforeach (record_safepoint ShareDebugInfo ShareDebugInfo_is_default) sps d = Some (tt, d') ∧
    dir_extends d d' ∧
    recording d' (maps ++ ((λ sp, set_offset (sp_pc_offset sp) (sp_map sp)) <$> sps)) (pcs ++ pds) ∧
    Forall2 (λ sp pd, pc_offset pd = sp_pc_offset sp ∧
      ∀ T, dir_tables d' T → stored_safepoint T D (dir_data d') sp pd) sps pds.
Proof.
  intros Hrec Hg Hsps. revert d maps pcs Hrec Hg. induction Hsps as [|sp sps Hsp _ IH]; intros d maps pcs Hrec Hg.
  { exists d, []. rewrite !app_nil_r. split; [done|]. split; [apply dir_extends_refl|]. by split. }
  destruct (record_safepoint_spec d maps pcs sp Hrec (same_graph_safepoint _ _ _ Hg Hsp))
    as (d1 & pd & E1 & Hx1 & Hrec1 & Hpc & HT1).
  destruct (IH d1 _ _ Hrec1) as (d2 & pds & E2 & Hx2 & Hrec2 & HT2).
  { unfold same_graph in *. destruct Hx1 as (_ & _ & Hg1). by rewrite Hg1. }
  exists d2, (pd :: pds). cbn [mforeach]. rewrite (M_bind_Some _ _ _ _ _ E1).
  split; [done|]. split; [by eapply dir_extends_trans|].
  split; [rewrite <- !app_assoc in Hrec2; exact Hrec2|]. constructor; [|done]. split; [done|]. intros T HT.
  eapply stored_safepoint_mono; [apply Hx2|]. specialize (HT1 T (dir_tables_extends _ _ _ Hx2 HT)).
  unfold stored_safepoint in *. by rewrite (same_graph_pool _ _ (sp_pool sp) Hg) in HT1.
Qed.
End stored.

(** ** Reading the scopes of a pc *)

Record DecodedScope := mkDecoded {
  ds_method : Z;
  ds_bci : Z;
  ds_reexecute : bool;
  ds_rethrow_exception : bool;
  ds_return_oop : bool;
  ds_locals : option (list ScopeValue);
  ds_expressions : option (list ScopeValue);
  ds_monitors : option (list MonitorValue)
}.

(** [nmethod::scope_desc_at], once the descriptor is found. *)
Definition scope_desc_at (code : nmethod) (pd : PcDesc) : M DebugHeap ScopeDesc :=
  new_ScopeDesc code (scope_decode_offset pd) (obj_decode_offset pd) (should_reexecute pd)
    (rethrow_exception pd) (return_oop pd).

Definition read_scope (code : nmethod) (sd : ScopeDesc) : M DebugHeap DecodedScope :=
  ls ← locals code sd;
  es ← expressions code sd;
  ms ← monitors code sd;
  mret (mkDecoded (sd_method sd) (sd_bci sd) (sd_reexecute sd) (sd_rethrow_exception sd)
          (sd_return_oop sd) ls es ms).

(** The scope and its senders, at most [n]. *)
Fixpoint read_scopes (n : nat) (code : nmethod) (sd : ScopeDesc) : M DebugHeap (list DecodedScope) :=
  match n with
  | O => mfailS
  | S n' =>
      s ← read_scope code sd;
      p ← sender code sd;
      match p with
      | None => mret [s]
      | Some sd' => rest ← read_scopes n' code sd'; mret (s :: rest)
      end
  end.

(** The scope that was read is the one that was described.  The flags are
    those of the innermost scope. *)
Definition same_scope (object_of : Z → Z) (H O : gmap Z ObjectValue) (P : list Z) (innermost : bool)
    (si : ScopeInfo) (ds : DecodedScope) : Prop :=
  ds_method ds = si_method si ∧ ds_bci ds = si_bci si ∧
  ds_reexecute ds = innermost && si_reexecute si ∧
  ds_rethrow_exception ds = innermost && si_rethrow_exception si ∧
  ds_return_oop ds = innermost && si_return_oop si ∧
  Forall2 (same_value object_of H O P) (default [] (si_locals si)) (default [] (ds_locals ds)) ∧
  Forall2 (same_value object_of H O P) (default [] (si_expressions si)) (default [] (ds_expressions ds)) ∧
  Forall2 (same_monitor object_of H O P) (default [] (si_monitors si)) (default [] (ds_monitors ds)).

(** The scopes, from the innermost one outwards. *)
Definition same_scopes (object_of : Z → Z) (H O : gmap Z ObjectValue) (P : list Z)
    (scopes : list ScopeInfo) (ds : list DecodedScope) : Prop :=
  match scopes, ds with
  | si :: scopes', s :: ds' =>
      same_scope object_of H O P true si s ∧ Forall2 (same_scope object_of H O P false) scopes' ds'
  | [], [] => True
  | _, _ => False
  end.

Definition bci_ok (bci : Z) : Prop := InvocationEntryBci ≤ bci < 2 ^ 31 - 1.

Section read.
Context {R : Type} `{!IndexRecorder R} `{!IndexRecorderLaws R}.
Context (T : CodeTables) (H : gmap Z ObjectValue).
Context (Hids : ∀ p q o o', H !! p = Some o → H !! q = Some o' → ov_id o = ov_id o' → p = q).
Context (code : nmethod) (Hcode : nm_tables code = T) (Hsize : zlen (nm_scopes_data code) < 2 ^ 31).
Implicit Types (O : gmap Z ObjectValue) (P : list Z) (V : gset Z) (si : ScopeInfo).
Local Abbreviation data := (nm_scopes_data code).
Local Abbreviation stored_scope := (stored_scope (R := R)).
Local Abbreviation stored_scopes := (stored_scopes (R := R)).
Local Abbreviation same_scope := (same_scope object_of H).

Lemma same_scope_grows X O P O' P' b si ds :
  grows X O P O' P' → same_scope O P b si ds → same_scope O' P' b si ds.
Proof.
  intros Hg (? & ? & ? & ? & ? & H1 & H2 & H3). split_and!; try done;
    eapply Forall2_impl; try done; intros v v' Hv; [by eapply same_value_grows..|].
  destruct Hv as (? & ? & ?). split_and!; [by eapply same_value_grows|done..].
Qed.

(** *** Sizes *)

Lemma enc_value_nonempty n V v bs V' : enc_value object_of T H n V v bs V' → bs ≠ [].
Proof.
  assert (∀ v b, enc_int v ++ b ≠ []) as Hne by (intros x b [Hn _]%app_nil; by apply enc_int_nonempty in Hn).
  destruct n; [done|]. destruct v; cbn [enc_value];
    [by intros (_ & -> & _)..|by intros (i & _ & _ & -> & _)|done|].
  intros (o & _ & _ & Hd). case_decide; [by destruct Hd as [-> _]|].
  by destruct Hd as (? & ? & ? & ? & _ & _ & _ & _ & ->).
Qed.

Lemma enc_list_size {A} (E : gset Z → A → list Z → gset Z → Prop) V vs bs V' :
  (∀ V v b V', E V v b V' → b ≠ []) → enc_list E V vs bs V' → (length vs ≤ length bs)%nat.
Proof.
  intros HE. induction 1 as [|V v vs b bs V1 V2 Hv _ IH]; [done|]. rewrite length_app.
  apply HE in Hv. destruct b; [done|]. simpl. lia.
Qed.

(** Lengths and places fit an int. *)
Lemma array_at_size {A} (E : nat → gset Z → A → list Z → gset Z → Prop) V vs V' r :
  (∀ n V v b V', E n V v b V' → b ≠ []) → array_at E data V vs V' r →
  is_jint (zlen vs) ∧ is_jint r.
Proof.
  intros HE [(-> & -> & _)|(Hr & n & bs & Hb & He)]; [done|].
  pose proof (enc_list_size (E n) _ _ _ _ (HE n) He) as Hl. apply bytes_at_app in Hb as [Hb1 Hb2].
  assert (0 ≤ r + zlen (enc_int (zlen vs))) as Hp by (unfold zlen; lia).
  pose proof (bytes_at_length data _ bs Hp Hb2).
  assert (r < zlen data).
  { pose proof (enc_int_nonempty (zlen vs)). destruct (enc_int (zlen vs)); [done|].
    apply bytes_at_cons in Hb1 as [Hx _]. apply zget_Some in Hx. lia. }
  unfold zlen, in_s in *. simpl in *. lia.
Qed.

Lemma scope_at_size r sender m bci lo eo mo : 0 < r → scope_at T data r sender m bci lo eo mo → is_jint r.
Proof.
  intros Hr (i & _ & _ & Hb). pose proof (enc_int_nonempty sender) as Hn.
  apply bytes_at_app in Hb as [Hb _]. destruct (enc_int sender); [done|].
  apply bytes_at_cons in Hb as [Hx _]. apply zget_Some in Hx. unfold in_s. simpl. lia.
Qed.

Lemma enc_monitor_nonempty n V m bs V' : enc_monitor object_of T H n V m bs V' → bs ≠ [].
Proof.
  intros (_ & b & He & ->) [_ [Hn _]%app_nil]%app_nil. by apply enc_value_nonempty in He.
Qed.

(** *** One scope *)

Lemma read_scope_spec objects re rx ro sender si r lo eo mo O P :
  scope_at T data r sender (si_method si) (si_bci si) lo eo mo →
  array_at (λ n, enc_value object_of T H n) data (dom H) (default [] (si_locals si)) (dom H) lo →
  array_at (λ n, enc_value object_of T H n) data (dom H) (default [] (si_expressions si)) (dom H) eo →
  array_at (λ n, enc_monitor object_of T H n) data (dom H) (default [] (si_monitors si)) (dom H) mo →
  pool_ok H (dom H) O P → (objects = false → dom H = ∅) →
  ∃ ls es ms O' P', read_scope code (mkSD (si_method si) (si_bci si) re rx ro r sender lo eo mo objects) (mkDH O P)
      = Some (mkDecoded (si_method si) (si_bci si) re rx ro ls es ms, mkDH O' P') ∧
    grows ∅ O P O' P' ∧ pool_ok H (dom H) O' P' ∧
    Forall2 (same_value object_of H O' P') (default [] (si_locals si)) (default [] ls) ∧
    Forall2 (same_value object_of H O' P') (default [] (si_expressions si)) (default [] es) ∧
    Forall2 (same_monitor object_of H O' P') (default [] (si_monitors si)) (default [] ms).
Proof.
  intros Hsc Hlo Heo Hmo Hok Hobj.
  assert (objects = false → dom H = ∅ ∧ dom H = ∅) as Hobj' by auto.
  destruct (array_at_size _ _ _ _ _ enc_value_nonempty Hlo) as [Hl1 _].
  destruct (array_at_size _ _ _ _ _ enc_value_nonempty Heo) as [Hl2 _].
  destruct (array_at_size _ _ _ _ _ enc_monitor_nonempty Hmo) as [Hl3 _].
  destruct (decode_scope_values_spec object_of T H Hids code Hcode objects _ _ _ _ O P Hlo Hl1 Hok Hobj')
    as (ls & O1 & P1 & E1 & Hg1 & Hok1 & Hs1 & _).
  destruct (decode_scope_values_spec object_of T H Hids code Hcode objects _ _ _ _ O1 P1 Heo Hl2 Hok1 Hobj')
    as (es & O2 & P2 & E2 & Hg2 & Hok2 & Hs2 & _).
  destruct (decode_monitor_values_spec object_of T H Hids code Hcode objects _ _ _ _ O2 P2 Hmo Hl3 Hok2 Hobj')
    as (ms & O3 & P3 & E3 & Hg3 & Hok3 & Hs3 & _).
  exists ls, es, ms, O3, P3. split.
  { unfold read_scope, locals, expressions, monitors.
    cbn [sd_objects sd_locals_decode_offset sd_expressions_decode_offset sd_monitors_decode_offset].
    rewrite (M_bind_Some _ _ _ _ _ E1), (M_bind_Some _ _ _ _ _ E2), (M_bind_Some _ _ _ _ _ E3). done. }
  pose proof (grows_trans _ _ _ _ _ _ _ Hg2 Hg3) as Hg23.
  split_and!; [by eapply grows_trans|done| | |done].
  - eapply Forall2_impl; [exact Hs1|]. intros v v' Hv. exact (same_value_grows _ _ _ _ _ _ _ _ _ Hg23 Hv).
  - eapply Forall2_impl; [exact Hs2|]. intros v v' Hv. exact (same_value_grows _ _ _ _ _ _ _ _ _ Hg3 Hv).
Qed.

(** *** The scope and its senders *)

Lemma stored_scopes_snoc sender scopes si r :
  stored_scopes T H data sender (scopes ++ [si]) r →
  ∃ r0, stored_scopes T H data sender scopes r0 ∧ stored_scope T H data r0 si r.
Proof.
  revert sender. induction scopes as [|s scopes IH]; intros sender Hst.
  - inversion Hst as [|? ? ? r1 ? H1 H2]; subst. inversion H2; subst. exists sender. split; [constructor|done].
  - inversion Hst as [|? ? ? r1 ? H1 H2]; subst. destruct (IH r1 H2) as (r0 & Hr0 & Hsi).
    exists r0. split; [by econstructor|done].
Qed.

Lemma stored_scopes_place scopes r :
  stored_scopes T H data serialized_null scopes r →
  is_jint r ∧ (scopes = [] → r = serialized_null) ∧ (scopes ≠ [] → 0 < r).
Proof.
  destruct (exists_last_or_nil scopes) as [->|(scopes' & si & ->)]; intros Hst.
  - inversion Hst; subst. by split_and!.
  - apply stored_scopes_snoc in Hst as (r0 & _ & lo & eo & mo & Hr & Hsc & _).
    split_and!; [by eapply scope_at_size|by intros [_ ?]%app_nil|done].
Qed.

Lemma read_scopes_spec objects scopes si r re rx ro O P :
  stored_scopes T H data serialized_null (scopes ++ [si]) r →
  Forall (λ si, bci_ok (si_bci si)) (scopes ++ [si]) →
  pool_ok H (dom H) O P → (objects = false → dom H = ∅) →
  ∃ sd ds O' P', decode_body code objects re rx ro r (mkDH O P) = Some (sd, mkDH O P) ∧
    read_scopes (length (scopes ++ [si])) code sd (mkDH O P) = Some (ds, mkDH O' P') ∧
    grows ∅ O P O' P' ∧ pool_ok H (dom H) O' P' ∧
    ∃ ls es ms ds', ds = mkDecoded (si_method si) (si_bci si) re rx ro ls es ms :: ds' ∧
      Forall2 (same_value object_of H O' P') (default [] (si_locals si)) (default [] ls) ∧
      Forall2 (same_value object_of H O' P') (default [] (si_expressions si)) (default [] es) ∧
      Forall2 (same_monitor object_of H O' P') (default [] (si_monitors si)) (default [] ms) ∧
      Forall2 (same_scope O' P' false) (reverse scopes) ds'.
Proof.
  revert si r re rx ro O P. induction scopes as [|s scopes IH] using rev_ind; intros si r re rx ro O P Hst Hbci Hok Hobj.
  all: apply stored_scopes_snoc in Hst as (r0 & Hst & lo & eo & mo & Hr & Hsc & Hlo & Heo & Hmo).
  all: apply Forall_app in Hbci as [Hbcis [Hbci _]%Forall_cons]; unfold bci_ok, InvocationEntryBci in Hbci.
  all: destruct (stored_scopes_place _ _ Hst) as (Hj0 & Hnil & Hcons).
  all: pose proof (decode_body_spec T H Hids code Hcode objects re rx ro r r0 (si_method si) (si_bci si) lo eo mo
         (dom H) O P Hsc Hr Hj0 ltac:(unfold in_s; simpl; lia) ltac:(unfold in_s, InvocationEntryBci; simpl; lia)
         (proj2 (array_at_size _ _ _ _ _ enc_value_nonempty Hlo)) (proj2 (array_at_size _ _ _ _ _ enc_value_nonempty Heo))
         (proj2 (array_at_size _ _ _ _ _ enc_monitor_nonempty Hmo)) Hok Hobj) as Ebody.
  all: destruct (read_scope_spec objects re rx ro r0 si r lo eo mo O P Hsc Hlo Heo Hmo Hok Hobj)
         as (ls & es & ms & O1 & P1 & Escope & Hg1 & Hok1 & Hs1 & Hs2 & Hs3).
  - eexists _, [_], O1, P1. split; [exact Ebody|]. cbn [app length read_scopes].
    rewrite (M_bind_Some _ _ _ _ _ Escope). unfold sender, is_top. cbn [sd_sender_decode_offset].
    rewrite (Hnil eq_refl), Z.eqb_refl. split; [done|]. split_and!; [done..|]. by exists ls, es, ms, [].
  - destruct (IH s r0 false false false O1 P1 Hst Hbcis Hok1 Hobj)
      as (sd2 & ds2 & O2 & P2 & Eb2 & Er2 & Hg2 & Hok2 & ls2 & es2 & ms2 & ds2' & -> & K1 & K2 & K3 & K4).
    eexists _, (_ :: _), O2, P2. split; [exact Ebody|].
    rewrite length_app, Nat.add_comm. cbn [length Nat.add read_scopes].
    rewrite (M_bind_Some _ _ _ _ _ Escope). unfold sender, is_top, parent_ScopeDesc.
    cbn [sd_sender_decode_offset sd_objects].
    assert (0 < r0) as Hr0 by (apply Hcons; by intros [_ ?]%app_nil).
    rewrite (proj2 (Z.eqb_neq r0 serialized_null)) by (unfold serialized_null; lia).
    erewrite M_bind_Some by (rewrite (M_bind_Some _ _ _ _ _ Eb2); reflexivity).
    cbn beta iota. rewrite (M_bind_Some _ _ _ _ _ Er2). split; [done|]. split_and!; [by eapply grows_trans|done|].
    eexists ls, es, ms, _. split; [done|]. split_and!.
    + eapply Forall2_impl; [exact Hs1|]. intros v v' Hv. exact (same_value_grows _ _ _ _ _ _ _ _ _ Hg2 Hv).
    + eapply Forall2_impl; [exact Hs2|]. intros v v' Hv. exact (same_value_grows _ _ _ _ _ _ _ _ _ Hg2 Hv).
    + eapply Forall2_impl; [exact Hs3|]. intros v v' (Hv & ? & ?).
      split_and!; [exact (same_value_grows _ _ _ _ _ _ _ _ _ Hg2 Hv)|done..].
    + rewrite reverse_app. constructor; [|done]. by split_and!.
Qed.
End read.

Lemma described_fields r re rx mhi ro pd :
  0 ≤ pc_flags pd < 16 →
  let pd' := described r re rx mhi ro pd in
  scope_decode_offset pd' = r ∧ obj_decode_offset pd' = obj_decode_offset pd ∧
  should_reexecute pd' = re ∧ rethrow_exception pd' = rx ∧ return_oop pd' = ro ∧
  is_method_handle_invoke pd' = mhi.
Proof.
  intros Hfl pd'. pose proof (described_flags r re rx mhi ro pd Hfl) as Hf. fold pd' in Hf.
  unfold should_reexecute, rethrow_exception, return_oop, is_method_handle_invoke, has_flag. rewrite Hf.
  destruct re, rx, mhi, ro; by split_and!.
Qed.

Section roundtrip.
Context {R : Type} `{!IndexRecorder R} `{!IndexRecorderLaws R}.

(** What a descriptor refers to is read back, in any state of the reader. *)
Lemma stored_safepoint_read T (D : gmap Z ObjectValue) code sp pd h :
  nm_tables code = T → zlen (nm_scopes_data code) < 2 ^ 31 →
  graph_ok valid_oop (pool_graph (sp_pool sp) D) →
  stored_safepoint T D (nm_scopes_data code) sp pd →
  sp_scopes sp ≠ [] → Forall (λ si, bci_ok (si_bci si)) (sp_scopes sp) →
  ∃ ds O P, (sd ← scope_desc_at code pd; read_scopes (length (sp_scopes sp)) code sd) h = Some (ds, mkDH O P) ∧
    same_scopes object_of (pool_graph (sp_pool sp) D) O P (reverse (sp_scopes sp)) ds ∧
    ∀ p, p ∈ sp_pool sp → is_Some (D !! p) → same_object object_of (pool_graph (sp_pool sp) D) O P p.
Proof.
  intros Hcode Hsize [_ Hids] (ro & r & -> & Hobj & Hst) Hne Hbci. set (H := pool_graph (sp_pool sp) D) in *.
  destruct (exists_last_or_nil (sp_scopes sp)) as [Hnil|(scopes & si & Hsc)]; [done|].
  unfold scope_desc_at, new_ScopeDesc, describe_all. rewrite Hsc, last_snoc in *.
  set (pd0 := set_obj_decode_offset ro _) in *.
  destruct (described_fields r (si_reexecute si) (si_rethrow_exception si) (si_is_method_handle_invoke si)
    (si_return_oop si) pd0) as (-> & -> & -> & -> & -> & _); [done|]. change (obj_decode_offset pd0) with ro.
  destruct h as [O0 P0]. destruct (array_at_size code Hsize _ _ _ _ _ (enc_value_nonempty T H) Hobj) as [Hlen _].
  destruct (decode_object_values_spec object_of T H Hids code Hcode _ _ _ O0 P0 Hobj Hlen)
    as (objects & O1 & P1 & E1 & Hok1 & Hno & Hnew).
  destruct (read_scopes_spec T H Hids code Hcode Hsize objects scopes si r (si_reexecute si) (si_rethrow_exception si)
    (si_return_oop si) O1 P1 Hst Hbci Hok1 Hno)
    as (sd & ds & O2 & P2 & Eb & Er & Hg & Hok2 & ls & es & ms & ds' & -> & K1 & K2 & K3 & K4).
  eexists _, O2, P2. split; [|split].
  - erewrite M_bind_Some by (rewrite (M_bind_Some _ _ _ _ _ E1); exact Eb). exact Er.
  - rewrite reverse_app. split; [by split_and!|done].
  - intros p Hp [o Ho]. eapply same_object_grows; [exact Hg|set_solver|]. apply Hnew. apply elem_of_dom.
    exists (set_visited false o). apply pool_graph_lookup. eauto.
Qed.

Lemma new_recorder_spec objects rec oopmaps maps rns :
  rec_ok rec → oset_ok oopmaps maps →
  ∃ d, new_recorder objects rec oopmaps rns = Some d ∧
    recording d maps [new_PcDesc lower_offset_limit serialized_null serialized_null] ∧
    dw_objects (dir_writer d) = objects.
Proof.
  intros Hrec Hmaps. unfold new_recorder.
  set (d0 := mkDIR _ _ _ _ _ _ _ _ _ _ _).
  destruct (appends_write (s8 255) (new_write_stream (10 * 1024))) as (st & Ew & Hst & Hd); [by split_and!|apply ideal_roomy|].
  assert (on_writer (on_stream (write_byte (s8 255))) d0
    = Some (tt, set_writer (mkDW st objects rec) d0)) as E1.
  { unfold on_writer, on_stream, write_byte. cbn [dir_writer d0 dw_stream]. by rewrite Ew. }
  rewrite (M_bind_Some _ _ _ _ _ E1).
  destruct (add_new_pc_offset_spec (set_writer (mkDW st objects rec) d0) lower_offset_limit)
    as (d & E2 & Hok & (? & ? & ? & ->) & Hcp); [by split_and!|apply ideal_roomy|].
  rewrite E2. eexists. split; [done|]. split; [|done]. split; [|done|by rewrite Hcp|done|].
  - split_and!; try done.
    + split; [by split_and!| |by intros c ?%elem_of_nil|cbn; lia].
      intros i j c c2 _ Hx. change (GA.elems _) with (@nil DIR_Chunk) in Hx. apply zget_Some in Hx. unfold zlen in Hx. simpl in Hx. lia.
    + unfold dir_data. cbn. rewrite Hd. done.
  - intros l pd [_ [= <-]]%(app_inj_2 [] l); [done|done].
Qed.
End roundtrip.

(** ** A sequence of safepoints *)

(** Recording succeeds, there is one descriptor per safepoint, in order, after
    the sentinel, and what each describes is read back. *)
Lemma safepoints_recorded {R : Type} `{!IndexRecorder R} `{!IndexRecorderLaws R}
    (share share_default : bool) objects rec rns sps :
  rec_ok rec → Forall (safepoint_ok objects) sps →
  Forall (λ sp, sp_scopes sp ≠ [] ∧ Forall (λ si, bci_ok (si_bci si)) (sp_scopes sp)) sps →
  ∃ d0 d pds,
    new_recorder objects rec new_oop_map_set rns = Some d0 ∧
    mforeach (record_safepoint share share_default) sps d0 = Some (tt, d) ∧
    copied_pcs d = new_PcDesc lower_offset_limit serialized_null serialized_null :: pds ∧ pcs_ok d ∧
    Forall2 (λ sp pd, pc_offset pd = sp_pc_offset sp) sps pds ∧
    oset_ok (dir_oopmaps d) ((λ sp, set_offset (sp_pc_offset sp) (sp_map sp)) <$> sps) ∧
    ∀ code, nm_scopes_data code = copied_data d → zlen (copied_data d) < 2 ^ 31 →
      agrees (dw_recorder (dir_writer d)) (nm_tables code) →
      Forall2 (λ sp pd, pc_offset pd = sp_pc_offset sp ∧
        ∀ h, ∃ ds O P,
          (sd ← scope_desc_at code pd; read_scopes (length (sp_scopes sp)) code sd) h = Some (ds, mkDH O P) ∧
          same_scopes object_of (pool_graph (sp_pool sp) objects) O P (reverse (sp_scopes sp)) ds ∧
          ∀ p, p ∈ sp_pool sp → same_object object_of (pool_graph (sp_pool sp) objects) O P p) sps pds.
Proof.
  intros Hrec Hsps Hbci. destruct (new_recorder_spec objects rec _ _ rns Hrec new_oset_ok) as (d0 & E0 & Hd0 & Hobj).
  destruct (record_all_spec share share_default sps d0 _ _ objects Hd0) as (d & pds & E & _ & Hd & Hst);
    [by rewrite Hobj|done|].
  exists d0, d, pds. split; [done|]. split; [done|]. split; [apply (rec_copied _ _ _ Hd)|].
  split; [apply (rec_pcs _ _ _ Hd)|]. split; [eapply Forall2_impl; [exact Hst|by intros ?? []]|].
  split; [apply (rec_maps _ _ _ Hd)|].
  intros code Hdata Hsize Htab. rewrite Forall_forall in Hsps, Hbci.
  apply Forall2_same_length_lookup_2; [by eapply Forall2_length|]. intros i sp pd Hsp Hpd.
  destruct (Forall2_lookup_lr _ _ _ _ _ _ Hst Hsp Hpd) as [Hpc HT]. split; [done|]. intros h.
  apply list_elem_of_lookup_2 in Hsp. destruct (Hsps sp Hsp) as (Hos & HG & _). destruct (Hbci sp Hsp) as [Hne Hb].
  change (copied_data d) with (dir_data d) in *.
  destruct (stored_safepoint_read (nm_tables code) objects code sp pd h eq_refl ltac:(by rewrite Hdata) HG)
    as (ds & O & P & Er & Hsame & Hobjs); [rewrite Hdata; by apply HT|done|done|].
  exists ds, O, P. split_and!; [done|done|]. intros p Hp. apply Hobjs; [done|by apply Hos].
Qed.

(** *** Two safepoints with a cyclic pool *)

Definition example_objects : gmap Z ObjectValue :=
  {[ 1 := mkOV 0 (Some (ConstantOopWriteValue 1)) [ObjectPointer 2; ConstantIntValue 7] 0 false;
     2 := mkOV 1 (Some (ConstantOopWriteValue 3)) [ObjectPointer 1; ConstantLongValue (-1)] 0 true ]}.
Definition example_scope (bci : Z) : ScopeInfo :=
  mkScope 96 bci true false false false
    (Some [ObjectPointer 1; ConstantIntValue 3]) None
    (Some [mkMonitor (ObjectPointer 2) 16 true]).
Definition example_safepoints : list SafepointInfo :=
  [mkSafepoint 8 (new_oop_map 4 0) (Some [1; 2]) [example_scope 0; example_scope 5];
   mkSafepoint 20 (new_oop_map 4 0) (Some [1; 2]) [example_scope 0]].

Definition example_object (h : Z) : Z := if decide (h = 0) then 0 else resolve OL.sample_world h.
Lemma few_handles (U : gset Z) : bool_decide (Z.of_nat (size U) < 2 ^ 30 - 1) = true → Z.of_nat (size U) < 2 ^ 30 - 1.
Proof. apply bool_decide_eq_true. Qed.
Lemma example_oops_few : Z.of_nat (size ({[1; 3]} : gset Z)) < 2 ^ 30 - 1.
Proof. apply few_handles. vm_compute. reflexivity. Qed.
Lemma example_metadata_few : Z.of_nat (size ({[96]} : gset Z)) < 2 ^ 30 - 1.
Proof. apply few_handles. vm_compute. reflexivity. Qed.
Lemma example_object_null : example_object 0 = 0.
Proof. reflexivity. Qed.
Definition example_laws : IndexRecorderLaws (RecorderIn (-1) OL.Slots) :=
  dedup_laws (-1) {[1; 3]} {[96]} example_oops_few example_metadata_few example_object example_object_null.
Definition example_recorder : RecorderIn (-1) OL.Slots := OL.new_oop_recorder false true OL.sample_world.

Lemma example_recorder_ok : rec_ok (IndexRecorderLaws := example_laws) example_recorder.
Proof.
  apply new_dedup_ok; [by change (in_u 32 4294967295)|]. intros h Hh.
  assert (h = 1 ∨ h = 3) as [-> | ->] by set_solver; (split; [|done]); (split; [done|]); by exists 500.
Qed.

Lemma example_pool :
  pool_graph [1; 2] example_objects =
    {[ 1 := mkOV 0 (Some (ConstantOopWriteValue 1)) [ObjectPointer 2; ConstantIntValue 7] 0 false;
       2 := mkOV 1 (Some (ConstantOopWriteValue 3)) [ObjectPointer 1; ConstantLongValue (-1)] 0 false ]}.
Proof. vm_compute. reflexivity. Qed.

Lemma example_safepoints_ok :
  Forall (safepoint_ok (IndexRecorderLaws0 := example_laws) example_objects) example_safepoints.
Proof.
  assert (∀ p, p ∈ [1; 2] → is_Some (pool_graph [1; 2] example_objects !! p)) as Hin.
  { intros p [->|[->|[]%elem_of_nil]%elem_of_cons]%elem_of_cons; rewrite example_pool; by eexists. }
  assert (graph_ok (@valid_oop _ _ example_laws) (pool_graph [1; 2] example_objects)) as HG.
  { split.
    - intros p o Hp. pose proof Hp as [Hp12 _]%pool_graph_lookup. rewrite example_pool in Hp.
      apply elem_of_cons in Hp12 as [->|[->|[]%elem_of_nil]%elem_of_cons]; injection Hp as <-.
      + split; [done|]. split; [done|]. split; [by exists (ConstantOopWriteValue 1); split; [|right; set_solver]|].
        repeat constructor; [|done]. apply Hin. right. left.
      + split; [done|]. split; [done|]. split; [by exists (ConstantOopWriteValue 3); split; [|right; set_solver]|].
        repeat constructor; [|done]. apply Hin. left.
    - intros p q o o' Hp Hq Hid. pose proof Hp as [Hp12 _]%pool_graph_lookup.
      pose proof Hq as [Hq12 _]%pool_graph_lookup. rewrite example_pool in Hp, Hq.
      apply elem_of_cons in Hp12 as [->|[->|[]%elem_of_nil]%elem_of_cons];
      apply elem_of_cons in Hq12 as [->|[->|[]%elem_of_nil]%elem_of_cons]; try done;
      injection Hp as <-; injection Hq as <-; done. }
  assert (∀ bci, scope_ok (IndexRecorderLaws0 := example_laws) (pool_graph [1; 2] example_objects) (example_scope bci)) as Hsc.
  { intros bci. split; [right; split; [set_solver|done]|]. split_and!; cbn [example_scope si_locals si_expressions si_monitors].
    - repeat constructor; [|done..]. apply Hin. left.
    - constructor.
    - repeat constructor; [|done..]. apply Hin. right. left. }
  assert (∀ p, p ∈ [1; 2] → is_Some (example_objects !! p)) as Hobj.
  { intros p [->|[->|[]%elem_of_nil]%elem_of_cons]%elem_of_cons; by eexists. }
  repeat (apply Forall_cons; split; [|]); [..|apply Forall_nil; done];
    (split; [exact Hobj|]; split; [exact HG|]);
    repeat (apply Forall_cons; split; [apply Hsc|]); by apply Forall_nil.
Qed.
