(* ===== verification/PcDescFinder.v ===== *)
(** * Finding the descriptor of a pc
    (src/share/vm/code/nmethod.cpp and .hpp: PcDescCache, find_pc_desc,
    copy_scopes_pcs, linear_search)

    The descriptors of an nmethod are an array sorted by pc offset, between two
    sentinels.  A cache of the last four answers is asked first; else the array
    is searched with steps of 4096, 256, 16 and 1.  A pointer into the array is
    an index; NULL is [None]. *)

From stdpp Require Import base numbers list.
From S2P Require Import Prelude CompressedStream DebugInfoRec.
Local Open Scope Z_scope.

Definition cache_size : Z := 4.

Record PcDescCache := mkCache { pc_descs : list (option Z) }.

Record nmethod_pcs := mkPcs {
  code_begin : Z;
  scopes_pcs : list PcDesc;
  pc_desc_cache : PcDescCache
}.

(** ** Copying the descriptors into the nmethod *)

(** [copy_scopes_pcs]; [room] is the number of records the nmethod has room for,
    the rest is filled with copies of the final sentinel. *)
Definition copy_scopes_pcs (content_size : Z) (room : nat) (pcs : list PcDesc) : option (list PcDesc) :=
  let count := zlen pcs in
  last_pc ← zget pcs (count - 1);
  let last_pc := set_pc_offset (content_size + 1) last_pc in
  pcs ← zset pcs (count - 1) last_pc;
  if decide (length pcs ≤ room)%nat then Some (pcs ++ replicate (room - length pcs) last_pc) else None.

Definition has_method_handle_invokes (pcs : list PcDesc) : bool := existsb is_method_handle_invoke pcs.

(** ** The cache *)

Section finder.
(** The memory in front of the array, which [match_desc] may read. *)
Context (before : PcDesc).

Definition pc_desc_of (pcs : list PcDesc) (p : Z) : option PcDesc :=
  if decide (p = -1) then Some before else zget pcs p.

Definition match_desc (pcs : list PcDesc) (pc : Z) (offset : Z) (approximate : bool) : option bool :=
  pd ← pc_desc_of pcs pc;
  if negb approximate then Some (pc_offset pd =? offset)
  else
    prev ← pc_desc_of pcs (pc - 1);
    Some ((pc_offset prev <? offset) && (offset <=? pc_offset pd)).

Definition reset_to (initial : option Z) (c : PcDescCache) : PcDescCache :=
  match initial with
  | None => mkCache (<[0%nat := None]> (pc_descs c))
  | Some p => mkCache (replicate (Z.to_nat cache_size) (Some p))
  end.

Definition last_pc_desc (c : PcDescCache) : option (option Z) := zget (pc_descs c) 0.

(** The loop over the rest of the cache. *)
Fixpoint check_rest (pcs : list PcDesc) (rest : list (option Z)) (offset : Z) (approximate : bool)
  : option (option Z) :=
  match rest with
  | [] => Some None
  | None :: _ => None                       (* NULL is dereferenced *)
  | Some res :: rest' =>
      pd ← pc_desc_of pcs res;
      if pc_offset pd <? 0 then Some None
      else
        b ← match_desc pcs res offset approximate;
        if (b : bool) then Some (Some res) else check_rest pcs rest' offset approximate
  end.

Definition cache_find_pc_desc (pcs : list PcDesc) (c : PcDescCache) (offset : Z) (approximate : bool)
  : option (option Z) :=
  res ← last_pc_desc c;
  match res with
  | None => Some None
  | Some res =>
      b ← match_desc pcs res offset approximate;
      if (b : bool) then Some (Some res) else check_rest pcs (tail (pc_descs c)) offset approximate
  end.

(** The loop of [add_pc_desc] shifts the entries by one place. *)
Fixpoint shift_in (p : option Z) (l : list (option Z)) : list (option Z) :=
  match l with [] => [] | next :: l' => p :: shift_in next l' end.
Definition add_pc_desc (p : Z) (c : PcDescCache) : PcDescCache := mkCache (shift_in (Some p) (pc_descs c)).

(** ** The search *)

(** The inner loop for one step width. *)
Fixpoint giant_steps (fuel : nat) (pcs : list PcDesc) (offset step lower upper : Z) : option (Z * Z) :=
  match fuel with
  | O => None
  | S fuel' =>
      let mid := lower + step in
      if mid <? upper then
        pd ← zget pcs mid;
        if pc_offset pd <? offset then giant_steps fuel' pcs offset step mid upper
        else Some (lower, mid)
      else Some (lower, upper)
  end.

(** The steps [1 << 12], [1 << 8], [1 << 4]. *)
Definition LOG2_RADIX : Z := 4.
Fixpoint step_loop (fuel : nat) (pcs : list PcDesc) (offset step lower upper : Z) : option (Z * Z) :=
  match fuel with
  | O => None
  | S fuel' =>
      if 1 <? step then
        '(lower, upper) ← giant_steps (S (length pcs)) pcs offset step lower upper;
        step_loop fuel' pcs offset (Z.shiftr step LOG2_RADIX) lower upper
      else Some (lower, upper)
  end.

(** The linear search at the end; it stops at the final sentinel at the latest. *)
Fixpoint sneak_up (fuel : nat) (pcs : list PcDesc) (offset lower : Z) : option Z :=
  match fuel with
  | O => None
  | S fuel' =>
      let mid := lower + 1 in
      pd ← zget pcs mid;
      if pc_offset pd <? offset then sneak_up fuel' pcs offset mid else Some mid
  end.

Definition set_cache (c : PcDescCache) (n : nmethod_pcs) : nmethod_pcs :=
  mkPcs (code_begin n) (scopes_pcs n) c.

Definition find_pc_desc_internal (pc : Z) (approximate : bool) : M nmethod_pcs (option Z) :=
  n ← mget;
  let base_address := code_begin n in
  if (pc <? base_address) || (upper_offset_limit <=? pc - base_address) then mret None
  else
    let offset := s32 (pc - base_address) in
    let pcs := scopes_pcs n in
    res ← mlift (cache_find_pc_desc pcs (pc_desc_cache n) offset approximate);
    match res with
    | Some p => mret (Some p)
    | None =>
        let lower := 0 in
        let upper := zlen pcs - 1 in
        if upper <=? lower then mret None
        else
          last ← mlift (last_pc_desc (pc_desc_cache n));
          mid ← mlift last;
          pd ← mlift (zget pcs mid);
          let '(lower, upper) := if pc_offset pd <? offset then (mid, upper) else (lower, mid) in
          '(lower, upper) ← mlift (step_loop 4 pcs offset (Z.shiftl 1 (LOG2_RADIX * 3)) lower upper);
          upper ← mlift (sneak_up (S (length pcs)) pcs offset lower);
          b ← mlift (match_desc pcs upper offset approximate);
          if (b : bool)
          then mput (set_cache (add_pc_desc upper (pc_desc_cache n)) n) ;; mret (Some upper)
          else mret None
    end.

Definition find_pc_desc (pc : Z) (approximate : bool) : M nmethod_pcs (option Z) :=
  n ← mget;
  last ← mlift (last_pc_desc (pc_desc_cache n));
  match last with
  | Some p =>
      pd ← mlift (zget (scopes_pcs n) p);
      if pc_offset pd =? pc - code_begin n then mret (Some p)
      else find_pc_desc_internal pc approximate
  | None => find_pc_desc_internal pc approximate
  end.

Definition pc_desc_at (pc : Z) : M nmethod_pcs (option Z) := find_pc_desc pc false.
Definition pc_desc_near (pc : Z) : M nmethod_pcs (option Z) := find_pc_desc pc true.

(** ** The reference: [linear_search] *)

Inductive search_result := NotFound | FoundAt (p : Z) | BadAddress.

Fixpoint linear_loop (n : nat) (p : Z) (pcs : list PcDesc) (offset : Z) (approximate : bool)
    (res : search_result) : option search_result :=
  match n with
  | O => Some res
  | S n' =>
      b ← match_desc pcs p offset approximate;
      let res := if (b : bool) then match res with NotFound => FoundAt p | _ => BadAddress end else res in
      linear_loop n' (p + 1) pcs offset approximate res
  end.
Definition linear_search (pcs : list PcDesc) (offset : Z) (approximate : bool) : option search_result :=
  linear_loop (length pcs - 1) 1 pcs offset approximate NotFound.
End finder.

(** ** Correctness *)

(** Sorted, starting with the sentinel, with at least the two sentinels. *)
Definition pcs_sorted (pcs : list PcDesc) : Prop :=
  2 ≤ zlen pcs ∧ (∀ pd, zget pcs 0 = Some pd → pc_offset pd = lower_offset_limit) ∧
  ∀ i j p q, i < j → zget pcs i = Some p → zget pcs j = Some q → pc_offset p < pc_offset q.

(** The cache is full of pointers into the array. *)
Definition cache_ok (pcs : list PcDesc) (c : PcDescCache) : Prop :=
  zlen (pc_descs c) = cache_size ∧ Forall (λ e, ∃ p, e = Some p ∧ 0 ≤ p < zlen pcs) (pc_descs c).

Section correctness.
Context (before : PcDesc) (pcs : list PcDesc) (Hsorted : pcs_sorted pcs).
Context (offset : Z) (Hoff : 0 ≤ offset).
Context (last : PcDesc) (Hlast : zget pcs (zlen pcs - 1) = Some last) (Hbound : offset ≤ pc_offset last).
Implicit Types (approximate : bool) (u : Z).

Lemma below_upper i j p q :
  zget pcs i = Some p → zget pcs j = Some q → pc_offset p < pc_offset q → i < j.
Proof.
  intros Hi Hj Hlt. destruct Hsorted as (_ & _ & Hs).
  destruct (Z.lt_trichotomy i j) as [?|[->|Hgt]]; [done|rewrite Hi in Hj; injection Hj as ->; lia|].
  pose proof (Hs j i q p Hgt Hj Hi). lia.
Qed.

(** The first descriptor at or after the offset. *)
Definition is_successor u : Prop :=
  ∃ prev pd, zget pcs (u - 1) = Some prev ∧ zget pcs u = Some pd ∧
    pc_offset prev < offset ∧ offset ≤ pc_offset pd.

Lemma successor_unique u u' : is_successor u → is_successor u' → u = u'.
Proof.
  intros (prev & pd & H1 & H2 & H3 & H4) (prev' & pd' & H1' & H2' & H3' & H4').
  assert (u - 1 < u') by (eapply below_upper; [done|done|lia]).
  assert (u' - 1 < u) by (eapply below_upper; [done|done|lia]). lia.
Qed.

Definition bracket (lower upper : Z) : Prop :=
  ∃ lo up, zget pcs lower = Some lo ∧ zget pcs upper = Some up ∧ pc_offset lo < offset ∧ offset ≤ pc_offset up.

Lemma bracket_lt lower upper : bracket lower upper → 0 ≤ lower < upper ∧ upper < zlen pcs.
Proof.
  intros (lo & up & Hl & Hu & H1 & H2). pose proof (zget_Some _ _ _ Hl). pose proof (zget_Some _ _ _ Hu).
  split; [|lia]. split; [lia|]. eapply below_upper; [done|done|lia].
Qed.

Lemma giant_steps_spec fuel step lower upper :
  0 < step → bracket lower upper → upper - lower < Z.of_nat fuel →
  ∃ lower' upper', giant_steps fuel pcs offset step lower upper = Some (lower', upper') ∧ bracket lower' upper'.
Proof.
  intros Hstep. revert lower. induction fuel as [|fuel IH]; intros lower Hb Hf.
  { pose proof (bracket_lt _ _ Hb). lia. }
  cbn [giant_steps]. pose proof (bracket_lt _ _ Hb) as [H1 H2].
  destruct (Z.ltb_spec (lower + step) upper) as [Hlt|Hge]; [|eauto].
  destruct (zget_is_Some pcs (lower + step)) as [pd Hpd]; [lia|]. rewrite Hpd. cbn [mbind option_bind].
  destruct Hb as (lo & up & Hl & Hu & Hlo & Hup).
  destruct (Z.ltb_spec (pc_offset pd) offset).
  - apply IH; [|lia]. by exists pd, up.
  - eexists _, _. split; [done|]. by exists lo, pd.
Qed.

Lemma step_loop_spec lower upper :
  bracket lower upper →
  ∃ lower' upper', step_loop 4 pcs offset (Z.shiftl 1 (LOG2_RADIX * 3)) lower upper = Some (lower', upper') ∧
    bracket lower' upper'.
Proof.
  assert (∀ step lower upper, 0 < step → bracket lower upper →
    ∃ lower' upper', giant_steps (S (length pcs)) pcs offset step lower upper = Some (lower', upper') ∧
      bracket lower' upper') as Hgiant.
  { intros step l u Hs Hb. apply giant_steps_spec; [done..|]. pose proof (bracket_lt _ _ Hb). unfold zlen in *. lia. }
  intros Hb. change (Z.shiftl 1 (LOG2_RADIX * 3)) with 4096. cbn [step_loop].
  change (1 <? 4096) with true. change (Z.shiftr 4096 LOG2_RADIX) with 256.
  change (1 <? 256) with true. change (Z.shiftr 256 LOG2_RADIX) with 16.
  change (1 <? 16) with true. change (Z.shiftr 16 LOG2_RADIX) with 1. change (1 <? 1) with false. cbn iota.
  destruct (Hgiant 4096 lower upper ltac:(lia) Hb) as (l1 & u1 & -> & Hb1). cbn [mbind option_bind].
  destruct (Hgiant 256 l1 u1 ltac:(lia) Hb1) as (l2 & u2 & -> & Hb2). cbn [mbind option_bind].
  destruct (Hgiant 16 l2 u2 ltac:(lia) Hb2) as (l3 & u3 & -> & Hb3). cbn [mbind option_bind]. eauto.
Qed.

Lemma sneak_up_spec fuel lower upper :
  bracket lower upper → upper - lower ≤ Z.of_nat fuel →
  ∃ u, sneak_up fuel pcs offset lower = Some u ∧ is_successor u.
Proof.
  revert lower. induction fuel as [|fuel IH]; intros lower Hb Hf.
  { pose proof (bracket_lt _ _ Hb). lia. }
  cbn [sneak_up]. pose proof (bracket_lt _ _ Hb) as [H1 H2]. destruct Hb as (lo & up & Hl & Hu & Hlo & Hup).
  destruct (zget_is_Some pcs (lower + 1)) as [pd Hpd]; [lia|]. rewrite Hpd. cbn [mbind option_bind].
  destruct (Z.ltb_spec (pc_offset pd) offset) as [Hlt|Hge].
  - apply IH; [by exists pd, up|lia].
  - exists (lower + 1). split; [done|]. exists lo, pd. replace (lower + 1 - 1) with lower by lia. done.
Qed.

(** *** What matches *)

Context (u : Z) (Hu : is_successor u).

Definition target approximate : option Z :=
  pd ← zget pcs u; if approximate || (pc_offset pd =? offset) then Some u else None.

Lemma match_desc_spec approximate p :
  0 ≤ p < zlen pcs → match_desc before pcs p offset approximate = Some (bool_decide (target approximate = Some p)).
Proof.
  intros Hp. destruct (zget_is_Some pcs p Hp) as [pd Hpd]. unfold match_desc, pc_desc_of.
  rewrite (decide_False (P := p = -1)) by lia. rewrite Hpd. cbn [mbind option_bind]. unfold target.
  pose proof Hu as (prev & pu & H1 & H2 & H3 & H4). rewrite H2. cbn [mbind option_bind].
  destruct approximate; cbn [negb orb].
  - destruct (decide (p = 0)) as [->|Hp0].
    { rewrite decide_True by done. cbn [mbind option_bind]. destruct Hsorted as (_ & Hs0 & _).
      pose proof (Hs0 pd Hpd) as Hpo. unfold lower_offset_limit in Hpo.
      rewrite (proj2 (Z.leb_gt offset _)), andb_false_r by lia. f_equal. symmetry. apply bool_decide_eq_false.
      intros [= ->]. apply zget_Some in H1. lia. }
    rewrite (decide_False (P := p - 1 = -1)) by lia. destruct (zget_is_Some pcs (p - 1)) as [pp Hpp]; [lia|]. rewrite Hpp.
    cbn [mbind option_bind]. f_equal. symmetry. destruct (bool_decide_reflect (Some u = Some p)) as [[= ->]|Hne].
    + rewrite H1 in Hpp. rewrite H2 in Hpd. simplify_eq. symmetry. apply andb_true_iff. lia.
    + symmetry. apply not_true_iff_false. intros [Hl%Z.ltb_lt Hr%Z.leb_le]%andb_true_iff. apply Hne. f_equal.
      apply successor_unique; [done|]. by exists pp, pd.
  - f_equal. assert (pc_offset pd = offset → u = p) as Heq.
    { intros Hd. assert (u - 1 < p) by (eapply below_upper; [done|done|lia]).
      destruct (decide (u = p)) as [|Hne]; [done|]. destruct Hsorted as (_ & _ & Hs).
      pose proof (Hs u p pu pd ltac:(lia) H2 Hpd). lia. }
    destruct (Z.eqb_spec (pc_offset pd) offset) as [Hd|Hd]; symmetry.
    + pose proof (Heq Hd) as Hup. rewrite Hup in H2. assert (pu = pd) as -> by congruence.
      rewrite (proj2 (Z.eqb_eq _ _) Hd). apply bool_decide_eq_true. by f_equal.
    + apply bool_decide_eq_false. destruct (Z.eqb_spec (pc_offset pu) offset); [|done].
      intros [= ->]. rewrite H2 in Hpd. simplify_eq.
Qed.

(** *** The reference search *)

Lemma linear_loop_spec approximate n p res :
  p + Z.of_nat n = zlen pcs → 1 ≤ p →
  (∀ q, target approximate = Some q → (res = NotFound ∧ p ≤ q) ∨ (res = FoundAt q ∧ q < p)) →
  (target approximate = None → res = NotFound) →
  linear_loop before n p pcs offset approximate res
  = Some (match target approximate with Some q => FoundAt q | None => NotFound end).
Proof.
  revert p res. induction n as [|n IH]; intros p res Hn Hp Hsome Hnone; cbn [linear_loop].
  - destruct (target approximate) as [q|] eqn:Ht; [|by rewrite Hnone].
    destruct (Hsome q eq_refl) as [[_ Hle]|[-> _]]; [|done].
    unfold target in Ht. pose proof Hu as (? & pu & _ & H2 & _). rewrite H2 in Ht. cbn in Ht.
    case_match; [|done]. injection Ht as <-. apply zget_Some in H2. lia.
  - rewrite match_desc_spec by lia. cbn [mbind option_bind]. apply IH; [lia|lia| |].
    + intros q Hq. destruct (Hsome q Hq) as [[-> Hle]|[-> Hlt]].
      * destruct (bool_decide_reflect (target approximate = Some p)) as [Heq|Hne].
        -- right. rewrite Heq in Hq. injection Hq as ->. split; [done|lia].
        -- left. split; [done|]. destruct (decide (p = q)) as [->|]; [done|lia].
      * right. rewrite bool_decide_false; [split; [done|lia]|]. rewrite Hq. intros [= ->]. lia.
    + intros Hq. rewrite bool_decide_false by (by rewrite Hq). by apply Hnone.
Qed.

Lemma target_range approximate q : target approximate = Some q → 1 ≤ q < zlen pcs.
Proof.
  unfold target. pose proof Hu as (prev & pu & H1 & H2 & _). rewrite H2. cbn. case_match; [|done].
  intros [= <-]. apply zget_Some in H1, H2. lia.
Qed.

Lemma linear_pc_search_spec approximate :
  linear_search before pcs offset approximate
  = Some (match target approximate with Some q => FoundAt q | None => NotFound end).
Proof.
  destruct Hsorted as (Hn & _). apply linear_loop_spec; [unfold zlen in *; lia|lia| |done].
  intros q Hq. left. split; [done|]. apply target_range in Hq. lia.
Qed.

(** *** The cache *)

Lemma check_rest_spec approximate rest :
  Forall (λ e, ∃ p, e = Some p ∧ 0 ≤ p < zlen pcs) rest →
  ∃ r, check_rest before pcs rest offset approximate = Some r ∧ (r = None ∨ r = target approximate).
Proof.
  induction 1 as [|e rest (p & -> & Hp) _ IH]; [exists None; auto|]. cbn [check_rest].
  rewrite match_desc_spec by done. destruct (zget_is_Some pcs p Hp) as [pd Hpd].
  unfold pc_desc_of. rewrite (decide_False (P := p = -1)) by lia. rewrite Hpd. cbn [mbind option_bind].
  destruct (pc_offset pd <? 0); [exists None; auto|].
  destruct (bool_decide_reflect (target approximate = Some p)) as [Heq|Hne]; [|done].
  exists (Some p). split; [done|by right].
Qed.

Lemma cache_find_spec approximate c :
  cache_ok pcs c →
  ∃ r, cache_find_pc_desc before pcs c offset approximate = Some r ∧ (r = None ∨ r = target approximate).
Proof.
  intros [Hlen Hc]. unfold cache_find_pc_desc, last_pc_desc. destruct (pc_descs c) as [|e rest]; [done|].
  apply Forall_cons in Hc as [(p & -> & Hp) Hc].
  change (zget (Some p :: rest) 0) with (Some (Some p)). cbn [mbind option_bind tail].
  rewrite match_desc_spec by done. cbn [mbind option_bind].
  destruct (bool_decide_reflect (target approximate = Some p)) as [Heq|Hne]; [|by apply check_rest_spec].
  exists (Some p). split; [done|by right].
Qed.

Lemma shift_in_ok p l :
  0 ≤ p < zlen pcs → Forall (λ e, ∃ p, e = Some p ∧ 0 ≤ p < zlen pcs) l →
  length (shift_in (Some p) l) = length l ∧ Forall (λ e, ∃ p, e = Some p ∧ 0 ≤ p < zlen pcs) (shift_in (Some p) l).
Proof.
  intros Hp Hl. revert p Hp. induction Hl as [|e l (q & -> & Hq) _ IH]; intros p Hp; [done|]. cbn [shift_in length].
  destruct (IH q Hq) as [-> HF]. split; [done|]. constructor; [by exists p|done].
Qed.

Lemma bracket_whole : bracket 0 (zlen pcs - 1).
Proof.
  destruct Hsorted as (Hn & H0 & _). destruct (zget_is_Some pcs 0) as [pd Hpd]; [lia|].
  exists pd, last. split_and!; [done..| |done]. rewrite (H0 pd Hpd). unfold lower_offset_limit. lia.
Qed.
End correctness.

Lemma successor_exists pcs offset last :
  pcs_sorted pcs → 0 ≤ offset → zget pcs (zlen pcs - 1) = Some last → offset ≤ pc_offset last →
  ∃ u, is_successor pcs offset u.
Proof.
  intros Hs H0 Hl Hb. destruct (sneak_up_spec pcs Hs offset (length pcs) 0 (zlen pcs - 1)) as (u & _ & Hu).
  - by eapply bracket_whole.
  - unfold zlen. lia.
  - by exists u.
Qed.

Lemma exact_target (before : PcDesc) pcs (Hs : pcs_sorted pcs) off (Hoff : 0 ≤ off) u (Hu : is_successor pcs off u) approximate p pd :
  zget pcs p = Some pd → pc_offset pd = off → target pcs off u approximate = Some p.
Proof.
  intros Hpd He. pose proof (match_desc_spec before pcs Hs off Hoff u Hu false p (zget_Some _ _ _ Hpd)) as Hm.
  unfold match_desc, pc_desc_of in Hm. rewrite (decide_False (P := p = -1)) in Hm by (apply zget_Some in Hpd; lia).
  rewrite Hpd in Hm. cbn [mbind option_bind negb] in Hm. rewrite He, Z.eqb_refl in Hm. injection Hm as Hm.
  symmetry in Hm. apply bool_decide_eq_true in Hm. unfold target in *.
  destruct (zget pcs u) as [pu|]; [|done]. cbn [mbind option_bind] in *.
  destruct (pc_offset pu =? off); [by rewrite orb_true_r|done].
Qed.

Lemma find_internal_spec before n pc approximate last u :
  pcs_sorted (scopes_pcs n) → cache_ok (scopes_pcs n) (pc_desc_cache n) →
  zget (scopes_pcs n) (zlen (scopes_pcs n) - 1) = Some last →
  0 ≤ pc - code_begin n ≤ pc_offset last → pc - code_begin n < upper_offset_limit →
  is_successor (scopes_pcs n) (pc - code_begin n) u →
  ∃ c, find_pc_desc_internal before pc approximate n
      = Some (target (scopes_pcs n) (pc - code_begin n) u approximate, set_cache c n) ∧
    cache_ok (scopes_pcs n) c.
Proof.
  intros Hs Hc Hl Hoff Hup Hu. unfold find_pc_desc_internal. rewrite M_bind_get.
  rewrite (proj2 (Z.ltb_ge pc _)), (proj2 (Z.leb_gt upper_offset_limit _)) by lia. cbn [orb].
  assert (s32 (pc - code_begin n) = pc - code_begin n) as ->.
  { apply wrapS_id; [done|]. change upper_offset_limit with 2147483647 in Hup. unfold in_s. simpl. lia. }
  set (pcs := scopes_pcs n) in *. set (off := pc - code_begin n) in *.
  assert (set_cache (pc_desc_cache n) n = n) as Hid by (by destruct n).
  destruct (cache_find_spec before pcs Hs off (proj1 Hoff) u Hu approximate (pc_desc_cache n) Hc) as (r & Er & Hr).
  rewrite (M_bind_lift _ _ _ _ Er). destruct r as [p|].
  { destruct Hr as [|Hr]; [done|]. exists (pc_desc_cache n). by rewrite Hid, <- Hr. }
  rewrite (proj2 (Z.leb_gt (zlen pcs - 1) 0)) by (destruct Hs; lia).
  destruct (bracket_whole pcs Hs off (proj1 Hoff) last Hl (proj2 Hoff)) as (lo & up & Hlo & Hup' & H1 & H2).
  pose proof Hc as [Hlen HF]. unfold last_pc_desc. destruct (pc_descs (pc_desc_cache n)) as [|e rest] eqn:Hdescs; [done|].
  apply Forall_cons in HF as [(mid & -> & Hmid) _]. change (zget (Some mid :: rest) 0) with (Some (Some mid)).
  destruct (zget_is_Some pcs mid Hmid) as [pd Hpd].
  rewrite (M_bind_lift _ _ _ _ eq_refl), (M_bind_lift _ _ _ _ eq_refl), (M_bind_lift _ _ _ _ Hpd).
  assert (∃ l' u', (if pc_offset pd <? off then (mid, zlen pcs - 1) else (0, mid)) = (l', u') ∧ bracket pcs off l' u')
    as (l' & u' & -> & Hb).
  { destruct (Z.ltb_spec (pc_offset pd) off); eexists _, _; (split; [done|]); [by exists pd, up|by exists lo, pd]. }
  destruct (step_loop_spec pcs Hs off l' u' Hb) as (l2 & u2 & Es & Hb2).
  rewrite (M_bind_lift _ _ _ _ Es).
  destruct (sneak_up_spec pcs Hs off (S (length pcs)) l2 u2 Hb2) as (u3 & Eu & Hu3).
  { pose proof (bracket_lt pcs Hs off _ _ Hb2). unfold zlen in *. lia. }
  pose proof (successor_unique pcs Hs off _ _ Hu Hu3) as <-.
  rewrite (M_bind_lift _ _ _ _ Eu).
  assert (0 ≤ u < zlen pcs) as Hur by (destruct Hu as (? & ? & _ & Hz & _); by eapply zget_Some).
  rewrite (M_bind_lift _ _ _ _ (match_desc_spec before pcs Hs off (proj1 Hoff) u Hu approximate u Hur)).
  destruct (bool_decide_reflect (target pcs off u approximate = Some u)) as [Ht|Ht].
  - rewrite Ht. eexists. split; [done|]. destruct (shift_in_ok pcs u (pc_descs (pc_desc_cache n)) Hur) as [Hl' HF'].
    { rewrite Hdescs. destruct Hc as [_ HF]. by rewrite Hdescs in HF. }
    split; [cbn [add_pc_desc pc_descs]; unfold zlen; rewrite Hl'; by rewrite Hdescs|done].
  - assert (target pcs off u approximate = None) as ->.
    { unfold target in *. destruct (zget pcs u); [|done]. cbn in *. by destruct (_ || _). }
    exists (pc_desc_cache n). by rewrite Hid.
Qed.

Lemma find_pc_desc_spec before n pc approximate last u :
  pcs_sorted (scopes_pcs n) → cache_ok (scopes_pcs n) (pc_desc_cache n) →
  zget (scopes_pcs n) (zlen (scopes_pcs n) - 1) = Some last →
  0 ≤ pc - code_begin n ≤ pc_offset last → pc - code_begin n < upper_offset_limit →
  is_successor (scopes_pcs n) (pc - code_begin n) u →
  ∃ c, find_pc_desc before pc approximate n
      = Some (target (scopes_pcs n) (pc - code_begin n) u approximate, set_cache c n) ∧
    cache_ok (scopes_pcs n) c.
Proof.
  intros Hs Hc Hl Hoff Hup Hu.
  destruct (find_internal_spec before n pc approximate last u Hs Hc Hl Hoff Hup Hu) as (c & E & Hc').
  unfold find_pc_desc. rewrite M_bind_get. pose proof Hc as [Hlen HF]. unfold last_pc_desc.
  destruct (pc_descs (pc_desc_cache n)) as [|e rest] eqn:Hdescs; [done|].
  apply Forall_cons in HF as [(p & -> & Hp) _]. change (zget (Some p :: rest) 0) with (Some (Some p)).
  rewrite (M_bind_lift _ _ _ _ eq_refl). destruct (zget_is_Some _ p Hp) as [pd Hpd].
  rewrite (M_bind_lift _ _ _ _ Hpd). destruct (Z.eqb_spec (pc_offset pd) (pc - code_begin n)) as [He|He]; [|eauto].
  exists (pc_desc_cache n). split; [|done].
  rewrite (exact_target before _ Hs _ (proj1 Hoff) u Hu approximate p pd Hpd He). by destruct n.
Qed.

(** C13: Finding the descriptor of a pc with the cache and the search in giant
    steps gives, for any history of earlier questions (any cache of pointers
    into the array), the answer of the linear reference search over the sorted
    descriptors: the descriptor at the pc, or with [approximate] the first one
    at or after it.  The search ends, stays inside the array, and keeps the
    cache well-formed. *)
Theorem find_pc_desc_linear before n pc approximate last :
  pcs_sorted (scopes_pcs n) → cache_ok (scopes_pcs n) (pc_desc_cache n) →
  zget (scopes_pcs n) (zlen (scopes_pcs n) - 1) = Some last →
  0 ≤ pc - code_begin n ≤ pc_offset last → pc - code_begin n < upper_offset_limit →
  ∃ r c, find_pc_desc before pc approximate n = Some (r, set_cache c n) ∧
    cache_ok (scopes_pcs n) c ∧
    linear_search before (scopes_pcs n) (pc - code_begin n) approximate
    = Some (match r with Some p => FoundAt p | None => NotFound end).
Proof.
  intros Hs Hc Hl Hoff Hup. destruct (successor_exists _ _ last Hs (proj1 Hoff) Hl (proj2 Hoff)) as [u Hu].
  rewrite (linear_pc_search_spec before _ Hs _ (proj1 Hoff) u Hu).
  destruct (find_pc_desc_spec before n pc approximate last u Hs Hc Hl Hoff Hup Hu) as (c & E & Hc'). eauto.
Qed.

Lemma find_pc_desc_linear_witness :
  ∃ r c, find_pc_desc (mkPcDesc 99 0 0 0) 1013 true
      (mkPcs 1000 [new_PcDesc (-1) 0 0; new_PcDesc 8 1 0; new_PcDesc 20 2 0; new_PcDesc 65 0 0]
             (reset_to (Some 0) (mkCache [])))
    = Some (r, set_cache c (mkPcs 1000 [new_PcDesc (-1) 0 0; new_PcDesc 8 1 0; new_PcDesc 20 2 0; new_PcDesc 65 0 0]
             (reset_to (Some 0) (mkCache [])))) ∧ r = Some 2.
Proof.
  destruct (find_pc_desc_linear (mkPcDesc 99 0 0 0)
    (mkPcs 1000 [new_PcDesc (-1) 0 0; new_PcDesc 8 1 0; new_PcDesc 20 2 0; new_PcDesc 65 0 0]
       (reset_to (Some 0) (mkCache []))) 1013 true (new_PcDesc 65 0 0)) as (r & c & E & _ & Hlin).
  - split; [by compute|]. split; [by intros pd [= <-]|]. intros i j p q Hij Hi Hj.
    apply zget_Some in Hi as Hi', Hj as Hj'. unfold zlen in *. cbn in *.
    assert (i ∈ [0; 1; 2; 3]) as Hin by (rewrite !elem_of_cons; lia).
    assert (j ∈ [0; 1; 2; 3]) as Hjn by (rewrite !elem_of_cons; lia).
    repeat (apply elem_of_cons in Hin as [->|Hin]; [|]); try by apply elem_of_nil in Hin.
    all: repeat (apply elem_of_cons in Hjn as [->|Hjn]; [|]); try by apply elem_of_nil in Hjn.
    all: try lia; injection Hi as <-; injection Hj as <-; by compute.
  - split; [done|]. repeat constructor; by exists 0.
  - done.
  - by compute.
  - by compute.
  - exists r, c. split; [exact E|]. vm_compute in Hlin. destruct r as [p|]; [|discriminate].
    injection Hlin as <-. reflexivity.
Defined.
