(* ===== verification/NMethod.v ===== *)
(** * Debug information in an nmethod

    The recorder, the copy into the nmethod, the search for a pc descriptor and
    the scope descriptors together: from a pc to the scopes described for it. *)

From stdpp Require Import base numbers list gmap fin_sets.
From S2P Require Import Prelude GlobalDefinitions CompressedStream GrowableArray VMReg OopRecorder ObjectLookup DebugInfo RecorderIndex OopMap DebugInfoRec ScopeDesc Safepoints PcDescFinder.
Local Open Scope Z_scope.

(** ** The descriptors of an nmethod *)

(** Offsets that increase from one descriptor to the next. *)
Definition increasing (l : list PcDesc) : Prop :=
  ∀ i j p q, i < j → zget l i = Some p → zget l j = Some q → pc_offset p < pc_offset q.

Lemma increasing_cons pd l :
  increasing l → (∀ q, q ∈ l → pc_offset pd < pc_offset q) → increasing (pd :: l).
Proof.
  intros Hl Hpd i j p q Hij Hi Hj. pose proof (zget_Some _ _ _ Hi) as Hi0. pose proof (zget_Some _ _ _ Hj) as Hj0.
  assert (∀ k x, 0 < k → zget (pd :: l) k = Some x → zget l (k - 1) = Some x) as Hshift.
  { intros k x Hk Hx. unfold zget in *. rewrite decide_True in Hx by lia. rewrite decide_True by lia.
    replace (Z.to_nat k) with (S (Z.to_nat (k - 1))) in Hx by lia. done. }
  apply Hshift in Hj; [|lia]. destruct (decide (i = 0)) as [->|Hi1].
  - injection Hi as <-. by apply Hpd, (zget_elem _ (j - 1)).
  - apply Hshift in Hi; [|lia]. by apply (Hl (i - 1) (j - 1)); [lia|..].
Qed.

Lemma increasing_snoc l pd :
  increasing l → (∀ q, q ∈ l → pc_offset q < pc_offset pd) → increasing (l ++ [pd]).
Proof.
  intros Hl Hpd i j p q Hij Hi Hj. pose proof (zget_Some _ _ _ Hj) as Hj0. rewrite zlen_app in Hj0.
  change (zlen [pd]) with 1 in Hj0. rewrite zget_app_l in Hi by lia.
  destruct (decide (j < zlen l)) as [Hlt|Hge].
  - rewrite zget_app_l in Hj by done. by apply (Hl i j).
  - rewrite zget_app_r in Hj by lia. replace (j - zlen l) with 0 in Hj by lia. injection Hj as <-.
    by apply Hpd, (zget_elem _ i).
Qed.

(** The offsets of the safepoints are those of their descriptors. *)
Lemma increasing_safepoints (sps : list SafepointInfo) pds :
  Forall2 (λ sp pd, pc_offset pd = sp_pc_offset sp) sps pds →
  (∀ i j a b, (i < j)%nat → sps !! i = Some a → sps !! j = Some b → sp_pc_offset a < sp_pc_offset b) →
  increasing pds.
Proof.
  intros H2 Hinc i j p q Hij Hi Hj. unfold zget in Hi, Hj. repeat case_decide; try done.
  destruct (Forall2_lookup_r _ _ _ _ _ H2 Hi) as (a & Ha & ->).
  destruct (Forall2_lookup_r _ _ _ _ _ H2 Hj) as (b & Hb & ->).
  apply (Hinc (Z.to_nat i) (Z.to_nat j)); [lia|done..].
Qed.

(** [copy_scopes_pcs] on what the recorder made. *)
Lemma copy_scopes_pcs_spec content_size pds :
  increasing pds → (∀ pd, pd ∈ pds → 0 ≤ pc_offset pd ≤ content_size) → 0 ≤ content_size →
  ∃ pcs last,
    copy_scopes_pcs content_size (S (S (length pds)))
      ((new_PcDesc lower_offset_limit serialized_null serialized_null :: pds)
         ++ [new_PcDesc upper_offset_limit serialized_null serialized_null]) = Some pcs ∧
    pcs_sorted pcs ∧ zget pcs (zlen pcs - 1) = Some last ∧ pc_offset last = content_size + 1 ∧
    (∀ i pd, pds !! i = Some pd → zget pcs (Z.of_nat i + 1) = Some pd) ∧
    ∀ p pd, zget pcs p = Some pd → 0 ≤ pc_offset pd ≤ content_size → pd ∈ pds.
Proof.
  intros Hinc Hrange Hcs. set (s0 := new_PcDesc lower_offset_limit _ _). set (s1 := new_PcDesc upper_offset_limit _ _).
  set (s1' := set_pc_offset (content_size + 1) s1).
  assert (zlen ((s0 :: pds) ++ [s1]) - 1 = zlen (s0 :: pds)) as Hlen by (rewrite zlen_app; unfold zlen; simpl; lia).
  exists ((s0 :: pds) ++ [s1']), s1'. split; [|split; [split; [|split]|split; [|split; [|split]]]].
  - unfold copy_scopes_pcs. rewrite Hlen, zget_app_r, Z.sub_diag by lia.
    change (zget [s1] 0) with (Some s1). cbn [mbind option_bind]. rewrite zset_app. cbn [mbind option_bind].
    rewrite decide_True by (rewrite length_app; simpl; lia).
    replace (S (S (length pds)) - _)%nat with O by (rewrite length_app; simpl; lia). by rewrite app_nil_r.
  - rewrite zlen_app. unfold zlen. simpl. lia.
  - by intros pd [= <-].
  - apply increasing_snoc; [apply increasing_cons; [done|]|].
    + intros q Hq. cbn. unfold lower_offset_limit. pose proof (Hrange q Hq). lia.
    + intros q [->|Hq]%elem_of_cons; cbn; [unfold lower_offset_limit; lia|]. pose proof (Hrange q Hq). lia.
  - rewrite zlen_app. change (zlen [s1']) with 1. rewrite zget_app_r by lia.
    by replace (zlen (s0 :: pds) + 1 - 1 - zlen (s0 :: pds)) with 0 by lia.
  - done.
  - intros i pd Hi. pose proof (lookup_lt_Some _ _ _ Hi). rewrite zget_app_l by (unfold zlen; simpl; lia).
    unfold zget. rewrite decide_True by lia. by replace (Z.to_nat (Z.of_nat i + 1)) with (S i) by lia.
  - intros p pd Hp%zget_elem Hr. rewrite elem_of_app, elem_of_cons, list_elem_of_singleton in Hp.
    destruct Hp as [[->|?]| ->]; [cbn in Hr; unfold lower_offset_limit in Hr; lia|done|cbn in Hr; lia].
Qed.

(** The exact search finds a descriptor at its offset. *)
Lemma find_exact before n pc last p pd :
  pcs_sorted (scopes_pcs n) → cache_ok (scopes_pcs n) (pc_desc_cache n) →
  zget (scopes_pcs n) (zlen (scopes_pcs n) - 1) = Some last →
  0 ≤ pc - code_begin n ≤ pc_offset last → pc - code_begin n < upper_offset_limit →
  zget (scopes_pcs n) p = Some pd → pc_offset pd = pc - code_begin n →
  ∃ c, pc_desc_at before pc n = Some (Some p, set_cache c n) ∧ cache_ok (scopes_pcs n) c.
Proof.
  intros Hs Hc Hl Hoff Hup Hpd He. destruct (successor_exists _ _ last Hs (proj1 Hoff) Hl (proj2 Hoff)) as [u Hu].
  destruct (find_pc_desc_spec before n pc false last u Hs Hc Hl Hoff Hup Hu) as (c & E & Hc').
  rewrite (exact_target before _ Hs _ (proj1 Hoff) u Hu false p pd Hpd He) in E. eauto.
Qed.

(** Where no descriptor has the offset, the search finds none. *)
Lemma find_none before n pc last :
  pcs_sorted (scopes_pcs n) → cache_ok (scopes_pcs n) (pc_desc_cache n) →
  zget (scopes_pcs n) (zlen (scopes_pcs n) - 1) = Some last →
  0 ≤ pc - code_begin n ≤ pc_offset last → pc - code_begin n < upper_offset_limit →
  (∀ p pd, zget (scopes_pcs n) p = Some pd → pc_offset pd ≠ pc - code_begin n) →
  ∃ c, pc_desc_at before pc n = Some (None, set_cache c n) ∧ cache_ok (scopes_pcs n) c.
Proof.
  intros Hs Hc Hl Hoff Hup Hno. destruct (successor_exists _ _ last Hs (proj1 Hoff) Hl (proj2 Hoff)) as [u Hu].
  destruct (find_pc_desc_spec before n pc false last u Hs Hc Hl Hoff Hup Hu) as (c & E & Hc').
  exists c. split; [|done]. unfold pc_desc_at. rewrite E. unfold target.
  destruct (zget (scopes_pcs n) u) as [pd|] eqn:Hpd; [|done]. cbn [mbind option_bind orb].
  by rewrite (proj2 (Z.eqb_neq _ _) (Hno u pd Hpd)).
Qed.

(** Together, for the descriptors [pds] copied into an nmethod. *)
Lemma pc_desc_at_cases before n (pds : list PcDesc) last content_size off :
  pcs_sorted (scopes_pcs n) → cache_ok (scopes_pcs n) (pc_desc_cache n) →
  zget (scopes_pcs n) (zlen (scopes_pcs n) - 1) = Some last → pc_offset last = content_size + 1 →
  (∀ i pd, pds !! i = Some pd → zget (scopes_pcs n) (Z.of_nat i + 1) = Some pd) →
  (∀ p pd, zget (scopes_pcs n) p = Some pd → 0 ≤ pc_offset pd ≤ content_size → pd ∈ pds) →
  0 ≤ off ≤ content_size → content_size < upper_offset_limit →
  ∃ r c, pc_desc_at before (code_begin n + off) n = Some (r, set_cache c n) ∧ cache_ok (scopes_pcs n) c ∧
    ((r = None ∧ ∀ pd, pd ∈ pds → pc_offset pd ≠ off) ∨
     ∃ p i pd, r = Some p ∧ zget (scopes_pcs n) p = Some pd ∧ pds !! i = Some pd ∧ pc_offset pd = off).
Proof.
  intros Hsorted Hc Hlast Hlo Hnth Hback Hoff Hup.
  assert (code_begin n + off - code_begin n = off) as Hpco by lia.
  destruct (decide (Exists (λ pd, pc_offset pd = off) pds)) as [(pd & Hpd & He)%Exists_exists|Hno].
  - apply list_elem_of_lookup in Hpd as [i Hi].
    destruct (find_exact before n (code_begin n + off) last (Z.of_nat i + 1) pd) as (c & Ef & Hc');
      [done|done|done|rewrite Hpco; lia..|by apply Hnth|by rewrite Hpco|].
    exists (Some (Z.of_nat i + 1)), c. split; [done|]. split; [done|]. right. exists (Z.of_nat i + 1), i, pd.
    split_and!; [done|by apply Hnth|done|done].
  - rewrite <- Forall_Exists_neg, Forall_forall in Hno.
    destruct (find_none before n (code_begin n + off) last) as (c & Ef & Hc');
      [done|done|done|rewrite Hpco; lia..| |].
    { rewrite Hpco. intros p pd Hp He. apply (Hno pd); [apply (Hback p pd Hp); lia|done]. }
    exists None, c. split; [done|]. split; [done|]. by left.
Qed.

(** ** Results *)

(** What is found for a pc: nothing, or a descriptor from which the scopes of
    the safepoint are read. *)
Definition describes (object_of : Z → Z) (objects : gmap Z ObjectValue) (code : nmethod) (pd : PcDesc)
    (sp : SafepointInfo) : Prop :=
  ∀ h, ∃ ds O P,
    (sd ← scope_desc_at code pd; read_scopes (length (sp_scopes sp)) code sd) h = Some (ds, mkDH O P) ∧
    same_scopes object_of (pool_graph (sp_pool sp) objects) O P (reverse (sp_scopes sp)) ds ∧
    ∀ p, p ∈ sp_pool sp → same_object object_of (pool_graph (sp_pool sp) objects) O P p.

(** C1: From recording to decoding. The compiler records safepoints at
    increasing pcs; the recorder (with or without sharing of equal chunks), the
    request for its size, which adds the final sentinel, and the copy into the
    nmethod all succeed. In the resulting nmethod, with any contents of the pc
    descriptor cache, looking up the pc of a safepoint finds a descriptor from
    which exactly the recorded scopes, their values, monitors and the (possibly
    cyclic) pool of virtual objects are read back, innermost scope first, and
    looking up any other pc of the code finds nothing. *)
Theorem nmethod_debug_info {R : Type} `{!IndexRecorder R} `{!IndexRecorderLaws R}
    (share share_default : bool) objects rec rns sps content_size :
  rec_ok rec → Forall (safepoint_ok objects) sps →
  Forall (λ sp, sp_scopes sp ≠ [] ∧ Forall (λ si, bci_ok (si_bci si)) (sp_scopes sp)) sps →
  (∀ i j a b, (i < j)%nat → sps !! i = Some a → sps !! j = Some b → sp_pc_offset a < sp_pc_offset b) →
  Forall (λ sp, 0 ≤ sp_pc_offset sp ≤ content_size) sps → 0 ≤ content_size < upper_offset_limit →
  ∃ d0 d size d1 pcs,
    new_recorder objects rec new_oop_map_set rns = Some d0 ∧
    mforeach (record_safepoint share share_default) sps d0 = Some (tt, d) ∧
    pcs_size d = Some (size, d1) ∧
    copy_scopes_pcs content_size (Z.to_nat (size / sizeof_PcDesc)) (copied_pcs d1) = Some pcs ∧
    ∀ before code n off, nm_scopes_data code = copied_data d1 → zlen (copied_data d1) < 2 ^ 31 →
      agrees (dw_recorder (dir_writer d1)) (nm_tables code) →
      scopes_pcs n = pcs → cache_ok pcs (pc_desc_cache n) → 0 ≤ off ≤ content_size →
      ∃ r c, pc_desc_at before (code_begin n + off) n = Some (r, set_cache c n) ∧ cache_ok pcs c ∧
        ((r = None ∧ ∀ sp, sp ∈ sps → sp_pc_offset sp ≠ off) ∨
         ∃ p pd sp, r = Some p ∧ zget pcs p = Some pd ∧ sp ∈ sps ∧ sp_pc_offset sp = off ∧
           describes object_of objects code pd sp).
Proof.
  intros Hrec Hsps Hbci Hinc Hpc Hcs.
  destruct (safepoints_recorded share share_default objects rec rns sps Hrec Hsps Hbci)
    as (d0 & d & pds & E0 & E & Hcp & Hok & H2 & _ & Hread).
  rewrite Forall_forall in Hpc.
  assert (∀ pd, pd ∈ pds → 0 ≤ pc_offset pd ≤ content_size) as Hrange.
  { intros pd [i Hi]%list_elem_of_lookup. destruct (Forall2_lookup_r _ _ _ _ _ H2 Hi) as (sp & Hsp & ->).
    by apply Hpc; eapply list_elem_of_lookup_2. }
  assert (∃ l pd, copied_pcs d = l ++ [pd] ∧ pc_offset pd ≠ upper_offset_limit) as (l & lastpd & Hl & Hne).
  { rewrite Hcp. destruct (exists_last_or_nil pds) as [->|(l & pd & ->)].
    - by eexists [], _.
    - exists (new_PcDesc lower_offset_limit serialized_null serialized_null :: l), pd. split; [done|].
      assert (0 ≤ pc_offset pd ≤ content_size) by (apply Hrange; set_solver). lia. }
  destruct (pcs_size_spec d l lastpd Hok Hl Hne) as (d1 & Es & Honly & Hcp1).
  destruct (copy_scopes_pcs_spec content_size pds (increasing_safepoints _ _ H2 Hinc) Hrange (proj1 Hcs))
    as (pcs & last & Ec & Hsorted & Hlast & Hlo & Hnth & Hback).
  exists d0, d, (zlen (copied_pcs d1) * sizeof_PcDesc), d1, pcs. rewrite Hcp in Hcp1.
  split; [done|]. split; [done|]. split; [done|]. split.
  { rewrite Z.div_mul by done. rewrite Hcp1 at 2. unfold zlen. rewrite Nat2Z.id, Hcp1, length_app.
    cbn [length]. rewrite Nat.add_1_r. exact Ec. }
  destruct Honly as (? & ? & ? & ->). intros before code n off Hdata Hsize Htab Hn Hc Hoff.
  specialize (Hread code Hdata Hsize Htab). subst pcs.
  destruct (pc_desc_at_cases before n pds last content_size off Hsorted Hc Hlast Hlo Hnth Hback Hoff (proj2 Hcs))
    as (r & c & Ef & Hc' & Hcases). exists r, c. split; [done|]. split; [done|].
  destruct Hcases as [[-> Hno]|(p & i & pd & -> & Hp & Hi & He)]; [left; split; [done|]|right].
  - intros sp [i Hi]%list_elem_of_lookup He. destruct (Forall2_lookup_l _ _ _ _ _ H2 Hi) as (pd & Hpd & Hpo).
    apply (Hno pd); [by eapply list_elem_of_lookup_2|congruence].
  - destruct (Forall2_lookup_r _ _ _ _ _ Hread Hi) as (sp & Hsp & Hspc & Hr). exists p, pd, sp.
    split; [done|]. split; [done|]. split; [by eapply list_elem_of_lookup_2|]. split; [congruence|done].
Qed.

Lemma nmethod_debug_info_witness :
  ∃ d0 d size d1 pcs T r c p pd,
    new_recorder example_objects example_recorder new_oop_map_set false = Some d0 ∧
    mforeach (record_safepoint true true) example_safepoints d0 = Some (tt, d) ∧
    pcs_size d = Some (size, d1) ∧
    copy_scopes_pcs 64 (Z.to_nat (size / sizeof_PcDesc)) (copied_pcs d1) = Some pcs ∧
    pc_desc_at (mkPcDesc 7 7 7 7) 1020 (mkPcs 1000 pcs (reset_to (Some 0) (mkCache []))) =
      Some (r, mkPcs 1000 pcs c) ∧
    r = Some p ∧ zget pcs p = Some pd ∧
    describes example_object example_objects (mkNM (copied_data d1) T 96) pd
      (mkSafepoint 20 (new_oop_map 4 0) (Some [1; 2]) [example_scope 0]).
Proof.
  destruct (nmethod_debug_info (IndexRecorderLaws0 := example_laws) true true example_objects example_recorder false
    example_safepoints 64 example_recorder_ok example_safepoints_ok) as (d0 & d & size & d1 & pcs & E0 & E & Es & Ec & Hfind).
  { repeat constructor; done. }
  { intros [|[|i]] [|[|j]] a b Hij [= <-] [= <-]; cbn; lia. }
  { repeat constructor; cbn; lia. }
  { done. }
  assert (match new_recorder example_objects example_recorder new_oop_map_set false with
          | Some d0 => match mforeach (record_safepoint true true) example_safepoints d0 with
                       | Some (_, d) => match pcs_size d with
                                        | Some (size, d1) => (zlen (copied_data d1) <? 2 ^ 31) && (0 <? zlen (copied_pcs d1))
                                            && match copy_scopes_pcs 64 (Z.to_nat (size / sizeof_PcDesc)) (copied_pcs d1) with
                                               | Some pcs => 0 <? zlen pcs | None => false end
                                        | None => false end
                       | None => false end
          | None => false end = true) as Hsize by (vm_compute; reflexivity).
  rewrite E0, E, Es, Ec in Hsize. rewrite !andb_true_iff, !Z.ltb_lt in Hsize. destruct Hsize as [[Hsize _] Hlen].
  destruct (tables_exist (IndexRecorderLaws0 := example_laws) (dw_recorder (dir_writer d1))) as [T HT].
  destruct (Hfind (mkPcDesc 7 7 7 7) (mkNM (copied_data d1) T 96) (mkPcs 1000 pcs (reset_to (Some 0) (mkCache []))) 20
    eq_refl Hsize HT eq_refl) as (r & c & Ef & _ & Hcases).
  { split; [done|]. repeat constructor; exists 0; (split; [done|lia]). }
  { lia. }
  destruct Hcases as [[_ Hno]|(p & pd & sp & Hr & Hp & Hsp & Hpc & Hd)].
  { exfalso. apply (Hno (mkSafepoint 20 (new_oop_map 4 0) (Some [1; 2]) [example_scope 0])); [|done].
    unfold example_safepoints. rewrite elem_of_cons, list_elem_of_singleton. by right. }
  exists d0, d, size, d1, pcs, T, r, c, p, pd. do 5 (split; [done|]). split; [done|]. split; [done|].
  unfold example_safepoints in Hsp. rewrite elem_of_cons, list_elem_of_singleton in Hsp.
  destruct Hsp as [-> | ->]; [done|exact Hd].
Defined.
