(* ===== verification/ExceptionCache.v ===== *)
(** * The exception cache of an nmethod

    [ExceptionCache] in code/nmethod.hpp and code/nmethod.cpp: a linked list of
    blocks, each with up to sixteen (pc, handler) pairs for one exception class.
    The blocks are C heap objects linked by [_next]; a null pointer is [0]. *)

From stdpp Require Import base numbers list gmap fin_sets.
From S2P Require Import Prelude.
Local Open Scope Z_scope.

(** ** A block *)

Definition ec_cache_size : Z := 16.

Record ExceptionCache := mkEC {
  ec_exception_type : Z;
  ec_pc : list Z;
  ec_handler : list Z;
  ec_count : Z;
  ec_next : Z
}.

Definition pc_at (i : Z) (e : ExceptionCache) : option Z := zget (ec_pc e) i.
Definition handler_at (i : Z) (e : ExceptionCache) : option Z := zget (ec_handler e) i.
Definition set_pc_at (i a : Z) (e : ExceptionCache) : option ExceptionCache :=
  l ← zset (ec_pc e) i a; Some (mkEC (ec_exception_type e) l (ec_handler e) (ec_count e) (ec_next e)).
Definition set_handler_at (i a : Z) (e : ExceptionCache) : option ExceptionCache :=
  l ← zset (ec_handler e) i a; Some (mkEC (ec_exception_type e) (ec_pc e) l (ec_count e) (ec_next e)).
Definition increment_count (e : ExceptionCache) : ExceptionCache :=
  mkEC (ec_exception_type e) (ec_pc e) (ec_handler e) (ec_count e + 1) (ec_next e).
Definition set_next (next : Z) (e : ExceptionCache) : ExceptionCache :=
  mkEC (ec_exception_type e) (ec_pc e) (ec_handler e) (ec_count e) next.

Fixpoint test_loop (n : nat) (i addr : Z) (e : ExceptionCache) : option Z :=
  match n with
  | O => Some 0
  | S n' =>
      pc ← pc_at i e;
      if pc =? addr then handler_at i e else test_loop n' (i + 1) addr e
  end.

Definition test_address (addr : Z) (e : ExceptionCache) : option Z :=
  test_loop (Z.to_nat (ec_count e)) 0 addr e.

Definition add_address_and_handler (addr handler : Z) (e : ExceptionCache) : option (bool * ExceptionCache) :=
  h ← test_address addr e;
  if h =? handler then Some (true, e)
  else if ec_count e <? ec_cache_size then
    e ← set_pc_at (ec_count e) addr e;
    e ← set_handler_at (ec_count e) handler e;
    Some (true, increment_count e)
  else Some (false, e).

(** The arrays of a new block are not initialised; no result depends on them. *)
Definition new_ExceptionCache (klass pc handler : Z) : option ExceptionCache :=
  '(_, e) ← add_address_and_handler pc handler
              (mkEC klass (replicate (Z.to_nat ec_cache_size) 0) (replicate (Z.to_nat ec_cache_size) 0) 0 0);
  Some e.

(** [match]; an exception object is given by its class. *)
Definition ec_match (klass pc : Z) (e : ExceptionCache) : option Z :=
  if klass =? ec_exception_type e then test_address pc e else Some 0.

Definition match_exception_with_space (klass : Z) (e : ExceptionCache) : bool :=
  (klass =? ec_exception_type e) && (ec_count e <? ec_cache_size).

(** ** The list *)

(** The blocks allocated for the nmethod and [_exception_cache]. *)
Record exceptions := mkExc {
  exc_heap : gmap Z ExceptionCache;
  exc_cache : Z
}.

Definition no_exceptions : exceptions := mkExc ∅ 0.
Definition set_exception_cache (p : Z) (s : exceptions) : exceptions := mkExc (exc_heap s) p.
Definition store_ec (p : Z) (e : ExceptionCache) (s : exceptions) : exceptions :=
  mkExc (<[p := e]> (exc_heap s)) (exc_cache s).
Definition delete_ec (p : Z) (s : exceptions) : exceptions := mkExc (delete p (exc_heap s)) (exc_cache s).

(** A walk along the list takes at most this many steps. *)
Definition walk_fuel (s : exceptions) : nat := S (size (exc_heap s)).

Fixpoint entry_loop (fuel : nat) (klass ec : Z) (s : exceptions) : option Z :=
  match fuel with
  | O => None
  | S fuel' =>
      if ec =? 0 then Some 0
      else
        e ← exc_heap s !! ec;
        if match_exception_with_space klass e then Some ec else entry_loop fuel' klass (ec_next e) s
  end.

Definition exception_cache_entry_for_exception (klass : Z) (s : exceptions) : option Z :=
  entry_loop (walk_fuel s) klass (exc_cache s) s.

Definition add_exception_cache_entry (new_entry : Z) (s : exceptions) : option exceptions :=
  s ← (if negb (exc_cache s =? 0) then
         e ← exc_heap s !! new_entry; Some (store_ec new_entry (set_next (exc_cache s) e) s)
       else Some s);
  Some (set_exception_cache new_entry s).

Fixpoint handler_loop (fuel : nat) (klass pc ec : Z) (s : exceptions) : option Z :=
  match fuel with
  | O => None
  | S fuel' =>
      if ec =? 0 then Some 0
      else
        e ← exc_heap s !! ec;
        ret_val ← ec_match klass pc e;
        if negb (ret_val =? 0) then Some ret_val else handler_loop fuel' klass pc (ec_next e) s
  end.

Definition handler_for_exception_and_pc (klass pc : Z) (s : exceptions) : option Z :=
  handler_loop (walk_fuel s) klass pc (exc_cache s) s.

(** Freeing the blocks in [nmethod::flush]. *)
Fixpoint flush_loop (fuel : nat) (ec : Z) (s : exceptions) : option exceptions :=
  match fuel with
  | O => None
  | S fuel' =>
      if ec =? 0 then Some s
      else e ← exc_heap s !! ec; flush_loop fuel' (ec_next e) (delete_ec ec s)
  end.

Definition flush_exception_cache (s : exceptions) : option exceptions :=
  flush_loop (walk_fuel s) (exc_cache s) (set_exception_cache 0 s).

Section clean.
(** [Klass::is_loader_alive] for the closure given. *)
Context (is_loader_alive : Z → bool).

Fixpoint clean_loop (fuel : nat) (prev curr : Z) (s : exceptions) : option exceptions :=
  match fuel with
  | O => None
  | S fuel' =>
      if curr =? 0 then Some s
      else
        e ← exc_heap s !! curr;
        let next := ec_next e in
        let ex_klass := ec_exception_type e in
        if negb (ex_klass =? 0) && negb (is_loader_alive ex_klass) then
          s ← (if prev =? 0 then Some (set_exception_cache next s)
               else p ← exc_heap s !! prev; Some (store_ec prev (set_next next p) s));
          clean_loop fuel' prev next (delete_ec curr s)
        else clean_loop fuel' curr next s
  end.

Definition clean_exception_cache (s : exceptions) : option exceptions :=
  clean_loop (walk_fuel s) 0 (exc_cache s) s.
End clean.

(** The first attempt of an addition, to the block found. *)
Definition add_to_entry (target_entry pc handler : Z) (s : exceptions) : option (bool * exceptions) :=
  if target_entry =? 0 then Some (false, s)
  else
    e ← exc_heap s !! target_entry;
    '(b, e) ← add_address_and_handler pc handler e;
    Some (b, store_ec target_entry e s).

Section add.
(** The C heap: an address that is not null and not in use. *)
Context (new_address : gmap Z ExceptionCache → Z).

Definition add_handler_for_exception_and_pc (klass pc handler : Z) (s : exceptions) : option exceptions :=
  target_entry ← exception_cache_entry_for_exception klass s;
  '(added, s) ← add_to_entry target_entry pc handler s;
  if added : bool then Some s
  else
    e ← new_ExceptionCache klass pc handler;
    let target_entry := new_address (exc_heap s) in
    add_exception_cache_entry target_entry (store_ec target_entry e s).
End add.

(** ** Correctness of a block *)

Record ec_ok (e : ExceptionCache) : Prop := {
  ec_pc_len : zlen (ec_pc e) = ec_cache_size;
  ec_handler_len : zlen (ec_handler e) = ec_cache_size;
  ec_count_range : 0 ≤ ec_count e ≤ ec_cache_size;
  ec_handlers : Forall (λ h, h ≠ 0) (take (Z.to_nat (ec_count e)) (ec_handler e))
}.

(** The pairs of a block, and with the class. *)
Definition pairs (e : ExceptionCache) : list (Z * Z) :=
  zip (take (Z.to_nat (ec_count e)) (ec_pc e)) (take (Z.to_nat (ec_count e)) (ec_handler e)).
Definition bindings (e : ExceptionCache) : list (Z * Z * Z) :=
  (λ p, ((ec_exception_type e, p.1), p.2)) <$> pairs e.

Lemma test_loop_spec n i addr e :
  ec_ok e → 0 ≤ i → i + Z.of_nat n = ec_count e →
  test_loop n i addr e = Some (default 0 (assoc addr (drop (Z.to_nat i) (pairs e)))).
Proof.
  intros He. revert i. induction n as [|n IH]; intros i Hi Hn; cbn [test_loop].
  - rewrite drop_ge; [done|]. unfold pairs. rewrite length_zip_with, !length_take. lia.
  - destruct He as [H1 H2 H3 H4].
    destruct (zget_is_Some (ec_pc e) i) as [pc Hpc]; [lia|].
    destruct (zget_is_Some (ec_handler e) i) as [h Hh]; [lia|].
    unfold pc_at, handler_at. rewrite Hpc, Hh. cbn [mbind option_bind].
    unfold zget in Hpc, Hh. rewrite decide_True in Hpc, Hh by done.
    rewrite (drop_S (pairs e) (pc, h)).
    2: { unfold pairs. rewrite lookup_zip_with, !lookup_take_lt by lia. by rewrite Hpc, Hh. }
    cbn [assoc]. rewrite Z.eqb_sym. destruct (Z.eqb_spec addr pc) as [->|Hne].
    + by rewrite decide_True.
    + rewrite decide_False by done. rewrite IH by lia. by replace (Z.to_nat (i + 1)) with (S (Z.to_nat i)) by lia.
Qed.

Lemma test_address_spec addr e :
  ec_ok e → test_address addr e = Some (default 0 (assoc addr (pairs e))).
Proof. intros He. pose proof (ec_count_range e He). unfold test_address. by rewrite test_loop_spec by (done || lia). Qed.

Lemma pairs_handlers e k h : ec_ok e → (k, h) ∈ pairs e → h ≠ 0.
Proof.
  intros He Hp. apply elem_of_zip_r in Hp. pose proof (ec_handlers e He) as HF.
  rewrite Forall_forall in HF. by apply HF.
Qed.

(** Extending both arrays. *)
Lemma pairs_extend e pcs hs pc h :
  ec_ok e → ec_count e < ec_cache_size → h ≠ 0 →
  pcs = <[Z.to_nat (ec_count e) := pc]> (ec_pc e) → hs = <[Z.to_nat (ec_count e) := h]> (ec_handler e) →
  let e' := mkEC (ec_exception_type e) pcs hs (ec_count e + 1) (ec_next e) in
  ec_ok e' ∧ pairs e' = pairs e ++ [(pc, h)].
Proof.
  intros [H1 H2 H3 H4] Hlt Hh -> -> e'. unfold zlen in *.
  assert (∀ (l : list Z) x, (Z.to_nat (ec_count e) < length l)%nat →
    take (Z.to_nat (ec_count e + 1)) (<[Z.to_nat (ec_count e) := x]> l) = take (Z.to_nat (ec_count e)) l ++ [x]) as Htake.
  { intros l x Hl. replace (Z.to_nat (ec_count e + 1)) with (S (Z.to_nat (ec_count e))) by lia.
    rewrite (take_S_r _ _ x) by (apply list_lookup_insert_eq; done). by rewrite take_insert_ge by lia. }
  split.
  - split; cbn [ec_pc ec_handler ec_count e']; [by unfold zlen; rewrite length_insert..|lia|].
    rewrite Htake by lia. apply Forall_app. split; [done|]. by apply Forall_singleton.
  - unfold pairs. cbn [ec_pc ec_handler ec_count e']. rewrite !Htake by lia.
    rewrite zip_with_app; [done|]. rewrite !length_take. lia.
Qed.

Lemma add_address_spec pc h e :
  ec_ok e → h ≠ 0 →
  (add_address_and_handler pc h e = Some (true, e) ∧ assoc pc (pairs e) = Some h) ∨
  (assoc pc (pairs e) ≠ Some h ∧ ec_count e = ec_cache_size ∧ add_address_and_handler pc h e = Some (false, e)) ∨
  (assoc pc (pairs e) ≠ Some h ∧ ec_count e < ec_cache_size ∧
   ∃ pcs hs, let e' := mkEC (ec_exception_type e) pcs hs (ec_count e + 1) (ec_next e) in
     add_address_and_handler pc h e = Some (true, e') ∧ ec_ok e' ∧ pairs e' = pairs e ++ [(pc, h)]).
Proof.
  intros He Hh. unfold add_address_and_handler. rewrite test_address_spec by done. cbn [mbind option_bind].
  destruct (Z.eqb_spec (default 0 (assoc pc (pairs e))) h) as [Heq|Hne].
  { left. split; [done|]. destruct (assoc pc (pairs e)); cbn in Heq; congruence. }
  right. assert (assoc pc (pairs e) ≠ Some h) as Hn by (intros Hs; by rewrite Hs in Hne).
  pose proof He as [H1 H2 H3 _]. destruct (Z.ltb_spec (ec_count e) ec_cache_size) as [Hlt|Hge]; [right|left; split_and!; [done|lia|done]].
  split; [done|]. split; [done|]. eexists _, _. cbn zeta. split; [|by apply pairs_extend].
  unfold set_pc_at, set_handler_at. rewrite zset_eq by lia. cbn [mbind option_bind ec_handler ec_count].
  by rewrite zset_eq by lia.
Qed.

Lemma new_ec_spec k pc h :
  h ≠ 0 → ∃ e, new_ExceptionCache k pc h = Some e ∧ ec_ok e ∧ ec_exception_type e = k ∧ ec_next e = 0 ∧
    pairs e = [(pc, h)].
Proof.
  intros Hh. unfold new_ExceptionCache.
  set (e0 := mkEC k _ _ 0 0). assert (ec_ok e0) as He0 by (split; [done|done|done|constructor]).
  destruct (add_address_spec pc h e0 He0 Hh) as [[_ Ha]|[(_ & Hc & _)|(_ & _ & pcs & hs & -> & Hok & Hp)]]; [done|done|].
  cbn [mbind option_bind]. eexists. split; [done|]. done.
Qed.

Lemma ec_match_spec k pc e :
  ec_ok e → ec_match k pc e = Some (default 0 (assoc (k, pc) (bindings e))).
Proof.
  intros He. unfold ec_match, bindings. destruct (Z.eqb_spec k (ec_exception_type e)) as [->|Hne].
  - rewrite test_address_spec by done. by rewrite (assoc_fmap_key (pair (ec_exception_type e))).
  - by rewrite (assoc_fmap_other (pair (ec_exception_type e))) by congruence.
Qed.

(** ** Correctness of the list *)

Implicit Types (h : gmap Z ExceptionCache) (l : list (Z * ExceptionCache)).

(** The blocks [l] from pointer [p] to pointer [q]. *)
Fixpoint lseg h (p : Z) l (q : Z) : Prop :=
  match l with
  | [] => p = q
  | (a, e) :: l' => p = a ∧ a ≠ 0 ∧ h !! a = Some e ∧ lseg h (ec_next e) l' q
  end.

Lemma lseg_app h p l1 l2 q : lseg h p (l1 ++ l2) q ↔ ∃ m, lseg h p l1 m ∧ lseg h m l2 q.
Proof.
  revert p. induction l1 as [|[a e] l1 IH]; intros p; cbn.
  - split; [intros ?; by exists p|by intros (m & -> & ?)].
  - rewrite IH. naive_solver.
Qed.

(** Memory outside the segment does not matter. *)
Lemma lseg_frame h h' p l q : (∀ a, a ∈ l.*1 → h' !! a = h !! a) → lseg h p l q → lseg h' p l q.
Proof.
  revert p. induction l as [|[a e] l IH]; intros p Hh; cbn; [done|].
  intros (-> & Ha & He & Hl). split_and!; [done|done|rewrite Hh; [done|left]|].
  apply IH; [|done]. intros b Hb. apply Hh. by right.
Qed.

(** The state holds the blocks [l], and nothing else is allocated. *)
Record exc_ok (s : exceptions) l : Prop := {
  exc_seg : lseg (exc_heap s) (exc_cache s) l 0;
  exc_nodup : NoDup l.*1;
  exc_dom : dom (exc_heap s) = list_to_set l.*1;
  exc_blocks : Forall ec_ok l.*2
}.

Definition all_bindings l : list (Z * Z * Z) := concat (bindings <$> l.*2).

Lemma exc_size s l : exc_ok s l → size (exc_heap s) = length l.
Proof.
  intros [_ Hnd Hdom _]. rewrite <- size_dom, Hdom, size_list_to_set by done. by rewrite length_fmap.
Qed.

Lemma exc_head_not_null s a e l : exc_ok s ((a, e) :: l) → (exc_cache s =? 0) = false.
Proof. intros [(-> & Ha & _) _ _ _]. by apply Z.eqb_neq. Qed.

Lemma handler_loop_spec fuel klass pc p s l :
  (length l < fuel)%nat → lseg (exc_heap s) p l 0 → Forall ec_ok l.*2 →
  handler_loop fuel klass pc p s = Some (default 0 (assoc (klass, pc) (all_bindings l))).
Proof.
  revert fuel p. induction l as [|[a e] l IH]; intros [|fuel] p Hf Hl Hok; cbn in Hf; [lia| |lia|].
  - by cbn in Hl; subst.
  - destruct Hl as (-> & Ha & He & Hl). apply Forall_cons in Hok as [Heok Hok]. cbn [snd] in Heok.
    cbn [handler_loop]. rewrite (proj2 (Z.eqb_neq a 0) Ha), He. cbn [mbind option_bind].
    rewrite ec_match_spec by done. cbn [mbind option_bind].
    unfold all_bindings. cbn [fmap list_fmap concat snd]. rewrite assoc_app.
    destruct (assoc (klass, pc) (bindings e)) as [h|] eqn:Hb; cbn [default negb].
    + assert (h ≠ 0) as Hh.
      { apply assoc_elem, list_elem_of_fmap in Hb as ([k h'] & Heq & Hp). simplify_eq/=.
        by eapply pairs_handlers. }
      unfold id. by rewrite (proj2 (Z.eqb_neq h 0) Hh).
    + apply IH; [lia|done|done].
Qed.

Lemma handler_for_spec klass pc s l :
  exc_ok s l →
  handler_for_exception_and_pc klass pc s = Some (default 0 (assoc (klass, pc) (all_bindings l))).
Proof.
  intros Hs. pose proof (exc_size s l Hs) as Hsz. destruct Hs. apply handler_loop_spec; [|done..].
  unfold walk_fuel. lia.
Qed.

(** *** Adding *)

(** The block an addition looks at: the first one of the class with space. *)
Definition space_block (klass : Z) l : option ExceptionCache :=
  head (filter (λ e, match_exception_with_space klass e = true) l.*2).

Lemma entry_loop_spec fuel klass p s l :
  (length l < fuel)%nat → lseg (exc_heap s) p l 0 →
  (entry_loop fuel klass p s = Some 0 ∧ space_block klass l = None) ∨
  ∃ l1 a e l2, l = l1 ++ (a, e) :: l2 ∧ entry_loop fuel klass p s = Some a ∧
    match_exception_with_space klass e = true ∧ space_block klass l = Some e.
Proof.
  revert fuel p. induction l as [|[a e] l IH]; intros [|fuel] p Hf Hl; cbn in Hf; [lia| |lia|].
  - cbn in Hl; subst. by left.
  - destruct Hl as (-> & Ha & He & Hl). cbn [entry_loop]. rewrite (proj2 (Z.eqb_neq a 0) Ha), He. cbn [mbind option_bind].
    unfold space_block. cbn [fmap list_fmap snd]. rewrite filter_cons.
    destruct (match_exception_with_space klass e) eqn:Hm; [right; by exists [], a, e, l|].
    rewrite decide_False by done.
    destruct (IH fuel _ ltac:(lia) Hl) as [[HE HF]|(l1 & b & e' & l2 & -> & HE & Hm' & HF)].
    + by left.
    + right. by exists ((a, e) :: l1), b, e', l2.
Qed.

(** Replacing one block by another with the same link. *)
Lemma exc_ok_update s l1 a e l2 e' :
  exc_ok s (l1 ++ (a, e) :: l2) → ec_ok e' → ec_next e' = ec_next e →
  exc_ok (store_ec a e' s) (l1 ++ (a, e') :: l2).
Proof.
  intros [Hseg Hnd Hdom Hok] He' Hnext.
  rewrite fmap_app, fmap_cons in Hnd, Hdom. rewrite fmap_app, fmap_cons in Hok. cbn [fst snd] in *.
  pose proof Hnd as (Hnd1 & Hdis & (Hnotin & Hnd2)%NoDup_cons)%NoDup_app.
  apply lseg_app in Hseg as (m & Hl1 & -> & Ha & He & Hl2).
  assert (∀ b, b ∈ l1.*1 ∨ b ∈ l2.*1 → <[a:=e']> (exc_heap s) !! b = exc_heap s !! b) as Hframe.
  { intros b Hb. rewrite lookup_insert_ne; [done|]. intros ->. destruct Hb as [Hb|Hb]; [|done].
    apply (Hdis b Hb). left. }
  split; cbn [exc_heap exc_cache store_ec].
  - apply lseg_app. exists a. split; [eapply lseg_frame; [|done]; auto|].
    split_and!; [done|done|by rewrite lookup_insert_eq|]. rewrite Hnext. eapply lseg_frame; [|done]. auto.
  - rewrite fmap_app, fmap_cons. done.
  - rewrite dom_insert_L, Hdom, fmap_app, fmap_cons. cbn [fst]. set_solver.
  - rewrite fmap_app, fmap_cons. cbn [snd].
    apply Forall_app in Hok as [Hok1 [_ Hok2]%Forall_cons]. apply Forall_app. split; [done|]. by constructor.
Qed.

Lemma all_bindings_app l1 l2 : all_bindings (l1 ++ l2) = all_bindings l1 ++ all_bindings l2.
Proof. unfold all_bindings. by rewrite !fmap_app, concat_app. Qed.
Lemma all_bindings_cons a e l : all_bindings ((a, e) :: l) = bindings e ++ all_bindings l.
Proof. done. Qed.

Lemma push_block_spec s l a e :
  exc_ok s l → ec_ok e → ec_next e = 0 → a ≠ 0 → exc_heap s !! a = None →
  ∃ s' e', add_exception_cache_entry a (store_ec a e s) = Some s' ∧ exc_ok s' ((a, e') :: l) ∧
    bindings e' = bindings e.
Proof.
  intros [Hseg Hnd Hdom Hok] He Hnext Ha Hfresh. exists (set_exception_cache a (store_ec a (set_next (exc_cache s) e) s)),
    (set_next (exc_cache s) e). split_and!; [|split|done].
  - unfold add_exception_cache_entry, store_ec, set_exception_cache. cbn [exc_heap exc_cache].
    destruct (Z.eqb_spec (exc_cache s) 0) as [Hz|Hz]; cbn [negb].
    + cbn [mbind option_bind exc_heap]. rewrite Hz. do 3 f_equal. destruct e; cbn in *; by subst.
    + rewrite lookup_insert_eq. cbn [mbind option_bind exc_heap exc_cache]. by rewrite insert_insert_eq.
  - cbn [set_exception_cache store_ec exc_heap exc_cache lseg]. split_and!; [done|done|by rewrite lookup_insert_eq|].
    eapply lseg_frame; [|done]. intros b Hb. apply lookup_insert_ne. intros ->.
    assert (b ∈ dom (exc_heap s)) as Hd by (rewrite Hdom; by apply elem_of_list_to_set). by apply not_elem_of_dom in Hfresh.
  - cbn [fmap list_fmap fst]. apply NoDup_cons. split; [|done]. intros Hb. apply not_elem_of_dom in Hfresh.
    apply Hfresh. rewrite Hdom. by apply elem_of_list_to_set.
  - cbn. rewrite dom_insert_L, Hdom. done.
  - cbn. constructor; [|done]. by destruct He.
Qed.

Section add_spec.
Context (new_address : gmap Z ExceptionCache → Z).
Context (Hnew : ∀ h, new_address h ≠ 0 ∧ h !! new_address h = None).

(** The bindings before and after an addition: nothing changes when the pair is
    in the block looked at, otherwise the binding is put somewhere. *)
Lemma add_handler_blocks klass pc handler s l :
  exc_ok s l → handler ≠ 0 →
  ∃ s' l', add_handler_for_exception_and_pc new_address klass pc handler s = Some s' ∧ exc_ok s' l' ∧
    (match space_block klass l with
     | Some e => assoc pc (pairs e) = Some handler ∧ all_bindings l' = all_bindings l ∧
                   ((klass, pc), handler) ∈ all_bindings l
     | None => False
     end ∨
     (match space_block klass l with Some e => assoc pc (pairs e) ≠ Some handler | None => True end ∧
      ∃ b1 b2, all_bindings l = b1 ++ b2 ∧ all_bindings l' = b1 ++ ((klass, pc), handler) :: b2)).
Proof.
  intros Hs Hh. unfold add_handler_for_exception_and_pc, exception_cache_entry_for_exception.
  destruct (entry_loop_spec (walk_fuel s) klass (exc_cache s) s l) as [[HE HB]|(l1 & a & e & l2 & -> & HE & Hm & HB)];
    [unfold walk_fuel; rewrite (exc_size s l Hs); lia|apply Hs| |]; rewrite HE, HB; cbn [mbind option_bind].
  - unfold add_to_entry. cbn [Z.eqb mbind option_bind].
    destruct (new_ec_spec klass pc handler Hh) as (e & -> & Heok & Hk & Hn & Hp). cbn [mbind option_bind].
    destruct (Hnew (exc_heap s)) as [Ha Hfr].
    destruct (push_block_spec s l _ e Hs Heok Hn Ha Hfr) as (s' & e' & -> & Hs' & Hb).
    exists s', ((new_address (exc_heap s), e') :: l). split; [done|]. split; [done|]. right. split; [done|].
    exists [], (all_bindings l). split; [done|]. rewrite all_bindings_cons, Hb. unfold bindings. by rewrite Hp, Hk.
  - apply andb_prop in Hm as [Hk%Z.eqb_eq Hc%Z.ltb_lt].
    assert (a ≠ 0 ∧ exc_heap s !! a = Some e ∧ ec_ok e) as (Ha & He & Heok).
    { destruct Hs as [Hseg _ _ Hok]. apply lseg_app in Hseg as (? & _ & _ & Ha & He & _).
      rewrite fmap_app, Forall_app, fmap_cons, Forall_cons in Hok. naive_solver. }
    unfold add_to_entry. rewrite (proj2 (Z.eqb_neq a 0) Ha), He. cbn [mbind option_bind].
    destruct (add_address_spec pc handler e Heok Hh) as [[-> Hin]|[(_ & Hfull & _)|(Hnot & _ & pcs & hs & -> & Heok' & Hp)]];
      cbn [mbind option_bind]; [|lia|].
    + exists (store_ec a e s), (l1 ++ (a, e) :: l2). split; [done|]. split; [by eapply exc_ok_update|]. left.
      split; [done|]. split; [done|]. rewrite all_bindings_app, all_bindings_cons, !elem_of_app. right. left.
      apply list_elem_of_fmap. exists (pc, handler). rewrite Hk. split; [done|by apply assoc_elem].
    + eexists _, _. split; [done|]. split; [by eapply exc_ok_update|]. right. split; [done|].
      exists (all_bindings l1 ++ bindings e), (all_bindings l2).
      rewrite !all_bindings_app, !all_bindings_cons, <- !app_assoc. split; [done|].
      unfold bindings at 1. rewrite Hp. cbn [ec_exception_type]. rewrite fmap_app, <- app_assoc. cbn. unfold bindings. by rewrite <- Hk.
Qed.

Lemma add_handler_spec klass pc handler s l :
  exc_ok s l → handler ≠ 0 →
  ∃ s' l', add_handler_for_exception_and_pc new_address klass pc handler s = Some s' ∧ exc_ok s' l' ∧
    ((all_bindings l' = all_bindings l ∧ ((klass, pc), handler) ∈ all_bindings l) ∨
     ∃ b1 b2, all_bindings l = b1 ++ b2 ∧ all_bindings l' = b1 ++ ((klass, pc), handler) :: b2).
Proof.
  intros Hs Hh. destruct (add_handler_blocks klass pc handler s l Hs Hh) as (s' & l' & E & Hs' & Hcase).
  exists s', l'. split; [done|]. split; [done|]. destruct Hcase as [Hc|[_ Hc]]; [left|by right].
  by destruct (space_block klass l); [destruct Hc as (_ & ? & ?)|].
Qed.
End add_spec.

(** *** Cleaning *)

(** Taking a block out of the list. *)
Lemma exc_ok_unlink s l1 a e l2 :
  exc_ok s (l1 ++ (a, e) :: l2) →
  ∃ s' l1', (if default 0 (last l1.*1) =? 0 then Some (set_exception_cache (ec_next e) s)
             else p ← exc_heap s !! default 0 (last l1.*1);
                  Some (store_ec (default 0 (last l1.*1)) (set_next (ec_next e) p) s)) = Some s' ∧
    exc_ok (delete_ec a s') (l1' ++ l2) ∧ l1'.*1 = l1.*1 ∧ all_bindings l1' = all_bindings l1.
Proof.
  intros [Hseg Hnd Hdom Hok]. rewrite fmap_app, fmap_cons in Hnd, Hdom. rewrite fmap_app, fmap_cons in Hok. cbn [fst snd] in *.
  pose proof Hnd as (Hnd1 & Hdis & (Hnotin & Hnd2)%NoDup_cons)%NoDup_app.
  apply lseg_app in Hseg as (m & Hl1 & -> & Ha & He & Hl2).
  assert (NoDup (l1.*1 ++ l2.*1)) as Hnd'.
  { apply NoDup_app. split_and!; [done| |done]. intros x Hx Hx2. apply (Hdis x Hx). by right. }
  assert (a ∉ l1.*1) as Hna by (intros Hx; apply (Hdis a Hx); left).
  apply Forall_app in Hok as [Hok1 [_ Hok2]%Forall_cons].
  destruct (exists_last_or_nil l1) as [->|(l0 & [b f] & ->)].
  - exists (set_exception_cache (ec_next e) s), []. cbn [fmap list_fmap last default app] in *.
    split_and!; [done| |done|done]. split; [|done| |done]; cbn [delete_ec set_exception_cache exc_heap exc_cache].
    + eapply lseg_frame; [|done]. intros x Hx. apply lookup_delete_ne. by intros ->.
    + rewrite dom_delete_L, Hdom. set_solver.
  - rewrite fmap_app in *. cbn [fmap list_fmap fst snd] in *. rewrite last_snoc. cbn [default id].
    apply lseg_app in Hl1 as (m & Hl0 & -> & Hb & Hf & Hnext). cbn in Hnext.
    rewrite (proj2 (Z.eqb_neq b 0) Hb), Hf. cbn [mbind option_bind].
    assert ((b ∉ l0.*1) ∧ (b ∉ l2.*1) ∧ b ≠ a) as (Hb0 & Hb2 & Hba).
    { apply NoDup_app in Hnd1 as (_ & Hd1 & _). split_and!; [intros Hx; apply (Hd1 b Hx); left| |].
      - intros Hx. apply (Hdis b); [set_solver|by right].
      - intros ->. apply Hna. set_solver. }
    eexists _, (l0 ++ [(b, set_next (ec_next e) f)]). split; [done|].
    split; [|split; [by rewrite fmap_app|by rewrite !all_bindings_app]].
    split; cbn [delete_ec store_ec exc_heap exc_cache].
    + rewrite <- app_assoc. apply lseg_app. exists b.
      assert (∀ x, x ∈ l0.*1 ∨ x ∈ l2.*1 →
        delete a (<[b:=set_next (ec_next e) f]> (exc_heap s)) !! x = exc_heap s !! x) as Hframe.
      { intros x Hx. rewrite lookup_delete_ne, lookup_insert_ne; [done|..]; intros ->; set_solver. }
      split; [eapply lseg_frame; [|done]; auto|]. cbn. split_and!; [done|done| |eapply lseg_frame; [|done]; auto].
      by rewrite lookup_delete_ne, lookup_insert_eq by done.
    + by rewrite !fmap_app.
    + rewrite dom_delete_L, dom_insert_L, Hdom, !fmap_app. cbn. set_solver.
    + rewrite !fmap_app. rewrite fmap_app in Hok1. apply Forall_app in Hok1 as [Hk0 [Hkf _]%Forall_cons].
      rewrite !Forall_app. split_and!; [done| |done]. constructor; [|done]. by destruct Hkf.
Qed.

Section clean_spec.
Context (is_loader_alive : Z → bool).

(** The classes whose blocks stay. *)
Definition kept (k : Z) : bool := negb (negb (k =? 0) && negb (is_loader_alive k)).
Definition kept_bindings (bs : list (Z * Z * Z)) : list (Z * Z * Z) := filter (λ b, kept b.1.1 = true) bs.

Lemma kept_all e : kept (ec_exception_type e) = true → kept_bindings (bindings e) = bindings e.
Proof.
  intros Hk. unfold kept_bindings, bindings. induction (pairs e) as [|p ps IH]; [done|].
  rewrite fmap_cons, filter_cons, decide_True by done. by f_equal.
Qed.
Lemma kept_none e : kept (ec_exception_type e) = false → kept_bindings (bindings e) = [].
Proof.
  intros Hk. unfold kept_bindings, bindings. induction (pairs e) as [|p ps IH]; [done|].
  rewrite fmap_cons, filter_cons, decide_False; [done|]. cbn. congruence.
Qed.

Lemma clean_loop_spec fuel s l1 l2 :
  (length l2 < fuel)%nat → exc_ok s (l1 ++ l2) →
  ∃ s' l', clean_loop is_loader_alive fuel (default 0 (last l1.*1)) (default 0 (head l2.*1)) s = Some s' ∧
    exc_ok s' l' ∧ all_bindings l' = all_bindings l1 ++ kept_bindings (all_bindings l2) ∧
    l'.*1 `sublist_of` (l1 ++ l2).*1.
Proof.
  revert fuel s l1. induction l2 as [|[a e] l2 IH]; intros [|fuel] s l1 Hf Hs; cbn [length] in Hf; [lia| |lia|].
  - exists s, l1. rewrite app_nil_r in Hs. split_and!; [done|done| |by rewrite app_nil_r].
    cbn. by rewrite app_nil_r.
  - pose proof Hs as [Hseg _ _ _]. apply lseg_app in Hseg as (? & _ & _ & Ha & He & Hl2).
    assert (ec_next e = default 0 (head l2.*1)) as Hhead.
    { destruct l2 as [|[b f] l2]; cbn in Hl2 |- *; naive_solver. }
    cbn [clean_loop head fmap list_fmap fst default id]. rewrite (proj2 (Z.eqb_neq a 0) Ha), He. cbn [mbind option_bind].
    rewrite all_bindings_cons. unfold kept_bindings at 1. rewrite filter_app.
    change (filter _ ?l) with (kept_bindings l). change (filter _ ?l) with (kept_bindings l).
    destruct (kept (ec_exception_type e)) eqn:Hk; unfold kept in Hk; [apply negb_true_iff in Hk|apply negb_false_iff in Hk];
      rewrite Hk.
    + rewrite Hhead. destruct (IH fuel s (l1 ++ [(a, e)])) as (s' & l' & Er & Hs' & Hb & Hsub);
        [lia|by rewrite <- app_assoc|].
      rewrite fmap_app in Er. cbn [fmap list_fmap fst] in Er. rewrite last_snoc in Er.
      exists s', l'. split; [exact Er|]. split; [done|]. rewrite <- app_assoc in Hsub. split; [|done].
      rewrite Hb, all_bindings_app, all_bindings_cons, (kept_all e) by (unfold kept; by rewrite Hk).
      unfold all_bindings at 2. cbn. by rewrite app_nil_r, <- app_assoc.
    + destruct (exc_ok_unlink s l1 a e l2 Hs) as (s1 & l1' & -> & Hs1 & Hk1 & Hb1). cbn [mbind option_bind].
      rewrite Hhead, <- Hk1.
      destruct (IH fuel (delete_ec a s1) l1') as (s' & l' & Er & Hs' & Hb & Hsub); [lia|done|].
      exists s', l'. split; [exact Er|]. split; [done|].
      rewrite (kept_none e) by (unfold kept; by rewrite Hk). split; [by rewrite Hb, Hb1|].
      etrans; [exact Hsub|]. rewrite !fmap_app, Hk1. apply sublist_app; [done|]. cbn. by constructor.
Qed.

Lemma clean_spec s l :
  exc_ok s l →
  ∃ s' l', clean_exception_cache is_loader_alive s = Some s' ∧ exc_ok s' l' ∧
    all_bindings l' = kept_bindings (all_bindings l).
Proof.
  intros Hs. unfold clean_exception_cache.
  destruct (clean_loop_spec (walk_fuel s) s [] l) as (s' & l' & Er & Hs' & Hb & _);
    [unfold walk_fuel; rewrite (exc_size s l Hs); lia|done|].
  exists s', l'. split; [|done]. rewrite <- Er. f_equal.
  destruct Hs as [Hseg _ _ _]. destruct l as [|[a e] l]; cbn in Hseg |- *; naive_solver.
Qed.
End clean_spec.

(** *** Flushing *)

Lemma flush_loop_spec fuel p s l :
  (length l < fuel)%nat → lseg (exc_heap s) p l 0 → NoDup l.*1 →
  ∃ h', flush_loop fuel p s = Some (mkExc h' (exc_cache s)) ∧ dom h' = dom (exc_heap s) ∖ list_to_set l.*1.
Proof.
  revert fuel p s. induction l as [|[a e] l IH]; intros [|fuel] p s Hf Hl Hnd; cbn [length] in Hf; [lia| |lia|].
  - cbn in Hl. subst. exists (exc_heap s). split; [by destruct s|]. set_solver.
  - destruct Hl as (-> & Ha & He & Hl). apply NoDup_cons in Hnd as [Hn Hnd]. cbn [fst] in Hn.
    cbn [flush_loop]. rewrite (proj2 (Z.eqb_neq a 0) Ha), He. cbn [mbind option_bind].
    destruct (IH fuel (ec_next e) (delete_ec a s)) as (h' & Er & Hd); [lia| |done|].
    { eapply lseg_frame; [|done]. intros b Hb. apply lookup_delete_ne. by intros ->. }
    exists h'. split; [done|]. rewrite Hd. cbn. rewrite dom_delete_L. set_solver.
Qed.

Lemma flush_spec s l : exc_ok s l → flush_exception_cache s = Some no_exceptions.
Proof.
  intros Hs. unfold flush_exception_cache.
  destruct (flush_loop_spec (walk_fuel s) (exc_cache s) (set_exception_cache 0 s) l) as (h' & -> & Hd);
    [unfold walk_fuel; rewrite (exc_size s l Hs); lia|apply Hs|apply Hs|].
  cbn in Hd. rewrite (exc_dom s l Hs), difference_diag_L in Hd. by apply dom_empty_inv_L in Hd as ->.
Qed.

(** ** The cache as a map *)

(** The operations that change the cache; cleaning is given the liveness of
    class loaders. *)
Inductive cache_op :=
  | AddHandler (klass pc handler : Z)
  | CleanCache (is_loader_alive : Z → bool)
  | FlushCache.

Definition run_op (new_address : gmap Z ExceptionCache → Z) (op : cache_op) : M exceptions unit := λ s,
  s ← match op with
      | AddHandler klass pc handler => add_handler_for_exception_and_pc new_address klass pc handler s
      | CleanCache alive => clean_exception_cache alive s
      | FlushCache => flush_exception_cache s
      end;
  Some (tt, s).

(** What it means: handlers by class and pc. *)
Definition spec_op (op : cache_op) (m : gmap (Z * Z) Z) : gmap (Z * Z) Z :=
  match op with
  | AddHandler klass pc handler => <[(klass, pc) := handler]> m
  | CleanCache alive => filter (λ b, kept alive b.1.1 = true) m
  | FlushCache => ∅
  end.
Definition spec_ops (ops : list cache_op) (m : gmap (Z * Z) Z) : gmap (Z * Z) Z := foldl (λ m op, spec_op op m) m ops.

(** The handler of a class at a pc does not change while it is cached. *)
Fixpoint ops_ok (ops : list cache_op) (m : gmap (Z * Z) Z) : Prop :=
  match ops with
  | [] => True
  | op :: ops' =>
      match op with
      | AddHandler klass pc handler =>
          handler ≠ 0 ∧ (m !! (klass, pc) = None ∨ m !! (klass, pc) = Some handler)
      | _ => True
      end ∧ ops_ok ops' (spec_op op m)
  end.

#[global] Instance ops_ok_dec ops m : Decision (ops_ok ops m).
Proof.
  revert m. induction ops as [|op ops IH]; intros m; cbn [ops_ok]; [apply _|].
  apply and_dec; [destruct op; apply _|apply IH].
Defined.

(** The abstraction relation. *)
Definition holds (bs : list (Z * Z * Z)) (m : gmap (Z * Z) Z) : Prop :=
  ∀ key v, (key, v) ∈ bs ↔ m !! key = Some v.
Definition represents (s : exceptions) (m : gmap (Z * Z) Z) : Prop :=
  ∃ l, exc_ok s l ∧ holds (all_bindings l) m.

Lemma holds_assoc bs m key : holds bs m → assoc key bs = m !! key.
Proof.
  intros Hm. destruct (assoc key bs) as [v|] eqn:Ha.
  - symmetry. by apply Hm, assoc_elem.
  - symmetry. apply eq_None_not_Some. intros [v Hv]. apply Hm in Hv. by eapply assoc_None.
Qed.

Lemma holds_insert b1 b2 m key v :
  holds (b1 ++ b2) m → m !! key = None ∨ m !! key = Some v → holds (b1 ++ (key, v) :: b2) (<[key := v]> m).
Proof.
  intros Hm Hold key' v'. specialize (Hm key' v'). rewrite elem_of_app, elem_of_cons in *.
  destruct (decide (key = key')) as [<-|Hne].
  - rewrite lookup_insert_eq. destruct Hold as [Hn|Hn]; rewrite Hn in Hm; naive_solver.
  - rewrite lookup_insert_ne by done. naive_solver.
Qed.

Lemma represents_empty : represents no_exceptions ∅.
Proof.
  exists []. split; [split; [done|constructor|done|constructor]|].
  intros key v. split; [by intros ?%elem_of_nil|by rewrite lookup_empty].
Qed.

Section refinement.
Context (new_address : gmap Z ExceptionCache → Z).
Context (Hnew : ∀ h, new_address h ≠ 0 ∧ h !! new_address h = None).

Lemma add_represents s m klass pc handler :
  represents s m → handler ≠ 0 → m !! (klass, pc) = None ∨ m !! (klass, pc) = Some handler →
  ∃ s', add_handler_for_exception_and_pc new_address klass pc handler s = Some s' ∧
    represents s' (<[(klass, pc) := handler]> m).
Proof.
  intros (l & Hs & Hm) Hh Hold.
  destruct (add_handler_spec new_address Hnew klass pc handler s l Hs Hh) as (s' & l' & E & Hs' & Hb).
  exists s'. split; [done|]. exists l'. split; [done|].
  destruct Hb as [[-> Hin]|(b1 & b2 & Hb & ->)]; [|apply holds_insert; [by rewrite <- Hb|done]].
  apply Hm in Hin. by rewrite insert_id.
Qed.

Lemma clean_represents s m alive :
  represents s m →
  ∃ s', clean_exception_cache alive s = Some s' ∧ represents s' (filter (λ b, kept alive b.1.1 = true) m).
Proof.
  intros (l & Hs & Hm). destruct (clean_spec alive s l Hs) as (s' & l' & E & Hs' & Hb).
  exists s'. split; [done|]. exists l'. split; [done|]. intros key v. rewrite Hb. unfold kept_bindings.
  rewrite list_elem_of_filter, map_lookup_filter_Some, (Hm key v). tauto.
Qed.

Lemma ops_represent ops s m :
  represents s m → ops_ok ops m →
  ∃ s', mforeach (run_op new_address) ops s = Some (tt, s') ∧ represents s' (spec_ops ops m).
Proof.
  revert s m. induction ops as [|op ops IH]; intros s m Hs Hops; [by exists s|]. destruct Hops as [Hop Hops].
  assert (∃ s1, run_op new_address op s = Some (tt, s1) ∧ represents s1 (spec_op op m)) as (s1 & E1 & Hs1).
  { unfold run_op. destruct op as [klass pc handler|alive|].
    - destruct Hop as [Hh Hold]. destruct (add_represents s m klass pc handler Hs Hh Hold) as (s1 & -> & ?). by exists s1.
    - destruct (clean_represents s m alive Hs) as (s1 & -> & ?). by exists s1.
    - destruct Hs as (l & Hl & _). rewrite (flush_spec s l Hl). exists no_exceptions. split; [done|apply represents_empty]. }
  destruct (IH s1 (spec_op op m) Hs1 Hops) as (s' & E & Hs'). exists s'. split; [|done].
  cbn [mforeach]. by rewrite (M_bind_Some _ _ _ _ _ E1).
Qed.
End refinement.

(** C16: The exception cache is a map. Whatever addresses the C heap hands out,
    any sequence of additions, cleanings and flushes that adds no null handler and
    adds no pair of class and pc again with another handler while the pair is
    cached ([ops_ok]) runs to the end, and then a lookup gives exactly the handler
    that a finite map from (class, pc) gives: the handler added, unless the class
    was unloaded or the cache flushed since, and null otherwise. No block is lost:
    a final flush leaves nothing allocated. *)
Theorem exception_cache_refines_map new_address ops :
  (∀ h, new_address h ≠ 0 ∧ h !! new_address h = None) → ops_ok ops ∅ →
  ∃ s, mforeach (run_op new_address) ops no_exceptions = Some (tt, s) ∧
    (∀ klass pc, handler_for_exception_and_pc klass pc s = Some (default 0 (spec_ops ops ∅ !! (klass, pc)))) ∧
    flush_exception_cache s = Some no_exceptions.
Proof.
  intros Hnew Hops. destruct (ops_represent new_address Hnew ops _ _ represents_empty Hops) as (s & E & l & Hs & Hm).
  exists s. split; [done|]. split; [|by eapply flush_spec].
  intros klass pc. by rewrite (handler_for_spec klass pc s l Hs), (holds_assoc _ _ _ Hm).
Qed.

(** An allocator: the address after the largest in use. *)
Definition bump_address (h : gmap Z ExceptionCache) : Z := 1 + foldr Z.max 0 (map_to_list h).*1.

Lemma bump_address_new h : bump_address h ≠ 0 ∧ h !! bump_address h = None.
Proof.
  assert (∀ l : list Z, 0 ≤ foldr Z.max 0 l ∧ ∀ x, x ∈ l → x ≤ foldr Z.max 0 l) as Hmax.
  { induction l as [|y l [IH0 IH]]; cbn; [split; [lia|by intros x ?%elem_of_nil]|].
    split; [lia|]. intros x [->|Hx]%elem_of_cons; [lia|]. specialize (IH x Hx). lia. }
  destruct (Hmax (map_to_list h).*1) as [H0 Hle]. unfold bump_address. split; [lia|].
  apply eq_None_not_Some. intros [e He]. apply elem_of_map_to_list in He.
  apply (list_elem_of_fmap_2 fst), Hle in He. cbn [fst] in He. lia.
Qed.

(** Seventeen handlers of one class, one of another, which is unloaded. *)
Definition example_adds : list cache_op := (λ i, AddHandler 7 (Z.of_nat i) (1000 + Z.of_nat i)) <$> seq 1 17.
Definition example_ops : list cache_op :=
  example_adds ++ [AddHandler 9 3 500; CleanCache (λ k, negb (k =? 9)); AddHandler 7 1 1001].

Lemma example_ops_ok : ops_ok example_ops ∅.
Proof. apply (bool_decide_unpack _). vm_compute. exact I. Qed.

Lemma exception_cache_refines_map_witness :
  ∃ s, mforeach (run_op bump_address) example_ops no_exceptions = Some (tt, s) ∧
    handler_for_exception_and_pc 7 17 s = Some 1017 ∧ handler_for_exception_and_pc 9 3 s = Some 0.
Proof.
  destruct (exception_cache_refines_map bump_address example_ops bump_address_new example_ops_ok) as (s & E & Hh & _).
  exists s. split; [exact E|]. rewrite !Hh. split; vm_compute; reflexivity.
Defined.

(** The copies of a binding in all blocks. *)
Definition copies (b : Z * Z * Z) l : nat := length (filter (λ b', b' = b) (all_bindings l)).

Lemma copies_split b b' l1 l2 bs1 bs2 :
  all_bindings l1 = bs1 ++ bs2 → all_bindings l2 = bs1 ++ b :: bs2 →
  copies b' l2 = (copies b' l1 + if decide (b' = b) then 1 else 0)%nat.
Proof.
  intros H1 H2. unfold copies. rewrite H1, H2, !filter_app, !length_app, filter_cons.
  destruct (decide (b' = b)) as [->|Hne].
  - rewrite decide_True by done. cbn [length]. lia.
  - rewrite decide_False by congruence. lia.
Qed.

(** C40: What [add_handler_for_exception_and_pc] checks for already inserted copies
    is one block, the first of the class with space. In every state of the cache,
    an addition leaves the copies of all other bindings alone and stores a further
    copy of its own binding exactly if that one block does not have it: so whenever
    all blocks that hold the binding are full, it is stored again. *)
Theorem exception_cache_adds_copy new_address s l klass pc handler :
  (∀ h, new_address h ≠ 0 ∧ h !! new_address h = None) → exc_ok s l → handler ≠ 0 →
  let b := ((klass, pc), handler) in
  ∃ s' l', add_handler_for_exception_and_pc new_address klass pc handler s = Some s' ∧ exc_ok s' l' ∧
    (∀ b', b' ≠ b → copies b' l' = copies b' l) ∧
    (match space_block klass l with Some e => assoc pc (pairs e) = Some handler | None => False end →
     copies b l' = copies b l) ∧
    (match space_block klass l with Some e => assoc pc (pairs e) ≠ Some handler | None => True end →
     copies b l' = S (copies b l)) ∧
    (Forall (λ e, b ∈ bindings e → ec_count e = ec_cache_size) l.*2 → copies b l' = S (copies b l)).
Proof.
  intros Hnew Hs Hh b. destruct (add_handler_blocks new_address Hnew klass pc handler s l Hs Hh) as (s' & l' & E & Hs' & Hcase).
  exists s', l'. split; [done|]. split; [done|].
  assert (∀ e, space_block klass l = Some e → e ∈ l.*2 ∧ ec_exception_type e = klass ∧ ec_count e < ec_cache_size) as Hblock.
  { intros e He. apply head_Some in He as [rest He].
    assert (e ∈ filter (λ e, match_exception_with_space klass e = true) l.*2) as Hin by (rewrite He; left).
    apply list_elem_of_filter in Hin as [[Hk%Z.eqb_eq Hc%Z.ltb_lt]%andb_prop Hin]. done. }
  destruct Hcase as [Hc|(Hc & b1 & b2 & Hb & Hb')].
  - destruct (space_block klass l) as [e|]; [|done]. destruct Hc as (Hin & Hb & _).
    assert (∀ b', copies b' l' = copies b' l) as Hsame by (intros b'; unfold copies; by rewrite Hb).
    split_and!; [done..|]. rewrite Forall_forall. intros Hfull. exfalso. destruct (Hblock e eq_refl) as (He & Hk & Hlt).
    enough (ec_count e = ec_cache_size) by lia. apply Hfull; [done|]. unfold b, bindings. rewrite Hk.
    apply list_elem_of_fmap. exists (pc, handler). split; [done|by apply assoc_elem].
  - pose proof (λ b', copies_split b b' l l' b1 b2 Hb Hb') as Hcopies. split_and!.
    + intros b' Hne. rewrite Hcopies, decide_False by done. lia.
    + intros Hin. destruct (space_block klass l); [done|done].
    + intros _. rewrite Hcopies, decide_True by done. lia.
    + intros _. rewrite Hcopies, decide_True by done. lia.
Qed.

(** A full block and a block with space, both of class 7; the pair is in the full one. *)
Definition full_block : ExceptionCache := mkEC 7 (seqZ 1 16) (seqZ 1001 16) 16 0.
Definition open_block : ExceptionCache := mkEC 7 (replicate 16 17) (replicate 16 1017) 1 4096.
Definition example_cache : exceptions := mkExc (<[8192 := open_block]> {[ 4096 := full_block ]}) 8192.

Lemma example_cache_ok : exc_ok example_cache [(8192, open_block); (4096, full_block)].
Proof.
  split; [done|by apply (bool_decide_unpack _)| |].
  - unfold example_cache, exc_heap. rewrite dom_insert_L, dom_singleton_L. set_solver.
  - repeat constructor; cbn; try lia; try done; repeat constructor; lia.
Qed.

Lemma exception_cache_adds_copy_witness :
  ∃ s' l', add_handler_for_exception_and_pc bump_address 7 1 1001 example_cache = Some s' ∧
    exc_ok s' l' ∧ copies ((7, 1), 1001) l' = 2%nat.
Proof.
  destruct (exception_cache_adds_copy bump_address example_cache [(8192, open_block); (4096, full_block)] 7 1 1001
    bump_address_new example_cache_ok ltac:(done)) as (s' & l' & E & Hs' & _ & _ & _ & Hcopy).
  exists s', l'. split; [exact E|]. split; [exact Hs'|]. rewrite Hcopy; [reflexivity|].
  constructor; [|constructor; [reflexivity|constructor]].
  intros Hin. exfalso. apply list_elem_of_In in Hin. vm_compute in Hin. destruct Hin as [Hin|Hin]; [discriminate Hin|exact Hin].
Defined.
