(* ===== verification/ExceptionCacheReader.v ===== *)
(** * Lock-free readers of the exception cache

    [nmethod::handler_for_exception_and_pc] reads the exception cache without a
    lock while [add_handler_for_exception_and_pc], under its lock, stores to it.
    Here an addition is the sequence of its stores, a lookup the sequence of its
    loads, and both interleave in any order (sequentially consistent memory). *)

From stdpp Require Import base numbers list gmap fin_sets relations.
From S2P Require Import Prelude ExceptionCache.
Local Open Scope Z_scope.

(** ** The stores of an addition *)

Inductive store :=
  | StorePc (ec i v : Z)
  | StoreHandler (ec i v : Z)
  | StoreCount (ec n : Z)
  | AllocBlock (ec : Z) (e : ExceptionCache)
  | StoreNext (ec next : Z)
  | StoreHead (ec : Z).

Definition exec_store (st : store) (s : exceptions) : option exceptions :=
  match st with
  | StorePc ec i v => e ← exc_heap s !! ec; e ← set_pc_at i v e; Some (store_ec ec e s)
  | StoreHandler ec i v => e ← exc_heap s !! ec; e ← set_handler_at i v e; Some (store_ec ec e s)
  | StoreCount ec n =>
      e ← exc_heap s !! ec;
      Some (store_ec ec (mkEC (ec_exception_type e) (ec_pc e) (ec_handler e) n (ec_next e)) s)
  | AllocBlock ec e => Some (store_ec ec e s)
  | StoreNext ec next => e ← exc_heap s !! ec; Some (store_ec ec (set_next next e) s)
  | StoreHead ec => Some (set_exception_cache ec s)
  end.

Fixpoint exec_stores (sts : list store) (s : exceptions) : option exceptions :=
  match sts with
  | [] => Some s
  | st :: sts' => s ← exec_store st s; exec_stores sts' s
  end.

Section stores.
Context (new_address : gmap Z ExceptionCache → Z).

(** The constructor's own stores are to memory no reader can reach. *)
Definition new_block_stores (klass pc handler : Z) (s : exceptions) : option (list store) :=
  e ← new_ExceptionCache klass pc handler;
  let a := new_address (exc_heap s) in
  Some (AllocBlock a e :: (if negb (exc_cache s =? 0) then [StoreNext a (exc_cache s)] else []) ++ [StoreHead a]).

Definition add_stores (klass pc handler : Z) (s : exceptions) : option (list store) :=
  target_entry ← exception_cache_entry_for_exception klass s;
  if target_entry =? 0 then new_block_stores klass pc handler s
  else
    e ← exc_heap s !! target_entry;
    h ← test_address pc e;
    if h =? handler then Some []
    else if ec_count e <? ec_cache_size then
      Some [StorePc target_entry (ec_count e) pc; StoreHandler target_entry (ec_count e) handler;
            StoreCount target_entry (ec_count e + 1)]
    else new_block_stores klass pc handler s.

Lemma new_block_stores_exec klass pc handler s sts :
  new_block_stores klass pc handler s = Some sts →
  exec_stores sts s =
    (e ← new_ExceptionCache klass pc handler;
     add_exception_cache_entry (new_address (exc_heap s)) (store_ec (new_address (exc_heap s)) e s)).
Proof.
  unfold new_block_stores, add_exception_cache_entry. destruct (new_ExceptionCache klass pc handler) as [e|]; [|done].
  cbn [mbind option_bind]. intros [= <-]. cbn [exec_stores exec_store mbind option_bind exc_cache store_ec].
  destruct (exc_cache s =? 0); cbn [negb app exec_stores exec_store mbind option_bind]; [done|].
  cbn [exc_heap store_ec]. by rewrite lookup_insert_eq.
Qed.

(** Executed without interruption the stores are the addition. *)
Lemma add_stores_exec klass pc handler s sts :
  add_stores klass pc handler s = Some sts →
  exec_stores sts s = add_handler_for_exception_and_pc new_address klass pc handler s.
Proof.
  unfold add_stores, add_handler_for_exception_and_pc, add_to_entry.
  destruct (exception_cache_entry_for_exception klass s) as [a|]; [|done]. cbn [mbind option_bind].
  destruct (a =? 0); [by apply new_block_stores_exec|].
  destruct (exc_heap s !! a) as [e|] eqn:He; [|done]. cbn [mbind option_bind]. unfold add_address_and_handler.
  assert (store_ec a e s = s) as Hsame by (unfold store_ec; rewrite insert_id by done; by destruct s).
  destruct (test_address pc e) as [h|]; [|done]. cbn [mbind option_bind].
  destruct (h =? handler); [intros [= <-]; cbn [mbind option_bind exec_stores]; by rewrite Hsame|].
  destruct (ec_count e <? ec_cache_size).
  - intros [= <-]. cbn [exec_stores exec_store]. rewrite He. cbn [mbind option_bind].
    destruct (set_pc_at (ec_count e) pc e) as [e1|] eqn:H1; cbn [mbind option_bind]; [|done].
    assert (ec_count e1 = ec_count e) as Hc1
      by (unfold set_pc_at in H1; destruct (zset _ _ _); [by injection H1 as <-|done]).
    cbn [exc_heap store_ec]. rewrite lookup_insert_eq. cbn [mbind option_bind]. rewrite Hc1.
    destruct (set_handler_at (ec_count e) handler e1) as [e2|] eqn:H2; cbn [mbind option_bind]; [|done].
    assert (ec_count e2 = ec_count e1) as Hc2
      by (unfold set_handler_at in H2; destruct (zset _ _ _); [by injection H2 as <-|done]).
    cbn [exc_heap exc_cache store_ec]. rewrite lookup_insert_eq. cbn [mbind option_bind].
    unfold store_ec. cbn [exc_heap exc_cache]. rewrite !insert_insert_eq. unfold increment_count. by rewrite Hc2, Hc1.
  - intros Hsts. cbn [mbind option_bind]. rewrite Hsame. by apply new_block_stores_exec.
Qed.
End stores.

(** ** The loads of a lookup *)

Inductive reader :=
  | Start                    (* about to load the head *)
  | AtBlock (ec : Z)         (* about to load the class of a block *)
  | Scanning (ec i : Z)      (* about to load the count *)
  | Testing (ec i : Z)       (* about to load pc [i] *)
  | Loading (ec i : Z)       (* about to load handler [i] *)
  | Advance (ec : Z)         (* about to load the link *)
  | Done (v : Z).

Section reading.
Context (klass pc : Z).

Definition read_step (s : exceptions) (r : reader) : option reader :=
  match r with
  | Start => Some (AtBlock (exc_cache s))
  | AtBlock ec =>
      if ec =? 0 then Some (Done 0)
      else e ← exc_heap s !! ec; Some (if klass =? ec_exception_type e then Scanning ec 0 else Advance ec)
  | Scanning ec i => e ← exc_heap s !! ec; Some (if i <? ec_count e then Testing ec i else Advance ec)
  | Testing ec i =>
      e ← exc_heap s !! ec; a ← pc_at i e; Some (if a =? pc then Loading ec i else Scanning ec (i + 1))
  | Loading ec i =>
      e ← exc_heap s !! ec; h ← handler_at i e; Some (if negb (h =? 0) then Done h else Advance ec)
  | Advance ec => e ← exc_heap s !! ec; Some (AtBlock (ec_next e))
  | Done v => None
  end.

(** ** Interleaving *)

Record config := mkCfg {
  mem : exceptions;
  pending : list store;
  adds : list (Z * Z * Z);
  rd : reader
}.

Context (new_address : gmap Z ExceptionCache → Z).

Inductive sys_step : config → config → Prop :=
  | begin_step s k a h l r sts :
      add_stores new_address k a h s = Some sts →
      sys_step (mkCfg s [] ((k, a, h) :: l) r) (mkCfg s sts l r)
  | store_step s s' st sts l r :
      exec_store st s = Some s' → sys_step (mkCfg s (st :: sts) l r) (mkCfg s' sts l r)
  | load_step s sts l r r' :
      read_step s r = Some r' → sys_step (mkCfg s sts l r) (mkCfg s sts l r').
End reading.

(** ** The writer *)

Implicit Types (s : exceptions) (l : list (Z * ExceptionCache)) (m : gmap (Z * Z) Z).

(** A block grows: only pairs are added. *)
Definition grows (x y : Z * ExceptionCache) : Prop :=
  x.1 = y.1 ∧ ec_exception_type x.2 = ec_exception_type y.2 ∧ ec_next x.2 = ec_next y.2 ∧
  pairs x.2 `prefix_of` pairs y.2.

#[global] Instance grows_refl : Reflexive grows.
Proof. by intros x. Qed.

(** The list as readers see it, whatever else is allocated. *)
Record chain s l : Prop := {
  chain_seg : lseg (exc_heap s) (exc_cache s) l 0;
  chain_nodup : NoDup l.*1;
  chain_blocks : Forall ec_ok l.*2
}.

Lemma exc_ok_chain s l : exc_ok s l → chain s l.
Proof. intros []. by split. Qed.

(** Where the writer is: between additions; storing to a block with space; or
    linking a new block. [k], [a], [v] is the pair of the addition under way. *)
Inductive writing (key : Z * Z) (v : Z) : exceptions → list store → list (Z * ExceptionCache) → Prop :=
  | w_idle s l : exc_ok s l → (key, v) ∈ all_bindings l → writing key v s [] l
  | w_pc s l1 b e l2 :
      exc_ok s (l1 ++ (b, e) :: l2) → ec_count e < ec_cache_size → ec_exception_type e = key.1 →
      writing key v s [StorePc b (ec_count e) key.2; StoreHandler b (ec_count e) v; StoreCount b (ec_count e + 1)]
        (l1 ++ (b, e) :: l2)
  | w_handler s l1 b e l2 :
      exc_ok s (l1 ++ (b, e) :: l2) → ec_count e < ec_cache_size → ec_exception_type e = key.1 →
      pc_at (ec_count e) e = Some key.2 →
      writing key v s [StoreHandler b (ec_count e) v; StoreCount b (ec_count e + 1)] (l1 ++ (b, e) :: l2)
  | w_count s l1 b e l2 :
      exc_ok s (l1 ++ (b, e) :: l2) → ec_count e < ec_cache_size → ec_exception_type e = key.1 →
      pc_at (ec_count e) e = Some key.2 → handler_at (ec_count e) e = Some v →
      writing key v s [StoreCount b (ec_count e + 1)] (l1 ++ (b, e) :: l2)
  | w_alloc s l b e :
      exc_ok s l → b ≠ 0 → exc_heap s !! b = None → ec_ok e → ec_next e = 0 → bindings e = [(key, v)] →
      writing key v s (AllocBlock b e :: (if negb (exc_cache s =? 0) then [StoreNext b (exc_cache s)] else [])
                         ++ [StoreHead b]) l
  | w_next s l b e :
      exc_ok (delete_ec b s) l → b ≠ 0 → exc_heap s !! b = Some e → ec_ok e → bindings e = [(key, v)] →
      writing key v s [StoreNext b (exc_cache s); StoreHead b] l
  | w_head s l b e :
      exc_ok (delete_ec b s) l → b ≠ 0 → exc_heap s !! b = Some e → ec_ok e → bindings e = [(key, v)] →
      ec_next e = exc_cache s → writing key v s [StoreHead b] l.

Lemma exc_ok_delete_chain s l b : exc_ok (delete_ec b s) l → chain s l.
Proof.
  intros [Hseg Hnd Hdom Hok]. split; [|done..]. eapply lseg_frame; [|exact Hseg].
  intros x Hx. cbn. rewrite lookup_delete_ne; [done|]. intros <-.
  assert (b ∈ dom (exc_heap (delete_ec b s))) as Hb by (rewrite Hdom; by apply elem_of_list_to_set).
  cbn in Hb. set_solver.
Qed.

#[local] Hint Resolve exc_ok_chain exc_ok_delete_chain : core.

Lemma writing_chain key v s sts l : writing key v s sts l → chain s l.
Proof. destruct 1; eauto. Qed.

(** The block of an addition, as the writer sees it. *)
Lemma block_in s l1 b e l2 :
  exc_ok s (l1 ++ (b, e) :: l2) → exc_heap s !! b = Some e ∧ ec_ok e.
Proof.
  intros [Hseg _ _ Hok]. apply lseg_app in Hseg as (? & _ & _ & _ & He & _).
  rewrite fmap_app, Forall_app, fmap_cons, Forall_cons in Hok. naive_solver.
Qed.

(** Stores at or above the count change no pair. *)
Lemma beyond_count e pcs hs :
  ec_ok e → zlen pcs = ec_cache_size → zlen hs = ec_cache_size →
  take (Z.to_nat (ec_count e)) pcs = take (Z.to_nat (ec_count e)) (ec_pc e) →
  take (Z.to_nat (ec_count e)) hs = take (Z.to_nat (ec_count e)) (ec_handler e) →
  let e' := mkEC (ec_exception_type e) pcs hs (ec_count e) (ec_next e) in ec_ok e' ∧ pairs e' = pairs e.
Proof.
  intros [H1 H2 H3 H4] Hp Hh Ep Eh e'. unfold pairs. cbn [e' ec_pc ec_handler ec_count]. rewrite Ep, Eh.
  split; [|done]. split; cbn [e' ec_pc ec_handler ec_count]; [done|done|done|by rewrite Eh].
Qed.

(** What a reader may rely on: blocks stay, linked as they are, and grow. *)
Definition evolves l l' : Prop := ∃ pre l1, l' = pre ++ l1 ∧ Forall2 grows l l1.

#[global] Instance evolves_refl : Reflexive evolves.
Proof. intros l. exists [], l. split; [done|]. by apply Forall_Forall2_diag, Forall_true. Qed.

Lemma evolves_update l1 b e e' l2 :
  grows (b, e) (b, e') → evolves (l1 ++ (b, e) :: l2) (l1 ++ (b, e') :: l2).
Proof.
  intros He. exists [], (l1 ++ (b, e') :: l2). split; [done|].
  apply Forall2_app; [by apply Forall_Forall2_diag, Forall_true|].
  constructor; [done|by apply Forall_Forall2_diag, Forall_true].
Qed.

Lemma all_bindings_update l1 b e e' l2 :
  bindings e' = bindings e → all_bindings (l1 ++ (b, e') :: l2) = all_bindings (l1 ++ (b, e) :: l2).
Proof. intros He. by rewrite !all_bindings_app, !all_bindings_cons, He. Qed.

(** A store to a block that leaves its pairs alone. *)
Lemma store_hidden s l1 b e l2 e' :
  exc_ok s (l1 ++ (b, e) :: l2) → ec_ok e' → pairs e' = pairs e →
  ec_exception_type e' = ec_exception_type e → ec_next e' = ec_next e →
  exc_ok (store_ec b e' s) (l1 ++ (b, e') :: l2) ∧ evolves (l1 ++ (b, e) :: l2) (l1 ++ (b, e') :: l2) ∧
  all_bindings (l1 ++ (b, e') :: l2) = all_bindings (l1 ++ (b, e) :: l2).
Proof.
  intros Hs He' Hp Ht Hn. split_and!; [by eapply exc_ok_update|apply evolves_update|apply all_bindings_update].
  - by split_and!; cbn; [..|rewrite Hp].
  - unfold bindings. by rewrite Hp, Ht.
Qed.

(** The bindings after a store: the same until the last store of an addition. *)
Definition visible (key : Z * Z) (v : Z) (sts : list store) l l' : Prop :=
  (sts ≠ [] ∧ all_bindings l' = all_bindings l) ∨
  (sts = [] ∧ ∃ b1 b2, all_bindings l = b1 ++ b2 ∧ all_bindings l' = b1 ++ (key, v) :: b2).

Lemma step_pc key v s l1 b e l2 :
  exc_ok s (l1 ++ (b, e) :: l2) → ec_count e < ec_cache_size → ec_exception_type e = key.1 →
  ∃ s' e', exec_store (StorePc b (ec_count e) key.2) s = Some s' ∧ ec_count e' = ec_count e ∧
    writing key v s' [StoreHandler b (ec_count e') v; StoreCount b (ec_count e' + 1)] (l1 ++ (b, e') :: l2) ∧
    evolves (l1 ++ (b, e) :: l2) (l1 ++ (b, e') :: l2) ∧
    all_bindings (l1 ++ (b, e') :: l2) = all_bindings (l1 ++ (b, e) :: l2).
Proof.
  intros Hs Hc Ht. destruct (block_in _ _ _ _ _ Hs) as [Hb He]. pose proof He as [H1 H2 H3 _].
  set (e' := mkEC (ec_exception_type e) (<[Z.to_nat (ec_count e) := key.2]> (ec_pc e)) (ec_handler e) (ec_count e) (ec_next e)).
  assert (ec_ok e' ∧ pairs e' = pairs e) as [He' Hp'].
  { apply beyond_count; [done|by unfold zlen; rewrite length_insert|done|by rewrite take_insert_ge by lia|done]. }
  destruct (store_hidden s l1 b e l2 e') as (Hs' & Hev & Hall); [done..|].
  exists (store_ec b e' s), e'. cbn [exec_store]. rewrite Hb. cbn [mbind option_bind]. unfold set_pc_at.
  rewrite zset_eq by lia. cbn [mbind option_bind]. split; [done|]. split; [done|]. split; [|done].
  apply w_handler; [done|done|done|]. unfold pc_at. cbn [e' ec_pc ec_count]. rewrite zget_insert by lia. by rewrite decide_True.
Qed.

Lemma step_handler key v s l1 b e l2 :
  exc_ok s (l1 ++ (b, e) :: l2) → ec_count e < ec_cache_size → ec_exception_type e = key.1 →
  pc_at (ec_count e) e = Some key.2 →
  ∃ s' e', exec_store (StoreHandler b (ec_count e) v) s = Some s' ∧ ec_count e' = ec_count e ∧
    writing key v s' [StoreCount b (ec_count e' + 1)] (l1 ++ (b, e') :: l2) ∧
    evolves (l1 ++ (b, e) :: l2) (l1 ++ (b, e') :: l2) ∧
    all_bindings (l1 ++ (b, e') :: l2) = all_bindings (l1 ++ (b, e) :: l2).
Proof.
  intros Hs Hc Ht Hpc. destruct (block_in _ _ _ _ _ Hs) as [Hb He]. pose proof He as [H1 H2 H3 _].
  set (e' := mkEC (ec_exception_type e) (ec_pc e) (<[Z.to_nat (ec_count e) := v]> (ec_handler e)) (ec_count e) (ec_next e)).
  assert (ec_ok e' ∧ pairs e' = pairs e) as [He' Hp'].
  { apply beyond_count; [done|done|by unfold zlen; rewrite length_insert|done|by rewrite take_insert_ge by lia]. }
  destruct (store_hidden s l1 b e l2 e') as (Hs' & Hev & Hall); [done..|].
  exists (store_ec b e' s), e'. cbn [exec_store]. rewrite Hb. cbn [mbind option_bind]. unfold set_handler_at.
  rewrite zset_eq by lia. cbn [mbind option_bind]. split; [done|]. split; [done|]. split; [|done].
  apply w_count; [done|done|done|done|].
  unfold handler_at. cbn [e' ec_handler ec_count]. rewrite zget_insert by lia. by rewrite decide_True.
Qed.

Lemma insert_same (x : list Z) i v : zget x i = Some v → x = <[Z.to_nat i := v]> x.
Proof. unfold zget. case_decide; [|done]. intros Hx. by rewrite list_insert_id. Qed.

Lemma step_count key v s l1 b e l2 :
  exc_ok s (l1 ++ (b, e) :: l2) → ec_count e < ec_cache_size → ec_exception_type e = key.1 → v ≠ 0 →
  pc_at (ec_count e) e = Some key.2 → handler_at (ec_count e) e = Some v →
  ∃ s' e', exec_store (StoreCount b (ec_count e + 1)) s = Some s' ∧
    writing key v s' [] (l1 ++ (b, e') :: l2) ∧ evolves (l1 ++ (b, e) :: l2) (l1 ++ (b, e') :: l2) ∧
    ∃ b1 b2, all_bindings (l1 ++ (b, e) :: l2) = b1 ++ b2 ∧
      all_bindings (l1 ++ (b, e') :: l2) = b1 ++ (key, v) :: b2.
Proof.
  intros Hs Hc Ht Hv Hpc Hh. destruct (block_in _ _ _ _ _ Hs) as [Hb He].
  set (e' := mkEC (ec_exception_type e) (ec_pc e) (ec_handler e) (ec_count e + 1) (ec_next e)).
  destruct (pairs_extend e (ec_pc e) (ec_handler e) key.2 v He Hc Hv (insert_same _ _ _ Hpc) (insert_same _ _ _ Hh))
    as [He' Hp']. change (mkEC _ _ _ _ _) with e' in He', Hp'.
  assert (bindings e' = bindings e ++ [(key, v)]) as Hbs.
  { unfold bindings. rewrite Hp', fmap_app. cbn. by rewrite Ht, <- surjective_pairing. }
  assert (all_bindings (l1 ++ (b, e') :: l2) =
    (all_bindings l1 ++ bindings e) ++ (key, v) :: all_bindings l2) as Hall.
  { rewrite all_bindings_app, all_bindings_cons, Hbs. by rewrite <- !app_assoc. }
  exists (store_ec b e' s), e'. split; [by cbn [exec_store]; rewrite Hb|]. split; [|split].
  - apply w_idle; [by eapply exc_ok_update|]. rewrite Hall. set_solver.
  - apply evolves_update. split_and!; [done|done|done|]. cbn [snd]. rewrite Hp'. by apply prefix_app_r.
  - eexists _, _. split; [|exact Hall]. by rewrite all_bindings_app, all_bindings_cons, <- app_assoc.
Qed.

Lemma delete_store s b e : exc_heap s !! b = None → delete_ec b (store_ec b e s) = s.
Proof. intros Hb. destruct s as [h p]. unfold delete_ec, store_ec. cbn in *. by rewrite delete_insert_id. Qed.

Lemma step_head key v s l b e :
  exc_ok (delete_ec b s) l → b ≠ 0 → exc_heap s !! b = Some e → ec_ok e → bindings e = [(key, v)] →
  ec_next e = exc_cache s → writing key v (set_exception_cache b s) [] ((b, e) :: l).
Proof.
  intros Hs Hb0 Hb He Hbs Hn. pose proof (exc_ok_delete_chain _ _ _ Hs) as [Hseg _ _].
  destruct Hs as [_ Hnd Hdom Hok].
  assert (b ∉ l.*1) as Hnotin.
  { intros Hx. assert (b ∈ dom (exc_heap (delete_ec b s))) as Hd by (rewrite Hdom; by apply elem_of_list_to_set).
    cbn in Hd. set_solver. }
  apply w_idle; [|rewrite all_bindings_cons, Hbs; set_solver].
  split; [|by apply NoDup_cons| |by constructor].
  - cbn. rewrite Hn. done.
  - cbn [set_exception_cache exc_heap fmap list_fmap fst list_to_set] in *. cbn in Hdom. rewrite <- Hdom, dom_delete_L.
    apply elem_of_dom_2 in Hb. rewrite (union_comm_L {[b]}), difference_union_L. set_solver.
Qed.

(** Every store of an addition. *)
Lemma writing_step key v s st sts l :
  v ≠ 0 → writing key v s (st :: sts) l →
  ∃ s' l', exec_store st s = Some s' ∧ writing key v s' sts l' ∧ evolves l l' ∧ visible key v sts l l'.
Proof.
  intros Hv Hw. inversion Hw as [|? l1 b e l2 Hs Hc Ht|? l1 b e l2 Hs Hc Ht Hpc|? l1 b e l2 Hs Hc Ht Hpc Hh
    |? ? b e Hs Hb0 Hb He Hn Hbs|? ? b e Hs Hb0 Hb He Hbs|? ? b e Hs Hb0 Hb He Hbs Hn]; subst.
  - destruct (step_pc key v s l1 b e l2 Hs Hc Ht) as (s' & e' & E & Hcnt & Hw' & Hev & Hall). rewrite Hcnt in Hw'.
    eexists _, _. split; [exact E|]. split; [exact Hw'|]. split; [done|]. by left.
  - destruct (step_handler key v s l1 b e l2 Hs Hc Ht Hpc) as (s' & e' & E & Hcnt & Hw' & Hev & Hall). rewrite Hcnt in Hw'.
    eexists _, _. split; [exact E|]. split; [exact Hw'|]. split; [done|]. by left.
  - destruct (step_count key v s l1 b e l2 Hs Hc Ht Hv Hpc Hh) as (s' & e' & E & Hw' & Hev & Hall).
    eexists _, _. split; [exact E|]. split; [exact Hw'|]. split; [done|]. by right.
  - exists (store_ec b e s), l. split; [done|]. split; [|split; [done|left; by split; [destruct (negb _)|]]].
    assert (exc_ok (delete_ec b (store_ec b e s)) l) as Hs' by (by rewrite delete_store).
    assert (exc_heap (store_ec b e s) !! b = Some e) as Hb' by (cbn; by rewrite lookup_insert_eq).
    change (exc_cache s) with (exc_cache (store_ec b e s)).
    destruct (Z.eqb_spec (exc_cache (store_ec b e s)) 0) as [Hz|Hz]; cbn [negb app];
      [by eapply w_head; [..|rewrite Hz]|by eapply w_next].
  - exists (store_ec b (set_next (exc_cache s) e) s), l. split; [by cbn [exec_store]; rewrite Hb|].
    split; [|split; [done|by left]].
    eapply (w_head _ _ _ _ _ (set_next (exc_cache s) e)); [|done| |by destruct He|done|done].
    + unfold delete_ec, store_ec in *. cbn [exc_heap exc_cache] in *. by rewrite delete_insert_eq.
    + cbn. by rewrite lookup_insert_eq.
  - exists (set_exception_cache b s), ((b, e) :: l). split; [done|].
    split; [by apply step_head|]. split; [by exists [(b, e)], l; split; [|by apply Forall_Forall2_diag, Forall_true]|].
    right. split; [done|]. exists [], (all_bindings l). split; [done|]. by rewrite all_bindings_cons, Hbs.
Qed.

Section system.
Context (new_address : gmap Z ExceptionCache → Z).
Context (Hnew : ∀ h, new_address h ≠ 0 ∧ h !! new_address h = None).

Lemma writing_begin k a v s l :
  exc_ok s l → v ≠ 0 → ∃ sts, add_stores new_address k a v s = Some sts ∧ writing (k, a) v s sts l.
Proof.
  intros Hs Hv.
  assert (∃ sts, new_block_stores new_address k a v s = Some sts ∧ writing (k, a) v s sts l) as (stn & En & Hwn).
  { unfold new_block_stores. destruct (new_ec_spec k a v Hv) as (e & -> & He & Ht & Hn & Hp). cbn [mbind option_bind].
    eexists. split; [done|]. destruct (Hnew (exc_heap s)) as [Ha Hfr]. apply w_alloc; [done..|].
    unfold bindings. by rewrite Hp, Ht. }
  unfold add_stores, exception_cache_entry_for_exception.
  destruct (entry_loop_spec (walk_fuel s) k (exc_cache s) s l) as [[HE _]|(l1 & b & e & l2 & -> & HE & Hm & _)];
    [unfold walk_fuel; rewrite (exc_size s l Hs); lia|apply Hs| |]; rewrite HE; cbn [mbind option_bind].
  { by exists stn. }
  apply andb_prop in Hm as [Hk%Z.eqb_eq Hc]. destruct (block_in _ _ _ _ _ Hs) as [Hb He].
  destruct (Z.eqb_spec b 0) as [_|_]; [by exists stn|]. rewrite Hb. cbn [mbind option_bind].
  rewrite test_address_spec by done. cbn [mbind option_bind].
  destruct (Z.eqb_spec (default 0 (assoc a (pairs e))) v) as [Heq|Hne].
  - eexists. split; [done|]. apply w_idle; [done|]. rewrite all_bindings_app, all_bindings_cons, !elem_of_app. right. left.
    apply list_elem_of_fmap. exists (a, v). split; [by rewrite Hk|]. apply assoc_elem.
    destruct (assoc a (pairs e)); cbn in Heq; congruence.
  - rewrite Hc. eexists. split; [done|]. apply (w_pc (k, a)); [done|by apply Z.ltb_lt|done].
Qed.
End system.

(** ** The reader *)

Section reader_inv.
Context (klass pc : Z).
(** Where the pair looked up was at the start, if it was there. *)
Context (target : option (Z * nat)).

Definition target_in l : Prop :=
  ∀ a i, target = Some (a, i) →
    ∃ e v, (a, e) ∈ l ∧ ec_exception_type e = klass ∧ pairs e !! i = Some (pc, v).
(** The target is in the blocks [l2], or in block [a] at [i] or later. *)
Definition ahead l2 : Prop := ∀ a i, target = Some (a, i) → a ∈ l2.*1.
Definition ahead_in (a : Z) (i : Z) l2 : Prop :=
  ∀ a0 i0, target = Some (a0, i0) → (a0 = a ∧ i ≤ Z.of_nat i0) ∨ a0 ∈ l2.*1.

(** The reader is in the block [e] of the list. *)
Definition in_block l (a : Z) (P : ExceptionCache → list (Z * ExceptionCache) → Prop) : Prop :=
  ∃ l1 e l2, l = l1 ++ (a, e) :: l2 ∧ P e l2.

Definition reader_ok l m (r : reader) : Prop :=
  match r with
  | Start => True
  | AtBlock p => ∃ l1 l2, l = l1 ++ l2 ∧ p = default 0 (head l2.*1) ∧ ahead l2
  | Scanning a i =>
      in_block l a (λ e l2, ec_exception_type e = klass ∧ 0 ≤ i ≤ zlen (pairs e) ∧ ahead_in a i l2)
  | Testing a i =>
      in_block l a (λ e l2, ec_exception_type e = klass ∧ 0 ≤ i < zlen (pairs e) ∧ ahead_in a i l2)
  | Loading a i =>
      in_block l a (λ e l2, ec_exception_type e = klass ∧ ∃ v, zget (pairs e) i = Some (pc, v))
  | Advance a => in_block l a (λ e l2, ahead l2)
  | Done v => (v = 0 ∧ target = None) ∨ m !! (klass, pc) = Some v
  end.

Lemma grows_addresses l l' : Forall2 grows l l' → l'.*1 = l.*1.
Proof. induction 1 as [|x y l l' (Hxy & _) _ IH]; [done|]. cbn. by rewrite Hxy, IH. Qed.

Lemma ahead_grows l l' : Forall2 grows l l' → ahead l → ahead l'.
Proof. intros Hg Ha a i Ht. rewrite (grows_addresses _ _ Hg). by eapply Ha. Qed.
Lemma ahead_in_grows a i l l' : Forall2 grows l l' → ahead_in a i l → ahead_in a i l'.
Proof. intros Hg Ha a0 i0 Ht. rewrite (grows_addresses _ _ Hg). by eapply Ha. Qed.

Lemma in_block_evolves l l' a (P Q : ExceptionCache → list (Z * ExceptionCache) → Prop) :
  evolves l l' → (∀ e e' l2 l2', grows (a, e) (a, e') → Forall2 grows l2 l2' → P e l2 → Q e' l2') →
  in_block l a P → in_block l' a Q.
Proof.
  intros (pre & l1 & -> & Hg) HPQ (k1 & e & k2 & -> & HP).
  apply Forall2_app_inv_l in Hg as (k1' & kx & Hg1 & Hg2 & ->).
  apply Forall2_cons_inv_l in Hg2 as ([a' e'] & k2' & Hge & Hg2 & ->).
  pose proof Hge as [Ha _]. cbn in Ha. subst a'.
  exists (pre ++ k1'), e', k2'. split; [by rewrite <- app_assoc|]. by eapply HPQ.
Qed.

Lemma prefix_zlen {A} (x y : list A) : x `prefix_of` y → zlen x ≤ zlen y.
Proof. intros Hp%prefix_length. unfold zlen. lia. Qed.
Lemma prefix_zget {A} (x y : list A) i v : x `prefix_of` y → zget x i = Some v → zget y i = Some v.
Proof. intros [k ->] Hx. rewrite zget_app_l; [done|]. apply zget_Some in Hx. lia. Qed.

(** What the reader knows survives the stores of the writer. *)
Lemma reader_ok_evolves l l' m m' r :
  evolves l l' → (∀ v, m !! (klass, pc) = Some v → m' !! (klass, pc) = Some v) →
  reader_ok l m r → reader_ok l' m' r.
Proof.
  intros Hev Hm. destruct r as [|p|a i|a i|a i|a|v]; cbn [reader_ok]; [done|..|naive_solver].
  - destruct Hev as (pre & lx & -> & Hg). intros (k1 & k2 & -> & -> & Ha).
    apply Forall2_app_inv_l in Hg as (k1' & k2' & Hg1 & Hg2 & ->). exists (pre ++ k1'), k2'.
    split; [by rewrite app_assoc|]. split; [by rewrite (grows_addresses _ _ Hg2)|by eapply ahead_grows].
  - apply in_block_evolves; [done|]. intros e e' l2 l2' (_ & Ht & _ & Hp%prefix_zlen) Hg (Hk & Hi & Ha).
    cbn in *. split_and!; [congruence|lia|lia|by eapply ahead_in_grows].
  - apply in_block_evolves; [done|]. intros e e' l2 l2' (_ & Ht & _ & Hp%prefix_zlen) Hg (Hk & Hi & Ha).
    cbn in *. split_and!; [congruence|lia|lia|by eapply ahead_in_grows].
  - apply in_block_evolves; [done|]. intros e e' l2 l2' (_ & Ht & _ & Hp) Hg (Hk & v & Hv).
    cbn in *. split; [congruence|]. exists v. by eapply prefix_zget.
  - apply in_block_evolves; [done|]. intros e e' l2 l2' _ Hg Ha. by eapply ahead_grows.
Qed.

Lemma target_in_evolves l l' : evolves l l' → target_in l → target_in l'.
Proof.
  intros (pre & l1 & -> & Hg) Ht a i Hi. destruct (Ht a i Hi) as (e & v & [j Hj]%list_elem_of_lookup & Hk & Hp).
  destruct (Forall2_lookup_l _ _ _ _ _ Hg Hj) as ([a' e'] & Hj' & Ha & Hk' & _ & Hpre). cbn in *. subst a'.
  exists e', v. split_and!; [apply elem_of_app; right; by eapply list_elem_of_lookup_2|congruence|].
  by eapply prefix_lookup_Some.
Qed.

Context (s : exceptions) (l : list (Z * ExceptionCache)) (m : gmap (Z * Z) Z).
Context (Hchain : chain s l) (Htarget : target_in l).
Context (Hm : ∀ key v, (key, v) ∈ all_bindings l → m !! key = Some v).

(** The target's block is the one at its address. *)
Lemma target_block l1 a e l2 i :
  l = l1 ++ (a, e) :: l2 → target = Some (a, i) →
  ec_exception_type e = klass ∧ Z.of_nat i < zlen (pairs e) ∧ ∃ v, pairs e !! i = Some (pc, v).
Proof.
  intros Hl Ht. destruct (Htarget a i Ht) as (e' & v & Hin & Hk & Hp).
  assert (e' = e) as ->.
  { eapply (fst_functional l a); [apply (chain_nodup _ _ Hchain)|done|]. rewrite Hl. set_solver. }
  split_and!; [done| |eauto]. apply lookup_lt_Some in Hp. unfold zlen. lia.
Qed.

Lemma chain_at l1 a e l2 :
  l = l1 ++ (a, e) :: l2 → a ≠ 0 ∧ exc_heap s !! a = Some e ∧ ec_ok e ∧ ec_next e = default 0 (head l2.*1).
Proof.
  intros ->. destruct Hchain as [Hseg _ Hok]. apply lseg_app in Hseg as (? & _ & _ & Ha & He & Hl2).
  rewrite fmap_app, Forall_app, fmap_cons, Forall_cons in Hok. destruct Hok as (_ & Hok & _).
  split_and!; [done|done|done|]. destruct l2 as [|[b f] l2]; cbn in Hl2 |- *; naive_solver.
Qed.

Lemma count_pairs e : ec_ok e → ec_count e = zlen (pairs e).
Proof. intros [H1 H2 H3 _]. unfold pairs, zlen in *. rewrite length_zip_with, !length_take. lia. Qed.

Lemma pairs_at e i :
  ec_ok e → 0 ≤ i < zlen (pairs e) →
  ∃ a h, pc_at i e = Some a ∧ handler_at i e = Some h ∧ zget (pairs e) i = Some (a, h).
Proof.
  intros He Hi. rewrite <- (count_pairs e He) in Hi. destruct He as [H1 H2 H3 _].
  destruct (zget_is_Some (ec_pc e) i) as [a Ha]; [lia|]. destruct (zget_is_Some (ec_handler e) i) as [h Hh]; [lia|].
  exists a, h. split_and!; [done|done|]. unfold zget, pairs in *. rewrite decide_True in Ha by lia.
  rewrite decide_True in Hh by lia. rewrite decide_True by lia.
  rewrite lookup_zip_with, !lookup_take_lt by lia. by rewrite Ha, Hh.
Qed.

Lemma read_at_block p :
  reader_ok l m (AtBlock p) → ∃ r, read_step klass pc s (AtBlock p) = Some r ∧ reader_ok l m r.
Proof.
  intros (l1 & l2 & Hl & -> & Ha). destruct l2 as [|[a e] l2]; cbn [read_step head fmap list_fmap default id fst].
  - exists (Done 0). split; [done|]. left. split; [done|]. destruct target as [[a i]|] eqn:Ht; [|done].
    by apply (Ha a i), elem_of_nil in Ht.
  - destruct (chain_at l1 a e l2 Hl) as (Ha0 & -> & He & _). rewrite (proj2 (Z.eqb_neq a 0) Ha0). cbn [mbind option_bind].
    eexists. split; [done|]. destruct (Z.eqb_spec klass (ec_exception_type e)) as [Hk|Hk]; (exists l1; exists e; exists l2; split; [done|]).
    + split_and!; [done|lia|unfold zlen; lia|]. intros a0 i0 Ht. pose proof (Ha a0 i0 Ht) as [Heq|?]%elem_of_cons; [left|by right].
      split; [done|lia].
    + intros a0 i0 Ht. pose proof (Ha a0 i0 Ht) as [Heq|?]%elem_of_cons; [|done]. cbn in Heq. subst a0.
      destruct (target_block l1 a e l2 i0 Hl Ht) as [? _]. congruence.
Qed.

Lemma read_in_block a i :
  reader_ok l m (Scanning a i) → ∃ r, read_step klass pc s (Scanning a i) = Some r ∧ reader_ok l m r.
Proof.
  intros (l1 & e & l2 & Hl & Hk & Hi & Ha). destruct (chain_at l1 a e l2 Hl) as (_ & He & Hok & _).
  cbn [read_step]. rewrite He. cbn [mbind option_bind]. eexists. split; [done|].
  rewrite (count_pairs e Hok). destruct (Z.ltb_spec i (zlen (pairs e))); (exists l1; exists e; exists l2; split; [done|]).
  { split_and!; [done|lia|lia|done]. }
  intros a0 i0 Ht. destruct (Ha a0 i0 Ht) as [[-> Hle]|?]; [|done].
  destruct (target_block l1 a e l2 i0 Hl Ht) as (_ & ? & _). lia.
Qed.

Lemma read_testing a i :
  reader_ok l m (Testing a i) → ∃ r, read_step klass pc s (Testing a i) = Some r ∧ reader_ok l m r.
Proof.
  intros (l1 & e & l2 & Hl & Hk & Hi & Ha). destruct (chain_at l1 a e l2 Hl) as (_ & He & Hok & _).
  cbn [read_step]. rewrite He. cbn [mbind option_bind]. destruct (pairs_at e i Hok Hi) as (b & h & -> & _ & Hp).
  cbn [mbind option_bind]. eexists. split; [done|].
  destruct (Z.eqb_spec b pc) as [->|Hne]; (exists l1; exists e; exists l2; split; [done|]); [by eauto|].
  split_and!; [done|lia|lia|]. intros a0 i0 Ht. destruct (Ha a0 i0 Ht) as [[-> Hle]|?]; [|by right]. left. split; [done|].
  destruct (decide (i = Z.of_nat i0)) as [->|]; [|lia]. destruct (target_block l1 a e l2 i0 Hl Ht) as (_ & _ & v & Hv).
  unfold zget in Hp. rewrite decide_True, Nat2Z.id in Hp by lia. congruence.
Qed.

Lemma read_loading a i :
  reader_ok l m (Loading a i) → ∃ r, read_step klass pc s (Loading a i) = Some r ∧ reader_ok l m r.
Proof.
  intros (l1 & e & l2 & Hl & Hk & v & Hv). destruct (chain_at l1 a e l2 Hl) as (_ & He & Hok & _).
  cbn [read_step]. rewrite He. cbn [mbind option_bind].
  destruct (pairs_at e i Hok (zget_Some _ _ _ Hv)) as (b & h & _ & -> & Hp). cbn [mbind option_bind].
  rewrite Hv in Hp. injection Hp as <- <-. pose proof (zget_elem _ _ _ Hv) as Hin.
  rewrite (proj2 (Z.eqb_neq v 0) (pairs_handlers e pc v Hok Hin)). eexists. split; [done|]. right. apply Hm.
  rewrite Hl, all_bindings_app, all_bindings_cons, !elem_of_app. right. left.
  apply list_elem_of_fmap. exists (pc, v). by rewrite Hk.
Qed.

(** Every load succeeds and keeps the reader's invariant. *)
Lemma reader_step r :
  reader_ok l m r →
  (∃ v, r = Done v) ∨ ∃ r', read_step klass pc s r = Some r' ∧ reader_ok l m r'.
Proof.
  intros Hr. destruct r as [|p|a i|a i|a i|a|v]; [right|right; by apply read_at_block|right; by apply read_in_block
    |right; by apply read_testing|right; by apply read_loading|right|left; eauto].
  - eexists. split; [done|]. exists [], l. split; [done|]. split.
    + destruct Hchain as [Hseg _ _]. destruct l as [|[a e] l']; cbn in Hseg |- *; naive_solver.
    + intros a i Ht. destruct (Htarget a i Ht) as (e & v & Hin & _). by apply (list_elem_of_fmap_2 fst) in Hin.
  - destruct Hr as (l1 & e & l2 & Hl & Ha). destruct (chain_at l1 a e l2 Hl) as (_ & He & _ & Hn).
    cbn [read_step]. rewrite He. cbn [mbind option_bind]. eexists. split; [done|].
    exists (l1 ++ [(a, e)]), l2. split; [by rewrite <- app_assoc|]. by split.
Qed.
End reader_inv.

(** ** The system *)

Definition add_ops (l : list (Z * Z * Z)) : list cache_op := (λ x, AddHandler x.1.1 x.1.2 x.2) <$> l.

Section lookup.
Context (new_address : gmap Z ExceptionCache → Z).
Context (Hnew : ∀ h, new_address h ≠ 0 ∧ h !! new_address h = None).
Context (klass pc : Z) (target : option (Z * nat)) (mfinal : gmap (Z * Z) Z).

(** [m] includes the addition under way. *)
Definition writer_ok s sts l m : Prop :=
  (sts = [] ∧ exc_ok s l ∧ holds (all_bindings l) m) ∨
  (sts ≠ [] ∧ ∃ key v m1, v ≠ 0 ∧ writing key v s sts l ∧ holds (all_bindings l) m1 ∧
     (m1 !! key = None ∨ m1 !! key = Some v) ∧ m = <[key := v]> m1).

Record sys_ok (c : config) : Prop := {
  sys_inv : ∃ l m, writer_ok (mem c) (pending c) l m ∧ target_in klass pc target l ∧
    reader_ok klass pc target l m (rd c) ∧ ops_ok (add_ops (adds c)) m ∧ spec_ops (add_ops (adds c)) m = mfinal
}.

Lemma writer_ok_chain s sts l m :
  writer_ok s sts l m → chain s l ∧ ∀ key v, (key, v) ∈ all_bindings l → m !! key = Some v.
Proof.
  intros [(_ & Hs & Hm)|(_ & key & v & m1 & _ & Hw & Hm & Hold & ->)].
  - split; [by apply exc_ok_chain|]. intros key v. apply Hm.
  - split; [by eapply writing_chain|]. intros key' v' Hin%Hm. destruct (decide (key = key')) as [<-|Hne].
    + rewrite lookup_insert_eq. destruct Hold; congruence.
    + by rewrite lookup_insert_ne.
Qed.

Lemma writer_ok_step s st sts l m :
  writer_ok s (st :: sts) l m →
  ∃ s' l', exec_store st s = Some s' ∧ writer_ok s' sts l' m ∧ evolves l l'.
Proof.
  intros [(? & _)|(_ & key & v & m1 & Hv & Hw & Hm & Hold & ->)]; [done|].
  destruct (writing_step key v s st sts l Hv Hw) as (s' & l' & E & Hw' & Hev & Hvis).
  exists s', l'. split; [done|]. split; [|done]. destruct Hvis as [[Hne Hall]|[-> (b1 & b2 & Hb & Hb')]].
  - right. split; [done|]. exists key, v, m1. by rewrite Hall.
  - left. split; [done|]. split; [by inversion Hw'|]. rewrite Hb'. apply holds_insert; [by rewrite <- Hb|done].
Qed.

Lemma writer_ok_begin s l m k a v :
  writer_ok s [] l m → v ≠ 0 → m !! (k, a) = None ∨ m !! (k, a) = Some v →
  ∃ sts, add_stores new_address k a v s = Some sts ∧ writer_ok s sts l (<[(k, a) := v]> m).
Proof.
  intros [(_ & Hs & Hm)|(? & _)] Hv Hold; [|done].
  destruct (writing_begin new_address Hnew k a v s l Hs Hv) as (sts & E & Hw). exists sts. split; [done|].
  destruct sts as [|st sts].
  - left. split; [done|]. split; [done|]. inversion Hw as [? ? _ Hin| | | | | |]; subst. apply Hm in Hin. by rewrite insert_id.
  - right. split; [done|]. by exists (k, a), v, m.
Qed.

Lemma insert_consistent m key v key' (w : Z) :
  m !! key = None ∨ m !! key = Some v → m !! key' = Some w → <[key := v]> m !! key' = Some w.
Proof.
  intros Hold Hw. destruct (decide (key = key')) as [<-|Hne]; [|by rewrite lookup_insert_ne].
  rewrite lookup_insert_eq. destruct Hold; congruence.
Qed.

Lemma sys_ok_step c c' : sys_ok c → sys_step klass pc new_address c c' → sys_ok c'.
Proof.
  intros [(l & m & Hw & Ht & Hr & Hops & Hfin)] Hstep. split.
  destruct Hstep as [s k a h ads r sts E|s s' st sts ads r E|s sts ads r r' E]; cbn [mem pending adds rd] in *.
  - destruct Hops as [[Hh Hold] Hops]. destruct (writer_ok_begin s l m k a h Hw Hh Hold) as (sts' & E' & Hw').
    rewrite E in E'. injection E' as <-. exists l, (<[(k, a) := h]> m). split_and!; [done|done| |done|done].
    eapply reader_ok_evolves; [reflexivity| |done]. intros v. by apply insert_consistent.
  - destruct (writer_ok_step s st sts l m Hw) as (s1 & l' & E' & Hw' & Hev). rewrite E in E'. injection E' as <-.
    exists l', m. split_and!; [done|by eapply target_in_evolves| |done|done]. by eapply reader_ok_evolves.
  - destruct (writer_ok_chain _ _ _ _ Hw) as [Hch Hin].
    destruct (reader_step klass pc target s l m Hch Ht Hin r Hr) as [[v ->]|(r1 & E' & Hr')]; [done|].
    rewrite E in E'. injection E' as <-. by exists l, m.
Qed.

Lemma sys_ok_reachable c c' : sys_ok c → rtc (sys_step klass pc new_address) c c' → sys_ok c'.
Proof. intros Hc. induction 1; eauto using sys_ok_step. Qed.
End lookup.

Lemma adds_monotone ads m key w :
  ops_ok (add_ops ads) m → m !! key = Some w → spec_ops (add_ops ads) m !! key = Some w.
Proof.
  revert m. induction ads as [|[[k a] h] ads IH]; intros m Hops Hw; [done|]. destruct Hops as [[_ Hold] Hops].
  apply (IH _ Hops). by apply insert_consistent.
Qed.

(** The place of a binding in the list. *)
Lemma find_target klass pc l v :
  ((klass, pc), v) ∈ all_bindings l → ∃ a i, target_in klass pc (Some (a, i)) l.
Proof.
  induction l as [|[a e] l IH]; [by intros ?%elem_of_nil|].
  rewrite all_bindings_cons, elem_of_app. intros [Hin|Hin].
  - apply list_elem_of_fmap in Hin as ([pc' v'] & Heq & [i Hi]%list_elem_of_lookup). simplify_eq/=.
    exists a, i. intros a0 i0 [= <- <-]. exists e, v'. split_and!; [left|done|done].
  - destruct (IH Hin) as (b & i & Ht). exists b, i. intros a0 i0 Heq. destruct (Ht a0 i0 Heq) as (f & w & ? & ?).
    exists f, w. split; [by right|done].
Qed.

(** C12: Lookups take no lock, and none is needed. Start from any cache that
    additions can have made, and let one thread look up a handler while other
    threads, one at a time under the lock, make any number of additions; loads
    and stores interleave in any order. Neither side is ever stuck: every load
    is from a block that is there, every store succeeds. What the lookup returns
    is what it returns on the cache before the additions or on the cache after
    all of them: a handler that was cached is never missed, and nothing but the
    handler added for the class and pc is ever returned. *)
Theorem concurrent_lookup_linearizable new_address klass pc s m ads :
  (∀ h, new_address h ≠ 0 ∧ h !! new_address h = None) → represents s m → ops_ok (add_ops ads) m →
  ∃ s', mforeach (run_op new_address) (add_ops ads) s = Some (tt, s') ∧
  ∀ c, rtc (sys_step klass pc new_address) (mkCfg s [] ads Start) c →
    (∀ v, rd c = Done v →
       handler_for_exception_and_pc klass pc s = Some v ∨ handler_for_exception_and_pc klass pc s' = Some v) ∧
    ((∀ v, rd c ≠ Done v) → ∃ r, read_step klass pc (mem c) (rd c) = Some r) ∧
    (pending c ≠ [] ∨ adds c ≠ [] → ∃ c', sys_step klass pc new_address c c' ∧ rd c' = rd c).
Proof.
  intros Hnew Hrep Hops. destruct (ops_represent new_address Hnew _ s m Hrep Hops) as (s' & E & l' & Hs' & Hm').
  exists s'. split; [done|]. intros c Hc. destruct Hrep as (l & Hs & Hm).
  rewrite (handler_for_spec klass pc s l Hs), (handler_for_spec klass pc s' l' Hs').
  rewrite (holds_assoc _ _ _ Hm), (holds_assoc _ _ _ Hm').
  assert (∃ target, target_in klass pc target l ∧ (target = None → m !! (klass, pc) = None)) as (target & Htar & Hnone).
  { destruct (m !! (klass, pc)) as [v|] eqn:Hv; [|by exists None].
    apply Hm, find_target in Hv as (a & i & Ht). by exists (Some (a, i)). }
  assert (sys_ok klass pc target (spec_ops (add_ops ads) m) c) as [(lc & mc & Hw & Ht & Hr & Hopsc & Hfin)].
  { eapply (sys_ok_reachable new_address Hnew); [|exact Hc]. split. exists l, m. split_and!; [by left|done..]. }
  split_and!.
  - intros v Hv. rewrite Hv in Hr. destruct Hr as [[-> Hn]|Hr].
    + left. by rewrite (Hnone Hn).
    + right. rewrite <- Hfin. by rewrite (adds_monotone _ _ _ _ Hopsc Hr).
  - intros Hnd. destruct (writer_ok_chain _ _ _ _ Hw) as [Hch Hin].
    destruct (reader_step klass pc target _ lc mc Hch Ht Hin _ Hr) as [[v Hv]|(r & ? & _)]; [by destruct (Hnd v)|by exists r].
  - intros Hne. destruct c as [sc [|st sts] [|[[k a] h] l0] r]; cbn [mem pending adds rd] in *; [by destruct Hne|..].
    + destruct Hopsc as [[Hh Hold] _]. destruct (writer_ok_begin new_address Hnew _ _ _ k a h Hw Hh Hold) as (sts & Ea & _).
      eexists. split; [by apply begin_step|done].
    + destruct (writer_ok_step _ _ _ _ _ Hw) as (s1 & l1 & Es & _). eexists. split; [by apply store_step|done].
    + destruct (writer_ok_step _ _ _ _ _ Hw) as (s1 & l1 & Es & _). eexists. split; [by apply store_step|done].
Qed.

Definition example_block : ExceptionCache :=
  mkEC 7 (1 :: replicate 15 0) (1001 :: replicate 15 0) 1 0.
Definition example_cache : exceptions := mkExc {[ 64 := example_block ]} 64.

Lemma example_represents : represents example_cache {[ (7, 1) := 1001 ]}.
Proof.
  exists [(64, example_block)]. split.
  - split; [done|by repeat constructor; set_solver|done|]. repeat constructor; done.
  - intros key v. rewrite lookup_singleton_Some. change (all_bindings _) with [((7, 1), 1001)].
    rewrite list_elem_of_singleton. naive_solver.
Qed.

(** The lookup reaches the second pair of a block while it is being added. *)
Lemma concurrent_lookup_linearizable_witness :
  ∃ c, rtc (sys_step 7 2 bump_address) (mkCfg example_cache [] [(7, 2, 1002)] Start) c ∧ rd c = Done 1002 ∧
    ∃ s', mforeach (run_op bump_address) (add_ops [(7, 2, 1002)]) example_cache = Some (tt, s') ∧
      (handler_for_exception_and_pc 7 2 example_cache = Some 1002 ∨ handler_for_exception_and_pc 7 2 s' = Some 1002).
Proof.
  destruct (concurrent_lookup_linearizable bump_address 7 2 example_cache {[ (7, 1) := 1001 ]} [(7, 2, 1002)]
    bump_address_new example_represents) as (s' & Hrun & Hc); [apply (bool_decide_unpack _); vm_compute; exact I|].
  assert (∃ c, rtc (sys_step 7 2 bump_address) (mkCfg example_cache [] [(7, 2, 1002)] Start) c ∧ rd c = Done 1002)
    as (c & Hrtc & Hrd).
  { eexists. split.
    - eapply rtc_l; [apply load_step; vm_compute; reflexivity|].
      eapply rtc_l; [apply load_step; vm_compute; reflexivity|].
      eapply rtc_l; [apply begin_step; vm_compute; reflexivity|].
      eapply rtc_l; [apply store_step; vm_compute; reflexivity|].
      eapply rtc_l; [apply load_step; vm_compute; reflexivity|].
      eapply rtc_l; [apply store_step; vm_compute; reflexivity|].
      eapply rtc_l; [apply load_step; vm_compute; reflexivity|].
      eapply rtc_l; [apply store_step; vm_compute; reflexivity|].
      do 3 (eapply rtc_l; [apply load_step; vm_compute; reflexivity|]).
      apply rtc_refl.
    - reflexivity. }
  exists c. split; [exact Hrtc|]. split; [exact Hrd|].
  exists s'. split; [exact Hrun|]. destruct (Hc c Hrtc) as [Hres _]. exact (Hres 1002 Hrd).
Defined.
