(* ===== verification/ExceptionTables.v ===== *)
(** * Exception tables of an nmethod

    [ExceptionHandlerTable] and [ImplicitExceptionTable] in
    code/exceptionHandlerTable.hpp and code/exceptionHandlerTable.cpp, their copies
    in the nmethod, and the lookups of the runtime that use them. *)

From stdpp Require Import base numbers list.
From S2P Require Import Prelude GlobalDefinitions.
Local Open Scope Z_scope.

(** ** Handler tables *)

Record HandlerTableEntry := mkHTE {
  hte_bci : Z;
  hte_pco : Z;
  hte_scope_depth : Z
}.
Definition hte_len (t : HandlerTableEntry) : Z := hte_bci t.
#[global] Instance HandlerTableEntry_eq_dec : EqDecision HandlerTableEntry.
Proof. solve_decision. Defined.
#[global] Instance HandlerTableEntry_inhabited : Inhabited HandlerTableEntry := populate (mkHTE 0 0 0).

(** The allocated entries, those in use and the number allocated; a table in an
    nmethod has size 0. *)
Record ExceptionHandlerTable := mkEHT {
  eht_table : list HandlerTableEntry;
  eht_length : Z;
  eht_size : Z
}.

Definition new_handler_table (initial_size : Z) : option ExceptionHandlerTable :=
  if 0 <? initial_size
  then Some (mkEHT (replicate (Z.to_nat initial_size) inhabitant) 0 initial_size)
  else None.

(** A new size that wrapped around to a negative number can not be allocated. *)
Definition add_entry `{D : SizeArith} (entry : HandlerTableEntry) : M ExceptionHandlerTable unit := λ t,
  t ← (if eht_size t <=? eht_length t then
         if 0 <? eht_size t then
           let new_size := double (eht_size t) in
           if 0 <=? new_size then
             Some (mkEHT (eht_table t ++ replicate (Z.to_nat (new_size - eht_size t)) inhabitant) (eht_length t) new_size)
           else None
         else None
       else Some t);
  table ← zset (eht_table t) (eht_length t) entry;
  Some (tt, mkEHT table (eht_length t + 1) (eht_size t)).

(** Pointers into the table are indices. *)
Fixpoint subtable_loop (fuel : nat) (i catch_pco : Z) (t : ExceptionHandlerTable) : option (option Z) :=
  match fuel with
  | O => None
  | S fuel' =>
      if i <? eht_length t then
        e ← zget (eht_table t) i;
        if hte_pco e =? catch_pco then Some (Some i)
        else subtable_loop fuel' (i + (hte_len e + 1)) catch_pco t
      else Some None
  end.

Definition subtable_for (catch_pco : Z) (t : ExceptionHandlerTable) : option (option Z) :=
  subtable_loop (S (Z.to_nat (eht_length t))) 0 catch_pco t.

Fixpoint entry_for_loop (l : nat) (i handler_bci scope_depth : Z) (t : ExceptionHandlerTable)
    : option (option HandlerTableEntry) :=
  match l with
  | O => Some None
  | S l' =>
      let i := i + 1 in
      e ← zget (eht_table t) i;
      if (hte_bci e =? handler_bci) && (hte_scope_depth e =? scope_depth) then Some (Some e)
      else entry_for_loop l' i handler_bci scope_depth t
  end.

Definition entry_for (catch_pco handler_bci scope_depth : Z) (t : ExceptionHandlerTable)
    : option (option HandlerTableEntry) :=
  p ← subtable_for catch_pco t;
  match p with
  | Some i => e ← zget (eht_table t) i; entry_for_loop (Z.to_nat (hte_len e)) i handler_bci scope_depth t
  | None => Some None
  end.

(** The arrays hold [intptr_t], the entries [int]. *)
Definition add_subtable_entry `{D : SizeArith} (bcis : list Z) (depths : option (list Z)) (pcos : list Z) (i : Z)
    : M ExceptionHandlerTable unit :=
  scope_depth ← mlift (match depths with Some ds => zget ds i | None => Some 0 end);
  bci ← mlift (zget bcis i);
  pco ← mlift (zget pcos i);
  add_entry (mkHTE (s32 bci) (s32 pco) (s32 scope_depth)).

Definition add_subtable `{D : SizeArith} (catch_pco : Z) (handler_bcis : list Z) (scope_depths : option (list Z))
    (handler_pcos : list Z) : M ExceptionHandlerTable unit :=
  if 0 <? zlen handler_bcis then
    add_entry (mkHTE (zlen handler_bcis) catch_pco 0) ;;
    mfor (length handler_bcis) 0 (add_subtable_entry handler_bcis scope_depths handler_pcos)
  else mret tt.

(** *** The copy in the nmethod *)

Definition sizeof_HandlerTableEntry : Z := 12.
Definition eht_size_in_bytes `{D : SizeArith} (t : ExceptionHandlerTable) : Z :=
  to_int (round_to (eht_length t * sizeof_HandlerTableEntry) 8).

(** Memory as 32-bit words; [after] is what follows the allocated entries, of
    which the rounded size may reach one word. *)
Definition entry_words (e : HandlerTableEntry) : list Z := [hte_bci e; hte_pco e; hte_scope_depth e].
Definition copy_handler_table `{D : SizeArith} (after : Z) (t : ExceptionHandlerTable) : list Z :=
  take (Z.to_nat (eht_size_in_bytes t / 4)) (concat (entry_words <$> eht_table t) ++ [after]).

Fixpoint entries_of (n : nat) (words : list Z) : list HandlerTableEntry :=
  match n, words with
  | S n', bci :: pco :: depth :: rest => mkHTE bci pco depth :: entries_of n' rest
  | _, _ => []
  end.

Definition handler_table_of (words : list Z) : ExceptionHandlerTable :=
  let length := zlen words * 4 / sizeof_HandlerTableEntry in
  mkEHT (entries_of (Z.to_nat length) words) length 0.

(** ** Implicit exception tables *)

Record ImplicitExceptionTable := mkIET {
  iet_size : Z;
  iet_len : Z;
  iet_data : list Z
}.

Definition new_implicit_table : ImplicitExceptionTable := mkIET 0 0 [].
Definition iet_set_size (size : Z) : ImplicitExceptionTable :=
  mkIET size 0 (replicate (Z.to_nat (u32 (size * 2))) 0).

Definition iet_adr (idx : Z) : Z := u32 (2 * idx).

Definition iet_append (exec_off cont_off : Z) : M ImplicitExceptionTable unit := λ t,
  let l := iet_len t in
  let t :=
    if l =? iet_size t then
      let size := if iet_size t =? 0 then 4 else iet_size t in
      let size := u32 (size * 2) in
      let new_size_in_elements := u32 (size * 2) in
      mkIET size l (take (Z.to_nat new_size_in_elements)
                      (iet_data t ++ replicate (Z.to_nat new_size_in_elements - length (iet_data t)) 0))
    else t in
  data ← zset (iet_data t) (iet_adr l) exec_off;
  data ← zset data (iet_adr l + 1) cont_off;
  Some (tt, mkIET (iet_size t) (u32 (l + 1)) data).

Fixpoint iet_loop (n : nat) (i exec_off : Z) (t : ImplicitExceptionTable) : option Z :=
  match n with
  | O => Some 0
  | S n' =>
      e ← zget (iet_data t) (iet_adr i);
      if e =? exec_off then zget (iet_data t) (iet_adr i + 1) else iet_loop n' (i + 1) exec_off t
  end.
Definition iet_at (exec_off : Z) (t : ImplicitExceptionTable) : option Z :=
  iet_loop (Z.to_nat (iet_len t)) 0 exec_off t.

Definition iet_size_in_bytes (t : ImplicitExceptionTable) : Z :=
  if iet_len t =? 0 then 0 else (2 * iet_len t + 1) * 4.

(** The section of the nmethod, rounded to words of 8 bytes, before and after. *)
Definition copy_implicit_table (t : ImplicitExceptionTable) (section : list Z) : option (list Z) :=
  if negb (iet_len t =? 0) then
    section ← zset section 0 (iet_len t);
    let n := Z.to_nat (2 * iet_len t) in
    if decide (1 + n ≤ length section ∧ n ≤ length (iet_data t))%nat
    then Some (take 1 section ++ take n (iet_data t) ++ drop (1 + n) section)
    else None
  else Some section.

Definition implicit_table_of (section : list Z) : option ImplicitExceptionTable :=
  if zlen section =? 0 then Some (mkIET 0 0 [])
  else len ← zget section 0; Some (mkIET len len (drop 1 section)).

(** Null is [0]. *)
Definition continuation_for_implicit_exception (code_begin pc : Z) (section : list Z) : option Z :=
  let exception_offset := s32 (pc - code_begin) in
  t ← implicit_table_of section;
  cont_offset ← iet_at (u32 exception_offset) t;
  if s32 cont_offset =? 0 then Some 0 else Some (code_begin + s32 cont_offset).

(** ** Correctness of handler tables *)

Abbreviation subtable := (Z * list HandlerTableEntry)%type (only parsing).

(** The table of a list of subtables; empty ones are left out. *)
Definition subtable_entries (s : subtable) : list HandlerTableEntry :=
  match s.2 with [] => [] | es => mkHTE (zlen es) s.1 0 :: es end.
Definition flat (subs : list subtable) : list HandlerTableEntry := concat (subtable_entries <$> subs).

(** What a lookup means. *)
Fixpoint subtable_of (c : Z) (subs : list subtable) : option (list HandlerTableEntry) :=
  match subs with
  | [] => None
  | (c', es) :: subs' => if decide (es ≠ [] ∧ c' = c) then Some es else subtable_of c subs'
  end.
Definition is_handler (b d : Z) (e : HandlerTableEntry) : bool := (hte_bci e =? b) && (hte_scope_depth e =? d).
Definition lookup_handler (c b d : Z) (subs : list subtable) : option HandlerTableEntry :=
  es ← subtable_of c subs; List.find (is_handler b d) es.

(** The entries in use. *)
Record view (t : ExceptionHandlerTable) (l : list HandlerTableEntry) : Prop := {
  view_length : eht_length t = zlen l;
  view_take : take (length l) (eht_table t) = l
}.

Lemma view_get t l i : view t l → i < zlen l → zget (eht_table t) i = zget l i.
Proof.
  intros [_ Ht] Hi. unfold zget. case_decide; [|done]. rewrite <- Ht at 1. rewrite lookup_take_lt; [done|].
  unfold zlen in Hi. lia.
Qed.

Lemma subtable_loop_spec t c subs pre fuel :
  view t (pre ++ flat subs) → (length (flat subs) < fuel)%nat →
  match subtable_of c subs with
  | None => subtable_loop fuel (zlen pre) c t = Some None
  | Some es => ∃ pre' post, pre ++ flat subs = pre' ++ mkHTE (zlen es) c 0 :: es ++ post ∧
                 subtable_loop fuel (zlen pre) c t = Some (Some (zlen pre'))
  end.
Proof.
  revert pre fuel. induction subs as [|[c' es] subs IH]; intros pre fuel Hv Hf; cbn [subtable_of].
  - destruct fuel; [lia|]. cbn [subtable_loop]. rewrite (view_length _ _ Hv). change (flat []) with (@nil HandlerTableEntry).
    rewrite app_nil_r, Z.ltb_irrefl. done.
  - destruct es as [|e es].
    { rewrite decide_False by naive_solver. by apply IH. }
    set (es' := e :: es) in *. assert (flat ((c', es') :: subs) = mkHTE (zlen es') c' 0 :: es' ++ flat subs) as Hflat by done.
    rewrite Hflat in *. destruct fuel as [|fuel]; [lia|]. cbn [subtable_loop].
    assert (zlen pre < zlen (pre ++ mkHTE (zlen es') c' 0 :: es' ++ flat subs)) as Hlt
      by (rewrite zlen_app, zlen_cons; pose proof (zlen_nonneg (es' ++ flat subs)); lia).
    rewrite (view_length _ _ Hv), (proj2 (Z.ltb_lt _ _) Hlt), (view_get _ _ _ Hv Hlt), zget_middle.
    cbn [hte_pco mbind option_bind]. destruct (Z.eqb_spec c' c) as [->|Hne].
    + rewrite decide_True by done. by exists pre, (flat subs).
    + rewrite decide_False by naive_solver. specialize (IH (pre ++ mkHTE (zlen es') c' 0 :: es') fuel).
      assert (pre ++ mkHTE (zlen es') c' 0 :: es' ++ flat subs = (pre ++ mkHTE (zlen es') c' 0 :: es') ++ flat subs) as Hassoc
        by (by rewrite <- app_assoc).
      rewrite Hassoc in *. replace (zlen pre + (hte_len (mkHTE (zlen es') c' 0) + 1))
        with (zlen (pre ++ mkHTE (zlen es') c' 0 :: es')) by (rewrite zlen_app; unfold zlen; cbn [length hte_len hte_bci]; lia).
      apply IH; [done|]. cbn [length] in Hf. rewrite length_app in Hf. lia.
Qed.

Lemma entry_for_loop_spec t b d es pre post :
  view t (pre ++ es ++ post) →
  entry_for_loop (length es) (zlen pre - 1) b d t = Some (List.find (is_handler b d) es).
Proof.
  revert pre. induction es as [|e es IH]; intros pre Hv; [done|]. cbn [length entry_for_loop].
  replace (zlen pre - 1 + 1) with (zlen pre) by lia.
  rewrite (view_get _ _ _ Hv) by (rewrite zlen_app; unfold zlen; cbn [length app]; lia).
  change ((e :: es) ++ post) with (e :: es ++ post). rewrite zget_middle. cbn [mbind option_bind List.find].
  unfold is_handler at 1. destruct ((hte_bci e =? b) && (hte_scope_depth e =? d)); [done|].
  specialize (IH (pre ++ [e])). rewrite <- app_assoc in IH. rewrite <- IH by done. f_equal.
  rewrite zlen_app. change (zlen [e]) with 1. lia.
Qed.

Lemma entry_for_spec t c b d subs :
  view t (flat subs) → entry_for c b d t = Some (lookup_handler c b d subs).
Proof.
  intros Hv. unfold entry_for, subtable_for, lookup_handler.
  pose proof (subtable_loop_spec t c subs [] (S (Z.to_nat (eht_length t))) Hv) as Hloop.
  rewrite (view_length _ _ Hv) in Hloop |- *. unfold zlen at 1 in Hloop. specialize (Hloop ltac:(lia)).
  change (zlen []) with 0 in Hloop.
  destruct (subtable_of c subs) as [es|]; cbn [mbind option_bind]; [|by rewrite Hloop].
  destruct Hloop as (pre & post & Hsplit & ->). cbn [app] in Hsplit. cbn [mbind option_bind].
  rewrite Hsplit in Hv. rewrite (view_get _ _ _ Hv) by (rewrite zlen_app; unfold zlen; cbn [length]; lia).
  rewrite zget_middle. cbn [mbind option_bind].
  unfold hte_len. cbn [hte_bci]. unfold zlen at 1. rewrite Nat2Z.id.
  rewrite (cons_middle _ pre) in Hv. rewrite <- (entry_for_loop_spec t b d es (pre ++ [mkHTE (zlen es) c 0]) post);
    [|by rewrite <- app_assoc]. f_equal. rewrite zlen_app. change (zlen [_]) with 1. lia.
Qed.

(** *** Building a table *)

Record built (t : ExceptionHandlerTable) (l : list HandlerTableEntry) : Prop := {
  built_view : view t l;
  built_size : zlen (eht_table t) = eht_size t;
  built_pos : 0 < eht_size t
}.

Lemma new_table_built n : 0 < n → ∃ t, new_handler_table n = Some t ∧ built t [].
Proof.
  intros Hn. unfold new_handler_table. rewrite (proj2 (Z.ltb_lt 0 n) Hn). eexists. split; [done|].
  split; [done| |done]. cbn. unfold zlen. rewrite length_replicate. lia.
Qed.

Section building.
Context `{D : SizeArith}.

Lemma add_handler_entry_spec t l e : built t l → roomy (zlen l + 1) → ∃ t', add_entry e t = Some (tt, t') ∧ built t' (l ++ [e]).
Proof.
  intros [[Hlen Htake] Hsize Hpos] Hr. unfold add_entry.
  set (grow := if eht_size t <=? eht_length t then _ else _).
  assert (∃ t1, grow = Some t1 ∧ eht_length t1 = zlen l ∧ take (length l) (eht_table t1) = l ∧
    zlen (eht_table t1) = eht_size t1 ∧ zlen l < eht_size t1) as (t1 & -> & H1 & H2 & H3 & H4).
  { assert (length l ≤ length (eht_table t))%nat as Hle.
    { apply (f_equal length) in Htake. rewrite length_take in Htake. lia. }
    subst grow. destruct (Z.leb_spec (eht_size t) (eht_length t)).
    - rewrite (proj2 (Z.ltb_lt 0 _) Hpos), (double_roomy (eht_size t) (zlen l + 1)) by (done || lia).
      rewrite (proj2 (Z.leb_le 0 _)) by lia. eexists. split; [done|]. cbn [eht_length eht_table eht_size].
      split_and!; [done|by rewrite take_app_le| |unfold zlen in *; lia].
      rewrite zlen_app. unfold zlen in *. rewrite length_replicate. lia.
    - exists t. split_and!; [done..|lia]. }
  cbn [mbind option_bind]. rewrite H1, zset_eq by (pose proof (zlen_nonneg l); lia). cbn [mbind option_bind].
  eexists. split; [done|]. unfold zlen in *. split; [split|..]; cbn [eht_length eht_table eht_size].
  - rewrite zlen_app. unfold zlen. cbn. lia.
  - rewrite length_app, Nat.add_1_r, Nat2Z.id. rewrite (take_S_r _ _ e) by (apply list_lookup_insert_eq; lia).
    by rewrite take_insert_ge, H2 by lia.
  - unfold zlen. by rewrite length_insert.
  - lia.
Qed.

(** The entries of a subtable as [add_subtable] is given them. *)
Definition handlers_of (bcis : list Z) (depths : option (list Z)) (pcos : list Z) : list HandlerTableEntry :=
  zip_with (λ x d, mkHTE (s32 x.1) (s32 x.2) (s32 d)) (zip bcis pcos) (default (replicate (length bcis) 0) depths).

Lemma handlers_length bcis depths pcos :
  length pcos = length bcis → (∀ ds, depths = Some ds → length ds = length bcis) →
  length (handlers_of bcis depths pcos) = length bcis.
Proof.
  intros Hp Hd. unfold handlers_of. rewrite !length_zip_with. destruct depths as [ds|]; cbn.
  - rewrite (Hd ds eq_refl). lia.
  - rewrite length_replicate. lia.
Qed.

Lemma add_subtable_entry_spec bcis depths pcos i e t l :
  (∀ ds, depths = Some ds → length ds = length bcis) →
  handlers_of bcis depths pcos !! i = Some e → built t l → roomy (zlen l + 1) →
  ∃ t', add_subtable_entry bcis depths pcos (Z.of_nat i) t = Some (tt, t') ∧ built t' (l ++ [e]).
Proof.
  intros Hd Hi Hb Hr. unfold handlers_of in Hi.
  apply lookup_zip_with_Some in Hi as ([b p] & d & -> & Hbp & Hdi).
  apply lookup_zip_with_Some in Hbp as (b' & p' & [= <- <-] & Hbi & Hpi).
  assert (∀ (x : list Z) v, x !! i = Some v → zget x (Z.of_nat i) = Some v) as Hget.
  { intros x v Hx. unfold zget. by rewrite decide_True, Nat2Z.id by lia. }
  unfold add_subtable_entry. rewrite (M_bind_lift _ _ _ d).
  2: { destruct depths as [ds|]; cbn in Hdi; [by apply Hget|]. apply lookup_replicate in Hdi as [-> _]. done. }
  rewrite (M_bind_lift _ _ _ _ (Hget _ _ Hbi)), (M_bind_lift _ _ _ _ (Hget _ _ Hpi)). by apply add_handler_entry_spec.
Qed.

Lemma add_subtable_spec c bcis depths pcos t l :
  length pcos = length bcis → (∀ ds, depths = Some ds → length ds = length bcis) → built t l →
  roomy (zlen (l ++ subtable_entries (c, handlers_of bcis depths pcos))) →
  ∃ t', add_subtable c bcis depths pcos t = Some (tt, t') ∧
    built t' (l ++ subtable_entries (c, handlers_of bcis depths pcos)).
Proof.
  intros Hp Hd Hb Hr. pose proof (handlers_length bcis depths pcos Hp Hd) as Hlen.
  set (hs := handlers_of bcis depths pcos) in *. unfold add_subtable. destruct (Z.ltb_spec 0 (zlen bcis)) as [Hpos|Hz].
  2: { assert (hs = []) as ->; [|exists t; by rewrite app_nil_r]. apply nil_length_inv. unfold zlen in Hz. lia. }
  assert (subtable_entries (c, hs) = mkHTE (zlen bcis) c 0 :: hs) as Hentries.
  { unfold subtable_entries. cbn. unfold zlen. rewrite <- Hlen. destruct hs; [unfold zlen in Hpos; cbn in Hlen; lia|done]. }
  rewrite Hentries in Hr |- *. rewrite zlen_app, zlen_cons in Hr.
  destruct (add_handler_entry_spec t l (mkHTE (zlen bcis) c 0) Hb) as (t1 & E1 & Hb1).
  { eapply roomy_le; [|done]. pose proof (zlen_nonneg hs). lia. }
  rewrite (M_bind_Some _ _ _ _ _ E1).
  assert (∀ n i t1, (i + n = length bcis)%nat → built t1 ((l ++ [mkHTE (zlen bcis) c 0]) ++ take i hs) →
    ∃ t', mfor n (Z.of_nat i) (add_subtable_entry bcis depths pcos) t1 = Some (tt, t') ∧
      built t' ((l ++ [mkHTE (zlen bcis) c 0]) ++ hs)) as Hloop.
  { induction n as [|n IH]; intros i t2 Hi Hb2; cbn [mfor].
    { exists t2. split; [done|]. by rewrite take_ge in Hb2 by lia. }
    destruct (lookup_lt_is_Some_2 hs i) as [e He]; [lia|].
    destruct (add_subtable_entry_spec bcis depths pcos i e t2 _ Hd He Hb2) as (t3 & E3 & Hb3).
    { eapply roomy_le; [|done]. rewrite !zlen_app. unfold zlen. rewrite length_take. cbn [length]. lia. }
    rewrite (M_bind_Some _ _ _ _ _ E3). replace (Z.of_nat i + 1) with (Z.of_nat (S i)) by lia.
    apply IH; [lia|]. rewrite (take_S_r _ _ _ He). by rewrite <- !app_assoc in *. }
  destruct (Hloop (length bcis) 0%nat t1) as (t' & E & Hb'); [done|by rewrite app_nil_r|].
  exists t'. split; [exact E|]. by rewrite <- app_assoc in Hb'.
Qed.

(** *** Copying a table *)

Lemma entry_words_length (l : list HandlerTableEntry) : length (concat (entry_words <$> l)) = (3 * length l)%nat.
Proof. induction l as [|e l IH]; [done|]. cbn [fmap list_fmap concat]. rewrite length_app, IH. cbn. lia. Qed.

Lemma entries_of_words (l : list HandlerTableEntry) rest : entries_of (length l) (concat (entry_words <$> l) ++ rest) = l.
Proof. induction l as [|[b p d] l IH]; [by destruct rest|]. cbn. f_equal. apply IH. Qed.

Lemma copy_view after t l :
  built t l → to_int (round_to (zlen l * sizeof_HandlerTableEntry) 8) = round_to (zlen l * sizeof_HandlerTableEntry) 8 →
  view (handler_table_of (copy_handler_table after t)) l.
Proof.
  intros [[Hlen Htake] Hsize Hpos] Hint.
  assert (eht_table t = l ++ drop (length l) (eht_table t)) as Htab by (rewrite <- Htake at 1; by rewrite take_drop).
  set (rest := drop (length l) (eht_table t)) in Htab.
  set (n := Z.to_nat (eht_size_in_bytes t / 4)).
  assert (Z.of_nat n = 2 * ((3 * zlen l + 1) / 2)) as Hn.
  { subst n. unfold eht_size_in_bytes. rewrite Hlen, Hint. unfold sizeof_HandlerTableEntry. rewrite (round_to_spec _ 3) by lia.
    change (2 ^ 3) with 8. pose proof (zlen_nonneg l). rewrite Z2Nat.id; Z.div_mod_to_equations; lia. }
  assert (3 * length l ≤ n ≤ 3 * length l + 1)%nat as Hrange by (unfold zlen in Hn; Z.div_mod_to_equations; lia).
  assert (∃ pad, copy_handler_table after t = concat (entry_words <$> l) ++ pad ∧ (length pad ≤ 1)%nat) as (pad & Hcopy & Hpad).
  { unfold copy_handler_table. fold n. rewrite Htab, fmap_app, concat_app, <- app_assoc, take_app.
    rewrite take_ge by (rewrite entry_words_length; lia). eexists. split; [done|].
    rewrite length_take, entry_words_length. lia. }
  assert (zlen (copy_handler_table after t) = Z.of_nat n) as Hzn.
  { unfold zlen, copy_handler_table. fold n. rewrite length_take, length_app, entry_words_length.
    rewrite Htab, length_app. cbn [length]. lia. }
  assert (zlen (copy_handler_table after t) * 4 / sizeof_HandlerTableEntry = zlen l) as Hl.
  { rewrite Hzn. unfold sizeof_HandlerTableEntry, zlen in *. Z.div_mod_to_equations; lia. }
  unfold handler_table_of. rewrite Hl. split; [done|]. cbn [eht_table]. rewrite Hcopy. unfold zlen.
  rewrite Nat2Z.id, entries_of_words. apply firstn_all.
Qed.

(** The arguments of a call of [add_subtable]. *)
Record SubtableArgs := mkArgs {
  sa_catch_pco : Z;
  sa_bcis : list Z;
  sa_depths : option (list Z);
  sa_pcos : list Z
}.
Definition args_ok (a : SubtableArgs) : Prop :=
  length (sa_pcos a) = length (sa_bcis a) ∧ ∀ ds, sa_depths a = Some ds → length ds = length (sa_bcis a).
Definition sa_handlers (a : SubtableArgs) : list HandlerTableEntry := handlers_of (sa_bcis a) (sa_depths a) (sa_pcos a).
Definition subtable_of_args (a : SubtableArgs) : subtable := (sa_catch_pco a, sa_handlers a).
Definition add_args (a : SubtableArgs) : M ExceptionHandlerTable unit :=
  add_subtable (sa_catch_pco a) (sa_bcis a) (sa_depths a) (sa_pcos a).

Lemma add_subtables_spec args t l :
  Forall args_ok args → built t l → roomy (zlen (l ++ flat (subtable_of_args <$> args))) →
  ∃ t', mforeach add_args args t = Some (tt, t') ∧ built t' (l ++ flat (subtable_of_args <$> args)).
Proof.
  revert t l. induction args as [|a args IH]; intros t l Hok Hb Hr.
  - exists t. split; [done|]. by rewrite app_nil_r.
  - apply Forall_cons in Hok as [[Hp Hd] Hok]. unfold flat in Hr. cbn [fmap list_fmap concat] in Hr. rewrite app_assoc in Hr.
    destruct (add_subtable_spec (sa_catch_pco a) (sa_bcis a) (sa_depths a) (sa_pcos a) t l Hp Hd Hb) as (t1 & E1 & Hb1).
    { eapply roomy_le; [|done]. rewrite (zlen_app (l ++ _)). apply Z.le_sub_le_add_l. rewrite Z.sub_diag. apply zlen_nonneg. }
    destruct (IH t1 _ Hok Hb1 Hr) as (t' & E & Hb'). exists t'. cbn [mforeach]. rewrite (M_bind_Some _ _ _ _ _ E1).
    split; [done|]. by rewrite <- app_assoc in Hb'.
Qed.
End building.

(** What [add_subtable] asserts of the calls: the arrays have the same length, a
    catch pc that has handlers is not given again, and of entries with the same
    bci and depth the lookup finds the one added. *)
Definition arg_asserts (a : SubtableArgs) : Prop :=
  args_ok a ∧
  ∀ e e', e ∈ sa_handlers a → e' ∈ sa_handlers a →
    hte_bci e = hte_bci e' → hte_scope_depth e = hte_scope_depth e' → e = e'.
Fixpoint add_asserts (args : list SubtableArgs) : Prop :=
  match args with
  | [] => True
  | a :: args' =>
      arg_asserts a ∧
      (sa_bcis a ≠ [] → Forall (λ a', sa_catch_pco a' ≠ sa_catch_pco a) args') ∧ add_asserts args'
  end.

(** The handler [e] was given for a catch pc. *)
Definition given (args : list SubtableArgs) (c : Z) (e : HandlerTableEntry) : Prop :=
  ∃ a, a ∈ args ∧ sa_catch_pco a = c ∧ e ∈ sa_handlers a.

Lemma sa_handlers_nil a : args_ok a → sa_bcis a = [] ↔ sa_handlers a = [].
Proof.
  intros [Hp Hd]. pose proof (handlers_length _ _ _ Hp Hd) as Hl. unfold sa_handlers.
  split; intros He; apply nil_length_inv; [rewrite Hl, He|rewrite <- Hl, He]; done.
Qed.

Lemma add_asserts_ok args : add_asserts args → Forall args_ok args.
Proof. induction args as [|a args IH]; intros H; constructor; [apply H|apply IH, H]. Qed.

Lemma find_handler b d (es : list HandlerTableEntry) e :
  (∀ e e', e ∈ es → e' ∈ es → hte_bci e = hte_bci e' → hte_scope_depth e = hte_scope_depth e' → e = e') →
  List.find (is_handler b d) es = Some e ↔ e ∈ es ∧ hte_bci e = b ∧ hte_scope_depth e = d.
Proof.
  intros Huniq. unfold is_handler. split.
  - intros Hf. pose proof (List.find_some _ _ Hf) as [Hin Hb]. apply andb_prop in Hb as [?%Z.eqb_eq ?%Z.eqb_eq].
    split; [by apply list_elem_of_In|done].
  - intros (Hin & <- & <-). destruct (List.find _ es) as [e'|] eqn:Hf.
    + apply List.find_some in Hf as [Hin' Hb]. apply andb_prop in Hb as [?%Z.eqb_eq ?%Z.eqb_eq].
      f_equal. apply Huniq; [by apply list_elem_of_In|done..].
    + apply List.find_none with (x := e) in Hf; [|by apply list_elem_of_In]. by rewrite !Z.eqb_refl in Hf.
Qed.

(** Under the assertions a lookup is the handler given. *)
Lemma lookup_given args c b d e :
  add_asserts args →
  lookup_handler c b d (subtable_of_args <$> args) = Some e ↔ given args c e ∧ hte_bci e = b ∧ hte_scope_depth e = d.
Proof.
  unfold lookup_handler. induction args as [|a args IH]; intros Ha.
  { split; [done|]. by intros [(a & ?%elem_of_nil & _) _]. }
  destruct Ha as ([Hok Huniq] & Hdist & Ha). cbn [fmap list_fmap subtable_of subtable_of_args fst].
  destruct (decide (sa_handlers a ≠ [] ∧ sa_catch_pco a = c)) as [[Hne <-]|Hno]; cbn [mbind option_bind].
  - rewrite find_handler by done. split.
    + intros (He & ?). split; [|done]. exists a. split; [left|done].
    + intros [(a' & Hin & Hc & He) Hbd]. split; [|done]. apply elem_of_cons in Hin as [->|Hin]; [done|]. exfalso.
      rewrite <- sa_handlers_nil in Hne by done. specialize (Hdist Hne). rewrite Forall_forall in Hdist. by eapply Hdist.
  - rewrite IH by done. split; intros [(a' & Hin & Hc & He) Hbd]; (split; [|done]).
    + exists a'. split; [by right|done].
    + apply elem_of_cons in Hin as [->|Hin]; [|by exists a']. exfalso. apply Hno. split; [|done].
      intros Hnil. rewrite Hnil in He. by apply elem_of_nil in He.
Qed.

Section int_sizes.
#[local] Existing Instance int32.

(** C31: A handler table, with its size an [int], built by any sequence of
    [add_subtable] calls that keep the assertions of the source and need no more
    than 2^27 entries, growing as needed, answers every lookup with the handler
    that was given for the catch pc, bci and scope depth, and with none where none
    was given. The copy in the nmethod, whose length is computed back from a size
    rounded up to 8 bytes, answers the same whatever the padding word. *)
Theorem handler_table_roundtrip size args :
  0 < size → add_asserts args → zlen (flat (subtable_of_args <$> args)) ≤ 2 ^ 27 →
  ∃ t t', new_handler_table size = Some t ∧ mforeach add_args args t = Some (tt, t') ∧
    ∀ c b d, ∃ r, entry_for c b d t' = Some r ∧
      (∀ e, r = Some e ↔ given args c e ∧ hte_bci e = b ∧ hte_scope_depth e = d) ∧
      ∀ after, entry_for c b d (handler_table_of (copy_handler_table after t')) = Some r.
Proof.
  intros Hsize Hargs Hlim. destruct (new_table_built size Hsize) as (t & E0 & Hb0).
  destruct (add_subtables_spec args t [] (add_asserts_ok _ Hargs) Hb0) as (t' & E & Hb').
  { apply int32_roomy. cbn [app]. lia. }
  exists t, t'. split; [done|]. split; [done|].
  intros c b d. eexists. split; [by apply entry_for_spec, built_view|]. split; [intros e; by apply lookup_given|].
  intros after. apply entry_for_spec, copy_view; [done|]. apply to_int_small.
  rewrite (round_to_spec _ 3) by (pose proof (zlen_nonneg (flat (subtable_of_args <$> args))); unfold sizeof_HandlerTableEntry; lia).
  change (2 ^ 3) with 8. pose proof (zlen_nonneg (flat (subtable_of_args <$> args))). cbn [app].
  unfold sizeof_HandlerTableEntry. machine.
Qed.

Definition example_args : list SubtableArgs :=
  [mkArgs 10 [3; 5] None [40; 48]; mkArgs 20 [] None []; mkArgs 30 [5] (Some [2]) [56]].
Lemma example_args_asserts : add_asserts example_args.
Proof.
  cbn [add_asserts example_args]. unfold arg_asserts, args_ok, sa_handlers, handlers_of. cbn.
  repeat split; try naive_solver; try (repeat constructor; done).
  all: intros e e' He He'; rewrite ?elem_of_cons, ?elem_of_nil in He, He'; naive_solver.
Qed.
Lemma handler_table_roundtrip_witness :
  ∃ t t', new_handler_table 2 = Some t ∧ mforeach add_args example_args t = Some (tt, t') ∧
    ∀ after, entry_for 30 5 2 (handler_table_of (copy_handler_table after t')) = Some (Some (mkHTE 5 56 2)).
Proof.
  destruct (handler_table_roundtrip 2 example_args) as (t & t' & E0 & E & Hl); [done|apply example_args_asserts|done|].
  exists t, t'. split; [exact E0|]. split; [exact E|].
  destruct (Hl 30 5 2) as (r & _ & Hr & Hc). intros after. rewrite (Hc after). f_equal. apply Hr.
  split; [|done]. exists (mkArgs 30 [5] (Some [2]) [56]). split; [right; right; left|]. split; [done|]. left.
Defined.
End int_sizes.

(** ** Correctness of implicit exception tables *)

Definition pair_words (x : Z * Z) : list Z := [x.1; x.2].

Record iet_ok (t : ImplicitExceptionTable) (l : list (Z * Z)) : Prop := {
  iet_ok_len : iet_len t = zlen l;
  iet_ok_room : zlen l ≤ iet_size t ≤ 8 `max` (2 * zlen l);
  iet_ok_data : zlen (iet_data t) = 2 * iet_size t;
  iet_ok_words : take (2 * length l) (iet_data t) = concat (pair_words <$> l)
}.

Lemma pair_words_length (l : list (Z * Z)) : length (concat (pair_words <$> l)) = (2 * length l)%nat.
Proof. induction l as [|e l IH]; [done|]. cbn [fmap list_fmap concat]. rewrite length_app, IH. cbn. lia. Qed.

Lemma iet_append_spec t l e c :
  iet_ok t l → zlen l < 2 ^ 29 → ∃ t', iet_append e c t = Some (tt, t') ∧ iet_ok t' (l ++ [(e, c)]).
Proof.
  intros [H1 H2 H3 H4] Hlt. unfold iet_append. rewrite H1.
  set (t1 := if zlen l =? iet_size t then _ else t). pose proof (zlen_nonneg l) as Hnn.
  assert (zlen l < iet_size t1 ≤ 8 `max` (2 * zlen l) ∧ zlen (iet_data t1) = 2 * iet_size t1 ∧
    take (2 * length l) (iet_data t1) = concat (pair_words <$> l)) as (K2 & K3 & K4).
  { subst t1. destruct (Z.eqb_spec (zlen l) (iet_size t)) as [Heq|Hne]; [|split_and!; [lia|lia|done|done]].
    set (size := if iet_size t =? 0 then 4 else iet_size t).
    assert (0 < size ≤ 4 `max` zlen l ∧ zlen l ≤ size) as Hs by (subst size; destruct (Z.eqb_spec (iet_size t) 0); lia).
    clearbody size.
    rewrite (wrapU_id 32 (size * 2)), (wrapU_id 32 (size * 2 * 2)) by (unfold in_u; lia).
    cbn [iet_size iet_data]. split; [lia|]. split.
    - unfold zlen in *. rewrite length_take, length_app, length_replicate. lia.
    - unfold zlen in *. rewrite take_take, Nat.min_l, take_app_le by lia. done. }
  clearbody t1. unfold iet_adr. rewrite (wrapU_id 32 (2 * zlen l)) by (unfold in_u; lia). rewrite zset_eq by lia. cbn [mbind option_bind].
  rewrite zset_eq by (unfold zlen; rewrite length_insert; unfold zlen in *; lia). cbn [mbind option_bind].
  eexists. split; [done|]. split; cbn [iet_len iet_size iet_data].
  - rewrite wrapU_id by (unfold in_u; lia). rewrite zlen_app. done.
  - rewrite zlen_app. change (zlen [(e, c)]) with 1. lia.
  - unfold zlen in *. by rewrite !length_insert.
  - rewrite length_app, fmap_app, concat_app, <- K4. cbn [length fmap list_fmap concat pair_words app].
    unfold zlen in *. replace (2 * (length l + 1))%nat with (S (S (2 * length l))) by lia.
    replace (Z.to_nat (2 * Z.of_nat (length l))) with (2 * length l)%nat by lia.
    replace (Z.to_nat (2 * Z.of_nat (length l) + 1)) with (S (2 * length l)) by lia.
    rewrite (take_S_r _ _ c) by (apply list_lookup_insert_eq; rewrite length_insert; lia).
    rewrite (take_S_r _ _ e) by (rewrite list_lookup_insert_ne by lia; apply list_lookup_insert_eq; lia).
    rewrite !take_insert_ge by lia. by rewrite <- app_assoc.
Qed.

Lemma iet_appends_spec l t l0 :
  iet_ok t l0 → zlen (l0 ++ l) ≤ 2 ^ 29 →
  ∃ t', mforeach (λ x, iet_append x.1 x.2) l t = Some (tt, t') ∧ iet_ok t' (l0 ++ l).
Proof.
  revert t l0. induction l as [|[e c] l IH]; intros t l0 Ht Hl.
  - exists t. split; [done|]. by rewrite app_nil_r.
  - rewrite zlen_app, zlen_cons in Hl. pose proof (zlen_nonneg l).
    destruct (iet_append_spec t l0 e c Ht) as (t1 & E1 & Ht1); [lia|].
    destruct (IH t1 _ Ht1) as (t' & E & Ht'); [rewrite !zlen_app; change (zlen [(e, c)]) with 1; lia|].
    exists t'. cbn [mforeach]. rewrite (M_bind_Some _ _ _ _ _ E1). split; [done|]. by rewrite <- app_assoc in Ht'.
Qed.

(** Lookup needs the words only. *)
Lemma iet_loop_spec t l i e :
  take (2 * length l) (iet_data t) = concat (pair_words <$> l) → (i ≤ length l)%nat → zlen l ≤ 2 ^ 29 →
  iet_loop (length l - i) (Z.of_nat i) e t = Some (default 0 (assoc e (drop i l))).
Proof.
  intros Hw. remember (length l - i)%nat as n eqn:Hn. revert i Hn. induction n as [|n IH]; intros i Hn Hi Hl; cbn [iet_loop].
  - by rewrite drop_ge by lia.
  - destruct (lookup_lt_is_Some_2 l i) as [[a c] Hac]; [lia|].
    assert (∀ j v, (j < 2 * length l)%nat → concat (pair_words <$> l) !! j = Some v → zget (iet_data t) (Z.of_nat j) = Some v) as Hget.
    { intros j v Hj Hv. unfold zget. rewrite decide_True, Nat2Z.id by lia. rewrite <- Hw, lookup_take_lt in Hv by lia. done. }
    assert (concat (pair_words <$> l) !! (2 * i)%nat = Some a ∧ concat (pair_words <$> l) !! S (2 * i)%nat = Some c) as [Ha Hc].
    { rewrite <- (take_drop_middle _ _ _ Hac), fmap_app, concat_app. cbn [fmap list_fmap concat pair_words].
      assert (length (concat (pair_words <$> take i l)) = (2 * i)%nat) as Hpre by (rewrite pair_words_length, length_take; lia).
      split; (rewrite lookup_app_r, Hpre by lia); [by rewrite Nat.sub_diag|by rewrite Nat.sub_succ_l, Nat.sub_diag]. }
    unfold iet_adr, zlen in *. rewrite wrapU_id by (unfold in_u; lia).
    replace (2 * Z.of_nat i) with (Z.of_nat (2 * i)) by lia. replace (Z.of_nat (2 * i) + 1) with (Z.of_nat (S (2 * i))) by lia.
    rewrite (Hget (2 * i)%nat a ltac:(lia) Ha). cbn [mbind option_bind]. rewrite (drop_S _ _ _ Hac). cbn [assoc].
    destruct (Z.eqb_spec a e) as [->|Hne].
    + rewrite decide_True by done. by rewrite (Hget (S (2 * i)) c ltac:(lia) Hc).
    + rewrite decide_False by done. replace (Z.of_nat i + 1) with (Z.of_nat (S i)) by lia. apply IH; lia.
Qed.

Lemma iet_at_spec t l e :
  iet_len t = zlen l → take (2 * length l) (iet_data t) = concat (pair_words <$> l) → zlen l ≤ 2 ^ 29 →
  iet_at e t = Some (default 0 (assoc e l)).
Proof.
  intros Hlen Hw Hl. unfold iet_at. rewrite Hlen. unfold zlen at 1. rewrite Nat2Z.id.
  pose proof (iet_loop_spec t l 0 e Hw ltac:(lia) Hl) as E. by rewrite Nat.sub_0_r in E.
Qed.

(** The nmethod's section after the copy. *)
Lemma copy_implicit_spec t l section :
  iet_ok t l → l ≠ [] → zlen section = round_to (iet_size_in_bytes t) 8 / 4 →
  ∃ rest, copy_implicit_table t section = Some (zlen l :: concat (pair_words <$> l) ++ rest).
Proof.
  intros [H1 H2 H3 H4] Hne Hsec. pose proof (zlen_nonneg l).
  assert (0 < zlen l) as Hpos by (destruct l; [done|rewrite zlen_cons; pose proof (zlen_nonneg l); lia]).
  unfold copy_implicit_table, iet_size_in_bytes in *. rewrite H1, (proj2 (Z.eqb_neq (zlen l) 0)) in * by lia. cbn [negb].
  assert (2 * zlen l + 1 ≤ zlen section) as Hroom.
  { rewrite Hsec, (round_to_spec _ 3) by lia. change (2 ^ 3) with 8. Z.div_mod_to_equations. lia. }
  rewrite zset_eq by lia. cbn [mbind option_bind]. rewrite decide_True.
  2: { rewrite length_insert. unfold zlen in *. lia. }
  eexists. f_equal. destruct section as [|w section]; [unfold zlen in Hroom; cbn in Hroom; lia|]. cbn. f_equal. f_equal.
  rewrite <- H4. f_equal. unfold zlen. lia.
Qed.

(** An implicit exception table with up to 2^29 entries answers every lookup
    with the continuation appended first for the offset, and 0 where there is
    none. So does its copy in the nmethod, where an empty table takes no space:
    the continuation of an implicit exception at an offset of the code is the
    code's begin plus the continuation offset recorded, or null. *)
Theorem implicit_table_roundtrip l :
  zlen l ≤ 2 ^ 29 → Forall (λ x, 0 ≤ x.2 < 2 ^ 31) l →
  ∃ t, mforeach (λ x, iet_append x.1 x.2) l new_implicit_table = Some (tt, t) ∧
    (∀ e, iet_at e t = Some (default 0 (assoc e l))) ∧
    ∀ section, zlen section = round_to (iet_size_in_bytes t) 8 / 4 →
      ∃ section', copy_implicit_table t section = Some section' ∧
        ∀ code_begin off, 0 ≤ off < 2 ^ 31 →
          continuation_for_implicit_exception code_begin (code_begin + off) section' =
            Some (match assoc off l with
                  | Some c => if decide (c = 0) then 0 else code_begin + c
                  | None => 0
                  end).
Proof.
  intros Hl Hc. destruct (iet_appends_spec l new_implicit_table []) as (t & E & Ht); [by split; unfold zlen; cbn; (done || lia)|done|].
  exists t. split; [done|]. cbn [app] in Ht. destruct Ht as [H1 H2 H3 H4].
  split; [intros e; by apply iet_at_spec|]. intros section Hsec.
  assert (∃ section' t', copy_implicit_table t section = Some section' ∧ implicit_table_of section' = Some t' ∧
    iet_len t' = zlen l ∧ take (2 * length l) (iet_data t') = concat (pair_words <$> l)) as (section' & t' & Ec & Eo & Hl' & Hw').
  { destruct (decide (l = [])) as [->|Hne].
    - exists section, (mkIET 0 0 []). unfold copy_implicit_table, iet_size_in_bytes in *. rewrite H1 in *. cbn in Hsec |- *.
      split_and!; [done| |done|done]. unfold implicit_table_of. by rewrite Hsec.
    - destruct (copy_implicit_spec t l section (Build_iet_ok _ _ H1 H2 H3 H4) Hne Hsec) as (rest & ->).
      eexists _, (mkIET (zlen l) (zlen l) (concat (pair_words <$> l) ++ rest)). split; [done|]. unfold implicit_table_of.
      rewrite zlen_cons, (proj2 (Z.eqb_neq _ 0)) by (pose proof (zlen_nonneg (concat (pair_words <$> l) ++ rest)); lia).
      split; [done|]. split; [done|]. cbn [iet_data]. rewrite take_app_le by (rewrite pair_words_length; lia).
      by rewrite take_ge by (rewrite pair_words_length; lia). }
  exists section'. split; [done|]. intros code_begin off Hoff. unfold continuation_for_implicit_exception.
  replace (code_begin + off - code_begin) with off by lia.
  rewrite (wrapS_id 32 off), (wrapU_id 32 off) by (unfold in_s, in_u; lia). rewrite Eo. cbn [mbind option_bind].
  rewrite (iet_at_spec t' l off Hl' Hw' Hl). cbn [mbind option_bind]. destruct (assoc off l) as [c|] eqn:Ha; [|done].
  rewrite Forall_forall in Hc. apply assoc_elem, Hc in Ha. cbn in Ha |- *. unfold id.
  rewrite wrapS_id by (unfold in_s; lia). case_decide as Hz; [by subst|]. by rewrite (proj2 (Z.eqb_neq c 0) Hz).
Qed.

Lemma implicit_table_roundtrip_witness :
  ∃ t section', mforeach (λ x, iet_append x.1 x.2) [(12, 80); (20, 96)] new_implicit_table = Some (tt, t) ∧
    copy_implicit_table t (replicate 6 9) = Some section' ∧
    continuation_for_implicit_exception 1000 1020 section' = Some 1096 ∧
    continuation_for_implicit_exception 1000 1016 section' = Some 0.
Proof.
  destruct (implicit_table_roundtrip [(12, 80); (20, 96)]) as (t & E & _ & Hcopy); [done|by repeat constructor|].
  destruct (Hcopy (replicate 6 9)) as (section' & Ec & Hcont).
  { assert (iet_len t = 2) as Ht by (vm_compute in E; injection E as <-; reflexivity).
    unfold iet_size_in_bytes. rewrite Ht. reflexivity. }
  exists t, section'. split; [exact E|]. split; [exact Ec|].
  split; [apply (Hcont 1000 20); lia|apply (Hcont 1000 16); lia].
Defined.
