(* ===== verification/ExceptionDispatch.v ===== *)
(** * Finding the handler of an exception in compiled code

    [Method::fast_exception_handler_bci_for] (oops/method.cpp),
    [SharedRuntime::compute_compiled_exc_handler] (runtime/sharedRuntime.cpp),
    [exception_handler_for_pc_helper] (jvmci/jvmciRuntime.cpp) and
    [CodeInstaller::site_ExceptionHandler] (jvmci/jvmciCodeInstaller.cpp) on top of
    the handler table and the exception cache. *)

From stdpp Require Import base numbers list gmap.
From S2P Require Import Prelude GlobalDefinitions ExceptionCache ExceptionTables.
Local Open Scope Z_scope.

(** ** The bytecode exception table *)

Record ExceptionTableElement := mkETE {
  start_pc : Z;
  end_pc : Z;
  handler_pc : Z;
  catch_type_index : Z
}.

(** The result: a handler bci or -1, or, when resolving a catch type throws, the
    handler bci of that entry and the class of the pending exception. *)
Inductive bci_result :=
  | HandlerBci (bci : Z)
  | Pending (bci exception : Z).

Section bytecode.
(** Class resolution in the constant pool of the method, which can throw, and
    subtyping. *)
Context (klass_at : Z → Z → Z + Z) (is_subtype_of : Z → Z → bool).

Fixpoint fast_exception_handler_bci_for (method : Z) (table : list ExceptionTableElement)
    (ex_klass throw_bci : Z) : bci_result :=
  match table with
  | [] => HandlerBci (-1)
  | t :: table' =>
      if (start_pc t <=? throw_bci) && (throw_bci <? end_pc t) then
        let handler_bci := handler_pc t in
        let klass_index := catch_type_index t in
        if klass_index =? 0 then HandlerBci handler_bci
        else if ex_klass =? 0 then HandlerBci handler_bci
        else match klass_at method klass_index with
             | inl k =>
                 if is_subtype_of ex_klass k then HandlerBci handler_bci
                 else fast_exception_handler_bci_for method table' ex_klass throw_bci
             | inr exception => Pending handler_bci exception
             end
      else fast_exception_handler_bci_for method table' ex_klass throw_bci
  end.

(** ** The search through the scopes *)

(** Method and bci of a scope; the list is a scope and its senders. *)
Definition scope : Type := Z * Z.
Context (exception_table : Z → list ExceptionTableElement).

Record search_result := mkSearch {
  sr_handler_bci : Z;
  sr_scope_depth : Z;
  sr_exception : Z;
  sr_recursive : bool
}.

(** The [do] loop. *)
Fixpoint search_loop (fuel : nat) (top_frame_only : bool) (sd : list scope) (bci exception scope_depth : Z)
    (recursive : bool) : option search_result :=
  match fuel, sd with
  | S fuel', (method, _) :: senders =>
      match fast_exception_handler_bci_for method (exception_table method) exception bci with
      | Pending handler_bci exception =>
          if 0 <=? handler_bci then search_loop fuel' top_frame_only sd handler_bci exception scope_depth true
          else if negb top_frame_only then
            match senders with
            | [] => None
            | (_, bci) :: _ => search_loop fuel' top_frame_only senders bci exception (scope_depth + 1) true
            end
          else search_loop fuel' top_frame_only sd bci exception scope_depth true
      | HandlerBci handler_bci =>
          if negb top_frame_only && (handler_bci <? 0) then
            match senders with
            | [] => Some (mkSearch handler_bci (scope_depth + 1) exception recursive)
            | (_, bci) :: _ => search_loop fuel' top_frame_only senders bci exception (scope_depth + 1) recursive
            end
          else Some (mkSearch handler_bci scope_depth exception recursive)
      end
  | _, _ => None
  end.

(** ** The handler of compiled code *)

Inductive compiler := ByJVMCI | ByC1 | ByC2.
#[global] Instance compiler_eq_dec : EqDecision compiler.
Proof. solve_decision. Defined.

Record exc_nmethod := mkEN {
  en_compiler : compiler;
  en_code_begin : Z;
  en_handler_table : list Z;
  en_unwind_handler_begin : Z;
  en_scopes : Z → list scope
}.

(** Where to continue: at an address, or in the deoptimization blob after
    [make_not_entrant] and [Deoptimization::deoptimize]. *)
Inductive continuation :=
  | ContinueAt (pc : Z)
  | Deoptimize.
#[global] Instance continuation_eq_dec : EqDecision continuation.
Proof. solve_decision. Defined.

Definition compute_compiled_exc_handler (fuel : nat) (nm : exc_nmethod) (ret_pc exception : Z)
    (force_unwind top_frame_only : bool) : option (continuation * Z * bool) :=
  let table := handler_table_of (en_handler_table nm) in
  let catch_pco := s32 (ret_pc - en_code_begin nm) in
  match en_compiler nm with
  | ByJVMCI =>
      t ← entry_for catch_pco (-1) 0 table;
      match t with
      | Some t => Some (ContinueAt (en_code_begin nm + hte_pco t), exception, false)
      | None => Some (Deoptimize, exception, false)
      end
  | _ =>
      let sd := en_scopes nm ret_pc in
      '(mkSearch handler_bci scope_depth exception recursive) ←
        (if negb force_unwind then
           match sd with
           | [] => None
           | (_, bci) :: _ => search_loop fuel top_frame_only sd bci exception 0 false
           end
         else Some (mkSearch (-1) 0 exception false));
      t ← entry_for catch_pco handler_bci scope_depth table;
      t ← (match t with
           | None =>
               if (match en_compiler nm with ByC1 => true | _ => false end) || negb (handler_bci =? -1)
               then entry_for catch_pco (-1) 0 table else Some None
           | Some _ => Some t
           end);
      match t, en_compiler nm with
      | Some t, _ => Some (ContinueAt (en_code_begin nm + hte_pco t), exception, recursive)
      | None, ByC1 => Some (ContinueAt (en_unwind_handler_begin nm), exception, recursive)
      | None, _ => None
      end
  end.

(** ** The runtime entry, with the exception cache *)

Context (new_address : gmap Z ExceptionCache → Z).

(** The pc, adjusted for a deoptimized frame, and the state of the thread's
    guard pages after the attempt to reenable them are given. The result is
    null when the frame is unwound without a search. *)
Definition exception_handler_for_pc_helper (fuel : nat) (nm : exc_nmethod) (guard_pages_enabled can_post_on_exceptions : bool)
    (exception pc : Z) : M exceptions continuation := λ s,
  if can_post_on_exceptions then Some (Deoptimize, s)
  else
    fast_continuation ← (if guard_pages_enabled then handler_for_exception_and_pc exception pc s else Some 0);
    if negb (fast_continuation =? 0) then Some (ContinueAt fast_continuation, s)
    else if guard_pages_enabled then
      '(c, exception, recursive_exception) ← compute_compiled_exc_handler fuel nm pc exception false false;
      match c with
      | ContinueAt a =>
          if negb (a =? 0) && negb recursive_exception then
            s ← add_handler_for_exception_and_pc new_address exception pc a s; Some (c, s)
          else Some (c, s)
      | Deoptimize => Some (c, s)
      end
    else Some (ContinueAt 0, s).
End bytecode.

(** ** Recording handlers in the JVMCI code installer *)

Definition site_ExceptionHandler (pc_offset handler_offset : Z) : M ExceptionHandlerTable unit :=
  add_entry (mkHTE 1 pc_offset 0) ;;
  add_entry (mkHTE (-1) handler_offset 0).

(** ** The search *)

Section search.
Context (klass_at : Z → Z → Z + Z) (is_subtype_of : Z → Z → bool).
Context (exception_table : Z → list ExceptionTableElement).
Local Abbreviation fast := (fast_exception_handler_bci_for klass_at is_subtype_of).
Local Abbreviation search := (search_loop klass_at is_subtype_of exception_table).

(** What the search means when no class resolution fails: the handler of the
    innermost scope that has one. *)
Definition scope_handler (exception : Z) (sc : scope) : Z :=
  match fast sc.1 (exception_table sc.1) exception sc.2 with HandlerBci bci | Pending bci _ => bci end.
Fixpoint innermost (exception depth : Z) (scopes : list scope) : Z * Z :=
  match scopes with
  | [] => (-1, depth)
  | sc :: senders =>
      if 0 <=? scope_handler exception sc then (scope_handler exception sc, depth)
      else innermost exception (depth + 1) senders
  end.

Lemma fast_no_pending method table ex bci :
  (∀ m i, ∃ k, klass_at m i = inl k) → Forall (λ t, 0 ≤ handler_pc t) table →
  ∃ r, fast method table ex bci = HandlerBci r ∧ -1 ≤ r.
Proof.
  intros Hk. induction table as [|t table IH]; intros Ht; cbn; [exists (-1); split; [done|lia]|].
  apply Forall_cons in Ht as [Ht Htab].
  assert (∃ r, HandlerBci (handler_pc t) = HandlerBci r ∧ -1 ≤ r) as Hhit by (exists (handler_pc t); split; [done|lia]).
  destruct ((start_pc t <=? bci) && (bci <? end_pc t)); [|by apply IH].
  destruct (catch_type_index t =? 0); [done|]. destruct (ex =? 0); [done|].
  destruct (Hk method (catch_type_index t)) as [k ->]. destruct (is_subtype_of ex k); [done|by apply IH].
Qed.

Lemma search_loop_spec scopes method bci senders exception depth recursive fuel :
  (∀ m i, ∃ k, klass_at m i = inl k) → (∀ m, Forall (λ t, 0 ≤ handler_pc t) (exception_table m)) →
  scopes = (method, bci) :: senders → (length scopes ≤ fuel)%nat →
  search fuel false scopes bci exception depth recursive =
    Some (let '(h, d) := innermost exception depth scopes in mkSearch h d exception recursive).
Proof.
  intros Hk Ht. revert scopes method bci senders depth. induction fuel as [|fuel IH]; intros scopes method bci senders depth -> Hf;
    cbn [length] in Hf; [lia|].
  destruct (fast_no_pending method (exception_table method) exception bci Hk (Ht method)) as (r & Hr & Hr1).
  cbn [search_loop innermost]. unfold scope_handler at 1 2. cbn [fst snd]. rewrite !Hr. cbn [negb andb].
  destruct (Z.ltb_spec r 0) as [Hneg|Hpos].
  - rewrite (proj2 (Z.leb_gt _ _) Hneg). destruct senders as [|[m b] senders]; [cbn; do 2 f_equal; lia|].
    by apply (IH _ m b senders); [|cbn [length] in *; lia].
  - by rewrite (proj2 (Z.leb_le _ _) Hpos).
Qed.
End search.

(** C32: The search for a handler ends after one step per inlined scope when no
    catch type fails to resolve, and finds the innermost scope with a handler:
    its handler bci and its depth, or -1 and the number of scopes. *)
Theorem handler_search_terminates klass_at is_subtype_of exception_table method bci senders exception :
  (∀ m i, ∃ k, klass_at m i = inl k) → (∀ m, Forall (λ t, 0 ≤ handler_pc t) (exception_table m)) →
  search_loop klass_at is_subtype_of exception_table (S (length senders)) false ((method, bci) :: senders)
      bci exception 0 false =
    Some (let '(h, d) := innermost klass_at is_subtype_of exception_table exception 0 ((method, bci) :: senders) in
          mkSearch h d exception false).
Proof. intros Hk Ht. by eapply search_loop_spec. Qed.

Definition example_table (method : Z) : list ExceptionTableElement :=
  if method =? 1 then [mkETE 0 10 40 3] else [mkETE 5 20 60 0].
Lemma handler_search_terminates_witness :
  search_loop (λ _ i, inl i) (λ x y, x =? y) example_table 2 false [(1, 4); (2, 8)] 4 77 0 false =
    Some (mkSearch 60 1 77 false).
Proof.
  etransitivity; [apply (handler_search_terminates (λ _ i, inl i) (λ x y, x =? y) example_table 1 4 [(2, 8)] 77)
                 |reflexivity]; [by eauto|].
  intros m. unfold example_table. destruct (m =? 1); repeat constructor; done.
Defined.

(** An entry that does not stop the search at a bci: it does not cover the bci, or
    its catch type resolves to a class that the exception is not of. *)
Definition passes (klass_at : Z → Z → Z + Z) (is_subtype_of : Z → Z → bool) (method exception bci : Z)
    (t : ExceptionTableElement) : Prop :=
  ¬ (start_pc t ≤ bci < end_pc t) ∨
  (catch_type_index t ≠ 0 ∧ exception ≠ 0 ∧
   ∃ k, klass_at method (catch_type_index t) = inl k ∧ is_subtype_of exception k = false).

Lemma fast_passes klass_at is_subtype_of method pre table ex bci :
  Forall (passes klass_at is_subtype_of method ex bci) pre →
  fast_exception_handler_bci_for klass_at is_subtype_of method (pre ++ table) ex bci =
  fast_exception_handler_bci_for klass_at is_subtype_of method table ex bci.
Proof.
  induction 1 as [|t pre Ht _ IH]; [done|]. cbn [app fast_exception_handler_bci_for].
  destruct Ht as [Hout|(Hidx & Hex & k & Hk & Hsub)].
  - destruct (Z.leb_spec (start_pc t) bci), (Z.ltb_spec bci (end_pc t)); cbn [andb]; (done || lia).
  - rewrite (proj2 (Z.eqb_neq _ 0) Hidx), (proj2 (Z.eqb_neq _ 0) Hex), Hk, Hsub, IH. by destruct (_ && _).
Qed.

(** A handler whose catch type can not be resolved, at a bci it covers. *)
Lemma fast_unresolved klass_at is_subtype_of method t table ex bci error :
  start_pc t ≤ bci < end_pc t → catch_type_index t ≠ 0 → ex ≠ 0 → klass_at method (catch_type_index t) = inr error →
  fast_exception_handler_bci_for klass_at is_subtype_of method (t :: table) ex bci = Pending (handler_pc t) error.
Proof.
  intros [Hlo Hhi] Hidx Hex Hk. cbn [fast_exception_handler_bci_for].
  by rewrite (proj2 (Z.leb_le _ _) Hlo), (proj2 (Z.ltb_lt _ _) Hhi), (proj2 (Z.eqb_neq _ 0) Hidx),
    (proj2 (Z.eqb_neq _ 0) Hex), Hk.
Qed.

(** C39: The search does not end when an exception reaches a handler that covers
    its own first instruction and whose catch type can not be resolved. In any
    exception table with such an entry, if the entries before it do not stop the
    search, neither for the exception at the bci where it is thrown nor for the
    error that resolution throws at the handler's bci, then resolution throws, the
    search is repeated from the handler's bci, finds the same entry, and resolution
    throws again. However long the loop runs, it has not returned. *)
Theorem handler_search_can_diverge klass_at is_subtype_of exception_table method bci senders pre t post error exception :
  exception_table method = pre ++ t :: post →
  start_pc t ≤ bci < end_pc t → start_pc t ≤ handler_pc t < end_pc t → 0 ≤ handler_pc t →
  catch_type_index t ≠ 0 → klass_at method (catch_type_index t) = inr error → exception ≠ 0 → error ≠ 0 →
  Forall (passes klass_at is_subtype_of method exception bci) pre →
  Forall (passes klass_at is_subtype_of method error (handler_pc t)) pre →
  ∀ fuel top_frame_only scope_depth recursive,
    search_loop klass_at is_subtype_of exception_table fuel top_frame_only
      ((method, bci) :: senders) bci exception scope_depth recursive = None.
Proof.
  intros Ht Hbci Hcov Hpos Hidx Hk Hex Herr Hpre Hpre' fuel top depth.
  assert (∀ fuel b ex r, start_pc t ≤ b < end_pc t → ex ≠ 0 → Forall (passes klass_at is_subtype_of method ex b) pre →
    search_loop klass_at is_subtype_of exception_table fuel top ((method, bci) :: senders) b ex depth r = None) as Hloop.
  { clear fuel. induction fuel as [|fuel IH]; intros b ex r Hb Hx Hp; [done|]. cbn [search_loop].
    rewrite Ht, fast_passes, (fast_unresolved _ _ _ _ _ _ _ error) by done.
    rewrite (proj2 (Z.leb_le _ _) Hpos). by apply IH. }
  intros r. by apply Hloop.
Qed.

(** A [finally]-like handler at 4 for bytecodes 0 to 9, after one for another class. *)
Definition example_klass_at (method index : Z) : Z + Z := if index =? 2 then inl 55 else inr 99.
Lemma handler_search_can_diverge_witness :
  search_loop example_klass_at (λ _ _, false) (λ _, [mkETE 0 20 30 2; mkETE 0 10 4 3]) 100 false [(1, 7)] 7 77 0 false = None.
Proof.
  apply (handler_search_can_diverge example_klass_at (λ _ _, false) (λ _, [mkETE 0 20 30 2; mkETE 0 10 4 3]) 1 7 []
    [mkETE 0 20 30 2] (mkETE 0 10 4 3) [] 99 77); cbn; try lia; try reflexivity.
  all: constructor; [|constructor]; right; cbn; (split; [lia|]; split; [lia|]); exists 55; split; reflexivity.
Defined.

(** ** Dispatch with the cache *)

(** The classes of the VM: how catch types resolve, and subtyping. A class is given
    by its address, and the address of an unloaded class can be used again. *)
Record classes := mkClasses {
  cl_klass_at : Z → Z → Z + Z;
  cl_is_subtype_of : Z → Z → bool
}.

(** What happens to the nmethod: an exception is raised at a pc, or classes are
    unloaded, after which the classes are others, and the cache is cleaned. *)
Inductive exc_event :=
  | Raised (exception pc : Z)
  | Unloaded (is_loader_alive : Z → bool) (cl : classes).

Section dispatch.
Context (exception_table : Z → list ExceptionTableElement).
Context (new_address : gmap Z ExceptionCache → Z).
Context (fuel : nat) (nm : exc_nmethod).
Implicit Types (cl : classes) (s : exceptions).
Local Abbreviation search cl := (search_loop (cl_klass_at cl) (cl_is_subtype_of cl) exception_table).
Local Abbreviation compute cl := (compute_compiled_exc_handler (cl_klass_at cl) (cl_is_subtype_of cl) exception_table fuel nm).
Local Abbreviation helper cl := (exception_handler_for_pc_helper (cl_klass_at cl) (cl_is_subtype_of cl) exception_table new_address fuel nm).

Definition run_event (ev : exc_event) : M (classes * exceptions) (option continuation) := λ '(cl, s),
  match ev with
  | Raised exception pc => '(c, s) ← helper cl true false exception pc s; Some (Some c, (cl, s))
  | Unloaded alive cl' => s ← clean_exception_cache alive s; Some (None, (cl', s))
  end.

(** The answers without a cache, from the classes of the time. *)
Fixpoint answers cl (evs : list exc_event) : list (option continuation) :=
  match evs with
  | [] => []
  | Raised exception pc :: evs' => ((λ r, r.1.1) <$> compute cl pc exception false false) :: answers cl evs'
  | Unloaded _ cl' :: evs' => None :: answers cl' evs'
  end.

(** What is computed for a class that stays does not change. *)
Definition stable (alive : Z → bool) cl cl' : Prop :=
  ∀ k pc h k', kept alive k = true →
    compute cl pc k false false = Some (ContinueAt h, k', false) →
    compute cl' pc k false false = Some (ContinueAt h, k', false).
Fixpoint answered cl (evs : list exc_event) : Prop :=
  match evs with
  | [] => True
  | Raised exception pc :: evs' => is_Some (compute cl pc exception false false) ∧ answered cl evs'
  | Unloaded alive cl' :: evs' => stable alive cl cl' ∧ answered cl' evs'
  end.

(** The cache holds computed handlers only. *)
Definition cache_sound cl s : Prop :=
  ∃ m, represents s m ∧
    ∀ k pc h, m !! (k, pc) = Some h → h ≠ 0 ∧ ∃ k', compute cl pc k false false = Some (ContinueAt h, k', false).

Lemma cache_sound_empty cl : cache_sound cl no_exceptions.
Proof. exists ∅. split; [apply represents_empty|]. intros k pc h. by rewrite lookup_empty. Qed.

Lemma search_recursive cl n top sd bci ex depth res :
  search cl n top sd bci ex depth true = Some res → sr_recursive res = true.
Proof.
  revert sd bci ex depth. induction n as [|n IH]; intros [|[m b] senders] bci ex depth; cbn [search_loop]; try done.
  repeat (case_match; try done); try (intros [= <-]; done); eauto.
Qed.

(** An exception found without another one is the one raised. *)
Lemma search_exception cl n top sd bci ex depth res :
  search cl n top sd bci ex depth false = Some res → sr_recursive res = false → sr_exception res = ex.
Proof.
  revert sd bci depth. induction n as [|n IH]; intros [|[m b] senders] bci depth; cbn [search_loop]; try done.
  destruct (fast_exception_handler_bci_for _ _ m _ ex bci) as [h|h e].
  - repeat (case_match; try done); try (intros [= <-]; done). by apply IH.
  - repeat (case_match; try done); intros Hs Hr; apply search_recursive in Hs; congruence.
Qed.

Lemma compute_search cl pc ex c ex' :
  en_compiler nm ≠ ByJVMCI → compute cl pc ex false false = Some (c, ex', false) →
  ∃ m b senders res, en_scopes nm pc = (m, b) :: senders ∧
    search cl fuel false ((m, b) :: senders) b ex 0 false = Some res ∧ sr_recursive res = false ∧ ex' = sr_exception res.
Proof.
  intros Hnm. unfold compute_compiled_exc_handler. destruct (en_compiler nm); [done|..].
  all: cbn [negb]; destruct (en_scopes nm pc) as [|[m b] l]; [done|].
  all: destruct (search_loop _ _ _ _ _ _ _ _ _ _) as [[h d e r]|] eqn:Hs; [|done]; cbn [mbind option_bind]; intros Hc.
  all: assert (ex' = e ∧ r = false) as [-> ->] by (repeat (case_match; simplify_option_eq; try done)).
  all: by eexists _, _, _, _.
Qed.

Lemma compute_exception cl pc ex c ex' : compute cl pc ex false false = Some (c, ex', false) → ex' = ex.
Proof.
  intros Hc. destruct (decide (en_compiler nm = ByJVMCI)) as [Hj|Hj].
  - revert Hc. unfold compute_compiled_exc_handler. rewrite Hj.
    destruct (entry_for _ _ _ _) as [[t|]|]; cbn; by intros [= <- <-] || done.
  - destruct (compute_search cl pc ex c ex' Hj Hc) as (m & b & senders & res & _ & Hs & Hr & ->).
    by apply search_exception in Hs.
Qed.

Context (Hnew : ∀ h, new_address h ≠ 0 ∧ h !! new_address h = None).

Lemma raised_spec cl s ex pc :
  cache_sound cl s → is_Some (compute cl pc ex false false) →
  ∃ c s', helper cl true false ex pc s = Some (c, s') ∧ cache_sound cl s' ∧
    (λ r, r.1.1) <$> compute cl pc ex false false = Some c.
Proof.
  intros (m & Hrep & Hm) [[[c ex'] r] Hc]. unfold exception_handler_for_pc_helper.
  pose proof Hrep as (l & Hs & Hl). rewrite (handler_for_spec ex pc s l Hs), (holds_assoc _ _ _ Hl). cbn [mbind option_bind].
  destruct (m !! (ex, pc)) as [h|] eqn:Hh; cbn [default].
  - destruct (Hm _ _ _ Hh) as (Hh0 & k' & Hk). unfold id. rewrite (proj2 (Z.eqb_neq h 0) Hh0). cbn [negb].
    exists (ContinueAt h), s. split; [done|]. split; [by exists m|]. by rewrite Hk.
  - cbn [Z.eqb negb]. rewrite Hc. cbn [mbind option_bind fmap option_fmap option_map fst].
    assert (cache_sound cl s) as Hsound by (by exists m).
    destruct c as [a|]; [|by exists Deoptimize, s].
    destruct (Z.eqb_spec a 0) as [->|Ha]; [by exists (ContinueAt 0), s|]. destruct r; [by exists (ContinueAt a), s|].
    pose proof (compute_exception cl pc ex _ _ Hc) as ->. cbn [negb andb].
    destruct (add_represents new_address Hnew s m ex pc a Hrep Ha (or_introl Hh)) as (s' & -> & Hrep').
    exists (ContinueAt a), s'. split; [done|]. split; [|done]. exists (<[(ex, pc) := a]> m). split; [done|].
    intros k p h Hkp. apply lookup_insert_Some in Hkp as [[[= <- <-] <-]|[_ Hkp]]; [|by apply Hm].
    split; [done|]. by exists ex.
Qed.

(** Cleaning removes what the classes that go had in the cache. *)
Lemma unloaded_spec cl cl' s alive :
  cache_sound cl s → stable alive cl cl' → ∃ s', clean_exception_cache alive s = Some s' ∧ cache_sound cl' s'.
Proof.
  intros (m & Hrep & Hm) Hst. destruct (clean_represents s m alive Hrep) as (s' & -> & Hrep').
  exists s'. split; [done|]. eexists. split; [exact Hrep'|]. intros k pc h [Hkp Hkept]%map_lookup_filter_Some.
  destruct (Hm _ _ _ Hkp) as (Hh & k' & Hc). split; [done|]. exists k'. by apply Hst.
Qed.

Lemma events_spec evs cl s :
  cache_sound cl s → answered cl evs → ∃ st, mmap run_event evs (cl, s) = Some (answers cl evs, st).
Proof.
  revert cl s. induction evs as [|[ex pc|alive cl'] evs IH]; intros cl s Hs Hevs; cbn [mmap answers answered] in *; [by eexists|..].
  - destruct Hevs as [Hev Hevs]. destruct (raised_spec cl s ex pc Hs Hev) as (c & s1 & E1 & Hs1 & ->).
    destruct (IH cl s1 Hs1 Hevs) as (st & E). exists st.
    rewrite (M_bind_Some _ _ _ (Some c) (cl, s1)) by (cbn [run_event]; by rewrite E1). by rewrite (M_bind_Some _ _ _ _ _ E).
  - destruct Hevs as [Hst Hevs]. destruct (unloaded_spec cl cl' s alive Hs Hst) as (s1 & E1 & Hs1).
    destruct (IH cl' s1 Hs1 Hevs) as (st & E). exists st.
    rewrite (M_bind_Some _ _ _ None (cl', s1)) by (cbn [run_event]; by rewrite E1). by rewrite (M_bind_Some _ _ _ _ _ E).
Qed.

(** *** When the search answers *)

(** Unloading changes neither how catch types of the code resolve nor what classes
    that stay are subtypes of. *)
Definition keeps (alive : Z → bool) cl cl' : Prop :=
  (∀ m i, cl_klass_at cl' m i = cl_klass_at cl m i) ∧
  ∀ x k, kept alive x = true → cl_is_subtype_of cl' x k = cl_is_subtype_of cl x k.

Lemma fast_keeps alive cl cl' m table ex bci :
  keeps alive cl cl' → kept alive ex = true →
  fast_exception_handler_bci_for (cl_klass_at cl') (cl_is_subtype_of cl') m table ex bci =
  fast_exception_handler_bci_for (cl_klass_at cl) (cl_is_subtype_of cl) m table ex bci.
Proof.
  intros [Hk Hsub] Hex. induction table as [|t table IH]; [done|]. cbn [fast_exception_handler_bci_for].
  rewrite Hk, IH. destruct (cl_klass_at cl m (catch_type_index t)) as [k|]; [|done]. by rewrite (Hsub ex k Hex).
Qed.

Lemma search_keeps alive cl cl' n sd bci ex depth res :
  keeps alive cl cl' → kept alive ex = true →
  search cl n false sd bci ex depth false = Some res → sr_recursive res = false →
  search cl' n false sd bci ex depth false = Some res.
Proof.
  intros Hkeep Hex. revert sd bci depth. induction n as [|n IH]; intros [|[m b] senders] bci depth; cbn [search_loop]; try done.
  rewrite (fast_keeps alive cl cl' m _ ex bci Hkeep Hex).
  destruct (fast_exception_handler_bci_for _ _ m _ ex bci) as [h|h e].
  - destruct (_ && _); [|done]. destruct senders as [|[m' b'] senders]; [done|]. apply IH.
  - intros Hs Hr. exfalso. cbn [negb] in Hs. repeat (case_match; try done); apply search_recursive in Hs; congruence.
Qed.

Lemma keeps_stable alive cl cl' : keeps alive cl cl' → stable alive cl cl'.
Proof.
  intros Hkeep k pc h k' Hk Hc. destruct (decide (en_compiler nm = ByJVMCI)) as [Hj|Hj].
  { revert Hc. unfold compute_compiled_exc_handler. by rewrite Hj. }
  destruct (compute_search cl pc k _ k' Hj Hc) as (m & b & senders & res & Hsc & Hs & Hr & _).
  revert Hc. unfold compute_compiled_exc_handler. destruct (en_compiler nm); [done|..]; cbn [negb]; rewrite Hsc, Hs;
    by rewrite (search_keeps alive cl cl' _ _ _ _ _ _ Hkeep Hk Hs Hr).
Qed.

(** Failing resolutions make progress: the handler whose catch type failed ranks
    below the bci the search was at, with fewer than [ranks] ranks. When every catch
    type resolves one rank is enough. *)
Definition progress (ranks : nat) cl : Prop :=
  ∃ rank : Z → Z → nat, (∀ m bci, (rank m bci < ranks)%nat) ∧
    ∀ m ex bci h e,
      fast_exception_handler_bci_for (cl_klass_at cl) (cl_is_subtype_of cl) m (exception_table m) ex bci = Pending h e →
      0 ≤ h ∧ (rank m h < rank m bci)%nat.

Lemma search_answers ranks cl n (sc : scope) (senders : list scope) bci ex depth recursive :
  progress ranks cl → (ranks * length (sc :: senders) ≤ n)%nat →
  is_Some (search cl n false (sc :: senders) bci ex depth recursive).
Proof.
  intros (rank & Hrank & Hprog) Hn.
  assert (∀ n m b (senders : list scope) bci ex depth recursive, (rank m bci + ranks * length senders < n)%nat →
    is_Some (search cl n false ((m, b) :: senders) bci ex depth recursive)) as Hgo.
  { clear -Hrank Hprog. induction n as [|n IH]; intros m b senders bci ex depth recursive Hn; [lia|]. cbn [search_loop].
    destruct (fast_exception_handler_bci_for _ _ m _ ex bci) as [h|h e] eqn:Hf.
    - destruct (_ && _); [|done]. destruct senders as [|[m' b'] senders]; [done|]. apply IH.
      pose proof (Hrank m' b'). cbn [length] in Hn. lia.
    - destruct (Hprog _ _ _ _ _ Hf) as [Hh Hlt]. rewrite (proj2 (Z.leb_le _ _) Hh). apply IH. lia. }
  destruct sc as [m b]. apply Hgo. pose proof (Hrank m bci). cbn [length] in Hn. lia.
Qed.

(** The handler table of the nmethod is one that was recorded, and what C2 code
    finds has an entry (the VM stops otherwise). *)
Definition table_ok : Prop := ∃ subs, view (handler_table_of (en_handler_table nm)) (flat subs).
Definition has_entry (pc : Z) (res : search_result) : Prop :=
  let entry b d := entry_for (s32 (pc - en_code_begin nm)) b d (handler_table_of (en_handler_table nm)) in
  (∃ e, entry (sr_handler_bci res) (sr_scope_depth res) = Some (Some e)) ∨
  (sr_handler_bci res ≠ -1 ∧ ∃ e, entry (-1) 0 = Some (Some e)).

Fixpoint events_ok (ranks : nat) cl (evs : list exc_event) : Prop :=
  match evs with
  | [] => True
  | Raised exception pc :: evs' =>
      (en_compiler nm ≠ ByJVMCI →
       progress ranks cl ∧ en_scopes nm pc ≠ [] ∧ (ranks * length (en_scopes nm pc) ≤ fuel)%nat) ∧
      (en_compiler nm = ByC2 →
       ∀ m b senders res, en_scopes nm pc = (m, b) :: senders →
         search cl fuel false ((m, b) :: senders) b exception 0 false = Some res → has_entry pc res) ∧
      events_ok ranks cl evs'
  | Unloaded alive cl' :: evs' => keeps alive cl cl' ∧ events_ok ranks cl' evs'
  end.

Lemma compute_answers ranks cl ex pc evs :
  table_ok → events_ok ranks cl (Raised ex pc :: evs) → is_Some (compute cl pc ex false false).
Proof.
  intros (subs & Hv) (Hsearch & Hc2 & _). pose proof (λ c b d, entry_for_spec _ c b d subs Hv) as Hentry.
  unfold compute_compiled_exc_handler. destruct (en_compiler nm) eqn:Hnm.
  { rewrite Hentry. cbn. destruct (lookup_handler _ _ _ _); eauto. }
  all: destruct (Hsearch ltac:(done)) as (Hp & Hne & Hfuel); cbn [negb].
  all: destruct (en_scopes nm pc) as [|[m b] senders] eqn:Hsc; [done|].
  all: destruct (search_answers ranks cl fuel (m, b) senders b ex 0 false Hp Hfuel) as [[h d e r] Hs]; rewrite Hs; cbn [mbind option_bind].
  - rewrite !Hentry. cbn [mbind option_bind orb]. destruct (lookup_handler _ h d _); cbn [mbind option_bind]; [eauto|].
    destruct (lookup_handler _ _ _ _); eauto.
  - destruct (Hc2 eq_refl m b senders _ eq_refl Hs) as [[t Ht]|[Hh [t Ht]]]; cbn [sr_handler_bci sr_scope_depth] in *.
    + rewrite Ht. cbn [mbind option_bind]. eauto.
    + rewrite Ht, !Hentry, (proj2 (Z.eqb_neq h (-1)) Hh). cbn [mbind option_bind orb negb].
      destruct (lookup_handler _ h d _); cbn [mbind option_bind]; eauto.
Qed.

Lemma events_answered ranks cl evs : table_ok → events_ok ranks cl evs → answered cl evs.
Proof.
  intros Htab. revert cl. induction evs as [|[ex pc|alive cl'] evs IH]; intros cl Hok; cbn [answered]; [done|..].
  - split; [by eapply compute_answers|]. apply IH, Hok.
  - destruct Hok as [Hkeep Hok]. split; [by apply keeps_stable|by apply IH].
Qed.
End dispatch.


(** Code of C2 with one inlined scope and a handler for its caller. Class 77 goes and
    its address is used again for a subclass of 3, which the inlined method catches. *)
Definition example_nmethod : exc_nmethod :=
  mkEN ByC2 1000 [2; 24; 0; 60; 48; 1; 40; 80; 0; 0] 0 (λ _, [(1, 4); (2, 8)]).
Definition example_classes (sub : bool) : classes := mkClasses (λ _ i, inl i) (λ x y, (x =? 77) && (y =? 3) && sub).
Definition example_events : list exc_event :=
  [Raised 77 1024; Raised 77 1024; Unloaded (λ k, negb (k =? 77)) (example_classes true); Raised 77 1024].

Lemma example_events_ok : events_ok example_table 2 example_nmethod 1 (example_classes false) example_events.
Proof.
  assert (∀ sub, progress example_table 1 (example_classes sub)) as Hprog.
  { intros sub. exists (λ _ _, 0%nat). split; [lia|]. intros m ex bci h e Hf. exfalso. revert Hf.
    induction (example_table m) as [|t l IH]; [done|]. cbn. repeat (case_match; try done). }
  cbn [events_ok example_events]. split_and!; try done; try (by intros _; split_and!).
  all: try (intros _ m b senders res [= <- <- <-] Hs; vm_compute in Hs; injection Hs as <-; left; eexists; vm_compute; reflexivity).
  split; [done|]. intros x k Hx. cbn. by destruct (Z.eqb_spec x 77) as [->|].
Qed.


(** ** JVMCI code *)

Lemma sites_built sites t l :
  built t l →
  ∃ t', mforeach (λ x, site_ExceptionHandler x.1 x.2) sites t = Some (tt, t') ∧
    built t' (l ++ flat ((λ x, (x.1, [mkHTE (-1) x.2 0])) <$> sites)).
Proof.
  revert t l. induction sites as [|[pc h] sites IH]; intros t l Hb; [exists t; by rewrite app_nil_r|].
  destruct (add_handler_entry_spec t l (mkHTE 1 pc 0) Hb (ideal_roomy _)) as (t1 & E1 & Hb1).
  destruct (add_handler_entry_spec t1 _ (mkHTE (-1) h 0) Hb1 (ideal_roomy _)) as (t2 & E2 & Hb2).
  destruct (IH t2 _ Hb2) as (t' & E & Hb'). exists t'. cbn [mforeach fst snd].
  rewrite (M_bind_Some _ _ _ tt t2) by (unfold site_ExceptionHandler; by rewrite (M_bind_Some _ _ _ _ _ E1)).
  split; [done|]. rewrite <- !app_assoc in Hb'. done.
Qed.

Lemma lookup_site sites c :
  lookup_handler c (-1) 0 ((λ x, (x.1, [mkHTE (-1) x.2 0])) <$> sites) = (λ h, mkHTE (-1) h 0) <$> assoc c sites.
Proof.
  unfold lookup_handler. induction sites as [|[pc h] sites IH]; [done|]. cbn [fmap list_fmap subtable_of assoc fst snd].
  destruct (decide (c = pc)) as [->|Hne].
  - by rewrite decide_True.
  - by rewrite decide_False by naive_solver.
Qed.


