(* ===== verification/CodeInstaller.v ===== *)
(** * Installing code from JVMCI

    jvmci/jvmciCodeInstaller.cpp and its x86 part: the translation of the debug
    information objects of a JVMCI compiler (reference maps, frames, virtual
    objects) into oop maps and recorded scopes. The Java objects are the inductive
    types below; a [Handle] that can be null is an [option]. *)

From stdpp Require Import base numbers list gmap fin_sets.
From S2P Require Import Prelude GlobalDefinitions CompressedStream GrowableArray VMReg OopRecorder ObjectLookup DebugInfo RecorderIndex OopMap DebugInfoRec ScopeDesc Safepoints.
Local Open Scope Z_scope.

(** ** Errors

    A [JVMCI_ERROR] or a Java exception ends the installation; [Crash] is an
    access through a null pointer, outside an array, or to an object of the wrong
    class. *)

Inductive jvmci_error :=
  | NullPointerException
  | InvalidRegister (number : Z)
  | UnalignedSubregister (offset : Z)
  | UnalignedStackOffset (offset : Z)
  | StackOffsetTooLarge (offset : Z)
  | UnknownReferenceMap
  | DifferentSizes
  | InvalidOopSize (bytes : Z)
  | UnexpectedKind (ch : Z)
  | UnexpectedType
  | UnexpectedIllegal
  | UnexpectedConstant
  | NullObjectConstant
  | UnknownVirtualObject (id : Z)
  | UnexpectedValue
  | NotStackLock
  | VirtualObjectOutOfBounds (id : Z)
  | DuplicateVirtualObject (id : Z)
  | FullFrameExpected
  | UnexpectedLength
  | MissingIllegal
  | DebugInfoExpected.

Inductive res (A : Type) :=
  | Ok (a : A)
  | Throw (e : jvmci_error)
  | Crash.
Arguments Ok {A} a.
Arguments Throw {A} e.
Arguments Crash {A}.

#[global] Instance res_ret : MRet res := λ A a, Ok a.
#[global] Instance res_bind : MBind res := λ A B f m,
  match m with Ok a => f a | Throw e => Throw e | Crash => Crash end.

Lemma res_bind_Ok {A B} (m : res A) (f : A → res B) b :
  m ≫= f = Ok b → ∃ a, m = Ok a ∧ f a = Ok b.
Proof. destruct m; [by eauto|done..]. Qed.

(** A failed array access, and a null handle where the code checks for one. *)
Definition of_option {A} (o : option A) : res A := match o with Some a => Ok a | None => Crash end.
Definition not_null {A} (o : option A) : res A := match o with Some a => Ok a | None => Throw NullPointerException end.

(** ** Registers *)

Definition get_hotspot_reg (jvmci_reg : Z) : res VMReg :=
  if jvmci_reg <? Register_number_of_registers then Ok (Register_as_VMReg jvmci_reg)
  else
    let floatRegisterNumber := jvmci_reg - Register_number_of_registers in
    if floatRegisterNumber <? XMMRegister_number_of_registers then Ok (XMMRegister_as_VMReg floatRegisterNumber)
    else Throw (InvalidRegister jvmci_reg).

Definition is_general_purpose_reg (hotspotRegister : VMReg) : bool :=
  negb (is_FloatRegister hotspotRegister || is_XMMRegister hotspotRegister).

(** [code.Location]: a register or a stack slot, and an offset. *)
Record code_Location := mkLocation { loc_register : option Z; loc_offset : Z }.

(** C++ [%] and [/] truncate towards zero. *)
Definition getVMRegFromLocation (location : option code_Location) : res VMReg :=
  location ← not_null location;
  let offset := loc_offset location in
  match loc_register location with
  | Some number =>
      vmReg ← get_hotspot_reg number;
      if Z.rem offset 4 =? 0 then Ok (next_n vmReg (Z.quot offset 4)) else Throw (UnalignedSubregister offset)
  | None =>
      if Z.rem offset 4 =? 0 then
        let vmReg := stack2reg (Z.quot offset 4) in
        if negb (legal_vm_reg_name vmReg) then Throw (StackOffsetTooLarge offset) else Ok vmReg
      else Throw (UnalignedStackOffset offset)
  end.

(** ** Oop maps *)

Record HotSpotReferenceMap := mkRefMap {
  rm_maxRegisterSize : Z;
  rm_objects : option (list (option code_Location));
  rm_derivedBase : option (list (option code_Location));
  rm_sizeInBytes : option (list Z)
}.
Inductive ReferenceMap := IsHotSpotReferenceMap (m : HotSpotReferenceMap) | OtherReferenceMap.
Record RegisterSaveLayout := mkLayout { rsl_registers : list Z; rsl_slots : list Z }.

(** A call on the map under construction. *)
Definition on_map (m : M OopMap unit) (map : OopMap) : res OopMap :=
  match m map with Some (_, map) => Ok map | None => Crash end.

Definition map_reference (location baseLocation : option code_Location) (bytes : Z) (map : OopMap) : res OopMap :=
  vmReg ← getVMRegFromLocation location;
  match baseLocation with
  | Some _ =>
      if bytes =? 8 then
        baseReg ← getVMRegFromLocation baseLocation;
        on_map (set_derived_oop vmReg baseReg) map
      else Throw (InvalidOopSize bytes)
  | None =>
      if bytes =? 8 then on_map (set_oop vmReg) map
      else if bytes =? 4 then on_map (set_narrowoop vmReg) map
      else Throw (InvalidOopSize bytes)
  end.

Fixpoint map_references (n : nat) (i : Z) (objects bases : list (option code_Location)) (sizes : list Z) (map : OopMap)
    : res OopMap :=
  match n with
  | O => Ok map
  | S n' =>
      location ← of_option (zget objects i);
      baseLocation ← of_option (zget bases i);
      bytes ← of_option (zget sizes i);
      map ← map_reference location baseLocation bytes map;
      map_references n' (i + 1) objects bases sizes map
  end.

Fixpoint map_callee_saved (n : nat) (i : Z) (l : RegisterSaveLayout) (map : OopMap) : res OopMap :=
  match n with
  | O => Ok map
  | S n' =>
      jvmci_reg_number ← of_option (zget (rsl_registers l) i);
      hotspot_reg ← get_hotspot_reg jvmci_reg_number;
      jvmci_slot ← of_option (zget (rsl_slots l) i);
      let hotspot_slot := s32 (jvmci_slot * slots_per_word) in
      map ← on_map (set_callee_saved (stack2reg hotspot_slot) hotspot_reg) map;
      map ← on_map (set_callee_saved (stack2reg (hotspot_slot + 1)) (next hotspot_reg)) map;
      map_callee_saved n' (i + 1) l map
  end.

(** ** Values *)

Inductive BasicType :=
  | T_BOOLEAN | T_CHAR | T_FLOAT | T_DOUBLE | T_BYTE | T_SHORT | T_INT | T_LONG | T_OBJECT | T_ILLEGAL.
#[global] Instance BasicType_eq_dec : EqDecision BasicType.
Proof. solve_decision. Defined.

(** [JavaKind.typeChar]. *)
Definition kindToBasicType (kind : option Z) : res BasicType :=
  ch ← not_null kind;
  if ch =? 90 then Ok T_BOOLEAN else if ch =? 66 then Ok T_BYTE else if ch =? 83 then Ok T_SHORT
  else if ch =? 67 then Ok T_CHAR else if ch =? 73 then Ok T_INT else if ch =? 70 then Ok T_FLOAT
  else if ch =? 74 then Ok T_LONG else if ch =? 68 then Ok T_DOUBLE else if ch =? 65 then Ok T_OBJECT
  else if ch =? 45 then Ok T_ILLEGAL else Throw (UnexpectedKind ch).

(** The classes of values in a frame; [word_kind] is whether the platform kind
    of the value is the word kind, a virtual object is given by its id. *)
Inductive JavaValue :=
  | Value_ILLEGAL
  | RegisterValue (number : Z) (word_kind : bool)
  | StackSlot (offset : Z) (addFrameSize word_kind : bool)
  | RawConstant (primitive : Z)
  | PrimitiveConstant (kind : option Z) (primitive : Z)
  | NullConstant
  | HotSpotObjectConstant (object : Z)
  | OtherConstant
  | VirtualObjectRef (id : Z)
  | OtherValue.

(** A frame also holds lock values, which are no scope values. *)
Inductive FrameValue :=
  | PlainValue (v : JavaValue)
  | StackLockValue (owner slot : option JavaValue) (eliminated : bool).
Definition as_scope_value (v : option FrameValue) : option JavaValue :=
  match v with Some (PlainValue v) => Some v | Some (StackLockValue _ _ _) => Some OtherValue | None => None end.
Definition is_illegal (v : option FrameValue) : bool :=
  match v with Some (PlainValue Value_ILLEGAL) => true | _ => false end.

Definition get_oop_type (word_kind : bool) : LocType := if word_kind then oop else narrowoop.

Definition is_int_type (t : BasicType) : bool :=
  match t with T_INT | T_FLOAT | T_SHORT | T_CHAR | T_BYTE | T_BOOLEAN => true | _ => false end.

(** [CodeInstaller]'s own fields that the translation uses. *)
Record Installer := mkInstaller {
  ci_total_frame_size : Z;
  ci_parameter_count : Z;
  ci_has_wide_vector : bool
}.

Record DebugInfoObject := mkDebugInfo {
  di_referenceMap : option ReferenceMap;
  di_calleeSaveInfo : option RegisterSaveLayout
}.

Definition create_oop_map (debug_info : DebugInfoObject) (ci : Installer) : res (OopMap * Installer) :=
  reference_map ← not_null (di_referenceMap debug_info);
  match reference_map with
  | OtherReferenceMap => Throw UnknownReferenceMap
  | IsHotSpotReferenceMap reference_map =>
      let ci := if 16 <? rm_maxRegisterSize reference_map
                then mkInstaller (ci_total_frame_size ci) (ci_parameter_count ci) true else ci in
      let map := new_oop_map (ci_total_frame_size ci) (ci_parameter_count ci) in
      match rm_objects reference_map, rm_derivedBase reference_map, rm_sizeInBytes reference_map with
      | Some objects, Some derivedBase, Some sizeInBytes =>
          if negb (zlen objects =? zlen derivedBase) || negb (zlen objects =? zlen sizeInBytes)
          then Throw DifferentSizes
          else
            map ← map_references (length objects) 0 objects derivedBase sizeInBytes map;
            map ← (match di_calleeSaveInfo debug_info with
                   | Some l => map_callee_saved (length (rsl_slots l)) 0 l map
                   | None => Ok map
                   end);
            Ok (map, ci)
      | _, _, _ => Throw NullPointerException
      end
  end.

Section values.
(** [JNIHandles::make_local]. *)
Context (make_local : Z → Z).
Context (total_frame_size : Z).
(** The ObjectValues by id; null in stubs and without a mapping. *)
Context (objects : option (list (option Z))).

Definition illegal_value : ScopeValue := LocationValue new_invalid.

(** The value and [second]. *)
Definition get_scope_value (value : option JavaValue) (type : BasicType) : res (ScopeValue * option ScopeValue) :=
  value ← not_null value;
  match value with
  | Value_ILLEGAL =>
      if negb (bool_decide (type = T_ILLEGAL)) then Throw UnexpectedIllegal else Ok (illegal_value, None)
  | RegisterValue number word_kind =>
      hotspotRegister ← get_hotspot_reg number;
      if is_general_purpose_reg hotspotRegister then
        locationType ← (if bool_decide (type = T_OBJECT) then Ok (get_oop_type word_kind)
                        else if bool_decide (type = T_LONG) then Ok lng
                        else if is_int_type type then Ok int_in_long
                        else Throw UnexpectedType);
        let value := LocationValue (new_reg_loc locationType hotspotRegister) in
        Ok (value, if bool_decide (type = T_LONG) then Some value else None)
      else
        locationType ← (if bool_decide (type = T_FLOAT) then Ok normal
                        else if bool_decide (type = T_DOUBLE) then Ok dbl
                        else Throw UnexpectedType);
        let value := LocationValue (new_reg_loc locationType hotspotRegister) in
        Ok (value, if bool_decide (type = T_DOUBLE) then Some value else None)
  | StackSlot offset addFrameSize word_kind =>
      let offset := if addFrameSize then s32 (offset + total_frame_size) else offset in
      locationType ← (if bool_decide (type = T_OBJECT) then Ok (get_oop_type word_kind)
                      else if bool_decide (type = T_LONG) then Ok lng
                      else if bool_decide (type = T_DOUBLE) then Ok dbl
                      else if is_int_type type then Ok normal
                      else Throw UnexpectedType);
      let value := LocationValue (new_stk_loc locationType offset) in
      Ok (value, if bool_decide (type = T_DOUBLE) || bool_decide (type = T_LONG) then Some value else None)
  | RawConstant prim => Ok (ConstantLongValue prim, None)
  | PrimitiveConstant kind prim =>
      constantType ← kindToBasicType kind;
      if negb (bool_decide (type = constantType)) then Throw UnexpectedConstant
      else if bool_decide (type = T_INT) || bool_decide (type = T_FLOAT)
      then Ok (ConstantIntValue (s32 prim), None)
      else if bool_decide (type = T_LONG) || bool_decide (type = T_DOUBLE)
      then Ok (ConstantLongValue prim, Some (ConstantIntValue 1))
      else Throw UnexpectedConstant
  | NullConstant =>
      if bool_decide (type = T_OBJECT) then Ok (ConstantOopWriteValue 0, None) else Throw UnexpectedConstant
  | HotSpotObjectConstant obj =>
      if bool_decide (type = T_OBJECT) then
        if obj =? 0 then Throw NullObjectConstant else Ok (ConstantOopWriteValue (make_local obj), None)
      else Throw UnexpectedConstant
  | VirtualObjectRef id =>
      if bool_decide (type = T_OBJECT) then
        objs ← of_option objects;
        if (0 <=? id) && (id <? zlen objs) then
          object ← of_option (zget objs id);
          match object with Some p => Ok (ObjectPointer p, None) | None => Throw (UnknownVirtualObject id) end
        else Throw (UnknownVirtualObject id)
      else Throw UnexpectedConstant
  | OtherConstant | OtherValue => Throw UnexpectedValue
  end.

Definition get_monitor_value (value : option FrameValue) : res MonitorValue :=
  value ← not_null value;
  match value with
  | StackLockValue owner slot eliminated =>
      '(owner_value, _) ← get_scope_value owner T_OBJECT;
      '(lock_data_value, _) ← get_scope_value slot T_LONG;
      match lock_data_value with
      | LocationValue lock_data_loc => Ok (mkMonitor owner_value lock_data_loc eliminated)
      | _ => Crash
      end
  | _ => Throw NotStackLock
  end.

(** ** Frames *)

Record BytecodeFrame := mkFrame {
  bf_numLocals : Z;
  bf_numStack : Z;
  bf_numLocks : Z;
  bf_values : option (list (option FrameValue));
  bf_slotKinds : option (list (option Z));
  bf_duringCall : bool;
  bf_rethrowException : bool
}.

(** The values read so far. *)
Record frame_values := mkFV {
  fv_locals : option (list ScopeValue);
  fv_expressions : option (list ScopeValue);
  fv_monitors : option (list MonitorValue)
}.

(** [second] then [first] at the end of an array, which is null for a count of 0. *)
Definition append_values {A} (l : option (list A)) (xs : list A) : res (option (list A)) :=
  l ← of_option l; Ok (Some (l ++ xs)).
Definition both (v : ScopeValue * option ScopeValue) : list ScopeValue :=
  match v.2 with Some second => [second; v.1] | None => [v.1] end.

Fixpoint frame_loop (fuel : nat) (i local_count expression_count : Z) (values : list (option FrameValue))
    (slotKinds : list (option Z)) (acc : frame_values) : res frame_values :=
  if i <? zlen values then
    match fuel with
    | O => Crash
    | S fuel' =>
        value ← of_option (zget values i);
        '(acc, second) ←
          (if i <? local_count then
             kind ← of_option (zget slotKinds i);
             type ← kindToBasicType kind;
             v ← get_scope_value (as_scope_value value) type;
             l ← append_values (fv_locals acc) (both v);
             Ok (mkFV l (fv_expressions acc) (fv_monitors acc), v.2)
           else if i <? s32 (local_count + expression_count) then
             kind ← of_option (zget slotKinds i);
             type ← kindToBasicType kind;
             v ← get_scope_value (as_scope_value value) type;
             l ← append_values (fv_expressions acc) (both v);
             Ok (mkFV (fv_locals acc) l (fv_monitors acc), v.2)
           else
             m ← get_monitor_value value;
             l ← append_values (fv_monitors acc) [m];
             Ok (mkFV (fv_locals acc) (fv_expressions acc) l, None));
        match second with
        | None => frame_loop fuel' (i + 1) local_count expression_count values slotKinds acc
        | Some _ =>
            let i := i + 1 in
            if zlen values <=? i then Throw MissingIllegal
            else
              next ← of_option (zget values i);
              if negb (is_illegal next) then Throw MissingIllegal
              else frame_loop fuel' (i + 1) local_count expression_count values slotKinds acc
        end
    end
  else Ok acc.

Definition new_values {A} (count : Z) : option (list A) := if 0 <? count then Some [] else None.

Definition read_frame (frame : BytecodeFrame) : res frame_values :=
  let local_count := bf_numLocals frame in
  let expression_count := bf_numStack frame in
  let monitor_count := bf_numLocks frame in
  match bf_values frame, bf_slotKinds frame with
  | Some values, Some slotKinds =>
      if negb (s32 (local_count + expression_count + monitor_count) =? zlen values) then Throw UnexpectedLength
      else if negb (s32 (local_count + expression_count) =? zlen slotKinds) then Throw UnexpectedLength
      else frame_loop (length values) 0 local_count expression_count values slotKinds
             (mkFV (new_values local_count) (new_values expression_count) (new_values monitor_count))
  | _, _ => Throw NullPointerException
  end.
End values.

(** A [BytecodePosition], which may be a frame; with its callers it is a list,
    the innermost one first. *)
Record BytecodePosition := mkPosition {
  bp_method : Z;
  bp_bci : Z;
  bp_frame : option BytecodeFrame
}.

Inductive ScopeMode := FullFrame | JustPosition.

Definition BEFORE_BCI : Z := -2.
Definition SynchronizationEntryBCI : Z := InvocationEntryBci.

Section scopes.
Context (make_local : Z → Z) (total_frame_size : Z).
(** The bytecode at a bci of a method. *)
Context (java_code_at : Z → Z → Z).

(** [Bytecodes::_invokevirtual] .. [Bytecodes::_invokedynamic] are 182 .. 186. *)
Definition bytecode_should_reexecute (code : Z) : bool := negb ((182 <=? code) && (code <=? 186)).

(** The scope a position describes; [frame] is null unless in full frame mode. *)
Definition scope_of (objects : option (list (option Z))) (return_oop : bool) (position : BytecodePosition)
    (frame : option BytecodeFrame) : res ScopeInfo :=
  let method := bp_method position in
  let bci := if bp_bci position =? BEFORE_BCI then SynchronizationEntryBCI else bp_bci position in
  match frame with
  | Some frame =>
      let reexecute :=
        if bci =? SynchronizationEntryBCI then false
        else
          let reexecute := bytecode_should_reexecute (java_code_at method bci) in
          negb (bf_duringCall frame) in
      fv ← read_frame make_local total_frame_size objects frame;
      Ok (mkScope method bci reexecute (bf_rethrowException frame) false return_oop
            (fv_locals fv) (fv_expressions fv) (fv_monitors fv))
  | None => Ok (mkScope method bci false false false return_oop None None None)
  end.

Definition frame_of (scope_mode : ScopeMode) (position : BytecodePosition) : res (option BytecodeFrame) :=
  match scope_mode with
  | FullFrame => match bp_frame position with Some f => Ok (Some f) | None => Throw FullFrameExpected end
  | JustPosition => Ok None
  end.

Context {R : Type} `{!IndexRecorder R}.
Context (ShareDebugInfo ShareDebugInfo_is_default : bool).
Local Abbreviation DIR := (DebugInformationRecorder R).

(** A call on the debug information recorder. *)
Definition on_recorder (m : M DIR unit) (d : DIR) : res DIR := match m d with Some (_, d) => Ok d | None => Crash end.

(** The callers are recorded first. *)
Fixpoint record_positions (scope_mode : ScopeMode) (objects : option (list (option Z))) (return_oop : bool)
    (positions : list BytecodePosition) (d : DIR) : res DIR :=
  match positions with
  | [] => Ok d
  | position :: callers =>
      frame ← frame_of scope_mode position;
      d ← record_positions scope_mode objects return_oop callers d;
      si ← scope_of objects return_oop position frame;
      on_recorder (record_scope ShareDebugInfo ShareDebugInfo_is_default si) d
  end.

(** *** Virtual objects *)

Record VirtualObject := mkVirtual {
  vo_id : Z;
  vo_mirror : Z;                              (* the class mirror of its type *)
  vo_isLongArray : bool;
  vo_values : list (option JavaValue);
  vo_slotKinds : list (option Z)
}.

Context (new_object : gmap Z ObjectValue → Z).
Local Abbreviation objects_of d := (dw_objects (dir_writer d)).
Definition set_objects (D : gmap Z ObjectValue) (d : DIR) : DIR :=
  set_writer (mkDW (dw_stream (dir_writer d)) D (dw_recorder (dir_writer d))) d.

(** The first loop: an [ObjectValue] for each, by id. *)
Fixpoint create_objects (vos : list VirtualObject) (objects : list (option Z)) (D : gmap Z ObjectValue)
    : res (list (option Z) * gmap Z ObjectValue) :=
  match vos with
  | [] => Ok (objects, D)
  | value :: vos' =>
      let id := vo_id value in
      let sv := new_object D in
      let D := <[sv := new_object_value_klass id (ConstantOopWriteValue (make_local (vo_mirror value)))]> D in
      if (id <? 0) || (zlen objects <=? id) then Throw (VirtualObjectOutOfBounds id)
      else
        old ← of_option (zget objects id);
        match old with
        | Some _ => Throw (DuplicateVirtualObject id)
        | None => objects ← of_option (zset objects id (Some sv)); create_objects vos' objects D
        end
  end.

(** The fields of one object, in order. *)
Fixpoint field_loop (n : nat) (i : Z) (objects : list (option Z)) (value : VirtualObject) (fields : list ScopeValue)
    : res (list ScopeValue) :=
  match n with
  | O => Ok fields
  | S n' =>
      object ← of_option (zget (vo_values value) i);
      kind ← of_option (zget (vo_slotKinds value) i);
      type ← kindToBasicType kind;
      '(v, cur_second) ← get_scope_value make_local total_frame_size (Some objects) object type;
      let cur_second :=
        match cur_second with
        | None => if vo_isLongArray value then Some (ConstantIntValue 0) else None
        | Some _ => cur_second
        end in
      field_loop n' (i + 1) objects value (fields ++ both (v, cur_second))
  end.

Definition record_object_value (sv : Z) (value : VirtualObject) (objects : list (option Z)) (D : gmap Z ObjectValue)
    : res (gmap Z ObjectValue) :=
  o ← of_option (D !! sv);
  fields ← field_loop (length (vo_values value)) 0 objects value (ov_field_values o);
  Ok (<[sv := mkOV (ov_id o) (ov_klass o) fields (ov_value o) (ov_visited o)]> D).

Fixpoint describe_objects (vos : list VirtualObject) (objects : list (option Z)) (D : gmap Z ObjectValue)
    : res (gmap Z ObjectValue) :=
  match vos with
  | [] => Ok D
  | value :: vos' =>
      sv ← of_option (zget objects (vo_id value));
      sv ← of_option sv;
      D ← record_object_value sv value objects D;
      describe_objects vos' objects D
  end.

(** Both loops. *)
Definition make_objects (vos : list VirtualObject) (D : gmap Z ObjectValue) : res (list (option Z) * gmap Z ObjectValue) :=
  '(objects, D) ← create_objects vos (replicate (length vos) None) D;
  D ← describe_objects vos objects D;
  Ok (objects, D).

Definition record_virtual_objects (virtualObjects : option (list VirtualObject)) (d : DIR)
    : res (option (list (option Z)) * DIR) :=
  match virtualObjects with
  | None => Ok (None, d)
  | Some vos =>
      '(objects, D) ← make_objects vos (objects_of d);
      pool ← of_option (mapM id objects);
      d ← on_recorder (dump_object_pool ShareDebugInfo ShareDebugInfo_is_default (Some (map ObjectPointer pool)))
            (set_objects D d);
      Ok (Some objects, d)
  end.

Record DebugInfoFull := mkDebugInfoFull {
  df_maps : DebugInfoObject;
  df_bytecodePosition : list BytecodePosition;       (* empty: null *)
  df_virtualObjectMapping : option (list VirtualObject)
}.

Definition record_scope_at (debug_info : DebugInfoFull) (scope_mode : ScopeMode) (return_oop : bool) (d : DIR) : res DIR :=
  match df_bytecodePosition debug_info with
  | [] => Ok d
  | positions =>
      '(objectMapping, d) ← (match scope_mode with
                             | FullFrame => record_virtual_objects (df_virtualObjectMapping debug_info) d
                             | JustPosition => Ok (None, d)
                             end);
      record_positions scope_mode objectMapping return_oop positions d
  end.

End scopes.

(** ** Sites *)

Section sites.
Context (make_local : Z → Z) (java_code_at : Z → Z → Z).
Context {R : Type} `{!IndexRecorder R}.
Context (ShareDebugInfo ShareDebugInfo_is_default : bool).
Context (new_object : gmap Z ObjectValue → Z).
Local Abbreviation DIR := (DebugInformationRecorder R).
Local Abbreviation record_scope_at ci :=
  (record_scope_at make_local (ci_total_frame_size ci) java_code_at ShareDebugInfo ShareDebugInfo_is_default new_object).

Definition site_Safepoint (pc_offset : Z) (debug_info : option DebugInfoFull) (s : Installer * DIR) : res (Installer * DIR) :=
  let '(ci, d) := s in
  match debug_info with
  | None => Throw DebugInfoExpected
  | Some debug_info =>
      '(map, ci) ← create_oop_map (df_maps debug_info) ci;
      d ← on_recorder (add_safepoint pc_offset map) d;
      d ← record_scope_at ci debug_info FullFrame false d;
      d ← on_recorder (end_safepoint pc_offset) d;
      Ok (ci, d)
  end.

Definition site_Infopoint (pc_offset : Z) (debug_info : option DebugInfoFull) (s : Installer * DIR) : res (Installer * DIR) :=
  let '(ci, d) := s in
  match debug_info with
  | None => Throw DebugInfoExpected
  | Some debug_info =>
      d ← on_recorder (add_non_safepoint pc_offset) d;
      d ← record_scope_at ci debug_info JustPosition false d;
      d ← on_recorder (end_non_safepoint pc_offset) d;
      Ok (ci, d)
  end.
End sites.

(** ** Results that are not crashes *)

(** [safe m P]: the code runs to a result that satisfies [P] or to an error. *)
Definition safe {A} (m : res A) (P : A → Prop) : Prop :=
  match m with Ok a => P a | Throw _ => True | Crash => False end.

Lemma safe_bind {A B} (m : res A) (f : A → res B) P Q :
  safe m P → (∀ a, P a → safe (f a) Q) → safe (m ≫= f) Q.
Proof. destruct m; cbn; [by auto|done|done]. Qed.
Lemma safe_weaken {A} (m : res A) (P Q : A → Prop) : safe m P → (∀ a, P a → Q a) → safe m Q.
Proof. destruct m; cbn; auto. Qed.
Lemma safe_eq {A} (m : res A) P : safe m P → safe m (λ a, P a ∧ m = Ok a).
Proof. by destruct m. Qed.

Ltac safe_if := match goal with |- safe (if ?b then _ else _) _ => destruct b eqn:? end.

(** ** Registers *)

(** A register number as a compiler gives it. *)
Definition register_ok (number : Z) : Prop := 0 ≤ number.
#[global] Instance register_ok_dec number : Decision (register_ok number).
Proof. unfold register_ok. apply _. Defined.

Lemma get_hotspot_reg_spec number :
  register_ok number → safe (get_hotspot_reg number) (λ r, 0 ≤ r < stack0 ∧ is_jshort r ∧ is_jshort (r + 1)).
Proof.
  intros Hn. unfold get_hotspot_reg, register_ok in *.
  assert (∀ r, 0 ≤ r < stack0 → 0 ≤ r < stack0 ∧ is_jshort r ∧ is_jshort (r + 1)) as Hr.
  { intros r. rewrite stack0_val. unfold in_s. lia. }
  safe_if; cbn -[stack0].
  - apply Hr. apply Z.ltb_lt in Heqb. unfold Register_number_of_registers in *. rewrite stack0_val.
    unfold Register_as_VMReg, as_VMReg. rewrite (proj2 (Z.eqb_neq number (-1))) by lia.
    rewrite Z.shiftl_mul_pow2 by lia. lia.
  - safe_if; [|done]. apply Hr. apply Z.ltb_lt in Heqb0. apply Z.ltb_ge in Heqb.
    unfold Register_number_of_registers, XMMRegister_number_of_registers in *. rewrite stack0_val.
    unfold XMMRegister_as_VMReg, as_VMReg. rewrite Z.shiftl_mul_pow2 by lia. change max_fpr with 48. lia.
Qed.

(** ** The oop map of a site

    The calls on the map that a reference map and a register save layout stand for. *)

(** A location whose register or slot an entry of an oop map can name. *)
Definition location_ok (l : code_Location) : Prop :=
  match loc_register l with
  | Some number => register_ok number ∧ 0 ≤ loc_offset l ≤ 64
  | None => 0 ≤ loc_offset l
  end.
#[global] Instance location_ok_dec l : Decision (location_ok l).
Proof. unfold location_ok. destruct (loc_register l); apply _. Defined.
Definition location_ok_opt (l : option code_Location) : Prop := match l with Some l => location_ok l | None => True end.
#[global] Instance location_ok_opt_dec l : Decision (location_ok_opt l).
Proof. destruct l; simpl; apply _. Defined.

Definition reference_op (location baseLocation : option code_Location) (bytes : Z) : res map_op :=
  r ← getVMRegFromLocation location;
  match baseLocation, bytes with
  | None, 8 => Ok (SetOop r)
  | None, 4 => Ok (SetNarrowoop r)
  | Some _, 8 => b ← getVMRegFromLocation baseLocation; Ok (SetDerivedOop r b)
  | _, _ => Throw (InvalidOopSize bytes)
  end.
Definition callee_saved_ops (number slot : Z) : res (list map_op) :=
  r ← get_hotspot_reg number;
  Ok [SetCalleeSaved (stack2reg (2 * slot)) r; SetCalleeSaved (stack2reg (2 * slot + 1)) (r + 1)].

Fixpoint traverse {A B} (f : A → res B) (l : list A) : res (list B) :=
  match l with
  | [] => Ok []
  | x :: l' => y ← f x; ys ← traverse f l'; Ok (y :: ys)
  end.

Definition entry_ops (x : option code_Location * option code_Location * Z) : res (list map_op) :=
  op ← reference_op x.1.1 x.1.2 x.2; Ok [op].
Definition saved_ops (x : Z * Z) : res (list map_op) := callee_saved_ops x.1 x.2.

(** The calls, in the order they are made. *)
Definition oop_map_ops (objects bases : list (option code_Location)) (sizes : list Z) (layout : option RegisterSaveLayout)
    : res (list map_op) :=
  refs ← traverse entry_ops (zip (zip objects bases) sizes);
  saved ← traverse saved_ops (match layout with Some l => zip (rsl_registers l) (rsl_slots l) | None => [] end);
  Ok (concat refs ++ concat saved).

Lemma legal_vm_reg_name_spec r : legal_vm_reg_name r = true → 0 ≤ r ≤ register_mask.
Proof.
  unfold legal_vm_reg_name. intros ->%Z.eqb_eq. change register_mask with (Z.ones 12). rewrite Z.land_ones by done.
  change (Z.ones 12) with 4095. pose proof (Z.mod_pos_bound r (2 ^ 12)). lia.
Qed.

Lemma getVMRegFromLocation_spec l :
  location_ok_opt l → safe (getVMRegFromLocation l) (λ r, 0 ≤ r ≤ register_mask ∧ is_jshort r).
Proof.
  assert (∀ r, 0 ≤ r ≤ register_mask → 0 ≤ r ≤ register_mask ∧ is_jshort r) as Hr.
  { intros r H. split; [done|]. change register_mask with 4095 in H. unfold in_s. lia. }
  intros Hl. unfold getVMRegFromLocation. destruct l as [[[n|] off]|]; [| |done]; cbn -[legal_vm_reg_name Z.rem Z.quot register_mask stack2reg].
  - destruct Hl as [Hn Ho]. cbn in Ho. eapply safe_bind; [by apply get_hotspot_reg_spec|].
    intros r (Hr0 & _). safe_if; [|done]. apply Hr. rewrite stack0_val in Hr0. unfold next_n. change register_mask with 4095.
    pose proof (Z.quot_pos off 4). pose proof (Z.quot_le_mono off 64 4). change (64 ÷ 4) with 16 in *. lia.
  - safe_if; [|done]. safe_if; [done|]. apply Hr, legal_vm_reg_name_spec. by apply negb_false_iff.
Qed.

Lemma entry_ops_spec x :
  location_ok_opt x.1.1 ∧ location_ok_opt x.1.2 → safe (entry_ops x) (Forall map_op_ok).
Proof.
  intros [Hl Hb]. unfold entry_ops. eapply safe_bind; [|intros op Hop; exact (Forall_cons_2 _ _ _ Hop (Forall_nil_2 _))].
  eapply safe_bind; [by apply getVMRegFromLocation_spec|]. intros r [Hr Hs].
  assert (safe (b ← getVMRegFromLocation x.1.2; Ok (SetDerivedOop r b)) map_op_ok) as Hd.
  { eapply safe_bind; [by apply getVMRegFromLocation_spec|]. intros b [_ Hb']. by split. }
  destruct (x.1.2) as [l|], x.2 as [|p|p]; try done; repeat (destruct p as [p|p|]; try done).
Qed.

Definition saved_ok (x : Z * Z) : Prop := register_ok x.1 ∧ 0 ≤ x.2 ∧ stack2reg (2 * x.2 + 1) ≤ register_mask.
#[global] Instance saved_ok_dec x : Decision (saved_ok x).
Proof. unfold saved_ok. apply _. Defined.
Lemma saved_ops_spec x : saved_ok x → safe (saved_ops x) (Forall map_op_ok).
Proof.
  intros (Hr & Hs & Hm). unfold saved_ops, callee_saved_ops. eapply safe_bind; [by apply get_hotspot_reg_spec|].
  intros r (_ & H1 & H2). unfold stack2reg in *. rewrite stack0_val in *.
  apply Forall_cons_2; [|apply Forall_singleton]; (split; [lia|done]).
Qed.

(** A loop that makes the calls element by element. *)
Fixpoint run_ops {A} (f : A → res (list map_op)) (l : list A) (map : OopMap) : res OopMap :=
  match l with
  | [] => Ok map
  | x :: l' => ops ← f x; map ← on_map (mforeach exec_map_op ops) map; run_ops f l' map
  end.

Lemma on_map_one op map : on_map (mforeach exec_map_op [op]) map = on_map (exec_map_op op) map.
Proof. unfold on_map. cbn [mforeach]. unfold mbind, M_bind. by destruct (exec_map_op op map) as [[[] ?]|]. Qed.
Lemma on_map_cons op ops map :
  on_map (mforeach exec_map_op (op :: ops)) map = (map ← on_map (exec_map_op op) map; on_map (mforeach exec_map_op ops) map).
Proof.
  unfold on_map. cbn [mforeach]. unfold mbind at 1, M_bind. by destruct (exec_map_op op map) as [[[] ?]|].
Qed.

Lemma map_reference_ops l b n map :
  map_reference l b n map = (op ← reference_op l b n; on_map (exec_map_op op) map).
Proof.
  unfold map_reference, reference_op. destruct (getVMRegFromLocation l) as [r|e|]; [|done..].
  cbn [mbind res_bind]. destruct b as [b|].
  - destruct (Z.eqb_spec n 8) as [->|Hn].
    + by destruct (getVMRegFromLocation (Some b)).
    + destruct n as [|p|p]; try done; repeat (destruct p as [p|p|]; try done).
  - destruct (Z.eqb_spec n 8) as [->|Hn]; [done|]. destruct (Z.eqb_spec n 4) as [->|Hn']; [done|].
    destruct n as [|p|p]; try done; repeat (destruct p as [p|p|]; try done).
Qed.

Lemma map_references_run os bs ns po pb pn map :
  length po = length pb → length po = length pn → length os = length bs → length os = length ns →
  map_references (length os) (zlen po) (po ++ os) (pb ++ bs) (pn ++ ns) map
    = run_ops entry_ops (zip (zip os bs) ns) map.
Proof.
  revert bs ns po pb pn map. induction os as [|o os IH]; intros [|b bs] [|n ns] po pb pn map Hb Hn Hb' Hn'; try done.
  cbn [length map_references zip_with run_ops].
  assert (zget (pb ++ b :: bs) (zlen po) = Some b) as -> by (unfold zlen; rewrite Hb; apply zget_middle).
  assert (zget (pn ++ n :: ns) (zlen po) = Some n) as -> by (unfold zlen; rewrite Hn; apply zget_middle).
  rewrite zget_middle.
  cbn [of_option mbind res_bind]. rewrite map_reference_ops. change (entry_ops (o, b, n)) with (op ← reference_op o b n; Ok [op]).
  destruct (reference_op o b n) as [op|e|]; [|done..]. cbn [mbind res_bind]. rewrite on_map_one.
  destruct (on_map (exec_map_op op) map) as [map'|e|]; [|done..].
  rewrite !(cons_middle _ po), !(cons_middle _ pb), !(cons_middle _ pn), !app_assoc.
  replace (zlen po + 1) with (zlen (po ++ [o])) by (rewrite zlen_app; unfold zlen; simpl; lia).
  apply IH; rewrite ?length_app; simpl in *; lia.
Qed.

Lemma map_callee_saved_run rs ss pr ps map :
  length pr = length ps → length rs = length ss → Forall saved_ok (zip rs ss) →
  map_callee_saved (length ss) (zlen ps) (mkLayout (pr ++ rs) (ps ++ ss)) map = run_ops saved_ops (zip rs ss) map.
Proof.
  revert ss pr ps map. induction rs as [|r rs IH]; intros [|s ss] pr ps map Hp Hl Hok; try done.
  cbn [length map_callee_saved zip_with run_ops rsl_registers rsl_slots].
  assert (zget (pr ++ r :: rs) (zlen ps) = Some r) as -> by (unfold zlen; rewrite <- Hp; apply zget_middle).
  rewrite zget_middle.
  inversion Hok as [|? ? Hs Hok']; subst. cbn [of_option mbind res_bind].
  change (saved_ops (r, s)) with (callee_saved_ops r s). unfold callee_saved_ops.
  destruct (get_hotspot_reg r) as [hr|e|]; [|done..]. cbn [mbind res_bind of_option].
  assert (s32 (s * slots_per_word) = 2 * s) as ->.
  { change slots_per_word with 2. destruct Hs as (_ & H0 & H1). unfold stack2reg in H1. rewrite stack0_val in H1.
    change register_mask with 4095 in H1. cbn in *. rewrite Z.mul_comm. apply wrapS_id; [lia|unfold in_s; lia]. }
  rewrite on_map_cons. cbn [exec_map_op]. unfold next.
  destruct (on_map _ map) as [m1|e|]; [|done..]. cbn [mbind res_bind]. rewrite on_map_one. cbn [exec_map_op].
  destruct (on_map _ m1) as [m2|e|]; [|done..].
  rewrite !(cons_middle _ pr), !(cons_middle _ ps), !app_assoc.
  replace (zlen ps + 1) with (zlen (ps ++ [s])) by (rewrite zlen_app; unfold zlen; simpl; lia).
  apply IH; rewrite ?length_app; simpl in *; [lia|lia|done].
Qed.

Lemma run_ops_spec {A} (f : A → res (list map_op)) l map es0 :
  building map es0 → Forall (λ x, safe (f x) (Forall map_op_ok)) l →
  match traverse f l with
  | Ok opss => ∃ map' es, run_ops f l map = Ok map' ∧ building map' (es0 ++ es) ∧
      om_pc_offset map' = om_pc_offset map ∧ omv_view <$> es = concat opss ≫= map_op_view
  | Throw e => run_ops f l map = Throw e
  | Crash => False
  end.
Proof.
  intros Hm Hl. revert map es0 Hm. induction Hl as [|x l Hx _ IH]; intros map es0 Hm.
  { exists map, []. by rewrite app_nil_r. }
  cbn [traverse run_ops]. destruct (f x) as [ops|e|]; [|done..]. cbn [mbind res_bind safe] in *.
  destruct (exec_map_ops_building ops map es0 Hm Hx (ideal_roomy _)) as (m1 & es1 & E1 & Hb1 & Hp1 & Hv1).
  assert (on_map (mforeach exec_map_op ops) map = Ok m1) as Eo by (unfold on_map; by rewrite E1).
  rewrite Eo. cbn [mbind res_bind]. specialize (IH m1 _ Hb1). destruct (traverse f l) as [opss|e|]; cbn [mbind res_bind]; [|exact IH|exact IH].
  destruct IH as (m2 & es2 & E2 & Hb2 & Hp2 & Hv2). exists m2, (es1 ++ es2).
  rewrite app_assoc, Hp2, Hp1, fmap_app, Hv1, Hv2, concat_cons, bind_app. by split_and!.
Qed.

(** Debug information whose arrays hold what an oop map can record. *)
Definition maps_ok (di : DebugInfoObject) : Prop :=
  match di_referenceMap di with
  | Some (IsHotSpotReferenceMap m) =>
      Forall location_ok_opt (default [] (rm_objects m)) ∧ Forall location_ok_opt (default [] (rm_derivedBase m))
  | _ => True
  end ∧
  match di_calleeSaveInfo di with
  | Some l => length (rsl_registers l) = length (rsl_slots l) ∧ Forall saved_ok (zip (rsl_registers l) (rsl_slots l))
  | None => True
  end.
#[global] Instance maps_ok_dec di : Decision (maps_ok di).
Proof. unfold maps_ok. destruct (di_referenceMap di) as [[]|], (di_calleeSaveInfo di); apply _. Defined.

(** The result that is specified, in terms of the calls on the map. *)
Definition specified_ops (di : DebugInfoObject) : res (list map_op) :=
  match di_referenceMap di with
  | None => Throw NullPointerException
  | Some OtherReferenceMap => Throw UnknownReferenceMap
  | Some (IsHotSpotReferenceMap (mkRefMap _ (Some objects) (Some bases) (Some sizes))) =>
      if decide (length objects = length bases ∧ length objects = length sizes)
      then oop_map_ops objects bases sizes (di_calleeSaveInfo di) else Throw DifferentSizes
  | Some (IsHotSpotReferenceMap _) => Throw NullPointerException
  end.
Definition wide_vectors (di : DebugInfoObject) : bool :=
  match di_referenceMap di with Some (IsHotSpotReferenceMap m) => 16 <? rm_maxRegisterSize m | _ => false end.
Definition note_wide_vectors (di : DebugInfoObject) (ci : Installer) : Installer :=
  mkInstaller (ci_total_frame_size ci) (ci_parameter_count ci) (ci_has_wide_vector ci || wide_vectors di).

Lemma callee_saved_spec l map es0 :
  building map es0 →
  match l with
  | Some l => length (rsl_registers l) = length (rsl_slots l) ∧ Forall saved_ok (zip (rsl_registers l) (rsl_slots l))
  | None => True
  end →
  (match l with Some l => map_callee_saved (length (rsl_slots l)) 0 l map | None => Ok map end)
    = run_ops saved_ops (match l with Some l => zip (rsl_registers l) (rsl_slots l) | None => [] end) map ∧
  Forall (λ x, safe (saved_ops x) (Forall map_op_ok)) (match l with Some l => zip (rsl_registers l) (rsl_slots l) | None => [] end).
Proof.
  intros _. destruct l as [[rs ss]|]; [|done]. cbn [rsl_registers rsl_slots]. intros [Hl Hok].
  split; [by apply (map_callee_saved_run rs ss [] [])|]. eapply Forall_impl; [done|]. intros x. apply saved_ops_spec.
Qed.

Lemma create_oop_map_spec di ci :
  maps_ok di →
  match specified_ops di with
  | Ok ops => ∃ map es, create_oop_map di ci = Ok (map, note_wide_vectors di ci) ∧
      building map es ∧ omv_view <$> es = ops ≫= map_op_view
  | Throw e => create_oop_map di ci = Throw e
  | Crash => False
  end.
Proof.
  destruct di as [[[[mrs [os|] [bs|] [ns|]]|]|] l]; try done. intros [[Ho Hb] Hl].
  cbn [di_referenceMap di_calleeSaveInfo default from_option rm_objects rm_derivedBase id] in *.
  unfold create_oop_map, specified_ops. cbn [di_referenceMap di_calleeSaveInfo not_null mbind res_bind rm_objects rm_derivedBase rm_sizeInBytes rm_maxRegisterSize].
  case_decide as Hlen.
  2:{ destruct (_ || _) eqn:E; [done|]. apply orb_false_iff in E as [E1 E2]. rewrite negb_false_iff, Z.eqb_eq in E1, E2.
      unfold zlen in E1, E2. lia. }
  destruct Hlen as [H1 H2]. rewrite (proj2 (Z.eqb_eq (zlen os) (zlen bs))), (proj2 (Z.eqb_eq (zlen os) (zlen ns))) by (unfold zlen; lia).
  cbn [negb orb]. set (ci' := if 16 <? mrs then _ else _).
  assert (ci' = note_wide_vectors (mkDebugInfo (Some (IsHotSpotReferenceMap (mkRefMap mrs (Some os) (Some bs) (Some ns)))) l) ci) as ->.
  { subst ci'. unfold note_wide_vectors. cbn. destruct (16 <? mrs); [by rewrite orb_true_r|]. rewrite orb_false_r. by destruct ci. }
  cbn [note_wide_vectors ci_total_frame_size ci_parameter_count].
  rewrite (map_references_run os bs ns [] [] []) by done. unfold oop_map_ops.
  pose proof (run_ops_spec entry_ops (zip (zip os bs) ns) _ [] (new_oop_map_building (ci_total_frame_size ci) (ci_parameter_count ci))) as Hr.
  opose proof* Hr as Hr'; [|clear Hr; rename Hr' into Hr].
  { apply Forall_forall. intros [[o b] n] Hin. apply entry_ops_spec. cbn. rewrite Forall_forall in Ho, Hb.
    apply elem_of_zip_l in Hin as Hin'. split; [apply Ho; by apply elem_of_zip_l in Hin'|apply Hb; by apply elem_of_zip_r in Hin']. }
  destruct (traverse entry_ops _) as [refs|e|]; cbn [mbind res_bind]; [|by rewrite Hr|done].
  destruct Hr as (m1 & es1 & -> & Hb1 & Hp1 & Hv1). cbn [mbind res_bind app] in *.
  destruct (callee_saved_spec l m1 _ Hb1 Hl) as [-> Hs]. pose proof (run_ops_spec saved_ops _ m1 _ Hb1 Hs) as Hr.
  destruct (traverse saved_ops _) as [saved|e|]; cbn [mbind res_bind]; [|by rewrite Hr|done].
  destruct Hr as (m2 & es2 & -> & Hb2 & Hp2 & Hv2). exists m2, (es1 ++ es2).
  rewrite fmap_app, Hv1, Hv2, bind_app. by split_and!.
Qed.

(** C17: [create_oop_map]. Where the arrays name registers and slots that an
    entry can hold, the oop map made from a reference map has exactly the entries
    of the references (a derived pointer with its base, a wide oop, a narrow oop)
    followed by the two halves of each callee-saved register, whatever mask they
    are read with; wide vectors are noted. In all other cases the error is the one
    of the first element that is wrong. The installer never crashes here. *)
Theorem create_oop_map_correct di ci :
  maps_ok di →
  match specified_ops di with
  | Ok ops => ∃ map, create_oop_map di ci = Ok (map, note_wide_vectors di ci) ∧
      ∀ mask, entries_of map mask = Some (filter (λ v, 0 < Z.land v.1.1 mask) (ops ≫= map_op_view))
  | Throw e => create_oop_map di ci = Throw e
  | Crash => False
  end.
Proof.
  intros Hok. pose proof (create_oop_map_spec di ci Hok) as H. destruct (specified_ops di) as [ops|e|]; [|done..].
  destruct H as (map & es & E & Hb & Hv). exists map. split_and!; [done..|]. intros mask.
  by rewrite (entries_of_spec map es), Hv by (by apply building_has_entries).
Qed.

Definition example_maps : DebugInfoObject :=
  mkDebugInfo
    (Some (IsHotSpotReferenceMap (mkRefMap 32
       (Some [Some (mkLocation (Some 3) 0); Some (mkLocation None 16); Some (mkLocation (Some 1) 0)])
       (Some [None; None; Some (mkLocation (Some 3) 0)])
       (Some [8; 4; 8]))))
    (Some (mkLayout [5] [2])).

Lemma create_oop_map_correct_witness :
  ∃ map, create_oop_map example_maps (mkInstaller 64 0 false) = Ok (map, mkInstaller 64 0 true) ∧
    entries_of map 15 = Some
      [(oop_value, 6, None); (narrowoop_value, 188, None); (derived_oop_value, 2, Some 6);
       (callee_saved_value, 188, Some 10); (callee_saved_value, 189, Some 11)].
Proof.
  pose proof (create_oop_map_correct example_maps (mkInstaller 64 0 false)) as H.
  assert (maps_ok example_maps) as Hok by (apply (bool_decide_unpack _); vm_compute; exact I).
  specialize (H Hok). change (specified_ops example_maps) with
    (Ok [SetOop 6; SetNarrowoop 188; SetDerivedOop 2 6; SetCalleeSaved 188 10; SetCalleeSaved 189 11]) in H.
  destruct H as (map & E & Hm). exists map. split; [exact E|]. rewrite Hm. vm_compute. reflexivity.
Defined.

(** C37: A stack location with a negative offset is not rejected: for each of the
    184 offsets -4, -8, ..., -736 [getVMRegFromLocation] succeeds, and the [VMReg]
    it gives is a machine register instead of a stack slot. *)
Theorem negative_stack_offset_is_register k :
  0 < k ≤ stack0 →
  getVMRegFromLocation (Some (mkLocation None (- (4 * k)))) = Ok (stack0 - k) ∧
  is_stack (stack0 - k) = false ∧ is_reg (stack0 - k) = true.
Proof.
  intros Hk. unfold getVMRegFromLocation. cbn [not_null mbind res_bind loc_register loc_offset].
  assert (Z.rem (- (4 * k)) 4 = 0) as -> by (rewrite Z.rem_opp_l, Z.mul_comm, Z.rem_mul; lia).
  assert (Z.quot (- (4 * k)) 4 = - k) as -> by (rewrite Z.quot_opp_l, Z.mul_comm, Z.quot_mul; lia).
  rewrite Z.eqb_refl. unfold stack2reg, is_reg, is_valid, is_stack, BAD_REG, legal_vm_reg_name. rewrite stack0_val in *.
  change register_mask with (Z.ones 12). rewrite Z.land_ones, Z.mod_small, (proj2 (Z.eqb_eq _ _)) by lia.
  rewrite (proj2 (Z.eqb_neq _ _)), (proj2 (Z.leb_gt _ _)) by lia. by replace (184 + - k) with (184 - k) by lia.
Qed.

Lemma negative_stack_offset_is_register_witness :
  getVMRegFromLocation (Some (mkLocation None (-736))) = Ok 0 ∧ is_reg 0 = true.
Proof.
  destruct (negative_stack_offset_is_register 184) as (H1 & _ & H2); [split; reflexivity || discriminate|].
  split; [exact H1|exact H2].
Defined.

(** ** Scope values *)

Section scope_values.
Context (make_local : Z → Z) (total_frame_size : Z) (objects : option (list (option Z))).

(** A value as a compiler describes it: registers exist, constants have the
    range of their type, and virtual objects are used where there is a mapping. *)
Definition java_value_ok (v : JavaValue) : Prop :=
  match v with
  | RegisterValue number _ => register_ok number
  | RawConstant c | PrimitiveConstant _ c => is_jlong c
  | VirtualObjectRef _ => is_Some objects
  | _ => True
  end.
#[global] Instance java_value_ok_dec v : Decision (java_value_ok v).
Proof. destruct v; simpl; apply _. Defined.
Definition value_ok_opt (v : option JavaValue) : Prop := match v with Some v => java_value_ok v | None => True end.
#[global] Instance value_ok_opt_dec v : Decision (value_ok_opt v).
Proof. destruct v; simpl; apply _. Defined.

Context (valid : Z → Prop) (Hvalid : ∀ o, valid (make_local o)) (Hnull : valid 0).
Context (H : gmap Z ObjectValue) (Hobj : ∀ os p, objects = Some os → Some p ∈ os → is_Some (H !! p)).

Definition pair_ok (v : ScopeValue * option ScopeValue) : Prop :=
  value_ok valid H v.1 ∧ match v.2 with Some s => value_ok valid H s | None => True end.
Lemma pair_ok_both v : pair_ok v → Forall (value_ok valid H) (both v).
Proof. destruct v as [v [s|]]; intros [H1 H2]; unfold both; cbn [fst snd] in *; by repeat constructor. Qed.
Lemma pair_ok_location l (b : bool) : is_juint l → pair_ok (LocationValue l, if b then Some (LocationValue l) else None).
Proof. by destruct b. Qed.

Lemma kindToBasicType_spec k : safe (kindToBasicType k) (λ _, True).
Proof. unfold kindToBasicType. apply safe_bind with (λ _, True); [by destruct k|]. intros ch _. by repeat safe_if. Qed.

Lemma get_scope_value_spec v t :
  value_ok_opt v → safe (get_scope_value make_local total_frame_size objects v t) pair_ok.
Proof.
  destruct v as [v|]; [|done]. cbn [value_ok_opt]. intros Hv. unfold get_scope_value. cbn [not_null mbind res_bind].
  destruct v as [|n wk|off afs wk|c|k c| |o| |id|]; cbn [java_value_ok] in Hv; try done.
  - safe_if; [done|]. split; [apply Location_set_range|done].
  - eapply safe_bind; [by apply get_hotspot_reg_spec|]. intros r _. safe_if.
    + apply safe_bind with (λ _, True); [by repeat safe_if|]. intros lt _. apply pair_ok_location, Location_set_range.
    + apply safe_bind with (λ _, True); [by repeat safe_if|]. intros lt _. apply pair_ok_location, Location_set_range.
  - apply safe_bind with (λ _, True); [by repeat safe_if|]. intros lt _. apply pair_ok_location, Location_set_range.
  - eapply safe_bind; [apply kindToBasicType_spec|]. intros ct _. repeat safe_if; try done.
    split; [by apply wrapS_range|done].
  - by safe_if.
  - repeat safe_if; try done. split; [apply Hvalid|done].
  - safe_if; [|done]. destruct objects as [os|] eqn:Hos; [|by destruct Hv]. cbn [of_option mbind res_bind]. safe_if; [|done].
    apply andb_true_iff in Heqb0 as [H0 H1]. rewrite Z.leb_le in H0. rewrite Z.ltb_lt in H1.
    destruct (zget_is_Some os id) as [x Hx]; [lia|]. rewrite Hx. cbn [of_option mbind res_bind].
    destruct x as [p|]; [|done]. split; [|done]. eapply Hobj; [done|]. by eapply zget_elem.
Qed.

(** A lock value: the owner is an object, the slot is a register or a stack slot. *)
Definition lock_ok (owner slot : option JavaValue) : Prop :=
  value_ok_opt owner ∧ value_ok_opt slot ∧
  match slot with Some (RawConstant _ | PrimitiveConstant _ _) => False | _ => True end.
Definition frame_value_ok (v : option FrameValue) : Prop :=
  match v with
  | Some (PlainValue v) => java_value_ok v
  | Some (StackLockValue owner slot _) => lock_ok owner slot
  | None => True
  end.
#[global] Instance frame_value_ok_dec v : Decision (frame_value_ok v).
Proof. destruct v as [[v|ow [[]|] e]|]; simpl; unfold lock_ok; apply _. Defined.

Definition monitor_value_ok (m : MonitorValue) : Prop := value_ok valid H (mv_owner m) ∧ is_juint (mv_basic_lock m).

Lemma get_monitor_value_spec v :
  frame_value_ok v → safe (get_monitor_value make_local total_frame_size objects v) monitor_value_ok.
Proof.
  destruct v as [[v|owner slot el]|]; [done| |done]. intros (Ho & Hs & Hloc). cbn [get_monitor_value not_null mbind res_bind].
  eapply safe_bind; [by apply get_scope_value_spec|]. intros [ov ov2] [Hov _].
  eapply safe_bind; [apply safe_eq; by apply get_scope_value_spec|]. intros [lv lv2] [[Hlv _] E]. cbn [fst] in *.
  assert (∃ l, lv = LocationValue l) as [l ->]; [|by split].
  destruct slot as [sl|]; [|done]. unfold get_scope_value in E. cbn [not_null mbind res_bind] in E.
  destruct sl as [|n wk|off afs wk|c|k c| |o| |id|]; try done.
  - destruct (get_hotspot_reg n) as [r|e|]; [|done..]. cbn [mbind res_bind] in E.
    destruct (is_general_purpose_reg r); repeat case_bool_decide; simplify_eq/=; eauto.
  - repeat case_bool_decide; simplify_eq/=; eauto.
Qed.

(** What the loop over the values of a frame has read when it is at index [i]. *)
(** The locals and the expressions are handled alike. *)
Lemma frame_loop_eq fuel i L E values kinds acc :
  ((i <? L) = true → (i <? s32 (L + E)) = true) →
  frame_loop make_local total_frame_size objects fuel i L E values kinds acc =
  if i <? zlen values then
    match fuel with
    | O => Crash
    | S fuel' =>
        value ← of_option (zget values i);
        if i <? s32 (L + E) then
          kind ← of_option (zget kinds i);
          type ← kindToBasicType kind;
          v ← get_scope_value make_local total_frame_size objects (as_scope_value value) type;
          acc ← (if i <? L
                 then l ← append_values (fv_locals acc) (both v); Ok (mkFV l (fv_expressions acc) (fv_monitors acc))
                 else l ← append_values (fv_expressions acc) (both v); Ok (mkFV (fv_locals acc) l (fv_monitors acc)));
          match v.2 with
          | None => frame_loop make_local total_frame_size objects fuel' (i + 1) L E values kinds acc
          | Some _ =>
              if zlen values <=? i + 1 then Throw MissingIllegal
              else
                next ← of_option (zget values (i + 1));
                if negb (is_illegal next) then Throw MissingIllegal
                else frame_loop make_local total_frame_size objects fuel' (i + 1 + 1) L E values kinds acc
          end
        else
          m ← get_monitor_value make_local total_frame_size objects value;
          l ← append_values (fv_monitors acc) [m];
          frame_loop make_local total_frame_size objects fuel' (i + 1) L E values kinds
            (mkFV (fv_locals acc) (fv_expressions acc) l)
    end
  else Ok acc.
Proof.
  intros HLE. destruct fuel as [|fuel]; cbn [frame_loop]; (destruct (i <? zlen values); [|done]); [done|].
  destruct (of_option (zget values i)) as [value|e|]; [|done..]. cbn [mbind res_bind].
  destruct (i <? L) eqn:HL; [rewrite (HLE eq_refl)|destruct (i <? s32 (L + E))].
  3: { destruct (get_monitor_value _ _ _ value) as [m|e|]; [|done..]. cbn [mbind res_bind].
       by destruct (append_values _ _) as [l|e|]. }
  all: destruct (of_option (zget kinds i)) as [kind|e|]; [|done..]; cbn [mbind res_bind].
  all: destruct (kindToBasicType kind) as [type|e|]; [|done..]; cbn [mbind res_bind].
  all: destruct (get_scope_value _ _ _ _ type) as [v|e|]; [|done..]; cbn [mbind res_bind].
  all: by destruct (append_values _ _) as [l|e|].
Qed.

Section frame.
Context (L E M : Z) (values : list (option FrameValue)) (slotKinds : list (option Z)).
Context (HL : 0 ≤ L) (HE : 0 ≤ E) (HM : 0 ≤ M).
Context (Hle : s32 (L + E) = L + E) (Hkinds : zlen slotKinds = L + E) (Hlen : zlen values = L + E + M).
Context (Hvals : Forall frame_value_ok values).

Definition illegal_at (i : Z) : Prop := ∃ v, zget values i = Some v ∧ is_illegal v = true.
Definition count {A} (l : option (list A)) : Z := zlen (default [] l).

Record fv_ok (fv : frame_values) : Prop := {
  fv_locals_ok : Forall (value_ok valid H) (default [] (fv_locals fv));
  fv_expressions_ok : Forall (value_ok valid H) (default [] (fv_expressions fv));
  fv_monitors_ok : Forall monitor_value_ok (default [] (fv_monitors fv))
}.
Record fv_arrays (fv : frame_values) : Prop := {
  fv_has_locals : 0 < L → is_Some (fv_locals fv);
  fv_has_expressions : 0 < E → is_Some (fv_expressions fv);
  fv_has_monitors : 0 < M → is_Some (fv_monitors fv)
}.
Record fv_counts (i : Z) (fv : frame_values) : Prop := {
  fv_all : count (fv_locals fv) + count (fv_expressions fv) + count (fv_monitors fv) = i;
  fv_before_expressions : i < L → count (fv_locals fv) = i;
  fv_local_count : L ≤ i → L ≤ count (fv_locals fv) ≤ L + 1;
  fv_local_excess : count (fv_locals fv) = L + 1 → illegal_at L;
  fv_before_monitors : i < L + E → count (fv_monitors fv) = 0;
  fv_value_count : L + E ≤ i → L + E ≤ count (fv_locals fv) + count (fv_expressions fv) ≤ L + E + 1;
  fv_value_excess : count (fv_locals fv) + count (fv_expressions fv) = L + E + 1 → illegal_at (L + E)
}.

(** One or two values at the end of the locals or of the expressions. *)
Definition add_values (i : Z) (v : ScopeValue * option ScopeValue) (fv : frame_values) : frame_values :=
  if i <? L then mkFV (Some (default [] (fv_locals fv) ++ both v)) (fv_expressions fv) (fv_monitors fv)
  else mkFV (fv_locals fv) (Some (default [] (fv_expressions fv) ++ both v)) (fv_monitors fv).
Definition width (v : ScopeValue * option ScopeValue) : Z := match v.2 with Some _ => 2 | None => 1 end.

Lemma both_width v : zlen (both v) = width v.
Proof. by destruct v as [? [?|]]. Qed.

Lemma add_values_eq i v fv :
  0 ≤ i < L + E → fv_arrays fv →
  (if i <? L then l ← append_values (fv_locals fv) (both v); Ok (mkFV l (fv_expressions fv) (fv_monitors fv))
   else l ← append_values (fv_expressions fv) (both v); Ok (mkFV (fv_locals fv) l (fv_monitors fv)))
  = Ok (add_values i v fv).
Proof.
  intros Hi [H1 H2 _]. unfold add_values. destruct (Z.ltb_spec i L).
  - destruct H1 as [l ->]; [lia|done].
  - destruct H2 as [l ->]; [lia|done].
Qed.

Lemma add_values_arrays i v fv : fv_arrays fv → fv_arrays (add_values i v fv).
Proof. intros [H1 H2 H3]. unfold add_values. destruct (i <? L); split; cbn; eauto. Qed.
Lemma add_values_ok i v fv : fv_ok fv → pair_ok v → fv_ok (add_values i v fv).
Proof.
  intros [H1 H2 H3] Hv%pair_ok_both. unfold add_values. destruct (i <? L); split; cbn; try done; by apply Forall_app.
Qed.
Lemma add_values_counts i v fv :
  0 ≤ i < L + E → (width v = 2 → illegal_at (i + 1)) → fv_counts i fv → fv_counts (i + width v) (add_values i v fv).
Proof.
  intros Hi Hw [K1 K2 K3 K4 K5 K6 K7].
  assert (width v = 1 ∨ width v = 2) as Hv by (unfold width; destruct (v.2); auto).
  assert (∀ k, width v = 2 → i + 1 = k → illegal_at k) as Hw' by (intros k ? <-; auto).
  unfold add_values. destruct (Z.ltb_spec i L) as [Hlt|Hge].
  - assert (count (fv_locals (add_values i v fv)) = count (fv_locals fv) + width v) as Hc.
    { unfold add_values. rewrite (proj2 (Z.ltb_lt i L)) by done. unfold count. cbn. by rewrite zlen_app, both_width. }
    unfold add_values in Hc. rewrite (proj2 (Z.ltb_lt i L)) in Hc by done.
    split; cbn [fv_locals fv_expressions fv_monitors] in *; rewrite ?Hc; try lia; intros; apply Hw'; lia.
  - assert (count (fv_expressions (add_values i v fv)) = count (fv_expressions fv) + width v) as Hc.
    { unfold add_values. rewrite (proj2 (Z.ltb_ge i L)) by done. unfold count. cbn. by rewrite zlen_app, both_width. }
    unfold add_values in Hc. rewrite (proj2 (Z.ltb_ge i L)) in Hc by done.
    split; cbn [fv_locals fv_expressions fv_monitors] in *; rewrite ?Hc; try lia; try done; intros; apply Hw'; lia.
Qed.

Lemma add_monitor_counts i m fv :
  L + E ≤ i → fv_counts i fv →
  fv_counts (i + 1) (mkFV (fv_locals fv) (fv_expressions fv) (Some (default [] (fv_monitors fv) ++ [m]))).
Proof.
  intros Hi [K1 K2 K3 K4 K5 K6 K7].
  assert (count (Some (default [] (fv_monitors fv) ++ [m])) = count (fv_monitors fv) + 1) as Hc.
  { unfold count. cbn. by rewrite zlen_app. }
  split; cbn [fv_locals fv_expressions fv_monitors] in *; rewrite ?Hc; try lia; done.
Qed.

Lemma frame_loop_spec fuel i fv :
  0 ≤ i → zlen values - i ≤ Z.of_nat fuel → i ≤ zlen values → fv_ok fv → fv_arrays fv → fv_counts i fv →
  safe (frame_loop make_local total_frame_size objects fuel i L E values slotKinds fv)
    (λ fv', fv_ok fv' ∧ fv_counts (L + E + M) fv').
Proof.
  revert i fv. induction fuel as [|fuel IH]; intros i fv Hi Hf Hil Hok Har Hc;
    rewrite frame_loop_eq by (rewrite Hle, !Z.ltb_lt; lia);
    (destruct (Z.ltb_spec i (zlen values)) as [Hlt|Hge]; [|split; [done|by replace (L + E + M) with i by lia]]); [lia|].
  destruct (zget_is_Some values i) as [v Hv]; [lia|]. rewrite Hv. cbn [of_option mbind res_bind].
  assert (frame_value_ok v) as Hvok by (rewrite Forall_forall in Hvals; by apply Hvals, (zget_elem _ i)).
  rewrite Hle. destruct (Z.ltb_spec i (L + E)) as [Hle'|Hge'].
  - destruct (zget_is_Some slotKinds i) as [k Hk]; [lia|]. rewrite Hk. cbn [of_option mbind res_bind].
    eapply safe_bind; [apply kindToBasicType_spec|]. intros t _.
    eapply safe_bind; [apply get_scope_value_spec; by destruct v as [[]|]|]. intros x Hx.
    rewrite add_values_eq by (done || lia). cbn [mbind res_bind].
    pose proof (add_values_counts i x fv ltac:(lia)) as Hcx.
    destruct (x.2) as [s2|] eqn:E2.
    + destruct (Z.leb_spec (zlen values) (i + 1)) as [|Hn]; [done|].
      destruct (zget_is_Some values (i + 1)) as [nx Hnx]; [lia|]. rewrite Hnx. cbn [of_option mbind res_bind].
      destruct (is_illegal nx) eqn:Hill; [|done]. cbn [negb]. unfold width in Hcx. rewrite E2 in Hcx.
      rewrite <- Z.add_assoc. apply IH; [lia..|by apply add_values_ok|by apply add_values_arrays|].
      apply Hcx; [|done]. intros _. by exists nx.
    + unfold width in Hcx. rewrite E2 in Hcx.
      apply IH; [lia..|by apply add_values_ok|by apply add_values_arrays|]. by apply Hcx.
  - eapply safe_bind; [by apply get_monitor_value_spec|]. intros m Hm.
    destruct Har as [A1 A2 A3]. destruct A3 as [ms Hms]; [lia|]. rewrite Hms. cbn [append_values of_option mbind res_bind].
    destruct Hok as [O1 O2 O3]. rewrite Hms in O3. cbn [default from_option] in O3.
    apply IH; [lia..| | |].
    + split; [done..|]. apply Forall_app. split; [done|by apply Forall_singleton].
    + split; cbn; eauto.
    + pose proof (add_monitor_counts i m fv Hge' Hc) as Hc'. by rewrite Hms in Hc'.
Qed.
End frame.

(** A frame as a compiler describes it. *)
Definition frame_ok (frame : BytecodeFrame) : Prop :=
  0 ≤ bf_numLocals frame ∧ is_jint (bf_numLocals frame) ∧ 0 ≤ bf_numStack frame ∧ is_jint (bf_numStack frame) ∧
  0 ≤ bf_numLocks frame ∧ is_jint (bf_numLocks frame) ∧ Forall frame_value_ok (default [] (bf_values frame)).
#[global] Instance frame_ok_dec frame : Decision (frame_ok frame).
Proof. unfold frame_ok. apply _. Defined.

(** Two non-negative ints whose wrapped sum is a length. *)
Lemma s32_sum x y : is_jint x → is_jint y → 0 ≤ x → 0 ≤ y → 0 ≤ s32 (x + y) → s32 (x + y) = x + y ∧ is_jint (x + y).
Proof.
  intros Hx Hy Hx0 Hy0 Hs. unfold in_s in *. destruct (decide (x + y < 2 ^ 31)) as [Hlt|Hge].
  - split; [apply wrapS_id; [lia|unfold in_s; lia]|lia].
  - exfalso. unfold wrapS in Hs. change (2 ^ (32 - 1)) with 2147483648 in *. change (2 ^ 32) with 4294967296 in *.
    change (2 ^ 31) with 2147483648 in *.
    replace (x + y + 2147483648) with (x + y - 2147483648 + 1 * 4294967296) in Hs by lia.
    rewrite Z_mod_plus_full, Z.mod_small in Hs; lia.
Qed.

Lemma read_frame_spec frame :
  frame_ok frame →
  safe (read_frame make_local total_frame_size objects frame) (λ fv, fv_ok fv ∧
    ∃ values, bf_values frame = Some values ∧
      fv_counts (bf_numLocals frame) (bf_numStack frame) values
        (bf_numLocals frame + bf_numStack frame + bf_numLocks frame) fv).
Proof.
  intros (HL & HLj & HE & HEj & HM & HMj & Hv). unfold read_frame.
  destruct (bf_values frame) as [values|]; [|done]. destruct (bf_slotKinds frame) as [kinds|]; [|done].
  safe_if; [done|]. safe_if; [done|]. apply negb_false_iff, Z.eqb_eq in Heqb, Heqb0.
  destruct (s32_sum (bf_numLocals frame) (bf_numStack frame)) as [Hle Hlej];
    [done..|rewrite Heqb0; apply zlen_nonneg|].
  destruct (s32_sum (bf_numLocals frame + bf_numStack frame) (bf_numLocks frame)) as [Hlm _];
    [done|done|lia|done|rewrite Heqb; apply zlen_nonneg|].
  eapply safe_weaken.
  - apply (frame_loop_spec (bf_numLocals frame) (bf_numStack frame) (bf_numLocks frame) values kinds); try done;
      try (unfold zlen in *; lia).
    + unfold new_values. split; cbn; by repeat destruct (0 <? _).
    + unfold new_values. split; cbn; intros ?%Z.ltb_lt; repeat case_match; eauto; congruence.
    + assert (∀ A n, count (@new_values A n) = 0) as Hc0 by (intros A n; unfold new_values; by destruct (0 <? n)).
      split; cbn; rewrite !Hc0; try lia; intros; lia.
  - intros fv [H1 H2]. split; [done|]. eauto.
Qed.
End scope_values.

(** The heap in which the objects of a mapping are. *)
Lemma some_heap (objects : option (list (option Z))) :
  ∃ H : gmap Z ObjectValue, ∀ os p, objects = Some os → Some p ∈ os → is_Some (H !! p).
Proof.
  exists (gset_to_gmap (mkOV 0 None [] 0 false) (list_to_set (omap id (default [] objects)))).
  intros os p -> Hp. rewrite <- elem_of_dom, dom_gset_to_gmap, elem_of_list_to_set, list_elem_of_omap. by exists (Some p).
Qed.

(** C33: The slots of a frame. Reading a frame ends, without a crash, in an error
    or in arrays whose sizes add up to the number of values that were given: a
    value of two slots makes two entries and takes the illegal value after it. The
    locals are as many as the frame has, unless a two-slot value in the last one
    takes the first expression slot, and likewise for the expressions and the
    first lock. *)
Theorem frame_slots_counted make_local total_frame_size objects frame :
  frame_ok objects frame →
  safe (read_frame make_local total_frame_size objects frame) (λ fv,
    let L := bf_numLocals frame in let E := bf_numStack frame in
    let l := count (fv_locals fv) in let e := count (fv_expressions fv) in
    l + e + count (fv_monitors fv) = L + E + bf_numLocks frame ∧
    (l = L ∨ l = L + 1 ∧ illegal_at (default [] (bf_values frame)) L) ∧
    (l + e = L + E ∨ l + e = L + E + 1 ∧ illegal_at (default [] (bf_values frame)) (L + E))).
Proof.
  intros Hf. destruct (some_heap objects) as [H HH].
  eapply safe_weaken; [by apply (read_frame_spec make_local total_frame_size objects (λ _, True) (λ _, I) I H HH)|].
  intros fv [_ (values & -> & [K1 K2 K3 K4 K5 K6 K7])]. destruct Hf as (? & _ & ? & _ & ? & _). cbn [default from_option id].
  split; [done|].
  split; [destruct (decide (count (fv_locals fv) = bf_numLocals frame)); [by left|right]
         |destruct (decide (count (fv_locals fv) + count (fv_expressions fv) = bf_numLocals frame + bf_numStack frame)); [by left|right]].
  - specialize (K3 ltac:(lia)). assert (count (fv_locals fv) = bf_numLocals frame + 1) as Hc by lia. eauto.
  - specialize (K6 ltac:(lia)).
    assert (count (fv_locals fv) + count (fv_expressions fv) = bf_numLocals frame + bf_numStack frame + 1) as Hc by lia. eauto.
Qed.

(** A long and an int, one expression, and a lock; and a frame whose last local
    takes the expression slot. *)
Definition example_frame : BytecodeFrame :=
  mkFrame 3 1 1
    (Some [Some (PlainValue (RegisterValue 0 true)); Some (PlainValue Value_ILLEGAL); Some (PlainValue (StackSlot 8 false false));
           Some (PlainValue (VirtualObjectRef 0)); Some (StackLockValue (Some (VirtualObjectRef 1)) (Some (StackSlot 16 false true)) true)])
    (Some [Some 74; Some 45; Some 73; Some 65]) true false.
Definition straddling_frame : BytecodeFrame :=
  mkFrame 1 1 0 (Some [Some (PlainValue (RegisterValue 0 true)); Some (PlainValue Value_ILLEGAL)]) (Some [Some 74; Some 45]) true false.

Lemma frame_slots_counted_witness :
  (∃ fv, read_frame (λ o, o) 64 (Some [Some 1; Some 2]) example_frame = Ok fv ∧
     count (fv_locals fv) + count (fv_expressions fv) + count (fv_monitors fv) = 5 ∧
     count (fv_locals fv) = 3 ∧ count (fv_expressions fv) = 1) ∧
  (∃ fv, read_frame (λ o, o) 64 None straddling_frame = Ok fv ∧
     count (fv_locals fv) = 2 ∧ count (fv_expressions fv) = 0).
Proof.
  pose proof (frame_slots_counted (λ o, o) 64 (Some [Some 1; Some 2]) example_frame) as H1.
  pose proof (frame_slots_counted (λ o, o) 64 None straddling_frame) as H2.
  assert (frame_ok (Some [Some 1; Some 2]) example_frame) as Ho1 by (apply (bool_decide_unpack _); vm_compute; exact I).
  assert (frame_ok None straddling_frame) as Ho2 by (apply (bool_decide_unpack _); vm_compute; exact I).
  specialize (H1 Ho1). specialize (H2 Ho2).
  destruct (read_frame (λ o, o) 64 (Some [Some 1; Some 2]) example_frame) as [fv1|e|] eqn:E1; [|discriminate E1|discriminate E1].
  destruct (read_frame (λ o, o) 64 None straddling_frame) as [fv2|e|] eqn:E2; [|discriminate E2|discriminate E2].
  split; [exists fv1|exists fv2]; (split; [reflexivity|]).
  - split; [exact (proj1 H1)|]. cbn in E1. injection E1 as <-. vm_compute. repeat split.
  - cbn in E2. injection E2 as <-. vm_compute. repeat split.
Defined.

(** ** A frame part by part *)

Section parts.
Context (make_local : Z → Z) (total_frame_size : Z) (objects : option (list (option Z))).
Local Abbreviation get_scope_value := (get_scope_value make_local total_frame_size objects).
Local Abbreviation get_monitor_value := (get_monitor_value make_local total_frame_size objects).
Local Abbreviation frame_loop := (frame_loop make_local total_frame_size objects).

(** The entries for the slots of the locals, or of the expressions, on their own. *)
Fixpoint slots (l : list (option FrameValue * option Z)) : res (list ScopeValue) :=
  match l with
  | [] => Ok []
  | (v, k) :: rest =>
      type ← kindToBasicType k;
      x ← get_scope_value (as_scope_value v) type;
      match x.2, rest with
      | None, _ => ys ← slots rest; Ok (x.1 :: ys)
      | Some second, (next, _) :: rest' =>
          if is_illegal next then ys ← slots rest'; Ok (second :: x.1 :: ys) else Throw MissingIllegal
      | Some _, [] => Throw MissingIllegal
      end
  end.

Context (L E : Z) (values : list (option FrameValue)) (kinds : list (option Z)).

Definition get_part (loc : bool) (fv : frame_values) : option (list ScopeValue) :=
  if loc then fv_locals fv else fv_expressions fv.
Definition add_part (loc : bool) (xs : list ScopeValue) (fv : frame_values) : frame_values :=
  if loc then mkFV ((λ l, l ++ xs) <$> fv_locals fv) (fv_expressions fv) (fv_monitors fv)
  else mkFV (fv_locals fv) ((λ l, l ++ xs) <$> fv_expressions fv) (fv_monitors fv).

Lemma add_part_nil loc fv : add_part loc [] fv = fv.
Proof.
  assert (∀ l : option (list ScopeValue), (λ l, l ++ []) <$> l = l) as Hn.
  { intros [l|]; cbn; [by rewrite app_nil_r|done]. }
  destruct loc, fv; unfold add_part; cbn; by rewrite Hn.
Qed.
Lemma add_part_app loc xs ys fv : add_part loc ys (add_part loc xs fv) = add_part loc (xs ++ ys) fv.
Proof.
  destruct fv as [[?|] [?|] ms], loc; unfold add_part; cbn; by rewrite <- ?app_assoc.
Qed.
Lemma get_add_part loc xs fv : is_Some (get_part loc fv) → is_Some (get_part loc (add_part loc xs fv)).
Proof. unfold get_part, add_part. by destruct loc; cbn; intros [l ->]; eexists. Qed.

Lemma append_part (i : Z) loc xs fv :
  (i <? L) = loc → is_Some (get_part loc fv) →
  (if i <? L then l ← append_values (fv_locals fv) xs; Ok (mkFV l (fv_expressions fv) (fv_monitors fv))
   else l ← append_values (fv_expressions fv) xs; Ok (mkFV (fv_locals fv) l (fv_monitors fv)))
  = Ok (add_part loc xs fv).
Proof. intros -> [l Hl]. unfold get_part, add_part in *. destruct loc; by rewrite Hl. Qed.

(** The loop on one part is [slots]. *)
Lemma loop_part loc n vs ks xs pre post kpre kpost fv fuel :
  (length vs ≤ n)%nat → length vs = length ks → length pre = length kpre →
  values = pre ++ vs ++ post → kinds = kpre ++ ks ++ kpost →
  (∀ j, zlen pre ≤ j < zlen pre + zlen vs → (j <? L) = loc ∧ (j <? s32 (L + E)) = true) →
  (vs ≠ [] → is_Some (get_part loc fv)) →
  slots (zip vs ks) = Ok xs → zlen values - zlen pre ≤ Z.of_nat fuel →
  ∃ fuel', zlen values - zlen (pre ++ vs) ≤ Z.of_nat fuel' ∧
    frame_loop fuel (zlen pre) L E values kinds fv
      = frame_loop fuel' (zlen (pre ++ vs)) L E values kinds (add_part loc xs fv).
Proof.
  revert vs ks xs pre kpre fv fuel.
  induction n as [|n IH]; intros vs ks xs pre kpre fv fuel Hn Hl Hp Hv Hk Hj Hsome Hs Hf;
    (destruct vs as [|v vs]; destruct ks as [|k ks]; try done;
      [injection Hs as <-; exists fuel; by rewrite app_nil_r, add_part_nil|]); [simpl in Hn; lia|].
  assert (zlen values = zlen pre + zlen (v :: vs) + zlen post) as Hlen by (rewrite Hv, !zlen_app; lia).
  assert (zlen (v :: vs) = 1 + zlen vs) as Hc by (unfold zlen; simpl; lia). pose proof (zlen_nonneg post). pose proof (zlen_nonneg vs).
  destruct (Hj (zlen pre) ltac:(lia)) as [Hloc Hle].
  destruct fuel as [|fuel]; [lia|]. rewrite frame_loop_eq by done.
  rewrite (proj2 (Z.ltb_lt (zlen pre) (zlen values))) by lia.
  assert (zget values (zlen pre) = Some v) as -> by (rewrite Hv; apply zget_middle). cbn [of_option mbind res_bind].
  rewrite Hle.
  assert (zget kinds (zlen pre) = Some k) as -> by (rewrite Hk; unfold zlen; rewrite Hp; apply zget_middle).
  cbn [of_option mbind res_bind slots zip_with] in *.
  destruct (kindToBasicType k) as [t|e|]; [|done..]. cbn [mbind res_bind] in *.
  destruct (get_scope_value (as_scope_value v) t) as [[x s]|e|]; [|done..]. cbn [mbind res_bind fst snd] in *.
  rewrite (append_part _ loc) by (done || by apply Hsome). cbn [mbind res_bind].
  unfold both. cbn [fst snd]. destruct s as [s2|].
  - destruct vs as [|nv vs]; destruct ks as [|nk ks]; try done. cbn [zip_with] in Hs.
    destruct (is_illegal nv) eqn:Hill; [|done]. apply res_bind_Ok in Hs as (ys & Hys & [= <-]).
    assert (zlen (nv :: vs) = 1 + zlen vs) as Hc2 by (unfold zlen; simpl; lia). pose proof (zlen_nonneg vs).
    rewrite (proj2 (Z.leb_gt (zlen values) _)) by lia.
    assert (values = (pre ++ [v]) ++ nv :: vs ++ post) as Hv2 by (by rewrite Hv, <- app_assoc).
    replace (zlen pre + 1) with (zlen (pre ++ [v])) by (rewrite zlen_app; done).
    assert (zget values (zlen (pre ++ [v])) = Some nv) as -> by (rewrite Hv2; apply zget_middle).
    cbn [of_option mbind res_bind]. rewrite Hill. cbn [negb].
    assert (zlen ((pre ++ [v]) ++ [nv]) = zlen pre + 2) as Hz by (rewrite !zlen_app; unfold zlen; simpl; lia).
    replace (zlen (pre ++ [v]) + 1) with (zlen ((pre ++ [v]) ++ [nv])) by (rewrite zlen_app; done).
    destruct (IH vs ks ys ((pre ++ [v]) ++ [nv]) ((kpre ++ [k]) ++ [nk]) (add_part loc [s2; x] fv) fuel) as (fuel' & Hf' & Ef);
      [simpl in *; lia|simpl in *; lia|rewrite !length_app; simpl; lia|by rewrite Hv, <- !app_assoc|by rewrite Hk, <- !app_assoc| | |done|lia|].
    + intros j Hj'. apply Hj. lia.
    + intros _. by apply get_add_part, Hsome.
    + exists fuel'. rewrite Ef, add_part_app. rewrite <- !app_assoc in *. done.
  - apply res_bind_Ok in Hs as (ys & Hys & [= <-]).
    replace (zlen pre + 1) with (zlen (pre ++ [v])) by (rewrite zlen_app; done).
    assert (zlen (pre ++ [v]) = zlen pre + 1) as Hz by (by rewrite zlen_app).
    destruct (IH vs ks ys (pre ++ [v]) (kpre ++ [k]) (add_part loc [x] fv) fuel) as (fuel' & Hf' & Ef);
      [simpl in *; lia|simpl in *; lia|rewrite !length_app; simpl; lia|by rewrite Hv, <- !app_assoc|by rewrite Hk, <- !app_assoc| | |done|lia|].
    + intros j Hj'. apply Hj. lia.
    + intros _. by apply get_add_part, Hsome.
    + exists fuel'. rewrite Ef, add_part_app. rewrite <- !app_assoc in *. done.
Qed.

(** The loop on the locks. *)
Lemma loop_locks ms vs pre fv fuel :
  values = pre ++ vs → L ≤ zlen pre → L + E ≤ zlen pre → s32 (L + E) = L + E → (vs ≠ [] → is_Some (fv_monitors fv)) →
  traverse get_monitor_value vs = Ok ms → zlen vs ≤ Z.of_nat fuel →
  frame_loop fuel (zlen pre) L E values kinds fv
    = Ok (mkFV (fv_locals fv) (fv_expressions fv) ((λ l, l ++ ms) <$> fv_monitors fv)).
Proof.
  revert ms pre fv fuel. induction vs as [|v vs IH]; intros ms pre fv fuel Hv HpL Hp Hle Hsome Ht Hf.
  { injection Ht as <-. rewrite app_nil_r in Hv. subst.
    assert ((λ l, l ++ []) <$> fv_monitors fv = fv_monitors fv) as -> by (destruct (fv_monitors fv); cbn; [by rewrite app_nil_r|done]).
    destruct fuel; cbn [CodeInstaller.frame_loop]; rewrite Z.ltb_irrefl; by destruct fv. }
  cbn [traverse] in Ht. apply res_bind_Ok in Ht as (m & Hm & (ms' & Hms & [= <-])%res_bind_Ok).
  assert (zlen (v :: vs) = 1 + zlen vs) as Hc by (unfold zlen; simpl; lia). pose proof (zlen_nonneg vs).
  destruct fuel as [|fuel]; [lia|]. rewrite frame_loop_eq by (rewrite Z.ltb_lt; lia).
  rewrite (proj2 (Z.ltb_lt (zlen pre) (zlen values))) by (rewrite Hv, zlen_app; lia).
  assert (zget values (zlen pre) = Some v) as -> by (rewrite Hv; apply zget_middle). cbn [of_option mbind res_bind].
  rewrite Hle, (proj2 (Z.ltb_ge (zlen pre) _)) by lia. rewrite Hm. cbn [mbind res_bind].
  destruct (Hsome ltac:(done)) as [l Hl]. rewrite Hl. cbn [append_values of_option mbind res_bind].
  replace (zlen pre + 1) with (zlen (pre ++ [v])) by (rewrite zlen_app; done).
  rewrite (IH ms'); [|by rewrite <- app_assoc|rewrite zlen_app; unfold zlen in *; simpl; lia..|done|by eexists|done|lia].
  cbn. by rewrite <- app_assoc.
Qed.
End parts.

(** Frames are read part by part: when the values are those of the locals,
    of the expressions and of the locks, and each part is well-formed on its own
    (two-slot values are followed by the illegal value within their part), the arrays
    of the scope are the entries for each part, second halves first. *)
Theorem frame_read_by_parts make_local total_frame_size objects frame lv ev mv lk ek ls es ms :
  bf_values frame = Some (lv ++ ev ++ mv) → bf_slotKinds frame = Some (lk ++ ek) →
  zlen lv = bf_numLocals frame → zlen ev = bf_numStack frame → zlen mv = bf_numLocks frame →
  length lv = length lk → length ev = length ek → zlen (lv ++ ev ++ mv) < 2 ^ 31 →
  slots make_local total_frame_size objects (zip lv lk) = Ok ls →
  slots make_local total_frame_size objects (zip ev ek) = Ok es →
  traverse (get_monitor_value make_local total_frame_size objects) mv = Ok ms →
  ∃ fv, read_frame make_local total_frame_size objects frame = Ok fv ∧
    default [] (fv_locals fv) = ls ∧ default [] (fv_expressions fv) = es ∧ default [] (fv_monitors fv) = ms.
Proof.
  intros Hval Hkind HL HE HM Hlk Hek Hsz Hls Hes Hms. unfold read_frame. rewrite Hval, Hkind, <- HL, <- HE, <- HM.
  rewrite !zlen_app in *. pose proof (zlen_nonneg lv). pose proof (zlen_nonneg ev). pose proof (zlen_nonneg mv).
  rewrite !(wrapS_id 32) by (done || (unfold in_s; lia)). rewrite Z.add_assoc, Z.eqb_refl.
  rewrite (proj2 (Z.eqb_eq _ (zlen lk + zlen ek))) by (unfold zlen; lia). cbn [negb].
  set (fv0 := mkFV _ _ _).
  assert (s32 (zlen lv + zlen ev) = zlen lv + zlen ev) as Hs32 by (apply wrapS_id; [done|unfold in_s; lia]).
  assert (∀ A (l : list A) B, l ≠ [] → is_Some (@new_values B (zlen l))) as Hnew.
  { intros A [|x l] B Hne; [done|]. unfold new_values, zlen. cbn. eauto. }
  destruct (loop_part make_local total_frame_size objects (zlen lv) (zlen ev) (lv ++ ev ++ mv) (lk ++ ek) true (length lv) lv lk ls
    [] (ev ++ mv) [] ek fv0 (length (lv ++ ev ++ mv))) as (f1 & Hf1 & E1); try done.
  { intros j Hj. change (zlen []) with 0 in Hj. rewrite Hs32. split; apply Z.ltb_lt; lia. }
  { apply Hnew. }
  { unfold zlen. simpl. lia. }
  change (zlen []) with 0 in E1. rewrite E1. cbn [app].
  destruct (loop_part make_local total_frame_size objects (zlen lv) (zlen ev) (lv ++ ev ++ mv) (lk ++ ek) false (length ev) ev ek es
    lv mv lk [] (add_part true ls fv0) f1) as (f2 & Hf2 & E2); try done.
  { by rewrite app_nil_r. }
  { intros j Hj. rewrite Hs32. split; [apply Z.ltb_ge|apply Z.ltb_lt]; lia. }
  { apply Hnew. }
  rewrite E2. rewrite (loop_locks make_local total_frame_size objects (zlen lv) (zlen ev) (lv ++ ev ++ mv) (lk ++ ek) ms mv);
    [|by rewrite <- app_assoc|rewrite zlen_app; lia|by rewrite zlen_app|done|apply Hnew|done|rewrite !zlen_app in Hf2; lia].
  eexists. split; [done|]. cbn [add_part fv0 fv_locals fv_expressions fv_monitors].
  assert (∀ (A C : Type) (l : list A) (xs : list C), (l = [] → xs = []) → default [] ((λ l : list C, l ++ xs) <$> @new_values C (zlen l)) = xs) as Hd.
  { intros A C [|a l] xs Hx; cbn; [by rewrite Hx|done]. }
  split_and!.
  - apply Hd. intros ->. by injection Hls.
  - apply Hd. intros ->. by injection Hes.
  - apply Hd. intros ->. by injection Hms.
Qed.

Lemma frame_read_by_parts_witness :
  ∃ fv, read_frame (λ o, o) 64 (Some [Some 1; Some 2]) example_frame = Ok fv ∧
    default [] (fv_locals fv)
      = [LocationValue (new_reg_loc lng 0); LocationValue (new_reg_loc lng 0); LocationValue (new_stk_loc normal 8)] ∧
    default [] (fv_expressions fv) = [ObjectPointer 1] ∧
    default [] (fv_monitors fv) = [mkMonitor (ObjectPointer 2) (new_stk_loc lng 16) true].
Proof.
  apply (frame_read_by_parts (λ o, o) 64 (Some [Some 1; Some 2]) example_frame
    [Some (PlainValue (RegisterValue 0 true)); Some (PlainValue Value_ILLEGAL); Some (PlainValue (StackSlot 8 false false))]
    [Some (PlainValue (VirtualObjectRef 0))]
    [Some (StackLockValue (Some (VirtualObjectRef 1)) (Some (StackSlot 16 false true)) true)]
    [Some 74; Some 45; Some 73] [Some 65]); vm_compute; reflexivity.
Defined.
