(* ===== verification/VirtualObjects.v ===== *)
(** * The virtual objects of a site

    [CodeInstaller::record_virtual_objects]: the ObjectValues made for the virtual
    objects of a debug information, and the fields they are described with. *)

From stdpp Require Import base numbers list gmap fin_sets infinite.
From S2P Require Import Prelude GlobalDefinitions CompressedStream GrowableArray VMReg OopRecorder ObjectLookup DebugInfo RecorderIndex OopMap DebugInfoRec ScopeDesc Safepoints CodeInstaller.
Local Open Scope Z_scope.

Section objects.
Context (make_local : Z → Z) (total_frame_size : Z).
Context (new_object : gmap Z ObjectValue → Z) (Hnew : ∀ D, D !! new_object D = None).

(** ** What is described *)

(** The field values that one value of a virtual object stands for. *)
Definition field_of (objects : list (option Z)) (isLongArray : bool) (x : option JavaValue * option Z) : res (list ScopeValue) :=
  type ← kindToBasicType x.2;
  v ← get_scope_value make_local total_frame_size (Some objects) x.1 type;
  Ok (match v.2, isLongArray with
      | Some second, _ => [second; v.1]
      | None, true => [ConstantIntValue 0; v.1]
      | None, false => [v.1]
      end).
Definition fields_of (objects : list (option Z)) (vo : VirtualObject) : res (list ScopeValue) :=
  fs ← traverse (field_of objects (vo_isLongArray vo)) (zip (vo_values vo) (vo_slotKinds vo)); Ok (concat fs).
Definition klass_of (vo : VirtualObject) : ScopeValue := ConstantOopWriteValue (make_local (vo_mirror vo)).

(** A virtual object as a compiler describes it. *)
Definition virtual_ok (vo : VirtualObject) : Prop :=
  length (vo_values vo) = length (vo_slotKinds vo) ∧ zlen (vo_values vo) < 2 ^ 30 ∧
  Forall (value_ok_opt (Some [])) (vo_values vo).
#[global] Instance virtual_ok_dec vo : Decision (virtual_ok vo).
Proof. unfold virtual_ok. apply _. Defined.

Lemma value_ok_opt_some os os' v : value_ok_opt (Some os) v → value_ok_opt (Some os') v.
Proof. destruct v as [[]|]; cbn; eauto. Qed.

(** ** One object *)

Lemma field_loop_eq vs ks pv pk id mirror lng objects fields :
  length pv = length pk → length vs = length ks →
  field_loop make_local total_frame_size (length vs) (zlen pv) objects (mkVirtual id mirror lng (pv ++ vs) (pk ++ ks)) fields
    = (fs ← traverse (field_of objects lng) (zip vs ks); Ok (fields ++ concat fs)).
Proof.
  revert ks pv pk fields. induction vs as [|v vs IH]; intros [|k ks] pv pk fields Hp Hl; try done.
  { cbn. by rewrite app_nil_r. }
  cbn [length field_loop zip_with traverse vo_values vo_slotKinds vo_isLongArray].
  assert (zget (pk ++ k :: ks) (zlen pv) = Some k) as -> by (unfold zlen; rewrite Hp; apply zget_middle).
  rewrite zget_middle. cbn [of_option mbind res_bind].
  set (g := field_of objects lng) in *. change (g (v, k)) with (field_of objects lng (v, k)).
  unfold field_of. cbn [fst snd].
  destruct (kindToBasicType k) as [t|e|]; [|done..]. cbn [mbind res_bind].
  destruct (get_scope_value make_local total_frame_size (Some objects) v t) as [[x s]|e|]; [|done..]. cbn [mbind res_bind fst snd].
  rewrite (cons_middle _ pv), (cons_middle _ pk), !app_assoc.
  replace (zlen pv + 1) with (zlen (pv ++ [v])) by (rewrite zlen_app; unfold zlen; simpl; lia).
  rewrite IH by (rewrite ?length_app; simpl in *; lia).
  destruct (traverse g (zip vs ks)) as [fs|e|]; [|done..]. cbn [mbind res_bind concat].
  f_equal. rewrite <- app_assoc. by destruct s, lng.
Qed.

Lemma record_object_value_eq sv vo objects D o :
  length (vo_values vo) = length (vo_slotKinds vo) → D !! sv = Some o →
  record_object_value make_local total_frame_size sv vo objects D
    = (fs ← fields_of objects vo;
       Ok (<[sv := mkOV (ov_id o) (ov_klass o) (ov_field_values o ++ fs) (ov_value o) (ov_visited o)]> D)).
Proof.
  intros Hl Ho. destruct vo as [id mirror lng vs ks]. unfold record_object_value, fields_of. rewrite Ho.
  cbn [of_option mbind res_bind vo_values vo_slotKinds vo_isLongArray] in *.
  pose proof (field_loop_eq vs ks [] [] id mirror lng objects (ov_field_values o) eq_refl Hl) as Hf.
  cbn [app] in Hf. change (zlen []) with 0 in Hf. rewrite Hf.
  by destruct (traverse (field_of objects lng) (zip vs ks)).
Qed.

Section valid.
Context (valid : Z → Prop) (Hvalid : ∀ o, valid (make_local o)) (Hnull : valid 0).
Context (H : gmap Z ObjectValue).

Lemma field_of_spec objects lng x :
  (∀ p, Some p ∈ objects → is_Some (H !! p)) → value_ok_opt (Some []) x.1 →
  safe (field_of objects lng x) (λ l, Forall (value_ok valid H) l ∧ (length l ≤ 2)%nat).
Proof.
  intros Hobj Hx. unfold field_of. eapply safe_bind; [apply kindToBasicType_spec|]. intros t _.
  eapply safe_bind.
  { apply (get_scope_value_spec make_local total_frame_size (Some objects) valid Hvalid Hnull H); [|by eapply value_ok_opt_some].
    intros os p [= <-]. apply Hobj. }
  intros [v [s|]] [Hv Hs]; cbn [fst snd] in *; [|destruct lng]; (split; [by repeat constructor|simpl; lia]).
Qed.

Lemma fields_of_spec objects vo :
  (∀ p, Some p ∈ objects → is_Some (H !! p)) → virtual_ok vo →
  safe (fields_of objects vo) (λ fs, Forall (value_ok valid H) fs ∧ is_jint (zlen fs)).
Proof.
  intros Hobj (Hlen & Hsz & Hvs). unfold fields_of.
  assert (∀ l, Forall (λ x, value_ok_opt (Some []) x.1) l →
    safe (traverse (field_of objects (vo_isLongArray vo)) l)
      (λ fs, Forall (value_ok valid H) (concat fs) ∧ (length (concat fs) ≤ 2 * length l)%nat)) as Ht.
  { induction 1 as [|x l Hx _ IH]; [by split; [constructor|]|]. cbn [traverse].
    eapply safe_bind; [by apply field_of_spec|]. intros f [Hf Hlf]. eapply safe_bind; [exact IH|]. intros fs [Hfs Hls].
    cbn [concat safe mret res_ret]. split; [by apply Forall_app|]. rewrite length_app. simpl. lia. }
  eapply safe_bind; [apply Ht|].
  - apply Forall_forall. intros [v k] Hin%elem_of_zip_l. rewrite Forall_forall in Hvs. by apply Hvs.
  - intros fs [Hfs Hl]. split; [done|]. rewrite length_zip_with in Hl. unfold zlen, in_s in *. lia.
Qed.
End valid.

(** ** All objects *)

(** The slots that are still empty. *)
Definition free (objects : list (option Z)) : nat := length (filter (λ x, x = None) objects).

Lemma free_insert objects id p :
  zget objects id = Some None → free objects = S (free (<[Z.to_nat id := Some p]> objects)).
Proof.
  unfold zget. case_decide as Hid; [|done]. intros Hg. pose proof (lookup_lt_Some _ _ _ Hg).
  unfold free. rewrite insert_take_drop by done. rewrite <- (take_drop_middle objects _ _ Hg) at 1.
  rewrite !filter_app, !filter_cons, decide_True, decide_False by done. rewrite !length_app. simpl. lia.
Qed.
Lemma free_none objects : free objects = O → ∃ pool, objects = Some <$> pool.
Proof.
  induction objects as [|x objects IH]; [by exists []|]. unfold free. rewrite filter_cons. case_decide as Hx; [done|].
  intros [pool ->]%IH. destruct x as [p|]; [|done]. by exists (p :: pool).
Qed.

Record created (D0 : gmap Z ObjectValue) (done : list VirtualObject) (objects : list (option Z)) (D : gmap Z ObjectValue) : Prop := {
  cr_old : D0 ⊆ D;
  cr_done vo : vo ∈ done → ∃ p, zget objects (vo_id vo) = Some (Some p) ∧ D0 !! p = None ∧
    D !! p = Some (new_object_value_klass (vo_id vo) (klass_of vo));
  cr_slot id p : zget objects id = Some (Some p) → id ∈ vo_id <$> done;
  cr_ids : NoDup (vo_id <$> done)
}.

Lemma created_step D0 done objects D vo :
  created D0 done objects D → zget objects (vo_id vo) = Some None →
  created D0 (done ++ [vo]) (<[Z.to_nat (vo_id vo) := Some (new_object D)]> objects)
    (<[new_object D := new_object_value_klass (vo_id vo) (klass_of vo)]> D).
Proof.
  intros [Hold Hdone Hslot Hids] Hg. pose proof (zget_Some _ _ _ Hg) as Hr. pose proof (Hnew D) as Hfresh.
  assert (vo_id vo ∉ vo_id <$> done) as Hni.
  { intros (vo' & Heq & Hin)%list_elem_of_fmap. destruct (Hdone vo' Hin) as (p & Hp & _). rewrite <- Heq in Hp. congruence. }
  split.
  - apply insert_subseteq_r; [|done]. exact (lookup_weaken_None D0 D _ Hfresh Hold).
  - intros vo' [Hin| ->%list_elem_of_singleton]%elem_of_app.
    + destruct (Hdone vo' Hin) as (p & Hp & Hp0 & HD). exists p. rewrite zget_insert by done.
      rewrite decide_False by (intros Heq; apply Hni; rewrite <- Heq; by apply list_elem_of_fmap_2).
      split_and!; [done|done|]. by rewrite lookup_insert_ne by congruence.
    + exists (new_object D). rewrite zget_insert, decide_True, lookup_insert_eq by done. split_and!; [done| |done].
      exact (lookup_weaken_None D0 D _ Hfresh Hold).
  - intros id p. rewrite zget_insert by done. rewrite fmap_app, elem_of_app. case_decide as Hid.
    + intros _. right. rewrite Hid. left.
    + intros Hp. left. by eapply Hslot.
  - rewrite fmap_app. apply NoDup_app. split; [done|]. split; [|by apply NoDup_singleton].
    intros x Hx ->%list_elem_of_singleton. done.
Qed.

Lemma create_objects_spec D0 done vos objects D :
  created D0 done objects D →
  safe (create_objects make_local new_object vos objects D) (λ r,
    created D0 (done ++ vos) r.1 r.2 ∧ length r.1 = length objects ∧ free objects = (length vos + free r.1)%nat).
Proof.
  revert done objects D. induction vos as [|vo vos IH]; intros done objects D Hc.
  { cbn. by rewrite app_nil_r. }
  cbn [create_objects]. safe_if; [done|]. apply orb_false_iff in Heqb as [H1 H2]. apply Z.ltb_ge in H1. apply Z.leb_gt in H2.
  destruct (zget_is_Some objects (vo_id vo)) as [old Hold]; [lia|]. rewrite Hold. cbn [of_option mbind res_bind].
  destruct old as [|]; [done|]. rewrite zset_eq by lia. cbn [of_option mbind res_bind].
  eapply safe_weaken; [apply IH; by apply created_step|]. intros [objects' D'] (Hc' & Hl & Hf). cbn [fst snd] in *.
  rewrite <- app_assoc in Hc'. split_and!; [done|by rewrite Hl, length_insert|].
  rewrite (free_insert objects (vo_id vo) (new_object D)) by done. rewrite Hf. simpl. lia.
Qed.

(** Every slot holds the ObjectValue of the virtual object with that id, whose
    fields are described in full ([done]) or not at all yet. *)
Record described (D0 : gmap Z ObjectValue) (objects : list (option Z)) (done todo : list VirtualObject) (D : gmap Z ObjectValue)
    : Prop := {
  de_old : D0 ⊆ D;
  de_done vo : vo ∈ done → ∃ p fs, zget objects (vo_id vo) = Some (Some p) ∧ D0 !! p = None ∧
    D !! p = Some (mkOV (vo_id vo) (Some (klass_of vo)) fs 0 false) ∧ fields_of objects vo = Ok fs;
  de_todo vo : vo ∈ todo → ∃ p, zget objects (vo_id vo) = Some (Some p) ∧ D0 !! p = None ∧
    D !! p = Some (new_object_value_klass (vo_id vo) (klass_of vo));
  de_ids : NoDup (vo_id <$> done ++ todo)
}.

Lemma described_step D0 objects done vo todo D p fs :
  described D0 objects done (vo :: todo) D → zget objects (vo_id vo) = Some (Some p) →
  fields_of objects vo = Ok fs →
  described D0 objects (done ++ [vo]) todo (<[p := mkOV (vo_id vo) (Some (klass_of vo)) fs 0 false]> D).
Proof.
  intros [Hold Hdone Htodo Hids] Hp Hfs. destruct (Htodo vo ltac:(left)) as (p' & Hp' & Hp0 & HD).
  assert (p' = p) as -> by congruence.
  rewrite fmap_app, fmap_cons in Hids. apply NoDup_app in Hids as (Hd1 & Hd2 & Hd3). apply NoDup_cons in Hd3 as [Hd3 Hd4].
  assert (∀ vo' q o, vo_id vo' ≠ vo_id vo → D !! q = Some o → ov_id o = vo_id vo' → p ≠ q) as Hne.
  { intros vo' q o Hv Hq Ho ->. rewrite HD in Hq. injection Hq as <-. by apply Hv. }
  split.
  - apply insert_subseteq_r; [done|done].
  - intros vo' [Hin| ->%list_elem_of_singleton]%elem_of_app.
    + destruct (Hdone vo' Hin) as (q & fs' & Hq & Hq0 & HDq & Hfs'). exists q, fs'. split_and!; [done..| |done].
      rewrite lookup_insert_ne; [done|]. eapply (Hne vo'); [|exact HDq|done].
      intros Heq. apply (Hd2 (vo_id vo')); [by apply list_elem_of_fmap_2|rewrite Heq; left].
    + exists p, fs. rewrite lookup_insert_eq. by split_and!.
  - intros vo' Hin. destruct (Htodo vo') as (q & Hq & Hq0 & HDq); [by right|]. exists q. split_and!; [done..|].
    rewrite lookup_insert_ne; [done|]. eapply (Hne vo'); [|exact HDq|done].
    intros Heq. apply Hd3. rewrite <- Heq. by apply list_elem_of_fmap_2.
  - rewrite <- app_assoc, fmap_app. apply NoDup_app. split_and!; [done..|]. by apply NoDup_cons.
Qed.

Lemma describe_objects_spec D0 objects done todo D :
  described D0 objects done todo D → Forall virtual_ok todo →
  safe (describe_objects make_local total_frame_size todo objects D) (described D0 objects (done ++ todo) []).
Proof.
  intros Hd Hok. revert done D Hd. induction Hok as [|vo todo Hvo _ IH]; intros done D Hd; cbn [describe_objects].
  { cbn. by rewrite app_nil_r. }
  destruct (de_todo _ _ _ _ _ Hd vo ltac:(left)) as (p & Hp & Hp0 & HD). rewrite Hp. cbn [of_option mbind res_bind].
  rewrite (record_object_value_eq p vo objects D _ (proj1 Hvo) HD).
  destruct (some_heap (Some objects)) as [H HH].
  pose proof (fields_of_spec (λ _, True) (λ _, I) I H objects vo (λ p, HH _ p eq_refl) Hvo) as Hf.
  destruct (fields_of objects vo) as [fs|e|] eqn:Hfs; [|done..]. cbn [mbind res_bind].
  rewrite (cons_middle _ done), app_assoc. apply IH. by apply described_step.
Qed.

(** The table of objects that [record_virtual_objects] dumps. *)
Record objects_described (D0 : gmap Z ObjectValue) (vos : list VirtualObject) (pool : list Z) (D : gmap Z ObjectValue) : Prop := {
  od_old : D0 ⊆ D;
  od_size : length pool = length vos;
  od_ids : NoDup (vo_id <$> vos);
  od_object vo : vo ∈ vos → ∃ p fs, zget pool (vo_id vo) = Some p ∧ D0 !! p = None ∧
    D !! p = Some (mkOV (vo_id vo) (Some (klass_of vo)) fs 0 false) ∧ fields_of (Some <$> pool) vo = Ok fs;
  od_slot i p : zget pool i = Some p → ∃ vo, vo ∈ vos ∧ vo_id vo = i
}.

Lemma zget_pool (pool : list Z) i p : zget (Some <$> pool) i = Some (Some p) ↔ zget pool i = Some p.
Proof. unfold zget. case_decide; [|done]. rewrite list_lookup_fmap. destruct (pool !! _); cbn; naive_solver. Qed.

Local Abbreviation make_objects := (make_objects make_local total_frame_size new_object).

Lemma make_objects_spec vos D0 :
  Forall virtual_ok vos →
  safe (make_objects vos D0) (λ r, ∃ pool, r.1 = Some <$> pool ∧ objects_described D0 vos pool r.2).
Proof.
  intros Hok. unfold CodeInstaller.make_objects.
  assert (∀ n i p, zget (replicate n (@None Z)) i ≠ Some (Some p)) as Hrep.
  { intros n i p [Hin _]%zget_elem%elem_of_replicate. done. }
  eapply safe_bind.
  { apply (create_objects_spec D0 []). split; [done|by intros ? ?%elem_of_nil|by intros ?? ?%Hrep|constructor]. }
  intros [objects D] ([Hold Hdone Hslot Hids] & Hlen & Hfree). cbn [fst snd app] in *. rewrite length_replicate in Hlen.
  assert (∀ n, free (replicate n None) = n) as Hfr.
  { unfold free. induction n as [|n IH]; [done|]. cbn [replicate]. rewrite filter_cons, decide_True by done. simpl. by rewrite IH. }
  rewrite Hfr in Hfree. destruct (free_none objects) as [pool ->]; [lia|]. rewrite length_fmap in Hlen.
  eapply safe_bind.
  { apply (describe_objects_spec D0 (Some <$> pool) [] vos D); [|done]. split; [done|by intros ? ?%elem_of_nil|done|done]. }
  intros D' [K1 K2 _ _]. exists pool. split; [done|]. cbn [snd app] in *. split; [done|done|done| |].
  - intros vo (p & fs & Hp%zget_pool & ?)%K2. eauto.
  - intros i p Hp. apply zget_pool in Hp. apply Hslot, list_elem_of_fmap in Hp as (vo & -> & Hvo). eauto.
Qed.

(** The objects are a pool the recorder can write. *)
Lemma pool_elem D0 vos pool D p :
  objects_described D0 vos pool D → p ∈ pool →
  ∃ vo fs, vo ∈ vos ∧ zget pool (vo_id vo) = Some p ∧
    D !! p = Some (mkOV (vo_id vo) (Some (klass_of vo)) fs 0 false) ∧ fields_of (Some <$> pool) vo = Ok fs.
Proof.
  intros Hd (i & Hi)%list_elem_of_lookup. destruct (od_slot _ _ _ _ Hd (Z.of_nat i) p) as (vo & Hvo & Hid).
  { by rewrite zget_nat. }
  destruct (od_object _ _ _ _ Hd vo Hvo) as (q & fs & Hq & _ & HD & Hfs).
  assert (q = p) as ->; [|by exists vo, fs]. rewrite Hid, zget_nat in Hq. congruence.
Qed.

Lemma pool_graph_ok (valid : Z → Prop) D0 vos pool D :
  (∀ o, valid (make_local o)) → valid 0 → zlen vos < 2 ^ 31 → Forall virtual_ok vos →
  objects_described D0 vos pool D → graph_ok valid (pool_graph pool D).
Proof.
  intros Hvalid Hnull Hn Hok Hd. split.
  - intros p o [Hin (o' & HD & ->)]%pool_graph_lookup.
    destruct (pool_elem _ _ _ _ _ Hd Hin) as (vo & fs & Hvo & Hz & HD' & Hfs). rewrite HD in HD'. injection HD' as ->.
    rewrite Forall_forall in Hok.
    pose proof (fields_of_spec valid Hvalid Hnull (pool_graph pool D) (Some <$> pool) vo) as Hf. rewrite Hfs in Hf.
    destruct Hf as [Hf1 Hf2]; [|by apply Hok|].
    { intros q (q' & [= ->] & Hq)%list_elem_of_fmap. destruct (pool_elem _ _ _ _ _ Hd Hq) as (? & ? & _ & _ & HDq & _).
      eexists. apply pool_graph_lookup. eauto. }
    apply zget_Some in Hz. pose proof (od_size _ _ _ _ Hd). cbn [ov_id ov_field_values ov_klass set_visited].
    split; [unfold in_s, zlen in *; lia|]. split; [done|]. split; [|done].
    eexists. split; [done|]. apply Hvalid.
  - intros p q o o' [Hp (o1 & HDp & ->)]%pool_graph_lookup [Hq (o2 & HDq & ->)]%pool_graph_lookup. cbn [ov_id set_visited].
    destruct (pool_elem _ _ _ _ _ Hd Hp) as (vo1 & f1 & _ & Hz1 & H1 & _).
    destruct (pool_elem _ _ _ _ _ Hd Hq) as (vo2 & f2 & _ & Hz2 & H2 & _).
    rewrite HDp in H1. rewrite HDq in H2. injection H1 as ->. injection H2 as ->. cbn. congruence.
Qed.

(** *** Errors *)

Definition distinct_ids (vos : list VirtualObject) : Prop :=
  NoDup (vo_id <$> vos) ∧ Forall (λ vo, 0 ≤ vo_id vo < zlen vos) vos.

Lemma create_objects_accepts D0 done vos objects D e :
  created D0 done objects D → NoDup (vo_id <$> done ++ vos) → Forall (λ vo, 0 ≤ vo_id vo < zlen objects) vos →
  create_objects make_local new_object vos objects D ≠ Throw e.
Proof.
  revert done objects D. induction vos as [|vo vos IH]; intros done objects D Hc Hnd Hr; [intros [=]|].
  inversion Hr as [|? ? Hvo Hvos]; subst. cbn [create_objects].
  rewrite (proj2 (Z.ltb_ge _ _)), (proj2 (Z.leb_gt _ _)) by lia. cbn [orb].
  destruct (zget_is_Some objects (vo_id vo)) as [old Hold]; [lia|]. rewrite Hold. cbn [of_option mbind res_bind].
  destruct old as [p|].
  { apply (cr_slot _ _ _ _ Hc) in Hold. rewrite fmap_app in Hnd. apply NoDup_app in Hnd as (_ & Hnd & _).
    exfalso. apply (Hnd (vo_id vo)); [done|left]. }
  rewrite zset_eq by lia. cbn [of_option mbind res_bind]. apply (IH (done ++ [vo])).
  - by apply created_step.
  - by rewrite <- app_assoc.
  - eapply Forall_impl; [exact Hvos|]. intros v. unfold zlen. by rewrite length_insert.
Qed.

Lemma describe_objects_error D0 objects done todo D e :
  described D0 objects done todo D → Forall virtual_ok todo →
  describe_objects make_local total_frame_size todo objects D = Throw e →
  ∃ vo, vo ∈ todo ∧ fields_of objects vo = Throw e.
Proof.
  intros Hd Hok. revert done D Hd. induction Hok as [|vo todo Hvo _ IH]; intros done D Hd; cbn [describe_objects]; [intros [=]|].
  destruct (de_todo _ _ _ _ _ Hd vo ltac:(left)) as (p & Hp & Hp0 & HD). rewrite Hp. cbn [of_option mbind res_bind].
  rewrite (record_object_value_eq p vo objects D _ (proj1 Hvo) HD).
  destruct (fields_of objects vo) as [fs|e'|] eqn:Hfs; cbn [mbind res_bind]; [|intros [= ->]|done].
  - intros He. eapply IH in He; [|by eapply described_step]. destruct He as (vo' & ? & ?).
    exists vo'. split; [by right|done].
  - exists vo. split; [left|done].
Qed.
End objects.

(** ** Results *)

(** C18: The virtual objects of a site. With distinct ids from 0 to the number of
    objects the two loops make, for every id, one new ObjectValue with that id, the
    class of the virtual object with that id, and as fields the values described
    for it, also where the objects refer to one another; older ObjectValues are
    left alone. They never crash, and fail only on other ids or on a value that has
    no scope value. *)
Theorem virtual_objects_described make_local total_frame_size new_object vos D0 :
  (∀ D : gmap Z ObjectValue, D !! new_object D = None) → Forall virtual_ok vos →
  match make_objects make_local total_frame_size new_object vos D0 with
  | Ok (objects, D) => distinct_ids vos ∧
      ∃ pool, objects = Some <$> pool ∧ objects_described make_local total_frame_size D0 vos pool D
  | Throw e => ¬ distinct_ids vos ∨ ∃ objects vo, vo ∈ vos ∧ fields_of make_local total_frame_size objects vo = Throw e
  | Crash => False
  end.
Proof.
  intros Hnew Hok. pose proof (make_objects_spec make_local total_frame_size new_object Hnew vos D0 Hok) as Hs.
  destruct (make_objects _ _ _ _ _) as [[objects D]|e|] eqn:E; [| |done].
  - cbn [safe fst snd] in Hs. destruct Hs as (pool & -> & Hd). split; [|by exists pool]. split; [apply (od_ids _ _ _ _ _ _ Hd)|].
    apply Forall_forall. intros vo Hvo. destruct (od_object _ _ _ _ _ _ Hd vo Hvo) as (p & fs & Hp%zget_Some & _).
    pose proof (od_size _ _ _ _ _ _ Hd). unfold zlen in *. lia.
  - destruct (decide (distinct_ids vos)) as [[Hnd Hr]|]; [right|by left]. unfold make_objects in E.
    assert (created make_local D0 [] (replicate (length vos) None) D0) as Hc0.
    { split; [done|by intros ? ?%elem_of_nil| |constructor]. intros id p [Hin _]%zget_elem%elem_of_replicate. done. }
    pose proof (create_objects_spec make_local new_object Hnew D0 [] vos _ _ Hc0) as Hc.
    destruct (create_objects _ _ _ _ _) as [[objects D]|e'|] eqn:Ec; [| |done].
    2:{ apply (create_objects_accepts make_local new_object Hnew D0 [] vos _ _ e' Hc0 Hnd) in Ec; [done|].
        eapply Forall_impl; [exact Hr|]. intros vo. unfold zlen. by rewrite length_replicate. }
    destruct Hc as ([H1 H2 H3 H4] & _). cbn [mbind res_bind fst snd app] in *.
    destruct (describe_objects _ _ _ _ _) as [D'|e'|] eqn:Ed; [done| |done]. injection E as ->.
    destruct (describe_objects_error make_local total_frame_size D0 objects [] vos D e) as (vo & Hvo & Hf); [|done|done|by exists objects, vo].
    split; [done|by intros ? ?%elem_of_nil|done|done].
Qed.

Definition fresh_object (D : gmap Z ObjectValue) : Z := fresh (dom D : gset Z).

Lemma fresh_object_new D : D !! fresh_object D = None.
Proof. apply (not_elem_of_dom (D:=gset Z)). exact (is_fresh (dom D : gset Z)). Qed.

(** Two objects that refer to one another. *)
Definition example_virtual_objects : list VirtualObject :=
  [mkVirtual 1 500 false [Some (VirtualObjectRef 0); Some (PrimitiveConstant (Some 73) 7)] [Some 65; Some 73];
   mkVirtual 0 500 false [Some (VirtualObjectRef 1); Some (RegisterValue 2 true)] [Some 65; Some 74]].

Lemma virtual_objects_described_witness :
  ∃ p q D, make_objects (λ o, o + 1) 64 fresh_object example_virtual_objects ∅ = Ok ([Some p; Some q], D) ∧
    D !! q = Some (mkOV 1 (Some (ConstantOopWriteValue 501)) [ObjectPointer p; ConstantIntValue 7] 0 false).
Proof.
  pose proof (virtual_objects_described (λ o, o + 1) 64 fresh_object example_virtual_objects ∅ fresh_object_new) as H.
  assert (Forall virtual_ok example_virtual_objects) as Hok by (apply (bool_decide_unpack _); vm_compute; exact I).
  specialize (H Hok).
  destruct (make_objects (λ o, o + 1) 64 fresh_object example_virtual_objects ∅) as [[objects D]|e|] eqn:E; [|discriminate E|discriminate E].
  destruct H as [_ (pool & -> & Hd)].
  pose proof (od_size _ _ _ _ _ _ Hd) as Hl. destruct pool as [|p [|q [|r pool]]]; try discriminate Hl.
  destruct (od_object _ _ _ _ _ _ Hd (mkVirtual 1 500 false [Some (VirtualObjectRef 0); Some (PrimitiveConstant (Some 73) 7)] [Some 65; Some 73]))
    as (q' & fs & Hq & _ & HD & Hfs); [left|]. injection Hq as <-. cbn in Hfs. injection Hfs as <-.
  exists p, q, D. split; [reflexivity|exact HD].
Defined.
