(* ===== verification/InstallSites.v ===== *)
(** * Installing the safepoints of a compiled method

    [CodeInstaller::site_Safepoint]: what the debug information objects of the
    sites stand for is recorded, and read back from the nmethod. *)

From stdpp Require Import base numbers list gmap fin_sets.
From S2P Require Import Prelude GlobalDefinitions CompressedStream GrowableArray VMReg OopRecorder ObjectLookup DebugInfo RecorderIndex OopMap DebugInfoRec ScopeDesc Safepoints PcDescFinder NMethod CodeInstaller VirtualObjects.
Local Open Scope Z_scope.

(** ** Calls on the recorder *)

Section recorder.
Context {R : Type} `{!IndexRecorder R} `{!IndexRecorderLaws R}.
Context (ShareDebugInfo ShareDebugInfo_is_default : bool).
Local Abbreviation DIR := (DebugInformationRecorder R).

(** New ObjectValues do not matter to a safepoint that is being added. *)
Lemma add_safepoint_objects pc map D (d d' : DIR) :
  add_safepoint pc map d = Some (tt, d') → add_safepoint pc map (set_objects D d) = Some (tt, set_objects D d').
Proof.
  unfold add_safepoint, add_oopmap, add_new_pc_offset, mbind, M_bind, mget, option_bind, mlift.
  cbn [dir_oopmaps set_objects set_writer]. destruct (add_gc_map pc map (dir_oopmaps d)) as [[u oms]|]; [|done].
  cbn [dir_pcs_length dir_pcs_size dir_pcs set_oopmaps set_objects set_writer].
  destruct (dir_pcs_length d =? dir_pcs_size d); unfold mmodify, mret, M_ret;
    cbn [dir_pcs_length dir_pcs_size dir_pcs set_oopmaps set_objects set_writer set_pcs];
    (destruct (zset _ _ _); [|done]); intros [= <-]; reflexivity.
Qed.

(** Without a mapping there is nothing to dump. *)
Lemma dump_no_objects (d : DIR) l pd :
  pcs_ok d → copied_pcs d = l ++ [pd] → obj_decode_offset pd = serialized_null →
  dump_object_pool ShareDebugInfo ShareDebugInfo_is_default None d = Some (tt, d).
Proof.
  intros Hok Hl Hpd. destruct (copied_pcs_split d l pd Hok Hl) as [Hn [rest Hp]].
  unfold dump_object_pool. rewrite M_bind_get, (proj2 (Z.ltb_lt 0 _)) by (unfold zlen in Hn; lia). cbn [negb].
  rewrite M_bind_ret. unfold serialize_scope_values. rewrite M_bind_ret. unfold update_last_pc.
  rewrite (M_bind_Some _ _ _ _ _ (last_pc_spec d l pd Hok Hl)), M_bind_get.
  unfold update_pc. rewrite M_bind_get. replace (dir_pcs_length d - 1) with (zlen l) by lia.
  rewrite Hp, zget_middle, (M_bind_lift _ _ _ _ eq_refl), zset_app, (M_bind_lift _ _ _ _ eq_refl). unfold mmodify. do 2 f_equal.
  assert (set_obj_decode_offset serialized_null pd = pd) as -> by (rewrite <- Hpd; by destruct pd).
  rewrite <- Hp. by destruct d.
Qed.
End recorder.

(** ** What a site stands for *)

Section sites.
Context (make_local : Z → Z) (java_code_at : Z → Z → Z).
Context (new_object : gmap Z ObjectValue → Z) (Hnew : ∀ D, D !! new_object D = None).
Context {R : Type} `{!IndexRecorder R} `{!IndexRecorderLaws R}.
Context (ShareDebugInfo ShareDebugInfo_is_default : bool).
Context (Hvalid : ∀ o, valid_oop (make_local o)) (Hnull : valid_oop 0).
Local Abbreviation DIR := (DebugInformationRecorder R).

(** The scopes of the positions, the outermost one first. *)
Fixpoint scopes_of (total_frame_size : Z) (objects : option (list (option Z))) (positions : list BytecodePosition)
    : res (list ScopeInfo) :=
  match positions with
  | [] => Ok []
  | position :: callers =>
      frame ← frame_of FullFrame position;
      scopes ← scopes_of total_frame_size objects callers;
      si ← scope_of make_local total_frame_size java_code_at objects false position frame;
      Ok (scopes ++ [si])
  end.

Definition objects_at (total_frame_size : Z) (vos : option (list VirtualObject)) (D : gmap Z ObjectValue)
    : res (option (list (option Z)) * gmap Z ObjectValue) :=
  match vos with
  | None => Ok (None, D)
  | Some vos => r ← make_objects make_local total_frame_size new_object vos D; Ok (Some r.1, r.2)
  end.

Definition pool_of (objects : list (option Z)) : list Z := omap (λ x, x) objects.

(** The safepoint that is described, and the ObjectValues afterwards. *)
Definition safepoint_of (total_frame_size pc : Z) (map : OopMap) (di : DebugInfoFull) (D : gmap Z ObjectValue)
    : res (SafepointInfo * gmap Z ObjectValue) :=
  match df_bytecodePosition di with
  | [] => Ok (mkSafepoint pc map None [], D)
  | positions =>
      r ← objects_at total_frame_size (df_virtualObjectMapping di) D;
      scopes ← scopes_of total_frame_size r.1 positions;
      Ok (mkSafepoint pc map (option_map pool_of r.1) scopes, r.2)
  end.

(** Debug information as a compiler gives it. *)
Definition same_presence {A B} (x : option A) (y : option B) : Prop := is_Some x ↔ is_Some y.
Definition position_ok (objects : option (list (option Z))) (p : BytecodePosition) : Prop :=
  valid_metadata (bp_method p) ∧
  bci_ok (if bp_bci p =? BEFORE_BCI then SynchronizationEntryBCI else bp_bci p) ∧
  match bp_frame p with Some f => frame_ok objects f | None => True end.
Definition site_ok (di : DebugInfoFull) : Prop :=
  maps_ok (df_maps di) ∧
  match df_virtualObjectMapping di with Some vos => zlen vos < 2 ^ 31 ∧ Forall virtual_ok vos | None => True end ∧
  Forall (position_ok ((λ _, []) <$> df_virtualObjectMapping di)) (df_bytecodePosition di).

Lemma frame_ok_presence objects objects' f : same_presence objects objects' → frame_ok objects f → frame_ok objects' f.
Proof.
  intros Hp (H1 & H2 & H3 & H4 & H5 & H6 & Hv). do 6 (split; [done|]). eapply Forall_impl; [exact Hv|].
  assert (∀ v, java_value_ok objects v → java_value_ok objects' v) as Hj.
  { intros v. destruct v; cbn; try done. apply Hp. }
  intros [[v|ow sl el]|]; cbn; [apply Hj| |done].
  intros (Ho & Hs & Hl). split; [destruct ow; cbn in *; auto|]. split; [destruct sl; cbn in *; auto|done].
Qed.

(** ** Recording the scopes *)

Lemma scope_of_spec total_frame_size objects H p f :
  (∀ os q, objects = Some os → Some q ∈ os → is_Some (H !! q)) → position_ok objects p → f = bp_frame p →
  safe (scope_of make_local total_frame_size java_code_at objects false p f) (λ si, scope_ok H si ∧ bci_ok (si_bci si)).
Proof.
  intros Hobj (Hm & Hb & Hf) ->. unfold scope_of. destruct (bp_frame p) as [f|].
  - eapply safe_bind; [by apply (read_frame_spec make_local total_frame_size objects valid_oop Hvalid Hnull H)|].
    intros fv [[K1 K2 K3] _]. by split.
  - split; [|done]. split_and!; [done|constructor..].
Qed.

Local Abbreviation record_scopes := (mforeach (record_scope ShareDebugInfo ShareDebugInfo_is_default)).
Local Abbreviation record_positions tfs :=
  (record_positions make_local tfs java_code_at ShareDebugInfo ShareDebugInfo_is_default FullFrame).

Lemma record_positions_spec total_frame_size objects H positions (d : DIR) l pd :
  graph_ok valid_oop H → (∀ os q, objects = Some os → Some q ∈ os → is_Some (H !! q)) →
  Forall (position_ok objects) positions → dir_ok H (dom H) d → pcs_ok d → copied_pcs d = l ++ [pd] →
  0 ≤ pc_flags pd < 16 →
  match scopes_of total_frame_size objects positions with
  | Ok scopes => Forall (λ si, scope_ok H si ∧ bci_ok (si_bci si)) scopes ∧
      ∃ d', record_scopes scopes d = Some (tt, d') ∧ record_positions total_frame_size objects false positions d = Ok d'
  | Throw e => record_positions total_frame_size objects false positions d = Throw e
  | Crash => False
  end.
Proof.
  intros HG Hobj Hpos Hd Hok Hl Hfl. induction Hpos as [|p positions Hp _ IH]; [split; [constructor|by exists d]|].
  cbn [scopes_of CodeInstaller.record_positions].
  pose proof (scope_of_spec total_frame_size objects H p (bp_frame p) Hobj Hp eq_refl) as Hs.
  unfold frame_of. destruct (bp_frame p) as [f|]; [|done]. cbn [mbind res_bind].
  destruct (scopes_of total_frame_size objects positions) as [scopes|e|]; cbn [mbind res_bind]; [|by rewrite IH|done].
  destruct IH as (Hsc & d1 & E1 & ->). cbn [mbind res_bind].
  destruct (scope_of make_local total_frame_size java_code_at objects false p (Some f)) as [si|e|]; cbn [mbind res_bind];
    [|done|done]. destruct Hs as [Hsi Hbci].
  destruct (record_scopes_spec ShareDebugInfo ShareDebugInfo_is_default H d l pd scopes) as (d1' & r & E1' & Hd1 & _ & Hok1 & _ & Hl1 & _);
    [done|eapply Forall_impl; [exact Hsc|by intros ? []]|done..|].
  assert (d1' = d1) as -> by congruence.
  destruct (record_scope_spec ShareDebugInfo ShareDebugInfo_is_default H d1 l _ si HG Hsi Hd1 Hok1 Hl1) as (d2 & r2 & E2 & _).
  split; [apply Forall_app; split; [done|by apply Forall_singleton]|].
  exists d2. unfold on_recorder. rewrite E2. split; [|done]. rewrite mforeach_app. rewrite (M_bind_Some _ _ _ _ _ E1).
  cbn [mforeach]. by rewrite (M_bind_Some _ _ _ _ _ E2).
Qed.

(** The objects of a site, before its scopes are recorded. *)
Lemma objects_at_spec total_frame_size vos D0 :
  match vos with Some vos => zlen vos < 2 ^ 31 ∧ Forall virtual_ok vos | None => True end →
  safe (objects_at total_frame_size vos D0) (λ r,
    same_presence vos r.1 ∧ D0 ⊆ r.2 ∧ (∀ os, r.1 = Some os → os = Some <$> pool_of os) ∧
    let pool := default [] (option_map pool_of r.1) in
    (∀ p, p ∈ pool → is_Some (r.2 !! p)) ∧ graph_ok valid_oop (pool_graph pool r.2)).
Proof.
  unfold objects_at. destruct vos as [vos|].
  - intros [Hn Hok]. eapply safe_bind; [by apply make_objects_spec|]. intros [os D] (pool & -> & Hd). cbn [fst snd] in *.
    assert (pool_of (Some <$> pool) = pool) as Hpool.
    { unfold pool_of. clear. induction pool as [|p pool IH]; [done|]. cbn. by rewrite IH. }
    cbn [safe mret res_ret fst snd option_map default from_option id]. rewrite Hpool.
    split; [by split; intros; eauto|]. split; [apply (od_old _ _ _ _ _ _ Hd)|]. split; [intros os' [= <-]; by rewrite Hpool|].
    split; [|by eapply pool_graph_ok].
    intros p Hp. destruct (pool_elem _ _ _ _ _ _ _ Hd Hp) as (? & ? & _ & _ & HD & _). eauto.
  - intros _. cbn. split; [by split; intros []|]. split; [done|]. split; [done|]. split; [by intros p ?%elem_of_nil|].
    split; [intros p o|intros p q o o']; by intros [?%elem_of_nil _]%pool_graph_lookup.
Qed.

(** ** One safepoint *)

Lemma dir_ok_objects D (d : DIR) : dir_ok ∅ ∅ d → dir_ok ∅ ∅ (set_objects D d).
Proof.
  intros ((K1 & K2 & K3 & K4) & [A B C E] & Hp).
  split; [split_and!; try done; intros p o Hp'; by rewrite lookup_empty in Hp'|]. split; [by split|done].
Qed.
Lemma recording_objects D (d : DIR) maps pcs : recording d maps pcs → recording (set_objects D d) maps pcs.
Proof. intros []. split; [by apply dir_ok_objects|done..]. Qed.
Lemma set_objects_same (d : DIR) : set_objects (dw_objects (dir_writer d)) d = d.
Proof. by destruct d as [[] ? ? ? ? ? ? ? ? ? ?]. Qed.

Definition site_of (ci : Installer) (pc : Z) (di : DebugInfoFull) (D : gmap Z ObjectValue)
    : res (SafepointInfo * gmap Z ObjectValue * Installer) :=
  m ← create_oop_map (df_maps di) ci;
  r ← safepoint_of (ci_total_frame_size ci) pc m.1 di D;
  Ok (r, m.2).

Local Abbreviation dump objects :=
  (dump_object_pool ShareDebugInfo ShareDebugInfo_is_default (option_map (map ObjectPointer) (option_map pool_of objects))).

(** [record_virtual_objects] dumps the objects that are made. *)
Lemma record_virtual_objects_eq total_frame_size vos (d : DIR) l pd :
  match vos with Some vos => zlen vos < 2 ^ 31 ∧ Forall virtual_ok vos | None => True end →
  pcs_ok d → copied_pcs d = l ++ [pd] → obj_decode_offset pd = serialized_null →
  record_virtual_objects make_local total_frame_size ShareDebugInfo ShareDebugInfo_is_default new_object vos d
    = (r ← objects_at total_frame_size vos (dw_objects (dir_writer d));
       d' ← on_recorder (dump r.1) (set_objects r.2 d);
       Ok (r.1, d')).
Proof.
  intros Hvos Hok Hl Hpd. pose proof (objects_at_spec total_frame_size vos (dw_objects (dir_writer d)) Hvos) as Hs.
  unfold record_virtual_objects. destruct vos as [vos|].
  - unfold objects_at in *. destruct (make_objects _ _ _ _ _) as [[os D]|e|]; [|done..]. cbn [mbind res_bind fst snd safe] in *.
    destruct Hs as (_ & _ & Hos & _). specialize (Hos os eq_refl).
    assert (mapM id os = Some (pool_of os)) as ->; [|done].
    rewrite Hos at 1. clear. induction (pool_of os) as [|p pool IH]; [done|]. cbn. by rewrite IH.
  - cbn. unfold on_recorder. rewrite set_objects_same, (dump_no_objects _ _ d l pd) by done. done.
Qed.

Local Abbreviation site_Safepoint := (site_Safepoint make_local java_code_at ShareDebugInfo ShareDebugInfo_is_default new_object).
Local Abbreviation record_safepoint := (record_safepoint ShareDebugInfo ShareDebugInfo_is_default).
Local Abbreviation record_scope_at tfs :=
  (record_scope_at make_local tfs java_code_at ShareDebugInfo ShareDebugInfo_is_default new_object).
Local Abbreviation objects_in d := (dw_objects (dir_writer d)).

(** The scopes of a site, from the objects to the innermost scope, once its
    descriptor is there. *)
Lemma record_scope_at_spec total_frame_size pc map di (d : DIR) maps pcs d1 :
  site_ok di → recording d maps pcs → add_safepoint pc map d = Some (tt, d1) →
  match safepoint_of total_frame_size pc map di (objects_in d) with
  | Ok (sp, D) => safepoint_ok D sp ∧ Forall (λ si, bci_ok (si_bci si)) (sp_scopes sp) ∧ sp_pc_offset sp = pc ∧
      ∃ d2, record_scope_at total_frame_size di FullFrame false d1 = Ok d2 ∧
        record_safepoint sp (set_objects D d) = end_safepoint pc d2
  | Throw e => record_scope_at total_frame_size di FullFrame false d1 = Throw e
  | Crash => False
  end.
Proof.
  intros (_ & Hvos & Hpos) Hrec E1. destruct (add_safepoint_spec d maps pcs pc map Hrec)
    as (d1' & E1' & Hd1 & _ & Hok1 & _ & Hobj1 & _ & Hcp1). assert (d1' = d1) as -> by congruence. clear E1'.
  unfold CodeInstaller.record_scope_at, safepoint_of.
  destruct (df_bytecodePosition di) as [|p0 ps] eqn:Hps.
  { split; [split_and!; [by intros p ?%elem_of_nil| |constructor]|split; [constructor|split; [done|]]].
    { split; [intros p o|intros p q o o']; by intros [?%elem_of_nil _]%pool_graph_lookup. }
    exists d1. split; [done|]. rewrite set_objects_same. unfold Safepoints.record_safepoint. cbn [sp_pc_offset sp_map sp_objects sp_scopes option_map].
    rewrite (M_bind_Some _ _ _ _ _ E1), (M_bind_Some _ _ _ _ _ (dump_no_objects _ _ d1 _ _ Hok1 Hcp1 eq_refl)). done. }
  rewrite (record_virtual_objects_eq total_frame_size _ d1 _ _ Hvos Hok1 Hcp1 eq_refl), Hobj1.
  pose proof (objects_at_spec total_frame_size (df_virtualObjectMapping di) (objects_in d) Hvos) as Hs.
  destruct (objects_at _ _ _) as [[os D]|e|]; cbn [mbind res_bind]; [|done..].
  destruct Hs as (Hpres & _ & Hos & Hin & HG). cbn [fst snd] in *.
  set (H := pool_graph (default [] (option_map pool_of os)) D) in *.
  destruct (dump_object_pool_spec ShareDebugInfo ShareDebugInfo_is_default (set_objects D d1) pcs
    (new_PcDesc pc serialized_null serialized_null) (option_map pool_of os)) as (d2 & ro & E2 & Hd2 & _ & Hok2 & _ & Hcp2 & _);
    [by apply dir_ok_objects|done..|].
  assert (on_recorder (dump os) (set_objects D d1) = Ok d2) as -> by (unfold on_recorder; by rewrite E2). cbn [mbind res_bind].
  assert (∀ os' q, os = Some os' → Some q ∈ os' → is_Some (H !! q)) as Hobj.
  { intros os' q -> Hq. cbn [option_map default from_option] in *. unfold id in *.
    assert (q ∈ pool_of os') as Hq' by (apply list_elem_of_omap; by exists (Some q)).
    destruct (Hin q Hq') as [o Ho]. exists (set_visited false o). apply pool_graph_lookup. eauto. }
  assert (Forall (position_ok os) (p0 :: ps)) as Hpos'.
  { eapply Forall_impl; [exact Hpos|]. intros p (P1 & P2 & P3). split_and!; [done..|]. destruct (bp_frame p); [|done].
    eapply frame_ok_presence; [|exact P3]. unfold same_presence in *. by rewrite fmap_is_Some. }
  pose proof (record_positions_spec total_frame_size os H (p0 :: ps) d2 pcs _ HG Hobj Hpos' Hd2 Hok2 Hcp2 ltac:(done)) as Hr.
  destruct (scopes_of total_frame_size os (p0 :: ps)) as [scopes|e|]; [|done..]. cbn [mbind res_bind fst snd].
  destruct Hr as (Hsc & d3 & E3 & ->).
  split; [split_and!; [done|done|eapply Forall_impl; [exact Hsc|by intros ? []]]|].
  split; [eapply Forall_impl; [exact Hsc|by intros ? []]|]. split; [done|]. exists d3. split; [done|].
  unfold Safepoints.record_safepoint. cbn [sp_pc_offset sp_map sp_objects sp_scopes].
  rewrite (M_bind_Some _ _ _ _ _ (add_safepoint_objects pc map D d d1 E1)), (M_bind_Some _ _ _ _ _ E2).
  by rewrite (M_bind_Some _ _ _ _ _ E3).
Qed.

(** What is recorded stays, also when there are new ObjectValues. *)
Definition data_grows (d d' : DIR) : Prop :=
  dir_data d `prefix_of` dir_data d' ∧ recorder_extends (dw_recorder (dir_writer d)) (dw_recorder (dir_writer d')).
Lemma data_grows_trans d1 d2 d3 : data_grows d1 d2 → data_grows d2 d3 → data_grows d1 d3.
Proof. intros [H1 H2] [H3 H4]. split; [by etrans|by eapply recorder_extends_trans]. Qed.

(** The safepoint [s.1] is stored for [pd], with the ObjectValues [s.2]. *)
Definition recorded_as (d : DIR) (s : SafepointInfo * gmap Z ObjectValue) (pd : PcDesc) : Prop :=
  pc_offset pd = sp_pc_offset s.1 ∧ safepoint_ok s.2 s.1 ∧ Forall (λ si, bci_ok (si_bci si)) (sp_scopes s.1) ∧
  ∀ T, dir_tables d T → stored_safepoint T s.2 (dir_data d) s.1 pd.
Lemma recorded_as_grows d d' s pd : data_grows d d' → recorded_as d s pd → recorded_as d' s pd.
Proof.
  intros [Hg Hr] (H1 & H2 & H3 & H4). split_and!; [done..|]. intros T HT.
  eapply stored_safepoint_mono; [exact Hg|]. apply H4. by eapply agrees_extends.
Qed.

Local Abbreviation map_of sp := (set_offset (sp_pc_offset sp) (sp_map sp)).

Lemma site_Safepoint_spec pc di ci (d : DIR) maps pcs :
  site_ok di → recording d maps pcs →
  match site_of ci pc di (objects_in d) with
  | Ok (s, ci') => ci' = note_wide_vectors (df_maps di) ci ∧
      ∃ d' pd, site_Safepoint pc (Some di) (ci, d) = Ok (ci', d') ∧ data_grows d d' ∧
        recording d' (maps ++ [map_of s.1]) (pcs ++ [pd]) ∧ recorded_as d' s pd
  | Throw e => site_Safepoint pc (Some di) (ci, d) = Throw e
  | Crash => False
  end.
Proof.
  intros Hok Hrec. unfold site_of, CodeInstaller.site_Safepoint.
  pose proof (create_oop_map_spec (df_maps di) ci (proj1 Hok)) as Hm.
  destruct (specified_ops (df_maps di)) as [ops|e|]; [|by rewrite Hm|done].
  destruct Hm as (map & es & -> & _). cbn [mbind res_bind fst snd].
  destruct (add_safepoint_spec d maps pcs pc map Hrec) as (d1 & E1 & _).
  assert (on_recorder (add_safepoint pc map) d = Ok d1) as -> by (unfold on_recorder; by rewrite E1). cbn [mbind res_bind].
  pose proof (record_scope_at_spec (ci_total_frame_size ci) pc map di d maps pcs d1 Hok Hrec E1) as Hs.
  change (ci_total_frame_size (note_wide_vectors (df_maps di) ci)) with (ci_total_frame_size ci).
  destruct (safepoint_of _ _ _ _ _) as [[sp D]|e|]; cbn [mbind res_bind]; [|by rewrite Hs|done].
  destruct Hs as (Hsp & Hbci & Hpc & d2 & -> & Er). split; [done|]. cbn [mbind res_bind].
  destruct (record_safepoint_spec ShareDebugInfo ShareDebugInfo_is_default (set_objects D d) maps pcs sp
    (recording_objects D d maps pcs Hrec) Hsp) as (d' & pd & E' & (Hg1 & Hg2 & _) & Hrec' & Hpd & HT).
  exists d', pd.
  assert (on_recorder (end_safepoint pc) d2 = Ok d') as -> by (unfold on_recorder; by rewrite <- Er, E').
  cbn [mbind res_bind]. by split_and!.
Qed.

(** ** All safepoints *)

Fixpoint install_safepoints (sites : list (Z * DebugInfoFull)) (s : Installer * DIR) : res (Installer * DIR) :=
  match sites with
  | [] => Ok s
  | (pc, di) :: sites' => s ← site_Safepoint pc (Some di) s; install_safepoints sites' s
  end.

(** A site and the safepoint it stands for; the objects are added to some heap. *)
Definition translated (total_frame_size parameter_count : Z) (x : Z * DebugInfoFull) (r : res (SafepointInfo * gmap Z ObjectValue)) : Prop :=
  ∃ wide D, (s ← site_of (mkInstaller total_frame_size parameter_count wide) x.1 x.2 D; Ok s.1) = r.

(** There is a scope for every position. *)
Lemma scopes_of_length total_frame_size objects positions scopes :
  scopes_of total_frame_size objects positions = Ok scopes → length scopes = length positions.
Proof.
  revert scopes. induction positions as [|p positions IH]; intros scopes; cbn [scopes_of]; [by intros [= <-]|].
  intros (f & _ & (scs & Hs & (si & _ & [= <-])%res_bind_Ok)%res_bind_Ok)%res_bind_Ok.
  rewrite length_app, (IH scs Hs). simpl. lia.
Qed.
Lemma translated_scopes total_frame_size parameter_count x s :
  translated total_frame_size parameter_count x (Ok s) → length (sp_scopes s.1) = length (df_bytecodePosition x.2).
Proof.
  intros (wide & D & ([s' ci] & (m & _ & (r & Hr & [= <- <-])%res_bind_Ok)%res_bind_Ok & [= <-])%res_bind_Ok).
  unfold safepoint_of in Hr. cbn [fst snd] in *. destruct (df_bytecodePosition x.2) as [|p ps]; [by injection Hr as <-|].
  apply res_bind_Ok in Hr as (o & _ & (scs & Hs & [= <-])%res_bind_Ok). by eapply scopes_of_length.
Qed.

Lemma install_safepoints_spec sites ci (d : DIR) maps pcs :
  Forall (λ x, site_ok x.2) sites → recording d maps pcs →
  match install_safepoints sites (ci, d) with
  | Ok (ci', d') => ∃ ss pds,
      Forall2 (λ x s, translated (ci_total_frame_size ci) (ci_parameter_count ci) x (Ok s)) sites ss ∧ data_grows d d' ∧
      recording d' (maps ++ ((λ s, map_of s.1) <$> ss)) (pcs ++ pds) ∧ Forall2 (recorded_as d') ss pds
  | Throw e => ∃ x, x ∈ sites ∧ translated (ci_total_frame_size ci) (ci_parameter_count ci) x (Throw e)
  | Crash => False
  end.
Proof.
  intros Hsites. revert ci d maps pcs. induction Hsites as [|[pc di] sites Hx _ IH]; intros ci d maps pcs Hrec.
  { exists [], []. cbn [fmap list_fmap]. rewrite !app_nil_r. split; [by constructor|].
    split; [split; [done|apply recorder_extends_refl]|]. split; [done|by constructor]. }
  cbn [install_safepoints]. pose proof (site_Safepoint_spec pc di ci d maps pcs Hx Hrec) as Hs.
  destruct (site_of ci pc di (objects_in d)) as [[s ci']|e|] eqn:Es; [| |done].
  2:{ rewrite Hs. cbn. exists (pc, di). split; [left|]. exists (ci_has_wide_vector ci), (objects_in d). cbn [fst snd].
      destruct ci. cbn in *. by rewrite Es. }
  destruct Hs as (-> & d1 & pd & -> & Hg1 & Hrec1 & Hr1). cbn [mbind res_bind].
  specialize (IH (note_wide_vectors (df_maps di) ci) d1 _ _ Hrec1). cbn [note_wide_vectors ci_total_frame_size ci_parameter_count] in IH.
  destruct (install_safepoints sites _) as [[ci2 d2]|e|]; [| |done].
  - destruct IH as (ss & pds & Ht & Hg2 & Hrec2 & Hr2). exists (s :: ss), (pd :: pds).
    rewrite <- !app_assoc in Hrec2. split_and!; [|by eapply data_grows_trans|done|].
    + constructor; [|done]. exists (ci_has_wide_vector ci), (objects_in d). cbn [fst snd]. destruct ci. cbn in *. by rewrite Es.
    + constructor; [by eapply recorded_as_grows|done].
  - destruct IH as (x & Hin & Ht). exists x. split; [by right|done].
Qed.
End sites.

(** ** Results *)

(** C2: From a JVMCI compiler's debug information to the scopes that are read.
    For sites with well-formed debug information ([site_ok]: locations and slots an
    entry can hold, metadata and bcis the recorder can code, frame counts that are
    not negative, locks in stack slots, and virtual objects used only where there is
    a virtual object mapping) installing the safepoint sites of a method does not
    crash. It stops with an error only where a site stands for nothing, and otherwise
    the recorder has one descriptor and one oop map per site, in order: in an nmethod
    with the recorded data, from the descriptor of a site with a position exactly the
    scopes of its frames, with their values, locks and virtual objects, are read. The
    handles that are made are ones the oop recorder accepts, new ObjectValues are
    new. *)
Theorem installed_safepoints {R : Type} `{!IndexRecorder R} `{!IndexRecorderLaws R} make_local java_code_at new_object
    (share share_default : bool) rec rns ci sites :
  (∀ D : gmap Z ObjectValue, D !! new_object D = None) → (∀ o, valid_oop (make_local o)) → valid_oop 0 →
  rec_ok rec → Forall (λ x, site_ok x.2) sites →
  ∃ d0, new_recorder ∅ rec new_oop_map_set rns = Some d0 ∧
  match install_safepoints make_local java_code_at new_object share share_default sites (ci, d0) with
  | Ok (_, d) => ∃ ss pds,
      Forall2 (λ x s, translated make_local java_code_at new_object (ci_total_frame_size ci) (ci_parameter_count ci) x (Ok s))
        sites ss ∧
      copied_pcs d = new_PcDesc lower_offset_limit serialized_null serialized_null :: pds ∧
      oset_ok (dir_oopmaps d) ((λ s, set_offset (sp_pc_offset s.1) (sp_map s.1)) <$> ss) ∧
      ∀ code, nm_scopes_data code = copied_data d → zlen (copied_data d) < 2 ^ 31 →
        agrees (dw_recorder (dir_writer d)) (nm_tables code) →
        Forall2 (λ s pd, pc_offset pd = sp_pc_offset s.1 ∧
          (sp_scopes s.1 ≠ [] → describes object_of s.2 code pd s.1)) ss pds
  | Throw e => ∃ x, x ∈ sites ∧
      translated make_local java_code_at new_object (ci_total_frame_size ci) (ci_parameter_count ci) x (Throw e)
  | Crash => False
  end.
Proof.
  intros Hnew Hvalid Hnull Hrec Hsites.
  destruct (new_recorder_spec ∅ rec _ _ rns Hrec new_oset_ok) as (d0 & E0 & Hd0 & _). exists d0. split; [done|].
  pose proof (install_safepoints_spec make_local java_code_at new_object Hnew share share_default Hvalid Hnull sites ci d0 _ _ Hsites Hd0) as H.
  destruct (install_safepoints _ _ _ _ _ _ _) as [[ci' d]|e|]; [|done..].
  destruct H as (ss & pds & Ht & _ & Hd & Hr). exists ss, pds. split; [done|]. split; [apply (rec_copied _ _ _ Hd)|].
  split; [apply (rec_maps _ _ _ Hd)|]. intros code Hdata Hsize Htab. eapply Forall2_impl; [exact Hr|].
  intros [sp D] pd (Hpc & (Hos & HG & _) & Hb & HT). split; [done|]. intros Hne h. cbn [fst snd] in *.
  destruct (stored_safepoint_read (nm_tables code) D code sp pd h eq_refl ltac:(by rewrite Hdata) HG)
    as (ds & O & P & Er & Hsame & Hobjs); [rewrite Hdata; by apply HT|done|done|].
  exists ds, O, P. split_and!; [done|done|]. intros p Hp. apply Hobjs; [done|by apply Hos].
Qed.

(** Two sites, the second one with two virtual objects that refer to one another. *)
Definition example_sites : list (Z * DebugInfoFull) :=
  [(8, mkDebugInfoFull example_maps [mkPosition 96 0 (Some straddling_frame)] None);
   (20, mkDebugInfoFull example_maps [mkPosition 96 5 (Some example_frame); mkPosition 96 (-2) (Some straddling_frame)]
          (Some example_virtual_objects))].
Lemma example_sites_ok : Forall (λ x, site_ok (IndexRecorderLaws0 := example_laws) x.2) example_sites.
Proof.
  assert (∀ objects bci f, bool_decide (frame_ok objects f) = true → bci = 0 ∨ bci = 5 ∨ bci = -2 →
    position_ok (IndexRecorderLaws0 := example_laws) objects (mkPosition 96 bci (Some f))) as Hpos.
  { intros objects bci f Hf%bool_decide_eq_true Hb. split; [right; split; [set_solver|done]|].
    split; [|exact Hf]. destruct Hb as [->|[-> | ->]]; done. }
  assert (maps_ok example_maps) as Hm by (apply (bool_decide_unpack _); vm_compute; exact I).
  apply Forall_cons; split; [|apply Forall_singleton].
  - split; [exact Hm|]. split; [exact I|]. apply Forall_singleton. apply Hpos; [vm_compute; reflexivity|tauto].
  - split; [exact Hm|]. split; [split; [done|apply (bool_decide_unpack _); vm_compute; exact I]|].
    apply Forall_cons; split; [|apply Forall_singleton]; (apply Hpos; [vm_compute; reflexivity|tauto]).
Qed.

Lemma installed_safepoints_witness :
  ∃ d0 ci d T s pd,
    new_recorder ∅ example_recorder new_oop_map_set false = Some d0 ∧
    install_safepoints (λ _, 1) (λ _ _, 0) fresh_object true true example_sites (mkInstaller 64 0 false, d0) = Ok (ci, d) ∧
    translated (λ _, 1) (λ _ _, 0) fresh_object 64 0 (nth 1 example_sites (0, mkDebugInfoFull example_maps [] None)) (Ok s) ∧
    describes example_object s.2 (mkNM (copied_data d) T 96) pd s.1.
Proof.
  destruct (installed_safepoints (IndexRecorderLaws0 := example_laws) (λ _, 1) (λ _ _, 0) fresh_object true true
    example_recorder false (mkInstaller 64 0 false) example_sites fresh_object_new) as (d0 & E0 & H);
    [intros _; right; set_solver|by left|exact example_recorder_ok|exact example_sites_ok|].
  assert (match new_recorder ∅ example_recorder new_oop_map_set false with
          | Some d0 => match install_safepoints (λ _, 1) (λ _ _, 0) fresh_object true true example_sites (mkInstaller 64 0 false, d0) with
                       | Ok (_, d) => zlen (copied_data d) <? 2 ^ 31 | _ => false end
          | None => false end = true) as Hsize by (vm_compute; reflexivity).
  rewrite E0 in Hsize.
  destruct (install_safepoints _ _ _ _ _ _ _) as [[ci d]|e|] eqn:Ei in H, Hsize; [|discriminate Hsize|discriminate Hsize].
  apply Z.ltb_lt in Hsize. destruct H as (ss & pds & Ht & _ & _ & Hread).
  destruct (tables_exist (IndexRecorderLaws0 := example_laws) (dw_recorder (dir_writer d))) as [T HT].
  specialize (Hread (mkNM (copied_data d) T 96) eq_refl Hsize HT).
  destruct (Forall2_lookup_l _ _ _ 1%nat _ Ht eq_refl) as (s & Hs & Hts).
  destruct (Forall2_lookup_l _ _ _ 1%nat _ Hread Hs) as (pd & _ & _ & Hd).
  exists d0, ci, d, T, s, pd. split; [exact E0|]. split; [exact Ei|]. split; [exact Hts|].
  apply Hd. apply translated_scopes in Hts. intros Hnil. rewrite Hnil in Hts. discriminate Hts.
Defined.
