(* ===== verification/CodeHeap.v ===== *)
(** * The code heap

    memory/heap.hpp and memory/heap.cpp: the allocator of the code cache. Blocks
    of whole segments, a list of the free ones sorted by address that are merged
    with their neighbours, and a byte per segment that leads back to the start of its
    block. *)

From stdpp Require Import base numbers list gmap.
From S2P Require Import Prelude GlobalDefinitions.
Local Open Scope Z_scope.

(** ** State *)

(** A block header; [_link] is there in free blocks and belongs to the user in
    used ones. *)
Record FreeBlock := mkBlock { fb_length : Z; fb_used : bool; fb_link : Z }.

Definition sizeof_HeapBlock : Z := 16.
Definition sizeof_FreeBlock : Z := 24.

(** [_memory] is the committed and the reserved size from [low] on; the contents
    of the segment map are its committed bytes. *)
Record CodeHeap := mkHeap {
  ch_low : Z;
  ch_committed_size : Z;
  ch_reserved_size : Z;
  ch_blocks : gmap Z FreeBlock;
  ch_segmap : list Z;
  ch_number_of_committed_segments : Z;
  ch_number_of_reserved_segments : Z;
  ch_segment_size : Z;
  ch_log2_segment_size : Z;
  ch_next_segment : Z;
  ch_freelist : Z;
  ch_freelist_segments : Z
}.

Definition set_blocks bs h := mkHeap (ch_low h) (ch_committed_size h) (ch_reserved_size h) bs (ch_segmap h)
  (ch_number_of_committed_segments h) (ch_number_of_reserved_segments h) (ch_segment_size h) (ch_log2_segment_size h)
  (ch_next_segment h) (ch_freelist h) (ch_freelist_segments h).
Definition set_segmap m h := mkHeap (ch_low h) (ch_committed_size h) (ch_reserved_size h) (ch_blocks h) m
  (ch_number_of_committed_segments h) (ch_number_of_reserved_segments h) (ch_segment_size h) (ch_log2_segment_size h)
  (ch_next_segment h) (ch_freelist h) (ch_freelist_segments h).
Definition set_committed size segments h := mkHeap (ch_low h) size (ch_reserved_size h) (ch_blocks h) (ch_segmap h)
  segments (ch_number_of_reserved_segments h) (ch_segment_size h) (ch_log2_segment_size h)
  (ch_next_segment h) (ch_freelist h) (ch_freelist_segments h).
Definition set_next_segment n h := mkHeap (ch_low h) (ch_committed_size h) (ch_reserved_size h) (ch_blocks h) (ch_segmap h)
  (ch_number_of_committed_segments h) (ch_number_of_reserved_segments h) (ch_segment_size h) (ch_log2_segment_size h)
  n (ch_freelist h) (ch_freelist_segments h).
Definition set_freelist p n h := mkHeap (ch_low h) (ch_committed_size h) (ch_reserved_size h) (ch_blocks h) (ch_segmap h)
  (ch_number_of_committed_segments h) (ch_number_of_reserved_segments h) (ch_segment_size h) (ch_log2_segment_size h)
  (ch_next_segment h) p n.

Definition hmodify (f : CodeHeap → CodeHeap) : M CodeHeap unit := λ h, Some (tt, f h).

(** ** Sizes and addresses *)

Definition size_to_segments (h : CodeHeap) (size : Z) : Z :=
  Z.shiftr (u64 (size + ch_segment_size h - 1)) (ch_log2_segment_size h).
Definition segments_to_size (h : CodeHeap) (number_of_segments : Z) : Z :=
  u64 (Z.shiftl number_of_segments (ch_log2_segment_size h)).
Definition segment_for (h : CodeHeap) (p : Z) : Z := Z.shiftr (u64 (p - ch_low h)) (ch_log2_segment_size h).
Definition block_at (h : CodeHeap) (i : Z) : Z := u64 (ch_low h + u64 (Z.shiftl i (ch_log2_segment_size h))).
Definition high (h : CodeHeap) : Z := ch_low h + ch_committed_size h.
Definition high_boundary (h : CodeHeap) : Z := ch_low h + ch_reserved_size h.
Definition contains (h : CodeHeap) (p : Z) : bool := (ch_low h <=? p) && (p <? high h).
Definition allocated_space (b : Z) : Z := b + sizeof_HeapBlock.

(** ** Blocks

    An access outside the committed memory fails. *)

Definition in_memory (h : CodeHeap) (a size : Z) : bool := (ch_low h <=? a) && (a + size <=? high h).
Definition raw_block : FreeBlock := mkBlock 0 false 0.
Definition load_block (a size : Z) : M CodeHeap FreeBlock := λ h,
  if in_memory h a size then Some (default raw_block (ch_blocks h !! a), h) else None.
Definition store_block (a size : Z) (f : FreeBlock → FreeBlock) : M CodeHeap unit :=
  b ← load_block a size; hmodify (λ h, set_blocks (<[a := f b]> (ch_blocks h)) h).

Definition length_ (a : Z) : M CodeHeap Z := b ← load_block a sizeof_HeapBlock; mret (fb_length b).
Definition free_ (a : Z) : M CodeHeap bool := b ← load_block a sizeof_HeapBlock; mret (negb (fb_used b)).
Definition link_ (a : Z) : M CodeHeap Z := b ← load_block a sizeof_FreeBlock; mret (fb_link b).
Definition set_length (a l : Z) : M CodeHeap unit := store_block a sizeof_HeapBlock (λ b, mkBlock l (fb_used b) (fb_link b)).
Definition set_used (a : Z) : M CodeHeap unit := store_block a sizeof_HeapBlock (λ b, mkBlock (fb_length b) true (fb_link b)).
Definition set_free (a : Z) : M CodeHeap unit := store_block a sizeof_HeapBlock (λ b, mkBlock (fb_length b) false (fb_link b)).
Definition set_link (a link : Z) : M CodeHeap unit := store_block a sizeof_FreeBlock (λ b, mkBlock (fb_length b) (fb_used b) link).
Definition initialize (a l : Z) : M CodeHeap unit := set_length a l ;; set_used a.

(** ** The segment map *)

Definition put_segmap (i v : Z) : M CodeHeap unit :=
  h ← mget; m ← mlift (zset (ch_segmap h) i v); hmodify (set_segmap m).
Fixpoint mark_free_loop (n : nat) (p : Z) : M CodeHeap unit :=
  match n with O => mret tt | S n' => put_segmap p 255 ;; mark_free_loop n' (p + 1) end.
Definition mark_segmap_as_free (beg end_ : Z) : M CodeHeap unit := mark_free_loop (Z.to_nat (end_ - beg)) beg.
Fixpoint mark_used_loop (n : nat) (p i : Z) : M CodeHeap unit :=
  match n with
  | O => mret tt
  | S n' => put_segmap p (u8 i) ;; let i := i + 1 in mark_used_loop n' (p + 1) (if i =? 255 then 1 else i)
  end.
Definition mark_segmap_as_used (beg end_ : Z) : M CodeHeap unit := mark_used_loop (Z.to_nat (end_ - beg)) beg 0.

(** ** Extents *)

Definition clear : M CodeHeap unit :=
  hmodify (set_next_segment 0) ;; h ← mget; mark_segmap_as_free 0 (ch_number_of_committed_segments h).

Definition new_CodeHeap : CodeHeap := mkHeap 0 0 0 ∅ [] 0 0 0 0 0 0 0.

(** What the calls into the operating system answer: the size of a page, the
    granularity of reservations and, where large pages can hold code, the page
    size it chooses for the region. *)
Record os_pages := mkOs {
  vm_page_size : Z;
  vm_allocation_granularity : Z;
  page_size_for_region : option Z
}.

Section page.
Context (os : os_pages).

Definition align_to_page_size (size : Z) : Z :=
  Z.land (u64 (size + vm_page_size os - 1)) (u64 (Z.lnot (vm_page_size os - 1))).

(** [base] is where the space for [_memory] was reserved; [memory_ok] and
    [segmap_ok] are the answers of the two [VirtualSpace::initialize]. New bytes
    of the map are 0. *)
Definition reserve (base : Z) (memory_ok segmap_ok : bool) (reserved_size committed_size segment_size : Z) : M CodeHeap bool :=
  hmodify (λ h, mkHeap (ch_low h) (ch_committed_size h) (ch_reserved_size h) (ch_blocks h) (ch_segmap h)
    (ch_number_of_committed_segments h) (ch_number_of_reserved_segments h) segment_size (exact_log2 segment_size)
    (ch_next_segment h) (ch_freelist h) (ch_freelist_segments h)) ;;
  let page_size := default (vm_page_size os) (page_size_for_region os) in
  let granularity := vm_allocation_granularity os in
  let r_size := u64 (align_size_up reserved_size (Z.max page_size granularity)) in
  let c_size := u64 (align_size_up committed_size page_size) in
  if negb memory_ok then mret false
  else
    hmodify (λ h, mkHeap base c_size r_size (ch_blocks h) (ch_segmap h)
      (size_to_segments h c_size) (size_to_segments h r_size) (ch_segment_size h) (ch_log2_segment_size h)
      (ch_next_segment h) (ch_freelist h) (ch_freelist_segments h)) ;;
    if negb segmap_ok then mret false
    else
      h ← mget;
      hmodify (set_segmap (replicate (Z.to_nat (align_to_page_size (ch_number_of_committed_segments h))) 0)) ;;
      clear ;;
      mret true.

(** [VirtualSpace::expand_by] on [_memory]: no more than what is reserved;
    [commits] is the answer of [os::commit_memory]. *)
Definition memory_expand_by (commits : bool) (bytes : Z) : M CodeHeap bool :=
  h ← mget;
  if u64 (ch_reserved_size h - ch_committed_size h) <? bytes then mret false
  else if negb commits then mret false
  else hmodify (λ h, set_committed (ch_committed_size h + bytes) (ch_number_of_committed_segments h) h) ;; mret true.

(** [segmap_expands] is the answer of [VirtualSpace::expand_by] on [_segmap]. *)
Definition expand_by (commits segmap_expands : bool) (size : Z) : M CodeHeap bool :=
  h ← mget;
  let dm := u64 (align_to_page_size (u64 (ch_committed_size h + size)) - ch_committed_size h) in
  if 0 <? dm then
    ok ← memory_expand_by commits dm;
    if negb ok then mret false
    else
      let i := ch_number_of_committed_segments h in
      hmodify (λ h, set_committed (ch_committed_size h) (size_to_segments h (ch_committed_size h)) h) ;;
      h ← mget;
      let ds := u64 (align_to_page_size (ch_number_of_committed_segments h) - zlen (ch_segmap h)) in
      if (0 <? ds) && negb segmap_expands then mret false
      else
        hmodify (λ h, set_segmap (ch_segmap h ++ replicate (Z.to_nat ds) 0) h) ;;
        mark_segmap_as_free i (ch_number_of_committed_segments h) ;;
        mret true
  else mret true.
End page.

(** ** The free list *)

Definition following_block (b : Z) : M CodeHeap Z :=
  l ← length_ b; h ← mget; mret (u64 (b + u64 (ch_segment_size h * l))).

Definition merge_right (a : Z) : M CodeHeap unit :=
  following ← following_block a;
  link ← link_ a;
  if following =? link then
    la ← length_ a; ll ← length_ link; set_length a (u64 (la + ll)) ;;
    next ← link_ link; set_link a next ;;
    h ← mget;
    let beg := segment_for h a in
    l ← length_ a;
    mark_segmap_as_used beg (beg + l)
  else mret tt.

Definition insert_after (a b : Z) : M CodeHeap unit :=
  next ← link_ a; set_link b next ;;
  set_link a b ;;
  merge_right b ;;
  merge_right a.

(** The place of [b]: the last free block below it and the one after that. *)
Fixpoint scan_freelist (fuel : nat) (b prev cur : Z) : M CodeHeap (Z * Z) :=
  match fuel with
  | O => mfailS
  | S fuel' =>
      if negb (cur =? 0) && (cur <? b) then next ← link_ cur; scan_freelist fuel' b cur next
      else mret (prev, cur)
  end.

Definition list_fuel (h : CodeHeap) : nat := S (Z.to_nat (ch_next_segment h)).

(** The place of a block in the list, and the link to it. *)
Definition link_free_block (b : Z) : M CodeHeap unit :=
  h ← mget;
  if ch_freelist h =? 0 then
    hmodify (λ h, set_freelist b (ch_freelist_segments h) h) ;;
    set_link b 0
  else
    '(prev, cur) ← scan_freelist (list_fuel h) b 0 (ch_freelist h);
    if prev =? 0 then
      set_link b (ch_freelist h) ;;
      hmodify (λ h, set_freelist b (ch_freelist_segments h) h) ;;
      merge_right b
    else insert_after prev b.

Definition add_to_freelist (b : Z) : M CodeHeap unit :=
  l ← length_ b;
  hmodify (λ h, set_freelist (ch_freelist h) (u64 (ch_freelist_segments h + l)) h) ;;
  set_free b ;;
  link_free_block b.

Section flags.
Context (CodeCacheMinBlockLength CodeCacheMinimumFreeSpace : Z).

(** The smallest block that is long enough, with its predecessor and length. *)
Fixpoint search_loop (fuel : nat) (length : Z) (is_critical : bool) (prev cur best_block best_prev best_length : Z)
    : M CodeHeap (Z * Z * Z) :=
  match fuel with
  | O => mfailS
  | S fuel' =>
      if cur =? 0 then mret (best_block, best_prev, best_length)
      else
        l ← length_ cur;
        h ← mget;
        if (length <=? l) && ((best_block =? 0) || (l <? best_length)) then
          if negb is_critical
             && (u64 (high_boundary h - CodeCacheMinimumFreeSpace) <? u64 (cur + length))
          then mret (best_block, best_prev, best_length)
          else next ← link_ cur; search_loop fuel' length is_critical cur next cur prev l
        else next ← link_ cur; search_loop fuel' length is_critical cur next best_block best_prev best_length
  end.

Definition search_freelist (length : Z) (is_critical : bool) : M CodeHeap Z :=
  h ← mget;
  '(best_block, best_prev, best_length) ← search_loop (list_fuel h) length is_critical 0 (ch_freelist h) 0 0 0;
  if best_block =? 0 then mret 0
  else
    '(best_block, length) ←
      (if best_length <? u64 (length + CodeCacheMinBlockLength) then
         (if best_prev =? 0
          then h ← mget; next ← link_ (ch_freelist h); hmodify (λ h, set_freelist next (ch_freelist_segments h) h)
          else next ← link_ best_block; set_link best_prev next) ;;
         mret (best_block, best_length)
       else
         set_length best_block (best_length - length) ;;
         best_block ← following_block best_block;
         h ← mget;
         let beg := segment_for h best_block in
         mark_segmap_as_used beg (beg + length) ;;
         set_length best_block length ;;
         mret (best_block, length));
    set_used best_block ;;
    hmodify (λ h, set_freelist (ch_freelist h) (u64 (ch_freelist_segments h - length)) h) ;;
    mret best_block.

Definition heap_unallocated_capacity (h : CodeHeap) : Z :=
  segments_to_size h (u64 (ch_number_of_reserved_segments h - ch_next_segment h)).

(** ** Allocation *)

Definition allocate (instance_size : Z) (is_critical : bool) : M CodeHeap Z :=
  h ← mget;
  let number_of_segments := size_to_segments h (u64 (instance_size + sizeof_HeapBlock)) in
  block ← search_freelist number_of_segments is_critical;
  if negb (block =? 0) then mret (allocated_space block)
  else
    h ← mget;
    let number_of_segments := if number_of_segments <? CodeCacheMinBlockLength then CodeCacheMinBlockLength else number_of_segments in
    if negb is_critical
       && (u64 (heap_unallocated_capacity h - CodeCacheMinimumFreeSpace) <? segments_to_size h number_of_segments)
    then mret 0
    else if u64 (ch_next_segment h + number_of_segments) <=? ch_number_of_committed_segments h then
      mark_segmap_as_used (ch_next_segment h) (ch_next_segment h + number_of_segments) ;;
      let b := block_at h (ch_next_segment h) in
      initialize b number_of_segments ;;
      hmodify (set_next_segment (ch_next_segment h + number_of_segments)) ;;
      mret (allocated_space b)
    else mret 0.
End flags.

Definition deallocate (p : Z) : M CodeHeap unit := add_to_freelist (p - sizeof_HeapBlock).

(** ** Finding blocks *)

Fixpoint find_start_loop (fuel : nat) (m : list Z) (i : Z) : option Z :=
  match fuel with
  | O => None
  | S fuel' => v ← zget m i; if 0 <? v then find_start_loop fuel' m (i - v) else Some i
  end.

Definition find_start (p : Z) : M CodeHeap Z :=
  h ← mget;
  if negb (contains h p) then mret 0
  else
    let i := segment_for h p in
    v ← mlift (zget (ch_segmap h) i);
    if v =? 255 then mret 0
    else
      i ← mlift (find_start_loop (S (length (ch_segmap h))) (ch_segmap h) i);
      let b := block_at h i in
      f ← free_ b;
      if f : bool then mret 0 else mret (allocated_space b).

Definition block_start (q : Z) : M CodeHeap Z :=
  b ← find_start q; mret (if b =? 0 then 0 else b - sizeof_HeapBlock).
Definition next_block (b : Z) : M CodeHeap Z :=
  if b =? 0 then mret 0
  else
    l ← length_ b;
    h ← mget;
    let i := segment_for h b + l in
    mret (if i <? ch_next_segment h then block_at h i else 0).
Definition first_block : M CodeHeap Z :=
  h ← mget; mret (if 0 <? ch_next_segment h then block_at h 0 else 0).
Definition next_free (b : Z) : M CodeHeap Z :=
  f ← (if b =? 0 then mret false else free_ b);
  b ← (if f : bool then next_block b else mret b);
  mret (if b =? 0 then 0 else allocated_space b).
Definition first : M CodeHeap Z := b ← first_block; next_free b.
Definition next (p : Z) : M CodeHeap Z := b ← block_start p; b ← next_block b; next_free b.

Definition allocated_capacity (h : CodeHeap) : Z :=
  segments_to_size h (u64 (ch_next_segment h - ch_freelist_segments h)).

(** ** Geometry *)

Record geometry (h : CodeHeap) : Prop := {
  g_log2 : 5 ≤ ch_log2_segment_size h < 32;
  g_size : ch_segment_size h = 2 ^ ch_log2_segment_size h;
  g_low : 0 < ch_low h;
  g_high : high_boundary h < 2 ^ 62;
  g_committed : ch_committed_size h = ch_number_of_committed_segments h * ch_segment_size h;
  g_reserved : ch_reserved_size h = ch_number_of_reserved_segments h * ch_segment_size h;
  g_segments : 0 ≤ ch_number_of_committed_segments h ≤ ch_number_of_reserved_segments h;
  g_segmap : ch_number_of_committed_segments h ≤ zlen (ch_segmap h)
}.

(** The address of a segment. *)
Definition addr (h : CodeHeap) (i : Z) : Z := ch_low h + i * ch_segment_size h.
(** The header at a segment. *)
Definition hd (h : CodeHeap) (i : Z) : FreeBlock := default raw_block (ch_blocks h !! addr h i).
Definition hd_set (i : Z) (b : FreeBlock) (h : CodeHeap) : CodeHeap := set_blocks (<[addr h i := b]> (ch_blocks h)) h.

Section geometry.
Context (h : CodeHeap) (G : geometry h).

Lemma segment_pos : 32 ≤ ch_segment_size h.
Proof. rewrite (g_size h G). pose proof (g_log2 h G). pose proof (Z.pow_le_mono_r 2 5 (ch_log2_segment_size h)). lia. Qed.

Lemma addr_range i : 0 ≤ i ≤ ch_number_of_reserved_segments h → ch_low h ≤ addr h i ≤ high_boundary h.
Proof.
  intros Hi. unfold addr, high_boundary. rewrite (g_reserved h G). pose proof segment_pos. nia.
Qed.
Lemma addr_inj i j : addr h i = addr h j → i = j.
Proof. unfold addr. pose proof segment_pos. nia. Qed.
Lemma addr_not_null i : 0 ≤ i → addr h i ≠ 0.
Proof. unfold addr. pose proof segment_pos. pose proof (g_low h G). nia. Qed.
Lemma addr_lt i j : addr h i < addr h j ↔ i < j.
Proof. unfold addr. pose proof segment_pos. nia. Qed.
Lemma addr_add i n : addr h (i + n) = addr h i + n * ch_segment_size h.
Proof. unfold addr. lia. Qed.

Lemma segments_bound : ch_number_of_reserved_segments h < 2 ^ 57.
Proof.
  pose proof segment_pos. pose proof (g_high h G) as Hh. pose proof (g_low h G). pose proof (g_segments h G).
  unfold high_boundary in Hh. rewrite (g_reserved h G) in Hh. nia.
Qed.
Lemma size_bound n : 0 ≤ n ≤ ch_number_of_reserved_segments h → 0 ≤ n * ch_segment_size h < 2 ^ 62.
Proof.
  intros Hn. pose proof segment_pos. pose proof (g_high h G) as Hh. pose proof (g_low h G).
  unfold high_boundary in Hh. rewrite (g_reserved h G) in Hh. nia.
Qed.

Lemma block_at_eq i : 0 ≤ i ≤ ch_number_of_reserved_segments h → block_at h i = addr h i.
Proof.
  intros Hi. unfold block_at. pose proof (size_bound i Hi). pose proof (addr_range i Hi). pose proof (g_high h G). pose proof (g_low h G).
  pose proof (g_log2 h G). rewrite Z.shiftl_mul_pow2, <- (g_size h G) by lia.
  rewrite (wrapU_id 64 (i * _)) by (unfold in_u; lia). apply wrapU_id. unfold in_u, addr in *. lia.
Qed.
Lemma segment_for_eq i r : 0 ≤ i < ch_number_of_reserved_segments h → 0 ≤ r < ch_segment_size h → segment_for h (addr h i + r) = i.
Proof.
  intros Hi Hr. unfold segment_for, addr. pose proof (size_bound (i + 1) ltac:(lia)). pose proof (g_log2 h G).
  replace (ch_low h + i * ch_segment_size h + r - ch_low h) with (i * ch_segment_size h + r) by lia.
  assert (0 ≤ i * ch_segment_size h) by (apply Z.mul_nonneg_nonneg; lia).
  rewrite wrapU_id by (unfold in_u; lia). rewrite Z.shiftr_div_pow2, <- (g_size h G) by lia.
  rewrite Z.div_add_l by lia. rewrite Z.div_small by lia. lia.
Qed.
Lemma segments_to_size_eq n : 0 ≤ n ≤ ch_number_of_reserved_segments h → segments_to_size h n = n * ch_segment_size h.
Proof.
  intros Hn. unfold segments_to_size. pose proof (size_bound n Hn). pose proof (g_log2 h G).
  rewrite Z.shiftl_mul_pow2, <- (g_size h G) by lia. apply wrapU_id. unfold in_u. lia.
Qed.

(** Enough segments for a size, and not one more than needed. *)
Lemma size_to_segments_spec size :
  0 ≤ size < 2 ^ 62 → let n := size_to_segments h size in
  0 ≤ n < 2 ^ 58 ∧ size ≤ n * ch_segment_size h < size + ch_segment_size h.
Proof.
  intros Hs n. subst n. unfold size_to_segments. pose proof segment_pos. pose proof (g_log2 h G).
  assert (ch_segment_size h < 2 ^ 32) as Hsz by (rewrite (g_size h G); apply Z.pow_lt_mono_r; lia).
  rewrite wrapU_id by (unfold in_u; lia). rewrite Z.shiftr_div_pow2, <- (g_size h G) by lia.
  pose proof (Z.div_mod (size + ch_segment_size h - 1) (ch_segment_size h) ltac:(lia)) as Hd.
  pose proof (Z.mod_pos_bound (size + ch_segment_size h - 1) (ch_segment_size h) ltac:(lia)).
  set (q := (size + ch_segment_size h - 1) / ch_segment_size h) in *. nia.
Qed.

Lemma in_memory_block i size : 0 ≤ i < ch_number_of_committed_segments h → size ≤ 24 → in_memory h (addr h i) size = true.
Proof.
  intros Hi Hs. unfold in_memory, high, addr. pose proof segment_pos. rewrite (g_committed h G).
  apply andb_true_iff. split; apply Z.leb_le; nia.
Qed.

Lemma load_block_spec i size :
  0 ≤ i < ch_number_of_committed_segments h → size ≤ 24 → load_block (addr h i) size h = Some (hd h i, h).
Proof. intros Hi Hs. unfold load_block. by rewrite in_memory_block. Qed.
Lemma store_block_spec i size f :
  0 ≤ i < ch_number_of_committed_segments h → size ≤ 24 → store_block (addr h i) size f h = Some (tt, hd_set i (f (hd h i)) h).
Proof. intros Hi Hs. unfold store_block. by rewrite (M_bind_Some _ _ _ _ _ (load_block_spec i size Hi Hs)). Qed.

Lemma hd_hd_set i j b : hd (hd_set i b h) j = if decide (j = i) then b else hd h j.
Proof.
  unfold hd, hd_set. change (addr (set_blocks _ h) j) with (addr h j). cbn [ch_blocks set_blocks].
  case_decide as Hj; [subst; by rewrite lookup_insert_eq|].
  rewrite lookup_insert_ne; [done|]. intros He. by apply addr_inj in He.
Qed.
End geometry.

(** ** The segment map *)

(** What the entry of the segment at distance [j] from the start of its block is. *)
Definition entry_ok (j v : Z) : Prop := v < 255 ∧ (j = 0 ∧ v = 0 ∨ 0 < v ≤ j).

Lemma put_segmap_spec i v h :
  0 ≤ i < zlen (ch_segmap h) → put_segmap i v h = Some (tt, set_segmap (<[Z.to_nat i := v]> (ch_segmap h)) h).
Proof.
  intros Hi. unfold put_segmap. rewrite M_bind_get. by rewrite (M_bind_lift _ _ _ _ (zset_eq (ch_segmap h) i v Hi)).
Qed.
Lemma zlen_insert {A} (l : list A) i x : zlen (<[i := x]> l) = zlen l.
Proof. unfold zlen. by rewrite length_insert. Qed.

(** A loop that stores to successive entries leaves the others alone. *)
Definition marked (m m' : list Z) (p n : Z) (P : Z → Z → Prop) : Prop :=
  zlen m' = zlen m ∧
  (∀ k, p ≤ k < p + n → ∃ v, zget m' k = Some v ∧ P (k - p) v) ∧
  (∀ k, ¬ p ≤ k < p + n → zget m' k = zget m k).

Lemma marked_step m m' p n v (P : Z → Z → Prop) :
  0 ≤ p < zlen m → 0 ≤ n → P 0 v → marked (<[Z.to_nat p := v]> m) m' (p + 1) n (λ j, P (j + 1)) → marked m m' p (1 + n) P.
Proof.
  intros Hp Hn Hv (H1 & H2 & H3). split; [by rewrite H1, zlen_insert|]. split; intros k Hk.
  - destruct (decide (k = p)) as [->|Hne].
    + exists v. rewrite H3, zget_insert, decide_True by lia. by rewrite Z.sub_diag.
    + destruct (H2 k) as (w & Hw & HP); [lia|]. exists w. split; [done|]. by replace (k - p) with (k - (p + 1) + 1) by lia.
  - rewrite H3, zget_insert, decide_False by lia. done.
Qed.

Lemma mark_used_loop_spec n p i j h :
  0 ≤ p → p + Z.of_nat n ≤ zlen (ch_segmap h) → 0 ≤ i ≤ 254 → entry_ok j i →
  ∃ m, mark_used_loop n p i h = Some (tt, set_segmap m h) ∧
    marked (ch_segmap h) m p (Z.of_nat n) (λ k, entry_ok (j + k)).
Proof.
  revert p i j h. induction n as [|n IH]; intros p i j h Hp Hn Hi He; cbn [mark_used_loop].
  { exists (ch_segmap h). split; [by destruct h|]. split; [done|]. split; [lia|done]. }
  rewrite (M_bind_Some _ _ _ _ _ (put_segmap_spec p (u8 i) h ltac:(lia))). rewrite wrapU_id by (unfold in_u; lia).
  set (i' := if i + 1 =? 255 then 1 else i + 1).
  assert (0 ≤ i' ≤ 254 ∧ entry_ok (j + 1) i') as [Hi' He'].
  { subst i'. destruct (Z.eqb_spec (i + 1) 255); unfold entry_ok in *; lia. }
  destruct (IH (p + 1) i' (j + 1) (set_segmap (<[Z.to_nat p := i]> (ch_segmap h)) h)) as (m & E & Hm);
    [lia|cbn; rewrite zlen_insert; lia|done|done|].
  exists m. split; [exact E|]. rewrite Nat2Z.inj_succ. replace (Z.succ (Z.of_nat n)) with (1 + Z.of_nat n) by lia.
  apply (marked_step _ _ _ _ i); [lia|lia|by rewrite Z.add_0_r|]. cbn [ch_segmap set_segmap] in Hm.
  destruct Hm as (K1 & K2 & K3). split; [done|]. split; [|done]. intros k Hk. destruct (K2 k Hk) as (v & ? & ?).
  exists v. split; [done|]. by replace (j + (k - (p + 1) + 1)) with (j + 1 + (k - (p + 1))) by lia.
Qed.

Lemma mark_used_spec p n h :
  0 ≤ p → 0 ≤ n → p + n ≤ zlen (ch_segmap h) →
  ∃ m, mark_segmap_as_used p (p + n) h = Some (tt, set_segmap m h) ∧ marked (ch_segmap h) m p n entry_ok.
Proof.
  intros Hp Hn Hl. unfold mark_segmap_as_used. replace (p + n - p) with n by lia.
  destruct (mark_used_loop_spec (Z.to_nat n) p 0 0 h) as (m & E & Hm); [done|lia|lia|unfold entry_ok; lia|].
  exists m. split; [done|]. rewrite Z2Nat.id in Hm by done. exact Hm.
Qed.

Lemma mark_free_spec p q h :
  0 ≤ p ≤ q → q ≤ zlen (ch_segmap h) →
  ∃ m, mark_segmap_as_free p q h = Some (tt, set_segmap m h) ∧ marked (ch_segmap h) m p (q - p) (λ _ v, v = 255).
Proof.
  intros Hp Hq. unfold mark_segmap_as_free. remember (Z.to_nat (q - p)) as n eqn:Hn.
  replace (q - p) with (Z.of_nat n) by lia. assert (p + Z.of_nat n ≤ zlen (ch_segmap h)) as Hl by lia.
  destruct Hp as [Hp _]. clear Hq Hn. revert p h Hp Hl. induction n as [|n IH]; intros p h Hp Hl; cbn [mark_free_loop].
  { exists (ch_segmap h). split; [by destruct h|]. split; [done|]. split; [lia|done]. }
  rewrite (M_bind_Some _ _ _ _ _ (put_segmap_spec p 255 h ltac:(lia))).
  destruct (IH (p + 1) (set_segmap (<[Z.to_nat p := 255]> (ch_segmap h)) h)) as (m & E & Hm); [lia|cbn; rewrite zlen_insert; lia|].
  exists m. split; [exact E|]. replace (Z.of_nat (S n)) with (1 + Z.of_nat n) by lia.
  by apply (marked_step _ _ _ _ 255 (λ _ v, v = 255)); [lia|lia| |].
Qed.

(** ** The blocks of a heap *)

Record Block := mkB { b_start : Z; b_len : Z; b_used : bool }.

(** The blocks follow one another from [b] to [e]. *)
Fixpoint tiles (b : Z) (bs : list Block) (e : Z) : Prop :=
  match bs with
  | [] => b = e
  | x :: bs' => b_start x = b ∧ 0 < b_len x ∧ tiles (b + b_len x) bs' e
  end.

Definition frees (bs : list Block) : list Z := b_start <$> filter (λ x, b_used x = false) bs.
Definition free_total (bs : list Block) : Z := foldr Z.add 0 (b_len <$> filter (λ x, b_used x = false) bs).

(** The free list from [p] on goes through the blocks that start at [fs]. *)
Fixpoint chain (h : CodeHeap) (p : Z) (fs : list Z) : Prop :=
  match fs with
  | [] => p = 0
  | i :: fs' => p = addr h i ∧ chain h (fb_link (hd h i)) fs'
  end.

Definition header_ok (h : CodeHeap) (x : Block) : Prop :=
  fb_length (hd h (b_start x)) = b_len x ∧ fb_used (hd h (b_start x)) = b_used x.
Definition map_ok (m : list Z) (x : Block) : Prop :=
  ∀ j, 0 ≤ j < b_len x → ∃ v, zget m (b_start x + j) = Some v ∧ entry_ok j v.

Record heap_inv (h : CodeHeap) (bs : list Block) : Prop := {
  hi_geometry : geometry h;
  hi_tiles : tiles 0 bs (ch_next_segment h);
  hi_next : ch_next_segment h ≤ ch_number_of_committed_segments h;
  hi_headers : Forall (header_ok h) bs;
  hi_map : Forall (map_ok (ch_segmap h)) bs;
  hi_top : ∀ k, ch_next_segment h ≤ k < ch_number_of_committed_segments h → zget (ch_segmap h) k = Some 255;
  hi_chain : chain h (ch_freelist h) (frees bs);
  hi_total : ch_freelist_segments h = free_total bs
}.

(** No two free blocks are neighbours. *)
Fixpoint no_pair (us : list bool) : Prop :=
  match us with
  | u :: (v :: _) as us' => (u = true ∨ v = true) ∧ no_pair us'
  | _ => True
  end.
Definition merged (bs : list Block) : Prop := no_pair (b_used <$> bs).
Definition used_blocks (bs : list Block) : list Block := filter (λ x, b_used x = true) bs.

(** *** Lists of blocks *)

Lemma tiles_app b bs1 bs2 e : tiles b (bs1 ++ bs2) e ↔ ∃ m, tiles b bs1 m ∧ tiles m bs2 e.
Proof.
  revert b. induction bs1 as [|x bs1 IH]; intros b; cbn [tiles app].
  - split; [by exists b|by intros (m & -> & ?)].
  - rewrite IH. naive_solver.
Qed.
Lemma tiles_le b bs e : tiles b bs e → b ≤ e.
Proof. revert b. induction bs as [|x bs IH]; intros b; cbn; [lia|]. intros (_ & ? & ?%IH). lia. Qed.
Lemma tiles_elem b bs e x : tiles b bs e → x ∈ bs → b ≤ b_start x ∧ 0 < b_len x ∧ b_start x + b_len x ≤ e.
Proof.
  revert b. induction bs as [|y bs IH]; intros b Ht Hx; [by apply elem_of_nil in Hx|].
  destruct Ht as (H1 & H2 & H3). pose proof (tiles_le _ _ _ H3). apply elem_of_cons in Hx as [->|Hx]; [lia|].
  destruct (IH _ H3 Hx) as (? & ? & ?). lia.
Qed.
Lemma frees_app bs1 bs2 : frees (bs1 ++ bs2) = frees bs1 ++ frees bs2.
Proof. unfold frees. by rewrite filter_app, fmap_app. Qed.
Lemma frees_free i n bs : frees (mkB i n false :: bs) = i :: frees bs.
Proof. unfold frees. by rewrite filter_cons_True. Qed.
Lemma frees_used i n bs : frees (mkB i n true :: bs) = frees bs.
Proof. unfold frees. by rewrite filter_cons_False. Qed.
Lemma frees_elem b bs e i : tiles b bs e → i ∈ frees bs → b ≤ i < e.
Proof.
  intros Ht (x & -> & [_ Hx]%list_elem_of_filter)%list_elem_of_fmap. pose proof (tiles_elem _ _ _ _ Ht Hx). lia.
Qed.
Lemma free_total_app bs1 bs2 : free_total (bs1 ++ bs2) = free_total bs1 + free_total bs2.
Proof.
  unfold free_total. rewrite filter_app, fmap_app. induction (b_len <$> filter _ bs1) as [|x l IH]; [done|].
  cbn [foldr app]. lia.
Qed.
Lemma free_total_free i n bs : free_total (mkB i n false :: bs) = n + free_total bs.
Proof. unfold free_total. by rewrite filter_cons_True. Qed.
Lemma free_total_used i n bs : free_total (mkB i n true :: bs) = free_total bs.
Proof. unfold free_total. by rewrite filter_cons_False. Qed.
Lemma free_total_range b bs e : tiles b bs e → 0 ≤ free_total bs ≤ e - b.
Proof.
  revert b. induction bs as [|[i n u] bs IH]; intros b; cbn [tiles b_start b_len]; [intros ->; cbn; lia|].
  intros (-> & Hn & Ht). pose proof (tiles_le _ _ _ Ht). specialize (IH _ Ht).
  destruct u; rewrite ?free_total_used, ?free_total_free; lia.
Qed.

(** ** Steps of the operations *)

(** Everything but the contents is the same. *)
Record same_extent (h h' : CodeHeap) : Prop := {
  se_low : ch_low h' = ch_low h;
  se_committed : ch_committed_size h' = ch_committed_size h;
  se_reserved : ch_reserved_size h' = ch_reserved_size h;
  se_committed_segments : ch_number_of_committed_segments h' = ch_number_of_committed_segments h;
  se_reserved_segments : ch_number_of_reserved_segments h' = ch_number_of_reserved_segments h;
  se_size : ch_segment_size h' = ch_segment_size h;
  se_log2 : ch_log2_segment_size h' = ch_log2_segment_size h;
  se_segmap : zlen (ch_segmap h') = zlen (ch_segmap h)
}.

Lemma same_extent_refl h : same_extent h h.
Proof. by split. Qed.
Lemma same_extent_trans h1 h2 h3 : same_extent h1 h2 → same_extent h2 h3 → same_extent h1 h3.
Proof. intros [] []. split; congruence. Qed.
Lemma same_extent_geometry h h' : same_extent h h' → geometry h → geometry h'.
Proof. intros [] []. split; unfold high_boundary in *; congruence. Qed.
Lemma same_extent_addr h h' i : same_extent h h' → addr h' i = addr h i.
Proof. intros []. unfold addr. congruence. Qed.
Lemma hd_set_extent i b h : same_extent h (hd_set i b h).
Proof. by split. Qed.
Lemma hd_set_set i b b' h : hd_set i b' (hd_set i b h) = hd_set i b' h.
Proof.
  unfold hd_set. change (addr (set_blocks _ h) i) with (addr h i). cbn [ch_blocks set_blocks].
  by rewrite insert_insert_eq.
Qed.
Lemma set_segmap_extent m h : zlen m = zlen (ch_segmap h) → same_extent h (set_segmap m h).
Proof. by split. Qed.
Lemma set_freelist_extent p n h : same_extent h (set_freelist p n h).
Proof. by split. Qed.
Lemma set_next_extent n h : same_extent h (set_next_segment n h).
Proof. by split. Qed.
Create HintDb heap.
#[export] Hint Resolve same_extent_refl hd_set_extent set_segmap_extent set_freelist_extent set_next_extent : heap.
#[export] Hint Resolve same_extent_trans same_extent_geometry : heap.

Section steps.
Context (h : CodeHeap) (G : geometry h) (a i : Z) (Ha : a = addr h i) (Hi : 0 ≤ i < ch_number_of_committed_segments h).

Lemma length_step : length_ a h = Some (fb_length (hd h i), h).
Proof. subst a. unfold length_. by rewrite (M_bind_Some _ _ _ _ _ (load_block_spec h G i 16 Hi ltac:(done))). Qed.
Lemma free_step : free_ a h = Some (negb (fb_used (hd h i)), h).
Proof. subst a. unfold free_. by rewrite (M_bind_Some _ _ _ _ _ (load_block_spec h G i 16 Hi ltac:(done))). Qed.
Lemma link_step : link_ a h = Some (fb_link (hd h i), h).
Proof. subst a. unfold link_. by rewrite (M_bind_Some _ _ _ _ _ (load_block_spec h G i 24 Hi ltac:(done))). Qed.
Lemma set_length_step l : set_length a l h = Some (tt, hd_set i (mkBlock l (fb_used (hd h i)) (fb_link (hd h i))) h).
Proof. subst a. unfold set_length. by rewrite (store_block_spec h G i). Qed.
Lemma set_used_step : set_used a h = Some (tt, hd_set i (mkBlock (fb_length (hd h i)) true (fb_link (hd h i))) h).
Proof. subst a. unfold set_used. by rewrite (store_block_spec h G i). Qed.
Lemma set_free_step : set_free a h = Some (tt, hd_set i (mkBlock (fb_length (hd h i)) false (fb_link (hd h i))) h).
Proof. subst a. unfold set_free. by rewrite (store_block_spec h G i). Qed.
Lemma set_link_step l : set_link a l h = Some (tt, hd_set i (mkBlock (fb_length (hd h i)) (fb_used (hd h i)) l) h).
Proof. subst a. unfold set_link. by rewrite (store_block_spec h G i). Qed.

Lemma following_step n :
  fb_length (hd h i) = n → 0 ≤ n → i + n ≤ ch_number_of_committed_segments h → following_block a h = Some (addr h (i + n), h).
Proof.
  intros Hn Hn0 Hin. unfold following_block. rewrite (M_bind_Some _ _ _ _ _ length_step), M_bind_get, Hn. unfold mret, M_ret.
  do 2 f_equal. subst a. pose proof (g_segments h G). rewrite (Z.mul_comm _ n).
  rewrite (wrapU_id 64 (n * _)) by (pose proof (size_bound h G n ltac:(lia)); unfold in_u; lia).
  rewrite <- addr_add. apply wrapU_id. pose proof (addr_range h G (i + n) ltac:(lia)). pose proof (g_high h G). pose proof (g_low h G).
  unfold in_u. lia.
Qed.
End steps.

(** *** The free list *)

Lemma chain_ext h h' p fs :
  same_extent h h' → (∀ i, i ∈ fs → fb_link (hd h' i) = fb_link (hd h i)) → chain h p fs → chain h' p fs.
Proof.
  intros He. revert p. induction fs as [|i fs IH]; intros p Hl; cbn [chain]; [done|].
  intros [-> Hc]. split; [by rewrite (same_extent_addr h h')|]. rewrite Hl by left. apply IH; [|done].
  intros j Hj. apply Hl. by right.
Qed.
Lemma chain_link h p fs1 i fs2 : chain h p (fs1 ++ i :: fs2) → chain h (fb_link (hd h i)) fs2.
Proof. revert p. induction fs1 as [|j fs1 IH]; intros p; cbn [chain app]; [by intros [_ ?]|]. intros [_ ?]. by eapply IH. Qed.

(** The list up to [i], with what follows [i] exchanged. *)
Lemma chain_exchange h h' p fs1 i fs2 fs3 :
  same_extent h h' → (∀ j, j ∈ fs1 → fb_link (hd h' j) = fb_link (hd h j)) →
  chain h p (fs1 ++ i :: fs2) → chain h' (fb_link (hd h' i)) fs3 → chain h' p (fs1 ++ i :: fs3).
Proof.
  intros He Hl Hc' H3. revert p Hc'. induction fs1 as [|j fs1 IH]; intros p; cbn [chain app].
  - intros [-> _]. split; [by rewrite (same_extent_addr h h')|done].
  - intros [-> Hc]. split; [by rewrite (same_extent_addr h h')|]. rewrite Hl by left. apply IH; [|done].
    intros k Hk. apply Hl. by right.
Qed.

(** What the invariant says of one block. *)
Record block_facts (h : CodeHeap) (bs1 : list Block) (i n : Z) (u : bool) (bs2 : list Block) : Prop := {
  bf_range : 0 ≤ i ∧ 0 < n ∧ i + n ≤ ch_next_segment h ∧ ch_next_segment h ≤ ch_number_of_committed_segments h;
  bf_length : fb_length (hd h i) = n;
  bf_used : fb_used (hd h i) = u;
  bf_left : tiles 0 bs1 i;
  bf_right : tiles (i + n) bs2 (ch_next_segment h)
}.

Lemma inv_block h bs1 i n u bs2 : heap_inv h (bs1 ++ mkB i n u :: bs2) → block_facts h bs1 i n u bs2.
Proof.
  intros [G Ht Hn Hh _ _ _ _]. apply tiles_app in Ht as (m & Ht1 & Hi & Hlen & Ht2). cbn [b_start b_len] in *. subst m.
  apply Forall_app in Hh as [_ [[Hl Hu] _]%Forall_cons]. pose proof (tiles_le _ _ _ Ht1). pose proof (tiles_le _ _ _ Ht2).
  split; [lia|done|done|done|done].
Qed.

(** The headers, and the map entries, of other blocks than the one at [i]. *)
Lemma headers_frame h h' b bs e :
  tiles b bs e → (∀ j, b ≤ j < e → hd h' j = hd h j) → Forall (header_ok h) bs → Forall (header_ok h') bs.
Proof.
  intros Ht Hhd. rewrite !Forall_forall. intros Hh x Hx. destruct (tiles_elem _ _ _ _ Ht Hx) as (? & ? & ?).
  unfold header_ok. rewrite Hhd by lia. by apply Hh.
Qed.
Lemma map_frame m m' b bs e :
  tiles b bs e → (∀ j, b ≤ j < e → zget m' j = zget m j) → Forall (map_ok m) bs → Forall (map_ok m') bs.
Proof.
  intros Ht Hm. rewrite !Forall_forall. intros Hh x Hx j Hj. destruct (tiles_elem _ _ _ _ Ht Hx) as (? & ? & ?).
  destruct (Hh x Hx j Hj) as (v & Hv & He). exists v. split; [|done]. rewrite Hm by lia. done.
Qed.

Definition merge_next (x : Block) (bs : list Block) : list Block :=
  match bs with
  | y :: bs' => if b_used y then x :: bs else mkB (b_start x) (b_len x + b_len y) false :: bs'
  | [] => [x]
  end.

(** The link of a free block is the block behind it exactly if that is free. *)
Lemma link_following h bs1 i n bs2 :
  heap_inv h (bs1 ++ mkB i n false :: bs2) →
  (addr h (i + n) =? fb_link (hd h i)) = match bs2 with y :: _ => negb (b_used y) | [] => false end.
Proof.
  intros Hinv. destruct (inv_block _ _ _ _ _ _ Hinv) as [Hr Hl Hu Ht1 Ht2]. pose proof (hi_geometry _ _ Hinv) as G.
  pose proof (hi_chain _ _ Hinv) as Hc. rewrite frees_app, frees_free in Hc. apply chain_link in Hc.
  assert (∀ j, i + n < j → (addr h (i + n) =? addr h j) = false) as Hne.
  { intros j Hj. apply Z.eqb_neq. intros He%(addr_inj h G). lia. }
  destruct bs2 as [|[k m [|]] bs3]; cbn [b_used negb].
  - cbn in Hc. rewrite Hc. apply Z.eqb_neq. apply (addr_not_null h G). lia.
  - rewrite frees_used in Hc. destruct Ht2 as (Hk & Hm & Ht3). cbn [b_start b_len] in *. subst k.
    destruct (frees bs3) as [|j fs] eqn:Hf; cbn in Hc.
    + rewrite Hc. apply Z.eqb_neq. apply (addr_not_null h G). lia.
    + destruct Hc as [-> _]. apply Hne. assert (j ∈ frees bs3) as Hj by (rewrite Hf; left).
      apply (frees_elem _ _ _ _ Ht3) in Hj. lia.
  - rewrite frees_free in Hc. destruct Ht2 as (Hk & _). cbn [b_start] in Hk. subst k. destruct Hc as [-> _]. apply Z.eqb_refl.
Qed.

(** Two neighbouring free blocks become one. *)
Lemma merge_inv h bs1 i n m bs3 h2 mp :
  heap_inv h (bs1 ++ mkB i n false :: mkB (i + n) m false :: bs3) →
  h2 = hd_set i (mkBlock (n + m) false (fb_link (hd h (i + n)))) h → marked (ch_segmap h) mp i (n + m) entry_ok →
  heap_inv (set_segmap mp h2) (bs1 ++ mkB i (n + m) false :: bs3).
Proof.
  intros Hinv -> (Hz & Hin & Hout). destruct (inv_block _ _ _ _ _ _ Hinv) as [Hr Hl Hu Ht1 Ht2].
  destruct Hinv as [G Ht Hnx Hh Hm Htop Hc Htot]. destruct Ht2 as (_ & Hm0 & Ht3). cbn [b_start b_len] in *.
  pose proof (tiles_le _ _ _ Ht3). set (h2 := hd_set i _ h). set (h3 := set_segmap mp h2).
  assert (same_extent h h3) as He by (apply (same_extent_trans _ h2); [apply hd_set_extent|by apply set_segmap_extent]).
  assert (∀ j, j ≠ i → hd h3 j = hd h j) as Hhd by (intros j Hj; change (hd h3 j) with (hd h2 j); unfold h2; rewrite hd_hd_set by done; by rewrite decide_False).
  assert (hd h3 i = mkBlock (n + m) false (fb_link (hd h (i + n)))) as Hhi
    by (change (hd h3 i) with (hd h2 i); unfold h2; rewrite hd_hd_set by done; by rewrite decide_True).
  apply Forall_app in Hh as [Hh1 [_ [_ Hh3]%Forall_cons]%Forall_cons]. apply Forall_app in Hm as [Hm1 [_ [_ Hm3]%Forall_cons]%Forall_cons].
  split.
  - by eapply same_extent_geometry.
  - apply tiles_app. exists i. split; [done|]. cbn. split_and!; [done|lia|]. by rewrite Z.add_assoc.
  - done.
  - apply Forall_app. split; [eapply headers_frame; [exact Ht1| |done]; intros j Hj; apply Hhd; lia|].
    constructor; [unfold header_ok; cbn [b_start b_len b_used]; by rewrite Hhi|].
    eapply headers_frame; [exact Ht3| |done]. intros j Hj. apply Hhd. lia.
  - apply Forall_app. split; [eapply map_frame; [exact Ht1| |done]; intros j Hj; apply Hout; lia|].
    constructor; [|eapply map_frame; [exact Ht3| |done]; intros j Hj; apply Hout; lia].
    intros j Hj. cbn [b_start b_len] in *. destruct (Hin (i + j) ltac:(lia)) as (v & Hv & Hev). exists v.
    by replace (i + j - i) with j in Hev by lia.
  - intros k Hk. change (ch_segmap h3) with mp. rewrite Hout; [by apply Htop|]. cbn in Hk. lia.
  - change (ch_freelist h3) with (ch_freelist h). rewrite frees_app, !frees_free in *.
    apply (chain_exchange h h3 _ (frees bs1) i (i + n :: frees bs3)); [done| |done|].
    + intros j Hj. apply (frees_elem _ _ _ _ Ht1) in Hj. rewrite Hhd by lia. done.
    + rewrite Hhi. cbn [fb_link]. apply (chain_ext h h3); [done| |].
      * intros j Hj. apply (frees_elem _ _ _ _ Ht3) in Hj. rewrite Hhd by lia. done.
      * apply (chain_link h (ch_freelist h) (frees bs1 ++ [i])). rewrite <- app_assoc. exact Hc.
  - change (ch_freelist_segments h3) with (ch_freelist_segments h). rewrite Htot.
    rewrite !free_total_app, !free_total_free. lia.
Qed.

Lemma merge_right_spec h a bs1 i n bs2 :
  heap_inv h (bs1 ++ mkB i n false :: bs2) → a = addr h i →
  ∃ h', merge_right a h = Some (tt, h') ∧ heap_inv h' (bs1 ++ merge_next (mkB i n false) bs2) ∧ same_extent h h' ∧
    ch_next_segment h' = ch_next_segment h.
Proof.
  intros Hinv ->. destruct (inv_block _ _ _ _ _ _ Hinv) as [Hr Hl Hu Ht1 Ht2]. pose proof (hi_geometry _ _ Hinv) as G.
  unfold merge_right. rewrite (M_bind_Some _ _ _ _ _ (following_step h G _ i eq_refl ltac:(lia) n Hl ltac:(lia) ltac:(lia))).
  rewrite (M_bind_Some _ _ _ _ _ (link_step h G _ i eq_refl ltac:(lia))). rewrite (link_following h bs1 i n bs2 Hinv).
  assert (∃ h', (mret tt : M CodeHeap unit) h = Some (tt, h') ∧ heap_inv h' (bs1 ++ mkB i n false :: bs2) ∧ same_extent h h' ∧
    ch_next_segment h' = ch_next_segment h) as Hsame by (exists h; split_and!; auto using same_extent_refl).
  destruct bs2 as [|[k m [|]] bs3]; cbn [b_used negb merge_next]; [exact Hsame|exact Hsame|]. clear Hsame.
  pose proof (link_following h bs1 i n _ Hinv) as Hlk. cbn [b_used negb] in Hlk. apply Z.eqb_eq in Hlk.
  destruct Ht2 as (Hk & Hm0 & Ht3). cbn [b_start b_len] in *. subst k. pose proof (tiles_le _ _ _ Ht3).
  assert (fb_length (hd h (i + n)) = m) as Hlm.
  { pose proof (hi_headers _ _ Hinv) as Hh. apply Forall_app in Hh as [_ [_ [[Hh _] _]%Forall_cons]%Forall_cons]. exact Hh. }
  pose proof (g_segments h G). pose proof (segments_bound h G).
  rewrite (M_bind_Some _ _ _ _ _ (length_step h G _ i eq_refl ltac:(lia))).
  rewrite (M_bind_Some _ _ _ _ _ (length_step h G _ (i + n) (eq_sym Hlk) ltac:(lia))). rewrite Hl, Hlm.
  rewrite (wrapU_id 64 (n + m)) by (unfold in_u; lia).
  rewrite (M_bind_Some _ _ _ _ _ (set_length_step h G _ i eq_refl ltac:(lia) (n + m))). rewrite Hu. set (h1 := hd_set i _ h).
  assert (geometry h1) as G1 by (eapply same_extent_geometry; [apply hd_set_extent|done]).
  rewrite (M_bind_Some _ _ _ _ _ (link_step h1 G1 _ (i + n) (eq_sym Hlk) ltac:(cbn; lia))).
  rewrite (M_bind_Some _ _ _ _ _ (set_link_step h1 G1 _ i eq_refl ltac:(cbn; lia) _)).
  assert (hd h1 (i + n) = hd h (i + n) ∧ hd h1 i = mkBlock (n + m) false (fb_link (hd h i))) as [-> ->].
  { unfold h1. rewrite !hd_hd_set by done. rewrite decide_False, decide_True by lia. done. }
  cbn [fb_length fb_used fb_link]. set (h2 := hd_set i _ h1).
  assert (geometry h2) as G2 by (eapply same_extent_geometry; [apply hd_set_extent|done]).
  rewrite M_bind_get, (M_bind_Some _ _ _ _ _ (length_step h2 G2 _ i eq_refl ltac:(cbn; lia))).
  assert (fb_length (hd h2 i) = n + m) as -> by (unfold h2; rewrite hd_hd_set by done; by rewrite decide_True).
  assert (segment_for h2 (addr h i) = i) as ->.
  { pose proof (segment_for_eq h2 G2 i 0 ltac:(cbn; lia) ltac:(pose proof (segment_pos h2 G2); lia)) as Hs. by rewrite Z.add_0_r in Hs. }
  destruct (mark_used_spec i (n + m) h2) as (mp & E & Hmp); [lia|lia|pose proof (g_segmap h G); cbn; lia|].
  exists (set_segmap mp h2). split; [exact E|]. split; [|split; [|done]].
  - eapply (merge_inv h bs1 i n m bs3 h2); [done| |done]. apply hd_set_set.
  - apply (same_extent_trans _ h2); [by split|]. apply set_segmap_extent. apply Hmp.
Qed.

(** *** Where free blocks are not neighbours *)

Lemma no_pair_cons u us : no_pair (u :: us) → no_pair us.
Proof. destruct us; cbn; [done|by intros [_ ?]]. Qed.
Lemma no_pair_used l1 l2 : no_pair (l1 ++ true :: l2) ↔ no_pair l1 ∧ no_pair l2.
Proof.
  induction l1 as [|u l1 IH]; cbn [app].
  - split; [by intros ?%no_pair_cons|]. intros [_ H]. destruct l2; cbn; [done|]. split; [by left|done].
  - destruct l1 as [|v l1]; cbn [app no_pair] in *.
    + split; [intros [_ ?]; naive_solver|]. intros [_ ?]. split; [by right|]. naive_solver.
    + rewrite IH. tauto.
Qed.
Lemma no_pair_glue l1 u l2 : no_pair (l1 ++ [u]) → no_pair (u :: l2) → no_pair (l1 ++ u :: l2).
Proof.
  induction l1 as [|v l1 IH]; [done|]. destruct l1 as [|w l1]; cbn [app no_pair] in *.
  - intros [? _] ?. by split.
  - intros [? ?] ?. split; [done|]. by apply IH.
Qed.
Lemma no_pair_prefix l1 l2 : no_pair (l1 ++ l2) → no_pair l1.
Proof.
  induction l1 as [|u l1 IH]; [done|]. destruct l1 as [|v l1]; [done|]. intros [H1 H2]. split; [exact H1|]. apply IH. exact H2.
Qed.

Lemma no_pair_suffix l1 l2 : no_pair (l1 ++ l2) → no_pair l2.
Proof. induction l1 as [|u l1 IH]; [done|]. intros H%no_pair_cons. by apply IH. Qed.

(** What merging makes of the blocks behind a free block. *)
Lemma merge_next_shape x bs :
  b_used x = false →
  ∃ y bs', merge_next x bs = y :: bs' ∧ b_start y = b_start x ∧ b_used y = false ∧ used_blocks (y :: bs') = used_blocks bs ∧
    (merged bs → merged (y :: bs')).
Proof.
  intros Hx. assert (∀ y bs, b_used y = false → used_blocks (y :: bs) = used_blocks bs) as Hub.
  { intros y bs' Hy. unfold used_blocks. apply filter_cons_False. by rewrite Hy. }
  destruct bs as [|y bs]; cbn [merge_next]; [by exists x, []; rewrite Hub|].
  destruct (b_used y) eqn:Hy.
  - exists x, (y :: bs). rewrite Hub by done. split_and!; [done..|]. intros Hm. unfold merged in *.
    rewrite !fmap_cons, Hy in *. split; [by right|done].
  - eexists _, bs. split; [done|]. rewrite !Hub by done. split_and!; [done..|]. unfold merged. rewrite !fmap_cons, Hy. done.
Qed.

(** The last free block of a list. *)
Lemma last_free bs :
  (frees bs = [] ∧ Forall (λ x, b_used x = true) bs) ∨
  ∃ c1 k m c2, bs = c1 ++ mkB k m false :: c2 ∧ Forall (λ x, b_used x = true) c2 ∧ frees bs = frees c1 ++ [k].
Proof.
  induction bs as [|[i n u] bs IH] using rev_ind; [by left|]. destruct u.
  - destruct IH as [[Hf Hu]|(c1 & k & m & c2 & -> & Hu & Hf)].
    + left. rewrite frees_app, Hf. split; [done|]. apply Forall_app. split; [done|by apply Forall_singleton].
    + right. exists c1, k, m, (c2 ++ [mkB i n true]). rewrite <- app_assoc. split; [done|].
      split; [apply Forall_app; split; [done|by apply Forall_singleton]|].
      rewrite frees_app in Hf |- *. change (mkB k m false :: c2 ++ [mkB i n true]) with ((mkB k m false :: c2) ++ [mkB i n true]).
      rewrite frees_app, app_assoc, Hf. by rewrite app_nil_r.
  - right. exists bs, i, n, []. split; [done|]. split; [constructor|]. by rewrite frees_app.
Qed.
Lemma all_used_flags bs : Forall (λ x, b_used x = true) bs → b_used <$> bs = replicate (length bs) true.
Proof. induction 1 as [|x bs Hx _ IH]; [done|]. cbn [fmap list_fmap length replicate]. by rewrite Hx, <- IH. Qed.
Lemma no_pair_trues n l : no_pair (replicate n true ++ l) ↔ no_pair l.
Proof.
  induction n as [|n IH]; [done|]. cbn [replicate app]. rewrite <- IH.
  split; [apply no_pair_cons|]. intros H. destruct (replicate n true ++ l); [done|]. split; [by left|done].
Qed.

(** *** Freeing a block *)

(** A block changes from free to used or back; the list is given. *)
Lemma retag_inv h h' bs1 i n u v bs2 :
  heap_inv h (bs1 ++ mkB i n u :: bs2) → same_extent h h' → ch_next_segment h' = ch_next_segment h →
  ch_segmap h' = ch_segmap h → ch_freelist_segments h' = free_total (bs1 ++ mkB i n v :: bs2) →
  (∀ j, j ≠ i → fb_length (hd h' j) = fb_length (hd h j) ∧ fb_used (hd h' j) = fb_used (hd h j)) →
  fb_length (hd h' i) = n → fb_used (hd h' i) = v →
  chain h' (ch_freelist h') (frees (bs1 ++ mkB i n v :: bs2)) →
  heap_inv h' (bs1 ++ mkB i n v :: bs2).
Proof.
  intros Hinv He Hnx Hmp Htot Hhd Hli Hui Hch. destruct (inv_block _ _ _ _ _ _ Hinv) as [Hr _ _ Ht1 Ht2].
  destruct Hinv as [G Ht Hn Hh Hm Htop _ _].
  assert (∀ bs, Forall (λ x, b_start x ≠ i) bs → Forall (header_ok h) bs → Forall (header_ok h') bs) as Hfr.
  { intros bs Hne. rewrite !Forall_forall in *. intros Ho x Hx. unfold header_ok.
    destruct (Hhd (b_start x) (Hne x Hx)) as [-> ->]. by apply Ho. }
  assert (Forall (λ x, b_start x ≠ i) bs1 ∧ Forall (λ x, b_start x ≠ i) bs2) as [Hne1 Hne2].
  { split; apply Forall_forall; intros x Hx.
    - pose proof (tiles_elem _ _ _ _ Ht1 Hx). lia.
    - pose proof (tiles_elem _ _ _ _ Ht2 Hx). lia. }
  apply Forall_app in Hh as [Hh1 [_ Hh2]%Forall_cons]. apply Forall_app in Hm as [Hm1 [Hmi Hm2]%Forall_cons].
  split; [by eapply same_extent_geometry| | | | | |done|done].
  - rewrite Hnx. apply tiles_app. exists i. split; [done|]. cbn. split_and!; [done|lia|done].
  - rewrite Hnx, (se_committed_segments _ _ He). done.
  - apply Forall_app. split; [by apply Hfr|]. constructor; [by split|by apply Hfr].
  - rewrite Hmp. apply Forall_app. split; [done|]. by constructor.
  - rewrite Hnx, Hmp, (se_committed_segments _ _ He). done.
Qed.

Lemma tiles_length b bs e : tiles b bs e → Z.of_nat (length bs) ≤ e - b.
Proof.
  revert b. induction bs as [|x bs IH]; intros b; cbn [tiles length]; [lia|]. intros (_ & ? & Ht). specialize (IH _ Ht). lia.
Qed.
Lemma frees_length bs : (length (frees bs) ≤ length bs)%nat.
Proof. unfold frees. rewrite length_fmap. apply length_filter. Qed.

(** The scan stops at the place of the block. *)
Lemma scan_spec h i fs1 fs2 prev cur fuel :
  geometry h → chain h cur (fs1 ++ fs2) → (∀ j, j ∈ fs1 ++ fs2 → 0 ≤ j < ch_number_of_committed_segments h) →
  (∀ j, j ∈ fs1 → j < i) → (∀ j, j ∈ fs2 → i < j) → (length fs1 < fuel)%nat →
  ∃ cur', scan_freelist fuel (addr h i) prev cur h
    = Some (match last fs1 with Some k => addr h k | None => prev end, cur', h).
Proof.
  intros G. revert prev cur fuel. induction fs1 as [|j fs1 IH]; intros prev cur fuel Hc Hr H1 H2 Hf; destruct fuel as [|fuel];
    [simpl in Hf; lia| |simpl in Hf; lia|]; cbn [scan_freelist].
  - exists cur. destruct fs2 as [|k fs2]; cbn [chain app] in Hc; [by rewrite Hc|]. destruct Hc as [-> _].
    rewrite (proj2 (Z.ltb_ge _ _)); [by rewrite andb_false_r|]. pose proof (addr_lt h G k i). assert (i < k) by (apply H2; left). lia.
  - cbn [chain app] in Hc. destruct Hc as [-> Hc]. assert (0 ≤ j < ch_number_of_committed_segments h) as Hj by (apply Hr; left).
    rewrite (proj2 (Z.eqb_neq _ _) (addr_not_null h G j ltac:(lia))). rewrite (proj2 (Z.ltb_lt _ _)) by (apply (addr_lt h G), H1; left).
    cbn [negb andb]. rewrite (M_bind_Some _ _ _ _ _ (link_step h G _ j eq_refl Hj)).
    destruct (IH (addr h j) _ fuel Hc) as (cur' & E); [intros k Hk; apply Hr; by right|intros k Hk; apply H1; by right|done|simpl in Hf; lia|].
    exists cur'. rewrite E, last_cons. by destruct (last fs1).
Qed.

(** The result of freeing: the blocks around it merged, all other used blocks kept. *)
Definition freed (h h' : CodeHeap) (bs1 bs2 : list Block) : Prop :=
  ∃ bs', heap_inv h' bs' ∧ same_extent h h' ∧ ch_next_segment h' = ch_next_segment h ∧
    used_blocks bs' = used_blocks bs1 ++ used_blocks bs2 ∧
    (∀ i n, merged (bs1 ++ mkB i n true :: bs2) → merged bs').

Lemma used_blocks_app bs1 bs2 : used_blocks (bs1 ++ bs2) = used_blocks bs1 ++ used_blocks bs2.
Proof. apply filter_app. Qed.
Lemma merged_split bs1 i n bs2 : merged (bs1 ++ mkB i n true :: bs2) → merged bs1 ∧ merged bs2.
Proof. unfold merged. rewrite fmap_app, fmap_cons. by intros ?%no_pair_used. Qed.

(** Nothing free in front of the block: only the blocks behind it matter. *)
Lemma freed_first h h1 a bs1 i n bs2 :
  Forall (λ x, b_used x = true) bs1 → heap_inv h1 (bs1 ++ mkB i n false :: bs2) → same_extent h h1 →
  ch_next_segment h1 = ch_next_segment h → a = addr h1 i →
  ∃ h', merge_right a h1 = Some (tt, h') ∧ freed h h' bs1 bs2.
Proof.
  intros Hu Hinv He Hn Ha. destruct (merge_right_spec h1 a bs1 i n bs2 Hinv Ha) as (h' & E & Hinv' & He' & Hn').
  exists h'. split; [done|]. destruct (merge_next_shape (mkB i n false) bs2 eq_refl) as (y & bs' & Hs & _ & Hy & Hub & Hm).
  rewrite Hs in Hinv'. eexists. split; [exact Hinv'|]. split; [by eapply same_extent_trans|]. split; [congruence|].
  rewrite used_blocks_app, Hub. split; [done|]. intros i' n' [_ Hm2]%merged_split. unfold merged.
  rewrite fmap_app, (all_used_flags bs1 Hu). apply no_pair_trues. by apply Hm.
Qed.

(** A free block in front: the last one, with only used blocks in between, may be
    merged as well. *)
Lemma freed_after h h1 a b c1 k m c2 i n bs2 :
  Forall (λ x, b_used x = true) c2 → heap_inv h1 ((c1 ++ mkB k m false :: c2) ++ mkB i n false :: bs2) → same_extent h h1 →
  ch_next_segment h1 = ch_next_segment h → b = addr h1 i → a = addr h1 k →
  ∃ h', (merge_right b ;; merge_right a) h1 = Some (tt, h') ∧ freed h h' (c1 ++ mkB k m false :: c2) bs2.
Proof.
  intros Hu Hinv He Hn Hb Ha. destruct (merge_right_spec h1 b _ i n bs2 Hinv Hb) as (h2 & E & Hinv2 & He2 & Hn2).
  rewrite (M_bind_Some _ _ _ _ _ E). destruct (merge_next_shape (mkB i n false) bs2 eq_refl) as (y & bs' & Hs & _ & Hy & Hub & Hm).
  rewrite Hs, <- app_assoc in Hinv2. cbn [app] in Hinv2.
  destruct (merge_right_spec h2 a c1 k m _ Hinv2) as (h3 & E3 & Hinv3 & He3 & Hn3);
    [by rewrite (same_extent_addr h1 h2)|].
  exists h3. split; [done|]. assert (same_extent h h3) as Hext by eauto with heap.
  assert (∀ l, used_blocks (mkB k m false :: l) = used_blocks l) as Hk by (intros l; by apply filter_cons_False).
  eexists. split; [exact Hinv3|]. split; [done|]. split; [congruence|].
  destruct c2 as [|x c2]; cbn [app merge_next] in *.
  - rewrite Hy. split.
    + rewrite !used_blocks_app, Hk. change (used_blocks (mkB k m false :: [])) with (@nil Block). rewrite app_nil_r, <- Hub. f_equal.
      unfold used_blocks. rewrite !filter_cons_False; [done|by rewrite Hy|done].
    + intros i' n' [Hm1 Hm2%Hm]%merged_split. unfold merged in *. rewrite fmap_app, fmap_cons in *. cbn [b_used] in *.
      rewrite Hy in Hm2. apply no_pair_glue; [exact Hm1|exact Hm2].
  - apply Forall_cons in Hu as [Hx Hu]. rewrite Hx. split.
    + rewrite !used_blocks_app, !Hk. change (x :: c2 ++ y :: bs') with ((x :: c2) ++ y :: bs').
      rewrite used_blocks_app, Hub. by rewrite app_assoc.
    + intros i' n' [Hm1 Hm2%Hm]%merged_split. unfold merged in *. rewrite !fmap_app, !fmap_cons in *. cbn [b_used] in *.
      rewrite fmap_app, fmap_cons in *. rewrite Hx in *.
      change (false :: true :: ?l) with ([false] ++ true :: l). rewrite app_assoc. apply no_pair_used.
      split; [by apply (no_pair_prefix _ (true :: (b_used <$> c2))); rewrite <- app_assoc|].
      rewrite (all_used_flags c2 Hu). by apply no_pair_trues.
Qed.

Lemma frees_range h bs : heap_inv h bs → ∀ j, j ∈ frees bs → 0 ≤ j < ch_number_of_committed_segments h.
Proof. intros Hinv j Hj. apply (frees_elem _ _ _ _ (hi_tiles _ _ Hinv)) in Hj. pose proof (hi_next _ _ Hinv). lia. Qed.

(** The block is marked as free and not yet in the list. *)
Record detached (h h1 : CodeHeap) (bs1 : list Block) (i n : Z) (bs2 : list Block) : Prop := {
  de_inv : heap_inv h (bs1 ++ mkB i n true :: bs2);
  de_extent : same_extent h h1;
  de_next : ch_next_segment h1 = ch_next_segment h;
  de_map : ch_segmap h1 = ch_segmap h;
  de_total : ch_freelist_segments h1 = ch_freelist_segments h + n;
  de_other j : j ≠ i → hd h1 j = hd h j;
  de_length : fb_length (hd h1 i) = n;
  de_used : fb_used (hd h1 i) = false;
  de_chain : chain h1 (ch_freelist h1) (frees bs1 ++ frees bs2)
}.

Lemma mark_detached h bs1 i n bs2 :
  heap_inv h (bs1 ++ mkB i n true :: bs2) →
  ∃ h1, add_to_freelist (addr h i) h = link_free_block (addr h1 i) h1 ∧ detached h h1 bs1 i n bs2.
Proof.
  intros Hinv. destruct (inv_block _ _ _ _ _ _ Hinv) as [Hr Hl Hu Ht1 Ht2]. pose proof (hi_geometry _ _ Hinv) as G.
  pose proof (hi_chain _ _ Hinv) as Hc. rewrite frees_app, frees_used in Hc. pose proof (hi_total _ _ Hinv) as Htot.
  pose proof (segments_bound h G). pose proof (g_segments h G). pose proof (free_total_range _ _ _ (hi_tiles _ _ Hinv)) as Hft.
  unfold add_to_freelist. rewrite (M_bind_Some _ _ _ _ _ (length_step h G _ i eq_refl ltac:(lia))). rewrite Hl.
  erewrite M_bind_Some by reflexivity. cbn beta. rewrite (wrapU_id 64) by (unfold in_u; lia).
  set (h0 := set_freelist (ch_freelist h) (ch_freelist_segments h + n) h).
  assert (geometry h0) as G0 by (eapply same_extent_geometry; [apply set_freelist_extent|done]).
  rewrite (M_bind_Some _ _ _ _ _ (set_free_step h0 G0 _ i eq_refl ltac:(cbn; lia))).
  change (hd h0 i) with (hd h i). rewrite Hl. set (h1 := hd_set i _ h0).
  assert (same_extent h h1) as He1 by (apply (same_extent_trans _ h0); [apply set_freelist_extent|apply hd_set_extent]).
  assert (∀ j, hd h1 j = if decide (j = i) then mkBlock n false (fb_link (hd h i)) else hd h j) as Hhd1 by (intros j; by apply (hd_hd_set h0 G0)).
  exists h1. split; [done|]. split; try done.
  - intros j Hj. by rewrite Hhd1, decide_False.
  - by rewrite Hhd1, decide_True.
  - by rewrite Hhd1, decide_True.
  - apply (chain_ext h h1); [done| |done]. intros j Hj. rewrite Hhd1, decide_False; [done|].
    apply elem_of_app in Hj as [Hj|Hj]; [apply (frees_elem _ _ _ _ Ht1) in Hj|apply (frees_elem _ _ _ _ Ht2) in Hj]; lia.
Qed.

(** Changing links only, and the head of the list, to link the block. *)
Lemma detached_link h h1 h2 bs1 i n bs2 :
  detached h h1 bs1 i n bs2 → same_extent h1 h2 → ch_next_segment h2 = ch_next_segment h1 → ch_segmap h2 = ch_segmap h1 →
  ch_freelist_segments h2 = ch_freelist_segments h1 →
  (∀ j, fb_length (hd h2 j) = fb_length (hd h1 j) ∧ fb_used (hd h2 j) = fb_used (hd h1 j)) →
  chain h2 (ch_freelist h2) (frees bs1 ++ i :: frees bs2) →
  heap_inv h2 (bs1 ++ mkB i n false :: bs2) ∧ same_extent h h2 ∧ ch_next_segment h2 = ch_next_segment h.
Proof.
  intros [Hinv He Hn Hm Ht Ho Hl Hu _] He2 Hn2 Hm2 Ht2 Hhd Hc. destruct (Hhd i) as [Hl2 Hu2].
  assert (same_extent h h2) as He' by eauto with heap. split; [|split; [done|congruence]].
  eapply (retag_inv h h2 bs1 i n true false bs2); try done; [congruence..| | |congruence|congruence|by rewrite frees_app, frees_free].
  - rewrite Ht2, Ht, (hi_total _ _ Hinv), !free_total_app, free_total_free, free_total_used. lia.
  - intros j Hj. destruct (Hhd j) as [-> ->]. by rewrite Ho.
Qed.

Lemma detached_range h h1 bs1 i n bs2 :
  detached h h1 bs1 i n bs2 →
  geometry h1 ∧ 0 ≤ i < ch_number_of_committed_segments h1 ∧ tiles 0 bs1 i ∧
  (∀ j, j ∈ frees bs1 → j < i) ∧ (∀ j, j ∈ frees bs2 → i < j) ∧
  (∀ j, j ∈ frees bs1 ++ frees bs2 → 0 ≤ j < ch_number_of_committed_segments h1) ∧ i ≤ ch_next_segment h1.
Proof.
  intros [Hinv He Hn _ _ _ _ _ _]. destruct (inv_block _ _ _ _ _ _ Hinv) as [Hr Hl Hu Ht1 Ht2].
  pose proof (hi_geometry _ _ Hinv). pose proof (se_committed_segments _ _ He) as Hcs. rewrite Hcs, Hn.
  split; [by eapply same_extent_geometry|]. split; [lia|]. split; [done|].
  split; [intros j Hj; apply (frees_elem _ _ _ _ Ht1) in Hj; lia|].
  split; [intros j Hj; apply (frees_elem _ _ _ _ Ht2) in Hj; lia|]. split; [|lia].
  intros j [Hj|Hj]%elem_of_app; [apply (frees_elem _ _ _ _ Ht1) in Hj|apply (frees_elem _ _ _ _ Ht2) in Hj]; lia.
Qed.

(** The first free block. *)
Lemma link_only h h1 bs1 i n bs2 :
  detached h h1 bs1 i n bs2 → ch_freelist h1 = 0 →
  ∃ h', link_free_block (addr h1 i) h1 = Some (tt, h') ∧ freed h h' bs1 bs2.
Proof.
  intros Hd Hz. destruct (detached_range _ _ _ _ _ _ Hd) as (G1 & Hi & _ & _ & _ & Hfr & _). pose proof (de_chain _ _ _ _ _ _ Hd) as Hc.
  unfold link_free_block. rewrite M_bind_get, Hz. cbn [Z.eqb]. erewrite M_bind_Some by reflexivity.
  set (h0 := set_freelist (addr h1 i) (ch_freelist_segments h1) h1).
  assert (geometry h0) as G0 by (eapply same_extent_geometry; [apply set_freelist_extent|done]).
  rewrite (set_link_step h0 G0 _ i eq_refl Hi). set (h2 := hd_set i _ h0).
  assert (frees bs1 = [] ∧ frees bs2 = []) as [Hf1 Hf2].
  { apply app_nil. destruct (frees bs1 ++ frees bs2) as [|j fs]; [done|]. destruct Hc as [Hc _].
    exfalso. apply (addr_not_null h1 G1 j); [|congruence]. apply Hfr. left. }
  assert (∀ j, hd h2 j = if decide (j = i) then mkBlock (fb_length (hd h1 i)) (fb_used (hd h1 i)) 0 else hd h1 j) as Hhd
    by (intros j; by apply (hd_hd_set h0 G0)).
  destruct (detached_link h h1 h2 bs1 i n bs2 Hd) as (Hinv & He & Hn); try done.
  { intros j. rewrite Hhd. case_decide; by subst. }
  { rewrite Hf1, Hf2. cbn. split; [done|]. by rewrite Hhd, decide_True. }
  exists h2. split; [done|]. eexists. split; [exact Hinv|]. split; [done|]. split; [done|].
  split; [rewrite used_blocks_app; unfold used_blocks; by rewrite filter_cons_False|].
  intros i' n' _. unfold merged. rewrite fmap_app, fmap_cons.
  assert (∀ bs, frees bs = [] → Forall (λ x, b_used x = true) bs) as Hall.
  { intros bs Hf. destruct (last_free bs) as [[_ ?]|(c1 & k & m & c2 & _ & _ & Hf')]; [done|]. rewrite Hf in Hf'. symmetry in Hf'. by apply app_nil in Hf' as [_ ?]. }
  rewrite (all_used_flags bs1), (all_used_flags bs2) by (by apply Hall). apply no_pair_trues.
  destruct (length bs2) as [|l]; [done|]. split; [by right|]. change (true :: replicate l true) with (replicate (S l) true).
  rewrite <- (app_nil_r (replicate _ _)). by apply no_pair_trues.
Qed.

(** In front of all free blocks. *)
Lemma link_first h h1 bs1 i n bs2 :
  detached h h1 bs1 i n bs2 → ch_freelist h1 ≠ 0 → frees bs1 = [] → Forall (λ x, b_used x = true) bs1 →
  ∃ h', link_free_block (addr h1 i) h1 = Some (tt, h') ∧ freed h h' bs1 bs2.
Proof.
  intros Hd Hz Hf1 Hu. destruct (detached_range _ _ _ _ _ _ Hd) as (G1 & Hi & _ & H1 & H2 & Hfr & _). pose proof (de_chain _ _ _ _ _ _ Hd) as Hc.
  unfold link_free_block. rewrite M_bind_get, (proj2 (Z.eqb_neq _ _) Hz).
  destruct (scan_spec h1 i (frees bs1) (frees bs2) 0 (ch_freelist h1) (list_fuel h1) G1 Hc Hfr H1 H2) as (cur & E);
    [rewrite Hf1; unfold list_fuel; simpl; lia|]. rewrite (M_bind_Some _ _ _ _ _ E). rewrite Hf1. cbn [last Z.eqb].
  rewrite (M_bind_Some _ _ _ _ _ (set_link_step h1 G1 _ i eq_refl Hi _)). set (h2 := hd_set i _ h1).
  erewrite M_bind_Some by reflexivity. set (h3 := set_freelist (addr h1 i) (ch_freelist_segments h2) h2).
  assert (∀ j, hd h3 j = if decide (j = i) then mkBlock (fb_length (hd h1 i)) (fb_used (hd h1 i)) (ch_freelist h1) else hd h1 j) as Hhd
    by (intros j; change (hd h3 j) with (hd h2 j); by apply (hd_hd_set h1 G1)).
  destruct (detached_link h h1 h3 bs1 i n bs2 Hd) as (Hinv & He & Hn); try done.
  { intros j. rewrite Hhd. case_decide; by subst. }
  { rewrite Hf1. cbn [app chain]. split; [done|]. rewrite Hhd, decide_True by done. cbn [fb_link]. rewrite Hf1 in Hc.
    apply (chain_ext h1 h3); [done| |done]. intros j Hj. rewrite Hhd, decide_False; [done|]. apply H2 in Hj. lia. }
  eapply freed_first; done.
Qed.

(** After another free block. *)
Lemma link_after h h1 c1 k m c2 i n bs2 :
  detached h h1 (c1 ++ mkB k m false :: c2) i n bs2 → ch_freelist h1 ≠ 0 → frees (c1 ++ mkB k m false :: c2) = frees c1 ++ [k] →
  Forall (λ x, b_used x = true) c2 →
  ∃ h', link_free_block (addr h1 i) h1 = Some (tt, h') ∧ freed h h' (c1 ++ mkB k m false :: c2) bs2.
Proof.
  intros Hd Hz Hf1 Hu. destruct (detached_range _ _ _ _ _ _ Hd) as (G1 & Hi & Ht1 & H1 & H2 & Hfr & Hin). pose proof (de_chain _ _ _ _ _ _ Hd) as Hc.
  set (bs1 := c1 ++ mkB k m false :: c2) in *.
  assert (k < i) as Hki by (apply H1; rewrite Hf1; set_solver).
  assert (0 ≤ k < ch_number_of_committed_segments h1) as Hk by (apply Hfr; rewrite Hf1; set_solver).
  assert (∀ j, j ∈ frees c1 → j < k) as Hc1.
  { intros j Hj. apply tiles_app in Ht1 as (e & Ht & Hke & _). cbn in Hke. subst e. apply (frees_elem _ _ _ _ Ht) in Hj. lia. }
  unfold link_free_block. rewrite M_bind_get, (proj2 (Z.eqb_neq _ _) Hz).
  destruct (scan_spec h1 i (frees bs1) (frees bs2) 0 (ch_freelist h1) (list_fuel h1) G1 Hc Hfr H1 H2) as (cur & E).
  { pose proof (tiles_length _ _ _ Ht1). pose proof (frees_length bs1). unfold list_fuel. lia. }
  rewrite (M_bind_Some _ _ _ _ _ E). rewrite Hf1, last_snoc. rewrite (proj2 (Z.eqb_neq _ _) (addr_not_null h1 G1 k ltac:(lia))).
  unfold insert_after. rewrite (M_bind_Some _ _ _ _ _ (link_step h1 G1 _ k eq_refl Hk)).
  rewrite (M_bind_Some _ _ _ _ _ (set_link_step h1 G1 _ i eq_refl Hi _)). set (h2 := hd_set i _ h1).
  assert (geometry h2) as G2 by (eapply same_extent_geometry; [apply hd_set_extent|done]).
  rewrite (M_bind_Some _ _ _ _ _ (set_link_step h2 G2 _ k eq_refl Hk _)). set (h3 := hd_set k _ h2).
  assert (∀ j, hd h2 j = if decide (j = i) then mkBlock (fb_length (hd h1 i)) (fb_used (hd h1 i)) (fb_link (hd h1 k)) else hd h1 j) as Hhd2
    by (intros j; by apply (hd_hd_set h1 G1)).
  assert (∀ j, hd h3 j = if decide (j = k) then mkBlock (fb_length (hd h2 k)) (fb_used (hd h2 k)) (addr h1 i) else hd h2 j) as Hhd3
    by (intros j; by apply (hd_hd_set h2 G2)).
  assert (same_extent h1 h3) as He13 by (apply (same_extent_trans _ h2); apply hd_set_extent).
  destruct (detached_link h h1 h3 bs1 i n bs2 Hd) as (Hinv & He & Hn); try done.
  { intros j. rewrite Hhd3. case_decide; subst; rewrite Hhd2; case_decide; subst; done. }
  { rewrite Hf1, <- app_assoc in Hc |- *. cbn [app] in Hc |- *. change (ch_freelist h3) with (ch_freelist h1).
    apply (chain_exchange h1 h3 _ (frees c1) k (frees bs2)); [done| |done|].
    - intros j Hj%Hc1. rewrite Hhd3, decide_False, Hhd2, decide_False by lia. done.
    - rewrite Hhd3, decide_True by done. cbn [fb_link chain]. split; [by rewrite (same_extent_addr h1 h3)|].
      rewrite Hhd3, decide_False, Hhd2, decide_True by lia. cbn [fb_link].
      apply (chain_ext h1 h3); [done| |by eapply chain_link]. intros j Hj%H2. rewrite Hhd3, decide_False, Hhd2, decide_False by lia. done. }
  by eapply freed_after.
Qed.

Lemma add_to_freelist_spec h bs1 i n bs2 :
  heap_inv h (bs1 ++ mkB i n true :: bs2) → ∃ h', add_to_freelist (addr h i) h = Some (tt, h') ∧ freed h h' bs1 bs2.
Proof.
  intros Hinv. destruct (mark_detached h bs1 i n bs2 Hinv) as (h1 & -> & Hd).
  destruct (decide (ch_freelist h1 = 0)) as [Hz|Hz]; [by eapply link_only|].
  destruct (last_free bs1) as [[Hf Hu]|(c1 & k & m & c2 & -> & Hu & Hf)]; [by eapply link_first|by eapply link_after].
Qed.

(** *** Taking a block from the free list *)

Definition last_addr (h : CodeHeap) (fs : list Z) : Z := match last fs with Some k => addr h k | None => 0 end.

(** The best block so far. *)
Definition best_ok (h : CodeHeap) (fs : list Z) (length best_block best_prev best_length : Z) : Prop :=
  best_block = 0 ∨
  ∃ fa k fb, fs = fa ++ k :: fb ∧ best_block = addr h k ∧ best_prev = last_addr h fa ∧
    best_length = fb_length (hd h k) ∧ length ≤ best_length.
Definition best_fit (h : CodeHeap) (fs : list Z) (length best_block best_length : Z) : Prop :=
  ∀ j, j ∈ fs → length ≤ fb_length (hd h j) → best_block ≠ 0 ∧ best_length ≤ fb_length (hd h j).

Section search.
Context (CodeCacheMinBlockLength CodeCacheMinimumFreeSpace : Z).
Local Abbreviation search_loop := (search_loop CodeCacheMinimumFreeSpace).

Lemma search_freelist_loop_spec h fuel length crit fs0 fs cur bb bp bl :
  geometry h → chain h cur fs → (∀ j, j ∈ fs → 0 ≤ j < ch_number_of_committed_segments h) → (List.length fs < fuel)%nat →
  best_ok h (fs0 ++ fs) length bb bp bl → (crit = true → best_fit h fs0 length bb bl) →
  ∃ bb' bp' bl', search_loop fuel length crit (last_addr h fs0) cur bb bp bl h = Some (bb', bp', bl', h) ∧
    best_ok h (fs0 ++ fs) length bb' bp' bl' ∧ (crit = true → best_fit h (fs0 ++ fs) length bb' bl').
Proof.
  intros G. revert fs0 fs cur bb bp bl. induction fuel as [|fuel IH]; intros fs0 fs cur bb bp bl Hc Hr Hf Hb Hfit; [lia|].
  cbn [CodeHeap.search_loop]. destruct fs as [|j fs]; cbn [chain] in Hc.
  { subst cur. rewrite app_nil_r in *. by exists bb, bp, bl. }
  destruct Hc as [-> Hc]. assert (0 ≤ j < ch_number_of_committed_segments h) as Hj by (apply Hr; left).
  rewrite (proj2 (Z.eqb_neq _ _) (addr_not_null h G j ltac:(lia))).
  rewrite (M_bind_Some _ _ _ _ _ (length_step h G _ j eq_refl Hj)), M_bind_get.
  assert (∀ k, k ∈ fs → 0 ≤ k < ch_number_of_committed_segments h) as Hr' by (intros k Hk; apply Hr; by right).
  assert (last_addr h (fs0 ++ [j]) = addr h j) as Hlast by (unfold last_addr; by rewrite last_snoc).
  assert (fs0 ++ j :: fs = (fs0 ++ [j]) ++ fs) as Hassoc by (by rewrite <- app_assoc).
  simpl in Hf. set (l := fb_length (hd h j)). destruct (Z.leb_spec length l) as [Hlen|Hlen]; cbn [andb].
  - destruct ((bb =? 0) || (l <? bl)) eqn:Hbetter.
    + destruct (negb crit && _) eqn:Hbreak.
      { exists bb, bp, bl. split; [done|]. split; [done|]. intros ->. done. }
      rewrite (M_bind_Some _ _ _ _ _ (link_step h G _ j eq_refl Hj)). rewrite Hassoc, <- Hlast.
      apply IH; [done|done|lia| |].
      * right. exists fs0, j, fs. rewrite Hlast. by split_and!.
      * intros Hcr k [Hk| ->%list_elem_of_singleton]%elem_of_app Hkl; rewrite Hlast; (split; [apply (addr_not_null h G); lia|]); [|done].
        destruct (Hfit Hcr k Hk Hkl) as [Hnz Hle]. apply orb_true_iff in Hbetter as [?%Z.eqb_eq|?%Z.ltb_lt]; [done|lia].
    + rewrite (M_bind_Some _ _ _ _ _ (link_step h G _ j eq_refl Hj)). rewrite Hassoc in *. rewrite <- Hlast.
      apply IH; [done|done|lia|done|]. apply orb_false_iff in Hbetter as [?%Z.eqb_neq ?%Z.ltb_ge].
      intros Hcr k [Hk| ->%list_elem_of_singleton]%elem_of_app Hkl; [by apply Hfit|by split].
  - rewrite (M_bind_Some _ _ _ _ _ (link_step h G _ j eq_refl Hj)). rewrite Hassoc in *. rewrite <- Hlast.
    apply IH; [done|done|lia|done|].
    intros Hcr k [Hk| ->%list_elem_of_singleton]%elem_of_app Hkl; [by apply Hfit|]. fold l in Hkl. lia.
Qed.
End search.

Lemma frees_split bs fa k fb :
  frees bs = fa ++ k :: fb → ∃ bs1 m bs2, bs = bs1 ++ mkB k m false :: bs2 ∧ frees bs1 = fa ∧ frees bs2 = fb.
Proof.
  revert fa. induction bs as [|[i n u] bs IH]; intros fa Hf; [by destruct fa|]. destruct u.
  - rewrite frees_used in Hf. destruct (IH fa Hf) as (bs1 & m & bs2 & -> & <- & <-). exists (mkB i n true :: bs1), m, bs2.
    by rewrite frees_used.
  - rewrite frees_free in Hf. destruct fa as [|j fa]; injection Hf as -> Hf.
    + exists [], n, bs. done.
    + destruct (IH fa Hf) as (bs1 & m & bs2 & -> & <- & <-). exists (mkB j n false :: bs1), m, bs2. by rewrite frees_free.
Qed.

(** A new used block in the heap. *)
Definition allocated_at (h h' : CodeHeap) (bs : list Block) (i n : Z) : Prop :=
  ∃ bs' l1 l2, heap_inv h' bs' ∧ same_extent h h' ∧ used_blocks bs = l1 ++ l2 ∧ used_blocks bs' = l1 ++ mkB i n true :: l2 ∧
    (merged bs → merged bs').

(** The whole free block is taken. *)
Lemma take_inv h h' bs1 k m bs2 :
  heap_inv h (bs1 ++ mkB k m false :: bs2) → same_extent h h' → ch_next_segment h' = ch_next_segment h →
  ch_segmap h' = ch_segmap h → ch_freelist_segments h' = ch_freelist_segments h - m →
  (∀ j, j ≠ k → fb_length (hd h' j) = fb_length (hd h j) ∧ fb_used (hd h' j) = fb_used (hd h j)) →
  fb_length (hd h' k) = m → fb_used (hd h' k) = true → chain h' (ch_freelist h') (frees bs1 ++ frees bs2) →
  allocated_at h h' (bs1 ++ mkB k m false :: bs2) k m.
Proof.
  intros Hinv He Hnx Hmp Htot Hhd Hli Hui Hch.
  exists (bs1 ++ mkB k m true :: bs2), (used_blocks bs1), (used_blocks bs2).
  split; [|split; [done|split; [|split]]].
  - eapply (retag_inv h h' bs1 k m false true bs2); try done; [|by rewrite frees_app, frees_used].
    rewrite Htot, (hi_total _ _ Hinv), !free_total_app, free_total_free, free_total_used. lia.
  - rewrite used_blocks_app. unfold used_blocks. by rewrite filter_cons_False.
  - rewrite used_blocks_app. unfold used_blocks. by rewrite filter_cons_True.
  - unfold merged. rewrite !fmap_app, !fmap_cons. cbn [b_used]. intros Hp. apply no_pair_used. split; [by eapply no_pair_prefix|].
    by apply (no_pair_suffix ((b_used <$> bs1) ++ [false])); rewrite <- app_assoc.
Qed.

(** The end of the free block is taken. *)
Lemma split_inv h h' bs1 k m len bs2 :
  heap_inv h (bs1 ++ mkB k m false :: bs2) → 0 < len < m → same_extent h h' → ch_next_segment h' = ch_next_segment h →
  marked (ch_segmap h) (ch_segmap h') (k + (m - len)) len entry_ok → ch_freelist h' = ch_freelist h →
  ch_freelist_segments h' = ch_freelist_segments h - len →
  (∀ j, j ≠ k → j ≠ k + (m - len) → hd h' j = hd h j) →
  hd h' k = mkBlock (m - len) false (fb_link (hd h k)) →
  fb_length (hd h' (k + (m - len))) = len → fb_used (hd h' (k + (m - len))) = true →
  allocated_at h h' (bs1 ++ mkB k m false :: bs2) (k + (m - len)) len.
Proof.
  intros Hinv Hlen He Hnx (Hz & Hin & Hout) Hfl Htot Hhd Hk Hl Hu. destruct (inv_block _ _ _ _ _ _ Hinv) as [Hr _ _ Ht1 Ht2].
  destruct Hinv as [G Ht Hn Hh Hm Htop Hc Htot0]. set (e := k + (m - len)) in *.
  apply Forall_app in Hh as [Hh1 [_ Hh2]%Forall_cons]. apply Forall_app in Hm as [Hm1 [Hmk Hm2]%Forall_cons].
  exists (bs1 ++ mkB k (m - len) false :: mkB e len true :: bs2), (used_blocks bs1), (used_blocks bs2).
  split; [|split; [done|split; [|split]]].
  - split.
    + by eapply same_extent_geometry.
    + rewrite Hnx. apply tiles_app. exists k. split; [done|]. cbn. split_and!; [done|lia|done|lia|].
      by replace (k + (m - len) + len) with (k + m) by lia.
    + rewrite Hnx, (se_committed_segments _ _ He). done.
    + apply Forall_app. split; [eapply headers_frame; [exact Ht1| |done]; intros j Hj; apply Hhd; lia|].
      constructor; [unfold header_ok; cbn [b_start b_len b_used]; by rewrite Hk|]. constructor; [by split|].
      eapply headers_frame; [exact Ht2| |done]. intros j Hj. apply Hhd; lia.
    + apply Forall_app. split; [eapply map_frame; [exact Ht1| |done]; intros j Hj; apply Hout; lia|].
      constructor; [|constructor; [|eapply map_frame; [exact Ht2| |done]; intros j Hj; apply Hout; lia]].
      * intros j Hj. cbn [b_start b_len] in *. destruct (Hmk j) as (v & Hv & Hev); [cbn; lia|]. exists v.
        split; [|done]. rewrite Hout by lia. done.
      * intros j Hj. cbn [b_start b_len] in *. destruct (Hin (e + j)) as (v & Hv & Hev); [lia|]. exists v.
        split; [done|]. by replace (e + j - e) with j in Hev by lia.
    + intros j Hj. rewrite (se_committed_segments _ _ He), Hnx in Hj. rewrite Hout by lia. by apply Htop.
    + rewrite frees_app, frees_free, frees_used. rewrite frees_app, frees_free in Hc. rewrite Hfl.
      apply (chain_ext h h'); [done| |done]. intros j [Hj|[->|Hj]%elem_of_cons]%elem_of_app; [|by rewrite Hk|].
      * apply (frees_elem _ _ _ _ Ht1) in Hj. by rewrite Hhd by lia.
      * apply (frees_elem _ _ _ _ Ht2) in Hj. by rewrite Hhd by lia.
    + rewrite Htot, Htot0, !free_total_app, !free_total_free, free_total_used. lia.
  - rewrite used_blocks_app. unfold used_blocks. by rewrite filter_cons_False.
  - rewrite used_blocks_app. unfold used_blocks. by rewrite filter_cons_False, filter_cons_True.
  - unfold merged. rewrite !fmap_app, !fmap_cons. cbn [b_used]. intros Hp. change (false :: true :: ?l) with ([false] ++ true :: l).
    rewrite app_assoc. apply no_pair_used. split; [by apply (no_pair_prefix _ (b_used <$> bs2)); rewrite <- app_assoc|].
    by apply (no_pair_suffix ((b_used <$> bs1) ++ [false])); rewrite <- app_assoc.
Qed.

Section taking.
Context (CodeCacheMinBlockLength CodeCacheMinimumFreeSpace : Z) (Hmin : 1 ≤ CodeCacheMinBlockLength < 2 ^ 32).
Local Abbreviation search_freelist := (search_freelist CodeCacheMinBlockLength CodeCacheMinimumFreeSpace).

(** The end of [search_freelist] on the block that was found. *)
Lemma finish_take h1 a i n :
  geometry h1 → a = addr h1 i → 0 ≤ i < ch_number_of_committed_segments h1 → n ≤ ch_freelist_segments h1 < 2 ^ 62 → 0 ≤ n →
  ∃ h2, (set_used a ;; hmodify (λ h, set_freelist (ch_freelist h) (u64 (ch_freelist_segments h - n)) h) ;; mret a) h1 = Some (a, h2) ∧
    same_extent h1 h2 ∧ ch_next_segment h2 = ch_next_segment h1 ∧ ch_segmap h2 = ch_segmap h1 ∧ ch_freelist h2 = ch_freelist h1 ∧
    ch_freelist_segments h2 = ch_freelist_segments h1 - n ∧
    ∀ j, hd h2 j = if decide (j = i) then mkBlock (fb_length (hd h1 i)) true (fb_link (hd h1 i)) else hd h1 j.
Proof.
  intros G -> Hi Hn Hn0. rewrite (M_bind_Some _ _ _ _ _ (set_used_step h1 G _ i eq_refl Hi)). set (h2 := hd_set i _ h1).
  erewrite M_bind_Some by reflexivity. cbn beta. eexists. split; [reflexivity|]. split; [by split|].
  split; [done|]. split; [done|]. split; [done|]. split; [cbn; apply wrapU_id; unfold in_u; lia|].
  intros j. change (hd (set_freelist _ _ h2) j) with (hd h2 j). by apply (hd_hd_set h1 G).
Qed.

(** The block is unlinked: the list without it. *)
Lemma unlink_step h bs1 k m bs2 :
  heap_inv h (bs1 ++ mkB k m false :: bs2) →
  ∃ h1, (if last_addr h (frees bs1) =? 0
         then h ← mget; next ← link_ (ch_freelist h); hmodify (λ h, set_freelist next (ch_freelist_segments h) h)
         else next ← link_ (addr h k); set_link (last_addr h (frees bs1)) next) h = Some (tt, h1) ∧
    same_extent h h1 ∧ ch_next_segment h1 = ch_next_segment h ∧ ch_segmap h1 = ch_segmap h ∧
    ch_freelist_segments h1 = ch_freelist_segments h ∧
    (∀ j, fb_length (hd h1 j) = fb_length (hd h j) ∧ fb_used (hd h1 j) = fb_used (hd h j)) ∧
    chain h1 (ch_freelist h1) (frees bs1 ++ frees bs2).
Proof.
  intros Hinv. destruct (inv_block _ _ _ _ _ _ Hinv) as [Hr _ _ Ht1 Ht2]. pose proof (hi_geometry _ _ Hinv) as G.
  pose proof (hi_chain _ _ Hinv) as Hc. rewrite frees_app, frees_free in Hc.
  destruct (last_free bs1) as [[Hf _]|(c1 & p & q & c2 & Hbs & _ & Hf)].
  - rewrite Hf in *. cbn [last_addr last Z.eqb app chain] in *. destruct Hc as [Hfl Hc]. rewrite M_bind_get.
    rewrite (M_bind_Some _ _ _ _ _ (link_step h G _ k Hfl ltac:(lia))). eexists. split; [reflexivity|]. split; [by split|].
    split_and!; try done. apply (chain_ext h); [by split|done|done].
  - assert (p ∈ frees bs1) as Hp by (rewrite Hf; set_solver). apply (frees_elem _ _ _ _ Ht1) in Hp.
    assert (last_addr h (frees bs1) = addr h p) as Hla by (rewrite Hf; unfold last_addr; by rewrite last_snoc).
    rewrite Hla, (proj2 (Z.eqb_neq _ _) (addr_not_null h G p ltac:(lia))).
    rewrite (M_bind_Some _ _ _ _ _ (link_step h G _ k eq_refl ltac:(lia))), (set_link_step h G _ p eq_refl ltac:(lia)).
    set (h1 := hd_set p _ h). exists h1.
    assert (∀ j, hd h1 j = if decide (j = p) then mkBlock (fb_length (hd h p)) (fb_used (hd h p)) (fb_link (hd h k)) else hd h j) as Hhd
      by (intros j; by apply (hd_hd_set h G)).
    assert (same_extent h h1) as He by apply hd_set_extent. split; [done|]. split; [done|]. split_and!; try done.
    + intros j. rewrite Hhd. case_decide; by subst.
    + rewrite Hf, <- app_assoc in *. cbn [app] in *. change (ch_freelist h1) with (ch_freelist h).
      assert (∀ j, j ∈ frees c1 → j < p) as Hc1.
      { intros j Hj. rewrite Hbs in Ht1. apply tiles_app in Ht1 as (e & Ht & Hpe & _). cbn in Hpe. subst e.
        apply (frees_elem _ _ _ _ Ht) in Hj. lia. }
      apply (chain_exchange h h1 _ (frees c1) p (k :: frees bs2)); [done| |done|].
      * intros j Hj%Hc1. by rewrite Hhd, decide_False by lia.
      * rewrite Hhd, decide_True by done. cbn [fb_link]. apply (chain_ext h h1); [done| |].
        -- intros j Hj%(frees_elem _ _ _ _ Ht2). by rewrite Hhd, decide_False by lia.
        -- apply (chain_link h (ch_freelist h) (frees c1 ++ [p])). by rewrite <- app_assoc.
Qed.

(** What is done with the block that was found, in both cases. *)
Definition take_block (p : M CodeHeap (Z * Z)) : M CodeHeap Z :=
  '(best_block, length) ← p;
  set_used best_block ;;
  hmodify (λ h, set_freelist (ch_freelist h) (u64 (ch_freelist_segments h - length)) h) ;;
  mret best_block.

Lemma take_whole h bs1 k m bs2 :
  heap_inv h (bs1 ++ mkB k m false :: bs2) → m ≤ ch_freelist_segments h < 2 ^ 62 →
  ∃ h', take_block ((if last_addr h (frees bs1) =? 0
         then h ← mget; next ← link_ (ch_freelist h); hmodify (λ h, set_freelist next (ch_freelist_segments h) h)
         else next ← link_ (addr h k); set_link (last_addr h (frees bs1)) next) ;; mret (addr h k, m)) h = Some (addr h k, h') ∧
    allocated_at h h' (bs1 ++ mkB k m false :: bs2) k m ∧ ch_next_segment h' = ch_next_segment h.
Proof.
  intros Hinv Hmf. destruct (inv_block _ _ _ _ _ _ Hinv) as [Hr Hl Hu Ht1 Ht2]. pose proof (hi_geometry _ _ Hinv) as G.
  destruct (unlink_step h bs1 k m bs2 Hinv) as (h1 & E1 & He1 & Hn1 & Hm1 & Hs1 & Hhd1 & Hc1).
  assert (geometry h1) as G1 by eauto with heap. pose proof (se_committed_segments _ _ He1).
  destruct (finish_take h1 (addr h k) k m G1) as (h2 & E2 & He2 & Hn2 & Hm2 & Hf2 & Hs2 & Hhd2);
    [by rewrite (same_extent_addr h h1)|lia|lia|lia|].
  exists h2. split; [|split; [|congruence]].
  - unfold take_block. erewrite M_bind_Some by (rewrite (M_bind_Some _ _ _ _ _ E1); reflexivity). exact E2.
  - destruct (Hhd1 k) as [Hlk Huk]. eapply (take_inv h h2); try done; [eauto with heap|congruence|congruence|lia| | | |].
    + intros j Hj. rewrite Hhd2, decide_False by done. apply Hhd1.
    + rewrite Hhd2, decide_True by done. cbn. congruence.
    + by rewrite Hhd2, decide_True.
    + rewrite Hf2. apply (chain_ext h1 h2); [done| |done]. intros j _. rewrite Hhd2. case_decide; by subst.
Qed.

Lemma take_end h bs1 k m len bs2 :
  heap_inv h (bs1 ++ mkB k m false :: bs2) → m ≤ ch_freelist_segments h < 2 ^ 62 → 0 < len < m →
  ∃ h', take_block (set_length (addr h k) (m - len) ;;
         best_block ← following_block (addr h k);
         h ← mget;
         let beg := segment_for h best_block in
         mark_segmap_as_used beg (beg + len) ;;
         set_length best_block len ;;
         mret (best_block, len)) h = Some (addr h (k + (m - len)), h') ∧
    allocated_at h h' (bs1 ++ mkB k m false :: bs2) (k + (m - len)) len ∧ ch_next_segment h' = ch_next_segment h.
Proof.
  intros Hinv Hmf Hlen. destruct (inv_block _ _ _ _ _ _ Hinv) as [Hr Hl Hu Ht1 Ht2]. pose proof (hi_geometry _ _ Hinv) as G.
  pose proof (g_segments h G). set (e := k + (m - len)).
  pose proof (set_length_step h G _ k eq_refl ltac:(lia) (m - len)) as E1. rewrite Hu in E1. set (h1 := hd_set k _ h) in E1.
  assert (geometry h1) as G1 by (eapply same_extent_geometry; [apply hd_set_extent|done]).
  assert (∀ j, hd h1 j = if decide (j = k) then mkBlock (m - len) false (fb_link (hd h k)) else hd h j) as Hhd1
    by (intros j; by apply (hd_hd_set h G)).
  pose proof (following_step h1 G1 (addr h k) k eq_refl ltac:(cbn; lia) (m - len) ltac:(by rewrite Hhd1, decide_True) ltac:(lia) ltac:(cbn; lia)) as E2.
  assert (segment_for h1 (addr h1 e) = e) as Hseg.
  { pose proof (segment_for_eq h1 G1 e 0 ltac:(cbn; lia) ltac:(pose proof (segment_pos h1 G1); lia)) as Hs. by rewrite Z.add_0_r in Hs. }
  destruct (mark_used_spec e len h1) as (mp & E3 & Hmp); [lia|lia|pose proof (g_segmap h G); cbn; lia|].
  set (h3 := set_segmap mp h1) in *. assert (same_extent h h3) as He3.
  { apply (same_extent_trans _ h1); [apply hd_set_extent|]. apply set_segmap_extent. apply Hmp. }
  assert (geometry h3) as G3 by eauto with heap.
  pose proof (set_length_step h3 G3 (addr h1 e) e eq_refl ltac:(cbn; lia) len) as E4. set (h4 := hd_set e _ h3) in E4.
  assert (∀ j, hd h4 j = if decide (j = e) then mkBlock len (fb_used (hd h3 e)) (fb_link (hd h3 e)) else hd h1 j) as Hhd4
    by (intros j; by apply (hd_hd_set h3 G3)).
  assert (geometry h4) as G4 by (eapply same_extent_geometry; [apply hd_set_extent|done]).
  destruct (finish_take h4 (addr h e) e len G4) as (h5 & E5 & He5 & Hn5 & Hm5 & Hf5 & Hs5 & Hhd5); [done|cbn; lia|cbn; lia|lia|].
  exists h5. split; [|split; [|done]].
  - unfold take_block. rewrite (M_bind_Some _ _ _ (addr h e, len) h4); [exact E5|].
    rewrite (M_bind_Some _ _ _ _ _ E1), (M_bind_Some _ _ _ _ _ E2), M_bind_get.
    cbn zeta. fold e. rewrite Hseg, (M_bind_Some _ _ _ _ _ E3), (M_bind_Some _ _ _ _ _ E4). done.
  - assert (same_extent h h5) as He by (apply (same_extent_trans _ h3); [done|]; apply (same_extent_trans _ h4); [apply hd_set_extent|done]).
    eapply (split_inv h h5); try done; [by rewrite Hm5|..].
    + intros j Hj1 Hj2. rewrite Hhd5, decide_False, Hhd4, decide_False, Hhd1, decide_False by done. done.
    + rewrite Hhd5, decide_False, Hhd4, decide_False, Hhd1, decide_True by lia. done.
    + rewrite Hhd5, decide_True, Hhd4, decide_True by done. done.
    + by rewrite Hhd5, decide_True.
Qed.

Lemma search_freelist_spec h bs len crit :
  heap_inv h bs → 0 < len < 2 ^ 60 →
  ∃ r h', search_freelist len crit h = Some (r, h') ∧
    ((r = 0 ∧ h' = h ∧ (crit = true → ∀ x, x ∈ bs → b_used x = false → b_len x < len)) ∨
     ∃ i n, r = addr h i ∧ len ≤ n < len + CodeCacheMinBlockLength ∧ allocated_at h h' bs i n ∧ ch_next_segment h' = ch_next_segment h).
Proof.
  intros Hinv Hlen. pose proof (hi_geometry _ _ Hinv) as G. unfold CodeHeap.search_freelist. rewrite M_bind_get.
  destruct (search_freelist_loop_spec CodeCacheMinimumFreeSpace h (list_fuel h) len crit [] (frees bs) (ch_freelist h) 0 0 0)
    as (bb & bp & bl & E & Hb & Hfit); [done|apply (hi_chain _ _ Hinv)|by apply frees_range| |by left|by intros _ j ?%elem_of_nil|].
  { pose proof (tiles_length _ _ _ (hi_tiles _ _ Hinv)). pose proof (frees_length bs). unfold list_fuel. lia. }
  cbn [last_addr last app] in *. rewrite (M_bind_Some _ _ _ _ _ E).
  destruct (Z.eqb_spec bb 0) as [->|Hnz].
  { exists 0, h. split; [done|]. left. split; [done|]. split; [done|]. intros Hcr x Hx Hu.
    destruct (decide (b_len x < len)) as [|Hge]; [done|]. exfalso.
    pose proof (hi_headers _ _ Hinv) as Hh. rewrite Forall_forall in Hh. destruct (Hh x Hx) as [Hl _].
    destruct (Hfit Hcr (b_start x)) as [? _]; [|lia|done]. apply list_elem_of_fmap_2, list_elem_of_filter. done. }
  destruct Hb as [|(fa & k & fb & Hfs & -> & -> & -> & Hge)]; [done|].
  apply frees_split in Hfs as (bs1 & m & bs2 & -> & <- & <-). destruct (inv_block _ _ _ _ _ _ Hinv) as [Hr Hl Hu Ht1 Ht2].
  rewrite Hl in *. pose proof (segments_bound h G). pose proof (g_segments h G).
  pose proof (hi_total _ _ Hinv) as Htot. pose proof (free_total_range _ _ _ (hi_tiles _ _ Hinv)) as Hft.
  assert (m ≤ ch_freelist_segments h < 2 ^ 62) as Hmf.
  { rewrite Htot. rewrite free_total_app, free_total_free in *. pose proof (free_total_range _ _ _ Ht1). pose proof (free_total_range _ _ _ Ht2). lia. }
  rewrite (wrapU_id 64) by (unfold in_u; lia). destruct (Z.ltb_spec m (len + CodeCacheMinBlockLength)) as [Hfitx|Hsplit].
  - destruct (take_whole h bs1 k m bs2 Hinv Hmf) as (h' & E' & Hal & Hn). exists (addr h k), h'. split; [exact E'|].
    right. exists k, m. by split_and!.
  - destruct (take_end h bs1 k m len bs2 Hinv Hmf ltac:(lia)) as (h' & E' & Hal & Hn). exists (addr h (k + (m - len))), h'.
    split; [exact E'|]. right. exists (k + (m - len)), len. split_and!; [done|lia|lia|done|done].
Qed.

(** A block behind all others. *)
Lemma alloc_top h bs n :
  heap_inv h bs → 0 < n → ch_next_segment h + n ≤ ch_number_of_committed_segments h →
  let i := ch_next_segment h in
  ∃ h', (mark_segmap_as_used i (i + n) ;; initialize (addr h i) n ;; hmodify (set_next_segment (i + n)) ;; mret (allocated_space (addr h i))) h
      = Some (addr h i + sizeof_HeapBlock, h') ∧ allocated_at h h' bs i n.
Proof.
  intros Hinv Hn Hfit i. pose proof (hi_geometry _ _ Hinv) as G. pose proof (tiles_le _ _ _ (hi_tiles _ _ Hinv)) as Hi.
  destruct (mark_used_spec i n h) as (mp & E1 & (Hz & Hin & Hout)); [done|lia|pose proof (g_segmap h G); lia|].
  rewrite (M_bind_Some _ _ _ _ _ E1). set (h1 := set_segmap mp h).
  assert (same_extent h h1) as He1 by (by apply set_segmap_extent). assert (geometry h1) as G1 by eauto with heap.
  unfold initialize. pose proof (set_length_step h1 G1 (addr h i) i eq_refl ltac:(cbn; lia) n) as E2. set (h2 := hd_set i _ h1) in E2.
  assert (geometry h2) as G2 by (eapply same_extent_geometry; [apply hd_set_extent|done]).
  pose proof (set_used_step h2 G2 (addr h i) i eq_refl ltac:(cbn; lia)) as E3. set (h3 := hd_set i _ h2) in E3.
  erewrite M_bind_Some by (rewrite (M_bind_Some _ _ _ _ _ E2); exact E3). erewrite M_bind_Some by reflexivity.
  set (h4 := set_next_segment (i + n) h3). exists h4. split; [done|].
  assert (∀ j, hd h4 j = if decide (j = i) then mkBlock n true (fb_link (hd h i)) else hd h j) as Hhd.
  { intros j. change (hd h4 j) with (hd h3 j). unfold h3. rewrite (hd_hd_set h2 G2). unfold h2. rewrite !(hd_hd_set h1 G1).
    rewrite (decide_True (P := i = i)) by done. by case_decide. }
  assert (same_extent h h4) as He.
  { apply (same_extent_trans _ h1); [done|]. by split. }
  destruct Hinv as [_ Ht Hnx Hh Hm Htop Hc Htot]. exists (bs ++ [mkB i n true]), (used_blocks bs), [].
  split; [split|].
  - by eapply same_extent_geometry.
  - cbn. apply tiles_app. exists i. split; [done|]. by cbn.
  - done.
  - apply Forall_app. split; [eapply headers_frame; [exact Ht| |done]; intros j Hj; rewrite Hhd, decide_False by lia; done|].
    apply Forall_singleton. unfold header_ok. cbn [b_start b_len b_used]. by rewrite Hhd, decide_True.
  - apply Forall_app. split; [eapply map_frame; [exact Ht| |done]; intros j Hj; apply Hout; lia|].
    apply Forall_singleton. intros j Hj. cbn [b_start b_len] in *. destruct (Hin (i + j)) as (v & Hv & Hev); [lia|]. exists v.
    split; [done|]. by replace (i + j - i) with j in Hev by lia.
  - intros k Hk. cbn in Hk. change (ch_segmap h4) with mp. rewrite Hout by lia. apply Htop. lia.
  - rewrite frees_app. cbn [frees]. change (frees [mkB i n true]) with (@nil Z). rewrite app_nil_r.
    apply (chain_ext h h4); [done| |done]. intros j Hj%(frees_elem _ _ _ _ Ht). by rewrite Hhd, decide_False by lia.
  - rewrite free_total_app. change (free_total [mkB i n true]) with 0. rewrite Z.add_0_r. exact Htot.
  - split; [done|]. rewrite app_nil_r, used_blocks_app. split; [done|]. split; [done|].
    unfold merged. rewrite fmap_app. intros Hp. apply no_pair_used. by split.
Qed.

Lemma allocate_spec h bs size crit :
  heap_inv h bs → 0 ≤ size < 2 ^ 60 →
  ∃ r h', allocate CodeCacheMinBlockLength CodeCacheMinimumFreeSpace size crit h = Some (r, h') ∧
    ((r = 0 ∧ h' = h) ∨
     ∃ i n, r = addr h i + sizeof_HeapBlock ∧ size + sizeof_HeapBlock ≤ n * ch_segment_size h ∧ allocated_at h h' bs i n) ∧
    (crit = true → r = 0 →
     let n := size_to_segments h (size + sizeof_HeapBlock) in
     (∀ x, x ∈ bs → b_used x = false → b_len x < n) ∧
     ch_number_of_committed_segments h < ch_next_segment h + Z.max n CodeCacheMinBlockLength).
Proof.
  intros Hinv Hsize. pose proof (hi_geometry _ _ Hinv) as G. unfold allocate. rewrite M_bind_get.
  rewrite (wrapU_id 64 (size + _)) by (unfold in_u, sizeof_HeapBlock; lia). cbn zeta.
  destruct (size_to_segments_spec h G (size + sizeof_HeapBlock)) as [Hn Hsz]; [unfold sizeof_HeapBlock; lia|].
  set (n := size_to_segments h _) in *. pose proof (segment_pos h G). pose proof (segments_bound h G). pose proof (g_segments h G).
  assert (0 < n) as Hn0 by (unfold sizeof_HeapBlock in *; nia).
  destruct (search_freelist_spec h bs n crit Hinv ltac:(lia)) as (r & h' & E & Hcases). rewrite (M_bind_Some _ _ _ _ _ E).
  pose proof (tiles_le _ _ _ (hi_tiles _ _ Hinv)) as Hi. pose proof (hi_next _ _ Hinv) as Hnx.
  destruct Hcases as [(-> & -> & Hnone)|(i & m & -> & Hm & Hal & _)].
  - cbn [Z.eqb negb]. rewrite M_bind_get. cbn zeta. set (n' := if n <? CodeCacheMinBlockLength then _ else _).
    assert (n' = Z.max n CodeCacheMinBlockLength) as -> by (subst n'; destruct (Z.ltb_spec n CodeCacheMinBlockLength); lia).
    destruct (negb crit && _) eqn:Hcrit.
    { exists 0, h. split; [done|]. split; [by left|]. intros ->. done. }
    rewrite (wrapU_id 64 (_ + _)) by (unfold in_u; lia). rewrite (block_at_eq h G) by lia.
    destruct (Z.leb_spec (ch_next_segment h + Z.max n CodeCacheMinBlockLength) (ch_number_of_committed_segments h)) as [Hle|Hgt].
    + destruct (alloc_top h bs (Z.max n CodeCacheMinBlockLength) Hinv ltac:(lia) Hle) as (h' & E' & Hal).
      exists (addr h (ch_next_segment h) + sizeof_HeapBlock), h'. split; [exact E'|]. split.
      * right. exists (ch_next_segment h), (Z.max n CodeCacheMinBlockLength). split_and!; [done|nia|done].
      * intros _ Hz. exfalso. pose proof (addr_not_null h G (ch_next_segment h) ltac:(lia)). pose proof (addr_range h G (ch_next_segment h) ltac:(lia)).
        pose proof (g_low h G). unfold sizeof_HeapBlock in Hz. lia.
    + exists 0, h. split; [done|]. split; [by left|]. intros Hcr _. split; [by apply Hnone|lia].
  - assert (0 ≤ i) as Hi0.
    { destruct Hal as (bs' & l1 & l2 & Hinv' & _ & _ & Hub & _). assert (mkB i m true ∈ used_blocks bs') as Hin by (rewrite Hub; set_solver).
      apply list_elem_of_filter in Hin as [_ Hin]. by destruct (tiles_elem _ _ _ _ (hi_tiles _ _ Hinv') Hin) as [? _]. }
    rewrite (proj2 (Z.eqb_neq _ _) (addr_not_null h G i Hi0)). cbn [negb].
    exists (allocated_space (addr h i)), h'. split; [done|]. split; [right; exists i, m; split_and!; [done|nia|done]|].
    intros _ Hz. exfalso. unfold allocated_space, sizeof_HeapBlock, addr in Hz. pose proof (g_low h G). nia.
Qed.
End taking.
