(* ===== verification/CodeHeapLookup.v ===== *)
(** * Lookup, iteration and growth of the code heap

    What [find_start], [first], [next], [deallocate], [expand_by] and [reserve] of
    memory/heap.cpp do to a heap whose blocks are known. *)

From stdpp Require Import base numbers list gmap.
From S2P Require Import Prelude GlobalDefinitions CodeHeap.
Local Open Scope Z_scope.

(** ** From an address to its block *)

Lemma tiles_cover b bs e k :
  tiles b bs e → b ≤ k < e → ∃ bs1 i n u bs2, bs = bs1 ++ mkB i n u :: bs2 ∧ i ≤ k < i + n.
Proof.
  revert b. induction bs as [|[i n u] bs IH]; intros b; cbn [tiles]; [lia|]. cbn [b_start b_len]. intros (-> & Hn & Ht) Hk.
  destruct (decide (k < b + n)).
  - exists [], b, n, u, bs. split; [done|lia].
  - destruct (IH _ Ht) as (bs1 & j & m & v & bs2 & -> & ?); [lia|]. by exists (mkB b n u :: bs1), j, m, v, bs2.
Qed.

(** Every step of the loop stays in the block and goes down. *)
Lemma find_start_loop_spec m x fuel j :
  map_ok m x → 0 ≤ j < b_len x → j < Z.of_nat fuel → find_start_loop fuel m (b_start x + j) = Some (b_start x).
Proof.
  intros Hm. revert j. induction fuel as [|fuel IH]; intros j Hj Hf; [lia|]. cbn [find_start_loop].
  destruct (Hm j Hj) as (v & Hv & Hlt & He). rewrite Hv. cbn [mbind option_bind].
  destruct He as [[-> ->]|Hv'].
  - cbn. f_equal. lia.
  - rewrite (proj2 (Z.ltb_lt 0 v)) by lia. replace (b_start x + j - v) with (b_start x + (j - v)) by lia. apply IH; lia.
Qed.

(** The pointer a used block was handed out as. *)
Definition ptr (h : CodeHeap) (x : Block) : Z := addr h (b_start x) + sizeof_HeapBlock.

Section lookup.
Context (h : CodeHeap) (bs : list Block) (G : geometry h) (Hinv : heap_inv h bs).

Lemma block_known bs1 i n u bs2 : bs = bs1 ++ mkB i n u :: bs2 → block_facts h bs1 i n u bs2 ∧ map_ok (ch_segmap h) (mkB i n u).
Proof.
  intros E. pose proof Hinv as Hinv'. rewrite E in Hinv'. split; [by apply inv_block|].
  pose proof (hi_map _ _ Hinv') as Hm. by apply Forall_app in Hm as [_ [Hm _]%Forall_cons].
Qed.

Lemma in_segment q : contains h q = true → ∃ k r, q = addr h k + r ∧ 0 ≤ r < ch_segment_size h ∧ 0 ≤ k < ch_number_of_committed_segments h.
Proof.
  unfold contains, high. intros [?%Z.leb_le ?%Z.ltb_lt]%andb_true_iff. pose proof (segment_pos h G). pose proof (g_committed h G).
  exists ((q - ch_low h) / ch_segment_size h), ((q - ch_low h) mod ch_segment_size h). unfold addr.
  pose proof (Z.div_mod (q - ch_low h) (ch_segment_size h) ltac:(lia)). pose proof (Z.mod_pos_bound (q - ch_low h) (ch_segment_size h) ltac:(lia)).
  split; [lia|]. split; [done|]. split; [apply Z.div_pos; lia|]. apply Z.div_lt_upper_bound; lia.
Qed.
Lemma contains_segment k r : 0 ≤ r < ch_segment_size h → 0 ≤ k < ch_number_of_committed_segments h → contains h (addr h k + r) = true.
Proof.
  intros Hr Hk. unfold contains, high, addr. pose proof (g_committed h G). pose proof (segment_pos h G).
  apply andb_true_iff. split; [apply Z.leb_le|apply Z.ltb_lt]; nia.
Qed.

Lemma find_start_block bs1 i n u bs2 k r :
  bs = bs1 ++ mkB i n u :: bs2 → i ≤ k < i + n → 0 ≤ r < ch_segment_size h →
  find_start (addr h k + r) h = Some (if u then addr h i + sizeof_HeapBlock else 0, h).
Proof.
  intros E Hk Hr. destruct (block_known _ _ _ _ _ E) as [[Hrange Hlen Hu _ _] Hm]. clear E. pose proof (g_segments h G).
  unfold find_start. rewrite M_bind_get, contains_segment by lia. cbn [negb]. cbn zeta. rewrite (segment_for_eq h G) by lia.
  destruct (Hm (k - i)) as (v & Hv & Hlt & _); [cbn; lia|]. cbn [b_start] in Hv. replace (i + (k - i)) with k in Hv by lia.
  rewrite (M_bind_lift _ _ _ _ Hv). rewrite (proj2 (Z.eqb_neq v 255)) by lia.
  pose proof (find_start_loop_spec (ch_segmap h) (mkB i n u) (S (length (ch_segmap h))) (k - i) Hm) as E. cbn [b_start b_len] in E.
  replace (i + (k - i)) with k in E by lia. apply zget_Some in Hv. unfold zlen in Hv.
  rewrite (M_bind_lift _ _ _ _ (E ltac:(lia) ltac:(lia))). rewrite (block_at_eq h G) by lia.
  rewrite (M_bind_Some _ _ _ _ _ (free_step h G _ i eq_refl ltac:(lia))), Hu. by destruct u.
Qed.

Lemma find_start_used i n q :
  mkB i n true ∈ bs → addr h i ≤ q < addr h (i + n) → find_start q h = Some (addr h i + sizeof_HeapBlock, h).
Proof.
  intros Hin Hq. destruct (tiles_elem _ _ _ _ (hi_tiles _ _ Hinv) Hin) as (Hi & Hn & Hend). cbn [b_start b_len] in *.
  pose proof (hi_next _ _ Hinv). pose proof (g_committed h G). pose proof (segment_pos h G). pose proof (g_segments h G).
  destruct (in_segment q) as (k & r & -> & Hr & Hk).
  { unfold contains, high. apply andb_true_iff. split; [apply Z.leb_le|apply Z.ltb_lt]; unfold addr in Hq; nia. }
  apply list_elem_of_split in Hin as (bs1 & bs2 & E). eapply (find_start_block _ _ _ _ _ _ _ E); [|done]. unfold addr in Hq. nia.
Qed.
Lemma find_start_any q :
  ∃ r, find_start q h = Some (r, h) ∧
    (r = 0 ∨ ∃ i n, mkB i n true ∈ bs ∧ addr h i ≤ q < addr h (i + n) ∧ r = addr h i + sizeof_HeapBlock).
Proof.
  destruct (contains h q) eqn:Hc; [|exists 0; unfold find_start; rewrite M_bind_get, Hc; by auto].
  destruct (in_segment q Hc) as (k & r & -> & Hr & Hk). pose proof (segment_pos h G).
  destruct (decide (k < ch_next_segment h)).
  - destruct (tiles_cover _ _ _ k (hi_tiles _ _ Hinv)) as (bs1 & i & n & u & bs2 & E & Hik); [lia|].
    rewrite (find_start_block bs1 i n u bs2 k r E Hik Hr). eexists. split; [done|]. destruct u; [right|by left].
    exists i, n. split; [rewrite E; set_solver|]. split; [unfold addr; nia|done].
  - exists 0. split; [|by left]. unfold find_start. rewrite M_bind_get, Hc. cbn [negb]. cbn zeta.
    pose proof (g_segments h G). rewrite (segment_for_eq h G) by lia.
    by rewrite (M_bind_lift _ _ _ _ (hi_top _ _ Hinv k ltac:(lia))).
Qed.

(** ** Iteration *)

Definition head_addr (bs : list Block) : Z := match bs with x :: _ => addr h (b_start x) | [] => 0 end.
Definition head_ptr (bs : list Block) : Z := match bs with x :: _ => ptr h x | [] => 0 end.

Lemma head_addr_tiles b bs' e : tiles b bs' e → head_addr bs' = if b <? e then addr h b else 0.
Proof.
  destruct bs' as [|x bs']; cbn [tiles head_addr]; [intros ->; by rewrite Z.ltb_irrefl|]. intros (<- & Hl & Ht).
  pose proof (tiles_le _ _ _ Ht). by rewrite (proj2 (Z.ltb_lt (b_start x) e)) by lia.
Qed.

Lemma next_block_spec bs1 i n u bs2 : bs = bs1 ++ mkB i n u :: bs2 → next_block (addr h i) h = Some (head_addr bs2, h).
Proof.
  intros E. destruct (block_known _ _ _ _ _ E) as [[Hrange Hlen _ _ Ht] _]. unfold next_block. pose proof (g_segments h G).
  rewrite (proj2 (Z.eqb_neq _ _) (addr_not_null h G i ltac:(lia))).
  rewrite (M_bind_Some _ _ _ _ _ (length_step h G _ i eq_refl ltac:(lia))), M_bind_get. cbn zeta.
  replace (addr h i) with (addr h i + 0) by lia. rewrite (segment_for_eq h G) by (pose proof (segment_pos h G); lia).
  rewrite Hlen, (head_addr_tiles _ _ _ Ht). destruct (Z.ltb_spec (i + n) (ch_next_segment h)); [|done].
  by rewrite (block_at_eq h G) by lia.
Qed.

(** At most one free block is skipped, and that is enough. *)
Lemma next_free_spec bs1 bs2 : bs = bs1 ++ bs2 → merged bs → next_free (head_addr bs2) h = Some (head_ptr (used_blocks bs2), h).
Proof.
  intros E Hm. assert (merged bs2) as Hm2.
  { unfold merged in *. rewrite E, fmap_app in Hm. by eapply no_pair_suffix. }
  assert (∀ x, x ∈ bs → addr h (b_start x) ≠ 0 ∧ 0 ≤ b_start x < ch_number_of_committed_segments h) as Ha.
  { intros x Hx. destruct (tiles_elem _ _ _ _ (hi_tiles _ _ Hinv) Hx) as (? & ? & ?). pose proof (hi_next _ _ Hinv).
    split; [apply (addr_not_null h G)|]; lia. }
  unfold next_free. destruct bs2 as [|[i n u] bs2]; [done|]. cbn [head_addr b_start].
  destruct (Ha (mkB i n u)) as [Hi0 Hi]; [rewrite E; set_solver|]. cbn [b_start] in Hi0, Hi.
  rewrite (proj2 (Z.eqb_neq _ _) Hi0), (M_bind_Some _ _ _ _ _ (free_step h G _ i eq_refl Hi)).
  destruct (block_known _ _ _ _ _ E) as [[_ _ -> _ _] _]. destruct u; cbn [negb].
  - erewrite M_bind_Some by reflexivity. by rewrite (proj2 (Z.eqb_neq _ _) Hi0).
  - rewrite (M_bind_Some _ _ _ _ _ (next_block_spec bs1 i n false bs2 E)).
    destruct bs2 as [|[j m v] bs2]; [done|]. cbn [head_addr b_start].
    destruct (Ha (mkB j m v)) as [Hj0 _]; [rewrite E; set_solver|]. cbn [b_start] in Hj0. rewrite (proj2 (Z.eqb_neq _ _) Hj0).
    unfold merged in Hm2. cbn in Hm2. destruct Hm2 as [[?|Hv] _]; [done|]. by destruct v.
Qed.

Lemma first_spec : merged bs → first h = Some (head_ptr (used_blocks bs), h).
Proof.
  intros Hm. unfold first, first_block. rewrite (M_bind_Some _ _ h (head_addr bs) h); [by apply (next_free_spec [])|].
  rewrite M_bind_get. unfold mret, M_ret. do 2 f_equal. rewrite (head_addr_tiles _ _ _ (hi_tiles _ _ Hinv)).
  destruct (0 <? _) eqn:?; [|done]. apply (block_at_eq h G). pose proof (g_segments h G). lia.
Qed.

Lemma next_spec bs1 i n bs2 :
  bs = bs1 ++ mkB i n true :: bs2 → merged bs → next (addr h i + sizeof_HeapBlock) h = Some (head_ptr (used_blocks bs2), h).
Proof.
  intros E Hm. unfold next, block_start. pose proof (segment_pos h G).
  assert (0 ≤ i ∧ 0 < n) as Hi by (destruct (block_known _ _ _ _ _ E) as [[? _ _ _ _] _]; lia).
  rewrite (M_bind_Some _ _ h (addr h i) h).
  - rewrite (M_bind_Some _ _ _ _ _ (next_block_spec bs1 i n true bs2 E)). apply (next_free_spec (bs1 ++ [mkB i n true])); [|done].
    by rewrite <- app_assoc.
  - rewrite (M_bind_Some _ _ _ _ _ (find_start_used i n (addr h i + sizeof_HeapBlock) ltac:(rewrite E; set_solver) ltac:(unfold addr, sizeof_HeapBlock; nia))).
    unfold mret, M_ret. do 2 f_equal. rewrite (proj2 (Z.eqb_neq _ _)); [lia|]. pose proof (g_low h G). unfold addr, sizeof_HeapBlock. nia.
Qed.
End lookup.

(** ** Releasing and writing *)

Lemma deallocate_spec h bs1 i n bs2 :
  heap_inv h (bs1 ++ mkB i n true :: bs2) → ∃ h', deallocate (addr h i + sizeof_HeapBlock) h = Some (tt, h') ∧ freed h h' bs1 bs2.
Proof.
  intros Hinv. unfold deallocate. replace (addr h i + _ - _) with (addr h i) by lia. by eapply add_to_freelist_spec.
Qed.

(** The owner of the space at [p] writes to it: what is no header of the heap's may
    change as far as the block reaches, the link in the block included. *)
Definition written (h h' : CodeHeap) (p : Z) : Prop :=
  ∃ blocks, h' = set_blocks blocks h ∧
    let a := p - sizeof_HeapBlock in
    let b := default raw_block (ch_blocks h !! a) in
    (∃ l, default raw_block (blocks !! a) = mkBlock (fb_length b) (fb_used b) l) ∧
    (∀ c, ¬ a ≤ c < a + fb_length b * ch_segment_size h → blocks !! c = ch_blocks h !! c).

Lemma written_inv h h' bs1 i n bs2 :
  heap_inv h (bs1 ++ mkB i n true :: bs2) → written h h' (addr h i + sizeof_HeapBlock) →
  heap_inv h' (bs1 ++ mkB i n true :: bs2) ∧ same_extent h h'.
Proof.
  intros Hinv (m & -> & (l & Hl) & Hout). replace (addr h i + _ - _) with (addr h i) in * by lia.
  destruct (inv_block _ _ _ _ _ _ Hinv) as [Hrange Hlen Hu Ht1 Ht2]. fold (hd h i) in Hl, Hout. rewrite Hlen in Hout.
  assert (same_extent h (set_blocks m h)) as He by (by split). split; [|done]. pose proof (segment_pos h (hi_geometry _ _ Hinv)).
  assert (∀ j, ¬ i ≤ j < i + n → hd (set_blocks m h) j = hd h j) as Hhd.
  { intros j Hj. unfold hd. change (addr (set_blocks m h) j) with (addr h j). cbn. rewrite Hout; [done|]. unfold addr. nia. }
  destruct Hinv as [G Ht Hnx Hh Hm Htop Hc Htot]. split; try done.
  - by eapply same_extent_geometry.
  - apply Forall_app in Hh as [Hh1 [Hhi Hh2]%Forall_cons]. apply Forall_app. split; [|apply Forall_cons; split].
    + eapply headers_frame; [exact Ht1| |done]. intros j Hj. apply Hhd. lia.
    + unfold header_ok in *. cbn [b_start b_len b_used] in *. unfold hd at 1 2. change (addr (set_blocks m h) i) with (addr h i).
      cbn [ch_blocks set_blocks]. by rewrite Hl.
    + eapply headers_frame; [exact Ht2| |done]. intros j Hj. apply Hhd. lia.
  - apply (chain_ext h); [done| |done]. intros j. rewrite frees_app, frees_used.
    intros [Hj%(frees_elem _ _ _ _ Ht1)|Hj%(frees_elem _ _ _ _ Ht2)]%elem_of_app; rewrite Hhd; done || lia.
Qed.

(** ** Growing *)

Section growth.
Context (os : os_pages).

(** Pages are whole segments, and the segment map is committed by pages. *)
Record paged (h : CodeHeap) : Prop := {
  pg_size : ∃ k, vm_page_size os = 2 ^ k ∧ ch_log2_segment_size h ≤ k < 40;
  pg_committed : (vm_page_size os | ch_committed_size h);
  pg_segmap : zlen (ch_segmap h) = align_to_page_size os (ch_number_of_committed_segments h)
}.

Lemma align_to_page_spec k x : vm_page_size os = 2 ^ k → 0 ≤ k < 40 → 0 ≤ x ≤ 2 ^ 63 → align_to_page_size os x = round_to x (2 ^ k).
Proof.
  intros E Hk Hx. unfold align_to_page_size. rewrite E. assert (0 < 2 ^ k ≤ 2 ^ 40) as Hp.
  { split; [apply Z.pow_pos_nonneg; lia|apply Z.pow_le_mono_r; lia]. }
  rewrite (wrapU_id 64 (x + _ - _)) by (unfold in_u; lia). rewrite land_wrapU by (unfold in_u; lia).
  unfold round_to, mask_bits. f_equal. lia.
Qed.

Lemma same_extent_paged h h' : same_extent h h' → paged h → paged h'.
Proof.
  intros [? ? ? ? ? ? ? ?] [(k & E1 & E2) ? ?]. split; [exists k; split; [done|congruence]|congruence|congruence].
Qed.

Lemma size_to_segments_exact h n :
  geometry h → 0 ≤ n ≤ ch_number_of_reserved_segments h → size_to_segments h (n * ch_segment_size h) = n.
Proof.
  intros G Hn. pose proof (size_bound h G n Hn). pose proof (segment_pos h G).
  destruct (size_to_segments_spec h G (n * ch_segment_size h)) as [? ?]; [lia|]. nia.
Qed.

(** The same blocks in more memory. *)
Record grown (h h' : CodeHeap) : Prop := {
  gr_low : ch_low h' = ch_low h;
  gr_segment : ch_segment_size h' = ch_segment_size h;
  gr_log2 : ch_log2_segment_size h' = ch_log2_segment_size h;
  gr_reserved : ch_reserved_size h' = ch_reserved_size h;
  gr_reserved_segments : ch_number_of_reserved_segments h' = ch_number_of_reserved_segments h;
  gr_next : ch_next_segment h' = ch_next_segment h;
  gr_blocks : ch_blocks h' = ch_blocks h;
  gr_free : ch_freelist h' = ch_freelist h ∧ ch_freelist_segments h' = ch_freelist_segments h
}.

Lemma grown_addr h h' i : grown h h' → addr h' i = addr h i.
Proof. intros []. unfold addr. congruence. Qed.
Lemma grown_hd h h' i : grown h h' → hd h' i = hd h i.
Proof. intros Hg. unfold hd. rewrite (grown_addr h h' i Hg). by destruct Hg as [_ _ _ _ _ _ -> _]. Qed.
Lemma grown_chain h h' p fs : grown h h' → chain h p fs → chain h' p fs.
Proof.
  intros Hg. revert p. induction fs as [|i fs IH]; intros p; cbn [chain]; [done|]. rewrite (grown_addr h h' i Hg), (grown_hd h h' i Hg).
  intros [-> ?]. split; [done|by apply IH].
Qed.

Lemma grown_inv h h' bs :
  heap_inv h bs → grown h h' → geometry h' → ch_number_of_committed_segments h ≤ ch_number_of_committed_segments h' →
  (∀ k, k < ch_number_of_committed_segments h → zget (ch_segmap h') k = zget (ch_segmap h) k) →
  (∀ k, ch_number_of_committed_segments h ≤ k < ch_number_of_committed_segments h' → zget (ch_segmap h') k = Some 255) →
  heap_inv h' bs.
Proof.
  intros [G Ht Hnx Hh Hm Htop Hc Htot] Hg G' Hle Hold Hnew. pose proof Hg as [_ _ _ _ _ Hn _ [Hf Hs]]. split.
  - done.
  - by rewrite Hn.
  - lia.
  - eapply Forall_impl; [exact Hh|]. intros x. unfold header_ok. by rewrite (grown_hd h h').
  - eapply map_frame; [exact Ht| |done]. intros j Hj. apply Hold. lia.
  - intros k Hk. rewrite Hn in Hk. destruct (decide (k < ch_number_of_committed_segments h)); [rewrite Hold by lia; apply Htop|apply Hnew]; lia.
  - rewrite Hf. by apply (grown_chain h).
  - congruence.
Qed.

(** The new end of the memory: whole segments, and the map for them. *)
Lemma new_committed h n :
  geometry h → paged h → ch_number_of_committed_segments h ≤ n ≤ ch_number_of_reserved_segments h →
  let ds := u64 (align_to_page_size os n - zlen (ch_segmap h)) in
  0 ≤ ds ∧ zlen (ch_segmap h) + ds = align_to_page_size os n ∧ n ≤ align_to_page_size os n.
Proof.
  intros G [(k & E & Hk) _ Hz] Hn ds. pose proof (g_segments h G). pose proof (g_log2 h G). pose proof (segments_bound h G).
  rewrite (align_to_page_spec k) in Hz by (done || lia). subst ds. rewrite (align_to_page_spec k) by (done || lia).
  assert (2 ^ k ≤ 2 ^ 40) by (apply Z.pow_le_mono_r; lia). pose proof (round_to_bounds n k ltac:(lia) ltac:(lia)).
  pose proof (round_to_le (ch_number_of_committed_segments h) n k ltac:(lia) ltac:(lia)).
  pose proof (zlen_nonneg (ch_segmap h)). rewrite wrapU_id by (unfold in_u; lia). lia.
Qed.

(** The part of [expand_by] that follows the commitment of [n] segments. *)
Lemma grow_map h bs n :
  heap_inv h bs → paged h → ch_number_of_committed_segments h ≤ n ≤ ch_number_of_reserved_segments h →
  (vm_page_size os | n * ch_segment_size h) →
  let h2 := set_committed (n * ch_segment_size h) n h in
  let ds := u64 (align_to_page_size os n - zlen (ch_segmap h)) in
  ∃ h', mark_segmap_as_free (ch_number_of_committed_segments h) n (set_segmap (ch_segmap h ++ replicate (Z.to_nat ds) 0) h2) = Some (tt, h') ∧
    heap_inv h' bs ∧ paged h' ∧ grown h h' ∧ ch_committed_size h' = n * ch_segment_size h.
Proof.
  intros Hinv Hp Hn Hdiv h2 ds. pose proof (hi_geometry _ _ Hinv) as G. destruct (new_committed h n G Hp Hn) as (Hds & Hz & Hle).
  fold ds in Hds, Hz. set (m := ch_segmap h ++ _).
  assert (zlen m = align_to_page_size os n) as Hm by (unfold m; rewrite zlen_app; unfold zlen at 2; rewrite length_replicate; lia).
  pose proof (g_segments h G). pose proof (g_segmap h G).
  destruct (mark_free_spec (ch_number_of_committed_segments h) n (set_segmap m h2)) as (mp & Emp & (Hl & Hin & Hout));
    [lia|cbn [ch_segmap set_segmap]; lia|]. cbn [ch_segmap set_segmap] in Hl, Hin, Hout.
  exists (set_segmap mp (set_segmap m h2)). split; [exact Emp|].
  assert (grown h (set_segmap mp (set_segmap m h2))) as Hg by (by split).
  split; [apply (grown_inv h); try done|split_and!; [|done|done]].
  - destruct G. split; try done; cbn; lia.
  - cbn. lia.
  - intros j Hj. change (ch_segmap (set_segmap mp _)) with mp. rewrite Hout by lia. unfold m. apply zget_app_l. lia.
  - intros j Hj. cbn in Hj. destruct (Hin j) as (v & Hv & ->); [lia|]. exact Hv.
  - destruct Hp as [Hk _ _]. split; [done|done|]. cbn. congruence.
Qed.

Lemma memory_expand_by_spec h commits bytes :
  0 ≤ ch_committed_size h ≤ ch_reserved_size h → ch_reserved_size h < 2 ^ 62 →
  memory_expand_by commits bytes h = Some (false, h) ∨
  memory_expand_by commits bytes h = Some (true, set_committed (ch_committed_size h + bytes) (ch_number_of_committed_segments h) h) ∧
  ch_committed_size h + bytes ≤ ch_reserved_size h.
Proof.
  intros Hcr Hr. unfold memory_expand_by. rewrite M_bind_get, wrapU_id by (unfold in_u; lia).
  destruct (Z.ltb_spec (ch_reserved_size h - ch_committed_size h) bytes); [by left|]. destruct commits; [right|by left].
  split; [done|lia].
Qed.

Lemma grown_refl h : grown h h.
Proof. by split. Qed.

Lemma expand_by_spec h bs commits size :
  heap_inv h bs → paged h → 0 ≤ size < 2 ^ 61 →
  ∃ b h', expand_by os commits true size h = Some (b, h') ∧
    (b = false ∧ h' = h ∨
     b = true ∧ heap_inv h' bs ∧ paged h' ∧ grown h h' ∧ ch_committed_size h + size ≤ ch_committed_size h').
Proof.
  intros Hinv Hp Hs. pose proof (hi_geometry _ _ Hinv) as G. pose proof Hp as [(k & E & Hk) Hdiv Hz].
  pose proof (g_committed h G) as Hc. pose proof (g_reserved h G) as Hr. pose proof (g_segments h G). pose proof (g_log2 h G).
  pose proof (g_high h G) as Hh. pose proof (g_low h G). pose proof (segment_pos h G). unfold high_boundary in Hh.
  unfold expand_by. rewrite M_bind_get. cbn zeta. assert (0 ≤ ch_committed_size h ≤ ch_reserved_size h) as Hcr by nia.
  rewrite (wrapU_id 64 (_ + size)) by (unfold in_u; lia). rewrite (align_to_page_spec k (_ + size)) by (done || lia).
  set (A := round_to _ _). pose proof (round_to_bounds (ch_committed_size h + size) k ltac:(lia) ltac:(lia)) as HA. fold A in HA.
  assert (2 ^ k ≤ 2 ^ 40) by (apply Z.pow_le_mono_r; lia). rewrite (wrapU_id 64 (A - _)) by (unfold in_u; lia).
  destruct (Z.ltb_spec 0 (A - ch_committed_size h)) as [Hdm|Hdm].
  2:{ exists true, h. split; [done|]. right. split_and!; [done..|apply grown_refl|lia]. }
  destruct (memory_expand_by_spec h commits (A - ch_committed_size h) ltac:(lia) ltac:(lia)) as [E1|[E1 Hfit]].
  { rewrite (M_bind_Some _ _ _ _ _ E1). exists false, h. split; [done|by left]. }
  rewrite (M_bind_Some _ _ _ _ _ E1). cbn [negb].
  erewrite M_bind_Some by reflexivity. rewrite M_bind_get. cbn zeta.
  assert (∃ n, A = n * ch_segment_size h) as [n Hn].
  { rewrite (g_size h G). eapply Z.divide_trans; [apply (pow2_divide _ k); lia|apply round_to_divide; lia]. }
  assert (ch_number_of_committed_segments h ≤ n ≤ ch_number_of_reserved_segments h) as Hnr by nia.
  cbn [ch_committed_size ch_number_of_committed_segments ch_segmap set_committed].
  replace (ch_committed_size h + (A - ch_committed_size h)) with (n * ch_segment_size h) by lia.
  change (size_to_segments (set_committed _ _ h) ?x) with (size_to_segments h x). rewrite (size_to_segments_exact h n G) by lia.
  rewrite andb_false_r.
  destruct (grow_map h bs n Hinv Hp Hnr) as (h' & Eh & Hinv' & Hp' & Hg & Hc'); [rewrite <- Hn, E; apply round_to_divide; lia|].
  exists true, h'. split; [|right; split_and!; [done..|lia]].
  erewrite M_bind_Some by reflexivity. erewrite M_bind_Some by exact Eh. done.
Qed.

(** What the operating system says of its pages. *)
Record os_ok (log2_segment_size : Z) : Prop := {
  os_page : ∃ k, vm_page_size os = 2 ^ k ∧ log2_segment_size ≤ k < 40;
  os_granularity : ∃ k, vm_allocation_granularity os = 2 ^ k ∧ 0 ≤ k < 40;
  os_region : ∀ p, page_size_for_region os = Some p → ∃ k, p = 2 ^ k ∧ k < 40 ∧ (vm_page_size os | p) ∧ log2_segment_size ≤ k
}.

Lemma reserved_sizes s R C :
  os_ok s → 0 ≤ s → 0 ≤ C ≤ R → R < 2 ^ 61 →
  let page_size := default (vm_page_size os) (page_size_for_region os) in
  let r_size := u64 (align_size_up R (Z.max page_size (vm_allocation_granularity os))) in
  let c_size := u64 (align_size_up C page_size) in
  (vm_page_size os | c_size) ∧ (2 ^ s | c_size) ∧ (2 ^ s | r_size) ∧ C ≤ c_size ≤ r_size ∧ R ≤ r_size < R + 2 ^ 40.
Proof.
  intros [(kp & Ep & Hkp) (kg & Eg & Hkg) Hreg] Hs HC HR page_size.
  assert (∃ k, page_size = 2 ^ k ∧ s ≤ k < 40 ∧ (vm_page_size os | page_size)) as (k & -> & Hk & Hdiv).
  { subst page_size. destruct (page_size_for_region os) as [p|]; cbn [default]; [|by exists kp].
    destruct (Hreg p eq_refl) as (k & ? & ? & ? & ?). exists k. split_and!; done || lia. }
  rewrite Eg. assert (∃ K, Z.max (2 ^ k) (2 ^ kg) = 2 ^ K ∧ k ≤ K < 40) as (K & -> & HK).
  { destruct (decide (k ≤ kg)) as [Hle|Hgt]; [exists kg|exists k]; split; try lia.
    - apply Z.max_r, Z.pow_le_mono_r; lia.
    - apply Z.max_l, Z.pow_le_mono_r; lia. }
  assert (0 < 2 ^ K < 2 ^ 40) as HbK by (split; [apply Z.pow_pos_nonneg|apply Z.pow_lt_mono_r]; lia).
  assert (0 < 2 ^ k < 2 ^ 40) as Hbk by (split; [apply Z.pow_pos_nonneg|apply Z.pow_lt_mono_r]; lia).
  cbn zeta. rewrite !align_size_up_spec by lia. pose proof (round_to_bounds R K ltac:(lia) ltac:(lia)).
  pose proof (round_to_bounds C k ltac:(lia) ltac:(lia)). rewrite !wrapU_id by (unfold in_u; lia).
  pose proof (round_to_divide C k ltac:(lia)) as Hc. pose proof (round_to_divide R K ltac:(lia)) as Hr.
  split_and!; try lia.
  - by eapply Z.divide_trans.
  - eapply Z.divide_trans; [apply (pow2_divide s k); lia|done].
  - eapply Z.divide_trans; [apply (pow2_divide s K); lia|done].
  - apply round_to_least; [lia|lia|]. eapply Z.divide_trans; [apply (pow2_divide k K); lia|done].
Qed.

Lemma heap_reserve_spec base s R C :
  os_ok s → 5 ≤ s < 32 → 0 < base < 2 ^ 60 → 0 ≤ C ≤ R → R < 2 ^ 60 →
  ∃ h, reserve os base true true R C (2 ^ s) new_CodeHeap = Some (true, h) ∧ heap_inv h [] ∧ paged h ∧
    ch_low h = base ∧ R ≤ ch_reserved_size h ∧ C ≤ ch_committed_size h.
Proof.
  intros Hos Hs Hb HC HR. pose proof (reserved_sizes s R C Hos ltac:(lia) HC ltac:(lia)) as Hsz. cbn zeta in Hsz.
  unfold reserve. erewrite M_bind_Some by reflexivity. cbn zeta. cbn [negb].
  set (r := u64 (align_size_up R _)) in *. set (c := u64 (align_size_up C _)) in *. destruct Hsz as (Hp & [n Hn] & [N HN] & Hcr & Hr).
  erewrite M_bind_Some by reflexivity. rewrite M_bind_get. rewrite (exact_log2_pow2 s) by lia.
  cbn [ch_segment_size ch_log2_segment_size ch_blocks ch_segmap ch_number_of_committed_segments ch_number_of_reserved_segments ch_next_segment
       ch_freelist ch_freelist_segments new_CodeHeap].
  assert (32 ≤ 2 ^ s < 2 ^ 32) as Hps by (split; [apply (Z.pow_le_mono_r 2 5)|apply Z.pow_lt_mono_r]; lia).
  set (g := mkHeap base c r ∅ (replicate (Z.to_nat n) 0) n N (2 ^ s) s 0 0 0).
  assert (geometry g) as Gg.
  { split; cbn; try done; try lia; [unfold high_boundary; cbn; lia|nia|unfold zlen; rewrite length_replicate; nia]. }
  assert (∀ h0 m, ch_segment_size h0 = 2 ^ s → ch_log2_segment_size h0 = s → 0 ≤ m ≤ N → size_to_segments h0 (m * 2 ^ s) = m) as Hst.
  { intros h0 m E1 E2 Hm. rewrite <- (size_to_segments_exact g m Gg Hm) at 2. unfold size_to_segments. by rewrite E1, E2. }
  assert (0 ≤ n ≤ N) as HnN by nia. rewrite Hn, HN. rewrite !Hst by (done || lia). rewrite <- Hn, <- HN.
  set (sz := align_to_page_size os n).
  assert (n ≤ sz) as Hnsz.
  { subst sz. destruct (os_page _ Hos) as (k & E & Hk). rewrite (align_to_page_spec k) by (done || nia).
    pose proof (round_to_bounds n k ltac:(lia) ltac:(lia)). lia. }
  set (h1 := mkHeap base c r ∅ (replicate (Z.to_nat sz) 0) n N (2 ^ s) s 0 0 0).
  assert (zlen (ch_segmap h1) = sz) as Hz by (cbn; unfold zlen; rewrite length_replicate; lia).
  destruct (mark_free_spec 0 n h1) as (mp & Emp & (Hl & Hin & _)); [lia|lia|].
  exists (set_segmap mp h1). split; [|split_and!; [|split|done|cbn; lia|cbn; lia]].
  - erewrite M_bind_Some by reflexivity. erewrite M_bind_Some; [done|]. exact Emp.
  - split; cbn; try done; try lia.
    + destruct Gg. split; try done. cbn. lia.
    + intros k Hk. destruct (Hin k) as (v & -> & ->); [lia|done].
  - apply (os_page _ Hos).
  - done.
  - cbn. by rewrite Hl.
Qed.
End growth.
