(* ===== verification/CodeCache.v ===== *)
(** * The code cache

    code/codeCache.hpp and code/codeCache.cpp: allocation with expansion, release,
    lookup of the blob at an address and the loops over all blobs, on top of the
    code heap of memory/heap.cpp. *)

From stdpp Require Import base numbers list gmap sorting relations.
From S2P Require Import Prelude GlobalDefinitions CodeHeap CodeHeapLookup.
Local Open Scope Z_scope.

(** ** State *)

Record CodeCache := mkCache {
  cc_heap : CodeHeap;
  cc_number_of_blobs : Z;
  cc_number_of_adapters : Z;
  cc_number_of_nmethods : Z;
  cc_number_of_nmethods_with_dependencies : Z;
  cc_maxCodeCacheUsed : Z
}.

Definition set_heap h c := mkCache h (cc_number_of_blobs c) (cc_number_of_adapters c) (cc_number_of_nmethods c)
  (cc_number_of_nmethods_with_dependencies c) (cc_maxCodeCacheUsed c).
Definition add_blobs n c := mkCache (cc_heap c) (s32 (cc_number_of_blobs c + n)) (cc_number_of_adapters c) (cc_number_of_nmethods c)
  (cc_number_of_nmethods_with_dependencies c) (cc_maxCodeCacheUsed c).
Definition add_adapters n c := mkCache (cc_heap c) (cc_number_of_blobs c) (s32 (cc_number_of_adapters c + n)) (cc_number_of_nmethods c)
  (cc_number_of_nmethods_with_dependencies c) (cc_maxCodeCacheUsed c).
Definition add_nmethods n c := mkCache (cc_heap c) (cc_number_of_blobs c) (cc_number_of_adapters c) (s32 (cc_number_of_nmethods c + n))
  (cc_number_of_nmethods_with_dependencies c) (cc_maxCodeCacheUsed c).
Definition add_dependent n c := mkCache (cc_heap c) (cc_number_of_blobs c) (cc_number_of_adapters c) (cc_number_of_nmethods c)
  (s32 (cc_number_of_nmethods_with_dependencies c + n)) (cc_maxCodeCacheUsed c).
Definition set_max_used n c := mkCache (cc_heap c) (cc_number_of_blobs c) (cc_number_of_adapters c) (cc_number_of_nmethods c)
  (cc_number_of_nmethods_with_dependencies c) n.

Definition cmodify (f : CodeCache → CodeCache) : M CodeCache unit := λ c, Some (tt, f c).
Definition on_heap {A} (m : M CodeHeap A) : M CodeCache A := λ c,
  '(x, h) ← m (cc_heap c); Some (x, set_heap h c).

(** What the virtual functions of a blob answer. *)
Record blob_kind := mkKind { is_nmethod : bool; has_dependencies : bool; is_adapter_blob : bool }.

(** ** Operations *)

Definition cache_first : M CodeCache Z := on_heap first.
Definition cache_next (cb : Z) : M CodeCache Z := on_heap (next cb).

(** [blob_size] gives the [_size] that the blob at an address holds. The heap is
    there. *)
Definition blob_contains (blob_size : Z → Z) (blob addr : Z) : bool := (blob <=? addr) && (addr <? blob + blob_size blob).
Definition find_blob_unsafe (blob_size : Z → Z) (start : Z) : M CodeCache Z :=
  result ← on_heap (find_start start);
  mret (if negb (result =? 0) && negb (blob_contains blob_size result start) then 0 else result).

Definition max_capacity (h : CodeHeap) : Z := ch_reserved_size h.
Definition unallocated_capacity (h : CodeHeap) : Z := u64 (max_capacity h - allocated_capacity h).

Section flags.
Context (os : os_pages) (CodeCacheMinBlockLength CodeCacheMinimumFreeSpace CodeCacheExpansionSize : Z).

(** [answers n] is what [os::commit_memory] says in the [n]-th round, for the
    memory and for the segment map. *)
Fixpoint allocate_loop (fuel : nat) (answers : nat → bool * bool) (n : nat) (size : Z) (is_critical : bool) : M CodeHeap Z :=
  match fuel with
  | O => mfailS
  | S fuel' =>
      cb ← allocate CodeCacheMinBlockLength CodeCacheMinimumFreeSpace size is_critical;
      if negb (cb =? 0) then mret cb
      else
        ok ← expand_by os (answers n).1 (answers n).2 CodeCacheExpansionSize;
        if negb ok then mret 0 else allocate_loop fuel' answers (S n) size is_critical
  end.

(** Every expansion but the last commits a segment. *)
Definition expansions (h : CodeHeap) : nat := S (S (Z.to_nat (ch_number_of_reserved_segments h))).

Definition cache_allocate (answers : nat → bool * bool) (size : Z) (is_critical : bool) : M CodeCache Z :=
  if negb (0 <=? size) then mfailS
  else
    cmodify (add_blobs 1) ;;
    c ← mget;
    cb ← on_heap (allocate_loop (expansions (cc_heap c)) answers 0 size is_critical);
    if cb =? 0 then mret 0
    else
      c ← mget;
      let h := cc_heap c in
      let used := u64 (u64 (high_boundary h - ch_low h) - unallocated_capacity h) in
      cmodify (set_max_used (Z.max (cc_maxCodeCacheUsed c) used)) ;;
      mret cb.
End flags.

Definition cache_free (kind : blob_kind) (cb : Z) : M CodeCache unit :=
  (if is_nmethod kind
   then cmodify (add_nmethods (-1)) ;; (if has_dependencies kind then cmodify (add_dependent (-1)) else mret tt)
   else mret tt) ;;
  (if is_adapter_blob kind then cmodify (add_adapters (-1)) else mret tt) ;;
  cmodify (add_blobs (-1)) ;;
  on_heap (deallocate cb).

Definition cache_commit (kind : blob_kind) : M CodeCache unit :=
  (if is_nmethod kind
   then cmodify (add_nmethods 1) ;; (if has_dependencies kind then cmodify (add_dependent 1) else mret tt)
   else mret tt) ;;
  (if is_adapter_blob kind then cmodify (add_adapters 1) else mret tt).

Definition new_CodeCache : CodeCache := mkCache new_CodeHeap 0 0 0 0 0.

(** The sizes are those of the flags before; the answer is the expansion size
    after. A heap that can not be reserved ends the VM. *)
Definition cache_initialize (os : os_pages) (base : Z) (memory_ok segmap_ok : bool)
    (ExpansionSize InitialCodeCacheSize ReservedCodeCacheSize CodeCacheSegmentSize : Z) : M CodeCache Z :=
  let ExpansionSize := round_to ExpansionSize (vm_page_size os) in
  let InitialCodeCacheSize := round_to InitialCodeCacheSize (vm_page_size os) in
  let ReservedCodeCacheSize := round_to ReservedCodeCacheSize (vm_page_size os) in
  ok ← on_heap (reserve os base memory_ok segmap_ok ReservedCodeCacheSize InitialCodeCacheSize CodeCacheSegmentSize);
  if negb ok then mfailS else mret ExpansionSize.

(** ** Loops over blobs

    [good] is the condition the loops wait for; it and the loop bodies leave the
    heap alone. *)

Definition loop_fuel (h : CodeHeap) : nat := S (Z.to_nat (ch_next_segment h)).

(** [while (cb != NULL && !good(cb)) cb = next(cb);] *)
Fixpoint skip_loop (fuel : nat) (good : Z → bool) (cb : Z) : M CodeCache Z :=
  match fuel with
  | O => mfailS
  | S fuel' => if negb (cb =? 0) && negb (good cb) then cb ← cache_next cb; skip_loop fuel' good cb else mret cb
  end.
Definition skip (good : Z → bool) (cb : Z) : M CodeCache Z := c ← mget; skip_loop (loop_fuel (cc_heap c)) good cb.

Definition alive (is_alive : Z → bool) (cb : Z) : M CodeCache Z := skip is_alive cb.
Definition alive_nmethod (is_alive is_nmethod : Z → bool) (cb : Z) : M CodeCache Z :=
  skip (λ cb, negb (negb (is_alive cb) || negb (is_nmethod cb))) cb.
Definition first_nmethod (is_nmethod : Z → bool) : M CodeCache Z := cb ← cache_first; skip is_nmethod cb.
Definition next_nmethod (is_nmethod : Z → bool) (cb : Z) : M CodeCache Z := cb ← cache_next cb; skip is_nmethod cb.

(** [for (cb = start; cb != NULL; cb = step(next(cb))) f(cb);] *)
Fixpoint blob_loop {A} (fuel : nat) (step : Z → M CodeCache Z) (f : A → Z → A) (a : A) (cb : Z) : M CodeCache A :=
  match fuel with
  | O => mfailS
  | S fuel' =>
      if cb =? 0 then mret a
      else let a := f a cb in cb ← cache_next cb; cb ← step cb; blob_loop fuel' step f a cb
  end.
Definition for_all {A} (step : Z → M CodeCache Z) (f : A → Z → A) (a : A) : M CodeCache A :=
  cb ← cache_first; cb ← step cb; c ← mget; blob_loop (loop_fuel (cc_heap c)) step f a cb.

Definition blobs_do {A} (f : A → Z → A) (a : A) : M CodeCache A := for_all mret f a.
Definition nmethods_do {A} (is_nmethod : Z → bool) (f : A → Z → A) (a : A) : M CodeCache A :=
  for_all mret (λ a nm, if is_nmethod nm then f a nm else a) a.
Definition alive_nmethods_do {A} (is_alive is_nmethod : Z → bool) (f : A → Z → A) (a : A) : M CodeCache A :=
  for_all (alive_nmethod is_alive is_nmethod) f a.
(** [blobs_do(CodeBlobClosure* f)]. *)
Definition blobs_do_closure {A} (is_alive : Z → bool) (f : A → Z → A) (a : A) : M CodeCache A := for_all (alive is_alive) f a.

(** ** Loops *)

Definition head0 (ps : list Z) : Z := default 0 (head ps).

(** What the heap promises to the loops over its blocks: they come in the order
    of [ps], and end. *)
Record iterates (h : CodeHeap) (ps : list Z) : Prop := {
  it_first : first h = Some (head0 ps, h);
  it_next : ∀ l1 p l2, ps = l1 ++ p :: l2 → next p h = Some (head0 l2, h);
  it_null : ∀ p, p ∈ ps → p ≠ 0;
  it_length : Z.of_nat (length ps) ≤ ch_next_segment h
}.

Lemma filter_split {A} (P : A → Prop) `{!∀ x, Decision (P x)} l l1 x l2 :
  filter P l = l1 ++ x :: l2 → ∃ k1 k2, l = k1 ++ x :: k2 ∧ filter P k2 = l2.
Proof.
  revert l1. induction l as [|y l IH]; intros l1; [by destruct l1|]. rewrite filter_cons. case_decide.
  - destruct l1 as [|z l1]; cbn; intros [= -> E]; [by exists [], l|]. destruct (IH _ E) as (k1 & k2 & -> & ?). by exists (z :: k1), k2.
  - intros E. destruct (IH _ E) as (k1 & k2 & -> & ?). by exists (y :: k1), k2.
Qed.
Lemma used_length bs : (length (used_blocks bs) ≤ length bs)%nat.
Proof. apply length_filter. Qed.

Lemma heap_iterates h bs : heap_inv h bs → merged bs → iterates h (ptr h <$> used_blocks bs).
Proof.
  intros Hinv Hm. pose proof (hi_geometry _ _ Hinv) as G. assert (∀ l, head0 (ptr h <$> l) = head_ptr h l) as Hh by (by intros []).
  split.
  - rewrite Hh. by apply first_spec.
  - intros l1 p l2 E. apply fmap_app_inv in E as (k1 & k & -> & E & Eu). symmetry in E. apply fmap_cons_inv in E as (x & k2 & -> & -> & ->).
    apply filter_split in Eu as Hs. destruct Hs as (bs1 & bs2 & E & <-).
    assert (b_used x = true) as Hx by (apply (list_elem_of_filter (λ x, b_used x = true) bs); unfold used_blocks in Eu; rewrite Eu; set_solver).
    destruct x as [i n u]. cbn in Hx. subst u. rewrite Hh. by eapply next_spec.
  - intros p (x & -> & Hx)%list_elem_of_fmap. apply list_elem_of_filter in Hx as [_ Hx].
    destruct (tiles_elem _ _ _ _ (hi_tiles _ _ Hinv) Hx) as (? & ? & ?). pose proof (g_low h G). pose proof (segment_pos h G).
    unfold ptr, addr, sizeof_HeapBlock. nia.
  - rewrite length_fmap. pose proof (used_length bs). pose proof (tiles_length _ _ _ (hi_tiles _ _ Hinv)). lia.
Qed.

Lemma used_sorted h b bs e :
  0 < ch_segment_size h → tiles b bs e →
  StronglySorted Z.lt (ptr h <$> used_blocks bs) ∧ Forall (λ p, addr h b + sizeof_HeapBlock ≤ p) (ptr h <$> used_blocks bs).
Proof.
  intros Hs. revert b. induction bs as [|x bs IH]; intros b; cbn [tiles]; [repeat constructor|]. intros (<- & Hl & Ht).
  destruct (IH _ Ht) as [Hss Hf]. assert (addr h (b_start x) < addr h (b_start x + b_len x)) as Hlt by (unfold addr; nia).
  unfold used_blocks. rewrite filter_cons. case_decide.
  - rewrite fmap_cons. split; constructor; [done| |unfold ptr; lia|]; (eapply Forall_impl; [exact Hf|]); intros p; unfold ptr; cbn; lia.
  - split; [done|]. eapply Forall_impl; [exact Hf|]. intros p. cbn. lia.
Qed.

Lemma on_heap_same {A} (m : M CodeHeap A) c x : m (cc_heap c) = Some (x, cc_heap c) → on_heap m c = Some (x, c).
Proof. unfold on_heap. intros ->. by destruct c. Qed.

Fixpoint drop_until (good : Z → bool) (l : list Z) : list Z :=
  match l with [] => [] | p :: l' => if good p then l else drop_until good l' end.

Lemma drop_until_spec good l :
  (drop_until good l = [] ∧ filter (λ p, good p = true) l = []) ∨
  ∃ l1 p l2, l = l1 ++ p :: l2 ∧ drop_until good l = p :: l2 ∧ filter (λ p, good p = true) l = p :: filter (λ p, good p = true) l2.
Proof.
  induction l as [|p l IH]; [by left|]. cbn [drop_until]. rewrite filter_cons. destruct (good p) eqn:Hg.
  - right. exists [], p, l. by rewrite decide_True.
  - rewrite decide_False by done. destruct IH as [?|(l1 & q & l2 & -> & ? & ?)]; [by left|]. right. by exists (p :: l1), q, l2.
Qed.

Lemma filter_true (l : list Z) : filter (λ p, (λ _, true) p = true) l = l.
Proof. induction l as [|p l IH]; [done|]. rewrite filter_cons, decide_True by done. by f_equal. Qed.
Lemma foldl_filter {A} (g : Z → bool) (f : A → Z → A) l a :
  foldl (λ a p, if g p then f a p else a) a l = foldl f a (filter (λ p, g p = true) l).
Proof.
  revert a. induction l as [|p l IH]; intros a; [done|]. rewrite filter_cons. cbn [foldl]. rewrite IH.
  destruct (g p) eqn:E; [by rewrite decide_True|by rewrite decide_False].
Qed.

Section loops.
Context (c : CodeCache) (ps : list Z) (Hit : iterates (cc_heap c) ps).

Lemma cache_next_spec l1 p l2 : ps = l1 ++ p :: l2 → cache_next p c = Some (head0 l2, c).
Proof. intros E. by apply on_heap_same, (it_next _ _ Hit l1). Qed.
Lemma cons_not_null l1 p l2 : ps = l1 ++ p :: l2 → (p =? 0) = false.
Proof. intros E. apply Z.eqb_neq, (it_null _ _ Hit). rewrite E. set_solver. Qed.
Lemma fuel_enough l1 l2 : ps = l1 ++ l2 → (length l2 < loop_fuel (cc_heap c))%nat.
Proof. intros E. pose proof (it_length _ _ Hit) as Hl. rewrite E, length_app in Hl. unfold loop_fuel. lia. Qed.

Lemma skip_loop_spec good fuel l1 l2 :
  ps = l1 ++ l2 → (length l2 < fuel)%nat → skip_loop fuel good (head0 l2) c = Some (head0 (drop_until good l2), c).
Proof.
  revert fuel l1. induction l2 as [|p l2 IH]; intros [|fuel] l1 E Hf; cbn [length] in Hf; [lia|done|lia|].
  cbn [skip_loop drop_until]. change (head0 (p :: l2)) with p. rewrite (cons_not_null _ _ _ E). cbn [negb andb].
  destruct (good p) eqn:Hg; cbn [negb]; [done|]. rewrite (M_bind_Some _ _ _ _ _ (cache_next_spec _ _ _ E)).
  apply (IH fuel (l1 ++ [p])); [by rewrite <- app_assoc|lia].
Qed.

(** The step of a loop goes to the next blob that is [good]. *)
Definition steps_to (step : Z → M CodeCache Z) (good : Z → bool) : Prop :=
  ∀ l1 l2, ps = l1 ++ l2 → step (head0 l2) c = Some (head0 (drop_until good l2), c).

Lemma steps_ret : steps_to mret (λ _, true).
Proof. intros l1 [|p l2] _; done. Qed.
Lemma steps_skip good : steps_to (skip good) good.
Proof. intros l1 l2 E. unfold skip. rewrite M_bind_get. apply (skip_loop_spec _ _ l1); [done|by apply (fuel_enough l1)]. Qed.

Lemma blob_loop_spec {A} step good (f : A → Z → A) fuel l1 l2 a :
  steps_to step good → ps = l1 ++ l2 → (length l2 < fuel)%nat →
  blob_loop fuel step f a (head0 (drop_until good l2)) c = Some (foldl f a (filter (λ p, good p = true) l2), c).
Proof.
  intros Hstep. revert l1 l2 a. induction fuel as [|fuel IH]; intros l1 l2 a E Hf; [lia|]. cbn [blob_loop].
  destruct (drop_until_spec good l2) as [[-> ->]|(k1 & p & k2 & -> & -> & ->)]; [done|]. change (head0 (p :: k2)) with p.
  rewrite app_assoc in E. rewrite (cons_not_null _ _ _ E). rewrite (M_bind_Some _ _ _ _ _ (cache_next_spec _ _ _ E)).
  assert (ps = ((l1 ++ k1) ++ [p]) ++ k2) as E' by (by rewrite <- app_assoc).
  rewrite (M_bind_Some _ _ _ _ _ (Hstep _ _ E')). cbn [foldl]. apply (IH _ k2 _ E'). rewrite length_app in Hf. cbn [length] in Hf. lia.
Qed.

Lemma for_all_spec {A} step good (f : A → Z → A) a :
  steps_to step good → for_all step f a c = Some (foldl f a (filter (λ p, good p = true) ps), c).
Proof.
  intros Hstep. unfold for_all. rewrite (M_bind_Some _ _ _ _ _ (on_heap_same _ _ _ (it_first _ _ Hit))).
  rewrite (M_bind_Some _ _ _ _ _ (Hstep [] ps eq_refl)), M_bind_get. apply (blob_loop_spec _ _ _ _ []); [done|done|].
  by apply (fuel_enough []).
Qed.
End loops.

(** ** Live blobs *)

(** [live] maps the pointers that were handed out to the sizes asked for. *)
Record cache_inv (os : os_pages) (h : CodeHeap) (live : gmap Z Z) (bs : list Block) : Prop := {
  ci_heap : heap_inv h bs;
  ci_merged : merged bs;
  ci_paged : paged os h;
  ci_live : ∀ p size, live !! p = Some size →
    ∃ i n, mkB i n true ∈ bs ∧ p = addr h i + sizeof_HeapBlock ∧ 0 ≤ size ∧ size + sizeof_HeapBlock ≤ n * ch_segment_size h;
  ci_used : ∀ i n, mkB i n true ∈ bs → is_Some (live !! (addr h i + sizeof_HeapBlock))
}.

Lemma used_elem i n bs : mkB i n true ∈ used_blocks bs ↔ mkB i n true ∈ bs.
Proof. unfold used_blocks. rewrite list_elem_of_filter. naive_solver. Qed.

Section live.
Context (os : os_pages).

(** A new block is none of those in use. *)
Lemma allocated_fresh h h' bs i n n' : heap_inv h bs → allocated_at h h' bs i n → mkB i n' true ∉ bs.
Proof.
  intros Hinv (bs' & l1 & l2 & Hinv' & He & E & E' & _) Hin. pose proof (segment_pos h' (hi_geometry _ _ Hinv')) as Hs.
  destruct (used_sorted h' _ _ _ ltac:(lia) (hi_tiles _ _ Hinv')) as [Hss _]. rewrite E', fmap_app, fmap_cons in Hss.
  apply used_elem in Hin. rewrite E in Hin. apply (list_elem_of_fmap_2 (ptr h')) in Hin. rewrite fmap_app in Hin.
  change (ptr h' (mkB i n' true)) with (ptr h' (mkB i n true)) in Hin. set (p := ptr h' _) in *.
  apply elem_of_app in Hin as [Hin|Hin].
  - assert (p < p); [|lia]. eapply StronglySorted_app_1_elem_of; [exact Hss|done|by left].
  - apply StronglySorted_app_1_r, StronglySorted_inv in Hss as [_ Hf]. rewrite Forall_forall in Hf. specialize (Hf p Hin). lia.
Qed.

Lemma inv_allocated h h' live bs i n size :
  cache_inv os h live bs → allocated_at h h' bs i n → 0 ≤ size → size + sizeof_HeapBlock ≤ n * ch_segment_size h →
  let p := addr h i + sizeof_HeapBlock in live !! p = None ∧ ∃ bs', cache_inv os h' (<[p := size]> live) bs'.
Proof.
  intros [Hh Hm Hp Hl Hu] Hal H0 Hsz p. pose proof (allocated_fresh h h' bs i n) as Hfresh. split.
  { destruct (live !! p) as [s|] eqn:E; [|done]. destruct (Hl _ _ E) as (j & m & Hin & Ej & _).
    assert (i = j) as <- by (apply (addr_inj h (hi_geometry _ _ Hh)); lia). by destruct (Hfresh m Hh Hal). }
  destruct Hal as (bs' & l1 & l2 & Hinv' & He & E & E' & Hm'). exists bs'.
  assert (∀ j m, mkB j m true ∈ bs' ↔ mkB j m true ∈ bs ∨ mkB j m true = mkB i n true) as Hbs.
  { intros j m. rewrite <- (used_elem j m bs), <- (used_elem j m bs'), E, E', !elem_of_app, elem_of_cons. tauto. }
  split; [done|by apply Hm'|by eapply same_extent_paged| |].
  - intros q s [[<- <-]|[Hne Hq]]%lookup_insert_Some; rewrite (se_size _ _ He).
    + exists i, n. rewrite (same_extent_addr h h' i He). split_and!; [apply Hbs; by right|done..].
    + destruct (Hl _ _ Hq) as (j & m & Hin & ? & ?). exists j, m. rewrite (same_extent_addr h h' j He). split; [apply Hbs; by left|done].
  - intros j m Hin. rewrite (same_extent_addr h h' j He). apply lookup_insert_is_Some.
    apply Hbs in Hin as [Hin|[= -> ->]]; [|by left]. destruct (decide (p = addr h j + sizeof_HeapBlock)); [by left|right].
    split; [done|by eapply Hu].
Qed.

Lemma inv_freed h live bs p :
  cache_inv os h live bs → is_Some (live !! p) → ∃ h' bs', deallocate p h = Some (tt, h') ∧ cache_inv os h' (delete p live) bs'.
Proof.
  intros [Hh Hm Hp Hl Hu] [s E]. destruct (Hl _ _ E) as (i & n & Hin & -> & _). apply list_elem_of_split in Hin as (bs1 & bs2 & ->).
  destruct (inv_block _ _ _ _ _ _ Hh) as [Hrange _ _ Ht1 Ht2].
  destruct (deallocate_spec h bs1 i n bs2 Hh) as (h' & Ed & bs' & Hinv' & He & Hnx & Eu & Hm'). exists h', bs'. split; [done|].
  assert (∀ j m, mkB j m true ∈ bs' ↔ mkB j m true ∈ bs1 ++ bs2) as Hbs.
  { intros j m. by rewrite <- (used_elem j m bs'), Eu, <- used_blocks_app, used_elem. }
  split; [done|by eapply Hm'|by eapply same_extent_paged| |].
  - intros q t [Hne Hq]%lookup_delete_Some. destruct (Hl _ _ Hq) as (j & m & Hin & -> & Hs). exists j, m.
    rewrite (same_extent_addr h h' j He), (se_size _ _ He). split; [|done]. apply Hbs. apply elem_of_app.
    apply elem_of_app in Hin as [?|[[= -> ->]|?]%elem_of_cons]; [by left|done|by right].
  - intros j m Hin%Hbs. rewrite (same_extent_addr h h' j He). apply lookup_delete_is_Some.
    assert (mkB j m true ∈ bs1 ++ mkB i n true :: bs2) as Hin' by (set_solver). split; [|by eapply Hu].
    intros Ea. assert (i = j) as <- by (apply (addr_inj h (hi_geometry _ _ Hh)); lia).
    apply elem_of_app in Hin as [Hin|Hin]; [destruct (tiles_elem _ _ _ _ Ht1 Hin)|destruct (tiles_elem _ _ _ _ Ht2 Hin)]; cbn in *; lia.
Qed.

Lemma inv_written h h' live bs p :
  cache_inv os h live bs → is_Some (live !! p) → written h h' p → cache_inv os h' live bs.
Proof.
  intros [Hh Hm Hp Hl Hu] [s E] Hw. destruct (Hl _ _ E) as (i & n & Hin & -> & _).
  apply list_elem_of_split in Hin as (bs1 & bs2 & ->). destruct (written_inv _ _ _ _ _ _ Hh Hw) as [Hh' He].
  split; [done|done|by eapply same_extent_paged| |].
  - intros q t Hq. destruct (Hl _ _ Hq) as (j & m & ?). exists j, m. by rewrite (same_extent_addr h h' j He), (se_size _ _ He).
  - intros j m. rewrite (same_extent_addr h h' j He). apply Hu.
Qed.

Lemma inv_grown h h' live bs :
  cache_inv os h live bs → heap_inv h' bs → paged os h' → grown h h' → cache_inv os h' live bs.
Proof.
  intros [Hh Hm Hp Hl Hu] Hh' Hp' Hg. split; [done|done|done| |].
  - intros q t Hq. destruct (Hl _ _ Hq) as (j & m & ?). exists j, m. by rewrite (grown_addr h h' j Hg), (gr_segment _ _ Hg).
  - intros j m. rewrite (grown_addr h h' j Hg). apply Hu.
Qed.

(** Where a live blob is. *)
Lemma live_range h live bs p size :
  cache_inv os h live bs → live !! p = Some size →
  ch_low h + sizeof_HeapBlock ≤ p ∧ p + size ≤ high h ∧ (ch_segment_size h | p - sizeof_HeapBlock - ch_low h).
Proof.
  intros [Hh _ _ Hl _] E. destruct (Hl _ _ E) as (i & n & Hin & -> & H0 & Hs). pose proof (hi_geometry _ _ Hh) as G.
  destruct (tiles_elem _ _ _ _ (hi_tiles _ _ Hh) Hin) as (? & ? & ?). cbn [b_start b_len] in *. pose proof (hi_next _ _ Hh).
  pose proof (g_committed h G). pose proof (segment_pos h G). unfold high, addr. split_and!; [nia|nia|]. exists i. lia.
Qed.

Lemma tiles_disjoint b bs e i n j m :
  tiles b bs e → mkB i n true ∈ bs → mkB j m true ∈ bs → i ≠ j → i + n ≤ j ∨ j + m ≤ i.
Proof.
  intros Ht Hi Hj Hne. apply list_elem_of_split in Hi as (bs1 & bs2 & ->). apply tiles_app in Ht as (e1 & Ht1 & Hs & Hn & Ht2).
  cbn [b_start b_len] in *. subst e1.
  apply elem_of_app in Hj as [Hj|[[= -> ->]|Hj]%elem_of_cons]; [right|done|left].
  - destruct (tiles_elem _ _ _ _ Ht1 Hj) as (_ & _ & ?). done.
  - by destruct (tiles_elem _ _ _ _ Ht2 Hj) as (? & _ & _).
Qed.

Lemma live_disjoint h live bs p q size size' :
  cache_inv os h live bs → live !! p = Some size → live !! q = Some size' → p ≠ q →
  p + size ≤ q - sizeof_HeapBlock ∨ q + size' ≤ p - sizeof_HeapBlock.
Proof.
  intros [Hh _ _ Hl _] Ep Eq Hne. destruct (Hl _ _ Ep) as (i & n & Hi & -> & _ & Hs). destruct (Hl _ _ Eq) as (j & m & Hj & -> & _ & Hs').
  pose proof (segment_pos h (hi_geometry _ _ Hh)). assert (i ≠ j) as Hij by (by intros ->).
  destruct (tiles_disjoint _ _ _ _ _ _ _ (hi_tiles _ _ Hh) Hi Hj Hij); [left|right]; unfold addr; nia.
Qed.

(** A blob takes no more than what was allocated for it. *)
Definition sizes_fit (blob_size : Z → Z) (live : gmap Z Z) : Prop := ∀ p size, live !! p = Some size → blob_size p ≤ size.

Lemma blob_contains_spec blob_size p q : blob_contains blob_size p q = true ↔ p ≤ q < p + blob_size p.
Proof. unfold blob_contains. rewrite andb_true_iff, Z.leb_le, Z.ltb_lt. done. Qed.

Lemma live_found c live bs blob_size p q :
  cache_inv os (cc_heap c) live bs → sizes_fit blob_size live → is_Some (live !! p) → p ≤ q < p + blob_size p →
  find_blob_unsafe blob_size q c = Some (p, c).
Proof.
  intros [Hh _ _ Hl _] Hfit [size Ep] Hq. pose proof (Hfit _ _ Ep). destruct (Hl _ _ Ep) as (i & n & Hi & Ei & _ & Hs).
  pose proof (hi_geometry _ _ Hh) as G. unfold find_blob_unsafe.
  assert (addr (cc_heap c) i ≤ q < addr (cc_heap c) (i + n)) as Hr by (unfold addr, sizeof_HeapBlock in *; nia).
  rewrite (M_bind_Some _ _ _ _ _ (on_heap_same _ _ _ (find_start_used _ _ G Hh i n q Hi Hr))), <- Ei.
  rewrite (proj2 (blob_contains_spec blob_size p q) Hq), andb_false_r. done.
Qed.
Lemma found_live c live bs blob_size q :
  cache_inv os (cc_heap c) live bs →
  ∃ r, find_blob_unsafe blob_size q c = Some (r, c) ∧ (r = 0 ∨ is_Some (live !! r) ∧ r ≤ q < r + blob_size r).
Proof.
  intros [Hh _ _ _ Hu]. destruct (find_start_any _ _ (hi_geometry _ _ Hh) Hh q) as (r & E & Hr). unfold find_blob_unsafe.
  rewrite (M_bind_Some _ _ _ _ _ (on_heap_same _ _ _ E)). eexists. split; [done|].
  destruct (negb (r =? 0) && _) eqn:Hc; [by left|]. destruct Hr as [?|(i & n & Hin & _ & ->)]; [by left|].
  apply andb_false_iff in Hc as [?%negb_false_iff%Z.eqb_eq|Hc%negb_false_iff%blob_contains_spec]; [by left|right].
  split; [by eapply Hu|done].
Qed.

Lemma live_pointers h live bs p : cache_inv os h live bs → p ∈ ptr h <$> used_blocks bs ↔ is_Some (live !! p).
Proof.
  intros [Hh _ _ Hl Hu]. rewrite list_elem_of_fmap. split.
  - intros ([i n u] & -> & [Hx Hin]%list_elem_of_filter). cbn in Hx. subst u. by eapply Hu.
  - intros [s E]. destruct (Hl _ _ E) as (i & n & Hin & -> & _). exists (mkB i n true). split; [done|by apply used_elem].
Qed.

(** Where no free block is long enough, every run of segments meets a live block. *)
Lemma no_free_run h live bs n i :
  cache_inv os h live bs → (∀ x, x ∈ bs → b_used x = false → b_len x < n) → 0 < n → 0 ≤ i → i + n ≤ ch_next_segment h →
  ∃ j, is_Some (live !! (addr h j + sizeof_HeapBlock)) ∧ j < i + n ∧ i < j + fb_length (hd h j).
Proof.
  intros [Hh Hm _ _ Hu] Hno Hn Hi Hin. destruct (tiles_cover _ _ _ i (hi_tiles _ _ Hh)) as (bs1 & j & m & u & bs2 & E & Hj); [lia|].
  destruct (block_known h bs Hh _ _ _ _ _ E) as [[_ Hlen _ _ Ht2] _]. destruct u.
  { exists j. split; [apply (Hu j m); rewrite E; set_solver|]. lia. }
  pose proof (Hno (mkB j m false) ltac:(rewrite E; set_solver) eq_refl) as Hlt. cbn in Hlt.
  destruct bs2 as [|[k l v] bs2]; [cbn in Ht2; lia|]. destruct Ht2 as (Hk & Hl & _). cbn [b_start b_len] in Hk, Hl.
  assert (v = true) as ->.
  { unfold merged in Hm. rewrite E, fmap_app in Hm. apply no_pair_suffix in Hm. cbn in Hm. by destruct Hm as [[?|?] _]. }
  assert (bs = (bs1 ++ [mkB j m false]) ++ mkB k l true :: bs2) as E' by (by rewrite <- app_assoc).
  destruct (block_known h bs Hh _ _ _ _ _ E') as [[_ Hlen' _ _ _] _].
  exists k. split; [apply (Hu k l); rewrite E; set_solver|]. lia.
Qed.
End live.

Section safety.
Context (os : os_pages) (CodeCacheMinBlockLength CodeCacheMinimumFreeSpace CodeCacheExpansionSize : Z).
Context (Hmin : 1 ≤ CodeCacheMinBlockLength < 2 ^ 32) (Hexp : 0 < CodeCacheExpansionSize < 2 ^ 61).

Local Abbreviation heap_allocate := (allocate CodeCacheMinBlockLength CodeCacheMinimumFreeSpace).
Local Abbreviation allocate_loop := (allocate_loop os CodeCacheMinBlockLength CodeCacheMinimumFreeSpace CodeCacheExpansionSize).
Local Abbreviation cache_allocate := (cache_allocate os CodeCacheMinBlockLength CodeCacheMinimumFreeSpace CodeCacheExpansionSize).

(** The heap can neither serve the request nor be expanded. *)
Definition exhausted (h : CodeHeap) (size : Z) (is_critical : bool) : Prop :=
  heap_allocate size is_critical h = Some (0, h) ∧ ∃ commits, expand_by os commits true CodeCacheExpansionSize h = Some (false, h).

Definition outcome (live : gmap Z Z) (h : CodeHeap) (size : Z) (is_critical : bool) (p : Z) : Prop :=
  (p = 0 ∧ exhausted h size is_critical ∧ ∃ bs, cache_inv os h live bs) ∨
  (p ≠ 0 ∧ live !! p = None ∧ ∃ bs, cache_inv os h (<[p := size]> live) bs).

Lemma expansion_progress h h' :
  geometry h → geometry h' → grown h h' → ch_committed_size h + CodeCacheExpansionSize ≤ ch_committed_size h' →
  ch_number_of_committed_segments h < ch_number_of_committed_segments h' ≤ ch_number_of_reserved_segments h.
Proof.
  intros G G' Hg Hc. pose proof (g_committed h G). pose proof (g_committed h' G'). pose proof (g_segments h' G').
  pose proof (segment_pos h G). rewrite (gr_segment _ _ Hg) in *. rewrite (gr_reserved_segments _ _ Hg) in *. nia.
Qed.

Lemma allocate_loop_spec fuel answers n size crit h live bs :
  cache_inv os h live bs → 0 ≤ size < 2 ^ 60 → (∀ k, (answers k).2 = true) →
  (Z.to_nat (ch_number_of_reserved_segments h - ch_number_of_committed_segments h) < fuel)%nat →
  ∃ p h', allocate_loop fuel answers n size crit h = Some (p, h') ∧ outcome live h' size crit p.
Proof.
  intros Hinv Hsz Hans. revert n h bs Hinv. induction fuel as [|fuel IH]; intros n h bs Hinv Hf; [lia|].
  cbn [CodeCache.allocate_loop]. pose proof (ci_heap _ _ _ _ Hinv) as Hh. pose proof (hi_geometry _ _ Hh) as G.
  destruct (allocate_spec _ CodeCacheMinimumFreeSpace Hmin h bs size crit Hh Hsz) as (r & h1 & E & Hres & _). rewrite (M_bind_Some _ _ _ _ _ E).
  destruct Hres as [[-> ->]|(i & m & -> & Hm & Hal)].
  - cbn [Z.eqb negb]. rewrite (Hans n).
    destruct (expand_by_spec os h bs (answers n).1 CodeCacheExpansionSize Hh (ci_paged _ _ _ _ Hinv) ltac:(lia)) as (b & h2 & E2 & Hb).
    rewrite (M_bind_Some _ _ _ _ _ E2). destruct Hb as [[-> ->]|(-> & Hh2 & Hp2 & Hg & Hc)]; cbn [negb].
    + exists 0, h. split; [done|]. left. split; [done|]. split; [split; [done|by eexists]|by exists bs].
    + apply (IH (S n) h2 bs); [by eapply inv_grown|].
      pose proof (expansion_progress h h2 G (hi_geometry _ _ Hh2) Hg Hc). rewrite (gr_reserved_segments _ _ Hg). lia.
  - destruct (inv_allocated os h h1 live bs i m size Hinv Hal ltac:(lia) Hm) as [Hnone [bs' Hinv']].
    assert (addr h i + sizeof_HeapBlock ≠ 0) as Hnz.
    { destruct Hal as (bs1 & l1 & l2 & Hi1 & He & _ & Eu & _). assert (mkB i m true ∈ bs1) as Hin by (apply used_elem; rewrite Eu; set_solver).
      destruct (tiles_elem _ _ _ _ (hi_tiles _ _ Hi1) Hin) as [Hi _]. cbn in Hi. pose proof (g_low h G). pose proof (segment_pos h G).
      unfold addr, sizeof_HeapBlock. nia. }
    rewrite (proj2 (Z.eqb_neq _ _) Hnz). cbn [negb]. eexists _, h1. split; [done|]. right. split_and!; [done|done|by exists bs'].
Qed.

Lemma cache_allocate_spec answers size crit c live bs :
  cache_inv os (cc_heap c) live bs → 0 ≤ size < 2 ^ 60 → (∀ k, (answers k).2 = true) →
  ∃ p c', cache_allocate answers size crit c = Some (p, c') ∧ outcome live (cc_heap c') size crit p ∧
    cc_number_of_blobs c' = s32 (cc_number_of_blobs c + 1).
Proof.
  intros Hinv Hsz Hans. unfold CodeCache.cache_allocate. rewrite (proj2 (Z.leb_le 0 size)) by lia. cbn [negb].
  erewrite M_bind_Some by reflexivity. rewrite M_bind_get. pose proof (hi_geometry _ _ (ci_heap _ _ _ _ Hinv)) as G.
  destruct (allocate_loop_spec (expansions (cc_heap c)) answers 0 size crit (cc_heap c) live bs Hinv Hsz Hans) as (p & h' & E & Ho).
  { unfold expansions. pose proof (g_segments _ G). lia. }
  erewrite M_bind_Some by (unfold on_heap; cbn [cc_heap add_blobs]; rewrite E; reflexivity).
  destruct (Z.eqb_spec p 0) as [->|Hp].
  - by eexists 0, _.
  - rewrite M_bind_get. cbn zeta. erewrite M_bind_Some by reflexivity. by eexists p, _.
Qed.

(** What is reached from start-up: blobs are allocated, committed, freed and
    written to by their owners. Expansions of the segment map succeed. *)
Inductive reachable : CodeCache → gmap Z Z → Prop :=
| reach_initialize base s e i r c :
    os_ok os s → 5 ≤ s < 32 → 0 < base < 2 ^ 60 → 0 ≤ i ≤ r → r < 2 ^ 59 →
    cache_initialize os base true true e i r (2 ^ s) new_CodeCache = Some (CodeCacheExpansionSize, c) → reachable c ∅
| reach_allocate c live answers size is_critical p c' :
    reachable c live → size < 2 ^ 31 → (∀ n, (answers n).2 = true) →
    cache_allocate answers size is_critical c = Some (p, c') → reachable c' (if p =? 0 then live else <[p := size]> live)
| reach_commit c live kind c' : reachable c live → cache_commit kind c = Some (tt, c') → reachable c' live
| reach_free c live kind p c' : reachable c live → is_Some (live !! p) → cache_free kind p c = Some (tt, c') → reachable c' (delete p live)
| reach_write c live p h' : reachable c live → is_Some (live !! p) → written (cc_heap c) h' p → reachable (set_heap h' c) live.

Lemma initialize_spec base s e i r :
  os_ok os s → 5 ≤ s < 32 → 0 < base < 2 ^ 60 → 0 ≤ i ≤ r → r < 2 ^ 59 →
  ∃ c, cache_initialize os base true true e i r (2 ^ s) new_CodeCache = Some (round_to e (vm_page_size os), c) ∧
    cache_inv os (cc_heap c) ∅ [].
Proof.
  intros Hos Hs Hb Hi Hr. destruct (os_page _ _ Hos) as (k & Ek & Hk). assert (2 ^ k < 2 ^ 40) by (apply Z.pow_lt_mono_r; lia).
  pose proof (round_to_bounds i k ltac:(lia) ltac:(lia)). pose proof (round_to_bounds r k ltac:(lia) ltac:(lia)).
  pose proof (round_to_le i r k ltac:(lia) ltac:(lia)). unfold cache_initialize. rewrite Ek. cbn zeta.
  destruct (heap_reserve_spec os base s (round_to r (2 ^ k)) (round_to i (2 ^ k)) Hos Hs Hb ltac:(lia) ltac:(lia)) as (h & E & Hh & Hp & _).
  eexists. split; [erewrite M_bind_Some by (unfold on_heap; cbn [cc_heap new_CodeCache]; rewrite E; reflexivity); reflexivity|].
  split; [done|done|done| |]; [by intros p t ?|]. intros j m ?%elem_of_nil. done.
Qed.

Lemma cache_free_spec kind p c h' :
  deallocate p (cc_heap c) = Some (tt, h') → ∃ c', cache_free kind p c = Some (tt, c') ∧ cc_heap c' = h'.
Proof.
  intros E. destruct kind as [[] [] []]; unfold cache_free; cbn [is_nmethod has_dependencies is_adapter_blob];
    repeat (erewrite M_bind_Some by reflexivity); unfold on_heap; cbn [cc_heap add_blobs add_adapters add_nmethods add_dependent]; rewrite E; eauto.
Qed.
Lemma cache_commit_heap kind c c' : cache_commit kind c = Some (tt, c') → cc_heap c' = cc_heap c.
Proof. destruct kind as [[] [] []]; cbv -[s32]; by intros [= <-]. Qed.

Lemma reachable_inv c live : reachable c live → ∃ bs, cache_inv os (cc_heap c) live bs.
Proof.
  induction 1 as [base s e i r c Hos Hs Hb Hi Hr E|c live answers size crit p c' _ [bs IH] Hsz Hans E|c live kind c' _ IH E
    |c live kind p c' _ [bs IH] Hp E|c live p h' _ [bs IH] Hp Hw].
  - destruct (initialize_spec base s e i r Hos Hs Hb Hi Hr) as (c2 & E2 & Hinv). rewrite E in E2. injection E2 as _ <-. by exists [].
  - assert (0 ≤ size) as H0 by (unfold CodeCache.cache_allocate in E; destruct (Z.leb_spec 0 size); [done|discriminate E]).
    destruct (cache_allocate_spec answers size crit c live bs IH ltac:(lia) Hans) as (p2 & c2 & E2 & Ho & _). rewrite E in E2. injection E2 as <- <-.
    destruct Ho as [(-> & _ & ?)|(Hp & _ & ?)]; [done|]. by rewrite (proj2 (Z.eqb_neq _ _) Hp).
  - by rewrite (cache_commit_heap kind c).
  - destruct (inv_freed os _ _ _ _ IH Hp) as (h' & bs' & Ed & Hinv'). destruct (cache_free_spec kind _ _ _ Ed) as (c2 & E2 & <-).
    rewrite E in E2. injection E2 as <-. by exists bs'.
  - exists bs. by eapply inv_written.
Qed.

End safety.

(** ** Properties *)

(** C3: From start-up on, whatever is allocated, committed, freed and written
    by the owners of blobs, and whatever the operating system answers to
    expansions of the memory: allocation and release never touch memory outside
    the heap, allocation gives a pointer that is not live or null, live blobs lie
    in committed memory at block boundaries and overlap neither each other nor a
    header, every address of a live blob is found to belong to it, and every other
    address to none. *)
Theorem code_cache_safe os MinBlockLength MinimumFreeSpace ExpansionSize c live :
  1 ≤ MinBlockLength < 2 ^ 32 → 0 < ExpansionSize < 2 ^ 61 →
  reachable os MinBlockLength MinimumFreeSpace ExpansionSize c live →
  (∀ answers size is_critical, 0 ≤ size < 2 ^ 31 → (∀ n, (answers n).2 = true) →
     ∃ p c', cache_allocate os MinBlockLength MinimumFreeSpace ExpansionSize answers size is_critical c = Some (p, c') ∧
       (p = 0 ∨ live !! p = None)) ∧
  (∀ kind p, is_Some (live !! p) → ∃ c', cache_free kind p c = Some (tt, c')) ∧
  (∀ p size, live !! p = Some size →
     let h := cc_heap c in
     ch_low h + sizeof_HeapBlock ≤ p ∧ p + size ≤ high h ∧ (ch_segment_size h | p - sizeof_HeapBlock - ch_low h)) ∧
  (∀ p q size size', live !! p = Some size → live !! q = Some size' → p ≠ q →
     p + size ≤ q - sizeof_HeapBlock ∨ q + size' ≤ p - sizeof_HeapBlock) ∧
  (∀ blob_size p q, sizes_fit blob_size live → is_Some (live !! p) → p ≤ q < p + blob_size p → find_blob_unsafe blob_size q c = Some (p, c)) ∧
  (∀ blob_size q, ∃ r, find_blob_unsafe blob_size q c = Some (r, c) ∧ (r = 0 ∨ is_Some (live !! r) ∧ r ≤ q < r + blob_size r)).
Proof.
  intros Hmin Hexp Hreach. destruct (reachable_inv _ _ _ _ Hmin Hexp _ _ Hreach) as [bs Hinv]. split_and!.
  - intros answers size crit Hsz Hans.
    destruct (cache_allocate_spec _ _ MinimumFreeSpace _ Hmin Hexp answers size crit c live bs Hinv ltac:(lia) Hans) as (p & c' & E & Ho & _).
    exists p, c'. split; [done|]. destruct Ho as [(? & _)|(_ & ? & _)]; auto.
  - intros kind p Hp. destruct (inv_freed _ _ _ _ _ Hinv Hp) as (h' & bs' & E & _). destruct (cache_free_spec kind _ _ _ E) as (c' & ? & _).
    by exists c'.
  - intros p size. by eapply live_range.
  - intros p q size size'. by eapply live_disjoint.
  - intros blob_size p q. by eapply live_found.
  - intros blob_size q. by eapply found_live.
Qed.

(** C20: The loops over the code cache visit the live blobs once each, in the order
    of their addresses: all of them, the nmethods, the blobs that are alive, or the
    alive nmethods. *)
Theorem code_cache_loops os MinBlockLength MinimumFreeSpace ExpansionSize c live :
  1 ≤ MinBlockLength < 2 ^ 32 → 0 < ExpansionSize < 2 ^ 61 →
  reachable os MinBlockLength MinimumFreeSpace ExpansionSize c live →
  ∃ ps, StronglySorted Z.lt ps ∧ (∀ p, p ∈ ps ↔ is_Some (live !! p)) ∧
    ∀ A (f : A → Z → A) (a : A) (is_alive is_nmethod : Z → bool),
      blobs_do f a c = Some (foldl f a ps, c) ∧
      nmethods_do is_nmethod f a c = Some (foldl f a (filter (λ p, is_nmethod p = true) ps), c) ∧
      blobs_do_closure is_alive f a c = Some (foldl f a (filter (λ p, is_alive p = true) ps), c) ∧
      alive_nmethods_do is_alive is_nmethod f a c = Some (foldl f a (filter (λ p, is_alive p && is_nmethod p = true) ps), c).
Proof.
  intros Hmin Hexp Hreach. destruct (reachable_inv _ _ _ _ Hmin Hexp _ _ Hreach) as [bs Hinv]. pose proof Hinv as [Hh Hm _ Hl Hu].
  set (h := cc_heap c) in *. pose proof (segment_pos h (hi_geometry _ _ Hh)). pose proof (heap_iterates h bs Hh Hm) as Hit.
  exists (ptr h <$> used_blocks bs). split; [by eapply used_sorted; [lia|apply (hi_tiles _ _ Hh)]|]. split; [by intros p; eapply live_pointers|].
  set (ps := ptr h <$> used_blocks bs) in *. intros A f a al nm. split_and!.
  - unfold blobs_do. rewrite (for_all_spec c ps Hit _ _ f a (steps_ret c ps)). do 2 f_equal. by rewrite filter_true.
  - unfold nmethods_do. rewrite (for_all_spec c ps Hit _ _ _ a (steps_ret c ps)). by rewrite filter_true, foldl_filter.
  - apply for_all_spec; [done|]. by apply steps_skip.
  - unfold alive_nmethods_do, alive_nmethod. rewrite (for_all_spec c ps Hit _ _ f a (steps_skip c ps Hit _)). do 3 f_equal.
    apply list_filter_iff. intros p. by destruct (al p), (nm p).
Qed.

(** C21: Allocation in the code cache ends. It gives null only when the heap can not be
    expanded further and does not serve the request as it is; for a critical request
    this means that no run of free segments below the top is long enough, and neither
    is what is committed above. The number of blobs grows in all cases, null
    included. *)
Theorem code_cache_allocation_outcome os MinBlockLength MinimumFreeSpace ExpansionSize c live answers size is_critical :
  1 ≤ MinBlockLength < 2 ^ 32 → 0 < ExpansionSize < 2 ^ 61 →
  reachable os MinBlockLength MinimumFreeSpace ExpansionSize c live → 0 ≤ size < 2 ^ 31 → (∀ n, (answers n).2 = true) →
  ∃ p c', cache_allocate os MinBlockLength MinimumFreeSpace ExpansionSize answers size is_critical c = Some (p, c') ∧
    cc_number_of_blobs c' = s32 (cc_number_of_blobs c + 1) ∧
    (p = 0 →
     let h := cc_heap c' in
     let n := size_to_segments h (size + sizeof_HeapBlock) in
     (∃ commits, expand_by os commits true ExpansionSize h = Some (false, h)) ∧
     allocate MinBlockLength MinimumFreeSpace size is_critical h = Some (0, h) ∧
     (is_critical = true →
      ch_number_of_committed_segments h < ch_next_segment h + Z.max n MinBlockLength ∧
      ∀ i, 0 ≤ i → i + n ≤ ch_next_segment h →
        ∃ j, is_Some (live !! (addr h j + sizeof_HeapBlock)) ∧ j < i + n ∧ i < j + fb_length (hd h j))).
Proof.
  intros Hmin Hexp Hreach Hsz Hans. destruct (reachable_inv _ _ _ _ Hmin Hexp _ _ Hreach) as [bs Hinv].
  destruct (cache_allocate_spec _ _ MinimumFreeSpace _ Hmin Hexp answers size is_critical c live bs Hinv ltac:(lia) Hans) as (p & c' & E & Ho & Hb).
  exists p, c'. split; [done|]. split; [done|]. intros -> h n. destruct Ho as [(_ & [Ha Hx] & bs' & Hinv')|[? _]]; [|done].
  split; [done|]. split; [done|]. intros ->. fold h in Ha, Hinv'. pose proof (ci_heap _ _ _ _ Hinv') as Hh.
  destruct (allocate_spec _ MinimumFreeSpace Hmin h bs' size true Hh ltac:(lia)) as (r & h1 & E1 & _ & Hnull). rewrite Ha in E1. injection E1 as <- <-.
  destruct (Hnull eq_refl eq_refl) as [Hno Htop]. fold n in Hno, Htop. split; [done|]. intros i Hi Hin.
  apply (no_free_run os h live bs' n i Hinv' Hno); [|done|done].
  destruct (size_to_segments_spec h (hi_geometry _ _ Hh) (size + sizeof_HeapBlock)) as [? ?]; [unfold sizeof_HeapBlock; lia|].
  pose proof (segment_pos h (hi_geometry _ _ Hh)). fold n in H, H0. unfold sizeof_HeapBlock in *. nia.
Qed.

(** *** A small cache *)

(** Segments of 32 bytes, pages of two segments; two blobs, the first of which is
    freed, and a small one in its place. *)
Definition demo_os : os_pages := mkOs 64 64 None.
Definition demo_kind : blob_kind := mkKind true true false.
Definition demo_answers (n : nat) : bool * bool := (true, true).
Definition state_of {A} (r : option (A * CodeCache)) : CodeCache := match r with Some (_, c) => c | None => new_CodeCache end.
Definition demo_allocate := cache_allocate demo_os 1 0 64 demo_answers.
Definition demo0 : CodeCache := state_of (cache_initialize demo_os 1048576 true true 50 200 512 (2 ^ 5) new_CodeCache).
Definition demo1 : CodeCache := state_of (demo_allocate 40 true demo0).
Definition demo2 : CodeCache := state_of (demo_allocate 200 true demo1).
Definition demo3 : CodeCache := state_of (cache_commit demo_kind demo2).
Definition demo4 : CodeCache := state_of (cache_free demo_kind 1048592 demo3).
Definition demo5 : CodeCache := state_of (demo_allocate 10 true demo4).
Definition demo_live2 : gmap Z Z := <[1048656 := 200]> (<[1048592 := 40]> ∅).
Definition demo_live : gmap Z Z := <[1048624 := 10]> (delete 1048592 demo_live2).

Lemma demo_start : reachable demo_os 1 0 64 demo2 demo_live2.
Proof.
  refine (reach_allocate demo_os 1 0 64 demo1 (<[1048592 := 40]> ∅) demo_answers 200 true 1048656 demo2 _ _ _ _); [|lia|done|vm_compute; reflexivity].
  refine (reach_allocate demo_os 1 0 64 demo0 ∅ demo_answers 40 true 1048592 demo1 _ _ _ _); [|lia|done|vm_compute; reflexivity].
  refine (reach_initialize demo_os 1 0 64 1048576 5 50 200 512 demo0 _ _ _ _ _ _); [|lia..|vm_compute; reflexivity].
  split; [by exists 6|by exists 6|done].
Qed.
Lemma demo_reachable : reachable demo_os 1 0 64 demo5 demo_live.
Proof.
  refine (reach_allocate demo_os 1 0 64 demo4 (delete 1048592 demo_live2) demo_answers 10 true 1048624 demo5 _ _ _ _); [|lia|done|vm_compute; reflexivity].
  refine (reach_free demo_os 1 0 64 demo3 demo_live2 demo_kind 1048592 demo4 _ _ _); [|by eexists|vm_compute; reflexivity].
  refine (reach_commit demo_os 1 0 64 demo2 demo_live2 demo_kind demo3 demo_start _). vm_compute. reflexivity.
Qed.

Definition demo_size (p : Z) : Z := if p =? 1048656 then 150 else 10.

Lemma demo_sizes : sizes_fit demo_size demo_live.
Proof.
  intros p size H. unfold demo_live, demo_live2 in H. apply lookup_insert_Some in H as [[<- <-]|[_ H]]; [by vm_compute|].
  apply lookup_delete_Some in H as [Hne H]. apply lookup_insert_Some in H as [[<- <-]|[_ H]]; [by vm_compute|].
  apply lookup_insert_Some in H as [[? _]|[_ H]]; [done|by rewrite lookup_empty in H].
Qed.

Lemma code_cache_safe_witness :
  find_blob_unsafe demo_size 1048700 demo5 = Some (1048656, demo5) ∧
  ∃ r, find_blob_unsafe demo_size 1048580 demo5 = Some (r, demo5) ∧ (r = 0 ∨ is_Some (demo_live !! r) ∧ r ≤ 1048580 < r + demo_size r).
Proof.
  destruct (code_cache_safe demo_os 1 0 64 demo5 demo_live) as (_ & _ & _ & _ & Hin & Hany); [lia|lia|apply demo_reachable|].
  split; [|apply Hany]. apply (Hin demo_size 1048656 1048700); [apply demo_sizes|by exists 200|vm_compute; split; congruence].
Defined.

Lemma code_cache_loops_witness : ∃ ps, blobs_do (λ l p, l ++ [p]) [] demo5 = Some (foldl (λ l p, l ++ [p]) [] ps, demo5) ∧ 1048624 ∈ ps.
Proof.
  destruct (code_cache_loops demo_os 1 0 64 demo5 demo_live) as (ps & _ & Hps & Hdo); [lia|lia|apply demo_reachable|].
  exists ps. split; [|by apply Hps; exists 10].
  destruct (Hdo (list Z) (λ l p, l ++ [p]) [] (λ _, true) (λ _, true)) as [H _]. exact H.
Defined.

Lemma code_cache_allocation_outcome_witness :
  ∃ c', cache_allocate demo_os 1 0 64 demo_answers 1000 true demo5 = Some (0, c') ∧ cc_number_of_blobs c' = 3.
Proof.
  destruct (code_cache_allocation_outcome demo_os 1 0 64 demo5 demo_live demo_answers 1000 true) as (p & c' & E & Hb & _);
    [lia|lia|apply demo_reachable|lia|reflexivity|].
  exists c'. split.
  - rewrite E. pose proof (f_equal (λ r, fst <$> r) E) as H0. vm_compute in H0. injection H0 as <-. reflexivity.
  - rewrite Hb. vm_compute. reflexivity.
Defined.
