(* ===== verification/RelocInfo.v ===== *)
(** * Relocation records

    code/relocInfo.hpp, code/relocInfo.cpp and cpu/x86/vm/relocInfo_x86.hpp: the
    16-bit words of the relocation stream, the prefixes that carry data, the
    packing of data into halfwords, and [RelocIterator], which walks the stream.
    The build is AMD64, where offsets are in bytes and a format has two bits. *)

From stdpp Require Import base numbers list.
From S2P Require Import Prelude.
Local Open Scope Z_scope.

(** ** The word *)

Definition value_width : Z := 16.
Definition type_width : Z := 4.
Definition nontype_width : Z := value_width - type_width.
Definition datalen_width : Z := nontype_width - 1.
Definition datalen_tag : Z := Z.shiftl 1 datalen_width.
Definition datalen_limit : Z := Z.shiftl 1 datalen_width.
Definition datalen_mask : Z := Z.shiftl 1 datalen_width - 1.

Definition offset_unit : Z := 1.
Definition format_width : Z := 2.
Definition offset_width : Z := nontype_width - format_width.
Definition offset_mask : Z := Z.shiftl 1 offset_width - 1.
Definition format_mask : Z := Z.shiftl 1 format_width - 1.
Definition length_limit : Z := 1 + 1 + (3 * 8) / 2 + 1.
Definition offset_limit : Z := Z.shiftl 1 offset_width * offset_unit.
Definition addr_unit : Z := offset_unit.

(** [relocType]: the numbers of the source. *)
Definition none : Z := 0.
Definition oop_type : Z := 1.
Definition virtual_call_type : Z := 2.
Definition opt_virtual_call_type : Z := 3.
Definition static_call_type : Z := 4.
Definition static_stub_type : Z := 5.
Definition runtime_call_type : Z := 6.
Definition external_word_type : Z := 7.
Definition internal_word_type : Z := 8.
Definition section_word_type : Z := 9.
Definition poll_type : Z := 10.
Definition poll_return_type : Z := 11.
Definition metadata_type : Z := 12.
Definition trampoline_stub_type : Z := 13.
Definition data_prefix_tag : Z := 15.

Definition raw_bits (type bits : Z) : Z := u16 (Z.shiftl type nontype_width + bits).
Definition relocInfo (type off f : Z) : Z :=
  u16 (Z.shiftl type nontype_width + u32 off / offset_unit + Z.shiftl f offset_width).

Definition type (value : Z) : Z := Z.shiftr value nontype_width.
Definition format (value : Z) : Z := if format_mask =? 0 then 0 else Z.land format_mask (Z.shiftr value offset_width).
Definition addr_offset (value : Z) : Z := Z.land value offset_mask * offset_unit.
Definition datalen (value : Z) : Z := Z.land value datalen_mask.
Definition immediate (value : Z) : Z := Z.land value datalen_mask.
Definition is_prefix (value : Z) : bool := type value =? data_prefix_tag.
Definition is_datalen (value : Z) : bool := negb (Z.land value datalen_tag =? 0).

Definition set_type (value t : Z) : Z :=
  let old_offset := addr_offset value in
  let old_format := format value in
  relocInfo t old_offset old_format.
Definition set_format (value f : Z) : Z :=
  u16 (Z.lor (Z.land value (Z.lnot (Z.shiftl format_mask offset_width))) (Z.shiftl f offset_width)).

Definition filler_relocInfo : Z := relocInfo none (offset_limit - offset_unit) 0.
Definition prefix_relocInfo (datalen : Z) : Z := raw_bits data_prefix_tag (Z.lor datalen_tag datalen).
Definition immediate_relocInfo (data0 : Z) : Z := raw_bits data_prefix_tag data0.
Definition fits_into_immediate (data0 : Z) : bool := (0 <=? data0) && (data0 <? datalen_limit).

(** [finish_prefix] and the end of [initialize]: the words that replace the
    infant record [suffix] once [data] has been packed behind it. *)
Definition finish_prefix (data : list Z) : list Z :=
  match data with
  | [] => []
  | [d] => if fits_into_immediate d then [immediate_relocInfo d] else prefix_relocInfo 1 :: [u16 d]
  | _ => prefix_relocInfo (zlen data) :: (u16 <$> data)
  end.
Definition initialize (suffix : Z) (data : list Z) : list Z := finish_prefix data ++ [suffix].

(** ** Packing integers into halfwords *)

Definition data0_from_int (x : Z) : Z := Z.shiftr x value_width.
Definition data1_from_int (x : Z) : Z := s16 x.
Definition jint_from_data (d0 d1 : Z) : Z := s32 (Z.shiftl d0 value_width + u16 d1).
Definition short_data_at (n : Z) (data : list Z) (datalen : Z) : option Z :=
  if n <? datalen then zget data n else Some 0.
Definition jint_data_at (n : Z) (data : list Z) (datalen : Z) : option Z :=
  if n + 1 <? datalen then d0 ← zget data n; d1 ← zget data (n + 1); Some (jint_from_data d0 d1)
  else short_data_at n data datalen.

Definition is_short (x : Z) : bool := x =? s16 x.
Definition add_short (p : list Z) (x : Z) : list Z := p ++ [s16 x].
Definition add_jint (p : list Z) (x : Z) : list Z := p ++ [s16 (data0_from_int x); data1_from_int x].
Definition add_var_int (p : list Z) (x : Z) : list Z := if is_short x then add_short p x else add_jint p x.

Definition pack_1_int (x0 : Z) : list Z := if negb (x0 =? 0) then add_var_int [] x0 else [].
Definition unpack_1_int (data : list Z) (datalen : Z) : option Z := jint_data_at 0 data datalen.

Definition pack_2_ints (x0 x1 : Z) : list Z :=
  if (x0 =? 0) && (x1 =? 0) then []
  else if is_short x0 && is_short x1 then
    let p := add_short [] x0 in if negb (x1 =? 0) then add_short p x1 else p
  else add_var_int (add_jint [] x0) x1.
Definition unpack_2_ints (data : list Z) (dlen : Z) : option (Z * Z) :=
  if dlen <=? 2 then
    x0 ← short_data_at 0 data dlen; x1 ← short_data_at 1 data dlen; Some (x0, x1)
  else
    x0 ← jint_data_at 0 data dlen; x1 ← jint_data_at 2 data dlen; Some (x0, x1).

Definition scaled_offset (x base : Z) : Z :=
  let byte_offset := s32 (x - base) in Z.quot (s32 (- byte_offset)) addr_unit.
Definition scaled_offset_null_special (x base : Z) : Z := if x =? 0 then 0 else scaled_offset x base.
Definition address_from_scaled_offset (offset base : Z) : Z :=
  let byte_offset := s32 (- s32 (offset * addr_unit)) in u64 (base + byte_offset).

(** ** [RelocIterator] *)

Record RelocIterator := mkIter {
  it_limit : Z; it_current : Z; it_end : Z; it_addr : Z;
  it_data : list Z; it_datalen : Z; it_format : Z }.

(** The stream is an array of words and [_current] an index into it, which
    starts one before the first word. [_data] is the span of halfwords that
    [_data] points to; [None] is a read outside the array. *)
Section iterator.
Context (locs : list Z).

Fixpoint read_words (n : nat) (i : Z) : option (list Z) :=
  match n with
  | O => Some []
  | S n' => v ← zget locs i; vs ← read_words n' (i + 1); Some (s16 v :: vs)
  end.

Definition advance_over_prefix (it : RelocIterator) (value : Z) : option RelocIterator :=
  if is_datalen value then
    data ← read_words (Z.to_nat (datalen value)) (it_current it + 1);
    Some (mkIter (it_limit it) (it_current it + datalen value + 1) (it_end it) (it_addr it) data (datalen value) (it_format it))
  else
    Some (mkIter (it_limit it) (it_current it + 1) (it_end it) (it_addr it) [s16 (immediate value)] 1 (it_format it)).

Definition next (it : RelocIterator) : option (bool * RelocIterator) :=
  let cur := it_current it + 1 in
  if cur =? it_end it then
    Some (false, mkIter (it_limit it) cur (it_end it) (it_addr it) (it_data it) (-1) (it_format it))
  else
    let it := mkIter (it_limit it) cur (it_end it) (it_addr it) (it_data it) 0 (it_format it) in
    value ← zget locs cur;
    it ← (if is_prefix value then advance_over_prefix it value else Some it);
    value ← zget locs (it_current it);
    let addr := it_addr it + addr_offset value in
    if negb (it_limit it =? 0) && (it_limit it <=? addr) then
      Some (false, mkIter (it_limit it) (it_current it) (it_end it) addr (it_data it) (-1) (it_format it))
    else
      Some (true, mkIter (it_limit it) (it_current it) (it_end it) addr (it_data it) (it_datalen it) (format value)).

(** The loop of [set_limits] (no index): the iterator is left just before the
    first record at [begin] or later. *)
Fixpoint skip_to (fuel : nat) (it : RelocIterator) (begin : Z) : option RelocIterator :=
  match fuel with
  | O => None
  | S fuel' =>
      '(b, it') ← next it;
      if negb b || (begin <=? it_addr it') then
        Some (mkIter (it_limit it') (it_current it) (it_end it') (it_addr it) (it_data it') (-1) (it_format it'))
      else skip_to fuel' it' begin
  end.
Definition set_limits (fuel : nat) (it : RelocIterator) (begin limit : Z) : option RelocIterator :=
  let it := mkIter limit (it_current it) (it_end it) (it_addr it) (it_data it) (it_datalen it) (it_format it) in
  if negb (begin =? 0) then skip_to fuel it begin else Some it.

(** The constructor: [addr] is the start of the code, [fin] the end of the
    stream. *)
Definition RelocIterator_new (fuel : nat) (addr fin begin limit : Z) : option RelocIterator :=
  set_limits fuel (mkIter 0 (-1) fin addr [] (-1) 0) begin limit.

(** A client's loop [while (iter.next()) ...]: the records it sees. *)
Record record := mkRecord { r_type : Z; r_addr : Z; r_format : Z; r_data : list Z }.
Fixpoint iterate (fuel : nat) (it : RelocIterator) : option (list record) :=
  match fuel with
  | O => None
  | S fuel' =>
      '(b, it') ← next it;
      if (b : bool) then
        value ← zget locs (it_current it');
        rest ← iterate fuel' it';
        Some (mkRecord (type value) (it_addr it') (it_format it') (take (Z.to_nat (it_datalen it')) (it_data it')) :: rest)
      else Some []
  end.
End iterator.

(** [change_reloc_info_for_address] edits the stream while it iterates. *)
Fixpoint change_reloc_info_for_address (fuel : nat) (locs : list Z) (itr : RelocIterator) (pc new_type : Z) : option (list Z) :=
  match fuel with
  | O => None
  | S fuel' =>
      '(b, itr') ← next locs itr;
      if (b : bool) then
        if it_addr itr' =? pc then
          value ← zget locs (it_current itr');
          locs' ← zset locs (it_current itr') (set_type value new_type);
          _ ← next locs' itr'; Some locs'
        else change_reloc_info_for_address fuel' locs itr' pc new_type
      else Some locs
  end.
Definition remove_reloc_info_for_address (fuel : nat) (locs : list Z) (itr : RelocIterator) (pc : Z) : option (list Z) :=
  change_reloc_info_for_address fuel locs itr pc none.

(** ** What a stream means

    A stream is the concatenation of encoded entries; an entry's offset is
    relative to the previous one. *)
Record entry := mkEntry { e_type : Z; e_off : Z; e_format : Z; e_data : list Z }.
Definition entry_ok (e : entry) : Prop :=
  0 ≤ e_type e < data_prefix_tag ∧ 0 ≤ e_off e < offset_limit ∧ 0 ≤ e_format e ≤ format_mask ∧
  Forall is_jshort (e_data e) ∧ zlen (e_data e) < datalen_limit.
#[export] Instance entry_ok_dec e : Decision (entry_ok e).
Proof. unfold entry_ok. apply _. Defined.
Definition encode (e : entry) : list Z := initialize (relocInfo (e_type e) (e_off e) (e_format e)) (e_data e).
Definition stream (es : list entry) : list Z := concat (encode <$> es).
Fixpoint place (addr : Z) (es : list entry) : list record :=
  match es with
  | [] => []
  | e :: es' => mkRecord (e_type e) (addr + e_off e) (e_format e) (e_data e) :: place (addr + e_off e) es'
  end.

(** ** Words *)

Ltac word_csts := unfold type, format, addr_offset, datalen, immediate, relocInfo, raw_bits, is_datalen,
  offset_limit, datalen_limit, offset_mask, format_mask, datalen_mask, datalen_tag, offset_unit, offset_width, format_width,
  datalen_width, nontype_width, value_width, type_width, data_prefix_tag, none in *.

Lemma relocInfo_value t off f :
  0 ≤ t ≤ data_prefix_tag → 0 ≤ off < offset_limit → 0 ≤ f ≤ format_mask →
  relocInfo t off f = t * 4096 + f * 1024 + off.
Proof.
  intros Ht Ho Hf. word_csts. change (Z.shiftl 1 (16 - 4 - 2) * 1) with 1024 in *. change (Z.shiftl 1 2 - 1) with 3 in *.
  rewrite Z.div_1_r, !Z.shiftl_mul_pow2 by lia. change (2 ^ (16 - 4)) with 4096. change (2 ^ (16 - 4 - 2)) with 1024.
  rewrite (wrapU_id 32) by (unfold in_u; lia). rewrite wrapU_id by (unfold in_u; lia). lia.
Qed.
Lemma relocInfo_fields t off f :
  0 ≤ t ≤ data_prefix_tag → 0 ≤ off < offset_limit → 0 ≤ f ≤ format_mask →
  type (relocInfo t off f) = t ∧ addr_offset (relocInfo t off f) = off ∧ format (relocInfo t off f) = f.
Proof.
  intros Ht Ho Hf. rewrite relocInfo_value by done. word_csts.
  change (Z.shiftl 1 (16 - 4 - 2) * 1) with 1024 in *. change (Z.shiftl 1 2 - 1) with (Z.ones 2) in *.
  change (Z.ones 2 =? 0) with false. cbv iota. change (Z.shiftl 1 (16 - 4 - 2) - 1) with (Z.ones 10).
  rewrite (Z.land_comm (Z.ones 2)), !Z.land_ones, !Z.shiftr_div_pow2, Z.mul_1_r by lia.
  change (Z.ones 2) with 3 in *. change (2 ^ (16 - 4)) with 4096. change (2 ^ (16 - 4 - 2)) with 1024.
  change (2 ^ 10) with 1024. change (2 ^ 2) with 4. Z.div_mod_to_equations; lia.
Qed.
Lemma raw_bits_value t bits : 0 ≤ t ≤ data_prefix_tag → 0 ≤ bits < 4096 → raw_bits t bits = t * 4096 + bits.
Proof.
  intros Ht Hb. word_csts. rewrite Z.shiftl_mul_pow2 by lia. change (2 ^ (16 - 4)) with 4096. apply wrapU_id. unfold in_u. lia.
Qed.
Lemma immediate_fields d : fits_into_immediate d = true →
  is_prefix (immediate_relocInfo d) = true ∧ is_datalen (immediate_relocInfo d) = false ∧ immediate (immediate_relocInfo d) = d.
Proof.
  unfold fits_into_immediate. intros [Hd1%Z.leb_le Hd2%Z.ltb_lt]%andb_prop. unfold is_prefix, immediate_relocInfo.
  change datalen_limit with 2048 in Hd2. rewrite raw_bits_value by (by word_csts || lia).
  assert (∃ x, d = x ∧ 0 ≤ x < 2048) as (x & -> & Hx) by eauto. word_csts.
  split; [|split].
  - rewrite Z.shiftr_div_pow2 by lia. apply Z.eqb_eq. change (2 ^ (16 - 4)) with 4096. Z.div_mod_to_equations; lia.
  - apply negb_false_iff, Z.eqb_eq. apply Z.bits_inj'. intros i Hi. rewrite Z.land_spec, Z.bits_0.
    change (Z.shiftl 1 (16 - 4 - 1)) with (2 ^ 11). rewrite Z.pow2_bits_eqb by lia. destruct (Z.eqb_spec 11 i) as [<-|]; [|apply andb_false_r].
    rewrite andb_true_r. change 11 with (0 + 11). rewrite <- Z.div_pow2_bits by lia. change (2 ^ 11) with 2048.
    replace ((15 * 4096 + x) / 2048) with 30 by (Z.div_mod_to_equations; lia). done.
  - change (Z.shiftl 1 (16 - 4 - 1) - 1) with (Z.ones 11). rewrite Z.land_ones by lia. change (2 ^ 11) with 2048. Z.div_mod_to_equations; lia.
Qed.
Lemma prefix_fields n : 0 ≤ n < datalen_limit →
  is_prefix (prefix_relocInfo n) = true ∧ is_datalen (prefix_relocInfo n) = true ∧ datalen (prefix_relocInfo n) = n.
Proof.
  intros Hn. change datalen_limit with 2048 in Hn. unfold is_prefix, prefix_relocInfo.
  assert (Z.lor datalen_tag n = 2048 + n) as ->.
  { rewrite Z.lor_comm. change datalen_tag with (Z.shiftl 1 11). rewrite lor_shiftl_add by (unfold in_u; lia). lia. }
  rewrite raw_bits_value by (by word_csts || lia). word_csts. split; [|split].
  - rewrite Z.shiftr_div_pow2 by lia. apply Z.eqb_eq. change (2 ^ (16 - 4)) with 4096. Z.div_mod_to_equations; lia.
  - apply negb_true_iff, Z.eqb_neq. intros H. apply (f_equal (λ z, Z.testbit z 11)) in H. rewrite Z.land_spec, Z.bits_0 in H.
    change (Z.testbit (Z.shiftl 1 (16 - 4 - 1)) 11) with true in H. rewrite andb_true_r in H.
    revert H. change 11 with (0 + 11). rewrite <- Z.div_pow2_bits by lia. change (2 ^ 11) with 2048.
    by replace ((15 * 4096 + (2048 + n)) / 2048) with 31 by (Z.div_mod_to_equations; lia).
  - change (Z.shiftl 1 (16 - 4 - 1) - 1) with (Z.ones 11). rewrite Z.land_ones by lia. change (2 ^ 11) with 2048. Z.div_mod_to_equations; lia.
Qed.
Lemma relocInfo_not_prefix t off f :
  0 ≤ t < data_prefix_tag → 0 ≤ off < offset_limit → 0 ≤ f ≤ format_mask → is_prefix (relocInfo t off f) = false.
Proof. intros Ht Ho Hf. unfold is_prefix. destruct (relocInfo_fields t off f) as (-> & _); [lia|done..|]. apply Z.eqb_neq. lia. Qed.
Lemma set_type_relocInfo t t' off f :
  0 ≤ t < data_prefix_tag → 0 ≤ off < offset_limit → 0 ≤ f ≤ format_mask →
  set_type (relocInfo t off f) t' = relocInfo t' off f.
Proof. intros Ht Ho Hf. unfold set_type. by destruct (relocInfo_fields t off f) as (_ & -> & ->); [lia|..]. Qed.

(** ** Packed integers *)

#[local] Arguments jint_from_data : simpl never.
#[local] Arguments data0_from_int : simpl never.
#[local] Arguments data1_from_int : simpl never.
#[local] Arguments wrapS : simpl never.

Lemma short_jint x : is_short x = true ↔ is_jshort x.
Proof.
  unfold is_short. rewrite Z.eqb_eq. split; [intros ->; by apply wrapS_range|]. intros Hx. by rewrite wrapS_id.
Qed.
Lemma jint_halves x : is_jint x → jint_from_data (s16 (data0_from_int x)) (data1_from_int x) = x ∧ s16 (data0_from_int x) = data0_from_int x.
Proof.
  intros Hx. assert (is_jshort (data0_from_int x)) as H0.
  { unfold data0_from_int, value_width, in_s in *. rewrite Z.shiftr_div_pow2 by lia. machine. }
  rewrite (wrapS_id 16 (data0_from_int x)) by done. split; [|done]. unfold jint_from_data, data1_from_int.
  rewrite wrapU_wrapS. unfold data0_from_int, value_width. rewrite Z.shiftl_mul_pow2, Z.shiftr_div_pow2 by lia.
  assert (x / 2 ^ 16 * 2 ^ 16 + u16 x = x) as -> by (unfold wrapU; rewrite (Z.mul_comm (x / 2 ^ 16)); symmetry; apply Z.div_mod; lia).
  by apply wrapS_id.
Qed.
Lemma add_var_int_shorts p x : Forall is_jshort p → Forall is_jshort (add_var_int p x).
Proof.
  intros Hp. unfold add_var_int, add_short, add_jint. destruct (is_short x); apply Forall_app; (split; [done|]);
    repeat constructor; by apply wrapS_range.
Qed.
Lemma pack_1_int_shorts x : Forall is_jshort (pack_1_int x) ∧ zlen (pack_1_int x) ≤ 2.
Proof.
  unfold pack_1_int. destruct (x =? 0); cbn [negb]; [split; [constructor|done]|]. split; [by apply add_var_int_shorts|].
  unfold add_var_int. by destruct (is_short x).
Qed.
Lemma pack_2_ints_shorts x y : Forall is_jshort (pack_2_ints x y) ∧ zlen (pack_2_ints x y) ≤ 4.
Proof.
  unfold pack_2_ints. destruct ((x =? 0) && (y =? 0)); [split; [constructor|done]|].
  destruct (is_short x && is_short y).
  - destruct (y =? 0); cbn; (split; [repeat constructor; by apply wrapS_range|done]).
  - split; [apply add_var_int_shorts; repeat constructor; by apply wrapS_range|]. unfold add_var_int. by destruct (is_short y).
Qed.
Lemma unpack_pack_1_int x : is_jint x → unpack_1_int (pack_1_int x) (zlen (pack_1_int x)) = Some x.
Proof.
  intros Hx. unfold pack_1_int. destruct (Z.eqb_spec x 0) as [->|_]; [done|]. cbn [negb]. unfold add_var_int.
  destruct (is_short x) eqn:Hs.
  - apply short_jint in Hs. cbn. by rewrite wrapS_id.
  - transitivity (Some (jint_from_data (s16 (data0_from_int x)) (data1_from_int x))); [done|]. by rewrite (proj1 (jint_halves x Hx)).
Qed.
Lemma unpack_long x y : is_jint x → is_jint y →
  let p := add_var_int (add_jint [] x) y in unpack_2_ints p (zlen p) = Some (x, y).
Proof.
  intros Hx Hy. unfold add_var_int. destruct (is_short y) eqn:Hs.
  - apply short_jint in Hs. transitivity (Some (jint_from_data (s16 (data0_from_int x)) (data1_from_int x), s16 y)); [done|].
    by rewrite (proj1 (jint_halves x Hx)), wrapS_id.
  - transitivity (Some (jint_from_data (s16 (data0_from_int x)) (data1_from_int x),
      jint_from_data (s16 (data0_from_int y)) (data1_from_int y))); [done|].
    by rewrite (proj1 (jint_halves x Hx)), (proj1 (jint_halves y Hy)).
Qed.
Lemma unpack_pack_2_ints x y : is_jint x → is_jint y → unpack_2_ints (pack_2_ints x y) (zlen (pack_2_ints x y)) = Some (x, y).
Proof.
  intros Hx Hy. unfold pack_2_ints. destruct (Z.eqb_spec x 0) as [->|Hx0], (Z.eqb_spec y 0) as [->|Hy0]; cbn [andb negb]; [done|..].
  all: match goal with |- context [if ?b then _ else _] => destruct b eqn:Hs end.
  all: try (apply andb_prop in Hs as [Hsx%short_jint Hsy%short_jint]; cbn; by rewrite ?(wrapS_id 16 y), ?(wrapS_id 16 x)).
  all: by rewrite unpack_long.
Qed.

(** ** One step of the iterator *)

Lemma zget_at {A} (pre : list A) x post i : i = zlen pre → zget (pre ++ x :: post) i = Some x.
Proof. intros ->. unfold zlen. rewrite zget_nat. by apply list_lookup_middle. Qed.
Lemma read_words_span pre data post :
  Forall is_jshort data → read_words (pre ++ (u16 <$> data) ++ post) (length data) (zlen pre) = Some data.
Proof.
  revert pre. induction data as [|d data IH]; intros pre; [done|]. intros [Hd Hdata]%Forall_cons.
  cbn [read_words length fmap list_fmap app]. rewrite zget_at by done. cbn [mbind option_bind].
  replace (zlen pre + 1) with (zlen (pre ++ [u16 d])) by (unfold zlen; rewrite length_app; cbn [length]; lia).
  specialize (IH (pre ++ [u16 d]) Hdata). rewrite <- !app_assoc in IH. cbn [app] in IH.
  change (list_fmap _ _ (wrapU 16) data) with (u16 <$> data). rewrite IH. cbn. by rewrite wrapS_wrapU, wrapS_id.
Qed.
Lemma finish_prefix_cases data : Forall is_jshort data →
  (data = [] ∧ finish_prefix data = []) ∨
  (∃ d, data = [d] ∧ fits_into_immediate d = true ∧ finish_prefix data = [immediate_relocInfo d]) ∨
  (data ≠ [] ∧ finish_prefix data = prefix_relocInfo (zlen data) :: (u16 <$> data)).
Proof.
  intros Hd. destruct data as [|d [|d' data]]; [by left|right..].
  - cbn [finish_prefix]. destruct (fits_into_immediate d) eqn:Hf; [left; by exists d|by right].
  - by right.
Qed.
Lemma encode_length e : zlen (encode e) = zlen (finish_prefix (e_data e)) + 1.
Proof. unfold encode, initialize, zlen. rewrite length_app. cbn [length]. lia. Qed.

(** The prefix, if any, and the address step. *)
Lemma advance_entry pre e post it :
  entry_ok e → it_current it = zlen pre → it_datalen it = 0 →
  let it' := mkIter (it_limit it) (zlen pre + zlen (encode e) - 1) (it_end it) (it_addr it)
    (match e_data e with [] => it_data it | _ => e_data e end) (zlen (e_data e)) (it_format it) in
  let locs := pre ++ encode e ++ post in
  (value ← zget locs (it_current it); if is_prefix value then advance_over_prefix locs it value else Some it) = Some it' ∧
  zget locs (it_current it') = Some (relocInfo (e_type e) (e_off e) (e_format e)).
Proof.
  intros (Ht & Ho & Hf & Hs & Hl) Hc Hd it' locs. set (w := relocInfo (e_type e) (e_off e) (e_format e)).
  assert (zget locs (it_current it') = Some w) as Hw.
  { unfold locs, encode, initialize, it'. cbn [it_current]. rewrite <- app_assoc, app_assoc. apply zget_at.
    rewrite encode_length. unfold zlen. rewrite length_app. lia. }
  split; [|done]. unfold it' in *. clear it'. rewrite encode_length in *. cbn [it_current] in Hw. rewrite Hc.
  unfold locs, encode, initialize in *. fold w in Hw |- *. destruct (finish_prefix_cases (e_data e) Hs) as [[He Hp]|[(d & He & Hi & Hp)|[He Hp]]]; rewrite Hp in *.
  - replace (zlen pre + (zlen (@nil Z) + 1) - 1) with (zlen pre) in * by (unfold zlen; cbn; lia). rewrite Hw. cbn [mbind option_bind].
    unfold w. rewrite relocInfo_not_prefix by done. rewrite He. destruct it; cbn in *. by subst.
  - rewrite He in *. rewrite <- app_assoc. cbn [app]. rewrite zget_at by done. cbn [mbind option_bind].
    destruct (immediate_fields d Hi) as (-> & Hdl & Him). unfold advance_over_prefix. rewrite Hdl, Him, Hc.
    rewrite (wrapS_id 16 d) by (done || by apply Forall_cons in Hs as [??]). by rewrite Z.add_assoc, Z.add_simpl_r.
  - rewrite <- app_assoc. cbn [app]. rewrite zget_at by done. cbn [mbind option_bind].
    destruct (prefix_fields (zlen (e_data e))) as (-> & Hdl & Hn); [unfold zlen in *; lia|]. unfold advance_over_prefix. rewrite Hdl, Hn, Hc.
    replace (Z.to_nat (zlen (e_data e))) with (length (e_data e)) by (unfold zlen; lia).
    pose proof (read_words_span (pre ++ [prefix_relocInfo (zlen (e_data e))]) (e_data e) (w :: post) Hs) as Hr.
    rewrite <- app_assoc in Hr. cbn [app] in Hr. replace (zlen (pre ++ _)) with (zlen pre + 1) in Hr by (unfold zlen; rewrite length_app; cbn [length]; lia).
    rewrite Hr. cbn [mbind option_bind]. destruct (e_data e) as [|d0 ds] eqn:Hed; [done|].
    do 2 f_equal. unfold zlen. rewrite !length_cons, !length_fmap, !length_cons. lia.
Qed.

Definition past (it : RelocIterator) (a : Z) : bool := negb (it_limit it =? 0) && (it_limit it <=? a).
(** The iterator after it has walked over entry [e], whose last word is [i]. *)
Definition stepped (it : RelocIterator) (i : Z) (e : entry) : RelocIterator :=
  let a := it_addr it + e_off e in
  mkIter (it_limit it) i (it_end it) a (match e_data e with [] => it_data it | _ => e_data e end)
    (if past it a then -1 else zlen (e_data e)) (if past it a then it_format it else e_format e).
Lemma next_entry pre e post it :
  entry_ok e → it_current it = zlen pre - 1 → zlen pre < it_end it →
  next (pre ++ encode e ++ post) it =
  Some (negb (past it (it_addr it + e_off e)), stepped it (zlen pre + zlen (encode e) - 1) e).
Proof.
  intros He Hc Hend. unfold next. rewrite Hc. replace (zlen pre - 1 + 1) with (zlen pre) by lia.
  rewrite (proj2 (Z.eqb_neq _ _)) by lia.
  destruct (advance_entry pre e post (mkIter (it_limit it) (zlen pre) (it_end it) (it_addr it) (it_data it) 0 (it_format it)) He eq_refl eq_refl) as [Ha Hw].
  cbn [it_current it_limit it_end it_addr it_data it_format] in Ha, Hw. revert Ha.
  destruct (zget (pre ++ encode e ++ post) (zlen pre)) as [v|]; [|done]. cbn [mbind option_bind]. intros ->. cbn [mbind option_bind it_current]. rewrite Hw.
  destruct He as (Ht & Ho & Hf & _). cbn [mbind option_bind it_limit it_addr it_end it_data it_format it_datalen].
  destruct (relocInfo_fields (e_type e) (e_off e) (e_format e)) as (_ & -> & ->); [lia|done..|].
  unfold stepped, past. by destruct (negb (it_limit it =? 0) && (it_limit it <=? it_addr it + e_off e)).
Qed.
Lemma next_end locs it : it_current it = it_end it - 1 →
  next locs it = Some (false, mkIter (it_limit it) (it_end it) (it_end it) (it_addr it) (it_data it) (-1) (it_format it)).
Proof. intros Hc. unfold next. rewrite Hc. replace (it_end it - 1 + 1) with (it_end it) by lia. by rewrite Z.eqb_refl. Qed.

(** ** Whole streams *)

(** The iterator stands between the entries [visited] and [todo]; words after
    [_end] do not matter. *)
Definition between (locs : list Z) (visited todo : list entry) (it : RelocIterator) : Prop :=
  ∃ junk, locs = stream visited ++ stream todo ++ junk ∧
    it_current it = zlen (stream visited) - 1 ∧ it_end it = zlen (stream visited ++ stream todo).

Lemma stream_cons e es : stream (e :: es) = encode e ++ stream es.
Proof. done. Qed.
Lemma stream_app es1 es2 : stream (es1 ++ es2) = stream es1 ++ stream es2.
Proof. unfold stream. by rewrite fmap_app, concat_app. Qed.
Lemma stream_snoc es e : stream (es ++ [e]) = stream es ++ encode e.
Proof. rewrite stream_app, stream_cons. unfold stream at 2. by rewrite app_nil_r. Qed.

Lemma next_between locs visited e es it :
  entry_ok e → between locs visited (e :: es) it →
  let it' := stepped it (zlen (stream (visited ++ [e])) - 1) e in
  next locs it = Some (negb (past it (it_addr it + e_off e)), it') ∧ between locs (visited ++ [e]) es it' ∧
  zget locs (it_current it') = Some (relocInfo (e_type e) (e_off e) (e_format e)).
Proof.
  intros He (junk & -> & Hc & Hend). cbv zeta. rewrite stream_cons in *. rewrite <- (app_assoc (encode e)).
  rewrite (stream_snoc visited e), zlen_app. pose proof (encode_length e) as Hl. split; [|split].
  - apply next_entry; [done..|]. rewrite Hend, !zlen_app. unfold zlen in *. lia.
  - exists junk. split; [by rewrite (stream_snoc visited e), <- !app_assoc|]. cbn [stepped it_current it_end].
    split; [by rewrite stream_snoc, zlen_app|]. by rewrite Hend, stream_snoc, <- app_assoc.
  - cbn [stepped it_current]. rewrite Hl. unfold encode, initialize. rewrite <- app_assoc. cbn [app]. rewrite app_assoc. apply zget_at.
    rewrite zlen_app. lia.
Qed.
Lemma next_between_nil locs visited it : between locs visited [] it → ∃ it', next locs it = Some (false, it') ∧ it_limit it' = it_limit it ∧ it_end it' = it_end it.
Proof.
  intros (junk & _ & Hc & Hend). eexists. rewrite next_end; [done|]. rewrite Hend, Hc. unfold stream. cbn. by rewrite app_nil_r.
Qed.

Definition selected (begin limit : Z) (r : record) : Prop := begin ≤ r_addr r ∧ (limit = 0 ∨ r_addr r < limit).
#[export] Instance selected_dec begin limit r : Decision (selected begin limit r).
Proof. unfold selected. apply _. Defined.

Lemma place_ge addr es : Forall entry_ok es → Forall (λ r, addr ≤ r_addr r) (place addr es).
Proof.
  revert addr. induction es as [|e es IH]; intros addr Hes; [constructor|]. apply Forall_cons in Hes as [He Hes].
  destruct He as (_ & Ho & _). constructor; [cbn; lia|]. eapply Forall_impl; [by apply IH|]. cbn. intros r Hr. lia.
Qed.
Lemma filter_none {A} (P : A → Prop) `{∀ x, Decision (P x)} l : Forall (λ x, ¬ P x) l → filter P l = [].
Proof. induction 1 as [|x l Hx Hl IH]; [done|]. by rewrite filter_cons_False. Qed.
Lemma past_spec it a : past it a = true ↔ it_limit it ≠ 0 ∧ it_limit it ≤ a.
Proof. unfold past. rewrite andb_true_iff, negb_true_iff, Z.eqb_neq, Z.leb_le. done. Qed.
Lemma past_filter it begin e es :
  Forall entry_ok (e :: es) → past it (it_addr it + e_off e) = true →
  filter (selected begin (it_limit it)) (place (it_addr it) (e :: es)) = [].
Proof.
  intros [He Hes]%Forall_cons [Hl0 Hl]%past_spec. apply filter_none. constructor; [unfold selected; cbn; lia|].
  eapply Forall_impl; [by apply place_ge|]. cbn. unfold selected. lia.
Qed.
Lemma filter_ext_Forall {A} (P Q : A → Prop) `{∀ x, Decision (P x)} `{∀ x, Decision (Q x)} l :
  Forall (λ x, P x ↔ Q x) l → filter P l = filter Q l.
Proof.
  induction 1 as [|x l Hx Hl IH]; [done|]. destruct (decide (P x)).
  - by rewrite !filter_cons_True, IH by tauto.
  - by rewrite !filter_cons_False, IH by tauto.
Qed.

(** The records a client sees: those below the limit. *)
Lemma iterate_between locs visited es it fuel :
  Forall entry_ok es → between locs visited es it → (length es < fuel)%nat →
  iterate locs fuel it = Some (filter (selected (it_addr it) (it_limit it)) (place (it_addr it) es)).
Proof.
  revert visited it fuel. induction es as [|e es IH]; intros visited it fuel Hes Hb Hf; (destruct fuel as [|fuel]; [cbn in Hf; lia|]); cbn [iterate].
  - destruct (next_between_nil _ _ _ Hb) as (it' & -> & _). done.
  - pose proof Hes as [He Hes']%Forall_cons. destruct (next_between _ _ _ _ _ He Hb) as (-> & Hb' & Hw). cbn [mbind option_bind].
    destruct (past it (it_addr it + e_off e)) eqn:Hp; cbn [negb]; [by rewrite past_filter|].
    rewrite Hw. cbn [mbind option_bind]. rewrite (IH (visited ++ [e])) by (done || cbn in Hf; lia). cbn [mbind option_bind].
    assert (it_limit it = 0 ∨ it_addr it + e_off e < it_limit it) as Hlim.
    { destruct (decide (it_limit it = 0)); [by left|right]. apply Z.lt_nge. intros ?. by rewrite (proj2 (past_spec _ _)) in Hp. }
    pose proof (place_ge (it_addr it + e_off e) es Hes') as Hge. destruct He as (Ht & Ho & Hfm & _). cbn [place].
    rewrite (filter_cons_True (selected (it_addr it) (it_limit it))) by (unfold selected; cbn; lia). f_equal. f_equal.
    + unfold stepped. cbn. rewrite Hp. destruct (relocInfo_fields (e_type e) (e_off e) (e_format e)) as (-> & _); [lia|done..|].
      f_equal. unfold zlen. rewrite Nat2Z.id. destruct (e_data e) as [|d ds]; [done|]. by rewrite firstn_all.
    + apply filter_ext_Forall. eapply Forall_impl; [exact Hge|]. unfold selected, stepped. cbn. lia.
Qed.

Definition end_addr (addr : Z) (es : list entry) : Z := foldl (λ a e, a + e_off e) addr es.
Lemma place_app addr es1 es2 : place addr (es1 ++ es2) = place addr es1 ++ place (end_addr addr es1) es2.
Proof. revert addr. induction es1 as [|e es1 IH]; intros addr; [done|]. cbn [place app end_addr foldl]. by rewrite IH. Qed.

(** Where [set_limits] leaves the iterator. *)
Lemma skip_between locs visited es it begin fuel :
  Forall entry_ok es → between locs visited es it → (length es < fuel)%nat →
  ∃ it' es1 es2, skip_to locs fuel it begin = Some it' ∧ es = es1 ++ es2 ∧ between locs (visited ++ es1) es2 it' ∧
    it_limit it' = it_limit it ∧ it_addr it' = end_addr (it_addr it) es1 ∧
    Forall (λ r, r_addr r < begin) (place (it_addr it) es1) ∧
    Forall (λ r, begin ≤ r_addr r ∨ past it (r_addr r) = true) (place (it_addr it') es2).
Proof.
  revert visited it fuel. induction es as [|e es IH]; intros visited it fuel Hes Hb Hf; (destruct fuel as [|fuel]; [cbn in Hf; lia|]); cbn [skip_to].
  - destruct (next_between_nil _ _ _ Hb) as (it1 & -> & Hl & He). eexists _, [], []. split; [done|]. split_and!; try done; [|constructor..].
    rewrite app_nil_r. destruct Hb as (junk & ? & ? & ?). exists junk. cbn in *. by rewrite He.
  - pose proof Hes as [He Hes']%Forall_cons. destruct (next_between _ _ _ _ _ He Hb) as (-> & Hb' & _). cbn [mbind option_bind].
    rewrite negb_involutive. set (a := it_addr it + e_off e) in *.
    destruct (past it a || (begin <=? it_addr (stepped it (zlen (stream (visited ++ [e])) - 1) e))) eqn:Hstop.
    + eexists _, [], (e :: es). split; [done|]. rewrite app_nil_r. split_and!; try done. cbn [it_addr place]. fold a.
      assert (begin ≤ a ∨ past it a = true) as Ha by (destruct (past it a); [by right|]; cbn in Hstop; apply Z.leb_le in Hstop; by left).
      constructor; [done|]. eapply Forall_impl; [by apply (place_ge a es)|]. cbn. intros r Hr. destruct Ha as [Ha|Ha]; [left; lia|right].
      apply past_spec in Ha. apply past_spec. lia.
    + apply orb_false_iff in Hstop as [Hp Hlt%Z.leb_gt]. destruct (IH _ _ fuel Hes' Hb') as (it' & es1 & es2 & Hs & -> & Hb'' & Hl & Ha & H1 & H2); [cbn in Hf; lia|].
      exists it', (e :: es1), es2. rewrite <- app_assoc in Hb''. split_and!; try done. constructor; [cbn in *; lia|done].
Qed.
Lemma new_between es junk addr begin limit fuel :
  Forall entry_ok es → (length es < fuel)%nat → 0 ≤ addr →
  ∃ it es1 es2, RelocIterator_new (stream es ++ junk) fuel addr (zlen (stream es)) begin limit = Some it ∧ es = es1 ++ es2 ∧
    between (stream es ++ junk) es1 es2 it ∧ it_limit it = limit ∧ it_addr it = end_addr addr es1 ∧
    Forall (λ r, ¬ selected begin limit r) (place addr es1) ∧
    Forall (λ r, selected (it_addr it) limit r ↔ selected begin limit r) (place (it_addr it) es2).
Proof.
  intros Hes Hf Haddr. unfold RelocIterator_new, set_limits. cbn [it_current it_end it_addr it_data it_datalen it_format].
  assert (between (stream es ++ junk) [] es (mkIter limit (-1) (zlen (stream es)) addr [] (-1) 0)) as Hb by (by exists junk).
  destruct (Z.eqb_spec begin 0) as [->|Hb0]; cbn [negb].
  - eexists _, [], es. split_and!; try done. cbn. eapply Forall_impl; [by apply place_ge|]. cbn. unfold selected. lia.
  - destruct (skip_between _ _ _ _ begin fuel Hes Hb Hf) as (it' & es1 & es2 & Hs & -> & Hb' & Hl & Ha & H1 & H2).
    exists it', es1, es2. split_and!; try done; [eapply Forall_impl; [exact H1|]; unfold selected; cbn; lia|].
    apply Forall_app in Hes as [_ Hes2]. pose proof (place_ge (it_addr it') es2 Hes2) as H3.
    rewrite Forall_forall in H2, H3 |- *. intros r Hr. specialize (H2 r Hr). specialize (H3 r Hr). rewrite past_spec in H2. cbn in H2, H3.
    unfold selected. lia.
Qed.

(** [change_reloc_info_for_address] edits the first record it meets at [pc]. *)
Fixpoint update_first {A} (P : A → Prop) `{∀ x, Decision (P x)} (f : A → A) (l : list A) : list A :=
  match l with
  | [] => []
  | x :: l' => if decide (P x) then f x :: l' else x :: update_first P f l'
  end.
Definition with_type (t : Z) (r : record) : record := mkRecord t (r_addr r) (r_format r) (r_data r).
Lemma update_first_none {A} (P : A → Prop) `{∀ x, Decision (P x)} f l : Forall (λ x, ¬ P x) l → update_first P f l = l.
Proof. induction 1 as [|x l Hx Hl IH]; [done|]. cbn. by rewrite decide_False, IH. Qed.
Lemma update_first_app {A} (P : A → Prop) `{∀ x, Decision (P x)} f l1 l2 :
  Forall (λ x, ¬ P x) l1 → update_first P f (l1 ++ l2) = l1 ++ update_first P f l2.
Proof. induction 1 as [|x l Hx Hl IH]; [done|]. cbn. by rewrite decide_False, IH. Qed.
Lemma update_first_ext {A} (P Q : A → Prop) `{∀ x, Decision (P x)} `{∀ x, Decision (Q x)} f l :
  Forall (λ x, P x ↔ Q x) l → update_first P f l = update_first Q f l.
Proof.
  induction 1 as [|x l Hx Hl IH]; [done|]. cbn. destruct (decide (P x)).
  - by rewrite decide_True by tauto.
  - by rewrite decide_False, IH by tauto.
Qed.
Definition edited (addr limit pc : Z) (r : record) : Prop := selected addr limit r ∧ r_addr r = pc.
#[export] Instance edited_dec addr limit pc r : Decision (edited addr limit pc r).
Proof. unfold edited. apply _. Defined.
Lemma change_word visited e es junk t :
  entry_ok e → 0 ≤ t < data_prefix_tag →
  let e' := mkEntry t (e_off e) (e_format e) (e_data e) in
  let i := zlen (stream (visited ++ [e])) - 1 in
  let w := relocInfo (e_type e) (e_off e) (e_format e) in
  zset (stream visited ++ stream (e :: es) ++ junk) i (set_type w t) = Some (stream visited ++ stream (e' :: es) ++ junk) ∧
  zlen (stream (visited ++ [e])) = zlen (stream (visited ++ [e'])).
Proof.
  intros (Ht & Ho & Hf & _) Ht' e' i w. pose proof (encode_length e) as Hl. unfold i. rewrite !stream_snoc, !zlen_app.
  split; [|by rewrite Hl, (encode_length e')]. rewrite Hl, !stream_cons. unfold encode, initialize, w. rewrite set_type_relocInfo by done. unfold e'.
  cbn [e_data e_type e_off e_format]. rewrite <- !(app_assoc (finish_prefix _)). cbn [app]. rewrite !(app_assoc (stream visited)).
  set (p := stream visited ++ finish_prefix (e_data e)). replace (_ + _ - 1) with (zlen p) by (unfold p; rewrite zlen_app; lia).
  unfold zset. rewrite decide_True by (rewrite length_app; unfold zlen; cbn [length]; lia). f_equal. unfold zlen. rewrite Nat2Z.id.
  rewrite insert_app_r_alt, Nat.sub_diag by lia. done.
Qed.

Lemma change_between visited es junk it pc t fuel :
  Forall entry_ok es → 0 ≤ t < data_prefix_tag → between (stream visited ++ stream es ++ junk) visited es it → (length es < fuel)%nat →
  ∃ es', change_reloc_info_for_address fuel (stream visited ++ stream es ++ junk) it pc t = Some (stream visited ++ stream es' ++ junk) ∧
    Forall entry_ok es' ∧ place (it_addr it) es' = update_first (edited (it_addr it) (it_limit it) pc) (with_type t) (place (it_addr it) es) ∧
    zlen (stream es') = zlen (stream es).
Proof.
  intros Hes Ht. revert visited it fuel Hes. induction es as [|e es IH]; intros visited it fuel Hes Hb Hf; (destruct fuel as [|fuel]; [cbn in Hf; lia|]); cbn [change_reloc_info_for_address].
  - destruct (next_between_nil _ _ _ Hb) as (it' & -> & _). by exists [].
  - pose proof Hes as [He Hes']%Forall_cons. destruct (next_between _ _ _ _ _ He Hb) as (-> & Hb' & Hw). cbn [mbind option_bind].
    set (it' := stepped it _ e) in *. set (a := it_addr it + e_off e) in *.
    destruct (past it a) eqn:Hp; cbn [negb].
    { exists (e :: es). split_and!; try done. rewrite update_first_none; [done|]. apply past_spec in Hp. constructor; [unfold edited, selected; cbn; fold a; lia|].
      eapply Forall_impl; [by apply (place_ge a es)|]. unfold edited, selected. cbn. lia. }
    assert (it_limit it = 0 ∨ a < it_limit it) as Hlim.
    { destruct (decide (it_limit it = 0)); [by left|right]. apply Z.lt_nge. intros ?. by rewrite (proj2 (past_spec it a)) in Hp. }
    change (it_addr it') with a. destruct (Z.eqb_spec a pc) as [Hpc|Hpc].
    + rewrite Hw. cbn [mbind option_bind]. destruct (change_word visited e es junk t He Ht) as [Hset Hlen]. change (it_current it') with (zlen (stream (visited ++ [e])) - 1).
      rewrite Hset. cbn [mbind option_bind]. set (e' := mkEntry t _ _ _) in *. exists (e' :: es).
      assert (between (stream visited ++ stream (e' :: es) ++ junk) (visited ++ [e']) es it') as Hb2.
      { destruct Hb' as (junk' & _ & Hc & Hend). exists junk. rewrite Hc, Hend, Hlen, !zlen_app, Hlen. split; [|done]. by rewrite stream_snoc, stream_cons, <- !app_assoc. }
      assert (∃ r, next (stream visited ++ stream (e' :: es) ++ junk) it' = Some r) as [r ->].
      { destruct es as [|e2 es]; [destruct (next_between_nil _ _ _ Hb2) as (? & ? & _); eauto|]. apply Forall_cons in Hes' as [He2 _].
        destruct (next_between _ _ _ _ _ He2 Hb2) as (? & _). eauto. }
      destruct He as (Ho1 & Ho & Ho3). split_and!; try done; [constructor; done|..].
      * cbn [place update_first]. fold a. rewrite decide_True by (unfold edited, selected; cbn; fold a; lia). done.
      * rewrite !stream_cons, !zlen_app. rewrite !stream_snoc, !zlen_app in Hlen. lia.
    + pose proof (IH (visited ++ [e]) it' fuel Hes') as IH'. rewrite stream_snoc, <- !app_assoc in IH'. rewrite stream_cons, <- app_assoc in *.
      destruct IH' as (es' & -> & Hok & Hpl & Hlen); [done|cbn in Hf; lia|]. exists (e :: es'). rewrite !(stream_cons e es'). split_and!; [by rewrite <- !app_assoc|by constructor|..].
      * cbn [place update_first]. fold a. rewrite decide_False by (unfold edited; cbn; fold a; lia). f_equal. change (it_addr it') with a in Hpl. rewrite Hpl.
        apply update_first_ext. eapply Forall_impl; [by apply (place_ge a es)|]. destruct He as (_ & Ho & _). unfold edited, selected. cbn. unfold a in *. lia.
      * rewrite !zlen_app. lia.
Qed.

(** ** Results *)

(** A [RelocIterator] built over the part of a relocation stream given by
    [begin] and [limit] visits exactly the records whose address lies in that
    part, in order, each with the type, format and data it was written with: the
    skipping loop of [set_limits] loses none and stops in time, whatever lies
    behind the end of the stream. *)
Lemma relocation_iterator_range es junk addr begin limit fuel :
  Forall entry_ok es → (length es < fuel)%nat → 0 ≤ addr →
  ∃ it, RelocIterator_new (stream es ++ junk) fuel addr (zlen (stream es)) begin limit = Some it ∧
    iterate (stream es ++ junk) fuel it = Some (filter (selected begin limit) (place addr es)).
Proof.
  intros Hes Hf Ha. destruct (new_between es junk addr begin limit fuel Hes Hf Ha) as (it & es1 & es2 & Hn & -> & Hb & Hl & Hia & H1 & H2).
  exists it. split; [done|]. apply Forall_app in Hes as [_ Hes2]. rewrite length_app in Hf.
  rewrite (iterate_between _ es1 es2) by (done || lia). rewrite place_app, filter_app, <- Hia, Hl.
  rewrite (filter_none _ (place addr es1)) by done. cbn [app]. f_equal. by apply filter_ext_Forall.
Qed.
Lemma stream_length es : (length es ≤ length (stream es))%nat.
Proof.
  induction es as [|e es IH]; [done|]. rewrite stream_cons, length_app. pose proof (encode_length e) as Hl. unfold zlen in Hl. cbn [length]. lia.
Qed.

(** C26: [change_reloc_info_for_address] with an iterator over [begin]..[limit]
    replaces the type of the first record of that part at address [pc] and
    leaves every other record, and every address, format and datum, as it was;
    without such a record the stream does not change. *)
Theorem change_reloc_info_exact es junk addr begin limit pc t fuel :
  Forall entry_ok es → (length es < fuel)%nat → 0 ≤ addr → 0 ≤ t < data_prefix_tag →
  ∃ it es', RelocIterator_new (stream es ++ junk) fuel addr (zlen (stream es)) begin limit = Some it ∧
    change_reloc_info_for_address fuel (stream es ++ junk) it pc t = Some (stream es' ++ junk) ∧
    zlen (stream es') = zlen (stream es) ∧ Forall entry_ok es' ∧
    place addr es' = update_first (edited begin limit pc) (with_type t) (place addr es).
Proof.
  intros Hes Hf Ha Ht. destruct (new_between es junk addr begin limit fuel Hes Hf Ha) as (it & es1 & es2 & Hn & -> & Hb & Hl & Hia & H1 & H2).
  apply Forall_app in Hes as [Hes1 Hes2]. rewrite length_app in Hf. rewrite stream_app, <- app_assoc in Hb.
  destruct (change_between es1 es2 junk it pc t fuel Hes2 Ht Hb) as (es2' & Hc & Hok & Hpl & Hlen); [lia|].
  exists it, (es1 ++ es2'). rewrite (stream_app es1 es2), <- app_assoc in Hn |- *. rewrite (stream_app es1 es2'), <- app_assoc.
  split_and!; try done; [rewrite !zlen_app; lia|by apply Forall_app|]. rewrite !place_app, <- Hia, Hpl, Hl. rewrite update_first_app.
  - f_equal. apply update_first_ext. eapply Forall_impl; [exact H2|]. unfold edited. cbn. intros r Hr. by rewrite Hr.
  - eapply Forall_impl; [exact H1|]. unfold edited. cbn. tauto.
Qed.
Example change_reloc_info_exact_witness :
  let es := [mkEntry static_call_type 5 0 []; mkEntry oop_type 20 0 [-5; 300]; mkEntry virtual_call_type 0 1 [17]; mkEntry poll_type 100 0 []] in
  ∃ it, RelocIterator_new (stream es) 5 10000 (zlen (stream es)) 10025 10026 = Some it ∧
    change_reloc_info_for_address 5 (stream es) it 10025 none =
    Some (stream [mkEntry static_call_type 5 0 []; mkEntry none 20 0 [-5; 300]; mkEntry virtual_call_type 0 1 [17]; mkEntry poll_type 100 0 []]).
Proof.
  intros es. destruct (change_reloc_info_exact es [] 10000 10025 10026 10025 none 5) as (it & es' & Hn & Hc & _ & _ & Hp); [|cbn; lia|lia|done|].
  { apply (bool_decide_unpack _). vm_compute. exact I. }
  rewrite app_nil_r in Hn, Hc. exists it. split; [exact Hn|]. vm_compute in Hn. injection Hn as <-. vm_compute. reflexivity.
Defined.
