(* ===== verification/CodeBuffer.v ===== *)
(** * Code buffers and their relocations

    asm/codeBuffer.hpp, asm/codeBuffer.cpp, the [pack_data_to] and [unpack_data]
    methods of code/relocInfo.cpp and the stub descriptors of
    runtime/stubCodeGenerator.cpp: sections of generated code that grow by
    moving, the relocations recorded against them, and the final copy of the
    relocations into a code blob. The bytes of the code are a memory that expansion
    copies from; the repair of the addresses in it ([fix_relocation_after_move]) is
    not modelled. *)

From stdpp Require Import base numbers list sets.
From S2P Require Import Prelude GlobalDefinitions RelocInfo.
Local Open Scope Z_scope.

(** ** Sections *)

(** [_locs_start.._locs_limit] is [cs_locs] ([None] for NULL), [_locs_end] an
    index into it. *)
Record CodeSection := mkSection {
  cs_start : Z; cs_mark : Z; cs_end : Z; cs_limit : Z;
  cs_locs : option (list Z); cs_locs_end : Z; cs_locs_point : Z }.

Definition cs_size (cs : CodeSection) : Z := s32 (cs_end cs - cs_start cs).
Definition cs_capacity (cs : CodeSection) : Z := s32 (cs_limit cs - cs_start cs).
Definition cs_remaining (cs : CodeSection) : Z := s32 (cs_limit cs - cs_end cs).
Definition locs_point_off (cs : CodeSection) : Z := s32 (cs_locs_point cs - cs_start cs).
Definition is_empty (cs : CodeSection) : bool := cs_start cs =? cs_end cs.
Definition allocates (cs : CodeSection) (pc : Z) : bool := (cs_start cs <=? pc) && (pc <? cs_limit cs).
Definition allocates2 (cs : CodeSection) (pc : Z) : bool := (cs_start cs <=? pc) && (pc <=? cs_limit cs).

Definition set_end (cs : CodeSection) (pc : Z) : CodeSection :=
  mkSection (cs_start cs) (cs_mark cs) pc (cs_limit cs) (cs_locs cs) (cs_locs_end cs) (cs_locs_point cs).
Definition set_locs_point (cs : CodeSection) (pc : Z) : CodeSection :=
  mkSection (cs_start cs) (cs_mark cs) (cs_end cs) (cs_limit cs) (cs_locs cs) (cs_locs_end cs) pc.
Definition set_locs (cs : CodeSection) (locs : list Z) (fin : Z) : CodeSection :=
  mkSection (cs_start cs) (cs_mark cs) (cs_end cs) (cs_limit cs) (Some locs) fin (cs_locs_point cs).

(** Fresh storage is not initialised; the model fills it with zeros. *)
Definition initialize_locs (cs : CodeSection) (locs_capacity : Z) : CodeSection :=
  let min_locs := Z.max (Z.quot (cs_size cs) 16) 4 in
  let locs_capacity := if locs_capacity <? min_locs then min_locs else locs_capacity in
  set_locs cs (replicate (Z.to_nat locs_capacity) 0) 0.
Definition expand_locs (cs : CodeSection) (new_capacity : Z) : CodeSection :=
  match cs_locs cs with
  | None => initialize_locs cs new_capacity
  | Some locs =>
      let old_capacity := zlen locs in
      let new_capacity := if new_capacity <? old_capacity * 2 then old_capacity * 2 else new_capacity in
      set_locs cs (locs ++ replicate (Z.to_nat (new_capacity - old_capacity)) 0) (cs_locs_end cs)
  end.

(** [consts], [insts] and [stubs], and the sections of the buffers it has
    outgrown, latest first. *)
Record CodeBuffer := mkBuffer { cb_sections : list CodeSection; cb_before_expand : list (list CodeSection); cb_blob : bool }.
Definition SECT_NONE : Z := -1.
Definition SECT_CONSTS : Z := 0.
Definition SECT_INSTS : Z := 1.
Definition SECT_STUBS : Z := 2.

Fixpoint section_index_from (secs : list CodeSection) (n addr : Z) : Z :=
  match secs with
  | [] => SECT_NONE
  | cs :: secs' => if allocates cs addr then n else section_index_from secs' (n + 1) addr
  end.
Definition section_index_of (secs : list CodeSection) (addr : Z) : Z := section_index_from secs 0 addr.

(** ** Locators *)

Definition sect_bits : Z := 2.
Definition sect_mask : Z := Z.shiftl 1 sect_bits - 1.
Definition locator_pos (locator : Z) : Z := Z.shiftr locator sect_bits.
Definition locator_sect (locator : Z) : Z := Z.land locator sect_mask.
Definition locator_of (pos sect : Z) : Z := Z.lor (s32 (Z.shiftl pos sect_bits)) sect.
Definition locator (cb : CodeBuffer) (addr : Z) : Z :=
  let n := section_index_of (cb_sections cb) addr in
  match zget (cb_sections cb) n with
  | Some cs => locator_of (s32 (addr - cs_start cs)) n
  | None => -1
  end.
Definition locator_address (cb : CodeBuffer) (locator : Z) : option Z :=
  if locator <? 0 then Some 0
  else cs ← zget (cb_sections cb) (locator_sect locator); Some (cs_start cs + locator_pos locator).

(** ** Addresses that have moved *)

(** The loop over [src] and its former incarnations. *)
Fixpoint new_addr_for (olda : Z) (src : list (list CodeSection)) (dest : list CodeSection) : option Z :=
  match src with
  | [] => None
  | secs :: src' =>
      let sect := section_index_of secs olda in
      if sect =? SECT_NONE then new_addr_for olda src' dest
      else o ← zget secs sect; n ← zget dest sect; Some (cs_start n + (olda - cs_start o))
  end.
Definition normalize_address (cb : CodeBuffer) (addr : Z) (dest : CodeSection) : option Z :=
  if (addr =? 0) || allocates2 dest addr then Some addr
  else new_addr_for addr (cb_sections cb :: cb_before_expand cb) (cb_sections cb).

(** ** Stub descriptors *)

Record StubCodeDesc := mkStub { sd_index : Z; sd_begin : Z; sd_end : Z }.
Fixpoint desc_for (l : list StubCodeDesc) (pc : Z) : option StubCodeDesc :=
  match l with
  | [] => None
  | p :: l' => if negb ((sd_begin p <=? pc) && (pc <? sd_end p)) then desc_for l' pc else Some p
  end.
Fixpoint desc_for_index (l : list StubCodeDesc) (index : Z) : option StubCodeDesc :=
  match l with
  | [] => None
  | p :: l' => if negb (sd_index p =? index) then desc_for_index l' index else Some p
  end.

(** ** Relocations *)

Inductive Relocation :=
| none_Relocation
| oop_Relocation (oop_index offset : Z)
| metadata_Relocation (metadata_index offset : Z)
| virtual_call_Relocation (cached_value : Z)
| opt_virtual_call_Relocation
| static_call_Relocation
| static_stub_Relocation (static_call : Z)
| runtime_call_Relocation
| trampoline_stub_Relocation (owner : Z)
| external_word_Relocation (target : Z)
| internal_word_Relocation (target : Z)
| section_word_Relocation (target section : Z)
| poll_Relocation
| poll_return_Relocation.

Definition reloc_type (r : Relocation) : Z :=
  match r with
  | none_Relocation => none
  | oop_Relocation _ _ => oop_type
  | metadata_Relocation _ _ => metadata_type
  | virtual_call_Relocation _ => virtual_call_type
  | opt_virtual_call_Relocation => opt_virtual_call_type
  | static_call_Relocation => static_call_type
  | static_stub_Relocation _ => static_stub_type
  | runtime_call_Relocation => runtime_call_type
  | trampoline_stub_Relocation _ => trampoline_stub_type
  | external_word_Relocation _ => external_word_type
  | internal_word_Relocation _ => internal_word_type
  | section_word_Relocation _ _ => section_word_type
  | poll_Relocation => poll_type
  | poll_return_Relocation => poll_return_type
  end.

(** The page size is the operating system's, [CodeEntryAlignment] a flag and
    the stub descriptors those registered when the compiler runs. *)
Section code_buffer.
Context (vm_page_size CodeEntryAlignment : Z) (stubs : list StubCodeDesc).

Definition is_reloc_index (index : Z) : bool := (0 <? index) && (index <? vm_page_size).
Definition runtime_address_to_index (runtime_address : Z) : Z :=
  if runtime_address =? 0 then 0
  else match desc_for stubs runtime_address with
       | Some p => if sd_begin p =? runtime_address then s32 (sd_index p) else -1
       | None => -1
       end.
Definition index_to_runtime_address (index : Z) : option Z :=
  if index =? 0 then Some 0
  else if is_reloc_index index then sd_begin <$> desc_for_index stubs index
  else None.

Definition section_width : Z := 2.
(** [internal_word_Relocation::pack_data_to], which [section_word] inherits;
    [section] is [_section] and [suffix] the word written so far. *)
Definition pack_internal_word (cb : CodeBuffer) (dest : CodeSection) (target section suffix : Z) : option (Z * list Z) :=
  target ← normalize_address cb target dest;
  '(sindex, suffix) ←
    (if (section =? SECT_NONE) && negb (target =? 0) && (negb (allocates dest target) || (target =? cs_locs_point dest)) then
       let sindex := section_index_of (cb_sections cb) target in
       if sindex =? SECT_NONE then None else Some (sindex, set_type suffix section_word_type)
     else Some (section, suffix));
  if sindex =? SECT_NONE then
    if (target =? 0) || allocates2 dest target then
      Some (suffix, pack_1_int (scaled_offset_null_special target (cs_locs_point dest)))
    else None
  else
    sect ← zget (cb_sections cb) sindex;
    if allocates2 sect target then
      let offset := scaled_offset target (cs_start sect) in
      Some (suffix, pack_1_int (Z.lor (s32 (Z.shiftl offset section_width)) sindex))
    else None.

(** The word, which [internal_word] may edit, and the halfwords packed. *)
Definition pack_data_to (cb : CodeBuffer) (dest : CodeSection) (r : Relocation) (suffix : Z) : option (Z * list Z) :=
  match r with
  | oop_Relocation index offset | metadata_Relocation index offset => Some (suffix, pack_2_ints index offset)
  | virtual_call_Relocation cached_value =>
      cached_value ← normalize_address cb cached_value dest;
      Some (suffix, pack_1_int (scaled_offset_null_special cached_value (cs_locs_point dest)))
  | static_stub_Relocation a | trampoline_stub_Relocation a =>
      insts ← zget (cb_sections cb) SECT_INSTS;
      a ← normalize_address cb a insts;
      Some (suffix, pack_1_int (scaled_offset a (cs_start insts)))
  | external_word_Relocation target =>
      let index := runtime_address_to_index target in
      if is_reloc_index index then Some (suffix, pack_2_ints index 0)
      else Some (suffix, pack_2_ints (low (s64 target)) (high (s64 target)))
  | internal_word_Relocation target => pack_internal_word cb dest target SECT_NONE suffix
  | section_word_Relocation target section => pack_internal_word cb dest target section suffix
  | _ => Some (suffix, [])
  end.

(** [RelocIterator::reloc]: a record bound to its address and to the starts of
    the sections. *)
Definition unpack_data (section_start : list Z) (t : Z) (data : list Z) (addr : Z) : option Relocation :=
  let dlen := zlen data in
  if t =? oop_type then '(i, o) ← unpack_2_ints data dlen; Some (oop_Relocation i o)
  else if t =? metadata_type then '(i, o) ← unpack_2_ints data dlen; Some (metadata_Relocation i o)
  else if t =? virtual_call_type then
    x0 ← unpack_1_int data dlen;
    Some (virtual_call_Relocation (if x0 =? 0 then 0 else address_from_scaled_offset x0 addr))
  else if t =? opt_virtual_call_type then Some opt_virtual_call_Relocation
  else if t =? static_call_type then Some static_call_Relocation
  else if t =? static_stub_type then
    base ← zget section_start SECT_INSTS; x0 ← unpack_1_int data dlen;
    Some (static_stub_Relocation (address_from_scaled_offset x0 base))
  else if t =? runtime_call_type then Some runtime_call_Relocation
  else if t =? external_word_type then
    '(lo, hi) ← unpack_2_ints data dlen;
    let t := jlong_from hi lo in
    if is_reloc_index t then external_word_Relocation <$> index_to_runtime_address (s32 t)
    else Some (external_word_Relocation (u64 t))
  else if t =? internal_word_type then
    x0 ← unpack_1_int data dlen;
    Some (internal_word_Relocation (if x0 =? 0 then 0 else address_from_scaled_offset x0 addr))
  else if t =? poll_type then Some poll_Relocation
  else if t =? poll_return_type then Some poll_return_Relocation
  else if t =? section_word_type then
    x ← unpack_1_int data dlen;
    let offset := Z.shiftr x section_width in
    let sindex := Z.land x (Z.shiftl 1 section_width - 1) in
    base ← zget section_start sindex;
    Some (section_word_Relocation (address_from_scaled_offset offset base) sindex)
  else if t =? trampoline_stub_type then
    base ← zget section_start SECT_INSTS; x0 ← unpack_1_int data dlen;
    Some (trampoline_stub_Relocation (address_from_scaled_offset x0 base))
  else Some none_Relocation.

(** ** [CodeSection::relocate] *)

Fixpoint write_words (locs : list Z) (i : Z) (ws : list Z) : option (list Z) :=
  match ws with
  | [] => Some locs
  | w :: ws' => locs' ← zset locs i w; write_words locs' (i + 1) ws'
  end.
(** [while (offset >= relocInfo::offset_limit())] *)
Fixpoint emit_fillers (fuel : nat) (locs : list Z) (fin offset : Z) : option (list Z * Z * Z) :=
  match fuel with
  | O => None
  | S fuel' =>
      if offset_limit <=? offset then
        locs' ← zset locs fin filler_relocInfo;
        emit_fillers fuel' locs' (fin + 1) (offset - addr_offset filler_relocInfo)
      else Some (locs, fin, offset)
  end.
Definition relocate_section (cb : CodeBuffer) (cs : CodeSection) (at_ : Z) (r : Relocation) (format : Z) : option CodeSection :=
  if reloc_type r =? none then Some cs
  else match cs_locs cs with
  | None => Some cs
  | Some locs =>
      let offset := s32 (at_ - cs_locs_point cs) in
      let cs := set_locs_point cs at_ in
      let fin := cs_locs_end cs in
      let req := fin + length_limit in
      let cs :=
        if (zlen locs <=? req) || (offset_limit <=? offset) then
          let req := req + u32 offset / u32 offset_limit in
          if zlen locs <=? req then expand_locs cs (cs_locs_end cs + (req - fin)) else cs
        else cs in
      locs ← cs_locs cs;
      '(locs, fin, offset) ← emit_fillers (S (Z.to_nat offset)) locs fin offset;
      '(suffix, data) ← pack_data_to cb cs r (relocInfo (reloc_type r) offset format);
      let ws := initialize suffix data in
      locs ← write_words locs fin ws;
      Some (set_locs cs locs (fin + zlen ws))
  end.
Definition update_section (cb : CodeBuffer) (n : Z) (cs : CodeSection) : option CodeBuffer :=
  secs ← zset (cb_sections cb) n cs; Some (mkBuffer secs (cb_before_expand cb) (cb_blob cb)).
Definition relocate (cb : CodeBuffer) (n at_ : Z) (r : Relocation) (format : Z) : option CodeBuffer :=
  cs ← zget (cb_sections cb) n;
  cs' ← relocate_section cb cs at_ r format;
  update_section cb n cs'.

(** Code emission moves the end of a section ([emit_int8] and the like). *)
Definition emit (cb : CodeBuffer) (n size : Z) : option CodeBuffer :=
  cs ← zget (cb_sections cb) n; update_section cb n (set_end cs (cs_end cs + size)).

(** ** Layout *)

Definition alignment : Z := Z.max 8 CodeEntryAlignment.
Definition end_slop : Z := Z.max 8 CodeEntryAlignment.
Definition align_at_start (off : Z) : Z := s32 (align_size_up off alignment).

Fixpoint content_size_from (secs : list CodeSection) (size_so_far : Z) : Z :=
  match secs with
  | [] => size_so_far
  | cs :: secs' => content_size_from secs' (if is_empty cs then size_so_far else align_at_start size_so_far + cs_size cs)
  end.
Definition total_content_size (cb : CodeBuffer) : Z := content_size_from (cb_sections cb) 0.
Fixpoint offset_of_from (secs : list CodeSection) (n : Z) (size_so_far : Z) : option Z :=
  match secs with
  | [] => None
  | cs :: secs' =>
      let size_so_far := if negb (is_empty cs) then align_at_start size_so_far else size_so_far in
      if n =? 0 then Some size_so_far else offset_of_from secs' (n - 1) (size_so_far + cs_size cs)
  end.
Definition total_offset_of (cb : CodeBuffer) (n : Z) : option Z := offset_of_from (cb_sections cb) n 0.

(** ** Expansion *)

(** [StressCodeBuffers] is off: it is not a product flag. *)
Definition K : Z := 1024.
Definition figure_section (cs : CodeSection) (n which_cs amount : Z) (caps : list Z) (new_total_cap : Z) : option (list Z * Z) :=
  let padding := if negb (is_empty cs) then align_at_start new_total_cap - new_total_cap else 0 in
  caps ← (if negb (padding =? 0) then c ← zget caps (n - 1); zset caps (n - 1) (c + padding) else Some caps);
  let new_total_cap := new_total_cap + padding in
  let exp := cs_size cs in
  let exp := if u32 exp <? 4 * K then 4 * K else exp in
  let exp :=
    if n =? which_cs then (if exp <? amount then amount else exp)
    else if n =? SECT_INSTS then 4 * K + Z.shiftr (exp - 4 * K) 2
    else if is_empty cs then 0 else exp in
  let exp := exp + end_slop in
  let new_cap := cs_size cs + exp in
  let new_cap := if new_cap <? cs_capacity cs then cs_capacity cs else new_cap in
  Some (caps ++ [new_cap], new_total_cap + new_cap).
Fixpoint figure_from (secs : list CodeSection) (n which_cs amount : Z) (caps : list Z) (new_total_cap : Z) : option (list Z * Z) :=
  match secs with
  | [] => Some (caps, new_total_cap)
  | cs :: secs' =>
      '(caps, new_total_cap) ← figure_section cs n which_cs amount caps new_total_cap;
      figure_from secs' (n + 1) which_cs amount caps new_total_cap
  end.
Definition figure_expanded_capacities (cb : CodeBuffer) (which_cs amount : Z) : option (list Z * Z) :=
  figure_from (cb_sections cb) 0 which_cs amount [] 0.

(** [CodeSection::initialize]; the storage for relocations stays. *)
Definition initialize_section (start size : Z) : CodeSection := mkSection start 0 start (start + size) None 0 start.
(** [initialize_section_size] carves a section off the end of [insts]; the
    buffer it is used on has no relocation storage. *)
Definition initialize_section_size (insts : CodeSection) (size : Z) : option (CodeSection * CodeSection) :=
  let slop := end_slop in
  let middle := cs_limit insts - size in
  let middle := middle - Z.land middle (alignment - 1) in
  if cs_start insts <? middle - slop then
    Some (initialize_section middle (cs_limit insts - middle),
      mkSection (cs_start insts) (cs_mark insts) (cs_end insts) (middle - slop) (cs_locs insts) (cs_locs_end insts) (cs_locs_point insts))
  else None.
(** Place the code of [this_sect] in the new section: its end, its mark, and
    the point [initialize_locs_from] sets. *)
Definition move_section (this_sect cb_sect : CodeSection) : CodeSection :=
  let start := cs_start cb_sect in
  mkSection start (if cs_mark this_sect =? 0 then 0 else start + s32 (cs_mark this_sect - cs_start this_sect))
    (start + cs_size this_sect) (cs_limit cb_sect) (cs_locs this_sect) (cs_locs_end this_sect)
    (if negb (is_empty this_sect) && negb (cs_locs_end this_sect =? 0) then start + locs_point_off this_sect else start).

(** ** [relocate_code_to], its copying loop *)

(** The bytes at each address. [Copy::disjoint_words] copies whole heap words. *)
Definition memory : Type := Z → Z.
Definition HeapWordSize : Z := 8.
Definition disjoint_words (from to count : Z) (mem : memory) : memory :=
  λ a, if (to <=? a) && (a <? to + count * HeapWordSize) then mem (from + (a - to)) else mem a.
(** One pass per section; [dest] has a blob, so the rest of a section is not
    filled. The relocations [initialize_locs_from] hands over are in
    [move_section]. *)
Fixpoint copy_code (secs dest : list CodeSection) (dest_end : Z) (mem : memory) : option memory :=
  match secs, dest with
  | [], [] => Some mem
  | cs :: secs', dest_cs :: dest' =>
      if is_empty cs then copy_code secs' dest' dest_end mem
      else if cs_size cs =? cs_size dest_cs then
        let usize := cs_size dest_cs in
        let wsize := s32 (align_size_up usize HeapWordSize) in
        if cs_start dest_cs + wsize <=? dest_end then
          copy_code secs' dest' dest_end (disjoint_words (cs_start cs) (cs_start dest_cs) (wsize / HeapWordSize) mem)
        else None
      else None
  | _, _ => None
  end.

(** [expand]: [blob] is the content of the buffer blob the code cache grants, or
    [None] when it has no room. *)
Definition expand (cb : CodeBuffer) (which_cs amount : Z) (create : Z → option (Z * Z)) : option CodeBuffer :=
  if negb (cb_blob cb) then Some cb
  else
    '(caps, new_total_cap) ← figure_expanded_capacities cb which_cs amount;
    match create (new_total_cap + (alignment + end_slop) * 4) with
    | None => Some (mkBuffer (cb_sections cb) (cb_before_expand cb) false)
    | Some (content_begin, content_end) =>
        let start := content_begin + Z.land (- content_begin) (alignment - 1) in
        let insts := initialize_section start (content_end - start) in
        cap2 ← zget caps SECT_STUBS; cap0 ← zget caps SECT_CONSTS;
        '(stubs, insts) ← initialize_section_size insts cap2;
        '(consts, insts) ← initialize_section_size insts cap0;
        match cb_sections cb with
        | [this_consts; this_insts; this_stubs] =>
            Some (mkBuffer [move_section this_consts consts; move_section this_insts insts; move_section this_stubs stubs]
              (cb_sections cb :: cb_before_expand cb) true)
        | _ => None
        end
    end.
(** [expand] with the code bytes: those of the old sections are copied to the
    new ones. The section of the stubs is carved off the end of the new buffer,
    so the buffer ends where that section does. *)
Definition expand_code (cb : CodeBuffer) (which_cs amount : Z) (create : Z → option (Z * Z)) (mem : memory) : option (CodeBuffer * memory) :=
  cb' ← expand cb which_cs amount create;
  if cb_blob cb' then
    stubs ← zget (cb_sections cb') SECT_STUBS;
    mem ← copy_code (cb_sections cb) (cb_sections cb') (cs_limit stubs) mem;
    Some (cb', mem)
  else Some (cb', mem).
Definition maybe_expand_to_ensure_remaining (cb : CodeBuffer) (n amount : Z) (create : Z → option (Z * Z)) : option (bool * CodeBuffer) :=
  cs ← zget (cb_sections cb) n;
  if cs_remaining cs <? amount then (λ cb', (true, cb')) <$> expand cb n amount create else Some (false, cb).

(** ** [copy_relocations_to] *)

(** [buf] is [None] in the sizing pass; offsets are in bytes. *)
Definition put (buf : option (list Z)) (buf_offset w : Z) : option (option (list Z)) :=
  match buf with
  | None => Some None
  | Some b => Some <$> zset b (buf_offset / 2) w
  end.
Fixpoint fill_gap (fuel : nat) (buf : option (list Z)) (buf_offset code_point new_code_point : Z) : option (option (list Z) * Z) :=
  match fuel with
  | O => None
  | S fuel' =>
      if code_point <? new_code_point then
        let jump := new_code_point - code_point in
        let '(jump, filler) :=
          if addr_offset filler_relocInfo <=? jump then (addr_offset filler_relocInfo, filler_relocInfo)
          else (jump, relocInfo none jump 0) in
        buf ← put buf buf_offset filler;
        fill_gap fuel' buf (buf_offset + 2) (code_point + jump) new_code_point
      else Some (buf, buf_offset)
  end.
(** The wordwise copy of the source may also copy up to three words behind
    [locs_end]; they land where the next section or the padding is written. *)
Fixpoint put_words (buf : option (list Z)) (buf_offset : Z) (ws : list Z) : option (option (list Z)) :=
  match ws with
  | [] => Some buf
  | w :: ws' => buf ← put buf buf_offset w; put_words buf (buf_offset + 2) ws'
  end.
Definition section_locs (cs : CodeSection) : list Z :=
  match cs_locs cs with None => [] | Some locs => take (Z.to_nat (cs_locs_end cs)) locs end.
Definition copy_section (cs : CodeSection) (st : option (list Z) * Z * Z * Z) : option (option (list Z) * Z * Z * Z) :=
  let '(buf, buf_offset, code_end_so_far, code_point_so_far) := st in
  if is_empty cs then Some st
  else
    let ws := section_locs cs in
    let lsize := zlen ws * 2 in
    let code_end_so_far := align_at_start code_end_so_far in
    '(buf, buf_offset, code_point_so_far) ←
      (if 0 <? lsize then
         '(buf, buf_offset) ← fill_gap (S (Z.to_nat code_end_so_far)) buf buf_offset code_point_so_far code_end_so_far;
         Some (buf, buf_offset, code_end_so_far + locs_point_off cs)
       else Some (buf, buf_offset, code_point_so_far));
    let code_end_so_far := code_end_so_far + cs_size cs in
    buf ← put_words buf buf_offset ws;
    Some (buf, buf_offset + lsize, code_end_so_far, code_point_so_far).
Fixpoint copy_sections (secs : list CodeSection) (st : option (list Z) * Z * Z * Z) : option (option (list Z) * Z * Z * Z) :=
  match secs with
  | [] => Some st
  | cs :: secs' => st ← copy_section cs st; copy_sections secs' st
  end.
Fixpoint pad (fuel : nat) (buf : option (list Z)) (buf_offset : Z) : option (option (list Z) * Z) :=
  match fuel with
  | O => None
  | S fuel' =>
      if negb (buf_offset mod HeapWordSize =? 0) then
        buf ← put buf buf_offset (relocInfo none 0 0); pad fuel' buf (buf_offset + 2)
      else Some (buf, buf_offset)
  end.
(** [create_index] without [UseRelocIndex]: zeros up to the end. *)
Definition create_index (dest : list Z) (dest_count : Z) : option (list Z) :=
  write_words dest dest_count (replicate (Z.to_nat (zlen dest - dest_count)) 0).
Definition copy_relocations_to (cb : CodeBuffer) (dest : option (list Z)) : option (option (list Z) * Z) :=
  '(buf, buf_offset, _, _) ← copy_sections (cb_sections cb) (dest, 0, 0, 0);
  '(buf, buf_offset) ← pad 4 buf buf_offset;
  match buf with
  | None => Some (None, buf_offset)
  | Some b => b ← create_index b (buf_offset / 2); Some (Some b, buf_offset)
  end.
(** The space an index would take after the relocations. [UseRelocIndex] is a
    develop flag, off in a product build. *)
Definition indexCardSize : Z := 128.
Definition num_cards (code_size : Z) : Z := Z.quot (code_size - 1) indexCardSize.
Definition locs_and_index_size (UseRelocIndex : bool) (code_size locs_size : Z) : Z :=
  if negb UseRelocIndex then locs_size
  else
    let code_size := round_to code_size 8 in
    let locs_size := round_to locs_size 8 in
    let index_size := num_cards code_size * 8 in
    locs_size + index_size + 4.
Definition total_relocation_size (cb : CodeBuffer) : option Z :=
  '(_, lsize) ← copy_relocations_to cb None;
  Some (align_size_up (locs_and_index_size false (total_content_size cb) lsize) HeapWordSize).
End code_buffer.

(** With the index, the size is aligned to a word afterwards, so what
    [create_index] finds behind the relocations is never a whole number of
    8-byte entries and the 4-byte size, as it asserts. *)
Lemma index_size_misaligned code_size lsize :
  0 ≤ code_size < 2 ^ 31 → 0 ≤ lsize < 2 ^ 31 → lsize mod 8 = 0 →
  (align_size_up (locs_and_index_size true code_size lsize) HeapWordSize - lsize - 4) mod 8 = 4.
Proof.
  intros Hc Hl Hm. unfold locs_and_index_size. cbn [negb]. change HeapWordSize with (2 ^ 3). change 8 with (2 ^ 3) at 1 2.
  rewrite (round_to_spec lsize), (round_to_spec code_size) by lia. change (2 ^ 3) with 8.
  assert ((lsize + (8 - 1)) / 8 * 8 = lsize) as -> by (Z.div_mod_to_equations; lia).
  set (cs := (code_size + (8 - 1)) / 8 * 8). assert (0 ≤ cs < 2 ^ 32) as Hcs by (unfold cs; Z.div_mod_to_equations; lia).
  assert (0 ≤ num_cards cs < 2 ^ 32) as Hn by (unfold num_cards, indexCardSize; pose proof (Z.quot_rem' (cs - 1) 128); Z.quot_rem_to_equations; lia).
  change 8 with (2 ^ 3) at 2. rewrite align_size_up_spec by lia. rewrite round_to_spec by lia. change (2 ^ 3) with 8.
  set (n := num_cards cs) in *. clearbody n cs. Z.div_mod_to_equations; lia.
Qed.

(** ** Writing words *)

Lemma zset_app_r {A} (p : list A) x y junk : zset (p ++ x :: junk) (zlen p) y = Some (p ++ y :: junk).
Proof.
  unfold zset, zlen. rewrite decide_True by (rewrite length_app; cbn [length]; lia). rewrite Nat2Z.id.
  by rewrite insert_app_r_alt, Nat.sub_diag by lia.
Qed.
Lemma write_words_app p ws junk :
  (length ws ≤ length junk)%nat → write_words (p ++ junk) (zlen p) ws = Some (p ++ ws ++ drop (length ws) junk).
Proof.
  revert p junk. induction ws as [|w ws IH]; intros p junk Hl; [done|]. destruct junk as [|x junk]; [cbn in Hl; lia|].
  cbn [write_words]. rewrite zset_app_r. cbn [mbind option_bind].
  replace (zlen p + 1) with (zlen (p ++ [w])) by (rewrite zlen_app; done).
  specialize (IH (p ++ [w]) junk). rewrite <- !app_assoc in IH. cbn [app] in IH. rewrite IH by (cbn in Hl; lia). done.
Qed.

(** ** Fillers *)

Definition filler_entry : entry := mkEntry none (offset_limit - offset_unit) 0 [].
Lemma filler_ok : entry_ok filler_entry.
Proof. apply (bool_decide_unpack _). vm_compute. exact I. Qed.
Lemma filler_offset : addr_offset filler_relocInfo = 1023.
Proof. done. Qed.
Lemma encode_filler : encode filler_entry = [filler_relocInfo].
Proof. done. Qed.

Lemma emit_fillers_spec fuel es junk offset :
  0 ≤ offset → offset < Z.of_nat fuel → offset ≤ 1023 * Z.of_nat (length junk) →
  ∃ k junk', emit_fillers fuel (stream es ++ junk) (zlen (stream es)) offset =
      Some (stream (es ++ replicate k filler_entry) ++ junk', zlen (stream (es ++ replicate k filler_entry)), offset - 1023 * Z.of_nat k) ∧
    0 ≤ offset - 1023 * Z.of_nat k < offset_limit ∧ length junk = (k + length junk')%nat ∧
    (k = 0%nat ∨ 1023 * (Z.of_nat k - 1) + 1024 ≤ offset).
Proof.
  revert es junk offset. induction fuel as [|fuel IH]; intros es junk offset Ho Hf Hj; [lia|]. cbn [emit_fillers].
  change offset_limit with 1024. destruct (Z.leb_spec 1024 offset) as [Hge|Hlt].
  - destruct junk as [|x junk]; [cbn in Hj; lia|]. rewrite zset_app_r. cbn [mbind option_bind]. rewrite filler_offset.
    destruct (IH (es ++ [filler_entry]) junk (offset - 1023)) as (k & junk' & He & Hb & Hl & Hk); [lia|lia|cbn [length] in Hj; lia|].
    rewrite stream_snoc, zlen_app, <- app_assoc in He. cbn [app] in He. change (encode filler_entry) with [filler_relocInfo] in He.
    change (zlen [filler_relocInfo]) with 1 in He. exists (S k), junk'. cbn [app] in He. rewrite He. cbn [replicate].
    rewrite <- app_assoc. cbn [app length]. change offset_limit with 1024 in Hb.
    replace (offset - 1023 - 1023 * Z.of_nat k) with (offset - 1023 * Z.of_nat (S k)) in * by lia. split_and!; [done|lia..|]. right. lia.
  - exists 0%nat, junk. cbn [replicate]. rewrite app_nil_r. replace (offset - 1023 * Z.of_nat 0) with offset by lia. split_and!; try done; lia.
Qed.

(** Every filler spans 1023 bytes, but the room for them is estimated with
    1024: past a gap of some ten megabytes the loop leaves the storage. *)
Lemma emit_fillers_overrun fuel es junk offset :
  1024 + 1023 * Z.of_nat (length junk) ≤ offset → emit_fillers fuel (stream es ++ junk) (zlen (stream es)) offset = None.
Proof.
  revert es junk offset. induction fuel as [|fuel IH]; intros es junk offset Ho; [done|]. cbn [emit_fillers]. change offset_limit with 1024.
  rewrite (proj2 (Z.leb_le 1024 offset)) by lia. destruct junk as [|x junk].
  - unfold zset. rewrite decide_False; [done|]. rewrite app_nil_r. unfold zlen. lia.
  - rewrite zset_app_r. cbn [mbind option_bind]. rewrite filler_offset. specialize (IH (es ++ [filler_entry]) junk (offset - 1023)).
    rewrite stream_snoc, zlen_app, <- app_assoc in IH. apply IH. cbn [length] in Ho. lia.
Qed.
Lemma giant_gap_overruns vm_page_size stubs cb cs junk r f :
  cs_locs cs = Some junk → cs_locs_end cs = 0 → zlen junk ≤ 8000 → reloc_type r ≠ none →
  relocate_section vm_page_size stubs cb cs (cs_locs_point cs + 2 ^ 24) r f = None.
Proof.
  intros Hl He Hj Hr. unfold relocate_section. rewrite (proj2 (Z.eqb_neq _ _)) by done. rewrite Hl.
  replace (cs_locs_point cs + 2 ^ 24 - cs_locs_point cs) with (2 ^ 24) by lia. rewrite (wrapS_id 32) by (unfold in_s; lia).
  cbn [cs_locs_end set_locs_point]. rewrite He. change (offset_limit <=? 2 ^ 24) with true. rewrite orb_true_r.
  change (0 + length_limit + u32 (2 ^ 24) / u32 offset_limit) with 16399. rewrite (proj2 (Z.leb_le _ _)) by lia.
  unfold expand_locs. cbn [cs_locs set_locs_point cs_locs_end]. rewrite Hl. rewrite (proj2 (Z.ltb_ge _ _)) by lia. cbn [cs_locs set_locs mbind option_bind].
  change (junk ++ ?x) with (stream [] ++ junk ++ x). change 0 with (zlen (stream [])) at 2. rewrite emit_fillers_overrun; [done|].
  rewrite length_app, length_replicate. unfold zlen in *. lia.
Qed.

(** ** Places in the code

    An address obtained from the buffer, now or before any number of moves,
    denotes a section and an offset in it. *)

Definition chain (cb : CodeBuffer) : list (list CodeSection) := cb_sections cb :: cb_before_expand cb.
Definition denotes (cb : CodeBuffer) (t s off : Z) : Prop :=
  ∃ secs cs, secs ∈ chain cb ∧ zget secs s = Some cs ∧ allocates cs t = true ∧ off = t - cs_start cs.
Definition secs_ok (secs : list CodeSection) : Prop :=
  length secs = 3%nat ∧
  (∀ i j ci cj t, zget secs i = Some ci → zget secs j = Some cj → allocates ci t = true → allocates cj t = true → i = j) ∧
  (∀ c t, c ∈ secs → allocates c t = true → 0 < t).
Fixpoint chain_ok (l : list (list CodeSection)) : Prop :=
  match l with
  | [] => True
  | secs :: l' => secs_ok secs ∧
      (∀ c old t, c ∈ secs → old ∈ concat l' → allocates2 c t = true → allocates old t = false) ∧ chain_ok l'
  end.

Lemma allocates_spec cs t : allocates cs t = true ↔ cs_start cs ≤ t < cs_limit cs.
Proof. unfold allocates. rewrite andb_true_iff, Z.leb_le, Z.ltb_lt. done. Qed.
Lemma allocates2_spec cs t : allocates2 cs t = true ↔ cs_start cs ≤ t ≤ cs_limit cs.
Proof. unfold allocates2. rewrite andb_true_iff, !Z.leb_le. done. Qed.
Lemma allocates_2 cs t : allocates cs t = true → allocates2 cs t = true.
Proof. rewrite allocates_spec, allocates2_spec. lia. Qed.

Lemma zget_cons {A} (x : A) l i : zget (x :: l) i = if decide (i = 0) then Some x else zget l (i - 1).
Proof.
  unfold zget. destruct (decide (i = 0)) as [->|Hi]; [done|]. destruct (decide (0 ≤ i)).
  - rewrite decide_True by lia. replace (Z.to_nat i) with (S (Z.to_nat (i - 1))) by lia. done.
  - by rewrite decide_False by lia.
Qed.
Lemma section_index_from_spec secs n t :
  (section_index_from secs n t = SECT_NONE ∧ Forall (λ c, allocates c t = false) secs) ∨
  (∃ i c, section_index_from secs n t = n + i ∧ zget secs i = Some c ∧ allocates c t = true).
Proof.
  revert n. induction secs as [|c secs IH]; intros n; [by left|]. cbn [section_index_from]. destruct (allocates c t) eqn:Ha.
  - right. exists 0, c. rewrite Z.add_0_r. done.
  - destruct (IH (n + 1)) as [[-> H]|(i & c' & -> & Hz & Hc)]; [left; by split; [|constructor]|]. right. exists (i + 1), c'.
    rewrite zget_cons. pose proof (zget_Some _ _ _ Hz). rewrite decide_False by lia. replace (i + 1 - 1) with i by lia. split_and!; [lia|done..].
Qed.
Lemma section_index_found secs s c t : secs_ok secs → zget secs s = Some c → allocates c t = true → section_index_of secs t = s.
Proof.
  intros (_ & Hu & _) Hz Ha. unfold section_index_of. destruct (section_index_from_spec secs 0 t) as [[_ Hn]|(i & c' & -> & Hz' & Ha')].
  - apply zget_elem in Hz. rewrite Forall_forall in Hn. by rewrite Hn in Ha.
  - rewrite Z.add_0_l. by eapply Hu.
Qed.
Lemma section_index_none secs t : Forall (λ c, allocates c t = false) secs → section_index_of secs t = SECT_NONE.
Proof.
  intros Hn. unfold section_index_of. destruct (section_index_from_spec secs 0 t) as [[-> _]|(i & c' & _ & Hz' & Ha')]; [done|].
  apply zget_elem in Hz'. rewrite Forall_forall in Hn. by rewrite Hn in Ha'.
Qed.

Lemma new_addr_for_spec l secs t s cs n dest :
  chain_ok l → secs ∈ l → zget secs s = Some cs → allocates cs t = true → zget dest s = Some n →
  new_addr_for t l dest = Some (cs_start n + (t - cs_start cs)).
Proof.
  intros Hl Hin Hz Ha Hd. pose proof (zget_Some _ _ _ Hz) as Hs. induction l as [|secs' l IH]; [by apply elem_of_nil in Hin|]. cbn [new_addr_for].
  destruct Hl as (Hok & Hsep & Hl'). apply elem_of_cons in Hin as [->|Hin].
  - rewrite (section_index_found secs' s cs t) by done. rewrite (proj2 (Z.eqb_neq s SECT_NONE)) by (unfold SECT_NONE; lia). by rewrite Hz, Hd.
  - rewrite section_index_none; [by apply IH|]. apply Forall_forall. intros c Hc. destruct (allocates c t) eqn:Hca; [|done].
    rewrite (Hsep c cs t) in Ha; [done|done| |by apply allocates_2]. apply list_elem_of_In, in_concat. exists secs. split; apply list_elem_of_In; [done|]. by apply zget_elem in Hz.
Qed.
Lemma normalize_denotes cb t s off n dest :
  chain_ok (chain cb) → denotes cb t s off → zget (cb_sections cb) s = Some n → dest ∈ cb_sections cb →
  normalize_address cb t dest = Some (cs_start n + off).
Proof.
  intros Hok (secs & cs & Hin & Hz & Ha & ->) Hn Hd. unfold normalize_address.
  assert (0 < t) as Ht.
  { assert (∃ l, chain_ok l ∧ secs ∈ l) as (l & Hl & Hl') by eauto. clear -Hl Hl' Hz Ha. induction l as [|x l IH]; [by apply elem_of_nil in Hl'|].
    destruct Hl as ((_ & _ & Hp) & _ & Hl). apply elem_of_cons in Hl' as [->|Hl']; [|by apply IH]. apply (Hp cs); [by apply zget_elem in Hz|done]. }
  rewrite (proj2 (Z.eqb_neq t 0)) by lia. cbn [orb]. destruct (allocates2 dest t) eqn:Hd2; [|by eapply new_addr_for_spec].
  f_equal. destruct Hok as (_ & Hsep & _). apply elem_of_cons in Hin as [->|Hin]; [simplify_eq; lia|].
  rewrite (Hsep dest cs t) in Ha; [done|done| |done]. apply list_elem_of_In, in_concat. exists secs. split; apply list_elem_of_In; [done|]. by apply zget_elem in Hz.
Qed.

(** ** Relocations by place *)

Inductive located :=
| L_oop (oop_index offset : Z)
| L_metadata (metadata_index offset : Z)
| L_virtual_call (off : Z)
| L_opt_virtual_call
| L_static_call
| L_static_stub (off : Z)
| L_runtime_call
| L_trampoline_stub (off : Z)
| L_external (target : Z)
| L_internal_null
| L_internal (off : Z)
| L_section (off s : Z)
| L_poll
| L_poll_return.

(** The relocation that [l], recorded in section [n], is once the sections
    start at [starts]. *)
Definition bound (starts : list Z) (n : Z) (l : located) : Relocation :=
  let base s := default 0 (zget starts s) in
  match l with
  | L_oop i o => oop_Relocation i o
  | L_metadata i o => metadata_Relocation i o
  | L_virtual_call off => virtual_call_Relocation (base n + off)
  | L_opt_virtual_call => opt_virtual_call_Relocation
  | L_static_call => static_call_Relocation
  | L_static_stub off => static_stub_Relocation (base SECT_INSTS + off)
  | L_runtime_call => runtime_call_Relocation
  | L_trampoline_stub off => trampoline_stub_Relocation (base SECT_INSTS + off)
  | L_external target => external_word_Relocation target
  | L_internal_null => internal_word_Relocation 0
  | L_internal off => internal_word_Relocation (base n + off)
  | L_section off s => section_word_Relocation (base s + off) s
  | L_poll => poll_Relocation
  | L_poll_return => poll_return_Relocation
  end.

Section located.
Context (vm_page_size : Z) (stubs : list StubCodeDesc).

(** What [r], recorded at offset [at_off] of section [n], refers to. *)
Inductive locates (cb : CodeBuffer) (n at_off : Z) : Relocation → located → Prop :=
| loc_oop i o : is_jint i → is_jint o → locates cb n at_off (oop_Relocation i o) (L_oop i o)
| loc_metadata i o : is_jint i → is_jint o → locates cb n at_off (metadata_Relocation i o) (L_metadata i o)
| loc_virtual_call c off : denotes cb c n off → off ≠ at_off → locates cb n at_off (virtual_call_Relocation c) (L_virtual_call off)
| loc_opt_virtual_call : locates cb n at_off opt_virtual_call_Relocation L_opt_virtual_call
| loc_static_call : locates cb n at_off static_call_Relocation L_static_call
| loc_static_stub c off : denotes cb c SECT_INSTS off → locates cb n at_off (static_stub_Relocation c) (L_static_stub off)
| loc_runtime_call : locates cb n at_off runtime_call_Relocation L_runtime_call
| loc_trampoline_stub c off : denotes cb c SECT_INSTS off → locates cb n at_off (trampoline_stub_Relocation c) (L_trampoline_stub off)
| loc_external t : in_u 64 t → is_reloc_index vm_page_size (s64 t) = false → locates cb n at_off (external_word_Relocation t) (L_external t)
| loc_internal_null : locates cb n at_off (internal_word_Relocation 0) L_internal_null
| loc_internal t off : denotes cb t n off → off ≠ at_off → locates cb n at_off (internal_word_Relocation t) (L_internal off)
| loc_internal_self t : denotes cb t n at_off → locates cb n at_off (internal_word_Relocation t) (L_section at_off n)
| loc_internal_other t s off : denotes cb t s off → s ≠ n → locates cb n at_off (internal_word_Relocation t) (L_section off s)
| loc_section t s off : denotes cb t s off → locates cb n at_off (section_word_Relocation t s) (L_section off s)
| loc_poll : locates cb n at_off poll_Relocation L_poll
| loc_poll_return : locates cb n at_off poll_return_Relocation L_poll_return.

(** Its type and halfwords. *)
Definition located_code (at_off : Z) (l : located) : Z * list Z :=
  match l with
  | L_oop i o => (oop_type, pack_2_ints i o)
  | L_metadata i o => (metadata_type, pack_2_ints i o)
  | L_virtual_call off => (virtual_call_type, pack_1_int (at_off - off))
  | L_opt_virtual_call => (opt_virtual_call_type, [])
  | L_static_call => (static_call_type, [])
  | L_static_stub off => (static_stub_type, pack_1_int (- off))
  | L_runtime_call => (runtime_call_type, [])
  | L_trampoline_stub off => (trampoline_stub_type, pack_1_int (- off))
  | L_external target =>
      let index := runtime_address_to_index stubs target in
      (external_word_type, if is_reloc_index vm_page_size index then pack_2_ints index 0 else pack_2_ints (low (s64 target)) (high (s64 target)))
  | L_internal_null => (internal_word_type, [])
  | L_internal off => (internal_word_type, pack_1_int (at_off - off))
  | L_section off s => (section_word_type, pack_1_int (- off * 4 + s))
  | L_poll => (poll_type, [])
  | L_poll_return => (poll_return_type, [])
  end.

Definition small (cs : CodeSection) : Prop := cs_limit cs - cs_start cs < 2 ^ 28.
Lemma scaled_offset_spec x base : - 2 ^ 30 < x - base < 2 ^ 30 → scaled_offset x base = base - x.
Proof.
  intros H. unfold scaled_offset, addr_unit, offset_unit. rewrite Z.quot_1_r. rewrite (wrapS_id 32 (x - base)) by (unfold in_s; lia).
  rewrite wrapS_id by (unfold in_s; lia). lia.
Qed.
Lemma section_packed off s : 0 ≤ s < 4 → 0 ≤ off < 2 ^ 28 →
  Z.lor (s32 (Z.shiftl (- off) section_width)) s = - off * 4 + s.
Proof.
  intros Hs Ho. unfold section_width. rewrite wrapS_id; [|done|rewrite Z.shiftl_mul_pow2 by lia; unfold in_s; lia].
  rewrite Z.lor_comm, (lor_shiftl_add 2) by (unfold in_u; lia). lia.
Qed.

Context (cb : CodeBuffer) (Hok : chain_ok (chain cb)) (Hsmall : Forall (Forall small) (chain cb)).

Lemma denotes_range t s off : denotes cb t s off → 0 ≤ s < 3 ∧ 0 ≤ off < 2 ^ 28 ∧ ∃ cs, zget (cb_sections cb) s = Some cs.
Proof using Hok Hsmall.
  intros (secs & cs & Hin & Hz & Ha & ->). apply allocates_spec in Ha. rewrite Forall_forall in Hsmall. specialize (Hsmall secs Hin).
  rewrite Forall_forall in Hsmall. pose proof (Hsmall cs (zget_elem _ _ _ Hz)) as Hc. unfold small in Hc.
  assert (zlen secs = 3) as Hl.
  { assert (∃ l, chain_ok l ∧ secs ∈ l) as (l & Hl & Hl') by eauto. clear -Hl Hl'. induction l as [|x l IH]; [by apply elem_of_nil in Hl'|].
    destruct Hl as ((Hx & _) & _ & Hl). apply elem_of_cons in Hl' as [->|Hl']; [|by apply IH]. unfold zlen. lia. }
  pose proof (zget_Some _ _ _ Hz) as Hs. rewrite Hl in Hs. split_and!; try lia. apply zget_is_Some.
  destruct Hok as ((H3 & _) & _). unfold zlen. rewrite H3. lia.
Qed.

Context (Hgrow : ∀ secs s old cur, secs ∈ chain cb → zget secs s = Some old → zget (cb_sections cb) s = Some cur →
  cs_limit old - cs_start old ≤ cs_limit cur - cs_start cur).

Lemma normalize_place t s off n cs dest :
  denotes cb t s off → zget (cb_sections cb) n = Some cs → cs_start dest = cs_start cs → cs_limit dest = cs_limit cs →
  ∃ cur, zget (cb_sections cb) s = Some cur ∧ normalize_address cb t dest = Some (cs_start cur + off) ∧
    allocates cur (cs_start cur + off) = true ∧ 0 < cs_start cur + off.
Proof using Hok Hsmall Hgrow.
  intros Hd Hn Hst Hli. destruct (denotes_range _ _ _ Hd) as (Hs & Ho & cur & Hcur). exists cur.
  assert (normalize_address cb t dest = normalize_address cb t cs) as -> by (unfold normalize_address, allocates2; by rewrite Hst, Hli).
  rewrite (normalize_denotes cb t s off cur) by (done || by apply zget_elem in Hn).
  assert (allocates cur (cs_start cur + off) = true) as Ha.
  { destruct Hd as (secs & o & Hin & Hz & Ha & ->). pose proof (Hgrow secs s o cur Hin Hz Hcur). apply allocates_spec in Ha. apply allocates_spec. lia. }
  split_and!; try done. destruct Hok as ((_ & _ & Hp) & _). apply (Hp cur); [by apply zget_elem in Hcur|done].
Qed.

(** An internal word whose target is in section [s]. *)
Lemma pack_section_word n cs dest t s off section suffix :
  denotes cb t s off → zget (cb_sections cb) n = Some cs → cs_start dest = cs_start cs → cs_limit dest = cs_limit cs →
  section = s ∨ (section = SECT_NONE ∧ (s ≠ n ∨ off = cs_locs_point dest - cs_start dest)) →
  pack_internal_word cb dest t section suffix =
  Some (if section =? SECT_NONE then set_type suffix section_word_type else suffix, pack_1_int (- off * 4 + s)).
Proof using Hok Hsmall Hgrow.
  intros Hd Hn Hst Hli Hsec. destruct (denotes_range _ _ _ Hd) as (Hs & Ho & _).
  destruct (normalize_place _ _ _ n cs dest Hd Hn Hst Hli) as (cur & Hcur & Hno & Ha & Hpos).
  unfold pack_internal_word. rewrite Hno. cbn [mbind option_bind]. rewrite (proj2 (Z.eqb_neq (cs_start cur + off) 0)) by lia. cbn [negb].
  assert (section_index_of (cb_sections cb) (cs_start cur + off) = s) as Hidx by (apply section_index_found with cur; [apply Hok|done..]).
  assert ((if (section =? SECT_NONE) && true && (negb (allocates dest (cs_start cur + off)) || (cs_start cur + off =? cs_locs_point dest))
    then if section_index_of (cb_sections cb) (cs_start cur + off) =? SECT_NONE then None
         else Some (section_index_of (cb_sections cb) (cs_start cur + off), set_type suffix section_word_type)
    else Some (section, suffix)) = Some (s, if section =? SECT_NONE then set_type suffix section_word_type else suffix)) as ->.
  { destruct Hsec as [->|[-> Hsec]]; [by rewrite (proj2 (Z.eqb_neq s SECT_NONE)) by (unfold SECT_NONE; lia)|]. cbn [andb Z.eqb].
    change (SECT_NONE =? SECT_NONE) with true. cbn [andb]. rewrite Hidx. rewrite (proj2 (Z.eqb_neq s SECT_NONE)) by (unfold SECT_NONE; lia).
    destruct (allocates dest (cs_start cur + off)) eqn:Had; [|done]. cbn [negb orb]. destruct Hsec as [Hsn|Hself].
    - destruct Hok as ((_ & Hu & _) & _). destruct Hsn. eapply (Hu s n cur cs); [done..|]. apply allocates_spec. apply allocates_spec in Had. lia.
    - destruct (decide (s = n)) as [->|Hsn]; [simplify_eq; by rewrite (proj2 (Z.eqb_eq _ _)) by lia|].
      destruct Hok as ((_ & Hu & _) & _). destruct Hsn. eapply (Hu s n cur cs); [done..|]. apply allocates_spec. apply allocates_spec in Had. lia. }
  cbn [mbind option_bind]. rewrite (proj2 (Z.eqb_neq s SECT_NONE)) by (unfold SECT_NONE; lia). rewrite Hcur. cbn [mbind option_bind].
  rewrite (allocates_2 _ _ Ha). rewrite scaled_offset_spec by lia. replace (cs_start cur - (cs_start cur + off)) with (- off) by lia. by rewrite section_packed by lia.
Qed.

(** Packing writes the code of the place. *)
Lemma pack_located n cs dest r l off f :
  zget (cb_sections cb) n = Some cs → cs_start dest = cs_start cs → cs_limit dest = cs_limit cs →
  cs_start cs ≤ cs_locs_point dest ≤ cs_limit cs → 0 ≤ off < offset_limit → 0 ≤ f ≤ format_mask →
  locates cb n (cs_locs_point dest - cs_start dest) r l →
  ∃ t data, located_code (cs_locs_point dest - cs_start dest) l = (t, data) ∧
    pack_data_to vm_page_size stubs cb dest r (relocInfo (reloc_type r) off f) = Some (relocInfo t off f, data).
Proof using Hok Hsmall Hgrow.
  intros Hn Hst Hli Hpt Ho Hf Hloc. assert (cs_limit cs - cs_start cs < 2 ^ 28) as Hsm.
  { rewrite Forall_forall in Hsmall. specialize (Hsmall (cb_sections cb) ltac:(left)). rewrite Forall_forall in Hsmall. by apply (Hsmall cs), zget_elem with n. }
  set (ao := cs_locs_point dest - cs_start dest) in *.
  assert (∀ t s o sec, denotes cb t s o → sec = s ∨ (sec = SECT_NONE ∧ (s ≠ n ∨ o = ao)) → ∀ suffix, _) as Hsw
    by (intros t s o sec Hd Hs suffix; exact (pack_section_word n cs dest t s o sec suffix Hd Hn Hst Hli Hs)).
  destruct Hloc as [i o Hi Ho'|i o Hi Ho'|c o Hd Hne| | |c o Hd| |c o Hd|t Ht Hr| |t o Hd Hne|t Hd|t s o Hd Hs|t s o Hd| |];
    cbn [located_code pack_data_to reloc_type]; try (do 2 eexists; by split).
  - destruct (normalize_place _ _ _ n cs dest Hd Hn Hst Hli) as (cur & Hcur & -> & Ha & Hpos). simplify_eq. cbn [mbind option_bind].
    apply allocates_spec in Ha. unfold scaled_offset_null_special. rewrite (proj2 (Z.eqb_neq _ 0)) by lia. rewrite scaled_offset_spec by lia.
    do 2 eexists. split; [done|]. do 3 f_equal. unfold ao. lia.
  - destruct (denotes_range _ _ _ Hd) as (_ & Hr & insts & Hi). rewrite Hi. cbn [mbind option_bind].
    destruct (normalize_place _ _ _ SECT_INSTS insts insts Hd Hi eq_refl eq_refl) as (cur & Hcur & -> & Ha & Hpos). simplify_eq. cbn [mbind option_bind].
    rewrite scaled_offset_spec by lia. do 2 eexists. split; [done|]. do 3 f_equal. lia.
  - destruct (denotes_range _ _ _ Hd) as (_ & Hr & insts & Hi). rewrite Hi. cbn [mbind option_bind].
    destruct (normalize_place _ _ _ SECT_INSTS insts insts Hd Hi eq_refl eq_refl) as (cur & Hcur & -> & Ha & Hpos). simplify_eq. cbn [mbind option_bind].
    rewrite scaled_offset_spec by lia. do 2 eexists. split; [done|]. do 3 f_equal. lia.
  - cbv zeta. destruct (is_reloc_index vm_page_size (runtime_address_to_index stubs t)); do 2 eexists; (split; [reflexivity|reflexivity]).
  - destruct (normalize_place _ _ _ n cs dest Hd Hn Hst Hli) as (cur & Hcur & Hno & Ha & Hpos). simplify_eq. unfold pack_internal_word. rewrite Hno. cbn [mbind option_bind].
    assert (allocates dest (cs_start cs + o) = true) as Had by (unfold allocates in *; by rewrite Hst, Hli).
    rewrite Had, (allocates_2 _ _ Had). rewrite (proj2 (Z.eqb_neq _ 0)), (proj2 (Z.eqb_neq _ (cs_locs_point dest))) by (unfold ao in *; lia). cbn.
    unfold scaled_offset_null_special. apply allocates_spec in Ha. rewrite (proj2 (Z.eqb_neq _ 0)) by lia. rewrite scaled_offset_spec by lia.
    do 2 eexists. split; [done|]. do 3 f_equal. unfold ao. lia.
  - rewrite (Hsw t n ao SECT_NONE Hd) by auto. cbn. rewrite set_type_relocInfo by done. do 2 eexists. by split.
  - rewrite (Hsw t s o SECT_NONE Hd) by auto. cbn. rewrite set_type_relocInfo by done. do 2 eexists. by split.
  - rewrite (Hsw t s o s Hd) by auto. destruct (denotes_range _ _ _ Hd) as (Hs & _). rewrite (proj2 (Z.eqb_neq s SECT_NONE)) by (unfold SECT_NONE; lia). do 2 eexists. by split.
Qed.
End located.

Section unpack.
Context (vm_page_size : Z) (stubs : list StubCodeDesc).

Definition stubs_ok : Prop :=
  NoDup (sd_index <$> stubs) ∧ Forall (λ p, 0 < sd_index p < vm_page_size) stubs ∧ vm_page_size ≤ 2 ^ 31.
Definition place_ok (at_off : Z) (l : located) : Prop :=
  match l with
  | L_oop i o | L_metadata i o => is_jint i ∧ is_jint o
  | L_virtual_call off | L_internal off => 0 ≤ off < 2 ^ 28 ∧ off ≠ at_off
  | L_static_stub off | L_trampoline_stub off => 0 ≤ off < 2 ^ 28
  | L_section off s => 0 ≤ off < 2 ^ 28 ∧ 0 ≤ s < 3
  | L_external t => in_u 64 t ∧ is_reloc_index vm_page_size (s64 t) = false
  | _ => True
  end.
Lemma locates_ok cb n at_off r l :
  chain_ok (chain cb) → Forall (Forall small) (chain cb) → locates vm_page_size cb n at_off r l → place_ok at_off l.
Proof.
  intros Hok Hsm Hl. pose proof (denotes_range cb Hok Hsm) as Hd. destruct Hl; cbn [place_ok]; try done; try (by split).
  all: match goal with H : denotes _ _ _ _ |- _ => destruct (Hd _ _ _ H) as (? & ? & _) end; try done; by split.
Qed.
Lemma located_code_ok at_off l t data : located_code vm_page_size stubs at_off l = (t, data) →
  0 < t < data_prefix_tag ∧ Forall is_jshort data ∧ zlen data ≤ 4.
Proof.
  intros H. destruct l; cbn [located_code] in H; injection H as <- <-; (split; [done|]).
  all: try (by split; [constructor|]).
  all: try (apply pack_2_ints_shorts). all: try (destruct (pack_1_int_shorts (at_off - off)); split; [done|lia]).
  all: try (destruct (pack_1_int_shorts (- off)); split; [done|lia]).
  - destruct (is_reloc_index _ _); apply pack_2_ints_shorts.
  - destruct (pack_1_int_shorts (- off * 4 + s)); split; [done|lia].
Qed.

Lemma address_from_scaled_offset_spec x base : - 2 ^ 30 < x < 2 ^ 30 → in_u 64 (base - x) → address_from_scaled_offset x base = base - x.
Proof.
  intros Hx Hb. unfold address_from_scaled_offset, addr_unit, offset_unit. rewrite Z.mul_1_r.
  rewrite (wrapS_id 32 x) by (unfold in_s; lia). rewrite (wrapS_id 32 (- x)) by (unfold in_s; lia). rewrite Z.add_opp_r. by apply wrapU_id.
Qed.
Lemma desc_for_elem l pc p : desc_for l pc = Some p → p ∈ l.
Proof. induction l as [|q l IH]; [done|]. cbn. destruct (negb _); [intros ?; right; by apply IH|intros [= ->]; left]. Qed.
Lemma desc_for_index_unique l p : NoDup (sd_index <$> l) → p ∈ l → desc_for_index l (sd_index p) = Some p.
Proof.
  induction l as [|q l IH]; [by intros _ ?%elem_of_nil|]. cbn [fmap list_fmap desc_for_index]. intros [Hq Hnd]%NoDup_cons Hp.
  apply elem_of_cons in Hp as [->|Hp]; [by rewrite Z.eqb_refl|]. rewrite (proj2 (Z.eqb_neq _ _)); [by apply IH|].
  intros He. apply Hq. rewrite He. by apply list_elem_of_fmap_2.
Qed.
(** An external target survives, whether it is a registered stub or not. *)
Lemma unpack_external t : stubs_ok → in_u 64 t → is_reloc_index vm_page_size (s64 t) = false →
  let data := (located_code vm_page_size stubs 0 (L_external t)).2 in
  ('(lo, hi) ← unpack_2_ints data (zlen data);
   let t := jlong_from hi lo in
   if is_reloc_index vm_page_size t then external_word_Relocation <$> index_to_runtime_address vm_page_size stubs (s32 t)
   else Some (external_word_Relocation (u64 t))) = Some (external_word_Relocation t).
Proof.
  intros (Hnd & Hr & Hp) Ht Hri. cbn [located_code snd]. destruct (is_reloc_index vm_page_size (runtime_address_to_index stubs t)) eqn:Hi.
  - unfold runtime_address_to_index in Hi |- *. destruct (Z.eqb_spec t 0) as [->|_]; [done|]. destruct (desc_for stubs t) as [p|] eqn:Hdf; [|done].
    destruct (Z.eqb_spec (sd_begin p) t) as [Hbt|_]; [|done]. apply desc_for_elem in Hdf. rewrite Forall_forall in Hr. pose proof (Hr p Hdf) as Hix.
    rewrite (wrapS_id 32 (sd_index p)) in * by (unfold in_s; lia). rewrite unpack_pack_2_ints by (unfold in_s; lia). cbn [mbind option_bind].
    assert (jlong_from 0 (sd_index p) = sd_index p) as ->.
    { rewrite <- (jlong_from_high_low (sd_index p)) at 2 by (unfold in_s; lia). unfold high, low. rewrite (wrapS_id 32 (sd_index p)) by (unfold in_s; lia).
      rewrite Z.shiftr_div_pow2 by lia. by rewrite Z.div_small by lia. }
    rewrite Hi, (wrapS_id 32 (sd_index p)) by (unfold in_s; lia). unfold index_to_runtime_address. rewrite (proj2 (Z.eqb_neq _ _)) by lia.
    rewrite Hi, desc_for_index_unique by done. cbn. by rewrite Hbt.
  - rewrite unpack_pack_2_ints by (apply low_range || apply high_range). cbn [mbind option_bind]. rewrite jlong_from_high_low by (by apply wrapS_range).
    rewrite Hri. by rewrite wrapU_wrapS, wrapU_id.
Qed.

Lemma unpack_located starts n at_off l t data :
  stubs_ok → place_ok at_off l → 0 ≤ at_off < 2 ^ 28 → zlen starts = 3 → 0 ≤ n < 3 → Forall (λ b, 0 ≤ b ∧ b + 2 ^ 28 < 2 ^ 64) starts →
  located_code vm_page_size stubs at_off l = (t, data) →
  unpack_data vm_page_size stubs starts t data (default 0 (zget starts n) + at_off) = Some (bound starts n l).
Proof.
  intros Hst Hpl Hat Hlen Hn Hs Hc.
  assert (∀ s, 0 ≤ s < 3 → ∃ b, zget starts s = Some b ∧ 0 ≤ b ∧ b + 2 ^ 28 < 2 ^ 64) as Hb.
  { intros s Hsr. destruct (zget_is_Some starts s) as [b Hz]; [lia|]. exists b. rewrite Forall_forall in Hs. split; [done|]. by apply Hs, zget_elem with s. }
  destruct (Hb n Hn) as (b & Hzb & Hb0 & Hb1). destruct (Hb SECT_INSTS) as (bi & Hzi & Hi0 & Hi1); [unfold SECT_INSTS; lia|].
  destruct l; cbn [located_code] in Hc; injection Hc as <- <-; cbn [place_ok] in Hpl; unfold bound; try done.
  - unfold unpack_data. cbn [Z.eqb]. change (oop_type =? oop_type) with true. cbv iota zeta. destruct Hpl. by rewrite unpack_pack_2_ints.
  - transitivity ('(i, o) ← unpack_2_ints (pack_2_ints metadata_index offset) (zlen (pack_2_ints metadata_index offset)); Some (metadata_Relocation i o)); [done|]. destruct Hpl. by rewrite unpack_pack_2_ints.
  - transitivity (x0 ← unpack_1_int (pack_1_int (at_off - off)) (zlen (pack_1_int (at_off - off)));
      Some (virtual_call_Relocation (if x0 =? 0 then 0 else address_from_scaled_offset x0 (default 0 (zget starts n) + at_off)))); [done|].
    rewrite unpack_pack_1_int by (unfold in_s; lia). cbn [mbind option_bind]. rewrite (proj2 (Z.eqb_neq _ 0)) by lia. rewrite Hzb. cbn [default].
    unfold default, id. rewrite address_from_scaled_offset_spec by (unfold in_u; lia). do 2 f_equal. lia.
  - transitivity (base ← zget starts SECT_INSTS; x0 ← unpack_1_int (pack_1_int (- off)) (zlen (pack_1_int (- off))); Some (static_stub_Relocation (address_from_scaled_offset x0 base))); [done|].
    rewrite Hzi. cbn [mbind option_bind]. rewrite unpack_pack_1_int by (unfold in_s; lia). cbn [mbind option_bind]. unfold default, id.
    rewrite address_from_scaled_offset_spec by (unfold in_u; lia). do 2 f_equal. lia.
  - transitivity (base ← zget starts SECT_INSTS; x0 ← unpack_1_int (pack_1_int (- off)) (zlen (pack_1_int (- off))); Some (trampoline_stub_Relocation (address_from_scaled_offset x0 base))); [done|].
    rewrite Hzi. cbn [mbind option_bind]. rewrite unpack_pack_1_int by (unfold in_s; lia). cbn [mbind option_bind]. unfold default, id.
    rewrite address_from_scaled_offset_spec by (unfold in_u; lia). do 2 f_equal. lia.
  - destruct Hpl. exact (unpack_external target Hst ltac:(done) ltac:(done)).
  - transitivity (x0 ← unpack_1_int (pack_1_int (at_off - off)) (zlen (pack_1_int (at_off - off)));
      Some (internal_word_Relocation (if x0 =? 0 then 0 else address_from_scaled_offset x0 (default 0 (zget starts n) + at_off)))); [done|].
    rewrite unpack_pack_1_int by (unfold in_s; lia). cbn [mbind option_bind]. rewrite (proj2 (Z.eqb_neq _ 0)) by lia. rewrite Hzb.
    unfold default, id. rewrite address_from_scaled_offset_spec by (unfold in_u; lia). do 2 f_equal. lia.
  - destruct (Hb s) as (bs & Hzs & Hs0 & Hs1); [lia|].
    transitivity (x ← unpack_1_int (pack_1_int (- off * 4 + s)) (zlen (pack_1_int (- off * 4 + s)));
      base ← zget starts (Z.land x (Z.ones 2)); Some (section_word_Relocation (address_from_scaled_offset (Z.shiftr x 2) base) (Z.land x (Z.ones 2)))); [done|].
    rewrite unpack_pack_1_int by (unfold in_s; lia). cbn [mbind option_bind]. rewrite Z.land_ones, Z.shiftr_div_pow2 by lia.
    assert ((- off * 4 + s) mod 2 ^ 2 = s) as -> by (Z.div_mod_to_equations; lia).
    assert ((- off * 4 + s) / 2 ^ 2 = - off) as -> by (Z.div_mod_to_equations; lia). rewrite Hzs. cbn [mbind option_bind]. unfold default, id.
    rewrite address_from_scaled_offset_spec by (unfold in_u; lia). do 2 f_equal. lia.
Qed.
End unpack.

(** ** The records of a section *)

Record item := mkItem { i_off : Z; i_loc : located; i_format : Z }.
Definition real (r : record) : Prop := r_type r ≠ none.
#[export] Instance real_dec r : Decision (real r).
Proof. unfold real. apply _. Defined.

Section sections.
Context (vm_page_size : Z) (stubs : list StubCodeDesc).
Implicit Types (cs : CodeSection) (h : list item).

Definition item_record (i : item) : record :=
  let '(t, data) := located_code vm_page_size stubs (i_off i) (i_loc i) in mkRecord t (i_off i) (i_format i) data.
Definition holds (es : list entry) cs h : Prop :=
  cs_locs_end cs = zlen (stream es) ∧ Forall entry_ok es ∧ end_addr 0 es = cs_locs_point cs - cs_start cs ∧
  filter real (place 0 es) = item_record <$> h.
Definition described cs h : Prop :=
  (cs_locs cs = None ∧ h = [] ∧ cs_locs_end cs = 0 ∧ cs_locs_point cs = cs_start cs) ∨
  (∃ es junk, cs_locs cs = Some (stream es ++ junk) ∧ holds es cs h).
Definition item_ok (i : item) : Prop := place_ok vm_page_size (i_off i) (i_loc i) ∧ 0 ≤ i_off i < 2 ^ 28 ∧ 0 ≤ i_format i ≤ format_mask.
Definition section_ok cs h : Prop :=
  described cs h ∧ cs_start cs ≤ cs_locs_point cs ≤ cs_end cs ∧ cs_end cs ≤ cs_limit cs ∧ small cs ∧ Forall item_ok h.

Lemma end_addr_app a es1 es2 : end_addr a (es1 ++ es2) = end_addr (end_addr a es1) es2.
Proof. unfold end_addr. apply foldl_app. Qed.
Lemma end_addr_fillers a k : end_addr a (replicate k filler_entry) = a + 1023 * Z.of_nat k.
Proof. revert a. induction k as [|k IH]; intros a; cbn [replicate]; [cbn; lia|]. cbn [end_addr foldl]. change (foldl _ ?x ?l) with (end_addr x l). rewrite IH. cbn [e_off filler_entry]. change (offset_limit - offset_unit) with 1023. lia. Qed.
Lemma place_fillers a k : filter real (place a (replicate k filler_entry)) = [].
Proof. revert a. induction k as [|k IH]; intros a; [done|]. cbn [replicate place]. rewrite filter_cons_False; [apply IH|]. unfold real. cbn. intros H. by apply H. Qed.

(** The words [relocate] adds stay inside the storage. *)
Definition max_gap : Z := 2 ^ 22.
Lemma locs_room fin offset cap k :
  0 ≤ offset < max_gap → fin ≤ cap →
  (k = 0 ∨ 1023 * (k - 1) + 1024 ≤ offset) →
  let req := fin + length_limit in
  let cap' := if (cap <=? req) || (offset_limit <=? offset) then
      let req := req + u32 offset / u32 offset_limit in
      if cap <=? req then Z.max (fin + (req - fin)) (cap * 2) else cap
    else cap in
  offset ≤ 1023 * (cap' - fin) ∧ k + 6 ≤ cap' - fin.
Proof.
  intros Ho Hf Hk req cap'. unfold max_gap in Ho. change length_limit with 15 in *. change offset_limit with 1024 in *.
  assert (u32 offset / u32 1024 = offset / 1024) as Hu by (rewrite !wrapU_id by (unfold in_u; lia); done).
  assert (15 + offset / 1024 ≤ cap' - fin ∨ (offset < 1024 ∧ 15 < cap' - fin)) as Hc.
  { unfold cap', req. rewrite Hu. destruct (Z.leb_spec cap (fin + 15)); cbn [orb].
    - left. destruct (Z.leb_spec cap (fin + 15 + offset / 1024)); lia.
    - destruct (Z.leb_spec 1024 offset); [left|right; lia]. destruct (Z.leb_spec cap (fin + 15 + offset / 1024)); lia. }
  clearbody cap'. clear Hu req. Z.div_mod_to_equations. lia.
Qed.

Lemma expand_locs_storage cs locs n :
  cs_locs cs = Some locs →
  ∃ junk, expand_locs cs n = set_locs cs (locs ++ junk) (cs_locs_end cs) ∧ zlen (locs ++ junk) = Z.max (zlen locs * 2) n.
Proof.
  intros Hl. unfold expand_locs. rewrite Hl. eexists. split; [done|]. rewrite zlen_app. unfold zlen at 2. rewrite length_replicate.
  destruct (Z.ltb_spec n (zlen locs * 2)); unfold zlen in *; lia.
Qed.

Lemma initialize_length suffix data : zlen data ≤ 4 → 1 ≤ zlen (initialize suffix data) ≤ 6.
Proof.
  intros Hd. unfold initialize, zlen in *. rewrite length_app. cbn [length].
  destruct data as [|d [|d' data]]; cbn [finish_prefix length] in *; [lia|destruct (fits_into_immediate d); cbn [length]; lia|].
  rewrite length_fmap. cbn [length]. lia.
Qed.
(** The storage after the overflow test. *)
Lemma grown_storage cs es junk offset :
  cs_locs cs = Some (stream es ++ junk) → cs_locs_end cs = zlen (stream es) → 0 ≤ offset < max_gap →
  let req := cs_locs_end cs + length_limit in
  let cap := zlen (stream es ++ junk) in
  ∃ junk', (if (cap <=? req) || (offset_limit <=? offset) then
      let req := req + u32 offset / u32 offset_limit in
      if cap <=? req then expand_locs cs (cs_locs_end cs + (req - cs_locs_end cs)) else cs
    else cs) = set_locs cs (stream es ++ junk') (cs_locs_end cs) ∧
    ∀ k, k = 0 ∨ 1023 * (k - 1) + 1024 ≤ offset → offset ≤ 1023 * zlen junk' ∧ k + 6 ≤ zlen junk'.
Proof.
  intros Hl He Ho req cap.
  assert (cs_locs_end cs ≤ cap) as Hfc by (unfold cap; rewrite He, zlen_app; unfold zlen; lia).
  pose proof (λ k, locs_room (cs_locs_end cs) offset cap k Ho Hfc) as Hroom.
  fold req in Hroom. assert (cs = set_locs cs (stream es ++ junk) (cs_locs_end cs)) as Hid by (destruct cs; cbn in *; by subst).
  assert (cap - cs_locs_end cs = zlen junk) as Hcap by (unfold cap; rewrite He, zlen_app; lia).
  cbv zeta in *. destruct ((cap <=? req) || (offset_limit <=? offset)) in Hroom |- *; [|exists junk; split; [done|by rewrite <- Hcap]].
  destruct (cap <=? req + u32 offset / u32 offset_limit) in Hroom |- *; [|exists junk; split; [done|by rewrite <- Hcap]].
  destruct (expand_locs_storage cs _ (cs_locs_end cs + (req + u32 offset / u32 offset_limit - cs_locs_end cs)) Hl) as (more & -> & Hlen).
  exists (junk ++ more). rewrite app_assoc. split; [done|]. intros k Hk. specialize (Hroom k Hk).
  replace (zlen (junk ++ more)) with (Z.max (cs_locs_end cs + (req + u32 offset / u32 offset_limit - cs_locs_end cs)) (cap * 2) - cs_locs_end cs); [done|].
  rewrite <- app_assoc, zlen_app in Hlen. fold cap in Hlen. rewrite He in *. lia.
Qed.

Lemma relocate_section_spec cb n cs h at_ r l f :
  chain_ok (chain cb) → Forall (Forall small) (chain cb) →
  (∀ secs s old cur, secs ∈ chain cb → zget secs s = Some old → zget (cb_sections cb) s = Some cur →
    cs_limit old - cs_start old ≤ cs_limit cur - cs_start cur) →
  zget (cb_sections cb) n = Some cs → section_ok cs h → is_Some (cs_locs cs) →
  cs_locs_point cs ≤ at_ ≤ cs_end cs → at_ - cs_locs_point cs < max_gap → 0 ≤ f ≤ format_mask →
  locates vm_page_size cb n (at_ - cs_start cs) r l →
  ∃ cs', relocate_section vm_page_size stubs cb cs at_ r f = Some cs' ∧ section_ok cs' (h ++ [mkItem (at_ - cs_start cs) l f]) ∧
    cs_start cs' = cs_start cs ∧ cs_end cs' = cs_end cs ∧ cs_limit cs' = cs_limit cs ∧ is_Some (cs_locs cs').
Proof.
  intros Hok Hsm Hgrow Hn (Hdesc & Hpt & Hend & Hsmall & Hitems) [locs0 Hlocs] Hat Hgap Hf Hloc.
  destruct Hdesc as [(Hnone & _)|(es & junk & Hl & He & Hes & Hea & Hfil)]; [by rewrite Hlocs in Hnone|].
  unfold relocate_section. rewrite (proj2 (Z.eqb_neq (reloc_type r) none)) by (destruct Hloc; done). rewrite Hl.
  unfold small in Hsmall. unfold max_gap in Hgap.
  rewrite (wrapS_id 32 (at_ - cs_locs_point cs)) by (unfold in_s; lia). set (offset := at_ - cs_locs_point cs) in *.
  destruct (grown_storage (set_locs_point cs at_) es junk offset Hl He) as (junk' & Hst & Hroom); [unfold max_gap; lia|].
  cbv zeta in Hst |- *. rewrite Hst. cbn [cs_locs set_locs mbind option_bind]. clear Hst.
  destruct (Hroom 0 ltac:(by left)) as [Hr0 _].
  cbn [cs_locs_end set_locs_point]. rewrite He.
  destruct (emit_fillers_spec (S (Z.to_nat offset)) es junk' offset) as (k & junk2 & -> & Hoff & Hlen & Hk); [lia..|unfold zlen in *; lia|].
  cbn [mbind option_bind]. set (es1 := es ++ replicate k filler_entry). set (off := offset - 1023 * Z.of_nat k) in *.
  set (dest := set_locs (set_locs_point cs at_) _ _). pose proof (pack_located vm_page_size stubs cb Hok Hsm Hgrow n cs dest r l off f Hn eq_refl eq_refl) as Hp.
  cbn [dest set_locs set_locs_point cs_locs_point cs_start] in Hp. destruct Hp as (t & data & Hcode & Hp); [lia|done..|].
  rewrite Hp. cbn [mbind option_bind]. destruct (located_code_ok _ _ _ _ _ _ Hcode) as (Ht & Hds & Hdl).
  pose proof (initialize_length (relocInfo t off f) data Hdl) as Hil. destruct (Hroom (Z.of_nat k)) as [_ Hrk]; [destruct Hk; [left|right]; lia|].
  rewrite write_words_app by (unfold zlen in *; lia). cbn [mbind option_bind]. eexists. split; [done|].
  set (e := mkEntry t off f data). assert (initialize (relocInfo t off f) data = encode e) as -> by done.
  assert (entry_ok e) as Heok by (unfold entry_ok; change datalen_limit with 2048; cbn; split_and!; done || lia).
  assert (end_addr 0 es1 + off = at_ - cs_start cs) as Haddr by (unfold es1; rewrite end_addr_app, end_addr_fillers, Hea; lia).
  split; [|cbn; split_and!; done || by eexists]. unfold section_ok, small. cbn [cs_start cs_end cs_limit cs_locs_point set_locs dest set_locs_point].
  split_and!; try lia.
  - right. exists (es1 ++ [e]), (drop (length (encode e)) junk2). rewrite stream_snoc, <- app_assoc. split; [done|]. split_and!.
    + rewrite stream_snoc, zlen_app. done.
    + apply Forall_app. split; [apply Forall_app; split; [done|]|by constructor]. apply Forall_replicate, filler_ok.
    + rewrite end_addr_app. cbn. done.
    + rewrite place_app, filter_app, fmap_app. f_equal.
      * unfold es1. rewrite place_app, filter_app, place_fillers, app_nil_r. done.
      * unfold e. cbn [place e_type e_off e_format e_data]. rewrite Haddr. rewrite filter_cons_True by (unfold real; cbn; unfold none; lia). cbn. unfold item_record. cbn. by rewrite Hcode.
  - apply Forall_app. split; [done|]. constructor; [|constructor]. split; [|cbn; lia]. by eapply locates_ok.
Qed.
End sections.

(** ** The final copy *)

Definition shift (a : Z) (r : record) : record := mkRecord (r_type r) (a + r_addr r) (r_format r) (r_data r).
Lemma place_shift a b es : place (a + b) es = shift a <$> place b es.
Proof. revert b. induction es as [|e es IH]; intros b; [done|]. cbn [place fmap list_fmap]. rewrite <- Z.add_assoc, IH. done. Qed.
Lemma filter_real_shift a (l : list record) : filter real (shift a <$> l) = shift a <$> filter real l.
Proof.
  induction l as [|r l IH]; [done|]. cbn [fmap list_fmap]. destruct (decide (real r)).
  - by rewrite !filter_cons_True, fmap_cons, <- IH by done.
  - by rewrite !filter_cons_False, <- IH by done.
Qed.

(** A buffer with [p] written, in the sizing pass or not. *)
Definition written (p : list Z) (room : option (list Z)) : option (list Z) := (λ junk, p ++ junk) <$> room.
Definition has_room (n : nat) (room : option (list Z)) : Prop := ∀ junk, room = Some junk → (n ≤ length junk)%nat.
Lemma has_room_drop n m room : has_room (n + m) room → has_room m (drop n <$> room).
Proof. intros H junk. destruct room as [j|]; [|done]. cbn. intros [= <-]. specialize (H j eq_refl). rewrite length_drop. lia. Qed.
Lemma has_room_le n m room : (m ≤ n)%nat → has_room n room → has_room m room.
Proof. intros Hm H junk Hj. specialize (H junk Hj). lia. Qed.
Lemma drop_room n m room : drop m <$> (drop n <$> room) = drop (n + m) <$> (room : option (list Z)).
Proof. destruct room as [j|]; [|done]. cbn. by rewrite drop_drop. Qed.

Lemma put_written p room off w : off = 2 * zlen p → has_room 1 room →
  put (written p room) off w = Some (written (p ++ [w]) (drop 1 <$> room)).
Proof.
  intros -> Hr. destruct room as [j|]; [|done]. cbn. replace (2 * zlen p / 2) with (zlen p) by (Z.div_mod_to_equations; lia).
  specialize (Hr j eq_refl). destruct j as [|x j]; [cbn in Hr; lia|]. rewrite zset_app_r. cbn. by rewrite <- app_assoc.
Qed.
Lemma put_words_written p room off ws : off = 2 * zlen p → has_room (length ws) room →
  put_words (written p room) off ws = Some (written (p ++ ws) (drop (length ws) <$> room)).
Proof.
  revert p room off. induction ws as [|w ws IH]; intros p room off Ho Hr.
  - cbn. rewrite app_nil_r. by destruct room.
  - cbn [put_words]. rewrite put_written by (done || (eapply has_room_le; [|done]; cbn; lia)). cbn [mbind option_bind].
    rewrite IH; [|rewrite zlen_app; unfold zlen in *; cbn [length]; lia|by apply has_room_drop]. rewrite <- app_assoc, drop_room. done.
Qed.

Lemma zlen_snoc {A} (l : list A) x : zlen (l ++ [x]) = zlen l + 1.
Proof. by rewrite zlen_app. Qed.
(** The fillers between two sections: they carry nothing and end at the target. *)
Lemma fill_gap_spec fuel cp new : cp ≤ new → new - cp < Z.of_nat fuel →
  ∃ es, Forall entry_ok es ∧ end_addr cp es = new ∧ filter real (place cp es) = [] ∧
    ∀ es0 room off, off = 2 * zlen (stream es0) → has_room (length (stream es)) room →
      fill_gap fuel (written (stream es0) room) off cp new =
      Some (written (stream (es0 ++ es)) (drop (length (stream es)) <$> room), 2 * zlen (stream (es0 ++ es))).
Proof.
  revert cp. induction fuel as [|fuel IH]; intros cp Hle Hf; [lia|].
  destruct (decide (cp < new)) as [Hlt|Hge].
  - set (j := Z.min 1023 (new - cp)). destruct (IH (cp + j)) as (es & Hok & Hend & Hfil & Hrun); [lia..|].
    set (e := mkEntry none j 0 []). exists (e :: es). assert (encode e = [relocInfo none j 0]) as Henc by done.
    assert (entry_ok e) as He by (unfold entry_ok; change offset_limit with 1024; cbn; split_and!; done || lia).
    split_and!; [by constructor|done|cbn [place]; rewrite filter_cons_False; [done|intros H; by apply H]|].
    intros es0 room off Hoff Hr. rewrite stream_cons, Henc in Hr |- *. cbn [app length] in Hr |- *. cbn [fill_gap].
    rewrite (proj2 (Z.ltb_lt cp new)) by lia. rewrite filler_offset.
    assert ((if 1023 <=? new - cp then (1023, filler_relocInfo) else (new - cp, relocInfo none (new - cp) 0)) = (j, relocInfo none j 0)) as ->.
    { unfold j. destruct (Z.leb_spec 1023 (new - cp)); [by rewrite Z.min_l by lia|by rewrite Z.min_r by lia]. }
    rewrite put_written by (done || (eapply has_room_le; [|done]; lia)). cbn [mbind option_bind].
    specialize (Hrun (es0 ++ [e]) (drop 1 <$> room) (off + 2)). rewrite stream_snoc, Henc in Hrun.
    rewrite Hrun; [|rewrite zlen_snoc; lia|by apply has_room_drop]. rewrite drop_room, <- app_assoc. done.
  - assert (cp = new) as -> by lia. exists []. split_and!; [constructor|done..|]. intros es0 room off Hoff _. cbn [fill_gap].
    rewrite Z.ltb_irrefl, app_nil_r, Hoff. by destruct room.
Qed.

Lemma end_addr_shift a b es : end_addr (a + b) es = a + end_addr b es.
Proof. revert b. induction es as [|e es IH]; intros b; [done|]. cbn [end_addr foldl]. change (foldl _ ?x ?l) with (end_addr x l). by rewrite <- Z.add_assoc, IH. Qed.

Section copy.
Context (vm_page_size CodeEntryAlignment : Z) (stubs : list StubCodeDesc).
Context (k : Z) (Hk : 3 ≤ k ≤ 16) (Halign : alignment CodeEntryAlignment = 2 ^ k).
Local Abbreviation align := (align_at_start CodeEntryAlignment).
Local Abbreviation item_record := (item_record vm_page_size stubs).
Local Abbreviation section_ok := (section_ok vm_page_size stubs).

Lemma align_spec off : 0 ≤ off ≤ 2 ^ 30 → align off = round_to off (2 ^ k) ∧ off ≤ align off < off + 2 ^ k ∧ 2 ^ k ≤ 2 ^ 16.
Proof using Hk Halign.
  intros Ho. assert (2 ^ k ≤ 2 ^ 16) as Hp by (apply Z.pow_le_mono_r; lia).
  pose proof (round_to_bounds off k ltac:(lia) ltac:(lia)) as Hb. unfold align_at_start. rewrite Halign, align_size_up_spec by lia.
  rewrite wrapS_id by (done || unfold in_s; lia). lia.
Qed.

(** Where a section of this size starts when the code before it ends at [ce]. *)
Definition base_of (cs : CodeSection) (ce : Z) : Z := if negb (is_empty cs) then align ce else ce.

Lemma section_stream cs h : section_ok cs h →
  ∃ es, section_locs cs = stream es ∧ Forall entry_ok es ∧ end_addr 0 es = cs_locs_point cs - cs_start cs ∧
    filter real (place 0 es) = item_record <$> h.
Proof using Type.
  clear Halign Hk k.
  intros ([(Hn & -> & _ & Hp)|(es & junk & Hl & He & Hes & Hea & Hf)] & _).
  - exists []. unfold section_locs. rewrite Hn. split_and!; [done|constructor|cbn; lia|done].
  - exists es. split_and!; try done. unfold section_locs. rewrite Hl, He. unfold zlen. rewrite Nat2Z.id. apply take_app_length.
Qed.

Lemma copy_section_spec cs h ce cp :
  section_ok cs h → (is_empty cs = true → h = []) → 0 ≤ cp ≤ ce → ce ≤ 2 ^ 30 →
  let base := base_of cs ce in
  ∃ es cp', Forall entry_ok es ∧ end_addr cp es = cp' ∧ cp ≤ cp' ≤ base + cs_size cs ∧
    filter real (place cp es) = shift base <$> (item_record <$> h) ∧
    ∀ es0 room off, off = 2 * zlen (stream es0) → has_room (length (stream es)) room →
      copy_section CodeEntryAlignment cs (written (stream es0) room, off, ce, cp) =
      Some (written (stream (es0 ++ es)) (drop (length (stream es)) <$> room), 2 * zlen (stream (es0 ++ es)), base + cs_size cs, cp').
Proof using Hk Halign.
  intros Hok Hemp Hcp Hce base. destruct (section_stream cs h Hok) as (es & Hsl & Hes & Hea & Hfil).
  destruct Hok as (_ & Hpt & Hend & Hsm & _). unfold small in Hsm.
  assert (cs_size cs = cs_end cs - cs_start cs) as Hsz by (apply wrapS_id; [done|unfold in_s; lia]). unfold base, base_of.
  unfold copy_section. destruct (is_empty cs) eqn:He; cbn [negb].
  { rewrite (Hemp eq_refl). unfold is_empty in He. apply Z.eqb_eq in He. exists [], cp. split_and!; [constructor|done|lia|lia|done|].
    intros es0 room off -> _. rewrite app_nil_r, Hsz. replace (ce + (cs_end cs - cs_start cs)) with ce by lia. by destruct room. }
  destruct (align_spec ce) as (_ & Hal & Hp); [lia|]. rewrite Hsl. destruct es as [|e es].
  { destruct h as [|i h]; [|done]. exists [], cp. split_and!; [constructor|done|lia|lia|done|]. intros es0 room off -> _.
    change (stream []) with (@nil Z). change (zlen (@nil Z) * 2) with 0. change (0 <? 0) with false. cbv iota zeta. cbn [mbind option_bind put_words].
    rewrite Z.add_0_r, app_nil_r. by destruct room. }
  destruct (fill_gap_spec (S (Z.to_nat (align ce))) cp (align ce)) as (gap & Hgok & Hgend & Hgfil & Hgap); [lia|lia|].
  assert (locs_point_off cs = cs_locs_point cs - cs_start cs) as Hpo by (apply wrapS_id; [done|unfold in_s; lia]).
  exists (gap ++ e :: es), (align ce + locs_point_off cs). split_and!; try lia.
  - by apply Forall_app.
  - rewrite end_addr_app, Hgend, <- (Z.add_0_r (align ce)), end_addr_shift. lia.
  - rewrite place_app, filter_app, Hgfil, Hgend, <- (Z.add_0_r (align ce)), place_shift, filter_real_shift, Hfil. by rewrite Z.add_0_r.
  - intros es0 room off -> Hr. rewrite stream_app, length_app in Hr. cbv zeta.
    assert (0 < zlen (stream (e :: es)) * 2) as Hpos by (rewrite stream_cons, zlen_app, encode_length; unfold zlen; lia).
    rewrite (proj2 (Z.ltb_lt 0 _) Hpos). rewrite Hgap by (done || (eapply has_room_le; [|done]; lia)). cbn [mbind option_bind].
    rewrite put_words_written by (done || by apply has_room_drop). cbn [mbind option_bind].
    rewrite drop_room, <- stream_app, <- app_assoc, <- length_app, <- stream_app. rewrite !stream_app, !zlen_app. do 4 f_equal. lia.
Qed.

Fixpoint offsets (secs : list CodeSection) (ce : Z) : list Z :=
  match secs with
  | [] => []
  | cs :: secs' => base_of cs ce :: offsets secs' (base_of cs ce + cs_size cs)
  end.
Lemma total_offset_of_offsets cb n : total_offset_of CodeEntryAlignment cb n = zget (offsets (cb_sections cb) 0) n.
Proof.
  unfold total_offset_of. generalize (cb_sections cb), 0. intros secs. revert n. induction secs as [|cs secs IH]; intros n ce; cbn [offset_of_from offsets].
  - unfold zget. by case_decide.
  - rewrite zget_cons. fold (base_of cs ce). destruct (Z.eqb_spec n 0); [by rewrite decide_True|]. rewrite decide_False by done. apply IH.
Qed.
Definition copied (offs : list Z) (hs : list (list item)) : list record :=
  concat (zip_with (λ o h, shift o <$> (item_record <$> h)) offs hs).
Definition copy_ok (cs : CodeSection) (h : list item) : Prop := section_ok cs h ∧ (is_empty cs = true → h = []).

Lemma base_of_bounds cs ce : 0 ≤ ce ≤ 2 ^ 30 → ce ≤ base_of cs ce < ce + 2 ^ 16 + 1.
Proof using Hk Halign. intros Hce. unfold base_of. destruct (align_spec ce Hce) as (_ & ? & ?). destruct (is_empty cs); cbn [negb]; lia. Qed.
Lemma section_size cs h : section_ok cs h → cs_size cs = cs_end cs - cs_start cs ∧ 0 ≤ cs_size cs < 2 ^ 28.
Proof using Type.
  clear Halign Hk k.
  intros (_ & Hpt & Hend & Hsm & _). unfold small in Hsm. assert (cs_size cs = cs_end cs - cs_start cs) as -> by (apply wrapS_id; [done|unfold in_s; lia]). lia.
Qed.
Lemma offsets_bounds secs hs ce : Forall2 copy_ok secs hs → 0 ≤ ce → ce + 2 ^ 29 * zlen secs ≤ 2 ^ 29 * 3 →
  Forall (λ o, 0 ≤ o < 2 ^ 31) (offsets secs ce).
Proof using Hk Halign.
  intros Hs. revert ce. induction Hs as [|cs h secs hs [Hc _] Hs IH]; intros ce H0 H1; cbn [offsets]; [constructor|].
  destruct (section_size _ _ Hc) as [_ Hsz]. assert (zlen (cs :: secs) = zlen secs + 1) as Hl by (unfold zlen; cbn [length]; lia).
  rewrite Hl in *. pose proof (base_of_bounds cs ce ltac:(unfold zlen in *; lia)) as Hb. constructor; [unfold zlen in *; lia|]. apply IH; lia.
Qed.

Lemma copy_sections_spec secs hs ce cp :
  Forall2 copy_ok secs hs → 0 ≤ cp ≤ ce → ce + 2 ^ 29 * zlen secs ≤ 2 ^ 29 * 3 →
  ∃ es cp' ce', Forall entry_ok es ∧ end_addr cp es = cp' ∧ filter real (place cp es) = copied (offsets secs ce) hs ∧
    ∀ es0 room off, off = 2 * zlen (stream es0) → has_room (length (stream es)) room →
      copy_sections CodeEntryAlignment secs (written (stream es0) room, off, ce, cp) =
      Some (written (stream (es0 ++ es)) (drop (length (stream es)) <$> room), 2 * zlen (stream (es0 ++ es)), ce', cp').
Proof using Hk Halign.
  intros Hs. revert ce cp. induction Hs as [|cs h secs hs [Hc He] Hs IH]; intros ce cp Hcp Hce; cbn [offsets copy_sections].
  { exists [], cp, ce. split_and!; [constructor|done..|]. intros es0 room off -> _. rewrite app_nil_r. by destruct room. }
  assert (zlen (cs :: secs) = zlen secs + 1) as Hl by (unfold zlen; cbn [length]; lia). rewrite Hl in Hce.
  destruct (copy_section_spec cs h ce cp Hc He Hcp) as (es1 & cp1 & Hok1 & Hend1 & Hcp1 & Hf1 & Hrun1); [unfold zlen in *; lia|].
  destruct (section_size _ _ Hc) as [_ Hsz]. pose proof (base_of_bounds cs ce ltac:(unfold zlen in *; lia)) as Hb.
  destruct (IH (base_of cs ce + cs_size cs) cp1) as (es2 & cp2 & ce2 & Hok2 & Hend2 & Hf2 & Hrun2); [lia..|].
  exists (es1 ++ es2), cp2, ce2. split_and!.
  - by apply Forall_app.
  - by rewrite end_addr_app, Hend1.
  - rewrite place_app, filter_app, Hend1, Hf1, Hf2. done.
  - intros es0 room off Hoff Hr. rewrite stream_app, length_app in Hr. rewrite Hrun1 by (done || (eapply has_room_le; [|done]; lia)).
    cbn [mbind option_bind]. rewrite Hrun2 by (done || by apply has_room_drop). by rewrite drop_room, <- app_assoc, (stream_app es1 es2), length_app.
Qed.

Definition pad_entry : entry := mkEntry none 0 0 [].
Lemma stream_pads j : stream (replicate j pad_entry) = replicate j 0.
Proof. induction j as [|j IH]; [done|]. cbn [replicate]. rewrite stream_cons, IH. done. Qed.
Lemma pads_ok j : Forall entry_ok (replicate j pad_entry).
Proof. apply Forall_replicate. apply (bool_decide_unpack _). vm_compute. exact I. Qed.
Lemma place_pads a j : filter real (place a (replicate j pad_entry)) = [].
Proof. revert a. induction j as [|j IH]; intros a; [done|]. cbn [replicate place]. rewrite filter_cons_False; [apply IH|]. intros H. by apply H. Qed.

Lemma pad_spec fuel p j : (2 * (zlen p + Z.of_nat j)) mod 8 = 0 → (j < fuel)%nat → (j < 4)%nat →
  ∀ room, has_room j room → pad fuel (written p room) (2 * zlen p) = Some (written (p ++ replicate j 0) (drop j <$> room), 2 * zlen (p ++ replicate j 0)).
Proof.
  revert p j. induction fuel as [|fuel IH]; intros p j Hj Hf H4 room Hr; [lia|]. cbn [pad]. change HeapWordSize with 8. destruct j as [|j].
  - rewrite (proj2 (Z.eqb_eq _ 0)) by (rewrite <- Hj; f_equal; lia). cbn. rewrite app_nil_r. by destruct room.
  - rewrite (proj2 (Z.eqb_neq _ 0)) by (unfold zlen in *; Z.div_mod_to_equations; lia). cbn [negb].
    rewrite put_written by (done || (eapply has_room_le; [|done]; lia)). cbn [mbind option_bind].
    replace (2 * zlen p + 2) with (2 * zlen (p ++ [relocInfo none 0 0])) by (rewrite zlen_snoc; lia).
    rewrite (IH _ j); [|rewrite zlen_snoc; rewrite <- Hj; f_equal; lia|lia..|by apply has_room_drop].
    rewrite drop_room, <- app_assoc. done.
Qed.

(** The sizing pass and the copy, together. *)
Lemma copy_relocations_spec cb hs :
  Forall2 copy_ok (cb_sections cb) hs → length (cb_sections cb) = 3%nat →
  ∃ es lsize, lsize = 2 * zlen (stream es) ∧ lsize mod 8 = 0 ∧ Forall entry_ok es ∧ filter real (place 0 es) = copied (offsets (cb_sections cb) 0) hs ∧
    copy_relocations_to CodeEntryAlignment cb None = Some (None, lsize) ∧
    ∀ dest, lsize ≤ 2 * zlen dest → copy_relocations_to CodeEntryAlignment cb (Some dest) =
      Some (Some (stream (es ++ replicate (length dest - length (stream es)) pad_entry)), lsize).
Proof using Hk Halign.
  intros Hs H3. destruct (copy_sections_spec _ hs 0 0 Hs) as (es & cp & ce & Hok & Hend & Hf & Hrun); [lia|unfold zlen; lia|].
  set (j := Z.to_nat ((- zlen (stream es)) mod 4)).
  assert ((2 * (zlen (stream es) + Z.of_nat j)) mod 8 = 0 ∧ (j < 4)%nat) as [Hj Hj4] by (unfold j, zlen; split; Z.div_mod_to_equations; lia).
  exists (es ++ replicate j pad_entry), (2 * zlen (stream (es ++ replicate j pad_entry))).
  assert (∀ room, has_room (length (stream es) + j) room →
    (copy_sections CodeEntryAlignment (cb_sections cb) (written [] room, 0, 0, 0) ≫= (λ '(buf, off, _, _), pad 4 buf off)) =
    Some (written (stream (es ++ replicate j pad_entry)) (drop (length (stream es) + j) <$> room), 2 * zlen (stream (es ++ replicate j pad_entry)))) as Hboth.
  { intros room Hr. specialize (Hrun [] room 0 eq_refl). change (stream []) with (@nil Z) in Hrun. rewrite Hrun by (eapply has_room_le; [|done]; lia). cbn [mbind option_bind app].
    rewrite (pad_spec 4 _ j) by (done || lia || by apply has_room_drop). by rewrite drop_room, stream_app, stream_pads. }
  assert (length (stream (es ++ replicate j pad_entry)) = (length (stream es) + j)%nat) as Hlen by (rewrite stream_app, stream_pads, length_app, length_replicate; lia).
  split_and!; [done|unfold zlen in *; rewrite Hlen, Nat2Z.inj_add; done|apply Forall_app; split; [done|apply pads_ok]|..].
  - by rewrite place_app, filter_app, place_pads, app_nil_r.
  - unfold copy_relocations_to. specialize (Hboth None ltac:(done)). cbn [written] in Hboth. revert Hboth.
    destruct (copy_sections _ _ _) as [[[[buf off] x] y]|]; [|done]. cbn. intros ->. done.
  - intros dest Hd. unfold copy_relocations_to. assert (has_room (length (stream es) + j) (Some dest)) as Hr by (intros junk [= <-]; unfold zlen in *; lia).
    specialize (Hboth (Some dest) Hr). unfold written in Hboth. cbn [fmap option_fmap option_map app] in Hboth.
    destruct (copy_sections _ _ _) as [[[[buf off] x] y]|]; cbn [mbind option_bind] in *; [|discriminate Hboth]. rewrite Hboth.
    cbn [mbind option_bind]. set (w := stream (es ++ replicate j pad_entry)) in *.
    unfold create_index. replace (2 * zlen w / 2) with (zlen w) by (Z.div_mod_to_equations; lia).
    rewrite write_words_app by (rewrite length_replicate, zlen_app; unfold zlen; lia). cbn [mbind option_bind]. do 2 f_equal.
    rewrite stream_app, stream_pads. fold w. do 2 f_equal. unfold zlen. rewrite length_replicate, length_app, length_drop. rewrite drop_ge by (rewrite length_drop; lia).
    rewrite app_nil_r. f_equal. lia.
Qed.
End copy.

(** ** Expansion *)

Definition same_bounds (c c' : CodeSection) : Prop := cs_start c' = cs_start c ∧ cs_limit c' = cs_limit c.
Definition grows (cb : CodeBuffer) : Prop :=
  ∀ secs s old cur, secs ∈ chain cb → zget secs s = Some old → zget (cb_sections cb) s = Some cur →
    cs_limit old - cs_start old ≤ cs_limit cur - cs_start cur.

Lemma zget_Forall2 {A B} (R : A → B → Prop) l l' i y : Forall2 R l l' → zget l' i = Some y → ∃ x, zget l i = Some x ∧ R x y.
Proof.
  unfold zget. case_decide; [|done]. intros HF Hy. destruct (Forall2_lookup_r _ _ _ _ _ HF Hy) as (x & Hx & HR). eauto.
Qed.
Lemma zget_Forall2_l {A B} (R : A → B → Prop) l l' i x : Forall2 R l l' → zget l i = Some x → ∃ y, zget l' i = Some y ∧ R x y.
Proof.
  unfold zget. case_decide; [|done]. intros HF Hy. destruct (Forall2_lookup_l _ _ _ _ _ HF Hy) as (y & Hx & HR). eauto.
Qed.
Lemma zset_Forall2 {A B} (R : A → B → Prop) l l1 l' i y x : Forall2 R l l' → zset l i x = Some l1 → zget l' i = Some y →
  ∀ z, R x z → Forall2 R l1 (<[Z.to_nat i := z]> l').
Proof. unfold zset. case_decide; [|done]. intros HF [= <-] _ z Hz. by apply Forall2_insert. Qed.
Lemma allocates_bounds c c' t : same_bounds c c' → allocates c' t = allocates c t ∧ allocates2 c' t = allocates2 c t.
Proof. intros [Hs Hl]. unfold allocates, allocates2. by rewrite Hs, Hl. Qed.
Lemma elem_of_zget {A} (l : list A) x : x ∈ l → ∃ i, zget l i = Some x.
Proof. intros (i & Hi)%list_elem_of_lookup. exists (Z.of_nat i). by rewrite zget_nat. Qed.
Lemma chain_ok_bounds secs secs' l : Forall2 same_bounds secs secs' → chain_ok (secs :: l) → chain_ok (secs' :: l).
Proof.
  intros HF ((H3 & Hu & Hp) & Hsep & Hl). split_and!; [| |done].
  - split_and!; [by rewrite <- (Forall2_length _ _ _ HF)| |].
    + intros i j ci cj t Hi Hj Hai Haj. destruct (zget_Forall2 _ _ _ _ _ HF Hi) as (ci' & Hi' & Hbi), (zget_Forall2 _ _ _ _ _ HF Hj) as (cj' & Hj' & Hbj).
      apply (Hu i j ci' cj' t); [done..|by rewrite <- (proj1 (allocates_bounds _ _ t Hbi))|by rewrite <- (proj1 (allocates_bounds _ _ t Hbj))].
    + intros c t (i & Hi)%elem_of_zget Ha. destruct (zget_Forall2 _ _ _ _ _ HF Hi) as (c' & Hi' & Hb). apply (Hp c'); [by apply zget_elem in Hi'|].
      by rewrite <- (proj1 (allocates_bounds _ _ t Hb)).
  - intros c old t (i & Hi)%elem_of_zget Ho Ha. destruct (zget_Forall2 _ _ _ _ _ HF Hi) as (c' & Hi' & Hb).
    apply (Hsep c' old t); [by apply zget_elem in Hi'|done|]. by rewrite <- (proj2 (allocates_bounds _ _ t Hb)).
Qed.

Lemma Forall2_three {A B} (R : A → B → Prop) a0 a1 a2 b0 b1 b2 : R a0 b0 → R a1 b1 → R a2 b2 → Forall2 R [a0; a1; a2] [b0; b1; b2].
Proof. intros. by repeat (constructor; [done|]). Qed.
Lemma zget_three {A} (a0 a1 a2 : A) i x : zget [a0; a1; a2] i = Some x → (i = 0 ∧ x = a0) ∨ (i = 1 ∧ x = a1) ∨ (i = 2 ∧ x = a2).
Proof.
  intros Hx. pose proof (zget_Some _ _ _ Hx) as Hr. unfold zlen in Hr. cbn in Hr.
  assert (i = 0 ∨ i = 1 ∨ i = 2) as [->| [->| ->] ] by lia; cbn in Hx; injection Hx as <-; auto.
Qed.

Section expansion.
Context (vm_page_size CodeEntryAlignment : Z) (stubs : list StubCodeDesc).
Context (k : Z) (Hk : 3 ≤ k ≤ 16) (Halign : alignment CodeEntryAlignment = 2 ^ k).
Local Abbreviation section_ok := (section_ok vm_page_size stubs).

Definition buffer_ok (cb : CodeBuffer) (hs : list (list item)) : Prop :=
  chain_ok (chain cb) ∧ Forall (Forall small) (chain cb) ∧ grows cb ∧ Forall2 section_ok (cb_sections cb) hs.

(** A section may change its contents, not its bounds. *)
Lemma update_section_ok cb hs n cs cs' h h' :
  buffer_ok cb hs → zget (cb_sections cb) n = Some cs → zget hs n = Some h → same_bounds cs cs' → section_ok cs' h' →
  ∃ cb', update_section cb n cs' = Some cb' ∧ buffer_ok cb' (<[Z.to_nat n := h']> hs) ∧ cb_before_expand cb' = cb_before_expand cb ∧
    cb_blob cb' = cb_blob cb ∧ cb_sections cb' = <[Z.to_nat n := cs']> (cb_sections cb).
Proof using Type.
  clear Halign Hk k.
  intros (Hok & Hsm & Hgr & Hs) Hn Hh Hb Hc. unfold update_section. pose proof (zget_Some _ _ _ Hn) as Hr.
  assert (zset (cb_sections cb) n cs' = Some (<[Z.to_nat n := cs']> (cb_sections cb))) as Hset by (unfold zset; rewrite decide_True; [done|unfold zlen in Hr; lia]).
  rewrite Hset. cbn. eexists. split; [done|]. set (secs' := <[Z.to_nat n := cs']> _).
  assert (Forall2 same_bounds (cb_sections cb) secs') as HF.
  { unfold secs'. rewrite <- (list_insert_id (cb_sections cb) (Z.to_nat n) cs) at 1.
    - apply Forall2_insert; [|done]. apply Forall_Forall2_diag, Forall_true. done.
    - unfold zget in Hn. by rewrite decide_True in Hn by lia. }
  split; [|done]. unfold buffer_ok, chain, grows. cbn [cb_sections cb_before_expand chain] in *. unfold chain in *. split_and!.
  - by eapply chain_ok_bounds.
  - apply Forall_cons in Hsm as [Hsm1 Hsm2]. constructor; [|done]. apply Forall_forall. intros c (i & Hi)%elem_of_zget.
    destruct (zget_Forall2 _ _ _ _ _ HF Hi) as (c0 & Hi0 & [Hs0 Hl0]). rewrite Forall_forall in Hsm1. unfold small in *. rewrite Hs0, Hl0. by apply Hsm1, zget_elem with i.
  - intros secs s old cur Hin Ho Hcur. destruct (zget_Forall2 _ _ _ _ _ HF Hcur) as (c0 & Hc0 & [Hs0 Hl0]). rewrite Hs0, Hl0.
    apply elem_of_cons in Hin as [Heq|Hin]; [|by apply (Hgr secs s old c0); [right|..]].
    rewrite Heq in Ho. change (zget secs' s = Some old) in Ho. simplify_eq. lia.
  - eapply zset_Forall2; eauto.
Qed.

Lemma slop_align : end_slop CodeEntryAlignment = 2 ^ k.
Proof using Halign. exact Halign. Qed.
Lemma land_mask x : Z.land x (2 ^ k - 1) = x mod 2 ^ k.
Proof using Hk. replace (2 ^ k - 1) with (Z.ones k) by (rewrite Z.ones_equiv; lia). apply Z.land_ones. lia. Qed.

(** The capacities asked for cover the old ones, and the growth requested. *)
Lemma figure_section_spec cs h n which amount caps total :
  section_ok cs h → cs_limit cs - cs_start cs < 2 ^ 27 → 0 ≤ amount ≤ 2 ^ 27 → 0 ≤ total ≤ 2 ^ 30 →
  (total = 0 ∨ ∃ c, zget caps (n - 1) = Some c) →
  ∃ padding new_cap, figure_section CodeEntryAlignment cs n which amount caps total =
      Some (match zget caps (n - 1) with Some c => <[Z.to_nat (n - 1) := c + padding]> caps | None => caps end ++ [new_cap], total + padding + new_cap) ∧
    (0 ≤ padding < 2 ^ 16 + 1 ∧ (total = 0 → padding = 0)) ∧ cs_limit cs - cs_start cs ≤ new_cap ≤ 2 ^ 28 + 2 ^ 17 ∧
    cs_size cs + 2 ^ k ≤ new_cap ∧ (n = which → cs_size cs + amount ≤ new_cap).
Proof using Hk Halign.
  intros Hok Hcap Ham Ht Hc. destruct (section_size vm_page_size stubs cs h Hok) as [Hsz Hszr]. destruct Hok as (_ & Hpt & Hend & Hsm & _).
  assert (cs_capacity cs = cs_limit cs - cs_start cs) as Hcp by (apply wrapS_id; [done|unfold in_s; lia]).
  set (padding := if negb (is_empty cs) then align_at_start CodeEntryAlignment total - total else 0).
  assert (0 ≤ padding < 2 ^ 16 + 1 ∧ (total = 0 → padding = 0)) as [Hp Hp0].
  { unfold padding. destruct (align_spec CodeEntryAlignment k Hk Halign total Ht) as (Heq & Hb & H2). destruct (is_empty cs); cbn [negb]; [lia|].
    split; [lia|]. intros ->. rewrite Heq, round_to_spec by lia. rewrite Z.div_small by lia. lia. }
  unfold figure_section. fold padding. rewrite slop_align, Hcp. assert (2 ^ k ≤ 2 ^ 16) as Hk16 by (apply Z.pow_le_mono_r; lia). pose proof (Z.pow_pos_nonneg 2 k ltac:(lia) ltac:(lia)) as Hkp.
  assert ((if negb (padding =? 0) then c ← zget caps (n - 1); zset caps (n - 1) (c + padding) else Some caps) =
    Some (match zget caps (n - 1) with Some c => <[Z.to_nat (n - 1) := c + padding]> caps | None => caps end)) as ->.
  { destruct (Z.eqb_spec padding 0) as [->|Hne]; cbn [negb].
    - destruct (zget caps (n - 1)) as [c|] eqn:Hg; [|done]. rewrite Z.add_0_r, list_insert_id; [done|]. unfold zget in Hg. case_decide; done.
    - destruct Hc as [->|[c Hg]]; [lia|]. rewrite Hg. cbn. unfold zset. rewrite decide_True; [done|]. apply zget_Some in Hg. unfold zlen in Hg. lia. }
  cbn [mbind option_bind]. eexists padding, _. split; [done|]. split; [done|]. change K with 1024. rewrite (wrapU_id 32 (cs_size cs)) by (unfold in_u; lia).
  rewrite Z.shiftr_div_pow2 by lia. set (e0 := if cs_size cs <? 4 * 1024 then 4 * 1024 else cs_size cs).
  assert (4096 ≤ e0 ≤ 2 ^ 27 + 4096 ∧ cs_size cs ≤ e0) as He0 by (unfold e0; destruct (Z.ltb_spec (cs_size cs) (4 * 1024)); lia).
  set (e1 := if n =? which then _ else _). assert (0 ≤ e1 ≤ 2 ^ 27 + 4096 ∧ (n = which → amount ≤ e1)) as [He1 He1'].
  { unfold e1. destruct (Z.eqb_spec n which) as [->|Hnw]; [destruct (Z.ltb_spec e0 amount); lia|]. split; [|done].
    destruct (n =? SECT_INSTS); [Z.div_mod_to_equations; lia|]. destruct (is_empty cs); lia. }
  destruct (Z.ltb_spec (cs_size cs + (e1 + 2 ^ k)) (cs_limit cs - cs_start cs)); lia.
Qed.

Lemma figure_spec s0 s1 s2 h0 h1 h2 which amount before blob :
  section_ok s0 h0 → section_ok s1 h1 → section_ok s2 h2 →
  cs_limit s0 - cs_start s0 < 2 ^ 27 → cs_limit s1 - cs_start s1 < 2 ^ 27 → cs_limit s2 - cs_start s2 < 2 ^ 27 →
  0 ≤ amount ≤ 2 ^ 27 →
  ∃ c0 c1 c2, figure_expanded_capacities CodeEntryAlignment (mkBuffer [s0; s1; s2] before blob) which amount = Some ([c0; c1; c2], c0 + c1 + c2) ∧
    cs_limit s0 - cs_start s0 ≤ c0 ∧ cs_limit s1 - cs_start s1 ≤ c1 ∧ cs_limit s2 - cs_start s2 ≤ c2 ∧
    (cs_size s0 + 2 ^ k ≤ c0 ∧ cs_size s1 + 2 ^ k ≤ c1 ∧ cs_size s2 + 2 ^ k ≤ c2) ∧
    (0 = which → cs_size s0 + amount ≤ c0) ∧ (1 = which → cs_size s1 + amount ≤ c1) ∧ (2 = which → cs_size s2 + amount ≤ c2).
Proof using Hk Halign.
  intros H0 H1 H2 Hc0 Hc1 Hc2 Ham.
  unfold figure_expanded_capacities. cbn [cb_sections figure_from].
  destruct (figure_section_spec s0 h0 0 which amount [] 0 H0 Hc0 Ham ltac:(lia) ltac:(by left)) as (p0 & n0 & -> & [Hp0 Hz] & Hn0 & Hr0 & Hw0).
  rewrite Hz by done. cbn [mbind option_bind zget app]. assert (0 ≤ n0) by (destruct H0 as (_ & ? & ? & _); lia). change (zget (@nil Z) (0 - 1)) with (@None Z). cbn [app].
  destruct (figure_section_spec s1 h1 (0 + 1) which amount [n0] (0 + 0 + n0) H1 Hc1 Ham ltac:(lia) ltac:(right; by exists n0)) as (p1 & n1 & -> & [Hp1 _] & Hn1 & Hr1 & Hw1).
  cbn [mbind option_bind]. change (zget [n0] (0 + 1 - 1)) with (Some n0). cbn [app]. change (<[Z.to_nat (0 + 1 - 1) := n0 + p1]> [n0]) with [n0 + p1]. cbn [app].
  assert (0 ≤ n1) by (destruct H1 as (_ & ? & ? & _); lia).
  destruct (figure_section_spec s2 h2 (0 + 1 + 1) which amount [n0 + p1; n1] (0 + 0 + n0 + p1 + n1) H2 Hc2 Ham ltac:(lia) ltac:(right; by exists n1)) as (p2 & n2 & -> & [Hp2 _] & Hn2 & Hr2 & Hw2).
  cbn [mbind option_bind]. change (zget [n0 + p1; n1] (0 + 1 + 1 - 1)) with (Some n1). change (<[Z.to_nat (0 + 1 + 1 - 1) := n1 + p2]> [n0 + p1; n1]) with [n0 + p1; n1 + p2]. cbn [app].
  exists (n0 + p1), (n1 + p2), n2. split; [do 2 f_equal; lia|]. split_and!; try lia.
Qed.

Lemma initialize_section_size_spec insts size :
  cs_start insts + 2 * 2 ^ k ≤ cs_limit insts - size →
  let middle := cs_limit insts - size - (cs_limit insts - size) mod 2 ^ k in
  initialize_section_size CodeEntryAlignment insts size =
  Some (initialize_section middle (cs_limit insts - middle),
    mkSection (cs_start insts) (cs_mark insts) (cs_end insts) (middle - 2 ^ k) (cs_locs insts) (cs_locs_end insts) (cs_locs_point insts)) ∧
  (2 ^ k | middle) ∧ cs_limit insts - size - 2 ^ k < middle ≤ cs_limit insts - size.
Proof using Hk Halign.
  intros Hroom middle. pose proof (Z.pow_pos_nonneg 2 k ltac:(lia) ltac:(lia)) as Hkp.
  pose proof (Z.mod_pos_bound (cs_limit insts - size) (2 ^ k) Hkp) as Hm. unfold initialize_section_size. rewrite slop_align, Halign, land_mask.
  fold middle. rewrite (proj2 (Z.ltb_lt _ _)) by (unfold middle; lia). split; [done|]. split; [|unfold middle; lia].
  unfold middle. exists ((cs_limit insts - size) / 2 ^ k). pose proof (Z.div_mod (cs_limit insts - size) (2 ^ k) ltac:(lia)). lia.
Qed.

Lemma move_section_ok this sect h :
  section_ok this h → cs_limit this - cs_start this ≤ cs_limit sect - cs_start sect < 2 ^ 28 →
  section_ok (move_section this sect) h ∧ cs_start (move_section this sect) = cs_start sect ∧ cs_limit (move_section this sect) = cs_limit sect ∧
  cs_size (move_section this sect) = cs_size this.
Proof using Type.
  clear Halign Hk k. intros Hok Hcap. destruct (section_size vm_page_size stubs this h Hok) as [Hsz Hszr]. destruct Hok as (Hd & Hpt & Hend & Hsm & Hit). unfold small in Hsm.
  assert (locs_point_off this = cs_locs_point this - cs_start this) as Hpo by (apply wrapS_id; [done|unfold in_s; lia]).
  assert (cs_locs_point (move_section this sect) = cs_start sect + (cs_locs_point this - cs_start this)) as Hp.
  { unfold move_section. cbn [cs_locs_point]. rewrite Hpo. unfold is_empty. destruct (Z.eqb_spec (cs_start this) (cs_end this)); cbn [negb andb]; [lia|].
    destruct (Z.eqb_spec (cs_locs_end this) 0) as [Hz|]; cbn [negb]; [|done].
    destruct Hd as [(_ & _ & _ & ?)|(es & junk & _ & He & _ & Hea & _)]; [lia|]. destruct es as [|e es]; [cbn in Hea; lia|].
    rewrite stream_cons, zlen_app, encode_length in He. unfold zlen in He. lia. }
  split_and!; try done.
  - unfold section_ok, CodeBuffer.section_ok, small. rewrite Hp. cbn [move_section cs_start cs_end cs_limit]. split_and!; try done; try lia.
    destruct Hd as [(Hn & -> & He & Hpp)|(es & junk & Hl & He & Hes & Hea & Hf)].
    + left. rewrite Hp. cbn. split_and!; try done. lia.
    + right. exists es, junk. split; [done|]. unfold holds. rewrite Hp. cbn [move_section cs_start cs_locs_end]. split_and!; try done. lia.
  - unfold move_section, cs_size at 1. cbn. replace (cs_start sect + cs_size this - cs_start sect) with (cs_size this) by lia. apply wrapS_id; [done|unfold in_s; lia].
Qed.

(** Memory the code cache grants: nothing in it or at its end is in use. *)
Definition granted (cb : CodeBuffer) (size b e : Z) : Prop :=
  0 < b ∧ size ≤ e - b < 2 ^ 28 ∧ ∀ old t, old ∈ concat (chain cb) → b ≤ t ≤ e → allocates old t = false.
(** How a section moves: its code keeps its size, at an aligned start. *)
Definition moved (cs cs' : CodeSection) : Prop :=
  cs_size cs' = cs_size cs ∧ (2 ^ k | cs_start cs') ∧ cs_limit cs - cs_start cs ≤ cs_limit cs' - cs_start cs' ∧
  cs_size cs + 2 ^ k ≤ cs_limit cs' - cs_start cs' ∧ cs_locs cs' = cs_locs cs.

Lemma new_chain_ok cb c0 c1 c2 b e size :
  chain_ok (chain cb) → granted cb size b e →
  b ≤ cs_start c1 → cs_limit c1 < cs_start c0 → cs_limit c0 < cs_start c2 → cs_limit c2 ≤ e →
  cs_start c0 ≤ cs_limit c0 → cs_start c1 ≤ cs_limit c1 → cs_start c2 ≤ cs_limit c2 →
  chain_ok ([c0; c1; c2] :: chain cb).
Proof using Type.
  clear Halign Hk k. intros Hok (Hb & _ & Hfree) H1 H10 H02 H2 Hc0 Hc1 Hc2.
  assert (∀ c t, c ∈ [c0; c1; c2] → allocates2 c t = true → b ≤ t ≤ e) as Hin.
  { intros c t Hc Ha%allocates2_spec. repeat (apply elem_of_cons in Hc as [->|Hc]; [lia|]). by apply elem_of_nil in Hc. }
  split_and!; [|intros c old t Hc Ho Ha; apply Hfree; [done|by apply (Hin c)]|done]. split_and!; [done| |].
  - intros i j ci cj t Hi Hj Hai%allocates_spec Haj%allocates_spec.
    destruct (zget_three _ _ _ _ _ Hi) as [ [-> ->] | [ [-> ->] | [-> ->] ] ], (zget_three _ _ _ _ _ Hj) as [ [-> ->] | [ [-> ->] | [-> ->] ] ]; done || lia.
  - intros c t Hc Ha. pose proof (Hin c t Hc (allocates_2 _ _ Ha)). lia.
Qed.

(** The three sections of the new buffer, [insts] below [consts] below [stubs]. *)
Lemma carve_spec b e c0 c1 c2 :
  0 ≤ c0 → 0 ≤ c1 → 0 ≤ c2 → c0 + c1 + c2 + (2 ^ k + 2 ^ k) * 4 ≤ e - b →
  let start := b + Z.land (- b) (2 ^ k - 1) in
  ∃ n0 n1 n2 i2, initialize_section_size CodeEntryAlignment (initialize_section start (e - start)) c2 = Some (n2, i2) ∧
    initialize_section_size CodeEntryAlignment i2 c0 = Some (n0, n1) ∧
    ((2 ^ k | cs_start n0) ∧ (2 ^ k | cs_start n1) ∧ (2 ^ k | cs_start n2)) ∧
    (b ≤ cs_start n1 ∧ cs_limit n1 < cs_start n0 ∧ cs_limit n0 < cs_start n2 ∧ cs_limit n2 ≤ e) ∧
    (c0 ≤ cs_limit n0 - cs_start n0 ∧ c1 ≤ cs_limit n1 - cs_start n1 ∧ c2 ≤ cs_limit n2 - cs_start n2).
Proof using Hk Halign.
  intros Hc0 Hc1 Hc2 Hsz start. pose proof (Z.pow_pos_nonneg 2 k ltac:(lia) ltac:(lia)) as Hkp. pose proof (Z.mod_pos_bound (- b) (2 ^ k) Hkp) as Hmb.
  assert (start = b + (- b) mod 2 ^ k) as Hst by (unfold start; by rewrite land_mask). clearbody start.
  destruct (initialize_section_size_spec (initialize_section start (e - start)) c2) as (Hi2 & Hd2 & Hm2); [cbn; lia|].
  set (m2 := cs_limit _ - c2 - _) in *. cbn [initialize_section cs_limit cs_start] in Hm2. clearbody m2.
  set (i2 := mkSection _ _ _ (m2 - 2 ^ k) _ _ _) in *. destruct (initialize_section_size_spec i2 c0) as (Hi0 & Hd0 & Hm0); [cbn; lia|].
  set (m0 := cs_limit i2 - c0 - _) in *. cbn [i2 initialize_section cs_limit cs_start] in Hm0. clearbody m0.
  do 4 eexists. split; [exact Hi2|]. split; [exact Hi0|]. cbn [initialize_section cs_limit cs_start i2]. split_and!; try done; try lia.
  exists (- ((- b) / 2 ^ k)). pose proof (Z.div_mod (- b) (2 ^ k) ltac:(lia)). lia.
Qed.

(** The word copies stay inside the new sections, so they do not disturb each
    other or the code still to be copied. *)
Lemma word_size n : 0 ≤ n < 2 ^ 28 → let w := s32 (align_size_up n HeapWordSize) in n ≤ w < n + 8 ∧ w / HeapWordSize * HeapWordSize = w.
Proof using Type.
  clear Halign Hk k. intros Hn w. unfold w. change HeapWordSize with (2 ^ 3). rewrite align_size_up_spec by lia.
  pose proof (round_to_bounds n 3 ltac:(lia) ltac:(lia)) as Hb. destruct (round_to_divide n 3 ltac:(lia)) as [a Ha].
  rewrite wrapS_id by (done || unfold in_s; lia). split; [lia|]. rewrite Ha, Z.div_mul by lia. done.
Qed.
Definition fits (dest_end : Z) (cs d : CodeSection) : Prop :=
  cs_size d = cs_size cs ∧ 0 ≤ cs_size d < 2 ^ 28 ∧ cs_size d + 8 ≤ cs_limit d - cs_start d ∧ cs_limit d ≤ dest_end.
Lemma copy_code_spec secs dest dest_end mem :
  Forall2 (fits dest_end) secs dest →
  (∀ i j ci cj t, dest !! i = Some ci → dest !! j = Some cj → allocates ci t = true → allocates cj t = true → i = j) →
  (∀ cs d t, cs ∈ secs → d ∈ dest → cs_start cs ≤ t < cs_start cs + cs_size cs → allocates d t = false) →
  ∃ mem', copy_code secs dest dest_end mem = Some mem' ∧ (∀ a, Forall (λ d, allocates d a = false) dest → mem' a = mem a) ∧
    ∀ n cs d i, secs !! n = Some cs → dest !! n = Some d → 0 ≤ i < cs_size cs → mem' (cs_start d + i) = mem (cs_start cs + i).
Proof using Type.
  clear Halign Hk k. intros HF. revert mem. induction HF as [|cs d secs dest (Hsz & Hr & Hl & Hde) HF IH]; intros mem Hdis Hold; [by exists mem|].
  destruct (word_size _ Hr) as [Hw Hww]. cbn [copy_code]. set (w := s32 _) in *. clearbody w.
  set (mem1 := if is_empty cs then mem else disjoint_words (cs_start cs) (cs_start d) (w / HeapWordSize) mem).
  assert (∀ a, allocates d a = false → mem1 a = mem a) as Hframe.
  { intros a Ha. unfold mem1, disjoint_words. destruct (is_empty cs); [done|]. rewrite Hww.
    destruct (Z.leb_spec (cs_start d) a), (Z.ltb_spec a (cs_start d + w)); try done. cbn [andb].
    rewrite (proj2 (allocates_spec d a)) in Ha by lia. done. }
  assert (∀ i, 0 ≤ i < cs_size cs → mem1 (cs_start d + i) = mem (cs_start cs + i)) as Hhit.
  { intros i Hi. unfold mem1, disjoint_words. destruct (is_empty cs) eqn:He.
    - unfold is_empty in He. apply Z.eqb_eq in He. unfold cs_size in Hi. rewrite He, Z.sub_diag in Hi. change (s32 0) with 0 in Hi. lia.
    - rewrite Hww, (proj2 (Z.leb_le _ _)), (proj2 (Z.ltb_lt _ _)) by lia. cbn [andb]. f_equal. lia. }
  destruct (IH mem1) as (mem' & Hc & Hfr & Hcp).
  { intros i j ci cj t Hi Hj Hai Haj. pose proof (Hdis (S i) (S j) ci cj t Hi Hj Hai Haj). lia. }
  { intros c c' t Hc Hc'. apply Hold; by right. }
  exists mem'. split_and!.
  - rewrite <- Hc. unfold mem1. destruct (is_empty cs); [done|]. by rewrite Hsz, Z.eqb_refl, (proj2 (Z.leb_le _ _)) by lia.
  - intros a [Ha Has]%Forall_cons. by rewrite Hfr, Hframe.
  - intros [|n] c c' i Hn Hn' Hi; cbn in Hn, Hn'; simplify_eq.
    + rewrite Hfr, Hhit; [done..|]. apply Forall_forall. intros c2 (j & Hj)%list_elem_of_lookup. apply not_true_is_false. intros Ha.
      enough (0%nat = S j) by done. apply (Hdis 0%nat (S j) c' c2 (cs_start c' + i)); [done..| |done]. apply allocates_spec. lia.
    + rewrite (Hcp n c c' i Hn Hn' Hi). apply Hframe, (Hold c); [right; by eapply list_elem_of_lookup_2|left|lia].
Qed.

(** What is left for a section that has moved. *)
Lemma remaining_after cs h amount cap : section_ok cs h → cap ≤ cs_limit cs - cs_start cs → cs_size cs + amount ≤ cap → amount ≤ cs_remaining cs.
Proof using Type.
  clear Halign Hk k. intros Hok Hc Ha. destruct (section_size vm_page_size stubs cs h Hok) as [Hsz _]. destruct Hok as (_ & Hpt & Hend & Hsm & _). unfold small in Hsm.
  assert (cs_remaining cs = cs_limit cs - cs_end cs) as -> by (apply wrapS_id; [done|unfold in_s; lia]). lia.
Qed.

Lemma expand_spec cb hs which amount create :
  buffer_ok cb hs → cb_blob cb = true → Forall (λ cs, cs_limit cs - cs_start cs < 2 ^ 27) (cb_sections cb) → 0 ≤ amount ≤ 2 ^ 27 →
  (∀ size b e, create size = Some (b, e) → granted cb size b e) →
  ∃ cb', expand CodeEntryAlignment cb which amount create = Some cb' ∧ buffer_ok cb' hs ∧
    ((cb_blob cb' = false ∧ cb_sections cb' = cb_sections cb ∧ cb_before_expand cb' = cb_before_expand cb) ∨
     (cb_blob cb' = true ∧ cb_before_expand cb' = chain cb ∧ Forall2 moved (cb_sections cb) (cb_sections cb') ∧
      (∀ cs' stubs, cs' ∈ cb_sections cb' → zget (cb_sections cb') SECT_STUBS = Some stubs → cs_limit cs' ≤ cs_limit stubs) ∧
      ∀ cs', zget (cb_sections cb') which = Some cs' → amount ≤ cs_remaining cs')).
Proof using Hk Halign.
  intros (Hok & Hsm & Hgr & Hs) Hblob Hcaps Ham Hcreate. pose proof Hok as ((H3 & _) & _). destruct cb as [secs before blob]. cbn in Hblob, H3, Hs, Hcaps. subst blob.
  destruct secs as [|s0 [|s1 [|s2 [|]]]]; try done. apply Forall2_cons_inv_l in Hs as (h0 & hs1 & H0 & Hs & ->).
  apply Forall2_cons_inv_l in Hs as (h1 & hs2 & H1 & Hs & ->). apply Forall2_cons_inv_l in Hs as (h2 & hs3 & H2 & Hs & ->). apply Forall2_nil_inv_l in Hs as ->.
  apply Forall_cons in Hcaps as [Hc0 Hcaps]. apply Forall_cons in Hcaps as [Hc1 Hcaps]. apply Forall_cons in Hcaps as [Hc2 _].
  destruct (figure_spec s0 s1 s2 h0 h1 h2 which amount before true H0 H1 H2 Hc0 Hc1 Hc2 Ham) as (c0 & c1 & c2 & Hfig & Hg0 & Hg1 & Hg2 & Hroom & Hw0 & Hw1 & Hw2).
  unfold expand. cbn [cb_blob negb]. rewrite Hfig. cbn [mbind option_bind]. rewrite slop_align, Halign.
  destruct (create _) as [[b e]|] eqn:Hcr.
  2: { eexists. split; [done|]. split; [|by left]. split; [done|]. split; [done|]. split; [done|]. by apply Forall2_three. }
  specialize (Hcreate _ _ _ Hcr) as Hgrant. pose proof Hgrant as (Hb & Hbe & _).
  assert (cs_start s0 ≤ cs_limit s0 ∧ cs_start s1 ≤ cs_limit s1 ∧ cs_start s2 ≤ cs_limit s2) as Hpos by (destruct H0 as (_ & ? & ? & _), H1 as (_ & ? & ? & _), H2 as (_ & ? & ? & _); lia).
  destruct (carve_spec b e c0 c1 c2) as (n0 & n1 & n2 & i2 & Hi2 & Hi0 & (D0 & D1 & D2) & Hgeo & Hcap); [lia..|].
  change (zget [c0; c1; c2] SECT_STUBS) with (Some c2). change (zget [c0; c1; c2] SECT_CONSTS) with (Some c0). cbn [mbind option_bind cb_sections].
  rewrite Hi2. cbn [mbind option_bind]. rewrite Hi0. cbn [mbind option_bind]. eexists. split; [done|].
  destruct (move_section_ok s0 n0 h0 H0) as (M0 & S0 & L0 & Z0); [lia|]. destruct (move_section_ok s1 n1 h1 H1) as (M1 & S1 & L1 & Z1); [lia|].
  destruct (move_section_ok s2 n2 h2 H2) as (M2 & S2 & L2 & Z2); [lia|].
  split; [split; [|split; [|split] ]|right; split_and!].
  - by apply (new_chain_ok _ _ _ _ b e _ Hok Hgrant); rewrite ?S0, ?S1, ?S2, ?L0, ?L1, ?L2; lia.
  - constructor; [|done]. repeat (constructor; [by match goal with H : section_ok ?x _ |- small ?x => destruct H as (_ & _ & _ & ? & _) end|]). constructor.
  - intros secs s old cur Hin Hold Hcur. cbn [cb_sections] in Hcur. apply elem_of_cons in Hin as [->|Hin]; [cbn [cb_sections] in Hold; simplify_eq; lia|].
    apply zget_three in Hcur as [ [-> ->] | [ [-> ->] | [-> ->] ] ];
      [pose proof (Hgr secs 0 old s0 Hin Hold eq_refl)|pose proof (Hgr secs 1 old s1 Hin Hold eq_refl)|pose proof (Hgr secs 2 old s2 Hin Hold eq_refl)];
      rewrite ?S0, ?S1, ?S2, ?L0, ?L1, ?L2; lia.
  - by apply Forall2_three.
  - done.
  - done.
  - apply Forall2_three; unfold moved; rewrite ?S0, ?S1, ?S2, ?L0, ?L1, ?L2; split_and!; done || lia.
  - cbn [cb_sections]. intros cs' st Hcs Hst. apply zget_three in Hst as [ [? ->] | [ [? ->] | [_ ->] ] ]; [done..|].
    repeat (apply elem_of_cons in Hcs as [->|Hcs]; [rewrite ?L0, ?L1, ?L2; lia|]). by apply elem_of_nil in Hcs.
  - cbn [cb_sections]. intros cs' Hcs. apply zget_three in Hcs as [ [-> ->] | [ [-> ->] | [-> ->] ] ].
    + apply (remaining_after _ h0 amount c0 M0); [rewrite S0, L0; lia|rewrite Z0; by apply Hw0].
    + apply (remaining_after _ h1 amount c1 M1); [rewrite S1, L1; lia|rewrite Z1; by apply Hw1].
    + apply (remaining_after _ h2 amount c2 M2); [rewrite S2, L2; lia|rewrite Z2; by apply Hw2].
Qed.
Lemma copy_moved cb cb' hs stubs' mem :
  buffer_ok cb hs → buffer_ok cb' hs → cb_before_expand cb' = chain cb → Forall2 moved (cb_sections cb) (cb_sections cb') →
  (∀ cs', cs' ∈ cb_sections cb' → cs_limit cs' ≤ cs_limit stubs') →
  ∃ mem', copy_code (cb_sections cb) (cb_sections cb') (cs_limit stubs') mem = Some mem' ∧
    (∀ a, Forall (λ cs', allocates cs' a = false) (cb_sections cb') → mem' a = mem a) ∧
    ∀ n cs cs' i, zget (cb_sections cb) n = Some cs → zget (cb_sections cb') n = Some cs' → 0 ≤ i < cs_size cs →
      mem' (cs_start cs' + i) = mem (cs_start cs + i).
Proof using Hk.
  clear Halign. intros (_ & _ & _ & Hs) (Hok' & _ & _ & Hs') Hch Hmv Hlim. pose proof (Z.pow_le_mono_r 2 3 k ltac:(lia) ltac:(lia)) as Hp.
  destruct (copy_code_spec (cb_sections cb) (cb_sections cb') (cs_limit stubs') mem) as (mem' & Hc & Hfr & Hcp).
  - apply Forall2_same_length_lookup_2; [by eapply Forall2_length|]. intros i cs cs' Hi Hi'. destruct (Forall2_lookup_lr _ _ _ _ _ _ Hmv Hi Hi') as (H1 & _ & H2 & H3 & _).
    destruct (Forall2_lookup_l _ _ _ _ _ Hs' Hi') as (h & _ & Hh). destruct (section_size vm_page_size stubs cs' h Hh) as [_ Hr].
    split_and!; try lia. apply Hlim. by eapply list_elem_of_lookup_2.
  - destruct Hok' as ((_ & Hd & _) & _). intros i j ci cj t Hi Hj Hai Haj. apply (inj Z.of_nat), (Hd _ _ ci cj t); [by rewrite zget_nat..|done|done].
  - intros cs d t Hcs Hd Ht. destruct Hok' as (_ & Hdis & _). apply list_elem_of_lookup in Hcs as [i Hi]. destruct (Forall2_lookup_l _ _ _ _ _ Hs Hi) as (h & _ & Hh).
    destruct (section_size vm_page_size stubs cs h Hh) as [He _]. destruct Hh as (_ & _ & Hend & _). apply not_true_is_false. intros Ha.
    assert (allocates cs t = false) as Hf; [|rewrite (proj2 (allocates_spec cs t)) in Hf by lia; done].
    apply (Hdis d cs t Hd); [|by apply allocates_2]. rewrite Hch. unfold chain. cbn [concat]. apply elem_of_app. left. by eapply list_elem_of_lookup_2.
  - exists mem'. split; [done|]. split; [done|]. intros n cs cs' i Hn. pose proof (zget_Some _ _ _ Hn).
    rewrite <- (Z2Nat.id n) in Hn |- * by lia. rewrite zget_nat in Hn |- *. by apply Hcp.
Qed.
End expansion.

(** ** Histories of a buffer *)

Section history.
Context (vm_page_size CodeEntryAlignment : Z) (stubs : list StubCodeDesc).

Definition fresh (cb : CodeBuffer) : Prop :=
  secs_ok (cb_sections cb) ∧ cb_before_expand cb = [] ∧
  Forall (λ cs, cs_end cs = cs_start cs ∧ cs_locs_point cs = cs_start cs ∧ cs_locs_end cs = 0 ∧ cs_start cs ≤ cs_limit cs ∧ small cs) (cb_sections cb).
Definition relocatable (cb : CodeBuffer) (n : Z) (cs : CodeSection) (at_ : Z) (r : Relocation) (l : located) (f : Z) : Prop :=
  zget (cb_sections cb) n = Some cs ∧ is_Some (cs_locs cs) ∧ cs_locs_point cs ≤ at_ ≤ cs_end cs ∧ at_ - cs_locs_point cs < max_gap ∧
  0 ≤ f ≤ format_mask ∧ locates vm_page_size cb n (at_ - cs_start cs) r l.
Definition expandable (cb : CodeBuffer) (amount : Z) (create : Z → option (Z * Z)) : Prop :=
  cb_blob cb = true ∧ Forall (λ cs, cs_limit cs - cs_start cs < 2 ^ 27) (cb_sections cb) ∧ 0 ≤ amount ≤ 2 ^ 27 ∧
  ∀ size b e, create size = Some (b, e) → granted cb size b e.

(** The buffers an assembler can reach, with the relocations recorded in each
    section. *)
Inductive history : CodeBuffer → list (list item) → Prop :=
| hist_start cb : fresh cb → history cb [[]; []; []]
| hist_emit cb hs n cs size cb' :
    history cb hs → zget (cb_sections cb) n = Some cs → 0 ≤ size ≤ cs_remaining cs → emit cb n size = Some cb' → history cb' hs
| hist_relocate cb hs n cs h at_ r l f cb' :
    history cb hs → relocatable cb n cs at_ r l f → zget hs n = Some h → relocate vm_page_size stubs cb n at_ r f = Some cb' →
    history cb' (<[Z.to_nat n := h ++ [mkItem (at_ - cs_start cs) l f]]> hs)
| hist_expand cb hs which amount create cb' :
    history cb hs → expandable cb amount create → expand CodeEntryAlignment cb which amount create = Some cb' → history cb' hs.

Context (k : Z) (Hk : 3 ≤ k ≤ 16) (Halign : alignment CodeEntryAlignment = 2 ^ k).
Local Abbreviation buffer_ok := (buffer_ok vm_page_size stubs).
Local Abbreviation section_ok := (section_ok vm_page_size stubs).

Lemma fresh_ok cb : fresh cb → buffer_ok cb [[]; []; []].
Proof using Type.
  clear Halign Hk k. intros (Hok & Hbe & Hall). destruct cb as [secs before blob]. cbn in *. subst before. unfold buffer_ok, CodeBuffer.buffer_ok, chain, grows. cbn [cb_sections cb_before_expand].
  assert (∀ cs, cs ∈ secs → section_ok cs [] ∧ small cs) as Hsec.
  { rewrite Forall_forall in Hall. intros cs Hcs. destruct (Hall cs Hcs) as (He & Hp & Hle & Hl & Hs). split; [|done]. split_and!; try (done || lia).
    destruct (cs_locs cs) as [junk|] eqn:Hlocs; [right; exists [], junk; split; [done|]; split_and!; [done|constructor|cbn; lia|done]|left; done]. }
  split; [by split_and!; [done| |]; [intros c old t _ Ho; by apply elem_of_nil in Ho|]|]. split; [|split].
  - constructor; [|constructor]. apply Forall_forall. intros cs Hcs. by apply Hsec.
  - intros secs' s old cur [->|Hn%elem_of_nil]%elem_of_cons Ho Hc; [|done]. cbn in *. simplify_eq. lia.
  - destruct Hok as (H3 & _). destruct secs as [|s0 [|s1 [|s2 [|]]]]; try done. apply Forall2_three; apply Hsec; set_solver.
Qed.

Lemma emit_ok cb hs n cs size : buffer_ok cb hs → zget (cb_sections cb) n = Some cs → 0 ≤ size ≤ cs_remaining cs →
  ∃ cb', emit cb n size = Some cb' ∧ buffer_ok cb' hs.
Proof using Type.
  clear Halign Hk k. intros Hok Hn Hs. pose proof Hok as (_ & _ & _ & HF). destruct (zget_Forall2_l _ _ _ _ _ HF Hn) as (h & Hh & Hsec).
  pose proof Hsec as (Hd & Hpt & Hend & Hsm & Hit). unfold small in Hsm.
  assert (cs_remaining cs = cs_limit cs - cs_end cs) as Hrem by (apply wrapS_id; [done|unfold in_s; lia]).
  destruct (update_section_ok vm_page_size stubs cb hs n cs (set_end cs (cs_end cs + size)) h h Hok Hn Hh) as (cb' & Hu & Hok' & _); [done| |].
  { split_and!; cbn; try done; lia. }
  exists cb'. unfold emit. rewrite Hn. split; [done|]. rewrite list_insert_id in Hok'; [done|]. unfold zget in Hh. case_decide; done.
Qed.
Lemma relocate_ok cb hs n cs h at_ r l f : buffer_ok cb hs → relocatable cb n cs at_ r l f → zget hs n = Some h →
  ∃ cb', relocate vm_page_size stubs cb n at_ r f = Some cb' ∧ buffer_ok cb' (<[Z.to_nat n := h ++ [mkItem (at_ - cs_start cs) l f]]> hs).
Proof using Type.
  clear Halign Hk k. intros Hok (Hn & Hl & Hat & Hgap & Hf & Hloc) Hh. pose proof Hok as (Hch & Hsm & Hgr & HF).
  destruct (zget_Forall2_l _ _ _ _ _ HF Hn) as (h' & Hh' & Hsec). rewrite Hh in Hh'. injection Hh' as <-.
  destruct (relocate_section_spec vm_page_size stubs cb n cs h at_ r l f Hch Hsm Hgr Hn Hsec Hl Hat Hgap Hf Hloc) as (cs' & Hr & Hsec' & Hs' & He' & Hl' & _).
  destruct (update_section_ok vm_page_size stubs cb hs n cs cs' h _ Hok Hn Hh ltac:(by split) Hsec') as (cb' & Hu & Hok' & _).
  exists cb'. unfold relocate. rewrite Hn. cbn. rewrite Hr. done.
Qed.
Lemma history_ok cb hs : history cb hs → buffer_ok cb hs.
Proof using Hk Halign.
  induction 1 as [cb Hf|cb hs n cs size cb' _ IH Hn Hs He|cb hs n cs h at_ r l f cb' _ IH Hr Hh He|cb hs which amount create cb' _ IH (Hb & Hc & Ha & Hcr) He].
  - by apply fresh_ok.
  - destruct (emit_ok cb hs n cs size IH Hn Hs) as (cb1 & He1 & Hok). by simplify_eq.
  - destruct (relocate_ok cb hs n cs h at_ r l f IH Hr Hh) as (cb1 & He1 & Hok). by simplify_eq.
  - destruct (expand_spec vm_page_size CodeEntryAlignment stubs k Hk Halign cb hs which amount create IH Hb Hc Ha Hcr) as (cb1 & He1 & Hok & _). by simplify_eq.
Qed.
End history.

(** ** Results *)

(** The relocations of [hs] once the sections start at [starts]. *)
Definition expected (starts : list Z) (hs : list (list item)) : list (Z * Z * Relocation) :=
  concat (imap (λ n h, (λ i, (default 0 (starts !! n) + i_off i, i_format i, bound starts (Z.of_nat n) (i_loc i))) <$> h) hs).
(** The records a client unpacks. *)
Definition unpacked (vm_page_size : Z) (stubs : list StubCodeDesc) (starts : list Z) (rs : list record) : option (list (Z * Z * Relocation)) :=
  mapM (λ r, rel ← unpack_data vm_page_size stubs starts (r_type r) (r_data r) (r_addr r); Some (r_addr r, r_format r, rel)) rs.

Lemma unpacked_section vm_page_size stubs starts n h :
  stubs_ok vm_page_size stubs → zlen starts = 3 → Forall (λ b, 0 ≤ b ∧ b + 2 ^ 28 < 2 ^ 64) starts → (n < 3)%nat → Forall (item_ok vm_page_size) h →
  unpacked vm_page_size stubs starts (shift (default 0 (starts !! n)) <$> (item_record vm_page_size stubs <$> h)) =
  Some ((λ i, (default 0 (starts !! n) + i_off i, i_format i, bound starts (Z.of_nat n) (i_loc i))) <$> h).
Proof.
  intros Hst H3 Hb Hn Hh. unfold unpacked. apply mapM_Some_2. apply Forall2_fmap_l, Forall2_fmap. apply Forall_Forall2_diag.
  eapply Forall_impl; [exact Hh|]. intros i (Hpl & Hoff & _). unfold item_record.
  destruct (located_code vm_page_size stubs (i_off i) (i_loc i)) as [t data] eqn:Hc. unfold shift. cbn [r_type r_data r_addr r_format].
  unfold compose. cbn [r_type r_data r_addr r_format]. rewrite <- (zget_nat starts n). rewrite (unpack_located vm_page_size stubs starts (Z.of_nat n) (i_off i) (i_loc i) t data) by (done || lia). done.
Qed.
Lemma unpacked_app vm_page_size stubs starts l1 l2 x1 x2 :
  unpacked vm_page_size stubs starts l1 = Some x1 → unpacked vm_page_size stubs starts l2 = Some x2 →
  unpacked vm_page_size stubs starts (l1 ++ l2) = Some (x1 ++ x2).
Proof. unfold unpacked. intros H1%mapM_Some H2%mapM_Some. apply mapM_Some. by apply Forall2_app. Qed.

Section claims.
Context (vm_page_size CodeEntryAlignment k : Z) (stubs : list StubCodeDesc).

Lemma filter_all {A} (P : A → Prop) `{∀ x, Decision (P x)} l : Forall P l → filter P l = l.
Proof. induction 1 as [|x l Hx Hl IH]; [done|]. by rewrite filter_cons_True, IH. Qed.
Lemma select_all a es : 0 ≤ a → Forall entry_ok es → filter (selected 0 0) (place a es) = place a es.
Proof.
  intros Ha Hes. apply filter_all, Forall_forall. pose proof (place_ge a es Hes) as Hge. rewrite Forall_forall in Hge.
  intros r Hr. specialize (Hge r Hr). cbn in Hge. unfold selected. lia.
Qed.
Lemma unpacked_copied cb hs content_begin starts :
  stubs_ok vm_page_size stubs → Forall2 (copy_ok vm_page_size stubs) (cb_sections cb) hs → length (cb_sections cb) = 3%nat →
  0 ≤ content_begin → content_begin + 2 ^ 32 < 2 ^ 64 →
  mapM (λ n, Z.add content_begin <$> total_offset_of CodeEntryAlignment cb n) [SECT_CONSTS; SECT_INSTS; SECT_STUBS] = Some starts →
  Forall (λ o, 0 ≤ o < 2 ^ 31) (offsets CodeEntryAlignment (cb_sections cb) 0) →
  unpacked vm_page_size stubs starts (shift content_begin <$> copied vm_page_size stubs (offsets CodeEntryAlignment (cb_sections cb) 0) hs) = Some (expected starts hs).
Proof.
  intros Hst HF H3 Hb0 Hb1 Hstarts Hoffs. cbn [mapM] in Hstarts. rewrite !(total_offset_of_offsets CodeEntryAlignment) in Hstarts.
  set (offs := offsets CodeEntryAlignment (cb_sections cb) 0) in *.
  assert (∃ o0 o1 o2, offs = [o0; o1; o2]) as (o0 & o1 & o2 & Ho).
  { unfold offs. destruct (cb_sections cb) as [|s0 [|s1 [|s2 [|]]]]; try done. cbn [offsets]. eauto. }
  clearbody offs. subst offs. cbn in Hstarts. injection Hstarts as <-. set (starts := [_; _; _]).
  destruct (cb_sections cb) as [|s0 [|s1 [|s2 [|]]]]; try done. apply Forall2_cons_inv_l in HF as (h0 & hs1 & [(_ & _ & _ & _ & I0) _] & HF & ->).
  apply Forall2_cons_inv_l in HF as (h1 & hs2 & [(_ & _ & _ & _ & I1) _] & HF & ->). apply Forall2_cons_inv_l in HF as (h2 & hs3 & [(_ & _ & _ & _ & I2) _] & HF & ->).
  apply Forall2_nil_inv_l in HF as ->. apply Forall_cons in Hoffs as [O0 Hoffs]. apply Forall_cons in Hoffs as [O1 Hoffs]. apply Forall_cons in Hoffs as [O2 _].
  assert (Forall (λ b, 0 ≤ b ∧ b + 2 ^ 28 < 2 ^ 64) starts) as Hb by (unfold starts; repeat (constructor; [lia|]); constructor).
  unfold copied, expected. cbn [zip_with imap concat]. rewrite !fmap_app, !app_nil_r. 
  assert (∀ o (h : list item), shift content_begin <$> (shift o <$> (item_record vm_page_size stubs <$> h)) = shift (content_begin + o) <$> (item_record vm_page_size stubs <$> h)) as Hsh.
  { intros o h. rewrite <- list_fmap_compose. apply list_fmap_ext. intros _ r _. unfold compose, shift. cbn. f_equal. lia. }
  rewrite !Hsh. pose proof (unpacked_section vm_page_size stubs starts) as Hu.
  apply unpacked_app; [exact (Hu 0%nat h0 Hst eq_refl Hb ltac:(lia) I0)|].
  apply unpacked_app; [exact (Hu 1%nat h1 Hst eq_refl Hb ltac:(lia) I1)|exact (Hu 2%nat h2 Hst eq_refl Hb ltac:(lia) I2)].
Qed.

(** C5: relocations survive assembly. Take any code buffer that an assembler
    reaches by emitting code, recording relocations and expanding, where an
    operand may be an address it got before any number of expansions. The sizing
    pass gives a size into which the relocations of all sections fit. The copy
    into a code blob of that size stays inside it, and iterating over the result
    yields, besides fillers, exactly the recorded relocations in order, each at
    its place in the final layout and with its operands moved to theirs. *)
Theorem relocations_survive cb hs content_begin starts lsize :
  3 ≤ k ≤ 16 → alignment CodeEntryAlignment = 2 ^ k → stubs_ok vm_page_size stubs →
  history vm_page_size CodeEntryAlignment stubs cb hs →
  (∀ n cs, zget (cb_sections cb) n = Some cs → is_empty cs = true → zget hs n = Some []) →
  0 ≤ content_begin → content_begin + 2 ^ 32 < 2 ^ 64 →
  mapM (λ n, Z.add content_begin <$> total_offset_of CodeEntryAlignment cb n) [SECT_CONSTS; SECT_INSTS; SECT_STUBS] = Some starts →
  copy_relocations_to CodeEntryAlignment cb None = Some (None, lsize) → lsize < 2 ^ 31 →
  total_relocation_size CodeEntryAlignment cb = Some lsize ∧ ∀ dest, 2 * zlen dest = lsize →
  ∃ buf it rs, copy_relocations_to CodeEntryAlignment cb (Some dest) = Some (Some buf, lsize) ∧
    RelocIterator_new buf (S (length buf)) content_begin (zlen buf) 0 0 = Some it ∧ iterate buf (S (length buf)) it = Some rs ∧
    unpacked vm_page_size stubs starts (filter real rs) = Some (expected starts hs).
Proof.
  intros Hk Hal Hst Hh Hemp Hb0 Hb1 Hstarts Hdry Hsz. pose proof (history_ok _ _ _ k Hk Hal cb hs Hh) as (Hch & _ & _ & HF). destruct Hch as ((H3 & _) & _).
  assert (Forall2 (copy_ok vm_page_size stubs) (cb_sections cb) hs) as HF'.
  { apply Forall2_same_length_lookup_2; [by eapply Forall2_length|]. intros i cs h Hi Hhi. pose proof (Forall2_lookup_lr _ _ _ _ _ _ HF Hi Hhi). split; [done|].
    intros He. pose proof (Hemp (Z.of_nat i) cs) as Hz. rewrite !zget_nat in Hz. rewrite Hhi in Hz. specialize (Hz Hi He). congruence. }
  destruct (copy_relocations_spec vm_page_size CodeEntryAlignment stubs k Hk Hal cb hs HF' H3) as (es & lsize' & Hls & Hmod & Hok & Hf & Hdry' & Hcopy).
  rewrite Hdry in Hdry'. injection Hdry' as ->. split.
  { unfold total_relocation_size. rewrite Hdry. cbn. f_equal. change HeapWordSize with (2 ^ 3). rewrite align_size_up_spec by (unfold zlen in *; lia).
    rewrite round_to_spec by lia. change (2 ^ 3) with 8. Z.div_mod_to_equations. lia. }
  intros dest Hd. rewrite (Hcopy dest) by lia. assert (length dest = length (stream es)) as -> by (unfold zlen in *; lia). rewrite Nat.sub_diag, app_nil_r.
  destruct (relocation_iterator_range es [] content_begin 0 0 (S (length (stream es))) Hok) as (it & Hnew & Hit); [pose proof (stream_length es); lia|done|].
  rewrite app_nil_r in Hnew, Hit. eexists _, it, _. split; [done|]. split; [exact Hnew|]. split; [exact Hit|].
  rewrite (select_all content_begin es), <- (Z.add_0_r content_begin), place_shift, filter_real_shift, Hf by done.
  apply (unpacked_copied cb hs content_begin starts); try done. eapply offsets_bounds; [done..|lia|]. unfold zlen. rewrite H3. lia.
Qed.

Lemma locator_fields pos sect : 0 ≤ pos < 2 ^ 28 → 0 ≤ sect < 4 →
  0 ≤ locator_of pos sect ∧ locator_pos (locator_of pos sect) = pos ∧ locator_sect (locator_of pos sect) = sect.
Proof.
  intros Hp Hs. unfold locator_of, locator_pos, locator_sect, sect_mask, sect_bits.
  rewrite wrapS_id; [|done|rewrite Z.shiftl_mul_pow2 by lia; unfold in_s; lia].
  rewrite Z.lor_comm, (lor_shiftl_add 2) by (unfold in_u; lia). change (Z.shiftl 1 2 - 1) with (Z.ones 2).
  rewrite Z.land_ones, Z.shiftr_div_pow2 by lia. Z.div_mod_to_equations. lia.
Qed.
(** A locator names the same place in any buffer with the sections moved. *)
Lemma locator_moved cb cb' n cs cs' t :
  secs_ok (cb_sections cb) → small cs → zget (cb_sections cb) n = Some cs → allocates cs t = true → zget (cb_sections cb') n = Some cs' →
  locator_address cb' (locator cb t) = Some (cs_start cs' + (t - cs_start cs)).
Proof.
  intros Hok Hsm Hn Ha Hn'. pose proof (zget_Some _ _ _ Hn) as Hr. pose proof Hok as (H3 & _). unfold zlen in Hr. rewrite H3 in Hr.
  unfold locator. rewrite (section_index_found _ n cs t Hok Hn Ha). apply allocates_spec in Ha. unfold small in Hsm.
  rewrite Hn, wrapS_id by (done || unfold in_s; lia).
  destruct (locator_fields (t - cs_start cs) n) as (H0 & Hp & Hs); [lia..|]. unfold locator_address. rewrite (proj2 (Z.ltb_ge _ 0)) by lia. by rewrite Hs, Hp, Hn'.
Qed.

(** C19: when a section runs out of room, [expand] gives it at least the amount
    asked for, or the code cache is full and the buffer loses its blob and
    nothing else. The sections of the new buffer are disjoint and aligned and
    keep their relocation words, and every byte of code in an old section has
    been copied to its place in the new one, by word copies that pass the
    assertions of [relocate_code_to] and write to no address outside the new
    sections. Labels keep their meaning: the locator of an address names the
    moved address, and every address the assembler got from this buffer or an
    earlier one is translated to its place in the new one. The addresses inside
    the copied instructions are repaired later, by code that is not modelled. *)
Theorem code_buffer_expansion cb hs which amount create mem :
  3 ≤ k ≤ 16 → alignment CodeEntryAlignment = 2 ^ k → history vm_page_size CodeEntryAlignment stubs cb hs → expandable cb amount create →
  ∃ cb' mem', expand_code CodeEntryAlignment cb which amount create mem = Some (cb', mem') ∧
    ((cb_blob cb' = false ∧ cb_sections cb' = cb_sections cb ∧ cb_before_expand cb' = cb_before_expand cb ∧ mem' = mem) ∨
     (cb_blob cb' = true ∧ secs_ok (cb_sections cb') ∧ Forall2 (moved k) (cb_sections cb) (cb_sections cb') ∧
      (∀ cs', zget (cb_sections cb') which = Some cs' → amount ≤ cs_remaining cs') ∧
      (∀ n cs cs' i, zget (cb_sections cb) n = Some cs → zget (cb_sections cb') n = Some cs' → 0 ≤ i < cs_size cs →
        mem' (cs_start cs' + i) = mem (cs_start cs + i)) ∧
      (∀ a, Forall (λ cs', allocates cs' a = false) (cb_sections cb') → mem' a = mem a) ∧
      (∀ n cs cs' t, zget (cb_sections cb) n = Some cs → zget (cb_sections cb') n = Some cs' → allocates cs t = true →
        locator_address cb' (locator cb t) = Some (cs_start cs' + (t - cs_start cs))) ∧
      (∀ t s off cs' dest, denotes cb t s off → zget (cb_sections cb') s = Some cs' → dest ∈ cb_sections cb' →
        normalize_address cb' t dest = Some (cs_start cs' + off)))).
Proof.
  intros Hk Hal Hh (Hb & Hc & Ha & Hcr). pose proof (history_ok _ _ _ k Hk Hal cb hs Hh) as Hok. unfold expand_code.
  destruct (expand_spec vm_page_size CodeEntryAlignment stubs k Hk Hal cb hs which amount create Hok Hb Hc Ha Hcr) as (cb' & -> & Hok' & Hres).
  cbn [mbind option_bind]. destruct Hres as [(Hbl & ? & ?)|(Hbl & Hch & Hmv & Hlim & Hrem)]; rewrite Hbl; [exists cb', mem; split; [done|by left]|].
  pose proof Hok' as (((H3 & _) & _) & _). destruct (zget_is_Some (cb_sections cb') SECT_STUBS) as [st Hst]; [unfold zlen; by rewrite H3|]. rewrite Hst. cbn [mbind option_bind].
  destruct (copy_moved _ _ k Hk cb cb' hs st mem Hok Hok' Hch Hmv (λ c Hc, Hlim c st Hc Hst)) as (mem' & -> & Hfr & Hcp).
  exists cb', mem'. split; [done|]. right. destruct Hok as (Hch0 & Hsm & _), Hok' as (Hch' & _). repeat (split; [done || apply Hch'|]). split.
  - intros n cs cs' t Hn Hn' Hat. apply (locator_moved cb cb' n); [apply Hch0| |done..]. apply Forall_cons in Hsm as [Hsm _]. rewrite Forall_forall in Hsm. by apply Hsm, zget_elem with n.
  - intros t s off cs' dest (secs & c & Hin & Hd) Hs Hdest. apply (normalize_denotes _ _ s); [done| |done..]. exists secs, c. split; [|done].
    unfold chain at 1. rewrite Hch. by right.
Qed.
End claims.

(** An assembler at work: two relocations, an expansion, and two more of which
    one names an instruction by the address it had before. *)
Definition demo_stubs : list StubCodeDesc := [mkStub 1 8323072 8323136].
Definition demo_section (start limit : Z) : CodeSection := mkSection start 0 start limit (Some [0; 0; 0; 0]) 0 start.
Definition demo0 : CodeBuffer := mkBuffer [demo_section 66048 66304; demo_section 65536 66000; demo_section 66560 66816] [] true.
Definition demo_create (size : Z) : option (Z * Z) :=
  if (0 <=? size) && (size <? 134217728) then Some (131080, 131080 + size) else None.
Definition demo1 : CodeBuffer := Eval vm_compute in default demo0 (emit demo0 1 32).
Definition demo2 : CodeBuffer := Eval vm_compute in default demo0 (relocate 4096 demo_stubs demo1 1 65544 (oop_Relocation 5 70000) 0).
Definition demo3 : CodeBuffer := Eval vm_compute in default demo0 (relocate 4096 demo_stubs demo2 1 65552 (virtual_call_Relocation 65540) 1).
Definition demo4 : CodeBuffer := Eval vm_compute in default demo0 (expand 16 demo3 1 4096 demo_create).
Definition demo5 : CodeBuffer := Eval vm_compute in default demo0 (emit demo4 2 24).
Definition demo_stub_start : Z := Eval vm_compute in default 0 (cs_start <$> zget (cb_sections demo5) 2).
Definition demo6 : CodeBuffer := Eval vm_compute in default demo0 (relocate 4096 demo_stubs demo5 2 (demo_stub_start + 2) (internal_word_Relocation 65552) 0).
Definition demo7 : CodeBuffer := Eval vm_compute in default demo0 (relocate 4096 demo_stubs demo6 2 (demo_stub_start + 12) (external_word_Relocation 8323072) 2).
Definition demo_items : list (list item) :=
  [[]; [mkItem 8 (L_oop 5 70000) 0; mkItem 16 (L_virtual_call 4) 1]; [mkItem 2 (L_section 16 1) 0; mkItem 12 (L_external 8323072) 2]].

Lemma demo_separate : chain_ok (chain demo0).
Proof.
  split_and!; [|by intros c old t _ Ho%elem_of_nil|done]. split_and!; [done| |].
  - intros i j ci cj t Hi Hj Hai%allocates_spec Haj%allocates_spec.
    destruct (zget_three _ _ _ _ _ Hi) as [ [-> ->] | [ [-> ->] | [-> ->] ] ], (zget_three _ _ _ _ _ Hj) as [ [-> ->] | [ [-> ->] | [-> ->] ] ]; cbn in *; done || lia.
  - intros c t Hc Ha%allocates_spec. repeat (apply elem_of_cons in Hc as [->|Hc]; [cbn in Ha; lia|]). by apply elem_of_nil in Hc.
Qed.
Lemma demo_relocate cb hs n cs h at_ r l f cb' hs' :
  history 4096 16 demo_stubs cb hs → zget (cb_sections cb) n = Some cs →
  bool_decide (is_Some (cs_locs cs)) && (cs_locs_point cs <=? at_) && (at_ <=? cs_end cs) && (at_ - cs_locs_point cs <? 4194304) && (0 <=? f) && (f <=? 3) = true →
  locates 4096 cb n (at_ - cs_start cs) r l → zget hs n = Some h → relocate 4096 demo_stubs cb n at_ r f = Some cb' →
  hs' = <[Z.to_nat n := h ++ [mkItem (at_ - cs_start cs) l f]]> hs → history 4096 16 demo_stubs cb' hs'.
Proof.
  intros Hh Hn Hb Hl Hhn Hr ->. repeat (apply andb_prop in Hb as [Hb ?%Z.leb_le]) || (apply andb_prop in Hb as [Hb ?]).
  repeat match goal with H : _ && _ = true |- _ => apply andb_prop in H as [? ?] end.
  eapply hist_relocate; [done| |done|done]. split; [done|]. split; [by eapply bool_decide_eq_true|]. change format_mask with 3. unfold max_gap. split_and!; try done; lia.
Qed.
Ltac demo_relocated H n at_ r l f :=
  eapply (demo_relocate _ _ n _ _ at_ r l f _ _ H);
  [reflexivity|reflexivity|constructor|reflexivity|vm_compute; reflexivity|reflexivity].
Lemma demo_history3 : history 4096 16 demo_stubs demo3 [[]; [mkItem 8 (L_oop 5 70000) 0; mkItem 16 (L_virtual_call 4) 1]; []].
Proof.
  assert (history 4096 16 demo_stubs demo0 [[]; []; []]) as H0.
  { apply hist_start. split; [apply demo_separate|]. split; [done|]. repeat (constructor; [by vm_compute|]). constructor. }
  assert (history 4096 16 demo_stubs demo1 [[]; []; []]) as H1 by (eapply (hist_emit _ _ _ _ _ 1 _ 32 _ H0); [done|vm_compute; done|done]).
  assert (history 4096 16 demo_stubs demo2 [[]; [mkItem 8 (L_oop 5 70000) 0]; []]) as H2
    by (demo_relocated H1 1 65544 (oop_Relocation 5 70000) (L_oop 5 70000) 0; done).
  demo_relocated H2 1 65552 (virtual_call_Relocation 65540) (L_virtual_call 4) 1; [|done].
  eexists _, _. split; [left|]. split; [reflexivity|done].
Qed.
Lemma demo_expandable : expandable demo3 4096 demo_create.
Proof.
  split; [done|]. split; [repeat (constructor; [done|]); constructor|].
  split; [done|]. intros size b e. unfold demo_create. destruct (Z.leb_spec 0 size), (Z.ltb_spec size 134217728); cbn [andb]; try done. intros [= <- <-].
  split; [done|]. split; [lia|]. intros old t Ho Ht. destruct (allocates old t) eqn:Ha; [|done]. apply allocates_spec in Ha.
  repeat (apply elem_of_cons in Ho as [->|Ho]; [cbn in Ha; lia|]). by apply elem_of_nil in Ho.
Qed.
Lemma demo_history : history 4096 16 demo_stubs demo7 demo_items.
Proof.
  assert (history 4096 16 demo_stubs demo4 [[]; [mkItem 8 (L_oop 5 70000) 0; mkItem 16 (L_virtual_call 4) 1]; []]) as H4
    by (eapply (hist_expand _ _ _ _ _ 1 4096 demo_create _ demo_history3); [apply demo_expandable|vm_compute; reflexivity]).
  assert (history 4096 16 demo_stubs demo5 [[]; [mkItem 8 (L_oop 5 70000) 0; mkItem 16 (L_virtual_call 4) 1]; []]) as H5
    by (eapply (hist_emit _ _ _ _ _ 2 _ 24 _ H4); [done|vm_compute; done|done]).
  assert (history 4096 16 demo_stubs demo6 [[]; [mkItem 8 (L_oop 5 70000) 0; mkItem 16 (L_virtual_call 4) 1]; [mkItem 2 (L_section 16 1) 0]]) as H6.
  { eapply (demo_relocate _ _ 2 _ _ (demo_stub_start + 2) (internal_word_Relocation 65552) (L_section 16 1) 0 _ _ H5);
      [reflexivity|reflexivity|apply loc_internal_other; [|done]|reflexivity|vm_compute; reflexivity|reflexivity].
    eexists _, _. split; [right; left|]. split; [reflexivity|done]. }
  demo_relocated H6 2 (demo_stub_start + 12) (external_word_Relocation 8323072) (L_external 8323072) 2; done.
Qed.

Lemma relocations_survive_witness :
  ∃ buf it rs, copy_relocations_to 16 demo7 (Some (replicate 16 7)) = Some (Some buf, 32) ∧
    RelocIterator_new buf (S (length buf)) 2000000 (zlen buf) 0 0 = Some it ∧ iterate buf (S (length buf)) it = Some rs ∧
    unpacked 4096 demo_stubs [2000000; 2000000; 2000032] (filter real rs) =
    Some [(2000008, 0, oop_Relocation 5 70000); (2000016, 1, virtual_call_Relocation 2000004);
          (2000034, 0, section_word_Relocation 2000016 1); (2000044, 2, external_word_Relocation 8323072)].
Proof.
  destruct (relocations_survive 4096 16 4 demo_stubs demo7 demo_items 2000000 [2000000; 2000000; 2000032] 32) as [_ Hall].
  - lia.
  - reflexivity.
  - split; [repeat constructor; by intros ?%elem_of_nil|]. split; [by repeat constructor|done].
  - apply demo_history.
  - intros n cs Hn He. apply zget_three in Hn as [ [-> ->] | [ [-> ->] | [-> ->] ] ]; [reflexivity|discriminate He..].
  - lia.
  - lia.
  - vm_compute. reflexivity.
  - vm_compute. reflexivity.
  - lia.
  - destruct (Hall (replicate 16 7) eq_refl) as (buf & it & rs & H1 & H2 & H3 & H4). exists buf, it, rs. split; [exact H1|]. split; [exact H2|]. split; [exact H3|].
    rewrite H4. vm_compute. reflexivity.
Defined.
Example code_buffer_expansion_witness :
  ∃ cb' mem', expand_code 16 demo3 1 4096 demo_create (λ a, a) = Some (cb', mem') ∧
    (∀ cs', zget (cb_sections cb') 1 = Some cs' → 4096 ≤ cs_remaining cs') ∧
    locator_address cb' (locator demo3 65544) = Some 131096 ∧ mem' 131096 = 65544 ∧ mem' 65544 = 65544.
Proof.
  destruct (code_buffer_expansion 4096 16 4 demo_stubs demo3 [[]; [mkItem 8 (L_oop 5 70000) 0; mkItem 16 (L_virtual_call 4) 1]; []] 1 4096 demo_create (λ a, a))
    as (cb' & mem' & He & Hr).
  - lia.
  - reflexivity.
  - apply demo_history3.
  - apply demo_expandable.
  - exists cb', mem'. split; [exact He|]. unfold expand_code in He. change (expand 16 demo3 1 4096 demo_create) with (Some demo4) in He. cbn [mbind option_bind] in He.
    change (cb_blob demo4) with true in He. destruct (zget _ SECT_STUBS); [|discriminate He]. cbn [mbind option_bind] in He. destruct (copy_code _ _ _ _) as [m|]; [|discriminate He].
    injection He as <- <-. destruct Hr as [(Hb & _)|(_ & _ & _ & Hrem & Hcopy & Hframe & Hloc & _)]; [discriminate Hb|].
    split; [exact Hrem|]. rewrite (Hloc 1 _ _ 65544 eq_refl eq_refl eq_refl). split; [reflexivity|].
    split; [apply (Hcopy 1 _ _ 8 eq_refl eq_refl); vm_compute; split; [discriminate|reflexivity]|apply Hframe; repeat constructor].
Defined.
