(* ===== verification/TaskQueue.v ===== *)
(** * Work-stealing task queues

    utilities/taskqueue.hpp and utilities/taskqueue.cpp: the double-ended queue of
    Arora, Blumofe and Plaxton that the parallel collectors share their work
    with. The owner pushes and pops at the bottom, other threads steal from the
    top. A method is a program of loads, stores and compare-and-exchanges of the
    fields; an execution interleaves these, and each load sees the last store
    (sequential consistency: the fences of the source are not needed here). *)

From stdpp Require Import base numbers list gmap.
From S2P Require Import Prelude.
Local Open Scope Z_scope.

(** ** Fields and programs *)

(** [Age]: the two halves of one word. *)
Record Age := mkAge { age_top : Z; age_tag : Z }.
#[export] Instance Age_eq_dec : EqDecision Age.
Proof. solve_decision. Defined.

Inductive prog (E R : Type) :=
| Ret (r : R)
| ReadBottom (k : Z → prog E R)
| WriteBottom (v : Z) (k : prog E R)
| ReadAge (k : Age → prog E R)
| SetAge (a : Age) (k : prog E R)
| CasAge (new_age old_age : Age) (k : Age → prog E R)
| ReadElem (i : Z) (k : E → prog E R)
| WriteElem (i : Z) (v : E) (k : prog E R).
Arguments Ret {E R} r.
Arguments ReadBottom {E R} k.
Arguments WriteBottom {E R} v k.
Arguments ReadAge {E R} k.
Arguments SetAge {E R} a k.
Arguments CasAge {E R} new_age old_age k.
Arguments ReadElem {E R} i k.
Arguments WriteElem {E R} i v k.

(** The queue in memory. [q_tags] is not in the program: it counts how often the
    tag was changed. *)
Record queue (E : Type) := mkQueue { q_bottom : Z; q_age : Age; q_elems : list E; q_tags : Z }.
Arguments mkQueue {E} q_bottom q_age q_elems q_tags.
Arguments q_bottom {E} _.
Arguments q_age {E} _.
Arguments q_elems {E} _.
Arguments q_tags {E} _.

Section actions.
Context {E : Type}.

Definition set_bottom (v : Z) (m : queue E) : queue E := mkQueue v (q_age m) (q_elems m) (q_tags m).
Definition set_age (a : Age) (m : queue E) : queue E :=
  mkQueue (q_bottom m) a (q_elems m) (if age_tag a =? age_tag (q_age m) then q_tags m else q_tags m + 1).
Definition set_elems (l : list E) (m : queue E) : queue E := mkQueue (q_bottom m) (q_age m) l (q_tags m).

(** One access. An index outside the array has no step. *)
Definition act {R} (p : prog E R) (m : queue E) : option (prog E R * queue E) :=
  match p with
  | Ret _ => None
  | ReadBottom k => Some (k (q_bottom m), m)
  | WriteBottom v k => Some (k, set_bottom v m)
  | ReadAge k => Some (k (q_age m), m)
  | SetAge a k => Some (k, set_age a m)
  | CasAge new_age old_age k => Some (k (q_age m), if decide (q_age m = old_age) then set_age new_age m else m)
  | ReadElem i k => x ← zget (q_elems m) i; Some (k x, m)
  | WriteElem i v k => l ← zset (q_elems m) i v; Some (k, set_elems l m)
  end.

(** A method that runs alone. *)
Fixpoint run {R} (p : prog E R) (m : queue E) : option (R * queue E) :=
  match p with
  | Ret r => Some (r, m)
  | ReadBottom k => run (k (q_bottom m)) m
  | WriteBottom v k => run k (set_bottom v m)
  | ReadAge k => run (k (q_age m)) m
  | SetAge a k => run k (set_age a m)
  | CasAge new_age old_age k => run (k (q_age m)) (if decide (q_age m = old_age) then set_age new_age m else m)
  | ReadElem i k => match zget (q_elems m) i with Some x => run (k x) m | None => None end
  | WriteElem i v k => match zset (q_elems m) i v with Some l => run k (set_elems l m) | None => None end
  end.
End actions.

(** ** TaskQueueSuper and GenericTaskQueue *)

Section methods.
Context {E : Type} (N : Z).

Definition MOD_N_MASK : Z := N - 1.
Definition increment_index (ind : Z) : Z := Z.land (u32 (ind + 1)) MOD_N_MASK.
Definition decrement_index (ind : Z) : Z := Z.land (u32 (ind - 1)) MOD_N_MASK.
Definition dirty_size (bot top : Z) : Z := Z.land (u32 (bot - top)) MOD_N_MASK.
Definition size (bot top : Z) : Z := let sz := dirty_size bot top in if sz =? N - 1 then 0 else sz.
Definition max_elems : Z := N - 2.

Definition increment (a : Age) : Age :=
  let top := increment_index (age_top a) in
  mkAge top (if top =? 0 then u32 (age_tag a + 1) else age_tag a).

Definition peek (m : queue E) : bool := negb (q_bottom m =? age_top (q_age m)).
Definition queue_size (m : queue E) : Z := size (q_bottom m) (age_top (q_age m)).
Definition is_empty (m : queue E) : bool := queue_size m =? 0.
Definition set_empty : prog E unit := WriteBottom 0 (SetAge (mkAge 0 0) (Ret tt)).

(** The closure is applied to the tasks in this order. *)
Fixpoint oops_do_loop (iters : nat) (index : Z) (elems : list E) : option (list E) :=
  match iters with
  | O => Some []
  | S iters' =>
      let index := decrement_index index in
      t ← zget elems index; ts ← oops_do_loop iters' index elems; Some (t :: ts)
  end.
Definition oops_do (m : queue E) : option (list E) := oops_do_loop (Z.to_nat (queue_size m)) (q_bottom m) (q_elems m).

Definition push_slow (t : E) (dirty_n_elems : Z) : prog E bool :=
  if dirty_n_elems =? N - 1 then
    ReadBottom (λ localBot,
    WriteElem localBot t (
    WriteBottom (increment_index localBot) (
    Ret true)))
  else Ret false.

Definition push (t : E) : prog E bool :=
  ReadBottom (λ localBot,
  ReadAge (λ age,
  let dirty_n_elems := dirty_size localBot (age_top age) in
  if dirty_n_elems <? max_elems then
    WriteElem localBot t (
    WriteBottom (increment_index localBot) (
    Ret true))
  else push_slow t dirty_n_elems)).

(** The reference argument [t] of the pops is the result. *)
Definition pop_local_slow (t : E) (localBot : Z) (oldAge : Age) : prog E (option E) :=
  let newAge := mkAge localBot (u32 (age_tag oldAge + 1)) in
  let lose := SetAge newAge (Ret None) in
  if localBot =? age_top oldAge then
    CasAge newAge oldAge (λ tempAge, if decide (tempAge = oldAge) then Ret (Some t) else lose)
  else lose.

Definition pop_local : prog E (option E) :=
  ReadBottom (λ localBot,
  ReadAge (λ age,
  let dirty_n_elems := dirty_size localBot (age_top age) in
  if dirty_n_elems =? 0 then Ret None
  else
    let localBot := decrement_index localBot in
    WriteBottom localBot (
    ReadElem localBot (λ t,
    ReadAge (λ age,
    if 0 <? size localBot (age_top age) then Ret (Some t)
    else ReadAge (λ oldAge, pop_local_slow t localBot oldAge)))))).

Definition pop_global : prog E (option E) :=
  ReadAge (λ oldAge,
  ReadBottom (λ localBot,
  let n_elems := size localBot (age_top oldAge) in
  if n_elems =? 0 then Ret None
  else
    ReadElem (age_top oldAge) (λ t,
    let newAge := increment oldAge in
    CasAge newAge oldAge (λ resAge, Ret (if decide (resAge = oldAge) then Some t else None))))).

(** ** Threads *)

Inductive owner := Idle | Pushing (t : E) (p : prog E bool) | Popping (p : prog E (option E)).

Record config := mkConfig { c_queue : queue E; c_owner : owner; c_thieves : gmap nat (prog E (option E)) }.

Inductive event :=
| Pushed (t : E) (ok : bool)
| Popped (r : option E)
| Stolen (thief : nat) (r : option E).

Definition owner_of_push (t : E) (p : prog E bool) : owner * list event :=
  match p with Ret ok => (Idle, [Pushed t ok]) | _ => (Pushing t p, []) end.
Definition owner_of_pop (p : prog E (option E)) : owner * list event :=
  match p with Ret r => (Idle, [Popped r]) | _ => (Popping p, []) end.
Definition thieves_of (i : nat) (p : prog E (option E)) (th : gmap nat (prog E (option E))) : gmap nat (prog E (option E)) * list event :=
  match p with Ret r => (delete i th, [Stolen i r]) | _ => (<[i := p]> th, []) end.

(** A call starts, or a thread makes one access; the access that ends a call shows
    its result. *)
Inductive step : config → list event → config → Prop :=
| start_push m th t : step (mkConfig m Idle th) [] (mkConfig m (Pushing t (push t)) th)
| start_pop m th : step (mkConfig m Idle th) [] (mkConfig m (Popping pop_local) th)
| start_steal m o th i : th !! i = None → step (mkConfig m o th) [] (mkConfig m o (<[i := pop_global]> th))
| step_push m th t p p' m' : act p m = Some (p', m') →
    step (mkConfig m (Pushing t p) th) (owner_of_push t p').2 (mkConfig m' (owner_of_push t p').1 th)
| step_pop m th p p' m' : act p m = Some (p', m') →
    step (mkConfig m (Popping p) th) (owner_of_pop p').2 (mkConfig m' (owner_of_pop p').1 th)
| step_steal m o th i p p' m' : th !! i = Some p → act p m = Some (p', m') →
    step (mkConfig m o th) (thieves_of i p' th).2 (mkConfig m' o (thieves_of i p' th).1).

Inductive execution (c : config) : list event → config → Prop :=
| exec_nil : execution c [] c
| exec_step tr c1 e c2 : execution c tr c1 → step c1 e c2 → execution c (tr ++ e) c2.

(** ** The abstract queue: the oldest task first *)

Inductive spec_step : list E → event → list E → Prop :=
| spec_push q t : Z.of_nat (length q) < max_elems → spec_step q (Pushed t true) (q ++ [t])
| spec_full q t : Z.of_nat (length q) = max_elems → spec_step q (Pushed t false) q
| spec_pop q t : spec_step (q ++ [t]) (Popped (Some t)) q
| spec_empty : spec_step [] (Popped None) []
| spec_steal q t i : spec_step (t :: q) (Stolen i (Some t)) q
| spec_no_steal q i : spec_step q (Stolen i None) q.

Inductive spec_run (q : list E) : list event → list E → Prop :=
| run_nil : spec_run q [] q
| run_snoc tr q1 e q2 : spec_run q tr q1 → spec_step q1 e q2 → spec_run q (tr ++ [e]) q2.
End methods.

(** ** Indexes *)

Section ring.
Context (N k : Z) (Hk : 2 ≤ k ≤ 31) (HN : N = 2 ^ k).

Lemma N_range : 4 ≤ N ≤ 2 ^ 31.
Proof. rewrite HN. split; [apply (Z.pow_le_mono_r 2 2)|apply Z.pow_le_mono_r]; lia. Qed.
Lemma mask_mod x : Z.land (u32 x) (N - 1) = x mod N.
Proof.
  rewrite HN. replace (2 ^ k - 1) with (Z.ones k) by (rewrite Z.ones_equiv; lia). rewrite Z.land_ones by lia.
  unfold wrapU. replace 32 with (k + (32 - k)) by lia. rewrite Z.pow_add_r by lia.
  rewrite Z.rem_mul_r by (try apply Z.pow_pos_nonneg; try apply Z.pow_nonzero; lia).
  rewrite Z.add_mod, (Z.mul_comm (2 ^ k)), Z.mod_mul, Z.add_0_r, !Z.mod_mod by (apply Z.pow_nonzero; lia). done.
Qed.
Lemma mod_add a b : 0 ≤ a < N → 0 ≤ b < N → (a + b) mod N = if a + b <? N then a + b else a + b - N.
Proof.
  intros Ha Hb. pose proof N_range. destruct (Z.ltb_spec (a + b) N); [apply Z.mod_small; lia|].
  symmetry. apply (Z.mod_unique_pos _ _ 1); lia.
Qed.
Lemma mod_sub a b : 0 ≤ a < N → 0 ≤ b < N → (a - b) mod N = if b <=? a then a - b else a - b + N.
Proof.
  intros Ha Hb. pose proof N_range. destruct (Z.leb_spec b a); [apply Z.mod_small; lia|].
  symmetry. apply (Z.mod_unique_pos _ _ (-1)); lia.
Qed.
Lemma increment_index_eq i : 0 ≤ i < N → increment_index N i = if i + 1 =? N then 0 else i + 1.
Proof.
  intros Hi. pose proof N_range. unfold increment_index, MOD_N_MASK. rewrite mask_mod, mod_add by lia.
  destruct (Z.ltb_spec (i + 1) N), (Z.eqb_spec (i + 1) N); lia.
Qed.
Lemma decrement_index_eq i : 0 ≤ i < N → decrement_index N i = if i =? 0 then N - 1 else i - 1.
Proof.
  intros Hi. pose proof N_range. unfold decrement_index, MOD_N_MASK. rewrite mask_mod, mod_sub by lia.
  destruct (Z.leb_spec 1 i), (Z.eqb_spec i 0); lia.
Qed.
Lemma dirty_size_eq b t : 0 ≤ b < N → 0 ≤ t < N → dirty_size N b t = if t <=? b then b - t else b - t + N.
Proof. intros Hb Ht. unfold dirty_size, MOD_N_MASK. rewrite mask_mod. by apply mod_sub. Qed.
End ring.

(** ** Invariant *)

Section invariant.
Context {E : Type} (N k : Z) (Hk : 2 ≤ k ≤ 31) (HN : N = 2 ^ k).
Implicit Types (m : queue E) (q : list E) (a : Age).
Local Abbreviation top m := (age_top (q_age m)).
Local Abbreviation len q := (Z.of_nat (length q)).

(** The index [i] places behind [t]. *)
Definition slot (t i : Z) : Z := if t + i <? N then t + i else t + i - N.

(** The memory holds [q] from the top on. *)
Record queue_ok m q : Prop := {
  qo_elems : zlen (q_elems m) = N;
  qo_top : 0 ≤ top m < N;
  qo_len : len q ≤ N - 2;
  qo_held : ∀ i x, q !! i = Some x → zget (q_elems m) (slot (top m) (Z.of_nat i)) = Some x;
  qo_tag : age_tag (q_age m) = q_tags m ∧ 0 ≤ q_tags m
}.

(** [_bottom] is behind the last task, or on it while a pop is under way. *)
Definition normal m q : Prop := q_bottom m = slot (top m) (len q).
Definition pending m q : Prop := 0 ≤ q_bottom m < N ∧ slot (q_bottom m) 1 = slot (top m) (len q).

(** Ages only go up. *)
Definition age_lt a a' : Prop := age_tag a < age_tag a' ∨ age_tag a = age_tag a' ∧ age_top a < age_top a'.
Definition age_le a a' : Prop := a = a' ∨ age_lt a a'.

(** The methods from each of their accesses on. *)
Definition push1 (t : E) (localBot : Z) : prog E bool :=
  ReadAge (λ age,
  let dirty_n_elems := dirty_size N localBot (age_top age) in
  if dirty_n_elems <? max_elems N then
    WriteElem localBot t (WriteBottom (increment_index N localBot) (Ret true))
  else push_slow N t dirty_n_elems).
Definition push2 (t : E) (localBot : Z) : prog E bool := WriteElem localBot t (WriteBottom (increment_index N localBot) (Ret true)).
Definition push3 (localBot : Z) : prog E bool := WriteBottom (increment_index N localBot) (Ret true).

Definition pop5 (t : E) (localBot : Z) : prog E (option E) := ReadAge (λ oldAge, pop_local_slow t localBot oldAge).
Definition pop4 (t : E) (localBot : Z) : prog E (option E) :=
  ReadAge (λ age, if 0 <? size N localBot (age_top age) then Ret (Some t) else pop5 t localBot).
Definition pop3 (localBot : Z) : prog E (option E) := ReadElem localBot (λ t, pop4 t localBot).
Definition pop2 (localBot : Z) : prog E (option E) := WriteBottom localBot (pop3 localBot).
Definition pop1 (localBot : Z) : prog E (option E) :=
  ReadAge (λ age, if dirty_size N localBot (age_top age) =? 0 then Ret None else pop2 (decrement_index N localBot)).
Definition lose (localBot : Z) (oldAge : Age) : prog E (option E) := SetAge (mkAge localBot (u32 (age_tag oldAge + 1))) (Ret None).
Definition claim (t : E) (localBot : Z) (oldAge : Age) : prog E (option E) :=
  CasAge (mkAge localBot (u32 (age_tag oldAge + 1))) oldAge
    (λ tempAge, if decide (tempAge = oldAge) then Ret (Some t) else lose localBot oldAge).

Definition steal3 (a : Age) (t : E) : prog E (option E) :=
  CasAge (increment N a) a (λ resAge, Ret (if decide (resAge = a) then Some t else None)).
Definition steal2 (a : Age) : prog E (option E) := ReadElem (age_top a) (steal3 a).
Definition steal1 (a : Age) : prog E (option E) :=
  ReadBottom (λ localBot, if size N localBot (age_top a) =? 0 then Ret None else steal2 a).

Inductive owner_ok m q : @owner E → Prop :=
| ok_idle : normal m q → owner_ok m q Idle
| ok_push t : normal m q → owner_ok m q (Pushing t (push N t))
| ok_push1 t : normal m q → owner_ok m q (Pushing t (push1 t (q_bottom m)))
| ok_push2 t : normal m q → len q < N - 2 → owner_ok m q (Pushing t (push2 t (q_bottom m)))
| ok_push3 t : normal m q → len q < N - 2 → zget (q_elems m) (q_bottom m) = Some t → owner_ok m q (Pushing t (push3 (q_bottom m)))
| ok_pop : normal m q → owner_ok m q (Popping (pop_local N))
| ok_pop1 : normal m q → owner_ok m q (Popping (pop1 (q_bottom m)))
| ok_pop2 : normal m q → owner_ok m q (Popping (pop2 (decrement_index N (q_bottom m))))
| ok_pop3 : pending m q → owner_ok m q (Popping (pop3 (q_bottom m)))
| ok_pop4 t : pending m q → (q ≠ [] → last q = Some t) → owner_ok m q (Popping (pop4 t (q_bottom m)))
| ok_pop5 t : pending m q → (q ≠ [] → last q = Some t) → len q ≤ 1 → owner_ok m q (Popping (pop5 t (q_bottom m)))
| ok_claim t a : pending m q → age_top a = q_bottom m →
    (q = [t] ∧ q_age m = a ∨ q = [] ∧ q_age m = increment N a) → owner_ok m q (Popping (claim t (q_bottom m) a))
| ok_lose a : pending m q → q = [] →
    (age_tag (q_age m) = age_tag a ∨ age_top a = q_bottom m ∧ q_age m = increment N a) → owner_ok m q (Popping (lose (q_bottom m) a)).

Inductive thief_ok m q : prog E (option E) → Prop :=
| ok_steal : thief_ok m q (pop_global N)
| ok_steal1 a : 0 ≤ age_top a < N → age_le a (q_age m) → thief_ok m q (steal1 a)
| ok_steal2 a : 0 ≤ age_top a < N → age_le a (q_age m) → (a = q_age m → q ≠ []) → thief_ok m q (steal2 a)
| ok_steal3 a t : 0 ≤ age_top a < N → age_le a (q_age m) → (a = q_age m → head q = Some t) → thief_ok m q (steal3 a t).

Record config_ok (c : @config E) q : Prop := {
  co_queue : queue_ok (c_queue c) q;
  co_owner : owner_ok (c_queue c) q (c_owner c);
  co_thieves : ∀ i p, c_thieves c !! i = Some p → thief_ok (c_queue c) q p
}.

(** *** Ages *)

Lemma age_lt_ne a a' : age_lt a a' → a ≠ a'.
Proof. intros H ->. unfold age_lt in H. lia. Qed.
Lemma age_le_lt a a1 a2 : age_le a a1 → age_lt a1 a2 → age_lt a a2.
Proof. intros [->|H]; [done|]. unfold age_lt in *. lia. Qed.

(** A step that raises the age, or keeps it and the first task. *)
Lemma thief_frame m q m' q' p :
  age_lt (q_age m) (q_age m') ∨ q_age m' = q_age m ∧ (∀ x, head q = Some x → head q' = Some x) →
  thief_ok m q p → thief_ok m' q' p.
Proof.
  intros Hm Hp.
  assert (∀ a, age_le a (q_age m) → age_le a (q_age m') ∧ (a = q_age m' → a = q_age m ∧ ∀ x, head q = Some x → head q' = Some x)) as Hle.
  { intros a Ha. destruct Hm as [Hlt|[-> Hh]]; [|done]. pose proof (age_le_lt _ _ _ Ha Hlt) as Hlt'.
    split; [by right|]. intros ->. by apply age_lt_ne in Hlt'. }
  destruct Hp as [|a Hr Ha|a Hr Ha Hq|a t Hr Ha Hq]; [constructor| | |]; destruct (Hle a Ha) as [Ha' Hc].
  - by constructor.
  - constructor; [done|done|]. intros E'. destruct (Hc E') as [E'' Hh]. specialize (Hq E'').
    destruct q as [|x q]; [done|]. specialize (Hh x eq_refl). by intros ->.
  - constructor; [done|done|]. intros E'. destruct (Hc E') as [E'' Hh]. auto.
Qed.

(** *** Steps of the owner *)

Ltac ring_cases :=
  unfold slot in *;
  repeat match goal with
  | |- context [?x <? ?y] => destruct (Z.ltb_spec x y)
  | |- context [?x <=? ?y] => destruct (Z.leb_spec x y)
  | |- context [?x =? ?y] => destruct (Z.eqb_spec x y)
  | H : context [?x <? ?y] |- _ => destruct (Z.ltb_spec x y)
  | H : context [?x <=? ?y] |- _ => destruct (Z.leb_spec x y)
  | H : context [?x =? ?y] |- _ => destruct (Z.eqb_spec x y)
  end; try lia.

Lemma slot_range t i : 0 ≤ t < N → 0 ≤ i < N → 0 ≤ slot t i < N.
Proof. intros Ht Hi. ring_cases. Qed.
Lemma slot_inj t i j : 0 ≤ t < N → 0 ≤ i < N → 0 ≤ j < N → slot t i = slot t j → i = j.
Proof. intros Ht Hi Hj H. ring_cases. Qed.

Lemma normal_range m q : queue_ok m q → normal m q → 0 ≤ q_bottom m < N.
Proof. intros [_ Ht Hl _ _] ->. apply slot_range; lia. Qed.

(** The sizes the methods compute. *)
Lemma normal_dirty m q : queue_ok m q → normal m q → dirty_size N (q_bottom m) (top m) = len q.
Proof.
  intros Hq Hn. pose proof (normal_range m q Hq Hn). destruct Hq as [_ Ht Hl _ _]. rewrite (dirty_size_eq N k Hk HN) by done.
  unfold normal in Hn. ring_cases.
Qed.
Lemma pending_dirty m q : queue_ok m q → pending m q → dirty_size N (q_bottom m) (top m) = if len q =? 0 then N - 1 else len q - 1.
Proof.
  intros [_ Ht Hl _ _] [Hb Hn]. pose proof (N_range N k Hk HN). rewrite (dirty_size_eq N k Hk HN) by done. ring_cases.
Qed.
Lemma pending_size m q : queue_ok m q → pending m q → size N (q_bottom m) (top m) = Z.max 0 (len q - 1).
Proof.
  intros Hq Hp. unfold size. rewrite (pending_dirty m q) by done. destruct Hq as [_ _ Hl _ _]. pose proof (N_range N k Hk HN). cbn zeta. ring_cases.
Qed.

Lemma spec_run_one q e q' : spec_step N q e q' → spec_run N q [e] q'.
Proof. intros H. apply (run_snoc N q [] q e q'); [constructor|done]. Qed.

(** What a step of the owner leaves for the thieves. *)
Definition kept m q m' q' : Prop :=
  age_lt (q_age m) (q_age m') ∨ q_age m' = q_age m ∧ (∀ x : E, head q = Some x → head q' = Some x).
Lemma kept_same m q m' : q_age m' = q_age m → kept m q m' q.
Proof. by right. Qed.

(** A store to a free slot. *)
Lemma queue_ok_store m q b x l :
  queue_ok m q → b = slot (top m) (len q) → zset (q_elems m) b x = Some l → queue_ok (set_elems l m) q.
Proof.
  intros [He Ht Hl Hh Htag] -> Hs. split; [cbn; by rewrite (zset_zlen _ _ _ _ Hs)|done|done| |done].
  intros i y Hi. cbn [q_elems set_elems q_age]. pose proof (lookup_lt_Some _ _ _ Hi).
  apply zset_Some in Hs as [Hr ->]. rewrite zget_insert by lia.
  rewrite decide_False; [by apply Hh|]. intros Heq. apply slot_inj in Heq; lia.
Qed.

Lemma push_step m q t p p' m' :
  queue_ok m q → owner_ok m q (Pushing t p) → act p m = Some (p', m') →
  ∃ q', spec_run N q (owner_of_push t p').2 q' ∧ queue_ok m' q' ∧ owner_ok m' q' (owner_of_push t p').1 ∧ kept m q m' q'.
Proof.
  intros Hq Ho Ha. pose proof (N_range N k Hk HN) as HN4. pose proof (qo_len m q Hq) as Hl. pose proof (qo_top m q Hq) as Ht.
  inversion Ho as [|? Hn|? Hn|? Hn Hfree|? Hn Hfree Hx| | | | | | | |]; subst; clear Ho; cbn in Ha.
  - injection Ha as <- <-. exists q. split; [constructor|]. split; [done|]. split; [by apply ok_push1|by apply kept_same].
  - injection Ha as <- <-. rewrite (normal_dirty m q Hq Hn). unfold max_elems. destruct (Z.ltb_spec (len q) (N - 2)).
    + exists q. split; [constructor|]. split; [done|]. split; [by apply ok_push2|by apply kept_same].
    + unfold push_slow. rewrite (proj2 (Z.eqb_neq _ _)) by lia. exists q.
      split; [apply spec_run_one, spec_full; unfold max_elems; lia|]. split; [done|]. split; [by apply ok_idle|by apply kept_same].
  - destruct (zset _ _ _) as [l|] eqn:Hs; [|done]. injection Ha as <- <-. exists q. split; [constructor|].
    split; [by eapply queue_ok_store|]. split; [|by apply kept_same]. apply zset_Some in Hs as [Hr ->].
    apply (ok_push3 (set_elems _ m)); [done|done|]. cbn. rewrite zget_insert by done. by rewrite decide_True.
  - injection Ha as <- <-. exists (q ++ [t]). split; [apply spec_run_one, spec_push; unfold max_elems; lia|].
    assert (len (q ++ [t]) = len q + 1) as Hlen by (rewrite length_app; cbn; lia).
    split; [|split].
    + destruct Hq as [He _ _ Hh Htag]. split; [done|done|lia| |done]. intros i x Hi. apply lookup_app_Some in Hi as [Hi|[Hge Hi]]; [by apply Hh|].
      destruct (i - length q)%nat eqn:Hi0; [|done]. cbn in Hi. injection Hi as <-. cbn. replace i with (length q) by lia.
      unfold normal in Hn. rewrite <- Hn. done.
    + apply ok_idle. unfold normal in *. cbn. rewrite Hlen, (increment_index_eq N k Hk HN) by (rewrite Hn; apply slot_range; lia).
      rewrite Hn. ring_cases.
    + right. split; [done|]. intros x Hx'. by destruct q.
Qed.

Lemma increment_top a : 0 ≤ age_top a < N → age_top (increment N a) = slot (age_top a) 1 ∧ age_top (increment N a) ≠ age_top a.
Proof. intros Ha. pose proof (N_range N k Hk HN). cbn. rewrite (increment_index_eq N k Hk HN) by done. ring_cases. Qed.

(** The tag after a change of it, if it has not come round. *)
Lemma next_tag m q a' :
  queue_ok m q → age_tag a' = u32 (age_tag (q_age m) + 1) → q_tags (set_age a' m) < 2 ^ 32 →
  age_tag a' = age_tag (q_age m) + 1 ∧ q_tags (set_age a' m) = age_tag a'.
Proof.
  intros [_ _ _ _ [Htag H0]] Ha. cbn [q_tags set_age]. rewrite Ha, Htag.
  destruct (Z.eqb_spec (u32 (q_tags m + 1)) (q_tags m)) as [Heq|Hne].
  - unfold wrapU in Heq. intros Hlt. exfalso.
    destruct (decide (q_tags m + 1 < 2 ^ 32)); [rewrite Z.mod_small in Heq by lia; lia|].
    replace (q_tags m + 1) with (2 ^ 32) in Heq by lia. rewrite Z_mod_same_full in Heq. lia.
  - intros Hlt. rewrite wrapU_id by (unfold in_u; lia). done.
Qed.

(** The owner empties the queue: the new age is at [_bottom]. *)
Lemma emptied_ok m q a' :
  queue_ok m q → 0 ≤ q_bottom m < N → age_top a' = q_bottom m → age_tag a' = q_tags (set_age a' m) → age_lt (q_age m) a' →
  queue_ok (set_age a' m) [] ∧ owner_ok (set_age a' m) [] Idle ∧ kept m q (set_age a' m) [].
Proof.
  intros [He _ _ _ [Htag H0]] Hb Ht Hg Hlt. pose proof (N_range N k Hk HN). split; [|split].
  - split; [done|cbn; lia|cbn; lia|done|]. split; [done|]. cbn. destruct (_ =? _); lia.
  - apply ok_idle. unfold normal. cbn. rewrite Ht. ring_cases.
  - by left.
Qed.

Lemma lose_step m q a m' :
  queue_ok m q → pending m q → q = [] → age_tag (q_age m) = age_tag a ∨ age_top a = q_bottom m ∧ q_age m = increment N a →
  m' = set_age (mkAge (q_bottom m) (u32 (age_tag a + 1))) m → q_tags m' < 2 ^ 32 →
  queue_ok m' [] ∧ owner_ok m' [] Idle ∧ kept m q m' [].
Proof.
  intros Hq [Hb Hp] -> Ha -> Hlt. pose proof (N_range N k Hk HN). pose proof (qo_top _ _ Hq) as Ht.
  set (a' := mkAge _ _) in *.
  destruct (decide (age_tag (q_age m) = age_tag a)) as [E1|E1].
  - destruct (next_tag m [] a' Hq) as [E2 E3]; [cbn; by rewrite E1|done|]. apply emptied_ok; [done|done|done|done|left; lia].
  - destruct Ha as [?|[Ea Ei]]; [done|]. rewrite Ei in E1. cbn in E1. destruct (Z.eqb_spec (increment_index N (age_top a)) 0) as [Ez|]; [|done].
    assert (age_tag (q_age m) = age_tag a' ∧ age_top (q_age m) = 0) as [E2 E3] by (rewrite Ei; cbn; rewrite Ez; done).
    rewrite Ea, (increment_index_eq N k Hk HN) in Ez by done. destruct Hq as [He Ht' Hl Hh [Htag H0]].
    assert (q_bottom m = N - 1) by ring_cases.
    apply emptied_ok; [done|done|done| |].
    + cbn [q_tags set_age]. rewrite <- E2, Z.eqb_refl. done.
    + right. split; [done|]. cbn. lia.
Qed.

Lemma last_held m q : queue_ok m q → pending m q → ∀ x, last q = Some x → zget (q_elems m) (q_bottom m) = Some x.
Proof.
  intros [_ Ht Hl Hh _] [Hb Hp] x Hx. apply last_Some in Hx as [q' ->]. rewrite length_app in *. cbn in *.
  rewrite <- (Hh (length q') x) by (rewrite lookup_app_r, Nat.sub_diag by lia; done). f_equal. ring_cases.
Qed.

Lemma pop_fast m q t :
  queue_ok m q → pending m q → (q ≠ [] → last q = Some t) → 1 < len q →
  ∃ q', spec_step N q (Popped (Some t)) q' ∧ queue_ok m q' ∧ owner_ok m q' Idle ∧ kept m q m q'.
Proof.
  intros Hq [Hb Hp] Hlast Hn. assert (last q = Some t) as Hx by (apply Hlast; intros ->; done). clear Hlast.
  apply last_Some in Hx as [q' ->]. exists q'. split; [constructor|].
  destruct Hq as [He Ht Hl Hh Htag]. rewrite length_app in *. cbn in *. split; [split; [done|done|lia| |done]|split].
  - intros i x Hi. apply Hh. by apply lookup_app_l_Some.
  - apply ok_idle. unfold normal. ring_cases.
  - right. split; [done|]. destruct q'; [cbn in *; lia|done].
Qed.

Lemma pop_step m q p p' m' :
  queue_ok m q → owner_ok m q (Popping p) → act p m = Some (p', m') → q_tags m' < 2 ^ 32 →
  ∃ q', spec_run N q (owner_of_pop p').2 q' ∧ queue_ok m' q' ∧ owner_ok m' q' (owner_of_pop p').1 ∧ kept m q m' q'.
Proof.
  intros Hq Ho Ha Hlt. pose proof (N_range N k Hk HN) as HN4. pose proof (qo_len m q Hq) as Hl. pose proof (qo_top m q Hq) as Ht.
  inversion Ho as [| | | | |Hn|Hn|Hn|Hp|t Hp Hx|t Hp Hx Hn|t a Hp Htop Hc|a Hp Hnil Hc]; subst; clear Ho; cbn in Ha.
  - injection Ha as <- <-. exists q. split; [constructor|]. split; [done|]. split; [by apply ok_pop1|by apply kept_same].
  - injection Ha as <- <-. rewrite (normal_dirty m q Hq Hn). destruct (Z.eqb_spec (len q) 0).
    + destruct q; [|done]. exists []. split; [apply spec_run_one, spec_empty|]. split; [done|]. split; [by apply ok_idle|by apply kept_same].
    + exists q. split; [constructor|]. split; [done|]. split; [by apply ok_pop2|by apply kept_same].
  - injection Ha as <- <-. exists q. split; [constructor|]. split; [by destruct Hq|]. split; [|by apply kept_same].
    pose proof (normal_range m q Hq Hn) as Hb. apply (ok_pop3 (set_bottom _ m)). unfold pending, normal in *. cbn.
    rewrite (decrement_index_eq N k Hk HN) by done. rewrite <- Hn. ring_cases.
  - destruct (zget _ _) as [t|] eqn:Hz; [|done]. injection Ha as <- <-. exists q. split; [constructor|]. split; [done|].
    split; [|by apply kept_same]. apply ok_pop4; [done|]. intros Hne. destruct (last q) as [x|] eqn:Hx; [|by apply last_None in Hx].
    pose proof (last_held m q Hq Hp x Hx). congruence.
  - injection Ha as <- <-. rewrite (pending_size m q Hq Hp). destruct (Z.ltb_spec 0 (Z.max 0 (len q - 1))).
    + destruct (pop_fast m q t Hq Hp Hx ltac:(lia)) as (q' & ? & ? & ? & ?). exists q'. split; [by apply spec_run_one|done].
    + exists q. split; [constructor|]. split; [done|]. split; [|by apply kept_same]. apply ok_pop5; [done|done|lia].
  - injection Ha as <- <-. exists q. unfold pop_local_slow. cbn zeta. destruct Hp as [Hb Hp]. destruct (Z.eqb_spec (q_bottom m) (top m)) as [Heq|Hne].
    + split; [constructor|]. split; [done|]. split; [|by apply kept_same]. apply (ok_claim m q t (q_age m)); [done|done|]. left.
      split; [|done]. destruct q as [|x [|y q]]; [exfalso; rewrite <- Heq in Hp; cbn in Hp; ring_cases| |cbn in *; lia].
      specialize (Hx ltac:(done)). by injection Hx as ->.
    + split; [constructor|]. split; [done|]. split; [|by apply kept_same]. apply (ok_lose m q (q_age m)); [done| |by left].
      destruct q as [|x [|y q]]; [done| |cbn in *; lia]. exfalso. cbn in Hp. ring_cases.
  - injection Ha as <- <-. destruct (decide (q_age m = a)) as [Ea|Ea].
    + rewrite Ea in *. destruct Hc as [[-> _]|[_ Hi]]; [|destruct (increment_top a ltac:(lia)) as [_ Hne]; by rewrite <- Hi in Hne].
      set (a' := mkAge _ _) in *. destruct (next_tag m [t] a' Hq) as [E2 E3]; [by rewrite Ea|done|].
      exists []. split; [apply spec_run_one, (spec_pop N []) |]. destruct Hp as [Hb _]. apply emptied_ok; [done|done|done|done|left; rewrite Ea in *; lia].
    + exists q. destruct Hc as [[_ ?]|[-> Hi]]; [done|]. split; [constructor|]. split; [done|].
      split; [|by apply kept_same]. apply (ok_lose m [] a); [done|done|]. right. done.
  - injection Ha as <- <-. exists []. split; [apply spec_run_one, spec_empty|]. by eapply lose_step.
Qed.

(** *** Steps of a thief *)

(** The first task is taken. *)
Section stolen.
Context m t q (Hq : queue_ok m (t :: q)) (Hlt : q_tags (set_age (increment N (q_age m)) m) < 2 ^ 32).
Local Abbreviation m' := (set_age (increment N (q_age m)) m).

Lemma stolen_top : top m' = slot (top m) 1.
Proof. apply increment_top, (qo_top _ _ Hq). Qed.
Lemma stolen_slot i : 0 ≤ i < N - 1 → slot (top m') i = slot (top m) (i + 1).
Proof. intros Hi. rewrite stolen_top. pose proof (qo_top _ _ Hq). ring_cases. Qed.
Lemma stolen_tag : age_tag (q_age m') = q_tags m' ∧ 0 ≤ q_tags m' ∧ age_lt (q_age m) (q_age m').
Proof.
  pose proof (qo_tag _ _ Hq) as [Htag H0]. pose proof (qo_top _ _ Hq) as Ht. pose proof (N_range N k Hk HN).
  destruct (increment_index N (top m) =? 0) eqn:Ez.
  - destruct (next_tag m _ (increment N (q_age m)) Hq) as [E1 E2]; [cbn; by rewrite Ez|done|].
    split; [done|]. split; [rewrite E2; lia|left; cbn [q_age set_age]; lia].
  - cbn [q_tags set_age]. cbn. rewrite Ez, Z.eqb_refl. split; [done|]. split; [done|]. right. cbn. rewrite Ez. split; [done|].
    rewrite (increment_index_eq N k Hk HN) in Ez |- * by done. ring_cases.
Qed.
Lemma stolen_ok : queue_ok m' q.
Proof.
  destruct stolen_tag as (Htag & H0 & _). pose proof stolen_top as Htop. pose proof (qo_top _ _ Hq) as Ht.
  pose proof (qo_len _ _ Hq) as Hl. pose proof (N_range N k Hk HN). cbn [length] in Hl.
  split; [apply (qo_elems _ _ Hq)|rewrite Htop; apply slot_range; lia|lia| |done].
  intros i x Hi. pose proof (lookup_lt_Some _ _ _ Hi). rewrite stolen_slot by lia.
  replace (Z.of_nat i + 1) with (Z.of_nat (S i)) by lia. by apply (qo_held _ _ Hq).
Qed.
Lemma stolen_end : slot (top m') (len q) = slot (top m) (len (t :: q)).
Proof. pose proof (qo_len _ _ Hq) as Hl. cbn [length] in Hl |- *. rewrite stolen_slot by lia. f_equal. lia. Qed.
Lemma stolen_owner o : owner_ok m (t :: q) o → owner_ok m' q o.
Proof.
  assert (normal m (t :: q) → normal m' q) as Hnorm by (unfold normal; by rewrite stolen_end).
  assert (pending m (t :: q) → pending m' q) as Hpend by (unfold pending; by rewrite stolen_end).
  assert (len q = len (t :: q) - 1) as Hlen by (cbn; lia).
  assert (∀ x, (t :: q ≠ [] → last (t :: q) = Some x) → q ≠ [] → last q = Some x) as Hlast.
  { intros x Hx Hne. specialize (Hx ltac:(done)). rewrite last_cons in Hx. destruct (last q) eqn:E'; [done|]. by apply last_None in E'. }
  change (q_bottom m) with (q_bottom m') in *. change (q_elems m) with (q_elems m') in *.
  intros [Hn|x Hn|x Hn|x Hn Hf|x Hn Hf Hx|Hn|Hn|Hn|Hp|x Hp Hx|x Hp Hx Hn|x a Hp Htop Hc|a Hp Hnil Hc].
  - apply ok_idle; auto.
  - apply ok_push; auto.
  - apply (ok_push1 m'); auto.
  - apply (ok_push2 m'); [auto|lia].
  - apply (ok_push3 m'); [auto|lia|done].
  - apply ok_pop; auto.
  - apply (ok_pop1 m'); auto.
  - apply (ok_pop2 m'); auto.
  - apply (ok_pop3 m'); auto.
  - apply (ok_pop4 m'); auto.
  - apply (ok_pop5 m'); [auto|auto|lia].
  - apply (ok_claim m' q x a); [auto|done|]. right. destruct Hc as [[Hc1 Hc2]|[? _]]; [|done].
    injection Hc1 as -> ->. split; [done|]. cbn. by rewrite Hc2.
  - done.
Qed.
End stolen.

Lemma owner_bottom m q o : owner_ok m q o → normal m q ∨ pending m q.
Proof. by intros []; auto. Qed.
Lemma empty_size m o : queue_ok m [] → owner_ok m [] o → size N (q_bottom m) (top m) = 0.
Proof.
  intros Hq [Hn|Hp]%owner_bottom; [|by rewrite (pending_size m [])]. pose proof (N_range N k Hk HN).
  unfold size. rewrite (normal_dirty m [] Hq Hn). cbn [length]. by destruct (_ =? _).
Qed.

Lemma steal_step m q o i th p p' m' :
  queue_ok m q → owner_ok m q o → thief_ok m q p → act p m = Some (p', m') → q_tags m' < 2 ^ 32 →
  ∃ q', spec_run N q (thieves_of i p' th).2 q' ∧ queue_ok m' q' ∧ owner_ok m' q' o ∧ kept m q m' q' ∧
    match p' with Ret _ => True | _ => thief_ok m' q' p' end.
Proof.
  intros Hq Ho Hp Ha Hlt. pose proof (N_range N k Hk HN) as HN4. pose proof (qo_top m q Hq) as Ht. pose proof (qo_len m q Hq) as Hl.
  assert (∀ r, spec_run N q (thieves_of i (Ret r) th).2 q ∨ r ≠ None) as Hnone.
  { intros [r|]; [by right|]. left. apply spec_run_one, spec_no_steal. }
  destruct Hp as [|a Hr Hle|a Hr Hle Hne|a t Hr Hle Hh]; cbn in Ha.
  - injection Ha as <- <-. exists q. split; [constructor|]. split_and!; [done|done|by apply kept_same|]. apply ok_steal1; [done|by left].
  - injection Ha as <- <-. exists q. destruct (Z.eqb_spec (size N (q_bottom m) (age_top a)) 0) as [Hz|Hz].
    + destruct (Hnone None) as [?|?]; [|done]. split_and!; [done|done|done|by apply kept_same|done].
    + split; [constructor|]. split_and!; [done|done|by apply kept_same|]. apply ok_steal2; [done|done|]. intros -> ->. apply Hz.
      by apply (empty_size m o).
  - destruct (zget _ _) as [t|] eqn:Hz; [|done]. injection Ha as <- <-. exists q. split; [constructor|].
    split_and!; [done|done|by apply kept_same|]. apply ok_steal3; [done|done|]. intros ->. destruct q as [|x q]; [by destruct Hne|].
    cbn. pose proof (qo_held _ _ Hq 0%nat x eq_refl) as Hx. replace (slot (top m) (Z.of_nat 0)) with (top m) in Hx by ring_cases. congruence.
  - injection Ha as <- <-. destruct (decide (q_age m = a)) as [<-|Hne].
    + specialize (Hh eq_refl). destruct q as [|x q]; [done|]. injection Hh as ->. exists q.
      split; [apply spec_run_one, spec_steal|]. split; [by apply (stolen_ok m t q)|]. split; [by apply (stolen_owner m t q)|].
      split; [left; by apply (stolen_tag m t q)|done].
    + exists q. destruct (Hnone None) as [?|?]; [|done]. split_and!; [done|done|done|by apply kept_same|done].
Qed.

(** *** Executions *)

Lemma step_ok (c : @config E) e c' q : config_ok c q → step N c e c' → q_tags (c_queue c') < 2 ^ 32 → ∃ q', spec_run N q e q' ∧ config_ok c' q'.
Proof.
  intros [Hq Ho Hth] Hs Hlt. destruct Hs as [m th t|m th|m o th i Hi|m th t p p' m' Ha|m th p p' m' Ha|m o th i p p' m' Hi Ha]; cbn in *.
  - exists q. split; [constructor|]. split; cbn; [done| |done]. inversion Ho. by apply ok_push.
  - exists q. split; [constructor|]. split; cbn; [done| |done]. inversion Ho. by apply ok_pop.
  - exists q. split; [constructor|]. split; cbn; [done|done|]. intros j p [[<- <-]|[_ Hj]]%lookup_insert_Some; [apply ok_steal|by eapply Hth].
  - destruct (push_step m q t p p' m' Hq Ho Ha) as (q' & Hr & Hq' & Ho' & Hk'). exists q'. split; [done|]. split; [done|done|].
    intros j pj Hj. eapply thief_frame; [exact Hk'|by eapply Hth].
  - destruct (pop_step m q p p' m' Hq Ho Ha Hlt) as (q' & Hr & Hq' & Ho' & Hk'). exists q'. split; [done|]. split; [done|done|].
    intros j pj Hj. eapply thief_frame; [exact Hk'|by eapply Hth].
  - destruct (steal_step m q o i th p p' m' Hq Ho (Hth i p Hi) Ha Hlt) as (q' & Hr & Hq' & Ho' & Hk' & Hp').
    assert (∀ j pj, th !! j = Some pj → thief_ok m' q' pj) as Hth' by (intros j pj Hj; eapply thief_frame; [exact Hk'|by eapply Hth]).
    exists q'. split; [done|]. split; [done|done|]. cbn [c_thieves c_queue]. intros j pj Hj.
    destruct p'; cbn in Hj; first [apply lookup_delete_Some in Hj as [_ Hj]; by eapply Hth' |
      apply lookup_insert_Some in Hj as [[<- <-]|[_ Hj]]; [done|by eapply Hth']].
Qed.

Lemma act_tags {R} (p p' : prog E R) m m' : act p m = Some (p', m') → q_tags m ≤ q_tags m'.
Proof.
  assert (∀ a, q_tags m ≤ q_tags (set_age a m)) as Hs by (intros a; cbn; destruct (_ =? _); lia).
  destruct p; cbn; intros Ha; simplify_option_eq; try (case_decide); simplify_eq; done || lia || apply Hs.
Qed.
Lemma step_tags (c : @config E) e c' : step N c e c' → q_tags (c_queue c) ≤ q_tags (c_queue c').
Proof. intros []; cbn; try lia; by eapply act_tags. Qed.

Lemma execution_ok (c : @config E) tr c' q :
  config_ok c q → execution N c tr c' → q_tags (c_queue c') < 2 ^ 32 → ∃ q', spec_run N q tr q' ∧ config_ok c' q'.
Proof.
  intros Hc He. induction He as [|tr c1 e c2 He IH Hs]; intros Hlt; [exists q; split; [constructor|done]|].
  pose proof (step_tags _ _ _ Hs). destruct (IH ltac:(lia)) as (q1 & Hr1 & Hc1). destruct (step_ok c1 e c2 q1 Hc1 Hs Hlt) as (q2 & Hr2 & Hc2).
  exists q2. split; [|done]. clear -Hr1 Hr2. induction Hr2 as [|tr' q1' e q2' Hr2 IH Hs]; [by rewrite app_nil_r|].
  rewrite app_assoc. by eapply run_snoc.
Qed.

Lemma oops_do_loop_spec m q1 q2 b :
  queue_ok m (q1 ++ q2) → b = slot (top m) (len q1) → oops_do_loop N (length q1) b (q_elems m) = Some (reverse q1).
Proof.
  pose proof (N_range N k Hk HN). revert q2 b. induction q1 as [|x q1 IH] using rev_ind; intros q2 b Hq Hb; [done|].
  pose proof (qo_top _ _ Hq) as Ht. pose proof (qo_len _ _ Hq) as Hl. rewrite length_app in *. cbn [length] in *.
  rewrite Nat.add_1_r. cbn [oops_do_loop]. rewrite <- app_assoc in Hq. rewrite length_app in Hl. cbn [length] in Hl.
  assert (decrement_index N b = slot (top m) (len q1)) as ->.
  { rewrite (decrement_index_eq N k Hk HN) by (subst b; apply slot_range; lia). subst b. ring_cases. }
  rewrite (qo_held _ _ Hq (length q1) x) by (rewrite lookup_app_r, Nat.sub_diag by lia; done).
  cbn [mbind option_bind]. rewrite (IH _ _ Hq eq_refl). by rewrite reverse_snoc.
Qed.

(** No access is outside the array. *)
Lemma owner_progress m q o : queue_ok m q → owner_ok m q o →
  match o with Idle => True | Pushing _ p => is_Some (act p m) | Popping p => is_Some (act p m) end.
Proof.
  intros Hq Ho. pose proof (qo_elems _ _ Hq) as He. destruct Ho as [Hn|x Hn|x Hn|x Hn Hf|x Hn Hf Hx|Hn|Hn|Hn|[Hb _]|x Hp Hx|x Hp Hx Hn|x a Hp Htop Hc|a Hp Hnil Hc];
    cbn; try done.
  - pose proof (normal_range m q Hq Hn). rewrite zset_eq by lia. done.
  - destruct (zget_is_Some (q_elems m) (q_bottom m)) as [y ->]; [lia|done].
Qed.
Lemma thief_progress m q p : queue_ok m q → thief_ok m q p → is_Some (act p m).
Proof.
  intros Hq Hp. pose proof (qo_elems _ _ Hq) as He. destruct Hp as [|a Hr|a Hr|a t Hr]; cbn; try done.
  destruct (zget_is_Some (q_elems m) (age_top a)) as [y ->]; [lia|done].
Qed.
End invariant.

(** ** Properties *)

(** The tasks in the memory of a queue, from the top on. *)
Definition queue_holds {E} (N : Z) (m : queue E) (q : list E) : Prop :=
  queue_size N m = Z.of_nat (length q) ∧ oops_do N m = Some (reverse q) ∧
  ∀ i x, q !! i = Some x → zget (q_elems m) ((age_top (q_age m) + Z.of_nat i) mod N) = Some x.

Definition pushed_task {E} (e : @event E) : list E := match e with Pushed t true => [t] | _ => [] end.
Definition taken_task {E} (e : @event E) : list E :=
  match e with Popped (Some t) => [t] | Stolen _ (Some t) => [t] | _ => [] end.

Lemma spec_run_tasks {E} N (q : list E) tr q' :
  spec_run N q tr q' → q ++ (tr ≫= pushed_task) ≡ₚ (tr ≫= taken_task) ++ q'.
Proof.
  induction 1 as [|tr q1 e q2 Hr IH Hs]; [cbn; by rewrite app_nil_r|]. rewrite !bind_app, !app_assoc. cbn. rewrite !app_nil_r.
  rewrite IH. destruct Hs; cbn; rewrite ?app_nil_r; solve_Permutation.
Qed.

Definition new_queue {E} (elems : list E) : queue E := mkQueue 0 (mkAge 0 0) elems 0.
Definition new_config {E} (elems : list E) : @config E := mkConfig (new_queue elems) Idle ∅.

(** C6: Whatever the interleaving of the accesses of an owner that pushes and pops
    and of any number of thieves, as long as the 32-bit tag has not come round: the
    results of the calls are those of a double-ended list, each taking effect
    with its last access. A push fails only on a queue of [N - 2] tasks, a pop only on
    an empty one; a pop gives the task pushed last, a steal the oldest one. No
    task is lost or taken twice, no access is outside the array, and between
    calls of the owner the memory holds the list, which [oops_do] visits. *)
Theorem task_queue_linearizable {E} k (elems : list E) tr c :
  2 ≤ k ≤ 31 → zlen elems = 2 ^ k → execution (2 ^ k) (new_config elems) tr c → q_tags (c_queue c) < 2 ^ 32 →
  ∃ q, spec_run (2 ^ k) [] tr q ∧
    (tr ≫= pushed_task) ≡ₚ (tr ≫= taken_task) ++ q ∧
    (c_owner c = Idle → queue_holds (2 ^ k) (c_queue c) q) ∧
    match c_owner c with Idle => True | Pushing _ p => is_Some (act p (c_queue c)) | Popping p => is_Some (act p (c_queue c)) end ∧
    (∀ i p, c_thieves c !! i = Some p → is_Some (act p (c_queue c))).
Proof.
  intros Hk He Hx Hlt. pose proof (N_range _ k Hk eq_refl) as HN.
  assert (config_ok (2 ^ k) (new_config elems) []) as H0.
  { split; [|apply ok_idle|done].
    - split; cbn [c_queue new_config new_queue q_elems q_age age_top age_tag q_tags length]; done || lia.
    - unfold normal, slot. cbn [c_queue new_config new_queue q_bottom q_age age_top length]. destruct (Z.ltb_spec (0 + Z.of_nat 0) (2 ^ k)); lia. }
  destruct (execution_ok _ k Hk eq_refl _ _ _ _ H0 Hx Hlt) as (q & Hr & [Hq Ho Hth]). exists q. split; [done|].
  split; [by apply (spec_run_tasks _ _ _ _ Hr)|]. split; [|split; [by eapply owner_progress|intros i p Hi; by eapply thief_progress, Hth]].
  intros Hidle. rewrite Hidle in Ho. inversion Ho as [Hn| | | | | | | | | | | |]. pose proof (qo_len _ _ _ Hq).
  assert (queue_size (2 ^ k) (c_queue c) = Z.of_nat (length q)) as Hsize.
  { unfold queue_size, size. rewrite (normal_dirty _ k Hk eq_refl _ q Hq Hn). cbn zeta. rewrite (proj2 (Z.eqb_neq _ _)) by lia. done. }
  split; [done|]. split.
  - unfold oops_do. rewrite Hsize, Nat2Z.id. apply (oops_do_loop_spec _ k Hk eq_refl _ q []); [by rewrite app_nil_r|done].
  - intros i x Hi. pose proof (lookup_lt_Some _ _ _ Hi). rewrite (mod_add _ k Hk eq_refl) by (try apply (qo_top _ _ _ Hq); lia).
    by apply (qo_held _ _ _ Hq).
Qed.

(** *** A race for the last task *)

Inductive action := APush (t : Z) | APop | ASteal (i : nat) | AOwner | AThief (i : nat).

Definition do_action (N : Z) (a : action) (c : @config Z) : option (list event * @config Z) :=
  let m := c_queue c in let th := c_thieves c in
  match a, c_owner c with
  | APush t, Idle => Some ([], mkConfig m (Pushing t (push N t)) th)
  | APop, Idle => Some ([], mkConfig m (Popping (pop_local N)) th)
  | ASteal i, o => match th !! i with None => Some ([], mkConfig m o (<[i := pop_global N]> th)) | Some _ => None end
  | AOwner, Pushing t p => '(p', m') ← act p m; Some ((owner_of_push t p').2, mkConfig m' (owner_of_push t p').1 th)
  | AOwner, Popping p => '(p', m') ← act p m; Some ((owner_of_pop p').2, mkConfig m' (owner_of_pop p').1 th)
  | AThief i, o => p ← th !! i; '(p', m') ← act p m; Some ((thieves_of i p' th).2, mkConfig m' o (thieves_of i p' th).1)
  | _, _ => None
  end.
Fixpoint do_actions (N : Z) (l : list action) (c : @config Z) : option (list event * @config Z) :=
  match l with
  | [] => Some ([], c)
  | a :: l' => '(e, c1) ← do_action N a c; '(tr, c2) ← do_actions N l' c1; Some (e ++ tr, c2)
  end.

Lemma do_action_step N a c e c' : do_action N a c = Some (e, c') → step N c e c'.
Proof.
  destruct c as [m o th]. destruct a, o; cbn; intros H; simplify_option_eq; repeat case_match; simplify_option_eq; by econstructor.
Qed.
Lemma execution_app N (c : @config Z) tr c1 l e c2 :
  execution N c tr c1 → do_actions N l c1 = Some (e, c2) → execution N c (tr ++ e) c2.
Proof.
  revert tr c1 e. induction l as [|a l IH]; intros tr c1 e Hx H; cbn in H; [simplify_eq; by rewrite app_nil_r|].
  destruct (do_action N a c1) as [[e1 c3]|] eqn:Ha; [|done]. cbn in H. destruct (do_actions N l c3) as [[e2 c4]|] eqn:Hl; [|done].
  cbn in H. simplify_eq. rewrite app_assoc. eapply IH; [|done]. eapply exec_step; [done|by eapply do_action_step].
Qed.

(** One task; a thief reads it before the owner starts to pop, and claims it before
    the owner does. *)
Definition race : list action :=
  [APush 7; AOwner; AOwner; AOwner; AOwner; ASteal 0; AThief 0; AThief 0; AThief 0;
   APop; AOwner; AOwner; AOwner; AOwner; AOwner; AOwner; AThief 0; AOwner; AOwner].
Definition race_end : option (list event * @config Z) := do_actions 4 race (new_config [0; 0; 0; 0]).

Lemma task_queue_linearizable_witness :
  ∃ c q, race_end = Some ([Pushed 7 true; Stolen 0 (Some 7); Popped None], c) ∧
    spec_run 4 [] [Pushed 7 true; Stolen 0 (Some 7); Popped None] q ∧ queue_holds 4 (c_queue c) q.
Proof.
  destruct race_end as [[tr c]|] eqn:Hr; [|vm_compute in Hr; discriminate Hr].
  pose proof (execution_app 4 (new_config [0; 0; 0; 0]) [] _ race tr c (exec_nil _ _) Hr) as Hx.
  vm_compute in Hr. injection Hr as <- <-.
  edestruct (task_queue_linearizable 2 [0; 0; 0; 0]) as (q & Hrun & _ & Hold & _); [lia|reflexivity|exact Hx|vm_compute; reflexivity|].
  eexists _, q. split; [reflexivity|]. split; [exact Hrun|]. apply Hold. reflexivity.
Defined.
