(* ===== verification/JNIHandles.v ===== *)
(** * JNI handles

    runtime/jniHandles.hpp and runtime/jniHandles.cpp: chains of blocks of handles
    with a free list threaded through deleted handles, the recycling of blocks,
    and the traversals by the collector. Local frames are as in
    [jni_PushLocalFrame] and [jni_PopLocalFrame] of prims/jni.cpp. *)

From stdpp Require Import base numbers list gmap.
From S2P Require Import Prelude.
Local Open Scope Z_scope.

(** ** Blocks

    The handles of a block are words of [js_mem]; a block is named by its
    address, which is that of its first handle. 0 is NULL. *)

Record Block := mkBlock {
  b_top : Z; b_next : Z; b_last : Z; b_pop_frame_link : Z; b_free_list : Z;
  b_allocate_before_rebuild : Z; b_planned_capacity : Z }.

Record JNI := mkJNI {
  js_mem : gmap Z Z; js_blocks : gmap Z Block;
  js_block_free_list : Z; js_blocks_allocated : Z;
  js_free_handle_block : gmap nat Z; js_active_handles : gmap nat Z;
  js_deleted_handle : Z; js_global_handles : Z; js_weak_global_handles : Z }.

Definition block_size_in_oops : Z := 32.
Definition slot (b i : Z) : Z := b + 8 * i.

Definition set_top (v : Z) (B : Block) : Block := mkBlock v (b_next B) (b_last B) (b_pop_frame_link B) (b_free_list B) (b_allocate_before_rebuild B) (b_planned_capacity B).
Definition set_next (v : Z) (B : Block) : Block := mkBlock (b_top B) v (b_last B) (b_pop_frame_link B) (b_free_list B) (b_allocate_before_rebuild B) (b_planned_capacity B).
Definition set_last (v : Z) (B : Block) : Block := mkBlock (b_top B) (b_next B) v (b_pop_frame_link B) (b_free_list B) (b_allocate_before_rebuild B) (b_planned_capacity B).
Definition set_link (v : Z) (B : Block) : Block := mkBlock (b_top B) (b_next B) (b_last B) v (b_free_list B) (b_allocate_before_rebuild B) (b_planned_capacity B).
Definition set_free (v : Z) (B : Block) : Block := mkBlock (b_top B) (b_next B) (b_last B) (b_pop_frame_link B) v (b_allocate_before_rebuild B) (b_planned_capacity B).
Definition set_rebuild (v : Z) (B : Block) : Block := mkBlock (b_top B) (b_next B) (b_last B) (b_pop_frame_link B) (b_free_list B) v (b_planned_capacity B).

Definition with_mem (m : gmap Z Z) (s : JNI) : JNI := mkJNI m (js_blocks s) (js_block_free_list s) (js_blocks_allocated s) (js_free_handle_block s) (js_active_handles s) (js_deleted_handle s) (js_global_handles s) (js_weak_global_handles s).
Definition with_blocks (m : gmap Z Block) (s : JNI) : JNI := mkJNI (js_mem s) m (js_block_free_list s) (js_blocks_allocated s) (js_free_handle_block s) (js_active_handles s) (js_deleted_handle s) (js_global_handles s) (js_weak_global_handles s).
Definition with_free (v : Z) (s : JNI) : JNI := mkJNI (js_mem s) (js_blocks s) v (js_blocks_allocated s) (js_free_handle_block s) (js_active_handles s) (js_deleted_handle s) (js_global_handles s) (js_weak_global_handles s).
Definition with_allocated (v : Z) (s : JNI) : JNI := mkJNI (js_mem s) (js_blocks s) (js_block_free_list s) v (js_free_handle_block s) (js_active_handles s) (js_deleted_handle s) (js_global_handles s) (js_weak_global_handles s).
Definition with_thread_free (t : nat) (v : Z) (s : JNI) : JNI := mkJNI (js_mem s) (js_blocks s) (js_block_free_list s) (js_blocks_allocated s) (<[t := v]> (js_free_handle_block s)) (js_active_handles s) (js_deleted_handle s) (js_global_handles s) (js_weak_global_handles s).
Definition with_active (t : nat) (v : Z) (s : JNI) : JNI := mkJNI (js_mem s) (js_blocks s) (js_block_free_list s) (js_blocks_allocated s) (js_free_handle_block s) (<[t := v]> (js_active_handles s)) (js_deleted_handle s) (js_global_handles s) (js_weak_global_handles s).
Definition with_deleted (v : Z) (s : JNI) : JNI := mkJNI (js_mem s) (js_blocks s) (js_block_free_list s) (js_blocks_allocated s) (js_free_handle_block s) (js_active_handles s) v (js_global_handles s) (js_weak_global_handles s).

(** An access to a block or a handle that does not exist fails. *)
Definition field {A} (b : Z) (f : Block → A) : M JNI A := λ s, (λ B, (f B, s)) <$> js_blocks s !! b.
Definition update (b : Z) (f : Block → Block) : M JNI unit := λ s,
  match js_blocks s !! b with
  | Some B => Some (tt, with_blocks (<[b := f B]> (js_blocks s)) s)
  | None => None
  end.
Definition load (h : Z) : M JNI Z := λ s, (λ v, (v, s)) <$> js_mem s !! h.
Definition store (h v : Z) : M JNI unit := λ s,
  match js_mem s !! h with
  | Some _ => Some (tt, with_mem (<[h := v]> (js_mem s)) s)
  | None => None
  end.
Definition modify (f : JNI → JNI) : M JNI unit := λ s, Some (tt, f s).
Definition reads {A} (f : JNI → A) : M JNI A := λ s, Some (f s, s).

(** The C heap gives an address for a new block, the collected heap is the range
    of addresses given. *)
Section handles.
Context (malloc : gmap Z Block → Z) (heap_start heap_end : Z).

Definition is_in_reserved (v : Z) : bool := (heap_start <=? v) && (v <? heap_end).
Definition free_handle_block (t : nat) : M JNI Z := reads (λ s, default 0 (js_free_handle_block s !! t)).
Definition active_handles (t : nat) : M JNI Z := reads (λ s, default 0 (js_active_handles s !! t)).

(** ** Blocks come and go *)

(** [new JNIHandleBlock()]; its contents are not initialised, here zero. *)
Definition new_block : M JNI Z :=
  blocks ← reads js_blocks;
  let b := malloc blocks in
  modify (λ s, with_mem (list_to_map ((λ i, (slot b i, 0)) <$> seqZ 0 block_size_in_oops) ∪ js_mem s) (with_blocks (<[b := mkBlock 0 0 0 0 0 0 0]> (js_blocks s)) s));;
  n ← reads js_blocks_allocated;
  modify (with_allocated (s32 (n + 1)));;
  mret b.

(** The part under [JNIHandleBlockFreeList_lock]. *)
Definition take_global_block : M JNI Z :=
  free ← reads js_block_free_list;
  if free =? 0 then new_block
  else nx ← field free b_next; modify (with_free nx);; mret free.
Definition reset_block (B : Block) : Block :=
  mkBlock 0 0 (b_last B) 0 (b_free_list B) (b_allocate_before_rebuild B) block_size_in_oops.
Definition allocate_block (thread : option nat) : M JNI Z :=
  block ←
    (match thread with
     | Some t =>
         local ← free_handle_block t;
         if negb (local =? 0) then
           nx ← field local b_next; modify (with_thread_free t nx);; mret local
         else take_global_block
     | None => take_global_block
     end);
  update block reset_block;;
  mret block.

(** The last block of a chain. *)
Fixpoint last_block (fuel : nat) (block : Z) : M JNI Z :=
  match fuel with
  | O => mfailS
  | S fuel' => nx ← field block b_next; if negb (nx =? 0) then last_block fuel' nx else mret block
  end.
Fixpoint return_blocks (fuel : nat) (block : Z) : M JNI unit :=
  match fuel with
  | O => mfailS
  | S fuel' =>
      if negb (block =? 0) then
        nx ← field block b_next;
        free ← reads js_block_free_list;
        update block (set_next free);;
        modify (with_free block);;
        return_blocks fuel' nx
      else mret tt
  end.
Fixpoint release_block (fuel : nat) (block : Z) (thread : option nat) : M JNI unit :=
  match fuel with
  | O => mfailS
  | S fuel' =>
      pop_frame_link ← field block b_pop_frame_link;
      (match thread with
       | Some t =>
           freelist ← free_handle_block t;
           update block (set_link 0);;
           modify (with_thread_free t block);;
           if negb (freelist =? 0) then
             l ← last_block fuel block; update l (set_next freelist)
           else mret tt
       | None => return_blocks fuel block
       end);;
      if negb (pop_frame_link =? 0) then release_block fuel' pop_frame_link thread else mret tt
  end.

(** ** Handles *)

(** The loop that empties the blocks after a first block found empty. *)
Fixpoint reset_following (fuel : nat) (current : Z) : M JNI unit :=
  match fuel with
  | O => mfailS
  | S fuel' =>
      if negb (current =? 0) then
        top ← field current b_top;
        if top =? 0 then mret tt
        else update current (set_top 0);; nx ← field current b_next; reset_following fuel' nx
      else mret tt
  end.

Fixpoint rebuild_block (n : nat) (this current index free : Z) : M JNI Z :=
  match n with
  | O => mret free
  | S n' =>
      let handle := slot current index in
      v ← load handle;
      deleted ← reads js_deleted_handle;
      if v =? deleted then
        fl ← field this b_free_list;
        store handle fl;;
        update this (set_free handle);;
        rebuild_block n' this current (index + 1) (free + 1)
      else rebuild_block n' this current (index + 1) free
  end.
Fixpoint rebuild_chain (fuel : nat) (this current free blocks : Z) : M JNI (Z * Z) :=
  match fuel with
  | O => mfailS
  | S fuel' =>
      if negb (current =? 0) then
        top ← field current b_top;
        free ← rebuild_block (Z.to_nat top) this current 0 free;
        nx ← field current b_next;
        rebuild_chain fuel' this nx free (blocks + 1)
      else mret (free, blocks)
  end.
Definition rebuild_free_list (fuel : nat) (this : Z) : M JNI unit :=
  '(free, blocks) ← rebuild_chain fuel this this 0 0;
  let total := s32 (blocks * block_size_in_oops) in
  let extra := s32 (total - 2 * free) in
  if 0 <? extra then
    update this (set_rebuild (Z.quot (s32 (extra + block_size_in_oops - 1)) block_size_in_oops))
  else mret tt.

(** [fuel] bounds the retries and the walks over blocks. [thread] is the current
    thread. *)
Fixpoint allocate_handle (retries fuel : nat) (this : Z) (thread : nat) (obj : Z) : M JNI Z :=
  match retries with
  | O => mfailS
  | S retries' =>
      top ← field this b_top;
      (if top =? 0 then
         nx ← field this b_next;
         reset_following fuel nx;;
         update this (λ B, set_last this (set_rebuild 0 (set_free 0 B)))
       else mret tt);;
      lst ← field this b_last;
      ltop ← field lst b_top;
      if ltop <? block_size_in_oops then
        update lst (set_top (ltop + 1));;
        store (slot lst ltop) obj;;
        mret (slot lst ltop)
      else
        fl ← field this b_free_list;
        if negb (fl =? 0) then
          nfl ← load fl;
          update this (set_free nfl);;
          store fl obj;;
          mret fl
        else
          nx ← field lst b_next;
          if negb (nx =? 0) then
            update this (set_last nx);;
            allocate_handle retries' fuel this thread obj
          else
            abr ← field this b_allocate_before_rebuild;
            (if abr =? 0 then rebuild_free_list fuel this
             else
               nb ← allocate_block (Some thread);
               update lst (set_next nb);;
               update this (set_last nb);;
               update this (set_rebuild (abr - 1)));;
            allocate_handle retries' fuel this thread obj
  end.

(** ** Traversal

    A closure is what it makes of the oop in a handle. *)
Fixpoint visit_block (n : nat) (b index : Z) (f : Z → Z) : M JNI unit :=
  match n with
  | O => mret tt
  | S n' =>
      let root := slot b index in
      value ← load root;
      (if negb (value =? 0) && is_in_reserved value then store root (f value) else mret tt);;
      visit_block n' b (index + 1) f
  end.
(** The next block is valid only if the current one is full. *)
Fixpoint visit_chain (fuel : nat) (current : Z) (f : Z → Z) : M JNI unit :=
  match fuel with
  | O => mfailS
  | S fuel' =>
      if negb (current =? 0) then
        top ← field current b_top;
        visit_block (Z.to_nat top) current 0 f;;
        if top <? block_size_in_oops then mret tt
        else nx ← field current b_next; visit_chain fuel' nx f
      else mret tt
  end.
Fixpoint block_oops_do (fuel : nat) (current_chain : Z) (f : Z → Z) : M JNI unit :=
  match fuel with
  | O => mfailS
  | S fuel' =>
      if negb (current_chain =? 0) then
        visit_chain fuel current_chain f;;
        link ← field current_chain b_pop_frame_link;
        block_oops_do fuel' link f
      else mret tt
  end.
(** Dead weak references are cleared. *)
Definition weak_oops_do (fuel : nat) (this : Z) (is_alive : Z → bool) (f : Z → Z) : M JNI unit :=
  visit_chain fuel this (λ value, if is_alive value then f value else 0).

(** [get_number_of_live_handles]: the visits of [oops_do] are counted. *)
Fixpoint count_block (n : nat) (b index : Z) (count : Z) : M JNI Z :=
  match n with
  | O => mret count
  | S n' =>
      value ← load (slot b index);
      count_block n' b (index + 1) (if negb (value =? 0) && is_in_reserved value then count + 1 else count)
  end.
Fixpoint count_chain (fuel : nat) (current count : Z) : M JNI Z :=
  match fuel with
  | O => mfailS
  | S fuel' =>
      if negb (current =? 0) then
        top ← field current b_top;
        count ← count_block (Z.to_nat top) current 0 count;
        if top <? block_size_in_oops then mret count
        else nx ← field current b_next; count_chain fuel' nx count
      else mret count
  end.

Definition contains (b handle : Z) (B : Block) : bool := (slot b 0 <=? handle) && (handle <? slot b (b_top B)).
Fixpoint chain_contains (fuel : nat) (current handle : Z) : M JNI bool :=
  match fuel with
  | O => mfailS
  | S fuel' =>
      if negb (current =? 0) then
        c ← field current (contains current handle);
        if (c : bool) then mret true else nx ← field current b_next; chain_contains fuel' nx handle
      else mret false
  end.

(** ** [JNIHandles] *)

Definition jni_initialize (deleted : Z) : M JNI unit :=
  g ← allocate_block None;
  w ← allocate_block None;
  modify (λ s, mkJNI (js_mem s) (js_blocks s) (js_block_free_list s) (js_blocks_allocated s) (js_free_handle_block s) (js_active_handles s) deleted g w).
Definition resolve_handle (handle : Z) : M JNI Z := if handle =? 0 then mret 0 else load handle.
Definition make_local_handle (retries fuel : nat) (thread : nat) (obj : Z) : M JNI Z :=
  if obj =? 0 then mret 0 else h ← active_handles thread; allocate_handle retries fuel h thread obj.
Definition make_global (retries fuel : nat) (thread : nat) (obj : Z) : M JNI Z :=
  if negb (obj =? 0) then h ← reads js_global_handles; allocate_handle retries fuel h thread obj else mret 0.
Definition make_weak_global (retries fuel : nat) (thread : nat) (obj : Z) : M JNI Z :=
  if negb (obj =? 0) then h ← reads js_weak_global_handles; allocate_handle retries fuel h thread obj else mret 0.
(** [destroy_local], [destroy_global] and [destroy_weak_global] *)
Definition destroy_handle (handle : Z) : M JNI unit :=
  if negb (handle =? 0) then deleted ← reads js_deleted_handle; store handle deleted else mret tt.
Definition jni_oops_do (fuel : nat) (f : Z → Z) : M JNI unit :=
  deleted ← reads js_deleted_handle;
  modify (with_deleted (f deleted));;
  g ← reads js_global_handles; block_oops_do fuel g f.

(** Which kind of handle: the walk over the frames of a thread, and
    [jni_GetObjectRefType]; [is_frame_handle] tells the handles that are slots of
    a compiled or interpreted frame. *)
Fixpoint is_local_handle (fuel : nat) (block handle : Z) : M JNI bool :=
  match fuel with
  | O => mfailS
  | S fuel' =>
      if negb (block =? 0) then
        c ← chain_contains fuel block handle;
        if (c : bool) then mret true else link ← field block b_pop_frame_link; is_local_handle fuel' link handle
      else mret false
  end.
Definition JNIInvalidRefType : Z := 0.
Definition JNILocalRefType : Z := 1.
Definition JNIGlobalRefType : Z := 2.
Definition JNIWeakGlobalRefType : Z := 3.
Definition get_object_ref_type (is_frame_handle : nat → Z → bool) (fuel : nat) (thread : nat) (obj : Z) : M JNI Z :=
  active ← active_handles thread;
  l ← is_local_handle fuel active obj;
  if (l : bool) || is_frame_handle thread obj then mret JNILocalRefType
  else
    gh ← reads js_global_handles; g ← chain_contains fuel gh obj;
    if (g : bool) then mret JNIGlobalRefType
    else
      wh ← reads js_weak_global_handles; w ← chain_contains fuel wh obj;
      if (w : bool) then mret JNIWeakGlobalRefType else mret JNIInvalidRefType.

(** ** Frames of a thread

    [jni_PushLocalFrame] and [jni_PopLocalFrame]; a native wrapper resets [_top]
    of the active block when its method returns. [max] is MaxJNILocalCapacity. *)
Definition JNI_OK : Z := 0.
Definition JNI_ERR : Z := -1.
Definition push_local_frame (max : Z) (thread : nat) (capacity : Z) : M JNI Z :=
  if (capacity <? 0) || (0 <? max) && (max <? capacity) then mret JNI_ERR
  else
    old_handles ← active_handles thread;
    new_handles ← allocate_block (Some thread);
    update new_handles (set_link old_handles);;
    modify (with_active thread new_handles);;
    mret JNI_OK.
Definition pop_local_frame (retries fuel : nat) (thread : nat) (result : Z) : M JNI Z :=
  result_oop ← resolve_handle result;
  old_handles ← active_handles thread;
  new_handles ← field old_handles b_pop_frame_link;
  if negb (new_handles =? 0) then
    modify (with_active thread new_handles);;
    update old_handles (set_link 0);;
    release_block fuel old_handles (Some thread);;
    make_local_handle retries fuel thread result_oop
  else mret result.
Definition native_return (thread : nat) : M JNI unit := h ← active_handles thread; update h (set_top 0).
(** [set_active_handles(JNIHandleBlock::allocate_block())] of a starting thread. *)
Definition attach_thread (thread : nat) : M JNI Z :=
  h ← allocate_block None; modify (with_active thread h);; mret h.
(** A call of Java code keeps the handles of its caller aside. *)
Definition call_wrapper (thread : nat) : M JNI Z :=
  new_handles ← allocate_block (Some thread);
  handles ← active_handles thread;
  modify (with_active thread new_handles);;
  mret handles.
Definition call_wrapper_end (fuel : nat) (thread : nat) (handles : Z) : M JNI unit :=
  old_handles ← active_handles thread;
  modify (with_active thread handles);;
  release_block fuel old_handles (Some thread).
(** The end of [JavaThread::exit]: the handles and the free blocks of the thread. *)
Definition thread_exit (fuel : nat) (thread : nat) : M JNI unit :=
  active ← active_handles thread;
  (if negb (active =? 0) then modify (with_active thread 0);; release_block fuel active None else mret tt);;
  free ← free_handle_block thread;
  if negb (free =? 0) then modify (with_thread_free thread 0);; release_block fuel free None else mret tt.
(** A collection: the roots are the handles of threads and of the frames they
    keep aside, each visited once. *)
Fixpoint roots_oops_do (fuel : nat) (roots : list Z) (f : Z → Z) : M JNI unit :=
  match roots with
  | [] => mret tt
  | r :: roots' => block_oops_do fuel r f;; roots_oops_do fuel roots' f
  end.
Definition jni_collect (fuel : nat) (roots : list Z) (is_alive : Z → bool) (f : Z → Z) : M JNI unit :=
  jni_oops_do fuel f;;
  roots_oops_do fuel roots f;;
  w ← reads js_weak_global_handles; weak_oops_do fuel w is_alive f.
End handles.

(** ** Steps of the monad *)

Section steps.
Context {B : Type}.
Implicit Types (s : JNI).
Lemma field_bind {A} b (f : Block → A) (k : A → M JNI B) s blk : js_blocks s !! b = Some blk → (field b f ≫= k) s = k (f blk) s.
Proof. intros Hb. unfold field, mbind, M_bind. by rewrite Hb. Qed.
Lemma update_bind b f (k : unit → M JNI B) s blk :
  js_blocks s !! b = Some blk → (update b f ≫= k) s = k tt (with_blocks (<[b := f blk]> (js_blocks s)) s).
Proof. intros Hb. unfold update, mbind, M_bind. by rewrite Hb. Qed.
Lemma load_bind h (k : Z → M JNI B) s v : js_mem s !! h = Some v → (load h ≫= k) s = k v s.
Proof. intros Hb. unfold load, mbind, M_bind. by rewrite Hb. Qed.
Lemma store_bind h v (k : unit → M JNI B) s : is_Some (js_mem s !! h) → (store h v ≫= k) s = k tt (with_mem (<[h := v]> (js_mem s)) s).
Proof. intros [w Hb]. unfold store, mbind, M_bind. by rewrite Hb. Qed.
Lemma modify_bind f (k : unit → M JNI B) s : (modify f ≫= k) s = k tt (f s).
Proof. done. Qed.
Lemma reads_step {A} (f : JNI → A) (k : A → M JNI B) s : (reads f ≫= k) s = k (f s) s.
Proof. done. Qed.
End steps.
Lemma update_run b f s blk : js_blocks s !! b = Some blk → update b f s = Some (tt, with_blocks (<[b := f blk]> (js_blocks s)) s).
Proof. intros Hb. unfold update. by rewrite Hb. Qed.
Lemma store_run h v s : is_Some (js_mem s !! h) → store h v s = Some (tt, with_mem (<[h := v]> (js_mem s)) s).
Proof. intros [w Hb]. unfold store. by rewrite Hb. Qed.

Lemma decide_elem_app {A} (x : Z) l1 l2 (a b : A) :
  (if decide (x ∈ l1 ++ l2) then a else b) = if decide (x ∈ l1) then a else if decide (x ∈ l2) then a else b.
Proof. destruct (decide (x ∈ l1 ++ l2)) as [H|H]; rewrite elem_of_app in H; destruct (decide (x ∈ l1)), (decide (x ∈ l2)); naive_solver. Qed.
Lemma decide_elem_cons {A} (x y : Z) l (a b : A) : (if decide (x ∈ y :: l) then a else b) = if decide (x = y) then a else if decide (x ∈ l) then a else b.
Proof. destruct (decide (x ∈ y :: l)) as [H|H]; rewrite elem_of_cons in H; destruct (decide (x = y)), (decide (x ∈ l)); naive_solver. Qed.

(** ** Invariant *)

(** Who a block belongs to: the chain of a first block, the list of free
    blocks, or a thread's own list. *)
Inductive own := OTable (h : Z) | OFree | OThread (t : nat).
#[export] Instance own_eq_dec : EqDecision own.
Proof. solve_decision. Defined.

Fixpoint linked (bl : gmap Z Block) (a : Z) (bs : list Z) : Prop :=
  match bs with
  | [] => a = 0
  | b :: bs' => a = b ∧ b ≠ 0 ∧ ∃ B, bl !! b = Some B ∧ linked bl (b_next B) bs'
  end.
Fixpoint threaded (mem : gmap Z Z) (a : Z) (fl : list Z) : Prop :=
  match fl with
  | [] => a = 0
  | x :: fl' => a = x ∧ x ≠ 0 ∧ ∃ v, mem !! x = Some v ∧ threaded mem v fl'
  end.
Definition used (bl : gmap Z Block) (bs : list Z) (x : Z) : Prop :=
  ∃ b B i, b ∈ bs ∧ bl !! b = Some B ∧ 0 ≤ i < b_top B ∧ x = slot b i.
Definition tops (bl : gmap Z Block) (bs : list Z) (P : Z → Prop) : Prop := ∀ b, b ∈ bs → ∃ B, bl !! b = Some B ∧ P (b_top B).

(** The live handles of a chain, and the link of its first block. *)
Record Table := mkTable { t_link : Z; t_live : gmap Z Z }.

Definition upd (s : JNI) (bl : gmap Z Block) (mem : gmap Z Z) : JNI := with_mem mem (with_blocks bl s).

Section invariant.
Context (heap_start heap_end : Z).
Local Abbreviation reserved v := (heap_start ≤ v < heap_end).
Implicit Types (s : JNI) (bl : gmap Z Block) (mem live : gmap Z Z) (owner : gmap Z own) (tabs : gmap Z Table).

(** [d] is the mark of a deleted handle, [fl] the free handles. *)
Definition contents bl mem (d : Z) (bs fl : list Z) live : Prop :=
  NoDup fl ∧ (∀ x, x ∈ fl → used bl bs x) ∧
  (∀ x v, live !! x = Some v → used bl bs x ∧ (x ∉ fl) ∧ mem !! x = Some v ∧ v ≠ d ∧ (v = 0 ∨ reserved v)) ∧
  (∀ x, used bl bs x → x ∉ fl → live !! x = None → mem !! x = Some d).

(** Full blocks, the last block in use, and empty ones. *)
Definition in_use bl mem (d h : Z) (bs1 : list Z) (l : Z) (bs2 fl : list Z) (abr ltop : Z) live : Prop :=
  (∃ B, bl !! h = Some B ∧ b_last B = l ∧ b_allocate_before_rebuild B = abr ∧ threaded mem (b_free_list B) fl) ∧
  tops bl bs1 (eq block_size_in_oops) ∧ (∃ Bl, bl !! l = Some Bl ∧ b_top Bl = ltop) ∧ tops bl bs2 (eq 0) ∧ 0 ≤ abr ∧
  contents bl mem d (bs1 ++ l :: bs2) fl live.
(** The first block was emptied; what follows is stale. *)
Definition cleared bl h (bs : list Z) live : Prop :=
  live = ∅ ∧ ∃ B r1 r2, bs = h :: r1 ++ r2 ∧ bl !! h = Some B ∧ b_top B = 0 ∧ tops bl r1 (Z.lt 0) ∧ tops bl r2 (eq 0).

(** Only the first block of a chain has a link. *)
Definition unlinked bl (bs : list Z) : Prop := ∀ b B, b ∈ bs → bl !! b = Some B → b_pop_frame_link B = 0.
Definition chain owner bl h (bs : list Z) : Prop :=
  head bs = Some h ∧ linked bl h bs ∧ NoDup bs ∧ (∀ b, owner !! b = Some (OTable h) ↔ b ∈ bs) ∧ unlinked bl (tail bs).
Definition table_ok owner bl mem (d h : Z) (T : Table) : Prop :=
  (∃ B, bl !! h = Some B ∧ b_pop_frame_link B = t_link T) ∧
  ∃ bs, chain owner bl h bs ∧
    (cleared bl h bs (t_live T) ∨
     (tops bl [h] (Z.lt 0) ∧ ∃ bs1 l bs2 fl abr ltop, bs = bs1 ++ l :: bs2 ∧ in_use bl mem d h bs1 l bs2 fl abr ltop (t_live T))).

Definition geometry bl mem : Prop :=
  (∀ b B, bl !! b = Some B → 0 < b ∧ (b + 256 ≤ heap_start ∨ heap_end ≤ b) ∧ 0 ≤ b_top B ≤ block_size_in_oops ∧
    ∀ i, 0 ≤ i < block_size_in_oops → is_Some (mem !! slot b i)) ∧
  (∀ b b', is_Some (bl !! b) → is_Some (bl !! b') → b ≠ b' → b + 256 ≤ b' ∨ b' + 256 ≤ b).
Definition free_ok owner bl (a : Z) (o : own) : Prop :=
  ∃ bs, linked bl a bs ∧ NoDup bs ∧ (∀ b, owner !! b = Some o ↔ b ∈ bs) ∧ (o ≠ OFree → unlinked bl bs).

(** The tables but [g]; [D] gives the mark of deleted handles by table. *)
Definition world_but (g : option Z) owner (D : Z → Z) tabs s : Prop :=
  geometry (js_blocks s) (js_mem s) ∧
  (∀ b, is_Some (js_blocks s !! b) ↔ is_Some (owner !! b)) ∧
  (∀ b h, owner !! b = Some (OTable h) → Some h = g ∨ is_Some (tabs !! h)) ∧
  free_ok owner (js_blocks s) (js_block_free_list s) OFree ∧
  (∀ t, free_ok owner (js_blocks s) (default 0 (js_free_handle_block s !! t)) (OThread t)) ∧
  (∀ h T, Some h ≠ g → tabs !! h = Some T → table_ok owner (js_blocks s) (js_mem s) (D h) h T).
(** [tabs] gives the table of every chain by its first block. *)
Definition world owner D tabs s : Prop := world_but None owner D tabs s.

(** *** Addresses *)

Lemma block_slot_inj bl mem b b' i j :
  geometry bl mem → is_Some (bl !! b) → is_Some (bl !! b') → 0 ≤ i < block_size_in_oops → 0 ≤ j < block_size_in_oops →
  slot b i = slot b' j → b = b' ∧ i = j.
Proof.
  intros [_ Hd] Hb Hb' Hi Hj Heq. unfold slot, block_size_in_oops in *. destruct (decide (b = b')) as [->|Hne]; [split; [done|lia]|].
  destruct (Hd b b') as [?|?]; [done..|lia|lia].
Qed.
Lemma slot_not_reserved bl mem b i :
  geometry bl mem → is_Some (bl !! b) → 0 ≤ i < block_size_in_oops → slot b i ≠ 0 ∧ ¬ reserved (slot b i).
Proof. intros [Hg _] [B Hb] Hi. destruct (Hg b B Hb) as (H0 & Hr & _). unfold slot, block_size_in_oops in *. lia. Qed.
Lemma used_slot bl mem bs x : geometry bl mem → used bl bs x → ∃ b i, b ∈ bs ∧ is_Some (bl !! b) ∧ 0 ≤ i < block_size_in_oops ∧ x = slot b i ∧ is_Some (mem !! x).
Proof.
  intros [Hg _] (b & B & i & Hb & HB & Hi & ->). destruct (Hg b B HB) as (_ & _ & Ht & Hm). exists b, i. split; [done|]. split; [by eexists|].
  split; [lia|]. split; [done|]. apply Hm. lia.
Qed.
Lemma used_not_reserved bl mem bs x : geometry bl mem → used bl bs x → x ≠ 0 ∧ ¬ reserved x.
Proof. intros Hg Hu. destruct (used_slot bl mem bs x Hg Hu) as (b & i & _ & Hb & Hi & -> & _). by eapply slot_not_reserved. Qed.
Lemma used_iff bl mem bs b B i :
  geometry bl mem → bl !! b = Some B → 0 ≤ i < block_size_in_oops → used bl bs (slot b i) ↔ b ∈ bs ∧ i < b_top B.
Proof.
  intros Hg HB Hi. split.
  - intros (b' & B' & j & Hb' & HB' & Hj & Heq). destruct (proj1 Hg b' B' HB') as (_ & _ & Ht & _).
    destruct (block_slot_inj bl mem b b' i j) as [<- <-]; [done|by eexists..|done|lia|done|]. rewrite HB in HB'. simplify_eq. split; [done|lia].
  - intros [Hb Hlt]. exists b, B, i. split_and!; try done; lia.
Qed.

(** *** Links *)

Lemma linked_elem bl a bs b : linked bl a bs → b ∈ bs → is_Some (bl !! b) ∧ b ≠ 0.
Proof.
  revert a. induction bs as [|c bs IH]; intros a Hl Hb; [by apply elem_of_nil in Hb|]. destruct Hl as (_ & H0 & B & HB & Hl).
  apply elem_of_cons in Hb as [->|Hb]; [by eauto|by eapply IH].
Qed.
Lemma linked_frame bl bl' a bs :
  (∀ b B, b ∈ bs → bl !! b = Some B → ∃ B', bl' !! b = Some B' ∧ b_next B' = b_next B) → linked bl a bs → linked bl' a bs.
Proof.
  revert a. induction bs as [|c bs IH]; intros a Hf Hl; [done|]. destruct Hl as (-> & H0 & B & HB & Hl).
  destruct (Hf c B) as (B' & HB' & Hn); [left|done|]. split; [done|]. split; [done|]. exists B'. split; [done|]. rewrite Hn. apply IH; [|done].
  intros b B0 Hb. apply Hf. by right.
Qed.
Lemma linked_app bl a bs1 b bs2 : linked bl a (bs1 ++ b :: bs2) → linked bl b (b :: bs2).
Proof.
  revert a. induction bs1 as [|c bs1 IH]; intros a; cbn [app]; [intros (_ & H); by split|]. intros (_ & _ & B & _ & Hl). by eapply IH.
Qed.
Lemma threaded_frame mem mem' a fl : (∀ x, x ∈ fl → mem' !! x = mem !! x) → threaded mem a fl → threaded mem' a fl.
Proof.
  revert a. induction fl as [|x fl IH]; intros a Hf Hl; [done|]. destruct Hl as (-> & H0 & v & Hv & Hl). split; [done|]. split; [done|].
  exists v. rewrite Hf by left. split; [done|]. apply IH; [|done]. intros y Hy. apply Hf. by right.
Qed.
Lemma threaded_values mem a fl x : threaded mem a fl → x ∈ fl → ∃ v, mem !! x = Some v ∧ (v = 0 ∨ v ∈ fl).
Proof.
  revert a. induction fl as [|y fl IH]; intros a Hl Hx; [by apply elem_of_nil in Hx|]. destruct Hl as (_ & _ & v & Hv & Hl).
  apply elem_of_cons in Hx as [->|Hx].
  - exists v. split; [done|]. destruct fl as [|z fl]; [by left|]. destruct Hl as (-> & _). right. right. left.
  - destruct (IH v Hl Hx) as (w & Hw & [->|Hin]); exists w || exists 0; (split; [done|]); [by left|right; by right].
Qed.
Lemma unlinked_frame bl bl' bs : (∀ b, b ∈ bs → bl' !! b = bl !! b) → unlinked bl bs → unlinked bl' bs.
Proof. intros Hf Hu b B Hb. rewrite Hf by done. by apply Hu. Qed.
Lemma elem_of_tail_in (bs : list Z) b : b ∈ tail bs → b ∈ bs.
Proof. destruct bs; [done|]. by right. Qed.
Lemma tops_frame bl bl' bs P : (∀ b, b ∈ bs → bl' !! b = bl !! b) → tops bl bs P → tops bl' bs P.
Proof. intros Hf Ht b Hb. rewrite Hf by done. by apply Ht. Qed.
Lemma tops_app bl bs1 bs2 P : tops bl (bs1 ++ bs2) P ↔ tops bl bs1 P ∧ tops bl bs2 P.
Proof. unfold tops. setoid_rewrite elem_of_app. naive_solver. Qed.
Lemma used_frame bl bl' bs x : (∀ b, b ∈ bs → bl' !! b = bl !! b) → used bl' bs x ↔ used bl bs x.
Proof. intros Hf. split; intros (b & B & i & Hb & HB & Hi); exists b, B, i; [rewrite Hf in HB by done|rewrite Hf by done]; done. Qed.

(** *** Changes confined to some blocks *)

Definition confined (P : Z → Prop) bl mem bl' mem' : Prop :=
  (∀ b, is_Some (bl' !! b) ↔ is_Some (bl !! b)) ∧ (∀ b, ¬ P b → bl' !! b = bl !! b) ∧
  (∀ b B, bl' !! b = Some B → 0 ≤ b_top B ≤ block_size_in_oops) ∧
  (∀ x, is_Some (mem !! x) → is_Some (mem' !! x)) ∧
  (∀ b i, is_Some (bl !! b) → ¬ P b → 0 ≤ i < block_size_in_oops → mem' !! slot b i = mem !! slot b i).
Lemma confined_refl P bl mem : geometry bl mem → confined P bl mem bl mem.
Proof. intros [Hg _]. split_and!; try done. intros b B HB. by destruct (Hg b B HB) as (_ & _ & ? & _). Qed.
Lemma confined_trans P bl mem bl1 mem1 bl2 mem2 : confined P bl mem bl1 mem1 → confined P bl1 mem1 bl2 mem2 → confined P bl mem bl2 mem2.
Proof.
  intros (A1 & A2 & A3 & A4 & A5) (B1 & B2 & B3 & B4 & B5). split_and!; [|intros b Hb; by rewrite B2, A2|done|eauto|].
  - intros b. by rewrite B1, A1.
  - intros b i Hb Hn Hi. rewrite B5, A5; try done. by apply A1.
Qed.
Lemma confined_geometry P bl mem bl' mem' : geometry bl mem → confined P bl mem bl' mem' → geometry bl' mem'.
Proof.
  intros [Hg Hd] (A1 & A2 & A3 & A4 & A5). split.
  - intros b B HB. destruct (proj1 (A1 b) (ex_intro _ _ HB)) as [B0 HB0]. destruct (Hg b B0 HB0) as (G1 & G2 & _ & G4). split_and!; try done; eauto.
    all: by eapply A3.
  - intros b b' Hb Hb'. apply Hd; by apply A1.
Qed.
Lemma geometry_mem bl mem mem' : geometry bl mem → (∀ x, is_Some (mem !! x) → is_Some (mem' !! x)) → geometry bl mem'.
Proof. intros [Hg Hd] Hm. split; [|done]. intros b B HB. destruct (Hg b B HB) as (G1 & G2 & G3 & G4). split_and!; try done; [lia..|]. intros i Hi. by apply Hm, G4. Qed.
Lemma confined_block P bl mem b B f :
  geometry bl mem → bl !! b = Some B → P b → 0 ≤ b_top (f B) ≤ block_size_in_oops → confined P bl mem (<[b := f B]> bl) mem.
Proof.
  intros [Hg _] HB HP Ht. split_and!; try done.
  - intros c. rewrite lookup_insert_is_Some'. split; [intros [<-|?]; [by eexists|done]|by right].
  - intros c Hc. apply lookup_insert_ne. by intros <-.
  - intros c C. rewrite lookup_insert_Some. intros [[<- <-]|[_ HC]]; [done|]. by destruct (Hg c C HC) as (_ & _ & ? & _).
Qed.
Lemma confined_mem P bl mem bs x v :
  geometry bl mem → used bl bs x → (∀ b, b ∈ bs → P b) → confined P bl mem bl (<[x := v]> mem).
Proof.
  intros Hg Hu HP. destruct (used_slot bl mem bs x Hg Hu) as (b & i & Hb & HB & Hi & -> & _). split_and!; try done.
  - intros c C HC. by destruct (proj1 Hg c C HC) as (_ & _ & ? & _).
  - intros y Hy. apply lookup_insert_is_Some'. by right.
  - intros c j Hc Hn Hj. apply lookup_insert_ne. intros Heq. destruct (block_slot_inj bl mem b c i j) as [-> _]; try done. naive_solver.
Qed.

(** *** What is not touched stays as it was *)

Section frame.
Context (owner : gmap Z own) (bl bl' : gmap Z Block) (mem mem' : gmap Z Z).

Lemma contents_frame d bs fl live :
  geometry bl mem → (∀ b, b ∈ bs → bl' !! b = bl !! b) → (∀ b i, b ∈ bs → is_Some (bl !! b) → 0 ≤ i < block_size_in_oops → mem' !! slot b i = mem !! slot b i) →
  contents bl mem d bs fl live → contents bl' mem' d bs fl live.
Proof.
  intros Hg Hb Hm (C1 & C2 & C3 & C4).
  assert (Hu : ∀ x, used bl' bs x ↔ used bl bs x) by (intros; by apply used_frame).
  assert (Hx : ∀ x, used bl bs x → mem' !! x = mem !! x).
  { intros x Hux. destruct (used_slot bl mem bs x Hg Hux) as (b & i & ? & ? & ? & -> & _). by apply Hm. }
  split_and!; [done|intros x Hin; by apply Hu, C2| |].
  - intros x v Hl. destruct (C3 x v Hl) as (D1 & D2 & D3 & D4 & D5). split_and!; [by apply Hu|done|by rewrite Hx|done..].
  - intros x Hux. apply Hu in Hux. rewrite Hx by done. by apply C4.
Qed.
Lemma table_frame owner' d h T :
  geometry bl mem → (∀ b, owner' !! b = Some (OTable h) ↔ owner !! b = Some (OTable h)) →
  (∀ b, owner !! b = Some (OTable h) → bl' !! b = bl !! b) →
  (∀ b i, owner !! b = Some (OTable h) → is_Some (bl !! b) → 0 ≤ i < block_size_in_oops → mem' !! slot b i = mem !! slot b i) →
  table_ok owner bl mem d h T → table_ok owner' bl' mem' d h T.
Proof.
  intros Hg Ho Hb Hm ((B & HB & Hl) & bs & (Hh & Hlk & Hnd & Hown & Hul) & Hcase).
  assert (Hin : h ∈ bs) by (destruct bs; [done|]; cbn in Hh; simplify_eq; left).
  assert (Hb' : ∀ b, b ∈ bs → bl' !! b = bl !! b) by (intros; by apply Hb, Hown).
  split; [exists B; by rewrite Hb'|]. exists bs. split.
  { split_and!; [done| |done|intros b; by rewrite Ho, Hown|eapply unlinked_frame; [|exact Hul]; intros b Hbt; by apply Hb', elem_of_tail_in]. eapply linked_frame; [|exact Hlk]. intros b B0 Hbs HB0. exists B0. by rewrite Hb'. }
  destruct Hcase as [(-> & B0 & r1 & r2 & -> & HB0 & Ht & Ht1 & Ht2)|(Ht & bs1 & l & bs2 & fl & abr & ltop & -> & (B0 & HB0 & Hla & Ha & Hth) & Ht1 & (Bl & HBl & Hlt) & Ht2 & H0 & Hc)].
  - left. split; [done|]. exists B0, r1, r2. split_and!; [done|by rewrite Hb'|done| |].
    all: eapply tops_frame; [|eassumption]; intros b Hr; apply Hb'; right; apply elem_of_app; auto.
  - right. split; [eapply tops_frame; [|exact Ht]; intros b ->%list_elem_of_singleton; by apply Hb'|].
    exists bs1, l, bs2, fl, abr, ltop. split; [done|]. split_and!; [|eapply tops_frame; [|exact Ht1]; intros b Hr; apply Hb'; set_solver| |eapply tops_frame; [|exact Ht2]; intros b Hr; apply Hb'; set_solver|done|].
    + exists B0. rewrite Hb' by done. split_and!; try done. eapply threaded_frame; [|exact Hth]. intros x Hx. destruct Hc as (_ & C2 & _).
      destruct (used_slot bl mem _ x Hg (C2 x Hx)) as (b & i & ? & ? & ? & -> & _). apply Hm; [by apply Hown|done..].
    + exists Bl. rewrite Hb' by set_solver. done.
    + eapply contents_frame; [done|done| |exact Hc]. intros b i Hr. by apply Hm, Hown.
Qed.
Lemma free_frame owner' a o :
  (∀ b, owner' !! b = Some o ↔ owner !! b = Some o) → (∀ b, owner !! b = Some o → bl' !! b = bl !! b) →
  free_ok owner bl a o → free_ok owner' bl' a o.
Proof using Type.
  intros Ho Hb (bs & Hl & Hnd & Hown & Hul). exists bs.
  split_and!; [|done|intros b; by rewrite Ho, Hown|intros Hof; eapply unlinked_frame; [|by apply Hul]; intros b Hbs; by apply Hb, Hown].
  eapply linked_frame; [|exact Hl]. intros b B Hbs HB. exists B. by rewrite Hb by by apply Hown.
Qed.
End frame.

Lemma world_but_confined h owner D tabs s bl' mem' :
  world_but (Some h) owner D tabs s → confined (λ b, owner !! b = Some (OTable h)) (js_blocks s) (js_mem s) bl' mem' →
  world_but (Some h) owner D tabs (upd s bl' mem').
Proof.
  intros (W1 & W2 & W3 & W4 & W5 & W6) Hc. pose proof Hc as (A1 & A2 & A3 & A4 & A5). split_and!; cbn.
  - by eapply confined_geometry.
  - intros b. by rewrite A1.
  - done.
  - eapply free_frame; [done| |exact W4]. intros b Hb. apply A2. by rewrite Hb.
  - intros t. eapply free_frame; [done| |exact (W5 t)]. intros b Hb. apply A2. by rewrite Hb.
  - intros g T Hg HT. eapply table_frame; [exact W1|done| | |by apply W6].
    + intros b Hb. apply A2. rewrite Hb. congruence.
    + intros b i Hb HB Hi. apply A5; [done| |done]. rewrite Hb. congruence.
Qed.
Lemma world_but_intro h owner D tabs s T : world owner D tabs s → tabs !! h = Some T → world_but (Some h) owner D tabs s.
Proof. intros (W1 & W2 & W3 & W4 & W5 & W6) HT. split_and!; try done; [naive_solver|]. intros g T' _. by apply W6. Qed.
Lemma world_but_elim h owner D tabs s T :
  world_but (Some h) owner D tabs s → table_ok owner (js_blocks s) (js_mem s) (D h) h T → world owner D (<[h := T]> tabs) s.
Proof.
  intros (W1 & W2 & W3 & W4 & W5 & W6) HT. split_and!; try done.
  - intros b g Hb. right. apply lookup_insert_is_Some'. destruct (W3 b g Hb) as [Heq|]; [left; congruence|by right].
  - intros g T' _. rewrite lookup_insert_Some. intros [[<- <-]|[Hne HT']]; [done|]. apply W6; [congruence|done].
Qed.
Lemma world_table h owner D tabs s T : world owner D tabs s → tabs !! h = Some T → table_ok owner (js_blocks s) (js_mem s) (D h) h T.
Proof. intros (_ & _ & _ & _ & _ & W6) HT. by apply W6. Qed.

(** *** One change of a chain *)

Definition same_tops bl bl' : Prop := ∀ b, b_top <$> bl' !! b = b_top <$> bl !! b.
Lemma same_tops_insert bl b B B' : bl !! b = Some B → b_top B' = b_top B → same_tops bl (<[b := B']> bl).
Proof. intros HB Ht c. destruct (decide (c = b)) as [->|Hne]; [by rewrite lookup_insert_eq, HB; cbn; rewrite Ht|by rewrite lookup_insert_ne]. Qed.
Lemma same_tops_Some bl bl' b B : same_tops bl bl' → bl !! b = Some B → ∃ B', bl' !! b = Some B' ∧ b_top B' = b_top B.
Proof. intros Hs HB. specialize (Hs b). rewrite HB in Hs. destruct (bl' !! b) as [B'|]; simplify_eq/=. by eexists. Qed.
Lemma same_tops_sym bl bl' : same_tops bl bl' → same_tops bl' bl.
Proof. intros Hs b. by rewrite Hs. Qed.
Lemma tops_same bl bl' bs P : same_tops bl bl' → tops bl bs P → tops bl' bs P.
Proof. intros Hs Ht b Hb. destruct (Ht b Hb) as (B & HB & HP). destruct (same_tops_Some bl bl' b B Hs HB) as (B' & HB' & Heq). exists B'. by rewrite Heq. Qed.
Lemma used_same bl bl' bs x : same_tops bl bl' → used bl' bs x ↔ used bl bs x.
Proof.
  intros Hs. split; intros (b & B & i & Hb & HB & Hi & ->).
  - destruct (same_tops_Some bl' bl b B (same_tops_sym _ _ Hs) HB) as (B' & HB' & Heq). exists b, B', i. by rewrite Heq.
  - destruct (same_tops_Some bl bl' b B Hs HB) as (B' & HB' & Heq). exists b, B', i. by rewrite Heq.
Qed.
Lemma contents_same bl bl' mem d bs fl live : same_tops bl bl' → contents bl mem d bs fl live → contents bl' mem d bs fl live.
Proof. intros Hs. unfold contents. by setoid_rewrite (used_same bl bl' bs _ Hs). Qed.
Lemma chain_insert owner bl h bs b B B' : bl !! b = Some B → b_next B' = b_next B → (b = h ∨ b_pop_frame_link B' = b_pop_frame_link B) →
  chain owner bl h bs → chain owner (<[b := B']> bl) h bs.
Proof.
  intros HB Hn Hor (Hh & Hl & Hnd & Hown & Hul). split_and!; [done| |done..|].
  2: { intros c C Hc. rewrite lookup_insert_Some. intros [[<- <-]|[_ HC]]; [|by eapply Hul]. destruct Hor as [->| ->]; [|by eapply Hul].
       destruct bs as [|b0 bs]; [done|]. cbn in Hh. injection Hh as ->. by apply NoDup_cons in Hnd as [? _]. }
  eapply linked_frame; [|exact Hl]. intros c C _ HC.
  destruct (decide (c = b)) as [->|Hne]; [|exists C; by rewrite lookup_insert_ne]. exists B'. rewrite lookup_insert_eq. split; [done|congruence].
Qed.
Lemma chain_owned owner bl h bs : chain owner bl h bs → ∀ b, owner !! b = Some (OTable h) ↔ b ∈ bs.
Proof. by intros (_ & _ & _ & Hown & _). Qed.
Lemma chain_head owner bl h bs : chain owner bl h bs → h ∈ bs.
Proof. intros (Hh & _). destruct bs; [done|]. cbn in Hh. simplify_eq. left. Qed.

(** The next handle of the last block. *)
Lemma in_use_bump bl mem d h bs1 l bs2 fl abr ltop live Bl obj :
  geometry bl mem → NoDup (bs1 ++ l :: bs2) → in_use bl mem d h bs1 l bs2 fl abr ltop live → bl !! l = Some Bl → 0 ≤ ltop < block_size_in_oops →
  obj ≠ d → reserved obj →
  live !! slot l ltop = None ∧
  in_use (<[l := set_top (ltop + 1) Bl]> bl) (<[slot l ltop := obj]> mem) d h bs1 l bs2 fl abr (ltop + 1) (<[slot l ltop := obj]> live).
Proof.
  intros Hg Hnd ((B & HB & Hla & Ha & Hth) & Ht1 & (Bl' & HBl & Hlt) & Ht2 & H0 & (C1 & C2 & C3 & C4)) HBl' Hlt' Hd Hr. rewrite HBl in HBl'. simplify_eq.
  apply NoDup_app in Hnd as (Hnd1 & Hx & [Hl2 Hnd2]%NoDup_cons).
  assert (Hnu : ¬ used bl (bs1 ++ b_last B :: bs2) (slot (b_last B) (b_top Bl))) by (rewrite used_iff; [|done..|lia]; lia).
  assert (Hu : ∀ x, used (<[b_last B := set_top (b_top Bl + 1) Bl]> bl) (bs1 ++ b_last B :: bs2) x ↔ used bl (bs1 ++ b_last B :: bs2) x ∨ x = slot (b_last B) (b_top Bl)).
  { intros x. split.
    - intros (b & C & i & Hb & HC & Hi & ->). apply lookup_insert_Some in HC as [[<- <-]|[Hne HC]]; [|left; by exists b, C, i].
      cbn in Hi. destruct (decide (i = b_top Bl)) as [->|]; [by right|left]. exists (b_last B), Bl, i. split_and!; try done; lia.
    - intros [(b & C & i & Hb & HC & Hi & ->)| ->].
      + destruct (decide (b = b_last B)) as [->|Hne]; [|exists b, C, i; by rewrite lookup_insert_ne].
        exists (b_last B), (set_top (b_top Bl + 1) Bl), i. rewrite lookup_insert_eq. simplify_eq. split_and!; try done; cbn; lia.
      + exists (b_last B), (set_top (b_top Bl + 1) Bl), (b_top Bl). rewrite lookup_insert_eq. split_and!; try done; cbn; [set_solver|lia..]. }
  assert (Hlive : live !! slot (b_last B) (b_top Bl) = None).
  { destruct (live !! _) as [v|] eqn:E; [|done]. by destruct (C3 _ _ E) as [? _]. }
  split; [done|]. split_and!.
  - destruct (decide (h = b_last B)) as [->|Hne].
    + exists (set_top (b_top Bl + 1) Bl). rewrite lookup_insert_eq. simplify_eq. split_and!; try done. eapply threaded_frame; [|exact Hth].
      intros x Hx'. apply lookup_insert_ne. intros <-. by apply Hnu, C2.
    + exists B. rewrite lookup_insert_ne by done. split_and!; try done. eapply threaded_frame; [|exact Hth].
      intros x Hx'. apply lookup_insert_ne. intros <-. by apply Hnu, C2.
  - eapply tops_frame; [|exact Ht1]. intros b Hb. apply lookup_insert_ne. intros <-. eapply Hx; [exact Hb|left].
  - eexists. by rewrite lookup_insert_eq.
  - eapply tops_frame; [|exact Ht2]. intros b Hb. apply lookup_insert_ne. by intros <-.
  - done.
  - split_and!; [done|intros x Hx'; apply Hu; left; by apply C2| |].
    + intros x v. rewrite lookup_insert_Some. intros [[<- <-]|[Hne Hv]].
      * rewrite lookup_insert_eq. split_and!; [apply Hu; by right|intros Hin; by apply Hnu, C2|done|done|by right].
      * destruct (C3 x v Hv) as (D1 & D2 & D3 & D4 & D5). rewrite lookup_insert_ne by done. split_and!; try done. apply Hu. by left.
    + intros x Hux Hfl. rewrite lookup_insert_None. intros [Hn Hne]. rewrite lookup_insert_ne by done. apply C4; [|done..].
      apply Hu in Hux as [?| ->]; done.
Qed.
(** The first handle of the free list. *)
Lemma in_use_take bl mem d h bs1 l bs2 x fl abr ltop live B v obj :
  in_use bl mem d h bs1 l bs2 (x :: fl) abr ltop live → bl !! h = Some B → mem !! x = Some v → obj ≠ d → reserved obj →
  live !! x = None ∧ in_use (<[h := set_free v B]> bl) (<[x := obj]> mem) d h bs1 l bs2 fl abr ltop (<[x := obj]> live).
Proof.
  intros ((B' & HB' & Hla & Ha & Hth) & Ht1 & (Bl & HBl & Hlt) & Ht2 & H0 & (C1 & C2 & C3 & C4)) HB Hv Hd Hr. rewrite HB in HB'. simplify_eq.
  assert (Hs : same_tops bl (<[h := set_free v B']> bl)) by by eapply same_tops_insert.
  apply NoDup_cons in C1 as [Hx C1]. destruct Hth as (_ & _ & w & Hw & Hth). rewrite Hv in Hw. injection Hw as <-.
  assert (Hlive : live !! x = None).
  { destruct (live !! x) as [u|] eqn:E; [|done]. destruct (C3 _ _ E) as (_ & Hn & _). destruct Hn. left. }
  split; [done|]. split_and!; [|by eapply tops_same| |by eapply tops_same|done|].
  - exists (set_free v B'). rewrite lookup_insert_eq. split_and!; try done. eapply threaded_frame; [|exact Hth]. intros y Hy. apply lookup_insert_ne. by intros <-.
  - destruct (same_tops_Some _ _ _ _ Hs HBl) as (Bl' & ? & ?). by exists Bl'.
  - eapply contents_same; [exact Hs|]. split_and!; [done|intros y Hy; apply C2; by right| |].
    + intros y u. rewrite lookup_insert_Some. intros [[<- <-]|[Hne Hu]].
      * rewrite lookup_insert_eq. split_and!; [apply C2; left|done|done|done|by right].
      * destruct (C3 y u Hu) as (D1 & D2 & D3 & D4 & D5). rewrite lookup_insert_ne by done. split_and!; try done. by intros Hin; apply D2; right.
    + intros y Hu Hfl. rewrite lookup_insert_None. intros [Hn Hne]. rewrite lookup_insert_ne by done. apply C4; [done| |done].
      intros [->|?]%elem_of_cons; done.
Qed.
(** The last block moves on to the next. *)
Lemma in_use_advance bl mem d h bs1 l b bs2 fl abr live B :
  in_use bl mem d h bs1 l (b :: bs2) fl abr block_size_in_oops live → bl !! h = Some B →
  in_use (<[h := set_last b B]> bl) mem d h (bs1 ++ [l]) b bs2 fl abr 0 live.
Proof.
  intros ((B' & HB' & Hla & Ha & Hth) & Ht1 & (Bl & HBl & Hlt) & Ht2 & H0 & Hc) HB. rewrite HB in HB'. simplify_eq.
  assert (Hs : same_tops bl (<[h := set_last b B']> bl)) by by eapply same_tops_insert.
  split_and!; [| | | |done|].
  - exists (set_last b B'). by rewrite lookup_insert_eq.
  - eapply tops_same; [exact Hs|]. apply tops_app. split; [done|]. intros c ->%list_elem_of_singleton. eauto.
  - destruct (Ht2 b) as (Bb & HBb & Htb); [left|]. destruct (same_tops_Some _ _ _ _ Hs HBb) as (Bb' & ? & ?). exists Bb'. split; [done|congruence].
  - eapply tops_same; [exact Hs|]. intros c Hc2. apply Ht2. by right.
  - eapply contents_same; [exact Hs|]. by rewrite <-app_assoc.
Qed.
(** A deleted handle is put on the free list. *)
Lemma in_use_give bl mem d h bs1 l bs2 x fl abr ltop live B :
  geometry bl mem → reserved d → 0 < heap_start →
  in_use bl mem d h bs1 l bs2 fl abr ltop live → bl !! h = Some B → used bl (bs1 ++ l :: bs2) x → mem !! x = Some d →
  in_use (<[h := set_free x B]> bl) (<[x := b_free_list B]> mem) d h bs1 l bs2 (x :: fl) abr ltop live.
Proof.
  intros Hg Hr Hh0 ((B' & HB' & Hla & Ha & Hth) & Ht1 & (Bl & HBl & Hlt) & Ht2 & H0 & (C1 & C2 & C3 & C4)) HB Hu Hx. rewrite HB in HB'. simplify_eq.
  assert (Hs : same_tops bl (<[h := set_free x B']> bl)) by by eapply same_tops_insert.
  assert (Hfl : x ∉ fl).
  { intros Hin. destruct (threaded_values mem _ fl x Hth Hin) as (v & Hv & [->|Hvin]); simplify_eq; [lia|].
    by destruct (used_not_reserved bl mem _ d Hg (C2 d Hvin)). }
  assert (Hx0 : x ≠ 0) by by eapply used_not_reserved.
  split_and!; [|by eapply tops_same| |by eapply tops_same|done|].
  - exists (set_free x B'). rewrite lookup_insert_eq. split_and!; try done. cbn [set_free b_free_list threaded]. split; [done|]. split; [done|].
    exists (b_free_list B'). rewrite lookup_insert_eq. split; [done|]. eapply threaded_frame; [|exact Hth]. intros y Hy. apply lookup_insert_ne. by intros <-.
  - destruct (same_tops_Some _ _ _ _ Hs HBl) as (Bl' & ? & ?). by exists Bl'.
  - eapply contents_same; [exact Hs|]. split_and!; [by apply NoDup_cons|intros y [->|Hy]%elem_of_cons; [done|by apply C2]| |].
    + intros y u Hy. destruct (C3 y u Hy) as (D1 & D2 & D3 & D4 & D5). assert (y ≠ x) by congruence. rewrite lookup_insert_ne by done. split_and!; try done.
      intros [->|?]%elem_of_cons; done.
    + intros y Hy [Hne Hn]%not_elem_of_cons Hly. rewrite lookup_insert_ne by done. by apply C4.
Qed.

(** *** The loops *)

Lemma upd_self s : upd s (js_blocks s) (js_mem s) = s.
Proof. by destruct s. Qed.
Lemma set_free_self B : set_free (b_free_list B) B = B.
Proof. by destruct B. Qed.

Lemma reset_following_run s r1 : ∀ fuel a r2 bl,
  linked bl a (r1 ++ r2) → NoDup (r1 ++ r2) → tops bl r1 (Z.lt 0) → tops bl r2 (eq 0) → (length r1 < fuel)%nat →
  ∃ bl', reset_following fuel a (upd s bl (js_mem s)) = Some (tt, upd s bl' (js_mem s)) ∧
    ∀ b, bl' !! b = if decide (b ∈ r1) then set_top 0 <$> bl !! b else bl !! b.
Proof.
  induction r1 as [|c r1 IH]; intros [|fuel] a r2 bl Hl Hnd Ht1 Ht2 Hf; cbn [length] in Hf; try lia.
  - exists bl. split; [|done]. destruct r2 as [|c r2]; cbn [app linked] in Hl; [by subst a|]. destruct Hl as (-> & H0 & B & HB & _).
    destruct (Ht2 c) as (B' & HB' & Ht); [left|]. rewrite HB in HB'; injection HB' as <-. cbn [reset_following]. rewrite (proj2 (Z.eqb_neq c 0) H0). cbn [negb].
    rewrite (field_bind c b_top _ _ B) by done. by rewrite <-Ht.
  - destruct Hl as (-> & H0 & B & HB & Hl). destruct (Ht1 c) as (B' & HB' & Ht); [left|]. rewrite HB in HB'; injection HB' as <-.
    apply NoDup_cons in Hnd as [Hc Hnd]. assert (Hne : ∀ b, b ∈ r1 ++ r2 → b ≠ c) by (intros b Hb ->; done).
    destruct (IH fuel (b_next B) r2 (<[c := set_top 0 B]> bl)) as (bl' & Hrun & Hbl'); [| |..|lia|].
    + eapply linked_frame; [|exact Hl]. intros b B0 Hb HB0. exists B0. rewrite lookup_insert_ne; [done|]. by intros <-; apply (Hne c).
    + done.
    + eapply tops_frame; [|intros b Hb; apply Ht1; by right]. intros b Hb. apply lookup_insert_ne. intros <-. apply (Hne c); [set_solver|done].
    + eapply tops_frame; [|exact Ht2]. intros b Hb. apply lookup_insert_ne. intros <-. apply (Hne c); [set_solver|done].
    + exists bl'. split.
      * cbn [reset_following]. rewrite (proj2 (Z.eqb_neq c 0) H0). cbn [negb]. rewrite (field_bind c b_top _ _ B) by done.
        rewrite (proj2 (Z.eqb_neq (b_top B) 0)) by lia. rewrite (update_bind c _ _ _ B) by done.
        rewrite (field_bind c b_next _ _ (set_top 0 B)) by (cbn; by rewrite lookup_insert_eq). exact Hrun.
      * intros b. rewrite Hbl'. destruct (decide (b = c)) as [->|Hbc].
        -- rewrite decide_False by set_solver. rewrite decide_True by left. by rewrite lookup_insert_eq, HB.
        -- rewrite lookup_insert_ne by done. destruct (decide (b ∈ r1)); [by rewrite decide_True by by right|by rewrite decide_False by set_solver].
Qed.

Section rebuild.
Context (s : JNI) (bl : gmap Z Block) (h : Z) (B : Block) (bs1 : list Z) (l : Z) (bs2 : list Z) (abr ltop : Z) (live : gmap Z Z).
Local Abbreviation bs := (bs1 ++ l :: bs2).
Local Abbreviation d := (js_deleted_handle s).
Local Abbreviation bl_at v := (<[h := set_free v B]> bl).
(** While the free list is built only [_free_list] and the handles change. *)
Definition building (v : Z) mem (fl : list Z) : Prop :=
  geometry (bl_at v) mem ∧ in_use (bl_at v) mem d h bs1 l bs2 fl abr ltop live.
Hypotheses (HB : bl !! h = Some B) (Hr : reserved d) (H0 : 0 < heap_start).

Lemma bl_at_twice v w : bl_at w = <[h := set_free w (set_free v B)]> (bl_at v).
Proof using Type. by rewrite insert_insert_eq. Qed.
Lemma bl_at_lookup v b : is_Some (bl_at v !! b) ↔ is_Some (bl !! b).
Proof. rewrite lookup_insert_is_Some'. split; [intros [<-|?]; [by eexists|done]|by right]. Qed.
Lemma bl_at_field v b C : bl !! b = Some C → ∃ C', bl_at v !! b = Some C' ∧ b_top C' = b_top C ∧ b_next C' = b_next C.
Proof.
  intros HC. destruct (decide (b = h)) as [->|Hne]; [|exists C; by rewrite lookup_insert_ne].
  exists (set_free v B). rewrite lookup_insert_eq. rewrite HB in HC. by simplify_eq.
Qed.

Lemma rebuild_block_run n : ∀ current C index free v mem fl,
  building v mem fl → current ∈ bs → bl !! current = Some C → 0 ≤ index → index + Z.of_nat n ≤ b_top C →
  ∃ v' mem' fl' free', rebuild_block n h current index free (upd s (bl_at v) mem) = Some (free', upd s (bl_at v') mem') ∧
    building v' mem' fl' ∧ confined (λ b, b ∈ bs) (bl_at v) mem (bl_at v) mem' ∧
    free ≤ free' ≤ free + Z.of_nat n ∧ Z.of_nat (length fl') - Z.of_nat (length fl) = free' - free.
Proof.
  induction n as [|n IH]; intros current C index free v mem fl [Hg Hu] Hc HC Hi Hn.
  - exists v, mem, fl, free. split_and!; try done; [by apply confined_refl|lia..].
  - destruct (bl_at_field v current C HC) as (C' & HC' & HtC & _). cbn [rebuild_block].
    assert (Hx : used (bl_at v) bs (slot current index)) by (exists current, C', index; split_and!; try done; lia).
    destruct (used_slot _ _ _ _ Hg Hx) as (_ & _ & _ & _ & _ & _ & [w Hw]).
    rewrite (load_bind _ _ _ w) by done. rewrite reads_step. cbn [js_deleted_handle upd with_mem with_blocks].
    destruct (w =? d) eqn:E.
    + apply Z.eqb_eq in E as ->. rewrite (field_bind h b_free_list _ _ (set_free v B)) by (cbn; by rewrite lookup_insert_eq).
      rewrite store_bind by (cbn; by eexists). rewrite (update_bind h _ _ _ (set_free v B)) by (cbn; by rewrite lookup_insert_eq).
      cbn [b_free_list set_free]. change (with_blocks _ _) with (upd s (<[h := set_free (slot current index) B]> (bl_at v)) (<[slot current index := v]> mem)).
      rewrite insert_insert_eq.
      assert (Hcm : confined (λ b, b ∈ bs) (bl_at v) mem (bl_at v) (<[slot current index := v]> mem)) by (by eapply confined_mem).
      destruct (IH current C (index + 1) (free + 1) (slot current index) (<[slot current index := v]> mem) (slot current index :: fl))
        as (v' & mem' & fl' & free' & Hrun & Hb & Hcf & Hfr & Hlen); [|done|done|lia|lia|].
      { split.
        - eapply confined_geometry; [eapply confined_geometry; [exact Hg|exact Hcm]|].
          rewrite (bl_at_twice v (slot current index)). eapply (confined_block (λ b, True) _ _ h (set_free v B) (set_free (slot current index))); [by eapply confined_geometry|by rewrite lookup_insert_eq|done|].
          destruct (proj1 Hg h (set_free v B)) as (_ & _ & ? & _); [by rewrite lookup_insert_eq|done].
        - rewrite (bl_at_twice v (slot current index)). eapply (in_use_give _ _ _ _ _ _ _ _ _ _ _ _ (set_free v B)); try done. by rewrite lookup_insert_eq. }
      exists v', mem', fl', free'. cbn [length] in Hlen. split_and!; [exact Hrun|done| |lia..].
      eapply confined_trans; [exact Hcm|]. destruct Hcf as (F1 & F2 & F3 & F4 & F5). split_and!; try done.
      * intros b C0 HC0. by destruct (proj1 Hg b C0 HC0) as (_ & _ & ? & _).
      * intros b i. rewrite bl_at_lookup. intros Hb'. apply F5. by apply bl_at_lookup.
    + destruct (IH current C (index + 1) free v mem fl) as (v' & mem' & fl' & free' & Hrun & Hb & Hcf & Hfr & Hlen); [done..|lia|lia|].
      exists v', mem', fl', free'. split_and!; [exact Hrun|done|done|lia..].
Qed.
Lemma rebuild_chain_run cs : ∀ fuel a free blocks v mem fl,
  building v mem fl → linked bl a cs → (∀ c, c ∈ cs → c ∈ bs) → (length cs < fuel)%nat →
  ∃ v' mem' fl' free', rebuild_chain fuel h a free blocks (upd s (bl_at v) mem) = Some ((free', blocks + zlen cs), upd s (bl_at v') mem') ∧
    building v' mem' fl' ∧ confined (λ b, b ∈ bs) (bl_at v) mem (bl_at v) mem' ∧
    free ≤ free' ≤ free + 32 * zlen cs ∧ Z.of_nat (length fl') - Z.of_nat (length fl) = free' - free.
Proof.
  induction cs as [|c cs IH]; intros [|fuel] a free blocks v mem fl Hb Hl Hin Hf; cbn [length] in Hf; try lia.
  - cbn [linked] in Hl. subst a. exists v, mem, fl, free. unfold zlen. cbn [length Z.of_nat]. rewrite Z.add_0_r.
    split_and!; try done; [apply confined_refl, Hb|lia..].
  - destruct Hl as (-> & Hc0 & C & HC & Hl). cbn [rebuild_chain]. rewrite (proj2 (Z.eqb_neq c 0) Hc0). cbn [negb].
    destruct (bl_at_field v c C HC) as (C' & HC' & HtC & _). rewrite (field_bind c b_top _ _ C') by done. rewrite HtC.
    destruct (proj1 (proj1 Hb) c C' HC') as (_ & _ & Htop & _). rewrite HtC in Htop.
    destruct (rebuild_block_run (Z.to_nat (b_top C)) c C 0 free v mem fl) as (v1 & mem1 & fl1 & free1 & Hrun1 & Hb1 & Hc1 & Hf1 & Hlen1); [done|apply Hin; left|done|lia|lia|].
    rewrite (M_bind_Some _ _ _ _ _ Hrun1). destruct (bl_at_field v1 c C HC) as (C1 & HC1 & _ & HnC). rewrite (field_bind c b_next _ _ C1) by done. rewrite HnC.
    destruct (IH fuel (b_next C) free1 (blocks + 1) v1 mem1 fl1) as (v2 & mem2 & fl2 & free2 & Hrun2 & Hb2 & Hc2 & Hf2 & Hlen2); [done|done|intros; apply Hin; by right|lia|].
    exists v2, mem2, fl2, free2. rewrite Hrun2. rewrite zlen_cons. unfold block_size_in_oops in *. split_and!; [do 3 f_equal; lia|done| |lia..].
    eapply confined_trans; [exact Hc1|]. destruct Hc2 as (F1 & F2 & F3 & F4 & F5). split_and!; try done.
    + intros b C0 HC0. by destruct (proj1 (proj1 Hb) b C0 HC0) as (_ & _ & ? & _).
    + intros b i. rewrite bl_at_lookup. intros Hb'. apply F5. by apply bl_at_lookup.
Qed.
End rebuild.

Lemma rebuild_free_list_run s h B bs1 l ltop live fuel :
  geometry (js_blocks s) (js_mem s) → in_use (js_blocks s) (js_mem s) (js_deleted_handle s) h bs1 l [] [] 0 ltop live →
  js_blocks s !! h = Some B → reserved (js_deleted_handle s) → 0 < heap_start →
  linked (js_blocks s) h (bs1 ++ [l]) → zlen (bs1 ++ [l]) < 2 ^ 25 → (length (bs1 ++ [l]) < fuel)%nat → h ∈ bs1 ++ [l] →
  ∃ v abr' mem' fl', rebuild_free_list fuel h s = Some (tt, upd s (<[h := set_rebuild abr' (set_free v B)]> (js_blocks s)) mem') ∧
    in_use (<[h := set_rebuild abr' (set_free v B)]> (js_blocks s)) mem' (js_deleted_handle s) h bs1 l [] fl' abr' ltop live ∧
    confined (λ b, b ∈ bs1 ++ [l]) (js_blocks s) (js_mem s) (<[h := set_rebuild abr' (set_free v B)]> (js_blocks s)) mem' ∧
    (fl' ≠ [] ∨ 0 < abr').
Proof.
  intros Hg Hu HB Hr H0 Hl Hsz Hf Hh. set (bl := js_blocks s) in *.
  assert (Hself : <[h := set_free (b_free_list B) B]> bl = bl) by (rewrite set_free_self; by apply insert_id).
  destruct (rebuild_chain_run s bl h B bs1 l [] 0 ltop live HB Hr H0 (bs1 ++ [l]) fuel h 0 0 (b_free_list B) (js_mem s) [])
    as (v & mem' & fl' & free & Hrun & [Hg' Hu'] & Hc & Hfree & Hlen); [|done..|].
  { split; by rewrite Hself. }
  rewrite Hself in Hrun, Hc. subst bl. rewrite upd_self in Hrun.
  assert (Hn : 0 < zlen (bs1 ++ [l])) by (rewrite zlen_app, zlen_cons; unfold zlen; lia).
  assert (Hab : b_allocate_before_rebuild B = 0) by (destruct Hu as ((B' & HB' & _ & ? & _) & _); congruence).
  set (extra := zlen (bs1 ++ [l]) * 32 - 2 * free). cbn [length] in Hlen.
  assert (Hs1 : s32 ((0 + zlen (bs1 ++ [l])) * block_size_in_oops) = zlen (bs1 ++ [l]) * 32) by (apply wrapS_id; [done|]; unfold in_s, block_size_in_oops; lia).
  assert (Hs2 : s32 (zlen (bs1 ++ [l]) * 32 - 2 * free) = extra) by (apply wrapS_id; [done|]; unfold in_s, extra; lia).
  assert (Htop : 0 ≤ b_top B ≤ block_size_in_oops) by (by destruct (proj1 Hg h B HB) as (_ & _ & ? & _)).
  destruct (0 <? extra) eqn:E.
  - assert (Hs3 : s32 (extra + block_size_in_oops - 1) = extra + 31) by (replace (extra + block_size_in_oops - 1) with (extra + 31) by (unfold block_size_in_oops; lia); apply wrapS_id; [done|]; unfold in_s, extra; lia).
    assert (Hq : 0 < (extra + 31) `quot` block_size_in_oops) by (apply Z.quot_str_pos; unfold block_size_in_oops; lia).
    exists v, ((extra + 31) `quot` block_size_in_oops), mem', fl'. split_and!; [| | |right; exact Hq].
    + unfold rebuild_free_list. rewrite (M_bind_Some _ _ _ _ _ Hrun). cbv zeta beta. rewrite Hs1, Hs2, Hs3, E.
      rewrite (update_run _ _ _ (set_free v B)) by (cbn; by rewrite lookup_insert_eq). cbn [upd with_mem with_blocks js_blocks]. by rewrite insert_insert_eq.
    + destruct Hu' as ((B' & HB' & U1 & U2 & U3) & U4 & (Bl & HBl & U5) & U6 & U7 & U8). rewrite lookup_insert_eq in HB'. injection HB' as <-.
      rewrite <-(insert_insert_eq (js_blocks s) h _ (set_free v B)).
      assert (Hst : same_tops (<[h := set_free v B]> (js_blocks s)) (<[h := set_rebuild ((extra + 31) `quot` block_size_in_oops) (set_free v B)]> (<[h := set_free v B]> (js_blocks s)))) by (eapply same_tops_insert; [by rewrite lookup_insert_eq|done]).
      split_and!; [|by eapply tops_same| |by eapply tops_same|lia|by eapply contents_same].
      * eexists. rewrite lookup_insert_eq. by split_and!.
      * destruct (same_tops_Some _ _ _ _ Hst HBl) as (Bl' & ? & ?). exists Bl'. split; [done|congruence].
    + eapply confined_trans; [exact Hc|]. apply (confined_block _ _ _ h B (λ B, set_rebuild _ (set_free v B))); try done. exact (confined_geometry _ _ _ _ _ Hg Hc).
  - exists v, 0, mem', fl'. apply Z.ltb_ge in E.
    assert (Heq : set_rebuild 0 (set_free v B) = set_free v B) by (destruct B; cbn in Hab; by subst). rewrite Heq. split_and!; [|done| |].
    + unfold rebuild_free_list. rewrite (M_bind_Some _ _ _ _ _ Hrun). cbv zeta beta. rewrite Hs1, Hs2, (proj2 (Z.ltb_ge _ _) E). done.
    + eapply confined_trans; [exact Hc|]. apply (confined_block _ _ _ h B (set_free v)); try done. exact (confined_geometry _ _ _ _ _ Hg Hc).
    + left. destruct fl'; [|done]. unfold extra in E. cbn [length] in Hlen. lia.
Qed.

(** *** A block is taken *)

Lemma free_pop owner bl a o :
  free_ok owner bl a o → a ≠ 0 →
  ∃ B, bl !! a = Some B ∧ owner !! a = Some o ∧
    ∀ g bl', o ≠ OTable g → (∀ b, b ≠ a → bl' !! b = bl !! b) → free_ok (<[a := OTable g]> owner) bl' (b_next B) o.
Proof.
  intros ([|b bs] & Hl & Hnd & Hown & Hul) Ha; [done|]. destruct Hl as (-> & _ & B & HB & Hl). apply NoDup_cons in Hnd as [Hb Hnd].
  exists B. split; [done|]. split; [apply Hown; left|]. intros g bl' Ho Hf. exists bs. split_and!; [|done| |].
  - eapply linked_frame; [|exact Hl]. intros c C Hc HC. exists C. rewrite Hf; [done|]. by intros ->.
  - intros c. destruct (decide (c = b)) as [->|Hne]; [rewrite lookup_insert_eq; naive_solver|]. rewrite lookup_insert_ne by done. rewrite Hown. set_solver.
  - intros Hof. eapply unlinked_frame; [|intros c C Hc; apply (Hul Hof); by right]. intros c Hc. apply Hf. by intros ->.
Qed.
Lemma free_other owner bl bl' a o g nb :
  free_ok owner bl a o → owner !! nb ≠ Some o → o ≠ OTable g → (∀ b, b ≠ nb → bl' !! b = bl !! b) → free_ok (<[nb := OTable g]> owner) bl' a o.
Proof.
  intros Hf Hn Ho Hb. eapply free_frame; [| |exact Hf].
  - intros b. destruct (decide (b = nb)) as [->|Hne]; [rewrite lookup_insert_eq; naive_solver|by rewrite lookup_insert_ne].
  - intros b Hbo. apply Hb. by intros ->.
Qed.
Lemma world_take o g nb owner D tabs s s' :
  world_but o owner D tabs s → (o = Some g ∨ o = None ∧ g = nb) → (∀ h, owner !! nb ≠ Some (OTable h)) →
  geometry (js_blocks s') (js_mem s') → is_Some (js_blocks s' !! nb) → (∀ b, b ≠ nb → js_blocks s' !! b = js_blocks s !! b) →
  (∀ b i, is_Some (js_blocks s !! b) → 0 ≤ i < block_size_in_oops → js_mem s' !! slot b i = js_mem s !! slot b i) →
  free_ok (<[nb := OTable g]> owner) (js_blocks s') (js_block_free_list s') OFree →
  (∀ t, free_ok (<[nb := OTable g]> owner) (js_blocks s') (default 0 (js_free_handle_block s' !! t)) (OThread t)) →
  world_but (Some g) (<[nb := OTable g]> owner) D tabs s'.
Proof.
  intros (W1 & W2 & W3 & W4 & W5 & W6) Hg Hn Hgeo Hnb Hb Hm HF HT. split_and!; try done.
  - intros b. destruct (decide (b = nb)) as [->|Hne]; [by rewrite lookup_insert_eq; split|]. rewrite lookup_insert_ne, Hb by done. apply W2.
  - intros b h. rewrite lookup_insert_Some. intros [[<- [= <-]]|[_ Ho]]; [by left|]. destruct (W3 b h Ho) as [<-|?]; [left; naive_solver|by right].
  - intros h T Hne HTab. eapply table_frame; [exact W1| | | |apply W6; [|done]].
    + intros b. destruct (decide (b = nb)) as [->|]; [|by rewrite lookup_insert_ne]. rewrite lookup_insert_eq. split; [congruence|]. by intros ?%Hn.
    + intros b Ho. apply Hb. intros ->. by apply (Hn h).
    + intros b i Ho HB Hi. by apply Hm.
    + destruct Hg as [->|[-> _]]; congruence.
Qed.

Section allocation.
Context (malloc : gmap Z Block → Z).
(** The C heap returns memory that is in no block and not in the collected heap. *)
Definition malloc_ok : Prop := ∀ bl,
  0 < malloc bl ∧ (malloc bl + 256 ≤ heap_start ∨ heap_end ≤ malloc bl) ∧ ∀ b, is_Some (bl !! b) → malloc bl + 256 ≤ b ∨ b + 256 ≤ malloc bl.

Lemma new_slots b i : 0 ≤ i < block_size_in_oops →
  (list_to_map ((λ i, (slot b i, 0)) <$> seqZ 0 block_size_in_oops) : gmap Z Z) !! slot b i = Some 0.
Proof.
  intros Hi. apply elem_of_list_to_map_1'.
  - intros v Hv. apply list_elem_of_fmap in Hv as (j & [= _ ->] & _). done.
  - apply list_elem_of_fmap. exists i. split; [done|]. apply elem_of_seqZ. lia.
Qed.
Lemma new_slots_other b x : (∀ i, 0 ≤ i < block_size_in_oops → x ≠ slot b i) →
  (list_to_map ((λ i, (slot b i, 0)) <$> seqZ 0 block_size_in_oops) : gmap Z Z) !! x = None.
Proof.
  intros Hx. apply not_elem_of_list_to_map. intros Hin. apply list_elem_of_fmap in Hin as ([y v] & -> & Hin).
  apply list_elem_of_fmap in Hin as (i & [= -> ->] & Hi%elem_of_seqZ). apply (Hx i); [lia|done].
Qed.

(** The roots are as before and there are at most [n] more blocks. *)
Definition same_roots (n : nat) s s' : Prop :=
  (size (js_blocks s') ≤ n + size (js_blocks s))%nat ∧
  js_deleted_handle s' = js_deleted_handle s ∧ js_active_handles s' = js_active_handles s ∧
  js_global_handles s' = js_global_handles s ∧ js_weak_global_handles s' = js_weak_global_handles s.
Lemma same_roots_trans n m s s1 s2 : same_roots n s s1 → same_roots m s1 s2 → same_roots (n + m) s s2.
Proof. intros (R0 & R1 & R2 & R3 & R4) (Q0 & Q1 & Q2 & Q3 & Q4). split_and!; [lia|congruence..]. Qed.
Lemma same_roots_upd n s bl' mem' : (∀ b, is_Some (bl' !! b) → is_Some (js_blocks s !! b)) → same_roots n s (upd s bl' mem').
Proof.
  intros Hs. split; [|done]. cbn. transitivity (size (js_blocks s)); [|lia]. rewrite <-!(size_dom (D := gset Z)). apply subseteq_size.
  intros b. rewrite !elem_of_dom. apply Hs.
Qed.
Lemma same_roots_confined n P s bl' mem' : confined P (js_blocks s) (js_mem s) bl' mem' → same_roots n s (upd s bl' mem').
Proof. intros (F1 & _). apply same_roots_upd. intros b. apply F1. Qed.
(** [s'] is [s] with [nb] taken for a chain: what a caller of [allocate_block] sees. *)
Definition taken (s : JNI) (owner : gmap Z own) (nb : Z) (s' : JNI) : Prop :=
  (∃ B, js_blocks s' !! nb = Some B ∧ b_top B = 0 ∧ b_next B = 0 ∧ b_pop_frame_link B = 0) ∧
  (∀ h, owner !! nb ≠ Some (OTable h)) ∧ nb ≠ 0 ∧
  (∀ b, b ≠ nb → js_blocks s' !! b = js_blocks s !! b) ∧
  (∀ b i, is_Some (js_blocks s !! b) → 0 ≤ i < block_size_in_oops → js_mem s' !! slot b i = js_mem s !! slot b i) ∧
  same_roots 1 s s'.

Lemma reset_geometry bl mem b B : geometry bl mem → bl !! b = Some B → geometry (<[b := reset_block B]> bl) mem.
Proof.
  intros Hg HB. eapply confined_geometry; [exact Hg|]. apply (confined_block (λ _, True) bl mem b B reset_block); done.
Qed.
(** A block from a list of free blocks. *)
Lemma taken_listed o owner D tabs s s0 nb B o0 :
  world_but o owner D tabs s → js_blocks s0 = js_blocks s → js_mem s0 = js_mem s → same_roots 0 s s0 →
  js_blocks s !! nb = Some B → owner !! nb = Some o0 → (∀ g, o0 ≠ OTable g) → nb ≠ 0 →
  (∀ g bl', (∀ b, b ≠ nb → bl' !! b = js_blocks s !! b) →
    free_ok (<[nb := OTable g]> owner) bl' (js_block_free_list s0) OFree ∧
    ∀ t, free_ok (<[nb := OTable g]> owner) bl' (default 0 (js_free_handle_block s0 !! t)) (OThread t)) →
  let s' := upd s0 (<[nb := reset_block B]> (js_blocks s)) (js_mem s) in
  taken s owner nb s' ∧ ∀ g, (o = Some g ∨ o = None ∧ g = nb) → world_but (Some g) (<[nb := OTable g]> owner) D tabs s'.
Proof.
  intros HW Hb Hm Hroots HB Hown Ho Hn0 Hfree s'. pose proof HW as (Hg & _).
  assert (Hne : ∀ b, b ≠ nb → js_blocks s' !! b = js_blocks s !! b) by (intros b Hne; cbn; by rewrite lookup_insert_ne).
  split.
  - split_and!; try done; [exists (reset_block B); cbn; by rewrite lookup_insert_eq|rewrite Hown; congruence|].
    apply (same_roots_trans 0 1 _ _ _ Hroots), same_roots_upd. intros b. rewrite Hb, lookup_insert_is_Some'. intros [<-|?]; [by eexists|done].
  - intros g Hg'. destruct (Hfree g (js_blocks s') Hne) as [HF HT].
    eapply world_take; [exact HW|done|rewrite Hown; congruence|by apply reset_geometry|cbn; by rewrite lookup_insert_eq|done..].
Qed.
(** A new block. *)
Lemma taken_new o owner D tabs s : malloc_ok → world_but o owner D tabs s →
  ∃ nb s', (block ← new_block malloc; update block reset_block;; mret block) s = Some (nb, s') ∧ taken s owner nb s' ∧
    ∀ g, (o = Some g ∨ o = None ∧ g = nb) → world_but (Some g) (<[nb := OTable g]> owner) D tabs s'.
Proof.
  intros Hmal HW. pose proof HW as (W1 & W2 & W3 & W4 & W5 & W6). set (nb := malloc (js_blocks s)). set (Bn := mkBlock 0 0 0 0 0 0 0).
  set (mem' := (list_to_map ((λ i, (slot nb i, 0)) <$> seqZ 0 block_size_in_oops) : gmap Z Z) ∪ js_mem s).
  set (bl' := <[nb := reset_block Bn]> (<[nb := Bn]> (js_blocks s))).
  set (s' := with_allocated (s32 (js_blocks_allocated s + 1)) (upd s bl' mem')).
  destruct (Hmal (js_blocks s)) as (M1 & M2 & M3). fold nb in M1, M2, M3.
  assert (Hnone : js_blocks s !! nb = None).
  { destruct (js_blocks s !! nb) eqn:E'; [|done]. destruct (M3 nb) as [?|?]; [by eexists|lia..]. }
  assert (Hown : owner !! nb = None) by (apply eq_None_not_Some; rewrite <-W2; by apply eq_None_not_Some).
  assert (Hne : ∀ b, b ≠ nb → bl' !! b = js_blocks s !! b) by (intros b Hb; unfold bl'; by rewrite !lookup_insert_ne).
  assert (Hmem : ∀ b i, is_Some (js_blocks s !! b) → 0 ≤ i < block_size_in_oops → mem' !! slot b i = js_mem s !! slot b i).
  { intros b i Hb Hi. apply lookup_union_r, new_slots_other. intros j Hj Heq. specialize (M3 b Hb). unfold slot, block_size_in_oops in *. lia. }
  assert (Hgeo : geometry bl' mem').
  { apply reset_geometry; [|by rewrite lookup_insert_eq]. split.
    - intros b B. rewrite lookup_insert_Some. intros [[<- <-]|[Hb HB]].
      + split_and!; [done..|cbn|cbn|]; [lia|unfold block_size_in_oops; lia|]. intros i Hi. exists 0. apply lookup_union_Some_l. by apply new_slots.
      + destruct (proj1 W1 b B HB) as (G1 & G2 & G3 & G4). split_and!; try done; [lia..|]. intros i Hi. rewrite Hmem; [by apply G4|by eexists|done].
    - intros b b' Hb Hb' Hbb. destruct (decide (b = nb)) as [->|Hbn].
      + rewrite lookup_insert_ne in Hb' by congruence. by apply M3.
      + rewrite lookup_insert_ne in Hb by done. destruct (decide (b' = nb)) as [->|]; [destruct (M3 b Hb); auto|].
        rewrite lookup_insert_ne in Hb' by done. by apply (proj2 W1). }
  exists nb, s'. split; [|split].
  - rewrite (M_bind_Some _ _ _ nb (with_allocated (s32 (js_blocks_allocated s + 1)) (upd s (<[nb := Bn]> (js_blocks s)) mem'))) by done.
    rewrite (update_bind nb _ _ _ Bn) by (cbn; by rewrite lookup_insert_eq). done.
  - split_and!; try done; [exists (reset_block Bn); cbn; unfold bl'; by rewrite lookup_insert_eq|by rewrite Hown|lia|].
    split; [|done]. cbn. unfold bl'. rewrite insert_insert_eq, map_size_insert, Hnone. cbn. lia.
  - intros g Hg. eapply world_take; [exact HW|done|by rewrite Hown|done|cbn; unfold bl'; by rewrite lookup_insert_eq|done..| |].
    + eapply free_other; [exact W4|by rewrite Hown|done|done].
    + intros t. eapply free_other; [exact (W5 t)|by rewrite Hown|done|done].
Qed.
Lemma take_global_block_run o owner D tabs s : malloc_ok → world_but o owner D tabs s →
  ∃ nb s', (block ← take_global_block malloc; update block reset_block;; mret block) s = Some (nb, s') ∧ taken s owner nb s' ∧
    ∀ g, (o = Some g ∨ o = None ∧ g = nb) → world_but (Some g) (<[nb := OTable g]> owner) D tabs s'.
Proof.
  intros Hmal HW. pose proof HW as (_ & _ & _ & W4 & W5 & _). unfold take_global_block. destruct (js_block_free_list s =? 0) eqn:E.
  - destruct (taken_new o owner D tabs s Hmal HW) as (nb & s' & Hrun & Ht). exists nb, s'. split; [|done].
    unfold mbind at 1, M_bind at 1. rewrite reads_step, E. exact Hrun.
  - apply Z.eqb_neq in E. set (nb := js_block_free_list s) in *. destruct (free_pop _ _ _ _ W4 E) as (B & HB & Hown & Hpop).
    exists nb, (upd (with_free (b_next B) s) (<[nb := reset_block B]> (js_blocks s)) (js_mem s)). split.
    + rewrite (M_bind_Some _ _ _ nb (with_free (b_next B) s)).
      2: { rewrite reads_step. fold nb. rewrite (proj2 (Z.eqb_neq _ _) E). by rewrite (field_bind nb b_next _ _ B) by done. }
      by rewrite (update_bind nb _ _ _ B) by done.
    + eapply (taken_listed _ _ _ _ s (with_free (b_next B) s)); try done. intros g bl' Hne. split; [by apply Hpop|].
      intros t. eapply free_other; [exact (W5 t)|by rewrite Hown|done|done].
Qed.
Lemma allocate_block_run o owner D tabs s thread : malloc_ok → world_but o owner D tabs s →
  ∃ nb s', allocate_block malloc thread s = Some (nb, s') ∧ taken s owner nb s' ∧
    ∀ g, (o = Some g ∨ o = None ∧ g = nb) → world_but (Some g) (<[nb := OTable g]> owner) D tabs s'.
Proof.
  intros Hmal HW. pose proof HW as (_ & _ & _ & W4 & W5 & _). destruct thread as [t|]; [|by eapply take_global_block_run].
  destruct (default 0 (js_free_handle_block s !! t) =? 0) eqn:E.
  - destruct (take_global_block_run o owner D tabs s Hmal HW) as (nb & s' & Hrun & Ht). exists nb, s'. split; [|done].
    unfold allocate_block, free_handle_block. unfold mbind at 1, M_bind at 1. rewrite reads_step, E. exact Hrun.
  - apply Z.eqb_neq in E. set (nb := default 0 (js_free_handle_block s !! t)) in *. destruct (free_pop _ _ _ _ (W5 t) E) as (B & HB & Hown & Hpop). fold nb in HB, Hown, Hpop.
    exists nb, (upd (with_thread_free t (b_next B) s) (<[nb := reset_block B]> (js_blocks s)) (js_mem s)). split.
    + unfold allocate_block, free_handle_block. rewrite (M_bind_Some _ _ _ nb (with_thread_free t (b_next B) s)).
      2: { rewrite reads_step. fold nb. rewrite (proj2 (Z.eqb_neq _ _) E). cbn [negb]. by rewrite (field_bind nb b_next _ _ B) by done. }
      by rewrite (update_bind nb _ _ _ B) by done.
    + eapply (taken_listed _ _ _ _ s (with_thread_free t (b_next B) s)); try done. intros g bl' Hne.
      split; [eapply free_other; [exact W4|by rewrite Hown|done|done]|]. intros t'. cbn. destruct (decide (t' = t)) as [->|Htt].
      * rewrite lookup_insert_eq. by apply Hpop.
      * rewrite lookup_insert_ne by done. eapply free_other; [exact (W5 t')|rewrite Hown; congruence|done|done].
Qed.

(** *** Allocation of a handle *)

(** [allocate_handle] after its first test. *)
Definition allocate_try (retries fuel : nat) (this : Z) (thread : nat) (obj : Z) : M JNI Z :=
  lst ← field this b_last;
  ltop ← field lst b_top;
  if ltop <? block_size_in_oops then
    update lst (set_top (ltop + 1));; store (slot lst ltop) obj;; mret (slot lst ltop)
  else
    fl ← field this b_free_list;
    if negb (fl =? 0) then nfl ← load fl; update this (set_free nfl);; store fl obj;; mret fl
    else
      nx ← field lst b_next;
      if negb (nx =? 0) then update this (set_last nx);; allocate_handle malloc retries fuel this thread obj
      else
        abr ← field this b_allocate_before_rebuild;
        (if abr =? 0 then rebuild_free_list fuel this
         else
           nb ← allocate_block malloc (Some thread);
           update lst (set_next nb);; update this (set_last nb);; update this (set_rebuild (abr - 1)));;
        allocate_handle malloc retries fuel this thread obj.

Definition ready owner D tabs s (h link : Z) (bs1 : list Z) (l : Z) (bs2 fl : list Z) (abr ltop : Z) live : Prop :=
  world_but (Some h) owner D tabs s ∧ D h = js_deleted_handle s ∧ reserved (D h) ∧
  (∃ B, js_blocks s !! h = Some B ∧ b_pop_frame_link B = link) ∧ chain owner (js_blocks s) h (bs1 ++ l :: bs2) ∧
  in_use (js_blocks s) (js_mem s) (D h) h bs1 l bs2 fl abr ltop live.
Definition handed (n : nat) D tabs s (h link : Z) live (obj x : Z) s' : Prop :=
  live !! x = None ∧ same_roots n s s' ∧ ∃ owner', world owner' D (<[h := mkTable link (<[x := obj]> live)]> tabs) s'.

Lemma handle_try r fuel h t obj s : tops (js_blocks s) [h] (Z.lt 0) →
  allocate_handle malloc (S r) fuel h t obj s = allocate_try r fuel h t obj s.
Proof.
  intros Ht. destruct (Ht h) as (B & HB & Hp); [left|]. cbn [allocate_handle]. rewrite (field_bind h b_top _ _ B) by done.
  rewrite (proj2 (Z.eqb_neq (b_top B) 0)) by lia. rewrite M_bind_ret. done.
Qed.
(** The first block is full once the last block is another one. *)
Lemma in_use_first bl mem d h bs1 l bs2 fl abr ltop live :
  in_use bl mem d h bs1 l bs2 fl abr ltop live → head (bs1 ++ l :: bs2) = Some h → 0 < ltop ∨ bs1 ≠ [] → tops bl [h] (Z.lt 0).
Proof.
  intros (_ & Ht1 & (Bl & HBl & Hlt) & _) Hh Hor b ->%list_elem_of_singleton. destruct bs1 as [|c bs1]; cbn in Hh; simplify_eq.
  - exists Bl. split; [done|]. destruct Hor; [lia|done].
  - destruct (Ht1 h) as (B & HB & Heq); [left|]. exists B. split; [done|]. rewrite <-Heq. unfold block_size_in_oops. lia.
Qed.
Lemma handed_intro n owner D tabs s h link live obj x s' bs1 l bs2 fl abr ltop :
  live !! x = None → same_roots n s s' → world_but (Some h) owner D tabs s' →
  (∃ B, js_blocks s' !! h = Some B ∧ b_pop_frame_link B = link) → chain owner (js_blocks s') h (bs1 ++ l :: bs2) →
  in_use (js_blocks s') (js_mem s') (D h) h bs1 l bs2 fl abr ltop (<[x := obj]> live) → 0 < ltop ∨ bs1 ≠ [] →
  handed n D tabs s h link live obj x s'.
Proof.
  intros Hx Hr HW Hl Hc Hu Hor. split; [done|]. split; [done|]. exists owner. apply world_but_elim; [done|]. split; [done|]. exists (bs1 ++ l :: bs2). split; [done|].
  right. split; [by eapply in_use_first; [|apply Hc|]|]. by exists bs1, l, bs2, fl, abr, ltop.
Qed.
Lemma field_insert {A} (f : Block → A) bl b B B' c v :
  bl !! b = Some B → f B' = f B → (∃ C, bl !! c = Some C ∧ f C = v) → ∃ C, <[b := B']> bl !! c = Some C ∧ f C = v.
Proof.
  intros HB Hf (C & HC & Hv). destruct (decide (c = b)) as [->|Hne]; [|exists C; by rewrite lookup_insert_ne].
  exists B'. rewrite lookup_insert_eq. split; [done|congruence].
Qed.

Lemma try_bump r fuel t obj owner D tabs s h link bs1 l bs2 fl abr ltop live :
  ready owner D tabs s h link bs1 l bs2 fl abr ltop live → ltop < block_size_in_oops → obj ≠ D h → reserved obj →
  ∃ x s', allocate_try r fuel h t obj s = Some (x, s') ∧ handed 0 D tabs s h link live obj x s'.
Proof.
  intros (HW & HD & Hd & Hlink & Hc & Hu) Hlt Ho Hr. pose proof HW as (Hg & _). pose proof Hu as ((B & HB & Hla & _) & _ & (Bl & HBl & Htop) & _).
  destruct (proj1 Hg l Bl HBl) as (_ & _ & Htr & Hm). assert (Hm' : is_Some (js_mem s !! slot l ltop)) by (apply Hm; lia).
  exists (slot l ltop), (upd s (<[l := set_top (ltop + 1) Bl]> (js_blocks s)) (<[slot l ltop := obj]> (js_mem s))). split.
  - unfold allocate_try. rewrite (field_bind h b_last _ _ B) by done. rewrite Hla, (field_bind l b_top _ _ Bl) by done. rewrite Htop, (proj2 (Z.ltb_lt _ _) Hlt).
    rewrite (update_bind l _ _ _ Bl) by done. by rewrite store_bind by done.
  - destruct (in_use_bump (js_blocks s) (js_mem s) (D h) h bs1 l bs2 fl abr ltop live Bl obj) as [Hx Hu']; try done; [apply Hc|lia|].
    assert (Hin : l ∈ bs1 ++ l :: bs2) by set_solver. assert (Hol : owner !! l = Some (OTable h)) by by apply Hc.
    assert (Hcb : confined (λ b, owner !! b = Some (OTable h)) (js_blocks s) (js_mem s) (<[l := set_top (ltop + 1) Bl]> (js_blocks s)) (js_mem s)).
    { apply (confined_block _ _ _ l Bl (set_top (ltop + 1))); try done. cbn. unfold block_size_in_oops in *. lia. }
    assert (Hux : used (<[l := set_top (ltop + 1) Bl]> (js_blocks s)) (bs1 ++ l :: bs2) (slot l ltop)).
    { exists l, (set_top (ltop + 1) Bl), ltop. rewrite lookup_insert_eq. split_and!; [done..|lia|cbn; lia|done]. }
    assert (Hcf := confined_trans _ _ _ _ _ _ _ Hcb (confined_mem _ _ _ _ _ obj (confined_geometry _ _ _ _ _ Hg Hcb) Hux (λ b, proj2 (chain_owned _ _ _ _ Hc b)))).
    eapply handed_intro; [done|by eapply same_roots_confined| | | |exact Hu'|lia].
    + by apply world_but_confined.
    + by eapply (field_insert b_pop_frame_link).
    + eapply chain_insert; eauto.
Qed.
Lemma try_take r fuel t obj owner D tabs s h link bs1 l bs2 x fl abr live :
  ready owner D tabs s h link bs1 l bs2 (x :: fl) abr block_size_in_oops live → obj ≠ D h → reserved obj →
  ∃ x s', allocate_try r fuel h t obj s = Some (x, s') ∧ handed 0 D tabs s h link live obj x s'.
Proof.
  intros (HW & HD & Hd & Hlink & Hc & Hu) Ho Hr. pose proof HW as (Hg & _).
  pose proof Hu as ((B & HB & Hla & _ & (Hx & Hx0 & v & Hv & _)) & _ & (Bl & HBl & Htop) & _ & _ & (_ & C2 & _)).
  exists x, (upd s (<[h := set_free v B]> (js_blocks s)) (<[x := obj]> (js_mem s))). split.
  - unfold allocate_try. rewrite (field_bind h b_last _ _ B) by done. rewrite Hla, (field_bind l b_top _ _ Bl) by done. rewrite Htop, Z.ltb_irrefl.
    rewrite (field_bind h b_free_list _ _ B) by done. rewrite Hx, (proj2 (Z.eqb_neq _ _) Hx0). cbn [negb]. rewrite (load_bind x _ _ v) by done.
    rewrite (update_bind h _ _ _ B) by done. by rewrite store_bind by (cbn; by eexists).
  - destruct (in_use_take (js_blocks s) (js_mem s) (D h) h bs1 l bs2 x fl abr block_size_in_oops live B v obj) as [Hnx Hu']; try done.
    assert (Hoh : owner !! h = Some (OTable h)) by (apply Hc; by eapply chain_head).
    assert (Hcb : confined (λ b, owner !! b = Some (OTable h)) (js_blocks s) (js_mem s) (<[h := set_free v B]> (js_blocks s)) (js_mem s)).
    { apply (confined_block _ _ _ h B (set_free v)); try done. by destruct (proj1 Hg h B HB) as (_ & _ & ? & _). }
    assert (Hux : used (<[h := set_free v B]> (js_blocks s)) (bs1 ++ l :: bs2) x) by (apply (used_same (js_blocks s)); [by eapply same_tops_insert|]; apply C2; left).
    assert (Hcf := confined_trans _ _ _ _ _ _ _ Hcb (confined_mem _ _ _ _ x obj (confined_geometry _ _ _ _ _ Hg Hcb) Hux (λ b, proj2 (chain_owned _ _ _ _ Hc b)))).
    eapply handed_intro; [done|by eapply same_roots_confined| | | |exact Hu'|left; unfold block_size_in_oops; lia].
    + by apply world_but_confined.
    + by eapply (field_insert b_pop_frame_link).
    + eapply chain_insert; eauto.
Qed.
Lemma try_advance r fuel t obj owner D tabs s h link bs1 l b bs2 abr live :
  ready owner D tabs s h link bs1 l (b :: bs2) [] abr block_size_in_oops live →
  ∃ s', allocate_try (S r) fuel h t obj s = allocate_try r fuel h t obj s' ∧ same_roots 0 s s' ∧ ready owner D tabs s' h link (bs1 ++ [l]) b bs2 [] abr 0 live.
Proof.
  intros (HW & HD & Hd & Hlink & Hc & Hu). pose proof HW as (Hg & _). pose proof Hu as ((B & HB & Hla & _ & Hfl) & _ & (Bl & HBl & Htop) & _). cbn in Hfl.
  pose proof Hc as (Hh & Hl & _). apply linked_app in Hl as (_ & _ & Bl' & HBl' & (Hn & Hb0 & _)). simplify_eq.
  set (s' := upd s (<[h := set_last (b_next Bl) B]> (js_blocks s)) (js_mem s)).
  assert (Hu' := in_use_advance _ _ _ _ _ _ _ _ _ _ _ _ Hu HB).
  assert (Hc' : chain owner (js_blocks s') h ((bs1 ++ [b_last B]) ++ b_next Bl :: bs2)) by (rewrite <-app_assoc; eapply chain_insert; eauto).
  assert (Hcf : confined (λ b, owner !! b = Some (OTable h)) (js_blocks s) (js_mem s) (js_blocks s') (js_mem s')).
  { apply (confined_block _ _ _ h B (set_last (b_next Bl))); try done; [apply Hc; by eapply chain_head|by destruct (proj1 Hg h B HB) as (_ & _ & ? & _)]. }
  exists s'. split; [|split; [by eapply same_roots_confined|]].
  - rewrite <-(handle_try r fuel h t obj s'); [|eapply in_use_first; [exact Hu'|apply Hc'|right; by destruct bs1]].
    unfold allocate_try. rewrite (field_bind h b_last _ _ B) by done. rewrite (field_bind _ b_top _ _ Bl) by done. rewrite Htop, Z.ltb_irrefl.
    rewrite (field_bind h b_free_list _ _ B) by done. rewrite Hfl. cbn [negb Z.eqb]. rewrite (field_bind _ b_next _ _ Bl) by done.
    rewrite (proj2 (Z.eqb_neq _ _) Hb0). cbn [negb]. by rewrite (update_bind h _ _ _ B) by done.
  - split_and!; try done; try lia; [|by eapply (field_insert b_pop_frame_link)]. by apply world_but_confined.
Qed.

(** The steps up to the choice between a rebuild and a new block. *)
Lemma try_no_space r fuel t obj owner D tabs s h link bs1 l abr live B Bl :
  ready owner D tabs s h link bs1 l [] [] abr block_size_in_oops live → js_blocks s !! h = Some B → js_blocks s !! l = Some Bl →
  allocate_try r fuel h t obj s =
    ((if abr =? 0 then rebuild_free_list fuel h
      else nb ← allocate_block malloc (Some t); update l (set_next nb);; update h (set_last nb);; update h (set_rebuild (abr - 1)));;
     allocate_handle malloc r fuel h t obj) s ∧ b_next Bl = 0 ∧ b_free_list B = 0 ∧ b_allocate_before_rebuild B = abr ∧ tops (js_blocks s) [h] (Z.lt 0).
Proof.
  intros (HW & HD & Hd & Hlink & Hc & Hu) HB HBl. pose proof Hu as ((B' & HB' & Hla & Hab & Hfl) & _ & (Bl' & HBl' & Htop) & _). cbn in Hfl.
  pose proof Hc as (Hh & Hl & _). apply linked_app in Hl as (_ & _ & Bl'' & HBl'' & Hn). cbn in Hn.
  rewrite HB in HB'. injection HB' as <-. rewrite HBl in HBl', HBl''. injection HBl' as <-. injection HBl'' as <-.
  split; [|split_and!; try done; eapply in_use_first; [exact Hu|apply Hh|unfold block_size_in_oops; lia]].
  unfold allocate_try. rewrite (field_bind h b_last _ _ B) by done. rewrite Hla, (field_bind _ b_top _ _ Bl) by done. rewrite Htop, Z.ltb_irrefl.
  rewrite (field_bind h b_free_list _ _ B) by done. rewrite Hfl. cbn [negb Z.eqb]. rewrite (field_bind _ b_next _ _ Bl) by done.
  rewrite Hn. cbn [negb Z.eqb]. rewrite (field_bind h b_allocate_before_rebuild _ _ B) by done. by rewrite Hab.
Qed.
Lemma try_rebuild r fuel t obj owner D tabs s h link bs1 l live :
  0 < heap_start → zlen (bs1 ++ [l]) < 2 ^ 25 → (length (bs1 ++ [l]) < fuel)%nat →
  ready owner D tabs s h link bs1 l [] [] 0 block_size_in_oops live →
  ∃ s' abr' fl', allocate_try (S r) fuel h t obj s = allocate_try r fuel h t obj s' ∧ same_roots 0 s s' ∧
    ready owner D tabs s' h link bs1 l [] fl' abr' block_size_in_oops live ∧ (fl' ≠ [] ∨ 0 < abr').
Proof.
  intros H0 Hsz Hf Hready. pose proof Hready as (HW & HD & Hd & Hlink & Hc & Hu). pose proof HW as (Hg & _).
  pose proof Hu as ((B & HB & _) & _ & (Bl & HBl & _) & _). destruct (try_no_space (S r) fuel t obj _ _ _ _ _ _ _ _ _ _ B Bl Hready HB HBl) as (Hrun & _ & _ & _ & Ht).
  rewrite HD in Hu. destruct (rebuild_free_list_run s h B bs1 l block_size_in_oops live fuel) as (v & abr' & mem' & fl' & Hrb & Hu' & Hcf & Hor); try done.
  { by rewrite HD in Hd. } { apply Hc. } { by eapply chain_head. }
  set (s' := upd s (<[h := set_rebuild abr' (set_free v B)]> (js_blocks s)) mem') in *.
  exists s', abr', fl'. split; [|split; [by eapply same_roots_confined|split; [|done]]].
  - rewrite Hrun. cbn [Z.eqb]. rewrite (M_bind_Some _ _ _ _ _ Hrb). apply handle_try. eapply tops_same; [|exact Ht]. by eapply same_tops_insert.
  - split_and!; try done; try lia.
    + apply world_but_confined; [done|]. destruct Hcf as (F1 & F2 & F3 & F4 & F5). pose proof Hc as (_ & _ & _ & Hown & Hul). split_and!; try done.
      * intros b Hb. apply F2. by rewrite <-Hown.
      * intros b i Hb Hn. apply F5; [done|]. by rewrite <-Hown.
    + by eapply (field_insert b_pop_frame_link).
    + eapply chain_insert; eauto.
    + by rewrite HD.
Qed.

(** A block is appended. *)
Lemma linked_snoc bl bl' a bs l nb :
  linked bl a (bs ++ [l]) → (∀ b B, b ∈ bs → bl !! b = Some B → ∃ B', bl' !! b = Some B' ∧ b_next B' = b_next B) →
  (∃ B, bl' !! l = Some B ∧ b_next B = nb) → nb ≠ 0 → (∃ B, bl' !! nb = Some B ∧ b_next B = 0) → linked bl' a (bs ++ [l; nb]).
Proof.
  revert a. induction bs as [|c bs IH]; intros a Hl Hf (Bl & HBl & Hn) H0 (Bn & HBn & Hn0).
  - destruct Hl as (-> & Hl0 & _). split; [done|]. split; [done|]. exists Bl. split; [done|]. split; [done|]. split; [done|]. by exists Bn.
  - destruct Hl as (-> & Hc0 & C & HC & Hl). destruct (Hf c C) as (C' & HC' & Hcn); [left|done|]. split; [done|]. split; [done|]. exists C'. split; [done|].
    rewrite Hcn. apply IH; [done| |by exists Bl|done|by exists Bn]. intros b B0 Hb. apply Hf. by right.
Qed.
Lemma in_use_append bl mem bl' mem' d h bs1 l nb live B :
  geometry bl mem → in_use bl mem d h bs1 l [] [] (b_allocate_before_rebuild B) block_size_in_oops live → bl !! h = Some B → 0 < b_allocate_before_rebuild B →
  (∀ b C, b ∈ bs1 ++ [l] → bl !! b = Some C → ∃ C', bl' !! b = Some C' ∧ b_top C' = b_top C) → (∃ C, bl' !! nb = Some C ∧ b_top C = 0) →
  (∀ b i, is_Some (bl !! b) → 0 ≤ i < block_size_in_oops → mem' !! slot b i = mem !! slot b i) →
  (∃ B', bl' !! h = Some B' ∧ b_last B' = nb ∧ b_allocate_before_rebuild B' = b_allocate_before_rebuild B - 1 ∧ b_free_list B' = b_free_list B) →
  in_use bl' mem' d h (bs1 ++ [l]) nb [] [] (b_allocate_before_rebuild B - 1) 0 live.
Proof.
  intros Hg ((B0 & HB0 & Hla & _ & Hth) & Ht1 & (Bl & HBl & Hlt) & _ & _ & (_ & _ & C3 & C4)) HB Hpos Htop (Cn & HCn & Hn0) Hm (B' & HB' & Hla' & Hab' & Hfl').
  rewrite HB in HB0. injection HB0 as <-. cbn in Hth.
  assert (Hu : ∀ x, used bl' ((bs1 ++ [l]) ++ [nb]) x ↔ used bl (bs1 ++ [l]) x).
  { assert (Hsome : ∀ b, b ∈ bs1 ++ [l] → is_Some (bl !! b)).
    { intros b [Hb| ->%list_elem_of_singleton]%elem_of_app; [|by eexists]. destruct (Ht1 b Hb) as (C & HC & _). by eexists. }
    intros x. split.
    - intros (b & C & i & [Hb| ->%list_elem_of_singleton]%elem_of_app & HC & Hi & ->); [|simplify_eq; lia].
      destruct (Hsome b Hb) as [C0 HC0]. destruct (Htop b C0 Hb HC0) as (C' & HC' & Heq). rewrite HC in HC'. injection HC' as <-. exists b, C0, i. split_and!; try done; lia.
    - intros (b & C & i & Hb & HC & Hi & ->). destruct (Htop b C Hb HC) as (C' & HC' & Heq). exists b, C', i. split_and!; try done; [set_solver|lia..]. }
  assert (Hx : ∀ x, used bl (bs1 ++ [l]) x → mem' !! x = mem !! x).
  { intros x Hux. destruct (used_slot bl mem _ x Hg Hux) as (b & i & ? & ? & ? & -> & _). by apply Hm. }
  split_and!; [| |by exists Cn|by intros b ?%elem_of_nil|lia|].
  - exists B'. split_and!; try done. cbn. congruence.
  - intros b [Hb| ->%list_elem_of_singleton]%elem_of_app.
    + destruct (Ht1 b Hb) as (C & HC & Heq). destruct (Htop b C) as (C' & HC' & Heq'); [set_solver|done|]. exists C'. split; [done|congruence].
    + destruct (Htop l Bl) as (C' & HC' & Heq'); [set_solver|done|]. exists C'. split; [done|congruence].
  - split_and!; [by apply NoDup_nil|by intros x ?%elem_of_nil| |].
    + intros x v Hv. destruct (C3 x v Hv) as (D1 & D2 & D3 & D4 & D5). split_and!; try done; [by apply Hu|by rewrite Hx].
    + intros x Hux Hn Hnone. apply Hu in Hux. rewrite Hx by done. by apply C4.
Qed.
(** The writes that append [nb]. *)
Definition appended (nb l h abr : Z) (Bl B : Block) bl : gmap Z Block :=
  let bl1 := <[l := set_next nb Bl]> bl in
  <[h := set_rebuild (abr - 1) (set_last nb (if decide (h = l) then set_next nb Bl else B))]> bl1.
Section append.
Context (bl : gmap Z Block) (mem : gmap Z Z) (nb l h abr : Z) (Bl B : Block).
Hypotheses (Hl : bl !! l = Some Bl) (Hh : bl !! h = Some B).
Lemma appended_top b C : bl !! b = Some C → ∃ C', appended nb l h abr Bl B bl !! b = Some C' ∧ b_top C' = b_top C ∧ b_pop_frame_link C' = b_pop_frame_link C ∧
  (b ≠ l → b_next C' = b_next C) ∧ (b = l → b_next C' = nb) ∧
  (b = h → b_last C' = nb ∧ b_allocate_before_rebuild C' = abr - 1 ∧ b_free_list C' = b_free_list C).
Proof.
  intros HC. unfold appended. destruct (decide (b = h)) as [->|Hbh].
  - eexists. rewrite lookup_insert_eq. split; [done|]. destruct (decide (h = l)) as [->|Hne]; simplify_eq; cbn; naive_solver.
  - rewrite lookup_insert_ne by done. destruct (decide (b = l)) as [->|Hbl]; [|exists C; rewrite lookup_insert_ne by done; naive_solver].
    eexists. rewrite lookup_insert_eq. split; [done|]. simplify_eq. cbn. naive_solver.
Qed.
Lemma appended_run s : js_blocks s = bl →
  (update l (set_next nb);; update h (set_last nb);; update h (set_rebuild (abr - 1))) s = Some (tt, upd s (appended nb l h abr Bl B bl) (js_mem s)).
Proof.
  intros Hs. set (Bh := if decide (h = l) then set_next nb Bl else B).
  assert (Hlk : <[l := set_next nb Bl]> bl !! h = Some Bh).
  { unfold Bh. destruct (decide (h = l)) as [->|]; [by rewrite lookup_insert_eq|by rewrite lookup_insert_ne]. }
  rewrite (update_bind l _ _ _ Bl) by by rewrite Hs. rewrite (update_bind h _ _ _ Bh) by (cbn; by rewrite Hs).
  rewrite (update_run h _ _ (set_last nb Bh)) by (cbn; by rewrite lookup_insert_eq). cbn [js_blocks with_blocks]. rewrite Hs, insert_insert_eq. done.
Qed.
Lemma appended_confined (P : Z → Prop) : geometry bl mem → P l → P h → confined P bl mem (appended nb l h abr Bl B bl) mem.
Proof.
  intros Hg HPl HPh. split_and!; try done.
  - intros b. unfold appended. rewrite !lookup_insert_is_Some'. split; [intros [<-|[<-|?]]; [by eexists|by eexists|done]|auto].
  - intros b Hb. unfold appended. rewrite !lookup_insert_ne; [done|by intros <-..].
  - intros b C HC. assert (is_Some (bl !! b)) as [C0 HC0].
    { unfold appended in HC. assert (Hs : is_Some (<[h := set_rebuild (abr - 1) (set_last nb (if decide (h = l) then set_next nb Bl else B))]> (<[l := set_next nb Bl]> bl) !! b)) by by eexists.
      rewrite !lookup_insert_is_Some' in Hs. destruct Hs as [<-|[<-|?]]; [by eexists|by eexists|done]. }
    destruct (appended_top b C0 HC0) as (C' & HC' & Heq & _). rewrite HC in HC'. injection HC' as <-. rewrite Heq. by destruct (proj1 Hg b C0 HC0) as (_ & _ & ? & _).
Qed.
End append.

Lemma chain_append owner bl bl' h bs1 l nb :
  chain owner bl h (bs1 ++ [l]) →
  (∀ b C, b ∈ bs1 ++ [l] → bl !! b = Some C → ∃ C', bl' !! b = Some C' ∧ b_pop_frame_link C' = b_pop_frame_link C ∧ (b ≠ l → b_next C' = b_next C) ∧ (b = l → b_next C' = nb)) →
  (∃ C, bl' !! nb = Some C ∧ b_next C = 0 ∧ b_pop_frame_link C = 0) → nb ≠ 0 → nb ∉ bs1 ++ [l] →
  chain (<[nb := OTable h]> owner) bl' h ((bs1 ++ [l]) ++ [nb]).
Proof.
  intros (Hh & Hl & Hnd & Hown & Hul) Hf (Cn & HCn & Hn0 & Hln) H0 Hnb. split_and!.
  - by destruct bs1.
  - rewrite <-app_assoc. cbn [app]. eapply linked_snoc; [exact Hl| | |done|by exists Cn].
    + intros b C Hb HC. destruct (Hf b C) as (C' & HC' & _ & Hn & _); [apply elem_of_app; by left|done|]. exists C'. split; [done|]. apply Hn. intros ->.
      apply NoDup_app in Hnd as (_ & Hx & _). by apply (Hx l Hb); left.
    + assert (Hlin : l ∈ bs1 ++ [l]) by (apply elem_of_app; right; left). destruct (linked_elem bl h _ l Hl Hlin) as [[Bl HBl] _].
      destruct (Hf l Bl Hlin HBl) as (C' & HC' & _ & _ & Hn). exists C'. split; [done|]. by apply Hn.
  - apply NoDup_app. split; [done|]. split; [|by apply NoDup_singleton]. by intros b Hb ->%list_elem_of_singleton.
  - intros b. rewrite elem_of_app, <-Hown, list_elem_of_singleton.
    destruct (decide (b = nb)) as [->|Hne]; [rewrite lookup_insert_eq; naive_solver|rewrite lookup_insert_ne by done; naive_solver].
  - intros b C Hb HC. assert (Hor : b ∈ tail (bs1 ++ [l]) ∨ b = nb) by (destruct bs1; cbn in *; [|rewrite elem_of_app, list_elem_of_singleton in Hb; done]; apply list_elem_of_singleton in Hb; by right).
    destruct Hor as [Hb'| ->]; [|congruence]. assert (Hin := elem_of_tail_in _ _ Hb'). destruct (linked_elem bl h _ b Hl Hin) as [[B HB] _].
    destruct (Hf b B Hin HB) as (C' & HC' & Heq & _). rewrite HC in HC'. injection HC' as <-. rewrite Heq. by eapply Hul.
Qed.
Lemma try_append r fuel t obj owner D tabs s h link bs1 l abr live :
  malloc_ok → ready owner D tabs s h link bs1 l [] [] abr block_size_in_oops live → 0 < abr →
  ∃ s' owner' nb, allocate_try (S r) fuel h t obj s = allocate_try r fuel h t obj s' ∧ same_roots 1 s s' ∧
    ready owner' D tabs s' h link (bs1 ++ [l]) nb [] [] (abr - 1) 0 live.
Proof.
  intros Hmal Hready Hpos. pose proof Hready as (HW & HD & Hd & Hlink & Hc & Hu). pose proof HW as (Hg & _).
  pose proof Hu as ((B & HB & _) & _ & (Bl & HBl & _) & _). destruct (try_no_space (S r) fuel t obj _ _ _ _ _ _ _ _ _ _ B Bl Hready HB HBl) as (Hrun & _ & _ & Hab & Ht).
  destruct (allocate_block_run (Some h) owner D tabs s (Some t) Hmal HW) as (nb & s1 & Hal & (HBn & Hnt & Hn0 & Hb1 & Hm1 & Hroots) & HW1).
  specialize (HW1 h (or_introl eq_refl)). set (owner' := <[nb := OTable h]> owner) in *. pose proof Hc as (Hhd & Hlk & Hnd & Hown & Hul).
  assert (Hold : ∀ b, b ∈ bs1 ++ [l] → b ≠ nb) by (intros b Hb%Hown ->; by apply (Hnt h)).
  assert (Hhin : h ∈ bs1 ++ [l]) by by eapply chain_head.
  assert (Hlin : l ∈ bs1 ++ [l]) by set_solver.
  assert (HB1 : js_blocks s1 !! h = Some B) by (rewrite Hb1; [done|by apply Hold]).
  assert (HBl1 : js_blocks s1 !! l = Some Bl) by (rewrite Hb1; [done|by apply Hold]).
  assert (Htop := appended_top (js_blocks s1) nb l h abr Bl B HBl1 HB1).
  set (bl' := appended nb l h abr Bl B (js_blocks s1)) in *. set (s' := upd s1 bl' (js_mem s1)).
  assert (Hbl : ∀ b C, b ∈ bs1 ++ [l] → js_blocks s !! b = Some C → js_blocks s1 !! b = Some C) by (intros b C Hb HC; rewrite Hb1; [done|by apply Hold]).
  assert (Hnb : ∃ C, bl' !! nb = Some C ∧ b_top C = 0 ∧ b_next C = 0 ∧ b_pop_frame_link C = 0).
  { destruct HBn as (Bn & HBn & Hz & Hz' & Hz''). destruct (Htop nb Bn HBn) as (C & HC & Hc1 & Hc3 & Hc2 & _). exists C. split; [done|]. split; [congruence|]. split; [|congruence].
    rewrite Hc2; [done|]. intros ->. by apply (Hold l). }
  assert (Hu' : in_use bl' (js_mem s1) (D h) h (bs1 ++ [l]) nb [] [] (abr - 1) 0 live).
  { rewrite <-Hab. apply (in_use_append (js_blocks s) (js_mem s)); try done; [by rewrite Hab|lia| | |].
    - intros b C Hb HC. destruct (Htop b C (Hbl b C Hb HC)) as (C' & ? & ? & _). by exists C'.
    - destruct Hnb as (C & ? & ? & _). by exists C.
    - destruct (Htop h B HB1) as (C' & HC' & _ & _ & _ & _ & Hlast). exists C'. rewrite Hab. split; [done|]. by apply Hlast. }
  assert (Hcf : confined (λ b, owner' !! b = Some (OTable h)) (js_blocks s1) (js_mem s1) bl' (js_mem s1)).
  { apply appended_confined; [done..|by apply HW1| |]; unfold owner'; rewrite lookup_insert_ne; (apply Hown || (symmetry; apply Hold)); done. }
  exists s', owner', nb. split; [|split; [exact (same_roots_trans 1 0 _ _ _ Hroots (same_roots_confined 0 _ _ _ _ Hcf))|]].
  - rewrite Hrun. rewrite (proj2 (Z.eqb_neq abr 0)) by lia.
    rewrite (M_bind_Some _ _ s tt s'); [|rewrite (M_bind_Some _ _ _ _ _ Hal); by apply appended_run]. apply handle_try.
    eapply in_use_first; [exact Hu'| |right; by destruct bs1]. by destruct bs1.
  - split_and!; try done; try lia.
    + by apply world_but_confined.
    + rewrite HD. symmetry. apply Hroots.
    + destruct Hlink as (B0 & HB0 & Hlk0). rewrite HB in HB0. injection HB0 as <-. destruct (Htop h B HB1) as (C' & HC' & _ & Hpl & _). exists C'. split; [done|congruence].
    + apply (chain_append owner (js_blocks s)); try done.
      * intros b C Hb HC. destruct (Htop b C (Hbl b C Hb HC)) as (C' & ? & _ & ? & ? & ? & _). by exists C'.
      * destruct Hnb as (C & ? & _ & ? & ?). by exists C.
      * intros Hb. by apply (Hold nb).
Qed.

(** An emptied chain is made ready. *)
Lemma handle_prepare r fuel t obj owner D tabs s h T bs :
  world_but (Some h) owner D tabs s → D h = js_deleted_handle s → reserved (D h) → chain owner (js_blocks s) h bs →
  (∃ B, js_blocks s !! h = Some B ∧ b_pop_frame_link B = t_link T) → cleared (js_blocks s) h bs (t_live T) → (length bs < fuel)%nat →
  ∃ s' rest, allocate_handle malloc (S r) fuel h t obj s = allocate_try r fuel h t obj s' ∧ same_roots 0 s s' ∧
    ready owner D tabs s' h (t_link T) [] h rest [] 0 0 (t_live T).
Proof.
  intros HW HD Hd Hc (B' & HB' & Hlk) (Hlive & B & r1 & r2 & -> & HB & Ht & Ht1 & Ht2) Hf. rewrite HB in HB'. injection HB' as <-. rewrite Hlive.
  pose proof HW as (Hg & _). pose proof Hc as (_ & (_ & Hh0 & B' & HB' & Hl) & [Hhn Hnd]%NoDup_cons & Hown & Hul). rewrite HB in HB'. injection HB' as <-.
  destruct (reset_following_run s r1 fuel (b_next B) r2 (js_blocks s)) as (bl' & Hrun & Hbl'); [done..|cbn in Hf; rewrite length_app in Hf; lia|].
  rewrite upd_self in Hrun. set (Bh := set_last h (set_rebuild 0 (set_free 0 B))).
  assert (Hbh : bl' !! h = Some B) by (rewrite Hbl', decide_False; [done|set_solver]).
  assert (Hnext : ∀ b C, js_blocks s !! b = Some C → ∃ C', bl' !! b = Some C' ∧ b_next C' = b_next C).
  { intros b C HC. rewrite Hbl', HC. destruct (decide (b ∈ r1)); by eexists. }
  assert (Hz : tops bl' (h :: r1 ++ r2) (eq 0)).
  { intros b [->|[Hb|Hb]%elem_of_app]%elem_of_cons; [by exists B|..]; rewrite Hbl'.
    - rewrite decide_True by done. destruct (Ht1 b Hb) as (C & -> & _). by eexists.
    - destruct (Ht2 b Hb) as (C & -> & HCt). destruct (decide (b ∈ r1)); by eexists. }
  assert (Hst : same_tops bl' (<[h := Bh]> bl')) by by eapply same_tops_insert.
  assert (Hcb : confined (λ b, owner !! b = Some (OTable h)) (js_blocks s) (js_mem s) bl' (js_mem s)).
  { split_and!; try done.
    - intros b. rewrite Hbl'. destruct (decide (b ∈ r1)); [|done]. by rewrite fmap_is_Some.
    - intros b Hn. rewrite Hbl', decide_False; [done|]. intros Hb. apply Hn, Hown. set_solver.
    - intros b C HC. rewrite Hbl' in HC. destruct (decide (b ∈ r1)); [|by destruct (proj1 Hg b C HC) as (_ & _ & ? & _)].
      apply fmap_Some in HC as (C0 & _ & ->). cbn. unfold block_size_in_oops. lia. }
  assert (Hcf : confined (λ b, owner !! b = Some (OTable h)) (js_blocks s) (js_mem s) (<[h := Bh]> bl') (js_mem s)).
  { eapply confined_trans; [exact Hcb|].
    apply (confined_block _ _ _ h B (λ B, set_last h (set_rebuild 0 (set_free 0 B)))); [by eapply confined_geometry|done|apply Hown; left|by destruct (proj1 Hg h B HB) as (_ & _ & ? & _)]. }
  exists (upd s (<[h := Bh]> bl') (js_mem s)), (r1 ++ r2). split; [|split; [by eapply same_roots_confined|]].
  - cbn [allocate_handle]. rewrite (field_bind h b_top _ _ B) by done. rewrite Ht. cbn [Z.eqb].
    rewrite (M_bind_Some _ _ s tt (upd s (<[h := Bh]> bl') (js_mem s))); [done|]. rewrite (field_bind h b_next _ _ B) by done.
    rewrite (M_bind_Some _ _ _ _ _ Hrun). by rewrite (update_run h _ _ B) by done.
  - split_and!; try done; try lia.
    + by apply world_but_confined.
    + exists Bh. cbn. by rewrite lookup_insert_eq.
    + apply (chain_insert _ bl' _ _ _ B); [done..|by left|]. split_and!; [done| |by apply NoDup_cons|done|].
      * eapply linked_frame; [|apply Hc]. intros b C _. apply Hnext.
      * intros b C Hb. rewrite Hbl'. destruct (decide (b ∈ r1)); [|by apply Hul]. rewrite fmap_Some. intros (C0 & HC0 & ->). exact (Hul b C0 Hb HC0).
    + split_and!; [|by intros b ?%elem_of_nil| | |done|].
      * exists Bh. cbn. by rewrite lookup_insert_eq.
      * exists Bh. cbn. by rewrite lookup_insert_eq.
      * eapply tops_same; [exact Hst|]. intros b Hb. apply Hz. by right.
      * split_and!; [by apply NoDup_nil|by intros x ?%elem_of_nil|by intros x v ?%lookup_empty_Some|]. intros x Hu. exfalso.
        apply (used_same bl' _ _ _ Hst) in Hu as (b & C & i & Hb & HC & Hi & _). destruct (Hz b Hb) as (C' & HC' & Hz'). rewrite HC in HC'. injection HC' as <-. lia.
Qed.
Lemma chain_length owner bl h bs : chain owner bl h bs → (length bs ≤ size bl)%nat.
Proof.
  intros (_ & Hl & Hnd & _). rewrite <-(size_dom (D := gset Z)), <-(size_list_to_set (C := gset Z) bs) by done. apply subseteq_size.
  intros b Hb%elem_of_list_to_set. apply elem_of_dom. by eapply linked_elem.
Qed.

(** A handle is allocated with at most three attempts. *)
Lemma allocate_handle_run r fuel t obj owner D tabs s h T :
  malloc_ok → 0 < heap_start → world owner D tabs s → tabs !! h = Some T → D h = js_deleted_handle s → reserved (D h) →
  Z.of_nat (size (js_blocks s)) < 2 ^ 25 → (size (js_blocks s) < fuel)%nat → obj ≠ D h → reserved obj →
  ∃ x s', allocate_handle malloc (3 + r) fuel h t obj s = Some (x, s') ∧ handed 1 D tabs s h (t_link T) (t_live T) obj x s'.
Proof.
  intros Hmal H0 HW HT HD Hd Hsz Hf Ho Hr. assert (HWb := world_but_intro _ _ _ _ _ _ HW HT).
  destruct (world_table _ _ _ _ _ _ HW HT) as (Hlink & bs & Hc & Hcase). assert (Hlen := chain_length _ _ _ _ Hc).
  assert (Htrans : ∀ n s1 s2 x live, (n ≤ 1)%nat → same_roots n s s1 → handed 0 D tabs s1 h (t_link T) live obj x s2 → handed 1 D tabs s h (t_link T) live obj x s2).
  { intros n s1 s2 x live Hn Hr1 (X1 & Hr2 & X2). split; [done|]. split; [|done]. destruct (same_roots_trans _ _ _ _ _ Hr1 Hr2) as [? ?]. split; [lia|done]. }
  assert (Hhit : ∀ r' x s2, allocate_try r' fuel h t obj s = Some (x, s2) ∧ handed 0 D tabs s h (t_link T) (t_live T) obj x s2 →
    ∃ x s2, allocate_try r' fuel h t obj s = Some (x, s2) ∧ handed 1 D tabs s h (t_link T) (t_live T) obj x s2).
  { intros r' x s2 [Hx Hh]. exists x, s2. split; [done|]. apply (Htrans 0%nat s); [lia|split; [lia|done]|done]. }
  cbn [Nat.add]. destruct Hcase as [Hcl|(Ht & bs1 & l & bs2 & fl & abr & ltop & -> & Hu)].
  { destruct (handle_prepare (S (S r)) fuel t obj owner D tabs s h T bs) as (s1 & rest & -> & Hroots & Hready); [done..|lia|].
    destruct (try_bump (S (S r)) fuel t obj _ _ _ _ _ _ _ _ _ _ _ _ _ Hready) as (x & s2 & -> & Hh); [unfold block_size_in_oops; lia|done..|]. eauto 10 using Nat.le_0_l. }
  rewrite handle_try by done.
  assert (Hready : ready owner D tabs s h (t_link T) bs1 l bs2 fl abr ltop (t_live T)) by (split_and!; try done; lia).
  destruct (decide (ltop < block_size_in_oops)) as [Hlt|Hge]; [by edestruct try_bump as (x & s2 & ?); [done..|]; eapply Hhit|].
  assert (ltop = block_size_in_oops) as ->.
  { destruct Hu as (_ & _ & (Bl & HBl & <-) & _). destruct HW as (Hg & _). destruct (proj1 Hg l Bl HBl) as (_ & _ & ? & _). lia. }
  destruct fl as [|x fl]; [|by edestruct try_take as (y & s2 & ?); [done..|]; eapply Hhit]. destruct bs2 as [|b bs2].
  2: { destruct (try_advance (S r) fuel t obj _ _ _ _ _ _ _ _ _ _ _ _ Hready) as (s1 & -> & Hroots & Hready1).
       destruct (try_bump (S r) fuel t obj _ _ _ _ _ _ _ _ _ _ _ _ _ Hready1) as (x & s2 & -> & Hh); [unfold block_size_in_oops; lia|done..|]. eauto 10 using Nat.le_0_l. }
  assert (Happ : ∀ r' s' abr', same_roots 0 s s' → ready owner D tabs s' h (t_link T) bs1 l [] [] abr' block_size_in_oops (t_live T) → 0 < abr' →
    ∃ x s2, allocate_try (S r') fuel h t obj s' = Some (x, s2) ∧ handed 1 D tabs s h (t_link T) (t_live T) obj x s2).
  { intros r' s' abr' Hroots Hready' Hpos. destruct (try_append r' fuel t obj _ _ _ _ _ _ _ _ _ _ Hmal Hready' Hpos) as (s1 & owner' & nb & -> & Hroots1 & Hready1).
    destruct (try_bump r' fuel t obj _ _ _ _ _ _ _ _ _ _ _ _ _ Hready1) as (x & s2 & -> & Hh); [unfold block_size_in_oops; lia|done..|]. exists x, s2. split; [done|].
    eapply Htrans; [|exact (same_roots_trans _ _ _ _ _ Hroots Hroots1)|exact Hh]. done. }
  destruct (decide (abr = 0)) as [->|Hne]; [|apply (Happ (S r) s abr); [done..|destruct Hu as (_ & _ & _ & _ & ? & _); lia]].
  destruct (try_rebuild (S r) fuel t obj owner D tabs s h (t_link T) bs1 l (t_live T) H0) as (s1 & abr' & fl' & -> & Hroots & Hready1 & Hor); [unfold zlen; lia|lia|done|].
  destruct fl' as [|x fl']; [apply (Happ r s1 abr'); [done..|destruct Hor; [done|lia]]|].
  destruct (try_take (S r) fuel t obj _ _ _ _ _ _ _ _ _ _ _ _ _ Hready1) as (y & s2 & -> & Hh); [done..|]. eauto 10 using Nat.le_0_l.
Qed.
End allocation.

(** *** Tables come, change and are read *)

Lemma table_live owner bl mem d h T x v : table_ok owner bl mem d h T → t_live T !! x = Some v →
  ∃ bs, chain owner bl h bs ∧ used bl bs x ∧ mem !! x = Some v ∧ v ≠ d ∧ (v = 0 ∨ reserved v).
Proof.
  intros (_ & bs & Hc & [(He & _)|(_ & bs1 & l & bs2 & fl & abr & ltop & -> & Hu)]) Hv; [by rewrite He in Hv|].
  exists (bs1 ++ l :: bs2). destruct Hu as (_ & _ & _ & _ & _ & (_ & _ & C3 & _)). destruct (C3 x v Hv) as (D1 & _ & D3 & D4 & D5). done.
Qed.
Lemma world_live owner D tabs s h T x v : world owner D tabs s → tabs !! h = Some T → t_live T !! x = Some v →
  js_mem s !! x = Some v ∧ x ≠ 0 ∧ v ≠ D h ∧ (v = 0 ∨ reserved v).
Proof.
  intros HW HT Hv. destruct (table_live _ _ _ _ _ _ _ _ (world_table _ _ _ _ _ _ HW HT) Hv) as (bs & _ & Hu & ? & ? & ?).
  destruct HW as (Hg & _). by destruct (used_not_reserved _ _ _ _ Hg Hu).
Qed.
(** A handle is live in one table. *)
Lemma world_disjoint owner D tabs s h1 T1 v1 h2 T2 v2 x : world owner D tabs s → tabs !! h1 = Some T1 → tabs !! h2 = Some T2 →
  t_live T1 !! x = Some v1 → t_live T2 !! x = Some v2 → h1 = h2.
Proof.
  intros HW HT1 HT2 Hx1 Hx2. pose proof HW as (Hg & _).
  destruct (table_live _ _ _ _ _ _ _ _ (world_table _ _ _ _ _ _ HW HT1) Hx1) as (bs1 & (_ & _ & _ & Ho1 & _) & Hu1 & _).
  destruct (table_live _ _ _ _ _ _ _ _ (world_table _ _ _ _ _ _ HW HT2) Hx2) as (bs2 & (_ & _ & _ & Ho2 & _) & Hu2 & _).
  destruct (used_slot _ _ _ _ Hg Hu1) as (b & i & Hb & HB & Hi & -> & _). destruct (used_slot _ _ _ _ Hg Hu2) as (b' & i' & Hb' & HB' & Hi' & Heq & _).
  destruct (block_slot_inj _ _ _ _ _ _ Hg HB HB' Hi Hi' Heq) as [<- _]. apply Ho1 in Hb. apply Ho2 in Hb'. congruence.
Qed.
Lemma world_head owner D tabs s h T : world owner D tabs s → tabs !! h = Some T →
  h ≠ 0 ∧ owner !! h = Some (OTable h) ∧ ∃ B, js_blocks s !! h = Some B ∧ b_pop_frame_link B = t_link T.
Proof.
  intros HW HT. destruct (world_table _ _ _ _ _ _ HW HT) as (HB & bs & Hc & _). assert (Hh := chain_head _ _ _ _ Hc).
  destruct Hc as (_ & Hl & _ & Hown & Hul). split; [|split; [by apply Hown|done]]. by destruct (linked_elem _ _ _ _ Hl Hh).
Qed.

Lemma new_table_run malloc owner D tabs s thread : malloc_ok malloc → world owner D tabs s →
  ∃ nb s', allocate_block malloc thread s = Some (nb, s') ∧ tabs !! nb = None ∧ nb ≠ 0 ∧ same_roots 1 s s' ∧
    world (<[nb := OTable nb]> owner) D (<[nb := mkTable 0 ∅]> tabs) s'.
Proof.
  intros Hmal HW. destruct (allocate_block_run malloc None owner D tabs s thread Hmal HW) as (nb & s' & Hrun & ((B & HB & Ht & Hn & Hl) & Hnt & Hn0 & _ & _ & Hroots) & HW').
  exists nb, s'. split; [done|]. split; [|split; [done|split; [done|]]].
  - destruct (tabs !! nb) as [T|] eqn:E; [|done]. destruct (world_head _ _ _ _ _ _ HW E) as (_ & Ho & _). by destruct (Hnt nb).
  - apply world_but_elim; [apply HW'; by right|]. split; [by exists B|]. exists [nb]. split.
    + split_and!; [done| |by apply NoDup_singleton| |by intros b C ?%elem_of_nil].
      * split; [done|]. split; [done|]. by exists B.
      * intros b. rewrite lookup_insert_Some, list_elem_of_singleton. split; [|by left; subst]. intros [[<- _]|[_ Ho]]; [done|].
        pose proof HW as (_ & _ & W3 & _). destruct (W3 b nb Ho) as [?|[T HT]]; [done|]. destruct (world_head _ _ _ _ _ _ HW HT) as (_ & Ho' & _). by destruct (Hnt nb).
    + left. split; [done|]. exists B, [], []. split_and!; try done; by intros b ?%elem_of_nil.
Qed.
(** The link of a table is set. *)
Lemma set_link_run owner D tabs s h T v : world owner D tabs s → tabs !! h = Some T →
  ∃ s', update h (set_link v) s = Some (tt, s') ∧ same_roots 0 s s' ∧ world owner D (<[h := mkTable v (t_live T)]> tabs) s'.
Proof.
  intros HW HT. destruct (world_head _ _ _ _ _ _ HW HT) as (_ & Ho & B & HB & _). pose proof HW as (Hg & _).
  assert (Hcf : confined (λ b, owner !! b = Some (OTable h)) (js_blocks s) (js_mem s) (<[h := set_link v B]> (js_blocks s)) (js_mem s)).
  { apply (confined_block _ _ _ h B (set_link v)); try done. by destruct (proj1 Hg h B HB) as (_ & _ & ? & _). }
  exists (upd s (<[h := set_link v B]> (js_blocks s)) (js_mem s)). split; [by rewrite (update_run h _ _ B)|]. split; [by eapply same_roots_confined|].
  apply world_but_elim; [apply world_but_confined; [by eapply world_but_intro|done]|]. cbn [js_blocks js_mem upd with_mem with_blocks].
  assert (Hst : same_tops (js_blocks s) (<[h := set_link v B]> (js_blocks s))) by by eapply same_tops_insert.
  destruct (world_table _ _ _ _ _ _ HW HT) as (_ & bs & Hc & Hcase). split; [exists (set_link v B); by rewrite lookup_insert_eq|].
  exists bs. split; [eapply chain_insert; eauto|]. destruct Hcase as [(He & B0 & r1 & r2 & Heq & HB0 & H1 & H2 & H3)|(Ht & bs1 & l & bs2 & fl & abr & ltop & -> & Hu)].
  - left. split; [done|]. destruct (same_tops_Some _ _ _ _ Hst HB0) as (B1 & HB1 & Ht1). exists B1, r1, r2.
    split_and!; [done..|congruence|by eapply tops_same|by eapply tops_same].
  - right. split; [by eapply tops_same|]. exists bs1, l, bs2, fl, abr, ltop. split; [done|].
    destruct Hu as ((B0 & HB0 & U1 & U2 & U3) & U4 & (Bl & HBl & U5) & U6 & U7 & U8). rewrite HB in HB0. injection HB0 as <-.
    split_and!; [exists (set_link v B); by rewrite lookup_insert_eq|by eapply tops_same| |by eapply tops_same|done|by eapply contents_same].
    destruct (same_tops_Some _ _ _ _ Hst HBl) as (B1 & ? & ?). exists B1. split; [done|congruence].
Qed.
(** A handle is deleted. *)
Lemma destroy_run owner D tabs s h T x v : world owner D tabs s → tabs !! h = Some T → D h = js_deleted_handle s → t_live T !! x = Some v →
  ∃ s', destroy_handle x s = Some (tt, s') ∧ same_roots 0 s s' ∧ world owner D (<[h := mkTable (t_link T) (delete x (t_live T))]> tabs) s'.
Proof.
  intros HW HT HD Hv. pose proof HW as (Hg & _). destruct (world_live _ _ _ _ _ _ _ _ HW HT Hv) as (Hm & Hx0 & _).
  destruct (world_table _ _ _ _ _ _ HW HT) as (Hlink & bs & Hc & [(He & _)|(Ht & bs1 & l & bs2 & fl & abr & ltop & -> & Hu)]); [by rewrite He in Hv|].
  destruct Hu as ((B & HB & U1 & U2 & U3) & U4 & U5 & U6 & U7 & (C1 & C2 & C3 & C4)). destruct (C3 x v Hv) as (Hu & Hfl & _).
  assert (Hcf := confined_mem _ _ _ _ x (D h) Hg Hu (λ b, proj2 (chain_owned _ _ _ _ Hc b))).
  exists (upd s (js_blocks s) (<[x := D h]> (js_mem s))). split; [|split; [by eapply same_roots_confined|]].
  - unfold destroy_handle. rewrite (proj2 (Z.eqb_neq x 0) Hx0). cbn [negb]. rewrite reads_step, <-HD. rewrite store_run by by eexists. by destruct s.
  - apply world_but_elim; [apply world_but_confined; [by eapply world_but_intro|done]|]. split; [done|]. exists (bs1 ++ l :: bs2). split; [done|].
    right. split; [done|]. exists bs1, l, bs2, fl, abr, ltop. split; [done|]. split_and!; [|done..|].
    + exists B. split_and!; try done. eapply threaded_frame; [|exact U3]. intros y Hy. apply lookup_insert_ne. by intros <-.
    + split_and!; [done..| |].
      * intros y w. cbn. rewrite lookup_delete_Some. intros [Hne Hw]. destruct (C3 y w Hw) as (D1 & D2 & D3 & D4 & D5). by rewrite lookup_insert_ne.
      * intros y Hy Hny. cbn. rewrite lookup_delete_None. intros [<-|Hnone]; [by rewrite lookup_insert_eq|].
        destruct (decide (x = y)) as [->|Hne]; [by rewrite lookup_insert_eq|]. rewrite lookup_insert_ne by done. by apply C4.
Qed.
(** A chain is emptied. *)
Lemma clear_run owner D tabs s h T : world owner D tabs s → tabs !! h = Some T →
  ∃ s', update h (set_top 0) s = Some (tt, s') ∧ same_roots 0 s s' ∧ world owner D (<[h := mkTable (t_link T) ∅]> tabs) s'.
Proof.
  intros HW HT. destruct (world_head _ _ _ _ _ _ HW HT) as (_ & Ho & B & HB & Hlink). pose proof HW as (Hg & _).
  assert (Hcf : confined (λ b, owner !! b = Some (OTable h)) (js_blocks s) (js_mem s) (<[h := set_top 0 B]> (js_blocks s)) (js_mem s)).
  { by apply (confined_block _ _ _ h B (set_top 0)). }
  exists (upd s (<[h := set_top 0 B]> (js_blocks s)) (js_mem s)). split; [by rewrite (update_run h _ _ B)|]. split; [by eapply same_roots_confined|].
  apply world_but_elim; [apply world_but_confined; [by eapply world_but_intro|done]|]. cbn [js_blocks js_mem upd with_mem with_blocks].
  destruct (world_table _ _ _ _ _ _ HW HT) as (_ & bs & Hc & Hcase). split; [exists (set_top 0 B); by rewrite lookup_insert_eq|].
  exists bs. split; [eapply chain_insert; eauto|]. left. split; [done|]. exists (set_top 0 B). pose proof Hc as (Hhd & _ & Hnd & _).
  assert (Hf : ∀ rest P, bs = h :: rest → ∀ r, (∀ b, b ∈ r → b ∈ rest) → tops (js_blocks s) r P → tops (<[h := set_top 0 B]> (js_blocks s)) r P).
  { intros rest P -> r Hr. apply tops_frame. intros b Hb. apply lookup_insert_ne. intros <-. apply NoDup_cons in Hnd as [Hn _]. by apply Hn, Hr. }
  destruct Hcase as [(He & B0 & r1 & r2 & Heq & HB0 & H1 & H2 & H3)|(Ht & bs1 & l & bs2 & fl & abr & ltop & Heq & Hu)].
  - exists r1, r2. rewrite lookup_insert_eq. split_and!; try done; (eapply Hf; [exact Heq| |done]); set_solver.
  - destruct Hu as (_ & Ht1 & (Bl & HBl & Hlt) & Ht2 & _). destruct bs1 as [|c bs1]; rewrite Heq in Hhd; cbn in Hhd; simplify_eq.
    + exists [], bs2. rewrite lookup_insert_eq. split_and!; try done; [by intros b ?%elem_of_nil|]. by eapply Hf.
    + assert (Ht1' : tops (js_blocks s) bs1 (Z.lt 0)).
      { intros b Hb. destruct (Ht1 b) as (C & HC & Heq); [by right|]. exists C. rewrite <-Heq. split; [done|unfold block_size_in_oops; lia]. }
      destruct (proj1 Hg l Bl HBl) as (_ & _ & Htr & _). destruct (decide (b_top Bl = 0)) as [Hz|Hz].
      * exists bs1, (l :: bs2). rewrite lookup_insert_eq. split_and!; try done; (eapply Hf; [done|set_solver|]); [done|].
        intros b [->|Hb]%elem_of_cons; [by exists Bl|by apply Ht2].
      * exists (bs1 ++ [l]), bs2. rewrite lookup_insert_eq. rewrite <-app_assoc. split_and!; try done; (eapply Hf; [done|set_solver|]); [|done].
        apply tops_app. split; [done|]. intros b ->%list_elem_of_singleton. exists Bl. split; [done|lia].
Qed.

(** *** Which table a handle is in *)

Lemma chain_contains_in s bs : ∀ fuel a b B i, linked (js_blocks s) a bs → b ∈ bs → js_blocks s !! b = Some B → 0 ≤ i < b_top B → (length bs < fuel)%nat →
  chain_contains fuel a (slot b i) s = Some (true, s).
Proof.
  induction bs as [|c bs IH]; intros [|fuel] a b B i Hl Hb HB Hi Hf; cbn [length] in Hf; try lia; [by apply elem_of_nil in Hb|].
  destruct Hl as (-> & H0 & C & HC & Hl). cbn [chain_contains]. rewrite (proj2 (Z.eqb_neq c 0) H0). cbn [negb]. rewrite (field_bind c _ _ _ C) by done.
  destruct (contains c (slot b i) C) eqn:E; [done|]. rewrite (field_bind c b_next _ _ C) by done. apply elem_of_cons in Hb as [->|Hb]; [|eapply IH; [done..|lia]].
  rewrite HB in HC. injection HC as <-. unfold contains, slot in E. apply andb_false_iff in E as [E|E]; [apply Z.leb_gt in E|apply Z.ltb_ge in E]; lia.
Qed.
Lemma chain_contains_out s bs : ∀ fuel a b i, geometry (js_blocks s) (js_mem s) → linked (js_blocks s) a bs → b ∉ bs → is_Some (js_blocks s !! b) → 0 ≤ i < block_size_in_oops →
  (length bs < fuel)%nat → chain_contains fuel a (slot b i) s = Some (false, s).
Proof.
  induction bs as [|c bs IH]; intros [|fuel] a b i Hg Hl Hb HB Hi Hf; cbn [length] in Hf; try lia; [cbn in Hl; by subst a|].
  destruct Hl as (-> & H0 & C & HC & Hl). apply not_elem_of_cons in Hb as [Hbc Hb]. cbn [chain_contains]. rewrite (proj2 (Z.eqb_neq c 0) H0). cbn [negb].
  rewrite (field_bind c _ _ _ C) by done. destruct (contains c (slot b i) C) eqn:E; [|rewrite (field_bind c b_next _ _ C) by done; eapply IH; [done..|lia]].
  exfalso. unfold contains in E. apply andb_true_iff in E as [E1%Z.leb_le E2%Z.ltb_lt]. destruct (proj1 Hg c C HC) as (_ & _ & Ht & _).
  destruct (proj2 Hg b c HB) as [?|?]; [by eexists|done|..]; unfold slot, block_size_in_oops in *; lia.
Qed.
(** A live handle is found in its table and in no other. *)
Lemma world_contains fuel owner D tabs s h T x v g U : world owner D tabs s → tabs !! h = Some T → t_live T !! x = Some v → tabs !! g = Some U → (size (js_blocks s) < fuel)%nat →
  chain_contains fuel g x s = Some (bool_decide (g = h), s).
Proof.
  intros HW HT Hv HU Hf. pose proof HW as (Hg & _). destruct (table_live _ _ _ _ _ _ _ _ (world_table _ _ _ _ _ _ HW HT) Hv) as (bs & (_ & Hl & _ & Ho & _) & (b & B & i & Hb & HB & Hi & ->) & _).
  destruct (world_table _ _ _ _ _ _ HW HU) as (_ & bs' & Hc' & _). assert (Hlen := chain_length _ _ _ _ Hc'). destruct Hc' as (_ & Hl' & _ & Ho' & _).
  apply Ho in Hb. case_bool_decide as Hgh.
  - subst g. eapply chain_contains_in; [done|by apply Ho'|done|done|lia].
  - destruct (proj1 Hg b B HB) as (_ & _ & Ht & _). eapply chain_contains_out; [done..|rewrite <-Ho'; congruence|by eexists|lia|lia].
Qed.

(** *** Blocks are given back *)

Definition give owner (bs : list Z) (o : own) : gmap Z own := foldr (λ b m, <[b := o]> m) owner bs.
Lemma give_lookup owner bs o b : give owner bs o !! b = if decide (b ∈ bs) then Some o else owner !! b.
Proof.
  induction bs as [|c bs IH]; [done|]. cbn [give foldr]. fold (give owner bs o). destruct (decide (b = c)) as [->|Hne].
  - rewrite lookup_insert_eq, decide_True by left. done.
  - rewrite lookup_insert_ne, IH by done. destruct (decide (b ∈ bs)); [by rewrite decide_True by by right|by rewrite decide_False by set_solver].
Qed.
Lemma free_give_other owner bl bl' bs o o' o0 a :
  (∀ b, owner !! b = Some o0 ↔ b ∈ bs) → o' ≠ o → o' ≠ o0 → (∀ b, b ∉ bs → bl' !! b = bl !! b) →
  free_ok owner bl a o' → free_ok (give owner bs o) bl' a o'.
Proof.
  intros Hown Hne Ht Hb. apply free_frame.
  - intros b. rewrite give_lookup. destruct (decide (b ∈ bs)) as [Hin|]; [|done]. apply Hown in Hin. rewrite Hin. split; congruence.
  - intros b Ho. apply Hb. intros Hin%Hown. congruence.
Qed.
(** The blocks of a table, or of a thread, go to a list. *)
Definition without (g : option Z) tabs : gmap Z Table := match g with Some h => delete h tabs | None => tabs end.
Lemma world_give g owner D tabs s s' bs o o0 :
  world_but g owner D tabs s → (∀ b, owner !! b = Some o0 ↔ b ∈ bs) → (∀ h, o0 = OTable h ↔ g = Some h) → (∀ h, o ≠ OTable h) →
  confined (λ b, owner !! b = Some o0) (js_blocks s) (js_mem s) (js_blocks s') (js_mem s') →
  free_ok (give owner bs o) (js_blocks s') (js_block_free_list s') OFree →
  (∀ t, free_ok (give owner bs o) (js_blocks s') (default 0 (js_free_handle_block s' !! t)) (OThread t)) →
  world (give owner bs o) D (without g tabs) s'.
Proof.
  intros (W1 & W2 & W3 & W4 & W5 & W6) Hown Hog Ho Hcf HF HT. pose proof Hcf as (A1 & A2 & A3 & A4 & A5).
  assert (Hwo : ∀ h T, without g tabs !! h = Some T ↔ Some h ≠ g ∧ tabs !! h = Some T).
  { intros h T. destruct g as [h0|]; cbn; [rewrite lookup_delete_Some|]; naive_solver. }
  assert (Hne : ∀ h, Some h ≠ g → o0 ≠ OTable h) by (intros h Hh He%Hog; done).
  split_and!; try done.
  - by eapply confined_geometry.
  - intros b. rewrite A1, W2, give_lookup. destruct (decide (b ∈ bs)) as [Hin|]; [|done]. apply Hown in Hin. rewrite Hin. by split.
  - intros b h. rewrite give_lookup. destruct (decide (b ∈ bs)) as [|Hin]; [intros [= ?]; by destruct (Ho h)|]. intros Hh. right.
    destruct (W3 b h Hh) as [Hg|[T HTh]].
    + exfalso. apply Hin, Hown. rewrite Hh. f_equal. symmetry. by apply Hog.
    + destruct (decide (Some h = g)) as [Hg|Hg]; [|exists T; by apply Hwo]. exfalso. apply Hin, Hown. rewrite Hh. f_equal. symmetry. by apply Hog.
  - intros h T _ [Hh HTh]%Hwo. specialize (Hne h Hh). eapply table_frame; [exact W1| | | |by apply W6].
    + intros b. rewrite give_lookup. destruct (decide (b ∈ bs)) as [Hin|]; [|done]. apply Hown in Hin. rewrite Hin. split; [|congruence]. intros [= ?]. by destruct (Ho h).
    + intros b Hb. apply A2. rewrite Hb. congruence.
    + intros b i Hb HB Hi. apply A5; [done| |done]. rewrite Hb. congruence.
Qed.

Lemma linked_concat bl bl' a cs l a2 fs :
  linked bl a (cs ++ [l]) → linked bl a2 fs → (∀ b B, b ∈ cs ++ fs → bl !! b = Some B → ∃ B', bl' !! b = Some B' ∧ b_next B' = b_next B) →
  (∃ B, bl' !! l = Some B ∧ b_next B = a2) → linked bl' a (cs ++ l :: fs).
Proof using Type.
  intros Hl Hf Hn (Bl & HBl & Hln). revert a Hl. induction cs as [|c cs IH]; intros a Hl.
  - destruct Hl as (-> & H0 & _). split; [done|]. split; [done|]. exists Bl. split; [done|]. rewrite Hln. eapply linked_frame; [|exact Hf].
    intros b B Hb. by apply Hn.
  - destruct Hl as (-> & H0 & C & HC & Hl). destruct (Hn c C) as (C' & HC' & Hc'); [left|done|]. split; [done|]. split; [done|]. exists C'. split; [done|].
    rewrite Hc'. apply IH; [|done]. intros b B Hb. apply Hn. by right.
Qed.
Lemma last_block_run s cs : ∀ fuel a l, linked (js_blocks s) a (cs ++ [l]) → (length cs < fuel)%nat → last_block fuel a s = Some (l, s).
Proof.
  induction cs as [|c cs IH]; intros [|fuel] a l Hl Hf; cbn [length] in Hf; try lia.
  - destruct Hl as (-> & _ & B & HB & Hn). cbn in Hn. cbn [last_block]. rewrite (field_bind l b_next _ _ B) by done. by rewrite Hn.
  - destruct Hl as (-> & _ & C & HC & Hl). cbn [last_block]. rewrite (field_bind c b_next _ _ C) by done.
    assert (b_next C ≠ 0) as Hn0 by (destruct cs; cbn in Hl; destruct Hl as (-> & ? & _); done).
    rewrite (proj2 (Z.eqb_neq _ _) Hn0). cbn [negb]. apply IH; [done|lia].
Qed.
Lemma return_blocks_run cs : ∀ fuel a fs s,
  linked (js_blocks s) a cs → linked (js_blocks s) (js_block_free_list s) fs → NoDup (cs ++ fs) → (length cs < fuel)%nat →
  ∃ bl' a', return_blocks fuel a s = Some (tt, with_free a' (upd s bl' (js_mem s))) ∧ linked bl' a' (reverse cs ++ fs) ∧
    same_tops (js_blocks s) bl' ∧ ∀ b, b ∉ cs → bl' !! b = js_blocks s !! b.
Proof.
  induction cs as [|c cs IH]; intros [|fuel] a fs s Hl Hf Hnd Hfuel; cbn [length] in Hfuel; try lia.
  - cbn in Hl. subst a. exists (js_blocks s), (js_block_free_list s). split; [by destruct s|]. done.
  - destruct Hl as (-> & H0 & C & HC & Hl). apply NoDup_cons in Hnd as [Hc Hnd]. cbn [return_blocks]. rewrite (proj2 (Z.eqb_neq _ _) H0). cbn [negb].
    rewrite (field_bind c b_next _ _ C) by done. rewrite reads_step, (update_bind c _ _ _ C), modify_bind by done.
    set (s1 := with_free c _). assert (Hst : same_tops (js_blocks s) (js_blocks s1)) by by eapply same_tops_insert.
    assert (Hne : ∀ b, b ≠ c → js_blocks s1 !! b = js_blocks s !! b) by (intros b Hb; cbn; by rewrite lookup_insert_ne).
    destruct (IH fuel (b_next C) (c :: fs) s1) as (bl' & a' & Hrun & Hl' & Hst' & Hb').
    + eapply linked_frame; [|exact Hl]. intros b B Hb HB. exists B. rewrite Hne; [done|]. intros ->. set_solver.
    + split; [done|]. split; [done|]. exists (set_next (js_block_free_list s) C). cbn. rewrite lookup_insert_eq. split; [done|].
      eapply linked_frame; [|exact Hf]. intros b B Hb HB. exists B. cbn. rewrite lookup_insert_ne; [done|]. intros ->. set_solver.
    + apply NoDup_app in Hnd as (N1 & N2 & N3). apply NoDup_app. split; [done|]. split; [|apply NoDup_cons; set_solver]. intros b Hb [->|Hb']%elem_of_cons; [set_solver|by eapply N2].
    + lia.
    + exists bl', a'. split; [exact Hrun|]. rewrite reverse_cons, <-app_assoc. split; [done|]. split; [intros b; by rewrite Hst', Hst|].
      intros b [Hbc Hbs]%not_elem_of_cons. rewrite Hb' by done. by apply Hne.
Qed.

(** The chain of [h], but not its links, goes to the list of [thread]. *)
Definition release_chain (fuel : nat) (block : Z) (thread : option nat) : M JNI unit :=
  match thread with
  | Some t =>
      freelist ← free_handle_block t;
      update block (set_link 0);;
      modify (with_thread_free t block);;
      if negb (freelist =? 0) then l ← last_block fuel block; update l (set_next freelist) else mret tt
  | None => return_blocks fuel block
  end.
Definition list_of (thread : option nat) : own := match thread with Some t => OThread t | None => OFree end.
Lemma same_tops_confined (P : Z → Prop) bl bl' mem : geometry bl mem → same_tops bl bl' → (∀ b, ¬ P b → bl' !! b = bl !! b) → confined P bl mem bl' mem.
Proof.
  intros Hg Hst Hb. split_and!; try done.
  - intros b. rewrite <-!(fmap_is_Some b_top). by rewrite Hst.
  - intros b B HB. destruct (same_tops_Some _ _ _ _ (same_tops_sym _ _ Hst) HB) as (B0 & HB0 & <-). by destruct (proj1 Hg b B0 HB0) as (_ & _ & ? & _).
Qed.
(** The blocks of a table or of a thread's list go back to the free blocks. *)
Lemma return_run g o0 fuel owner D tabs s s0 a bs :
  world_but g owner D tabs s → linked (js_blocks s) a bs → NoDup bs → (∀ b, owner !! b = Some o0 ↔ b ∈ bs) → (∀ h, o0 = OTable h ↔ g = Some h) → o0 ≠ OFree →
  (length bs < fuel)%nat → (s0 = s ∧ (∀ t, o0 ≠ OThread t) ∨ ∃ t, o0 = OThread t ∧ s0 = with_thread_free t 0 s) →
  ∃ s', return_blocks fuel a s0 = Some (tt, s') ∧ same_roots 0 s0 s' ∧ world (give owner bs OFree) D (without g tabs) s'.
Proof.
  intros HW Hl Hnd Hown Hog Hof Hf Hs0. pose proof HW as (Hg & _ & _ & (fs & Hfl & Hfnd & Hfo & _) & W5 & _).
  assert (Hdis : NoDup (bs ++ fs)).
  { apply NoDup_app. split_and!; try done. intros b Hb%Hown Hb'%Hfo. congruence. }
  assert (Hsame : js_blocks s0 = js_blocks s ∧ js_mem s0 = js_mem s ∧ js_block_free_list s0 = js_block_free_list s) by by destruct Hs0 as [[-> _]|(t & _ & ->)].
  destruct Hsame as (Hsb & Hsm & Hsf). rewrite <-Hsb in Hl, Hfl. rewrite <-Hsf in Hfl.
  destruct (return_blocks_run bs fuel a fs s0 Hl Hfl Hdis) as (bl' & a' & Hrun & Hl' & Hst & Hb); [lia|]. rewrite Hsb in Hst, Hb.
  assert (Hcf : confined (λ b, owner !! b = Some o0) (js_blocks s) (js_mem s) bl' (js_mem s)).
  { apply same_tops_confined; [done..|]. intros b Hn. apply Hb. by rewrite <-Hown. }
  exists (with_free a' (upd s0 bl' (js_mem s0))). split; [exact Hrun|]. split.
  { rewrite <-Hsb, <-Hsm in Hcf. exact (same_roots_confined 0 _ s0 _ _ Hcf). }
  eapply world_give; [exact HW|done..|rewrite Hsm; exact Hcf| |].
  - exists (reverse bs ++ fs). split_and!; [done|by rewrite reverse_Permutation| |done].
    intros b. rewrite give_lookup, elem_of_app, elem_of_reverse. destruct (decide (b ∈ bs)); [naive_solver|]. rewrite Hfo. naive_solver.
  - destruct Hs0 as [[-> Hot]|(t & -> & ->)]; intros t'; cbn; [eapply free_give_other; [exact Hown|done|by apply not_eq_sym|done|exact (W5 t')]|].
    destruct (decide (t' = t)) as [->|Hne].
    + rewrite lookup_insert_eq. exists []. split_and!; [done|by apply NoDup_nil| |by intros _ b C ?%elem_of_nil]. intros b. rewrite give_lookup.
      destruct (decide (b ∈ bs)) as [|Hn]; [rewrite elem_of_nil; naive_solver|]. rewrite Hown, elem_of_nil. naive_solver.
    + rewrite lookup_insert_ne by done. eapply free_give_other; [exact Hown|done|congruence|done|exact (W5 t')].
Qed.
Lemma release_global_run fuel owner D tabs s h T : world owner D tabs s → tabs !! h = Some T → (size (js_blocks s) < fuel)%nat →
  ∃ s' owner', release_chain fuel h None s = Some (tt, s') ∧ same_roots 0 s s' ∧ world owner' D (delete h tabs) s'.
Proof.
  intros HW HT Hf. assert (HWb := world_but_intro _ _ _ _ _ _ HW HT). destruct (world_table _ _ _ _ _ _ HW HT) as (_ & bs & Hc & _).
  assert (Hlen := chain_length _ _ _ _ Hc). pose proof Hc as (_ & Hl & Hnd & Hown & Hul).
  destruct (return_run (Some h) (OTable h) fuel owner D tabs s s h bs) as (s' & Hrun & Hroots & HW'); [done..|naive_solver|done|lia|by left|].
  by exists s', (give owner bs OFree).
Qed.
Lemma unlinked_insert bl bs b B B' : unlinked bl bs → bl !! b = Some B → b_pop_frame_link B' = b_pop_frame_link B → unlinked (<[b := B']> bl) bs.
Proof. intros Hu HB Hl c C Hc. rewrite lookup_insert_Some. intros [[<- <-]|[_ HC]]; [rewrite Hl|]; by eapply Hu. Qed.
Lemma linked_zero bl fs : linked bl 0 fs → fs = [].
Proof. destruct fs as [|b fs]; [done|]. by intros (<- & ? & _). Qed.
Lemma release_thread_links fuel s t h B bs fs : NoDup (bs ++ fs) → linked (js_blocks s) h bs → head bs = Some h → js_blocks s !! h = Some B → (length bs < fuel)%nat →
  linked (js_blocks s) (default 0 (js_free_handle_block s !! t)) fs → unlinked (js_blocks s) (tail bs) → unlinked (js_blocks s) fs →
  ∃ bl', release_chain fuel h (Some t) s = Some (tt, with_thread_free t h (upd s bl' (js_mem s))) ∧ linked bl' h (bs ++ fs) ∧
    same_tops (js_blocks s) bl' ∧ (∀ b, b ∉ bs → bl' !! b = js_blocks s !! b) ∧ unlinked bl' (bs ++ fs).
Proof.
  intros Hnd Hl Hh HB Hf Hfl Hul Hulf. set (a0 := default 0 (js_free_handle_block s !! t)) in *. set (bl1 := <[h := set_link 0 B]> (js_blocks s)).
  assert (Hst1 : same_tops (js_blocks s) bl1) by by eapply same_tops_insert.
  assert (Hn1 : ∀ b C, js_blocks s !! b = Some C → ∃ C', bl1 !! b = Some C' ∧ b_next C' = b_next C).
  { intros b C HC. eapply (field_insert b_next); [exact HB|done|by exists C]. }
  assert (Hl1 : linked bl1 h bs) by (eapply linked_frame; [|exact Hl]; intros b C _; apply Hn1).
  assert (Hrun : release_chain fuel h (Some t) s = (if negb (a0 =? 0) then l ← last_block fuel h; update l (set_next a0) else mret tt) (with_thread_free t h (upd s bl1 (js_mem s)))).
  { cbn [release_chain]. unfold free_handle_block. rewrite reads_step. fold a0. rewrite (update_bind h _ _ _ B), modify_bind by done. by destruct s. }
  assert (Hhin : h ∈ bs) by (destruct bs; [done|]; cbn in Hh; simplify_eq; left).
  assert (Hb1 : ∀ b, b ∉ bs → bl1 !! b = js_blocks s !! b) by (intros b Hb; apply lookup_insert_ne; by intros <-).
  assert (Hu1 : unlinked bl1 (bs ++ fs)).
  { intros b C Hb. unfold bl1. rewrite lookup_insert_Some. intros [[_ <-]|[Hne HC]]; [done|]. apply elem_of_app in Hb as [Hb|Hb]; [|by eapply Hulf].
    eapply Hul; [|exact HC]. destruct bs as [|b0 bs]; [done|]. cbn in Hh. injection Hh as ->. apply elem_of_cons in Hb as [->|Hb]; done. }
  destruct (a0 =? 0) eqn:E; cbn [negb] in Hrun.
  - apply Z.eqb_eq in E. rewrite E in Hfl. apply linked_zero in Hfl as ->. rewrite app_nil_r in *. by exists bl1.
  - destruct (exists_last (l := bs)) as (cs & l & ->); [by intros ->|].
    destruct (linked_elem bl1 h (cs ++ [l]) l Hl1) as [[Bl HBl] _]; [set_solver|]. rewrite length_app in Hf. cbn in Hf.
    exists (<[l := set_next a0 Bl]> bl1). split_and!.
    + rewrite Hrun. rewrite (M_bind_Some _ _ _ l (with_thread_free t h (upd s bl1 (js_mem s)))) by (apply (last_block_run _ cs); [done|lia]).
      by rewrite (update_run l _ _ Bl) by done.
    + rewrite <-app_assoc. cbn [app]. apply (linked_concat bl1 _ _ _ _ a0); [done| | |eexists; by rewrite lookup_insert_eq].
      * eapply linked_frame; [|exact Hfl]. intros b C _. apply Hn1.
      * intros b C Hb HC. exists C. rewrite lookup_insert_ne; [done|]. intros ->. rewrite <-app_assoc in Hnd. apply NoDup_app in Hnd as (_ & N2 & [N3 _]%NoDup_cons).
        apply elem_of_app in Hb as [Hb|Hb]; [eapply N2; [exact Hb|left]|done].
    + intros b. rewrite <-Hst1. revert b. by eapply same_tops_insert.
    + intros b Hb. rewrite lookup_insert_ne by set_solver. by apply Hb1.
    + by eapply unlinked_insert.
Qed.
Lemma release_chain_run fuel thread owner D tabs s h T : world owner D tabs s → tabs !! h = Some T → (size (js_blocks s) < fuel)%nat →
  ∃ s' owner', release_chain fuel h thread s = Some (tt, s') ∧ same_roots 0 s s' ∧ world owner' D (delete h tabs) s'.
Proof.
  destruct thread as [t|]; [|apply release_global_run]. intros HW HT Hf.
  assert (HWb := world_but_intro _ _ _ _ _ _ HW HT). destruct (world_table _ _ _ _ _ _ HW HT) as ((B & HB & _) & bs & Hc & _).
  assert (Hlen := chain_length _ _ _ _ Hc). pose proof Hc as (Hh & Hl & Hnd & Hown & Hul). pose proof HW as (Hg & _ & _ & W4 & W5 & _). destruct (W5 t) as (fs & Hfl & Hfnd & Hfo & Hfu).
  assert (Hdis : NoDup (bs ++ fs)).
  { apply NoDup_app. split_and!; try done. intros b Hb%Hown Hb'%Hfo. congruence. }
  destruct (release_thread_links fuel s t h B bs fs) as (bl' & Hrun & Hl' & Hst & Hb & Hu'); [done..|lia|done|done|by apply Hfu|].
  assert (Hcf : confined (λ b, owner !! b = Some (OTable h)) (js_blocks s) (js_mem s) bl' (js_mem s)).
  { apply same_tops_confined; [done..|]. intros b Hn. apply Hb. by rewrite <-Hown. }
  eexists _, (give owner bs (OThread t)). split; [exact Hrun|]. split.
  { exact (same_roots_confined 0 _ s _ _ Hcf). }
  eapply (world_give (Some h)); [exact HWb|exact Hown|naive_solver|done|exact Hcf| |].
  - eapply free_give_other; [exact Hown|done|done|done|exact W4].
  - intros t'. cbn. destruct (decide (t' = t)) as [->|Hne].
    + rewrite lookup_insert_eq. exists (bs ++ fs). split_and!; try done. intros b. rewrite give_lookup, elem_of_app.
      destruct (decide (b ∈ bs)); [naive_solver|]. rewrite Hfo. naive_solver.
    + rewrite lookup_insert_ne by done. eapply free_give_other; [exact Hown|congruence|done|done|exact (W5 t')].
Qed.

(** The tables from [a] on by their links. *)
Fixpoint frames tabs (a : Z) (hs : list Z) : Prop :=
  match hs with
  | [] => a = 0
  | h :: hs' => a = h ∧ ∃ T, tabs !! h = Some T ∧ frames tabs (t_link T) hs'
  end.
Definition drop_tables tabs (hs : list Z) : gmap Z Table := foldr (λ h m, delete h m) tabs hs.
Lemma frames_frame tabs tabs' a hs : (∀ h, h ∈ hs → t_link <$> tabs' !! h = t_link <$> tabs !! h) → frames tabs a hs → frames tabs' a hs.
Proof.
  revert a. induction hs as [|h hs IH]; intros a Hf; [done|]. intros (-> & T & HT & Hr). split; [done|].
  assert (Hh := Hf h ltac:(left)). rewrite HT in Hh. destruct (tabs' !! h) as [T'|]; cbn in Hh; [injection Hh as Hlk|done]. exists T'. split; [done|]. rewrite Hlk. apply IH; [|done].
  intros g Hg. apply Hf. by right.
Qed.
Lemma release_block_unfold fuel' block thread :
  release_block (S fuel') block thread = (pop_frame_link ← field block b_pop_frame_link; release_chain (S fuel') block thread;;
    if negb (pop_frame_link =? 0) then release_block fuel' pop_frame_link thread else mret tt).
Proof. done. Qed.
Lemma drop_tables_delete tabs h hs : drop_tables (delete h tabs) hs = delete h (drop_tables tabs hs).
Proof. induction hs as [|g hs IH]; [done|]. cbn. fold (drop_tables (delete h tabs) hs) (drop_tables tabs hs). rewrite IH. apply delete_delete. Qed.
Lemma release_block_run thread hs : ∀ fuel owner D tabs s h,
  world owner D tabs s → frames tabs h (h :: hs) → NoDup (h :: hs) → (size (js_blocks s) + length hs < fuel)%nat →
  ∃ s' owner', release_block fuel h thread s = Some (tt, s') ∧ same_roots 0 s s' ∧ world owner' D (drop_tables tabs (h :: hs)) s'.
Proof.
  induction hs as [|g hs IH]; intros [|fuel] owner D tabs s h HW (_ & T & HT & Hfr) Hnd Hf; try lia.
  all: destruct (world_head _ _ _ _ _ _ HW HT) as (_ & _ & B & HB & Hlink); rewrite release_block_unfold, (field_bind h b_pop_frame_link _ _ B) by done; rewrite Hlink.
  all: destruct (release_chain_run (S fuel) thread _ _ _ _ _ _ HW HT) as (s1 & owner1 & Hrun & Hroots & HW1); [lia|]; rewrite (M_bind_Some _ _ _ _ _ Hrun).
  - cbn in Hfr. rewrite Hfr. cbn [Z.eqb negb]. by exists s1, owner1.
  - destruct Hfr as (Hlk & T' & HT' & Hfr). apply NoDup_cons in Hnd as [Hh Hnd]. destruct (world_head _ _ _ _ _ _ HW HT') as (Hg0 & _).
    assert (Hne : ∀ x, x ∈ g :: hs → h ≠ x) by (intros x Hx ->; done).
    destruct (IH fuel owner1 D (delete h tabs) s1 g HW1) as (s2 & owner2 & Hrun2 & Hroots2 & HW2); [|done|cbn in Hf; destruct Hroots as [? _]; lia|].
    + apply (frames_frame tabs); [intros x Hx; by rewrite lookup_delete_ne by by apply Hne|]. split; [done|]. by exists T'.
    + rewrite Hlk, (proj2 (Z.eqb_neq g 0) Hg0). cbn [negb]. exists s2, owner2. split; [done|]. split; [exact (same_roots_trans 0 0 _ _ _ Hroots Hroots2)|].
      by rewrite drop_tables_delete in HW2.
Qed.

Lemma is_local_handle_run hs : ∀ fuel owner D tabs s h T x v a, world owner D tabs s → tabs !! h = Some T → t_live T !! x = Some v → frames tabs a hs →
  (size (js_blocks s) + length hs < fuel)%nat → is_local_handle fuel a x s = Some (bool_decide (h ∈ hs), s).
Proof.
  induction hs as [|g hs IH]; intros [|fuel] owner D tabs s h T x v a HW HT Hv Hfr Hf; try lia; [cbn in Hfr; by subst a|].
  destruct Hfr as (-> & U & HU & Hfr). destruct (world_head _ _ _ _ _ _ HW HU) as (Hg0 & _ & B & HB & Hlink). cbn [is_local_handle].
  rewrite (proj2 (Z.eqb_neq g 0) Hg0). cbn [negb]. rewrite (M_bind_Some _ _ _ _ _ (world_contains (S fuel) _ _ _ _ _ _ _ _ _ _ HW HT Hv HU ltac:(lia))).
  case_bool_decide as Hgh; [rewrite bool_decide_true; [done|]; subst; left|].
  rewrite (field_bind g b_pop_frame_link _ _ B) by done. rewrite Hlink, (IH _ _ _ _ _ _ _ _ _ _ HW HT Hv Hfr) by (cbn in Hf; lia).
  do 2 f_equal. apply bool_decide_ext. rewrite elem_of_cons. naive_solver.
Qed.

(** A thread gives back its list of blocks. *)
Lemma release_list_run fuel owner D tabs s t : world owner D tabs s → (size (js_blocks s) < fuel)%nat → default 0 (js_free_handle_block s !! t) ≠ 0 →
  ∃ s' owner', release_block fuel (default 0 (js_free_handle_block s !! t)) None (with_thread_free t 0 s) = Some (tt, s') ∧ same_roots 0 s s' ∧ world owner' D tabs s'.
Proof.
  intros HW Hf Hn0. pose proof HW as (_ & _ & _ & _ & W5 & _). destruct (W5 t) as (bs & Hl & Hnd & Hown & Hul). set (a := default 0 _) in *.
  assert (Hlen : (length bs ≤ size (js_blocks s))%nat).
  { rewrite <-(size_dom (D := gset Z)), <-(size_list_to_set (C := gset Z) bs) by done. apply subseteq_size.
    intros b Hb%elem_of_list_to_set. apply elem_of_dom. by eapply linked_elem. }
  destruct (return_run None (OThread t) fuel owner D tabs s (with_thread_free t 0 s) a bs HW Hl Hnd Hown) as (s' & Hrun & Hroots & HW'); [done..|lia|right; by exists t|].
  exists s', (give owner bs OFree). split; [|done]. destruct fuel as [|fuel]; [lia|]. destruct bs as [|b bs]; [done|]. destruct Hl as (Hab & _ & B & HB & _).
  rewrite release_block_unfold, (field_bind a b_pop_frame_link _ _ B) by (cbn; by rewrite Hab). cbn [release_chain]. rewrite (M_bind_Some _ _ _ _ _ Hrun).
  rewrite (Hul ltac:(done) b B) by (left || done). done.
Qed.

(** *** The collector *)

Section visit.
Context (f : Z → Z).
Definition seen (v : Z) : Z := if negb (v =? 0) && is_in_reserved heap_start heap_end v then f v else v.
Lemma seen_reserved v : 0 < heap_start → reserved v → seen v = f v.
Proof.
  intros H0 Hr. unfold seen, is_in_reserved. rewrite (proj2 (Z.eqb_neq v 0)) by lia. rewrite (proj2 (Z.leb_le heap_start v)) by lia.
  by rewrite (proj2 (Z.ltb_lt v heap_end)) by lia.
Qed.
Lemma seen_other v : ¬ reserved v → seen v = v.
Proof.
  intros Hr. unfold seen, is_in_reserved. destruct (heap_start <=? v) eqn:E1, (v <? heap_end) eqn:E2; try (by rewrite andb_comm).
  apply Z.leb_le in E1. apply Z.ltb_lt in E2. lia.
Qed.
Lemma visit_block_run n : ∀ b index s, 0 ≤ index → (∀ i, index ≤ i < index + Z.of_nat n → is_Some (js_mem s !! slot b i)) →
  ∃ mem', visit_block heap_start heap_end n b index f s = Some (tt, upd s (js_blocks s) mem') ∧
    (∀ i, index ≤ i < index + Z.of_nat n → mem' !! slot b i = seen <$> js_mem s !! slot b i) ∧
    (∀ x, (∀ i, index ≤ i < index + Z.of_nat n → x ≠ slot b i) → mem' !! x = js_mem s !! x) ∧ (∀ x, is_Some (js_mem s !! x) → is_Some (mem' !! x)).
Proof.
  induction n as [|n IH]; intros b index s Hi Hm.
  - exists (js_mem s). split; [by rewrite upd_self|]. split; [lia|]. by split.
  - destruct (Hm index) as [v Hv]; [lia|]. set (s1 := with_mem (<[slot b index := seen v]> (js_mem s)) s).
    assert (Hstep : visit_block heap_start heap_end (S n) b index f s = visit_block heap_start heap_end n b (index + 1) f s1).
    { cbn [visit_block]. rewrite (load_bind _ _ _ v) by done. unfold s1, seen. destruct (_ && _); [by rewrite store_bind by by eexists|].
      rewrite M_bind_ret, insert_id by done. by destruct s. }
    destruct (IH b (index + 1) s1) as (mem' & Hrun & Hin & Hout & Hdom).
    { lia. } { intros i Hi'. cbn. rewrite lookup_insert_is_Some'. right. apply Hm. lia. }
    exists mem'. rewrite Hstep. split; [done|]. split_and!.
    + intros i Hi'. destruct (decide (i = index)) as [->|Hne].
      * rewrite Hout by (intros j Hj; unfold slot; lia). cbn. by rewrite lookup_insert_eq, Hv.
      * rewrite Hin by lia. cbn. rewrite lookup_insert_ne by (unfold slot; lia). done.
    + intros x Hx. rewrite Hout by (intros i Hi'; apply Hx; lia). cbn. rewrite lookup_insert_ne; [done|]. apply not_eq_sym, Hx. lia.
    + intros x Hx. apply Hdom. cbn. rewrite lookup_insert_is_Some'. by right.
Qed.
(** Blocks after one that is not full are empty. *)
Fixpoint packed bl (bs : list Z) : Prop :=
  match bs with
  | [] => True
  | b :: bs' => (∃ B, bl !! b = Some B ∧ (b_top B < block_size_in_oops → tops bl bs' (eq 0))) ∧ packed bl bs'
  end.
Lemma used_empty bl bs x : tops bl bs (eq 0) → ¬ used bl bs x.
Proof. intros Ht (b & B & i & Hb & HB & Hi & _). destruct (Ht b Hb) as (B' & HB' & Hz). rewrite HB in HB'. injection HB' as <-. lia. Qed.
Lemma used_cons bl b bs x : used bl (b :: bs) x ↔ (∃ B i, bl !! b = Some B ∧ 0 ≤ i < b_top B ∧ x = slot b i) ∨ used bl bs x.
Proof.
  split.
  - intros (c & C & i & [->|Hc]%elem_of_cons & HC & Hi & ->); [left; by exists C, i|right; by exists c, C, i].
  - intros [(B & i & HB & Hi & ->)|(c & C & i & Hc & HC & Hi & ->)]; [exists b, B, i|exists c, C, i]; split_and!; try done; [left|lia|lia|by right|lia|lia].
Qed.
Lemma visit_chain_run bs : ∀ fuel a s, geometry (js_blocks s) (js_mem s) → linked (js_blocks s) a bs → NoDup bs → packed (js_blocks s) bs → (length bs < fuel)%nat →
  ∃ mem', visit_chain heap_start heap_end fuel a f s = Some (tt, upd s (js_blocks s) mem') ∧
    (∀ x, used (js_blocks s) bs x → mem' !! x = seen <$> js_mem s !! x) ∧ (∀ x, ¬ used (js_blocks s) bs x → mem' !! x = js_mem s !! x) ∧
    (∀ x, is_Some (js_mem s !! x) → is_Some (mem' !! x)).
Proof.
  induction bs as [|b bs IH]; intros [|fuel] a s Hg Hl Hnd Hp Hf; cbn [length] in Hf; try lia.
  - cbn in Hl. subst a. exists (js_mem s). split; [by rewrite upd_self|]. split; [|done]. intros x (c & C & i & Hc & _). by apply elem_of_nil in Hc.
  - destruct Hl as (-> & H0 & B & HB & Hl). destruct Hp as [(B' & HB' & Hz) Hp]. rewrite HB in HB'. injection HB' as <-. apply NoDup_cons in Hnd as [Hb Hnd].
    cbn [visit_chain]. rewrite (proj2 (Z.eqb_neq b 0) H0). cbn [negb]. rewrite (field_bind b b_top _ _ B) by done. destruct (proj1 Hg b B HB) as (_ & _ & Htop & Hm).
    destruct (visit_block_run (Z.to_nat (b_top B)) b 0 s) as (mem1 & Hrun & Hin & Hout & Hdom); [lia|intros i Hi; apply Hm; lia|]. rewrite (M_bind_Some _ _ _ _ _ Hrun).
    assert (Hi1 : ∀ i, 0 ≤ i < b_top B → mem1 !! slot b i = seen <$> js_mem s !! slot b i) by (intros i Hi; apply Hin; lia).
    assert (Ho1 : ∀ x, (∀ i, 0 ≤ i < b_top B → x ≠ slot b i) → mem1 !! x = js_mem s !! x) by (intros x Hx; apply Hout; intros i Hi; apply Hx; lia).
    destruct (b_top B <? block_size_in_oops) eqn:E.
    + apply Z.ltb_lt in E. exists mem1. split; [done|]. split; [|split; [|done]]; intros x Hx.
      * apply used_cons in Hx as [(B' & i & HB' & Hi & ->)|Hx]; [rewrite HB in HB'; injection HB' as <-; by apply Hi1|by apply used_empty in Hx; [|apply Hz]].
      * apply Ho1. intros i Hi ->. apply Hx, used_cons. left. by exists B, i.
    + rewrite (field_bind b b_next _ _ B) by done.
      assert (Hout' : ∀ x, used (js_blocks s) bs x → mem1 !! x = js_mem s !! x).
      { intros x Hx. apply Ho1. intros i Hi ->. apply (used_iff _ _ bs b B i Hg HB) in Hx as [? _]; [done|lia]. }
      destruct (IH fuel (b_next B) (upd s (js_blocks s) mem1)) as (mem2 & Hrun2 & Hin2 & Hout2 & Hdom2); [|done..|lia|].
      { by eapply geometry_mem. }
      exists mem2. split; [done|]. split; [|split; [|by intros x Hx; apply Hdom2, Hdom]]; intros x Hx.
      * destruct (proj1 (used_cons _ _ _ _) Hx) as [(B' & i & HB' & Hi & ->)|Hx'].
        -- rewrite HB in HB'. injection HB' as <-. rewrite Hout2; [by apply Hi1|]. intros Hu. cbn in Hu.
           apply (used_iff _ _ bs b B i Hg HB) in Hu as [? _]; [done|lia].
        -- rewrite Hin2 by done. cbn. by rewrite Hout'.
      * rewrite Hout2 by (intros Hu; apply Hx, used_cons; by right). apply Ho1. intros i Hi ->. apply Hx, used_cons. left. by exists B, i.
Qed.
Lemma packed_zero bl bs : tops bl bs (eq 0) → packed bl bs.
Proof.
  induction bs as [|b bs IH]; [done|]. intros Ht. assert (Hbs : tops bl bs (eq 0)) by (intros c Hc; apply Ht; by right). split; [|by apply IH].
  destruct (Ht b) as (B & HB & _); [left|]. by exists B.
Qed.
Lemma in_use_packed bl mem d h bs1 l bs2 fl abr ltop live : in_use bl mem d h bs1 l bs2 fl abr ltop live → packed bl (bs1 ++ l :: bs2).
Proof.
  intros (_ & Ht1 & (Bl & HBl & _) & Ht2 & _). induction bs1 as [|b bs1 IH]; cbn [app packed].
  - split; [by exists Bl|]. by apply packed_zero.
  - split; [|apply IH; intros c Hc; apply Ht1; by right]. destruct (Ht1 b) as (B & HB & Heq); [left|]. exists B. split; [done|]. rewrite <-Heq. lia.
Qed.
(** What a closure may do to a table: objects stay objects or are dropped, and
    none becomes the mark of deleted handles. *)
Definition closure_ok (d : Z) live : Prop :=
  reserved (f d) ∧ ∀ x v, live !! x = Some v → reserved v → f v ≠ f d ∧ (f v = 0 ∨ reserved (f v)).
Definition visited (T : Table) : Table := mkTable (t_link T) (seen <$> t_live T).

Lemma contents_visit bl mem mem' d bs fl live a :
  0 < heap_start → geometry bl mem → reserved d → closure_ok d live → threaded mem a fl →
  (∀ x, used bl bs x → mem' !! x = seen <$> mem !! x) → contents bl mem d bs fl live →
  threaded mem' a fl ∧ contents bl mem' (f d) bs fl (seen <$> live).
Proof.
  intros H0 Hg Hd [Hfd Hcl] Hth Hm (C1 & C2 & C3 & C4). split.
  - eapply threaded_frame; [|exact Hth]. intros x Hx. rewrite Hm by by apply C2. destruct (threaded_values mem a fl x Hth Hx) as (v & Hv & Hor). rewrite Hv. cbn. f_equal.
    apply seen_other. destruct Hor as [->|Hin]; [lia|]. by destruct (used_not_reserved bl mem bs v Hg (C2 v Hin)).
  - split_and!; [done..| |].
    + intros x w. rewrite lookup_fmap, fmap_Some. intros (v & Hv & ->). destruct (C3 x v Hv) as (D1 & D2 & D3 & D4 & D5). split_and!; [done..|by rewrite Hm, D3| |].
      all: destruct D5 as [->|Hr]; [rewrite seen_other by lia; [lia || by left]|]; rewrite seen_reserved by done; by destruct (Hcl x v Hv Hr).
    + intros x Hu Hfl. rewrite lookup_fmap, fmap_None. intros Hn. rewrite Hm, (C4 x Hu Hfl Hn) by done. cbn. by rewrite seen_reserved.
Qed.
Lemma world_but_ext h owner D D' tabs s : (∀ g, g ≠ h → is_Some (tabs !! g) → D' g = D g) → world_but (Some h) owner D tabs s → world_but (Some h) owner D' tabs s.
Proof.
  intros HD (W1 & W2 & W3 & W4 & W5 & W6). split_and!; try done. intros g T Hne HT. rewrite HD; [by apply W6|congruence|by eexists].
Qed.
Lemma visit_table_run fuel owner D tabs s h T :
  0 < heap_start → world owner D tabs s → tabs !! h = Some T → reserved (D h) → closure_ok (D h) (t_live T) → (size (js_blocks s) < fuel)%nat →
  ∃ mem', visit_chain heap_start heap_end fuel h f s = Some (tt, upd s (js_blocks s) mem') ∧
    world owner (λ g, if decide (g = h) then f (D h) else D g) (<[h := visited T]> tabs) (upd s (js_blocks s) mem').
Proof.
  intros H0 HW HT Hd Hcl Hf. pose proof HW as (Hg & _). destruct (world_table _ _ _ _ _ _ HW HT) as (Hlink & bs & Hc & Hcase).
  assert (Hlen := chain_length _ _ _ _ Hc). pose proof Hc as (Hh & Hl & Hnd & Hown & Hul).
  assert (Hbut : world_but (Some h) owner (λ g, if decide (g = h) then f (D h) else D g) tabs s).
  { eapply world_but_ext; [|by eapply world_but_intro]. intros g Hne _. by rewrite decide_False. }
  assert (Hend : ∀ mem' T', confined (λ b, owner !! b = Some (OTable h)) (js_blocks s) (js_mem s) (js_blocks s) mem' → table_ok owner (js_blocks s) mem' (f (D h)) h T' →
    world owner (λ g, if decide (g = h) then f (D h) else D g) (<[h := T']> tabs) (upd s (js_blocks s) mem')).
  { intros mem' T' Hcf HT'. apply world_but_elim; [by apply world_but_confined|]. by rewrite decide_True. }
  destruct Hcase as [(He & B & r1 & r2 & -> & HB & Ht & Ht1 & Ht2)|(Ht & bs1 & l & bs2 & fl & abr & ltop & -> & Hu)].
  - exists (js_mem s). split.
    + destruct fuel as [|fuel]; [lia|]. cbn [visit_chain]. destruct (world_head _ _ _ _ _ _ HW HT) as (Hh0 & _). rewrite (proj2 (Z.eqb_neq h 0) Hh0). cbn [negb].
      rewrite (field_bind h b_top _ _ B) by done. rewrite Ht. by rewrite upd_self.
    + apply Hend; [by apply confined_refl|]. split; [done|]. eexists. split; [exact Hc|]. left. split; [cbn; by rewrite He, fmap_empty|]. by exists B, r1, r2.
  - destruct (visit_chain_run (bs1 ++ l :: bs2) fuel h s) as (mem' & Hrun & Hin & Hout & Hdom); [done..|by eapply in_use_packed|lia|]. exists mem'. split; [done|].
    assert (Hfr : ∀ b i, is_Some (js_blocks s !! b) → owner !! b ≠ Some (OTable h) → 0 ≤ i < block_size_in_oops → mem' !! slot b i = js_mem s !! slot b i).
    { intros b i [B HB] Hb Hi. apply Hout. rewrite (used_iff _ _ _ b B i Hg HB Hi). rewrite <-Hown. naive_solver. }
    destruct Hu as ((B & HB & U1 & U2 & U3) & U4 & U5 & U6 & U7 & U8).
    destruct (contents_visit _ _ mem' _ _ _ _ _ H0 Hg Hd Hcl U3 Hin U8) as [Hth Hct]. apply Hend.
    + split_and!; try done. intros b C HC. by destruct (proj1 Hg b C HC) as (_ & _ & ? & _).
    + split; [done|]. eexists. split; [exact Hc|]. right. split; [done|]. exists bs1, l, bs2, fl, abr, ltop. split; [done|].
      split_and!; try done. by exists B.
Qed.
(** The tables of a chain of frames are visited. *)
Definition visit_tables tabs (hs : list Z) : gmap Z Table := foldr (λ h m, alter visited h m) tabs hs.
Lemma visit_tables_lookup tabs hs g : NoDup hs → visit_tables tabs hs !! g = if decide (g ∈ hs) then visited <$> tabs !! g else tabs !! g.
Proof.
  induction hs as [|h hs IH]; [done|]. intros [Hh Hnd]%NoDup_cons. cbn. fold (visit_tables tabs hs). destruct (decide (g = h)) as [->|Hne].
  - rewrite lookup_alter_eq, IH, decide_False by done. by rewrite decide_True by left.
  - rewrite lookup_alter_ne, IH by done. destruct (decide (g ∈ hs)); [by rewrite decide_True by by right|by rewrite decide_False by set_solver].
Qed.
Lemma visit_tables_app tabs hs1 hs2 : visit_tables tabs (hs1 ++ hs2) = visit_tables (visit_tables tabs hs2) hs1.
Proof. unfold visit_tables. by rewrite foldr_app. Qed.
Lemma visit_tables_comm tabs h hs : h ∉ hs → visit_tables (alter visited h tabs) hs = alter visited h (visit_tables tabs hs).
Proof.
  induction hs as [|g hs IH]; [done|]. intros [Hne Hh]%not_elem_of_cons. cbn. fold (visit_tables (alter visited h tabs) hs) (visit_tables tabs hs).
  rewrite IH by done. by rewrite alter_alter_ne.
Qed.
Definition marks (D : Z → Z) (d' : Z) (hs : list Z) (g : Z) : Z := if decide (g ∈ hs) then d' else D g.
Lemma world_ext owner D D' tabs s : (∀ g, is_Some (tabs !! g) → D' g = D g) → world owner D tabs s → world owner D' tabs s.
Proof.
  intros HD (W1 & W2 & W3 & W4 & W5 & W6). split_and!; try done. intros g T Hne HT. rewrite HD; [by apply W6|by eexists].
Qed.
Lemma frames_visit tabs a hs g : frames tabs a hs → frames (alter visited g tabs) a hs.
Proof.
  apply frames_frame. intros h _. destruct (decide (h = g)) as [->|Hne]; [|by rewrite lookup_alter_ne]. rewrite lookup_alter_eq. by destruct (tabs !! g).
Qed.
Lemma block_oops_do_run hs : ∀ fuel owner D d tabs s a,
  0 < heap_start → world owner D tabs s → frames tabs a hs → NoDup hs → reserved d →
  (∀ g T, g ∈ hs → tabs !! g = Some T → D g = d ∧ closure_ok d (t_live T)) → (size (js_blocks s) + length hs < fuel)%nat →
  ∃ mem', block_oops_do heap_start heap_end fuel a f s = Some (tt, upd s (js_blocks s) mem') ∧
    world owner (marks D (f d) hs) (visit_tables tabs hs) (upd s (js_blocks s) mem').
Proof.
  induction hs as [|h hs IH]; intros [|fuel] owner D d tabs s a H0 HW Hfr Hnd Hd Hcl Hf; try lia.
  - cbn in Hfr. subst a. exists (js_mem s). rewrite upd_self. split; [done|]. eapply world_ext; [|exact HW]. intros g _. unfold marks. by rewrite decide_False by set_solver.
  - destruct Hfr as (-> & T & HT & Hfr). apply NoDup_cons in Hnd as [Hh Hnd]. destruct (Hcl h T) as [HD HclT]; [left|done|].
    destruct (world_head _ _ _ _ _ _ HW HT) as (Hh0 & _ & B & HB & Hlink). rewrite <-HD in HclT, Hd.
    destruct (visit_table_run (S fuel) _ _ _ _ _ _ H0 HW HT Hd HclT) as (mem1 & Hrun1 & HW1); [lia|].
    assert (Halt : <[h := visited T]> tabs = alter visited h tabs) by (apply map_eq; intros g; destruct (decide (g = h)) as [->|]; [by rewrite lookup_insert_eq, lookup_alter_eq, HT|by rewrite lookup_insert_ne, lookup_alter_ne]).
    rewrite Halt in HW1. rewrite HD in HW1, Hd.
    destruct (IH fuel owner (λ g, if decide (g = h) then f d else D g) d (alter visited h tabs) (upd s (js_blocks s) mem1) (t_link T)) as (mem2 & Hrun2 & HW2); [done..|by apply frames_visit|done|done| |cbn in Hf; cbn; lia|].
    + intros g T' Hg. assert (g ≠ h) by (by intros ->). rewrite decide_False by done. rewrite lookup_alter_ne by done. apply Hcl. by right.
    + exists mem2. split.
      * cbn [block_oops_do]. rewrite (proj2 (Z.eqb_neq h 0) Hh0). cbn [negb]. rewrite (M_bind_Some _ _ _ _ _ Hrun1).
        rewrite (field_bind h b_pop_frame_link _ _ B) by done. by rewrite Hlink.
      * rewrite visit_tables_comm in HW2 by done. eapply world_ext; [|exact HW2]. intros g _. unfold marks. rewrite decide_elem_cons. by destruct (decide (g = h)), (decide (g ∈ hs)).
Qed.
Lemma frames_length owner D tabs s a hs : world owner D tabs s → frames tabs a hs → NoDup hs → (length hs ≤ size (js_blocks s))%nat.
Proof.
  intros HW Hfr Hnd. rewrite <-(size_dom (D := gset Z)), <-(size_list_to_set (C := gset Z) hs) by done. apply subseteq_size.
  intros h Hh%elem_of_list_to_set. apply elem_of_dom. clear Hnd. revert a Hfr Hh. induction hs as [|g hs IH]; intros a Hfr Hh; [by apply elem_of_nil in Hh|]. destruct Hfr as (_ & T & HT & Hfr).
  apply elem_of_cons in Hh as [->|Hh]; [|by eapply IH]. destruct (world_head _ _ _ _ _ _ HW HT) as (_ & _ & B & HB & _). by eexists.
Qed.
Lemma frames_visits tabs a hs gs : frames tabs a hs → frames (visit_tables tabs gs) a hs.
Proof. intros Hfr. induction gs as [|g gs IH]; [done|]. by apply frames_visit. Qed.
Lemma roots_oops_do_run pss : ∀ roots fuel owner D d tabs s,
  0 < heap_start → world owner D tabs s → Forall2 (frames tabs) roots pss → NoDup (concat pss) → reserved d →
  (∀ g T, g ∈ concat pss → tabs !! g = Some T → D g = d ∧ closure_ok d (t_live T)) → (2 * size (js_blocks s) < fuel)%nat →
  ∃ mem', roots_oops_do heap_start heap_end fuel roots f s = Some (tt, upd s (js_blocks s) mem') ∧
    world owner (marks D (f d) (concat pss)) (visit_tables tabs (concat pss)) (upd s (js_blocks s) mem').
Proof.
  induction pss as [|ps pss IH]; intros roots fuel owner D d tabs s H0 HW Hfr Hnd Hd Hcl Hf.
  - apply Forall2_nil_inv_r in Hfr as ->. exists (js_mem s). rewrite upd_self. split; [done|]. eapply world_ext; [|exact HW]. intros g _. unfold marks. by rewrite decide_False by set_solver.
  - apply Forall2_cons_inv_r in Hfr as (r & roots' & Hr & Hfr & ->). cbn [concat] in *. apply NoDup_app in Hnd as (Hnd1 & Hdis & Hnd2).
    assert (Hlen := frames_length _ _ _ _ _ _ HW Hr Hnd1).
    destruct (block_oops_do_run ps fuel owner D d tabs s r) as (mem1 & Hrun1 & HW1); [done..|intros g T Hg; apply Hcl, elem_of_app; by left|lia|].
    destruct (IH roots' fuel owner (marks D (f d) ps) d (visit_tables tabs ps) (upd s (js_blocks s) mem1)) as (mem2 & Hrun2 & HW2); try done.
    + eapply Forall2_impl; [exact Hfr|]. intros a hs. apply frames_visits.
    + intros g T Hg. assert (Hn : g ∉ ps) by (intros Hp; by apply (Hdis g)). unfold marks. rewrite decide_False by done.
      rewrite visit_tables_lookup, decide_False by done. apply Hcl, elem_of_app. by right.
    + exists mem2. split; [cbn [roots_oops_do]; by rewrite (M_bind_Some _ _ _ _ _ Hrun1)|].
      assert (Heq : visit_tables (visit_tables tabs ps) (concat pss) = visit_tables tabs (ps ++ concat pss)).
      { apply map_eq. intros g. rewrite !visit_tables_lookup by (done || by apply NoDup_app). rewrite decide_elem_app.
        destruct (decide (g ∈ ps)) as [Hp|Hp], (decide (g ∈ concat pss)) as [Hq|Hq]; [by destruct (Hdis g)|done..]. }
      rewrite <-Heq. eapply world_ext; [|exact HW2]. intros g _. unfold marks. rewrite decide_elem_app.
      destruct (decide (g ∈ ps)) as [Hp|Hp], (decide (g ∈ concat pss)) as [Hq|Hq]; [by destruct (Hdis g)|done..].
Qed.
End visit.

(** What a collection does: [f] moves objects, and the objects that are not
    reached are dropped from the table [w] of weak handles. *)
Definition weakly (is_alive : Z → bool) (f : Z → Z) (value : Z) : Z := if is_alive value then f value else 0.
Definition collected (w : Z) (is_alive : Z → bool) (f : Z → Z) tabs : gmap Z Table :=
  map_imap (λ h T, Some (visited (if decide (h = w) then weakly is_alive f else f) T)) tabs.
Definition moves_ok (f : Z → Z) (d : Z) : Prop := ∀ v, reserved v → reserved (f v) ∧ (f v = f d → v = d).

Lemma jni_collect_run fuel roots is_alive f owner tabs s pss :
  0 < heap_start → world owner (λ _, js_deleted_handle s) tabs s → reserved (js_deleted_handle s) →
  Forall2 (frames tabs) (js_global_handles s :: roots) pss → NoDup (js_weak_global_handles s :: concat pss) →
  (∀ h, is_Some (tabs !! h) ↔ h ∈ js_weak_global_handles s :: concat pss) →
  moves_ok f (js_deleted_handle s) → is_alive (js_deleted_handle s) = true → (2 * size (js_blocks s) < fuel)%nat →
  ∃ mem', jni_collect heap_start heap_end fuel roots is_alive f s = Some (tt, with_deleted (f (js_deleted_handle s)) (upd s (js_blocks s) mem')) ∧
    world owner (λ _, f (js_deleted_handle s)) (collected (js_weak_global_handles s) is_alive f tabs) (with_deleted (f (js_deleted_handle s)) (upd s (js_blocks s) mem')).
Proof.
  set (d := js_deleted_handle s). set (w := js_weak_global_handles s). intros H0 HW Hd Hfr [Hw Hnd]%NoDup_cons Hall Hmv Hal Hf.
  assert (Hlive : ∀ g T, tabs !! g = Some T → ∀ x v, t_live T !! x = Some v → v ≠ d).
  { intros g T HT x v Hv. by destruct (world_live _ _ _ _ _ _ _ _ HW HT Hv) as (_ & _ & ? & _). }
  assert (Hcl : ∀ g T, g ∈ concat pss → tabs !! g = Some T → d = d ∧ closure_ok f d (t_live T)).
  { intros g T _ HT. split; [done|]. split; [apply (Hmv d Hd)|]. intros x v Hv Hr. destruct (Hmv v Hr) as [? Hi]. split; [|by right]. intros He. by apply (Hlive g T HT x v Hv), Hi. }
  set (s1 := with_deleted (f d) s).
  destruct (roots_oops_do_run f pss (js_global_handles s :: roots) fuel owner (λ _, d) d tabs s1 H0 HW Hfr Hnd Hd Hcl Hf) as (mem1 & Hrun1 & HW1).
  destruct (proj2 (Hall w)) as [T HT]; [left|].
  assert (HT1 : visit_tables f tabs (concat pss) !! w = Some T) by (rewrite visit_tables_lookup, decide_False; done).
  destruct (visit_table_run (weakly is_alive f) fuel _ _ _ _ _ _ H0 HW1 HT1) as (mem2 & Hrun2 & HW2).
  { unfold marks. by rewrite decide_False. }
  { unfold marks. rewrite decide_False by done. unfold closure_ok, weakly. rewrite Hal. split; [apply (Hmv d Hd)|]. intros x v Hv Hr. destruct (Hmv v Hr) as [? Hi], (Hmv d Hd) as [? _].
    destruct (is_alive v); [|split; [lia|by left]]. split; [|by right]. intros He. by apply (Hlive w T HT x v Hv), Hi. }
  { cbn. lia. }
  exists mem2. split.
  - unfold jni_collect, jni_oops_do. cbn [roots_oops_do] in Hrun1.
    destruct (block_oops_do heap_start heap_end fuel (js_global_handles s) f s1) as [[[] s2]|] eqn:E; [|by unfold mbind, M_bind in Hrun1; rewrite E in Hrun1].
    rewrite (M_bind_Some _ _ s tt s2) by (rewrite reads_step, modify_bind; exact E). rewrite (M_bind_Some _ _ _ _ _ E) in Hrun1. rewrite (M_bind_Some _ _ _ _ _ Hrun1). exact Hrun2.
  - assert (Heq : <[w := visited (weakly is_alive f) T]> (visit_tables f tabs (concat pss)) = collected w is_alive f tabs).
    { apply map_eq. intros g. unfold collected. rewrite map_lookup_imap. destruct (decide (g = w)) as [->|Hne].
      - rewrite lookup_insert_eq, HT. cbn. done.
      - rewrite lookup_insert_ne, visit_tables_lookup by done. destruct (tabs !! g) as [T'|] eqn:E; cbn; [|by destruct (decide (g ∈ concat pss))].
        rewrite decide_True; [done|]. assert (Hg : g ∈ w :: concat pss) by (apply Hall; by eexists). set_solver. }
    rewrite <-Heq. eapply world_ext; [|exact HW2]. intros g Hg. destruct (decide (g = w)) as [->|Hne].
    + unfold marks, weakly. destruct (decide (w ∈ concat pss)); [done|]. rewrite Hal. by destruct (decide (w = w)).
    + rewrite lookup_insert_ne, visit_tables_lookup in Hg by done. rewrite (decide_False (P := g = w)) by done. unfold marks. rewrite decide_True; [done|].
      assert (Hg' : g ∈ w :: concat pss) by (apply Hall; destruct (decide (g ∈ concat pss)); [by rewrite fmap_is_Some in Hg|done]). set_solver.
Qed.
End invariant.
