(* ===== verification/JNIRefinement.v ===== *)
(** * JNI handles refine tables of live handles

    The interface that native code, the runtime and the collector have to the
    handles of JNIHandles.v, given twice: by the operations on blocks, and by
    tables that say which handle is live with which object. Every program that
    uses the tables within their rules runs on the blocks without failing, and
    sees what the tables allow. *)

From stdpp Require Import base numbers list gmap.
From S2P Require Import Prelude JNIHandles.
Local Open Scope Z_scope.

(** ** Operations *)

Inductive Op :=
  | Attach (t : nat)
  | NewLocal (t : nat) (obj : Z)
  | NewGlobal (t : nat) (obj : Z)
  | NewWeak (t : nat) (obj : Z)
  | Delete (x : Z)
  | Resolve (x : Z)
  | RefType (t : nat) (x : Z)
  | PushFrame (t : nat) (capacity : Z)
  | PopFrame (t : nat) (result : Z)
  | NativeReturn (t : nat)
  | CallJava (t : nat)
  | ReturnJava (t : nat) (handles : Z)
  | Exit (t : nat)
  | Collect (roots : list Z) (is_alive : Z → bool) (f : Z → Z).

(** A program chooses its next operation by the results so far. *)
Inductive client := Done | Do (o : Op) (k : Z → client).
Fixpoint depth_le (n : nat) (c : client) : Prop :=
  match c, n with
  | Done, _ => True
  | Do _ _, O => False
  | Do _ k, S n' => ∀ r, depth_le n' (k r)
  end.

Section refinement.
Context (heap_start heap_end : Z) (malloc : gmap Z Block → Z) (max : Z) (is_frame_handle : nat → Z → bool).
Local Abbreviation reserved v := (heap_start ≤ v < heap_end).

Definition unit0 (m : M JNI unit) : M JNI Z := m;; mret 0.
(** An allocation makes at most three attempts. *)
Definition attempts : nat := 3.
Definition exec (fuel : nat) (o : Op) : M JNI Z :=
  match o with
  | Attach t => attach_thread malloc t
  | NewLocal t obj => make_local_handle malloc attempts fuel t obj
  | NewGlobal t obj => make_global malloc attempts fuel t obj
  | NewWeak t obj => make_weak_global malloc attempts fuel t obj
  | Delete x => unit0 (destroy_handle x)
  | Resolve x => resolve_handle x
  | RefType t x => get_object_ref_type is_frame_handle fuel t x
  | PushFrame t capacity => push_local_frame malloc max t capacity
  | PopFrame t result => pop_local_frame malloc attempts fuel t result
  | NativeReturn t => unit0 (native_return t)
  | CallJava t => call_wrapper malloc t
  | ReturnJava t handles => unit0 (call_wrapper_end fuel t handles)
  | Exit t => unit0 (thread_exit fuel t)
  | Collect roots is_alive f => unit0 (jni_collect heap_start heap_end fuel roots is_alive f)
  end.
Fixpoint run (fuel : nat) (c : client) : M JNI (list Z) :=
  match c with
  | Done => mret []
  | Do o k => r ← exec fuel o; rs ← run fuel (k r); mret (r :: rs)
  end.

(** ** Tables *)

Record Handles := mkHandles {
  hs_tabs : gmap Z Table; hs_active : gmap nat Z; hs_global : Z; hs_weak : Z; hs_deleted : Z }.
Definition with_tabs (tabs : gmap Z Table) (a : Handles) : Handles := mkHandles tabs (hs_active a) (hs_global a) (hs_weak a) (hs_deleted a).
Definition activate (t : nat) (h : Z) (a : Handles) : Handles := mkHandles (hs_tabs a) (<[t := h]> (hs_active a)) (hs_global a) (hs_weak a) (hs_deleted a).
Definition active (a : Handles) (t : nat) : Z := default 0 (hs_active a !! t).

(** [x] is live in the table [T] of [h], for [v]. *)
Definition live_in (a : Handles) (h : Z) (T : Table) (x v : Z) : Prop := hs_tabs a !! h = Some T ∧ t_live T !! x = Some v.
(** A handle that is live in no table becomes live in that of [h]. *)
Definition allocates (a : Handles) (h obj x : Z) (a' : Handles) : Prop :=
  if decide (obj = 0) then x = 0 ∧ a' = a
  else ∃ T, hs_tabs a !! h = Some T ∧ x ≠ 0 ∧ (∀ g T' v, ¬ live_in a g T' x v) ∧
    a' = with_tabs (<[h := mkTable (t_link T) (<[x := obj]> (t_live T))]> (hs_tabs a)) a.
Definition resolves (a : Handles) (x v : Z) : Prop := if decide (x = 0) then v = 0 else ∃ h T, live_in a h T x v.
(** A new table for thread [t]. *)
Definition opens (a : Handles) (t : nat) (link : Z) (a' : Handles) : Prop :=
  ∃ h, hs_tabs a !! h = None ∧ h ≠ 0 ∧ a' = activate t h (with_tabs (<[h := mkTable link ∅]> (hs_tabs a)) a).

Definition may (o : Op) (a : Handles) (r : Z) (a' : Handles) : Prop :=
  match o with
  | Attach t => opens a t 0 a' ∧ r = active a' t
  | NewLocal t obj => allocates a (active a t) obj r a'
  | NewGlobal t obj => allocates a (hs_global a) obj r a'
  | NewWeak t obj => allocates a (hs_weak a) obj r a'
  | Delete x =>
      r = 0 ∧ if decide (x = 0) then a' = a
              else ∃ h T v, live_in a h T x v ∧ a' = with_tabs (<[h := mkTable (t_link T) (delete x (t_live T))]> (hs_tabs a)) a
  | Resolve x => a' = a ∧ resolves a x r
  | RefType t x => a' = a ∧ ∃ h T v hs, live_in a h T x v ∧ frames (hs_tabs a) (active a t) hs ∧
      r = if decide (h ∈ hs) then JNILocalRefType else if decide (h = hs_global a) then JNIGlobalRefType
          else if decide (h = hs_weak a) then JNIWeakGlobalRefType else JNIInvalidRefType
  | PushFrame t capacity =>
      if (capacity <? 0) || (0 <? max) && (max <? capacity) then r = JNI_ERR ∧ a' = a else r = JNI_OK ∧ opens a t (active a t) a'
  | PopFrame t result =>
      ∃ T, hs_tabs a !! active a t = Some T ∧
        if decide (t_link T = 0) then r = result ∧ a' = a
        else ∃ v, resolves a result v ∧ allocates (activate t (t_link T) (with_tabs (delete (active a t) (hs_tabs a)) a)) (t_link T) v r a'
  | NativeReturn t =>
      r = 0 ∧ ∃ T, hs_tabs a !! active a t = Some T ∧ a' = with_tabs (<[active a t := mkTable (t_link T) ∅]> (hs_tabs a)) a
  | CallJava t => r = active a t ∧ opens a t 0 a'
  | ReturnJava t handles =>
      r = 0 ∧ ∃ hs, frames (hs_tabs a) (active a t) hs ∧ a' = activate t handles (with_tabs (drop_tables (hs_tabs a) hs) a)
  | Exit t =>
      r = 0 ∧ if decide (active a t = 0) then a' = a
              else ∃ hs, frames (hs_tabs a) (active a t) hs ∧ a' = activate t 0 (with_tabs (drop_tables (hs_tabs a) hs) a)
  | Collect roots is_alive f =>
      r = 0 ∧ a' = mkHandles (collected heap_start heap_end (hs_weak a) is_alive f (hs_tabs a)) (hs_active a) (hs_global a) (hs_weak a) (f (hs_deleted a))
  end.

(** The rules: objects are objects of the heap other than the mark of deleted
    handles, handles that are used are live, a collection starts from all
    tables but the weak one, once, keeps the mark, and does not confuse it. *)
Definition object (a : Handles) (obj : Z) : Prop := obj = 0 ∨ reserved obj ∧ obj ≠ hs_deleted a.
Definition usable (a : Handles) (x : Z) : Prop := x = 0 ∨ ∃ h T v, live_in a h T x v.
Definition allowed (o : Op) (a : Handles) : Prop :=
  match o with
  | Attach _ | CallJava _ | PushFrame _ _ => True
  | NewLocal t obj => object a obj ∧ is_Some (hs_tabs a !! active a t)
  | NewGlobal _ obj => object a obj ∧ is_Some (hs_tabs a !! hs_global a)
  | NewWeak _ obj => object a obj ∧ is_Some (hs_tabs a !! hs_weak a)
  | Delete x | Resolve x => usable a x
  | RefType t x => (∃ h T v, live_in a h T x v) ∧ is_frame_handle t x = false ∧ (∃ hs, frames (hs_tabs a) (active a t) hs ∧ NoDup hs) ∧
      is_Some (hs_tabs a !! hs_global a) ∧ is_Some (hs_tabs a !! hs_weak a)
  | PopFrame t result =>
      usable a result ∧ ∃ T, hs_tabs a !! active a t = Some T ∧ (t_link T = 0 ∨ t_link T ≠ active a t ∧ is_Some (hs_tabs a !! t_link T))
  | NativeReturn t => is_Some (hs_tabs a !! active a t)
  | ReturnJava t _ => ∃ h hs, frames (hs_tabs a) (active a t) (h :: hs) ∧ NoDup (h :: hs)
  | Exit t => ∃ hs, frames (hs_tabs a) (active a t) hs ∧ NoDup hs
  | Collect roots is_alive f =>
      (∃ pss, Forall2 (frames (hs_tabs a)) (hs_global a :: roots) pss ∧ NoDup (hs_weak a :: concat pss) ∧
        ∀ h, is_Some (hs_tabs a !! h) ↔ h ∈ hs_weak a :: concat pss) ∧
      moves_ok heap_start heap_end f (hs_deleted a) ∧ is_alive (hs_deleted a) = true
  end.

Fixpoint safe (c : client) (a : Handles) : Prop :=
  match c with
  | Done => True
  | Do o k => allowed o a ∧ ∀ r a', may o a r a' → safe (k r) a'
  end.
Fixpoint sees (c : client) (a : Handles) (rs : list Z) (a' : Handles) : Prop :=
  match c, rs with
  | Done, [] => a' = a
  | Do o k, r :: rs' => ∃ a1, may o a r a1 ∧ sees (k r) a1 rs' a'
  | _, _ => False
  end.

(** ** Refinement *)

Definition abs (a : Handles) (s : JNI) : Prop :=
  (∃ owner, world heap_start heap_end owner (λ _, hs_deleted a) (hs_tabs a) s) ∧ reserved (hs_deleted a) ∧
  js_deleted_handle s = hs_deleted a ∧ js_active_handles s = hs_active a ∧ js_global_handles s = hs_global a ∧ js_weak_global_handles s = hs_weak a.
Definition bounded (fuel : nat) (s : JNI) : Prop := (2 * size (js_blocks s) < fuel)%nat ∧ Z.of_nat (size (js_blocks s)) < 2 ^ 25.

Lemma abs_same n a s s' owner tabs :
  abs a s → same_roots n s s' → world heap_start heap_end owner (λ _, hs_deleted a) tabs s' → abs (with_tabs tabs a) s'.
Proof. intros (_ & A1 & A2 & A3 & A4 & A5) (_ & R1 & R2 & R3 & R4) HW. split_and!; [by exists owner|cbn; lia|cbn; lia|cbn; congruence..]. Qed.

Section steps.
Context (fuel : nat) (a : Handles) (s : JNI).
Hypotheses (Hmal : malloc_ok heap_start heap_end malloc) (H0 : 0 < heap_start) (Ha : abs a s) (Hb : bounded fuel s).
(** What is shown of an operation. *)
Definition simulates (m : M JNI Z) (R : Z → Handles → Prop) : Prop :=
  ∃ r s' a', m s = Some (r, s') ∧ R r a' ∧ abs a' s' ∧ (size (js_blocks s') ≤ 1 + size (js_blocks s))%nat.

Lemma allocate_simulates t h obj : object a obj → obj ≠ 0 → is_Some (hs_tabs a !! h) →
  simulates (allocate_handle malloc attempts fuel h t obj) (allocates a h obj).
Proof.
  intros [?|[Hr Hd]] Ho [T HT]; [done|]. pose proof Ha as ((owner & HW) & A1 & A2 & _). destruct Hb as [Hf Hs].
  destruct (allocate_handle_run heap_start heap_end malloc 0 fuel t obj owner (λ _, hs_deleted a) (hs_tabs a) s h T) as (x & s' & Hrun & Hx & Hroots & owner' & HW'); [done..|lia|done|done|].
  exists x, s', (with_tabs (<[h := mkTable (t_link T) (<[x := obj]> (t_live T))]> (hs_tabs a)) a). split; [done|]. split; [|split; [by eapply abs_same|apply Hroots]].
  unfold allocates. rewrite decide_False by done. exists T. split; [done|].
  assert (HTx : <[h := mkTable (t_link T) (<[x := obj]> (t_live T))]> (hs_tabs a) !! h = Some (mkTable (t_link T) (<[x := obj]> (t_live T)))) by by rewrite lookup_insert_eq.
  assert (Hlx : t_live (mkTable (t_link T) (<[x := obj]> (t_live T))) !! x = Some obj) by (cbn; by rewrite lookup_insert_eq).
  split; [by destruct (world_live _ _ _ _ _ _ _ _ _ _ HW' HTx Hlx) as (_ & ? & _)|]. split; [|done]. intros g T' v [HT' Hv]. destruct (decide (g = h)) as [->|Hne]; [congruence|].
  apply Hne. eapply (world_disjoint _ _ _ _ _ _ g T' v h); [exact HW'|by rewrite lookup_insert_ne|exact HTx|done|exact Hlx].
Qed.
Lemma make_simulates (m : M JNI Z) t h obj : object a obj → is_Some (hs_tabs a !! h) →
  (obj = 0 → m = mret 0) → (obj ≠ 0 → m s = allocate_handle malloc attempts fuel h t obj s) → simulates m (allocates a h obj).
Proof.
  intros Hobj HT Hz Hnz. destruct (decide (obj = 0)) as [He|Hne].
  - rewrite (Hz He). exists 0, s, a. split; [done|]. split; [unfold allocates; by rewrite decide_True|]. split; [done|lia].
  - destruct (allocate_simulates t h obj Hobj Hne HT) as (r & s' & a' & Hrun & ?). exists r, s', a'. rewrite Hnz by done. done.
Qed.
Lemma abs_active t : default 0 (js_active_handles s !! t) = active a t.
Proof using Ha. pose proof Ha as (_ & _ & _ & -> & _). done. Qed.
Lemma resolve_run x : usable a x → ∃ v, resolve_handle x s = Some (v, s) ∧ resolves a x v.
Proof using Ha.
  unfold resolve_handle, resolves. intros [->|(h & T & v & HT & Hv)]; [by exists 0|]. pose proof Ha as ((owner & HW) & _).
  destruct (world_live _ _ _ _ _ _ _ _ _ _ HW HT Hv) as (Hm & Hx & _). exists v. rewrite (proj2 (Z.eqb_neq x 0) Hx), decide_False by done.
  unfold load. rewrite Hm. split; [done|]. by exists h, T.
Qed.
Lemma ref_type_run t x : allowed (RefType t x) a → ∃ r, get_object_ref_type is_frame_handle fuel t x s = Some (r, s) ∧ may (RefType t x) a r a.
Proof using Ha Hb.
  intros ((h & T & v & HT & Hv) & Hfh & (hs & Hfr & Hnd) & [TG HG] & [TW HWk]). pose proof Ha as ((owner & HW) & A1 & A2 & A3 & A4 & A5). destruct Hb as [Hf _].
  assert (Hlen := frames_length _ _ _ _ _ _ _ _ HW Hfr Hnd). unfold get_object_ref_type, active_handles. rewrite reads_step, abs_active.
  rewrite (M_bind_Some _ _ _ _ _ (is_local_handle_run _ _ hs fuel _ _ _ _ _ _ _ _ _ HW HT Hv Hfr ltac:(lia))). rewrite Hfh, orb_false_r.
  eexists. split; [|split; [done|]; exists h, T, v, hs; split; [done|]; split; [done|reflexivity]].
  case_bool_decide as Hin; [by rewrite decide_True|]. rewrite decide_False by done.
  rewrite reads_step, A4, (M_bind_Some _ _ _ _ _ (world_contains _ _ fuel _ _ _ _ _ _ _ _ _ _ HW HT Hv HG ltac:(lia))). case_bool_decide as Hg; [by rewrite decide_True|].
  rewrite decide_False by done. rewrite reads_step, A5, (M_bind_Some _ _ _ _ _ (world_contains _ _ fuel _ _ _ _ _ _ _ _ _ _ HW HT Hv HWk ltac:(lia))).
  case_bool_decide as Hw; [by rewrite decide_True|by rewrite decide_False].
Qed.
(** A new table becomes the active one of [t]. *)
Lemma open_simulates thread t : ∃ h s', allocate_block malloc thread s = Some (h, s') ∧ js_active_handles s' = js_active_handles s ∧
  hs_tabs a !! h = None ∧ h ≠ 0 ∧ (∃ B, js_blocks s' !! h = Some B) ∧
  abs (activate t h (with_tabs (<[h := mkTable 0 ∅]> (hs_tabs a)) a)) (with_active t h s') ∧ (size (js_blocks s') ≤ 1 + size (js_blocks s))%nat.
Proof using Hmal Ha.
  pose proof Ha as ((owner & HW) & A1 & A2 & A3 & A4 & A5).
  destruct (new_table_run heap_start heap_end malloc owner _ _ s thread Hmal HW) as (h & s' & Hrun & Hn & Hh0 & Hroots & HW'). exists h, s'. split; [done|].
  pose proof Hroots as (R0 & R1 & R2 & R3 & R4). split; [done|]. split; [done|]. split; [done|]. split.
  - destruct (world_head _ _ _ _ _ _ h (mkTable 0 ∅) HW') as (_ & _ & B & HB & _); [by rewrite lookup_insert_eq|]. by exists B.
  - split; [|done]. split_and!; [by eexists|cbn; lia|cbn; lia|cbn; congruence..].
Qed.
Lemma attach_simulates t : simulates (attach_thread malloc t) (may (Attach t) a).
Proof using Hmal Ha.
  destruct (open_simulates (None) t) as (h & s1 & Hrun & Hact & Hn & Hh & _ & Habs & Hsz). eexists h, _, _. split; [|split; [|split; [exact Habs|exact Hsz]]].
  - unfold attach_thread. rewrite (M_bind_Some _ _ _ _ _ Hrun). done.
  - split; [by exists h|]. unfold active. cbn. by rewrite lookup_insert_eq.
Qed.
Lemma call_simulates t : simulates (call_wrapper malloc t) (may (CallJava t) a).
Proof using Hmal Ha.
  destruct (open_simulates (Some t) t) as (h & s1 & Hrun & Hact & Hn & Hh & _ & Habs & Hsz). eexists _, _, _. split; [|split; [|split; [exact Habs|exact Hsz]]].
  - unfold call_wrapper. rewrite (M_bind_Some _ _ _ _ _ Hrun). unfold active_handles. rewrite reads_step. done.
  - split; [rewrite Hact; apply abs_active|by exists h].
Qed.
Lemma push_simulates t capacity : simulates (push_local_frame malloc max t capacity) (may (PushFrame t capacity) a).
Proof using Hmal Ha.
  unfold push_local_frame, simulates. cbn [may]. destruct (_ || _); [exists JNI_ERR, s, a; split; [done|]; split; [done|]; split; [done|lia]|].
  destruct (open_simulates (Some t) t) as (h & s1 & Hrun & Hact & Hn & Hh & (B & HB) & Habs & Hsz).
  pose proof Habs as ((owner & HW) & _). assert (HT : hs_tabs (activate t h (with_tabs (<[h := mkTable 0 ∅]> (hs_tabs a)) a)) !! h = Some (mkTable 0 ∅)) by (cbn; by rewrite lookup_insert_eq).
  destruct (set_link_run _ _ _ _ _ _ _ _ (active a t) HW HT) as (s2 & Hset & Hroots & HW2). rewrite (update_run h _ _ B) in Hset by done. injection Hset as <-.
  eexists JNI_OK, _, _. split; [|split; [|split; [exact (abs_same _ _ _ _ _ _ Habs Hroots HW2)|]]].
  - unfold active_handles. rewrite reads_step, abs_active, (M_bind_Some _ _ _ _ _ Hrun), (update_bind h _ _ _ B), modify_bind by done. done.
  - split; [done|]. exists h. split; [done|]. split; [done|]. unfold activate, with_tabs. cbn. by rewrite insert_insert_eq.
  - destruct Hroots as [? _]. cbn in *. lia.
Qed.
Lemma delete_simulates x : usable a x → simulates (unit0 (destroy_handle x)) (may (Delete x) a).
Proof using Ha.
  intros [->|(h & T & v & HT & Hv)]; unfold simulates; cbn [may].
  - exists 0, s, a. split; [done|]. split; [done|]. split; [done|lia].
  - pose proof Ha as ((owner & HW) & A1 & A2 & _). destruct (destroy_run _ _ _ _ _ _ _ _ _ _ HW HT (eq_sym A2) Hv) as (s' & Hrun & Hroots & HW').
    eexists 0, s', _. split; [unfold unit0; by rewrite (M_bind_Some _ _ _ _ _ Hrun)|]. split; [|split; [exact (abs_same _ _ _ _ _ _ Ha Hroots HW')|destruct Hroots; lia]].
    split; [done|]. destruct (world_live _ _ _ _ _ _ _ _ _ _ HW HT Hv) as (_ & Hx & _). rewrite decide_False by done. by exists h, T, v.
Qed.
Lemma native_return_simulates t : is_Some (hs_tabs a !! active a t) → simulates (unit0 (native_return t)) (may (NativeReturn t) a).
Proof using Ha.
  intros [T HT]. pose proof Ha as ((owner & HW) & _). destruct (clear_run _ _ _ _ _ _ _ _ HW HT) as (s' & Hrun & Hroots & HW').
  eexists 0, s', _. split; [|split; [|split; [exact (abs_same _ _ _ _ _ _ Ha Hroots HW')|destruct Hroots; lia]]].
  - unfold unit0, native_return, active_handles. rewrite (M_bind_Some _ _ s tt s'); [done|]. by rewrite reads_step, abs_active.
  - split; [done|]. by exists T.
Qed.
(** Frames are released. *)
Lemma release_simulates t thread h hs handles : frames (hs_tabs a) h (h :: hs) → NoDup (h :: hs) →
  ∃ s', release_block fuel h thread (with_active t handles s) = Some (tt, s') ∧
    abs (activate t handles (with_tabs (drop_tables (hs_tabs a) (h :: hs)) a)) s' ∧ (size (js_blocks s') ≤ size (js_blocks s))%nat.
Proof using Ha Hb.
  intros Hfr Hnd. pose proof Ha as ((owner & HW) & A1 & A2 & A3 & A4 & A5). destruct Hb as [Hf _].
  assert (Hlen := frames_length _ _ _ _ _ _ _ _ HW Hfr Hnd).
  destruct (release_block_run heap_start heap_end thread hs fuel owner (λ _, hs_deleted a) (hs_tabs a) (with_active t handles s) h) as (s' & owner' & Hrun & Hroots & HW'); [exact HW|done..|cbn in *; lia|].
  exists s'. split; [done|]. destruct Hroots as (R0 & R1 & R2 & R3 & R4). split; [|done]. cbn in *. split_and!; [by eexists|cbn; lia|cbn; lia|cbn; congruence..].
Qed.
Lemma return_simulates t handles : (∃ h hs, frames (hs_tabs a) (active a t) (h :: hs) ∧ NoDup (h :: hs)) →
  simulates (unit0 (call_wrapper_end fuel t handles)) (may (ReturnJava t handles) a).
Proof using Ha Hb.
  intros (h & hs & Hfr & Hnd). assert (Hh : active a t = h) by apply Hfr. rewrite Hh in Hfr.
  destruct (release_simulates t (Some t) h hs handles Hfr Hnd) as (s' & Hrun & Habs & Hsz). eexists 0, s', _. split; [|split; [|split; [exact Habs|lia]]].
  - unfold unit0, call_wrapper_end, active_handles. rewrite (M_bind_Some _ _ s tt s'); [done|]. by rewrite reads_step, abs_active, modify_bind, Hh.
  - split; [done|]. exists (h :: hs). by rewrite Hh.
Qed.
Lemma exit_list t a1 s1 : abs a1 s1 → (size (js_blocks s1) ≤ size (js_blocks s))%nat →
  ∃ s', (free ← free_handle_block t; if negb (free =? 0) then modify (with_thread_free t 0);; release_block fuel free None else mret tt) s1 = Some (tt, s') ∧
    abs a1 s' ∧ (size (js_blocks s') ≤ size (js_blocks s))%nat.
Proof using Hb.
  intros Ha1 Hsz. pose proof Ha1 as ((owner & HW) & A1 & A2 & A3 & A4 & A5). destruct Hb as [Hf _]. unfold free_handle_block. rewrite reads_step.
  destruct (default 0 (js_free_handle_block s1 !! t) =? 0) eqn:E; cbn [negb]; [by exists s1|]. apply Z.eqb_neq in E. rewrite modify_bind.
  destruct (release_list_run heap_start heap_end fuel owner _ _ s1 t HW) as (s' & owner' & Hrun & (R0 & R1 & R2 & R3 & R4) & HW'); [lia|done|]. exists s'. split; [done|].
  split; [|lia]. split_and!; [by eexists|lia|lia|congruence..].
Qed.
Lemma exit_simulates t : (∃ hs, frames (hs_tabs a) (active a t) hs ∧ NoDup hs) → simulates (unit0 (thread_exit fuel t)) (may (Exit t) a).
Proof using Ha Hb.
  intros (hs & Hfr & Hnd). unfold simulates, unit0, thread_exit, active_handles. cbn [may]. destruct (decide (active a t = 0)) as [Hz|Hnz].
  - destruct (exit_list t a s Ha ltac:(lia)) as (s' & Hrun & Habs & Hsz). exists 0, s', a. split; [|split; [done|split; [done|lia]]].
    rewrite (M_bind_Some _ _ s tt s'); [done|]. by rewrite reads_step, abs_active, Hz.
  - destruct hs as [|h hs]; [done|]. assert (Hh : active a t = h) by apply Hfr. rewrite Hh in *.
    destruct (release_simulates t None h hs 0 Hfr Hnd) as (s1 & Hrun1 & Habs1 & Hsz1). destruct (exit_list t _ s1 Habs1 Hsz1) as (s' & Hrun & Habs & Hsz).
    eexists 0, s', _. split; [|split; [|split; [exact Habs|lia]]].
    + rewrite (M_bind_Some _ _ s tt s'); [done|]. rewrite reads_step, abs_active, Hh, (proj2 (Z.eqb_neq _ _) Hnz). cbn [negb].
      by rewrite (M_bind_Some _ _ s tt s1) by (rewrite modify_bind; exact Hrun1).
    + split; [done|]. by exists (h :: hs).
Qed.
Lemma collect_simulates roots is_alive f : allowed (Collect roots is_alive f) a →
  simulates (unit0 (jni_collect heap_start heap_end fuel roots is_alive f)) (may (Collect roots is_alive f) a).
Proof using Ha Hb H0.
  intros ((pss & Hfr & Hnd & Hall) & Hmv & Hal). pose proof Ha as ((owner & HW) & A1 & A2 & A3 & A4 & A5). rewrite <-A2 in *. rewrite <-A4 in Hfr. rewrite <-A5 in Hnd, Hall.
  destruct (jni_collect_run heap_start heap_end fuel roots is_alive f owner (hs_tabs a) s pss) as (mem' & Hrun & HW'); [done..|apply Hb|].
  eexists 0, _, _. split; [unfold unit0; by rewrite (M_bind_Some _ _ _ _ _ Hrun)|]. split; [by split|]. split; [|cbn; lia].
  rewrite A5 in HW'. split_and!; [exists owner; cbn; by rewrite A2 in HW'|..]; cbn; try done; try congruence; rewrite <-A2; apply (Hmv _ A1).
Qed.
End steps.

Lemma resolves_object a s x v : abs a s → resolves a x v → object a v.
Proof.
  unfold resolves, object. intros ((owner & HW) & _). destruct (decide (x = 0)); [by left|]. intros (h & T & HT & Hv).
  destruct (world_live _ _ _ _ _ _ _ _ _ _ HW HT Hv) as (_ & _ & Hd & [?|?]); [by left|by right].
Qed.
Lemma make_local_simulates fuel a s t obj : malloc_ok heap_start heap_end malloc → 0 < heap_start → abs a s → bounded fuel s →
  object a obj → is_Some (hs_tabs a !! active a t) → simulates s (make_local_handle malloc attempts fuel t obj) (allocates a (active a t) obj).
Proof.
  intros Hmal H0 Ha Hb Hobj HT. apply (make_simulates fuel a s Hmal H0 Ha Hb _ t); [done..| |]; unfold make_local_handle.
  - intros ->. done.
  - intros Hne%Z.eqb_neq. rewrite Hne. unfold active_handles. by rewrite reads_step, (abs_active a s Ha).
Qed.
Lemma pop_simulates fuel a s t result : malloc_ok heap_start heap_end malloc → 0 < heap_start → abs a s → bounded fuel s →
  allowed (PopFrame t result) a → simulates s (pop_local_frame malloc attempts fuel t result) (may (PopFrame t result) a).
Proof.
  intros Hmal H0 Ha Hb (Hus & T & HT & Hlink). pose proof Ha as ((owner & HW) & _). destruct (resolve_run a s Ha result Hus) as (v & Hres & Hv).
  destruct (world_head _ _ _ _ _ _ _ _ HW HT) as (_ & _ & B & HB & HBl). unfold simulates. cbn [may].
  assert (Hpre : pop_local_frame malloc attempts fuel t result s =
    (if negb (t_link T =? 0) then modify (with_active t (t_link T));; update (active a t) (set_link 0);; release_block fuel (active a t) (Some t);; make_local_handle malloc attempts fuel t v
     else mret result) s).
  { unfold pop_local_frame, active_handles. rewrite (M_bind_Some _ _ _ _ _ Hres), reads_step, (abs_active a s Ha), (field_bind _ b_pop_frame_link _ _ B) by done. by rewrite HBl. }
  rewrite Hpre. destruct (decide (t_link T = 0)) as [Hz|Hnz].
  { rewrite Hz. exists result, s, a. split; [done|]. split; [|split; [done|lia]]. exists T. split; [done|]. by rewrite decide_True. }
  destruct Hlink as [?|[Hne HTl]]; [done|]. rewrite (proj2 (Z.eqb_neq _ _) Hnz). cbn [negb].
  destruct (set_link_run _ _ _ _ _ _ _ _ 0 HW HT) as (s1 & Hset & Hroots & HW1). assert (Ha1 := abs_same _ _ _ _ _ _ Ha Hroots HW1).
  rewrite (update_run _ _ _ B) in Hset by done. injection Hset as <-. set (s1 := with_blocks _ s) in *.
  assert (Hb1 : bounded fuel s1) by (destruct Hb, Hroots; unfold bounded; lia).
  destruct (release_simulates fuel _ s1 Ha1 Hb1 t (Some t) (active a t) [] (t_link T)) as (s2 & Hrun & Habs & Hsz); [split; [done|]; eexists; split; [cbn; by rewrite lookup_insert_eq|done]|by apply NoDup_singleton|].
  assert (Heq : activate t (t_link T) (with_tabs (drop_tables (hs_tabs (with_tabs (<[active a t := mkTable 0 (t_live T)]> (hs_tabs a)) a)) [active a t]) (with_tabs (<[active a t := mkTable 0 (t_live T)]> (hs_tabs a)) a))
    = activate t (t_link T) (with_tabs (delete (active a t) (hs_tabs a)) a)).
  { unfold activate, with_tabs, drop_tables. cbn. by rewrite delete_insert_eq. }
  rewrite Heq in Habs. set (a2 := activate t (t_link T) (with_tabs (delete (active a t) (hs_tabs a)) a)) in *.
  assert (Hact : active a2 t = t_link T) by (unfold active, a2; cbn; by rewrite lookup_insert_eq).
  assert (Hb2 : bounded fuel s2) by (destruct Hb1; unfold bounded; lia).
  destruct (make_local_simulates fuel a2 s2 t v) as (r & s3 & a3 & Hmk & Hal & Habs3 & Hsz3); try done.
  { exact (resolves_object a s result v Ha Hv). } { rewrite Hact. unfold a2. cbn. by rewrite lookup_delete_ne. }
  exists r, s3, a3. split; [|split; [|split; [done|destruct Hroots; lia]]].
  - rewrite modify_bind, (update_bind _ _ _ _ B) by done. by rewrite (M_bind_Some _ _ _ _ _ Hrun).
  - exists T. split; [done|]. rewrite decide_False by done. exists v. split; [done|]. by rewrite Hact in Hal.
Qed.
Lemma exec_simulates fuel a s o : malloc_ok heap_start heap_end malloc → 0 < heap_start → abs a s → bounded fuel s →
  allowed o a → simulates s (exec fuel o) (may o a).
Proof.
  intros Hmal H0 Ha Hb Hal. destruct o; cbn [exec].
  - by apply attach_simulates.
  - by apply make_local_simulates; try apply Hal.
  - destruct Hal as [Hobj HT]. apply (make_simulates fuel a s Hmal H0 Ha Hb _ t); [done..| |]; unfold make_global; [by intros ->|].
    intros Hne%Z.eqb_neq. rewrite Hne. cbn [negb]. rewrite reads_step. by destruct Ha as (_ & _ & _ & _ & -> & _).
  - destruct Hal as [Hobj HT]. apply (make_simulates fuel a s Hmal H0 Ha Hb _ t); [done..| |]; unfold make_weak_global; [by intros ->|].
    intros Hne%Z.eqb_neq. rewrite Hne. cbn [negb]. rewrite reads_step. by destruct Ha as (_ & _ & _ & _ & _ & ->).
  - by apply delete_simulates.
  - destruct (resolve_run a s Ha x Hal) as (v & Hrun & Hv). exists v, s, a. split; [done|]. split; [done|]. split; [done|lia].
  - destruct (ref_type_run fuel a s Ha Hb t x Hal) as (r & Hrun & Hr). exists r, s, a. split; [done|]. split; [done|]. split; [done|lia].
  - by apply push_simulates.
  - by apply pop_simulates.
  - by apply native_return_simulates.
  - by apply call_simulates.
  - by apply return_simulates.
  - by apply exit_simulates.
  - by apply collect_simulates.
Qed.
Lemma run_simulates fuel n : ∀ c a s, malloc_ok heap_start heap_end malloc → 0 < heap_start → abs a s → bounded fuel s → depth_le n c →
  (2 * (n + size (js_blocks s)) < fuel)%nat → Z.of_nat (n + size (js_blocks s)) < 2 ^ 25 → safe c a →
  ∃ rs s' a', run fuel c s = Some (rs, s') ∧ sees c a rs a' ∧ abs a' s'.
Proof.
  induction n as [|n IH]; intros [|o k] a s Hmal H0 Ha Hb Hd Hf Hs Hsafe; try done; try (by exists [], s, a).
  destruct Hsafe as [Hal Hsafe]. destruct (exec_simulates fuel a s o Hmal H0 Ha Hb Hal) as (r & s1 & a1 & Hrun & Hmay & Ha1 & Hsz).
  destruct (IH (k r) a1 s1) as (rs & s2 & a2 & Hrun2 & Hsees & Ha2); [done..| |done|lia|lia|by apply Hsafe|]; [split; lia|].
  exists (r :: rs), s2, a2. split; [|split; [by exists a1|done]]. cbn [run]. by rewrite (M_bind_Some _ _ _ _ _ Hrun), (M_bind_Some _ _ _ _ _ Hrun2).
Qed.

(** ** From the start of the VM *)

Definition jni_start : JNI := mkJNI ∅ ∅ 0 0 ∅ ∅ 0 0 0.
Definition tables_start (g w d : Z) : Handles := mkHandles (<[w := mkTable 0 ∅]> (<[g := mkTable 0 ∅]> ∅)) ∅ g w d.

Lemma initialize_run d : malloc_ok heap_start heap_end malloc → reserved d →
  ∃ g w s, jni_initialize malloc d jni_start = Some (tt, s) ∧ g ≠ w ∧ abs (tables_start g w d) s ∧ (size (js_blocks s) ≤ 2)%nat.
Proof.
  intros Hmal Hd. assert (HW0 : world heap_start heap_end ∅ (λ _, d) ∅ jni_start).
  { split_and!; try done; [split; [done|by intros b b' [? ?]]|by intros b; split; intros [? ?]|exists []|intros t; exists []]; (split_and!; [done|by apply NoDup_nil|intros b; by rewrite lookup_empty, elem_of_nil|by intros _ b C ?%elem_of_nil]). }
  destruct (new_table_run heap_start heap_end malloc _ _ _ _ None Hmal HW0) as (g & s1 & Hrun1 & _ & _ & (R0 & R1 & R2 & R3 & R4) & HW1).
  destruct (new_table_run heap_start heap_end malloc _ _ _ _ None Hmal HW1) as (w & s2 & Hrun2 & Hn & _ & (Q0 & Q1 & Q2 & Q3 & Q4) & HW2).
  exists g, w. eexists. split; [unfold jni_initialize; by rewrite (M_bind_Some _ _ _ _ _ Hrun1), (M_bind_Some _ _ _ _ _ Hrun2)|].
  split; [intros ->; by rewrite lookup_insert_eq in Hn|]. split; [|change (size (js_blocks jni_start)) with 0%nat in R0; cbn; lia].
  destruct Hd. split_and!; cbn; try done; [by eexists|rewrite Q2, R2; done].
Qed.

(** C9: handles of all kinds refine tables of live handles. A program that uses
    handles within the rules of the tables (local, global and weak handles,
    local frames, native returns, calls of Java and back, collections that move
    objects and drop weak ones) runs on blocks, free lists and recycled blocks
    without failing; each result is one the tables allow, so that a handle handed
    out is live nowhere else, resolves to its object until it is deleted or its
    frame ends, and is told apart by its kind. Two walks of the blocks and three
    attempts at an allocation are enough. *)
Theorem jni_handles_refine_tables n fuel d c :
  malloc_ok heap_start heap_end malloc → 0 < heap_start → reserved d → depth_le n c → (2 * (n + 2) < fuel)%nat → Z.of_nat (n + 2) < 2 ^ 25 →
  (∀ g w, g ≠ w → safe c (tables_start g w d)) →
  ∃ g w rs s a, (jni_initialize malloc d;; run fuel c) jni_start = Some (rs, s) ∧ g ≠ w ∧ sees c (tables_start g w d) rs a ∧ abs a s ∧
    ∀ h T x v, live_in a h T x v → js_mem s !! x = Some v.
Proof.
  intros Hmal H0 Hd Hn Hf Hs Hsafe. destruct (initialize_run d Hmal Hd) as (g & w & s & Hrun & Hgw & Ha & Hsz).
  destruct (run_simulates fuel n c (tables_start g w d) s) as (rs & s' & a' & Hrun' & Hsees & Ha'); [done..|split; lia|done|lia|lia|by apply Hsafe|].
  exists g, w, rs, s', a'. rewrite (M_bind_Some _ _ _ _ _ Hrun). split_and!; try done.
  intros h T x v [HT Hv]. destruct Ha' as ((owner & HW) & _). by destruct (world_live _ _ _ _ _ _ _ _ _ _ HW HT Hv).
Qed.
End refinement.

(** A heap at 4096; blocks are put one after the other above it. *)
Definition above (bl : gmap Z Block) : Z := foldr (λ kv m, Z.max (kv.1 + 256) m) 8192 (map_to_list bl).
Lemma above_ok : malloc_ok 4096 8192 above.
Proof.
  intros bl. assert (Hge : ∀ l : list (Z * Block), 8192 ≤ foldr (λ kv m, Z.max (kv.1 + 256) m) 8192 l) by (induction l as [|kv l IH]; cbn; lia).
  split; [specialize (Hge (map_to_list bl)); unfold above; lia|]. split; [right; apply Hge|]. intros b [B HB]. right. unfold above.
  apply elem_of_map_to_list in HB. induction (map_to_list bl) as [|kv l IH]; [by apply elem_of_nil in HB|]. apply elem_of_cons in HB as [<-|HB]; cbn; [lia|]. specialize (IH HB). lia.
Qed.
(** A local handle is made, read, deleted, and read in vain by no one. *)
Definition demo_client : client :=
  Do (Attach 0) (λ _, Do (NewLocal 0 5000) (λ x, Do (Resolve x) (λ _, Do (Delete x) (λ _, Do (NewLocal 0 6000) (λ y, Do (RefType 0 y) (λ _, Done)))))).
Lemma demo_safe g w : g ≠ w → safe 4096 8192 0 (λ _ _, false) demo_client (tables_start g w 4096).
Proof.
  intros Hgw. split; [done|]. intros r a1 [(h & Hh & Hh0 & ->) _]. cbn in Hh. set (a1 := activate _ _ _). assert (Hact : active a1 0 = h) by (unfold active, a1; cbn; by rewrite lookup_insert_eq).
  split; [split; [right; cbn; lia|]; rewrite Hact; cbn; by rewrite lookup_insert_eq|]. intros x a2 Hx. unfold allocates in Hx. cbn [may] in Hx.
  rewrite Hact in Hx. unfold allocates in Hx. rewrite decide_False in Hx by lia. destruct Hx as (T & HT & Hx0 & _ & ->). cbn in HT. rewrite lookup_insert_eq in HT. injection HT as <-.
  set (T1 := mkTable _ _). assert (Hlive : live_in (with_tabs (<[h := T1]> (hs_tabs a1)) a1) h T1 x 5000) by (split; cbn; by rewrite lookup_insert_eq).
  split; [right; eauto|]. intros v a3 [-> _]. split; [right; eauto|]. intros r2 a4 [_ Hdel]. rewrite decide_False in Hdel by done.
  destruct Hdel as (h2 & T2 & v2 & [HT2 Hv2] & ->). cbn in HT2.
  assert (h2 = h) as ->.
  { destruct (decide (h2 = h)); [done|]. rewrite !lookup_insert_ne in HT2 by done. cbn in HT2.
    apply lookup_insert_Some in HT2 as [[<- <-]|[_ HT2]]; [done|]. apply lookup_insert_Some in HT2 as [[<- <-]|[_ HT2]]; [done|]. done. }
  rewrite lookup_insert_eq in HT2. injection HT2 as <-.
  set (a4 := with_tabs _ _). assert (Hact4 : active a4 0 = h) by (unfold active; cbn; by rewrite lookup_insert_eq).
  split; [split; [right; cbn; lia|]; rewrite Hact4; cbn; by rewrite lookup_insert_eq|]. intros y a5 Hy. cbn [may] in Hy. rewrite Hact4 in Hy. unfold allocates in Hy. rewrite decide_False in Hy by lia.
  destruct Hy as (T & HT & Hy0 & _ & ->). cbn in HT. rewrite lookup_insert_eq in HT. injection HT as <-. split; [|done].
  split_and!; [|done| |cbn; rewrite !lookup_insert_is_Some'; auto 10..].
  - eexists h, _, 6000. split; [cbn; by rewrite lookup_insert_eq|]. cbn. by rewrite lookup_insert_eq.
  - exists [h]. split; [|by apply NoDup_singleton]. split; [exact Hact4|]. eexists. split; [cbn; by rewrite lookup_insert_eq|done].
Qed.
Lemma jni_handles_refine_tables_witness :
  ∃ g w rs s a, (jni_initialize above 4096;; run 4096 8192 above 0 (λ _ _, false) 20 demo_client) jni_start = Some (rs, s) ∧ g ≠ w ∧
    sees 4096 8192 0 demo_client (tables_start g w 4096) rs a ∧ abs 4096 8192 a s ∧ ∀ h T x v, live_in a h T x v → js_mem s !! x = Some v.
Proof.
  apply (jni_handles_refine_tables 4096 8192 above 0 (λ _ _, false) 6 20 4096 demo_client above_ok); [lia|lia|cbn; intros; done|lia|lia|exact demo_safe].
Defined.

(** A deleted handle is still counted as live: its mark is an object. *)
Lemma deleted_handle_counted :
  fst <$> (jni_initialize above 4096;; attach_thread above 0;; x ← make_local_handle above attempts 20 0 5000; destroy_handle x;;
           h ← active_handles 0; count_chain 4096 8192 20 h 0) jni_start = Some 1.
Proof. vm_compute. done. Qed.
(** After a native method returns, its handles beyond the first block are still
    taken for local handles. *)
Fixpoint many_locals (n : nat) (x : Z) : M JNI Z :=
  match n with O => mret x | S n' => y ← make_local_handle above attempts 20 0 5000; many_locals n' y end.
Lemma stale_handle_local :
  fst <$> (jni_initialize above 4096;; attach_thread above 0;; first ← many_locals 1 0; last ← many_locals 32 0; native_return 0;;
           f ← get_object_ref_type (λ _ _, false) 20 0 first; l ← get_object_ref_type (λ _ _, false) 20 0 last; mret (f, l)) jni_start
  = Some (JNIInvalidRefType, JNILocalRefType).
Proof. vm_compute. done. Qed.
