(* ===== verification/Sweeper.v ===== *)
(** * The sweeper: the life of an nmethod and the reclamation of its code

    A model of [runtime/sweeper.cpp] and of the states of an nmethod in
    [code/nmethod.cpp]: in use, not entrant, zombie, unloaded, flushed.  The
    sweeper frees the memory of an nmethod while Java threads run, call each
    other through inline caches and return to frames below; nothing counts the
    references.  It is safe because a zombie is flushed two stack traversals
    after it became one, when every call site and every thread has let go of it.
    [SweeperSafety.v] proves it for every sequence of the steps in [Step], and
    [SweeperProgress.v] that what is not used any more does go.

    What a thread does between two instructions of a call is a step of its
    own: it reads the destination of a call ([t_pending]) and reaches the entry
    point later, when the nmethod may have been closed or made a zombie.  A
    safepoint needs every thread out of that window, the sweeper does not.

    One iteration of the loop of [sweep_code_cache], with its
    [process_nmethod], is one step; other threads run between iterations.  A
    call site is known by an offset of its caller and holds the address of
    the nmethod it calls, also when it does so through a stub of the inline cache
    buffer; a site that goes to another stub, to an adapter or to the
    interpreter is one that holds nothing.  The sites of an nmethod lie behind
    the bytes that [patch_verified_entry] overwrites.  The order of addresses is
    that of the blobs in the code cache, which [CodeCache.v] shows its loops
    follow.  The comparisons of floating point numbers that tune the sweeper are
    arguments.  Exception caches, dependencies, JVMTI events, logging and the lists of
    the collectors, which the same functions maintain, are not part of the
    state here. *)

From stdpp Require Import base gmap list.
From S2P Require Import Prelude.

Local Open Scope Z_scope.

(** ** State *)

Inductive nm_State := in_use | not_entrant | zombie | unloaded.
#[global] Instance nm_State_dec : EqDecision nm_State.
Proof. solve_decision. Defined.

(** An nmethod.  [nm_patched]: the verified entry point is a jump to the
    wrong-method stub.  [nm_calls]: the destinations of its call sites. *)
Record nmethod := mkNmethod {
  nm_state : nm_State;
  nm_stack_traversal_mark : Z;
  nm_hotness_counter : Z;
  nm_lock_count : Z;
  nm_marked_for_reclamation : bool;
  nm_is_osr : bool;
  nm_is_native : bool;
  nm_is_c2 : bool;
  nm_method : Z;
  nm_total_size : Z;
  nm_patched : bool;
  nm_calls : gmap Z Z
}.
Definition nm_set_state v x := mkNmethod v (nm_stack_traversal_mark x) (nm_hotness_counter x) (nm_lock_count x) (nm_marked_for_reclamation x) (nm_is_osr x) (nm_is_native x) (nm_is_c2 x) (nm_method x) (nm_total_size x) (nm_patched x) (nm_calls x).
Definition nm_set_stack_traversal_mark v x := mkNmethod (nm_state x) v (nm_hotness_counter x) (nm_lock_count x) (nm_marked_for_reclamation x) (nm_is_osr x) (nm_is_native x) (nm_is_c2 x) (nm_method x) (nm_total_size x) (nm_patched x) (nm_calls x).
Definition nm_set_hotness_counter v x := mkNmethod (nm_state x) (nm_stack_traversal_mark x) v (nm_lock_count x) (nm_marked_for_reclamation x) (nm_is_osr x) (nm_is_native x) (nm_is_c2 x) (nm_method x) (nm_total_size x) (nm_patched x) (nm_calls x).
Definition nm_set_lock_count v x := mkNmethod (nm_state x) (nm_stack_traversal_mark x) (nm_hotness_counter x) v (nm_marked_for_reclamation x) (nm_is_osr x) (nm_is_native x) (nm_is_c2 x) (nm_method x) (nm_total_size x) (nm_patched x) (nm_calls x).
Definition nm_set_marked_for_reclamation v x := mkNmethod (nm_state x) (nm_stack_traversal_mark x) (nm_hotness_counter x) (nm_lock_count x) v (nm_is_osr x) (nm_is_native x) (nm_is_c2 x) (nm_method x) (nm_total_size x) (nm_patched x) (nm_calls x).
Definition nm_set_method v x := mkNmethod (nm_state x) (nm_stack_traversal_mark x) (nm_hotness_counter x) (nm_lock_count x) (nm_marked_for_reclamation x) (nm_is_osr x) (nm_is_native x) (nm_is_c2 x) v (nm_total_size x) (nm_patched x) (nm_calls x).
Definition nm_set_patched v x := mkNmethod (nm_state x) (nm_stack_traversal_mark x) (nm_hotness_counter x) (nm_lock_count x) (nm_marked_for_reclamation x) (nm_is_osr x) (nm_is_native x) (nm_is_c2 x) (nm_method x) (nm_total_size x) v (nm_calls x).
Definition nm_set_calls v x := mkNmethod (nm_state x) (nm_stack_traversal_mark x) (nm_hotness_counter x) (nm_lock_count x) (nm_marked_for_reclamation x) (nm_is_osr x) (nm_is_native x) (nm_is_c2 x) (nm_method x) (nm_total_size x) (nm_patched x) v.

(** The locals of [sweep_code_cache] while it runs. *)
Record SweepLoop := mkLoop {
  lp_i : Z;
  lp_todo : Z;
  lp_freed_memory : Z
}.
(** The statics of [NMethodSweeper]; [sw_loop] is the sweep in progress, if any. *)
Record NMethodSweeper := mkSweeper {
  sw_current : Z;
  sw_traversals : Z;
  sw_total_nof_code_cache_sweeps : Z;
  sw_time_counter : Z;
  sw_last_sweep : Z;
  sw_seen : Z;
  sw_flushed_count : Z;
  sw_zombified_count : Z;
  sw_marked_for_reclamation_count : Z;
  sw_should_sweep : bool;
  sw_sweep_fractions_left : Z;
  sw_sweep_started : Z;
  sw_bytes_changed : Z;
  sw_total_nof_methods_reclaimed : Z;
  sw_total_nof_c2_methods_reclaimed : Z;
  sw_total_flushed_size : Z;
  sw_loop : option SweepLoop
}.
Definition sw_set_current v w := mkSweeper v (sw_traversals w) (sw_total_nof_code_cache_sweeps w) (sw_time_counter w) (sw_last_sweep w) (sw_seen w) (sw_flushed_count w) (sw_zombified_count w) (sw_marked_for_reclamation_count w) (sw_should_sweep w) (sw_sweep_fractions_left w) (sw_sweep_started w) (sw_bytes_changed w) (sw_total_nof_methods_reclaimed w) (sw_total_nof_c2_methods_reclaimed w) (sw_total_flushed_size w) (sw_loop w).
Definition sw_set_traversals v w := mkSweeper (sw_current w) v (sw_total_nof_code_cache_sweeps w) (sw_time_counter w) (sw_last_sweep w) (sw_seen w) (sw_flushed_count w) (sw_zombified_count w) (sw_marked_for_reclamation_count w) (sw_should_sweep w) (sw_sweep_fractions_left w) (sw_sweep_started w) (sw_bytes_changed w) (sw_total_nof_methods_reclaimed w) (sw_total_nof_c2_methods_reclaimed w) (sw_total_flushed_size w) (sw_loop w).
Definition sw_set_total_nof_code_cache_sweeps v w := mkSweeper (sw_current w) (sw_traversals w) v (sw_time_counter w) (sw_last_sweep w) (sw_seen w) (sw_flushed_count w) (sw_zombified_count w) (sw_marked_for_reclamation_count w) (sw_should_sweep w) (sw_sweep_fractions_left w) (sw_sweep_started w) (sw_bytes_changed w) (sw_total_nof_methods_reclaimed w) (sw_total_nof_c2_methods_reclaimed w) (sw_total_flushed_size w) (sw_loop w).
Definition sw_set_time_counter v w := mkSweeper (sw_current w) (sw_traversals w) (sw_total_nof_code_cache_sweeps w) v (sw_last_sweep w) (sw_seen w) (sw_flushed_count w) (sw_zombified_count w) (sw_marked_for_reclamation_count w) (sw_should_sweep w) (sw_sweep_fractions_left w) (sw_sweep_started w) (sw_bytes_changed w) (sw_total_nof_methods_reclaimed w) (sw_total_nof_c2_methods_reclaimed w) (sw_total_flushed_size w) (sw_loop w).
Definition sw_set_last_sweep v w := mkSweeper (sw_current w) (sw_traversals w) (sw_total_nof_code_cache_sweeps w) (sw_time_counter w) v (sw_seen w) (sw_flushed_count w) (sw_zombified_count w) (sw_marked_for_reclamation_count w) (sw_should_sweep w) (sw_sweep_fractions_left w) (sw_sweep_started w) (sw_bytes_changed w) (sw_total_nof_methods_reclaimed w) (sw_total_nof_c2_methods_reclaimed w) (sw_total_flushed_size w) (sw_loop w).
Definition sw_set_seen v w := mkSweeper (sw_current w) (sw_traversals w) (sw_total_nof_code_cache_sweeps w) (sw_time_counter w) (sw_last_sweep w) v (sw_flushed_count w) (sw_zombified_count w) (sw_marked_for_reclamation_count w) (sw_should_sweep w) (sw_sweep_fractions_left w) (sw_sweep_started w) (sw_bytes_changed w) (sw_total_nof_methods_reclaimed w) (sw_total_nof_c2_methods_reclaimed w) (sw_total_flushed_size w) (sw_loop w).
Definition sw_set_flushed_count v w := mkSweeper (sw_current w) (sw_traversals w) (sw_total_nof_code_cache_sweeps w) (sw_time_counter w) (sw_last_sweep w) (sw_seen w) v (sw_zombified_count w) (sw_marked_for_reclamation_count w) (sw_should_sweep w) (sw_sweep_fractions_left w) (sw_sweep_started w) (sw_bytes_changed w) (sw_total_nof_methods_reclaimed w) (sw_total_nof_c2_methods_reclaimed w) (sw_total_flushed_size w) (sw_loop w).
Definition sw_set_zombified_count v w := mkSweeper (sw_current w) (sw_traversals w) (sw_total_nof_code_cache_sweeps w) (sw_time_counter w) (sw_last_sweep w) (sw_seen w) (sw_flushed_count w) v (sw_marked_for_reclamation_count w) (sw_should_sweep w) (sw_sweep_fractions_left w) (sw_sweep_started w) (sw_bytes_changed w) (sw_total_nof_methods_reclaimed w) (sw_total_nof_c2_methods_reclaimed w) (sw_total_flushed_size w) (sw_loop w).
Definition sw_set_marked_for_reclamation_count v w := mkSweeper (sw_current w) (sw_traversals w) (sw_total_nof_code_cache_sweeps w) (sw_time_counter w) (sw_last_sweep w) (sw_seen w) (sw_flushed_count w) (sw_zombified_count w) v (sw_should_sweep w) (sw_sweep_fractions_left w) (sw_sweep_started w) (sw_bytes_changed w) (sw_total_nof_methods_reclaimed w) (sw_total_nof_c2_methods_reclaimed w) (sw_total_flushed_size w) (sw_loop w).
Definition sw_set_should_sweep v w := mkSweeper (sw_current w) (sw_traversals w) (sw_total_nof_code_cache_sweeps w) (sw_time_counter w) (sw_last_sweep w) (sw_seen w) (sw_flushed_count w) (sw_zombified_count w) (sw_marked_for_reclamation_count w) v (sw_sweep_fractions_left w) (sw_sweep_started w) (sw_bytes_changed w) (sw_total_nof_methods_reclaimed w) (sw_total_nof_c2_methods_reclaimed w) (sw_total_flushed_size w) (sw_loop w).
Definition sw_set_sweep_fractions_left v w := mkSweeper (sw_current w) (sw_traversals w) (sw_total_nof_code_cache_sweeps w) (sw_time_counter w) (sw_last_sweep w) (sw_seen w) (sw_flushed_count w) (sw_zombified_count w) (sw_marked_for_reclamation_count w) (sw_should_sweep w) v (sw_sweep_started w) (sw_bytes_changed w) (sw_total_nof_methods_reclaimed w) (sw_total_nof_c2_methods_reclaimed w) (sw_total_flushed_size w) (sw_loop w).
Definition sw_set_sweep_started v w := mkSweeper (sw_current w) (sw_traversals w) (sw_total_nof_code_cache_sweeps w) (sw_time_counter w) (sw_last_sweep w) (sw_seen w) (sw_flushed_count w) (sw_zombified_count w) (sw_marked_for_reclamation_count w) (sw_should_sweep w) (sw_sweep_fractions_left w) v (sw_bytes_changed w) (sw_total_nof_methods_reclaimed w) (sw_total_nof_c2_methods_reclaimed w) (sw_total_flushed_size w) (sw_loop w).
Definition sw_set_bytes_changed v w := mkSweeper (sw_current w) (sw_traversals w) (sw_total_nof_code_cache_sweeps w) (sw_time_counter w) (sw_last_sweep w) (sw_seen w) (sw_flushed_count w) (sw_zombified_count w) (sw_marked_for_reclamation_count w) (sw_should_sweep w) (sw_sweep_fractions_left w) (sw_sweep_started w) v (sw_total_nof_methods_reclaimed w) (sw_total_nof_c2_methods_reclaimed w) (sw_total_flushed_size w) (sw_loop w).
Definition sw_set_total_nof_methods_reclaimed v w := mkSweeper (sw_current w) (sw_traversals w) (sw_total_nof_code_cache_sweeps w) (sw_time_counter w) (sw_last_sweep w) (sw_seen w) (sw_flushed_count w) (sw_zombified_count w) (sw_marked_for_reclamation_count w) (sw_should_sweep w) (sw_sweep_fractions_left w) (sw_sweep_started w) (sw_bytes_changed w) v (sw_total_nof_c2_methods_reclaimed w) (sw_total_flushed_size w) (sw_loop w).
Definition sw_set_total_nof_c2_methods_reclaimed v w := mkSweeper (sw_current w) (sw_traversals w) (sw_total_nof_code_cache_sweeps w) (sw_time_counter w) (sw_last_sweep w) (sw_seen w) (sw_flushed_count w) (sw_zombified_count w) (sw_marked_for_reclamation_count w) (sw_should_sweep w) (sw_sweep_fractions_left w) (sw_sweep_started w) (sw_bytes_changed w) (sw_total_nof_methods_reclaimed w) v (sw_total_flushed_size w) (sw_loop w).
Definition sw_set_total_flushed_size v w := mkSweeper (sw_current w) (sw_traversals w) (sw_total_nof_code_cache_sweeps w) (sw_time_counter w) (sw_last_sweep w) (sw_seen w) (sw_flushed_count w) (sw_zombified_count w) (sw_marked_for_reclamation_count w) (sw_should_sweep w) (sw_sweep_fractions_left w) (sw_sweep_started w) (sw_bytes_changed w) (sw_total_nof_methods_reclaimed w) (sw_total_nof_c2_methods_reclaimed w) v (sw_loop w).
Definition sw_set_loop v w := mkSweeper (sw_current w) (sw_traversals w) (sw_total_nof_code_cache_sweeps w) (sw_time_counter w) (sw_last_sweep w) (sw_seen w) (sw_flushed_count w) (sw_zombified_count w) (sw_marked_for_reclamation_count w) (sw_should_sweep w) (sw_sweep_fractions_left w) (sw_sweep_started w) (sw_bytes_changed w) (sw_total_nof_methods_reclaimed w) (sw_total_nof_c2_methods_reclaimed w) (sw_total_flushed_size w) v.

(** A Java thread, or a coroutine: its compiled frames, the last first, and the
    nmethod it is about to enter. *)
Record jthread := mkThread {
  t_stack : list Z;
  t_pending : option Z
}.
(** The code cache (the nmethods by address), the code of each [Method*], the
    threads, the nmethods the VM holds an [nmethodLocker] on, the sweeper. *)
Record VM := mkVM {
  vm_nms : gmap Z nmethod;
  vm_code : gmap Z Z;
  vm_threads : gmap nat jthread;
  vm_locks : list Z;
  vm_sweeper : NMethodSweeper;
  vm_needs_cache_clean : bool;
  vm_should_compile_new_jobs : bool
}.
Definition vm_set_nms v s := mkVM v (vm_code s) (vm_threads s) (vm_locks s) (vm_sweeper s) (vm_needs_cache_clean s) (vm_should_compile_new_jobs s).
Definition vm_set_code v s := mkVM (vm_nms s) v (vm_threads s) (vm_locks s) (vm_sweeper s) (vm_needs_cache_clean s) (vm_should_compile_new_jobs s).
Definition vm_set_threads v s := mkVM (vm_nms s) (vm_code s) v (vm_locks s) (vm_sweeper s) (vm_needs_cache_clean s) (vm_should_compile_new_jobs s).
Definition vm_set_locks v s := mkVM (vm_nms s) (vm_code s) (vm_threads s) v (vm_sweeper s) (vm_needs_cache_clean s) (vm_should_compile_new_jobs s).
Definition vm_set_sweeper v s := mkVM (vm_nms s) (vm_code s) (vm_threads s) (vm_locks s) v (vm_needs_cache_clean s) (vm_should_compile_new_jobs s).
Definition vm_set_needs_cache_clean v s := mkVM (vm_nms s) (vm_code s) (vm_threads s) (vm_locks s) (vm_sweeper s) v (vm_should_compile_new_jobs s).
Definition vm_set_should_compile_new_jobs v s := mkVM (vm_nms s) (vm_code s) (vm_threads s) (vm_locks s) (vm_sweeper s) (vm_needs_cache_clean s) v.

Definition modify (f : VM → VM) : M VM unit := λ s, Some (tt, f s).
Definition reads {A} (f : VM → A) : M VM A := λ s, Some (f s, s).
Definition field {A} (n : Z) (f : nmethod → A) : M VM A := λ s, (λ x, (f x, s)) <$> vm_nms s !! n.
Definition update (n : Z) (f : nmethod → nmethod) : M VM unit := λ s,
  match vm_nms s !! n with
  | Some x => Some (tt, vm_set_nms (<[n := f x]> (vm_nms s)) s)
  | None => None
  end.
Definition static {A} (f : NMethodSweeper → A) : M VM A := reads (λ s, f (vm_sweeper s)).
Definition set_static (f : NMethodSweeper → NMethodSweeper) : M VM unit :=
  modify (λ s, vm_set_sweeper (f (vm_sweeper s)) s).
(** An [assert] or a [guarantee]; one that does not hold ends the VM. *)
Definition massert (b : bool) : M VM unit := if b then mret tt else mfailS.

Definition is_in_use (x : nmethod) : bool := bool_decide (nm_state x = in_use).
Definition is_not_entrant (x : nmethod) : bool := bool_decide (nm_state x = not_entrant).
Definition is_zombie (x : nmethod) : bool := bool_decide (nm_state x = zombie).
Definition is_unloaded (x : nmethod) : bool := bool_decide (nm_state x = unloaded).
Definition is_alive (x : nmethod) : bool := is_in_use x || is_not_entrant x.
Definition is_locked_by_vm (x : nmethod) : bool := 0 <? nm_lock_count x.

(** One holder of a lock less. *)
Fixpoint list_remove_one (n : Z) (l : list Z) : list Z :=
  match l with [] => [] | x :: r => if x =? n then r else x :: list_remove_one n r end.

(** The flags of the VM, and whether the bytes that changed state are more than one
    percent of the code cache. *)
Class Flags := {
  MethodFlushing : bool;
  UseCodeCacheFlushing : bool;
  TieredCompilation : bool;
  NmethodSweepFraction : Z;
  NmethodSweepActivity : Z;
  ReservedCodeCacheSize : Z;
  percent_changed_gt_1 : Z → bool
}.

Section sweeper.
Context `{F : Flags}.

(** ** The code cache *)

(** The lowest address above [lo], null if there is none. *)
Definition lowest_above (lo : Z) (l : list Z) : Z :=
  foldr (λ k acc, if lo <? k then (if acc =? 0 then k else Z.min k acc) else acc) 0 l.
Definition first_nmethod : M VM Z := reads (λ s, lowest_above 0 (map_to_list (vm_nms s)).*1).
Definition next_nmethod (cb : Z) : M VM Z := reads (λ s, lowest_above cb (map_to_list (vm_nms s)).*1).
Definition nof_nmethods : M VM Z := reads (λ s, Z.of_nat (size (vm_nms s))).

(** [method->code()] *)
Definition code_of (code : gmap Z Z) (m : Z) : Z := default 0 (code !! m).
Definition method_code (m : Z) : M VM Z := reads (λ s, code_of (vm_code s) m).
Definition clear_code (m : Z) : M VM unit := modify (λ s, vm_set_code (delete m (vm_code s)) s).
(** The method of the nmethod [x] at [n] forgets it.  [_code] and
    [_from_compiled_entry] are one field here, written together by [set_code] and
    [clear_code]: the second test of the source, for a thread that comes between
    the two stores of [Method::set_code], has the answer of the first. *)
Definition unlink_code (n : Z) (x : nmethod) : M VM unit :=
  c ← method_code (nm_method x);
  if negb (nm_method x =? 0) && (c =? n) then clear_code (nm_method x) else mret tt.
Definition set_code (m n : Z) : M VM unit := modify (λ s, vm_set_code (<[m := n]> (vm_code s)) s).

(** Is the destination [d] of a call site one that [cleanup_inline_caches]
    leaves alone? *)
Definition keeps_call (nms : gmap Z nmethod) (code : gmap Z Z) (d : Z) : bool :=
  match nms !! d with
  | Some x => is_in_use x && (code_of code (nm_method x) =? d)
  | None => true
  end.
Definition cleanup_inline_caches (n : Z) : M VM unit :=
  keep ← reads (λ s, keeps_call (vm_nms s) (vm_code s));
  update n (λ x, nm_set_calls (filter (λ p, keep p.2 = true) (nm_calls x)) x).

Definition lock_nmethod (nm : Z) (zombie_ok : bool) : M VM unit :=
  if nm =? 0 then mret tt else
  update nm (λ x, nm_set_lock_count (s32 (nm_lock_count x + 1)) x);;
  z ← field nm is_zombie;
  massert (zombie_ok || negb z).
Definition unlock_nmethod (nm : Z) : M VM unit :=
  if nm =? 0 then mret tt else
  update nm (λ x, nm_set_lock_count (s32 (nm_lock_count x - 1)) x);;
  c ← field nm nm_lock_count;
  massert (0 <=? c).

(** ** State changes *)

Definition possibly_enable_sweeper : M VM unit :=
  b ← static sw_bytes_changed;
  if percent_changed_gt_1 b then set_static (sw_set_should_sweep true) else mret tt.
Definition add_bytes_changed (n : Z) : M VM unit :=
  size ← field n nm_total_size;
  b ← static sw_bytes_changed;
  set_static (sw_set_bytes_changed (s32 (b + size))).
Definition report_state_change (n : Z) : M VM unit := add_bytes_changed n;; possibly_enable_sweeper.

Definition mark_as_seen_on_stack (n : Z) : M VM unit :=
  alive ← field n is_alive;
  massert alive;;
  t ← static sw_traversals;
  update n (nm_set_stack_traversal_mark t).
Definition can_convert_to_zombie (n : Z) : M VM bool :=
  x ← field n id;
  massert (is_not_entrant x);;
  t ← static sw_traversals;
  mret ((s64 (nm_stack_traversal_mark x + 1) <? t) && negb (is_locked_by_vm x)).

(** The critical region under [Patching_lock] and what follows it, for an nmethod
    [x] in another state than [st]. *)
Definition transition (n : Z) (x : nmethod) (st : nm_State) : M VM unit :=
  (if negb (nm_is_osr x) && negb (is_not_entrant x) then update n (nm_set_patched true) else mret tt);;
  (if bool_decide (st = not_entrant) then mark_as_seen_on_stack n else mret tt);;
  update n (nm_set_state st);;
  unlink_code n x;;
  (if bool_decide (st = zombie) then update n (nm_set_method 0) else mret tt);;
  report_state_change n.
Definition make_not_entrant_or_zombie (n : Z) (st : nm_State) : M VM bool :=
  massert (bool_decide (st = zombie) || bool_decide (st = not_entrant));;
  x ← field n id;
  massert (negb (is_zombie x));;
  lock_nmethod n false;;
  if bool_decide (nm_state x = st) then unlock_nmethod n;; mret false
  else transition n x st;; unlock_nmethod n;; mret true.
Definition make_not_entrant (n : Z) : M VM bool := make_not_entrant_or_zombie n not_entrant.
Definition make_zombie (n : Z) : M VM bool := make_not_entrant_or_zombie n zombie.

Definition make_unloaded (n : Z) : M VM unit :=
  x ← field n id;
  unlink_code n x;;
  update n (nm_set_method 0);;
  (if is_in_use x then modify (vm_set_needs_cache_clean true) else mret tt);;
  update n (nm_set_state unloaded);;
  report_state_change n.

(** The sites of every live nmethod are cleaned after a collection that unloaded
    one in use.  The order does not matter: cleaning changes sites only. *)
Definition gc_epilogue : M VM unit :=
  clean ← reads vm_needs_cache_clean;
  (if clean : bool then
     l ← reads (λ s, (map_to_list (vm_nms s)).*1);
     mforeach (λ n, alive ← field n is_alive; if alive : bool then cleanup_inline_caches n else mret tt) l
   else mret tt);;
  modify (vm_set_needs_cache_clean false).

Definition flush (n : Z) : M VM unit :=
  x ← field n id;
  massert (is_zombie x || (nm_is_osr x && is_unloaded x));;
  massert (nm_marked_for_reclamation x || (nm_is_osr x && is_unloaded x));;
  massert (negb (is_locked_by_vm x));;
  modify (λ s, vm_set_nms (delete n (vm_nms s)) s).
Definition release_nmethod (n : Z) : M VM unit := flush n.

(** ** Marking, at a safepoint *)

Definition hotness_counter_reset_val : Z :=
  if ReservedCodeCacheSize <? 1048576 then 1 else s32 (ReservedCodeCacheSize `div` 1048576 * 2).
Definition set_hotness (n : Z) : M VM unit :=
  update n (nm_set_hotness_counter hotness_counter_reset_val).
Definition mark_activation (n : Z) : M VM unit :=
  set_hotness n;;
  ne ← field n is_not_entrant;
  if ne : bool then mark_as_seen_on_stack n else mret tt.
Definition activations (threads : gmap nat jthread) : list Z := map_to_list threads ≫= λ p, t_stack p.2.
Definition nmethods_do (f : Z → M VM unit) : M VM unit :=
  l ← reads (λ s, activations (vm_threads s));
  mforeach f l.

Definition mark_active_nmethods : M VM unit :=
  if negb MethodFlushing then mret tt else
  t ← static sw_time_counter;
  set_static (sw_set_time_counter (s64 (t + 1)));;
  current ← static sw_current;
  valid ← reads (λ s, (current =? 0) || bool_decide (is_Some (vm_nms s !! current)));
  massert valid;;
  if current =? 0 then
    set_static (sw_set_seen 0);;
    set_static (sw_set_sweep_fractions_left NmethodSweepFraction);;
    first ← first_nmethod;
    set_static (sw_set_current first);;
    n ← static sw_traversals;
    set_static (sw_set_traversals (s64 (n + 1)));;
    nmethods_do mark_activation
  else nmethods_do set_hotness.

(** ** Sweeping *)

Definition incr (get : NMethodSweeper → Z) (put : Z → NMethodSweeper → NMethodSweeper) : M VM unit :=
  c ← static get; set_static (put (s32 (c + 1))).

(** Code found to be a zombie for the second time, or unloaded OSR code. *)
Definition reclaim (n : Z) : M VM Z :=
  freed ← field n nm_total_size;
  c2 ← field n nm_is_c2;
  (if c2 : bool then
     c ← static sw_total_nof_c2_methods_reclaimed;
     set_static (sw_set_total_nof_c2_methods_reclaimed (s64 (c + 1)))
   else mret tt);;
  release_nmethod n;;
  incr sw_flushed_count sw_set_flushed_count;;
  mret freed.

(** [below_threshold]: is a hotness counter smaller than the threshold? *)
Definition cool_down (below_threshold : Z → bool) (n : Z) : M VM unit :=
  x ← field n id;
  if UseCodeCacheFlushing && negb (is_locked_by_vm x) && negb (nm_is_osr x) && negb (nm_is_native x) then
    update n (λ y, nm_set_hotness_counter (s32 (nm_hotness_counter y - 1)) y);;
    h ← field n nm_hotness_counter;
    let time_since_reset := s32 (hotness_counter_reset_val - h) in
    if (0 <? NmethodSweepActivity) && below_threshold h && (10 <? time_since_reset) then
      make_not_entrant n;; mret tt
    else mret tt
  else mret tt.

Definition process_nmethod (below_threshold : Z → bool) (n : Z) : M VM Z :=
  x ← field n id;
  if is_locked_by_vm x then
    (if is_alive x then cleanup_inline_caches n else mret tt);;
    mret 0
  else if is_zombie x then
    if nm_marked_for_reclamation x then reclaim n
    else
      update n (nm_set_marked_for_reclamation true);;
      add_bytes_changed n;;
      incr sw_marked_for_reclamation_count sw_set_marked_for_reclamation_count;;
      mret 0
  else if is_not_entrant x then
    can ← can_convert_to_zombie n;
    if can : bool then
      make_zombie n;;
      incr sw_zombified_count sw_set_zombified_count;;
      mret 0
    else
      cleanup_inline_caches n;;
      mret 0
  else if is_unloaded x then
    if nm_is_osr x then reclaim n
    else
      cleanup_inline_caches n;;
      make_zombie n;;
      incr sw_zombified_count sw_set_zombified_count;;
      mret 0
  else
    cool_down below_threshold n;;
    cleanup_inline_caches n;;
    mret 0.

(** The end of [sweep_code_cache], and of [possibly_sweep] after it. *)
Definition sweep_code_cache_end (freed_memory : Z) : M VM unit :=
  f ← static sw_sweep_fractions_left;
  current ← static sw_current;
  massert ((1 <? f) || (current =? 0));;
  sz ← static sw_total_flushed_size;
  set_static (sw_set_total_flushed_size (u64 (sz + freed_memory)));;
  r ← static sw_total_nof_methods_reclaimed;
  c ← static sw_flushed_count;
  set_static (sw_set_total_nof_methods_reclaimed (s64 (r + c)));;
  on ← reads vm_should_compile_new_jobs;
  (if negb on && (0 <? freed_memory) then modify (vm_set_should_compile_new_jobs true) else mret tt);;
  set_static (sw_set_loop None).
Definition possibly_sweep_end : M VM unit :=
  f ← static sw_sweep_fractions_left;
  set_static (sw_set_sweep_fractions_left (s32 (f - 1)));;
  (if s32 (f - 1) =? 0 then
     t ← static sw_total_nof_code_cache_sweeps;
     set_static (sw_set_total_nof_code_cache_sweeps (s64 (t + 1)));;
     now ← static sw_time_counter;
     set_static (sw_set_last_sweep now);;
     set_static (sw_set_should_sweep false);;
     possibly_enable_sweeper;;
     sh ← static sw_should_sweep;
     if sh : bool then set_static (sw_set_bytes_changed 0) else mret tt
   else mret tt);;
  set_static (sw_set_sweep_started 0).

(** The test of the loop; a sweep that stops here ends. *)
Definition sweep_loop_test (l : SweepLoop) : M VM unit :=
  f ← static sw_sweep_fractions_left;
  current ← static sw_current;
  if ((lp_i l <? lp_todo l) || (f =? 1)) && negb (current =? 0) then set_static (sw_set_loop (Some l))
  else sweep_code_cache_end (lp_freed_memory l);; possibly_sweep_end.
Definition sweep_code_cache : M VM unit :=
  set_static (sw_set_flushed_count 0);;
  set_static (sw_set_zombified_count 0);;
  set_static (sw_set_marked_for_reclamation_count 0);;
  on ← reads vm_should_compile_new_jobs;
  (if negb on then set_static (sw_set_sweep_fractions_left 1) else mret tt);;
  nof ← nof_nmethods;
  seen ← static sw_seen;
  f ← static sw_sweep_fractions_left;
  massert (negb (f =? 0));;
  sweep_loop_test (mkLoop 0 (s32 (nof - seen) `quot` f) 0).
(** One iteration of the loop. *)
Definition sweep_next (below_threshold : Z → bool) (l : SweepLoop) : M VM unit :=
  current ← static sw_current;
  next ← next_nmethod current;
  freed ← process_nmethod below_threshold current;
  incr sw_seen sw_set_seen;;
  set_static (sw_set_current next);;
  sweep_loop_test (mkLoop (s32 (lp_i l + 1)) (lp_todo l) (s32 (lp_freed_memory l + freed))).

(** [wait_over]: is the time until the next sweep not positive? *)
Definition possibly_sweep (wait_over : bool) : M VM unit :=
  current ← static sw_current;
  if negb MethodFlushing || (current =? 0) then mret tt else
  sh ← static sw_should_sweep;
  on ← reads vm_should_compile_new_jobs;
  (if negb sh && (wait_over || negb on) then set_static (sw_set_should_sweep true) else mret tt);;
  sh' ← static sw_should_sweep;
  f ← static sw_sweep_fractions_left;
  if sh' && (0 <? f) then
    old ← static sw_sweep_started;
    if negb (old =? 0) then mret tt else
    set_static (sw_set_sweep_started 1);;
    sweep_code_cache
  else mret tt.

(** ** What the rest of the VM does *)

(** [JVMCIEnv::register_method] with the nmethod at [n]; the call of
    [possibly_sweep] before it is a step of its own.  Code that is not the
    default of its method is called through its [InstalledCode] object only. *)
Definition new_nmethod (m size : Z) (osr native c2 : bool) : nmethod :=
  mkNmethod in_use 0 hotness_counter_reset_val 0 false osr native c2 m size false ∅.
(** The old version of a method, under tiered compilation. *)
Definition replace_old (m : Z) : M VM unit :=
  old ← method_code m;
  if TieredCompilation && negb (old =? 0) then make_not_entrant old;; mret tt else mret tt.
Definition register_method (n m size : Z) (osr native c2 default_code : bool) : M VM unit :=
  modify (λ s, vm_set_nms (<[n := new_nmethod m size osr native c2]> (vm_nms s)) s);;
  if default_code && negb osr then
    replace_old m;;
    set_code m n
  else mret tt.

(** [CompileBroker::handle_full_code_cache] with [UseCodeCacheFlushing]. *)
Definition handle_full_code_cache (wait_over : bool) : M VM unit :=
  if UseCodeCacheFlushing then
    modify (vm_set_should_compile_new_jobs false);; possibly_sweep wait_over
  else mret tt.

Definition get_thread (t : nat) : M VM jthread := λ s, (λ th, (th, s)) <$> vm_threads s !! t.
Definition set_thread (t : nat) (th : jthread) : M VM unit :=
  modify (λ s, vm_set_threads (<[t := th]> (vm_threads s)) s).
(** The code of the frame a thread executes. *)
Definition top_nmethod (t : nat) : M VM Z :=
  th ← get_thread t;
  match t_stack th with c :: _ => mret c | [] => mfailS end.
Definition about_to_enter (t : nat) (n : Z) : M VM unit :=
  th ← get_thread t; set_thread t (mkThread (t_stack th) (Some n)).

(** [SharedRuntime::resolve_sub_helper] for the call at [site] of the caller in
    the last frame of [t], when the method to call is [m]. *)
Definition resolve_sub_helper (t : nat) (site m : Z) : M VM unit :=
  caller_nm ← top_nmethod t;
  alive ← field caller_nm is_alive;
  massert alive;;
  callee_nm ← method_code m;
  if callee_nm =? 0 then mret tt else
  usable ← field callee_nm is_in_use;
  calls ← field caller_nm nm_calls;
  if usable && bool_decide (calls !! site = None) then
    update caller_nm (λ x, nm_set_calls (<[site := callee_nm]> (nm_calls x)) x)
  else mret tt.

(** A call from compiled code: a site that has no nmethod is resolved by the VM
    and does not enter one here. *)
Definition call_site (t : nat) (site : Z) : M VM unit :=
  c ← top_nmethod t;
  calls ← field c nm_calls;
  match calls !! site with Some d => about_to_enter t d | None => mret tt end.
(** A call through the entry points of a method. *)
Definition call_method (t : nat) (m : Z) : M VM unit :=
  code ← method_code m;
  if code =? 0 then mret tt else about_to_enter t code.
(** [JavaCalls::call_helper] with an alternative target; the transition to Java
    that follows is taken not to stop at a safepoint. *)
Definition call_installed (t : nat) (alternative_target : Z) : M VM unit :=
  alive ← field alternative_target is_alive;
  if alive : bool then about_to_enter t alternative_target else mret tt.
(** The thread reaches the entry point. *)
Definition enter (t : nat) : M VM unit :=
  th ← get_thread t;
  match t_pending th with
  | None => mret tt
  | Some n =>
      p ← field n nm_patched;
      set_thread t (mkThread (if p : bool then t_stack th else n :: t_stack th) None)
  end.
(** The last frame returns to the code of the frame below. *)
Definition return_ (t : nat) : M VM unit :=
  th ← get_thread t;
  match t_stack th with
  | [] => mret tt
  | _ :: rest =>
      set_thread t (mkThread rest (t_pending th));;
      match rest with c :: _ => field c nm_state;; mret tt | [] => mret tt end
  end.

(** ** Steps *)

Inductive Step :=
| Start_thread (t : nat)
| Register (n m size : Z) (osr native c2 default_code : bool)
| Code_cache_full (wait_over : bool)
| Call_site (t : nat) (site : Z)
| Call_method (t : nat) (m : Z)
| Call_osr (t : nat) (n : Z)
| Call_installed (t : nat) (n : Z)
| Enter (t : nat)
| Return (t : nat)
| Resolve (t : nat) (site m : Z)
| Clean_site (n site : Z)
| Deoptimize (n : Z)
| Lock (n : Z) (zombie_ok : bool)
| Unlock (n : Z)
| Safepoint
| Unload (l : list Z)
| Possibly_sweep (wait_over : bool)
| Sweep_next (below_threshold : Z → bool).

Definition is_nmethod (P : nmethod → bool) (n : Z) (s : VM) : bool :=
  match vm_nms s !! n with Some x => P x | None => false end.
Definition no_pending (s : VM) : bool :=
  forallb (λ p, bool_decide (t_pending p.2 = None)) (map_to_list (vm_threads s)).
Definition running (t : nat) (s : VM) : bool :=
  match vm_threads s !! t with Some th => bool_decide (t_pending th = None) | None => false end.
Definition in_code (t : nat) (s : VM) : bool :=
  match vm_threads s !! t with
  | Some (mkThread (_ :: _) None) => true
  | _ => false
  end.

(** Can the VM do the step?  A thread calls when it is not in the middle of a
    call; a safepoint stops every thread outside of one; the collector unloads
    code that is alive and not on a stack; who locks or closes an nmethod has
    one that is there. *)
Definition enabled (st : Step) (s : VM) : bool :=
  match st with
  | Start_thread t => bool_decide (vm_threads s !! t = None)
  | Register n m _ _ _ _ _ => (0 <? n) && bool_decide (vm_nms s !! n = None) && negb (m =? 0)
  | Call_site t _ | Resolve t _ _ => in_code t s
  | Call_method t _ => running t s
  | Call_osr t n => running t s && is_nmethod (λ x, nm_is_osr x && is_in_use x) n s
  | Call_installed t n => running t s && is_nmethod (λ x, negb (nm_is_osr x)) n s
  | Enter t => bool_decide (is_Some (vm_threads s !! t))
  | Return t => running t s
  | Clean_site n _ => is_nmethod is_alive n s
  | Deoptimize n => is_nmethod is_alive n s
  | Lock n zombie_ok => is_nmethod (λ x, zombie_ok || negb (is_zombie x)) n s
  | Unlock n => bool_decide (n ∈ vm_locks s)
  | Safepoint => no_pending s
  | Unload l =>
      no_pending s && bool_decide (NoDup l)
      && forallb (λ n, is_nmethod is_alive n s && bool_decide (n ∉ activations (vm_threads s))) l
  | Sweep_next _ => bool_decide (is_Some (sw_loop (vm_sweeper s)))
  | Code_cache_full _ | Possibly_sweep _ => true
  end.

Definition exec (st : Step) : M VM unit :=
  match st with
  | Start_thread t => set_thread t (mkThread [] None)
  | Register n m size osr native c2 default_code => register_method n m size osr native c2 default_code
  | Code_cache_full w => handle_full_code_cache w
  | Call_site t site => call_site t site
  | Call_method t m => call_method t m
  | Call_osr t n => about_to_enter t n
  | Call_installed t n => call_installed t n
  | Enter t => enter t
  | Return t => return_ t
  | Resolve t site m => resolve_sub_helper t site m
  | Clean_site n site => update n (λ x, nm_set_calls (delete site (nm_calls x)) x)
  | Deoptimize n => make_not_entrant n;; mret tt
  | Lock n zombie_ok => lock_nmethod n zombie_ok;; modify (λ s, vm_set_locks (n :: vm_locks s) s)
  | Unlock n => unlock_nmethod n;; modify (λ s, vm_set_locks (list_remove_one n (vm_locks s)) s)
  | Safepoint => mark_active_nmethods
  | Unload l => mforeach make_unloaded l;; gc_epilogue
  | Possibly_sweep w => possibly_sweep w
  | Sweep_next below =>
      l ← static sw_loop;
      match l with Some l => sweep_next below l | None => mret tt end
  end.

(** The steps the VM cannot do are skipped. *)
Definition step (st : Step) : M VM unit := λ s, if enabled st s then exec st s else Some (tt, s).
Definition run (l : list Step) : M VM unit := mforeach step l.

Definition initial : VM :=
  mkVM ∅ ∅ ∅ [] (mkSweeper 0 0 0 0 0 0 0 0 0 true 0 0 0 0 0 0 None) false true.

End sweeper.
