(* ===== verification/SweeperInvariant.v ===== *)
(** * The sweeper: the invariant of the code cache

    The part of the state that safety depends on, weakest preconditions over it,
    and the invariant with the state changes and the visits of the sweeper that
    keep it. *)

From stdpp Require Import base gmap list.
From S2P Require Import Prelude Sweeper.

Local Open Scope Z_scope.

Section invariant.
Context `{F : Flags}.

(** ** The part of the state that safety depends on *)

Record Core := mkCore {
  c_nms : gmap Z nmethod;
  c_code : gmap Z Z;
  c_threads : gmap nat jthread;
  c_locks : list Z;
  c_traversals : Z;
  c_current : Z;
  c_fractions : Z;
  c_started : Z;
  c_loop : bool;
  c_clean : bool
}.
Definition core (s : VM) : Core :=
  mkCore (vm_nms s) (vm_code s) (vm_threads s) (vm_locks s) (sw_traversals (vm_sweeper s))
    (sw_current (vm_sweeper s)) (sw_sweep_fractions_left (vm_sweeper s)) (sw_sweep_started (vm_sweeper s)) (bool_decide (is_Some (sw_loop (vm_sweeper s)))) (vm_needs_cache_clean s).
Definition c_set_nms v k := mkCore v (c_code k) (c_threads k) (c_locks k) (c_traversals k) (c_current k) (c_fractions k) (c_started k) (c_loop k) (c_clean k).
Definition c_set_code v k := mkCore (c_nms k) v (c_threads k) (c_locks k) (c_traversals k) (c_current k) (c_fractions k) (c_started k) (c_loop k) (c_clean k).
Definition c_set_threads v k := mkCore (c_nms k) (c_code k) v (c_locks k) (c_traversals k) (c_current k) (c_fractions k) (c_started k) (c_loop k) (c_clean k).
Definition c_set_locks v k := mkCore (c_nms k) (c_code k) (c_threads k) v (c_traversals k) (c_current k) (c_fractions k) (c_started k) (c_loop k) (c_clean k).
Definition c_set_traversals v k := mkCore (c_nms k) (c_code k) (c_threads k) (c_locks k) v (c_current k) (c_fractions k) (c_started k) (c_loop k) (c_clean k).
Definition c_set_current v k := mkCore (c_nms k) (c_code k) (c_threads k) (c_locks k) (c_traversals k) v (c_fractions k) (c_started k) (c_loop k) (c_clean k).
Definition c_set_fractions v k := mkCore (c_nms k) (c_code k) (c_threads k) (c_locks k) (c_traversals k) (c_current k) v (c_started k) (c_loop k) (c_clean k).
Definition c_set_started v k := mkCore (c_nms k) (c_code k) (c_threads k) (c_locks k) (c_traversals k) (c_current k) (c_fractions k) v (c_loop k) (c_clean k).
Definition c_set_loop v k := mkCore (c_nms k) (c_code k) (c_threads k) (c_locks k) (c_traversals k) (c_current k) (c_fractions k) (c_started k) v (c_clean k).
Definition c_set_clean v k := mkCore (c_nms k) (c_code k) (c_threads k) (c_locks k) (c_traversals k) (c_current k) (c_fractions k) (c_started k) (c_loop k) v.

(** From every state with core [k], [m] succeeds with a result and a core as in
    [Q]. *)
Definition wp {A} (m : M VM A) (k : Core) (Q : A → Core → Prop) : Prop :=
  ∀ s, core s = k → ∃ r s', m s = Some (r, s') ∧ Q r (core s').

Lemma wp_ret {A} (x : A) k Q : Q x k → wp (mret x) k Q.
Proof. intros HQ s <-. by exists x, s. Qed.
Lemma wp_bind {A B} (m : M VM A) (f : A → M VM B) k Q :
  wp m k (λ a k', wp (f a) k' Q) → wp (m ≫= f) k Q.
Proof.
  intros Hm s Hs. destruct (Hm s Hs) as (a & s1 & E1 & Hf). destruct (Hf s1 eq_refl) as (b & s2 & E2 & HQ).
  exists b, s2. split; [|done]. by rewrite (M_bind_Some _ _ _ _ _ E1).
Qed.
Lemma wp_mono {A} (m : M VM A) k (Q Q' : A → Core → Prop) :
  wp m k Q → (∀ a k', Q a k' → Q' a k') → wp m k Q'.
Proof. intros Hm HQ s Hs. destruct (Hm s Hs) as (r & s' & E & H). exists r, s'. auto. Qed.
Lemma wp_static {A} (f : NMethodSweeper → A) k (Q : A → Core → Prop) : (∀ v, Q v k) → wp (static f) k Q.
Proof. intros HQ s <-. by eexists _, s. Qed.
Lemma wp_traversals k (Q : Z → Core → Prop) : Q (c_traversals k) k → wp (static sw_traversals) k Q.
Proof. intros HQ s <-. by eexists _, s. Qed.
Lemma wp_current k (Q : Z → Core → Prop) : Q (c_current k) k → wp (static sw_current) k Q.
Proof. intros HQ s <-. by eexists _, s. Qed.
Lemma wp_reads_any {A} (f : VM → A) k (Q : A → Core → Prop) : (∀ v, Q v k) → wp (reads f) k Q.
Proof. intros HQ s <-. by eexists _, s. Qed.
Lemma wp_reads {A} (g : Core → A) (f : VM → A) k (Q : A → Core → Prop) :
  (∀ s, f s = g (core s)) → Q (g k) k → wp (reads f) k Q.
Proof. intros Hf HQ s <-. eexists _, s. split; [done|]. by rewrite Hf. Qed.
Lemma wp_modify (g : Core → Core) f k (Q : unit → Core → Prop) :
  (∀ s, core (f s) = g (core s)) → Q tt (g k) → wp (modify f) k Q.
Proof. intros Hf HQ s <-. exists tt, (f s). split; [done|]. by rewrite Hf. Qed.
(** The statics that the core has are those [same] is about. *)
Definition same (w w' : NMethodSweeper) : Prop :=
  sw_traversals w' = sw_traversals w ∧ sw_current w' = sw_current w ∧
  sw_sweep_fractions_left w' = sw_sweep_fractions_left w ∧ sw_sweep_started w' = sw_sweep_started w ∧
  sw_loop w' = sw_loop w.
Lemma wp_set_static g k (Q : unit → Core → Prop) : (∀ w, same w (g w)) → Q tt k → wp (set_static g) k Q.
Proof.
  intros Hg HQ. apply (wp_modify id); [|done]. intros s. unfold core. cbn.
  by destruct (Hg (vm_sweeper s)) as (-> & -> & -> & -> & ->).
Qed.
Lemma wp_fractions k (Q : Z → Core → Prop) : Q (c_fractions k) k → wp (static sw_sweep_fractions_left) k Q.
Proof. intros HQ s <-. by eexists _, s. Qed.
Lemma wp_started k (Q : Z → Core → Prop) : Q (c_started k) k → wp (static sw_sweep_started) k Q.
Proof. intros HQ s <-. by eexists _, s. Qed.
Lemma wp_loop k (Q : option SweepLoop → Core → Prop) :
  (∀ l, c_loop k = bool_decide (is_Some l) → Q l k) → wp (static sw_loop) k Q.
Proof. intros HQ s <-. eexists _, s. split; [done|]. by apply HQ. Qed.
Lemma wp_field {A} n (f : nmethod → A) x k Q :
  c_nms k !! n = Some x → Q (f x) k → wp (field n f) k Q.
Proof. intros Hx HQ s <-. exists (f x), s. unfold field. cbn in Hx. by rewrite Hx. Qed.
Lemma wp_update n f x k (Q : unit → Core → Prop) :
  c_nms k !! n = Some x → Q tt (c_set_nms (<[n := f x]> (c_nms k)) k) → wp (update n f) k Q.
Proof.
  intros Hx HQ s <-. cbn in Hx. unfold update. rewrite Hx. by eexists _, _.
Qed.
Lemma wp_massert b k (Q : unit → Core → Prop) : b = true → Q tt k → wp (massert b) k Q.
Proof. intros -> HQ. by apply wp_ret. Qed.
Lemma wp_mforeach {A} (f : A → M VM unit) (I : list A → Core → Prop) l k :
  (∀ a r k', I (a :: r) k' → wp (f a) k' (λ _ k'', I r k'')) →
  I l k → wp (mforeach f l) k (λ _ k', I [] k').
Proof.
  intros Hf. revert k. induction l as [|a l IH]; intros k Hk; cbn [mforeach]; [by apply wp_ret|].
  apply wp_bind. eapply wp_mono; [exact (Hf _ _ _ Hk)|]. intros [] k' Hk'. by apply IH.
Qed.

(** A noisy computation: it changes nothing that matters here. *)
Lemma wp_possibly_enable_sweeper k (Q : unit → Core → Prop) : Q tt k → wp possibly_enable_sweeper k Q.
Proof.
  intros HQ. apply wp_bind, wp_static. intros b. destruct (percent_changed_gt_1 b); [|by apply wp_ret].
  by apply wp_set_static.
Qed.
Lemma wp_add_bytes_changed n x k (Q : unit → Core → Prop) :
  c_nms k !! n = Some x → Q tt k → wp (add_bytes_changed n) k Q.
Proof.
  intros Hx HQ. eapply wp_bind, wp_field; [done|]. apply wp_bind, wp_static. intros b. by apply wp_set_static.
Qed.
Lemma wp_report_state_change n x k (Q : unit → Core → Prop) :
  c_nms k !! n = Some x → Q tt k → wp (report_state_change n) k Q.
Proof.
  intros Hx HQ. eapply wp_bind, wp_add_bytes_changed; [done|]. by apply wp_possibly_enable_sweeper.
Qed.
Lemma wp_incr get put k (Q : unit → Core → Prop) :
  (∀ v w, same w (put v w)) →
  Q tt k → wp (incr get put) k Q.
Proof. intros Hp HQ. apply wp_bind, wp_static. intros c. by apply wp_set_static. Qed.
Lemma wp_method_code m k (Q : Z → Core → Prop) : Q (code_of (c_code k) m) k → wp (method_code m) k Q.
Proof. by apply (wp_reads (λ k, code_of (c_code k) m)). Qed.

(** ** The invariant

    [zt n] is the traversal in which the nmethod at [n] became a zombie, [V] the
    nmethods the sweeper has visited since the last traversal. *)

Definition alive (x : nmethod) : Prop := nm_state x = in_use ∨ nm_state x = not_entrant.
(** A frame of [x] may be on a stack: if [x] is not entrant the last traversal
    has seen it. *)
Definition active (T : Z) (x : nmethod) : Prop :=
  alive x ∧ (nm_state x = not_entrant → nm_stack_traversal_mark x = T).
(** The nmethod [y] at [d] may be the destination of a call in [c]. *)
Definition callable (V : Z → Prop) (zt : Z → Z) (T c d : Z) (y : nmethod) : Prop :=
  nm_is_osr y = false ∧ (nm_patched y = false → nm_state y = in_use) ∧
  (nm_state y = zombie → zt d = T ∨ (zt d + 1 = T ∧ ¬ V c)).
(** A thread may be about to enter the nmethod [x] at [n]. *)
Definition enterable (zt : Z → Z) (T n : Z) (x : nmethod) : Prop :=
  (nm_patched x = false → active T x) ∧ (nm_state x = zombie → T ≤ zt n + 1).
(** The nmethod [x] at [n] by itself. *)
Record fine (V : Z → Prop) (zt : Z → Z) (T : Z) (n : Z) (x : nmethod) : Prop := {
  fine_addr : 0 < n;
  fine_mark : 0 ≤ nm_stack_traversal_mark x ≤ T;
  fine_zombie : nm_state x = zombie → zt n ≤ T ∧ (zt n = T → V n);
  fine_marked : nm_marked_for_reclamation x = true →
    nm_state x = zombie ∧ zt n + 1 ≤ T ∧ (zt n + 1 = T → V n);
  fine_osr : nm_is_osr x = true → nm_patched x = false;
  fine_patched : nm_is_osr x = false → nm_state x = not_entrant ∨ nm_state x = zombie → nm_patched x = true;
  fine_method : nm_state x = in_use → nm_method x ≠ 0
}.
Definition stacked (k : Core) (n : Z) : Prop := ∃ t th, c_threads k !! t = Some th ∧ n ∈ t_stack th.
Definition awaited (k : Core) (n : Z) : Prop := ∃ t th, c_threads k !! t = Some th ∧ t_pending th = Some n.
(** The code of the method [m] is the nmethod [x]. *)
Definition published (m : Z) (x : nmethod) : Prop :=
  nm_state x = in_use ∧ nm_is_osr x = false ∧ nm_method x = m.
Definition times (l : list Z) (n : Z) : Z := Z.of_nat (length (filter (λ m, m = n) l)).
Definition holders (k : Core) (n : Z) : Z := times (c_locks k) n.

Record ok (V : Z → Prop) (zt : Z → Z) (k : Core) : Prop := {
  ok_fine : ∀ n x, c_nms k !! n = Some x → fine V zt (c_traversals k) n x;
  ok_stack : ∀ n, stacked k n → ∃ x, c_nms k !! n = Some x ∧ active (c_traversals k) x;
  ok_wait : ∀ n, awaited k n → ∃ x, c_nms k !! n = Some x ∧ enterable zt (c_traversals k) n x;
  ok_calls : ∀ c x site d, c_nms k !! c = Some x → alive x → nm_calls x !! site = Some d →
    ∃ y, c_nms k !! d = Some y ∧ callable V zt (c_traversals k) c d y;
  ok_code : ∀ m n, c_code k !! m = Some n → ∃ x, c_nms k !! n = Some x ∧ published m x;
  ok_count : ∀ n x, c_nms k !! n = Some x → nm_lock_count x = holders k n;
  ok_locks : ∀ n, n ∈ c_locks k → is_Some (c_nms k !! n)
}.

Lemma is_alive_spec x : is_alive x = true ↔ alive x.
Proof. unfold is_alive, is_in_use, is_not_entrant, alive. rewrite orb_true_iff, !bool_decide_eq_true. done. Qed.

(** Another nmethod in the place of the one at [n], which the sweeper may visit
    at the same time. *)
Lemma ok_alter_visit V V' zt zt' k n x x' :
  ok V zt k → c_nms k !! n = Some x →
  (∀ m, V m → V' m) → (∀ m, m ≠ n → V' m → V m) → (∀ m, m ≠ n → zt' m = zt m) →
  fine V' zt' (c_traversals k) n x' →
  (stacked k n → active (c_traversals k) x') →
  (awaited k n → enterable zt' (c_traversals k) n x') →
  (∀ c, c ≠ n → callable V zt (c_traversals k) c n x → callable V' zt' (c_traversals k) c n x') →
  (alive x' → ∀ site d, nm_calls x' !! site = Some d →
    ∃ y, <[n := x']> (c_nms k) !! d = Some y ∧ callable V' zt' (c_traversals k) n d y) →
  (∀ m, c_code k !! m = Some n → published m x') →
  nm_lock_count x' = nm_lock_count x →
  ok V' zt' (c_set_nms (<[n := x']> (c_nms k)) k).
Proof.
  intros Hok Hx HV HV' Hzt Hfine Hstk Hwait Hcall Hcalls Hcode Hlock.
  assert (∀ m y, m ≠ n → c_nms k !! m = Some y → <[n := x']> (c_nms k) !! m = Some y) as Hne.
  { intros m y Hmn Hy. by rewrite lookup_insert_ne by congruence. }
  split; cbn [c_nms c_code c_threads c_locks c_traversals c_set_nms].
  - intros m y [[<- <-]|[Hmn Hy]]%lookup_insert_Some; [done|]. apply (ok_fine _ _ _ Hok) in Hy as [].
    split; try done; rewrite (Hzt m) by congruence; naive_solver.
  - intros m Hm. destruct (decide (m = n)) as [->|Hmn]; [rewrite lookup_insert_eq; eauto|].
    destruct (ok_stack _ _ _ Hok m Hm) as (y & Hy & Ha). eauto.
  - intros m Hm. destruct (decide (m = n)) as [->|Hmn]; [rewrite lookup_insert_eq; eauto|].
    destruct (ok_wait _ _ _ Hok m Hm) as (y & Hy & Ha). exists y. unfold enterable in *. rewrite (Hzt m Hmn). eauto.
  - intros c y site d [[<- <-]|[Hcn Hy]]%lookup_insert_Some Ha Hd; [eauto|].
    destruct (ok_calls _ _ _ Hok _ _ _ _ Hy Ha Hd) as (z & Hy' & Hc). destruct (decide (d = n)) as [->|Hdn].
    + rewrite lookup_insert_eq. exists x'. split; [done|]. apply Hcall; congruence.
    + exists z. rewrite (Hne _ _ Hdn Hy'). split; [done|]. unfold callable in *. rewrite (Hzt d Hdn).
      destruct Hc as (Ho & Hp & Hz'). split_and!; [done..|]. intros [?|[? HVc]]%Hz'; [by left|].
      right. split; [done|]. intros ?%HV'; [done|congruence].
  - intros m d Hd. destruct (decide (d = n)) as [->|Hdn]; [rewrite lookup_insert_eq; eauto|].
    destruct (ok_code _ _ _ Hok m d Hd) as (y & Hy & Hp). eauto.
  - intros m y [[<- <-]|[Hmn Hy]]%lookup_insert_Some; [rewrite Hlock|]; by apply (ok_count _ _ _ Hok).
  - intros m Hm. destruct (decide (m = n)) as [->|Hmn]; [by rewrite lookup_insert_eq|].
    rewrite lookup_insert_ne by congruence. by apply (ok_locks _ _ _ Hok).
Qed.

(** The same without a visit, and with no new destination. *)
Lemma ok_alter V zt k n x x' :
  ok V zt k → c_nms k !! n = Some x →
  fine V zt (c_traversals k) n x' →
  (stacked k n → active (c_traversals k) x') →
  (awaited k n → enterable zt (c_traversals k) n x') →
  (∀ c, callable V zt (c_traversals k) c n x → callable V zt (c_traversals k) c n x') →
  (alive x' → alive x ∧ ∀ site d, nm_calls x' !! site = Some d → ∃ site', nm_calls x !! site' = Some d) →
  (∀ m, c_code k !! m = Some n → published m x') →
  nm_lock_count x' = nm_lock_count x →
  ok V zt (c_set_nms (<[n := x']> (c_nms k)) k).
Proof.
  intros Hok Hx Hfine Hstk Hwait Hcall Hcalls Hcode Hlock. eapply ok_alter_visit; eauto.
  intros Ha site d Hd. destruct (Hcalls Ha) as [Hax Hsub]. destruct (Hsub _ _ Hd) as (site' & Hd').
  destruct (ok_calls _ _ _ Hok _ _ _ _ Hx Hax Hd') as (y & Hy & Hc).
  destruct (decide (d = n)) as [->|Hdn].
  - rewrite lookup_insert_eq. exists x'. split; [done|]. apply Hcall. congruence.
  - exists y. by rewrite lookup_insert_ne by congruence.
Qed.

(** Changes that the invariant does not see. *)
Lemma ok_alter_same V zt k n x x' :
  ok V zt k → c_nms k !! n = Some x →
  nm_state x' = nm_state x → nm_stack_traversal_mark x' = nm_stack_traversal_mark x →
  nm_marked_for_reclamation x' = nm_marked_for_reclamation x → nm_is_osr x' = nm_is_osr x →
  nm_patched x' = nm_patched x → nm_method x' = nm_method x → nm_lock_count x' = nm_lock_count x →
  (∀ site d, nm_calls x' !! site = Some d → ∃ site', nm_calls x !! site' = Some d) →
  ok V zt (c_set_nms (<[n := x']> (c_nms k)) k).
Proof.
  intros Hok Hx Hs Hm Hr Ho Hp Hme Hl Hc.
  eapply ok_alter; try done; unfold enterable, callable, active, alive, published; rewrite ?Hs, ?Hm, ?Ho, ?Hp, ?Hme.
  - destruct (ok_fine _ _ _ Hok _ _ Hx). split; rewrite ?Hs, ?Hm, ?Hr, ?Ho, ?Hp, ?Hme; done.
  - intros Hst. destruct (ok_stack _ _ _ Hok n Hst) as (y & Hy & Ha). by simplify_eq.
  - intros Hst. destruct (ok_wait _ _ _ Hok n Hst) as (y & Hy & Ha). by simplify_eq.
  - naive_solver.
  - naive_solver.
  - intros m Hcd. destruct (ok_code _ _ _ Hok m n Hcd) as (y & Hy & Ha). by simplify_eq.
Qed.

(** No call of the nmethod at [n] leads to a zombie. *)
Definition harmless (k : Core) (n : Z) : Prop :=
  ∀ x site d y, c_nms k !! n = Some x → alive x → nm_calls x !! site = Some d →
    c_nms k !! d = Some y → nm_state y ≠ zombie.
Lemma ok_visit V zt k n :
  ok V zt k → harmless k n → ok (λ m, V m ∨ m = n) zt k.
Proof.
  intros Hok Hh. split; try apply Hok.
  - intros m y Hy. destruct (ok_fine _ _ _ Hok _ _ Hy). split; naive_solver.
  - intros c x site d Hx Ha Hd. destruct (ok_calls _ _ _ Hok _ _ _ _ Hx Ha Hd) as (y & Hy & Ho & Hp & Hz).
    exists y. split; [done|]. split_and!; [done..|]. intros Hzy. destruct (Hz Hzy) as [?|[? HV]]; [by left|].
    right. split; [done|]. intros [?| ->]; [done|]. by apply (Hh _ _ _ _ Hx Ha Hd Hy).
Qed.
Lemma dead_harmless k n x : c_nms k !! n = Some x → ¬ alive x → harmless k n.
Proof. intros Hx Hd y ???? Ha. naive_solver. Qed.

Lemma keeps_call_in_use nms code d y : keeps_call nms code d = true → nms !! d = Some y → nm_state y = in_use.
Proof. unfold keeps_call. intros H Hy. rewrite Hy in H. apply andb_true_iff in H as [H _]. by apply bool_decide_eq_true in H. Qed.

Lemma wp_cleanup V zt k n x :
  ok V zt k → c_nms k !! n = Some x →
  wp (cleanup_inline_caches n) k (λ _ k', ∃ calls, k' = c_set_nms (<[n := nm_set_calls calls x]> (c_nms k)) k ∧
    ok V zt k' ∧ harmless k' n).
Proof.
  intros Hok Hx. apply wp_bind, (wp_reads (λ k, keeps_call (c_nms k) (c_code k))); [done|].
  eapply wp_update; [done|]. cbn. eexists. split; [done|]. split.
  - eapply ok_alter_same; try done. cbn. intros site d [Hd _]%map_lookup_filter_Some. eauto.
  - intros x' site d y. cbn. rewrite lookup_insert_eq. intros [= <-] _ [_ Hk]%map_lookup_filter_Some Hy. cbn in Hk.
    destruct (decide (d = n)) as [->|Hdn].
    + rewrite lookup_insert_eq in Hy. injection Hy as <-. cbn. by rewrite (keeps_call_in_use _ _ _ _ Hk Hx).
    + rewrite lookup_insert_ne in Hy by congruence. by rewrite (keeps_call_in_use _ _ _ _ Hk Hy).
Qed.

(** ** State changes keep the invariant *)

(** The number of locks and of traversals is far from the width of the counters. *)
Definition bounded (k : Core) : Prop :=
  Z.of_nat (length (c_locks k)) < 2 ^ 31 - 1 ∧ 0 ≤ c_traversals k < 2 ^ 31.

Lemma holders_range k n : bounded k → 0 ≤ holders k n < 2 ^ 31 - 1.
Proof.
  intros [Hb _]. unfold holders, times. pose proof (length_filter (λ m, m = n) (c_locks k)). lia.
Qed.
Lemma s32_id c : 0 ≤ c < 2 ^ 31 → s32 c = c.
Proof. intros Hc. apply wrapS_id; [lia|]. unfold in_s. lia. Qed.

Definition patch (x : nmethod) : nmethod :=
  if negb (nm_is_osr x) && negb (is_not_entrant x) then nm_set_patched true x else x.
Definition closed (T : Z) (x : nmethod) : nmethod :=
  nm_set_state not_entrant (nm_set_stack_traversal_mark T (patch x)).
Definition buried (x : nmethod) : nmethod := nm_set_method 0 (nm_set_state zombie (patch x)).
(** The code of the methods without the nmethod [x] at [n]. *)
Definition unpublished (n : Z) (x : nmethod) (code : gmap Z Z) : gmap Z Z :=
  if negb (nm_method x =? 0) && (code_of code (nm_method x) =? n) then delete (nm_method x) code else code.

Lemma unpublished_sub n x code m d : unpublished n x code !! m = Some d → code !! m = Some d.
Proof. unfold unpublished. case_match; [|done]. by intros [_ ?]%lookup_delete_Some. Qed.
Lemma unpublished_gone V zt k n x m :
  ok V zt k → c_nms k !! n = Some x → unpublished n x (c_code k) !! m ≠ Some n.
Proof.
  intros Hok Hx Hm. pose proof (unpublished_sub _ _ _ _ _ Hm) as Hc.
  destruct (ok_code _ _ _ Hok m n Hc) as (y & Hy & Hu & _ & Hmm). simplify_eq.
  pose proof (fine_method _ _ _ _ _ (ok_fine _ _ _ Hok _ _ Hx) Hu) as H0.
  revert Hm. unfold unpublished, code_of. rewrite Hc. cbn. rewrite Z.eqb_refl.
  rewrite (proj2 (Z.eqb_neq _ _) H0). cbn. by rewrite lookup_delete_eq.
Qed.

Lemma ok_set_code V zt k code' :
  ok V zt k → (∀ m d, code' !! m = Some d → c_code k !! m = Some d) → ok V zt (c_set_code code' k).
Proof. intros [] Hsub. split; try done. cbn. eauto. Qed.

(** A computation between a lock and its release. *)
Lemma wp_lock n zombie_ok x k (Q : unit → Core → Prop) :
  0 < n → c_nms k !! n = Some x → (zombie_ok = true ∨ nm_state x ≠ zombie) →
  Q tt (c_set_nms (<[n := nm_set_lock_count (s32 (nm_lock_count x + 1)) x]> (c_nms k)) k) →
  wp (lock_nmethod n zombie_ok) k Q.
Proof.
  intros Hn Hx Hz HQ. unfold lock_nmethod. rewrite (proj2 (Z.eqb_neq n 0)) by lia.
  eapply wp_bind, wp_update; [done|].
  eapply wp_bind, wp_field; [cbn; apply lookup_insert_eq|]. apply wp_massert; [|done].
  unfold is_zombie. cbn. destruct Hz as [-> | Hz]; [done|]. rewrite bool_decide_eq_false_2 by done. by destruct zombie_ok.
Qed.
Lemma wp_unlock n x k (Q : unit → Core → Prop) :
  0 < n → c_nms k !! n = Some x → 0 ≤ s32 (nm_lock_count x - 1) →
  Q tt (c_set_nms (<[n := nm_set_lock_count (s32 (nm_lock_count x - 1)) x]> (c_nms k)) k) →
  wp (unlock_nmethod n) k Q.
Proof.
  intros Hn Hx Hz HQ. unfold unlock_nmethod. rewrite (proj2 (Z.eqb_neq n 0)) by lia.
  eapply wp_bind, wp_update; [done|].
  eapply wp_bind, wp_field; [cbn; apply lookup_insert_eq|]. apply wp_massert; [|done]. cbn. lia.
Qed.
Lemma set_lock_same x : nm_set_lock_count (nm_lock_count x) x = x.
Proof. by destruct x. Qed.
Lemma c_set_nms_same k : c_set_nms (c_nms k) k = k.
Proof. by destruct k. Qed.

Lemma wp_unlink_code n x k (Q : unit → Core → Prop) :
  Q tt (c_set_code (unpublished n x (c_code k)) k) → wp (unlink_code n x) k Q.
Proof.
  intros HQ. apply wp_bind, wp_method_code. revert HQ. unfold unpublished. case_match; intros HQ.
  - by apply (wp_modify (λ k, c_set_code (delete (nm_method x) (c_code k)) k)).
  - apply wp_ret. by destruct k.
Qed.

(** The two transitions, from the nmethod [y] that [x] has become under the lock. *)
Lemma wp_patch n x y k (Q : unit → Core → Prop) :
  c_nms k !! n = Some y → nm_is_osr y = nm_is_osr x → nm_state y = nm_state x →
  Q tt (c_set_nms (<[n := patch y]> (c_nms k)) k) →
  wp (if negb (nm_is_osr x) && negb (is_not_entrant x) then update n (nm_set_patched true) else mret tt) k Q.
Proof.
  intros Hy Ho Hs. unfold patch, is_not_entrant. rewrite Ho, Hs. case_match; intros HQ.
  - by eapply wp_update.
  - apply wp_ret. by rewrite insert_id, c_set_nms_same in HQ.
Qed.
Lemma patch_state x : nm_state (patch x) = nm_state x.
Proof. unfold patch. by case_match. Qed.
Lemma wp_transition_not_entrant n x y k (Q : unit → Core → Prop) :
  c_nms k !! n = Some y → nm_is_osr y = nm_is_osr x → nm_state y = nm_state x → nm_state x = in_use →
  Q tt (c_set_code (unpublished n x (c_code k)) (c_set_nms (<[n := closed (c_traversals k) y]> (c_nms k)) k)) →
  wp (transition n x not_entrant) k Q.
Proof.
  intros Hy Ho Hs Hu HQ. eapply wp_bind, wp_patch; [done..|]. apply wp_bind.
  rewrite bool_decide_eq_true_2 by done.
  eapply wp_bind, wp_field; [cbn; apply lookup_insert_eq|]. apply wp_bind, wp_massert.
  { apply is_alive_spec. left. by rewrite patch_state, Hs. }
  apply wp_bind, wp_traversals. eapply wp_update; [cbn; apply lookup_insert_eq|]. cbn.
  eapply wp_bind, wp_update; [cbn; apply lookup_insert_eq|]. cbn. rewrite !insert_insert_eq.
  apply wp_bind, wp_unlink_code, wp_bind, wp_ret. cbn.
  eapply wp_report_state_change; [cbn; apply lookup_insert_eq|]. exact HQ.
Qed.
Lemma wp_transition_zombie n x y k (Q : unit → Core → Prop) :
  c_nms k !! n = Some y → nm_is_osr y = nm_is_osr x → nm_state y = nm_state x →
  Q tt (c_set_code (unpublished n x (c_code k)) (c_set_nms (<[n := buried y]> (c_nms k)) k)) →
  wp (transition n x zombie) k Q.
Proof.
  intros Hy Ho Hs HQ. eapply wp_bind, wp_patch; [done..|]. apply wp_bind, wp_ret. cbn.
  eapply wp_bind, wp_update; [cbn; apply lookup_insert_eq|]. cbn.
  apply wp_bind, wp_unlink_code, wp_bind. cbn.
  eapply wp_update; [cbn; apply lookup_insert_eq|]. cbn. rewrite !insert_insert_eq.
  eapply wp_report_state_change; [cbn; apply lookup_insert_eq|]. exact HQ.
Qed.

(** The nmethod [f y] for a transition [f] and the release of the lock. *)
Lemma lock_roundtrip V zt k n x :
  ok V zt k → bounded k → c_nms k !! n = Some x →
  s32 (s32 (nm_lock_count x + 1) - 1) = nm_lock_count x ∧ 0 ≤ nm_lock_count x.
Proof.
  intros Hok Hb Hx. rewrite (ok_count _ _ _ Hok _ _ Hx). pose proof (holders_range k n Hb).
  rewrite (s32_id (_ + 1)) by lia. rewrite s32_id by lia. lia.
Qed.
Lemma wp_make_not_entrant V zt k n x (Q : bool → Core → Prop) :
  ok V zt k → bounded k → c_nms k !! n = Some x → alive x →
  (nm_state x = not_entrant → Q false k) →
  (nm_state x = in_use → Q true
     (c_set_code (unpublished n x (c_code k)) (c_set_nms (<[n := closed (c_traversals k) x]> (c_nms k)) k))) →
  wp (make_not_entrant n) k Q.
Proof.
  intros Hok Hb Hx Ha HQ1 HQ2. pose proof (fine_addr _ _ _ _ _ (ok_fine _ _ _ Hok _ _ Hx)) as Hn.
  destruct (lock_roundtrip _ _ _ _ _ Hok Hb Hx) as [Hrt H0].
  apply wp_bind, wp_massert; [done|]. eapply wp_bind, wp_field; [done|]. cbn [id].
  assert (nm_state x ≠ zombie) as Hz by (destruct Ha; congruence).
  apply wp_bind, wp_massert; [unfold is_zombie; by rewrite bool_decide_eq_false_2|].
  eapply wp_bind, wp_lock; [done..|by right|]. destruct Ha as [Hu|Hu]; rewrite Hu.
  - rewrite bool_decide_eq_false_2 by done. eapply wp_bind, wp_transition_not_entrant; [cbn; apply lookup_insert_eq|done..|].
    eapply wp_bind, wp_unlock; [done|cbn; rewrite lookup_insert_eq; done|cbn; unfold patch; case_match; cbn; lia|].
    apply wp_ret. cbn. rewrite !insert_insert_eq.
    replace (nm_set_lock_count _ _) with (closed (c_traversals k) x); [by apply HQ2|].
    unfold closed, patch, is_not_entrant. cbn. case_match; cbn; by rewrite Hrt.
  - rewrite bool_decide_eq_true_2 by done.
    eapply wp_bind, wp_unlock; [done|cbn; apply lookup_insert_eq|cbn; lia|]. apply wp_ret. cbn.
    rewrite insert_insert_eq, Hrt. replace (nm_set_lock_count _ _) with x by (by destruct x).
    rewrite insert_id by done. change (Q false (c_set_nms (c_nms k) k)). rewrite c_set_nms_same. auto.
Qed.
Lemma wp_make_zombie V zt k n x (Q : bool → Core → Prop) :
  ok V zt k → bounded k → c_nms k !! n = Some x → nm_state x ≠ zombie →
  Q true (c_set_code (unpublished n x (c_code k)) (c_set_nms (<[n := buried x]> (c_nms k)) k)) →
  wp (make_zombie n) k Q.
Proof.
  intros Hok Hb Hx Hz HQ. pose proof (fine_addr _ _ _ _ _ (ok_fine _ _ _ Hok _ _ Hx)) as Hn.
  destruct (lock_roundtrip _ _ _ _ _ Hok Hb Hx) as [Hrt H0].
  apply wp_bind, wp_massert; [done|]. eapply wp_bind, wp_field; [done|]. cbn [id].
  apply wp_bind, wp_massert; [unfold is_zombie; by rewrite bool_decide_eq_false_2|].
  eapply wp_bind, wp_lock; [done..|by right|]. rewrite bool_decide_eq_false_2 by done.
  eapply wp_bind, wp_transition_zombie; [cbn; apply lookup_insert_eq|done..|].
  eapply wp_bind, wp_unlock; [done|cbn; rewrite lookup_insert_eq; done|cbn; unfold patch; case_match; cbn; lia|].
  apply wp_ret. cbn. rewrite !insert_insert_eq.
  replace (nm_set_lock_count _ _) with (buried x); [done|].
  unfold buried, patch, is_not_entrant. cbn. case_match; cbn; by rewrite Hrt.
Qed.

Lemma closed_fine V zt T n x :
  0 ≤ T → fine V zt T n x → nm_state x = in_use → fine V zt T n (closed T x).
Proof.
  intros HT Hf Hu. destruct Hf as [Hfa Hfm Hfz Hfr Hfo Hfp Hfd]. unfold closed, patch, is_not_entrant. rewrite Hu, bool_decide_eq_false_2, andb_true_r by done.
  destruct (nm_is_osr x) eqn:Ho; cbn; split; cbn; try done; try lia; try congruence; auto.
  all: intros [? _]%Hfr; congruence.
Qed.
Lemma ok_closed V zt k n x :
  ok V zt k → bounded k → c_nms k !! n = Some x → nm_state x = in_use →
  ok V zt (c_set_code (unpublished n x (c_code k)) (c_set_nms (<[n := closed (c_traversals k) x]> (c_nms k)) k)).
Proof.
  intros Hok [_ Hb] Hx Hu. pose proof (ok_fine _ _ _ Hok _ _ Hx) as Hf.
  apply (ok_alter _ _ (c_set_code (unpublished n x (c_code k)) k) _ x).
  - apply ok_set_code; [done|]. apply unpublished_sub.
  - done.
  - apply closed_fine; [lia|done..].
  - intros _. split; [by right|done].
  - intros _. split; [intros _; split; [by right|done]|done].
  - intros c (Ho & Hp & Hz). unfold callable, closed, patch, is_not_entrant. rewrite Ho, Hu. by cbn.
  - intros _. split; [by left|]. intros site d. unfold closed, patch. case_match; cbn; eauto.
  - intros m Hm. by apply (unpublished_gone _ _ _ _ _ _ Hok Hx) in Hm.
  - unfold closed, patch. by case_match.
Qed.

(** ** A visit of the sweeper *)

Definition visited (V : Z → Prop) (n : Z) : Z → Prop := λ m, V m ∨ m = n.
Definition set_zt (n T : Z) (zt : Z → Z) : Z → Z := λ m, if decide (m = n) then T else zt m.

Lemma buried_osr x : nm_is_osr (buried x) = nm_is_osr x.
Proof. unfold buried, patch. by case_match. Qed.
Lemma buried_lock_count x : nm_lock_count (buried x) = nm_lock_count x.
Proof. unfold buried, patch. by case_match. Qed.
Lemma buried_patched V zt T n x : fine V zt T n x → nm_is_osr x = false → nm_patched (buried x) = true.
Proof.
  intros [] Ho. unfold buried, patch, is_not_entrant. rewrite Ho. cbn. case_bool_decide; cbn; auto.
Qed.
Lemma buried_fine V zt T n x :
  fine V zt T n x → nm_state x ≠ zombie → fine (visited V n) (set_zt n T zt) T n (buried x).
Proof.
  intros Hf Hz. assert (set_zt n T zt n = T) as Ht by (unfold set_zt; by rewrite decide_True).
  split; rewrite ?Ht; try apply Hf.
  - unfold buried, patch. case_match; apply Hf.
  - intros _. split; [done|]. by right.
  - intros Hm. cut (nm_state x = zombie); [done|]. apply Hf. revert Hm. unfold buried, patch. by case_match.
  - rewrite buried_osr. intros Ho. unfold buried, patch. rewrite Ho. cbn. by apply Hf.
  - rewrite buried_osr. intros Ho _. by eapply buried_patched.
  - done.
Qed.
(** An nmethod that is on no stack and that no thread is about to enter without
    being sent away becomes a zombie. *)
Lemma ok_buried V zt k n x :
  ok V zt k → c_nms k !! n = Some x → nm_state x ≠ zombie → ¬ active (c_traversals k) x →
  ok (visited V n) (set_zt n (c_traversals k) zt)
    (c_set_code (unpublished n x (c_code k)) (c_set_nms (<[n := buried x]> (c_nms k)) k)).
Proof.
  intros Hok Hx Hz Hna. pose proof (ok_fine _ _ _ Hok _ _ Hx) as Hf.
  assert (set_zt n (c_traversals k) zt n = c_traversals k) as Ht by (unfold set_zt; by rewrite decide_True).
  apply (ok_alter_visit V _ zt _ (c_set_code (unpublished n x (c_code k)) k) _ x).
  - apply ok_set_code; [done|]. apply unpublished_sub.
  - done.
  - by left.
  - by intros m Hm [?|?].
  - intros m Hm. unfold set_zt. by rewrite decide_False.
  - by apply buried_fine.
  - intros Hs. destruct (ok_stack _ _ _ Hok n Hs) as (y & Hy & Ha). by simplify_eq.
  - intros Hw. destruct (ok_wait _ _ _ Hok n Hw) as (y & Hy & Hp & _). rewrite Hx in Hy. injection Hy as <-.
    assert (nm_patched x = true) as Hpt by (destruct (nm_patched x); tauto).
    split; [|rewrite Ht; cbn; lia]. unfold buried, patch. case_match; cbn; congruence.
  - intros c _ (Ho & _). split_and!; [by rewrite buried_osr| |left; by rewrite Ht].
    rewrite (buried_patched _ _ _ _ _ Hf Ho). done.
  - intros [? | ?]; done.
  - intros m Hm. by apply (unpublished_gone _ _ _ _ _ _ Hok Hx) in Hm.
  - apply buried_lock_count.
Qed.

Lemma holders_pos k n : n ∈ c_locks k → 0 < holders k n.
Proof.
  intros Hn. unfold holders, times. destruct (filter _ _) as [|m l] eqn:E; [|cbn; lia].
  exfalso. apply (not_elem_of_nil n). rewrite <- E. by apply list_elem_of_filter.
Qed.
(** What nothing refers to can go. *)
Lemma ok_delete V zt k n :
  ok V zt k → ¬ stacked k n → ¬ awaited k n → n ∉ c_locks k → (∀ m, c_code k !! m ≠ Some n) →
  (∀ c x site, c_nms k !! c = Some x → alive x → nm_calls x !! site ≠ Some n) →
  ok (visited V n) zt (c_set_nms (delete n (c_nms k)) k).
Proof.
  intros Hok Hs Hw Hl Hc Hi. split; cbn [c_nms c_code c_threads c_locks c_traversals c_set_nms].
  - intros m x [Hmn Hx]%lookup_delete_Some. destruct (ok_fine _ _ _ Hok _ _ Hx). unfold visited. split; naive_solver.
  - intros m Hm. rewrite lookup_delete_ne by (intros ->; done). by apply (ok_stack _ _ _ Hok).
  - intros m Hm. rewrite lookup_delete_ne by (intros ->; done). by apply (ok_wait _ _ _ Hok).
  - intros c x site d [Hcn Hx]%lookup_delete_Some Ha Hd.
    destruct (ok_calls _ _ _ Hok _ _ _ _ Hx Ha Hd) as (y & Hy & Ho & Hp & Hz).
    rewrite lookup_delete_ne by (intros ->; exact (Hi _ _ _ Hx Ha Hd)). exists y. split; [done|]. split_and!; [done..|].
    intros [?|[? HV]]%Hz; [by left|]. right. split; [done|]. intros [?|?]; [done|congruence].
  - intros m d Hd. rewrite lookup_delete_ne by (intros ->; exact (Hc _ Hd)). by apply (ok_code _ _ _ Hok).
  - intros m x [Hmn Hx]%lookup_delete_Some. by apply (ok_count _ _ _ Hok).
  - intros m Hm. rewrite lookup_delete_ne by (intros ->; done). by apply (ok_locks _ _ _ Hok).
Qed.
(** An nmethod the sweeper may flush. *)
Definition flushable (x : nmethod) : Prop :=
  nm_lock_count x ≤ 0 ∧
  ((nm_state x = zombie ∧ nm_marked_for_reclamation x = true) ∨ (nm_state x = unloaded ∧ nm_is_osr x = true)).
Lemma ok_flush V zt k n x :
  ok V zt k → c_nms k !! n = Some x → ¬ V n → flushable x →
  ok (visited V n) zt (c_set_nms (delete n (c_nms k)) k).
Proof.
  intros Hok Hx HV [Hl Hst]. pose proof (ok_fine _ _ _ Hok _ _ Hx) as Hf.
  assert (¬ alive x) as Hna by (destruct Hst as [[? _]|[? _]]; intros [?|?]; congruence).
  assert (nm_state x = zombie → zt n + 1 < c_traversals k) as Hzt.
  { intros Hz. destruct Hst as [[_ Hm]|[? _]]; [|congruence]. destruct (fine_marked _ _ _ _ _ Hf Hm) as (_ & Hle & He).
    destruct (decide (zt n + 1 = c_traversals k)); [tauto|lia]. }
  apply ok_delete; [done|..].
  - intros Hs. destruct (ok_stack _ _ _ Hok n Hs) as (y & Hy & Ha & _). by simplify_eq.
  - intros Hw. destruct (ok_wait _ _ _ Hok n Hw) as (y & Hy & Hp & Hz). simplify_eq.
    destruct Hst as [[Hzs _]|[Hun Ho]]; [specialize (Hz Hzs); specialize (Hzt Hzs); lia|].
    by destruct (Hp (fine_osr _ _ _ _ _ Hf Ho)).
  - intros Hn%holders_pos. rewrite <- (ok_count _ _ _ Hok _ _ Hx) in Hn. lia.
  - intros m Hm. destruct (ok_code _ _ _ Hok m n Hm) as (y & Hy & Hu & _). simplify_eq. apply Hna. by left.
  - intros c y site Hy Ha Hd. destruct (ok_calls _ _ _ Hok _ _ _ _ Hy Ha Hd) as (z & Hz & Ho & _ & Hzz). simplify_eq.
    destruct Hst as [[Hzs _]|[_ ?]]; [|congruence]. specialize (Hzt Hzs). destruct (Hzz Hzs) as [?|[? _]]; lia.
Qed.

(** [k'] is [k] but for the nmethod at [n] and the code of the methods. *)
Definition only (n : Z) (k k' : Core) : Prop :=
  k' = c_set_code (c_code k') (c_set_nms (c_nms k') k) ∧ ∀ m, m ≠ n → c_nms k' !! m = c_nms k !! m.
Lemma only_refl n k : only n k k.
Proof. split; [by destruct k|done]. Qed.
Lemma only_insert n x k : only n k (c_set_nms (<[n := x]> (c_nms k)) k).
Proof. split; [done|]. intros m Hm. cbn. by rewrite lookup_insert_ne by congruence. Qed.
Lemma only_insert_code n x code k : only n k (c_set_code code (c_set_nms (<[n := x]> (c_nms k)) k)).
Proof. split; [done|]. intros m Hm. cbn. by rewrite lookup_insert_ne by congruence. Qed.
Lemma only_delete n k : only n k (c_set_nms (delete n (c_nms k)) k).
Proof. split; [done|]. intros m Hm. cbn. by rewrite lookup_delete_ne by congruence. Qed.
Lemma only_trans n k1 k2 k3 : only n k1 k2 → only n k2 k3 → only n k1 k3.
Proof.
  intros [E1 H1] [E2 H2]. split; [by rewrite E2, E1|]. intros m Hm. by rewrite H2, H1.
Qed.
Lemma only_bounded n k k' : only n k k' → bounded k → bounded k'.
Proof. by intros [-> _]. Qed.

(** A visit of the nmethod at [n] leaves [k']. *)
Definition visit (V : Z → Prop) (n : Z) (R : option nmethod → Prop) (k k' : Core) : Prop :=
  (∃ zt', ok (visited V n) zt' k') ∧ only n k k' ∧ R (c_nms k' !! n).
(** What a visit in traversal [T] makes of the nmethod [x]. *)
Definition kept (x : nmethod) (o : option nmethod) : Prop := ∃ calls, o = Some (nm_set_calls calls x).
Definition turned (T : Z) (x : nmethod) (o : option nmethod) : Prop :=
  if is_locked_by_vm x then kept x o
  else match nm_state x with
  | in_use => ∃ x', o = Some x' ∧ alive x'
  | not_entrant => if nm_stack_traversal_mark x + 1 <? T then o = Some (buried x) else kept x o
  | zombie => o = if nm_marked_for_reclamation x then None else Some (nm_set_marked_for_reclamation true x)
  | unloaded => if nm_is_osr x then o = None else ∃ calls, o = Some (buried (nm_set_calls calls x))
  end.

Lemma wp_cleanup_visit V zt k n x k0 :
  ok V zt k → c_nms k !! n = Some x → only n k0 k →
  wp (cleanup_inline_caches n;; mret 0) k (λ _ k', visit V n (kept x) k0 k').
Proof.
  intros Hok Hx H0. eapply wp_bind, wp_mono; [by eapply wp_cleanup|]. cbn. intros _ k' (calls & -> & Hok' & Hh).
  apply wp_ret. split; [exists zt; by apply ok_visit|]. split; [eapply only_trans; [done|apply only_insert]|].
  exists calls. cbn. apply lookup_insert_eq.
Qed.
Lemma wp_reclaim V zt k n x :
  ok V zt k → c_nms k !! n = Some x → ¬ V n → flushable x →
  wp (reclaim n) k (λ _ k', visit V n (λ o, o = None) k k').
Proof.
  intros Hok Hx HV Hf. pose proof Hf as [Hl Hst].
  eapply wp_bind, wp_field; [done|]. eapply wp_bind, wp_field; [done|]. apply wp_bind.
  apply (wp_mono _ _ (λ _ k', k' = k)).
  { destruct (nm_is_c2 x); [|by apply wp_ret]. apply wp_bind, wp_static. intros c. by apply wp_set_static. }
  intros _ ? ->. apply wp_bind. eapply wp_bind, wp_field; [done|]. cbn [id].
  assert (is_zombie x || nm_is_osr x && is_unloaded x = true ∧
    nm_marked_for_reclamation x || nm_is_osr x && is_unloaded x = true) as [A1 A2].
  { unfold is_zombie, is_unloaded. destruct Hst as [[-> ->]|[-> ->]]; [done|]. split; [done|]. cbn. by rewrite orb_true_r. }
  apply wp_bind, wp_massert; [done|]. apply wp_bind, wp_massert; [done|]. apply wp_bind, wp_massert.
  { unfold is_locked_by_vm. rewrite (proj2 (Z.ltb_ge _ _)) by lia. done. }
  apply (wp_modify (λ k, c_set_nms (delete n (c_nms k)) k)); [done|].
  apply wp_bind, wp_incr; [done|]. apply wp_ret.
  split; [exists zt; by eapply ok_flush|]. split; [apply only_delete|]. apply lookup_delete_eq.
Qed.
Lemma wp_mark_zombie V zt k n x :
  ok V zt k → c_nms k !! n = Some x → ¬ V n → nm_state x = zombie →
  wp (update n (nm_set_marked_for_reclamation true);; add_bytes_changed n;;
      incr sw_marked_for_reclamation_count sw_set_marked_for_reclamation_count;; mret 0) k
    (λ _ k', visit V n (λ o, o = Some (nm_set_marked_for_reclamation true x)) k k').
Proof.
  intros Hok Hx HV Hz. pose proof (ok_fine _ _ _ Hok _ _ Hx) as Hf.
  eapply wp_bind, wp_update; [done|]. eapply wp_bind, wp_add_bytes_changed; [cbn; apply lookup_insert_eq|].
  apply wp_bind, wp_incr; [done|]. apply wp_ret.
  split; [|split; [apply only_insert|cbn; apply lookup_insert_eq]]. exists zt.
  destruct (fine_zombie _ _ _ _ _ Hf Hz) as [Hle He].
  assert (zt n + 1 ≤ c_traversals k) by (destruct (decide (zt n = c_traversals k)); [tauto|lia]).
  eapply ok_alter_visit; [done|done|by left|by intros m Hm [?|?]|done| | | | | | |].
  - destruct Hf. unfold visited. split; cbn; try done; naive_solver lia.
  - intros Hs. destruct (ok_stack _ _ _ Hok n Hs) as (y & Hy & Ha). by simplify_eq.
  - intros Hs. destruct (ok_wait _ _ _ Hok n Hs) as (y & Hy & Ha). by simplify_eq.
  - intros c Hcn (Ho & Hp & Hc). split_and!; try done. intros [?|[? Hv]]%Hc; [by left|].
    right. split; [done|]. by intros [?|?].
  - intros [?|?]; cbn in *; congruence.
  - intros m Hm. destruct (ok_code _ _ _ Hok m n Hm) as (y & Hy & Ha). by simplify_eq.
  - done.
Qed.
Lemma wp_bury V zt k n x k0 :
  ok V zt k → bounded k → c_nms k !! n = Some x → nm_state x ≠ zombie → ¬ active (c_traversals k) x → only n k0 k →
  wp (make_zombie n;; incr sw_zombified_count sw_set_zombified_count;; mret 0) k
    (λ _ k', visit V n (λ o, o = Some (buried x)) k0 k').
Proof.
  intros Hok Hb Hx Hz Ha H0. eapply wp_bind, wp_make_zombie; [done..|]. apply wp_bind, wp_incr; [done|]. apply wp_ret.
  split; [eexists; by apply ok_buried|]. split; [eapply only_trans; [done|apply only_insert_code]|]. cbn. apply lookup_insert_eq.
Qed.
Lemma s64_mark V zt k n x :
  ok V zt k → bounded k → c_nms k !! n = Some x →
  s64 (nm_stack_traversal_mark x + 1) = nm_stack_traversal_mark x + 1.
Proof.
  intros Hok [_ Hb] Hx. pose proof (fine_mark _ _ _ _ _ (ok_fine _ _ _ Hok _ _ Hx)).
  apply wrapS_id; [lia|]. unfold in_s. lia.
Qed.
Lemma wp_process_not_entrant V zt k n x :
  ok V zt k → bounded k → c_nms k !! n = Some x → nm_state x = not_entrant →
  wp (can ← can_convert_to_zombie n;
      if can : bool then make_zombie n;; incr sw_zombified_count sw_set_zombified_count;; mret 0
      else cleanup_inline_caches n;; mret 0) k (λ _ k', visit V n (turned (c_traversals k) x) k k').
Proof.
  intros Hok Hb Hx Hn. unfold turned. rewrite Hn. apply wp_bind. eapply wp_bind, wp_field; [done|]. cbn [id].
  apply wp_bind, wp_massert; [unfold is_not_entrant; by rewrite bool_decide_eq_true_2|].
  apply wp_bind, wp_traversals, wp_ret. rewrite (s64_mark _ _ _ _ _ Hok Hb Hx).
  destruct (Z.ltb_spec (nm_stack_traversal_mark x + 1) (c_traversals k)) as [Hlt|]; cbn.
  - destruct (is_locked_by_vm x); cbn; [eapply wp_cleanup_visit; eauto using only_refl|].
    eapply wp_bury; eauto using only_refl; [congruence|]. intros [_ Hm]. specialize (Hm Hn). lia.
  - destruct (is_locked_by_vm x); eapply wp_cleanup_visit; eauto using only_refl.
Qed.
Lemma wp_cool_down V zt k n x below :
  ok V zt k → bounded k → c_nms k !! n = Some x → nm_state x = in_use →
  wp (cool_down below n) k (λ _ k', ok V zt k' ∧ (∃ x', c_nms k' !! n = Some x' ∧ alive x') ∧ only n k k').
Proof.
  intros Hok Hb Hx Hu. eapply wp_bind, wp_field; [done|]. cbn [id].
  case_match; [|apply wp_ret; unfold alive; eauto 6 using only_refl].
  eapply wp_bind, wp_update; [done|]. eapply wp_bind, wp_field; [cbn; apply lookup_insert_eq|]. cbn.
  set (x1 := nm_set_hotness_counter _ x). set (k1 := c_set_nms _ k).
  assert (ok V zt k1) as Hok1. { eapply ok_alter_same; eauto. }
  assert (c_nms k1 !! n = Some x1) as Hx1 by (cbn; apply lookup_insert_eq).
  assert (only n k k1) as Hon by apply only_insert.
  case_match; [|apply wp_ret; unfold alive; eauto 6]. apply wp_bind.
  eapply wp_make_not_entrant; [exact Hok1|by eapply only_bounded|exact Hx1|by left|cbn; congruence|].
  intros _. apply wp_ret. split; [by apply ok_closed; [|eapply only_bounded| |]|].
  split; [eexists; split; [cbn; apply lookup_insert_eq|by right]|].
  eapply only_trans; [done|]. apply only_insert_code.
Qed.
Lemma wp_process V zt k n x below :
  ok V zt k → bounded k → c_nms k !! n = Some x → ¬ V n →
  wp (process_nmethod below n) k (λ _ k', visit V n (turned (c_traversals k) x) k k').
Proof.
  intros Hok Hb Hx HV. eapply wp_bind, wp_field; [done|]. cbn [id].
  destruct (is_locked_by_vm x) eqn:Hl.
  { unfold turned. rewrite Hl. destruct (is_alive x) eqn:Ha; [eapply wp_cleanup_visit; eauto using only_refl|].
    apply wp_bind, wp_ret, wp_ret. split; [|split; [apply only_refl|]].
    - exists zt. apply ok_visit; [done|]. eapply dead_harmless; [done|]. rewrite <- is_alive_spec. congruence.
    - exists (nm_calls x). rewrite Hx. by destruct x. }
  assert (nm_lock_count x ≤ 0) as Hl0 by (apply Z.ltb_ge, Hl).
  unfold is_zombie, is_not_entrant, is_unloaded. destruct (nm_state x) eqn:Hs; cbn.
  2: by eapply wp_process_not_entrant.
  all: unfold turned; rewrite Hl, Hs.
  - eapply wp_bind, wp_mono; [by eapply wp_cool_down|]. cbn. intros _ k' (Hok' & (x' & Hx' & Ha) & Hon).
    eapply wp_mono; [by eapply wp_cleanup_visit|]. intros _ k2 (? & ? & calls & ?). split_and!; eauto.
  - destruct (nm_marked_for_reclamation x) eqn:Hm; [|by eapply wp_mark_zombie].
    eapply wp_reclaim; [done..|]. split; auto.
  - destruct (nm_is_osr x) eqn:Ho; [eapply wp_reclaim; [done..|]; split; auto|].
    eapply wp_bind, wp_mono; [by eapply wp_cleanup|]. cbn. intros _ k' (calls & -> & Hok' & _).
    eapply wp_mono; [eapply wp_bury; [exact Hok'|done|cbn; apply lookup_insert_eq|cbn; congruence| |apply only_insert]|].
    + intros [[?|?] _]; cbn in *; congruence.
    + intros _ k2 (? & ? & ?). split_and!; eauto.
Qed.

End invariant.
