(* ===== verification/SweeperSafety.v ===== *)
(** * The sweeper: no code in use is reclaimed

    Every step of the model in [Sweeper.v] keeps the invariant of
    [SweeperInvariant.v]. *)

From stdpp Require Import base gmap list.
From S2P Require Import Prelude Sweeper SweeperInvariant.

Local Open Scope Z_scope.

Section safety.
Context `{F : Flags}.

(** ** A sweep *)

(** The sweeper has passed the nmethod at [n] since the last traversal. *)
Definition passed (current n : Z) : Prop := current = 0 ∨ n < current.
Record inv (N : Z) (k : Core) : Prop := {
  inv_ok : ∃ zt, ok (passed (c_current k)) zt k;
  inv_current : c_current k = 0 ∨ is_Some (c_nms k !! c_current k);
  inv_loop : c_loop k = true → c_current k ≠ 0 ∧ 1 ≤ c_fractions k ∧ c_started k ≠ 0;
  inv_idle : c_loop k = false → c_started k = 0;
  inv_traversals : 0 ≤ c_traversals k ≤ N;
  inv_locks : Z.of_nat (length (c_locks k)) ≤ N
}.
Lemma inv_bounded N k : inv N k → N < 2 ^ 31 - 1 → bounded k.
Proof. intros [] HN. split; lia. Qed.

(** The fields that [only] and the like leave alone. *)
Lemma inv_frame N k k' zt :
  inv N k → ok (passed (c_current k)) zt k' →
  k' = c_set_clean (c_clean k') (c_set_code (c_code k') (c_set_nms (c_nms k') k)) →
  (∀ d, is_Some (c_nms k !! d) → is_Some (c_nms k' !! d)) → inv N k'.
Proof.
  intros [_ Hc Hl Hid Ht Hlk] Hok E Hd.
  assert (c_current k' = c_current k ∧ c_loop k' = c_loop k ∧ c_fractions k' = c_fractions k ∧
    c_started k' = c_started k ∧ c_traversals k' = c_traversals k ∧ c_locks k' = c_locks k) as (E1 & E2 & E3 & E4 & E5 & E6)
    by (by rewrite E).
  split; rewrite ?E1, ?E2, ?E3, ?E4, ?E5, ?E6; eauto. destruct Hc as [?|?]; [by left|right; auto].
Qed.
Lemma inv_weaken N k : inv N k → inv (N + 1) k.
Proof. intros []. split; try done; lia. Qed.

Lemma lowest_above_spec lo l :
  0 ≤ lo → (∀ n, n ∈ l → 0 < n) →
  (lowest_above lo l = 0 ∧ ∀ n, n ∈ l → n ≤ lo) ∨
  (lowest_above lo l ∈ l ∧ lo < lowest_above lo l ∧ ∀ n, n ∈ l → lo < n → lowest_above lo l ≤ n).
Proof.
  intros Hlo. induction l as [|a l IH]; intros Hl; cbn; [left; split; [done|by intros n ?%elem_of_nil]|].
  change (foldr _ 0 l) with (lowest_above lo l).
  destruct IH as [[E Hle]|(Hin & Hlt & Hmin)]; [intros n Hn; apply Hl; by right| |].
  - rewrite E. cbn. destruct (Z.ltb_spec lo a).
    + right. split_and!; [left|done|]. intros n [->|Hn]%elem_of_cons ?; [done|]. specialize (Hle n Hn). lia.
    + left. split; [done|]. intros n [->|Hn]%elem_of_cons; auto.
  - set (r := lowest_above lo l) in *. right.
    rewrite (proj2 (Z.eqb_neq r 0)) by lia. destruct (Z.ltb_spec lo a).
    + split_and!; [destruct (Z.min_spec a r) as [[_ ->]|[_ ->]]; [left|by right]|lia|].
      intros n [->|Hn]%elem_of_cons ?; [lia|]. specialize (Hmin n Hn). lia.
    + split_and!; [by right|done|]. intros n [->|Hn]%elem_of_cons ?; [lia|]. auto.
Qed.
Lemma elem_of_keys (nms : gmap Z nmethod) n : n ∈ (map_to_list nms).*1 ↔ is_Some (nms !! n).
Proof.
  rewrite list_elem_of_fmap. split.
  - intros ([m x] & -> & Hx%elem_of_map_to_list). eauto.
  - intros [x Hx]. exists (n, x). split; [done|]. by apply elem_of_map_to_list.
Qed.
(** The next nmethod in the code cache, for a sweeper at [lo]. *)
Lemma next_nmethod_spec lo (nms : gmap Z nmethod) next :
  0 ≤ lo → (∀ n x, nms !! n = Some x → 0 < n) → next = lowest_above lo (map_to_list nms).*1 →
  (next = 0 ∨ (is_Some (nms !! next) ∧ lo < next)) ∧ ∀ n x, nms !! n = Some x → n ≤ lo ↔ passed next n.
Proof.
  intros Hlo Hpos ->. pose proof (elem_of_keys nms) as Hin.
  destruct (lowest_above_spec lo (map_to_list nms).*1) as [[E Hle]|(Hn & Hlt & Hmin)].
  - done.
  - intros n [x Hx]%Hin. eauto.
  - rewrite E. split; [by left|]. intros n x Hx. split; [by left|]. intros _. apply Hle, Hin. eauto.
  - split; [right; by rewrite <- Hin|]. intros n x Hx. unfold passed. specialize (Hmin n (proj2 (Hin n) (mk_is_Some _ _ Hx))).
    lia.
Qed.
Lemma wp_next_nmethod n k (Q : Z → Core → Prop) :
  Q (lowest_above n (map_to_list (c_nms k)).*1) k → wp (next_nmethod n) k Q.
Proof. by apply (wp_reads (λ k, lowest_above n (map_to_list (c_nms k)).*1)). Qed.

(** Who counts as passed matters for the nmethods that are there. *)
Lemma ok_passed V V' zt k current :
  ok V zt k → (∀ n x, c_nms k !! n = Some x → V n ↔ V' n) → ok V' zt (c_set_current current k).
Proof.
  intros Hok HV. split; cbn; try apply Hok.
  - intros n x Hx. destruct (ok_fine _ _ _ Hok _ _ Hx). pose proof (HV n x Hx). split; naive_solver.
  - intros c x site d Hx Ha Hd. destruct (ok_calls _ _ _ Hok _ _ _ _ Hx Ha Hd) as (y & Hy & Ho & Hp & Hz).
    exists y. split; [done|]. split_and!; [done..|]. intros Hzy. rewrite <- (HV c x Hx). auto.
Qed.
Lemma ok_core V zt k k' :
  c_nms k' = c_nms k → c_code k' = c_code k → c_threads k' = c_threads k → c_locks k' = c_locks k →
  c_traversals k' = c_traversals k → ok V zt k → ok V zt k'.
Proof. destruct k, k'. cbn. intros -> -> -> -> -> []. by split. Qed.

(** A sweep at the test of its loop. *)
Record sweeping (N : Z) (k : Core) : Prop := {
  sweeping_ok : ∃ zt, ok (passed (c_current k)) zt k;
  sweeping_current : c_current k = 0 ∨ is_Some (c_nms k !! c_current k);
  sweeping_fractions : 1 ≤ c_fractions k;
  sweeping_started : c_started k ≠ 0;
  sweeping_traversals : 0 ≤ c_traversals k ≤ N;
  sweeping_locks : Z.of_nat (length (c_locks k)) ≤ N
}.
Lemma wp_sweep_code_cache_end k freed (Q : unit → Core → Prop) :
  1 < c_fractions k ∨ c_current k = 0 → Q tt (c_set_loop false k) → wp (sweep_code_cache_end freed) k Q.
Proof.
  intros Hend HQ. apply wp_bind, wp_fractions, wp_bind, wp_current, wp_bind, wp_massert; [lia|].
  apply wp_bind, wp_static. intros ?. apply wp_bind, wp_set_static; [done|].
  apply wp_bind, wp_static. intros ?. apply wp_bind, wp_static. intros ?. apply wp_bind, wp_set_static; [done|].
  apply wp_bind, wp_reads_any. intros on. apply wp_bind, (wp_mono _ _ (λ _ k', k' = k)).
  { case_match; [|by apply wp_ret]. by apply (wp_modify id). }
  intros _ ? ->. by apply (wp_modify (c_set_loop false)).
Qed.
Lemma wp_possibly_sweep_end k (Q : unit → Core → Prop) :
  Q tt (c_set_started 0 (c_set_fractions (s32 (c_fractions k - 1)) k)) → wp possibly_sweep_end k Q.
Proof.
  intros HQ. apply wp_bind, wp_fractions, wp_bind, (wp_modify (c_set_fractions (s32 (c_fractions k - 1)))); [done|].
  apply wp_bind, (wp_mono _ _ (λ _ k', k' = c_set_fractions (s32 (c_fractions k - 1)) k)).
  { case_match; [|by apply wp_ret]. apply wp_bind, wp_static. intros t. apply wp_bind, wp_set_static; [done|].
    apply wp_bind, wp_static. intros now. do 2 (apply wp_bind, wp_set_static; [done|]).
    apply wp_bind, wp_possibly_enable_sweeper, wp_bind, wp_static. intros sh.
    destruct sh; [by apply wp_set_static|by apply wp_ret]. }
  intros _ ? ->. by apply (wp_modify (c_set_started 0)).
Qed.
(** The sweep goes on, or ends. *)
Definition sweep_ended (k : Core) : Core :=
  c_set_started 0 (c_set_fractions (s32 (c_fractions k - 1)) (c_set_loop false k)).
Definition sweep_test (k k' : Core) : Prop :=
  (k' = c_set_loop true k ∧ c_current k ≠ 0) ∨ (k' = sweep_ended k ∧ (1 < c_fractions k ∨ c_current k = 0)).
Lemma wp_sweep_loop_test k l : 1 ≤ c_fractions k → wp (sweep_loop_test l) k (λ _ k', sweep_test k k').
Proof.
  intros Hf. apply wp_bind, wp_fractions, wp_bind, wp_current.
  destruct ((_ || _) && _) eqn:E.
  - apply (wp_modify (c_set_loop true)); [done|]. apply andb_true_iff in E as [_ E]. left. split; [done|].
    by apply Z.eqb_neq, negb_true_iff.
  - assert (1 < c_fractions k ∨ c_current k = 0) as Hend.
    { apply andb_false_iff in E as [[_ E]%orb_false_iff|E]; [left|right]; lia. }
    apply wp_bind, wp_sweep_code_cache_end, wp_possibly_sweep_end; [done|]. by right.
Qed.
Lemma sweep_test_inv N k k' : sweeping N k → sweep_test k k' → inv N k'.
Proof.
  intros [[zt Hok] Hc Hf Hst Ht Hl] [[-> Hc0]|[-> _]].
  - split; cbn; try done. exists zt. by apply (ok_core _ _ k).
  - split; cbn; try done. exists zt. by apply (ok_core _ _ k).
Qed.

(** One iteration: the nmethod at [c_current k] is visited and the sweeper moves
    on to [next]. *)
Record swept (N : Z) (k : Core) (next : Z) (k1 : Core) : Prop := {
  swept_sweeping : sweeping N (c_set_current next k1);
  swept_only : only (c_current k) k k1;
  swept_turned : ∀ x, c_nms k !! c_current k = Some x → turned (c_traversals k) x (c_nms k1 !! c_current k);
  swept_next : next = 0 ∨ (is_Some (c_nms k !! next) ∧ c_current k < next);
  swept_passed : ∀ n x, c_nms k !! n = Some x → n ≤ c_current k ↔ passed next n
}.
Lemma wp_sweep_next N k below l :
  inv N k → N < 2 ^ 31 - 1 → c_loop k = true →
  wp (sweep_next below l) k (λ _ k', ∃ next k1, swept N k next k1 ∧ sweep_test (c_set_current next k1) k').
Proof.
  intros Hi HN Hl. pose proof (inv_bounded _ _ Hi HN) as Hb. destruct Hi as [[zt Hok] Hc Hlp Hid Ht Hlk].
  destruct (Hlp Hl) as (Hc0 & Hf & Hst). destruct Hc as [Hc|[x Hx]]; [done|].
  pose proof (λ n x Hx, fine_addr _ _ _ _ _ (ok_fine _ _ _ Hok n x Hx)) as Hpos. pose proof (Hpos _ _ Hx) as Hcp.
  apply wp_bind, wp_current, wp_bind, wp_next_nmethod. set (next := lowest_above _ _).
  destruct (next_nmethod_spec (c_current k) (c_nms k) next) as [Hnext Hpass]; [lia|done..|].
  eapply wp_bind, wp_mono; [eapply wp_process; [done..|]; unfold passed; lia|].
  cbn. intros freed k' ([zt' Hok'] & [E Hm] & Hturn). apply wp_bind, wp_incr; [done|].
  apply wp_bind, (wp_modify (c_set_current next)); [done|].
  eapply wp_mono; [apply wp_sweep_loop_test; cbn; by rewrite E|]. cbn. intros _ k2 Hk2. exists next, k'. split; [|done].
  assert (∀ n y, c_nms k' !! n = Some y → n = c_current k ∨ is_Some (c_nms k !! n)) as Hsub.
  { intros n y Hy. destruct (decide (n = c_current k)); [by left|]. right. rewrite <- Hm by done. eauto. }
  split; [|done|intros y Hy; by simplify_eq|done|done].
  split; cbn; try (rewrite E; done).
  - exists zt'. eapply ok_passed; [done|]. intros n y Hy. unfold visited.
    transitivity (n ≤ c_current k); [unfold passed; lia|]. destruct (Hsub n y Hy) as [->|[z Hz]].
    + eapply Hpass, Hx.
    + eapply Hpass, Hz.
  - destruct Hnext as [->|[Hn Hlt]]; [by left|right]. rewrite Hm; [done|lia].
Qed.
Lemma wp_sweep_code_cache k :
  1 ≤ c_fractions k →
  wp sweep_code_cache k (λ _ k', ∃ f, (f = c_fractions k ∨ f = 1) ∧ sweep_test (c_set_fractions f k) k').
Proof.
  intros Hf. do 3 (apply wp_bind, wp_set_static; [done|]). apply wp_bind, wp_reads_any. intros on.
  apply wp_bind, (wp_mono _ _ (λ _ k', ∃ f, (f = c_fractions k ∨ f = 1) ∧ k' = c_set_fractions f k)).
  { destruct on; [apply wp_ret; exists (c_fractions k); split; [by left|by destruct k]|].
    apply (wp_modify (c_set_fractions 1)); [done|]. eauto. }
  intros [] ? (f & Hfs & ->). apply wp_bind, wp_reads_any. intros nof. apply wp_bind, wp_static. intros seen.
  assert (1 ≤ f) by lia. apply wp_bind, wp_fractions, wp_bind, wp_massert; [cbn; apply negb_true_iff, Z.eqb_neq; lia|].
  eapply wp_mono; [by apply wp_sweep_loop_test|]. eauto.
Qed.
Lemma sweeping_start N k f : inv N k → 1 ≤ f → sweeping N (c_set_fractions f (c_set_started 1 k)).
Proof. intros [[zt Hok] ?????] Hf. split; cbn; try done. exists zt. by apply (ok_core _ _ k). Qed.
Lemma wp_possibly_sweep N k w : inv N k → wp (possibly_sweep w) k (λ _ k', inv N k').
Proof.
  intros Hi. apply wp_bind, wp_current. case_match; [by apply wp_ret|].
  apply wp_bind, wp_static. intros sh. apply wp_bind, wp_reads_any. intros on.
  apply wp_bind, (wp_mono _ _ (λ _ k', k' = k)). { case_match; [by apply wp_set_static|by apply wp_ret]. }
  intros _ ? ->. apply wp_bind, wp_static. intros sh'. apply wp_bind, wp_fractions.
  destruct (sh' && _) eqn:Hf; [|by apply wp_ret]. apply wp_bind, wp_started. case_match; [by apply wp_ret|].
  apply wp_bind, (wp_modify (c_set_started 1)); [done|]. apply andb_true_iff in Hf as [_ Hf%Z.ltb_lt].
  eapply wp_mono; [apply wp_sweep_code_cache; cbn; lia|]. cbn. intros _ k' (f & Hfs & Ht).
  eapply sweep_test_inv; [apply sweeping_start; [done|]|done]. lia.
Qed.

(** ** A stack traversal *)

(** A function on each of the nmethods in [l]. *)
Lemma wp_mforeach_nms (f : Z → M VM unit) (g : nmethod → nmethod) l k :
  (∀ x, g (g x) = g x) → (∀ n, n ∈ l → is_Some (c_nms k !! n)) →
  (∀ n x nms, nms !! n = Some x → (∀ m, nms !! m = c_nms k !! m ∨ nms !! m = g <$> c_nms k !! m) →
    wp (f n) (c_set_nms nms k) (λ _ k', k' = c_set_nms (<[n := g x]> nms) k)) →
  wp (mforeach f l) k (λ _ k', ∃ nms, k' = c_set_nms nms k ∧
    ∀ n, nms !! n = if decide (n ∈ l) then g <$> c_nms k !! n else c_nms k !! n).
Proof.
  intros Hg Hl Hf.
  cut (∀ r nms, (∀ n, n ∈ r → n ∈ l) →
    (∀ n, nms !! n = c_nms k !! n ∧ (n ∈ l → n ∈ r) ∨ n ∈ l ∧ nms !! n = g <$> c_nms k !! n) →
    wp (mforeach f r) (c_set_nms nms k) (λ _ k', ∃ nms, k' = c_set_nms nms k ∧
      ∀ n, nms !! n = if decide (n ∈ l) then g <$> c_nms k !! n else c_nms k !! n)).
  { intros H. specialize (H l (c_nms k)). rewrite c_set_nms_same in H. apply H; auto. }
  induction r as [|a r IH]; intros nms Hr Hn; cbn [mforeach].
  - apply wp_ret. exists nms. split; [done|]. intros n. destruct (decide (n ∈ l)) as [Hin|Hin].
    + destruct (Hn n) as [[_ H]|[_ H]]; [by apply H, elem_of_nil in Hin|done].
    + by destruct (Hn n) as [[H _]|[H _]].
  - assert (is_Some (c_nms k !! a)) as [y Hy] by (apply Hl, Hr; left).
    assert (∃ x, nms !! a = Some x ∧ g x = g y) as (x & Hx & Hgx).
    { destruct (Hn a) as [[-> _]|[_ ->]]; rewrite Hy; cbn; eauto. }
    apply wp_bind. eapply wp_mono; [apply (Hf a x); [done|]|].
    { intros m. destruct (Hn m) as [[? _]|[_ ?]]; auto. }
    cbn. intros _ ? ->. apply IH; [intros n ?; apply Hr; by right|].
    intros n. destruct (decide (n = a)) as [->|Hna].
    + right. split; [apply Hr; left|]. by rewrite lookup_insert_eq, Hy, Hgx.
    + rewrite lookup_insert_ne by done. destruct (Hn n) as [[H1 H2]|?]; [left|by right]. split; [done|].
      intros [?|?]%H2%elem_of_cons; done.
Qed.

Definition hot (x : nmethod) : nmethod := nm_set_hotness_counter hotness_counter_reset_val x.
Definition marked (T : Z) (x : nmethod) : nmethod :=
  if is_not_entrant x then nm_set_stack_traversal_mark T (hot x) else hot x.
(** Two nmethods that differ at most in the mark, the hotness and the calls. *)
Definition alike (x x' : nmethod) : Prop :=
  nm_state x' = nm_state x ∧ nm_is_osr x' = nm_is_osr x ∧ nm_patched x' = nm_patched x ∧
  nm_method x' = nm_method x ∧ nm_lock_count x' = nm_lock_count x ∧
  nm_marked_for_reclamation x' = nm_marked_for_reclamation x.
Lemma marked_alike T x : alike x (marked T x).
Proof. unfold marked. by case_match. Qed.
Lemma marked_calls T x : nm_calls (marked T x) = nm_calls x.
Proof. unfold marked. by case_match. Qed.
Lemma marked_idemp T x : marked T (marked T x) = marked T x.
Proof. unfold marked, is_not_entrant. by destruct (bool_decide (nm_state x = _)) eqn:E; cbn; rewrite E. Qed.

Lemma stacked_activations k n : stacked k n ↔ n ∈ activations (c_threads k).
Proof.
  unfold stacked, activations. rewrite list_elem_of_bind. split.
  - intros (t & th & Ht & Hn). exists (t, th). split; [done|]. by apply elem_of_map_to_list.
  - intros ([t th] & Hn & Ht%elem_of_map_to_list). eauto.
Qed.
Lemma wp_nmethods_do f k (Q : unit → Core → Prop) :
  wp (mforeach f (activations (c_threads k))) k Q → wp (nmethods_do f) k Q.
Proof. by intros HQ; apply wp_bind, (wp_reads (λ k, activations (c_threads k))). Qed.

Lemma wp_set_hotness_all V zt k :
  ok V zt k → wp (nmethods_do set_hotness) k (λ _ k', ∃ nms, k' = c_set_nms nms k ∧ ok V zt k' ∧
    ∀ n, is_Some (c_nms k !! n) → is_Some (nms !! n)).
Proof.
  intros Hok. apply wp_nmethods_do. set (l := activations _).
  assert (∀ n, n ∈ l → stacked k n) as Hl by (intros n; apply stacked_activations).
  clearbody l.
  apply (wp_mono _ _ (λ _ k', (∀ n, n ∈ [] → stacked k n) ∧ ∃ nms, k' = c_set_nms nms k ∧ ok V zt k' ∧
    ∀ n, is_Some (c_nms k !! n) → is_Some (nms !! n))); [|tauto].
  apply (wp_mforeach _ (λ r k', (∀ n, n ∈ r → stacked k n) ∧ ∃ nms, k' = c_set_nms nms k ∧ ok V zt k' ∧
    ∀ n, is_Some (c_nms k !! n) → is_Some (nms !! n))).
  - intros a r k' (Hr & nms & -> & Hok' & Hdom). destruct (ok_stack _ _ _ Hok' a) as (x & Hx & _); [apply Hr; left|].
    eapply wp_update; [done|]. split; [intros n Hn; apply Hr; by right|]. eexists. split; [done|]. split.
    + eapply ok_alter_same; eauto.
    + intros n Hn. destruct (decide (n = a)) as [->|]; [by rewrite lookup_insert_eq|].
      rewrite lookup_insert_ne by done. auto.
  - split; [done|]. exists (c_nms k). by rewrite c_set_nms_same.
Qed.
Lemma wp_mark_activations V zt k T :
  ok V zt k →
  wp (nmethods_do mark_activation) (c_set_traversals T k) (λ _ k', ∃ nms, k' = c_set_nms nms (c_set_traversals T k) ∧
    ∀ n, nms !! n = if decide (n ∈ activations (c_threads k)) then marked T <$> c_nms k !! n else c_nms k !! n).
Proof.
  intros Hok. apply wp_nmethods_do. apply (wp_mforeach_nms _ (marked T) _ (c_set_traversals T k)); cbn.
  - apply marked_idemp.
  - intros n Hn%stacked_activations. destruct (ok_stack _ _ _ Hok n Hn) as (x & Hx & _). eauto.
  - intros n x nms Hx _. apply wp_bind. eapply wp_update; [done|]. cbn.
    eapply wp_bind, wp_field; [cbn; apply lookup_insert_eq|].
    change (is_not_entrant (nm_set_hotness_counter hotness_counter_reset_val x)) with (is_not_entrant x).
    unfold marked. destruct (is_not_entrant x) eqn:Hne; [|by apply wp_ret].
    eapply wp_bind, wp_field; [cbn; apply lookup_insert_eq|]. apply wp_bind, wp_massert.
    { unfold is_alive. cbn. apply orb_true_iff. by right. }
    apply wp_bind, wp_traversals. eapply wp_update; [cbn; apply lookup_insert_eq|]. cbn. by rewrite insert_insert_eq.
Qed.
(** The next traversal: every nmethod that is not entrant and on a stack is
    marked, the sweeper has passed none. *)
Lemma ok_traversal V V' zt k nms :
  ok V zt k → (∀ n x, c_nms k !! n = Some x → V n) → (∀ n x, c_nms k !! n = Some x → ¬ V' n) → (∀ n, ¬ awaited k n) →
  (∀ n, nms !! n = if decide (n ∈ activations (c_threads k)) then marked (c_traversals k + 1) <$> c_nms k !! n
                   else c_nms k !! n) →
  ok V' zt (c_set_nms nms (c_set_traversals (c_traversals k + 1) k)).
Proof.
  intros Hok HV HV' Hw Hnms. set (T := c_traversals k + 1) in *.
  assert (∀ n x', nms !! n = Some x' → ∃ x, c_nms k !! n = Some x ∧ (x' = x ∨ x' = marked T x)) as Hback.
  { intros n x'. rewrite Hnms. case_decide; [|by eauto]. intros (x & -> & Hx)%fmap_Some. eauto. }
  assert (∀ n x, c_nms k !! n = Some x → ∃ x', nms !! n = Some x' ∧ alike x x') as Hforth.
  { intros n x Hx. rewrite Hnms, Hx. case_decide; cbn; eauto using marked_alike. by eexists. }
  split; cbn.
  - intros n x' Hx'. destruct (Hback n x' Hx') as (x & Hx & He). pose proof (ok_fine _ _ _ Hok _ _ Hx) as Hf.
    destruct Hf as [Hfa Hfm Hfz Hfr Hfo Hfp Hfd].
    assert (alike x x') as (E1 & E2 & E3 & E4 & _ & E5) by (destruct He as [-> | ->]; [done|apply marked_alike]).
    split; rewrite ?E1, ?E2, ?E3, ?E4, ?E5; try done.
    + destruct He as [-> | ->]; [lia|]. unfold marked. case_match; cbn; lia.
    + intros [? _]%Hfz. lia.
    + intros (? & ? & _)%Hfr. split_and!; [done|lia..].
  - intros n Hn. destruct (ok_stack _ _ _ Hok n Hn) as (x & Hx & Ha & _). exists (marked T x).
    rewrite Hnms, decide_True, Hx by (by apply stacked_activations). split; [done|].
    destruct (marked_alike T x) as (E & _). unfold active, alive. rewrite E. split; [done|].
    intros Hne. unfold marked, is_not_entrant. by rewrite bool_decide_eq_true_2.
  - intros n Hn. by destruct (Hw n).
  - intros c x' site d Hx' Ha Hd. destruct (Hback c x' Hx') as (x & Hx & He).
    assert (alive x ∧ nm_calls x !! site = Some d) as [Hax Hdx].
    { destruct He as [-> | ->]; [done|]. rewrite marked_calls in Hd. destruct (marked_alike T x) as (E & _).
      unfold alive in *. by rewrite E in Ha. }
    destruct (ok_calls _ _ _ Hok _ _ _ _ Hx Hax Hdx) as (y & Hy & Ho & Hp & Hz).
    destruct (Hforth d y Hy) as (y' & Hy' & E1 & E2 & E3 & _). exists y'. split; [done|].
    unfold callable. rewrite E1, E2, E3. split_and!; [done..|]. intros [?|[_ ?]]%Hz; [|by pose proof (HV _ _ Hx)].
    right. split; [lia|]. by eapply HV'.
  - intros m n Hm. destruct (ok_code _ _ _ Hok m n Hm) as (x & Hx & Hp). destruct (Hforth n x Hx) as (x' & Hx' & E1 & E2 & _ & E4 & _).
    exists x'. unfold published. by rewrite E1, E2, E4.
  - intros n x' Hx'. destruct (Hback n x' Hx') as (x & Hx & [-> | ->]); [by apply (ok_count _ _ _ Hok)|].
    destruct (marked_alike T x) as (_ & _ & _ & _ & -> & _). by apply (ok_count _ _ _ Hok).
  - intros n Hn. destruct (ok_locks _ _ _ Hok n Hn) as (x & Hx). destruct (Hforth n x Hx) as (x' & Hx' & _). eauto.
Qed.
(** [k'] is [k] after a traversal that begins a pass over the code cache. *)
Record restarted (k k' : Core) : Prop := {
  restarted_core : k' = c_set_nms (c_nms k') (c_set_traversals (c_traversals k + 1)
    (c_set_current (c_current k') (c_set_fractions NmethodSweepFraction k)));
  restarted_nms : ∀ n, c_nms k' !! n =
    if decide (n ∈ activations (c_threads k)) then marked (c_traversals k + 1) <$> c_nms k !! n else c_nms k !! n;
  restarted_current : c_current k' = 0 ∨ is_Some (c_nms k !! c_current k');
  restarted_passed : ∀ n x, c_nms k !! n = Some x → ¬ passed (c_current k') n
}.
Lemma restarted_inv N k k' :
  inv N k → c_current k = 0 → (∀ n, ¬ awaited k n) → restarted k k' → inv (N + 1) k'.
Proof.
  intros [[zt Hok] Hc Hl Hid Ht Hlk] Hc0 Hw [E Hnms Hcur Hpass]. rewrite E.
  set (k1 := c_set_current (c_current k') (c_set_fractions NmethodSweepFraction k)).
  assert (ok (passed (c_current k)) zt k1) as Hok1 by (by apply (ok_core _ _ k)).
  split; cbn; try done; try lia.
  - exists zt. apply (ok_traversal (passed (c_current k)) _ zt k1); try done. intros n x _. by left.
  - destruct Hcur as [?|[x Hx]]; [by left|right]. rewrite Hnms, Hx. by case_decide.
  - intros Hlp. by destruct (Hl Hlp).
Qed.
(** The safepoint either begins a pass or leaves the one in progress alone. *)
Lemma wp_mark_active_nmethods N k :
  inv N k → N < 2 ^ 31 - 1 →
  wp mark_active_nmethods k (λ _ k', (MethodFlushing = true ∧ c_current k = 0 ∧ restarted k k') ∨
    (inv N k' ∧ (MethodFlushing = false ∨ c_current k ≠ 0))).
Proof.
  intros Hi HN. pose proof (inv_bounded _ _ Hi HN) as [_ Hb]. pose proof Hi as [[zt Hok] Hc _ _ _ _].
  unfold mark_active_nmethods. destruct MethodFlushing; cbn; [|apply wp_ret; auto].
  apply wp_bind, wp_static. intros t. apply wp_bind, wp_set_static; [done|]. apply wp_bind, wp_current.
  apply wp_bind, (wp_reads (λ k', (c_current k =? 0) || bool_decide (is_Some (c_nms k' !! c_current k)))); [done|].
  apply wp_bind, wp_massert; [rewrite orb_true_iff, Z.eqb_eq, bool_decide_eq_true; done|].
  destruct (Z.eqb_spec (c_current k) 0) as [Hc0|Hc0].
  - apply wp_bind, wp_set_static; [done|]. apply wp_bind, (wp_modify (c_set_fractions NmethodSweepFraction)); [done|].
    apply wp_bind, wp_next_nmethod. cbn. set (first := lowest_above _ _).
    apply wp_bind, (wp_modify (c_set_current first)); [done|]. apply wp_bind, wp_traversals. cbn.
    assert (s64 (c_traversals k + 1) = c_traversals k + 1) as E by (apply wrapS_id; unfold in_s; lia). rewrite E.
    apply wp_bind, (wp_modify (c_set_traversals (c_traversals k + 1))); [done|].
    set (k1 := c_set_current first (c_set_fractions NmethodSweepFraction k)).
    assert (ok (passed (c_current k)) zt k1) as Hok1 by (by apply (ok_core _ _ k)).
    eapply wp_mono; [by eapply (wp_mark_activations _ _ k1)|]. cbn. intros _ k' (nms & -> & Hnms).
    pose proof (λ n x Hx, fine_addr _ _ _ _ _ (ok_fine _ _ _ Hok n x Hx)) as Hpos.
    destruct (next_nmethod_spec 0 (c_nms k) first) as [Hfirst Hpass]; [done..|].
    left. split_and!; [done..|]. split; cbn; [done|done| |].
    + destruct Hfirst as [?|[? _]]; auto.
    + intros n x Hx Hp. apply (Hpass n x Hx) in Hp. specialize (Hpos n x Hx). lia.
  - eapply wp_mono; [by eapply wp_set_hotness_all|]. cbn. intros _ k' (nms & -> & Hok' & Hdom).
    right. split; [|by right]. by eapply inv_frame.
Qed.
Lemma wp_safepoint N k :
  inv N k → N < 2 ^ 31 - 1 → (∀ n, ¬ awaited k n) → wp mark_active_nmethods k (λ _ k', inv (N + 1) k').
Proof.
  intros Hi HN Hw. eapply wp_mono; [by apply wp_mark_active_nmethods|].
  intros _ k' [(_ & Hc0 & Hr)|[? _]]; [by eapply restarted_inv|by apply inv_weaken].
Qed.

(** ** Unloading *)

Definition unload (x : nmethod) : nmethod := nm_set_state unloaded (nm_set_method 0 x).
Lemma wp_make_unloaded n x k (Q : unit → Core → Prop) :
  c_nms k !! n = Some x →
  Q tt (c_set_clean (is_in_use x || c_clean k)
         (c_set_code (unpublished n x (c_code k)) (c_set_nms (<[n := unload x]> (c_nms k)) k))) →
  wp (make_unloaded n) k Q.
Proof.
  intros Hx HQ. eapply wp_bind, wp_field; [done|]. cbn [id]. apply wp_bind, wp_unlink_code.
  eapply wp_bind, wp_update; [done|].
  apply wp_bind, (wp_mono _ _ (λ _ k', k' = c_set_clean (is_in_use x || c_clean k)
    (c_set_nms (<[n := nm_set_method 0 x]> (c_nms k)) (c_set_code (unpublished n x (c_code k)) k)))).
  { destruct (is_in_use x); [by apply (wp_modify (c_set_clean true))|]. apply wp_ret. by destruct k. }
  intros _ ? ->. eapply wp_bind, wp_update; [cbn; apply lookup_insert_eq|].
  eapply wp_report_state_change; [cbn; apply lookup_insert_eq|]. cbn. rewrite insert_insert_eq. exact HQ.
Qed.

(** [k'] is [k] after the nmethods in [p] are unloaded. *)
Definition unloading (p : list Z) (k k' : Core) : Prop :=
  k' = c_set_clean (c_clean k') (c_set_code (c_code k') (c_set_nms (c_nms k') k)) ∧
  (∀ n, c_nms k' !! n = if decide (n ∈ p) then unload <$> c_nms k !! n else c_nms k !! n) ∧
  (∀ m d, c_code k' !! m = Some d → c_code k !! m = Some d ∧ d ∉ p) ∧
  (c_clean k' = false → ∀ n x, n ∈ p → c_nms k !! n = Some x → nm_state x ≠ in_use).
Lemma unloading_step V zt k k' p n x :
  ok V zt k → unloading p k k' → n ∉ p → c_nms k !! n = Some x →
  unloading (p ++ [n]) k (c_set_clean (is_in_use x || c_clean k')
    (c_set_code (unpublished n x (c_code k')) (c_set_nms (<[n := unload x]> (c_nms k')) k'))).
Proof.
  intros Hok (E & Hn & Hc & Hcl) Hnp Hx. split_and!; cbn.
  - rewrite E. done.
  - intros m. destruct (decide (m = n)) as [->|Hmn].
    + rewrite lookup_insert_eq, Hx, decide_True by (apply elem_of_app; right; left). done.
    + rewrite lookup_insert_ne, Hn by done. repeat case_decide; set_solver.
  - intros m d Hd. destruct (Hc m d (unpublished_sub _ _ _ _ _ Hd)) as [Hk Hdp]. split; [done|].
    rewrite not_elem_of_app, list_elem_of_singleton. split; [done|]. intros ->.
    destruct (ok_code _ _ _ Hok m n Hk) as (y & Hy & Hu & _ & Hm). rewrite Hx in Hy. injection Hy as <-.
    pose proof (fine_method _ _ _ _ _ (ok_fine _ _ _ Hok _ _ Hx) Hu).
    pose proof (unpublished_sub _ _ _ _ _ Hd) as Hd'. revert Hd. unfold unpublished, code_of. rewrite Hm, Hd'. cbn.
    rewrite Z.eqb_refl, (proj2 (Z.eqb_neq m 0)) by congruence. cbn. by rewrite lookup_delete_eq.
  - intros [Hi Hk]%orb_false_iff m y [Hm| ->%list_elem_of_singleton]%elem_of_app Hy; [by eapply Hcl|].
    rewrite Hx in Hy. injection Hy as <-. by apply bool_decide_eq_false in Hi.
Qed.
Lemma wp_unload_all V zt k l :
  ok V zt k → NoDup l → (∀ n, n ∈ l → is_Some (c_nms k !! n)) →
  wp (mforeach make_unloaded l) k (λ _ k', unloading l k k').
Proof.
  intros Hok Hnd Hl.
  apply (wp_mono _ _ (λ _ k', ∃ p, l = p ++ [] ∧ unloading p k k')).
  2: { intros _ k' (p & -> & H). by rewrite app_nil_r. }
  apply (wp_mforeach _ (λ r k', ∃ p, l = p ++ r ∧ unloading p k k')).
  - intros n r k' (p & E & Hu). assert (n ∉ p) as Hnp.
    { rewrite E in Hnd. apply NoDup_app in Hnd as (_ & Hd & _). intros Hin. by apply (Hd n Hin); left. }
    destruct (Hl n) as [x Hx]; [rewrite E; apply elem_of_app; right; left|].
    eapply wp_make_unloaded.
    + destruct Hu as (_ & Hn & _). by rewrite Hn, decide_False.
    + exists (p ++ [n]). split; [by rewrite <- app_assoc|]. by eapply unloading_step.
  - exists []. split; [done|]. split_and!.
    + by destruct k.
    + intros n. by rewrite decide_False by apply not_elem_of_nil.
    + intros m d Hd. split; [done|]. apply not_elem_of_nil.
    + intros _ n x Hn. by apply elem_of_nil in Hn.
Qed.

Definition cleaned (keep : Z → bool) (x : nmethod) : nmethod :=
  if is_alive x then nm_set_calls (filter (λ p, keep p.2 = true) (nm_calls x)) x else x.
Lemma cleaned_alike keep x : alike x (cleaned keep x).
Proof. unfold cleaned. by case_match. Qed.
Lemma cleaned_mark keep x : nm_stack_traversal_mark (cleaned keep x) = nm_stack_traversal_mark x.
Proof. unfold cleaned. by case_match. Qed.
Lemma cleaned_idemp keep x : cleaned keep (cleaned keep x) = cleaned keep x.
Proof.
  assert (is_alive (cleaned keep x) = is_alive x) as E.
  { unfold is_alive, is_in_use, is_not_entrant. by destruct (cleaned_alike keep x) as [-> _]. }
  unfold cleaned at 1. rewrite E. unfold cleaned. destruct (is_alive x); [|done]. cbn. by rewrite map_filter_filter_l.
Qed.
Lemma keeps_call_alike nms nms' code d :
  (∀ x, nms !! d = Some x → ∃ x', nms' !! d = Some x' ∧ alike x x') → (nms !! d = None → nms' !! d = None) →
  keeps_call nms' code d = keeps_call nms code d.
Proof.
  intros Hs Hn. unfold keeps_call, is_in_use. destruct (nms !! d) as [x|]; [|by rewrite Hn].
  destruct (Hs x eq_refl) as (x' & -> & -> & _ & _ & -> & _). done.
Qed.
Lemma wp_gc_epilogue k :
  wp gc_epilogue k (λ _ k', ∃ nms, k' = c_set_clean false (c_set_nms nms k) ∧
    ∀ n, nms !! n = if c_clean k then cleaned (keeps_call (c_nms k) (c_code k)) <$> c_nms k !! n else c_nms k !! n).
Proof.
  apply wp_bind, (wp_reads c_clean); [done|].
  apply wp_bind, (wp_mono _ _ (λ _ k', ∃ nms, k' = c_set_nms nms k ∧ ∀ n, nms !! n =
    if c_clean k then cleaned (keeps_call (c_nms k) (c_code k)) <$> c_nms k !! n else c_nms k !! n)).
  2: { intros _ ? (nms & -> & Hn). apply (wp_modify (c_set_clean false)); [done|]. by exists nms. }
  destruct (c_clean k); [|apply wp_ret; exists (c_nms k); by rewrite c_set_nms_same].
  apply wp_bind, (wp_reads (λ k, (map_to_list (c_nms k)).*1)); [done|].
  assert (∀ n, n ∈ (map_to_list (c_nms k)).*1 ↔ is_Some (c_nms k !! n)) as Hin by apply elem_of_keys.
  set (keep := keeps_call (c_nms k) (c_code k)).
  eapply wp_mono; [apply (wp_mforeach_nms _ (cleaned keep))|].
  - apply cleaned_idemp.
  - intros n. apply Hin.
  - intros n x nms Hx Hs. eapply wp_bind, wp_field; [done|]. unfold cleaned.
    destruct (is_alive x) eqn:Ha; [|apply wp_ret; by rewrite insert_id].
    apply wp_bind, (wp_reads (λ k, keeps_call (c_nms k) (c_code k))); [done|]. eapply wp_update; [done|]. cbn.
    unfold c_set_nms. cbn. do 3 f_equal. apply map_filter_ext. intros i d _. cbn.
    assert (keeps_call nms (c_code k) d = keep d) as ->; [apply keeps_call_alike|done].
    + intros y Hy. destruct (Hs d) as [-> | ->]; rewrite Hy; cbn; eauto using cleaned_alike. by eexists.
    + intros Hy. by destruct (Hs d) as [-> | ->]; rewrite Hy.
  - cbn. intros _ k' (nms & -> & Hn). exists nms. split; [done|]. intros n. rewrite Hn. case_decide as Hd; [done|].
    rewrite Hin, <- eq_None_not_Some in Hd. by rewrite Hd.
Qed.

(** The nmethods after a collection, [l] the ones unloaded. *)
Section collected.
Context (V : Z → Prop) (zt : Z → Z) (k k1 : Core) (l : list Z) (nms : gmap Z nmethod).
Hypothesis Hok : ok V zt k.
Hypothesis Hun : unloading l k k1.
Hypothesis Halive : ∀ n x, n ∈ l → c_nms k !! n = Some x → alive x.
Hypothesis Hnms : ∀ n, nms !! n =
  if c_clean k1 then cleaned (keeps_call (c_nms k1) (c_code k1)) <$> c_nms k1 !! n else c_nms k1 !! n.

Lemma collected_in n x : n ∈ l → c_nms k !! n = Some x → nms !! n = Some (unload x).
Proof.
  intros Hn Hx. destruct Hun as (_ & H1 & _). rewrite Hnms, H1, decide_True, Hx by done. by destruct (c_clean k1).
Qed.
Lemma collected_out n x :
  n ∉ l → c_nms k !! n = Some x →
  ∃ x', nms !! n = Some x' ∧ alike x x' ∧ nm_stack_traversal_mark x' = nm_stack_traversal_mark x.
Proof.
  intros Hn Hx. destruct Hun as (_ & H1 & _). rewrite Hnms, H1, decide_False, Hx by done.
  destruct (c_clean k1); cbn; [|by eexists]. eexists. split; [done|]. split; [apply cleaned_alike|apply cleaned_mark].
Qed.
Lemma collected_back n x' :
  nms !! n = Some x' → ∃ x, c_nms k !! n = Some x ∧
    ((n ∈ l ∧ x' = unload x) ∨ ((n ∉ l) ∧ alike x x' ∧ nm_stack_traversal_mark x' = nm_stack_traversal_mark x)).
Proof.
  intros Hx'. destruct (c_nms k !! n) as [x|] eqn:Hx.
  - exists x. split; [done|]. destruct (decide (n ∈ l)) as [Hn|Hn].
    + left. rewrite (collected_in n x) in Hx' by done. by simplify_eq.
    + right. destruct (collected_out n x Hn Hx) as (y & Hy & Ha). by simplify_eq.
  - exfalso. destruct Hun as (_ & H1 & _). rewrite Hnms, H1, Hx in Hx'. by destruct (c_clean k1), (decide (n ∈ l)).
Qed.
(** A call that a live nmethod still has. *)
Lemma collected_call c x' site d :
  nms !! c = Some x' → alive x' → nm_calls x' !! site = Some d →
  ∃ y', nms !! d = Some y' ∧ callable V zt (c_traversals k) c d y'.
Proof.
  intros Hx' Ha Hd. destruct (collected_back c x' Hx') as (x & Hx & [[_ ->]|(Hcl & (Es & _) & _)]); [by destruct Ha|].
  assert (alive x) as Hax by (unfold alive in *; by rewrite <- Es).
  assert (nm_calls x !! site = Some d ∧ (c_clean k1 = true → keeps_call (c_nms k1) (c_code k1) d = true)) as [Hdx Hk].
  { pose proof Hun as (_ & H1 & _). rewrite Hnms, H1, decide_False, Hx in Hx' by done.
    destruct (c_clean k1); cbn in Hx'; injection Hx' as <-; [|done]. revert Hd. unfold cleaned.
    rewrite (proj2 (is_alive_spec x) Hax). cbn. by intros [? ?]%map_lookup_filter_Some. }
  destruct (ok_calls _ _ _ Hok _ _ _ _ Hx Hax Hdx) as (y & Hy & Ho & Hp & Hz).
  destruct (decide (d ∈ l)) as [Hdl|Hdl].
  - exists (unload y). split; [by apply collected_in|]. split_and!; [done| |done].
    intros Hpy. exfalso. pose proof Hun as (_ & H1 & _ & Hclean). destruct (c_clean k1).
    + specialize (Hk eq_refl). specialize (H1 d). rewrite decide_True, Hy in H1 by done.
      by apply (keeps_call_in_use _ _ _ _ Hk) in H1.
    + by apply (Hclean eq_refl d y Hdl Hy), Hp.
  - destruct (collected_out d y Hdl Hy) as (y' & Hy' & (E1 & E2 & E3 & _) & _). exists y'.
    unfold callable. by rewrite E1, E2, E3.
Qed.
Lemma collected_fine n x' : nms !! n = Some x' → fine V zt (c_traversals k) n x'.
Proof.
  intros Hx'. destruct (collected_back n x' Hx') as (x & Hx & [[Hn ->]|(Hcl & (E1 & E2 & E3 & E4 & _ & E6) & Em)]).
  - pose proof (Halive n x Hn Hx) as Ha. pose proof (ok_fine _ _ _ Hok _ _ Hx) as Hf.
    destruct Hf as [Hfa Hfm Hfz Hfr Hfo Hfp Hfd]. split; cbn; try done.
    + intros [Hz _]%Hfr. destruct Ha; congruence.
    + by intros _ [?|?].
  - destruct (ok_fine _ _ _ Hok _ _ Hx). split; rewrite ?E1, ?E2, ?E3, ?E4, ?E6, ?Em; done.
Qed.
Lemma ok_collected :
  (∀ n, n ∈ l → ¬ stacked k n) → (∀ n, ¬ awaited k n) → ok V zt (c_set_clean false (c_set_nms nms k1)).
Proof.
  intros Hst Hw. pose proof Hun as (E & H1 & H2 & _). rewrite E. split; cbn.
  - apply collected_fine.
  - intros n Hn. destruct (ok_stack _ _ _ Hok n Hn) as (x & Hx & Ha).
    destruct (collected_out n x) as (x' & Hx' & (E1 & _) & Em); [by intros ?%Hst|done|].
    exists x'. unfold active, alive. by rewrite E1, Em.
  - intros n Hn. by destruct (Hw n).
  - apply collected_call.
  - intros m n Hm. destruct (H2 m n Hm) as [Hk Hn]. destruct (ok_code _ _ _ Hok m n Hk) as (x & Hx & Hp).
    destruct (collected_out n x Hn Hx) as (x' & Hx' & (E1 & E2 & _ & E4 & _) & _). exists x'. unfold published.
    by rewrite E1, E2, E4.
  - intros n x' Hx'. destruct (collected_back n x' Hx') as (x & Hx & [[_ ->]|(_ & (_ & _ & _ & _ & -> & _) & _)]).
    all: exact (ok_count _ _ _ Hok n x Hx).
  - intros n Hn. destruct (ok_locks _ _ _ Hok n Hn) as (x & Hx). destruct (decide (n ∈ l)) as [Hl|Hl].
    + by rewrite (collected_in n x Hl Hx).
    + destruct (collected_out n x Hl Hx) as (x' & Hx' & _). eauto.
Qed.
End collected.

Lemma wp_unload N k l :
  inv N k → NoDup l → (∀ n, n ∈ l → (∃ x, c_nms k !! n = Some x ∧ alive x) ∧ ¬ stacked k n) → (∀ n, ¬ awaited k n) →
  wp (mforeach make_unloaded l;; gc_epilogue) k (λ _ k', inv N k').
Proof.
  intros Hi Hnd Hl Hw. destruct (inv_ok _ _ Hi) as [zt Hok]. apply wp_bind.
  eapply wp_mono; [eapply wp_unload_all; [done..|]; intros n Hn; destruct (Hl n Hn) as [(x & Hx & _) _]; eauto|].
  cbn. intros _ k1 Hun. eapply wp_mono; [apply wp_gc_epilogue|]. cbn. intros _ k' (nms & -> & Hnms).
  assert (∀ n x, n ∈ l → c_nms k !! n = Some x → alive x) as Ha.
  { intros n x Hn Hx. destruct (Hl n Hn) as [(y & Hy & ?) _]. by simplify_eq. }
  eapply (inv_frame _ k _ zt); [done| |destruct Hun as [E _]; by rewrite E|].
  - eapply ok_collected; [exact Hok|exact Hun|exact Ha|exact Hnms| |done]. intros n Hn. by apply Hl.
  - intros d [x Hx]. cbn. destruct (decide (d ∈ l)) as [Hin|Hin].
    + by erewrite collected_in.
    + edestruct collected_out as (x' & Hx' & _); eauto.
Qed.

(** ** Threads *)

Lemma ok_set_thread V zt k t th :
  ok V zt k →
  (∀ n, n ∈ t_stack th → stacked k n ∨ ∃ x, c_nms k !! n = Some x ∧ active (c_traversals k) x) →
  (∀ n, t_pending th = Some n → ∃ x, c_nms k !! n = Some x ∧ enterable zt (c_traversals k) n x) →
  ok V zt (c_set_threads (<[t := th]> (c_threads k)) k).
Proof.
  intros Hok Hs Hp. split; try apply Hok; cbn.
  - intros n (u & thu & Hu & Hn). cbn in Hu. apply lookup_insert_Some in Hu as [[<- <-]|[_ Hu]].
    + destruct (Hs n Hn) as [H|H]; [by apply (ok_stack _ _ _ Hok)|done].
    + apply (ok_stack _ _ _ Hok). by exists u, thu.
  - intros n (u & thu & Hu & Hn). cbn in Hu. apply lookup_insert_Some in Hu as [[<- <-]|[_ Hu]]; [auto|].
    apply (ok_wait _ _ _ Hok). by exists u, thu.
Qed.
Lemma wp_set_thread t th k (Q : unit → Core → Prop) :
  Q tt (c_set_threads (<[t := th]> (c_threads k)) k) → wp (set_thread t th) k Q.
Proof. by apply (wp_modify (λ k, c_set_threads (<[t := th]> (c_threads k)) k)). Qed.
Lemma wp_get_thread t th k (Q : jthread → Core → Prop) :
  c_threads k !! t = Some th → Q th k → wp (get_thread t) k Q.
Proof. intros Ht HQ s <-. exists th, s. unfold get_thread. cbn in Ht. by rewrite Ht. Qed.
Lemma wp_top_nmethod t c rest p k (Q : Z → Core → Prop) :
  c_threads k !! t = Some (mkThread (c :: rest) p) → Q c k → wp (top_nmethod t) k Q.
Proof. intros Ht HQ. eapply wp_bind, wp_get_thread; [done|]. by apply wp_ret. Qed.
Lemma inv_set_thread N k t th zt :
  inv N k → ok (passed (c_current k)) zt (c_set_threads (<[t := th]> (c_threads k)) k) →
  inv N (c_set_threads (<[t := th]> (c_threads k)) k).
Proof. intros [] Hok. split; cbn; eauto. Qed.

Lemma in_use_enterable zt T n x : nm_state x = in_use → enterable zt T n x.
Proof. intros Hu. split; [intros _; split; [by left|congruence]|congruence]. Qed.
Lemma callable_enterable V zt T c n x : callable V zt T c n x → enterable zt T n x.
Proof.
  intros (Ho & Hp & Hz). split.
  - intros Hu%Hp. split; [by left|congruence].
  - intros [?|[? _]]%Hz; lia.
Qed.
Lemma wp_about_to_enter N k t th n x zt :
  inv N k → ok (passed (c_current k)) zt k → c_threads k !! t = Some th → c_nms k !! n = Some x →
  enterable zt (c_traversals k) n x → wp (about_to_enter t n) k (λ _ k', inv N k').
Proof.
  intros Hi Hok Ht Hx He. eapply wp_bind, wp_get_thread; [done|]. apply wp_set_thread.
  eapply inv_set_thread; [done|]. apply ok_set_thread; [done|..]; cbn.
  - intros m Hm. left. by exists t, th.
  - intros m [= <-]. eauto.
Qed.
Lemma wp_call_site N k t c rest site :
  inv N k → c_threads k !! t = Some (mkThread (c :: rest) None) → wp (call_site t site) k (λ _ k', inv N k').
Proof.
  intros Hi Ht. destruct (inv_ok _ _ Hi) as [zt Hok].
  destruct (ok_stack _ _ _ Hok c) as (x & Hx & Ha & _); [eexists _, _; split; [done|left]|].
  eapply wp_bind, wp_top_nmethod; [done|]. eapply wp_bind, wp_field; [done|].
  destruct (nm_calls x !! site) as [d|] eqn:Hd; [|by apply wp_ret].
  destruct (ok_calls _ _ _ Hok _ _ _ _ Hx Ha Hd) as (y & Hy & Hc). eapply wp_about_to_enter; eauto using callable_enterable.
Qed.
Lemma wp_call_method N k t th m :
  inv N k → c_threads k !! t = Some th → wp (call_method t m) k (λ _ k', inv N k').
Proof.
  intros Hi Ht. destruct (inv_ok _ _ Hi) as [zt Hok]. apply wp_bind, wp_method_code. unfold code_of.
  destruct (c_code k !! m) as [n|] eqn:Hn; cbn; [|by apply wp_ret]. case_match; [by apply wp_ret|].
  destruct (ok_code _ _ _ Hok m n Hn) as (x & Hx & Hu & _). eapply wp_about_to_enter; eauto using in_use_enterable.
Qed.
Lemma wp_call_installed N k t th n x :
  inv N k → c_threads k !! t = Some th → c_nms k !! n = Some x → nm_is_osr x = false →
  wp (call_installed t n) k (λ _ k', inv N k').
Proof.
  intros Hi Ht Hx Ho. destruct (inv_ok _ _ Hi) as [zt Hok]. eapply wp_bind, wp_field; [done|].
  destruct (is_alive x) eqn:Ha; [|by apply wp_ret]. apply is_alive_spec in Ha.
  eapply wp_about_to_enter; eauto. destruct Ha as [Hu|Hn]; [by apply in_use_enterable|].
  assert (nm_patched x = true) by (apply (fine_patched _ _ _ _ _ (ok_fine _ _ _ Hok _ _ Hx)); auto).
  split; congruence.
Qed.
Lemma wp_enter N k t th :
  inv N k → c_threads k !! t = Some th → wp (enter t) k (λ _ k', inv N k').
Proof.
  intros Hi Ht. destruct (inv_ok _ _ Hi) as [zt Hok]. eapply wp_bind, wp_get_thread; [done|].
  destruct (t_pending th) as [n|] eqn:Hp; [|by apply wp_ret].
  destruct (ok_wait _ _ _ Hok n) as (x & Hx & He & _); [by exists t, th|].
  eapply wp_bind, wp_field; [done|]. apply wp_set_thread. eapply inv_set_thread; [done|].
  apply ok_set_thread; [done| |done]. cbn. intros m Hm.
  assert (stacked k m ∨ m = n ∧ nm_patched x = false) as [?|[-> ?]]; [|by left|right; eauto].
  destruct (nm_patched x); [left; by exists t, th|]. apply elem_of_cons in Hm as [->|Hm]; [by right|left; by exists t, th].
Qed.
Lemma wp_return N k t th :
  inv N k → c_threads k !! t = Some th → t_pending th = None → wp (return_ t) k (λ _ k', inv N k').
Proof.
  intros Hi Ht Hp. destruct (inv_ok _ _ Hi) as [zt Hok]. eapply wp_bind, wp_get_thread; [done|].
  destruct (t_stack th) as [|c rest] eqn:Hs; [by apply wp_ret|]. apply wp_bind, wp_set_thread.
  assert (∀ m, m ∈ rest → stacked k m) as Hr by (intros m Hm; exists t, th; rewrite Hs; split; [done|by right]).
  assert (inv N (c_set_threads (<[t := mkThread rest (t_pending th)]> (c_threads k)) k)) as Hi'.
  { eapply inv_set_thread; [done|]. apply ok_set_thread; [done|auto|]. cbn. congruence. }
  destruct rest as [|d rest]; [by apply wp_ret|].
  destruct (ok_stack _ _ _ Hok d) as (x & Hx & _); [apply Hr; left|].
  eapply wp_bind, wp_field; [done|]. by apply wp_ret.
Qed.

(** ** Call sites, locks and new code *)

Lemma inv_alter N k n x x' zt :
  inv N k → c_nms k !! n = Some x → ok (passed (c_current k)) zt (c_set_nms (<[n := x']> (c_nms k)) k) →
  inv N (c_set_nms (<[n := x']> (c_nms k)) k).
Proof.
  intros Hi Hx Hok. eapply inv_frame; [done..|]. intros d Hd. cbn.
  destruct (decide (d = n)) as [->|]; [by rewrite lookup_insert_eq|by rewrite lookup_insert_ne].
Qed.
(** The site of a live nmethod is bound to one that is in use. *)
Lemma ok_bind V zt k c x site d y :
  ok V zt k → c_nms k !! c = Some x → c_nms k !! d = Some y → alive x →
  nm_state y = in_use → nm_is_osr y = false →
  ok V zt (c_set_nms (<[c := nm_set_calls (<[site := d]> (nm_calls x)) x]> (c_nms k)) k).
Proof.
  intros Hok Hx Hy Ha Hu Ho. set (x' := nm_set_calls _ x).
  assert (∀ m z, c_nms k !! m = Some z → callable V zt (c_traversals k) c m z →
    ∃ z', <[c := x']> (c_nms k) !! m = Some z' ∧ callable V zt (c_traversals k) c m z') as Hdest.
  { intros m z Hz Hc. destruct (decide (m = c)) as [->|].
    - rewrite lookup_insert_eq. exists x'. split; [done|]. rewrite Hx in Hz. by injection Hz as <-.
    - rewrite lookup_insert_ne by done. eauto. }
  eapply ok_alter_visit; [done|done|done|done|done|..].
  - by destruct (ok_fine _ _ _ Hok _ _ Hx).
  - intros Hs. destruct (ok_stack _ _ _ Hok c Hs) as (z & Hz & H). rewrite Hx in Hz. by injection Hz as <-.
  - intros Hs. destruct (ok_wait _ _ _ Hok c Hs) as (z & Hz & H). rewrite Hx in Hz. by injection Hz as <-.
  - done.
  - intros _ site' m Hm. cbn in Hm. apply lookup_insert_Some in Hm as [[<- <-]|[_ Hm]].
    + apply (Hdest d y Hy). split_and!; [done..|congruence].
    + destruct (ok_calls _ _ _ Hok _ _ _ _ Hx Ha Hm) as (z & Hz & Hc). eauto.
  - intros m Hm. destruct (ok_code _ _ _ Hok m c Hm) as (z & Hz & H). rewrite Hx in Hz. by injection Hz as <-.
  - done.
Qed.
Lemma wp_resolve N k t c rest site m :
  inv N k → c_threads k !! t = Some (mkThread (c :: rest) None) →
  wp (resolve_sub_helper t site m) k (λ _ k', inv N k').
Proof.
  intros Hi Ht. destruct (inv_ok _ _ Hi) as [zt Hok].
  destruct (ok_stack _ _ _ Hok c) as (x & Hx & Ha & _); [eexists _, _; split; [done|left]|].
  eapply wp_bind, wp_top_nmethod; [done|]. eapply wp_bind, wp_field; [done|].
  apply wp_bind, wp_massert; [by apply is_alive_spec|]. apply wp_bind, wp_method_code. unfold code_of.
  destruct (c_code k !! m) as [n|] eqn:Hn; cbn; [|by apply wp_ret]. case_match; [by apply wp_ret|].
  destruct (ok_code _ _ _ Hok m n Hn) as (y & Hy & Hu & Ho & _).
  eapply wp_bind, wp_field; [done|]. eapply wp_bind, wp_field; [done|]. case_match; [|by apply wp_ret].
  eapply wp_update; [done|]. eapply inv_alter; [done..|]. by eapply ok_bind.
Qed.

Lemma ok_count_change V zt k n x c locks :
  ok V zt k → c_nms k !! n = Some x →
  (∀ m, holders (c_set_locks locks k) m = if decide (m = n) then c else holders k m) →
  (∀ m, m ∈ locks → m = n ∨ m ∈ c_locks k) →
  ok V zt (c_set_locks locks (c_set_nms (<[n := nm_set_lock_count c x]> (c_nms k)) k)).
Proof.
  intros Hok Hx Hh Hl.
  assert (∀ m y, c_nms k !! m = Some y → ∃ y', <[n := nm_set_lock_count c x]> (c_nms k) !! m = Some y' ∧
    (y' = y ∨ y' = nm_set_lock_count c y)) as Hforth.
  { intros m y Hy. destruct (decide (m = n)) as [->|Hmn].
    - rewrite lookup_insert_eq. rewrite Hx in Hy. injection Hy as <-. eauto.
    - rewrite lookup_insert_ne by done. eauto. }
  split; cbn.
  - intros m y [[<- <-]|[_ Hy]]%lookup_insert_Some; [|by apply (ok_fine _ _ _ Hok)].
    by destruct (ok_fine _ _ _ Hok _ _ Hx).
  - intros m Hm. destruct (ok_stack _ _ _ Hok m Hm) as (y & Hy & H). destruct (Hforth m y Hy) as (y' & Hy' & [-> | ->]); eauto.
  - intros m Hm. destruct (ok_wait _ _ _ Hok m Hm) as (y & Hy & H). destruct (Hforth m y Hy) as (y' & Hy' & [-> | ->]); eauto.
  - intros m y site d Hy Ha Hd.
    assert (∃ z, c_nms k !! m = Some z ∧ alive z ∧ nm_calls z !! site = Some d) as (z & Hz & Haz & Hdz).
    { apply lookup_insert_Some in Hy as [[<- <-]|[_ Hy]]; eauto. }
    destruct (ok_calls _ _ _ Hok _ _ _ _ Hz Haz Hdz) as (w & Hw & H). destruct (Hforth d w Hw) as (w' & Hw' & [-> | ->]); eauto.
  - intros m d Hd. destruct (ok_code _ _ _ Hok m d Hd) as (y & Hy & H). destruct (Hforth d y Hy) as (y' & Hy' & [-> | ->]); eauto.
  - intros m y Hy. change (nm_lock_count y = holders (c_set_locks locks k) m). rewrite Hh.
    apply lookup_insert_Some in Hy as [[<- <-]|[Hn Hy]]; [by rewrite decide_True|].
    rewrite decide_False by done. by apply (ok_count _ _ _ Hok).
  - intros m [->|Hm]%Hl; [by rewrite lookup_insert_eq|]. destruct (ok_locks _ _ _ Hok m Hm) as (y & Hy).
    destruct (Hforth m y Hy) as (y' & Hy' & _). eauto.
Qed.
Lemma times_cons a l n : times (a :: l) n = (if decide (n = a) then 1 else 0) + times l n.
Proof.
  unfold times. rewrite filter_cons. destruct (decide (a = n)) as [->|Hne]; [rewrite decide_True by done; cbn; lia|].
  rewrite decide_False by congruence. lia.
Qed.
Lemma times_remove n l m : n ∈ l → times (list_remove_one n l) m = times l m - if decide (m = n) then 1 else 0.
Proof.
  induction l as [|a l IH]; intros Hn; [by apply elem_of_nil in Hn|]. cbn [list_remove_one].
  destruct (Z.eqb_spec a n) as [->|Hne]; [rewrite times_cons; lia|].
  apply elem_of_cons in Hn as [->|Hn]; [done|]. rewrite !times_cons, IH by done. lia.
Qed.
Lemma remove_sub n l m : m ∈ list_remove_one n l → m ∈ l.
Proof.
  induction l as [|a l IH]; cbn; [done|]. case_match; [by right|]. intros [->|?]%elem_of_cons; [left|right; auto].
Qed.
Lemma length_remove n l : (length (list_remove_one n l) ≤ length l)%nat.
Proof. induction l as [|a l IH]; cbn; [done|]. case_match; cbn; lia. Qed.
Lemma wp_lock_step N k n x b :
  inv N k → N < 2 ^ 31 - 1 → c_nms k !! n = Some x → (b = true ∨ nm_state x ≠ zombie) →
  wp (lock_nmethod n b;; modify (λ s, vm_set_locks (n :: vm_locks s) s)) k (λ _ k', inv (N + 1) k').
Proof.
  intros Hi HN Hx Hz. pose proof (inv_bounded _ _ Hi HN) as Hb. destruct Hi as [[zt Hok] Hc Hl Hid Ht Hlk].
  pose proof (fine_addr _ _ _ _ _ (ok_fine _ _ _ Hok _ _ Hx)) as Hn. pose proof (holders_range k n Hb).
  pose proof (ok_count _ _ _ Hok _ _ Hx) as Hcn.
  eapply wp_bind, wp_lock; [done..|]. apply (wp_modify (λ k, c_set_locks (n :: c_locks k) k)); [done|].
  split; cbn; try done; try lia.
  - exists zt. apply (ok_count_change _ _ k); [done..| |].
    + intros m. unfold holders at 1. cbn [c_locks c_set_locks]. rewrite times_cons. case_decide as Hm; [|done].
      rewrite s32_id by lia. subst m. fold (holders k n). lia.
    + intros m [->|?]%elem_of_cons; auto.
  - destruct Hc as [?|Hc]; [by left|right]. destruct (decide (c_current k = n)) as [->|]; [by rewrite lookup_insert_eq|].
    by rewrite lookup_insert_ne.
Qed.
Lemma wp_unlock_step N k n :
  inv N k → N < 2 ^ 31 - 1 → n ∈ c_locks k →
  wp (unlock_nmethod n;; modify (λ s, vm_set_locks (list_remove_one n (vm_locks s)) s)) k (λ _ k', inv N k').
Proof.
  intros Hi HN Hin. pose proof (inv_bounded _ _ Hi HN) as Hb. destruct Hi as [[zt Hok] Hc Hl Hid Ht Hlk].
  destruct (ok_locks _ _ _ Hok n Hin) as (x & Hx).
  pose proof (fine_addr _ _ _ _ _ (ok_fine _ _ _ Hok _ _ Hx)) as Hn. pose proof (holders_range k n Hb).
  pose proof (ok_count _ _ _ Hok _ _ Hx) as Hcn. pose proof (holders_pos k n Hin).
  eapply wp_bind, wp_unlock; [done..|rewrite s32_id; lia|].
  apply (wp_modify (λ k, c_set_locks (list_remove_one n (c_locks k)) k)); [done|].
  split; cbn; try done.
  - exists zt. apply (ok_count_change _ _ k); [done..| |].
    + intros m. unfold holders at 1. cbn [c_locks c_set_locks]. rewrite times_remove by done.
      change (holders k m) with (times (c_locks k) m).
      case_decide as Hm; [|lia]. rewrite s32_id by lia. subst m. fold (holders k n). lia.
    + intros m ?%remove_sub. auto.
  - destruct Hc as [?|Hc]; [by left|right]. destruct (decide (c_current k = n)) as [->|]; [by rewrite lookup_insert_eq|].
    by rewrite lookup_insert_ne.
  - pose proof (length_remove n (c_locks k)). lia.
Qed.

(** A new nmethod, at an address nothing refers to. *)
Lemma ok_new V zt k n m size osr native c2 :
  ok V zt k → bounded k → c_nms k !! n = None → 0 < n → m ≠ 0 →
  ok V zt (c_set_nms (<[n := new_nmethod m size osr native c2]> (c_nms k)) k).
Proof.
  intros Hok [_ Hb] Hn Hpos Hm. set (x := new_nmethod _ _ _ _ _).
  assert (∀ d y, c_nms k !! d = Some y → <[n := x]> (c_nms k) !! d = Some y) as Hforth.
  { intros d y Hy. rewrite lookup_insert_ne; [done|congruence]. }
  split; cbn.
  - intros d y [[<- <-]|[_ Hy]]%lookup_insert_Some; [|by apply (ok_fine _ _ _ Hok)]. split; cbn; try done; try lia.
    by intros _ [?|?].
  - intros d Hd. destruct (ok_stack _ _ _ Hok d Hd) as (y & Hy & H). eauto.
  - intros d Hd. destruct (ok_wait _ _ _ Hok d Hd) as (y & Hy & H). eauto.
  - intros c y site d [[<- <-]|[_ Hy]]%lookup_insert_Some Ha Hd; [cbn in Hd; by rewrite lookup_empty in Hd|].
    destruct (ok_calls _ _ _ Hok _ _ _ _ Hy Ha Hd) as (z & Hz & H). eauto.
  - intros c d Hd. destruct (ok_code _ _ _ Hok c d Hd) as (y & Hy & H). eauto.
  - intros d y [[<- <-]|[_ Hy]]%lookup_insert_Some; [|by apply (ok_count _ _ _ Hok)]. cbn.
    unfold holders, times. cbn. destruct (filter _ _) as [|a l] eqn:E; [done|].
    assert (a ∈ filter (λ m, m = n) (c_locks k)) as [-> Ha]%list_elem_of_filter by (rewrite E; left).
    apply (ok_locks _ _ _ Hok) in Ha as [y Hy]. congruence.
  - intros d Hd. destruct (ok_locks _ _ _ Hok d Hd) as (y & Hy). eauto.
Qed.
Lemma wp_replace_old V zt k n m :
  ok V zt k → bounded k → c_code k !! m ≠ Some n → 0 < n →
  wp (replace_old m) k (λ _ k', ok V zt k' ∧ (∃ old, old ≠ n ∧ only old k k') ∧
    ∀ d, is_Some (c_nms k !! d) → is_Some (c_nms k' !! d)).
Proof.
  intros Hok Hb Hn Hpos. apply wp_bind, wp_method_code.
  case_match eqn:E; [|apply wp_ret; split_and!; [done| |done]; exists 0; split; [lia|apply only_refl]].
  apply andb_true_iff in E as [_ E%negb_true_iff%Z.eqb_neq]. revert E. unfold code_of. cbn.
  destruct (c_code k !! m) as [old|] eqn:Ho; [|done]. cbn. intros _. apply wp_bind.
  destruct (ok_code _ _ _ Hok m old Ho) as (y & Hy & Hu & _).
  eapply wp_make_not_entrant; [done|done|done|by left|congruence|]. intros _. apply wp_ret.
  split_and!; [by apply ok_closed| |].
  - exists old. split; [congruence|apply only_insert_code].
  - intros d Hd. cbn. destruct (decide (d = old)) as [->|]; [by rewrite lookup_insert_eq|by rewrite lookup_insert_ne].
Qed.
Lemma wp_register N k n m size osr native c2 default_code :
  inv N k → N < 2 ^ 31 - 1 → 0 < n → c_nms k !! n = None → m ≠ 0 →
  wp (register_method n m size osr native c2 default_code) k (λ _ k', inv N k').
Proof.
  intros Hi HN Hpos Hn Hm. pose proof (inv_bounded _ _ Hi HN) as Hb. destruct (inv_ok _ _ Hi) as [zt Hok].
  set (x := new_nmethod m size osr native c2).
  apply wp_bind, (wp_modify (λ k, c_set_nms (<[n := x]> (c_nms k)) k)); [done|]. set (k1 := c_set_nms _ k).
  assert (ok (passed (c_current k)) zt k1) as Hok1 by (by apply ok_new).
  assert (∀ d, is_Some (c_nms k !! d) → is_Some (c_nms k1 !! d)) as Hd1.
  { intros d [y Hy]. cbn. rewrite lookup_insert_ne by congruence. eauto. }
  destruct (default_code && negb osr) eqn:Hd; [|apply wp_ret; eapply inv_frame; eauto].
  apply andb_true_iff in Hd as [_ Ho%negb_true_iff]. apply wp_bind. eapply wp_mono.
  { eapply (wp_replace_old _ _ k1 n); [exact Hok1|done| |done]. cbn. intros Hc.
    destruct (ok_code _ _ _ Hok m n Hc) as (y & Hy & _). congruence. }
  cbn. intros _ k2 (Hok2 & (old & Hne & E & Hother) & Hd2).
  apply (wp_modify (λ k, c_set_code (<[m := n]> (c_code k)) k)); [done|].
  eapply (inv_frame _ k _ zt); [done| |by rewrite E|auto]. split; try apply Hok2. cbn.
  intros m' d [[<- <-]|[_ Hd]]%lookup_insert_Some; [|by apply (ok_code _ _ _ Hok2)].
  exists x. split; [rewrite Hother by done; cbn; apply lookup_insert_eq|by split_and!].
Qed.

(** ** Every step *)

Lemma running_thread t s : running t s = true → ∃ th, vm_threads s !! t = Some th ∧ t_pending th = None.
Proof. unfold running. destruct (vm_threads s !! t) as [th|]; [|done]. intros H%bool_decide_eq_true. eauto. Qed.
Lemma in_code_thread t s : in_code t s = true → ∃ c rest, vm_threads s !! t = Some (mkThread (c :: rest) None).
Proof. unfold in_code. destruct (vm_threads s !! t) as [[[|c rest] [|]]|]; try done. eauto. Qed.
Lemma is_nmethod_Some P n s : is_nmethod P n s = true → ∃ x, vm_nms s !! n = Some x ∧ P x = true.
Proof. unfold is_nmethod. destruct (vm_nms s !! n); [eauto|done]. Qed.
Lemma forallb_elem {A} (f : A → bool) l x : forallb f l = true → x ∈ l → f x = true.
Proof. rewrite forallb_forall. intros Hf Hx. by apply Hf, list_elem_of_In. Qed.
Lemma no_pending_awaited s n : no_pending s = true → ¬ awaited (core s) n.
Proof.
  intros Hp (t & th & Ht%elem_of_map_to_list & Hn). apply (forallb_elem _ _ _ Hp), bool_decide_eq_true in Ht.
  cbn in Ht. congruence.
Qed.
Lemma wp_run {A} (m : M VM A) s (Q : A → Core → Prop) :
  wp m (core s) Q → ∃ r s', m s = Some (r, s') ∧ Q r (core s').
Proof. intros H. by apply H. Qed.

Lemma exec_call N st s :
  inv N (core s) → enabled st s = true →
  match st with
  | Call_site _ _ | Call_method _ _ | Call_osr _ _ | Call_installed _ _ | Enter _ | Return _ | Resolve _ _ _ =>
      wp (exec st) (core s) (λ _ k', inv N k')
  | _ => True
  end.
Proof.
  intros Hi He. destruct st; try done; cbn in He |- *.
  - apply in_code_thread in He as (c & rest & Ht). by eapply wp_call_site.
  - apply running_thread in He as (th & Ht & _). by eapply wp_call_method.
  - apply andb_true_iff in He as [(th & Ht & _)%running_thread (x & Hx & Hb)%is_nmethod_Some].
    apply andb_true_iff in Hb as [_ Hu%bool_decide_eq_true]. destruct (inv_ok _ _ Hi) as [zt Hok].
    eapply wp_about_to_enter; eauto using in_use_enterable.
  - apply andb_true_iff in He as [(th & Ht & _)%running_thread (x & Hx & Ho%negb_true_iff)%is_nmethod_Some].
    by eapply wp_call_installed.
  - apply bool_decide_eq_true in He as [th Ht]. by eapply wp_enter.
  - apply running_thread in He as (th & Ht & Hp). by eapply wp_return.
  - apply in_code_thread in He as (c & rest & Ht). by eapply wp_resolve.
Qed.
Lemma exec_nmethod N st s :
  inv N (core s) → N < 2 ^ 31 - 1 → enabled st s = true →
  match st with
  | Register _ _ _ _ _ _ _ | Clean_site _ _ | Deoptimize _ | Lock _ _ | Unlock _ =>
      wp (exec st) (core s) (λ _ k', inv (N + 1) k')
  | _ => True
  end.
Proof.
  intros Hi HN He. destruct st; try done; cbn in He |- *.
  - apply andb_true_iff in He as [[Hn%Z.ltb_lt Hx%bool_decide_eq_true]%andb_true_iff Hm%negb_true_iff%Z.eqb_neq].
    eapply wp_mono; [by eapply wp_register|]. auto using inv_weaken.
  - apply is_nmethod_Some in He as (x & Hx & Ha). destruct (inv_ok _ _ Hi) as [zt Hok].
    eapply wp_update; [done|]. apply inv_weaken. eapply inv_alter; [done..|]. eapply ok_alter_same; try done. cbn.
    intros site' d [_ Hd]%lookup_delete_Some. eauto.
  - apply is_nmethod_Some in He as (x & Hx & Ha%is_alive_spec). destruct (inv_ok _ _ Hi) as [zt Hok].
    pose proof (inv_bounded _ _ Hi HN) as Hb.
    eapply wp_bind, wp_make_not_entrant; [done..| |]; intros Hs; apply wp_ret, inv_weaken; [done|].
    eapply inv_frame; [done|by apply ok_closed|done|]. intros d Hd. cbn.
    destruct (decide (d = n)) as [->|]; [by rewrite lookup_insert_eq|by rewrite lookup_insert_ne].
  - apply is_nmethod_Some in He as (x & Hx & [Hb|Hb]%orb_true_iff); eapply wp_lock_step; eauto.
    right. by apply negb_true_iff, bool_decide_eq_false in Hb.
  - apply bool_decide_eq_true in He. eapply wp_mono; [by eapply wp_unlock_step|]. auto using inv_weaken.
Qed.
Lemma exec_inv N st s :
  inv N (core s) → N < 2 ^ 31 - 1 → enabled st s = true → wp (exec st) (core s) (λ _ k', inv (N + 1) k').
Proof.
  intros Hi HN He. pose proof (exec_call N st s Hi He) as H1. pose proof (exec_nmethod N st s Hi HN He) as H2.
  destruct st; try done; try (eapply wp_mono; [exact H1|]; auto using inv_weaken); clear H1 H2; cbn in He |- *.
  - destruct (inv_ok _ _ Hi) as [zt Hok]. apply wp_set_thread, inv_weaken. eapply inv_set_thread; [done|].
    apply ok_set_thread; [done| |done]. intros n Hn. by apply elem_of_nil in Hn.
  - unfold handle_full_code_cache. destruct UseCodeCacheFlushing; [|by apply wp_ret, inv_weaken].
    apply wp_bind, (wp_modify id); [done|]. eapply wp_mono; [by apply wp_possibly_sweep|]. auto using inv_weaken.
  - apply wp_safepoint; [done..|]. intros n. by apply no_pending_awaited.
  - apply andb_true_iff in He as [[Hp Hnd%bool_decide_eq_true]%andb_true_iff Hl].
    eapply wp_mono; [eapply wp_unload; [done..| |]|auto using inv_weaken].
    + intros n Hn. pose proof (forallb_elem _ _ _ Hl Hn) as Hb. cbn in Hb.
      apply andb_true_iff in Hb as [(x & Hx & Ha%is_alive_spec)%is_nmethod_Some Hs%bool_decide_eq_true].
      split; [eauto|]. by rewrite stacked_activations.
    + intros n. by apply no_pending_awaited.
  - eapply wp_mono; [by apply wp_possibly_sweep|]. auto using inv_weaken.
  - apply wp_bind, wp_loop. intros [l|] Hlp; [|by apply wp_ret, inv_weaken].
    eapply wp_mono; [eapply wp_sweep_next; [done..|by rewrite Hlp, bool_decide_eq_true_2]|].
    cbn. intros _ k' (next & k1 & [Hsw _ _ _ _] & Ht). apply inv_weaken. by eapply sweep_test_inv.
Qed.
Lemma run_inv l N s :
  inv N (core s) → N + Z.of_nat (length l) < 2 ^ 31 →
  ∃ s', run l s = Some (tt, s') ∧ inv (N + Z.of_nat (length l)) (core s').
Proof.
  revert N s. induction l as [|st l IH]; intros N s Hi HN; cbn [run mforeach length] in *.
  - exists s. split; [done|]. by rewrite Z.add_0_r.
  - assert (∃ s', step st s = Some (tt, s') ∧ inv (N + 1) (core s')) as (s1 & E1 & Hi1).
    { unfold step. destruct (enabled st s) eqn:He; [|eauto using inv_weaken].
      destruct (exec_inv N st s Hi ltac:(lia) He s eq_refl) as ([] & s1 & E & H). eauto. }
    destruct (IH (N + 1) s1 Hi1 ltac:(lia)) as (s' & E & H). exists s'. split.
    + unfold run in *. cbn [mforeach]. by rewrite (M_bind_Some _ _ _ _ _ E1).
    + by replace (N + Z.of_nat (S (length l))) with (N + 1 + Z.of_nat (length l)) by lia.
Qed.
Lemma initial_inv : inv 0 (core initial).
Proof.
  split; cbn; try done; [|by left]. exists (λ _, 0).
  split; cbn; try (intros ??; by rewrite lookup_empty).
  - intros n (t & th & Ht & _). cbn in Ht. by rewrite lookup_empty in Ht.
  - intros n (t & th & Ht & _). cbn in Ht. by rewrite lookup_empty in Ht.
  - by intros n Hn%elem_of_nil.
Qed.

(** Nothing refers to an nmethod that was flushed: the code of a frame and the
    code of a method are alive, what a thread is about to enter is alive or sends
    it away, the call sites of live code and the locks of the VM lead to nmethods
    that are there, one sweep runs at a time. *)
Record safe (s : VM) : Prop := {
  safe_frames : ∀ t th n, vm_threads s !! t = Some th → n ∈ t_stack th →
    ∃ x, vm_nms s !! n = Some x ∧ is_alive x = true;
  safe_calls : ∀ t th n, vm_threads s !! t = Some th → t_pending th = Some n →
    ∃ x, vm_nms s !! n = Some x ∧ (nm_patched x = true ∨ is_alive x = true);
  safe_sites : ∀ c x site d, vm_nms s !! c = Some x → is_alive x = true → nm_calls x !! site = Some d →
    ∃ y, vm_nms s !! d = Some y ∧ (nm_patched y = true ∨ is_in_use y = true);
  safe_methods : ∀ m n, vm_code s !! m = Some n → ∃ x, vm_nms s !! n = Some x ∧ is_in_use x = true ∧ nm_method x = m;
  safe_locks : ∀ n, n ∈ vm_locks s → ∃ x, vm_nms s !! n = Some x ∧ 0 < nm_lock_count x;
  safe_sweeper : is_Some (sw_loop (vm_sweeper s)) ↔ sw_sweep_started (vm_sweeper s) ≠ 0
}.
Lemma inv_safe N s : inv N (core s) → safe s.
Proof.
  intros Hi. destruct (inv_ok _ _ Hi) as [zt Hok]. split.
  - intros t th n Ht Hn. destruct (ok_stack _ _ _ Hok n) as (x & Hx & Ha & _); [by exists t, th|].
    exists x. by rewrite is_alive_spec.
  - intros t th n Ht Hn. destruct (ok_wait _ _ _ Hok n) as (x & Hx & Hp & _); [by exists t, th|].
    exists x. split; [done|]. destruct (nm_patched x); [by left|right]. apply is_alive_spec. by destruct (Hp eq_refl).
  - intros c x site d Hx Ha Hd. apply is_alive_spec in Ha.
    destruct (ok_calls _ _ _ Hok _ _ _ _ Hx Ha Hd) as (y & Hy & _ & Hp & _). exists y. split; [done|].
    destruct (nm_patched y); [by left|right]. apply bool_decide_eq_true. auto.
  - intros m n Hm. destruct (ok_code _ _ _ Hok m n Hm) as (x & Hx & Hu & _ & Hme). exists x.
    split_and!; [done| |done]. by apply bool_decide_eq_true.
  - intros n Hn. destruct (ok_locks _ _ _ Hok n Hn) as [x Hx]. exists x. split; [done|].
    rewrite (ok_count _ _ _ Hok _ _ Hx). by apply holders_pos.
  - pose proof (inv_loop _ _ Hi) as Hl. pose proof (inv_idle _ _ Hi) as Hd. cbn in Hl, Hd.
    case_bool_decide; naive_solver.
Qed.

End safety.

(** C4: The sweeper never frees code that is in use.  For all flags and all
    sequences of up to 2^31 steps of the VM from its start - compilations, calls
    through call sites and methods, OSR calls, returns, binding and cleaning of
    call sites, deoptimisation, locks, safepoints with their stack traversals,
    class unloading, and sweeps interleaved with all of these - no assertion of the code
    fails, no thread enters or returns to an nmethod that was flushed, and in the
    state reached frames, pending calls, call sites of live code, methods and VM
    locks refer to nmethods in the code cache that are in a state to be used so. *)
Theorem sweeper_frees_no_code_in_use `{F : Flags} (l : list Step) :
  Z.of_nat (length l) < 2 ^ 31 → ∃ s, run l initial = Some (tt, s) ∧ safe s.
Proof.
  intros Hl. destruct (run_inv l 0 initial initial_inv) as (s & E & Hi); [lia|].
  exists s. split; [done|]. by eapply inv_safe.
Qed.

(** One method is compiled, called, compiled again and its first version swept
    away while a thread is inside a call to it. *)
#[local] Instance demo_flags : Flags := Build_Flags true true true 1 10 268435456 (λ b, 2684354 <? b).
Definition demo_sweep : list Step :=
  [Safepoint; Possibly_sweep true] ++ replicate 3 (Sweep_next (λ _, false)).
Definition demo : list Step :=
  [Start_thread 0; Start_thread 1;
   Register 4096 7 512 false false true true; Register 8192 8 256 false false true true;
   Call_method 0 8; Enter 0; Resolve 0 1 7; Call_site 0 1;
   Register 12288 7 640 false false true true; Enter 0] ++
  demo_sweep ++ demo_sweep ++ demo_sweep ++ demo_sweep.
Lemma sweeper_frees_no_code_in_use_witness :
  Z.of_nat (length demo) < 2 ^ 31 ∧ ∃ s, run demo initial = Some (tt, s) ∧ safe s.
Proof. split; [reflexivity|]. apply (sweeper_frees_no_code_in_use demo). reflexivity. Defined.
