(* ===== verification/SweeperProgress.v ===== *)
(** * The sweeper: code that is not used any more is reclaimed

    A pass over the code cache is a safepoint with its stack traversal and
    [NmethodSweepFraction] calls of [possibly_sweep].  Every pass visits every
    nmethod and comes to an end, and an nmethod that is not in use, on no stack and
    not locked is gone after four of them. *)

From stdpp Require Import base gmap list.
From S2P Require Import Prelude Sweeper SweeperInvariant SweeperSafety.

Local Open Scope Z_scope.

Section progress.
Context `{F : Flags} (below : Z → bool) (K : nat).

(** One call of [possibly_sweep], with enough iterations of its loop for the
    nmethods there are; the ones after the end of the sweep are skipped. *)
Definition sweep_fraction : list Step := Possibly_sweep true :: replicate K (Sweep_next below).
Definition pass : list Step := Safepoint :: concat (replicate (Z.to_nat NmethodSweepFraction) sweep_fraction).

#[local] Instance passed_dec c n : Decision (passed c n).
Proof. unfold passed. apply _. Defined.

(** The nmethods of [ks] that the sweeper has still to visit. *)
Definition to_visit (ks : list Z) (k : Core) : nat := length (filter (λ m, ¬ passed (c_current k) m) ks).
(** What a visit makes of what is at an address. *)
Definition turned_opt (T : Z) (o o' : option nmethod) : Prop :=
  match o with Some x => turned T x o' | None => o' = None end.
(** The state during a pass of traversal [T] over the nmethods [ks]: there was
    [o] at [n] when the pass began. *)
Record tracks (N T n : Z) (o : option nmethod) (ks : list Z) (k0 k : Core) : Prop := {
  tracks_inv : inv N k;
  tracks_traversals : c_traversals k = T;
  tracks_o : (¬ passed (c_current k) n ∧ c_nms k !! n = o) ∨
             (passed (c_current k) n ∧ turned_opt T o (c_nms k !! n));
  tracks_keys : ∀ m y, c_nms k !! m = Some y → m ∈ ks;
  tracks_threads : c_threads k = c_threads k0;
  tracks_locks : c_locks k = c_locks k0
}.

Lemma filter_length_lt (P Q : Z → Prop) `{∀ m, Decision (P m)} `{∀ m, Decision (Q m)} l a :
  (∀ m, P m → Q m) → a ∈ l → Q a → ¬ P a → (length (filter P l) < length (filter Q l))%nat.
Proof.
  intros HPQ. assert (∀ l, (length (filter P l) ≤ length (filter Q l))%nat) as Hle.
  { induction l0 as [|b l0 IH]; [done|]. rewrite !filter_cons. repeat case_decide; cbn; naive_solver lia. }
  induction l as [|b l IH]; intros Ha HQ HP; [by apply elem_of_nil in Ha|]. rewrite !filter_cons.
  apply elem_of_cons in Ha as [->|Ha].
  - rewrite decide_False, decide_True by done. cbn. specialize (Hle l). lia.
  - specialize (IH Ha HQ HP). repeat case_decide; cbn; naive_solver lia.
Qed.

(** An iteration of the loop is progress. *)
Lemma swept_tracks N T n o ks k0 k next k1 k' :
  tracks N T n o ks k0 k → c_loop k = true → swept N k next k1 → sweep_test (c_set_current next k1) k' →
  tracks N T n o ks k0 k' ∧ (to_visit ks k' < to_visit ks k)%nat.
Proof.
  intros [Hi HT Ho Hks Hth Hlk] Hl [Hsw [E Hon] Hturn Hnext Hpass] Htest.
  destruct (inv_loop _ _ Hi Hl) as (Hc0 & _). destruct (inv_current _ _ Hi) as [?|[x Hx]]; [done|].
  assert (c_nms k' = c_nms k1 ∧ c_current k' = next ∧ c_traversals k' = c_traversals k ∧
    c_threads k' = c_threads k ∧ c_locks k' = c_locks k) as (E1 & E2 & E3 & E4 & E5).
  { destruct Htest as [[-> _]|[-> _]]; cbn; by rewrite E. }
  split.
  - split; rewrite ?E1, ?E2, ?E3, ?E4, ?E5; try done; [by eapply sweep_test_inv| |].
    + destruct (decide (n ≤ c_current k)) as [Hle|Hgt].
      * right. split; [unfold passed; destruct Hnext as [?|[_ ?]]; lia|].
        destruct (decide (n = c_current k)) as [->|Hne].
        { destruct Ho as [[_ Ho]|[Hp _]]; [|unfold passed in Hp; lia]. subst o. rewrite Hx. cbn. rewrite <- HT. auto. }
        destruct Ho as [[Hp _]|[_ Ho]]; [unfold passed in Hp; lia|]. by rewrite Hon.
      * destruct Ho as [[Hp Ho]|[Hp _]]; [|unfold passed in Hp; lia]. rewrite Hon by lia.
        destruct o as [y|].
        { left. split; [|done]. intros Hpn. apply (Hpass n y Ho) in Hpn. lia. }
        destruct (decide (passed next n)); [right|left]; auto.
    + intros m y Hy. destruct (decide (m = c_current k)) as [->|Hne]; [by eapply Hks|].
      rewrite Hon in Hy by done. by eapply Hks.
  - unfold to_visit. rewrite E2. apply (filter_length_lt _ _ _ (c_current k)); [|by eapply Hks|unfold passed; lia|].
    + unfold passed. intros m Hm. destruct Hnext as [?|[_ ?]]; lia.
    + intros H. apply H. unfold passed. destruct Hnext as [?|[_ ?]]; lia.
Qed.

(** A call of [possibly_sweep] that began with [f] fractions left has come to the
    end of the code cache or left a fraction less. *)
Definition finished (f : Z) (k : Core) : Prop := c_current k = 0 ∨ (c_fractions k = f - 1 ∧ 1 ≤ f - 1).
Lemma sweep_test_finished f k k' :
  1 ≤ c_fractions k < 2 ^ 31 → c_fractions k = f ∨ c_fractions k = 1 → sweep_test k k' →
  (c_loop k' = true ∧ c_fractions k' = c_fractions k) ∨ (c_loop k' = false ∧ finished f k').
Proof.
  intros Hr Hf [[-> _]|[-> Hend]]; [by left|right]. split; [done|]. unfold finished. cbn.
  rewrite s32_id by lia. lia.
Qed.
Lemma sweep_next_step N T n o ks k0 f s :
  tracks N T n o ks k0 (core s) → N < 2 ^ 31 - 1 → c_loop (core s) = true → c_fractions (core s) < 2 ^ 31 →
  c_fractions (core s) = f ∨ c_fractions (core s) = 1 →
  ∃ s', step (Sweep_next below) s = Some (tt, s') ∧ tracks N T n o ks k0 (core s') ∧
    (to_visit ks (core s') < to_visit ks (core s))%nat ∧
    ((c_loop (core s') = true ∧ c_fractions (core s') = c_fractions (core s)) ∨
     (c_loop (core s') = false ∧ finished f (core s'))).
Proof.
  intros Ht HN Hl Hr Hf. pose proof (tracks_inv _ _ _ _ _ _ _ Ht) as Hi. destruct (inv_loop _ _ Hi Hl) as (_ & H1 & _).
  assert (wp (exec (Sweep_next below)) (core s) (λ _ k', ∃ next k1,
    swept N (core s) next k1 ∧ sweep_test (c_set_current next k1) k')) as Hwp.
  { apply wp_bind, wp_loop. intros [l|] Hlp; [by eapply wp_sweep_next|]. by rewrite Hl in Hlp. }
  destruct (Hwp s eq_refl) as ([] & s' & E & next & k1 & Hs & Htest). exists s'.
  split; [unfold step; cbn [enabled]; cbn in Hl; by rewrite Hl|].
  destruct (swept_tracks _ _ _ _ _ _ _ _ _ _ Ht Hl Hs Htest) as [Ht' Hlt]. split_and!; [done..|].
  assert (c_fractions (c_set_current next k1) = c_fractions (core s)) as Ef.
  { destruct Hs as [_ [-> _] _ _ _]. done. }
  rewrite <- Ef in *. by apply sweep_test_finished.
Qed.
Lemma run_cons st l s s' : step st s = Some (tt, s') → run (st :: l) s = run l s'.
Proof. intros E. unfold run. cbn [mforeach]. by rewrite (M_bind_Some _ _ _ _ _ E). Qed.
Lemma run_app l1 l2 s s' : run l1 s = Some (tt, s') → run (l1 ++ l2) s = run l2 s'.
Proof. intros E. unfold run in *. by rewrite mforeach_app, (M_bind_Some _ _ _ _ _ E). Qed.
Lemma sweep_nexts N T n o ks k0 f j s :
  tracks N T n o ks k0 (core s) → N < 2 ^ 31 - 1 →
  (c_loop (core s) = true ∧ c_fractions (core s) < 2 ^ 31 ∧ (c_fractions (core s) = f ∨ c_fractions (core s) = 1) ∧
     (to_visit ks (core s) ≤ j)%nat) ∨
  (c_loop (core s) = false ∧ finished f (core s)) →
  ∃ s', run (replicate j (Sweep_next below)) s = Some (tt, s') ∧ tracks N T n o ks k0 (core s') ∧
    c_loop (core s') = false ∧ finished f (core s').
Proof.
  revert s. induction j as [|j IH]; intros s Ht HN Hs; cbn [replicate].
  - exists s. destruct Hs as [(Hl & Hr & Hf & Hv)|[Hl Hf]]; [|done]. exfalso.
    destruct (sweep_next_step _ _ _ _ _ _ f _ Ht HN Hl Hr Hf) as (s' & _ & _ & Hlt & _). lia.
  - destruct Hs as [(Hl & Hr & Hf & Hv)|[Hl Hf]].
    + destruct (sweep_next_step _ _ _ _ _ _ f _ Ht HN Hl Hr Hf) as (s' & E & Ht' & Hlt & Hs').
      rewrite (run_cons _ _ _ _ E). apply IH; [done..|]. destruct Hs' as [[Hl' Ef]|?]; [left|by right].
      rewrite Ef. split_and!; [done..|lia].
    + assert (step (Sweep_next below) s = Some (tt, s)) as E. { unfold step. cbn [enabled]. cbn in Hl. by rewrite Hl. }
      rewrite (run_cons _ _ _ _ E). apply IH; auto.
Qed.

(** A call of [possibly_sweep] that finds work to do. *)
Lemma wp_possibly_sweep_true k :
  MethodFlushing = true → c_current k ≠ 0 → c_started k = 0 → 1 ≤ c_fractions k →
  wp (possibly_sweep true) k (λ _ k', ∃ f, (f = c_fractions k ∨ f = 1) ∧
    sweep_test (c_set_fractions f (c_set_started 1 k)) k').
Proof.
  intros HF Hc Hst Hf s <-.
  assert (∃ s1, possibly_sweep true s = sweep_code_cache s1 ∧ core s1 = c_set_started 1 (core s)) as (s1 & -> & E).
  { cbn in Hc, Hst, Hf. unfold possibly_sweep, static, reads, mbind, M_bind. rewrite HF, (proj2 (Z.eqb_neq _ _) Hc).
    cbn. assert ((0 <? sw_sweep_fractions_left (vm_sweeper s)) = true) as Hf' by lia.
    destruct (sw_should_sweep (vm_sweeper s)) eqn:Hsh; cbn; rewrite ?Hsh; cbn; rewrite Hf'; cbn; rewrite Hst; cbn; by eexists. }
  exact (wp_sweep_code_cache (c_set_started 1 (core s)) Hf s1 E).
Qed.

Section passes.
Hypothesis HF : MethodFlushing = true.
Hypothesis Hfraction : 0 < NmethodSweepFraction < 2 ^ 31.

Lemma to_visit_length ks k : (to_visit ks k ≤ length ks)%nat.
Proof. apply length_filter. Qed.
(** Nothing is visited at the start of a sweep. *)
Lemma sweep_test_tracks N T n o ks k0 k f k' :
  tracks N T n o ks k0 k → 1 ≤ f → sweep_test (c_set_fractions f (c_set_started 1 k)) k' → tracks N T n o ks k0 k'.
Proof.
  intros [] Hf Ht. assert (inv N k') by (eapply sweep_test_inv; [by apply sweeping_start|done]).
  by destruct Ht as [[-> _]|[-> _]]; split.
Qed.
Lemma run_fraction N T n o ks k0 f s :
  tracks N T n o ks k0 (core s) → N < 2 ^ 31 - 1 → (length ks ≤ K)%nat → c_loop (core s) = false → f < 2 ^ 31 →
  (c_current (core s) = 0 ∨ (c_fractions (core s) = f ∧ 1 ≤ f)) →
  ∃ s', run sweep_fraction s = Some (tt, s') ∧ tracks N T n o ks k0 (core s') ∧
    c_loop (core s') = false ∧ finished f (core s').
Proof.
  intros Ht HN HK Hl Hr Hs. unfold sweep_fraction. pose proof (tracks_inv _ _ _ _ _ _ _ Ht) as Hi.
  destruct (decide (c_current (core s) = 0)) as [Hc|Hc].
  - assert (step (Possibly_sweep true) s = Some (tt, s)) as E.
    { unfold step, exec, possibly_sweep, static, reads, mbind, M_bind. cbn in Hc |- *. by rewrite HF, Hc. }
    rewrite (run_cons _ _ _ _ E). apply sweep_nexts; [done..|]. right. split; [done|]. by left.
  - destruct Hs as [?|[Hf H1]]; [done|].
    destruct (wp_possibly_sweep_true (core s) HF Hc (inv_idle _ _ Hi Hl) ltac:(lia) s eq_refl)
      as ([] & s1 & E & f' & Hf' & Htest).
    rewrite (run_cons (Possibly_sweep true) _ s s1) by exact E.
    assert (1 ≤ f') by lia.
    apply sweep_nexts; [by eapply sweep_test_tracks|done|].
    pose proof (to_visit_length ks (core s1)).
    apply (sweep_test_finished f) in Htest as [[Hl1 Ef]|?]; [left|by right|cbn; lia..].
    rewrite Ef. cbn. split_and!; [done|lia..].
Qed.
Lemma run_fractions N T n o ks k0 f s :
  tracks N T n o ks k0 (core s) → N < 2 ^ 31 - 1 → (length ks ≤ K)%nat → c_loop (core s) = false →
  Z.of_nat f < 2 ^ 31 →
  (c_current (core s) = 0 ∨ (c_fractions (core s) = Z.of_nat f ∧ 1 ≤ Z.of_nat f)) →
  ∃ s', run (concat (replicate f sweep_fraction)) s = Some (tt, s') ∧ tracks N T n o ks k0 (core s') ∧
    c_loop (core s') = false ∧ c_current (core s') = 0.
Proof.
  revert s. induction f as [|f IH]; intros s Ht HN HK Hl Hr Hs.
  - exists s. split; [done|]. split; [done|]. split; [done|]. destruct Hs; [done|lia].
  - destruct (run_fraction _ _ _ _ _ _ _ _ Ht HN HK Hl Hr Hs) as (s1 & E & Ht1 & Hl1 & Hf1).
    cbn [replicate concat]. rewrite (run_app _ _ _ _ E). apply IH; [done..|lia|]. unfold finished in Hf1. lia.
Qed.

(** Between passes. *)
Record idle (N T : Z) (ks : list Z) (k0 k : Core) : Prop := {
  idle_inv : inv N k;
  idle_traversals : c_traversals k = T;
  idle_keys : ∀ m y, c_nms k !! m = Some y → m ∈ ks;
  idle_threads : c_threads k = c_threads k0;
  idle_locks : c_locks k = c_locks k0;
  idle_loop : c_loop k = false;
  idle_current : c_current k = 0
}.
(** A pass comes to an end and has visited every nmethod. *)
Lemma run_pass N T ks k0 n s :
  idle N T ks k0 (core s) → N < 2 ^ 31 - 2 → (length ks ≤ K)%nat → no_pending s = true →
  n ∉ activations (vm_threads s) →
  ∃ s', run pass s = Some (tt, s') ∧ idle (N + 1) (T + 1) ks k0 (core s') ∧
    turned_opt (T + 1) (vm_nms s !! n) (vm_nms s' !! n).
Proof.
  intros [Hi HT Hks Hth Hlk Hl Hc] HN HK Hp Hn.
  assert (∀ m, ¬ awaited (core s) m) as Hw by (intros m; by apply no_pending_awaited).
  destruct (wp_mark_active_nmethods N (core s) Hi ltac:(lia) s eq_refl) as ([] & s1 & E & [(_ & _ & Hr)|[_ [?|?]]]); try congruence.
  assert (step Safepoint s = Some (tt, s1)) as E' by (unfold step; cbn [enabled]; by rewrite Hp).
  unfold pass. rewrite (run_cons _ _ _ _ E').
  pose proof (restarted_inv _ _ _ Hi Hc Hw Hr) as Hi1. destruct Hr as [Er Hnms Hcur Hpass].
  assert (c_nms (core s1) !! n = vm_nms s !! n) as En by (by rewrite Hnms, decide_False).
  assert (tracks (N + 1) (T + 1) n (vm_nms s !! n) ks k0 (core s1)) as Ht.
  { split; [done|by rewrite Er; cbn; rewrite <- HT|..|by rewrite Er|by rewrite Er].
    - destruct (decide (passed (c_current (core s1)) n)) as [Hpn|Hpn]; [right|by left]. split; [done|]. rewrite En.
      destruct (vm_nms s !! n) as [x|] eqn:Hx; [|done]. by destruct (Hpass n x Hx).
    - intros m y Hy. rewrite Hnms in Hy. destruct (c_nms (core s) !! m) as [z|] eqn:Hz; [by eapply Hks|].
      by case_decide. }
  destruct (run_fractions _ _ _ _ _ _ (Z.to_nat NmethodSweepFraction) _ Ht) as (s' & E2 & [] & Hl' & Hc'); [lia|done|..].
  - by rewrite Er.
  - lia.
  - right. rewrite Er. cbn. lia.
  - exists s'. split; [done|]. split; [by split|]. destruct tracks_o0 as [[Hnp _]|[_ H]]; [|done].
    exfalso. apply Hnp. by left.
Qed.
End passes.

(** The passes an nmethod that is not in use has before it, [T] the traversals
    so far. *)
Definition passes_left (T : Z) (x : nmethod) : nat :=
  match nm_state x with
  | in_use => 0
  | not_entrant => if nm_stack_traversal_mark x <? T then 3 else 4
  | unloaded => 3
  | zombie => if nm_marked_for_reclamation x then 1 else 2
  end.
Lemma turned_left T x o :
  nm_state x ≠ in_use → nm_lock_count x = 0 → nm_stack_traversal_mark x ≤ T → turned (T + 1) x o →
  match o with
  | Some x' => nm_state x' ≠ in_use ∧ nm_lock_count x' = 0 ∧ (passes_left (T + 1) x' < passes_left T x)%nat
  | None => True
  end.
Proof.
  intros Hu Hl Hm. unfold turned, is_locked_by_vm, passes_left. rewrite Hl. cbn.
  destruct (nm_state x) eqn:Hs; [done|..].
  - destruct (Z.ltb_spec (nm_stack_traversal_mark x + 1) (T + 1)), (Z.ltb_spec (nm_stack_traversal_mark x) T); try lia.
    + intros ->. rewrite buried_lock_count. cbn. split_and!; [done..|]. case_match; lia.
    + intros [calls ->]. cbn. rewrite Hs. split_and!; [done..|]. destruct (Z.ltb_spec (nm_stack_traversal_mark x) (T + 1)); lia.
  - intros ->. destruct (nm_marked_for_reclamation x); [done|]. cbn. rewrite Hs. split_and!; [done..|lia].
  - destruct (nm_is_osr x); [by intros ->|]. intros [calls ->]. rewrite buried_lock_count. cbn.
    split_and!; [done..|]. case_match; lia.
Qed.
Lemma run_passes N T ks k0 n j s :
  MethodFlushing = true → 0 < NmethodSweepFraction < 2 ^ 31 →
  idle N T ks k0 (core s) → N + Z.of_nat j < 2 ^ 31 - 1 → (length ks ≤ K)%nat → no_pending s = true →
  n ∉ activations (vm_threads s) →
  (∀ x, vm_nms s !! n = Some x → nm_state x ≠ in_use ∧ nm_lock_count x = 0 ∧ (passes_left T x ≤ j)%nat) →
  ∃ s', run (concat (replicate j pass)) s = Some (tt, s') ∧ vm_nms s' !! n = None ∧
    vm_threads s' = c_threads k0 ∧ vm_locks s' = c_locks k0.
Proof.
  intros HF Hfr. revert N T s. induction j as [|j IH]; intros N T s Hi HN HK Hp Hn Hx.
  - exists s. split; [done|]. destruct Hi. split; [|done]. destruct (vm_nms s !! n) as [x|] eqn:E; [|done].
    destruct (Hx x eq_refl) as (Hu & _ & Hj). revert Hj. unfold passes_left. repeat case_match; lia || done.
  - destruct (run_pass HF Hfr N T ks k0 n s) as (s1 & E & Hi1 & Ht); [done|lia|done..|].
    cbn [replicate concat]. rewrite (run_app _ _ _ _ E).
    assert (vm_threads s1 = vm_threads s) as Eth by (destruct Hi, Hi1; cbn in *; congruence).
    apply (IH (N + 1) (T + 1)); [done|lia|done|unfold no_pending in *; by rewrite Eth|by rewrite Eth|].
    intros x1 Hx1. rewrite Hx1 in Ht. destruct (vm_nms s !! n) as [x|] eqn:Hxn; [|done].
    destruct (Hx x eq_refl) as (Hu & Hl & Hj). destruct (idle_inv _ _ _ _ _ Hi) as [[zt Hok] _ _ _ _ _].
    pose proof (fine_mark _ _ _ _ _ (ok_fine _ _ _ Hok n x Hxn)) as Hm.
    rewrite (idle_traversals _ _ _ _ _ Hi) in Hm.
    apply (turned_left T x _ Hu Hl) in Ht as (? & ? & ?); [|lia]. split_and!; [done..|lia].
Qed.
Lemma passes_left_4 T x : (passes_left T x ≤ 4)%nat.
Proof. unfold passes_left. repeat case_match; lia. Qed.
End progress.

(** C10: Code that is not used any more is reclaimed.  From every state the VM can
    reach in which no sweep is under way and no thread is in the middle of a
    call, an nmethod that is not entrant, a zombie or unloaded, that is on no
    stack and not locked, is out of the code cache after four passes of the
    sweeper.  Every pass, a safepoint and [NmethodSweepFraction] calls of
    [possibly_sweep] whose loops run at most once for each nmethod,
    comes to its end, whatever the hotness of the other nmethods. *)
Theorem unused_code_is_reclaimed `{F : Flags} (below : Z → bool) (l : list Step) (s : VM) (n : Z) (x : nmethod) :
  MethodFlushing = true → 0 < NmethodSweepFraction < 2 ^ 31 →
  run l initial = Some (tt, s) → Z.of_nat (length l) < 2 ^ 31 - 5 →
  no_pending s = true → sw_current (vm_sweeper s) = 0 →
  vm_nms s !! n = Some x → nm_state x ≠ in_use → nm_lock_count x = 0 → n ∉ activations (vm_threads s) →
  ∃ s', run (concat (replicate 4 (pass below (size (vm_nms s))))) s = Some (tt, s') ∧ vm_nms s' !! n = None ∧
    vm_threads s' = vm_threads s ∧ vm_locks s' = vm_locks s.
Proof.
  intros HF Hfr Hrun Hlen Hp Hc Hx Hu Hl Hn.
  destruct (run_inv l 0 initial initial_inv) as (s0 & E & Hi); [lia|].
  assert (s0 = s) as -> by congruence.
  apply (run_passes below _ (0 + Z.of_nat (length l)) (sw_traversals (vm_sweeper s)) (map_to_list (vm_nms s)).*1 (core s));
    try done; try lia.
  - split; try done; [intros m y Hy; apply elem_of_keys; eauto|].
    destruct (c_loop (core s)) eqn:Hlp; [|done]. by destruct (inv_loop _ _ Hi Hlp).
  - rewrite length_fmap, length_map_to_list. done.
  - intros y Hy. assert (y = x) as -> by congruence. split_and!; [done..|]. apply passes_left_4.
Qed.

(** The first version of a method, replaced while it was called. *)
#[local] Existing Instance demo_flags.
Definition replaced : list Step :=
  [Start_thread 0; Register 4096 7 512 false false true true; Register 8192 8 256 false false true true;
   Call_method 0 8; Enter 0; Resolve 0 1 7; Call_site 0 1; Register 12288 7 640 false false true true; Enter 0].
Definition replaced_state : VM := default initial (snd <$> run replaced initial).
Lemma unused_code_is_reclaimed_witness :
  ∃ s', run (concat (replicate 4 (pass (λ _, true) (size (vm_nms replaced_state))))) replaced_state = Some (tt, s') ∧
    vm_nms s' !! 4096 = None ∧ vm_threads s' = vm_threads replaced_state ∧ vm_locks s' = vm_locks replaced_state.
Proof.
  destruct (vm_nms replaced_state !! 4096) as [x|] eqn:Hx; [|vm_compute in Hx; done].
  apply (unused_code_is_reclaimed (λ _, true) replaced replaced_state 4096 x).
  - reflexivity.
  - split; reflexivity.
  - vm_compute. reflexivity.
  - reflexivity.
  - vm_compute. reflexivity.
  - vm_compute. reflexivity.
  - exact Hx.
  - vm_compute in Hx. by injection Hx as <-.
  - vm_compute in Hx. by injection Hx as <-.
  - apply (bool_decide_unpack _). vm_compute. exact I.
Defined.
