(* ===== verification/Mutex.v ===== *)
(** The native monitor of the virtual machine (runtime/mutex.cpp).

    [Monitor] is the lock behind every [Mutex] of the VM.  The lock word holds
    the lock byte and the head of a list of recently arrived threads, the cxq;
    [_EntryList] holds threads drained from it, [_OnDeck] the heir presumptive
    (or the inner lock of an exiting thread that picks one), [_WaitSet] the
    threads in [wait].  The lists run through the [ListNext] field of the
    threads' park events.

    The model is a machine of single memory accesses.  Every thread has a
    program point, one per load, store or compare-and-swap of the code, and
    [act] performs the access of one thread and the branch on its result.  An
    assertion of the source is evaluated with the access that follows it, and
    [Failed] is the outcome of a violated one.  Accesses to data that a lock
    protects are one step where the thread holds that lock: the links of the
    EntryList under the inner lock, the WaitSet and its links under [_WaitLock].  [Blocked] is a thread in [park]
    without a permit or in [muxAcquire] on a held lock.

    A thread and its [_MutexEvent] have the same positive number; 0 is NULL.
    [park], [unpark] and [reset] of an event are a permit, as the platform's
    [PlatformEvent] documents them.  The VM thread's sneaking past held locks at
    a safepoint and the raw monitors of the JVM interface, which park on a
    transient event, are not part of the model.  Neither are the assertions of
    [check_prelock_state], [set_owner_implementation] and [wait] on lock ranks
    and thread states, which are about the other locks of a thread. *)
From stdpp Require Import base numbers list functions.

(** [NativeMonitorFlags], the experimental flag word (runtime/globals.hpp). *)
Class MonitorFlags := NativeMonitorFlags : Z.

Definition flag {F : MonitorFlags} (bit : Z) : bool := negb (Z.land NativeMonitorFlags bit =? 0)%Z.

(** ** The state of a monitor *)

(** [SplitWord]: the head of the cxq, and whether the lock byte is [_LBIT].
    Events are aligned to 256, so the two never overlap. *)
Definition SplitWord : Type := Z * bool.

(** [_OnDeck]: NULL, the inner lock [_LBIT], an event, or the [Thread *] that
    the barging path of [ILock] stores. *)
Inductive deck :=
| deck_null
| deck_lbit
| deck_event (e : Z)
| deck_thread (t : Z).

#[global] Instance deck_eq_dec : EqDecision deck.
Proof. solve_decision. Defined.

(** The fields of [Monitor], and of the park events the code uses with it. *)
Record Monitor := mkMonitor {
  LockWord : SplitWord;
  owner : Z;
  EntryList : Z;
  OnDeck : deck;
  WaitLock : Z;
  WaitSet : Z;
  ListNext : Z → Z;
  Event : Z → bool;
  Notified : Z → bool;
}.

Definition set_LockWord (v : SplitWord) (m : Monitor) : Monitor :=
  mkMonitor v (owner m) (EntryList m) (OnDeck m) (WaitLock m) (WaitSet m)
    (ListNext m) (Event m) (Notified m).
Definition set_owner (t : Z) (m : Monitor) : Monitor :=
  mkMonitor (LockWord m) t (EntryList m) (OnDeck m) (WaitLock m) (WaitSet m)
    (ListNext m) (Event m) (Notified m).
Definition set_EntryList (e : Z) (m : Monitor) : Monitor :=
  mkMonitor (LockWord m) (owner m) e (OnDeck m) (WaitLock m) (WaitSet m)
    (ListNext m) (Event m) (Notified m).
Definition set_OnDeck (d : deck) (m : Monitor) : Monitor :=
  mkMonitor (LockWord m) (owner m) (EntryList m) d (WaitLock m) (WaitSet m)
    (ListNext m) (Event m) (Notified m).
Definition set_WaitLock (t : Z) (m : Monitor) : Monitor :=
  mkMonitor (LockWord m) (owner m) (EntryList m) (OnDeck m) t (WaitSet m)
    (ListNext m) (Event m) (Notified m).
Definition set_WaitSet (e : Z) (m : Monitor) : Monitor :=
  mkMonitor (LockWord m) (owner m) (EntryList m) (OnDeck m) (WaitLock m) e
    (ListNext m) (Event m) (Notified m).
Definition set_ListNext (e n : Z) (m : Monitor) : Monitor :=
  mkMonitor (LockWord m) (owner m) (EntryList m) (OnDeck m) (WaitLock m) (WaitSet m)
    (<[e := n]> (ListNext m)) (Event m) (Notified m).
Definition set_Event (e : Z) (b : bool) (m : Monitor) : Monitor :=
  mkMonitor (LockWord m) (owner m) (EntryList m) (OnDeck m) (WaitLock m) (WaitSet m)
    (ListNext m) (<[e := b]> (Event m)) (Notified m).
Definition set_Notified (e : Z) (b : bool) (m : Monitor) : Monitor :=
  mkMonitor (LockWord m) (owner m) (EntryList m) (OnDeck m) (WaitLock m) (WaitSet m)
    (ListNext m) (Event m) (<[e := b]> (Notified m)).

(** [ClearMonitor]. *)
Definition ClearMonitor : Monitor :=
  mkMonitor (0, false)%Z 0 0 deck_null 0 0 (λ _, 0%Z) (λ _, false) (λ _, false).

Definition ILocked (m : Monitor) : bool := snd (LockWord m).

(** The permit of an event; [park] is [ParkCommon] below. *)
Definition unpark (e : Z) (m : Monitor) : Monitor := set_Event e true m.
Definition reset (e : Z) (m : Monitor) : Monitor := set_Event e false m.

(** ** Program points *)

(** Where a [TryFast], a [TryLock] or a [TrySpin] was called.  The flag says
    whether the surrounding [ILock] runs inside [wait]. *)
Inductive fast_site := lock_fast | ILock_fast (w : bool).
Inductive spin_site := try_site | lock_spin | ILock_spin (w : bool) | ILock_deck (w : bool)
                     | IWait_reenter.

(** Where [IUnlock] was called: [unlock], [IWait], the suspension in [wait]. *)
Inductive unlock_site := in_unlock | in_IWait | in_suspend.

Inductive push_pc := Push_load | Push_acquire (v : SplitWord) | Push_link (v : SplitWord)
                   | Push_cas (v : SplitWord).

Inductive ILock_pc := I_enter | I_slow | I_reset | I_barge | I_push (x : push_pc) | I_test | I_park
                    | I_deck | I_deck_park | I_clear.

Inductive IUnlock_pc :=
| U_store | U_deck | U_unpark (w : Z) | U_cxq | U_entry (v : SplitWord)
| U_succession | U_list | U_drain | U_detach (v : SplitWord) | U_move (l : Z)
| U_wake (w : Z) | U_pass (w : Z) | U_check (w : Z) | U_wake_unpark (w : Z)
| U_punt | U_resample.

Inductive IWait_pc :=
| W_clear | W_reset | W_mux | W_link | W_add | W_unmux
| W_test | W_park | W_check | W_mux_remove | W_recheck | W_walk (p q : Z)
| W_unmux_remove (WasOnWaitSet : bool)
| W_reenter | W_reenter_park | W_clear_deck.

Inductive notify_pc :=
| N_test | N_mux | N_head | N_pop (e : Z) | N_load (e : Z) | N_link (e : Z) (v : SplitWord)
| N_cas (e : Z) (v : SplitWord) | N_set (e : Z) | N_unmux (e : Z) | N_unpark (e : Z).

Inductive Pc :=
| Idle
| P_TryFast (k : fast_site) (v : option SplitWord)
| P_TryLock (s : spin_site) (v : option SplitWord)
| P_TrySpin (s : spin_site) (v : option SplitWord)
| P_ILock (w : bool) (i : ILock_pc)
| Acquired (w : bool)
| Held
| P_unlock
| P_IUnlock (r : unlock_site) (u : IUnlock_pc)
| P_wait
| P_IWait (i : IWait_pc)
| P_notify (all : bool) (n : notify_pc)
| P_notify_all.

(** What the environment decides: the operation a client calls, whether a
    spinner gives up, whether a park returns without a permit, whether a thread
    that returns from [wait] was suspended. *)
Inductive choice :=
| Go | GiveUp | Timeout | Suspended
| Call_lock | Call_lock_no_check | Call_try_lock | Call_unlock | Call_wait
| Call_notify | Call_notify_all.

Inductive outcome := Next (p : Pc) (m : Monitor) | Blocked | Failed.

Definition massert (b : bool) (o : outcome) : outcome := if b then o else Failed.

(** ** The operations *)

Section operations.
Context {F : MonitorFlags} (self : Z) (c : choice).

Definition not_OnDeck (m : Monitor) : bool := negb (bool_decide (OnDeck m = deck_event self)).
Definition is_OnDeck (m : Monitor) : bool := bool_decide (OnDeck m = deck_event self).

(** Where a successful and a failed attempt return to. *)
Definition fast_got (k : fast_site) : Pc :=
  match k with lock_fast => Acquired false | ILock_fast w => Acquired w end.
Definition fast_fail (k : fast_site) : Pc :=
  match k with lock_fast => P_TryLock lock_spin None | ILock_fast w => P_ILock w I_slow end.

Definition spin_got (s : spin_site) : Pc :=
  match s with
  | try_site | lock_spin => Acquired false
  | ILock_spin w => Acquired w
  | ILock_deck w => P_ILock w I_clear
  | IWait_reenter => P_IWait W_clear_deck
  end.
Definition spin_fail (s : spin_site) : Pc :=
  match s with
  | try_site => Idle
  | lock_spin => P_ILock false I_enter
  | ILock_spin w => P_ILock w I_reset
  | ILock_deck w => P_ILock w I_deck_park
  | IWait_reenter => P_IWait W_reenter_park
  end.

(** [TryFast]: [None] is the optimistic compare-and-swap of 0. *)
Definition TryFast (k : fast_site) (v : option SplitWord) (m : Monitor) : outcome :=
  let u := LockWord m in
  let expected := default (0, false)%Z v in
  if bool_decide (u = expected) then Next (fast_got k) (set_LockWord (fst expected, true) m)
  else if snd u then Next (fast_fail k) m
  else Next (P_TryFast k (Some u)) m.

(** [TryLock] returned 0: [try_lock] fails, [TrySpin] gives up on a
    uniprocessor and spins otherwise. *)
Definition TryLock_fail (s : spin_site) : Pc :=
  match s with
  | try_site => Idle
  | _ => match c with GiveUp => spin_fail s | _ => P_TrySpin s None end
  end.

Definition TryLock (s : spin_site) (v : option SplitWord) (m : Monitor) : outcome :=
  let u := LockWord m in
  match v with
  | Some v =>
      if bool_decide (u = v) then Next (spin_got s) (set_LockWord (fst v, true) m)
      else if snd u then Next (TryLock_fail s) m else Next (P_TryLock s (Some u)) m
  | None => if snd u then Next (TryLock_fail s) m else Next (P_TryLock s (Some u)) m
  end.

(** The loop of [TrySpin] after its [TryLock].  The number of probes and the
    safepoint poll that end it are the environment's. *)
Definition TrySpin (s : spin_site) (v : option SplitWord) (m : Monitor) : outcome :=
  let u := LockWord m in
  match v with
  | None =>
      if snd u then match c with GiveUp => Next (spin_fail s) m | _ => Next (P_TrySpin s None) m end
      else Next (P_TrySpin s (Some u)) m
  | Some v =>
      if bool_decide (u = v) then Next (spin_got s) (set_LockWord (fst v, true) m)
      else Next (P_TrySpin s None) m
  end.

(** [ParkCommon]: returns with the permit, or by a timeout. *)
Definition ParkCommon (woken timed : Pc) (m : Monitor) : outcome :=
  if Event m self then Next woken (set_Event self false m)
  else match c with Timeout => Next timed m | _ => Blocked end.

(** [_WaitLock], by the contract of [Thread::muxAcquire] and [muxRelease]: a
    lock that one thread holds at a time. *)
Definition muxAcquire (p : Pc) (m : Monitor) : outcome :=
  if bool_decide (WaitLock m = 0%Z) then Next p (set_WaitLock self m) else Blocked.
Definition muxRelease (p : Pc) (m : Monitor) : outcome := Next p (set_WaitLock 0 m).

Definition push_retry (w : bool) (u : SplitWord) : Pc :=
  P_ILock w (I_push (if snd u then Push_link u else Push_acquire u)).

Definition AcquireOrPush (w : bool) (x : push_pc) (m : Monitor) : outcome :=
  let u := LockWord m in
  match x with
  | Push_load => Next (push_retry w u) m
  | Push_acquire v =>
      if bool_decide (u = v) then Next (Acquired w) (set_LockWord (fst v, true) m)
      else Next (push_retry w u) m
  | Push_link v => Next (P_ILock w (I_push (Push_cas v))) (set_ListNext self (fst v) m)
  | Push_cas v =>
      if bool_decide (u = v) then Next (P_ILock w I_test) (set_LockWord (self, true) m)
      else Next (push_retry w u) m
  end.

Definition ILock (w : bool) (i : ILock_pc) (m : Monitor) : outcome :=
  match i with
  | I_enter => massert (not_OnDeck m) (Next (P_TryFast (ILock_fast w) None) m)
  | I_slow => massert (not_OnDeck m) (Next (P_TryLock (ILock_spin w) None) m)
  | I_reset =>
      Next (P_ILock w (if flag 32 then I_barge else I_push Push_load)) (reset self m)
  | I_barge =>
      if bool_decide (OnDeck m = deck_null)
      then Next (P_ILock w I_deck) (set_OnDeck (deck_thread self) m)
      else Next (P_ILock w (I_push Push_load)) m
  | I_push x => AcquireOrPush w x m
  | I_test => Next (P_ILock w (if is_OnDeck m then I_deck else I_park)) m
  | I_park => ParkCommon (P_ILock w I_test) (P_ILock w I_test) m
  | I_deck => massert (is_OnDeck m) (Next (P_TryLock (ILock_deck w) None) m)
  | I_deck_park => ParkCommon (P_ILock w I_deck) (P_ILock w I_deck) m
  | I_clear => massert (is_OnDeck m) (Next (Acquired w) (set_OnDeck deck_null m))
  end.

(** Where [IUnlock] returns to, and its [RelaxAssert] argument. *)
Definition unlock_ret (r : unlock_site) : Pc :=
  match r with
  | in_unlock => Idle
  | in_IWait => P_IWait W_test
  | in_suspend => P_ILock false I_enter
  end.
Definition RelaxAssert (r : unlock_site) : bool :=
  match r with in_unlock => false | _ => true end.

Definition IUnlock (r : unlock_site) (u : IUnlock_pc) (m : Monitor) : outcome :=
  let go x := Next (P_IUnlock r x) in
  let return_ := Next (unlock_ret r) in
  let cxq := LockWord m in
  match u with
  | U_store => massert (ILocked m) (go U_deck (set_LockWord (fst cxq, false) m))
  | U_deck =>
      massert (RelaxAssert r || not_OnDeck m)
        match OnDeck m with
        | deck_null => go U_cxq m
        | deck_lbit => return_ m
        | deck_event w => go (U_unpark w) m
        | deck_thread _ => Failed
        end
  | U_unpark w => return_ (unpark w m)
  | U_cxq => go (U_entry cxq) m
  | U_entry v =>
      if bool_decide (fst v = 0%Z) && bool_decide (EntryList m = 0%Z) then return_ m
      else if snd v then return_ m
      else go U_succession m
  | U_succession =>
      if bool_decide (OnDeck m = deck_null) then go U_list (set_OnDeck deck_lbit m)
      else return_ m
  | U_list =>
      if bool_decide (EntryList m = 0%Z) then go U_drain m else go (U_wake (EntryList m)) m
  | U_wake w =>
      massert (bool_decide (w = EntryList m) && (RelaxAssert r || negb (bool_decide (w = self))))
        (go (U_pass w) (set_EntryList (ListNext m w) m))
  | U_pass w =>
      massert (bool_decide (OnDeck m = deck_lbit)) (go (U_check w) (set_OnDeck (deck_event w) m))
  | U_check w => if snd cxq then return_ m else go (U_wake_unpark w) m
  | U_wake_unpark w => return_ (unpark w m)
  | U_drain =>
      if bool_decide (fst cxq = 0%Z) || snd cxq then go U_punt m else go (U_detach cxq) m
  | U_detach v =>
      if bool_decide (cxq = v) then go (U_move (fst v)) (set_LockWord (0%Z, false) m)
      else if snd cxq then go U_punt m else go (U_detach cxq) m
  | U_move l =>
      massert (bool_decide (EntryList m = 0%Z) && negb (bool_decide (l = 0%Z)))
        (go (U_wake l) (set_EntryList l m))
  | U_punt =>
      massert (bool_decide (OnDeck m = deck_lbit)) (go U_resample (set_OnDeck deck_null m))
  | U_resample =>
      if negb (bool_decide (fst cxq = 0%Z)) && negb (snd cxq) then go U_succession m else return_ m
  end.

Definition notify_end (all : bool) : Pc := if all then P_notify_all else Held.

Definition notify (all : bool) (n : notify_pc) (m : Monitor) : outcome :=
  let go x := Next (P_notify all x) in
  match n with
  | N_test =>
      massert (bool_decide (owner m = self) && ILocked m)
        (if bool_decide (WaitSet m = 0%Z) then Next (notify_end all) m else go N_mux m)
  | N_mux => muxAcquire (P_notify all N_head) m
  | N_head => if bool_decide (WaitSet m = 0%Z) then go (N_unmux 0) m else go (N_pop (WaitSet m)) m
  | N_pop e => massert (negb (Notified m e)) (go (N_load e) (set_WaitSet (ListNext m e) m))
  | N_load e => massert (ILocked m) (go (N_link e (LockWord m)) m)
  | N_link e v => go (N_cas e v) (set_ListNext e (fst v) m)
  | N_cas e v =>
      if bool_decide (LockWord m = v) then go (N_set e) (set_LockWord (e, true) m)
      else go (N_load e) m
  | N_set e => go (N_unmux e) (set_Notified e true m)
  | N_unmux e =>
      massert (ILocked m)
        (muxRelease (if negb (bool_decide (e = 0%Z)) && flag 16 then P_notify all (N_unpark e)
                     else notify_end all) m)
  | N_unpark e => massert (ILocked m) (Next (notify_end all) (unpark e m))
  end.

(** [notify_all]: the test of its loop. *)
Definition notify_all (m : Monitor) : outcome :=
  massert (bool_decide (owner m = self) && ILocked m)
    (if bool_decide (WaitSet m = 0%Z) then Next Held m else Next (P_notify true N_test) m).

Definition IWait (i : IWait_pc) (m : Monitor) : outcome :=
  let go x := Next (P_IWait x) in
  match i with
  | W_clear => massert (ILocked m) (go W_reset (set_Notified self false m))
  | W_reset => go W_mux (reset self m)
  | W_mux => muxAcquire (P_IWait W_link) m
  | W_link => go W_add (set_ListNext self (WaitSet m) m)
  | W_add => go W_unmux (set_WaitSet self m)
  | W_unmux => muxRelease (P_IUnlock in_IWait U_store) m
  | W_test => if Notified m self then go W_check m else go W_park m
  | W_park => ParkCommon (P_IWait (if flag 1 then W_check else W_test)) (P_IWait W_check) m
  | W_check => if Notified m self then go W_reenter m else go W_mux_remove m
  | W_mux_remove => muxAcquire (P_IWait W_recheck) m
  | W_recheck =>
      if Notified m self then go (W_unmux_remove false) m
      else massert (not_OnDeck m) (go (W_walk (WaitSet m) 0) m)
  | W_walk p q =>
      if bool_decide (p ≠ 0%Z ∧ p ≠ self) then go (W_walk (ListNext m p) p) m
      else massert (bool_decide (p = self))
        (if bool_decide (p = WaitSet m)
         then massert (bool_decide (q = 0%Z))
                (go (W_unmux_remove true) (set_WaitSet (ListNext m p) m))
         else massert (bool_decide (ListNext m q = p))
                (go (W_unmux_remove true) (set_ListNext q (ListNext m p) m)))
  | W_unmux_remove b => muxRelease (if b then P_ILock true I_enter else P_IWait W_reenter) m
  | W_reenter =>
      if is_OnDeck m then Next (P_TryLock IWait_reenter None) m else go W_reenter_park m
  | W_reenter_park => ParkCommon (P_IWait W_reenter) (P_IWait W_reenter) m
  | W_clear_deck => massert (is_OnDeck m) (Next (Acquired true) (set_OnDeck deck_null m))
  end.

(** The end of [lock], [try_lock] and [wait]: [set_owner (Self)].  A thread that
    was suspended in [wait] first drops the lock and takes it again. *)
Definition acquired (w : bool) (m : Monitor) : outcome :=
  massert (ILocked m)
    match w, c with
    | true, Suspended => Next (P_IUnlock in_suspend U_store) m
    | _, _ => massert (bool_decide (owner m = 0%Z)) (Next Held (set_owner self m))
    end.

(** [unlock]; [_snuck] is false. *)
Definition unlock (m : Monitor) : outcome :=
  massert (bool_decide (owner m = self) && not_OnDeck m)
    (Next (P_IUnlock in_unlock U_store) (set_owner 0 m)).

Definition wait (m : Monitor) : outcome :=
  massert (bool_decide (owner m = self) && ILocked m) (Next (P_IWait W_clear) (set_owner 0 m)).

(** The starts of [lock], [lock_without_safepoint_check] and [try_lock].  The
    caller is not the VM thread at a safepoint: [can_sneak] is false. *)
Definition not_owner (m : Monitor) : bool := negb (bool_decide (owner m = self)).
Definition lock (m : Monitor) : outcome :=
  massert (not_owner m && not_OnDeck m) (Next (P_TryFast lock_fast None) m).
Definition lock_without_safepoint_check (m : Monitor) : outcome :=
  massert (not_owner m) (Next (P_ILock false I_enter) m).
Definition try_lock (m : Monitor) : outcome := Next (P_TryLock try_site None) m.

(** The calls of a client, outside and inside the monitor. *)
Definition call_outside (m : Monitor) : outcome :=
  match c with
  | Call_lock => lock m
  | Call_lock_no_check => lock_without_safepoint_check m
  | Call_try_lock => try_lock m
  | _ => Blocked
  end.
Definition call_inside (m : Monitor) : outcome :=
  match c with
  | Call_unlock => Next P_unlock m
  | Call_wait => Next P_wait m
  | Call_notify => Next (P_notify false N_test) m
  | Call_notify_all => Next P_notify_all m
  | _ => Blocked
  end.

Definition act (p : Pc) (m : Monitor) : outcome :=
  match p with
  | Idle => call_outside m
  | P_TryFast k v => TryFast k v m
  | P_TryLock s v => TryLock s v m
  | P_TrySpin s v => TrySpin s v m
  | P_ILock w i => ILock w i m
  | Acquired w => acquired w m
  | Held => call_inside m
  | P_unlock => unlock m
  | P_IUnlock r u => IUnlock r u m
  | P_wait => wait m
  | P_IWait i => IWait i m
  | P_notify all n => notify all n m
  | P_notify_all => notify_all m
  end.
End operations.

(** ** Interleavings *)

Record State := mkState { pc : Z → Pc; mon : Monitor }.

Definition initial : State := mkState (λ _, Idle) ClearMonitor.

(** One step of thread [t]; a blocked thread stays where it is. *)
Definition step {F : MonitorFlags} (t : Z) (c : choice) (s : State) : option State :=
  match act t c (pc s t) (mon s) with
  | Next p m => Some (mkState (<[t := p]> (pc s)) m)
  | Blocked => Some s
  | Failed => None
  end.

(** A schedule; numbers that are no thread take no step. *)
Fixpoint run {F : MonitorFlags} (l : list (positive * choice)) (s : State) : option State :=
  match l with
  | [] => Some s
  | (t, c) :: l => s' ← step (Zpos t) c s; run l s'
  end.
