(* ===== verification/MutexInvariant.v ===== *)
(** The invariant of the native monitor, and how the accesses preserve it.

    [Mem] is what holds of the monitor alone: the linked lists are the ghost
    lists, no event is on two of them, the lock bits agree with the ghost
    holders.  [Loc] is what one thread knows at its program point.  [rely] says
    which changes of the memory leave the knowledge of another thread true.
    [Wake] and [Succ] are the two invariants of progress: somebody is about to
    wake the heir presumptive, somebody is about to choose one. *)
From stdpp Require Import base numbers sets list functions.
From S2P Require Import Mutex.

(** ** Linked lists *)

Fixpoint chain (next : Z → Z) (h : Z) (l : list Z) : Prop :=
  match l with
  | [] => h = 0%Z
  | e :: l => h = e ∧ e ≠ 0%Z ∧ chain next (next e) l
  end.

Lemma links_ext (f g : Z → Z) h l : (∀ e, e ∈ l → f e = g e) → chain f h l → chain g h l.
Proof.
  revert h. induction l as [|e l IH]; intros h Hfg; [done|]. cbn. intros (-> & He & Hc).
  split_and!; [done..|]. rewrite <-Hfg by set_solver. apply IH; [set_solver|done].
Qed.

Lemma links_insert next h l e x : e ∉ l → chain next h l → chain (<[e := x]> next) h l.
Proof.
  intros He. apply links_ext. intros y Hy. rewrite fn_lookup_insert_ne; [done|].
  intros ->. done.
Qed.

Lemma chain_nil next l : chain next 0 l → l = [].
Proof. destruct l; [done|]. cbn. intros (<- & ? & ?). done. Qed.

Lemma chain_ne next h l : chain next h l → l ≠ [] ↔ h ≠ 0%Z.
Proof. destruct l; cbn; naive_solver. Qed.

Lemma chain_in_ne next h l e : chain next h l → e ∈ l → e ≠ 0%Z.
Proof.
  revert h. induction l as [|a l IH]; intros h; cbn; [set_solver|].
  intros (-> & Ha & Hc) [->|Hin]%elem_of_cons; eauto.
Qed.

(** ** What a program point says *)

(** The thread holds the lock byte. *)
Definition owns (p : Pc) : bool :=
  match p with
  | Acquired _ | Held | P_unlock | P_wait | P_notify _ _ | P_notify_all => true
  | P_ILock _ I_clear => true
  | P_IUnlock _ U_store => true
  | P_IWait (W_clear | W_reset | W_mux | W_link | W_add | W_unmux | W_clear_deck) => true
  | _ => false
  end.

(** The thread holds the inner lock. *)
Definition inner (p : Pc) : bool :=
  match p with
  | P_IUnlock _ (U_list | U_drain | U_detach _ | U_move _ | U_wake _ | U_pass _ | U_punt) => true
  | _ => false
  end.

(** The thread holds the lock of the WaitSet. *)
Definition mux (p : Pc) : bool :=
  match p with
  | P_IWait (W_link | W_add | W_unmux | W_recheck | W_walk _ _ | W_unmux_remove _) => true
  | P_notify _ (N_head | N_pop _ | N_load _ | N_link _ _ | N_cas _ _ | N_set _ | N_unmux _) => true
  | _ => false
  end.

(** The thread is the [_owner]. *)
Definition named (p : Pc) : bool :=
  match p with
  | Held | P_unlock | P_wait | P_notify _ _ | P_notify_all => true
  | _ => false
  end.

(** Where the thread's event is. *)
Inductive place := Nowhere | Queued | AtDeck | Waiting.

Definition spin_place (s : spin_site) : place :=
  match s with ILock_deck _ | IWait_reenter => AtDeck | _ => Nowhere end.

Definition place_of (p : Pc) : place :=
  match p with
  | P_TryLock s _ | P_TrySpin s _ => spin_place s
  | P_ILock _ (I_test | I_park) => Queued
  | P_ILock _ (I_deck | I_deck_park | I_clear) => AtDeck
  | P_IUnlock in_IWait _ => Waiting
  | P_IWait (W_unmux | W_test | W_park | W_check | W_mux_remove | W_recheck | W_walk _ _) => Waiting
  | P_IWait (W_unmux_remove false | W_reenter | W_reenter_park) => Queued
  | P_IWait W_clear_deck => AtDeck
  | _ => Nowhere
  end.

(** The thread is about to park. *)
Definition parked (p : Pc) : bool :=
  match p with
  | P_ILock _ (I_park | I_deck_park) | P_IWait (W_park | W_reenter_park) => true
  | _ => false
  end.

(** The thread will unpark [w], or see that it need not. *)
Definition helps (w : Z) (p : Pc) : bool :=
  match p with
  | P_IUnlock _ U_deck => true
  | P_IUnlock _ (U_unpark x | U_check x | U_wake_unpark x) => bool_decide (x = w)
  | _ => false
  end.

(** An event taken off the WaitSet and not yet pushed; one pushed and not yet
    marked. *)
Definition nfy_of (p : Pc) : list Z :=
  match p with P_notify _ (N_load e | N_link e _ | N_cas e _) => [e] | _ => [] end.
Definition set_of (p : Pc) : list Z :=
  match p with P_notify _ (N_set e) => [e] | _ => [] end.

(** ** The invariant *)

Record Ghost := mkGhost {
  g_cxq : list Z;
  g_entry : list Z;
  g_out : list Z;
  g_ws : list Z;
  g_nfy : list Z;
  g_set : list Z;
  g_holder : option Z;
  g_inner : option Z;
}.

Definition deck_list (m : Monitor) : list Z :=
  match OnDeck m with deck_event e => [e] | _ => [] end.

(** The events that wait for the lock, and all that are on some list. *)
Definition queue (g : Ghost) (m : Monitor) : list Z :=
  g_cxq g ++ g_entry g ++ g_out g ++ deck_list m.
Definition events (g : Ghost) (m : Monitor) : list Z := queue g m ++ g_ws g ++ g_nfy g.

Record Mem (g : Ghost) (m : Monitor) : Prop := {
  m_lock : snd (LockWord m) = bool_decide (is_Some (g_holder g));
  m_deck : match OnDeck m with
           | deck_lbit => is_Some (g_inner g)
           | deck_thread _ => False
           | _ => g_inner g = None
           end;
  m_cxq : chain (ListNext m) (fst (LockWord m)) (g_cxq g);
  m_entry : chain (ListNext m) (EntryList m) (g_entry g);
  m_ws : chain (ListNext m) (WaitSet m) (g_ws g);
  m_nodup : NoDup (events g m);
  m_events : 0%Z ∉ events g m;
  m_unmarked : ∀ e, e ∈ g_ws g ++ g_nfy g → Notified m e = false;
  m_nfy : g_nfy g ++ g_set g ≠ [] → g_holder g = Some (WaitLock m);
  m_set : ∀ e, e ∈ g_set g → e ∈ g_cxq g;
  m_out : g_inner g = None → g_out g = [];
}.

Definition placed (g : Ghost) (m : Monitor) (t : Z) (a : place) : Prop :=
  match a with
  | Nowhere => t ∉ events g m
  | Queued => t ∈ queue g m
  | AtDeck => OnDeck m = deck_event t
  | Waiting => t ∈ events g m ∧ (t ∈ queue g m → Notified m t = true ∨ t ∈ g_set g)
  end.

(** What the locals of a thread say of the memory. *)
Definition local (g : Ghost) (m : Monitor) (t : Z) (p : Pc) : Prop :=
  match p with
  | P_TryFast _ (Some v) | P_TryLock _ (Some v) | P_TrySpin _ (Some v) => snd v = false
  | P_ILock _ i =>
      match i with
      | I_push (Push_acquire v) => snd v = false
      | I_push (Push_link v) => snd v = true
      | I_push (Push_cas v) => snd v = true ∧ ListNext m t = fst v
      | I_barge => False
      | _ => True
      end
  | P_IUnlock _ u =>
      match u with
      | U_list => g_out g = []
      | U_drain | U_punt => g_entry g = [] ∧ g_out g = []
      | U_detach v => g_entry g = [] ∧ g_out g = [] ∧ snd v = false ∧ g_cxq g ≠ []
      | U_move l => g_entry g = [] ∧ chain (ListNext m) l (g_out g) ∧ g_out g ≠ []
      | U_wake w => g_out g = [] ∧ ∃ l, g_entry g = w :: l
      | U_pass w => g_out g = [w]
      | _ => True
      end
  | P_IWait i =>
      match i with
      | W_reset | W_mux | W_link => Notified m t = false
      | W_add => Notified m t = false ∧ ListNext m t = WaitSet m
      | W_walk p q => ∃ l1 l2, g_ws g = l1 ++ l2 ∧ chain (ListNext m) p l2 ∧ t ∈ l2 ∧
                        q = List.last l1 0%Z
      | _ => True
      end
  | P_notify _ n =>
      match n with
      | N_pop e => ∃ l, g_ws g = e :: l
      | N_link _ v => snd v = true
      | N_cas e v => snd v = true ∧ ListNext m e = fst v
      | _ => True
      end
  | _ => True
  end.

Record Loc (g : Ghost) (m : Monitor) (t : Z) (p : Pc) : Prop := {
  l_owns : owns p = true ↔ g_holder g = Some t;
  l_inner : inner p = true ↔ g_inner g = Some t;
  l_mux : mux p = true ↔ WaitLock m = t;
  l_named : named p = true ↔ owner m = t;
  l_place : placed g m t (place_of p);
  l_nfy : owns p = true → g_nfy g = nfy_of p ∧ g_set g = set_of p;
  l_local : local g m t p;
}.

(** The thread will choose an heir, or see that there is none to choose. *)
Definition succeeds (g : Ghost) (p : Pc) : Prop :=
  match p with
  | P_IUnlock _ (U_deck | U_cxq | U_succession) => True
  | P_IUnlock _ (U_entry v) => snd v = false ∧ (fst v ≠ 0%Z ∨ g_entry g ≠ [])
  | P_IUnlock _ U_resample => g_cxq g ≠ []
  | _ => False
  end.

Definition Wake (s : State) : Prop :=
  snd (LockWord (mon s)) = false → ∀ w, OnDeck (mon s) = deck_event w →
  parked (pc s w) = true → Event (mon s) w = false →
  ∃ u, u ≠ 0%Z ∧ helps w (pc s u) = true.

Definition Succ (g : Ghost) (s : State) : Prop :=
  snd (LockWord (mon s)) = false → OnDeck (mon s) = deck_null →
  g_cxq g ≠ [] ∨ g_entry g ≠ [] →
  ∃ u, u ≠ 0%Z ∧ succeeds g (pc s u).

Record Inv (g : Ghost) (s : State) : Prop := {
  v_mem : Mem g (mon s);
  v_loc : ∀ t, t ≠ 0%Z → Loc g (mon s) t (pc s t);
  v_wake : Wake s;
  v_succ : Succ g s;
  v_zero : pc s 0 = Idle;
  v_holder : g_holder g ≠ Some 0%Z ∧ g_inner g ≠ Some 0%Z;
}.

Definition ghost0 : Ghost := mkGhost [] [] [] [] [] [] None None.

Lemma inv_initial : Inv ghost0 initial.
Proof.
  split; cbn; [| |intros ??; done|intros ?? []; done|done|done].
  - split; cbn; [done..|constructor|set_solver|set_solver|done|set_solver|done].
  - intros t Ht. split; cbn; [naive_solver..|set_solver|done|done].
Qed.

(** ** Interference *)

(** A change of the memory that leaves thread [u]'s knowledge true. *)
Record rely (u : Z) (g : Ghost) (m : Monitor) (g' : Ghost) (m' : Monitor) : Prop := {
  r_holder : g_holder g' = Some u ↔ g_holder g = Some u;
  r_inner : g_inner g' = Some u ↔ g_inner g = Some u;
  r_mux : WaitLock m' = u ↔ WaitLock m = u;
  r_owner : owner m' = u ↔ owner m = u;
  r_events : u ∈ events g' m' ↔ u ∈ events g m;
  r_queue : u ∈ queue g m → u ∈ queue g' m';
  r_deck : OnDeck m = deck_event u → OnDeck m' = deck_event u;
  r_mark : (u ∈ queue g m → Notified m u = true ∨ u ∈ g_set g) →
           u ∈ queue g' m' → Notified m' u = true ∨ u ∈ g_set g';
  r_next : u ∉ events g m → ListNext m' u = ListNext m u;
  r_unmark : u ∉ events g m → Notified m' u = Notified m u;
  r_inner_data : g_inner g = Some u →
    g_entry g' = g_entry g ∧ g_out g' = g_out g ∧ (g_cxq g ≠ [] → g_cxq g' ≠ []) ∧
    (∀ e, e ∈ g_out g → ListNext m' e = ListNext m e);
  r_mux_data : WaitLock m = u →
    WaitSet m' = WaitSet m ∧ g_ws g' = g_ws g ∧
    (∀ e, e ∈ g_ws g → ListNext m' e = ListNext m e);
  r_holder_data : g_holder g = Some u →
    g_nfy g' = g_nfy g ∧ g_set g' = g_set g ∧
    (∀ e, e ∈ g_nfy g → ListNext m' e = ListNext m e);
}.

Lemma placed_rely u g m g' m' a : rely u g m g' m' → placed g m u a → placed g' m' u a.
Proof.
  intros R. destruct a; cbn.
  - by rewrite (r_events _ _ _ _ _ R).
  - apply R.
  - apply R.
  - intros [Hin Hq]. split; [by apply R|]. by apply (r_mark _ _ _ _ _ R).
Qed.

Lemma local_rely u g m g' m' p : rely u g m g' m' → Loc g m u p → local g' m' u p.
Proof.
  intros R [Ho Hi Hm _ Hp Hn Hl]. destruct p; cbn in *; try done.
  - destruct i as [| | | |[]| | | | |]; try done. cbn in *.
    destruct Hl as [? <-]. split; [done|]. by apply R.
  - destruct u0; cbn in *; try done;
      (destruct (r_inner_data _ _ _ _ _ R) as (He & Hout & Hc & Hx); [by apply Hi|];
       rewrite ?He, ?Hout; try done).
    + naive_solver.
    + destruct Hl as (? & ? & ?). split_and!; [done| |done]. eapply links_ext; [|done].
      intros e Hin. by rewrite Hx.
  - destruct i; cbn in *; try done; try (by rewrite (r_unmark _ _ _ _ _ R));
      destruct (r_mux_data _ _ _ _ _ R) as (Hw & Hws & Hx); try (by apply Hm).
    + destruct Hl as [? Hl]. rewrite (r_unmark _ _ _ _ _ R), Hw, <-Hl by done.
      split; [done|]. by apply R.
    + destruct Hl as (l1 & l2 & Heq & Hc & Hin & ->). exists l1, l2. rewrite Hws.
      split_and!; [done| |done..]. eapply links_ext; [|done].
      intros e He. rewrite Hx; [done|]. rewrite Heq. set_solver.
  - destruct n; cbn in *; try done.
    + destruct (r_mux_data _ _ _ _ _ R) as (_ & -> & _); [by apply Hm|done].
    + destruct Hl as [? <-]. split; [done|].
      destruct (r_holder_data _ _ _ _ _ R) as (_ & _ & Hx); [by apply Ho|].
      apply Hx. destruct Hn as [-> _]; [done|]. set_solver.
Qed.

Lemma Loc_rely u g m g' m' p : rely u g m g' m' → Loc g m u p → Loc g' m' u p.
Proof.
  intros R L. pose proof (local_rely _ _ _ _ _ _ R L) as Hl'.
  destruct L as [Ho Hi Hm Hw Hp Hn Hl]. split.
  - by rewrite (r_holder _ _ _ _ _ R).
  - by rewrite (r_inner _ _ _ _ _ R).
  - by rewrite (r_mux _ _ _ _ _ R).
  - by rewrite (r_owner _ _ _ _ _ R).
  - by eapply placed_rely.
  - intros Hown. destruct (r_holder_data _ _ _ _ _ R) as (-> & -> & _); [by apply Ho|].
    by apply Hn.
  - done.
Qed.

(** ** One step *)

Definition wake_ok (t : Z) (p : Pc) (m : Monitor) (p' : Pc) (m' : Monitor) : Prop :=
  snd (LockWord m') = true ∨
  ∀ w, OnDeck m' = deck_event w →
    helps w p' = true ∨ Event m' w = true ∨ (w = t ∧ parked p' = false) ∨
    (snd (LockWord m) = false ∧ OnDeck m = deck_event w ∧
     (w ≠ t ∧ Event m w = Event m' w) ∧ helps w p = false).

Definition succ_ok (p : Pc) (g : Ghost) (m : Monitor) (p' : Pc) (g' : Ghost) (m' : Monitor) : Prop :=
  snd (LockWord m') = true ∨ OnDeck m' ≠ deck_null ∨ (g_cxq g' = [] ∧ g_entry g' = []) ∨
  succeeds g' p' ∨
  (snd (LockWord m) = false ∧ OnDeck m = deck_null ∧ ¬ succeeds g p ∧
   g_cxq g' = g_cxq g ∧ g_entry g' = g_entry g).

Lemma succeeds_ext g g' p :
  g_cxq g' = g_cxq g → g_entry g' = g_entry g → succeeds g p → succeeds g' p.
Proof. intros Hc He. destruct p; cbn; try done. by rewrite Hc, He. Qed.

Lemma inv_step t p' m' g g' s :
  Inv g s → t ≠ 0%Z →
  Mem g' m' → Loc g' m' t p' →
  (∀ u, u ≠ t → u ≠ 0%Z → rely u g (mon s) g' m') →
  wake_ok t (pc s t) (mon s) p' m' → succ_ok (pc s t) g (mon s) p' g' m' →
  g_holder g' ≠ Some 0%Z ∧ g_inner g' ≠ Some 0%Z →
  Inv g' (mkState (<[t := p']> (pc s)) m').
Proof.
  intros [Hmem Hloc Hwake Hsucc Hz Hh] Ht Hmem' Hloc' Hrely Hw Hs Hh'. split; cbn; try done.
  - intros u Hu. destruct (decide (u = t)) as [->|Hne].
    + by rewrite fn_lookup_insert.
    + rewrite fn_lookup_insert_ne by done. eapply Loc_rely; eauto.
  - intros Hfree w Hd Hpk Hev. cbn in *. destruct Hw as [Hw|Hw]; [congruence|].
    destruct (Hw w Hd) as [Hx|[Hx|[[-> Hx]|(Hf & Hd0 & [Hne Hev0] & Hnh)]]].
    + exists t. by rewrite fn_lookup_insert.
    + congruence.
    + rewrite fn_lookup_insert in Hpk. congruence.
    + rewrite fn_lookup_insert_ne in Hpk by done.
      destruct (Hwake Hf w Hd0 Hpk) as (u & Hu & Hhu); [congruence|].
      exists u. split; [done|]. rewrite fn_lookup_insert_ne; [done|]. intros ->. congruence.
  - intros Hfree Hd Hne. cbn in *.
    destruct Hs as [Hx|[Hx|[[Hx1 Hx2]|[Hx|(Hf & Hd0 & Hns & Hc & He)]]]].
    + congruence.
    + done.
    + destruct Hne; done.
    + exists t. by rewrite fn_lookup_insert.
    + destruct (Hsucc Hf Hd0) as (u & Hu & Hsu); [by rewrite <-Hc, <-He|].
      exists u. split; [done|]. rewrite fn_lookup_insert_ne; [by eapply succeeds_ext|].
      intros ->. done.
  - by rewrite fn_lookup_insert_ne.
Qed.
