(* ===== verification/MutexSteps.v ===== *)
(** The accesses of the native monitor, one lemma for each kind: every access
    of a thread at a program point of the invariant leads to the invariant. *)
From stdpp Require Import base numbers sets list functions.
From S2P Require Import Mutex MutexInvariant.

(** ** Common parts *)

(** The two points agree on the locks they hold. *)
Definition same (p p' : Pc) : Prop :=
  (owns p', inner p', mux p', named p', nfy_of p', set_of p') =
  (owns p, inner p, mux p, named p, nfy_of p, set_of p).

Lemma Loc_same g m g' m' t p p' :
  Loc g m t p → same p p' →
  g_holder g' = g_holder g → g_inner g' = g_inner g → WaitLock m' = WaitLock m →
  owner m' = owner m → g_nfy g' = g_nfy g → g_set g' = g_set g →
  placed g' m' t (place_of p') → local g' m' t p' → Loc g' m' t p'.
Proof.
  intros [Ho Hi Hm Hw _ Hn _] [= E1 E2 E3 E4 E5 E6] F1 F2 F3 F4 F5 F6 Hp Hl.
  split; rewrite ?E1, ?E2, ?E3, ?E4, ?E5, ?E6, ?F1, ?F2, ?F3, ?F4, ?F5, ?F6; done.
Qed.

(** The thread is responsible for waking or choosing an heir. *)
Definition responsible (p : Pc) : bool :=
  match p with
  | P_IUnlock _ (U_deck | U_unpark _ | U_check _ | U_wake_unpark _) => true
  | P_IUnlock _ (U_cxq | U_entry _ | U_succession | U_resample) => true
  | _ => false
  end.

Lemma not_responsible p g : responsible p = false → (∀ w, helps w p = false) ∧ ¬ succeeds g p.
Proof. destruct p as [| | | | | | | |? []| | | |]; cbn; naive_solver. Qed.

Lemma wake_plain t p m p' m' :
  (∀ w, helps w p = false) →
  snd (LockWord m') = snd (LockWord m) → OnDeck m' = OnDeck m →
  (∀ w, w ≠ t → Event m' w = Event m w) →
  parked p' = false ∨ OnDeck m ≠ deck_event t ∨ snd (LockWord m) = true →
  wake_ok t p m p' m'.
Proof.
  intros Hh Hl Hd He Hp. unfold wake_ok. rewrite Hl, Hd.
  destruct (snd (LockWord m)); [by left|]. right. intros w Hw.
  destruct (decide (w = t)) as [->|Hne].
  - right; right; left. naive_solver.
  - right; right; right. split_and!; [done..| |done]. by rewrite He.
Qed.

Lemma succ_plain p g m p' g' m' :
  ¬ succeeds g p →
  snd (LockWord m') = snd (LockWord m) → OnDeck m' = OnDeck m →
  g_cxq g' = g_cxq g → g_entry g' = g_entry g →
  succ_ok p g m p' g' m'.
Proof.
  intros Hs Hl Hd Hc He. unfold succ_ok. rewrite Hl, Hd, Hc, He.
  destruct (snd (LockWord m)); [by left|]. right.
  destruct (decide (OnDeck m = deck_null)); [|by left]. right; right; right. done.
Qed.

Lemma rely_refl u g m : rely u g m g m.
Proof. split; naive_solver. Qed.

(** ** Accesses that read *)

(** A load at a point without responsibilities. *)
Lemma step_read t p' g s :
  Inv g s → t ≠ 0%Z → same (pc s t) p' →
  placed g (mon s) t (place_of p') → local g (mon s) t p' →
  wake_ok t (pc s t) (mon s) p' (mon s) →
  succ_ok (pc s t) g (mon s) p' g (mon s) →
  Inv g (mkState (<[t := p']> (pc s)) (mon s)).
Proof.
  intros I Ht Hsame Hp Hl Hw Hs. eapply inv_step; [done|done|apply I| | |done|done|apply I].
  - eapply Loc_same; [apply I; done|done..].
  - intros. apply rely_refl.
Qed.

(** ** The permit of an event *)

Lemma Mem_Event g m e b : Mem g m → Mem g (set_Event e b m).
Proof. intros []. by split. Qed.

Lemma rely_Event u g m e b : rely u g m g (set_Event e b m).
Proof. split; cbn; naive_solver. Qed.

Lemma step_Event t e b p' g s :
  Inv g s → t ≠ 0%Z → same (pc s t) p' →
  placed g (mon s) t (place_of p') → local g (mon s) t p' →
  wake_ok t (pc s t) (mon s) p' (set_Event e b (mon s)) →
  succ_ok (pc s t) g (mon s) p' g (set_Event e b (mon s)) →
  Inv g (mkState (<[t := p']> (pc s)) (set_Event e b (mon s))).
Proof.
  intros I Ht Hsame Hp Hl Hw Hs.
  eapply inv_step; [done|done|apply Mem_Event, I| | |done|done|apply I].
  - eapply Loc_same; [apply I; done|done| done..| |].
    + revert Hp. by destruct (place_of p').
    + by destruct p' as [| | | | | | | |? []| |[]|? []|].
  - intros. apply rely_Event.
Qed.

(** ** The lock byte *)

Definition with_holder (h : option Z) (g : Ghost) : Ghost :=
  mkGhost (g_cxq g) (g_entry g) (g_out g) (g_ws g) (g_nfy g) (g_set g) h (g_inner g).

(** Nobody is between two steps of [notify] when the lock is free. *)
Lemma free_holder g m : Mem g m → snd (LockWord m) = false → g_holder g = None.
Proof.
  intros M Hf. rewrite (m_lock _ _ M) in Hf. destruct (g_holder g); [|done].
  by rewrite bool_decide_eq_true_2 in Hf by eauto.
Qed.

Lemma free_nfy g m : Mem g m → g_holder g = None → g_nfy g = [] ∧ g_set g = [].
Proof.
  intros M Hh. destruct (g_nfy g ++ g_set g) eqn:E; [by apply app_eq_nil in E|].
  pose proof (m_nfy _ _ M). rewrite E in H. rewrite Hh in H. by specialize (H ltac:(done)).
Qed.

(** A successful compare-and-swap of a free lock word. *)
Lemma step_acquire t p' g s :
  Inv g s → t ≠ 0%Z → snd (LockWord (mon s)) = false →
  owns p' = true → inner p' = inner (pc s t) → mux p' = mux (pc s t) →
  named p' = named (pc s t) → nfy_of p' = [] → set_of p' = [] →
  placed g (mon s) t (place_of p') →
  (∀ g m, local g m t p') →
  Inv (with_holder (Some t) g)
    (mkState (<[t := p']> (pc s)) (set_LockWord (fst (LockWord (mon s)), true) (mon s))).
Proof.
  intros I Ht Hf E1 E2 E3 E4 E5 E6 Hp Hl.
  pose proof (free_holder _ _ (v_mem _ _ I) Hf) as Hh.
  destruct (free_nfy _ _ (v_mem _ _ I) Hh) as [Hn0 Hs0].
  eapply inv_step; [done|done| | | |by left|by left|].
  - destruct (v_mem _ _ I). split; cbn -[deck_list]; try done. by rewrite Hn0, Hs0.
  - destruct (v_loc _ _ I t Ht) as [Ho Hi Hm Hw _ _ _].
    split; cbn; [naive_solver| | | | | |done]; rewrite ?E2, ?E3, ?E4; try done.
    intros _. by rewrite Hn0, Hs0, E5, E6.
  - intros u Hu _. split; cbn -[deck_list]; try done; rewrite ?Hh; naive_solver.
  - cbn. destruct (v_holder _ _ I). split; congruence.
Qed.

(** The store that drops the lock byte. *)
Lemma step_release t r g s :
  Inv g s → t ≠ 0%Z → pc s t = P_IUnlock r U_store →
  Inv (with_holder None g)
    (mkState (<[t := P_IUnlock r U_deck]> (pc s))
       (set_LockWord (fst (LockWord (mon s)), false) (mon s))).
Proof.
  intros I Ht Hpc. destruct (v_loc _ _ I t Ht) as [Ho Hi Hm Hw Hp Hn _]. rewrite Hpc in *. cbn in *.
  destruct Hn as [Hn Hs]; [done|]. assert (g_holder g = Some t) as Hh by by apply Ho.
  eapply inv_step; [done|done| | | | | |].
  - destruct (v_mem _ _ I). split; cbn -[deck_list]; try done. by rewrite Hn, Hs.
  - split; cbn -[deck_list]; try done.
  - intros u Hu _. split; cbn -[deck_list]; try done; rewrite ?Hh; naive_solver.
  - right. intros w Hw'. by left.
  - right; right; right; left. done.
  - cbn. split; [done|apply I].
Qed.

(** ** The owner field *)

Lemma step_owner t x p' g s :
  Inv g s → t ≠ 0%Z →
  (x = t ∧ owner (mon s) = 0%Z ∧ named p' = true ∨ x = 0%Z ∧ owner (mon s) = t ∧ named p' = false) →
  owns p' = owns (pc s t) → inner p' = inner (pc s t) → mux p' = mux (pc s t) →
  nfy_of p' = nfy_of (pc s t) → set_of p' = set_of (pc s t) →
  place_of p' = place_of (pc s t) → (∀ g m, local g m t p') → owns (pc s t) = true →
  Inv g (mkState (<[t := p']> (pc s)) (set_owner x (mon s))).
Proof.
  intros I Ht Hx E1 E2 E3 E4 E5 E6 Hl Hown.
  assert (snd (LockWord (mon s)) = true) as Hlk.
  { rewrite (m_lock _ _ (v_mem _ _ I)). apply bool_decide_eq_true_2.
    exists t. by apply (v_loc _ _ I t Ht). }
  destruct (v_loc _ _ I t Ht) as [Ho Hi Hm Hw Hp Hn _].
  eapply inv_step; [done|done| | | |by left|by left|apply I].
  - destruct (v_mem _ _ I). by split.
  - split; cbn; rewrite ?E1, ?E2, ?E3, ?E4, ?E5; try done.
    + destruct Hx as [(-> & _ & ->)|(-> & _ & ->)]; naive_solver.
    + by rewrite E6.
  - intros u Hu Hu0. split; cbn -[deck_list]; try done. destruct Hx as [(-> & -> & _)|(-> & -> & _)]; naive_solver.
Qed.

Lemma owns_locked g s t : Inv g s → t ≠ 0%Z → owns (pc s t) = true → snd (LockWord (mon s)) = true.
Proof.
  intros I Ht Hown. rewrite (m_lock _ _ (v_mem _ _ I)). apply bool_decide_eq_true_2.
  exists t. by apply (v_loc _ _ I t Ht).
Qed.

(** ** The lists *)

(** The deck after a store. *)
Ltac deck_simpl :=
  repeat match goal with
  | |- context [deck_list (set_OnDeck deck_null ?m)] => change (deck_list (set_OnDeck deck_null m)) with (@nil Z)
  | |- context [deck_list (set_OnDeck deck_lbit ?m)] => change (deck_list (set_OnDeck deck_lbit m)) with (@nil Z)
  | |- context [deck_list (set_OnDeck (deck_event ?e) ?m)] =>
      change (deck_list (set_OnDeck (deck_event e) m)) with [e]
  | |- context [deck_list (set_LockWord ?v ?m)] => change (deck_list (set_LockWord v m)) with (deck_list m)
  | |- context [deck_list (set_EntryList ?v ?m)] => change (deck_list (set_EntryList v m)) with (deck_list m)
  | |- context [deck_list (set_WaitLock ?v ?m)] => change (deck_list (set_WaitLock v m)) with (deck_list m)
  | |- context [deck_list (set_WaitSet ?v ?m)] => change (deck_list (set_WaitSet v m)) with (deck_list m)
  | |- context [deck_list (set_ListNext ?e ?v ?m)] => change (deck_list (set_ListNext e v m)) with (deck_list m)
  | |- context [deck_list (set_Notified ?e ?v ?m)] => change (deck_list (set_Notified e v m)) with (deck_list m)
  end.

(** Membership in the lists of events. *)
Ltac events_perm := unfold events, queue in *; cbn -[deck_list] in *; deck_simpl.
Ltac events_set := events_perm; set_solver.

Lemma deck_list_event m e : OnDeck m = deck_event e → deck_list m = [e].
Proof. unfold deck_list. by intros ->. Qed.

Lemma deck_list_nil m : OnDeck m = deck_null ∨ OnDeck m = deck_lbit → deck_list m = [].
Proof. unfold deck_list. by intros [-> | ->]. Qed.

Lemma nfy_apart g m e :
  Mem g m → e ∈ g_nfy g → e ∉ g_cxq g ++ g_entry g ++ g_out g ++ g_ws g.
Proof.
  intros M He. pose proof (m_nodup _ _ M) as Hnd. clear M. events_perm.
  repeat setoid_rewrite list.NoDup_app in Hnd. set_solver.
Qed.

(** A store to the link of an event that is on no list, or that [notify] holds. *)
Lemma step_ListNext t e x p' g s :
  Inv g s → t ≠ 0%Z →
  e = t ∧ t ∉ events g (mon s) ∨ e ∈ g_nfy g ∧ g_holder g = Some t →
  same (pc s t) p' → place_of p' = place_of (pc s t) →
  local g (set_ListNext e x (mon s)) t p' →
  parked p' = false → responsible (pc s t) = false →
  Inv g (mkState (<[t := p']> (pc s)) (set_ListNext e x (mon s))).
Proof.
  intros I Ht He Hsame Hpl Hl Hpk [Hh Hns]%(not_responsible _ g).
  assert (e ∉ g_cxq g ++ g_entry g ++ g_out g ++ g_ws g) as Hout.
  { destruct He as [[-> Hn]|[He _]]; [clear -Hn; events_set|].
    by apply (nfy_apart _ _ _ (v_mem _ _ I)). }
  eapply inv_step; [done|done| | | | | |apply I].
  - destruct (v_mem _ _ I). split; cbn -[deck_list]; try done; apply links_insert; set_solver.
  - eapply Loc_same; [apply I; done|done..| |done]. rewrite Hpl.
    apply (v_loc _ _ I t Ht).
  - intros u Hu Hu0. split; cbn -[deck_list]; try done.
    + intros Hn. rewrite fn_lookup_insert_ne; [done|]. intros ->. destruct He as [[-> _]|[He _]]; [done|].
      events_set.
    + intros _. split_and!; [done..|]. intros e' He'. rewrite fn_lookup_insert_ne; [done|]. intros ->. set_solver.
    + intros _. split_and!; [done..|]. intros e' He'. rewrite fn_lookup_insert_ne; [done|]. intros ->. set_solver.
    + intros Hhu. split_and!; [done..|]. intros e' He'. rewrite fn_lookup_insert_ne; [done|].
      intros ->. destruct He as [[-> Hn]|[_ Hht]]; [events_set|congruence].
  - apply wake_plain; auto.
  - by apply succ_plain.
Qed.

Definition with_cxq (l : list Z) (g : Ghost) : Ghost :=
  mkGhost l (g_entry g) (g_out g) (g_ws g) (g_nfy g) (g_set g) (g_holder g) (g_inner g).

(** The compare-and-swap of [AcquireOrPush] that pushes the thread's event. *)
Lemma step_push t w v g s :
  Inv g s → t ≠ 0%Z → pc s t = P_ILock w (I_push (Push_cas v)) → LockWord (mon s) = v →
  Inv (with_cxq (t :: g_cxq g) g)
    (mkState (<[t := P_ILock w I_test]> (pc s)) (set_LockWord (t, true) (mon s))).
Proof.
  intros I Ht Hpc Hv. pose proof (v_loc _ _ I t Ht) as L. rewrite Hpc in L.
  destruct L as [Ho Hi Hm Hw Hp _ [Hlk Hnext]]. cbn in *. pose proof (v_mem _ _ I) as M.
  eapply inv_step; [done|done| | | |by left|by left|apply I].
  - destruct M as [Hl Hd Hc He Hws Hnd H0 Hu Hn Hs Hout].
    split; cbn -[deck_list]; try done.
    + rewrite <-Hl. by rewrite Hv.
    + rewrite Hnext, <-Hv. done.
    + events_perm. by constructor.
    + events_set.
    + intros e He'. apply elem_of_cons. right. eauto.
  - split; cbn -[deck_list]; try done. events_set.
  - intros u Hu Hu0. clear -Hu. split; cbn -[deck_list]; try done; [events_set|events_set|].
    intros Hq Hin. apply Hq. clear Hq. events_set.
Qed.

(** ** The heir presumptive *)

(** The thread on deck has the lock and leaves the deck. *)
Lemma step_clear t w p' g s :
  Inv g s → t ≠ 0%Z → owns (pc s t) = true → place_of (pc s t) = AtDeck →
  named (pc s t) = false → mux (pc s t) = false →
  nfy_of (pc s t) = [] → set_of (pc s t) = [] → p' = Acquired w →
  Inv g (mkState (<[t := p']> (pc s)) (set_OnDeck deck_null (mon s))).
Proof.
  intros I Ht Hown Hpl Hna Hmu Hn0 Hs0 ->. pose proof (owns_locked _ _ _ I Ht Hown) as Hlk.
  destruct (v_loc _ _ I t Ht) as [Ho Hi Hm Hw Hp Hn _]. rewrite Hpl in Hp. cbn in Hp.
  destruct Hn as [Hn Hs]; [done|]. pose proof (v_mem _ _ I) as M.
  assert (g_inner g = None) as Hin by (pose proof (m_deck _ _ M) as Hd; by rewrite Hp in Hd).
  pose proof (deck_list_event _ _ Hp) as Hdk. set (m' := set_OnDeck deck_null (mon s)).
  assert (queue g (mon s) ≡ₚ t :: queue g m') as Hq.
  { unfold m'. clear -Hdk. events_perm. rewrite Hdk. solve_Permutation. }
  assert (events g (mon s) ≡ₚ t :: events g m') as Hev by (unfold events; by rewrite Hq).
  destruct M as [Hl _ Hc He Hws Hnd H0 Hu Hn' Hs' Hout].
  rewrite Hev in Hnd, H0. apply list.NoDup_cons in Hnd as [Hnt Hnd]. apply not_elem_of_cons in H0 as [_ H0].
  eapply inv_step; [done|done| | | |by left|by left|apply I].
  - by split.
  - split; cbn -[events]; rewrite ?Hn, ?Hs, ?Hn0, ?Hs0, ?Hin, <-?Ho, <-?Hm, <-?Hw, ?Hown, ?Hmu, ?Hna; done.
  - intros u Hu' Hu0. split; rewrite ?Hev, ?Hq, ?elem_of_cons; cbn -[events queue]; try done.
    + naive_solver.
    + naive_solver.
    + rewrite Hp. congruence.
    + naive_solver.
Qed.

Definition with_inner (i : option Z) (g : Ghost) : Ghost :=
  mkGhost (g_cxq g) (g_entry g) (g_out g) (g_ws g) (g_nfy g) (g_set g) (g_holder g) i.

(** An exiting thread takes the inner lock. *)
Lemma step_succession t r g s :
  Inv g s → t ≠ 0%Z → pc s t = P_IUnlock r U_succession → OnDeck (mon s) = deck_null →
  Inv (with_inner (Some t) g)
    (mkState (<[t := P_IUnlock r U_list]> (pc s)) (set_OnDeck deck_lbit (mon s))).
Proof.
  intros I Ht Hpc Hd. pose proof (v_loc _ _ I t Ht) as L. rewrite Hpc in L.
  destruct L as [Ho Hi Hm Hw Hp _ _]. cbn in *. pose proof (v_mem _ _ I) as M.
  assert (g_inner g = None) as Hin by (pose proof (m_deck _ _ M) as Hd'; by rewrite Hd in Hd').
  set (g' := with_inner (Some t) g). set (m' := set_OnDeck deck_lbit (mon s)).
  assert (queue g' m' = queue g (mon s)) as Hq.
  { unfold g', m', queue. cbn -[deck_list]. by rewrite (deck_list_nil _ (or_introl Hd)). }
  assert (events g' m' = events g (mon s)) as Hev by (unfold events; by rewrite Hq).
  eapply inv_step; [done|done| | | |by right|by right; left|].
  - destruct M. split; rewrite ?Hev; cbn -[events]; done.
  - split; cbn -[events queue placed]; try done; [|by apply (m_out _ _ M)].
    destruct r; cbn -[events queue] in *; rewrite ?Hev, ?Hq; done.
  - intros u Hu Hu0. split; rewrite ?Hev, ?Hq; cbn -[events queue]; rewrite ?Hd, ?Hin; naive_solver.
  - cbn. destruct (v_holder _ _ I). split; congruence.
Qed.

(** ** Under the inner lock *)

Lemma inner_deck g s t : Inv g s → t ≠ 0%Z → inner (pc s t) = true →
  g_inner g = Some t ∧ OnDeck (mon s) = deck_lbit.
Proof.
  intros I Ht Hin. assert (g_inner g = Some t) as Hi by by apply (v_loc _ _ I t Ht).
  split; [done|]. pose proof (m_deck _ _ (v_mem _ _ I)) as Hd. rewrite Hi in Hd.
  by destruct (OnDeck (mon s)).
Qed.

(** The holder of the inner lock moves events between the cxq, the EntryList,
    its own hands and the deck, and may release the lock. *)
Lemma step_shift t r u u' cxq entry out inn m' g s :
  let g' := mkGhost cxq entry out (g_ws g) (g_nfy g) (g_set g) (g_holder g) inn in
  Inv g s → t ≠ 0%Z → pc s t = P_IUnlock r u → inner (pc s t) = true →
  (if inner (P_IUnlock r u') then inn = Some t else inn = None) → u' ≠ U_store →
  snd (LockWord m') = snd (LockWord (mon s)) → owner m' = owner (mon s) →
  WaitLock m' = WaitLock (mon s) → WaitSet m' = WaitSet (mon s) →
  ListNext m' = ListNext (mon s) → Notified m' = Notified (mon s) →
  match OnDeck m' with
  | deck_lbit => is_Some inn | deck_thread _ => False | _ => inn = None
  end →
  queue g' m' ≡ₚ queue g (mon s) →
  chain (ListNext (mon s)) (fst (LockWord m')) cxq →
  chain (ListNext (mon s)) (EntryList m') entry →
  (∀ e, e ∈ g_set g → e ∈ cxq) → (inn = None → out = []) →
  local g' m' t (P_IUnlock r u') →
  wake_ok t (pc s t) (mon s) (P_IUnlock r u') m' →
  succ_ok (pc s t) g (mon s) (P_IUnlock r u') g' m' →
  Inv g' (mkState (<[t := P_IUnlock r u']> (pc s)) m').
Proof.
  intros g' I Ht Hpc Hin Hinn Hst E1 E2 E3 E4 E5 E6 Hd' Hq Hc He Hset Hout Hl Hw Hs.
  destruct (inner_deck _ _ _ I Ht Hin) as [Hi Hd].
  assert (events g' m' ≡ₚ events g (mon s)) as Hev by (unfold events; by rewrite Hq).
  pose proof (v_loc _ _ I t Ht) as L. rewrite Hpc in L, Hin.
  destruct L as [Lo Li Lm Lw Lp _ _]. pose proof (v_mem _ _ I) as M.
  assert (owns (P_IUnlock r u) = false) as Hno by by destruct u.
  eapply inv_step; [done|done| | | |done|done|].
  - destruct M. split; cbn -[events queue]; try done; rewrite ?E1, ?E3, ?E4, ?E5, ?E6; try done; by rewrite Hev.
  - split; cbn -[owns inner events queue]; rewrite ?E2, ?E3; try done.
    + rewrite Hno in Lo. by destruct u'.
    + destruct (inner (P_IUnlock r u')); rewrite Hinn; naive_solver.
    + destruct r; cbn -[events queue] in *; rewrite ?Hev, ?Hq, ?E6; done.
    + by destruct u'.
  - intros x Hx Hx0. split; rewrite ?E2, ?E3, ?E4, ?E5, ?E6, ?Hev, ?Hq; cbn -[events queue]; try done.
    + destruct (inner (P_IUnlock r u')); rewrite Hinn, Hi; naive_solver.
    + by rewrite Hd.
    + rewrite Hi. naive_solver.
  - cbn. destruct (v_holder _ _ I) as [? ?].
    destruct (inner (P_IUnlock r u')); rewrite Hinn; split; congruence.
Qed.

(** [cxq] detached with one compare-and-swap. *)
Lemma step_detach t r v g s :
  Inv g s → t ≠ 0%Z → pc s t = P_IUnlock r (U_detach v) → LockWord (mon s) = v →
  Inv (mkGhost [] (g_entry g) (g_cxq g) (g_ws g) (g_nfy g) (g_set g) (g_holder g) (g_inner g))
    (mkState (<[t := P_IUnlock r (U_move (fst v))]> (pc s)) (set_LockWord (0%Z, false) (mon s))).
Proof.
  intros I Ht Hpc Hv. pose proof (v_loc _ _ I t Ht) as L. rewrite Hpc in L.
  destruct L as [_ _ _ _ _ _ (Hen & Hout & Hf & Hcx)].
  destruct (inner_deck _ _ _ I Ht) as [Hi Hd]; [by rewrite Hpc|]. pose proof (v_mem _ _ I) as M.
  assert (g_set g = []) as Hs0.
  { apply (free_nfy _ _ M), (free_holder _ _ M). by rewrite Hv. }
  eapply step_shift; [done|done|done|by rewrite Hpc|done|done|..]; cbn; rewrite ?Hv; try done.
  - by rewrite Hd, Hi.
  - unfold queue. cbn -[deck_list]. deck_simpl. rewrite Hen, Hout. cbn -[deck_list]. done.
  - apply M.
  - rewrite Hs0. set_solver.
  - by rewrite Hi.
  - split_and!; [done| |done]. rewrite <-Hv. apply M.
  - right. cbn. intros w. by rewrite Hd.
  - right; left. cbn. by rewrite Hd.
Qed.

(** The detached segment becomes the EntryList. *)
Lemma step_move t r l g s :
  Inv g s → t ≠ 0%Z → pc s t = P_IUnlock r (U_move l) →
  Inv (mkGhost (g_cxq g) (g_out g) [] (g_ws g) (g_nfy g) (g_set g) (g_holder g) (g_inner g))
    (mkState (<[t := P_IUnlock r (U_wake l)]> (pc s)) (set_EntryList l (mon s))).
Proof.
  intros I Ht Hpc. pose proof (v_loc _ _ I t Ht) as L. rewrite Hpc in L.
  destruct L as [_ _ _ _ _ _ (Hen & Hc & Hne)].
  destruct (inner_deck _ _ _ I Ht) as [Hi Hd]; [by rewrite Hpc|]. pose proof (v_mem _ _ I) as M.
  eapply step_shift; [done|done|done|by rewrite Hpc|done|done|..]; cbn; try done.
  - by rewrite Hd, Hi.
  - unfold queue. cbn -[deck_list]. deck_simpl. by rewrite Hen.
  - apply M.
  - apply M.
  - split; [done|]. destruct (g_out g) as [|e out]; [done|]. destruct Hc as [-> _]. eauto.
  - right. cbn. intros w. by rewrite Hd.
  - right; left. cbn. by rewrite Hd.
Qed.

(** The head of the EntryList is taken off. *)
Lemma step_wake t r w l g s :
  Inv g s → t ≠ 0%Z → pc s t = P_IUnlock r (U_wake w) → g_entry g = w :: l →
  Inv (mkGhost (g_cxq g) l [w] (g_ws g) (g_nfy g) (g_set g) (g_holder g) (g_inner g))
    (mkState (<[t := P_IUnlock r (U_pass w)]> (pc s))
       (set_EntryList (ListNext (mon s) w) (mon s))).
Proof.
  intros I Ht Hpc Hen. pose proof (v_loc _ _ I t Ht) as L. rewrite Hpc in L.
  destruct L as [_ _ _ _ _ _ (Hout & _)].
  destruct (inner_deck _ _ _ I Ht) as [Hi Hd]; [by rewrite Hpc|]. pose proof (v_mem _ _ I) as M.
  eapply step_shift; [done|done|done|by rewrite Hpc|done|done|..]; cbn; try done.
  - by rewrite Hd, Hi.
  - unfold queue. cbn -[deck_list]. deck_simpl. rewrite Hen, Hout. solve_Permutation.
  - apply M.
  - pose proof (m_entry _ _ M) as Hc. rewrite Hen in Hc. apply Hc.
  - apply M.
  - by rewrite Hi.
  - right. cbn. intros x. by rewrite Hd.
  - right; left. cbn. by rewrite Hd.
Qed.

(** The event becomes the heir presumptive, and the inner lock is dropped. *)
Lemma step_pass t r w g s :
  Inv g s → t ≠ 0%Z → pc s t = P_IUnlock r (U_pass w) →
  Inv (mkGhost (g_cxq g) (g_entry g) [] (g_ws g) (g_nfy g) (g_set g) (g_holder g) None)
    (mkState (<[t := P_IUnlock r (U_check w)]> (pc s)) (set_OnDeck (deck_event w) (mon s))).
Proof.
  intros I Ht Hpc. pose proof (v_loc _ _ I t Ht) as L. rewrite Hpc in L.
  destruct L as [_ _ _ _ _ _ Hout]. cbn in Hout.
  destruct (inner_deck _ _ _ I Ht) as [Hi Hd]; [by rewrite Hpc|]. pose proof (v_mem _ _ I) as M.
  eapply step_shift; [done|done|done|by rewrite Hpc|done|done|..]; cbn; try done; try apply M.
  - unfold queue. cbn -[deck_list]. deck_simpl.
    by rewrite Hout, (deck_list_nil _ (or_intror Hd)), app_nil_r.
  - right. cbn. intros x [= ->]. left. by apply bool_decide_eq_true_2.
  - by right; left.
Qed.

(** The inner lock is dropped and nobody chosen. *)
Lemma step_punt t r g s :
  Inv g s → t ≠ 0%Z → pc s t = P_IUnlock r U_punt →
  Inv (mkGhost (g_cxq g) (g_entry g) [] (g_ws g) (g_nfy g) (g_set g) (g_holder g) None)
    (mkState (<[t := P_IUnlock r U_resample]> (pc s)) (set_OnDeck deck_null (mon s))).
Proof.
  intros I Ht Hpc. pose proof (v_loc _ _ I t Ht) as L. rewrite Hpc in L.
  destruct L as [_ _ _ _ _ _ [Hen Hout]].
  destruct (inner_deck _ _ _ I Ht) as [Hi Hd]; [by rewrite Hpc|]. pose proof (v_mem _ _ I) as M.
  eapply step_shift; [done|done|done|by rewrite Hpc|done|done|..]; cbn; try done; try apply M.
  - unfold queue. cbn -[deck_list]. deck_simpl.
    by rewrite Hout, (deck_list_nil _ (or_intror Hd)).
  - by right.
  - destruct (decide (g_cxq g = [])) as [Hc|Hc]; [by right; right; left|].
    by right; right; right; left.
Qed.

(** ** The WaitSet *)

Lemma mux_free g s : Inv g s → WaitLock (mon s) = 0%Z → g_nfy g = [] ∧ g_set g = [].
Proof.
  intros I Hw. destruct (decide (g_nfy g ++ g_set g = [])) as [E|E]; [by apply app_eq_nil in E|].
  pose proof (m_nfy _ _ (v_mem _ _ I) E) as Hh. rewrite Hw in Hh. by destruct (v_holder _ _ I).
Qed.

(** A thread that holds the lock of the WaitSet and is not in [notify]. *)
Lemma mux_mine g s t : Inv g s → t ≠ 0%Z → mux (pc s t) = true →
  nfy_of (pc s t) = [] → set_of (pc s t) = [] → g_nfy g = [] ∧ g_set g = [].
Proof.
  intros I Ht Hm Hn0 Hs0. destruct (v_loc _ _ I t Ht) as [Ho _ Lm _ _ Hn _].
  destruct (decide (g_nfy g ++ g_set g = [])) as [E|E]; [by apply app_eq_nil in E|].
  pose proof (m_nfy _ _ (v_mem _ _ I) E) as Hh. apply Lm in Hm. rewrite Hm in Hh.
  apply Ho in Hh. rewrite Hn0, Hs0 in Hn. by apply Hn.
Qed.

(** Taking ([x] is the thread) or dropping ([x] is 0) the lock of the WaitSet. *)
Lemma step_mux t x p' g s :
  Inv g s → t ≠ 0%Z →
  x = t ∧ WaitLock (mon s) = 0%Z ∧ mux p' = true ∨
  x = 0%Z ∧ mux (pc s t) = true ∧ nfy_of (pc s t) = [] ∧ set_of (pc s t) = [] ∧ mux p' = false →
  owns p' = owns (pc s t) → inner p' = inner (pc s t) → named p' = named (pc s t) →
  nfy_of p' = [] → set_of p' = [] →
  placed g (mon s) t (place_of p') → local g (set_WaitLock x (mon s)) t p' →
  parked p' = false → responsible (pc s t) = false →
  Inv g (mkState (<[t := p']> (pc s)) (set_WaitLock x (mon s))).
Proof.
  intros I Ht Hx E1 E2 E4 E5 E6 Hp Hl Hpk [Hh Hns]%(not_responsible _ g).
  assert (g_nfy g = [] ∧ g_set g = []) as [Hn Hs].
  { destruct Hx as [(_ & Hx & _)|(_ & Hm & Hn & Hs & _)]; [by eapply mux_free|by eapply mux_mine]. }
  destruct (v_loc _ _ I t Ht) as [Ho Hi Hm Hw _ _ _].
  eapply inv_step; [done|done| | | |by apply wake_plain; auto|by apply succ_plain|apply I].
  - destruct (v_mem _ _ I). split; cbn; try done. by rewrite Hn, Hs.
  - split; cbn; rewrite ?E1, ?E2, ?E4, ?E5, ?E6; try done.
    destruct Hx as [(-> & _ & ->)|(-> & _ & _ & _ & ->)]; naive_solver.
  - intros u Hu Hu0. split; cbn; try done; destruct Hx as [(-> & -> & _)|(-> & Hmt & _)]; try naive_solver.
Qed.

(** [Notified] cleared by a thread that is on no list. *)
Lemma step_unmark t p' g s :
  Inv g s → t ≠ 0%Z → owns (pc s t) = true → same (pc s t) p' →
  t ∉ events g (mon s) → place_of p' = Nowhere →
  local g (set_Notified t false (mon s)) t p' →
  Inv g (mkState (<[t := p']> (pc s)) (set_Notified t false (mon s))).
Proof.
  intros I Ht Hown Hsame Hn Hp Hl. pose proof (owns_locked _ _ _ I Ht Hown) as Hlk.
  eapply inv_step; [done|done| | | |by left|by left|apply I].
  - destruct (v_mem _ _ I). split; cbn; try done. intros e He.
    destruct (decide (e = t)) as [->|Hne]; [by rewrite fn_lookup_insert|].
    rewrite fn_lookup_insert_ne by done. eauto.
  - eapply Loc_same; [apply I; done|done..| |done]. by rewrite Hp.
  - intros u Hu _. split; cbn; try done; by rewrite fn_lookup_insert_ne.
Qed.

Definition with_ws (l : list Z) (g : Ghost) : Ghost :=
  mkGhost (g_cxq g) (g_entry g) (g_out g) l (g_nfy g) (g_set g) (g_holder g) (g_inner g).

(** A thread in [wait] puts itself on the WaitSet. *)
Lemma step_add t g s :
  Inv g s → t ≠ 0%Z → pc s t = P_IWait W_add →
  Inv (with_ws (t :: g_ws g) g)
    (mkState (<[t := P_IWait W_unmux]> (pc s)) (set_WaitSet t (mon s))).
Proof.
  intros I Ht Hpc. pose proof (owns_locked _ _ _ I Ht ltac:(by rewrite Hpc)) as Hlk.
  pose proof (v_loc _ _ I t Ht) as L. rewrite Hpc in L.
  destruct L as [Ho Hi Hm Hw Hp Hn [Hun Hnext]]. cbn -[events] in *. pose proof (v_mem _ _ I) as M.
  assert (WaitLock (mon s) = t) as Hmt by by apply Hm.
  eapply inv_step; [done|done| | | |by left|by left|apply I].
  - destruct M as [Hl Hd Hc He Hws Hnd H0 Hu Hn' Hs Hout]. split; cbn -[events]; try done.
    + by rewrite Hnext.
    + assert (events (with_ws (t :: g_ws g) g) (set_WaitSet t (mon s)) ≡ₚ t :: events g (mon s)) as ->.
      { events_perm. solve_Permutation. }
      by constructor.
    + clear -H0 Ht. events_set.
    + intros e [->|Hin]%elem_of_cons; eauto.
  - split; cbn -[events queue]; try done. split; [events_set|]. clear -Hp. events_set.
  - intros u Hu Hu0. clear -Hu Hmt. split; cbn -[events queue]; try done; [events_set|naive_solver].
Qed.

(** [notify] takes the head of the WaitSet. *)
Lemma step_pop t all e l g s :
  Inv g s → t ≠ 0%Z → pc s t = P_notify all (N_pop e) → g_ws g = e :: l →
  Inv (mkGhost (g_cxq g) (g_entry g) (g_out g) l [e] (g_set g) (g_holder g) (g_inner g))
    (mkState (<[t := P_notify all (N_load e)]> (pc s)) (set_WaitSet (ListNext (mon s) e) (mon s))).
Proof.
  intros I Ht Hpc Hws. pose proof (owns_locked _ _ _ I Ht ltac:(by rewrite Hpc)) as Hlk.
  pose proof (v_loc _ _ I t Ht) as L. rewrite Hpc in L.
  destruct L as [Ho Hi Hm Hw Hp Hn _]. cbn -[events] in *. destruct Hn as [Hn Hs]; [done|].
  pose proof (v_mem _ _ I) as M. assert (WaitLock (mon s) = t) as Hmt by by apply Hm.
  assert (g_holder g = Some t) as Hht by by apply Ho.
  set (g' := mkGhost _ _ _ _ _ _ _ _). set (m' := set_WaitSet _ _).
  assert (events g' m' ≡ₚ events g (mon s)) as Hev.
  { unfold g', m'. events_perm. rewrite Hws, Hn. solve_Permutation. }
  eapply inv_step; [done|done| | | |by left|by left|apply I].
  - destruct M as [Hl Hd Hc He Hcw Hnd H0 Hu Hn' Hs' Hout].
    split; cbn -[events]; rewrite ?Hev; try done.
    + rewrite Hws in Hcw. apply Hcw.
    + intros x Hx. apply Hu. rewrite Hws, Hn. set_solver.
    + congruence.
  - split; cbn -[events]; rewrite ?Hev; try done.
  - intros u Hu Hu0. split; rewrite ?Hev; try done; [by rewrite Hmt; intros <-|].
    rewrite Hht. by intros [= <-].
Qed.

(** [notify] pushes the event on the cxq. *)
Lemma step_notify_push t all e v g s :
  Inv g s → t ≠ 0%Z → pc s t = P_notify all (N_cas e v) → LockWord (mon s) = v →
  Inv (mkGhost (e :: g_cxq g) (g_entry g) (g_out g) (g_ws g) [] [e] (g_holder g) (g_inner g))
    (mkState (<[t := P_notify all (N_set e)]> (pc s)) (set_LockWord (e, true) (mon s))).
Proof.
  intros I Ht Hpc Hv. pose proof (v_loc _ _ I t Ht) as L. rewrite Hpc in L.
  destruct L as [Ho Hi Hm Hw Hp Hn [Hlk Hnext]]. cbn -[events] in *. destruct Hn as [Hn Hs]; [done|].
  pose proof (v_mem _ _ I) as M. assert (WaitLock (mon s) = t) as Hmt by by apply Hm.
  assert (g_holder g = Some t) as Hht by by apply Ho.
  set (g' := mkGhost _ _ _ _ _ _ _ _). set (m' := set_LockWord _ _).
  assert (events g' m' ≡ₚ events g (mon s)) as Hev.
  { unfold g', m'. events_perm. rewrite Hn. solve_Permutation. }
  assert (e ≠ 0%Z) as He0.
  { intros ->. apply (m_events _ _ M). events_perm. rewrite Hn. set_solver. }
  eapply inv_step; [done|done| | | |by left|by left|apply I].
  - destruct M as [Hl Hd Hc He Hcw Hnd H0 Hu Hn' Hs' Hout].
    split; cbn -[events]; rewrite ?Hev; try done.
    + rewrite <-Hl. by rewrite Hv.
    + by rewrite Hnext, <-Hv.
    + intros x Hx. apply Hu. set_solver.
    + congruence.
    + set_solver.
  - split; cbn -[events]; rewrite ?Hev; try done.
  - intros u Hu Hu0. split; rewrite ?Hev; try done.
    + unfold g', m'. clear. events_set.
    + unfold g', m'. clear -Hs. events_perm. rewrite Hs. set_solver.
    + unfold g'. cbn. naive_solver.
Qed.

(** [notify] marks the event. *)
Lemma step_mark t all e g s :
  Inv g s → t ≠ 0%Z → pc s t = P_notify all (N_set e) →
  Inv (mkGhost (g_cxq g) (g_entry g) (g_out g) (g_ws g) [] [] (g_holder g) (g_inner g))
    (mkState (<[t := P_notify all (N_unmux e)]> (pc s)) (set_Notified e true (mon s))).
Proof.
  intros I Ht Hpc. pose proof (owns_locked _ _ _ I Ht ltac:(by rewrite Hpc)) as Hlk.
  pose proof (v_loc _ _ I t Ht) as L. rewrite Hpc in L.
  destruct L as [Ho Hi Hm Hw Hp Hn _]. cbn -[events] in *. destruct Hn as [Hn Hs]; [done|].
  pose proof (v_mem _ _ I) as M. assert (g_holder g = Some t) as Hht by by apply Ho.
  assert (e ∈ g_cxq g) as Hin by (apply M; rewrite Hs; set_solver).
  set (g' := mkGhost _ _ _ _ _ _ _ _). set (m' := set_Notified _ _ _).
  assert (events g' m' = events g (mon s)) as Hev.
  { unfold g', m'. events_perm. by rewrite Hn. }
  assert (queue g' m' = queue g (mon s)) as Hq by done.
  eapply inv_step; [done|done| | | |by left|by left|apply I].
  - destruct M as [Hl Hd Hc He Hcw Hnd H0 Hu Hn' Hs' Hout].
    split; cbn -[events]; rewrite ?Hev; try done; [|set_solver].
    intros x Hx. rewrite fn_lookup_insert_ne; [apply Hu; set_solver|]. intros ->.
    clear -Hnd Hin Hx Hn. events_perm. repeat setoid_rewrite list.NoDup_app in Hnd. set_solver.
  - split; cbn -[events]; rewrite ?Hev; try done.
  - intros u Hu Hu0. split; rewrite ?Hev, ?Hq; try done; cbn.
    + rewrite Hs. intros Hx Hy. destruct (decide (u = e)) as [->|Hne].
      * left. by rewrite fn_lookup_insert.
      * rewrite fn_lookup_insert_ne by done. destruct (Hx Hy); [by left|set_solver].
    + intros Hnot. rewrite fn_lookup_insert_ne; [done|]. intros ->. apply Hnot.
      clear -Hin. events_set.
    + rewrite Hht. by intros [= <-].
Qed.

Lemma chain_last next h l1 e l2 :
  chain next h (l1 ++ e :: l2) →
  chain next (next e) l2 ∧ (l1 = [] ∧ h = e ∨ l1 ≠ [] ∧ next (List.last l1 0%Z) = e).
Proof.
  revert h. induction l1 as [|a l1 IH]; intros h; cbn; [naive_solver|].
  intros (-> & Ha & Hc). destruct (IH _ Hc) as [Hc2 Hor]. split; [done|]. right. split; [done|].
  destruct l1; naive_solver.
Qed.

Lemma last_in (l : list Z) d : l ≠ [] → List.last l d ∈ l.
Proof.
  induction l as [|a l IH]; [done|]. intros _. destruct l as [|b l]; [by left|].
  right. by apply IH.
Qed.

Lemma chain_unlink next h l1 e l2 :
  NoDup (l1 ++ e :: l2) → l1 ≠ [] → chain next h (l1 ++ e :: l2) →
  chain (<[List.last l1 0%Z := next e]> next) h (l1 ++ l2).
Proof.
  revert h. induction l1 as [|a l1 IH]; intros h; [done|]. cbn -[List.last].
  intros [Ha Hnd]%list.NoDup_cons _ (-> & Ha0 & Hc). split_and!; [done..|].
  destruct l1 as [|b l1].
  - cbn in *. destruct Hc as (_ & _ & Hc). rewrite fn_lookup_insert.
    apply links_insert; [set_solver|done].
  - assert (List.last (a :: b :: l1) 0%Z = List.last (b :: l1) 0%Z) as -> by done.
    rewrite fn_lookup_insert_ne; [by apply IH|]. intros Heq.
    apply Ha. rewrite <-Heq. apply elem_of_app. left. by apply last_in.
Qed.

Lemma ws_apart g m e :
  Mem g m → e ∈ g_ws g → e ∉ g_cxq g ++ g_entry g ++ g_out g ++ g_nfy g.
Proof.
  intros M He. pose proof (m_nodup _ _ M) as Hnd. clear M. events_perm.
  repeat setoid_rewrite list.NoDup_app in Hnd. set_solver.
Qed.

Lemma ws_NoDup g m : Mem g m → NoDup (g_ws g).
Proof.
  intros M. pose proof (m_nodup _ _ M) as Hnd. unfold events in Hnd.
  apply list.NoDup_app in Hnd as (_ & _ & Hnd). by apply list.NoDup_app in Hnd as (? & _).
Qed.

(** A thread whose wait timed out leaves the WaitSet: [l1] are the events before
    it, [m'] the memory after the store. *)
Lemma step_remove t p q l1 l2 m' g s :
  Inv g s → t ≠ 0%Z → pc s t = P_IWait (W_walk p q) → g_ws g = l1 ++ t :: l2 →
  l1 = [] ∧ m' = set_WaitSet (ListNext (mon s) t) (mon s) ∨
  l1 ≠ [] ∧ m' = set_ListNext (List.last l1 0%Z) (ListNext (mon s) t) (mon s) →
  Inv (with_ws (l1 ++ l2) g) (mkState (<[t := P_IWait (W_unmux_remove true)]> (pc s)) m').
Proof.
  intros I Ht Hpc Hws Hm'. pose proof (v_loc _ _ I t Ht) as L. rewrite Hpc in L.
  destruct L as [Ho Hi Hm Hw _ _ _]. cbn in Ho, Hi, Hm, Hw. pose proof (v_mem _ _ I) as M.
  assert (WaitLock (mon s) = t) as Hmt by by apply Hm.
  assert (events g (mon s) ≡ₚ t :: events (with_ws (l1 ++ l2) g) (mon s)) as Hev.
  { events_perm. rewrite Hws. solve_Permutation. }
  pose proof (m_nodup _ _ M) as Hnd. rewrite Hev in Hnd. apply list.NoDup_cons in Hnd as [Hnt Hnd].
  assert (∀ e, e ∉ g_ws g → ListNext m' e = ListNext (mon s) e) as Hnx.
  { intros e He. destruct Hm' as [[_ ->]|[Hl ->]]; [done|]. cbn.
    rewrite fn_lookup_insert_ne; [done|]. intros <-. apply He. rewrite Hws, elem_of_app.
    left. by apply last_in. }
  assert (∀ e, e ∈ g_cxq g ++ g_entry g ++ g_out g ++ g_nfy g → ListNext m' e = ListNext (mon s) e) as Hnx2.
  { intros e He. apply Hnx. intros Hin. by eapply ws_apart. }
  assert (events (with_ws (l1 ++ l2) g) m' = events (with_ws (l1 ++ l2) g) (mon s) ∧
          queue (with_ws (l1 ++ l2) g) m' = queue g (mon s)) as [Hev' Hq'].
  { by destruct Hm' as [[_ ->]|[_ ->]]. }
  assert (LockWord m' = LockWord (mon s) ∧ OnDeck m' = OnDeck (mon s) ∧ Event m' = Event (mon s) ∧
          owner m' = owner (mon s) ∧ WaitLock m' = WaitLock (mon s) ∧
          EntryList m' = EntryList (mon s) ∧ Notified m' = Notified (mon s))
    as (E1 & E2 & E3 & E4 & E5 & E6 & E7) by by destruct Hm' as [[_ ->]|[_ ->]].
  assert (chain (ListNext m') (WaitSet m') (l1 ++ l2)) as Hcw.
  { pose proof (m_ws _ _ M) as Hc. rewrite Hws in Hc.
    destruct Hm' as [[-> ->]|[Hl ->]]; [apply Hc|]. cbn. apply chain_unlink; [|done..].
    rewrite <-Hws. by eapply ws_NoDup. }
  eapply inv_step; [done|done| | | | | |apply I].
  - destruct M as [Hl Hd Hc He _ _ H0 Hu Hn' Hs' Hout].
    split; cbn -[events]; rewrite ?Hev', ?E1, ?E2, ?E5, ?E6, ?E7; try done.
    + eapply links_ext; [|done]. intros e Hin. symmetry. apply Hnx2. set_solver.
    + eapply links_ext; [|done]. intros e Hin. symmetry. apply Hnx2. set_solver.
    + intros Hin. apply H0. rewrite Hev. by right.
    + intros e Hin. apply Hu. rewrite Hws. set_solver.
  - split; cbn -[events]; rewrite ?Hev', ?E4, ?E5; done.
  - intros u Hu Hu0. split; rewrite ?Hev', ?Hq', ?E2, ?E4, ?E5, ?E7; try done.
    + rewrite Hev, elem_of_cons. naive_solver.
    + intros Hn. apply Hnx. intros Hin. apply Hn. clear -Hin. events_set.
    + intros _. split_and!; [done..|]. intros e Hin. apply Hnx2. set_solver.
    + rewrite Hmt. by intros <-.
    + intros _. split_and!; [done..|]. intros e Hin. apply Hnx2. set_solver.
  - apply wake_plain; rewrite ?Hpc, ?E1, ?E2, ?E3; auto.
  - apply succ_plain; rewrite ?Hpc, ?E1, ?E2; auto.
Qed.
