(* ===== verification/MutexSafety.v ===== *)
(** The native monitor excludes, and loses no wakeup.

    Every access of every thread preserves the invariant, and no assertion of
    the source fails.  So two threads are never inside the monitor at once; and
    when the lock is free and a thread waits for it, some thread that is inside
    the monitor's code can take a step. *)
From stdpp Require Import base numbers sets list functions.
From S2P Require Import Mutex MutexInvariant MutexSteps.

Section safety.
Context {F : MonitorFlags}.

(** The outcome of a step keeps the invariant and is no failed assertion. *)
Definition good (s : State) (t : Z) (o : outcome) : Prop :=
  match o with
  | Next p m => ∃ g, Inv g (mkState (<[t := p]> (pc s)) m)
  | Blocked => True
  | Failed => False
  end.

Lemma good_assert s t b o : b = true → good s t o → good s t (massert b o).
Proof. by intros ->. Qed.

Section step.
Context (g : Ghost) (s : State) (t : Z) (c : choice).
Context (I : Inv g s) (Ht : t ≠ 0%Z).

Lemma loc p : pc s t = p → Loc g (mon s) t p.
Proof. intros <-. by apply I. Qed.

(** A load, at a point that is responsible for nobody. *)
Lemma good_read p p' :
  pc s t = p → same p p' → placed g (mon s) t (place_of p') → local g (mon s) t p' →
  responsible p = false →
  parked p' = false ∨ OnDeck (mon s) ≠ deck_event t ∨ snd (LockWord (mon s)) = true →
  good s t (Next p' (mon s)).
Proof.
  intros Hpc Hs Hp Hl [Hh Hn]%(not_responsible _ g) Hk. exists g. rewrite <-Hpc in *.
  eapply step_read; [done..| |]; [by apply wake_plain|by apply succ_plain].
Qed.

(** A load that leaves the event where it was and does not park. *)
Lemma good_stay p p' :
  pc s t = p → same p p' → place_of p' = place_of p → local g (mon s) t p' →
  responsible p = false → parked p' = false →
  good s t (Next p' (mon s)).
Proof.
  intros Hpc Hs Hp Hl Hr Hk. eapply good_read; try done; [rewrite Hp; by apply loc|by left].
Qed.

Lemma good_acquire p p' v :
  pc s t = p → LockWord (mon s) = v → snd v = false →
  owns p' = true → inner p' = inner p → mux p' = mux p → named p' = named p →
  nfy_of p' = [] → set_of p' = [] → place_of p' = place_of p → (∀ g m, local g m t p') →
  good s t (Next p' (set_LockWord (fst v, true) (mon s))).
Proof.
  intros Hpc <- Hv E1 E2 E3 E4 E5 E6 E7 Hl. rewrite <-Hpc in *. eexists.
  apply (step_acquire t p' g s); try done. rewrite E7. by apply I.
Qed.

(** The event of a thread that is on no list is not on deck. *)
Lemma not_OnDeck_nowhere p : pc s t = p → place_of p = Nowhere → not_OnDeck t (mon s) = true.
Proof.
  intros Hpc Hp. destruct (loc _ Hpc) as [_ _ _ _ Hpl _ _]. rewrite Hp in Hpl.
  unfold not_OnDeck. apply negb_true_iff, bool_decide_eq_false_2. intros Hd. apply Hpl.
  pose proof (deck_list_event _ _ Hd) as Hdk. unfold events, queue. rewrite Hdk. set_solver.
Qed.

Lemma is_OnDeck_AtDeck p : pc s t = p → place_of p = AtDeck → is_OnDeck t (mon s) = true.
Proof.
  intros Hpc Hp. destruct (loc _ Hpc) as [_ _ _ _ Hpl _ _]. rewrite Hp in Hpl.
  by apply bool_decide_eq_true_2.
Qed.

Lemma ILocked_owns p : pc s t = p → owns p = true → ILocked (mon s) = true.
Proof. intros <- Hown. by eapply owns_locked. Qed.

Lemma owner_named p : pc s t = p → named p = true → owner (mon s) = t.
Proof. intros Hpc Hn. by apply (loc _ Hpc). Qed.

(** ** Acquiring *)

Lemma good_TryFast k v : pc s t = P_TryFast k v → good s t (TryFast k v (mon s)).
Proof.
  intros Hpc. pose proof (loc _ Hpc) as [_ _ _ _ _ _ Hl]. unfold TryFast.
  case_bool_decide as E.
  - eapply (good_acquire _ _ _ Hpc); try done; [by destruct v| | | | | | | | ]; by destruct k.
  - destruct (snd (LockWord (mon s))) eqn:Ev.
    + eapply (good_stay _ _ Hpc); try done; by destruct k.
    + eapply (good_stay _ _ Hpc); done.
Qed.

Lemma good_spin_got p site v :
  pc s t = p → LockWord (mon s) = v → snd v = false →
  p = P_TryLock site (Some v) ∨ p = P_TrySpin site (Some v) →
  good s t (Next (spin_got site) (set_LockWord (fst v, true) (mon s))).
Proof. intros Hpc Hv Hf [-> | ->]; eapply (good_acquire _ _ _ Hpc); try done; by destruct site. Qed.

Lemma good_spin_fail p site :
  pc s t = p → snd (LockWord (mon s)) = true →
  (∃ v, p = P_TryLock site v ∨ p = P_TrySpin site v) →
  good s t (Next (spin_fail site) (mon s)).
Proof.
  intros Hpc Hlk [v Hp]. pose proof (loc _ Hpc) as [_ _ _ _ Hpl _ _].
  eapply (good_read _ _ Hpc); [| | | |by right; right].
  - by destruct Hp as [-> | ->], site.
  - destruct Hp as [-> | ->], site; cbn -[events queue] in *; try done;
      unfold queue; rewrite (deck_list_event _ _ Hpl); set_solver.
  - by destruct site.
  - by destruct Hp as [-> | ->].
Qed.

Lemma good_TryLock_fail site v :
  pc s t = P_TryLock site v → snd (LockWord (mon s)) = true →
  good s t (Next (TryLock_fail c site) (mon s)).
Proof.
  intros Hpc Hlk. assert (TryLock_fail c site = spin_fail site ∨ TryLock_fail c site = P_TrySpin site None)
    as [-> | ->] by (destruct site, c; cbn; auto).
  - eapply good_spin_fail; eauto.
  - by eapply (good_stay _ _ Hpc).
Qed.

Lemma good_TryLock site v : pc s t = P_TryLock site v → good s t (TryLock c site v (mon s)).
Proof.
  intros Hpc. pose proof (loc _ Hpc) as [_ _ _ _ _ _ Hl]. unfold TryLock.
  destruct v as [v|]; [case_bool_decide as E|]; [by eapply good_spin_got; eauto| |];
    (destruct (snd (LockWord (mon s))) eqn:Ev; [by eapply good_TryLock_fail|by eapply (good_stay _ _ Hpc)]).
Qed.

Lemma good_TrySpin site v : pc s t = P_TrySpin site v → good s t (TrySpin c site v (mon s)).
Proof.
  intros Hpc. pose proof (loc _ Hpc) as [_ _ _ _ _ _ Hl]. unfold TrySpin. destruct v as [v|].
  - case_bool_decide as E; [by eapply good_spin_got; eauto|by eapply (good_stay _ _ Hpc)].
  - destruct (snd (LockWord (mon s))) eqn:Ev; [|by eapply (good_stay _ _ Hpc)].
    destruct c; try (by eapply (good_stay _ _ Hpc)). eapply good_spin_fail; eauto.
Qed.

(** A thread changes its own permit: [reset], or the end of a park. *)
Lemma good_own_Event p p' b :
  pc s t = p → same p p' → place_of p' = place_of p → local g (mon s) t p' →
  responsible p = false → parked p' = false →
  good s t (Next p' (set_Event t b (mon s))).
Proof.
  intros Hpc Hs Hp Hl [Hh Hn]%(not_responsible _ g) Hk. exists g. rewrite <-Hpc in *.
  apply step_Event; try done.
  - rewrite Hp. by apply loc.
  - apply wake_plain; try done; [|by left]. intros w Hw. cbn. by rewrite fn_lookup_insert_ne.
  - by apply succ_plain.
Qed.

(** A park that consumes its permit or times out. *)
Lemma good_ParkCommon p p1 p2 :
  pc s t = p → parked p = true → same p p1 → same p p2 →
  place_of p1 = place_of p → place_of p2 = place_of p →
  parked p1 = false → parked p2 = false →
  (∀ g m, local g m t p1) → (∀ g m, local g m t p2) →
  good s t (ParkCommon t c p1 p2 (mon s)).
Proof.
  intros Hpc Hpk S1 S2 E1 E2 K1 K2 L1 L2. unfold ParkCommon.
  assert (responsible p = false) as Hr by by destruct p.
  destruct (Event (mon s) t) eqn:Ev; [by eapply (good_own_Event _ _ _ Hpc)|].
  destruct c; try done. by eapply (good_stay _ _ Hpc).
Qed.

Lemma good_push_retry w x :
  pc s t = P_ILock w (I_push x) → good s t (Next (push_retry w (LockWord (mon s))) (mon s)).
Proof.
  intros Hpc. unfold push_retry. destruct (snd (LockWord (mon s))) eqn:Ev; by eapply (good_stay _ _ Hpc).
Qed.

Lemma good_AcquireOrPush w x :
  pc s t = P_ILock w (I_push x) → good s t (AcquireOrPush t w x (mon s)).
Proof.
  intros Hpc. pose proof (loc _ Hpc) as [_ _ _ _ Hp _ Hl]. destruct x as [|v|v|v]; cbn -[push_retry].
  - by eapply good_push_retry.
  - case_bool_decide as E; [by eapply (good_acquire _ _ _ Hpc)|by eapply good_push_retry].
  - exists g. apply step_ListNext; rewrite ?Hpc; try done; [by left|].
    cbn. by rewrite fn_lookup_insert.
  - case_bool_decide as E; [eexists; by eapply step_push|by eapply good_push_retry].
Qed.

Lemma good_clear p w :
  pc s t = p → p = P_ILock w I_clear ∨ p = P_IWait W_clear_deck →
  good s t (Next (Acquired w) (set_OnDeck deck_null (mon s))).
Proof.
  intros Hpc Hp. exists g.
  eapply step_clear; try done; rewrite Hpc; by destruct Hp as [-> | ->].
Qed.

Lemma good_ILock w i : flag 32 = false → pc s t = P_ILock w i → good s t (ILock t c w i (mon s)).
Proof.
  intros Hf Hpc. pose proof (loc _ Hpc) as [_ _ _ _ Hp _ Hl]. destruct i; cbv [ILock].
  - apply good_assert; [by eapply not_OnDeck_nowhere|by eapply (good_stay _ _ Hpc)].
  - apply good_assert; [by eapply not_OnDeck_nowhere|by eapply (good_stay _ _ Hpc)].
  - rewrite Hf. by eapply (good_own_Event _ _ _ Hpc).
  - done.
  - by apply good_AcquireOrPush.
  - unfold is_OnDeck. case_bool_decide as E; (eapply (good_read _ _ Hpc); try done); [by left|by right; left].
  - by eapply (good_ParkCommon _ _ _ Hpc).
  - apply good_assert; [by eapply is_OnDeck_AtDeck|by eapply (good_stay _ _ Hpc)].
  - by eapply (good_ParkCommon _ _ _ Hpc).
  - apply good_assert; [by eapply is_OnDeck_AtDeck|by eapply good_clear; eauto].
Qed.

(** ** Releasing *)

(** A load of [IUnlock] that stays in it, or returns. *)
Lemma good_unlock_read r u p' :
  pc s t = P_IUnlock r u → same (P_IUnlock r u) p' →
  p' = unlock_ret r ∨ (∃ u', p' = P_IUnlock r u') → local g (mon s) t p' →
  wake_ok t (P_IUnlock r u) (mon s) p' (mon s) →
  succ_ok (P_IUnlock r u) g (mon s) p' g (mon s) →
  good s t (Next p' (mon s)).
Proof.
  intros Hpc Hs Hp' Hl Hw Hsu. exists g. rewrite <-Hpc in *. apply step_read; try done.
  pose proof (loc _ Hpc) as [_ _ _ _ Hp _ _]. destruct Hp' as [-> |[u' ->]]; by destruct r.
Qed.

Lemma same_ret r u : responsible (P_IUnlock r u) = true → same (P_IUnlock r u) (unlock_ret r).
Proof. by destruct r, u. Qed.

Lemma local_ret r g' m' : local g' m' t (unlock_ret r).
Proof. by destruct r. Qed.

Lemma parked_ret r : parked (unlock_ret r) = false.
Proof. by destruct r. Qed.

(** The end of a responsibility for the event [w]: it has its permit. *)
Lemma good_unpark r u w :
  pc s t = P_IUnlock r u → u = U_unpark w ∨ u = U_wake_unpark w →
  good s t (Next (unlock_ret r) (unpark w (mon s))).
Proof.
  intros Hpc Hu. exists g. pose proof (loc _ Hpc) as [_ _ _ _ Hp _ _].
  apply step_Event; rewrite ?Hpc; [done|done| | | | |].
  - by destruct Hu as [-> | ->]; apply same_ret.
  - by destruct r.
  - apply local_ret.
  - unfold wake_ok. cbn. destruct (snd (LockWord (mon s))) eqn:Ev; [by left|]. right. intros x Hx.
    destruct (decide (x = w)) as [->|Hne]; [right; left; by rewrite fn_lookup_insert|].
    destruct (decide (x = t)) as [->|Hnt]; [right; right; left; by rewrite parked_ret|].
    right; right; right. split_and!; [done..| |].
    + by rewrite fn_lookup_insert_ne.
    + destruct Hu as [-> | ->]; cbn; by apply bool_decide_eq_false_2.
  - apply succ_plain; try done. destruct Hu as [-> | ->]; cbn; tauto.
Qed.

(** A load under the inner lock. *)
Lemma good_inner_read r u u' :
  pc s t = P_IUnlock r u → inner (P_IUnlock r u) = true → inner (P_IUnlock r u') = true →
  local g (mon s) t (P_IUnlock r u') →
  good s t (Next (P_IUnlock r u') (mon s)).
Proof.
  intros Hpc Hi Hi' Hl. destruct (inner_deck g s t I Ht) as [_ Hd]; [by rewrite Hpc|].
  eapply (good_unlock_read _ _ _ Hpc); eauto.
  - by destruct u, u'.
  - right. intros w. by rewrite Hd.
  - right; left. by rewrite Hd.
Qed.

(** A load at a point that was not the one to choose an heir. *)
Lemma good_unlock_plain r u p' :
  pc s t = P_IUnlock r u → same (P_IUnlock r u) p' →
  p' = unlock_ret r ∨ (∃ u', p' = P_IUnlock r u') → local g (mon s) t p' → parked p' = false →
  (∀ w, helps w (P_IUnlock r u) = false) →
  succ_ok (P_IUnlock r u) g (mon s) p' g (mon s) →
  good s t (Next p' (mon s)).
Proof.
  intros Hpc Hs Hp' Hl Hk Hh Hsu. eapply (good_unlock_read _ _ _ Hpc); eauto.
  apply wake_plain; auto.
Qed.

Lemma cxq_ne : fst (LockWord (mon s)) ≠ 0%Z ↔ g_cxq g ≠ [].
Proof. symmetry. eapply chain_ne, I. Qed.

Lemma entry_ne : EntryList (mon s) ≠ 0%Z ↔ g_entry g ≠ [].
Proof. symmetry. eapply chain_ne, I. Qed.

Lemma good_U_deck r : pc s t = P_IUnlock r U_deck → good s t (IUnlock t r U_deck (mon s)).
Proof.
  intros Hpc. cbv [IUnlock]. apply good_assert.
  { destruct r; cbn; try done. by eapply not_OnDeck_nowhere. }
  pose proof (m_deck _ _ (v_mem _ _ I)) as Hd. destruct (OnDeck (mon s)) as [| |w|] eqn:E; [| | |done].
  - eapply (good_unlock_read _ _ _ Hpc); eauto; try done.
    + right. intros w. by rewrite E.
    + by right; right; right; left.
  - eapply (good_unlock_read _ _ _ Hpc); eauto using local_ret.
    + by apply same_ret.
    + right. intros w. by rewrite E.
    + right; left. by rewrite E.
  - eapply (good_unlock_read _ _ _ Hpc); eauto; try done.
    + right. intros x. rewrite E. intros [= ->]. left. by apply bool_decide_eq_true_2.
    + right; left. by rewrite E.
Qed.

Lemma good_U_entry r v : pc s t = P_IUnlock r (U_entry v) → good s t (IUnlock t r (U_entry v) (mon s)).
Proof.
  intros Hpc. cbv [IUnlock].
  destruct (bool_decide (fst v = 0%Z) && bool_decide (EntryList (mon s) = 0%Z)) eqn:E.
  - apply andb_prop in E as [E1%bool_decide_eq_true E2%bool_decide_eq_true].
    eapply (good_unlock_plain _ _ _ Hpc); eauto using local_ret, parked_ret; [by apply same_ret|].
    apply succ_plain; try done. cbn. rewrite <-entry_ne. naive_solver.
  - destruct (snd v) eqn:Ev.
    + eapply (good_unlock_plain _ _ _ Hpc); eauto using local_ret, parked_ret; [by apply same_ret|].
      apply succ_plain; try done. cbn. rewrite Ev. naive_solver.
    + eapply (good_unlock_plain _ _ _ Hpc); eauto; try done. by right; right; right; left.
Qed.

Lemma good_U_cxq r : pc s t = P_IUnlock r U_cxq → good s t (IUnlock t r U_cxq (mon s)).
Proof.
  intros Hpc. cbv [IUnlock]. eapply (good_unlock_plain _ _ _ Hpc); eauto; try done.
  unfold succ_ok. destruct (snd (LockWord (mon s))) eqn:Ev; [by left|]. right; right.
  cbn. rewrite Ev, cxq_ne. destruct (g_cxq g), (g_entry g); naive_solver.
Qed.

Lemma good_U_resample r : pc s t = P_IUnlock r U_resample → good s t (IUnlock t r U_resample (mon s)).
Proof.
  intros Hpc. cbv [IUnlock].
  destruct (negb _ && negb _) eqn:E.
  - eapply (good_unlock_plain _ _ _ Hpc); eauto; try done. by right; right; right; left.
  - eapply (good_unlock_plain _ _ _ Hpc); eauto using local_ret, parked_ret; [by apply same_ret|].
    unfold succ_ok. destruct (snd (LockWord (mon s))) eqn:Ev; [by left|]. right.
    destruct (decide (OnDeck (mon s) = deck_null)); [|by left]. right; right; right.
    rewrite andb_true_r in E. apply negb_false_iff, bool_decide_eq_true in E.
    split_and!; try done. cbn. rewrite <-cxq_ne. naive_solver.
Qed.

Lemma good_U_check r w : pc s t = P_IUnlock r (U_check w) → good s t (IUnlock t r (U_check w) (mon s)).
Proof.
  intros Hpc. cbv [IUnlock]. destruct (snd (LockWord (mon s))) eqn:Ev.
  - eapply (good_unlock_read _ _ _ Hpc); eauto using local_ret; [by apply same_ret|by left|by left].
  - eapply (good_unlock_read _ _ _ Hpc); eauto; try done; [|apply succ_plain; try done; cbn; tauto].
    right. intros x Hx. destruct (decide (x = w)) as [->|Hne]; [left; by apply bool_decide_eq_true_2|].
    destruct (decide (x = t)) as [->|Hnt]; [by right; right; left|].
    right; right; right. split_and!; try done. cbn. apply bool_decide_eq_false_2. congruence.
Qed.

(** The assertion that an exiting thread does not find itself. *)
Lemma wake_not_self r w : pc s t = P_IUnlock r (U_wake w) →
  RelaxAssert r || negb (bool_decide (w = t)) = true.
Proof.
  intros Hpc. pose proof (loc _ Hpc) as [_ _ _ _ Hp _ (_ & l & Hen)]. destruct r; try done. cbn -[events] in *.
  rewrite bool_decide_eq_false_2; [done|]. intros ->. apply Hp. unfold events, queue. rewrite Hen. set_solver.
Qed.

Lemma good_U_inner r u : pc s t = P_IUnlock r u → inner (P_IUnlock r u) = true →
  good s t (IUnlock t r u (mon s)).
Proof.
  intros Hpc Hin. pose proof (loc _ Hpc) as [_ _ _ _ _ _ Hl].
  destruct (inner_deck g s t I Ht) as [_ Hd]; [by rewrite Hpc|]. destruct u; try done; cbv [IUnlock].
  - case_bool_decide as E; eapply (good_inner_read _ _ _ Hpc); try done.
    + split; [|done]. destruct (decide (g_entry g = [])) as [|Hne]; [done|]. by apply entry_ne in Hne.
    + split; [done|]. apply entry_ne in E as Hne. pose proof (m_entry _ _ (v_mem _ _ I)) as Hc.
      destruct (g_entry g) as [|e l]; [done|]. destruct Hc as [-> _]. eauto.
  - destruct (bool_decide _ || _) eqn:E; eapply (good_inner_read _ _ _ Hpc); try done.
    apply orb_false_iff in E as [E%bool_decide_eq_false Ev]. apply cxq_ne in E. by destruct Hl.
  - destruct Hl as (He & Ho & _ & Hc). case_bool_decide as E; [eexists; by eapply step_detach|].
    destruct (snd (LockWord (mon s))) eqn:Ev; by eapply (good_inner_read _ _ _ Hpc).
  - destruct Hl as (He & Hc & Hne). apply good_assert; [|eexists; by apply step_move].
    apply andb_true_intro. split; [|apply negb_true_iff, bool_decide_eq_false_2; by eapply chain_ne].
    apply bool_decide_eq_true_2. destruct (decide (EntryList (mon s) = 0%Z)) as [|Hx]; [done|].
    by apply entry_ne in Hx.
  - pose proof (wake_not_self _ _ Hpc) as Hns. destruct Hl as (He & l & Hen).
    apply good_assert; [|eexists; by eapply step_wake]. rewrite Hns, andb_true_r.
    apply bool_decide_eq_true_2. pose proof (m_entry _ _ (v_mem _ _ I)) as Hc. rewrite Hen in Hc.
    by destruct Hc.
  - apply good_assert; [by apply bool_decide_eq_true_2|]. eexists. by apply step_pass.
  - apply good_assert; [by apply bool_decide_eq_true_2|]. eexists. by apply step_punt.
Qed.

Lemma good_IUnlock r u : pc s t = P_IUnlock r u → good s t (IUnlock t r u (mon s)).
Proof.
  intros Hpc. destruct (inner (P_IUnlock r u)) eqn:Ei; [by apply good_U_inner|].
  destruct u; try done;
    [|by apply good_U_deck|by eapply good_unpark; eauto|by apply good_U_cxq|by apply good_U_entry| |
     by apply good_U_check|by eapply good_unpark; eauto|by apply good_U_resample].
  - cbv [IUnlock]. apply good_assert; [by eapply ILocked_owns|]. eexists. by apply (step_release t r g s).
  - cbv [IUnlock]. case_bool_decide as E; [eexists; by apply step_succession|].
    eapply (good_unlock_plain _ _ _ Hpc); eauto using local_ret, parked_ret; [by apply same_ret|].
    by right; left.
Qed.

(** ** Waiting and notifying *)

Lemma good_muxAcquire p p' :
  pc s t = p → mux p' = true → owns p' = owns p → inner p' = inner p → named p' = named p →
  nfy_of p' = [] → set_of p' = [] → place_of p' = place_of p →
  local g (set_WaitLock t (mon s)) t p' → parked p' = false → responsible p = false →
  good s t (muxAcquire t p' (mon s)).
Proof.
  intros Hpc Hm E1 E2 E3 E4 E5 Hp Hl Hk Hr. unfold muxAcquire. case_bool_decide as E; [|done].
  exists g. rewrite <-Hpc in *. apply step_mux; try done; [by left|]. rewrite Hp. by apply loc.
Qed.

Lemma good_muxRelease p p' :
  pc s t = p → mux p = true → mux p' = false → owns p' = owns p → inner p' = inner p →
  named p' = named p → nfy_of p = [] → set_of p = [] → nfy_of p' = [] → set_of p' = [] →
  place_of p' = place_of p → (∀ g m, local g m t p') → parked p' = false → responsible p = false →
  good s t (muxRelease p' (mon s)).
Proof.
  intros Hpc Hm Hm' E1 E2 E3 E4 E5 E6 E7 Hp Hl Hk Hr. exists g. rewrite <-Hpc in *.
  apply step_mux; try done; [by right|]. rewrite Hp. by apply loc.
Qed.

Lemma good_notify all n : pc s t = P_notify all n → good s t (notify t all n (mon s)).
Proof.
  intros Hpc. pose proof (loc _ Hpc) as [Ho _ _ _ Hp Hn Hl]. destruct (Hn eq_refl) as [Hn1 Hn2].
  pose proof (ILocked_owns _ Hpc eq_refl) as Hlk. pose proof (owner_named _ Hpc eq_refl) as Hown.
  destruct n as [| | |e|e|e v|e v|e|e|e]; cbv [notify].
  - apply good_assert; [by rewrite Hlk, bool_decide_eq_true_2|].
    case_bool_decide; eapply (good_stay _ _ Hpc); try done; by destruct all.
  - by eapply (good_muxAcquire _ _ Hpc).
  - case_bool_decide as E; eapply (good_stay _ _ Hpc); try done.
    pose proof (m_ws _ _ (v_mem _ _ I)) as Hc. cbn. destruct (g_ws g) as [|e l]; [done|].
    destruct Hc as [-> _]. eauto.
  - destruct Hl as [l Hws]. apply good_assert; [|eexists; by eapply step_pop].
    apply negb_true_iff, (m_unmarked _ _ (v_mem _ _ I)). rewrite Hws. set_solver.
  - apply good_assert; [done|by eapply (good_stay _ _ Hpc)].
  - exists g. apply step_ListNext; rewrite ?Hpc; try done.
    + right. split; [rewrite Hn1; cbn; set_solver|by apply Ho].
    + split; [done|]. cbn. by rewrite fn_lookup_insert.
  - case_bool_decide as E; [eexists; by eapply step_notify_push|by eapply (good_stay _ _ Hpc)].
  - eexists. by eapply step_mark.
  - apply good_assert; [done|]. destruct (negb _ && _), all; by eapply (good_muxRelease _ _ Hpc).
  - apply good_assert; [done|]. exists g.
    apply step_Event; rewrite ?Hpc; try done; try (by destruct all); by left.
Qed.

Lemma good_notify_all : pc s t = P_notify_all → good s t (notify_all t (mon s)).
Proof.
  intros Hpc. unfold notify_all. apply good_assert.
  - by rewrite (bool_decide_eq_true_2 _ (owner_named _ Hpc eq_refl)), (ILocked_owns _ Hpc).
  - case_bool_decide; by eapply (good_stay _ _ Hpc).
Qed.

(** A waiter on deck has been marked. *)
Lemma waiting_unmarked p :
  pc s t = p → place_of p = Waiting → Notified (mon s) t = false → OnDeck (mon s) ≠ deck_event t.
Proof.
  intros Hpc Hpl Hn Hd. pose proof (loc _ Hpc) as [_ _ _ _ Hp _ _]. rewrite Hpl in Hp.
  destruct Hp as [_ Hq]. pose proof (deck_list_event _ _ Hd) as Hdk.
  assert (t ∈ queue g (mon s)) as Hin by (unfold queue; rewrite Hdk; set_solver).
  destruct (Hq Hin) as [?|Hs]; [congruence|]. apply (m_set _ _ (v_mem _ _ I)) in Hs.
  pose proof (m_nodup _ _ (v_mem _ _ I)) as Hnd. unfold events, queue in Hnd. rewrite Hdk in Hnd.
  clear -Hnd Hs. repeat setoid_rewrite list.NoDup_app in Hnd. set_solver.
Qed.

(** A marked waiter has left the WaitSet for the queue. *)
Lemma waiting_marked p :
  pc s t = p → place_of p = Waiting → Notified (mon s) t = true → t ∈ queue g (mon s).
Proof.
  intros Hpc Hpl Hn. pose proof (loc _ Hpc) as [_ _ _ _ Hp _ _]. rewrite Hpl in Hp.
  destruct Hp as [Hev _]. unfold events in Hev. apply elem_of_app in Hev as [?|Hw]; [done|].
  apply (m_unmarked _ _ (v_mem _ _ I)) in Hw. congruence.
Qed.

(** Under the lock of the WaitSet an unmarked waiter is on it. *)
Lemma waiting_in_ws p :
  pc s t = p → place_of p = Waiting → mux p = true → nfy_of p = [] → set_of p = [] →
  Notified (mon s) t = false → t ∈ g_ws g.
Proof.
  intros Hpc Hpl Hm E1 E2 Hn. pose proof (loc _ Hpc) as [_ _ _ _ Hp _ _]. rewrite Hpl in Hp.
  destruct (mux_mine g s t I Ht) as [Hn0 Hs0]; [by rewrite Hpc..|].
  destruct Hp as [Hev Hq]. rewrite Hs0 in Hq. unfold events in Hev. rewrite Hn0, app_nil_r in Hev.
  apply elem_of_app in Hev as [Hin|?]; [|done]. destruct (Hq Hin); [congruence|set_solver].
Qed.

Lemma good_W_walk p q :
  pc s t = P_IWait (W_walk p q) → good s t (IWait t c (W_walk p q) (mon s)).
Proof.
  intros Hpc. pose proof (loc _ Hpc) as [_ _ _ _ _ _ (l1 & l2 & Hws & Hc & Hin & Hq)]. cbv [IWait].
  destruct l2 as [|e l2]; [set_solver|]. destruct Hc as (-> & He0 & Hc).
  case_bool_decide as E.
  - eapply (good_stay _ _ Hpc); try done. exists (l1 ++ [e]), l2. split_and!; [|done| |].
    + by rewrite Hws, <-app_assoc.
    + apply elem_of_cons in Hin as [->|?]; [by destruct E|done].
    + symmetry. apply last_last.
  - assert (e = t) as -> by (destruct (decide (e = t)); [done|by destruct E]).
    apply good_assert; [by apply bool_decide_eq_true_2|].
    pose proof (m_ws _ _ (v_mem _ _ I)) as Hcw. rewrite Hws in Hcw.
    destruct (chain_last _ _ _ _ _ Hcw) as [_ [[-> Hh]|[Hne Hl]]].
    + rewrite bool_decide_eq_true_2 by done. apply good_assert; [by apply bool_decide_eq_true_2|].
      eexists. eapply step_remove; eauto.
    + rewrite bool_decide_eq_false_2; [|intros Hh; destruct l1 as [|a l1]; [done|]].
      * subst q. apply good_assert; [by apply bool_decide_eq_true_2|].
        eexists. eapply step_remove; eauto.
      * destruct Hcw as [Ha _]. pose proof (ws_NoDup _ _ (v_mem _ _ I)) as Hnd. rewrite Hws in Hnd.
        assert (a = t) as -> by congruence. cbn in Hnd. apply list.NoDup_cons in Hnd as [Hnd _].
        apply Hnd. set_solver.
Qed.

Lemma good_IWait i : pc s t = P_IWait i → good s t (IWait t c i (mon s)).
Proof.
  intros Hpc. pose proof (loc _ Hpc) as [_ _ Hm _ Hp _ Hl].
  destruct i as [| | | | | | | | | | |p q|b| | |]; try (by apply good_W_walk); cbv [IWait].
  - apply good_assert; [by eapply ILocked_owns|]. exists g.
    apply step_unmark; rewrite ?Hpc; try done. cbn. by rewrite fn_lookup_insert.
  - by eapply (good_own_Event _ _ _ Hpc).
  - by eapply (good_muxAcquire _ _ Hpc).
  - exists g. apply step_ListNext; rewrite ?Hpc; try done; [by left|].
    split; [done|]. cbn. by rewrite fn_lookup_insert.
  - eexists. by apply step_add.
  - by eapply (good_muxRelease _ _ Hpc).
  - destruct (Notified (mon s) t) eqn:En; [by eapply (good_stay _ _ Hpc)|].
    eapply (good_read _ _ Hpc); try done. right; left. by eapply waiting_unmarked.
  - destruct (flag 1); by eapply (good_ParkCommon _ _ _ Hpc).
  - destruct (Notified (mon s) t) eqn:En; [|by eapply (good_stay _ _ Hpc)].
    eapply (good_read _ _ Hpc); try done; [by eapply waiting_marked|by left].
  - by eapply (good_muxAcquire _ _ Hpc).
  - destruct (Notified (mon s) t) eqn:En.
    + eapply (good_read _ _ Hpc); try done; [by eapply waiting_marked|by left].
    + apply good_assert.
      { apply negb_true_iff, bool_decide_eq_false_2. by eapply waiting_unmarked. }
      eapply (good_stay _ _ Hpc); try done. exists [], (g_ws g). split_and!; try done; [apply I|].
      by eapply waiting_in_ws.
  - destruct b; by eapply (good_muxRelease _ _ Hpc).
  - unfold is_OnDeck. case_bool_decide as E; (eapply (good_read _ _ Hpc); try done); [by left|by right; left].
  - by eapply (good_ParkCommon _ _ _ Hpc).
  - apply good_assert; [by eapply is_OnDeck_AtDeck|by eapply good_clear; eauto].
Qed.

(** ** Clients *)

Lemma owner_other p : pc s t = p → named p = false → owner (mon s) ≠ t.
Proof. intros Hpc Hn Ho. apply (loc _ Hpc) in Ho. congruence. Qed.

(** [_owner] is clear while the holder has not set it. *)
Lemma owner_clear p : pc s t = p → owns p = true → named p = false → owner (mon s) = 0%Z.
Proof.
  intros Hpc Hown Hn. destruct (decide (owner (mon s) = 0%Z)) as [|Hne]; [done|].
  pose proof (v_loc _ _ I _ Hne) as [Ho _ _ Hw _ _ _].
  assert (named (pc s (owner (mon s))) = true) as Hnm by by apply Hw.
  assert (owns (pc s (owner (mon s))) = true) as Hx%Ho by by destruct (pc s (owner (mon s))).
  apply (loc _ Hpc) in Hown. rewrite Hown in Hx. injection Hx as Hx.
  rewrite <-Hx, Hpc in Hnm. congruence.
Qed.

Lemma good_acquired w : pc s t = Acquired w → good s t (acquired t c w (mon s)).
Proof.
  intros Hpc. unfold acquired. apply good_assert; [by eapply ILocked_owns|].
  assert (good s t (massert (bool_decide (owner (mon s) = 0%Z)) (Next Held (set_owner t (mon s))))) as Hset.
  { pose proof (owner_clear _ Hpc eq_refl eq_refl) as Ho.
    apply good_assert; [by apply bool_decide_eq_true_2|]. exists g.
    apply step_owner; rewrite ?Hpc; try done. by left. }
  destruct w, c; try done. by eapply (good_stay _ _ Hpc).
Qed.

Lemma good_drop_owner p p' :
  pc s t = p → p = P_unlock ∧ p' = P_IUnlock in_unlock U_store ∨ p = P_wait ∧ p' = P_IWait W_clear →
  good s t (Next p' (set_owner 0 (mon s))).
Proof.
  intros Hpc Hp. exists g.
  assert (owner (mon s) = t) as Ho by (eapply owner_named; [done|by destruct Hp as [[-> _]|[-> _]]]).
  apply step_owner; rewrite ?Hpc; try done; destruct Hp as [[-> ->]|[-> ->]]; try done; auto.
Qed.

Lemma good_act : flag 32 = false → good s t (act t c (pc s t) (mon s)).
Proof.
  intros Hf. destruct (pc s t) as [|k v|site v|site v|w i|w| | |r u| |i|all n|] eqn:Hpc; cbn -[good].
  - cbv [call_outside lock lock_without_safepoint_check try_lock not_owner].
    pose proof (owner_other _ Hpc eq_refl) as Ho.
    destruct c; try done; try (apply good_assert); try (by eapply (good_stay _ _ Hpc)).
    + by rewrite (bool_decide_eq_false_2 _ Ho), (not_OnDeck_nowhere _ Hpc).
    + by rewrite (bool_decide_eq_false_2 _ Ho).
  - by apply good_TryFast.
  - by apply good_TryLock.
  - by apply good_TrySpin.
  - by apply good_ILock.
  - by apply good_acquired.
  - unfold call_inside. destruct c; try done; by eapply (good_stay _ _ Hpc).
  - unfold unlock. apply good_assert; [|by eapply (good_drop_owner _ _ Hpc); auto].
    by rewrite (bool_decide_eq_true_2 _ (owner_named _ Hpc eq_refl)), (not_OnDeck_nowhere _ Hpc).
  - by apply good_IUnlock.
  - unfold wait. apply good_assert; [|by eapply (good_drop_owner _ _ Hpc); auto].
    by rewrite (bool_decide_eq_true_2 _ (owner_named _ Hpc eq_refl)), (ILocked_owns _ Hpc).
  - by apply good_IWait.
  - by apply good_notify.
  - by apply good_notify_all.
Qed.

End step.

Lemma step_inv g s t c :
  flag 32 = false → Inv g s → t ≠ 0%Z → ∃ g' s', step t c s = Some s' ∧ Inv g' s'.
Proof.
  intros Hf I Ht. pose proof (good_act g s t c I Ht Hf) as Hg. unfold step.
  destruct (act t c (pc s t) (mon s)) as [p m| |]; cbn in Hg; [|eauto|done].
  destruct Hg as [g' Hg]. eauto.
Qed.

Lemma schedule_inv l g s : flag 32 = false → Inv g s → ∃ g' s', run l s = Some s' ∧ Inv g' s'.
Proof.
  intros Hf. revert g s. induction l as [|[t c] l IH]; intros g s I; cbn; [eauto|].
  destruct (step_inv g s (Zpos t) c Hf I) as (g1 & s1 & -> & I1); [done|]. cbn. by eapply IH.
Qed.

End safety.

(** ** Progress *)

(** A thread takes no step of its own: it is outside the monitor's code, in its
    critical section, parked without a permit, or waits for [_WaitLock]. *)
Lemma blocked_points {F : MonitorFlags} t p m :
  act t Go p m = Blocked →
  p = Idle ∨ p = Held ∨ parked p = true ∧ Event m t = false ∨ WaitLock m ≠ 0%Z ∧ mux p = false.
Proof.
  destruct p as [|k v|site v|site v|w i|w| | |r u| |i|all n|]; cbn; auto;
    cbv [TryFast TryLock TrySpin ILock AcquireOrPush acquired unlock IUnlock wait IWait notify notify_all
         ParkCommon muxAcquire muxRelease massert];
    repeat case_match; try done; cbn; auto.
  all: intros _; right; right; right; split; [by eapply bool_decide_eq_false_1|done].
Qed.

(** Numbers that are no thread stay idle. *)
Lemma run_idle {F : MonitorFlags} l s s' u :
  (u ≤ 0)%Z → pc s u = Idle → run l s = Some s' → pc s' u = Idle.
Proof.
  intros Hu. revert s. induction l as [|[t c] l IH]; intros s Hs; cbn; [by intros [= <-]|].
  unfold step. destruct (act _ _ _ _) as [p m| |]; cbn; [|by apply IH|done].
  apply IH. cbn. rewrite fn_lookup_insert_ne; [done|lia].
Qed.

(** No thread of the monitor's code can take a step. *)
Definition quiescent {F : MonitorFlags} (s : State) : Prop :=
  ∀ t : positive, pc s (Zpos t) ≠ Held ∧ act (Zpos t) Go (pc s (Zpos t)) (mon s) = Blocked.

Section progress.
Context {F : MonitorFlags} (g : Ghost) (s : State).
Context (I : Inv g s) (Hidle : ∀ u, (u ≤ 0)%Z → pc s u = Idle) (Hq : quiescent s).

Lemma quiescent_mux : WaitLock (mon s) = 0%Z.
Proof.
  destruct (decide (WaitLock (mon s) = 0%Z)) as [|Hne]; [done|].
  assert (mux (pc s (WaitLock (mon s))) = true) as Hm by by apply (v_loc _ _ I _ Hne).
  destruct (WaitLock (mon s)) as [|t|t] eqn:Ew; [done| |by rewrite Hidle in Hm].
  destruct (Hq t) as [_ Hb]. apply blocked_points in Hb as [E|[E|[[E _]|[_ E]]]]; try (by rewrite E in Hm).
  by destruct (pc s (Zpos t)) as [| | | |? []| | | | | |[]| |].
Qed.

Lemma quiescent_points u : pc s u = Idle ∨ parked (pc s u) = true ∧ Event (mon s) u = false.
Proof.
  destruct u as [|t|t]; [left; by apply Hidle| |left; by apply Hidle].
  destruct (Hq t) as [Hh Hb]. pose proof quiescent_mux as Hm.
  apply blocked_points in Hb as [E|[E|[E|[E _]]]]; auto; done.
Qed.

Lemma quiescent_not u : owns (pc s u) = false ∧ inner (pc s u) = false ∧ responsible (pc s u) = false.
Proof.
  destruct (quiescent_points u) as [->|[Hp _]]; [done|].
  by destruct (pc s u) as [| | | |? []| | | | | |[]| |].
Qed.

Lemma quiescent_free : snd (LockWord (mon s)) = false.
Proof.
  rewrite (m_lock _ _ (v_mem _ _ I)). apply bool_decide_eq_false_2. intros [t Ht].
  destruct (v_holder _ _ I) as [Hz _]. assert (t ≠ 0%Z) as Ht0 by congruence.
  apply (v_loc _ _ I t Ht0) in Ht. by destruct (quiescent_not t) as [? _]; congruence.
Qed.

Lemma quiescent_inner : g_inner g = None.
Proof.
  destruct (g_inner g) as [t|] eqn:E; [|done]. destruct (v_holder _ _ I) as [_ Hz].
  assert (t ≠ 0%Z) as Ht0 by congruence. apply (v_loc _ _ I t Ht0) in E.
  destruct (quiescent_not t) as (_ & ? & _). congruence.
Qed.

(** Nobody is responsible for an heir, so there is none, and none to choose. *)
Lemma quiescent_queue : queue g (mon s) = [].
Proof.
  pose proof quiescent_inner as Hi. pose proof (m_deck _ _ (v_mem _ _ I)) as Hd.
  assert (OnDeck (mon s) = deck_null) as Hnull.
  { destruct (OnDeck (mon s)) as [| |w|] eqn:E; [done|rewrite Hi in Hd; by destruct Hd| |done].
    assert (w ∈ events g (mon s)) as Hin.
    { unfold events, queue. rewrite (deck_list_event _ _ E). set_solver. }
    assert (w ≠ 0%Z) as Hw0 by (intros ->; by apply (m_events _ _ (v_mem _ _ I))).
    destruct (quiescent_points w) as [Hid|[Hpk Hev]].
    - pose proof (l_place _ _ _ _ (v_loc _ _ I w Hw0)) as Hp. by rewrite Hid in Hp.
    - destruct (v_wake _ _ I quiescent_free w E Hpk Hev) as (u & _ & Hu).
      destruct (quiescent_not u) as (_ & _ & Hr). by rewrite (proj1 (not_responsible _ g Hr)) in Hu. }
  unfold queue. rewrite (m_out _ _ (v_mem _ _ I) Hi), (deck_list_nil _ (or_introl Hnull)).
  destruct (decide (g_cxq g = [] ∧ g_entry g = [])) as [[-> ->]|Hne]; [done|].
  destruct (v_succ _ _ I quiescent_free Hnull) as (u & _ & Hu).
  { destruct (decide (g_cxq g = [])), (decide (g_entry g = [])); naive_solver. }
  destruct (quiescent_not u) as (_ & _ & Hr). by destruct (not_responsible _ g Hr) as [_ []].
Qed.

Lemma quiescent_waiters t :
  pc s t = Idle ∨ pc s t = P_IWait W_park ∧ Notified (mon s) t = false.
Proof.
  destruct (quiescent_points t) as [|[Hpk _]]; [by left|]. right.
  destruct (decide (t = 0%Z)) as [->|Ht]; [by rewrite (v_zero _ _ I) in Hpk|].
  pose proof (v_loc _ _ I t Ht) as [_ _ _ _ Hp _ _]. pose proof quiescent_queue as Hqu.
  assert (OnDeck (mon s) ≠ deck_event t) as Hnd.
  { intros E. unfold queue in Hqu. rewrite (deck_list_event _ _ E) in Hqu.
    by apply app_eq_nil in Hqu as (_ & [_ [_ ?]%app_eq_nil]%app_eq_nil). }
  destruct (pc s t) as [| | | |? []| | | | | |[]| |]; try done; cbn -[queue events] in Hp;
    rewrite ?Hqu in Hp; try (by apply elem_of_nil in Hp).
  split; [done|]. destruct Hp as [Hev _]. unfold events in Hev. rewrite Hqu in Hev.
  by apply (m_unmarked _ _ (v_mem _ _ I)).
Qed.
End progress.

(** ** The properties *)

(** C7: Mutual exclusion and the assertions of the native monitor.  From the
    cleared monitor every interleaving of any number of threads that call
    [lock], [lock_without_safepoint_check], [try_lock], [unlock], [wait],
    [notify] and [notify_all], with any spinning, timeouts and suspensions,
    runs without violating an assertion of mutex.cpp (those on lock ranks and
    thread states, which look beyond one monitor, aside); at most one thread holds
    the lock, the lock byte is set while it does, and [_owner] names the thread
    that is inside. *)
Theorem monitor_excludes (F : MonitorFlags) (l : list (positive * choice)) :
  flag 32 = false →
  ∃ s, run l initial = Some s ∧
    (∀ t u : positive, owns (pc s (Zpos t)) = true → owns (pc s (Zpos u)) = true → t = u) ∧
    (∀ t : positive, owns (pc s (Zpos t)) = true → ILocked (mon s) = true) ∧
    (∀ t : positive, named (pc s (Zpos t)) = true ↔ owner (mon s) = Zpos t).
Proof.
  intros Hf. destruct (schedule_inv l ghost0 initial Hf inv_initial) as (g & s & Hr & I).
  exists s. split_and!; [done| | |].
  - intros t u Ho1 Ho2. apply (v_loc _ _ I (Zpos t)) in Ho1; [|done].
    apply (v_loc _ _ I (Zpos u)) in Ho2; [|done]. congruence.
  - intros t Ho. by eapply (owns_locked g s (Zpos t)).
  - intros t. by apply (v_loc _ _ I (Zpos t)).
Qed.

(** C8: The native monitor loses no wakeup.  When no thread is in its critical
    section and no thread of the monitor's code can take a step, every thread
    has left the monitor or is in [wait] and has not been notified: nobody is
    parked on the cxq, the EntryList or the deck of a free lock, and no
    notified thread sleeps. *)
Theorem monitor_loses_no_wakeup (F : MonitorFlags) (l : list (positive * choice)) (s : State) :
  flag 32 = false → run l initial = Some s → quiescent s →
  ∀ t, pc s t = Idle ∨ pc s t = P_IWait W_park ∧ Notified (mon s) t = false.
Proof.
  intros Hf Hr Hq t. destruct (schedule_inv l ghost0 initial Hf inv_initial) as (g & s' & Hr' & I).
  rewrite Hr in Hr'. injection Hr' as <-. eapply quiescent_waiters; eauto.
  intros u Hu. exact (run_idle l initial s u Hu eq_refl Hr).
Qed.

(** Thread 1 takes the lock and thread 2 queues and parks; the release puts
    thread 2 on deck, wakes it, and it enters. *)
Definition go (t : positive) (n : nat) : list (positive * choice) := replicate n (t, Go).
Definition contended : list (positive * choice) :=
  [(1%positive, Call_lock)] ++ go 1 2 ++
  [(2%positive, Call_lock); (2%positive, Go); (2%positive, GiveUp); (2%positive, Go);
   (2%positive, Go); (2%positive, Go); (2%positive, GiveUp)] ++ go 2 6 ++
  [(1%positive, Call_unlock)] ++ go 1 14 ++ go 2 7.

Lemma monitor_excludes_witness :
  ∃ s, @run 0%Z contended initial = Some s ∧ pc s 2 = Held ∧ pc s 1 = Idle ∧
    (∀ t u : positive, owns (pc s (Zpos t)) = true → owns (pc s (Zpos u)) = true → t = u).
Proof.
  destruct (monitor_excludes 0%Z contended) as (s & Hr & Hx & _); [reflexivity|].
  exists s. split; [exact Hr|]. vm_compute in Hr. injection Hr as <-.
  split; [reflexivity|]. split; [reflexivity|]. exact Hx.
Defined.

(** Thread 1 waits, and nobody has notified it. *)
Definition waiting : list (positive * choice) :=
  [(1%positive, Call_lock)] ++ go 1 2 ++ [(1%positive, Call_wait)] ++ go 1 12.

Lemma monitor_loses_no_wakeup_witness :
  ∃ s, @run 0%Z waiting initial = Some s ∧ @quiescent 0%Z s ∧
    ∀ t, pc s t = Idle ∨ pc s t = P_IWait W_park ∧ Notified (mon s) t = false.
Proof.
  destruct (@run 0%Z waiting initial) as [s|] eqn:Hr; [|discriminate Hr].
  exists s. split; [reflexivity|].
  assert (@quiescent 0%Z s) as Hq.
  { vm_compute in Hr. injection Hr as <-.
    intros t. destruct t; (split; [discriminate|reflexivity]). }
  split; [exact Hq|]. exact (monitor_loses_no_wakeup 0%Z waiting s eq_refl Hr Hq).
Defined.

(** With the experimental barging path ([NativeMonitorFlags & 32]) [ILock]
    stores its [Thread *] in [_OnDeck], where the loop it enters expects the
    thread's event: the assertion of that loop fails. *)
Definition barging : list (positive * choice) :=
  [(1%positive, Call_lock)] ++ go 1 2 ++
  [(2%positive, Call_lock); (2%positive, Go); (2%positive, GiveUp); (2%positive, Go);
   (2%positive, Go); (2%positive, Go); (2%positive, GiveUp)] ++ go 2 3.

Lemma barging_violates_assertion : @run 32%Z barging initial = None.
Proof. vm_compute. reflexivity. Qed.
